(* ===== verification/_CoqProject ===== *)
-Q . S2P
Prelude.v
Bytes.v
Text.v
Utf8.v
Strings.v
Sorting.v
Lifecycle.v
OperationSpec.v
SpeechRegistry.v
RouterRegistry.v
GenerationSupervisor.v
NativeRegistry.v
SpeculativeAdmission.v
TaskSupervisor.v
SpeechTypes.v
SpeechRouter.v
SpeechRouting.v
XzPreflight.v
ZipPreflight.v
Budget.v
PdfPreflight.v
PdfScan.v
MimePreflight.v
AttachmentTypes.v
MemberNames.v
Detect.v
AttachmentGraph.v
AttachmentPlan.v
AttachmentBuilder.v
AttachmentPlanTheorems.v
AttachmentToy.v
Inspection.v
InspectionContainers.v
InspectionRun.v
InspectionErrors.v
InspectionInvariant.v
InspectionHandlers.v
InspectionMembers.v
InspectionDocuments.v
InspectionGraph.v
InspectionResult.v
GenerationTypes.v
TokenBudget.v
GenerationEvidence.v
Cooperative.v
CooperativeSpec.v
CooperativeBooks.v
CooperativeStreams.v
CooperativeLoop.v
CooperativeTheorems.v
Merge.v
RevisionDiff.v
History.v
Projection.v
ContextSelection.v
Snapshot.v
NeuralGrammar.v
References.v
ZimReader.v
ZimClusters.v
ZimText.v
ZimDocuments.v
