(* ===== verification/Prelude.v ===== *)
(** * Verified components of the native platform

    This library models the parts of the repository that decide what the program does
    when things go wrong: who may end an operation and how often, when a shutdown is
    over, what is read from untrusted bytes, how competing edits are merged. Paths are
    relative to [src/].

    ** The components and how they interact

    The platform is a set of native services (speech, attachments, information), an
    engine that runs language models, and three products on top of them (Loom, Mom and
    the FTE router). Each service and product admits operations into a registry of its
    own, in front of one or more owned worker threads or tasks. Documents and
    attachments enter as untrusted bytes and leave as bounded text.

    - Lifecycle.v: [crates/operation-lifecycle]. [RunControl] is the atomic cell shared
      by the canceller and the executor of a run, [WorkerLedger] the bounded join history
      of a worker owner. Used by the generation supervisor.
    - OperationSpec.v: the abstract lifecycle (Reserved, Queued, Running, Terminal,
      Released) and the class [OperationOwner] of systems that move every operation along
      it. The four registries are instances, each in its file; the theorems about
      snapshots and released operations are proved once, against the class.
    - SpeechRegistry.v, RouterRegistry.v, NativeRegistry.v, GenerationSupervisor.v:
      [speech-native-host/operation_lifecycle.rs], [fte-router/operation_lifecycle.rs],
      [llama-native-engine/operation_registry.rs], [loom-host/generation_supervisor.rs].
      The struct behind the mutex is a record, its maps are [gmap]s; an [Arc]'ed cell (a
      released slot, a cancellation flag, an entry, a token) is named by its location in
      a list, so that aliasing is kept. Each critical section is one definition of the
      state-and-error monad [SM], with the guards in the order of the code; [Sys] and
      [call_step] let any number of clients with any leases make such calls in any order.
      [shutdown] of the native registry runs in several critical sections with a
      condition variable, as threads of a step relation.
    - SpeculativeAdmission.v: [generation_admission.rs], the lane for one speculative
      request, over the entries of NativeRegistry.v.
    - TaskSupervisor.v: [speech-native-types/task_supervisor.rs]. Tokio's handles and
      [Notify] are a class with their documented laws; spawned tasks, reapers and waiters
      are a step relation.
    - SpeechTypes.v, SpeechRouter.v: [speech-native-types/lib.rs] and
      [speech-native-router], the requests and capabilities of the speech services with
      their validation, and the choice of a backend for a request. SpeechRouting.v says
      which capabilities may serve a request, and has the theorems.
    - XzPreflight.v, ZipPreflight.v, PdfPreflight.v, MimePreflight.v, PdfScan.v, Budget.v:
      [attachment-native-inspect], the checks in front of the third-party decoders (byte
      parsers over lists of bytes, a walk over the parts of a mail), the scan of a loaded
      PDF and the ledger of what an inspection may spend.
    - MemberNames.v, Detect.v: [attachment-native-inspect/path.rs] and [detect.rs], what
      the name of an archive member becomes before it is kept or shown, and what kind of
      file some bytes are.
    - Inspection.v, InspectionContainers.v, InspectionRun.v:
      [attachment-native-inspect/lib.rs] and [mbox.rs], the inspection over all of these:
      [InspectionState] is a record, [expand_..] of a format, [finish_child] and the other
      methods are state-and-error programs over it, [run] takes objects from the queue
      until none is left and validates the graph it built. InspectionInvariant.v says what
      holds between two steps (the books of the budget, the queue, the objects and edges
      found so far); InspectionErrors.v, InspectionHandlers.v, InspectionMembers.v and
      InspectionDocuments.v keep it through every handler; InspectionGraph.v compares it
      with the validation, check by check; InspectionResult.v has the theorems.
    - AttachmentTypes.v, AttachmentGraph.v: [attachment-native-types], the graph of the
      objects found in an attachment, the artifacts and bytes of the bundle, the plan, the
      receipt, and the validation of each; what a valid graph and a valid bundle are.
    - AttachmentPlan.v: [attachment-native-plan], which prepares a bundle for a target.
      AttachmentBuilder.v keeps the invariant of the plan builder through its operations,
      AttachmentPlanTheorems.v has the theorems and AttachmentToy.v a bundle on which they
      are run.
    - Merge.v, RevisionDiff.v: [loom-document], the three-way merge and the presentation
      diff of texts. The diff engine [similar] is a parameter.
    - NeuralGrammar.v, References.v: [workspace-document], the expression language of
      document entries and the references in prose.
    - History.v, Projection.v, Snapshot.v, ContextSelection.v: [workspace-document], the
      graph of the branches of a document, its text as a sequence of parts, its durable
      form, which is resolved over both, and the choice of the history that goes into a
      context.
    - GenerationTypes.v, TokenBudget.v: [llama-native-types], the requests, events and
      outputs of a generation and [exact_token_budget.rs].
    - GenerationEvidence.v: of [llama-native-engine/lib.rs], the checks that turn the
      outputs of a batch into certified evidence, and the stop sequences.
    - Cooperative.v: [llama-native-engine/cooperative.rs], the owner thread that decodes
      several requests in one context, over NativeRegistry.v, SpeculativeAdmission.v and
      GenerationEvidence.v. The thread is a state-and-error monad over its own state and
      what it shares; between any two accesses to what is shared the environment may
      change it. CooperativeSpec.v states what a request generates alone ([drafts]) and
      the invariants, CooperativeBooks.v, CooperativeStreams.v and CooperativeLoop.v keep
      them through the operations, the step and the loop, CooperativeTheorems.v has the
      theorems and a small llama.cpp on which they are run.
    - ZimReader.v, ZimClusters.v, ZimText.v, ZimDocuments.v:
      [information-native-backend-zim], from the bytes of an OpenZIM archive to inert
      documents.

    Prelude.v (this file), Bytes.v, Text.v, Utf8.v, Strings.v and Sorting.v are shared:
    results and the monads, machine arithmetic, byte slices, strings as scalars, and what
    the standard library does on them.

    ** Conventions

    Integers are [Z] with the bound of their width written out ([checked_add u64_max]);
    [usize] is 64 bits wide. Unchecked arithmetic, indexing and slicing that could fail
    panic: [Panic] is a value of [fault], so that a theorem can exclude it. A [&str] is
    the list of its scalars and its offsets count bytes; a slice off a scalar boundary
    panics. A clock reading is an argument. A mutex can be poisoned where the code
    handles poison.

    A loop that is not structural carries fuel, and running out is [OutOfFuel], a value
    that the theorems exclude. The fuel is the length of what is left to read (every
    round of the loops of XzPreflight.v, ZipPreflight.v, PdfPreflight.v, NeuralGrammar.v,
    References.v and ZimText.v consumes a byte or a scalar), the number of things a walk can
    visit (the objects an inspection may find, the nodes of a PDF, the parts of a mail times
    their depths, the nodes of a history, the units of a context), the rest of a bound that the code itself
    enforces (the output limit of [read_derived_bounded], the nesting limit of the
    grammar, the work of a diff), or, for [claim_terminal], three accesses: its cell
    changes at most twice. The loop of the shared executor runs as long as commands come;
    its fuel counts rounds, and what is promised is promised within a number of rounds.

    What is not under [src/] is a parameter with its documented laws as hypotheses: the
    engine of [similar] (its operations are an edit script of its inputs), the word
    segmentation (the words concatenate to the text), llama.cpp and the decoder of
    encoding_rs ([Llama], with [LlamaLaws]: a decode call appends to the streams of its
    rows, the logits of a row follow its own stream), [char::is_alphanumeric] beyond
    ASCII, Tokio's [Notify] and [CancellationToken], the [std::io::Read] of a decoder, the
    archive, mail and PDF crates behind an inspection ([Parsers], with [ParserLaws]: a
    decoder is read to the end of its contents, a 7z reader keeps the limits it was given;
    [MailStream], with [MailStreamLaws]: a mail stream moves forward), the Zstandard
    stream, the recognition of [infer], the tokenizer of a caller, SHA-256 and hexadecimal,
    and the JSON encoder of serde. Every class of laws has an instance in the file that uses
    it, which the witnesses run.

    ** The groups of theorems

    - Operations: at most one claim and one cancellation win, under any interleaving
      ([run_control_single_winner]); snapshots refine the
      abstract lifecycle ([..._follow_lifecycle]); a released lease is inert; the
      compound operations succeed exactly under their guards ([..._exact]); cancellation
      reaches what it must.
    - Owners: a shutdown that returns left nothing behind, and returns
      ([native_shutdown_drains], [native_shutdown_returns],
      [generation_close_is_final]); the books of the task supervisor balance and no
      waiter is forgotten; the ledger of workers is exact.
    - Routing: a speech request goes to the best capability that meets it and its privacy
      policy, whatever the order of the reports ([speech_route_exact],
      [speech_routes_stay_private], [speech_route_order_independent]).
    - The shared executor: sharing the context changes nobody's result
      ([cooperative_outputs_are_own]), every command is answered once
      ([cooperative_answers_once]) and every live request in a bounded number of rounds
      ([cooperative_requests_finish]); evidence is given only for outputs that agree with
      what was generated ([authority_certifies]).
    - Parsers: each accepts exactly a grammar that is stated without offsets, limits or
      fuel ([xz_preflight_accepts_exactly_streams], [neural_command_exact],
      [zip_validate_directory_exact], [zim_directory_entry_exact],
      [zim_cluster_blobs_exact]), returns on every input, and what it returns is what the
      bytes say; a printer is its inverse where there is one.
    - Formats: the bytes of a blob decide what it is, not its names
      ([detection_follows_bytes], [zip_members_classified], [media_types_read_back]).
    - Names: an archive member gets a name that cannot leave the place it is shown in
      ([member_names_inert]); the predicate for device names is the one the tests keep as
      an oracle ([windows_device_names_exact]).
    - Budgets: what is charged is what was used, and it stays within its limits
      ([budget_usage_within_limits], [token_budget_exact], [pdf_preflight_bounds]).
    - Inspection: an inspection ends ([inspection_ends]) and either refuses with an error or
      returns the graph of all that it found, each object expanded once; where it fails as
      a whole although every member was handled is stated exactly
      ([inspection_accepts_exactly]).
    - Attachments: an accepted graph is a graph of depths and an accepted bundle holds what
      it says ([attachment_graph_depths], [attachment_bundle_sound]); a plan of a valid
      bundle is made and is valid ([attachment_plan_succeeds]), sends only what the
      evidence and the policy allow ([attachment_plan_routes_safely]), drops nothing
      silently ([attachment_plan_accounts]) and does not depend on the order of the
      artifacts ([attachment_plan_order_independent]).
    - Texts: a merge makes both edits, its conflicts are exactly the competing changes; a
      revision diff partitions both snapshots; references denote what is written there;
      an archive is turned into documents with every entry accounted for.
    - Documents: a history is indexed exactly if it is a forest, and its queries are those of
      the graph ([history_accepts_forests], [history_queries_exact]); a document holds what
      was put into it ([document_projection_exact]); a snapshot resolves to what it selects
      ([snapshot_resolves_exact]); the context is chosen greedily within its budgets
      ([context_selection_exact]).

    ** Not modelled

    Bindings and decoders (llama.cpp, Office documents, images, audio) are calls into code
    that is not here. Stores are SQL. Hosts, desktop plugins, the command lines and the
    network clients are glue over the parts above, or I/O: what they decide is decided by
    the store, the operating system or a service. Retrieval ranks by floating-point scores,
    sampling parameters and quotas are floating-point too. Of the cooperative executor,
    whether a full event channel drops an event is left out; of an inspection, running out
    of memory. The operation scopes of the Mom runtime and the contract of its managed
    documents live inside handlers of files and JSON and are not modelled apart from them. *)

(** ** This file

    Results and a small state-and-error monad (the shape of a Rust method that
    takes [&self] behind a [Mutex] and returns [Result]), checked and saturating
    machine arithmetic on [Z], byte slices, and the list and map lemmas and
    automation used by the components. *)

From stdpp Require Export base tactics option list numbers gmap fin_maps strings
  pretty sorting relations.
From Stdlib Require Export ZArith Lia Ascii.

#[export] Set Default Goal Selector "!".
Local Open Scope Z_scope.

(** ** Results *)

Inductive result (E A : Type) : Type :=
| Ok (a : A)
| Err (e : E).
Arguments Ok {E A} a.
Arguments Err {E A} e.

#[export] Instance result_eq_dec {E A} `{EqDecision E, EqDecision A} :
  EqDecision (result E A).
Proof. solve_decision. Defined.

#[export] Instance result_ret {E} : MRet (result E) := λ A a, Ok a.
#[export] Instance result_bind {E} : MBind (result E) := λ A B f m,
  match m with Ok a => f a | Err e => Err e end.

(** [o.ok_or(e)] *)
Definition ok_or {E A} (o : option A) (e : E) : result E A :=
  match o with Some a => Ok a | None => Err e end.

(** [if b { return Err(e) }] *)
Definition reject_if {E} (b : bool) (e : E) : result E unit :=
  if b then Err e else Ok tt.

Definition is_ok {E A} (r : result E A) : bool :=
  match r with Ok _ => true | Err _ => false end.

(** ** State and error *)

(** A method on shared state: it reads and writes the state [S], and returns a
    [Result]. An error keeps whatever had been written before it. *)
Definition SM (S E A : Type) : Type := S → result E A * S.

#[export] Instance sm_ret {S E} : MRet (SM S E) := λ A a s, (Ok a, s).
#[export] Instance sm_bind {S E} : MBind (SM S E) := λ A B f m s,
  match m s with
  | (Ok a, s') => f a s'
  | (Err e, s') => (Err e, s')
  end.

Definition sm_get {S E} : SM S E S := λ s, (Ok s, s).
Definition sm_modify {S E} (f : S → S) : SM S E unit := λ s, (Ok tt, f s).
Definition sm_throw {S E A} (e : E) : SM S E A := λ s, (Err e, s).
Definition sm_lift {S E A} (r : result E A) : SM S E A := λ s, (r, s).
Definition sm_reject_if {S E} (b : bool) (e : E) : SM S E unit :=
  sm_lift (reject_if b e).

(** A method that does not change what [π] reads of the state. *)
Definition keeps {S E A B} (π : S → B) (m : SM S E A) : Prop := ∀ s, π (m s).2 = π s.

Section Keeps.
Context {S E B : Type} (π : S → B).

Lemma keeps_bind {A C} (m : SM S E A) (f : A → SM S E C) :
  keeps π m → (∀ a, keeps π (f a)) → keeps π (m ≫= f).
Proof.
  intros Hm Hf s. specialize (Hm s). unfold mbind, sm_bind. destruct (m s) as [[a|e] s']; simpl in *; [|done].
  by rewrite Hf.
Qed.
Lemma keeps_ret {A} (a : A) : keeps π (mret (M:=SM S E) a).
Proof. done. Qed.
Lemma keeps_get : keeps π (sm_get (E:=E)).
Proof. done. Qed.
Lemma keeps_lift {A} (r : result E A) : keeps π (sm_lift r).
Proof. done. Qed.
Lemma keeps_throw {A} (e : E) : keeps π (sm_throw (A:=A) e).
Proof. done. Qed.
Lemma keeps_reject b (e : E) : keeps π (sm_reject_if b e).
Proof. done. Qed.
Lemma keeps_modify f : (∀ s, π (f s) = π s) → keeps π (sm_modify (E:=E) f).
Proof. intros Hf s. apply Hf. Qed.
End Keeps.

Create HintDb keeps.
#[export] Hint Resolve keeps_ret keeps_get keeps_lift keeps_throw keeps_reject : keeps.

(** One step of a proof of [keeps]. *)
Ltac keeps_step :=
  first [ solve [auto with keeps nocore]
        | apply keeps_bind; [|intros ?]
        | apply keeps_modify; intros ?; reflexivity
        | match goal with |- keeps _ (let '(_, _) := ?p in _) => destruct p end ].

(** A postcondition for the value and one for the error of a method. *)
Definition post {S E A} (m : SM S E A) (Q : A → S → Prop) (F : E → S → Prop) (s : S) : Prop :=
  match m s with (Ok a, s) => Q a s | (Err e, s) => F e s end.

Section Post.
Context {S E : Type}.

Lemma post_bind {A B} (m : SM S E A) (f : A → SM S E B) Q F s :
  post m (λ a, post (f a) Q F) F s → post (m ≫= f) Q F s.
Proof. unfold post, mbind, sm_bind. intros H. destruct (m s) as [[a|e] s']; exact H. Qed.
Lemma post_mono {A} (m : SM S E A) (Q Q' : A → S → Prop) (F F' : E → S → Prop) s :
  post m Q F s → (∀ a s', Q a s' → Q' a s') → (∀ e s', F e s' → F' e s') → post m Q' F' s.
Proof. unfold post. intros H HQ HF. destruct (m s) as [[a|e] s']; auto. Qed.
Lemma post_ret {A} (a : A) (Q : A → S → Prop) (F : E → S → Prop) s : Q a s → post (mret a) Q F s.
Proof. done. Qed.
Lemma post_get (Q : S → S → Prop) (F : E → S → Prop) s : Q s s → post sm_get Q F s.
Proof. done. Qed.
Lemma post_modify f (Q : unit → S → Prop) (F : E → S → Prop) s : Q tt (f s) → post (sm_modify f) Q F s.
Proof. done. Qed.
Lemma post_throw {A} (e : E) (Q : A → S → Prop) (F : E → S → Prop) s : F e s → post (sm_throw e) Q F s.
Proof. done. Qed.
Lemma post_lift {A} (r : result E A) (Q : A → S → Prop) (F : E → S → Prop) s :
  (∀ a, r = Ok a → Q a s) → (∀ e, r = Err e → F e s) → post (sm_lift r) Q F s.
Proof. unfold post, sm_lift. destruct r; eauto. Qed.
Lemma post_Ok {A} (m : SM S E A) Q F s a s' : post m Q F s → m s = (Ok a, s') → Q a s'.
Proof. unfold post. intros H Heq. by rewrite Heq in H. Qed.
End Post.

(** ** Machine integers

    An unsigned [w]-bit integer is a [Z] in [0, 2^w); [usize] is 64 bits wide. *)

Definition u8_max : Z := 2 ^ 8 - 1.
Definition u16_max : Z := 2 ^ 16 - 1.
Definition u32_max : Z := 2 ^ 32 - 1.
Definition u64_max : Z := 2 ^ 64 - 1.
Definition usize_max : Z := u64_max.

Definition checked_add (max a b : Z) : option Z :=
  if a + b <=? max then Some (a + b) else None.
Definition checked_mul (max a b : Z) : option Z :=
  if a * b <=? max then Some (a * b) else None.
Definition checked_sub (a b : Z) : option Z :=
  if b <=? a then Some (a - b) else None.
Definition saturating_add (max a b : Z) : Z := Z.min max (a + b).
Definition saturating_mul (max a b : Z) : Z := Z.min max (a * b).
Definition saturating_sub (a b : Z) : Z := Z.max 0 (a - b).
(** [T::try_from(v)] for an unsigned target. *)
Definition try_from (max v : Z) : option Z :=
  if v <=? max then Some v else None.

(** The length of a collection as a [usize]. *)
Definition len {A} (l : list A) : Z := Z.of_nat (length l).

(** ** Tactics *)

Create HintDb sm_ops.
Create HintDb len.
#[export] Hint Unfold mret mbind sm_ret sm_bind sm_get sm_modify sm_throw sm_lift
  sm_reject_if reject_if ok_or result_ret result_bind : sm_ops.

(** Unfold the monad, exposing the tests of a handler. *)
Ltac sm_unfold := repeat autounfold with sm_ops in *; simpl in *.

(** Case analysis along the tests of a handler, discarding impossible cases. *)
Ltac sm_cases :=
  repeat (case_match; simplify_eq/=; try done).

(** Turn boolean tests into propositions for [lia] and [simplify_eq]. *)
Ltac bool_prop :=
  repeat match goal with
  | H : _ && _ = true |- _ => apply andb_true_iff in H as [? ?]
  | H : _ && _ = false |- _ => apply andb_false_iff in H
  | H : _ || _ = false |- _ => apply orb_false_iff in H as [? ?]
  | H : _ || _ = true |- _ => apply orb_true_iff in H
  | H : negb _ = true |- _ => apply negb_true_iff in H
  | H : negb _ = false |- _ => apply negb_false_iff in H
  | H : bool_decide _ = true |- _ => apply bool_decide_eq_true in H
  | H : bool_decide _ = false |- _ => apply bool_decide_eq_false in H
  | H : (_ <=? _) = true |- _ => apply Z.leb_le in H
  | H : (_ <=? _) = false |- _ => apply Z.leb_gt in H
  | H : (_ <? _) = true |- _ => apply Z.ltb_lt in H
  | H : (_ <? _) = false |- _ => apply Z.ltb_ge in H
  | H : (_ =? _) = true |- _ => apply Z.eqb_eq in H
  | H : (_ =? _) = false |- _ => apply Z.eqb_neq in H
  end.

(** Equivalences between an equation on options and arithmetic facts. *)
Ltac arith_iff :=
  repeat split; intros; destruct_and?; simplify_eq; try lia; f_equal; lia.

(** ** Arithmetic lemmas *)

Lemma checked_add_Some max a b c :
  checked_add max a b = Some c ↔ c = a + b ∧ a + b ≤ max.
Proof. unfold checked_add. case_match; bool_prop; by arith_iff. Qed.

Lemma checked_add_is max a b : a + b ≤ max → checked_add max a b = Some (a + b).
Proof. intros. by apply checked_add_Some. Qed.

Lemma checked_add_None max a b : checked_add max a b = None ↔ max < a + b.
Proof. unfold checked_add. case_match; bool_prop; by arith_iff. Qed.

Lemma checked_mul_Some max a b c :
  checked_mul max a b = Some c ↔ c = a * b ∧ a * b ≤ max.
Proof. unfold checked_mul. case_match; bool_prop; by arith_iff. Qed.

Lemma checked_sub_Some a b c : checked_sub a b = Some c ↔ c = a - b ∧ b ≤ a.
Proof. unfold checked_sub. case_match; bool_prop; by arith_iff. Qed.

Lemma checked_sub_None a b : checked_sub a b = None ↔ a < b.
Proof. unfold checked_sub. case_match; bool_prop; by arith_iff. Qed.

Lemma try_from_Some max v w : try_from max v = Some w ↔ w = v ∧ v ≤ max.
Proof. unfold try_from. case_match; bool_prop; by arith_iff. Qed.

(** ** List and length lemmas *)

Lemma len_nil {A} : len (@nil A) = 0.
Proof. done. Qed.
Lemma len_cons {A} (x : A) l : len (x :: l) = 1 + len l.
Proof. unfold len. simpl. lia. Qed.
Lemma len_app {A} (l k : list A) : len (l ++ k) = len l + len k.
Proof. unfold len. rewrite length_app. lia. Qed.
Lemma len_nonneg {A} (l : list A) : 0 ≤ len l.
Proof. unfold len. lia. Qed.
#[export] Hint Rewrite @len_nil @len_cons @len_app : len.

(** The sum of a list *)
Definition total (l : list Z) : Z := foldr Z.add 0 l.
Lemma total_cons n l : total (n :: l) = n + total l.
Proof. done. Qed.
Lemma total_app l k : total (l ++ k) = total l + total k.
Proof. induction l as [|n l IH]; [done|]. change (n + total (l ++ k) = n + total l + total k). lia. Qed.
Lemma total_Permutation l k : l ≡ₚ k → total l = total k.
Proof. unfold total. induction 1; simpl; lia. Qed.
Lemma total_nonneg l : (∀ n, n ∈ l → 0 ≤ n) → 0 ≤ total l.
Proof.
  induction l as [|n l IH]; intros Hl; [done|]. rewrite total_cons. pose proof (Hl n ltac:(by left)).
  assert (0 ≤ total l) by (apply IH; intros m Hm; apply Hl; by right). lia.
Qed.
#[export] Hint Resolve len_nonneg : core.

(** A relation preserved by every step is preserved by every run. *)
Lemma rtc_preserves {A} (R : relation A) (P : A → Prop) :
  (∀ x y, R x y → P x → P y) → ∀ x y, rtc R x y → P x → P y.
Proof. intros HR x y Hxy. induction Hxy; eauto. Qed.

(** A reflexive and transitive relation that contains every step contains every run. *)
Lemma rtc_subrel {A} (R S : relation A) :
  (∀ x y, R x y → S x y) → Reflexive S → Transitive S →
  ∀ x y, rtc R x y → S x y.
Proof. intros HRS ? ? x y Hxy. induction Hxy; [done|etrans; eauto]. Qed.

(** The only entry of a map of size one. *)
Lemma map_size_one {K A} `{Countable K} (m : gmap K A) k x :
  m !! k = Some x → size m = 1%nat → m = {[k := x]}.
Proof.
  intros Hk Hs. rewrite <- (insert_delete_id m k x) in Hs |- * by done.
  rewrite map_size_insert_None in Hs by apply lookup_delete_eq.
  assert (delete k m = ∅) as -> by (apply map_size_empty_inv; lia). done.
Qed.

(** The last [n] entries of a log. *)
Definition last_n {A} (n : nat) (l : list A) : list A := drop (length l - n)%nat l.

Lemma last_n_app {A} n (l : list A) k : last_n n (last_n n l ++ [k]) = last_n n (l ++ [k]).
Proof.
  unfold last_n. rewrite !length_app, length_drop; simpl.
  destruct (decide (length l < n)%nat) as [Hl|Hl].
  - replace (length l - n)%nat with 0%nat by lia. by rewrite drop_0, Nat.sub_0_r.
  - rewrite <- drop_app_le by lia.
    rewrite drop_drop. f_equal. lia.
Qed.

Lemma last_n_incl {A} n (l : list A) k : k ∈ last_n n l → k ∈ l.
Proof.
  unfold last_n. intros Hk. rewrite <- (take_drop (length l - n) l).
  apply elem_of_app. by right.
Qed.

Lemma last_n_all {A} n (l : list A) : (length l ≤ n)%nat → last_n n l = l.
Proof. intros Hl. unfold last_n. by replace (length l - n)%nat with 0%nat by lia. Qed.

Lemma last_n_app_l {A} n (l k : list A) : last_n n (last_n n l ++ k) = last_n n (l ++ k).
Proof.
  revert l. induction k as [|x k IH] using rev_ind; intros l.
  - rewrite !app_nil_r. unfold last_n. rewrite length_drop, drop_drop. f_equal. lia.
  - rewrite !app_assoc, <- (last_n_app n (last_n n l ++ k)), IH. apply last_n_app.
Qed.

(** ** Order *)

(** Pairwise facts of a symmetric relation do not depend on the order. *)
Lemma StronglySorted_perm {A} (R : relation A) (l k : list A) :
  Symmetric R → l ≡ₚ k → StronglySorted R l → StronglySorted R k.
Proof.
  intros Hsym Hp. induction Hp as [|x l k Hp IH|x y l|l k m _ IH1 _ IH2]; intros Hs; auto.
  - apply StronglySorted_inv in Hs as [Hs Hx]. constructor; [by apply IH|]. by rewrite <- Hp.
  - apply StronglySorted_inv in Hs as [Hs Hx]. apply StronglySorted_inv in Hs as [Hs Hy].
    apply Forall_cons in Hx as [Hxy Hx]. repeat constructor; auto.
Qed.

Lemma StronglySorted_snoc {A} (R : relation A) (l : list A) x :
  StronglySorted R l → Forall (λ y, R y x) l → StronglySorted R (l ++ [x]).
Proof.
  induction l as [|y l IH]; intros Hs Hx; simpl; [by repeat constructor|].
  apply StronglySorted_inv in Hs as [Hs Hy]. apply Forall_cons in Hx as [? Hx].
  constructor; [by apply IH|]. apply Forall_app. by repeat constructor.
Qed.

Lemma StronglySorted_mono {A} (R S : relation A) (l : list A) :
  (∀ x y, R x y → S x y) → StronglySorted R l → StronglySorted S l.
Proof. intros HRS. induction 1; constructor; [done|]. eapply Forall_impl; eauto. Qed.

Lemma StronglySorted_lookup {A} (R : relation A) (l : list A) i j x y :
  StronglySorted R l → l !! i = Some x → l !! j = Some y → (i < j)%nat → R x y.
Proof.
  intros Hl. revert i j. induction Hl as [|z l _ IH Hz]; intros i j Hx Hy Hij; [done|].
  destruct j as [|j]; [lia|]. destruct i as [|i]; simpl in *; simplify_eq.
  - by eapply Forall_lookup_1 in Hz.
  - apply (IH i j); [done|done|lia].
Qed.

(** Comparisons that order a type, possibly up to ties, and their lexicographic
    composition (the [Ord] of a tuple). *)
Class Ordering {A} (cmp : A → A → comparison) : Prop := {
  cmp_refl x : cmp x x = Eq;
  cmp_antisym x y : cmp y x = CompOpp (cmp x y);
  cmp_trans x y z : cmp x y ≠ Gt → cmp y z ≠ Gt → cmp x z ≠ Gt;
}.

Definition lex {A} (c d : A → A → comparison) (x y : A) : comparison :=
  match c x y with Eq => d x y | r => r end.

#[export] Instance Zcompare_ordering : Ordering Z.compare.
Proof.
  split; [apply Z.compare_refl|intros; apply Z.compare_antisym|].
  intros x y z. destruct (Z.compare_spec x y), (Z.compare_spec y z), (Z.compare_spec x z); (done || lia).
Qed.

#[export] Instance on_ordering {A B} (f : A → B) c : Ordering c → Ordering (λ x y, c (f x) (f y)).
Proof. intros [??]. split; eauto. Qed.

Section Ordering.
Context {A : Type}.

Lemma cmp_eq_trans (c : A → A → comparison) `{!Ordering c} x y z :
  c x z = Eq → c x y ≠ Gt → c y z ≠ Gt → c x y = Eq ∧ c y z = Eq.
Proof.
  intros Hxz Hxy Hyz.
  assert (c z x ≠ Gt) as Hzx by by rewrite (cmp_antisym x z), Hxz.
  pose proof (cmp_trans y z x Hyz Hzx) as Hyx. pose proof (cmp_trans z x y Hzx Hxy) as Hzy.
  rewrite (cmp_antisym x y) in Hyx. rewrite (cmp_antisym y z) in Hzy.
  destruct (c x y), (c y z); done.
Qed.

#[export] Instance lex_ordering (c d : A → A → comparison) : Ordering c → Ordering d → Ordering (lex c d).
Proof.
  intros Hc Hd. split; unfold lex.
  - intros x. by rewrite !cmp_refl.
  - intros x y. rewrite (cmp_antisym (cmp:=c) x y), (cmp_antisym (cmp:=d) x y). by destruct (c x y).
  - intros x y z Hxy Hyz.
    assert (c x y ≠ Gt) as H1 by by destruct (c x y). assert (c y z ≠ Gt) as H2 by by destruct (c y z).
    pose proof (cmp_trans x y z H1 H2) as H3. destruct (c x z) eqn:Hxz; [|done|done].
    destruct (cmp_eq_trans c x y z Hxz H1 H2) as [E1 E2]. rewrite E1 in Hxy. rewrite E2 in Hyz.
    by apply (cmp_trans x y z).
Qed.

Lemma cmp_lt_trans (c : A → A → comparison) `{!Ordering c} x y z : c x y = Lt → c y z = Lt → c x z = Lt.
Proof.
  intros Hxy Hyz. assert (c x z ≠ Gt) as H by (apply (cmp_trans x y z); congruence).
  destruct (c x z) eqn:Hxz; [|done|done].
  destruct (cmp_eq_trans c x y z Hxz) as [? _]; congruence.
Qed.
End Ordering.

(** A sequence of fallible calls. *)
Lemma mapM_Ok {E A B} (f : A → result E B) (l : list A) (k : list B) :
  mapM f l = Ok k ↔ Forall2 (λ x y, f x = Ok y) l k.
Proof.
  revert k. induction l as [|x l IH]; intros k; simpl.
  { split; [intros [= <-]; constructor|by inversion 1]. }
  destruct (f x) as [y|e] eqn:Hx; simpl.
  - destruct (mapM f l) as [ys|e] eqn:Hm; simpl.
    + split.
      * intros [= <-]. constructor; [done|]. by apply IH.
      * inversion 1 as [|? y' ? ys' Hy Hys]; simplify_eq. apply IH in Hys. unfold mret, result_ret. congruence.
    + split; [done|]. inversion 1 as [|? y' ? ys' Hy Hys]; simplify_eq. apply IH in Hys. congruence.
  - split; [done|]. inversion 1. congruence.
Qed.

(** The iteration order of a [BTreeSet<String>] or of the keys of a [BTreeMap]. *)
Definition sorted_strings (l : list string) : list string :=
  merge_sort String.le l.

Lemma sorted_strings_perm l : sorted_strings l ≡ₚ l.
Proof. apply merge_sort_Permutation. Qed.

(** ** Strings with a separator *)

Fixpoint avoids (c : Ascii.ascii) (s : string) : Prop :=
  match s with
  | EmptyString => True
  | String d s => d ≠ c ∧ avoids c s
  end.

Lemma separator_inj c s1 s2 t1 t2 :
  avoids c s1 → avoids c s2 → s1 +:+ String c t1 = s2 +:+ String c t2 → s1 = s2 ∧ t1 = t2.
Proof.
  revert s2. induction s1 as [|d s1 IH]; intros [|e s2]; simpl; intros H1 H2 Heq.
  - by injection Heq.
  - injection Heq as Heq _. by destruct H2.
  - injection Heq as Heq _. by destruct H1.
  - injection Heq as -> Heq. destruct (IH s2) as [-> ->]; naive_solver.
Qed.

Lemma pretty_N_avoids c x s :
  (∀ n, pretty_N_char n ≠ c) → avoids c s → avoids c (pretty_N_go x s).
Proof.
  intros Hc. revert s. induction (N.lt_wf_0 x) as [x _ IH]; intros s Hs.
  destruct (decide (0 < x)%N) as [Hx|Hx].
  - rewrite pretty_N_go_step by done. apply IH; [by apply N.div_lt|]. simpl. auto.
  - replace x with 0%N by lia. by rewrite pretty_N_go_0.
Qed.

(** A number is written without colons. *)
Lemma pretty_Z_avoids_colon n : 0 ≤ n → avoids ":"%char (pretty n).
Proof.
  assert (∀ m, pretty_N_char m ≠ ":"%char) as Hc by (intros m; unfold pretty_N_char; repeat case_match; done).
  intros Hn. destruct n as [|p|p]; [done| |lia]. change (avoids ":"%char (pretty (N.pos p))).
  unfold pretty, pretty_N. case_decide; [done|]. by apply pretty_N_avoids.
Qed.
