(* ===== verification/Bytes.v ===== *)
(** * Bytes: byte slices, panics and fuel

    A byte slice is a [list Z] with every element in [0, 256). The operations a
    Rust parser performs on a [&[u8]] are here with their out-of-range
    behaviour: [.get] returns [None], indexing and slicing panic, unchecked
    [usize] arithmetic panics when it overflows (as in a build with overflow
    checks). Loops whose bound is not structural carry fuel; running out is a
    value of its own, so that termination is a theorem about it. *)

From S2P Require Import Prelude.
Local Open Scope Z_scope.

(** ** Outcomes of a parser *)

Inductive fault (E : Type) : Type :=
| Panic
| OutOfFuel
| Fail (e : E).
Arguments Panic {E}.
Arguments OutOfFuel {E}.
Arguments Fail {E} e.

Notation parse E := (result (fault E)).

(** [ok_or_else(|| e)?] and [if b { return Err(e) }]. *)
Definition need {E A} (o : option A) (e : E) : parse E A := ok_or o (Fail e).
Definition fail_if {E} (b : bool) (e : E) : parse E unit := reject_if b (Fail e).

(** [.map_err(f)] *)
Definition map_fault {E F A} (f : E → F) (r : parse E A) : parse F A :=
  match r with
  | Ok a => Ok a
  | Err (Fail e) => Err (Fail (f e))
  | Err Panic => Err Panic
  | Err OutOfFuel => Err OutOfFuel
  end.

(** A run that returned: a value or one of the parser's own errors. *)
Definition returns {E A} (r : parse E A) : Prop :=
  match r with
  | Ok _ | Err (Fail _) => True
  | Err Panic | Err OutOfFuel => False
  end.

(** A run that returned, with a postcondition on its value. *)
Definition returns_with {E A} (P : A → Prop) (r : parse E A) : Prop :=
  match r with
  | Ok a => P a
  | Err (Fail _) => True
  | Err Panic | Err OutOfFuel => False
  end.

Definition is_byte (b : Z) : Prop := 0 ≤ b < 256.
Notation bytes_ok := (Forall is_byte).

(** ** Slices *)

Definition sub_list (l : list Z) (a b : Z) : list Z :=
  take (Z.to_nat (b - a)) (drop (Z.to_nat a) l).

(** [bytes.get(i)] and [bytes.get(a..b)] *)
Definition get (l : list Z) (i : Z) : option Z :=
  if i <? len l then l !! Z.to_nat i else None.
Definition get_slice (l : list Z) (a b : Z) : option (list Z) :=
  if (a <=? b) && (b <=? len l) then Some (sub_list l a b) else None.

(** [bytes[i]] and [&bytes[a..b]] *)
Definition index {E} (l : list Z) (i : Z) : parse E Z := ok_or (get l i) Panic.
Definition slice {E} (l : list Z) (a b : Z) : parse E (list Z) :=
  ok_or (get_slice l a b) Panic.

(** Unchecked [usize] arithmetic. *)
Definition usize_add {E} (a b : Z) : parse E Z := ok_or (checked_add usize_max a b) Panic.
Definition usize_sub {E} (a b : Z) : parse E Z := ok_or (checked_sub a b) Panic.

(** ** Little- and big-endian integers *)

Definition le_value (l : list Z) : Z := foldr (λ b acc, b + 256 * acc) 0 l.
Definition be_value (l : list Z) : Z := foldl (λ acc b, 256 * acc + b) 0 l.

(** ** Lemmas *)

Section Returns.
Context {E A B : Type}.

Lemma returns_with_returns (P : A → Prop) (r : parse E A) : returns_with P r → returns r.
Proof. by destruct r as [a|[| |e]]. Qed.

Lemma returns_with_mono (P Q : A → Prop) (r : parse E A) :
  (∀ a, P a → Q a) → returns_with P r → returns_with Q r.
Proof. destruct r as [a|[| |e]]; simpl; auto. Qed.

Lemma returns_with_bind (P : A → Prop) (Q : B → Prop) (r : parse E A) (f : A → parse E B) :
  returns_with P r → (∀ a, P a → returns_with Q (f a)) → returns_with Q (r ≫= f).
Proof. destruct r as [a|[| |e]]; simpl; auto. Qed.

Lemma need_returns (o : option A) (e : E) : returns_with (λ a, o = Some a) (need o e).
Proof. by destruct o. Qed.

Lemma fail_if_returns (b : bool) (e : E) : returns_with (λ _, b = false) (fail_if b e).
Proof. by destruct b. Qed.

Lemma Ok_returns (P : A → Prop) a : P a → returns_with (E:=E) P (Ok a).
Proof. done. Qed.
Lemma Fail_returns (P : A → Prop) (e : E) : returns_with P (Err (Fail e)).
Proof. done. Qed.

Lemma need_Ok (o : option A) (e : E) a : need o e = Ok a ↔ o = Some a.
Proof. destruct o; naive_solver. Qed.

Lemma fail_if_Ok (b : bool) (e : E) u : fail_if b e = Ok u ↔ b = false.
Proof. destruct b, u; naive_solver. Qed.

Lemma bind_Ok (r : parse E A) (f : A → parse E B) b :
  (r ≫= f) = Ok b ↔ ∃ a, r = Ok a ∧ f a = Ok b.
Proof. destruct r; naive_solver. Qed.

End Returns.

Lemma map_fault_Ok {E F A} (f : E → F) (r : parse E A) a : map_fault f r = Ok a ↔ r = Ok a.
Proof. destruct r as [|[]]; simpl; split; congruence. Qed.

Lemma get_Some l i b : 0 ≤ i → get l i = Some b ↔ i < len l ∧ l !! Z.to_nat i = Some b.
Proof. unfold get. intros. case_match; bool_prop; naive_solver lia. Qed.

Lemma get_lt l i : 0 ≤ i < len l → ∃ b, get l i = Some b.
Proof.
  intros Hi. unfold get. rewrite (proj2 (Z.ltb_lt _ _)) by lia.
  apply lookup_lt_is_Some_2. unfold len in Hi. lia.
Qed.

Lemma get_byte l i b : bytes_ok l → 0 ≤ i → get l i = Some b → is_byte b.
Proof. intros Hl Hi [_ Hb]%get_Some; [|done]. by eapply Forall_lookup_1 in Hb. Qed.

Lemma get_slice_Some l a b k :
  get_slice l a b = Some k ↔ a ≤ b ≤ len l ∧ k = sub_list l a b.
Proof. unfold get_slice. case_match; bool_prop; naive_solver lia. Qed.

Lemma sub_list_len l a b : 0 ≤ a ≤ b → b ≤ len l → len (sub_list l a b) = b - a.
Proof. unfold len, sub_list. intros. rewrite length_take, length_drop. lia. Qed.

Lemma sub_list_bytes l a b : bytes_ok l → bytes_ok (sub_list l a b).
Proof. intros. unfold sub_list. by apply Forall_take, Forall_drop. Qed.

Lemma sub_list_split l a b c :
  0 ≤ a ≤ b → b ≤ c → sub_list l a c = sub_list l a b ++ sub_list l b c.
Proof.
  intros. unfold sub_list. replace (Z.to_nat (c - a)) with (Z.to_nat (b - a) + Z.to_nat (c - b))%nat by lia.
  rewrite <- take_take_drop, drop_drop. do 3 f_equal. lia.
Qed.

Lemma sub_list_nil l a b : b ≤ a → sub_list l a b = [].
Proof. intros. unfold sub_list. by replace (Z.to_nat (b - a)) with 0%nat by lia. Qed.

Lemma sub_list_one l i b : 0 ≤ i → get l i = Some b → sub_list l i (i + 1) = [b].
Proof.
  intros Hi [Hl Hb]%get_Some; [|done]. unfold sub_list.
  replace (Z.to_nat (i + 1 - i)) with 1%nat by lia.
  by rewrite (drop_S _ _ _ Hb).
Qed.

Lemma sub_list_cons l i b c :
  0 ≤ i < c → get l i = Some b → sub_list l i c = b :: sub_list l (i + 1) c.
Proof. intros Hi Hb. rewrite (sub_list_split l i (i + 1) c) by lia. by erewrite sub_list_one by (done || lia). Qed.

Lemma sub_list_sub l a b c d :
  0 ≤ a → 0 ≤ c ≤ d → a + d ≤ b → sub_list (sub_list l a b) c d = sub_list l (a + c) (a + d).
Proof.
  intros. unfold sub_list. rewrite skipn_firstn_comm, take_take, drop_drop.
  f_equal; [lia|]. f_equal. lia.
Qed.

Lemma sub_list_all l : sub_list l 0 (len l) = l.
Proof.
  unfold sub_list, len. change (Z.to_nat 0) with 0%nat. rewrite drop_0.
  apply take_ge. lia.
Qed.

Lemma sub_list_full l a b : 0 ≤ a → b = len l → sub_list l a b = drop (Z.to_nat a) l.
Proof. intros ? ->. unfold sub_list. apply take_ge. rewrite length_drop. unfold len. lia. Qed.

Lemma le_value_bound l : bytes_ok l → 0 ≤ le_value l < 2 ^ (8 * len l).
Proof.
  intros Hl. induction Hl as [|b l [Hb1 Hb2] _ IH]; [done|]. simpl le_value.
  rewrite len_cons. replace (8 * (1 + len l)) with (8 + 8 * len l) by lia.
  rewrite Z.pow_add_r by (pose proof (len_nonneg l); lia). lia.
Qed.

(** ** Slices as Rust allocates them *)

Definition isize_max : Z := 2 ^ 63 - 1.

(** A slice: bytes, and no longer than any allocation can be. *)
Definition slice_ok (l : list Z) : Prop := bytes_ok l ∧ len l ≤ isize_max.

Lemma slice_ok_sub l a b : slice_ok l → slice_ok (sub_list l a b).
Proof.
  intros [Hl Hn]. split; [by apply sub_list_bytes|].
  unfold len, sub_list in *. rewrite length_take, length_drop. lia.
Qed.

(** A property of bytes is checked on the 256 of them. *)
Lemma byte_cases (P : Z → bool) b : forallb P (seqZ 0 256) = true → is_byte b → P b = true.
Proof.
  intros HP [Hb1 Hb2]. rewrite forallb_forall in HP. apply HP.
  apply list_elem_of_In, elem_of_seqZ. lia.
Qed.

Lemma lor_shiftl_add v x i : 0 ≤ i → 0 ≤ v < 2 ^ i → Z.lor v (Z.shiftl x i) = v + x * 2 ^ i.
Proof.
  intros Hi Hv. rewrite <- Z.shiftl_mul_pow2 by done.
  rewrite <- (Z.add_lor_land v (Z.shiftl x i)).
  assert (Z.land v (Z.shiftl x i) = 0) as ->; [|lia].
  apply Z.bits_inj'. intros n Hn. rewrite Z.land_spec, Z.bits_0.
  destruct (decide (n < i)) as [Hni|Hni].
  - rewrite Z.shiftl_spec_low by lia. apply andb_false_r.
  - rewrite <- (Z.mod_small v (2 ^ i)) by done. rewrite Z.mod_pow2_bits_high by lia. done.
Qed.

(** ** Stepping through a parser *)

Section Steps.
Context {E : Type}.

Lemma usize_add_returns a b :
  a + b ≤ usize_max → returns_with (λ c, c = a + b) (usize_add (E:=E) a b).
Proof. intros. unfold usize_add, checked_add. by rewrite (proj2 (Z.leb_le _ _)). Qed.

Lemma usize_sub_returns a b :
  b ≤ a → returns_with (λ c, c = a - b) (usize_sub (E:=E) a b).
Proof. intros. unfold usize_sub, checked_sub. by rewrite (proj2 (Z.leb_le _ _)). Qed.

Lemma index_returns l i :
  0 ≤ i < len l → returns_with (λ b, get l i = Some b) (index (E:=E) l i).
Proof. intros [b Hb]%get_lt. unfold index. by rewrite Hb. Qed.

Lemma slice_returns l a b :
  a ≤ b ≤ len l → returns_with (λ k, k = sub_list l a b) (slice (E:=E) l a b).
Proof. intros. unfold slice. by rewrite (proj2 (get_slice_Some l a b _) (conj H eq_refl)). Qed.

Lemma usize_add_Ok a b c : usize_add (E:=E) a b = Ok c ↔ c = a + b ∧ a + b ≤ usize_max.
Proof. unfold usize_add. rewrite <- checked_add_Some. destruct (checked_add _ _ _); naive_solver. Qed.

Lemma usize_sub_Ok a b c : usize_sub (E:=E) a b = Ok c ↔ c = a - b ∧ b ≤ a.
Proof. unfold usize_sub. rewrite <- checked_sub_Some. destruct (checked_sub _ _); naive_solver. Qed.

Lemma index_Ok l i b : index (E:=E) l i = Ok b ↔ get l i = Some b.
Proof. unfold index. destruct (get l i); naive_solver. Qed.

Lemma slice_Ok l a b k : slice (E:=E) l a b = Ok k ↔ a ≤ b ≤ len l ∧ k = sub_list l a b.
Proof. unfold slice. rewrite <- get_slice_Some. destruct (get_slice l a b); naive_solver. Qed.

Lemma returns_with_if {A} (Q : A → Prop) (b : bool) (x y : parse E A) :
  (b = true → returns_with Q x) → (b = false → returns_with Q y) →
  returns_with Q (if b then x else y).
Proof. destruct b; auto. Qed.

End Steps.

(** One step of a parser: the bound action is discharged by its lemma and its
    postcondition is introduced; side conditions are left to [lia]. *)
Ltac parse_step :=
  lazymatch goal with
  | |- returns_with _ (fail_if _ _ ≫= _) =>
      eapply returns_with_bind; [apply fail_if_returns|intros [] ?; bool_prop]
  | |- returns_with _ (need _ _ ≫= _) =>
      eapply returns_with_bind; [apply need_returns|cbv beta; intros ? ?]
  | |- returns_with _ (usize_add _ _ ≫= _) =>
      eapply returns_with_bind; [apply usize_add_returns|intros ? ->]
  | |- returns_with _ (usize_sub _ _ ≫= _) =>
      eapply returns_with_bind; [apply usize_sub_returns|intros ? ->]
  | |- returns_with _ (index _ _ ≫= _) =>
      eapply returns_with_bind; [apply index_returns|cbv beta; intros ? ?]
  | |- returns_with _ (slice _ _ _ ≫= _) =>
      eapply returns_with_bind; [apply slice_returns|intros ? ->]
  | |- returns_with _ (if _ then _ else _) =>
      apply returns_with_if; intros; bool_prop
  | |- returns_with _ (Err (Fail _)) => apply Fail_returns
  | |- returns_with _ (Ok _) => apply Ok_returns
  end.

(** The facts behind successful conversions and checked arithmetic. *)
Ltac option_facts :=
  repeat match goal with
  | H : try_from _ _ = Some _ |- _ => apply try_from_Some in H as [-> ?]
  | H : checked_add _ _ _ = Some _ |- _ => apply checked_add_Some in H as [-> ?]
  | H : checked_sub _ _ = Some _ |- _ => apply checked_sub_Some in H as [-> ?]
  | H : get_slice _ _ _ = Some _ |- _ => apply get_slice_Some in H as [? ?]
  end.

(** Rewrite a run on known data: each action is replaced by its value. *)
Lemma fail_if_false {E} (b : bool) (e : E) : b = false → fail_if b e = Ok tt.
Proof. by intros ->. Qed.
Lemma need_is {E A} (o : option A) (e : E) a : o = Some a → need o e = Ok a.
Proof. by intros ->. Qed.
Lemma Ok_bind {E A B} (r : parse E A) (f : A → parse E B) a x :
  r = Ok a → f a = x → (r ≫= f) = x.
Proof. by intros -> <-. Qed.

(** ** Windows of a slice *)

Lemma sub_list_len_le l a b : 0 ≤ a → len (sub_list l a b) ≤ Z.max 0 (b - a).
Proof. intros. unfold len, sub_list. rewrite length_take, length_drop. lia. Qed.

Lemma sub_list_app_inv l a b x y :
  0 ≤ a ≤ b → b ≤ len l → sub_list l a b = x ++ y →
  a + len x ≤ b ∧ sub_list l a (a + len x) = x ∧ sub_list l (a + len x) b = y.
Proof.
  intros Hab Hb Hs. pose proof (len_nonneg x). pose proof (len_nonneg y).
  assert (a + len x ≤ b) as Hx.
  { pose proof (sub_list_len l a b ltac:(lia) Hb) as Hn. rewrite Hs, len_app in Hn. lia. }
  rewrite (sub_list_split l a (a + len x) b) in Hs by lia.
  apply app_inj_1 in Hs as [??]; [done|].
  pose proof (sub_list_len l a (a + len x)) as Hn. unfold len in *. lia.
Qed.

Lemma sub_list_app l a b c x y :
  0 ≤ a ≤ b → b ≤ c → sub_list l a b = x → sub_list l b c = y → sub_list l a c = x ++ y.
Proof. intros ?? <- <-. by apply sub_list_split. Qed.

Lemma get_sub_list l c c' i x k :
  0 ≤ c → 0 ≤ i → c' ≤ len l → sub_list l c c' = k → k !! Z.to_nat i = Some x →
  get l (c + i) = Some x.
Proof.
  intros Hc Hi Hc' <- Hx. apply get_Some; [lia|].
  unfold sub_list in Hx. apply lookup_take_Some in Hx as [Hx Hlt].
  rewrite lookup_drop in Hx. rewrite <- Z2Nat.inj_add in Hx by lia. split; [|done]. lia.
Qed.

(** The check that a literal is a slice. *)
Lemma slice_ok_check l :
  forallb (λ b, (0 <=? b) && (b <? 256)) l && (len l <=? isize_max) = true → slice_ok l.
Proof.
  rewrite andb_true_iff, forallb_forall, Z.leb_le. intros [Hb Hn]. split; [|done].
  apply Forall_forall. intros b Hin%list_elem_of_In. specialize (Hb b Hin). unfold is_byte.
  bool_prop. lia.
Qed.

(** ** Encoded integers, and what lies at a position *)

Fixpoint le_bytes (n : nat) (v : Z) : list Z :=
  match n with O => [] | S n => v mod 256 :: le_bytes n (v / 256) end.

Lemma le_bytes_len n v : len (le_bytes n v) = Z.of_nat n.
Proof. revert v. induction n as [|n IH]; intros v; [done|]. simpl le_bytes. rewrite len_cons, IH. lia. Qed.

Lemma le_bytes_ok n v : bytes_ok (le_bytes n v).
Proof.
  revert v. induction n as [|n IH]; intros v; constructor; [|done]. apply (Z.mod_pos_bound v 256). lia.
Qed.

Lemma le_value_le_bytes n v : 0 ≤ v < 2 ^ (8 * Z.of_nat n) → le_value (le_bytes n v) = v.
Proof.
  revert v. induction n as [|n IH]; intros v Hv; [change (2 ^ _) with 1 in Hv; simpl; lia|].
  simpl le_bytes. change (le_value (?a :: ?b)) with (a + 256 * le_value b). rewrite IH.
  { pose proof (Z_div_mod_eq_full v 256). lia. }
  replace (8 * Z.of_nat (S n)) with (8 + 8 * Z.of_nat n) in Hv by lia. rewrite Z.pow_add_r in Hv by lia.
  split; [apply Z.div_pos; lia|apply Z.div_lt_upper_bound; lia].
Qed.

Lemma le_bytes_le_value l : bytes_ok l → le_bytes (length l) (le_value l) = l.
Proof.
  induction 1 as [|b l Hb _ IH]; [done|]. simpl. unfold is_byte in Hb.
  rewrite (Z.mul_comm 256), Z.mod_add, Z.div_add, Z.mod_small, Z.div_small by lia. by rewrite Z.add_0_l, IH.
Qed.

#[global] Arguments le_bytes : simpl never.

Definition here (l : list Z) (p : Z) (x : list Z) : Prop :=
  p + len x ≤ len l ∧ sub_list l p (p + len x) = x.

Lemma here_app l p x y : 0 ≤ p → here l p (x ++ y) ↔ here l p x ∧ here l (p + len x) y.
Proof.
  intros Hp. pose proof (len_nonneg x). pose proof (len_nonneg y). unfold here. rewrite len_app, Z.add_assoc. split.
  - intros [Hl Hs]. apply sub_list_app_inv in Hs as (? & ? & ?); [|lia|lia]. split; split; (done || lia).
  - intros [[? Hx] [? Hy]]. split; [lia|]. apply (sub_list_app l p (p + len x)); (done || lia).
Qed.

Lemma here_drop l p x : 0 ≤ p → here l p x ↔ p ≤ len l ∧ ∃ y, drop (Z.to_nat p) l = x ++ y.
Proof.
  intros Hp. unfold here, sub_list, len. replace (p + Z.of_nat (length x) - p) with (Z.of_nat (length x)) by lia.
  rewrite Nat2Z.id. split.
  - intros [Hl Hx]. split; [lia|]. exists (drop (length x) (drop (Z.to_nat p) l)). rewrite <- Hx at 1. by rewrite take_drop.
  - intros [Hl [y Hy]]. split.
    + assert (length (drop (Z.to_nat p) l) = length (x ++ y)) as Hn by by rewrite Hy.
      rewrite length_drop, length_app in Hn. lia.
    + rewrite Hy. by rewrite take_app_length.
Qed.

Lemma here_slice l p n k :
  0 ≤ p → get_slice l p (p + n) = Some k ↔ 0 ≤ n ∧ len k = n ∧ here l p k.
Proof.
  intros Hp. rewrite get_slice_Some. unfold here. split.
  - intros [? ->]. rewrite sub_list_len by lia. replace (p + (p + n - p)) with (p + n) by lia. split_and!; (done || lia).
  - intros (? & <- & ? & ?). split; [lia|done].
Qed.

Lemma here_sub l a n p x :
  0 ≤ a → 0 ≤ n → a + n ≤ len l → 0 ≤ p →
  here (sub_list l a (a + n)) p x ↔ p + len x ≤ n ∧ here l (a + p) x.
Proof.
  intros Ha Hn Hl Hp. pose proof (len_nonneg x). unfold here. rewrite sub_list_len by lia.
  replace (a + n - a) with n by lia. rewrite <- Z.add_assoc.
  split; intros Hh; destruct_and! Hh; (split; [lia|]); rewrite sub_list_sub in * by lia; [split; (done || lia)|done].
Qed.
