(* ===== verification/Text.v ===== *)
(** * Text: strings as sequences of Unicode scalars

    A Rust [&str] is the list of its scalar values; its length and its indices
    count UTF-8 bytes. [.get(a..b)] answers only on scalar boundaries. *)

From S2P Require Import Prelude.
Local Open Scope Z_scope.

Notation text := (list Z).

(** [char::len_utf8] *)
Definition len_utf8 (c : Z) : Z :=
  if c <? 128 then 1 else if c <? 2048 then 2 else if c <? 65536 then 3 else 4.

(** [str::len] *)
Fixpoint str_len (t : text) : Z :=
  match t with
  | [] => 0
  | c :: t => len_utf8 c + str_len t
  end.

(** The number of scalars in front of byte [b], if [b] is a scalar boundary. *)
Fixpoint boundary (t : text) (b : Z) : option nat :=
  if b =? 0 then Some 0%nat
  else match t with
       | [] => None
       | c :: t => if b <? len_utf8 c then None else S <$> boundary t (b - len_utf8 c)
       end.

(** The scalars from index [i] to index [j]. *)
Definition span {A} (t : list A) (i j : nat) : list A := take (j - i) (drop i t).

(** [text.get(a..b)] *)
Definition str_get (t : text) (a b : Z) : option text :=
  if b <? a then None
  else i ← boundary t a ; j ← boundary t b ; Some (span t i j).

(** [char_indices], with the length of the text behind the last index *)
Fixpoint offsets_from (b : Z) (t : text) : list Z :=
  match t with
  | [] => [b]
  | c :: t => b :: offsets_from (b + len_utf8 c) t
  end.

(** [str::cmp]: bytewise, which for UTF-8 is the order of the scalars. *)
Fixpoint str_cmp (s t : text) : comparison :=
  match s, t with
  | [], [] => Eq
  | [], _ :: _ => Lt
  | _ :: _, [] => Gt
  | c :: s, d :: t => match c ?= d with Eq => str_cmp s t | r => r end
  end.

(** The byte offset of scalar [i]. *)
Definition off (t : text) (i : nat) : Z := str_len (take i t).

(** ** Lengths and offsets *)

Lemma len_utf8_pos c : 1 ≤ len_utf8 c ≤ 4.
Proof. unfold len_utf8. repeat case_match; lia. Qed.

Lemma str_len_app s t : str_len (s ++ t) = str_len s + str_len t.
Proof. induction s; simpl; lia. Qed.

Lemma str_len_nonneg t : 0 ≤ str_len t.
Proof. induction t as [|c t IH]; simpl; [lia|]. pose proof (len_utf8_pos c). lia. Qed.
#[export] Hint Resolve str_len_nonneg : core.

Lemma str_len_ge_length t : len t ≤ str_len t.
Proof. induction t as [|c t IH]; [done|]. rewrite len_cons. simpl. pose proof (len_utf8_pos c). lia. Qed.

Lemma off_0 t : off t 0 = 0.
Proof. done. Qed.
Lemma off_length t : off t (length t) = str_len t.
Proof. unfold off. by rewrite firstn_all. Qed.
Lemma off_cons c t i : off (c :: t) (S i) = len_utf8 c + off t i.
Proof. done. Qed.
Lemma off_nonneg t i : 0 ≤ off t i.
Proof. apply str_len_nonneg. Qed.
#[export] Hint Resolve off_nonneg : core.

Lemma span_off t i j : (i ≤ j ≤ length t)%nat → str_len (span t i j) = off t j - off t i.
Proof.
  intros Hij. unfold off. rewrite <- (take_drop i (take j t)), str_len_app.
  rewrite take_take, Nat.min_l by lia. unfold span. rewrite skipn_firstn_comm. lia.
Qed.

Lemma off_lt t i j : (i < j ≤ length t)%nat → off t i < off t j.
Proof.
  intros Hij. pose proof (span_off t i j ltac:(lia)) as Hs.
  pose proof (str_len_ge_length (span t i j)) as Hl. unfold len, span in Hl.
  rewrite length_take, length_drop in Hl. unfold span in Hs. lia.
Qed.

Lemma off_le t i j : (i ≤ j ≤ length t)%nat → off t i ≤ off t j.
Proof. intros Hij. destruct (decide (i = j)) as [->|]; [done|]. apply Z.lt_le_incl, off_lt. lia. Qed.

Lemma off_le_len t i : off t i ≤ str_len t.
Proof.
  unfold off. rewrite <- (take_drop i t) at 2. rewrite str_len_app.
  pose proof (str_len_nonneg (drop i t)). lia.
Qed.

(** Offsets compare as indices. *)
Lemma off_lt_iff t i j :
  (i ≤ length t)%nat → (j ≤ length t)%nat → off t i < off t j ↔ (i < j)%nat.
Proof.
  intros Hi Hj. split; [|intros; apply off_lt; lia].
  intros Hlt. destruct (decide (i < j)%nat); [done|]. pose proof (off_le t j i). lia.
Qed.
Lemma off_eq_iff t i j :
  (i ≤ length t)%nat → (j ≤ length t)%nat → off t i = off t j ↔ i = j.
Proof.
  intros Hi Hj. split; [|by intros ->].
  intros Heq. pose proof (off_lt_iff t i j Hi Hj). pose proof (off_lt_iff t j i Hj Hi). lia.
Qed.

Lemma boundary_off t i : (i ≤ length t)%nat → boundary t (off t i) = Some i.
Proof.
  revert i. induction t as [|c t IH]; intros [|i] Hi; simpl in Hi; [done|lia|done|].
  rewrite off_cons. simpl. pose proof (len_utf8_pos c). pose proof (off_nonneg t i).
  rewrite (proj2 (Z.eqb_neq _ _)), (proj2 (Z.ltb_ge _ _)) by lia.
  replace (len_utf8 c + off t i - len_utf8 c) with (off t i) by lia. rewrite IH by lia. done.
Qed.

Lemma str_get_off t i j :
  (i ≤ j ≤ length t)%nat → str_get t (off t i) (off t j) = Some (span t i j).
Proof.
  intros Hij. unfold str_get. rewrite (proj2 (Z.ltb_ge _ _)) by by apply off_le.
  by rewrite !boundary_off by lia.
Qed.

Lemma str_get_full t i : (i ≤ length t)%nat → str_get t (off t i) (str_len t) = Some (drop i t).
Proof.
  intros Hi. rewrite <- off_length, str_get_off by lia. unfold span. f_equal. apply take_ge.
  rewrite length_drop. lia.
Qed.

(** The offsets of a part of a text, from those of the text. *)
Lemma off_drop t p i : off (drop p t) i = off t (p + i) - off t p.
Proof.
  unfold off. rewrite <- (take_take_drop t p i), str_len_app. lia.
Qed.

Lemma off_take t e i : (i ≤ e)%nat → off (take e t) i = off t i.
Proof. intros. unfold off. rewrite take_take, Nat.min_l by lia. done. Qed.

Lemma offsets_from_lookup b t i :
  (i ≤ length t)%nat → offsets_from b t !! i = Some (b + off t i).
Proof.
  revert b i. induction t as [|c t IH]; intros b [|i] Hi; simpl in *; try lia.
  - by rewrite off_0, Z.add_0_r.
  - by rewrite off_0, Z.add_0_r.
  - rewrite IH by lia. rewrite off_cons. f_equal. lia.
Qed.

Lemma offsets_from_length b t : length (offsets_from b t) = S (length t).
Proof. revert b. induction t as [|c t IH]; intros b; simpl; [done|by rewrite IH]. Qed.

(** ** Spans *)

Lemma span_nil {A} (t : list A) i : span t i i = [].
Proof. unfold span. by rewrite Nat.sub_diag. Qed.
Lemma span_all {A} (t : list A) : span t 0 (length t) = t.
Proof. unfold span. rewrite Nat.sub_0_r, drop_0. apply firstn_all. Qed.
Lemma span_app {A} (t : list A) i j k : (i ≤ j ≤ k)%nat → span t i k = span t i j ++ span t j k.
Proof.
  intros. unfold span. replace (k - i)%nat with ((j - i) + (k - j))%nat by lia.
  rewrite <- take_take_drop, drop_drop. do 3 f_equal. lia.
Qed.
Lemma span_length {A} (t : list A) i j : (i ≤ j ≤ length t)%nat → length (span t i j) = (j - i)%nat.
Proof. intros. unfold span. rewrite length_take, length_drop. lia. Qed.
Lemma span_to_end {A} (t : list A) i : span t i (length t) = drop i t.
Proof. unfold span. apply take_ge. rewrite length_drop. lia. Qed.
Lemma span_from_start {A} (t : list A) j : span t 0 j = take j t.
Proof. unfold span. by rewrite Nat.sub_0_r, drop_0. Qed.
(** A span of a span. *)
Lemma span_span {A} (t : list A) i j a b :
  (a ≤ b)%nat → (i + b ≤ j)%nat → span (span t i j) a b = span t (i + a) (i + b).
Proof.
  intros. unfold span. rewrite skipn_firstn_comm, take_take, drop_drop, Nat.min_l by lia.
  f_equal. lia.
Qed.

(** ** The order of texts *)

Lemma str_cmp_refl s : str_cmp s s = Eq.
Proof. induction s as [|c s IH]; simpl; [done|]. by rewrite Z.compare_refl. Qed.

Lemma str_cmp_eq s t : str_cmp s t = Eq → s = t.
Proof.
  revert t. induction s as [|c s IH]; intros [|d t]; simpl; try done.
  destruct (Z.compare_spec c d); try done. intros. f_equal; auto.
Qed.

Lemma str_cmp_antisym s t : str_cmp t s = CompOpp (str_cmp s t).
Proof.
  revert t. induction s as [|c s IH]; intros [|d t]; simpl; try done.
  rewrite (Z.compare_antisym c d). destruct (c ?= d); simpl; auto.
Qed.

Lemma str_cmp_trans s t u :
  str_cmp s t ≠ Gt → str_cmp t u ≠ Gt → str_cmp s u ≠ Gt.
Proof.
  revert t u. induction s as [|c s IH]; intros [|d t] [|e u]; simpl; try done.
  destruct (Z.compare_spec c d), (Z.compare_spec d e), (Z.compare_spec c e); subst; try done; try lia.
  apply IH.
Qed.

#[export] Instance str_cmp_ordering : Ordering str_cmp.
Proof. split; [apply str_cmp_refl|intros; apply str_cmp_antisym|apply str_cmp_trans]. Qed.

(** ** Whitespace, prefixes and suffixes *)

(** [char::is_whitespace]: the scalars with the Unicode property White_Space. *)
Definition is_whitespace (c : Z) : bool :=
  ((9 <=? c) && (c <=? 13)) || (c =? 32) || (c =? 133) || (c =? 160) || (c =? 5760)
  || ((8192 <=? c) && (c <=? 8202)) || (c =? 8232) || (c =? 8233) || (c =? 8239)
  || (c =? 8287) || (c =? 12288).

(** [trim_start_matches] of a predicate, and [trim_start] *)
Fixpoint trim_start_by (p : Z → bool) (t : text) : text :=
  match t with
  | [] => []
  | c :: t' => if p c then trim_start_by p t' else t
  end.
Definition trim_start : text → text := trim_start_by is_whitespace.
(** [trim_end_matches] of a predicate, and [trim] *)
Definition trim_end_by (p : Z → bool) (t : text) : text := reverse (trim_start_by p (reverse t)).
Definition trim (t : text) : text := trim_end_by is_whitespace (trim_start t).

(** [starts_with] a string *)
Fixpoint starts_with (t token : text) : bool :=
  match token, t with
  | [], _ => true
  | _ :: _, [] => false
  | d :: token, c :: t => (c =? d) && starts_with t token
  end.

(** [strip_prefix] *)
Definition strip_prefix (t token : text) : option text :=
  if starts_with t token then Some (drop (length token) t) else None.

(** An ASCII string literal of the source. *)
Definition str (s : string) : text := (λ a, Z.of_nat (Ascii.nat_of_ascii a)) <$> String.list_ascii_of_string s.

Lemma starts_with_true t token : starts_with t token = true ↔ ∃ s, t = token ++ s.
Proof.
  revert t. induction token as [|d token IH]; intros [|c t]; simpl.
  - naive_solver.
  - naive_solver.
  - split; [done|]. intros [s [=]].
  - rewrite andb_true_iff, Z.eqb_eq, IH. naive_solver.
Qed.

Lemma starts_with_nil t : starts_with t [] = true.
Proof. by destruct t. Qed.

Lemma starts_with_app token s : starts_with (token ++ s) token = true.
Proof. apply starts_with_true. eauto. Qed.

Lemma starts_with_false t token : starts_with t token = false → ∀ s, t ≠ token ++ s.
Proof. intros Hf s ->. by rewrite starts_with_app in Hf. Qed.

Lemma strip_prefix_Some t token s : strip_prefix t token = Some s ↔ t = token ++ s.
Proof.
  unfold strip_prefix. destruct (starts_with t token) eqn:Hs.
  - apply starts_with_true in Hs as [s' ->]. rewrite drop_app_length. naive_solver.
  - split; [done|]. intros ->. by rewrite starts_with_app in Hs.
Qed.

Lemma trim_start_by_suffix p t : trim_start_by p t `suffix_of` t.
Proof. induction t as [|c t IH]; simpl; [done|]. case_match; [by apply suffix_cons_r|done]. Qed.
Lemma trim_start_suffix t : trim_start t `suffix_of` t.
Proof. apply trim_start_by_suffix. Qed.

Lemma trim_start_by_spec p t :
  ∃ w, t = w ++ trim_start_by p t ∧ Forall (λ c, p c = true) w
    ∧ ∀ c, head (trim_start_by p t) = Some c → p c = false.
Proof.
  induction t as [|c t (w & Hw & Hf & Hh)]; simpl; [by exists []|].
  destruct (p c) eqn:Hc.
  - exists (c :: w). rewrite Hw at 1. repeat split; [by constructor|done].
  - exists []. repeat split; [done|]. intros d [= <-]. done.
Qed.

Lemma trim_start_by_skip p w t : Forall (λ c, p c = true) w → trim_start_by p (w ++ t) = trim_start_by p t.
Proof. induction 1 as [|c w Hc _ IH]; simpl; [done|]. by rewrite Hc. Qed.

Lemma trim_start_by_stop p c t : p c = false → trim_start_by p (c :: t) = c :: t.
Proof. simpl. by intros ->. Qed.

Lemma trim_start_by_idemp p t : trim_start_by p (trim_start_by p t) = trim_start_by p t.
Proof. induction t as [|c t IH]; simpl; [done|]. destruct (p c) eqn:Hc; [done|]. simpl. by rewrite Hc. Qed.
Lemma trim_start_idemp t : trim_start (trim_start t) = trim_start t.
Proof. apply trim_start_by_idemp. Qed.

Lemma trim_start_by_nil p t : trim_start_by p t = [] ↔ Forall (λ c, p c = true) t.
Proof.
  induction t as [|c t IH]; simpl; [by split|]. destruct (p c) eqn:Hc.
  - rewrite IH, Forall_cons. naive_solver.
  - rewrite Forall_cons. split; [done|]. intros [? _]. congruence.
Qed.

(** A string is blank exactly when all of it is whitespace. *)
Lemma trim_nil t : trim t = [] ↔ Forall (λ c, is_whitespace c = true) t.
Proof.
  unfold trim, trim_end_by. split.
  - intros Ht%(f_equal reverse). rewrite reverse_involutive in Ht.
    apply trim_start_by_nil in Ht. rewrite Forall_reverse in Ht.
    destruct (trim_start_by_spec is_whitespace t) as (w & Hw & Hf & _).
    rewrite Hw. by apply Forall_app.
  - intros Ht. unfold trim_start. by rewrite (proj2 (trim_start_by_nil _ _) Ht).
Qed.

Lemma suffix_str_len s t : s `suffix_of` t → str_len s ≤ str_len t.
Proof. intros [k ->]. rewrite str_len_app. pose proof (str_len_nonneg k). lia. Qed.

(** The suffixes of a text are what can be sliced off its end. *)
Lemma str_get_suffix s t : s `suffix_of` t → str_get t (str_len t - str_len s) (str_len t) = Some s.
Proof.
  intros [k ->]. rewrite str_len_app.
  replace (str_len k + str_len s - str_len s) with (off (k ++ s) (length k)).
  - rewrite <- (str_len_app k s), str_get_full by (rewrite length_app; lia). by rewrite drop_app_length.
  - unfold off. rewrite take_app_length. lia.
Qed.

(** The text between two suffixes. *)
Lemma str_get_between u s t :
  (u ++ s) `suffix_of` t →
  str_get t (str_len t - str_len (u ++ s)) (str_len t - str_len s) = Some u.
Proof.
  intros [k ->]. rewrite !str_len_app.
  replace (str_len k + _ - (str_len u + str_len s)) with (off (k ++ u ++ s) (length k)).
  2: { unfold off. rewrite take_app_length. lia. }
  replace (str_len k + _ - str_len s) with (off (k ++ u ++ s) (length k + length u)).
  2: { unfold off. rewrite <- take_take_drop, str_len_app, take_app_length, drop_app_length, take_app_length. lia. }
  rewrite str_get_off by (rewrite !length_app; lia).
  unfold span. rewrite drop_app_length. replace (length k + length u - length k)%nat with (length u) by lia.
  by rewrite take_app_length.
Qed.

(** ** Lines *)

(** [split_inclusive('\n')] *)
Fixpoint split_inclusive (t : text) : list text :=
  match t with
  | [] => []
  | c :: t =>
    if c =? 10 then [c] :: split_inclusive t
    else match split_inclusive t with
         | [] => [[c]]
         | l :: ls => (c :: l) :: ls
         end
  end.

Lemma split_inclusive_cons t l ls :
  split_inclusive t = l :: ls →
  ∃ t', t = l ++ t' ∧ ls = split_inclusive t' ∧ l ≠ [] ∧ (t' ≠ [] → last l = Some 10)
    ∧ ∀ a b, l = a ++ 10 :: b → b = [].
Proof.
  revert l ls. induction t as [|c t IH]; simpl; [done|]. intros l ls.
  destruct (Z.eqb_spec c 10) as [->|Hc].
  - intros [= <- <-]. exists t. repeat split; [done|].
    intros [|? [|? ?]] b; simpl; intros [=]; done.
  - destruct (split_inclusive t) as [|l0 ls0] eqn:Hs.
    + intros [= <- <-]. destruct t as [|d t].
      * exists []. repeat split; [done|done|]. intros [|? [|? ?]] b; simpl; intros [=]; congruence.
      * simpl in Hs. by repeat case_match.
    + intros [= <- <-]. destruct (IH l0 ls0 eq_refl) as (t' & -> & -> & Hne & Hl & Hb).
      exists t'. repeat split; [done| |].
      * intros Ht. rewrite <- (Hl Ht). by destruct l0.
      * intros [|d a] b; simpl; intros [=]; [congruence|]. by eapply Hb.
Qed.

Lemma split_inclusive_concat t : concat (split_inclusive t) = t.
Proof.
  induction t as [|c t IH]; simpl; [done|]. destruct (c =? 10); simpl; [by rewrite IH|].
  destruct (split_inclusive t); simpl in *; by rewrite <- IH.
Qed.
