(* ===== verification/Utf8.v ===== *)
(** * Utf8: the bytes of a string

    The UTF-8 encoding of a text ([str::as_bytes]), the validating decoder
    [String::from_utf8] of the standard library, and what the components need to
    know of them: the bytes of a text on its scalar boundaries. *)

From S2P Require Import Prelude Bytes Text.
Local Open Scope Z_scope.

(** [char::encode_utf8] *)
Definition encode_utf8 (c : Z) : list Z :=
  if c <? 128 then [c]
  else if c <? 2048 then [192 + c / 64; 128 + c mod 64]
  else if c <? 65536 then [224 + c / 4096; 128 + (c / 64) mod 64; 128 + c mod 64]
  else [240 + c / 262144; 128 + (c / 4096) mod 64; 128 + (c / 64) mod 64; 128 + c mod 64].

(** [str::as_bytes] *)
Fixpoint as_bytes (t : text) : list Z :=
  match t with
  | [] => []
  | c :: t => encode_utf8 c ++ as_bytes t
  end.

Definition in_range (lo hi b : Z) : bool := (lo <=? b) && (b <=? hi).
(** A continuation byte *)
Definition continuation (b : Z) : bool := in_range 128 191 b.

(** [String::from_utf8]: well-formed sequences only (no overlong forms, no
    surrogates, nothing above U+10FFFF). *)
Fixpoint from_utf8 (l : list Z) : option text :=
  match l with
  | [] => Some []
  | b0 :: l =>
    if b0 <? 128 then cons b0 <$> from_utf8 l
    else if in_range 194 223 b0 then
      match l with
      | b1 :: l =>
        if continuation b1 then cons ((b0 - 192) * 64 + (b1 - 128)) <$> from_utf8 l else None
      | _ => None
      end
    else if in_range 224 239 b0 then
      match l with
      | b1 :: b2 :: l =>
        if in_range (if b0 =? 224 then 160 else 128) (if b0 =? 237 then 159 else 191) b1 && continuation b2 then
          cons ((b0 - 224) * 4096 + (b1 - 128) * 64 + (b2 - 128)) <$> from_utf8 l
        else None
      | _ => None
      end
    else if in_range 240 244 b0 then
      match l with
      | b1 :: b2 :: b3 :: l =>
        if in_range (if b0 =? 240 then 144 else 128) (if b0 =? 244 then 143 else 191) b1
           && continuation b2 && continuation b3 then
          cons ((b0 - 240) * 262144 + (b1 - 128) * 4096 + (b2 - 128) * 64 + (b3 - 128)) <$> from_utf8 l
        else None
      | _ => None
      end
    else None
  end.

(** [bytes().take_while(|b| b == byte).count()] *)
Fixpoint leading (byte : Z) (l : list Z) : Z :=
  match l with
  | b :: l => if b =? byte then 1 + leading byte l else 0
  | [] => 0
  end.

(** [char::is_control] *)
Definition is_control (c : Z) : bool := in_range 0 31 c || in_range 127 159 c.

(** [str::to_ascii_lowercase], [str::eq_ignore_ascii_case] and [u8::is_ascii_hexdigit] *)
Definition to_ascii_lowercase (t : text) : text := (λ c, if in_range 65 90 c then c + 32 else c) <$> t.
Definition eq_ignore_ascii_case (s t : text) : bool := bool_decide (to_ascii_lowercase s = to_ascii_lowercase t).
Definition is_ascii_hexdigit (b : Z) : bool := in_range 48 57 b || in_range 65 70 b || in_range 97 102 b.
Definition is_ascii_uppercase (b : Z) : bool := in_range 65 90 b.

(** [format!] of an unsigned integer *)
Definition decimal (n : Z) : text := str (pretty n).

(** A scalar value *)
Definition scalar (c : Z) : Prop := 0 ≤ c < 55296 ∨ 57344 ≤ c < 1114112.

(** ** Lemmas *)

Lemma encode_utf8_len c : len (encode_utf8 c) = len_utf8 c.
Proof. unfold encode_utf8, len_utf8. by repeat case_match. Qed.

Lemma as_bytes_len t : len (as_bytes t) = str_len t.
Proof. induction t as [|c t IH]; simpl; [done|]. by rewrite len_app, encode_utf8_len, IH. Qed.

Lemma as_bytes_app s t : as_bytes (s ++ t) = as_bytes s ++ as_bytes t.
Proof. induction s as [|c s IH]; simpl; [done|]. by rewrite IH, app_assoc. Qed.

(** The first byte of a scalar is an ASCII byte exactly if the scalar is. *)
Lemma encode_utf8_head c b :
  b < 128 → head (encode_utf8 c) = Some b ↔ c = b.
Proof.
  intros Hb. unfold encode_utf8. destruct (Z.ltb_spec c 128); [naive_solver|].
  pose proof (Z.div_pos c 64 ltac:(lia) ltac:(lia)). pose proof (Z.div_pos c 4096 ltac:(lia) ltac:(lia)).
  pose proof (Z.div_pos c 262144 ltac:(lia) ltac:(lia)).
  repeat case_match; simpl; (split; [intros [= <-]; lia|lia]).
Qed.

Lemma encode_utf8_cons c : ∃ b l, encode_utf8 c = b :: l.
Proof. unfold encode_utf8. repeat case_match; eauto. Qed.

Lemma as_bytes_head c t : head (as_bytes (c :: t)) = head (encode_utf8 c).
Proof. simpl. by destruct (encode_utf8_cons c) as (b & l & ->). Qed.

(** The byte at a scalar boundary. *)
Lemma as_bytes_at u t : get (as_bytes (u ++ t)) (str_len u) = head (as_bytes t).
Proof.
  rewrite as_bytes_app. unfold get. rewrite len_app, as_bytes_len.
  destruct (as_bytes t) as [|b l] eqn:Ht.
  - rewrite len_nil. rewrite (proj2 (Z.ltb_ge _ _)) by lia. done.
  - rewrite len_cons. pose proof (len_nonneg l). rewrite (proj2 (Z.ltb_lt _ _)) by lia.
    rewrite lookup_app_r; rewrite <- as_bytes_len; unfold len.
    + by rewrite Nat2Z.id, Nat.sub_diag.
    + lia.
Qed.

Lemma as_bytes_at_ascii u t b :
  b < 128 → get (as_bytes (u ++ t)) (str_len u) = Some b ↔ ∃ t', t = b :: t'.
Proof.
  intros Hb. rewrite as_bytes_at. destruct t as [|c t]; [naive_solver|].
  rewrite as_bytes_head, encode_utf8_head by done. naive_solver.
Qed.

Lemma leading_nonneg b l : 0 ≤ leading b l.
Proof. induction l; simpl; [done|]. case_match; lia. Qed.

(** A leading run of an ASCII byte is a run of that scalar. *)
Lemma leading_run b t : b < 128 →
  ∃ t', t = replicate (Z.to_nat (leading b (as_bytes t))) b ++ t' ∧ leading b (as_bytes t') = 0.
Proof.
  intros Hb. induction t as [|c t (t' & Ht & Hl)]; [by exists []|].
  destruct (decide (c = b)) as [->|Hne].
  - simpl. unfold encode_utf8. rewrite (proj2 (Z.ltb_lt _ _)) by done. simpl. rewrite Z.eqb_refl.
    pose proof (leading_nonneg b (as_bytes t)).
    rewrite Z2Nat.inj_add by lia. change (Z.to_nat 1) with 1%nat. simpl.
    exists t'. by rewrite <- Ht.
  - destruct (encode_utf8_cons c) as (b0 & l & He). exists (c :: t).
    assert (leading b (as_bytes (c :: t)) = 0) as H0; [|by rewrite H0].
    simpl. rewrite He. simpl. rewrite (proj2 (Z.eqb_neq _ _)); [done|]. intros ->.
    apply Hne. apply (encode_utf8_head c b Hb). by rewrite He.
Qed.

Lemma str_len_replicate n b : b < 128 → str_len (replicate n b) = Z.of_nat n.
Proof.
  intros Hb. induction n as [|n IH]; [done|]. simpl. rewrite IH. unfold len_utf8.
  rewrite (proj2 (Z.ltb_lt _ _)) by done. lia.
Qed.

(** The ASCII bytes of a well-formed sequence are its ASCII scalars. *)
Lemma from_utf8_ascii l t b : from_utf8 l = Some t → b ∈ l → b < 128 → b ∈ t.
Proof.
  revert t. induction l as [l IH] using (induction_ltof1 _ length); unfold ltof in IH.
  intros t Ht Hin Hb. destruct l as [|b0 l]; [by apply not_elem_of_nil in Hin|].
  simpl in Ht. unfold continuation, in_range in Ht.
  repeat (case_match; simplify_eq/=; bool_prop; try done);
    (destruct (from_utf8 _) as [t'|] eqn:Hr in Ht; [|done]; simplify_eq/=);
    repeat (apply elem_of_cons in Hin as [-> | Hin]; [first [by left|exfalso; repeat case_match; lia]|]);
    right; (eapply IH; [|exact Hr| |]; [simpl; lia|done|done]).
Qed.

Lemma in_range_true lo hi b : lo ≤ b ≤ hi → in_range lo hi b = true.
Proof. intros. unfold in_range. apply andb_true_iff. by rewrite !Z.leb_le. Qed.

Lemma in_range_above lo hi b : hi < b → in_range lo hi b = false.
Proof. intros. unfold in_range. apply andb_false_iff. right. by apply Z.leb_gt. Qed.

Lemma mod64_continuation x : continuation (128 + x mod 64) = true ∧ 128 + x mod 64 - 128 = x mod 64.
Proof. pose proof (Z.mod_pos_bound x 64 ltac:(lia)). split; [apply in_range_true|]; lia. Qed.

(** Decoding inverts encoding. *)
Lemma from_utf8_as_bytes t : Forall scalar t → from_utf8 (as_bytes t) = Some t.
Proof.
  induction 1 as [|c t Hc _ IH]; [done|]. simpl. unfold encode_utf8.
  destruct (mod64_continuation c) as [H1 E1]. destruct (mod64_continuation (c / 64)) as [H2 E2].
  destruct (mod64_continuation (c / 4096)) as [H3 E3].
  destruct (Z.ltb_spec c 128) as [L1|L1].
  { simpl. by rewrite (proj2 (Z.ltb_lt _ _) L1), IH. }
  destruct (Z.ltb_spec c 2048) as [L2|L2].
  { simpl. rewrite (proj2 (Z.ltb_ge _ _)), (in_range_true 194 223), H1, IH, E1
      by (Z.to_euclidean_division_equations; lia). simpl. do 2 f_equal. Z.to_euclidean_division_equations; lia. }
  assert (0 ≤ c < 1114112) as Hb by (destruct Hc; lia).
  destruct (Z.ltb_spec c 65536) as [L3|L3]; simpl.
  - rewrite (proj2 (Z.ltb_ge _ _)) by (Z.to_euclidean_division_equations; lia).
    rewrite (in_range_above 194 223) by (Z.to_euclidean_division_equations; lia).
    rewrite (in_range_true 224 239), H1, andb_true_r by (Z.to_euclidean_division_equations; lia).
    rewrite in_range_true.
    2: { destruct Hc; repeat case_match; bool_prop; Z.to_euclidean_division_equations; lia. }
    rewrite IH. simpl. do 2 f_equal. Z.to_euclidean_division_equations; lia.
  - rewrite (proj2 (Z.ltb_ge _ _)) by (Z.to_euclidean_division_equations; lia).
    rewrite (in_range_above 194 223), (in_range_above 224 239) by (Z.to_euclidean_division_equations; lia).
    rewrite (in_range_true 240 244), H1, H2, !andb_true_r by (Z.to_euclidean_division_equations; lia).
    rewrite in_range_true.
    2: { repeat case_match; bool_prop; Z.to_euclidean_division_equations; lia. }
    rewrite IH. simpl. do 2 f_equal. Z.to_euclidean_division_equations; lia.
Qed.

Lemma encode_utf8_1 b : 0 ≤ b < 128 → scalar b ∧ encode_utf8 b = [b].
Proof. intros. unfold scalar, encode_utf8. rewrite (proj2 (Z.ltb_lt _ _)) by lia. split; [lia|done]. Qed.

Lemma encode_utf8_2 b0 b1 : 194 ≤ b0 ≤ 223 → 128 ≤ b1 ≤ 191 →
  let c := (b0 - 192) * 64 + (b1 - 128) in scalar c ∧ encode_utf8 c = [b0; b1].
Proof.
  intros H0 H1 c. assert (128 ≤ c < 2048) as Hc by lia. unfold scalar, encode_utf8.
  rewrite (proj2 (Z.ltb_ge c 128)), (proj2 (Z.ltb_lt c 2048)) by lia.
  split; [lia|]. subst c. repeat f_equal; Z.to_euclidean_division_equations; lia.
Qed.

Lemma encode_utf8_3 b0 b1 b2 : 224 ≤ b0 ≤ 239 → 128 ≤ b1 ≤ 191 → 128 ≤ b2 ≤ 191 →
  (b0 = 224 → 160 ≤ b1) → (b0 = 237 → b1 ≤ 159) →
  let c := (b0 - 224) * 4096 + (b1 - 128) * 64 + (b2 - 128) in scalar c ∧ encode_utf8 c = [b0; b1; b2].
Proof.
  intros H0 H1 H2 Ha Hb c. assert (2048 ≤ c < 65536) as Hc by lia. unfold encode_utf8.
  rewrite (proj2 (Z.ltb_ge c 128)), (proj2 (Z.ltb_ge c 2048)), (proj2 (Z.ltb_lt c 65536)) by lia.
  split; [unfold scalar; lia|]. subst c. repeat f_equal; Z.to_euclidean_division_equations; lia.
Qed.

Lemma encode_utf8_4 b0 b1 b2 b3 : 240 ≤ b0 ≤ 244 → 128 ≤ b1 ≤ 191 → 128 ≤ b2 ≤ 191 → 128 ≤ b3 ≤ 191 →
  (b0 = 240 → 144 ≤ b1) → (b0 = 244 → b1 ≤ 143) →
  let c := (b0 - 240) * 262144 + (b1 - 128) * 4096 + (b2 - 128) * 64 + (b3 - 128) in
  scalar c ∧ encode_utf8 c = [b0; b1; b2; b3].
Proof.
  intros H0 H1 H2 H3 Ha Hb c. assert (65536 ≤ c < 1114112) as Hc by lia. unfold encode_utf8.
  rewrite (proj2 (Z.ltb_ge c 128)), (proj2 (Z.ltb_ge c 2048)), (proj2 (Z.ltb_ge c 65536)) by lia.
  split; [unfold scalar; lia|]. subst c. repeat f_equal; Z.to_euclidean_division_equations; lia.
Qed.

(** Encoding inverts decoding: the decoder accepts encodings of scalar values only. *)
Lemma as_bytes_from_utf8 l t : bytes_ok l → from_utf8 l = Some t → Forall scalar t ∧ as_bytes t = l.
Proof.
  revert t. induction l as [l IH] using (induction_ltof1 _ length); unfold ltof in IH.
  intros t Hl Ht. destruct l as [|b0 l]; [by injection Ht as <-|]. apply Forall_cons in Hl as [Hb0 Hl].
  simpl in Ht. unfold continuation, in_range, is_byte in *.
  assert (∀ c r x, (length r < length (b0 :: l))%nat → bytes_ok r → cons c <$> from_utf8 r = Some t →
            scalar c ∧ encode_utf8 c = x → Forall scalar t ∧ as_bytes t = x ++ r) as Hgo.
  { intros c r x Hr Hbr Hc [Hsc Hex]. destruct (from_utf8 r) as [s|] eqn:Hs; [|done]. injection Hc as <-.
    destruct (IH r Hr s Hbr Hs) as [Hf Has]. split; [by constructor|]. simpl. by rewrite Hex, Has. }
  destruct (Z.ltb_spec b0 128).
  { apply (Hgo b0 l [b0]); [simpl; lia|done|done|apply encode_utf8_1; lia]. }
  destruct ((194 <=? b0) && (b0 <=? 223)) eqn:E2.
  { destruct l as [|b1 l]; [done|]. case_match; [|done]. apply Forall_cons in Hl as [_ Hl]. bool_prop.
    eapply (Hgo _ l [b0; b1]); [simpl; lia|done|exact Ht|apply encode_utf8_2; lia]. }
  destruct ((224 <=? b0) && (b0 <=? 239)) eqn:E3.
  { destruct l as [|b1 [|b2 l]]; [done..|]. case_match eqn:E; [|done]. do 2 apply Forall_cons in Hl as [_ Hl].
    apply andb_true_iff in E as [E ?]. apply andb_true_iff in E as [Ea Eb].
    destruct (Z.eqb_spec b0 224), (Z.eqb_spec b0 237); bool_prop;
      (eapply (Hgo _ l [b0; b1; b2]); [simpl; lia|done|exact Ht|apply encode_utf8_3; lia]). }
  destruct ((240 <=? b0) && (b0 <=? 244)) eqn:E4; [|done].
  destruct l as [|b1 [|b2 [|b3 l]]]; [done..|]. case_match eqn:E; [|done]. do 3 apply Forall_cons in Hl as [_ Hl].
  apply andb_true_iff in E as [E ?]. apply andb_true_iff in E as [E ?]. apply andb_true_iff in E as [Ea Eb].
  destruct (Z.eqb_spec b0 240), (Z.eqb_spec b0 244); bool_prop;
    (eapply (Hgo _ l [b0; b1; b2; b3]); [simpl; lia|done|exact Ht|apply encode_utf8_4; lia]).
Qed.

(** The bytes of a text that has no scalar zero have no byte zero. *)
Lemma as_bytes_nonzero t : Forall scalar t → 0 ∉ t ↔ 0 ∉ as_bytes t.
Proof.
  induction 1 as [|c t Hc _ IH]; [done|]. simpl. rewrite not_elem_of_cons, not_elem_of_app, IH.
  assert (0 ≠ c ↔ 0 ∉ encode_utf8 c) as ->; [|tauto].
  assert (0 ≤ c) as H0 by (destruct Hc; lia). unfold encode_utf8.
  pose proof (Z.div_pos c 64 H0 ltac:(lia)). pose proof (Z.div_pos c 4096 H0 ltac:(lia)).
  pose proof (Z.div_pos c 262144 H0 ltac:(lia)). pose proof (Z.mod_pos_bound c 64 ltac:(lia)).
  pose proof (Z.mod_pos_bound (c / 64) 64 ltac:(lia)). pose proof (Z.mod_pos_bound (c / 4096) 64 ltac:(lia)).
  repeat case_match; bool_prop; rewrite !not_elem_of_cons; (split; [|lia]); intros; split_and?; try lia; apply not_elem_of_nil.
Qed.
