(* ===== verification/Strings.v ===== *)
(** * Strings: splitting, joining and lossy decoding

    What the standard library does on strings and bytes when it takes them apart:
    [str::split] at a character, [str::lines], [slice::join], [str::contains],
    [str::ends_with], [str::replace] of one character and [String::from_utf8_lossy]. *)

From S2P Require Import Prelude Bytes Text Utf8.
Local Open Scope Z_scope.

(** [split(c)]: the pieces between the occurrences of [c], at least one *)
Fixpoint split_char (c : Z) (t : text) : list text :=
  match t with
  | [] => [[]]
  | d :: t =>
    if d =? c then [] :: split_char c t
    else match split_char c t with
         | [] => [[d]]
         | p :: ps => (d :: p) :: ps
         end
  end.

(** [pieces.join(s)] *)
Fixpoint join (s : text) (l : list text) : text :=
  match l with
  | [] => []
  | [p] => p
  | p :: l => p ++ s ++ join s l
  end.

(** [split_once(c)] *)
Fixpoint split_once (c : Z) (t : text) : option (text * text) :=
  match t with
  | [] => None
  | d :: t => if d =? c then Some ([], t) else '(a, b) ← split_once c t ; Some (d :: a, b)
  end.

(** [contains(s)] and, for bytes, [windows(s.len()).any(..)] *)
Fixpoint contains (t s : text) : bool :=
  starts_with t s || match t with [] => false | _ :: t => contains t s end.
(** [ends_with(s)] *)
Definition ends_with (t s : text) : bool := starts_with (reverse t) (reverse s).

(** [replace(c, d)] of one character by another *)
Definition replace_char (c d : Z) (t : text) : text := (λ x, if x =? c then d else x) <$> t.

(** [lines()]: the pieces that end at a line feed, without it and without a carriage return
    in front of it; a last piece without a line feed is kept as it is unless it is empty. *)
Definition strip_cr (t : text) : text :=
  match reverse t with
  | c :: r => if c =? 13 then reverse r else t
  | [] => t
  end.
Fixpoint lines_of (l : list text) : list text :=
  match l with
  | [] => []
  | [p] => if bool_decide (p = []) then [] else [p]
  | p :: l => strip_cr p :: lines_of l
  end.
Definition lines (t : text) : list text := lines_of (split_char 10 t).

(** [str::is_ascii], [str::to_ascii_uppercase] and the ASCII classes of [u8] *)
Definition is_ascii (t : text) : bool := forallb (λ c, c <? 128) t.
Definition to_ascii_uppercase (t : text) : text := (λ c, if in_range 97 122 c then c - 32 else c) <$> t.
Definition is_ascii_alphabetic (b : Z) : bool := in_range 65 90 b || in_range 97 122 b.
Definition is_ascii_digit (b : Z) : bool := in_range 48 57 b.

(** [char::REPLACEMENT_CHARACTER] *)
Definition REPLACEMENT : Z := 65533.

(** [String::from_utf8_lossy]: a well-formed sequence is its scalar; of anything else, the
    longest beginning of a sequence, or one byte, becomes one replacement character. *)
Fixpoint from_utf8_lossy (l : list Z) : text :=
  match l with
  | [] => []
  | b0 :: l =>
    if b0 <? 128 then b0 :: from_utf8_lossy l
    else if in_range 194 223 b0 then
      match l with
      | b1 :: l1 => if continuation b1 then ((b0 - 192) * 64 + (b1 - 128)) :: from_utf8_lossy l1 else REPLACEMENT :: from_utf8_lossy l
      | [] => [REPLACEMENT]
      end
    else if in_range 224 239 b0 then
      match l with
      | b1 :: l1 =>
        if in_range (if b0 =? 224 then 160 else 128) (if b0 =? 237 then 159 else 191) b1 then
          match l1 with
          | b2 :: l2 =>
            if continuation b2 then ((b0 - 224) * 4096 + (b1 - 128) * 64 + (b2 - 128)) :: from_utf8_lossy l2
            else REPLACEMENT :: from_utf8_lossy l1
          | [] => [REPLACEMENT]
          end
        else REPLACEMENT :: from_utf8_lossy l
      | [] => [REPLACEMENT]
      end
    else if in_range 240 244 b0 then
      match l with
      | b1 :: l1 =>
        if in_range (if b0 =? 240 then 144 else 128) (if b0 =? 244 then 143 else 191) b1 then
          match l1 with
          | b2 :: l2 =>
            if continuation b2 then
              match l2 with
              | b3 :: l3 =>
                if continuation b3 then
                  ((b0 - 240) * 262144 + (b1 - 128) * 4096 + (b2 - 128) * 64 + (b3 - 128)) :: from_utf8_lossy l3
                else REPLACEMENT :: from_utf8_lossy l2
              | [] => [REPLACEMENT]
              end
            else REPLACEMENT :: from_utf8_lossy l1
          | [] => [REPLACEMENT]
          end
        else REPLACEMENT :: from_utf8_lossy l
      | [] => [REPLACEMENT]
      end
    else REPLACEMENT :: from_utf8_lossy l
  end.

(** ** Lemmas *)

Lemma split_char_cons c t : ∃ p ps, split_char c t = p :: ps.
Proof. induction t as [|d t (p & ps & IH)]; simpl; [by eexists _, _|]. rewrite IH. case_match; by eexists _, _. Qed.

(** The pieces hold what the string holds, save the separator. *)
Lemma split_char_elem c t p : p ∈ split_char c t → ∀ d, d ∈ p → d ∈ t ∧ d ≠ c.
Proof.
  revert p. induction t as [|d t IH]; intros p; simpl; [intros ->%list_elem_of_singleton x ?%elem_of_nil; done|].
  destruct (split_char_cons c t) as (q & qs & Hq). rewrite Hq in *. case_match; bool_prop.
  - intros [->|Hp]%elem_of_cons x Hx; [by apply elem_of_nil in Hx|]. destruct (IH p Hp x Hx). split; [by right|done].
  - intros [->|Hp]%elem_of_cons x Hx.
    + apply elem_of_cons in Hx as [->|Hx]; [split; [by left|done]|]. destruct (IH q ltac:(by left) x Hx). split; [by right|done].
    + destruct (IH p ltac:(by right) x Hx). split; [by right|done].
Qed.

Lemma split_char_join c t : join [c] (split_char c t) = t.
Proof.
  induction t as [|d t IH]; simpl; [done|]. destruct (split_char_cons c t) as (q & qs & Hq). rewrite Hq in *.
  case_match; bool_prop.
  - change (c :: join [c] (q :: qs) = d :: t). by rewrite IH, H.
  - destruct qs; simpl in *; by rewrite IH.
Qed.

Lemma split_char_no c t : c ∉ t → split_char c t = [t].
Proof.
  induction t as [|d t IH]; [done|]. intros [Hd Ht]%not_elem_of_cons. simpl. rewrite IH by done.
  by rewrite (proj2 (Z.eqb_neq d c)) by done.
Qed.
Lemma split_char_app c s t : c ∉ s → split_char c (s ++ c :: t) = s :: split_char c t.
Proof.
  induction s as [|d s IH]; simpl; [by rewrite Z.eqb_refl|]. intros [Hd Hs]%not_elem_of_cons. rewrite IH by done.
  by rewrite (proj2 (Z.eqb_neq d c)) by done.
Qed.

(** Splitting undoes joining, if no piece holds the separator. *)
Lemma join_split_char c l : l ≠ [] → Forall (λ p, c ∉ p) l → split_char c (join [c] l) = l.
Proof.
  induction l as [|p l IH]; [done|]. intros _ [Hp Hl]%Forall_cons. destruct l as [|q l]; [by apply split_char_no|].
  change (join [c] (p :: q :: l)) with (p ++ c :: join [c] (q :: l)). rewrite split_char_app by done. by rewrite IH.
Qed.

Lemma join_elem s l c : c ∈ join s l → c ∈ s ∨ ∃ p, p ∈ l ∧ c ∈ p.
Proof.
  induction l as [|p l IH]; simpl; [by intros ?%elem_of_nil|]. destruct l as [|q l]; [intros H; right; exists p; set_solver|].
  intros [H|[H|H]%elem_of_app]%elem_of_app; [right; exists p; set_solver|by left|].
  destruct (IH H) as [?|(x & Hx & ?)]; [by left|]. right. exists x. split; [by right|done].
Qed.

Lemma replace_char_elem c d t x : x ∈ replace_char c d t → (x ∈ t ∧ x ≠ c) ∨ (x = d ∧ c ∈ t).
Proof.
  unfold replace_char. intros (y & -> & Hy)%list_elem_of_fmap. destruct (Z.eqb_spec y c) as [->|]; [by right|by left].
Qed.

(** Lossy decoding of a valid string is decoding; otherwise there is a replacement character. *)
Lemma from_utf8_lossy_valid l t : from_utf8 l = Some t → from_utf8_lossy l = t.
Proof.
  revert t. induction l as [l IH] using (induction_ltof1 _ length); unfold ltof in IH.
  intros t Ht. destruct l as [|b0 l]; [by injection Ht as <-|]. simpl in Ht |- *.
  assert (∀ c r, (length r < length (b0 :: l))%nat → cons c <$> from_utf8 r = Some t → c :: from_utf8_lossy r = t) as Hgo.
  { intros c r Hr (s & Hs & ->)%fmap_Some. f_equal. by apply IH. }
  unfold continuation in *. destruct (b0 <? 128); [apply Hgo; [simpl; lia|done]|].
  destruct (in_range 194 223 b0).
  { destruct l as [|b1 l]; [done|]. destruct (in_range 128 191 b1); [|done]. apply Hgo; [simpl; lia|done]. }
  destruct (in_range 224 239 b0).
  { destruct l as [|b1 [|b2 l]]; [done..|]. destruct (in_range _ _ b1); [|done]. destruct (in_range 128 191 b2); [|done].
    apply Hgo; [simpl; lia|done]. }
  destruct (in_range 240 244 b0); [|done]. destruct l as [|b1 [|b2 [|b3 l]]]; [done..|].
  destruct (in_range _ _ b1); [|done]. destruct (in_range 128 191 b2); [|done]. destruct (in_range 128 191 b3); [|done].
  apply Hgo; [simpl; lia|done].
Qed.
Lemma from_utf8_lossy_invalid l : from_utf8 l = None → REPLACEMENT ∈ from_utf8_lossy l.
Proof.
  induction l as [l IH] using (induction_ltof1 _ length); unfold ltof in IH.
  intros Hn. destruct l as [|b0 l]; [done|]. simpl in Hn |- *.
  assert (∀ (c : Z) r, (length r < length (b0 :: l))%nat → cons c <$> from_utf8 r = None → REPLACEMENT ∈ c :: from_utf8_lossy r) as Hgo.
  { intros c r Hr Hs%fmap_None. right. by apply IH. }
  unfold continuation in *. destruct (b0 <? 128); [apply Hgo; [simpl; lia|done]|].
  destruct (in_range 194 223 b0).
  { destruct l as [|b1 l]; [by left|]. destruct (in_range 128 191 b1); [|by left]. apply Hgo; [simpl; lia|done]. }
  destruct (in_range 224 239 b0).
  { destruct l as [|b1 [|b2 l]]; [by left|destruct (in_range _ _ b1); by left|]. destruct (in_range _ _ b1); [|by left].
    destruct (in_range 128 191 b2); [|by left]. apply Hgo; [simpl; lia|done]. }
  destruct (in_range 240 244 b0); [|by left]. destruct l as [|b1 l]; [by left|]. destruct (in_range _ _ b1); [|by left].
  destruct l as [|b2 l]; [by left|]. destruct (in_range 128 191 b2); [|by left].
  destruct l as [|b3 l]; [by left|]. destruct (in_range 128 191 b3); [|by left]. apply Hgo; [simpl; lia|done].
Qed.
