(* ===== verification/Sorting.v ===== *)
(** * Sorting: stable sorting by a key

    What [sort_by], [sort_by_key] and [sort_by_cached_key] of the standard library do to a
    slice: a stable sort by the [Ord] of a key, here by insertion. *)

From S2P Require Import Prelude.

(** A stable sort by a key, as [sort_by_cached_key] *)
Fixpoint insert_by {A K} (cmp : K → K → comparison) (key : A → K) (x : A) (l : list A) : list A :=
  match l with
  | [] => [x]
  | y :: l' => match cmp (key x) (key y) with Gt => y :: insert_by cmp key x l' | _ => x :: l end
  end.
Definition sort_by {A K} (cmp : K → K → comparison) (key : A → K) (l : list A) : list A := foldr (insert_by cmp key) [] l.

(** ** Lemmas *)

(** Distinct keys tell the elements apart. *)
Lemma unique_key {A B} (key : A → B) l x y : NoDup (key <$> l) → x ∈ l → y ∈ l → key x = key y → x = y.
Proof.
  intros Hn [i Hi]%list_elem_of_lookup [j Hj]%list_elem_of_lookup Hk.
  assert (i = j) as <-; [|congruence]. apply (NoDup_lookup (key <$> l) i j (key x)); [done|..]; rewrite list_lookup_fmap.
  - by rewrite Hi.
  - by rewrite Hj, Hk.
Qed.

Lemma insert_by_perm {A K} (cmp : K → K → comparison) (key : A → K) x l : insert_by cmp key x l ≡ₚ x :: l.
Proof. induction l as [|y l IH]; simpl; [done|]. destruct (cmp _ _); [done..|]. rewrite IH. by constructor. Qed.
Lemma sort_by_perm {A K} (cmp : K → K → comparison) (key : A → K) l : sort_by cmp key l ≡ₚ l.
Proof. unfold sort_by. induction l as [|x l IH]; simpl; [done|]. by rewrite insert_by_perm, IH. Qed.

Section Sorting.
Context {A K : Type} (cmp : K → K → comparison) `{!Ordering cmp} (key : A → K).
Definition key_order (x y : A) : Prop := cmp (key x) (key y) ≠ Gt.

Lemma insert_by_sorted x l : StronglySorted key_order l → StronglySorted key_order (insert_by cmp key x l).
Proof.
  induction l as [|y l IH]; intros Hs; [by repeat constructor|]. apply StronglySorted_inv in Hs as [Hs Hy]. simpl.
  assert (cmp (key x) (key y) ≠ Gt → StronglySorted key_order (x :: y :: l)) as Hfirst.
  { intros Hxy. constructor; [by constructor|]. constructor; [done|]. eapply Forall_impl; [done|].
    intros z Hyz. unfold key_order in *. by apply (cmp_trans _ (key y)). }
  destruct (cmp (key x) (key y)) eqn:Hc; [by apply Hfirst..|]. constructor; [auto|].
  rewrite insert_by_perm. constructor; [|done]. unfold key_order. rewrite (cmp_antisym (key x)), Hc. done.
Qed.
Lemma sort_by_sorted l : StronglySorted key_order (sort_by cmp key l).
Proof. induction l as [|x l IH]; [constructor|]. by apply insert_by_sorted. Qed.

(** Sorting by distinct keys gives one list, whatever the order was. *)
Lemma sort_by_unique l k : (∀ x y, cmp x y = Eq → x = y) → NoDup (key <$> l) → l ≡ₚ k → sort_by cmp key l = sort_by cmp key k.
Proof.
  intros Heq Hn Hp. apply (StronglySorted_unique_strong key_order); [|apply sort_by_sorted..|by rewrite !sort_by_perm].
  intros x y Hx Hy Hxy Hyx. rewrite sort_by_perm in Hx, Hy. rewrite <- Hp in Hy. apply (unique_key key l); [done..|]. apply Heq.
  unfold key_order in *. rewrite (cmp_antisym (key x)) in Hyx. by destruct (cmp (key x) (key y)).
Qed.
End Sorting.
