(* ===== verification/Lifecycle.v ===== *)
(** * Lifecycle: run control and worker ledger

    [crates/operation-lifecycle/src/lib.rs]: the atomic cell shared by the
    canceller and the executor of one run ([RunControl]) and the bounded join
    history of a worker owner ([WorkerLedger]). *)

From S2P Require Import Prelude.
Local Open Scope Z_scope.

(** ** RunControl

    The cell is an [AtomicU8]. [request_cancel] is one compare-and-exchange;
    [claim_terminal] is a loop of a load followed by a compare-and-exchange, so
    two threads interleave between its two accesses. A thread is a small machine
    that performs one atomic access per step. *)
Module RunControl.

Definition RUNNING : Z := 0.
Definition CANCEL_REQUESTED : Z := 1.
Definition TERMINAL : Z := 2.
Definition TERMINAL_CANCELLED : Z := 3.

Record TerminalClaim := { claim_cancellation_requested : bool }.

#[export] Instance TerminalClaim_eq_dec : EqDecision TerminalClaim.
Proof. solve_decision. Defined.

Definition new (cancelled : bool) : Z :=
  if cancelled then CANCEL_REQUESTED else RUNNING.

(** [AtomicU8::compare_exchange]: success flag and new content of the cell. *)
Definition compare_exchange (cell current next : Z) : bool * Z :=
  if cell =? current then (true, next) else (false, cell).

Definition request_cancel (cell : Z) : bool * Z :=
  compare_exchange cell RUNNING CANCEL_REQUESTED.

Definition cancellation_requested (cell : Z) : bool :=
  (cell =? CANCEL_REQUESTED) || (cell =? TERMINAL_CANCELLED).

Definition is_terminal (cell : Z) : bool :=
  (cell =? TERMINAL) || (cell =? TERMINAL_CANCELLED).

(** The [match state] in the loop body of [claim_terminal]. *)
Inductive Loaded :=
| TryStore (terminal : Z)
| ReturnNone
| Unreachable.

Definition claim_target (state : Z) : Loaded :=
  if state =? RUNNING then TryStore TERMINAL
  else if state =? CANCEL_REQUESTED then TryStore TERMINAL_CANCELLED
  else if (state =? TERMINAL) || (state =? TERMINAL_CANCELLED) then ReturnNone
  else Unreachable.

(** Program counter of one call. *)
Inductive Thread :=
| CancelCall
| CancelDone (won : bool)
| ClaimLoad
| ClaimStore (state terminal : Z)
| ClaimDone (claim : option TerminalClaim)
| Panicked.

#[export] Instance Thread_eq_dec : EqDecision Thread.
Proof. solve_decision. Defined.

(** One atomic access of one thread; [None] once its call has returned. *)
Definition thread_step (cell : Z) (t : Thread) : option (Z * Thread) :=
  match t with
  | CancelCall =>
      let '(won, cell') := request_cancel cell in Some (cell', CancelDone won)
  | ClaimLoad =>
      match claim_target cell with
      | TryStore terminal => Some (cell, ClaimStore cell terminal)
      | ReturnNone => Some (cell, ClaimDone None)
      | Unreachable => Some (cell, Panicked)
      end
  | ClaimStore state terminal =>
      let '(won, cell') := compare_exchange cell state terminal in
      if won
      then Some (cell', ClaimDone (Some
             {| claim_cancellation_requested := state =? CANCEL_REQUESTED |}))
      else Some (cell', ClaimLoad)
  | CancelDone _ | ClaimDone _ | Panicked => None
  end.

(** The call alone, run to its end: [claim_terminal] with no interference. *)
Fixpoint claim_terminal (fuel : nat) (cell : Z) (t : Thread)
    : option (option TerminalClaim * Z) :=
  match fuel with
  | O => None
  | S fuel =>
      match t with
      | ClaimDone claim => Some (claim, cell)
      | _ => match thread_step cell t with
             | Some (cell', t') => claim_terminal fuel cell' t'
             | None => None
             end
      end
  end.

(** *** Concurrent calls on one control *)

Record System := { sys_cell : Z; sys_threads : list Thread }.

Inductive step : System → System → Prop :=
| step_thread cell cell' ts i t t' :
    ts !! i = Some t →
    thread_step cell t = Some (cell', t') →
    step {| sys_cell := cell; sys_threads := ts |}
         {| sys_cell := cell'; sys_threads := <[i := t']> ts |}.

(** Any number of threads, each about to make one of the two calls. *)
Definition fresh_call (t : Thread) : Prop := t = CancelCall ∨ t = ClaimLoad.

Definition initial (cancelled : bool) (ts : list Thread) : System :=
  {| sys_cell := new cancelled; sys_threads := ts |}.

(** A schedule names the thread that moves next. *)
Definition sched_step (i : nat) (s : System) : option System :=
  t ← sys_threads s !! i;
  '(cell', t') ← thread_step (sys_cell s) t;
  Some {| sys_cell := cell'; sys_threads := <[i := t']> (sys_threads s) |}.

Fixpoint run_schedule (sched : list nat) (s : System) : option System :=
  match sched with
  | [] => Some s
  | i :: sched => s' ← sched_step i s; run_schedule sched s'
  end.

Lemma run_schedule_nsteps sched s s' :
  run_schedule sched s = Some s' → nsteps step (length sched) s s'.
Proof.
  revert s. induction sched as [|i sched IH]; intros s Hs; simplify_eq/=; [constructor|].
  destruct (sched_step i s) as [s1|] eqn:E; simplify_eq/=.
  econstructor; [|by apply IH]. unfold sched_step in E. destruct s as [cell ts]; simpl in *.
  destruct (ts !! i) as [t|] eqn:Hi; simplify_eq/=.
  destruct (thread_step cell t) as [[cell' t']|] eqn:Ht; simplify_eq/=. by econstructor.
Qed.

(** *** Counting winners *)

Definition won_cancel (t : Thread) : bool :=
  match t with CancelDone true => true | _ => false end.
Definition won_claim (t : Thread) : bool :=
  match t with ClaimDone (Some _) => true | _ => false end.

Definition count (p : Thread → bool) (ts : list Thread) : nat :=
  length (filter (λ t, p t = true) ts).

Lemma count_insert p ts i t t' :
  ts !! i = Some t →
  (count p (<[i := t']> ts) + (if p t then 1 else 0)
   = count p ts + (if p t' then 1 else 0))%nat.
Proof.
  unfold count. revert i. induction ts as [|u ts IH]; intros [|i] Hi; simplify_eq/=.
  - rewrite !filter_cons. repeat case_decide; repeat case_match; simpl; congruence || lia.
  - specialize (IH i Hi). rewrite !filter_cons. case_decide; simpl; lia.
Qed.

Lemma count_pos p ts i t : ts !! i = Some t → p t = true → (1 ≤ count p ts)%nat.
Proof.
  unfold count. revert i. induction ts as [|u ts IH]; intros [|i] Hi Hp; simplify_eq/=.
  - rewrite filter_cons, decide_True by done. simpl. lia.
  - rewrite filter_cons. specialize (IH i Hi Hp). case_decide; simpl; lia.
Qed.

Lemma count_fresh p ts :
  Forall fresh_call ts → p CancelCall = false → p ClaimLoad = false → count p ts = 0%nat.
Proof.
  unfold count. intros Hts H1 H2. induction Hts as [|t ts [->| ->] _ IH]; [done| |];
    rewrite filter_cons; case_decide; congruence.
Qed.

(** *** The cell and the winners always agree *)

(** What a thread remembers of the cell is a value the loop stores over. *)
Definition thread_ok (t : Thread) : Prop :=
  match t with
  | ClaimStore state terminal => claim_target state = TryStore terminal
  | Panicked => False
  | _ => True
  end.

(** The flag carried by a successful claim is the one the final cell shows. *)
Definition claim_agrees (cell : Z) (t : Thread) : Prop :=
  match t with
  | ClaimDone (Some c) =>
      is_terminal cell = true ∧
      claim_cancellation_requested c = cancellation_requested cell
  | ClaimDone None => is_terminal cell = true
  | _ => True
  end.

Definition cell_summary (cancelled : bool) (cell : Z) (cancels claims : nat) : Prop :=
  let requested := cancelled || bool_decide (cancels ≠ 0%nat) in
  (cell = RUNNING ∧ requested = false ∧ claims = 0%nat) ∨
  (cell = CANCEL_REQUESTED ∧ requested = true ∧ claims = 0%nat) ∨
  (cell = TERMINAL ∧ requested = false ∧ claims = 1%nat) ∨
  (cell = TERMINAL_CANCELLED ∧ requested = true ∧ claims = 1%nat).

Record Inv (cancelled : bool) (s : System) : Prop := {
  inv_threads : Forall thread_ok (sys_threads s);
  inv_claims : Forall (claim_agrees (sys_cell s)) (sys_threads s);
  inv_cancels : (count won_cancel (sys_threads s) + (if cancelled then 1 else 0) ≤ 1)%nat;
  inv_cell : cell_summary cancelled (sys_cell s)
               (count won_cancel (sys_threads s)) (count won_claim (sys_threads s));
}.

Lemma claim_target_TryStore state terminal :
  claim_target state = TryStore terminal →
  (state = RUNNING ∧ terminal = TERMINAL) ∨
  (state = CANCEL_REQUESTED ∧ terminal = TERMINAL_CANCELLED).
Proof. unfold claim_target. intros. repeat case_match; bool_prop; naive_solver. Qed.

Lemma claim_target_reachable cancelled cell n m :
  cell_summary cancelled cell n m → claim_target cell ≠ Unreachable.
Proof. intros [H|[H|[H|H]]]; destruct_and!; by subst. Qed.

Lemma claim_agrees_nonterminal cell cell' ts :
  is_terminal cell = false →
  Forall (claim_agrees cell) ts → Forall (claim_agrees cell') ts.
Proof.
  intros Hc Hts. eapply Forall_impl; [exact Hts|].
  intros [| | | |[c|]|]; simpl; naive_solver congruence.
Qed.

Lemma thread_step_ok cell cell' t t' :
  thread_ok t → claim_target cell ≠ Unreachable →
  thread_step cell t = Some (cell', t') → thread_ok t'.
Proof.
  destruct t; simpl; intros Hok Hcell Hs; sm_cases; simpl; congruence || done.
Qed.

Lemma thread_step_agrees cell cell' t t' :
  thread_ok t → thread_step cell t = Some (cell', t') → claim_agrees cell' t'.
Proof.
  destruct t; simpl; intros Hok Hs; try done.
  - by repeat case_match; simplify_eq.
  - unfold claim_target, is_terminal in *. repeat case_match; simplify_eq; simpl; try done.
  - unfold compare_exchange in Hs. repeat case_match; simplify_eq; bool_prop; [|done].
    destruct (claim_target_TryStore _ _ Hok) as [[-> ->]|[-> ->]]; done.
Qed.

(** What one access can do to the cell, given the winner it records. *)
Lemma thread_step_effect cell cell' t t' :
  thread_ok t → thread_step cell t = Some (cell', t') →
  (cell' = cell ∧ won_cancel t = false ∧ won_cancel t' = false ∧
     won_claim t = false ∧ won_claim t' = false) ∨
  (cell = RUNNING ∧ cell' = CANCEL_REQUESTED ∧ won_cancel t = false ∧ won_cancel t' = true ∧
     won_claim t = false ∧ won_claim t' = false) ∨
  (is_terminal cell = false ∧ claim_target cell = TryStore cell' ∧
     won_cancel t = false ∧ won_cancel t' = false ∧ won_claim t = false ∧
     t' = ClaimDone (Some {| claim_cancellation_requested := cell =? CANCEL_REQUESTED |})).
Proof.
  destruct t; simpl; intros Hok Hs; try done.
  - unfold request_cancel, compare_exchange in Hs.
    destruct (cell =? RUNNING) eqn:E; bool_prop; simplify_eq; naive_solver.
  - destruct (claim_target cell); simplify_eq; naive_solver.
  - unfold compare_exchange in Hs. destruct (cell =? state) eqn:E; bool_prop; simplify_eq.
    + right; right. destruct (claim_target_TryStore _ _ Hok) as [[-> ->]|[-> ->]]; done.
    + naive_solver.
Qed.

Lemma step_inv cancelled s s' : step s s' → Inv cancelled s → Inv cancelled s'.
Proof.
  intros [cell cell' ts i t t' Hi Hs] [Hok Hcl Hca Hce]; simpl in *.
  assert (Htok : thread_ok t) by (by eapply Forall_lookup_1 in Hok).
  assert (Hreach := claim_target_reachable _ _ _ _ Hce).
  assert (Hok' := thread_step_ok _ _ _ _ Htok Hreach Hs).
  assert (Hag := thread_step_agrees _ _ _ _ Htok Hs).
  pose proof (count_insert won_cancel ts i t t' Hi) as Hn.
  pose proof (count_insert won_claim ts i t t' Hi) as Hm.
  assert (Hts : Forall thread_ok (<[i:=t']> ts)) by (by apply Forall_insert).
  destruct (thread_step_effect _ _ _ _ Htok Hs)
    as [(-> & E1 & E2 & E3 & E4)|[(-> & -> & E1 & E2 & E3 & E4)|(Ht & Htgt & E1 & E2 & E3 & ->)]];
    rewrite ?E1, ?E2, ?E3, ?E4 in *; simpl in *.
  - split; simpl; [done| |lia|].
    + by apply Forall_insert.
    + by replace (count won_cancel (<[i:=t']> ts)) with (count won_cancel ts) by lia;
        replace (count won_claim (<[i:=t']> ts)) with (count won_claim ts) by lia.
  - destruct Hce as [Hce|[Hce|[Hce|Hce]]]; destruct_and!; try done.
    destruct cancelled; [done|]. rewrite orb_false_l in *. bool_prop.
    split; simpl; [done| |lia|].
    + apply Forall_insert; [by apply (claim_agrees_nonterminal RUNNING)|done].
    + right; left. split; [done|]. split; [|lia]. apply bool_decide_eq_true; lia.
  - split; simpl; [done| |lia|].
    + apply Forall_insert; [by apply (claim_agrees_nonterminal cell)|done].
    + replace (count won_cancel (<[i:=_]> ts)) with (count won_cancel ts) by lia.
      apply claim_target_TryStore in Htgt as [[-> ->]|[-> ->]];
        destruct Hce as [Hce|[Hce|[Hce|Hce]]]; destruct_and!; try done.
      * right; right; left. repeat split; [done|lia].
      * right; right; right. repeat split; [done|lia].
Qed.

Lemma control_initial_inv cancelled ts : Forall fresh_call ts → Inv cancelled (initial cancelled ts).
Proof.
  intros Hts. unfold initial. split; simpl.
  - eapply Forall_impl; [exact Hts|]. by intros t [->| ->].
  - eapply Forall_impl; [exact Hts|]. by intros t [->| ->].
  - rewrite count_fresh by done. destruct cancelled; lia.
  - rewrite !count_fresh by done. destruct cancelled; [right; left|left]; done.
Qed.

Lemma control_reachable_inv cancelled ts s :
  Forall fresh_call ts → rtc step (initial cancelled ts) s → Inv cancelled s.
Proof.
  intros Hts Hrun. eapply rtc_preserves; [|done|by apply control_initial_inv].
  intros ???. by apply step_inv.
Qed.

(** *** Bounded retries

    The cell only moves forward, so a compare-and-exchange can fail at most
    twice before its call returns. *)
Definition rank (cell : Z) : nat :=
  if cell =? RUNNING then 2 else if cell =? CANCEL_REQUESTED then 1 else 0.

Definition budget (cell : Z) (t : Thread) : nat :=
  match t with
  | CancelCall => 1
  | ClaimLoad => 2 * rank cell + 1
  | ClaimStore state _ =>
      if (cell =? state)%Z then Nat.max 1 (2 * rank cell) else 2 * rank cell + 2
  | CancelDone _ | ClaimDone _ | Panicked => 0
  end%nat.

Definition total_budget (s : System) : nat :=
  sum_list_with (budget (sys_cell s)) (sys_threads s).

Lemma budget_cell_forward cell cell' t :
  thread_ok t → (cell' = cell ∨ rank cell' < rank cell)%nat →
  (budget cell' t ≤ budget cell t)%nat.
Proof.
  intros Hok [->|Hr]; [done|]. destruct t; simpl; try lia.
  simpl in Hok. repeat case_match; bool_prop; subst; lia.
Qed.

Lemma thread_step_rank cell cell' t t' :
  thread_ok t → thread_step cell t = Some (cell', t') →
  (cell' = cell ∨ rank cell' < rank cell)%nat.
Proof.
  intros Hok Hs. destruct (thread_step_effect _ _ _ _ Hok Hs) as [H|[H|H]]; destruct_and!.
  - by left.
  - subst. right. unfold rank. simpl. lia.
  - right. destruct (claim_target_TryStore cell cell') as [[-> ->]|[-> ->]]; [done|..];
      unfold rank; simpl; lia.
Qed.

Lemma thread_step_budget cell cell' t t' :
  thread_ok t → thread_step cell t = Some (cell', t') →
  (budget cell' t' < budget cell t)%nat.
Proof.
  destruct t; simpl; intros Hok Hs; try done.
  - unfold request_cancel, compare_exchange in Hs. repeat case_match; simplify_eq; simpl; lia.
  - destruct (claim_target cell) eqn:E; simplify_eq; simpl; [|lia|lia].
    rewrite Z.eqb_refl. apply claim_target_TryStore in E as [[-> _]|[-> _]]; unfold rank; simpl; lia.
  - unfold compare_exchange in Hs. destruct (cell =? state); simplify_eq; simpl; lia.
Qed.

Lemma sum_list_insert (f g : Thread → nat) ts i t t' :
  ts !! i = Some t → (g t' < f t)%nat →
  Forall (λ u, (g u ≤ f u)%nat) ts →
  (sum_list_with g (<[i := t']> ts) < sum_list_with f ts)%nat.
Proof.
  intros Hi Hlt Hle. revert i Hi. induction Hle as [|u ts Hu Hts IH]; intros [|i] Hi; simplify_eq/=.
  - assert (sum_list_with g ts ≤ sum_list_with f ts)%nat; [|lia].
    clear -Hts. induction Hts; simpl in *; lia.
  - specialize (IH i Hi). lia.
Qed.

Lemma step_total_budget cancelled s s' :
  Inv cancelled s → step s s' → (total_budget s' < total_budget s)%nat.
Proof.
  intros [Hok _ _ _] Hs. destruct Hs as [cell cell' ts i t t' Hi Hs]; simpl in *.
  assert (Htok : thread_ok t) by (by eapply Forall_lookup_1 in Hok).
  pose proof (thread_step_rank _ _ _ _ Htok Hs) as Hr.
  unfold total_budget; simpl. eapply sum_list_insert; [done|by eapply thread_step_budget|].
  eapply Forall_impl; [exact Hok|]. intros u Hu; simpl. by apply budget_cell_forward.
Qed.

Lemma total_budget_initial cancelled ts :
  Forall fresh_call ts → (total_budget (initial cancelled ts) ≤ 5 * length ts)%nat.
Proof.
  assert (Hr : (rank (new cancelled) ≤ 2)%nat) by (destruct cancelled; vm_compute; lia).
  intros Hts. unfold total_budget; simpl.
  induction Hts as [|t ts [->| ->] _ IH]; simpl; [done|lia|lia].
Qed.

(** *** The calls return *)

Definition returned (t : Thread) : bool :=
  match t with CancelDone _ | ClaimDone _ => true | _ => false end.

Definition is_claim (t : Thread) : bool :=
  match t with ClaimLoad | ClaimStore _ _ | ClaimDone _ => true | _ => false end.

Lemma thread_step_is_claim cell cell' t t' :
  claim_target cell ≠ Unreachable →
  thread_step cell t = Some (cell', t') → is_claim t' = is_claim t.
Proof. destruct t; simpl; intros Hc Hs; sm_cases; congruence. Qed.

Lemma thread_step_progress cell t :
  thread_ok t → returned t = false → is_Some (thread_step cell t).
Proof.
  destruct t; simpl; intros; try done; repeat case_match; simplify_eq; by eexists.
Qed.

Lemma all_returned_or_step cancelled s :
  Inv cancelled s → (∃ s', step s s') ∨ Forall (λ t, returned t = true) (sys_threads s).
Proof.
  intros [Hok _ _ _]. destruct s as [cell ts]; simpl in *.
  destruct (decide (Forall (λ t, returned t = true) ts)) as [|Hn]; [by right|left].
  apply not_Forall_Exists in Hn; [|apply _]. apply Exists_exists in Hn as (t & Hin & Hr).
  apply not_true_is_false in Hr. apply list_elem_of_lookup in Hin as [i Hi].
  destruct (thread_step_progress cell t) as [[cell' t'] Hs]; [by eapply Forall_lookup_1 in Hok|done|].
  eexists. by econstructor.
Qed.

Lemma reachable_is_claim cancelled ts s i t :
  Forall fresh_call ts → rtc step (initial cancelled ts) s →
  ts !! i = Some t → ∃ t', sys_threads s !! i = Some t' ∧ is_claim t' = is_claim t.
Proof.
  intros Hts Hrun Hi. set (P := λ s, Inv cancelled s ∧
    ∃ t', sys_threads s !! i = Some t' ∧ is_claim t' = is_claim t).
  enough (P s) as [_ ?] by done.
  apply (rtc_preserves step P) with (initial cancelled ts);
    [|done|split; [by apply control_initial_inv|by exists t]].
  intros x y Hxy [HI (u & Hu & Hc)]. split; [by eapply step_inv|].
  destruct Hxy as [cell cell' us j v v' Hj Hs]; simpl in *.
  destruct (decide (i = j)) as [->|Hne].
  - rewrite list_lookup_insert_eq by (by eapply lookup_lt_Some).
    exists v'. split; [done|]. simplify_eq. rewrite <- Hc. eapply thread_step_is_claim; [|done].
    eapply claim_target_reachable, HI.
  - rewrite list_lookup_insert_ne by done. by exists u.
Qed.

Lemma count_pos_inv p ts : (1 ≤ count p ts)%nat → ∃ t, t ∈ ts ∧ p t = true.
Proof.
  unfold count. destruct (filter _ ts) as [|t l] eqn:E; simpl; [lia|]. intros _.
  exists t. assert (t ∈ filter (λ t, p t = true) ts) as Ht by (rewrite E; left).
  apply list_elem_of_filter in Ht. naive_solver.
Qed.

(** C20: however the calls of any number of threads interleave on one control,
    at most one [claim_terminal] receives a claim and at most one
    [request_cancel] (none on a control created cancelled) returns true, the
    [unreachable!] arm is never taken, the control is terminal exactly when a
    claim has been made, and the claim says "cancelled" exactly when a
    cancellation won before it. *)
Theorem run_control_single_winner cancelled ts s :
  Forall fresh_call ts → rtc step (initial cancelled ts) s →
  (count won_claim (sys_threads s) ≤ 1)%nat ∧
  (count won_cancel (sys_threads s) + (if cancelled then 1 else 0) ≤ 1)%nat ∧
  (Panicked ∉ sys_threads s) ∧
  (is_terminal (sys_cell s) = true ↔ count won_claim (sys_threads s) = 1%nat) ∧
  (∀ c, ClaimDone (Some c) ∈ sys_threads s →
    claim_cancellation_requested c =
      (cancelled || bool_decide (count won_cancel (sys_threads s) ≠ 0%nat))).
Proof.
  intros Hts Hrun. destruct (control_reachable_inv _ _ _ Hts Hrun) as [Hok Hcl Hca Hce].
  split; [|split; [done|split; [|split]]].
  - destruct Hce as [H|[H|[H|H]]]; destruct_and!; lia.
  - intros Hp. by apply (proj1 (Forall_forall _ _) Hok) in Hp.
  - destruct Hce as [(-> & _ & ->)|[(-> & _ & ->)|[(-> & _ & ->)|(-> & _ & ->)]]]; done.
  - intros c Hc. apply (proj1 (Forall_forall _ _) Hcl) in Hc as [Ht ->].
    destruct Hce as [(E & R & _)|[(E & R & _)|[(E & R & _)|(E & R & _)]]];
      rewrite R; rewrite E in *; done.
Qed.

(** the retry loop of [claim_terminal] is bounded whatever the other
    threads do: [n] calls take at most five atomic accesses each, a state in
    which no thread can move has every call returned, and then a terminal claim
    has been granted to exactly one of the claimants, if there was any. *)
Theorem run_control_calls_return cancelled ts n s :
  Forall fresh_call ts → nsteps step n (initial cancelled ts) s →
  (n ≤ 5 * length ts)%nat ∧
  ((∃ s', step s s') ∨
   (Forall (λ t, returned t = true) (sys_threads s) ∧
    (ClaimLoad ∈ ts → count won_claim (sys_threads s) = 1%nat))).
Proof.
  intros Hts Hn. assert (Hrun : rtc step (initial cancelled ts) s) by (eapply rtc_nsteps_2; done).
  pose proof (control_reachable_inv _ _ _ Hts Hrun) as HI. split.
  - enough (n + total_budget s ≤ total_budget (initial cancelled ts))%nat as Hb
      by (pose proof (total_budget_initial cancelled ts Hts); lia).
    pose proof (control_initial_inv cancelled ts Hts) as H0. clear HI Hrun.
    induction Hn as [|n x y z Hxy _ IH]; [lia|].
    pose proof (step_total_budget _ _ _ H0 Hxy). specialize (IH (step_inv _ _ _ Hxy H0)). lia.
  - destruct (all_returned_or_step _ _ HI) as [|Hret]; [by left|right]. split; [done|].
    intros [i Hi]%list_elem_of_lookup.
    destruct (reachable_is_claim _ _ _ _ _ Hts Hrun Hi) as (t & Ht & Hc).
    destruct HI as [_ Hcl _ Hce].
    pose proof (proj1 (Forall_lookup _ _) Hret _ _ Ht) as Hr.
    pose proof (proj1 (Forall_lookup _ _) Hcl _ _ Ht) as Ha.
    assert (is_terminal (sys_cell s) = true) as Hter
      by (destruct t as [| | | |[c|]|]; naive_solver).
    destruct Hce as [(E & _)|[(E & _)|[(_ & _ & ->)|(_ & _ & ->)]]]; try done; by rewrite E in Hter.
Qed.

(** A canceller and two claimants: the first claimant loads before the
    cancellation and has to retry; the second finds the control terminal. *)
Definition example_calls : list Thread := [CancelCall; ClaimLoad; ClaimLoad].
Definition example_schedule : list nat := [1; 0; 1; 2; 1; 2; 1; 1]%nat.

Definition example_final : System :=
  {| sys_cell := TERMINAL_CANCELLED;
     sys_threads := [CancelDone true;
       ClaimDone None;
       ClaimDone (Some {| claim_cancellation_requested := true |})] |}.

Lemma run_control_single_winner_witness :
  run_schedule example_schedule (initial false example_calls) = Some example_final ∧
  count won_claim (sys_threads example_final) = 1%nat.
Proof.
  split; [reflexivity|].
  destruct (run_control_single_winner false example_calls example_final) as (_ & _ & _ & Hiff & _).
  - repeat constructor; by (left + right).
  - eapply (rtc_nsteps_2 8).
    apply (run_schedule_nsteps example_schedule). reflexivity.
  - apply Hiff. reflexivity.
Defined.

Lemma run_control_calls_return_witness :
  count won_claim (sys_threads example_final) = 1%nat.
Proof.
  destruct (run_control_calls_return false example_calls 8 example_final) as [_ [[s' Hs]|[_ Hc]]].
  - repeat constructor; by (left + right).
  - apply (run_schedule_nsteps example_schedule). reflexivity.
  - exfalso. inversion Hs as [cell cell' ts i t t' Hi Ht]; subst.
    destruct i as [|[|[|i]]]; simplify_eq/=.
  - apply Hc. unfold example_calls. set_solver.
Defined.

End RunControl.

(** ** WorkerLedger

    [BTreeSet]s are finite sets, the [VecDeque] is a list with its front at the
    head; capacities and lengths are [nat]. *)
Module WorkerLedger.
Section Ledger.
Context {K : Type} `{Countable K}.

Record Ledger := {
  outstanding : gset K;
  joined : gset K;
  joined_order : list K;
  history_capacity : nat;
}.

Definition new (history_capacity : nat) : Ledger :=
  {| outstanding := ∅; joined := ∅; joined_order := [];
     history_capacity := history_capacity |}.

(** [BTreeSet::insert] returns whether the value was new; [&&] does not insert
    an identity that is still in the join history. *)
Definition note_started (identity : K) (l : Ledger) : bool * Ledger :=
  if bool_decide (identity ∈ joined l) then (false, l)
  else (bool_decide (identity ∉ outstanding l),
        {| outstanding := {[identity]} ∪ outstanding l; joined := joined l;
           joined_order := joined_order l; history_capacity := history_capacity l |}).

(** [while self.joined_order.len() > self.history_capacity { pop_front ... }] *)
Fixpoint evict (capacity : nat) (joined : gset K) (order : list K) : gset K * list K :=
  if bool_decide (capacity < length order)%nat then
    match order with
    | [] => (joined, order)
    | oldest :: order => evict capacity (joined ∖ {[oldest]}) order
    end
  else (joined, order).

Definition note_joined (identity : K) (l : Ledger) : bool * Ledger :=
  if bool_decide (identity ∈ outstanding l) then
    let '(joined', order') :=
      evict (history_capacity l) ({[identity]} ∪ joined l) (joined_order l ++ [identity]) in
    (true, {| outstanding := outstanding l ∖ {[identity]}; joined := joined';
              joined_order := order'; history_capacity := history_capacity l |})
  else (false, l).

Definition outstanding_count (l : Ledger) : nat := size (outstanding l).
Definition was_joined (identity : K) (l : Ledger) : bool := bool_decide (identity ∈ joined l).
Definition expected (l : Ledger) : gset K := outstanding l ∪ joined l.

(** *** Runs and their logs of successful notes *)

Inductive Op := Started (identity : K) | Joined (identity : K).

Record Run := { run_ledger : Ledger; run_starts : list K; run_joins : list K }.

Definition run_op (op : Op) (r : Run) : Run :=
  match op with
  | Started k =>
      let '(ok, l) := note_started k (run_ledger r) in
      {| run_ledger := l; run_joins := run_joins r;
         run_starts := if ok then run_starts r ++ [k] else run_starts r |}
  | Joined k =>
      let '(ok, l) := note_joined k (run_ledger r) in
      {| run_ledger := l; run_starts := run_starts r;
         run_joins := if ok then run_joins r ++ [k] else run_joins r |}
  end.

Definition run_ops (capacity : nat) (ops : list Op) : Run :=
  foldl (λ r op, run_op op r)
        {| run_ledger := new capacity; run_starts := []; run_joins := [] |} ops.

Definition occurrences (k : K) (l : list K) : nat := length (filter (k =.) l).

Record Inv (capacity : nat) (r : Run) : Prop := {
  inv_capacity : history_capacity (run_ledger r) = capacity;
  inv_order : joined_order (run_ledger r) = last_n capacity (run_joins r);
  inv_joined : joined (run_ledger r) = list_to_set (joined_order (run_ledger r));
  inv_nodup : NoDup (joined_order (run_ledger r));
  inv_disjoint : outstanding (run_ledger r) ## joined (run_ledger r);
  inv_count k : occurrences k (run_starts r) =
    (occurrences k (run_joins r)
     + (if bool_decide (k ∈ outstanding (run_ledger r)) then 1 else 0))%nat;
}.

Lemma evict_spec capacity order J :
  NoDup order → J = list_to_set order →
  evict capacity J order = (list_to_set (last_n capacity order), last_n capacity order).
Proof.
  unfold last_n. revert J. induction order as [|k order IH]; intros J Hnd ->; simpl.
  { done. }
  apply NoDup_cons in Hnd as [Hk Hnd]. case_bool_decide as Hlt; simpl in *.
  - rewrite IH by (done || set_solver).
    replace (S (length order) - capacity)%nat with (S (length order - capacity))%nat by lia. done.
  - replace (S (length order) - capacity)%nat with 0%nat by lia. done.
Qed.

Lemma occurrences_app k l j : occurrences k (l ++ [j]) =
  (occurrences k l + (if bool_decide (k = j) then 1 else 0))%nat.
Proof.
  unfold occurrences. rewrite filter_app, length_app. f_equal.
  rewrite filter_cons, filter_nil. repeat case_decide; repeat case_bool_decide; done.
Qed.

Lemma run_op_inv capacity op r : Inv capacity r → Inv capacity (run_op op r).
Proof.
  intros [Hcap Hord Hjoin Hnd Hdis Hcnt]. destruct r as [[out jo ord cap] st jn]; simpl in *.
  subst cap. destruct op as [k|k]; simpl.
  - unfold note_started; simpl. case_bool_decide as Hk; [by split|].
    case_bool_decide as Ho; split; simpl; try done; [set_solver| |set_solver|];
      intros j; specialize (Hcnt j); rewrite ?occurrences_app, Hcnt;
      repeat case_bool_decide; subst; set_solver by lia.
  - unfold note_joined; simpl. case_bool_decide as Hk; [|by split].
    assert (Hkord : k ∉ ord) by (intros Hin; apply (Hdis k); [done|subst jo; set_solver]).
    rewrite evict_spec; [|apply NoDup_app; set_solver by (apply NoDup_singleton || done)
                        |subst jo; rewrite list_to_set_app_L; set_solver].
    split; simpl; try done.
    + rewrite Hord, last_n_app. done.
    + assert (NoDup (ord ++ [k])) as Hnd'.
      { apply NoDup_app. split; [done|]. split; [set_solver|apply NoDup_singleton]. }
      by eapply sublist_NoDup, sublist_drop.
    + intros j Hj1 Hj2. apply elem_of_list_to_set, last_n_incl in Hj2.
      apply (Hdis j); set_solver.
    + intros j. specialize (Hcnt j). rewrite occurrences_app, Hcnt.
      repeat case_bool_decide; subst; set_solver by lia.
Qed.

Lemma run_ops_inv capacity ops : Inv capacity (run_ops capacity ops).
Proof.
  induction ops as [|op ops IH] using rev_ind.
  - split; simpl; try done; apply NoDup_nil_2 || set_solver.
  - unfold run_ops in *. rewrite foldl_app. by apply run_op_inv.
Qed.

(** after any sequence of notes the ledger holds exactly the identities
    started and not yet joined (none is ever evicted, whatever the history
    capacity), and the join history is the last [capacity] successful joins, in
    order, without repetition, disjoint from the outstanding identities. *)
Theorem worker_ledger_tracks_owners capacity ops :
  let r := run_ops capacity ops in
  let l := run_ledger r in
  (∀ k, occurrences k (run_starts r) =
    (occurrences k (run_joins r) + (if bool_decide (k ∈ outstanding l) then 1 else 0))%nat) ∧
  joined_order l = last_n capacity (run_joins r) ∧
  (∀ k, was_joined k l = true ↔ k ∈ joined_order l) ∧
  NoDup (joined_order l) ∧
  (length (joined_order l) ≤ capacity)%nat ∧
  (outstanding_count l + length (joined_order l))%nat = size (expected l).
Proof.
  intros r l. destruct (run_ops_inv capacity ops) as [_ Hord Hjoin Hnd Hdis Hcnt].
  fold r in Hord, Hjoin, Hnd, Hdis, Hcnt. fold l in Hord, Hjoin, Hnd, Hdis, Hcnt.
  split; [done|]. split; [done|]. split; [|split; [done|split]].
  - intros k. unfold was_joined. rewrite bool_decide_eq_true, Hjoin. apply elem_of_list_to_set.
  - rewrite Hord. unfold last_n. rewrite length_drop. lia.
  - unfold outstanding_count, expected. rewrite size_union by done.
    rewrite Hjoin. by rewrite size_list_to_set.
Qed.

End Ledger.
End WorkerLedger.
