(* ===== verification/OperationSpec.v ===== *)
(** * OperationSpec: the lifecycle every operation registry promises

    An abstract operation moves Reserved, Queued, Running, Terminal, Released.
    The speech host, the FTE router, the native engine and the generation supervisor
    of the Loom host each keep a registry of such operations; their files show that
    every call on the registry moves every operation along this specification
    ([OperationOwner]), and the theorems of this file then hold of all of them. *)

From S2P Require Import Prelude.

(** The enums are declared with these constructors in each of these crates (with a
    prefix in the Loom host). *)
Inductive OperationPhase := Reserved | Queued | Running | Terminal | Released.
Inductive TerminalClass := Completed | Cancelled | Failed.

#[export] Instance OperationPhase_eq_dec : EqDecision OperationPhase.
Proof. solve_decision. Defined.
#[export] Instance TerminalClass_eq_dec : EqDecision TerminalClass.
Proof. solve_decision. Defined.

Definition phase_rank (p : OperationPhase) : nat :=
  match p with
  | Reserved => 0 | Queued => 1 | Running => 2 | Terminal => 3 | Released => 4
  end.

(** ** The abstract operation *)

Record Op := mkOp {
  op_phase : OperationPhase;
  op_cancelled : bool;
  op_terminal : option TerminalClass;
}.

Definition op_initial : Op := mkOp Reserved false None.

Inductive op_step : Op → Op → Prop :=
| op_queue c : op_step (mkOp Reserved c None) (mkOp Queued c None)
| op_start c : op_step (mkOp Queued c None) (mkOp Running c None)
| op_cancel p c t : p ≠ Released → op_step (mkOp p c t) (mkOp p true t)
| op_finish c t : op_step (mkOp Running c None) (mkOp Terminal c (Some t))
| op_reject p c t : (phase_rank p < phase_rank Running)%nat → t ≠ Completed →
    op_step (mkOp p c None) (mkOp Terminal c (Some t))
| op_release c t : op_step (mkOp Terminal c (Some t)) (mkOp Released c (Some t)).

(** A terminal result is recorded exactly from the Terminal phase on. *)
Definition op_wf (o : Op) : Prop :=
  is_Some (op_terminal o) ↔ (phase_rank Terminal ≤ phase_rank (op_phase o))%nat.

(** What one step, hence any number of steps, can do to an operation. *)
Record op_le (o o' : Op) : Prop := {
  op_le_phase : (phase_rank (op_phase o) ≤ phase_rank (op_phase o'))%nat;
  op_le_cancelled : op_cancelled o = true → op_cancelled o' = true;
  op_le_terminal : is_Some (op_terminal o) → op_terminal o' = op_terminal o;
  op_le_released : op_phase o = Released → o' = o;
}.

#[export] Instance op_le_refl : Reflexive op_le.
Proof. intros o. by split. Qed.
#[export] Instance op_le_trans : Transitive op_le.
Proof.
  intros o1 o2 o3 [P1 C1 T1 R1] [P2 C2 T2 R2]. split; [lia|by auto| |].
  - intros Hs. rewrite T2, T1; [done|done|]. by rewrite T1.
  - intros Hr. rewrite R2; [by apply R1|]. by rewrite R1.
Qed.

Lemma op_step_le o o' : op_step o o' → op_le o o'.
Proof. intros []; split; simpl in *; intros; simplify_eq/=; try done; try lia. Qed.

Lemma op_steps_le o o' : rtc op_step o o' → op_le o o'.
Proof. apply rtc_subrel; [apply op_step_le|apply _|apply _]. Qed.

Lemma op_step_wf o o' : op_step o o' → op_wf o → op_wf o'.
Proof.
  intros []; unfold op_wf; simpl; intros; try done;
    (split; [intros; simpl; lia|intros; by eexists]) || (split; [by intros []|simpl; lia]).
Qed.

Lemma op_initial_wf : op_wf op_initial.
Proof. split; simpl; [by intros []|lia]. Qed.

(** Only an operation that was Running completes. *)
Lemma op_steps_completed o o' :
  rtc op_step o o' → op_terminal o = None → op_terminal o' = Some Completed →
  ∃ m, rtc op_step o m ∧ op_phase m = Running ∧ rtc op_step m o'.
Proof.
  induction 1 as [o|o m o' Hom Hmo' IH]; intros Hn Hc; [congruence|].
  destruct (decide (op_terminal m = None)) as [Hm|Hm].
  - destruct (IH Hm Hc) as (m' & H1 & H2 & H3). exists m'. split; [by eapply rtc_l|done].
  - assert (op_terminal m = Some Completed) as Hmc.
    { rewrite <- Hc. symmetry. eapply op_le_terminal; [by apply op_steps_le|].
      destruct (op_terminal m); [by eexists|done]. }
    exists o. split; [done|]. split; [|by eapply rtc_l]. destruct Hom; simplify_eq/=; done.
Qed.

(** ** The interface of an operation registry

    [owner_view s i] is the operation behind the [i]-th identity the registry
    has handed out. *)
Class OperationOwner (S Ident : Type) := {
  owner_inv : S → Prop;
  owner_step : relation S;
  owner_view : S → Ident → option Op;
  owner_step_inv s s' : owner_inv s → owner_step s s' → owner_inv s';
  owner_step_view s s' i o : owner_inv s → owner_step s s' → owner_view s i = Some o →
    ∃ o', owner_view s' i = Some o' ∧ rtc op_step o o';
  owner_step_fresh s s' i o : owner_inv s → owner_step s s' →
    owner_view s i = None → owner_view s' i = Some o → o = op_initial;
}.

Section Owner.
Context {S Ident : Type} `{OperationOwner S Ident}.

Lemma owner_run_inv s s' : owner_inv s → rtc owner_step s s' → owner_inv s'.
Proof. intros Hs Hrun. eapply (rtc_preserves owner_step owner_inv); eauto using owner_step_inv. Qed.

Lemma owner_run_view s s' i o :
  owner_inv s → rtc owner_step s s' → owner_view s i = Some o →
  ∃ o', owner_view s' i = Some o' ∧ rtc op_step o o'.
Proof.
  intros Hs Hrun. revert o. induction Hrun as [|x y z Hxy Hyz IH]; intros o Ho; [by exists o|].
  destruct (owner_step_view _ _ _ _ Hs Hxy Ho) as (o1 & H1 & Hr1).
  destruct (IH (owner_step_inv _ _ Hs Hxy) _ H1) as (o2 & H2 & Hr2).
  exists o2. split; [done|]. by etrans.
Qed.

(** Every identity handed out during a run went through the lifecycle from its start. *)
Lemma owner_run_fresh s s' i o :
  owner_inv s → rtc owner_step s s' → owner_view s i = None → owner_view s' i = Some o →
  rtc op_step op_initial o.
Proof.
  intros Hs Hrun Hn. induction Hrun as [|x y z Hxy Hyz IH]; intros Ho; [congruence|].
  pose proof (owner_step_inv _ _ Hs Hxy) as Hy.
  destruct (owner_view y i) as [oy|] eqn:Ey; [|by apply IH].
  assert (oy = op_initial) as -> by (by apply (owner_step_fresh x y i)).
  destruct (owner_run_view _ _ _ _ Hy Hyz Ey) as (o' & H1 & H2). congruence.
Qed.

End Owner.
