(* ===== verification/SpeechRegistry.v ===== *)
(** * SpeechRegistry: the speech host's operation registry

    [crates/services/speech/crates/speech-native-host/src/operation_lifecycle.rs].
    The registry state is behind one mutex; every reservation allocates a
    separate mutex (the released slot) shared by the record and its leases. Both
    kinds of cell live in [Registry]; a lease names its slot by location. Each
    method below is one critical section. *)

From S2P Require Import Prelude OperationSpec.
Local Open Scope Z_scope.

Record OperationIdentity := {
  operation_id : string;
  attempt_id : string;
  sequence : Z;
}.
#[export] Instance OperationIdentity_eq_dec : EqDecision OperationIdentity.
Proof. solve_decision. Defined.

Record OperationSnapshot := {
  snap_identity : OperationIdentity;
  snap_phase : OperationPhase;
  snap_cancellation_requested : bool;
  snap_terminal : option TerminalClass;
  snap_progress : list Z;
}.
#[export] Instance OperationSnapshot_eq_dec : EqDecision OperationSnapshot.
Proof. solve_decision. Defined.

Inductive RegistryError :=
| Duplicate | Exhausted | Stale | InvalidTransition | StateUnavailable.
#[export] Instance RegistryError_eq_dec : EqDecision RegistryError.
Proof. solve_decision. Defined.

(** The location of a released slot. *)
Notation loc := nat.

Record OperationRecord := {
  rec_identity : OperationIdentity;
  rec_phase : OperationPhase;
  rec_cancellation_requested : bool;
  rec_terminal : option TerminalClass;
  rec_progress : list Z;
  rec_progress_capacity : nat;
  rec_next_attempt_sequence : Z;
  rec_attempts : gmap Z OperationIdentity;
  rec_released : loc;
}.

Record Slot := { slot_poisoned : bool; slot_value : option OperationSnapshot }.
#[export] Instance Slot_inhabited : Inhabited Slot :=
  populate {| slot_poisoned := false; slot_value := None |}.

Record Registry := {
  next_sequence : Z;
  operations : gmap string OperationRecord;
  poisoned : bool;
  faulted : bool;
  progress_capacity : nat;
  slots : list Slot;
}.

Record OperationLease := {
  lease_identity : OperationIdentity;
  lease_released : loc;
}.

Record ConsumerGuard := { guard_lease : OperationLease; cancel_on_drop : bool }.

Record AttemptLease := {
  attempt_operation : OperationIdentity;
  attempt_identity : OperationIdentity;
}.

(** ** Field updates *)

Definition set_operations (ops : gmap string OperationRecord) (w : Registry) : Registry :=
  {| next_sequence := next_sequence w; operations := ops; poisoned := poisoned w;
     faulted := faulted w; progress_capacity := progress_capacity w; slots := slots w |}.
Definition set_faulted (w : Registry) : Registry :=
  {| next_sequence := next_sequence w; operations := operations w; poisoned := poisoned w;
     faulted := true; progress_capacity := progress_capacity w; slots := slots w |}.
Definition set_next_sequence (n : Z) (w : Registry) : Registry :=
  {| next_sequence := n; operations := operations w; poisoned := poisoned w;
     faulted := faulted w; progress_capacity := progress_capacity w; slots := slots w |}.
Definition set_slots (sl : list Slot) (w : Registry) : Registry :=
  {| next_sequence := next_sequence w; operations := operations w; poisoned := poisoned w;
     faulted := faulted w; progress_capacity := progress_capacity w; slots := sl |}.

Definition set_phase (p : OperationPhase) (r : OperationRecord) : OperationRecord :=
  {| rec_identity := rec_identity r; rec_phase := p;
     rec_cancellation_requested := rec_cancellation_requested r;
     rec_terminal := rec_terminal r; rec_progress := rec_progress r;
     rec_progress_capacity := rec_progress_capacity r;
     rec_next_attempt_sequence := rec_next_attempt_sequence r;
     rec_attempts := rec_attempts r; rec_released := rec_released r |}.
Definition set_terminal (t : TerminalClass) (r : OperationRecord) : OperationRecord :=
  {| rec_identity := rec_identity r; rec_phase := rec_phase r;
     rec_cancellation_requested := rec_cancellation_requested r;
     rec_terminal := Some t; rec_progress := rec_progress r;
     rec_progress_capacity := rec_progress_capacity r;
     rec_next_attempt_sequence := rec_next_attempt_sequence r;
     rec_attempts := rec_attempts r; rec_released := rec_released r |}.
Definition set_cancelled (r : OperationRecord) : OperationRecord :=
  {| rec_identity := rec_identity r; rec_phase := rec_phase r;
     rec_cancellation_requested := true;
     rec_terminal := rec_terminal r; rec_progress := rec_progress r;
     rec_progress_capacity := rec_progress_capacity r;
     rec_next_attempt_sequence := rec_next_attempt_sequence r;
     rec_attempts := rec_attempts r; rec_released := rec_released r |}.
Definition set_progress (p : list Z) (r : OperationRecord) : OperationRecord :=
  {| rec_identity := rec_identity r; rec_phase := rec_phase r;
     rec_cancellation_requested := rec_cancellation_requested r;
     rec_terminal := rec_terminal r; rec_progress := p;
     rec_progress_capacity := rec_progress_capacity r;
     rec_next_attempt_sequence := rec_next_attempt_sequence r;
     rec_attempts := rec_attempts r; rec_released := rec_released r |}.
Definition set_attempts (next : Z) (a : gmap Z OperationIdentity) (r : OperationRecord)
    : OperationRecord :=
  {| rec_identity := rec_identity r; rec_phase := rec_phase r;
     rec_cancellation_requested := rec_cancellation_requested r;
     rec_terminal := rec_terminal r; rec_progress := rec_progress r;
     rec_progress_capacity := rec_progress_capacity r;
     rec_next_attempt_sequence := next;
     rec_attempts := a; rec_released := rec_released r |}.

(** ** The registry's methods *)

Definition M : Type → Type := SM Registry RegistryError.

Definition snapshot_of (record : OperationRecord) : OperationSnapshot :=
  {| snap_identity := rec_identity record;
     snap_phase := rec_phase record;
     snap_cancellation_requested := rec_cancellation_requested record;
     snap_terminal := rec_terminal record;
     snap_progress := rec_progress record |}.

Definition new (next : Z) (capacity : nat) : Registry :=
  {| next_sequence := next; operations := ∅; poisoned := false; faulted := false;
     progress_capacity := capacity; slots := [] |}.

(** A poisoned mutex marks the registry faulted and refuses the call. *)
Definition lock : M Registry := λ w,
  if poisoned w then (Err StateUnavailable, set_faulted w) else (Ok w, w).

Definition released_lock (l : loc) : M (option OperationSnapshot) := λ w,
  let slot := slots w !!! l in
  if slot_poisoned slot then (Err StateUnavailable, set_faulted w)
  else (Ok (slot_value slot), w).

(** [*released_slot = Some(snapshot)] *)
Definition store_released (l : loc) (s : OperationSnapshot) : M unit :=
  sm_modify (λ w, set_slots
    (<[l := {| slot_poisoned := false; slot_value := Some s |}]> (slots w)) w).

Definition record_mut (state : Registry) (identity : OperationIdentity)
    : result RegistryError OperationRecord :=
  record ← ok_or (operations state !! operation_id identity) Stale;
  reject_if (bool_decide (rec_identity record ≠ identity)) Stale;;
  mret record.

(** Write back through the [&mut OperationRecord] that [record_mut] returned. *)
Definition write_record (identity : OperationIdentity) (record : OperationRecord) : M unit :=
  sm_modify (λ w, set_operations (<[operation_id identity := record]> (operations w)) w).
Definition remove_record (identity : OperationIdentity) : M unit :=
  sm_modify (λ w, set_operations (delete (operation_id identity) (operations w)) w).

Definition operation_attempt_id (sequence : Z) : string :=
  "speech-operation-" +:+ pretty sequence.

Definition reserve_with_capacity (id : string) (capacity : nat)
    : M (ConsumerGuard * OperationLease) :=
  state ← lock;
  sm_reject_if (bool_decide (is_Some (operations state !! id))) Duplicate;;
  let sequence := next_sequence state in
  next ← sm_lift (ok_or (checked_add u64_max sequence 1) Exhausted);
  sm_modify (set_next_sequence next);;
  let identity := {| operation_id := id; attempt_id := operation_attempt_id sequence;
                     sequence := sequence |} in
  let released := length (slots state) in
  sm_modify (λ w, set_slots (slots w ++ [{| slot_poisoned := false; slot_value := None |}]) w);;
  sm_modify (λ w, set_operations (<[id :=
    {| rec_identity := identity; rec_phase := Reserved;
       rec_cancellation_requested := false; rec_terminal := None;
       rec_progress := []; rec_progress_capacity := capacity;
       rec_next_attempt_sequence := 1; rec_attempts := ∅;
       rec_released := released |}]> (operations w)) w);;
  let lease := {| lease_identity := identity; lease_released := released |} in
  mret ({| guard_lease := lease; cancel_on_drop := true |}, lease).

Definition reserve (id : string) : M (ConsumerGuard * OperationLease) := λ w,
  reserve_with_capacity id (progress_capacity w) w.

Definition active_count : M nat := state ← lock; mret (size (operations state)).

Definition current (id : string) : M (option OperationSnapshot) :=
  state ← lock; mret (snapshot_of <$> operations state !! id).

Definition current_lease (id : string) : M (option OperationLease) :=
  state ← lock;
  match operations state !! id with
  | None => mret None
  | Some record => mret (Some {| lease_identity := rec_identity record;
                                 lease_released := rec_released record |})
  end.

(** The keys of the [BTreeMap], in its order. *)
Definition sorted_keys (ops : gmap string OperationRecord) : list string :=
  sorted_strings (elements (dom ops)).

Definition request_cancel_all : M (list string) :=
  state ← lock;
  let ids := sorted_keys (operations state) in
  sm_modify (λ w, set_operations (set_cancelled <$> operations w) w);;
  mret ids.

(** ** The lease's methods *)

Definition lease_snapshot (l : OperationLease) : M (option OperationSnapshot) :=
  state ← lock;
  match operations state !! operation_id (lease_identity l) with
  | Some record =>
      mret (if bool_decide (rec_identity record = lease_identity l)
            then Some (snapshot_of record) else None)
  | None => released_lock (lease_released l)
  end.

Definition is_active (l : OperationLease) : M bool :=
  s ← current (operation_id (lease_identity l));
  mret (match s with
        | Some snapshot => bool_decide (snap_identity snapshot = lease_identity l)
        | None => false
        end).

Definition transition (l : OperationLease) (expected next : OperationPhase) : M unit :=
  state ← lock;
  record ← sm_lift (record_mut state (lease_identity l));
  sm_reject_if (bool_decide (rec_phase record ≠ expected)) InvalidTransition;;
  write_record (lease_identity l) (set_phase next record).

Definition queue (l : OperationLease) : M unit := transition l Reserved Queued.
Definition start (l : OperationLease) : M unit := transition l Queued Running.

Definition terminal (l : OperationLease) (t : TerminalClass) : M unit :=
  state ← lock;
  record ← sm_lift (record_mut state (lease_identity l));
  sm_reject_if (bool_decide (rec_phase record ≠ Running)
                || bool_decide (is_Some (rec_terminal record))) InvalidTransition;;
  write_record (lease_identity l) (set_phase Terminal (set_terminal t record)).

Definition release (l : OperationLease) : M unit :=
  released_lock (lease_released l);;
  state ← lock;
  record ← sm_lift (record_mut state (lease_identity l));
  sm_reject_if (bool_decide (rec_phase record ≠ Terminal)
                || negb (bool_decide (rec_attempts record = ∅))) InvalidTransition;;
  let released := snapshot_of (set_phase Released record) in
  remove_record (lease_identity l);;
  store_released (lease_released l) released.

Definition finish_attempt_and_release_inner (l : OperationLease) (attempt : AttemptLease)
    (t : TerminalClass) (cancellation_wins release : bool) : M OperationSnapshot :=
  sm_reject_if (bool_decide (attempt_operation attempt ≠ lease_identity l)) Stale;;
  released_lock (lease_released l);;
  state ← lock;
  record ← sm_lift (record_mut state (lease_identity l));
  let key := sequence (attempt_identity attempt) in
  sm_reject_if (bool_decide (rec_phase record ≠ Running)
                || bool_decide (is_Some (rec_terminal record))
                || bool_decide (size (rec_attempts record) ≠ 1%nat)
                || bool_decide (rec_attempts record !! key ≠ Some (attempt_identity attempt)))
    InvalidTransition;;
  let record := set_attempts (rec_next_attempt_sequence record)
                             (delete key (rec_attempts record)) record in
  let record := set_terminal
    (if cancellation_wins && rec_cancellation_requested record then Cancelled else t) record in
  let record := set_phase (if release then Released else Terminal) record in
  let released := snapshot_of record in
  (if release
   then remove_record (lease_identity l);; store_released (lease_released l) released
   else write_record (lease_identity l) record);;
  mret released.

Definition finish_attempt_and_release (l : OperationLease) (a : AttemptLease)
    (t : TerminalClass) : M OperationSnapshot :=
  finish_attempt_and_release_inner l a t false true.
Definition finish_backend_attempt_and_release (l : OperationLease) (a : AttemptLease)
    (t : TerminalClass) : M OperationSnapshot :=
  finish_attempt_and_release_inner l a t true true.
Definition finish_attempt_terminal (l : OperationLease) (a : AttemptLease)
    (t : TerminalClass) (cancellation_wins : bool) : M OperationSnapshot :=
  finish_attempt_and_release_inner l a t cancellation_wins false.

Definition finish_setup_and_release (l : OperationLease) (t : TerminalClass)
    : M OperationSnapshot :=
  released_lock (lease_released l);;
  state ← lock;
  record ← sm_lift (record_mut state (lease_identity l));
  sm_reject_if (bool_decide (is_Some (rec_terminal record))
                || negb (bool_decide (rec_attempts record = ∅))) InvalidTransition;;
  let released := snapshot_of (set_phase Released (set_terminal t record)) in
  remove_record (lease_identity l);;
  store_released (lease_released l) released;;
  mret released.

Definition fail_setup_and_release (l : OperationLease) : M OperationSnapshot :=
  finish_setup_and_release l Failed.
Definition cancel_setup_and_release (l : OperationLease) : M OperationSnapshot :=
  finish_setup_and_release l Cancelled.

Definition request_cancel_once (l : OperationLease) : M bool :=
  state ← lock;
  record ← sm_lift (record_mut state (lease_identity l));
  let newly_requested := negb (rec_cancellation_requested record) in
  write_record (lease_identity l) (set_cancelled record);;
  mret newly_requested.

Definition request_cancel (l : OperationLease) : M unit := request_cancel_once l;; mret tt.

(** The bounded [VecDeque]: at capacity the oldest entry makes room. *)
Definition push_progress (capacity : nat) (progress : list Z) (sequence : Z) : list Z :=
  if bool_decide (capacity = 0%nat) then progress
  else (if bool_decide (length progress = capacity) then tail progress else progress)
         ++ [sequence].

Definition publish_progress (l : OperationLease) (sequence : Z) : M unit :=
  state ← lock;
  record ← sm_lift (record_mut state (lease_identity l));
  sm_reject_if (bool_decide (rec_phase record ≠ Running)
                || bool_decide (is_Some (rec_terminal record))) InvalidTransition;;
  write_record (lease_identity l)
    (set_progress (push_progress (rec_progress_capacity record) (rec_progress record) sequence)
                  record).

Definition attempt_identity_for (operation : OperationIdentity) (sequence : Z)
    : OperationIdentity :=
  {| operation_id := operation_id operation;
     attempt_id := attempt_id operation +:+ "-attempt-" +:+ pretty sequence;
     sequence := sequence |}.

Definition start_attempt (l : OperationLease) : M AttemptLease :=
  state ← lock;
  record ← sm_lift (record_mut state (lease_identity l));
  sm_reject_if (bool_decide (rec_phase record ≠ Running)) InvalidTransition;;
  let sequence := rec_next_attempt_sequence record in
  next ← sm_lift (ok_or (checked_add u64_max sequence 1) Exhausted);
  let identity := attempt_identity_for (lease_identity l) sequence in
  write_record (lease_identity l)
    (set_attempts next (<[sequence := identity]> (rec_attempts record)) record);;
  mret {| attempt_operation := lease_identity l; attempt_identity := identity |}.

(** [BTreeMap::values], in key order. *)
Definition active_attempts (l : OperationLease) : M (list OperationIdentity) :=
  state ← lock;
  record ← sm_lift (record_mut state (lease_identity l));
  mret (omap (λ k, rec_attempts record !! k)
             (merge_sort Z.le (elements (dom (rec_attempts record))))).

(** ** The consumer guard and the attempt lease *)

Definition guard_cancel (g : ConsumerGuard) : M unit := request_cancel (guard_lease g).
Definition guard_disarm (g : ConsumerGuard) : ConsumerGuard :=
  {| guard_lease := guard_lease g; cancel_on_drop := false |}.

(** [Drop for ConsumerGuard]: errors are swallowed, except that an unavailable
    registry is recorded as faulted. *)
Definition guard_drop (g : ConsumerGuard) (w : Registry) : Registry :=
  if cancel_on_drop g then
    match request_cancel (guard_lease g) w with
    | (Err StateUnavailable, w') => set_faulted w'
    | (_, w') => w'
    end
  else w.

Definition attempt_cancellation_requested (a : AttemptLease) : M bool :=
  state ← lock;
  record ← sm_lift (record_mut state (attempt_operation a));
  mret (rec_cancellation_requested record).

(** The entry is removed before its identity is compared. *)
Definition attempt_finish (a : AttemptLease) : M unit :=
  state ← lock;
  record ← sm_lift (record_mut state (attempt_operation a));
  let key := sequence (attempt_identity a) in
  let removed := rec_attempts record !! key in
  write_record (attempt_operation a)
    (set_attempts (rec_next_attempt_sequence record) (delete key (rec_attempts record)) record);;
  sm_reject_if (bool_decide (removed ≠ Some (attempt_identity a))) Stale.

(** ** Clients of one registry

    A client holds the leases that [reserve] handed out ([current_lease] only
    returns copies of them, see [current_lease_issued]); the guard and every
    clone of a lease are the lease itself. A panic inside a critical section
    poisons the mutex it holds: [CPoison] and [CPoisonSlot]. *)
Record Sys := { reg : Registry; issued : list OperationLease }.

Inductive Call :=
| CReserve (id : string) (capacity : nat)
| CQueue (n : nat)
| CStart (n : nat)
| CTerminal (n : nat) (t : TerminalClass)
| CRelease (n : nat)
| CFinishAttempt (n : nat) (a : AttemptLease) (t : TerminalClass) (wins release : bool)
| CFinishSetup (n : nat) (t : TerminalClass)
| CCancel (n : nat)
| CCancelAll
| CProgress (n : nat) (sequence : Z)
| CStartAttempt (n : nat)
| CAttemptFinish (a : AttemptLease)
| CGuardDrop (n : nat) (armed : bool)
| CPoison
| CPoisonSlot (l : loc).

Definition exec {A} (m : M A) (w : Registry) : Registry := snd (m w).

Definition with_lease (n : nat) (f : OperationLease → Registry → Registry) (s : Sys) : Sys :=
  match issued s !! n with
  | Some l => {| reg := f l (reg s); issued := issued s |}
  | None => s
  end.

Definition poison (w : Registry) : Registry :=
  {| next_sequence := next_sequence w; operations := operations w; poisoned := true;
     faulted := faulted w; progress_capacity := progress_capacity w; slots := slots w |}.
Definition poison_slot (l : loc) (w : Registry) : Registry :=
  set_slots (alter (λ sl, {| slot_poisoned := true; slot_value := slot_value sl |}) l (slots w)) w.

Definition run_call (c : Call) (s : Sys) : Sys :=
  match c with
  | CReserve id capacity =>
      match reserve_with_capacity id capacity (reg s) with
      | (Ok (_, lease), w) => {| reg := w; issued := issued s ++ [lease] |}
      | (Err _, w) => {| reg := w; issued := issued s |}
      end
  | CQueue n => with_lease n (λ l, exec (queue l)) s
  | CStart n => with_lease n (λ l, exec (start l)) s
  | CTerminal n t => with_lease n (λ l, exec (terminal l t)) s
  | CRelease n => with_lease n (λ l, exec (release l)) s
  | CFinishAttempt n a t wins rel =>
      with_lease n (λ l, exec (finish_attempt_and_release_inner l a t wins rel)) s
  | CFinishSetup n t => with_lease n (λ l, exec (finish_setup_and_release l t)) s
  | CCancel n => with_lease n (λ l, exec (request_cancel l)) s
  | CCancelAll => {| reg := exec request_cancel_all (reg s); issued := issued s |}
  | CProgress n q => with_lease n (λ l, exec (publish_progress l q)) s
  | CStartAttempt n => with_lease n (λ l, exec (start_attempt l)) s
  | CAttemptFinish a => {| reg := exec (attempt_finish a) (reg s); issued := issued s |}
  | CGuardDrop n armed =>
      with_lease n (λ l, guard_drop {| guard_lease := l; cancel_on_drop := armed |}) s
  | CPoison => {| reg := poison (reg s); issued := issued s |}
  | CPoisonSlot l => {| reg := poison_slot l (reg s); issued := issued s |}
  end.

(** A setup rollback ends in Failed or Cancelled ([fail_setup_and_release],
    [cancel_setup_and_release]); nothing else calls [finish_setup_and_release]. *)
Definition call_ok (c : Call) : Prop :=
  match c with CFinishSetup _ t => t ≠ Completed | _ => True end.

Definition call_step (s s' : Sys) : Prop := ∃ c, call_ok c ∧ s' = run_call c s.

Definition initial (next : Z) (capacity : nat) : Sys :=
  {| reg := new next capacity; issued := [] |}.

(** ** Well-formed records and their abstraction *)

Definition rec_op (r : OperationRecord) : Op :=
  mkOp (rec_phase r) (rec_cancellation_requested r) (rec_terminal r).
Definition snap_op (s : OperationSnapshot) : Op :=
  mkOp (snap_phase s) (snap_cancellation_requested s) (snap_terminal s).

Record record_wf (r : OperationRecord) : Prop := {
  wf_phase : rec_phase r ≠ Released;
  wf_terminal : is_Some (rec_terminal r) ↔ rec_phase r = Terminal;
  wf_progress : (length (rec_progress r) ≤ rec_progress_capacity r)%nat;
  wf_attempts q a : rec_attempts r !! q = Some a →
    a = attempt_identity_for (rec_identity r) q ∧ q < rec_next_attempt_sequence r;
  wf_attempt_phase : rec_attempts r ≠ ∅ → rec_phase r = Running ∨ rec_phase r = Terminal;
}.

(** What a method may do to a record it leaves in the registry. *)
Record rec_step (r r' : OperationRecord) : Prop := {
  rs_identity : rec_identity r' = rec_identity r;
  rs_released : rec_released r' = rec_released r;
  rs_op : record_wf r → rtc op_step (rec_op r) (rec_op r');
  rs_wf : record_wf r → record_wf r';
}.

Lemma rec_step_refl r : rec_step r r.
Proof. by split. Qed.
#[local] Hint Resolve rec_step_refl : core.

Lemma rec_step_phase r from to :
  rec_phase r = from →
  (from = Reserved ∧ to = Queued ∨ from = Queued ∧ to = Running) →
  rec_step r (set_phase to r).
Proof.
  destruct r as [id p c t pr cap nx at_ rel]; simpl. intros -> Hft.
  assert (Ht : record_wf (Build_OperationRecord id from c t pr cap nx at_ rel) → t = None).
  { intros [_ Ht _ _ _]; simpl in *. destruct t; [|done].
    destruct Ht as [Ht _]. specialize (Ht ltac:(by eexists)). naive_solver. }
  split; simpl; try done.
  - intros Hwf. rewrite (Ht Hwf). unfold rec_op; simpl.
    destruct Hft as [[-> ->]|[-> ->]]; apply rtc_once; constructor.
  - intros Hwf. rewrite (Ht Hwf) in *. destruct Hwf as [W1 W2 W3 W4 W5].
    split; simpl in *; try done; [naive_solver..|]. intros Ha. destruct (W5 Ha); naive_solver.
Qed.

Lemma rec_step_cancel r : rec_step r (set_cancelled r).
Proof.
  split; simpl; try done.
  - intros [Hp _ _ _ _]. apply rtc_once. unfold rec_op. by constructor.
  - intros []. by split.
Qed.

Lemma rec_step_terminal r t :
  rec_phase r = Running → rec_terminal r = None →
  rec_step r (set_phase Terminal (set_terminal t r)).
Proof.
  intros Hp Ht. split; simpl; try done.
  - intros _. unfold rec_op; simpl. rewrite Hp, Ht. apply rtc_once. constructor.
  - intros [W1 W2 W3 W4 W5]. split; simpl; try done; naive_solver.
Qed.

Lemma push_progress_length capacity progress q :
  (length progress ≤ capacity)%nat →
  (length (push_progress capacity progress q) ≤ capacity)%nat.
Proof.
  intros Hl. unfold push_progress. case_bool_decide; [done|].
  case_bool_decide as Hf; rewrite length_app; simpl; [|lia].
  destruct progress; simpl in *; lia.
Qed.

Lemma rec_step_progress r q :
  rec_step r (set_progress (push_progress (rec_progress_capacity r) (rec_progress r) q) r).
Proof.
  split; simpl; try done. intros [W1 W2 W3 W4 W5].
  split; simpl; try done. by apply push_progress_length.
Qed.

Lemma rec_step_start_attempt r q a next :
  rec_phase r = Running → q = rec_next_attempt_sequence r → next = q + 1 →
  a = attempt_identity_for (rec_identity r) q →
  rec_step r (set_attempts next (<[q := a]> (rec_attempts r)) r).
Proof.
  intros Hp -> -> Ha. split; simpl; try done. intros [W1 W2 W3 W4 W5].
  split; simpl; try done; [|by left].
  intros q' a' [[<- <-]|[Hne Hl]]%lookup_insert_Some; [split; [done|lia]|].
  destruct (W4 _ _ Hl). split; [done|lia].
Qed.

Lemma rec_step_drop_attempt r q :
  rec_step r (set_attempts (rec_next_attempt_sequence r) (delete q (rec_attempts r)) r).
Proof.
  split; simpl; try done. intros [W1 W2 W3 W4 W5]. split; simpl; try done.
  - intros q' a' [_ Hl]%lookup_delete_Some. by apply W4.
  - intros Hd. apply W5. intros He. by rewrite He, delete_empty in Hd.
Qed.

Lemma rec_step_trans r1 r2 r3 : rec_step r1 r2 → rec_step r2 r3 → rec_step r1 r3.
Proof.
  intros [A1 B1 C1 D1] [A2 B2 C2 D2]. split; [congruence..| |by auto].
  intros Hwf. etrans; [by apply C1|by apply C2, D1].
Qed.

(** ** The effect of a call

    Every method either rewrites records in place, or retires one record into
    its lease's slot, or admits a new one. *)

(** No record appears or disappears, and no released slot changes its value. *)
Record eff_records (w w' : Registry) : Prop := {
  er_next : next_sequence w' = next_sequence w;
  er_slots : slot_value <$> slots w' = slot_value <$> slots w;
  er_none k : operations w !! k = None → operations w' !! k = None;
  er_some k r : operations w !! k = Some r →
    ∃ r', operations w' !! k = Some r' ∧ rec_step r r';
}.

Record eff_release (l : OperationLease) (w w' : Registry) : Prop := {
  el_next : next_sequence w' = next_sequence w;
  el_record : ∃ r r',
    operations w !! operation_id (lease_identity l) = Some r ∧
    rec_identity r = lease_identity l ∧
    rec_identity r' = lease_identity l ∧
    rec_phase r' = Released ∧
    (record_wf r → is_Some (rec_terminal r') ∧ rtc op_step (rec_op r) (rec_op r')) ∧
    operations w' = delete (operation_id (lease_identity l)) (operations w) ∧
    slots w' = <[lease_released l :=
                  {| slot_poisoned := false; slot_value := Some (snapshot_of r') |}]> (slots w);
}.

Lemma eff_records_same w w' :
  next_sequence w' = next_sequence w → slots w' = slots w → operations w' = operations w →
  eff_records w w'.
Proof. intros H1 H2 H3. split; rewrite ?H1, ?H2, ?H3; eauto. Qed.

Lemma eff_records_insert w w' k r r' :
  next_sequence w' = next_sequence w → slots w' = slots w →
  operations w !! k = Some r → operations w' = <[k := r']> (operations w) → rec_step r r' →
  eff_records w w'.
Proof.
  intros H1 H2 Hk H3 Hr. split; rewrite ?H1, ?H2, ?H3; [done|done|..].
  - intros j Hj. rewrite lookup_insert_ne by congruence. done.
  - intros j q Hj. destruct (decide (k = j)) as [->|Hne].
    + rewrite lookup_insert_eq. simplify_eq. eauto.
    + rewrite lookup_insert_ne by done. eauto.
Qed.

Lemma record_mut_Ok w id r :
  record_mut w id = Ok r ↔ operations w !! operation_id id = Some r ∧ rec_identity r = id.
Proof.
  unfold record_mut. sm_unfold. destruct (operations w !! operation_id id) as [q|] eqn:E;
    simpl; [case_bool_decide|]; naive_solver.
Qed.

(** Unfold a method and walk through its guards; what is left of the hypotheses
    are the facts the guards establish. *)
Ltac run_method :=
  unfold exec; sm_unfold;
  repeat match goal with
  | |- context [lock ?w] => unfold lock
  | |- context [released_lock ?l ?w] => unfold released_lock
  | |- context [write_record] => unfold write_record; sm_unfold
  | |- context [remove_record] => unfold remove_record; sm_unfold
  | |- context [store_released] => unfold store_released; sm_unfold
  | |- context [match record_mut ?w ?id with _ => _ end] =>
      let E := fresh "Hrec" in destruct (record_mut w id) eqn:E;
      [apply record_mut_Ok in E as [? ?]|]; simpl in *
  | |- context [if ?b then _ else _] =>
      lazymatch b with
      | context [if _ then _ else _] => fail
      | _ => let E := fresh "Hb" in destruct b eqn:E; simpl in *
      end
  end; simpl in *.

#[local] Hint Resolve eff_records_same : core.

Lemma transition_effect l from to w :
  (from = Reserved ∧ to = Queued ∨ from = Queued ∧ to = Running) →
  eff_records w (exec (transition l from to) w).
Proof.
  intros Hft. unfold transition. run_method; auto. bool_prop. apply dec_stable in Hb0.
  eapply eff_records_insert; simpl; eauto. by apply rec_step_phase with from.
Qed.

Lemma terminal_effect l t w : eff_records w (exec (terminal l t) w).
Proof.
  unfold terminal. run_method; auto. bool_prop. apply dec_stable in H1.
  eapply eff_records_insert; simpl; eauto. apply rec_step_terminal; [done|].
  by apply eq_None_not_Some.
Qed.

Lemma request_cancel_effect l w : eff_records w (exec (request_cancel l) w).
Proof.
  unfold request_cancel, request_cancel_once. run_method; auto.
  eapply eff_records_insert; simpl; eauto using rec_step_cancel.
Qed.

Lemma publish_progress_effect l q w : eff_records w (exec (publish_progress l q) w).
Proof.
  unfold publish_progress. run_method; auto.
  eapply eff_records_insert; simpl; eauto using rec_step_progress.
Qed.

Lemma start_attempt_effect l w : eff_records w (exec (start_attempt l) w).
Proof.
  unfold start_attempt. run_method; auto. bool_prop. apply dec_stable in Hb0.
  destruct (checked_add _ _ _) as [next|] eqn:Hn; simpl; auto.
  apply checked_add_Some in Hn as [-> _].
  eapply eff_records_insert; simpl; eauto. apply rec_step_start_attempt; simpl; congruence.
Qed.

Lemma attempt_finish_effect a w : eff_records w (exec (attempt_finish a) w).
Proof.
  unfold attempt_finish. run_method; auto;
    eapply eff_records_insert; simpl; eauto using rec_step_drop_attempt.
Qed.

Lemma request_cancel_all_effect w : eff_records w (exec request_cancel_all w).
Proof.
  unfold request_cancel_all. run_method; auto. split; simpl; try done.
  - intros k Hk. by rewrite lookup_fmap, Hk.
  - intros k r Hk. rewrite lookup_fmap, Hk. simpl. eauto using rec_step_cancel.
Qed.

Lemma guard_drop_effect g w : eff_records w (guard_drop g w).
Proof.
  unfold guard_drop. destruct (cancel_on_drop g); [|auto].
  pose proof (request_cancel_effect (guard_lease g) w) as He. unfold exec in He.
  destruct (request_cancel _ w) as [[?|[]] w']; try done. by destruct He; split.
Qed.

Lemma poison_slot_effect l w : eff_records w (poison_slot l w).
Proof.
  split; simpl; try done; [|eauto]. apply list_eq. intros i.
  rewrite !list_lookup_fmap, list_lookup_alter. case_decide; [subst|done].
  by destruct (slots w !! i).
Qed.

(** Retiring a record: what [release], [finish_attempt_and_release_inner] and
    [finish_setup_and_release] do to it before it leaves the map. *)
Lemma retire_effect l w w' r r' :
  operations w !! operation_id (lease_identity l) = Some r →
  rec_identity r = lease_identity l → rec_identity r' = rec_identity r →
  rec_phase r' = Released →
  (record_wf r → is_Some (rec_terminal r') ∧ rtc op_step (rec_op r) (rec_op r')) →
  next_sequence w' = next_sequence w →
  operations w' = delete (operation_id (lease_identity l)) (operations w) →
  slots w' = <[lease_released l :=
               {| slot_poisoned := false; slot_value := Some (snapshot_of r') |}]> (slots w) →
  eff_release l w w'.
Proof. intros. split; [done|]. exists r, r'. split_and!; done || congruence. Qed.

Lemma rec_wf_running r : record_wf r → rec_phase r = Running → rec_terminal r = None.
Proof.
  intros [_ Ht _ _ _] Hp. apply eq_None_not_Some. by rewrite Ht, Hp.
Qed.

(** From any phase before Terminal an operation can end and be released at once. *)
Lemma steps_end_release p c t :
  (phase_rank p < phase_rank Terminal)%nat → (p ≠ Running → t ≠ Completed) →
  rtc op_step (mkOp p c None) (mkOp Released c (Some t)).
Proof.
  intros Hp Ht. eapply rtc_l; [|eapply rtc_once, op_release].
  destruct p; simpl in *; try lia; constructor; simpl; try lia; by apply Ht.
Qed.

(** Retire the record found by [record_mut]; what it becomes is read off the
    snapshot that was stored. *)
Ltac retire H H0 :=
  right; eapply retire_effect;
  [exact H|exact H0| | | |reflexivity|reflexivity|reflexivity]; simpl; [done|done|].

Lemma release_effect l w :
  eff_records w (exec (release l) w) ∨ eff_release l w (exec (release l) w).
Proof.
  unfold release. run_method; auto. bool_prop. apply dec_stable in H1. retire H H0.
  intros [_ Ht _ _ _]. apply Ht in H1 as Hs. split; [done|].
  unfold rec_op; simpl. rewrite H1. destruct Hs as [t ->]. apply rtc_once, op_release.
Qed.

(** The guards of [finish_attempt_and_release_inner]. *)
Lemma finish_guards r key a :
  bool_decide (rec_phase r ≠ Running) || bool_decide (is_Some (rec_terminal r))
    || bool_decide (size (rec_attempts r) ≠ 1%nat)
    || bool_decide (rec_attempts r !! key ≠ Some a) = false →
  rec_phase r = Running ∧ rec_terminal r = None ∧ rec_attempts r = {[key := a]}.
Proof.
  intros Hb. bool_prop. repeat match goal with H : ¬ _ ≠ _ |- _ => apply dec_stable in H end.
  split_and!; [done|by apply eq_None_not_Some|by apply map_size_one].
Qed.

Lemma finish_attempt_effect l a t wins rel w :
  let w' := exec (finish_attempt_and_release_inner l a t wins rel) w in
  eff_records w w' ∨ eff_release l w w'.
Proof.
  unfold finish_attempt_and_release_inner. run_method; auto;
    apply finish_guards in Hb2 as (Hp & Ht & _).
  1-2: retire H H0; intros _; split; [by eexists|]; unfold rec_op; simpl; rewrite Hp, Ht;
    apply steps_end_release; simpl; [lia|done].
  all: left; eapply eff_records_insert; simpl; eauto;
    eapply rec_step_trans; [apply rec_step_drop_attempt|by apply rec_step_terminal].
Qed.

Lemma finish_setup_effect l t w :
  t ≠ Completed →
  let w' := exec (finish_setup_and_release l t) w in
  eff_records w w' ∨ eff_release l w w'.
Proof.
  intros Hc. unfold finish_setup_and_release. run_method; auto. bool_prop.
  retire H H0. intros [Hr Ht _ _ _]. split; [by eexists|]. unfold rec_op; simpl.
  apply eq_None_not_Some in H1 as Hn. rewrite Hn. apply steps_end_release; [|done].
  rewrite Hn in Ht. destruct (rec_phase _); simpl; try lia; [|done].
  destruct (proj2 Ht); [done|]. congruence.
Qed.

(** ** The registry invariant *)

(** Where the operation behind a lease is: in the map, or in its slot. *)
Definition slot_op (w : Registry) (n : loc) : option Op :=
  snap_op <$> slot_value (slots w !!! n).

Definition view (s : Sys) (n : nat) : option Op :=
  l ← issued s !! n;
  match operations (reg s) !! operation_id (lease_identity l) with
  | Some r => if bool_decide (rec_identity r = lease_identity l)
              then Some (rec_op r) else slot_op (reg s) n
  | None => slot_op (reg s) n
  end.

Definition is_live (w : Registry) (n : nat) (l : OperationLease) : Prop :=
  ∃ r, operations w !! operation_id (lease_identity l) = Some r ∧
       rec_identity r = lease_identity l ∧ rec_released r = n.

Definition is_retired (w : Registry) (n : nat) (l : OperationLease) : Prop :=
  ∃ snap, slot_value (slots w !!! n) = Some snap ∧ snap_identity snap = lease_identity l ∧
    snap_phase snap = Released ∧ is_Some (snap_terminal snap).

Record Inv (s : Sys) : Prop := {
  inv_len : length (slots (reg s)) = length (issued s);
  inv_issued n l : issued s !! n = Some l →
    lease_released l = n ∧ sequence (lease_identity l) < next_sequence (reg s) ∧
    attempt_id (lease_identity l) = operation_attempt_id (sequence (lease_identity l));
  inv_unique n m l l' : issued s !! n = Some l → issued s !! m = Some l' →
    sequence (lease_identity l) = sequence (lease_identity l') → n = m;
  inv_record k r : operations (reg s) !! k = Some r →
    operation_id (rec_identity r) = k ∧ record_wf r ∧
    (∃ l, issued s !! rec_released r = Some l ∧ lease_identity l = rec_identity r) ∧
    slot_value (slots (reg s) !!! rec_released r) = None;
  inv_place n l : issued s !! n = Some l → is_live (reg s) n l ∨ is_retired (reg s) n l;
}.

Lemma slot_value_lookup (w w' : Registry) n :
  slot_value <$> slots w' = slot_value <$> slots w →
  slot_value (slots w' !!! n) = slot_value (slots w !!! n).
Proof.
  intros Heq. assert (Hn : (slot_value <$> slots w') !! n = (slot_value <$> slots w) !! n)
    by by rewrite Heq.
  rewrite !list_lookup_fmap in Hn. rewrite !list_lookup_total_alt.
  destruct (slots w' !! n), (slots w !! n); naive_solver.
Qed.

Lemma eff_records_inv s w :
  Inv s → eff_records (reg s) w → Inv {| reg := w; issued := issued s |}.
Proof.
  intros [Hlen Hiss Huni Hrec Hpl] [Hn Hsl Hnone Hsome]. split; simpl.
  - rewrite <- Hlen. apply (f_equal length) in Hsl. by rewrite !length_fmap in Hsl.
  - rewrite Hn. done.
  - done.
  - intros k r' Hk'. destruct (operations (reg s) !! k) as [r|] eqn:Hk;
      [|by rewrite (Hnone _ Hk) in Hk'].
    destruct (Hsome _ _ Hk) as (r1 & H1 & [Hid Hrel _ Hwf]). simplify_eq.
    destruct (Hrec _ _ Hk) as (H2 & H3 & H4 & H5).
    rewrite Hid, Hrel, (slot_value_lookup _ _ _ Hsl). split_and!; auto.
  - intros n l Hl. destruct (Hpl _ _ Hl) as [(r & H1 & H2 & H3)|(snap & H1 & H2)].
    + left. destruct (Hsome _ _ H1) as (r' & H4 & [Hid Hrel _ _]).
      exists r'. split_and!; congruence.
    + right. exists snap. by rewrite (slot_value_lookup _ _ _ Hsl).
Qed.

Lemma eff_records_view s w n o :
  Inv s → eff_records (reg s) w → view s n = Some o →
  ∃ o', view {| reg := w; issued := issued s |} n = Some o' ∧ rtc op_step o o'.
Proof.
  intros HI [Hn Hsl Hnone Hsome]. unfold view; simpl.
  destruct (issued s !! n) as [l|]; simpl; [|done].
  assert (Hs : slot_op w n = slot_op (reg s) n)
    by (unfold slot_op; by rewrite (slot_value_lookup _ _ _ Hsl)).
  destruct (operations (reg s) !! _) as [r|] eqn:Hk; simpl.
  - destruct (Hsome _ _ Hk) as (r' & -> & [Hid _ Hop _]). rewrite Hid, Hs.
    case_bool_decide; intros Ho; simplify_eq/=; [|by exists o].
    exists (rec_op r'). split; [done|]. apply Hop. apply (inv_record _ HI _ _ Hk).
  - rewrite (Hnone _ Hk), Hs. by exists o.
Qed.

(** Which lease the identity of a record belongs to. *)
Lemma live_index s n l k r :
  Inv s → issued s !! n = Some l → operations (reg s) !! k = Some r →
  rec_identity r = lease_identity l → rec_released r = n.
Proof.
  intros HI Hl Hk Hid. destruct (inv_record _ HI _ _ Hk) as (_ & _ & (l' & Hl' & Hid') & _).
  eapply (inv_unique _ HI); [exact Hl'|exact Hl|congruence].
Qed.

Lemma eff_release_inv s n l w :
  Inv s → issued s !! n = Some l → eff_release l (reg s) w →
  Inv {| reg := w; issued := issued s |}.
Proof.
  intros HI Hl [Hn (r & r' & Hk & Hid & Hid' & Hp & Hop & Ho & Hsl)].
  pose proof (live_index _ _ _ _ _ HI Hl Hk Hid) as Hrel.
  rewrite (proj1 (inv_issued _ HI _ _ Hl)) in Hsl.
  destruct (inv_record _ HI _ _ Hk) as (_ & Hwf & _).
  assert (Hlt : (n < length (slots (reg s)))%nat)
    by (rewrite (inv_len _ HI); by eapply lookup_lt_Some).
  split; simpl.
  - rewrite Hsl, length_insert. apply HI.
  - rewrite Hn. apply HI.
  - apply HI.
  - intros k r1 H1. rewrite Ho in H1. apply lookup_delete_Some in H1 as [Hne H1].
    destruct (inv_record _ HI _ _ H1) as (A1 & A2 & (l1 & A3 & A4) & A5).
    split_and!; [done|done|by exists l1|].
    rewrite Hsl, list_lookup_total_insert_ne; [done|]. intros Heq.
    apply Hne. rewrite <- A1, <- A4. congruence.
  - intros m l1 H1. destruct (decide (m = n)) as [->|Hmn].
    + right. simplify_eq. exists (snapshot_of r'). rewrite Hsl, list_lookup_total_insert_eq by lia.
      split_and!; [done..|]. by apply Hop.
    + destruct (inv_place _ HI _ _ H1) as [(r1 & H2 & H3 & H4)|(snap & H2)].
      * left. exists r1. split_and!; [|done|done]. rewrite Ho, lookup_delete_ne; [done|].
        intros Heq. rewrite <- Heq in H2. congruence.
      * right. exists snap. rewrite Hsl, list_lookup_total_insert_ne by congruence. done.
Qed.

Lemma eff_release_view s n l w m o :
  Inv s → issued s !! n = Some l → eff_release l (reg s) w → view s m = Some o →
  ∃ o', view {| reg := w; issued := issued s |} m = Some o' ∧ rtc op_step o o'.
Proof.
  intros HI Hl [Hn (r & r' & Hk & Hid & Hid' & Hp & Hop & Ho & Hsl)].
  pose proof (live_index _ _ _ _ _ HI Hl Hk Hid) as Hrel.
  rewrite (proj1 (inv_issued _ HI _ _ Hl)) in Hsl.
  destruct (inv_record _ HI _ _ Hk) as (_ & Hwf & _).
  assert (Hlt : (n < length (slots (reg s)))%nat)
    by (rewrite (inv_len _ HI); by eapply lookup_lt_Some).
  unfold view; simpl. destruct (issued s !! m) as [l1|] eqn:H1; simpl; [|done].
  destruct (decide (m = n)) as [->|Hmn].
  - simplify_eq. rewrite Hk, bool_decide_eq_true_2 by done. intros [= <-].
    rewrite Ho, lookup_delete_eq. unfold slot_op. rewrite Hsl, list_lookup_total_insert_eq by lia.
    eexists. split; [done|]. by apply Hop.
  - assert (Hs : slot_op w m = slot_op (reg s) m)
      by (unfold slot_op; by rewrite Hsl, list_lookup_total_insert_ne by congruence).
    rewrite Ho, Hs, lookup_delete. case_decide as Hd; [|by exists o].
    rewrite <- Hd, Hk. rewrite bool_decide_eq_false_2; [by exists o|].
    rewrite Hid. intros Heq. apply Hmn. eapply (inv_unique _ HI); eauto. congruence.
Qed.

(** ** Reservation *)

Definition reserved_identity (id : string) (w : Registry) : OperationIdentity :=
  {| operation_id := id; attempt_id := operation_attempt_id (next_sequence w);
     sequence := next_sequence w |}.
Definition reserved_lease (id : string) (w : Registry) : OperationLease :=
  {| lease_identity := reserved_identity id w; lease_released := length (slots w) |}.
Definition reserved_record (id : string) (capacity : nat) (w : Registry) : OperationRecord :=
  {| rec_identity := reserved_identity id w; rec_phase := Reserved;
     rec_cancellation_requested := false; rec_terminal := None; rec_progress := [];
     rec_progress_capacity := capacity; rec_next_attempt_sequence := 1;
     rec_attempts := ∅; rec_released := length (slots w) |}.

Lemma reserve_cases id capacity w :
  reserve_with_capacity id capacity w =
    if poisoned w then (Err StateUnavailable, set_faulted w)
    else if bool_decide (is_Some (operations w !! id)) then (Err Duplicate, w)
    else if u64_max <? next_sequence w + 1 then (Err Exhausted, w)
    else (Ok ({| guard_lease := reserved_lease id w; cancel_on_drop := true |},
              reserved_lease id w),
          set_operations (<[id := reserved_record id capacity w]> (operations w))
            (set_slots (slots w ++ [{| slot_poisoned := false; slot_value := None |}])
              (set_next_sequence (next_sequence w + 1) w))).
Proof.
  unfold reserve_with_capacity. sm_unfold. unfold lock.
  destruct (poisoned w); [done|]; simpl.
  case_bool_decide; simpl; [done|]. unfold checked_add.
  destruct (u64_max <? next_sequence w + 1) eqn:E; bool_prop.
  - by rewrite (proj2 (Z.leb_gt _ _) E).
  - by rewrite (proj2 (Z.leb_le _ _) E).
Qed.

Lemma reserved_record_wf id capacity w : record_wf (reserved_record id capacity w).
Proof.
  split; simpl; try done; lia.
Qed.

Lemma inv_slots_lt s n l : Inv s → issued s !! n = Some l → (n < length (slots (reg s)))%nat.
Proof. intros HI Hl. rewrite (inv_len _ HI). by eapply lookup_lt_Some. Qed.

Section Admit.
Variables (s : Sys) (id : string) (capacity : nat).
Hypothesis HI : Inv s.
Hypothesis Hfree : operations (reg s) !! id = None.

#[local] Notation w := (reg s).
Let s' := {|
  reg := set_operations (<[id := reserved_record id capacity w]> (operations w))
           (set_slots (slots w ++ [{| slot_poisoned := false; slot_value := None |}])
             (set_next_sequence (next_sequence w + 1) w));
  issued := issued s ++ [reserved_lease id w] |}.

Lemma admit_slot n l : issued s !! n = Some l → slots (reg s') !!! n = slots w !!! n.
Proof.
  intros Hl. simpl. rewrite lookup_total_app_l; [done|]. by eapply inv_slots_lt.
Qed.

Lemma admit_issued n l : issued s' !! n = Some l →
  issued s !! n = Some l ∨ n = length (issued s) ∧ l = reserved_lease id w.
Proof. simpl. intros [?|[? ?]]%lookup_snoc_Some; naive_solver. Qed.

Lemma admit_live n l : issued s !! n = Some l → is_live w n l → is_live (reg s') n l.
Proof.
  intros Hl (r & Hk & Hid & Hrel). exists r. split_and!; [|done..]. simpl.
  rewrite lookup_insert_ne; [done|]. intros ->. congruence.
Qed.

Lemma admit_inv : Inv s'.
Proof.
  assert (Hnew : forall n l, issued s !! n = Some l →
    sequence (lease_identity l) < next_sequence w) by (intros n l Hl; apply (inv_issued _ HI _ _ Hl)).
  split.
  - simpl. rewrite !length_app, (inv_len _ HI). done.
  - intros n l [Hl|[-> ->]]%admit_issued; simpl.
    + destruct (inv_issued _ HI _ _ Hl) as (? & ? & ?). split_and!; [done|lia|done].
    + rewrite <- (inv_len _ HI). split_and!; [done|lia|done].
  - intros n m l l' [Hl|[-> ->]]%admit_issued [Hl'|[-> ->]]%admit_issued Hs; [|..|done].
    + by eapply (inv_unique _ HI).
    + specialize (Hnew _ _ Hl). simpl in Hs. lia.
    + specialize (Hnew _ _ Hl'). simpl in Hs. lia.
  - intros k r Hk. simpl in Hk. apply lookup_insert_Some in Hk as [[<- <-]|[Hne Hk]].
    + split_and!; [done|apply reserved_record_wf| |].
      * exists (reserved_lease id w). split; [|done]. simpl.
        rewrite (inv_len _ HI). by apply list_lookup_middle.
      * simpl. by rewrite list_lookup_total_middle.
    + destruct (inv_record _ HI _ _ Hk) as (A1 & A2 & (l1 & A3 & A4) & A5).
      split_and!; [done|done| |].
      * exists l1. split; [|done]. simpl. by apply lookup_app_l_Some.
      * by rewrite (admit_slot _ _ A3).
  - intros n l [Hl|[-> ->]]%admit_issued.
    + destruct (inv_place _ HI _ _ Hl) as [Hlv|(snap & Hs)]; [left; by apply admit_live|].
      right. exists snap. by rewrite (admit_slot _ _ Hl).
    + left. exists (reserved_record id capacity w). simpl. rewrite lookup_insert_eq.
      split_and!; [done|done|apply (inv_len _ HI)].
Qed.

Lemma admit_view n :
  view s' n = if decide (n = length (issued s)) then Some op_initial else view s n.
Proof.
  case_decide as Hn; unfold view.
  - subst n. simpl. rewrite list_lookup_middle by done; simpl.
    by rewrite lookup_insert_eq, bool_decide_eq_true_2.
  - simpl. destruct (issued s !! n) as [l|] eqn:Hl; simpl.
    + rewrite lookup_app_l by (by eapply lookup_lt_Some). rewrite Hl; simpl.
      assert (Hso : slot_op (reg s') n = slot_op w n)
        by (unfold slot_op; by rewrite (admit_slot _ _ Hl)).
      simpl in Hso. rewrite Hso. rewrite lookup_insert. case_decide as Hid; [|done].
      rewrite <- Hid, Hfree. rewrite bool_decide_eq_false_2; [done|].
      simpl. intros Heq. apply (f_equal sequence) in Heq. simpl in Heq.
      destruct (inv_issued _ HI _ _ Hl) as (_ & Hlt & _). lia.
    + rewrite lookup_ge_None_2; [done|]. apply lookup_ge_None in Hl.
      rewrite length_app; simpl. lia.
Qed.

End Admit.

(** ** Every call preserves the invariant and moves operations along the
    lifecycle *)

Inductive effect (s : Sys) : Sys → Prop :=
| effect_records w : eff_records (reg s) w → effect s {| reg := w; issued := issued s |}
| effect_release n l w : issued s !! n = Some l → eff_release l (reg s) w →
    effect s {| reg := w; issued := issued s |}
| effect_admit id capacity s' : operations (reg s) !! id = None →
    s' = {| reg := set_operations
              (<[id := reserved_record id capacity (reg s)]> (operations (reg s)))
              (set_slots (slots (reg s) ++ [{| slot_poisoned := false; slot_value := None |}])
                (set_next_sequence (next_sequence (reg s) + 1) (reg s)));
            issued := issued s ++ [reserved_lease id (reg s)] |} → effect s s'.

Lemma effect_id s : effect s s.
Proof. destruct s as [w ls]. by apply (effect_records {| reg := w; issued := ls |}), eff_records_same. Qed.

Lemma with_lease_effect n f s :
  (∀ l, issued s !! n = Some l → eff_records (reg s) (f l (reg s)) ∨
                                 eff_release l (reg s) (f l (reg s))) →
  effect s (with_lease n f s).
Proof.
  intros Hf. unfold with_lease. destruct (issued s !! n) as [l|] eqn:Hl; [|apply effect_id].
  destruct (Hf l eq_refl); [by apply effect_records|by eapply effect_release].
Qed.

Lemma reserve_effect id capacity s : effect s (run_call (CReserve id capacity) s).
Proof.
  simpl. rewrite reserve_cases. destruct (poisoned (reg s)).
  { by apply effect_records, eff_records_same. }
  case_bool_decide as Hd; [by apply effect_records, eff_records_same|].
  destruct (u64_max <? _); [by apply effect_records, eff_records_same|].
  apply eq_None_not_Some in Hd. by eapply effect_admit.
Qed.

Lemma run_call_effect c s : call_ok c → effect s (run_call c s).
Proof.
  destruct c; simpl; intros Hok; try (apply with_lease_effect; intros l Hl).
  - apply reserve_effect.
  - left. apply transition_effect. by left.
  - left. apply transition_effect. by right.
  - left. apply terminal_effect.
  - apply release_effect.
  - apply finish_attempt_effect.
  - by apply finish_setup_effect.
  - left. apply request_cancel_effect.
  - apply effect_records, request_cancel_all_effect.
  - left. apply publish_progress_effect.
  - left. apply start_attempt_effect.
  - apply effect_records, attempt_finish_effect.
  - left. apply guard_drop_effect.
  - by apply effect_records, eff_records_same.
  - apply effect_records, poison_slot_effect.
Qed.

Lemma effect_inv s s' : Inv s → effect s s' → Inv s'.
Proof.
  intros HI [w He|n l w Hl He|id capacity s'' Hn ->].
  - by apply eff_records_inv.
  - by eapply eff_release_inv.
  - by apply admit_inv.
Qed.

Lemma view_is_Some s n : Inv s → is_Some (view s n) ↔ is_Some (issued s !! n).
Proof.
  intros HI. unfold view. destruct (issued s !! n) as [l|] eqn:Hl; simpl; [|done].
  split; [by eexists|]. intros _.
  destruct (inv_place _ HI _ _ Hl) as [(r & -> & Hid & _)|(snap & Hs & _)].
  - rewrite bool_decide_eq_true_2 by done. by eexists.
  - unfold slot_op. rewrite Hs. destruct (operations _ !! _); [case_bool_decide|]; by eexists.
Qed.

Lemma effect_view s s' n o :
  Inv s → effect s s' → view s n = Some o → ∃ o', view s' n = Some o' ∧ rtc op_step o o'.
Proof.
  intros HI [w He|m l w Hl He|id capacity s'' Hn ->] Hv.
  - by eapply eff_records_view.
  - by eapply eff_release_view.
  - rewrite admit_view by done. case_decide; [|by exists o]. subst n.
    assert (is_Some (view s (length (issued s)))) as Hs by by eexists.
    apply (view_is_Some _ _ HI), lookup_lt_is_Some in Hs. lia.
Qed.

Lemma effect_fresh s s' n o :
  Inv s → effect s s' → view s n = None → view s' n = Some o → o = op_initial.
Proof.
  intros HI He Hn Hv. pose proof (effect_inv _ _ HI He) as HI'.
  assert (¬ is_Some (issued s !! n)) as Hi.
  { intros Hi. apply (view_is_Some _ _ HI) in Hi as [? ?]. congruence. }
  destruct He as [w He|m l w Hl He|id capacity s'' Hf ->].
  1-2: exfalso; apply Hi; apply (view_is_Some _ _ HI'); by eexists.
  rewrite admit_view in Hv by done. case_decide; congruence.
Qed.

Lemma initial_inv next capacity : Inv (initial next capacity).
Proof. split; simpl; done. Qed.

#[export] Instance speech_owner : OperationOwner Sys nat.
Proof.
  refine {| owner_inv := Inv; owner_step := call_step; owner_view := view |}.
  - intros s s' HI (c & Hok & ->). eapply effect_inv; [done|by apply run_call_effect].
  - intros s s' n o HI (c & Hok & ->). eapply effect_view; [done|by apply run_call_effect].
  - intros s s' n o HI (c & Hok & ->). eapply effect_fresh; [done|by apply run_call_effect].
Defined.

(** The theorems of [OperationSpec], for this registry. *)
Lemma run_inv s s' : Inv s → rtc call_step s s' → Inv s'.
Proof. exact (owner_run_inv (Ident := nat) s s'). Qed.
Lemma run_view s s' n o : Inv s → rtc call_step s s' → view s n = Some o →
  ∃ o', view s' n = Some o' ∧ rtc op_step o o'.
Proof. exact (owner_run_view s s' n o). Qed.
Lemma run_fresh s s' n o : Inv s → rtc call_step s s' → view s n = None →
  view s' n = Some o → rtc op_step op_initial o.
Proof. exact (owner_run_fresh s s' n o). Qed.

Lemma reachable_inv next capacity s : rtc call_step (initial next capacity) s → Inv s.
Proof. apply run_inv, initial_inv. Qed.

(** Leases are handed out once and never change hands. *)
Lemma call_step_issued s s' : call_step s s' → issued s `prefix_of` issued s'.
Proof.
  intros (c & _ & ->). destruct c; simpl; unfold with_lease;
    try (destruct (issued s !! n); done); try done.
  rewrite reserve_cases. repeat case_match; simplify_eq/=; try done. by apply prefix_app_r.
Qed.

Lemma run_issued s s' n l :
  rtc call_step s s' → issued s !! n = Some l → issued s' !! n = Some l.
Proof.
  intros Hrun Hl. assert (issued s `prefix_of` issued s') as Hp.
  { clear Hl. induction Hrun; [done|]. etrans; [by apply call_step_issued|done]. }
  by eapply prefix_lookup_Some.
Qed.

(** What [OperationLease::snapshot] shows is the operation behind the lease. *)
Lemma lease_snapshot_view s n l snap :
  Inv s → issued s !! n = Some l →
  fst (lease_snapshot l (reg s)) = Ok (Some snap) →
  view s n = Some (snap_op snap) ∧ snap_identity snap = lease_identity l.
Proof.
  intros HI Hl. unfold lease_snapshot, view. rewrite Hl. run_method; [done|].
  destruct (inv_issued _ HI _ _ Hl) as (Hrel & _).
  destruct (operations (reg s) !! operation_id (lease_identity l)) as [r|] eqn:Hk; simpl.
  - case_bool_decide; simpl; intros; simplify_eq. done.
  - run_method; [done|]. intros Hv. simplify_eq. unfold slot_op. rewrite Hv. split; [done|].
    destruct (inv_place _ HI _ _ Hl) as [(r & ? & _)|(snap' & ? & ? & _)]; congruence.
Qed.

(** C21: two snapshots of one lease, taken at any two moments of any run of
    calls by any clients (panics inside critical sections included), show the
    same identity, and the later operation is reached from the earlier one, and
    the earlier one from a fresh reservation, by steps of the lifecycle: phases
    only advance, a cancellation is never withdrawn, and a terminal result, once
    recorded, is the result forever. *)
Theorem speech_snapshots_follow_lifecycle next capacity s s' n l snap snap' :
  rtc call_step (initial next capacity) s → rtc call_step s s' →
  issued s !! n = Some l →
  fst (lease_snapshot l (reg s)) = Ok (Some snap) →
  fst (lease_snapshot l (reg s')) = Ok (Some snap') →
  snap_identity snap' = snap_identity snap ∧
  rtc op_step op_initial (snap_op snap) ∧
  rtc op_step (snap_op snap) (snap_op snap') ∧
  op_le (snap_op snap) (snap_op snap').
Proof.
  intros Hr1 Hr2 Hl Hs Hs'.
  pose proof (initial_inv next capacity) as H0.
  pose proof (reachable_inv _ _ _ Hr1) as HI.
  pose proof (run_inv _ _ HI Hr2) as HI'.
  pose proof (run_issued _ _ _ _ Hr2 Hl) as Hl'.
  destruct (lease_snapshot_view _ _ _ _ HI Hl Hs) as [Hv Hid].
  destruct (lease_snapshot_view _ _ _ _ HI' Hl' Hs') as [Hv' Hid'].
  destruct (run_view s s' n _ HI Hr2 Hv) as (o & Ho & Hsteps).
  rewrite Hv' in Ho. simplify_eq. split_and!; [congruence| |done|by apply op_steps_le].
  by eapply (run_fresh (initial next capacity) s n).
Qed.

(** Runs of concrete calls, for the examples. *)
Definition run_calls (cs : list Call) (s : Sys) : Sys := foldl (λ s c, run_call c s) s cs.

Lemma run_calls_rtc cs s : Forall call_ok cs → rtc call_step s (run_calls cs s).
Proof.
  intros Hcs. revert s. induction Hcs as [|c cs Hc _ IH]; intros s; [done|].
  eapply rtc_l; [by exists c|apply IH].
Qed.

Definition demo_running : Sys :=
  run_calls [CReserve "a" 4%nat; CQueue 0; CStart 0; CProgress 0 7; CCancel 0] (initial 1 32).
Definition demo_released : Sys := run_calls [CTerminal 0 Completed; CRelease 0] demo_running.
Definition demo_reused : Sys := run_calls [CReserve "a" 4%nat; CQueue 1] demo_released.

Definition demo_identity : OperationIdentity :=
  {| operation_id := "a"; attempt_id := "speech-operation-1"; sequence := 1 |}.
Definition demo_lease : OperationLease :=
  {| lease_identity := demo_identity; lease_released := 0%nat |}.
Definition demo_snapshot (p : OperationPhase) (t : option TerminalClass) : OperationSnapshot :=
  {| snap_identity := demo_identity; snap_phase := p; snap_cancellation_requested := true;
     snap_terminal := t; snap_progress := [7] |}.

Lemma demo_running_reachable : rtc call_step (initial 1 32) demo_running.
Proof. apply run_calls_rtc. by repeat constructor. Qed.
Lemma demo_released_reachable : rtc call_step demo_running demo_released.
Proof. apply run_calls_rtc. by repeat constructor. Qed.
Lemma demo_released_from_start : rtc call_step (initial 1 32) demo_released.
Proof. etrans; [exact demo_running_reachable|exact demo_released_reachable]. Qed.
Lemma demo_reused_reachable : rtc call_step demo_released demo_reused.
Proof. apply run_calls_rtc. by repeat constructor. Qed.

Lemma speech_snapshots_follow_lifecycle_witness :
  op_le (snap_op (demo_snapshot Running None)) (snap_op (demo_snapshot Released (Some Completed))).
Proof.
  eapply (speech_snapshots_follow_lifecycle 1 32 demo_running demo_released 0 demo_lease).
  - exact demo_running_reachable.
  - exact demo_released_reachable.
  - vm_compute. reflexivity.
  - vm_compute. reflexivity.
  - vm_compute. reflexivity.
Defined.

(** ** Released leases are inert *)

Lemma released_record_mut s n l o :
  Inv s → issued s !! n = Some l → view s n = Some o → op_phase o = Released →
  record_mut (reg s) (lease_identity l) = Err Stale.
Proof.
  intros HI Hl Hv Ho. destruct (record_mut _ _) as [r|e] eqn:E.
  - apply record_mut_Ok in E as [Hk Hid]. unfold view in Hv. rewrite Hl in Hv; simpl in Hv.
    rewrite Hk, bool_decide_eq_true_2 in Hv by done. simplify_eq/=.
    destruct (inv_record _ HI _ _ Hk) as (_ & [Hp _ _ _ _] & _). done.
  - unfold record_mut in E. sm_unfold. repeat case_match; simplify_eq/=; done.
Qed.

(** once a snapshot of a lease has shown Released, then at every later
    moment, and in particular after its operation id has been reserved again,
    each method called through that lease (and an attempt lease of it) is
    refused as stale and changes nothing. *)
Theorem speech_released_lease_is_inert next capacity s0 s n l snap t a wins rel q :
  rtc call_step (initial next capacity) s0 → rtc call_step s0 s →
  issued s0 !! n = Some l →
  fst (lease_snapshot l (reg s0)) = Ok (Some snap) → snap_phase snap = Released →
  poisoned (reg s) = false → slot_poisoned (slots (reg s) !!! lease_released l) = false →
  attempt_operation a = lease_identity l →
  let w := reg s in
  queue l w = (Err Stale, w) ∧ start l w = (Err Stale, w) ∧
  terminal l t w = (Err Stale, w) ∧ release l w = (Err Stale, w) ∧
  finish_attempt_and_release_inner l a t wins rel w = (Err Stale, w) ∧
  finish_setup_and_release l t w = (Err Stale, w) ∧
  request_cancel l w = (Err Stale, w) ∧ publish_progress l q w = (Err Stale, w) ∧
  start_attempt l w = (Err Stale, w) ∧ active_attempts l w = (Err Stale, w) ∧
  attempt_cancellation_requested a w = (Err Stale, w) ∧ attempt_finish a w = (Err Stale, w) ∧
  is_active l w = (Ok false, w).
Proof.
  intros Hr1 Hr2 Hl Hs Hp Hw Hsl Ha. cbv zeta.
  pose proof (reachable_inv _ _ _ Hr1) as HI. pose proof (run_inv _ _ HI Hr2) as HI'.
  destruct (lease_snapshot_view _ _ _ _ HI Hl Hs) as [Hv _].
  destruct (run_view _ _ _ _ HI Hr2 Hv) as (o & Ho & Hle%op_steps_le).
  pose proof (run_issued _ _ _ _ Hr2 Hl) as Hl'.
  assert (Hph : op_phase o = Released) by (by rewrite (op_le_released _ _ Hle)).
  pose proof (released_record_mut _ _ _ _ HI' Hl' Ho Hph) as Hrm.
  unfold queue, start, transition, terminal, release, finish_attempt_and_release_inner,
    finish_setup_and_release, request_cancel, request_cancel_once, publish_progress,
    start_attempt, active_attempts, attempt_cancellation_requested, attempt_finish, is_active,
    current.
  sm_unfold. unfold lock, released_lock. rewrite Ha, bool_decide_eq_false_2 by naive_solver.
  split_and!; simpl; repeat (first [rewrite Hw|rewrite Hsl|rewrite Hrm]; simpl); try done.
  destruct (operations (reg s) !! _) as [r|] eqn:Hk; simpl; [|done].
  rewrite bool_decide_eq_false_2; [done|]. intros Hid.
  assert (record_mut (reg s) (lease_identity l) = Ok r) as Hok by by apply record_mut_Ok.
  congruence.
Qed.

Lemma speech_released_lease_is_inert_witness :
  issued demo_reused !! 1%nat ≠ None ∧
  request_cancel demo_lease (reg demo_reused) = (Err Stale, reg demo_reused).
Proof.
  split; [vm_compute; discriminate|].
  destruct (speech_released_lease_is_inert 1 32 demo_released demo_reused 0 demo_lease
              (demo_snapshot Released (Some Completed)) Failed
              {| attempt_operation := demo_identity; attempt_identity := demo_identity |}
              true true 0)
    as (_ & _ & _ & _ & _ & _ & H & _).
  - exact demo_released_from_start.
  - exact demo_reused_reachable.
  - vm_compute. reflexivity.
  - vm_compute. reflexivity.
  - reflexivity.
  - vm_compute. reflexivity.
  - vm_compute. reflexivity.
  - reflexivity.
  - exact H.
Defined.

(** ** Reservations are fresh *)

Lemma operation_attempt_id_inj p q : operation_attempt_id p = operation_attempt_id q → p = q.
Proof. unfold operation_attempt_id. intros H. by apply (inj (String.app _)), (inj pretty) in H. Qed.

(** a successful reservation claims a free operation id under an identity
    no earlier reservation ever had (neither its sequence nor its attempt id,
    even for a reused operation id), shows a Reserved operation and touches no
    other; a refused one changes nothing but the fault flag, and says why. *)
Theorem speech_reserve_fresh next capacity s id cap :
  rtc call_step (initial next capacity) s →
  let w := reg s in
  match reserve_with_capacity id cap w with
  | (Ok (guard, lease), w') =>
      guard_lease guard = lease ∧ cancel_on_drop guard = true ∧
      operation_id (lease_identity lease) = id ∧ operations w !! id = None ∧
      (∀ n l, issued s !! n = Some l →
        sequence (lease_identity l) ≠ sequence (lease_identity lease) ∧
        attempt_id (lease_identity l) ≠ attempt_id (lease_identity lease)) ∧
      fst (lease_snapshot lease w') = Ok (Some
        {| snap_identity := lease_identity lease; snap_phase := Reserved;
           snap_cancellation_requested := false; snap_terminal := None;
           snap_progress := [] |}) ∧
      (∀ k, k ≠ id → operations w' !! k = operations w !! k)
  | (Err e, w') =>
      (e = StateUnavailable ∧ poisoned w = true ∧ w' = set_faulted w) ∨
      (e = Duplicate ∧ is_Some (operations w !! id) ∧ w' = w) ∨
      (e = Exhausted ∧ next_sequence w = u64_max ∧ w' = w) ∨
      (e = Exhausted ∧ u64_max < next_sequence w ∧ w' = w)
  end.
Proof.
  intros Hr. pose proof (reachable_inv _ _ _ Hr) as HI. cbv zeta. rewrite reserve_cases.
  destruct (poisoned (reg s)) eqn:Hp; [by left|].
  case_bool_decide as Hd; [by right; left|].
  destruct (u64_max <? _) eqn:E; bool_prop.
  { right; right. destruct (decide (next_sequence (reg s) = u64_max)); [by left|right].
    split_and!; [done|lia|done]. }
  split_and!; try done; [by apply eq_None_not_Some| | |].
  - intros n l Hl. destruct (inv_issued _ HI _ _ Hl) as (_ & Hlt & Hat). simpl. rewrite Hat.
    split; [lia|]. intros Heq%operation_attempt_id_inj. lia.
  - unfold lease_snapshot, lock. sm_unfold. rewrite Hp; simpl.
    rewrite lookup_insert_eq. simpl. by rewrite bool_decide_eq_true_2.
  - intros k Hk. simpl. by rewrite lookup_insert_ne.
Qed.

Lemma speech_reserve_fresh_witness :
  issued demo_reused !! 1%nat = Some (reserved_lease "a" (reg demo_released)) ∧
  attempt_id (lease_identity demo_lease) ≠
  attempt_id (lease_identity (reserved_lease "a" (reg demo_released))).
Proof.
  split; [vm_compute; reflexivity|].
  pose proof (speech_reserve_fresh 1 32 demo_released "a" 4%nat demo_released_from_start) as H.
  cbv zeta in H. rewrite reserve_cases in H.
  assert (poisoned (reg demo_released) = false) as E1 by (vm_compute; reflexivity).
  assert (operations (reg demo_released) !! "a" = None) as E2 by (vm_compute; reflexivity).
  assert (u64_max <? next_sequence (reg demo_released) + 1 = false) as E3
    by (vm_compute; reflexivity).
  rewrite E1, E2, E3 in H. destruct H as (_ & _ & _ & _ & H & _).
  apply (H 0%nat demo_lease). vm_compute. reflexivity.
Defined.

(** ** Finishing an attempt *)

(** [finish_attempt_and_release_inner] is one transaction. When it succeeds
    the operation was Running under this lease with exactly this attempt active;
    its terminal class is Cancelled when cancellation wins and had been
    requested, the caller's class otherwise; and the snapshot it returns is the
    one the lease shows from then on, the id being free again if it released.
    When it fails, registry and slots are untouched; and it does fail unless
    those conditions hold. *)
Theorem speech_finish_attempt_transaction next capacity s n l a t wins rel :
  rtc call_step (initial next capacity) s → issued s !! n = Some l →
  let w := reg s in
  let key := sequence (attempt_identity a) in
  let ready r :=
    attempt_operation a = lease_identity l ∧ poisoned w = false ∧
    slot_poisoned (slots w !!! lease_released l) = false ∧
    operations w !! operation_id (lease_identity l) = Some r ∧
    rec_identity r = lease_identity l ∧ rec_phase r = Running ∧
    rec_attempts r = {[key := attempt_identity a]} in
  match finish_attempt_and_release_inner l a t wins rel w with
  | (Ok snap, w') => ∃ r, ready r ∧
      snap_phase snap = (if rel then Released else Terminal) ∧
      snap_terminal snap =
        Some (if wins && rec_cancellation_requested r then Cancelled else t) ∧
      snap_cancellation_requested snap = rec_cancellation_requested r ∧
      fst (lease_snapshot l w') = Ok (Some snap) ∧
      (operations w' !! operation_id (lease_identity l) = None ↔ rel = true)
  | (Err e, w') => ¬ (∃ r, ready r) ∧
      operations w' = operations w ∧ slots w' = slots w ∧ next_sequence w' = next_sequence w
  end.
Proof.
  intros Hr Hl. cbv zeta. pose proof (reachable_inv _ _ _ Hr) as HI.
  assert (Hlt : (lease_released l < length (slots (reg s)))%nat)
    by (rewrite (proj1 (inv_issued _ HI _ _ Hl)); by eapply inv_slots_lt).
  unfold finish_attempt_and_release_inner. sm_unfold.
  case_bool_decide as Ha; simpl; [naive_solver|].
  unfold released_lock. destruct (slot_poisoned _) eqn:Hsp; simpl; [naive_solver|].
  unfold lock. destruct (poisoned (reg s)) eqn:Hp; simpl; [naive_solver|].
  destruct (record_mut _ _) as [r|e] eqn:Hrm; simpl.
  2: { split; [|done]. intros (r & _ & _ & _ & Hk & Hid & _).
       assert (record_mut (reg s) (lease_identity l) = Ok r) by (by apply record_mut_Ok).
       congruence. }
  apply record_mut_Ok in Hrm as [Hk Hid].
  destruct (inv_record _ HI _ _ Hk) as (_ & Hwf & _).
  match goal with |- context [if ?b then Err InvalidTransition else _] =>
    destruct b eqn:Hg end; simpl.
  { split; [|done]. intros (r' & _ & _ & _ & Hk' & _ & Hph & Hat). simplify_eq.
    rewrite Hph, Hat, (rec_wf_running _ Hwf Hph), lookup_singleton_eq, map_size_singleton in Hg.
    revert Hg. rewrite !bool_decide_eq_false_2; [done|..]; naive_solver. }
  apply finish_guards in Hg as (Hph & Hterm & Hat).
  destruct rel; simpl; unfold remove_record, store_released, write_record; sm_unfold;
    exists r; (split; [done|]); split_and!; try done;
    unfold lease_snapshot, lock; sm_unfold; rewrite ?Hp; simpl;
    rewrite ?lookup_delete_eq, ?lookup_insert_eq; simpl;
    rewrite ?bool_decide_eq_true_2 by done; try done.
  unfold released_lock; simpl. by rewrite list_lookup_total_insert_eq.
Qed.

(** The demonstration operation, cancelled while its only attempt runs. *)
Definition demo_attempt : AttemptLease :=
  {| attempt_operation := demo_identity;
     attempt_identity := attempt_identity_for demo_identity 1 |}.
Definition demo_attempting : Sys := run_calls [CStartAttempt 0] demo_running.

Lemma demo_attempting_reachable : rtc call_step (initial 1 32) demo_attempting.
Proof.
  etrans; [exact demo_running_reachable|]. apply run_calls_rtc. by repeat constructor.
Qed.

Lemma speech_finish_attempt_transaction_witness :
  match finish_attempt_and_release_inner demo_lease demo_attempt Completed true true
          (reg demo_attempting) with
  | (Ok snap, _) => snap_terminal snap = Some Cancelled
  | (Err _, _) => False
  end.
Proof.
  pose proof (speech_finish_attempt_transaction 1 32 demo_attempting 0 demo_lease demo_attempt
    Completed true true demo_attempting_reachable eq_refl) as H. cbv zeta in H.
  destruct (finish_attempt_and_release_inner _ _ _ _ _ _) as [[snap|e] w'].
  - destruct H as (r & (_ & _ & _ & Hk & _) & _ & -> & _).
    vm_compute in Hk. injection Hk as <-. reflexivity.
  - destruct H as (Hn & _). apply Hn.
    eexists. split_and!; vm_compute; reflexivity.
Defined.

(** ** Progress *)

Lemma push_progress_last capacity progress q :
  (length progress ≤ capacity)%nat →
  push_progress capacity progress q = last_n capacity (progress ++ [q]).
Proof.
  intros Hl. unfold push_progress, last_n. rewrite length_app; simpl. case_bool_decide as Hc.
  { destruct progress; simpl in *; [|lia]. by subst. }
  case_bool_decide as Hf.
  - replace (length progress + 1 - capacity)%nat with 1%nat by lia. by destruct progress.
  - by replace (length progress + 1 - capacity)%nat with 0%nat by lia.
Qed.

Definition publish_all (l : OperationLease) (qs : list Z) (w : Registry) : Registry :=
  foldl (λ w q, exec (publish_progress l q) w) w qs.

Lemma publish_one l q w r :
  poisoned w = false → operations w !! operation_id (lease_identity l) = Some r →
  rec_identity r = lease_identity l → rec_phase r = Running → rec_terminal r = None →
  publish_progress l q w = (Ok tt,
    set_operations (<[operation_id (lease_identity l) :=
      set_progress (push_progress (rec_progress_capacity r) (rec_progress r) q) r]>
      (operations w)) w).
Proof.
  intros Hp Hk Hid Hph Ht. unfold publish_progress, lock. sm_unfold. rewrite Hp; simpl.
  rewrite (proj2 (record_mut_Ok _ _ _) (conj Hk Hid)). simpl. by rewrite Hph, Ht.
Qed.

(** progress published by a running operation is kept as the most recent
    [progress_capacity] values, in order, however many are published, and
    publishing changes nothing else the lease shows. *)
Theorem speech_progress_is_most_recent next capacity s n l r qs :
  rtc call_step (initial next capacity) s → issued s !! n = Some l →
  poisoned (reg s) = false →
  operations (reg s) !! operation_id (lease_identity l) = Some r →
  rec_identity r = lease_identity l → rec_phase r = Running →
  fst (lease_snapshot l (publish_all l qs (reg s))) = Ok (Some
    {| snap_identity := lease_identity l; snap_phase := Running;
       snap_cancellation_requested := rec_cancellation_requested r;
       snap_terminal := None;
       snap_progress := last_n (rec_progress_capacity r) (rec_progress r ++ qs) |}).
Proof.
  intros Hr Hl Hp Hk Hid Hph. pose proof (reachable_inv _ _ _ Hr) as HI.
  destruct (inv_record _ HI _ _ Hk) as (_ & Hwf & _).
  pose proof (rec_wf_running _ Hwf Hph) as Ht. destruct Hwf as [_ _ Hlen _ _].
  clear HI Hr Hl. generalize dependent (reg s). clear s. intros w Hp Hk.
  revert w r Hp Hk Hid Hph Ht Hlen. induction qs as [|q qs IH]; intros w r Hp Hk Hid Hph Ht Hlen.
  - unfold lease_snapshot, lock. sm_unfold. rewrite Hp; simpl. rewrite Hk; simpl.
    rewrite bool_decide_eq_true_2 by done. unfold snapshot_of.
    by rewrite Hid, Hph, Ht, app_nil_r, last_n_all.
  - simpl. unfold exec. rewrite (publish_one l q w r) by done. simpl.
    erewrite IH; [|done|apply lookup_insert_eq|done..|by apply push_progress_length].
    simpl. rewrite push_progress_last by done. by rewrite last_n_app_l, <- app_assoc.
Qed.

Definition demo_record : OperationRecord :=
  {| rec_identity := demo_identity; rec_phase := Running; rec_cancellation_requested := true;
     rec_terminal := None; rec_progress := [7]; rec_progress_capacity := 4%nat;
     rec_next_attempt_sequence := 1; rec_attempts := ∅; rec_released := 0%nat |}.

Lemma speech_progress_is_most_recent_witness :
  fst (lease_snapshot demo_lease (publish_all demo_lease [8; 9; 10; 11] (reg demo_running)))
  = Ok (Some {| snap_identity := demo_identity; snap_phase := Running;
                snap_cancellation_requested := true; snap_terminal := None;
                snap_progress := [8; 9; 10; 11] |}).
Proof.
  eapply (speech_progress_is_most_recent 1 32 demo_running 0 demo_lease demo_record [8; 9; 10; 11]
            demo_running_reachable).
  - reflexivity.
  - reflexivity.
  - vm_compute. reflexivity.
  - reflexivity.
  - reflexivity.
Defined.

(** ** Refused calls *)

(** A refused call changes nothing, except that an unavailable mutex is
    recorded in the fault flag. *)
Definition refused_unchanged {A} (m : M A) (w : Registry) : Prop :=
  ∀ e w', m w = (Err e, w') → w' = w ∨ e = StateUnavailable ∧ w' = set_faulted w.

(** Walk through the guards of a method that returned an error. *)
Ltac refused :=
  intros e w'; sm_unfold;
  repeat (unfold lock, released_lock, write_record, remove_record, store_released; sm_unfold;
    match goal with
    | |- context [match record_mut ?w ?id with _ => _ end] =>
        let r := fresh "r" in let E := fresh "Hrec" in
        destruct (record_mut w id) as [r|[]] eqn:E; simpl in *
    | |- context [if ?b then _ else _] =>
        lazymatch b with
        | context [if _ then _ else _] => fail
        | _ => let E := fresh "Hb" in destruct b eqn:E; simpl in *
        end
    end); intros; simplify_eq; auto.

Lemma record_mut_Err w id e : record_mut w id = Err e → e = Stale.
Proof. unfold record_mut. sm_unfold. intros. repeat case_match; by simplify_eq/=. Qed.

Lemma transition_refused l from to w : refused_unchanged (transition l from to) w.
Proof. unfold transition. refused. Qed.
Lemma terminal_refused l t w : refused_unchanged (terminal l t) w.
Proof. unfold terminal. refused. Qed.
Lemma release_refused l w : refused_unchanged (release l) w.
Proof. unfold release. refused. Qed.
Lemma finish_attempt_refused l a t wins rel w :
  refused_unchanged (finish_attempt_and_release_inner l a t wins rel) w.
Proof. unfold finish_attempt_and_release_inner. refused. Qed.
Lemma finish_setup_refused l t w : refused_unchanged (finish_setup_and_release l t) w.
Proof. unfold finish_setup_and_release. refused. Qed.
Lemma request_cancel_refused l w : refused_unchanged (request_cancel l) w.
Proof. unfold request_cancel, request_cancel_once. refused. Qed.
Lemma publish_progress_refused l q w : refused_unchanged (publish_progress l q) w.
Proof. unfold publish_progress. refused. Qed.
Lemma start_attempt_refused l w : refused_unchanged (start_attempt l) w.
Proof.
  unfold start_attempt. refused. destruct (checked_add _ _ _); simplify_eq/=. by left.
Qed.
Lemma request_cancel_all_refused w : refused_unchanged request_cancel_all w.
Proof. unfold request_cancel_all. refused. Qed.
Lemma reserve_refused id cap w : refused_unchanged (reserve_with_capacity id cap) w.
Proof. intros e w'. rewrite reserve_cases. repeat case_match; intros; simplify_eq; auto. Qed.

(** An attempt lease carries the identity [start_attempt] minted for it. *)
Definition attempt_genuine (a : AttemptLease) : Prop :=
  attempt_identity a =
    attempt_identity_for (attempt_operation a) (sequence (attempt_identity a)).

Lemma start_attempt_genuine l w a w' :
  start_attempt l w = (Ok a, w') → attempt_genuine a.
Proof.
  unfold start_attempt. run_method; intros; simplify_eq/=.
  destruct (checked_add _ _ _); simplify_eq/=. done.
Qed.

(** [AttemptLease::finish] removes before it compares, but nothing is removed
    by a comparison that fails. *)
Lemma attempt_finish_refused s a :
  Inv s → attempt_genuine a → refused_unchanged (attempt_finish a) (reg s).
Proof.
  intros HI Ha. unfold attempt_finish. intros e w'. sm_unfold. unfold lock.
  destruct (poisoned (reg s)) eqn:Hp; simpl; [intros; simplify_eq; auto|].
  destruct (record_mut _ _) as [r|[]] eqn:Hrm; simpl; try (intros; simplify_eq; by left).
  apply record_mut_Ok in Hrm as [Hk Hid].
  unfold write_record. sm_unfold. case_bool_decide as Hn; intros; simplify_eq. left.
  assert (rec_attempts r !! sequence (attempt_identity a) = None) as Hnone.
  { destruct (rec_attempts r !! _) as [x|] eqn:Hx; [|done]. exfalso. apply Hn.
    destruct (inv_record _ HI _ _ Hk) as (_ & [_ _ _ W _] & _).
    destruct (W _ _ Hx) as [-> _]. by rewrite Hid, <- Ha. }
  rewrite delete_id by done. destruct (reg s) as [nx ops p f c sl]; unfold set_operations; simpl in *.
  f_equal. apply insert_id. rewrite Hk. by destruct r.
Qed.

(** in every reachable state each method that returns an error leaves the
    registry, its records and its slots exactly as they were, but for the fault
    flag of an unavailable mutex; this includes [AttemptLease::finish], which
    removes its entry before checking it. *)
Theorem speech_refused_calls_change_nothing next capacity s l a t wins rel q id cap :
  rtc call_step (initial next capacity) s → attempt_genuine a →
  let w := reg s in
  refused_unchanged (reserve_with_capacity id cap) w ∧
  refused_unchanged (queue l) w ∧ refused_unchanged (start l) w ∧
  refused_unchanged (terminal l t) w ∧ refused_unchanged (release l) w ∧
  refused_unchanged (finish_attempt_and_release_inner l a t wins rel) w ∧
  refused_unchanged (finish_setup_and_release l t) w ∧
  refused_unchanged (request_cancel l) w ∧ refused_unchanged (publish_progress l q) w ∧
  refused_unchanged (start_attempt l) w ∧ refused_unchanged request_cancel_all w ∧
  refused_unchanged (attempt_finish a) w.
Proof.
  intros Hr Ha. cbv zeta. split_and!;
    eauto using reserve_refused, transition_refused, terminal_refused, release_refused,
      finish_attempt_refused, finish_setup_refused, request_cancel_refused,
      publish_progress_refused, start_attempt_refused, request_cancel_all_refused,
      attempt_finish_refused, reachable_inv;
    apply transition_refused.
Qed.

Lemma speech_refused_calls_change_nothing_witness :
  snd (attempt_finish demo_attempt (reg demo_running)) = reg demo_running.
Proof.
  destruct (speech_refused_calls_change_nothing 1 32 demo_running demo_lease demo_attempt
    Failed true true 0 "a" 4%nat demo_running_reachable eq_refl)
    as (_ & _ & _ & _ & _ & _ & _ & _ & _ & _ & _ & H).
  destruct (attempt_finish demo_attempt (reg demo_running)) as [r w] eqn:E.
  assert (r = Err Stale) as -> by (vm_compute in E; congruence).
  destruct (H _ _ E) as [->|[? _]]; [reflexivity|discriminate].
Defined.
