(* ===== verification/RouterRegistry.v ===== *)
(** * RouterRegistry: the FTE router's registry of admitted operations

    Models [fte-router/src/operation_lifecycle.rs]. As in the speech host the map
    is behind one mutex and every reservation has a released slot behind its own;
    there are no attempts and no progress, but every operation has a cancellation
    token ([tokio_util]), which is a parameter here. One reservation allocates the
    slot and the token; the location names both. Each method is one critical
    section. *)

From S2P Require Import Prelude OperationSpec.
Local Open Scope Z_scope.

Notation loc := nat.

(** [CancellationToken]: the tokens by location. *)
Class CancellationTokens (T : Type) := {
  tokens_new : T;
  token_cancel : loc → T → T;
  token_is_cancelled : T → loc → bool;
}.
(** As documented: [cancel] cancels the token, for good. *)
Class CancellationLaws (T : Type) `{CancellationTokens T} := {
  cancel_cancels n t : token_is_cancelled (token_cancel n t) n = true;
  cancel_keeps n t m : token_is_cancelled t m = true → token_is_cancelled (token_cancel n t) m = true;
}.

Record OperationIdentity := { operation_id : string; sequence : Z }.
#[export] Instance OperationIdentity_eq_dec : EqDecision OperationIdentity.
Proof. solve_decision. Defined.

Record OperationSnapshot := {
  snap_identity : OperationIdentity;
  snap_phase : OperationPhase;
  snap_cancellation_requested : bool;
  snap_terminal : option TerminalClass;
}.
#[export] Instance OperationSnapshot_eq_dec : EqDecision OperationSnapshot.
Proof. solve_decision. Defined.

Inductive RegistryError := Duplicate | Exhausted | Stale | InvalidTransition | Poisoned.
#[export] Instance RegistryError_eq_dec : EqDecision RegistryError.
Proof. solve_decision. Defined.

(** [rec_released] is the location of the slot and of the cancellation token. *)
Record OperationRecord := {
  rec_identity : OperationIdentity;
  rec_phase : OperationPhase;
  rec_cancellation_requested : bool;
  rec_terminal : option TerminalClass;
  rec_released : loc;
}.

Record Slot := { slot_poisoned : bool; slot_value : option OperationSnapshot }.
#[export] Instance Slot_inhabited : Inhabited Slot :=
  populate {| slot_poisoned := false; slot_value := None |}.

Record OperationLease := { lease_identity : OperationIdentity; lease_released : loc }.
Record ConsumerGuard := { guard_lease : OperationLease; cancel_on_drop : bool }.

Section Router.
Context {T : Type} `{CancellationTokens T}.

Record Registry := {
  next_sequence : Z;
  operations : gmap string OperationRecord;
  poisoned : bool;
  slots : list Slot;
  tokens : T;
}.

Definition set_operations (ops : gmap string OperationRecord) (w : Registry) : Registry :=
  {| next_sequence := next_sequence w; operations := ops; poisoned := poisoned w;
     slots := slots w; tokens := tokens w |}.
Definition set_next_sequence (n : Z) (w : Registry) : Registry :=
  {| next_sequence := n; operations := operations w; poisoned := poisoned w;
     slots := slots w; tokens := tokens w |}.
Definition set_slots (sl : list Slot) (w : Registry) : Registry :=
  {| next_sequence := next_sequence w; operations := operations w; poisoned := poisoned w;
     slots := sl; tokens := tokens w |}.
Definition set_tokens (t : T) (w : Registry) : Registry :=
  {| next_sequence := next_sequence w; operations := operations w; poisoned := poisoned w;
     slots := slots w; tokens := t |}.

Definition set_phase (p : OperationPhase) (r : OperationRecord) : OperationRecord :=
  {| rec_identity := rec_identity r; rec_phase := p;
     rec_cancellation_requested := rec_cancellation_requested r;
     rec_terminal := rec_terminal r; rec_released := rec_released r |}.
Definition set_terminal (t : TerminalClass) (r : OperationRecord) : OperationRecord :=
  {| rec_identity := rec_identity r; rec_phase := rec_phase r;
     rec_cancellation_requested := rec_cancellation_requested r;
     rec_terminal := Some t; rec_released := rec_released r |}.
Definition set_cancelled (r : OperationRecord) : OperationRecord :=
  {| rec_identity := rec_identity r; rec_phase := rec_phase r;
     rec_cancellation_requested := true;
     rec_terminal := rec_terminal r; rec_released := rec_released r |}.

Definition M : Type → Type := SM Registry RegistryError.

Definition snapshot_of (record : OperationRecord) : OperationSnapshot :=
  {| snap_identity := rec_identity record; snap_phase := rec_phase record;
     snap_cancellation_requested := rec_cancellation_requested record;
     snap_terminal := rec_terminal record |}.

Definition new (next : Z) : Registry :=
  {| next_sequence := next; operations := ∅; poisoned := false; slots := []; tokens := tokens_new |}.

Definition lock : M Registry := λ w, if poisoned w then (Err Poisoned, w) else (Ok w, w).

Definition released_lock (l : loc) : M (option OperationSnapshot) := λ w,
  let slot := slots w !!! l in
  if slot_poisoned slot then (Err Poisoned, w) else (Ok (slot_value slot), w).

Definition store_released (l : loc) (s : OperationSnapshot) : M unit :=
  sm_modify (λ w, set_slots
    (<[l := {| slot_poisoned := false; slot_value := Some s |}]> (slots w)) w).

Definition record_mut (state : Registry) (identity : OperationIdentity)
    : result RegistryError OperationRecord :=
  record ← ok_or (operations state !! operation_id identity) Stale;
  reject_if (bool_decide (rec_identity record ≠ identity)) Stale;;
  mret record.

(** Write back through the [&mut OperationRecord] that [record_mut] returned. *)
Definition write_record (identity : OperationIdentity) (record : OperationRecord) : M unit :=
  sm_modify (λ w, set_operations (<[operation_id identity := record]> (operations w)) w).
Definition remove_record (identity : OperationIdentity) : M unit :=
  sm_modify (λ w, set_operations (delete (operation_id identity) (operations w)) w).
(** [record.cancellation.cancel()] *)
Definition cancel_token (l : loc) (w : Registry) : Registry := set_tokens (token_cancel l (tokens w)) w.

Definition reserve (id : string) : M (ConsumerGuard * OperationLease) :=
  state ← lock;
  sm_reject_if (bool_decide (is_Some (operations state !! id))) Duplicate;;
  let sequence := next_sequence state in
  next ← sm_lift (ok_or (checked_add u64_max sequence 1) Exhausted);
  sm_modify (set_next_sequence next);;
  let identity := {| operation_id := id; sequence := sequence |} in
  let released := length (slots state) in
  sm_modify (λ w, set_slots (slots w ++ [{| slot_poisoned := false; slot_value := None |}]) w);;
  sm_modify (λ w, set_operations (<[id :=
    {| rec_identity := identity; rec_phase := Reserved; rec_cancellation_requested := false;
       rec_terminal := None; rec_released := released |}]> (operations w)) w);;
  let lease := {| lease_identity := identity; lease_released := released |} in
  mret ({| guard_lease := lease; cancel_on_drop := true |}, lease).

Definition active_count : M nat := state ← lock; mret (size (operations state)).

Definition current (id : string) : M (option OperationSnapshot) :=
  state ← lock; mret (snapshot_of <$> operations state !! id).

Definition current_lease (id : string) : M (option OperationLease) :=
  state ← lock;
  mret ((λ r, {| lease_identity := rec_identity r; lease_released := rec_released r |})
          <$> operations state !! id).

(** The loop that marks every record and cancels its token. *)
Definition cancel_records (w : Registry) : Registry :=
  set_operations (set_cancelled <$> operations w)
    (set_tokens (foldr (λ r t, token_cancel (rec_released r) t) (tokens w)
      (map_to_list (operations w)).*2) w).

Definition request_cancel_all : M (list string) :=
  state ← lock;
  sm_modify cancel_records;;
  mret (sorted_strings (elements (dom (operations state)))).

(** Works on the poisoned state too. *)
Definition request_cancel_all_for_shutdown (w : Registry)
    : (list string * option RegistryError) * Registry :=
  ((sorted_strings (elements (dom (operations w))), if poisoned w then Some Poisoned else None), cancel_records w).

Definition diagnostic_active_count (w : Registry) : nat * bool := (size (operations w), poisoned w).

(** ** Leases *)

Definition lease_snapshot (l : OperationLease) : M (option OperationSnapshot) :=
  state ← lock;
  match operations state !! operation_id (lease_identity l) with
  | Some record =>
      mret (if bool_decide (rec_identity record = lease_identity l)
            then Some (snapshot_of record) else None)
  | None => released_lock (lease_released l)
  end.

Definition is_active (l : OperationLease) : M bool :=
  snap ← current (operation_id (lease_identity l));
  mret (match snap with
        | Some snap => bool_decide (snap_identity snap = lease_identity l)
        | None => false
        end).

Definition transition (l : OperationLease) (expected next : OperationPhase) : M unit :=
  state ← lock;
  record ← sm_lift (record_mut state (lease_identity l));
  sm_reject_if (bool_decide (rec_phase record ≠ expected)) InvalidTransition;;
  write_record (lease_identity l) (set_phase next record).

Definition queue (l : OperationLease) : M unit := transition l Reserved Queued.
Definition start (l : OperationLease) : M unit := transition l Queued Running.

Definition terminal (l : OperationLease) (t : TerminalClass) : M unit :=
  state ← lock;
  record ← sm_lift (record_mut state (lease_identity l));
  sm_reject_if (bool_decide (rec_phase record ≠ Running) || bool_decide (is_Some (rec_terminal record)))
    InvalidTransition;;
  write_record (lease_identity l) (set_phase Terminal (set_terminal t record)).

Definition terminal_for_publication (l : OperationLease) (t : TerminalClass) : M unit :=
  state ← lock;
  released_lock (lease_released l);;
  record ← sm_lift (record_mut state (lease_identity l));
  sm_reject_if (bool_decide (rec_phase record ≠ Running) || bool_decide (is_Some (rec_terminal record)))
    InvalidTransition;;
  write_record (lease_identity l) (set_phase Terminal (set_terminal t record)).

Definition terminal_and_release (l : OperationLease) (t : TerminalClass) : M unit :=
  state ← lock;
  released_lock (lease_released l);;
  record ← sm_lift (record_mut state (lease_identity l));
  sm_reject_if (negb (bool_decide (rec_phase record = Queued) || bool_decide (rec_phase record = Running))
                || (bool_decide (rec_phase record = Queued) && bool_decide (t = Completed))
                || bool_decide (is_Some (rec_terminal record))) InvalidTransition;;
  let record := set_phase Released (set_terminal t record) in
  remove_record (lease_identity l);;
  store_released (lease_released l) (snapshot_of record).

Definition release (l : OperationLease) : M unit :=
  state ← lock;
  released_lock (lease_released l);;
  record ← sm_lift (record_mut state (lease_identity l));
  sm_reject_if (bool_decide (rec_phase record ≠ Terminal)) InvalidTransition;;
  let record := set_phase Released record in
  remove_record (lease_identity l);;
  store_released (lease_released l) (snapshot_of record).

Definition request_cancel (l : OperationLease) : M unit :=
  state ← lock;
  record ← sm_lift (record_mut state (lease_identity l));
  write_record (lease_identity l) (set_cancelled record);;
  sm_modify (cancel_token (rec_released record)).

Definition guard_cancel (g : ConsumerGuard) : M unit := request_cancel (guard_lease g).
Definition guard_disarm (g : ConsumerGuard) : ConsumerGuard :=
  {| guard_lease := guard_lease g; cancel_on_drop := false |}.
Definition guard_drop (g : ConsumerGuard) (w : Registry) : Registry :=
  if cancel_on_drop g then (request_cancel (guard_lease g) w).2 else w.

(** ** Clients of one registry

    A client holds the leases that [reserve] handed out; a guard and every clone of
    a lease, also one from [current_lease], is the lease itself. Whoever has a clone
    of the token may cancel it. A panic in a critical section poisons a mutex. *)

Record Sys := { reg : Registry; issued : list OperationLease }.

Inductive Call :=
| CReserve (id : string)
| CQueue (n : nat)
| CStart (n : nat)
| CTerminal (n : nat) (t : TerminalClass)
| CPublish (n : nat) (t : TerminalClass)
| CTerminalRelease (n : nat) (t : TerminalClass)
| CRelease (n : nat)
| CCancel (n : nat)
| CCancelAll
| CShutdown
| CGuardDrop (n : nat) (armed : bool)
| CToken (l : loc)
| CPoison
| CPoisonSlot (l : loc).

Definition exec {A} (m : M A) (w : Registry) : Registry := snd (m w).
Definition with_lease (n : nat) (f : OperationLease → Registry → Registry) (s : Sys) : Sys :=
  match issued s !! n with
  | Some l => {| reg := f l (reg s); issued := issued s |}
  | None => s
  end.
Definition with_reg (f : Registry → Registry) (s : Sys) : Sys :=
  {| reg := f (reg s); issued := issued s |}.
Definition poison (w : Registry) : Registry :=
  {| next_sequence := next_sequence w; operations := operations w; poisoned := true;
     slots := slots w; tokens := tokens w |}.
Definition poison_slot (l : loc) (w : Registry) : Registry :=
  set_slots (alter (λ sl, {| slot_poisoned := true; slot_value := slot_value sl |}) l (slots w)) w.

Definition run_call (c : Call) (s : Sys) : Sys :=
  match c with
  | CReserve id =>
      match reserve id (reg s) with
      | (Ok (_, lease), w) => {| reg := w; issued := issued s ++ [lease] |}
      | (Err _, w) => {| reg := w; issued := issued s |}
      end
  | CQueue n => with_lease n (λ l, exec (queue l)) s
  | CStart n => with_lease n (λ l, exec (start l)) s
  | CTerminal n t => with_lease n (λ l, exec (terminal l t)) s
  | CPublish n t => with_lease n (λ l, exec (terminal_for_publication l t)) s
  | CTerminalRelease n t => with_lease n (λ l, exec (terminal_and_release l t)) s
  | CRelease n => with_lease n (λ l, exec (release l)) s
  | CCancel n => with_lease n (λ l, exec (request_cancel l)) s
  | CCancelAll => with_reg (exec request_cancel_all) s
  | CShutdown => with_reg (λ w, (request_cancel_all_for_shutdown w).2) s
  | CGuardDrop n armed => with_lease n (λ l, guard_drop {| guard_lease := l; cancel_on_drop := armed |}) s
  | CToken l => with_reg (cancel_token l) s
  | CPoison => with_reg poison s
  | CPoisonSlot l => with_reg (poison_slot l) s
  end.

Definition call_step (s s' : Sys) : Prop := ∃ c, s' = run_call c s.
Definition initial (next : Z) : Sys := {| reg := new next; issued := [] |}.

End Router.
Arguments Registry : clear implicits.
Arguments Sys : clear implicits.

(** ** Records and their abstraction *)

Definition rec_op (r : OperationRecord) : Op :=
  mkOp (rec_phase r) (rec_cancellation_requested r) (rec_terminal r).
Definition snap_op (s : OperationSnapshot) : Op :=
  mkOp (snap_phase s) (snap_cancellation_requested s) (snap_terminal s).

Record record_wf (r : OperationRecord) : Prop := {
  wf_phase : rec_phase r ≠ Released;
  wf_terminal : is_Some (rec_terminal r) ↔ rec_phase r = Terminal;
}.

(** What a method may do to a record it leaves in the registry. *)
Record rec_step (r r' : OperationRecord) : Prop := {
  rs_identity : rec_identity r' = rec_identity r;
  rs_released : rec_released r' = rec_released r;
  rs_op : record_wf r → rtc op_step (rec_op r) (rec_op r');
  rs_wf : record_wf r → record_wf r';
}.

Lemma router_rec_step_refl r : rec_step r r.
Proof. by split. Qed.

Lemma router_rec_step_phase r from to :
  rec_phase r = from → (from = Reserved ∧ to = Queued ∨ from = Queued ∧ to = Running) →
  rec_step r (set_phase to r).
Proof.
  destruct r as [id p c t rel]; simpl. intros -> Hft.
  assert (record_wf (Build_OperationRecord id from c t rel) → t = None) as Ht.
  { intros [_ Ht]; simpl in *. apply eq_None_not_Some. rewrite Ht. naive_solver. }
  split; simpl; try done; intros Hwf; specialize (Ht Hwf); subst t.
  - unfold rec_op. simpl. apply rtc_once. destruct Hft as [[-> ->]|[-> ->]]; constructor.
  - destruct Hft as [[-> ->]|[-> ->]]; (split; simpl; [done|]); (split; [by intros []|done]).
Qed.

Lemma router_rec_step_terminal r t :
  rec_phase r = Running → rec_terminal r = None → rec_step r (set_phase Terminal (set_terminal t r)).
Proof.
  destruct r as [id p c t' rel]; simpl. intros -> ->. split; simpl; [done|done| |].
  - intros _. unfold rec_op. simpl. apply rtc_once. constructor.
  - intros _. split; simpl; [done|]. split; [done|by eexists].
Qed.

Lemma router_rec_step_cancel r : rec_step r (set_cancelled r).
Proof.
  destruct r as [id p c t rel]. split; simpl; [done|done| |].
  - intros [Hp _]. unfold rec_op. simpl in *. by apply rtc_once, op_cancel.
  - by intros [].
Qed.

(** From Queued or Running an operation can end and be released at once. *)
Lemma router_steps_end_release p c t :
  p = Running ∨ p = Queued ∧ t ≠ Completed →
  rtc op_step (mkOp p c None) (mkOp Released c (Some t)).
Proof.
  intros Hp. eapply rtc_l; [|eapply rtc_once, op_release].
  destruct Hp as [->|[-> Ht]]; constructor; [simpl; lia|done].
Qed.

(** ** Effects of the methods *)

Section Effects.
Context {T : Type} `{CancellationLaws T}.
Notation Registry := (Registry T).
Notation Sys := (Sys T).

(** Cancelled tokens stay cancelled. *)
Definition tokens_grow (w w' : Registry) : Prop :=
  ∀ n, token_is_cancelled (tokens w) n = true → token_is_cancelled (tokens w') n = true.

Record eff_records (w w' : Registry) : Prop := {
  er_next : next_sequence w' = next_sequence w;
  er_slots : slot_value <$> slots w' = slot_value <$> slots w;
  er_tokens : tokens_grow w w';
  er_none k : operations w !! k = None → operations w' !! k = None;
  er_some k r : operations w !! k = Some r →
    ∃ r', operations w' !! k = Some r' ∧ rec_step r r' ∧
      (rec_cancellation_requested r' = true →
       rec_cancellation_requested r = true ∨ token_is_cancelled (tokens w') (rec_released r) = true);
}.

Record eff_release (l : OperationLease) (w w' : Registry) : Prop := {
  el_next : next_sequence w' = next_sequence w;
  el_tokens : tokens w' = tokens w;
  el_record : ∃ r r',
    operations w !! operation_id (lease_identity l) = Some r ∧
    rec_identity r = lease_identity l ∧ rec_identity r' = lease_identity l ∧
    rec_phase r' = Released ∧
    rec_cancellation_requested r' = rec_cancellation_requested r ∧
    (record_wf r → is_Some (rec_terminal r') ∧ rtc op_step (rec_op r) (rec_op r')) ∧
    operations w' = delete (operation_id (lease_identity l)) (operations w) ∧
    slots w' = <[lease_released l :=
                  {| slot_poisoned := false; slot_value := Some (snapshot_of r') |}]> (slots w);
}.

Lemma router_eff_records_same w w' :
  next_sequence w' = next_sequence w → slots w' = slots w → operations w' = operations w →
  tokens_grow w w' → eff_records w w'.
Proof. intros H1 H2 H3 H4. split; rewrite ?H1, ?H2, ?H3; eauto using router_rec_step_refl. Qed.

Lemma eff_records_refl w : eff_records w w.
Proof. apply router_eff_records_same; [done..|]. by intros n. Qed.

Lemma router_eff_records_insert w w' k r r' :
  next_sequence w' = next_sequence w → slots w' = slots w → tokens w' = tokens w →
  operations w !! k = Some r → operations w' = <[k := r']> (operations w) → rec_step r r' →
  rec_cancellation_requested r' = rec_cancellation_requested r → eff_records w w'.
Proof.
  intros H1 H2 H3 Hk H4 Hr Hc. split; rewrite ?H1, ?H2, ?H4; try done.
  - unfold tokens_grow. by rewrite H3.
  - intros j Hj. rewrite lookup_insert_ne by congruence. done.
  - intros j q Hj. destruct (decide (k = j)) as [->|Hne].
    + rewrite lookup_insert_eq. simplify_eq. exists r'. rewrite Hc. auto.
    + rewrite lookup_insert_ne by done. eauto using router_rec_step_refl.
Qed.

Lemma router_record_mut_Ok (w : Registry) id r :
  record_mut w id = Ok r ↔ operations w !! operation_id id = Some r ∧ rec_identity r = id.
Proof.
  unfold record_mut. sm_unfold. destruct (operations w !! operation_id id) as [q|] eqn:E;
    simpl; [case_bool_decide|]; naive_solver.
Qed.

(** Unfold a method and walk through its guards. *)
Ltac run_method :=
  unfold exec; sm_unfold;
  repeat match goal with
  | |- context [lock ?w] => unfold lock
  | |- context [released_lock ?l ?w] => unfold released_lock
  | |- context [write_record] => unfold write_record; sm_unfold
  | |- context [remove_record] => unfold remove_record; sm_unfold
  | |- context [store_released] => unfold store_released; sm_unfold
  | |- context [match record_mut ?w ?id with _ => _ end] =>
      let E := fresh "Hrec" in destruct (record_mut w id) eqn:E;
      [apply router_record_mut_Ok in E as [? ?]|]; simpl in *
  | |- context [if ?b then _ else _] =>
      lazymatch b with
      | context [if _ then _ else _] => fail
      | _ => let E := fresh "Hb" in destruct b eqn:E; simpl in *
      end
  end; simpl in *.

#[local] Hint Resolve eff_records_refl : core.

Lemma router_transition_effect l from to w :
  (from = Reserved ∧ to = Queued ∨ from = Queued ∧ to = Running) →
  eff_records w (exec (transition l from to) w).
Proof.
  intros Hft. unfold transition. run_method; auto. bool_prop. apply dec_stable in Hb0.
  eapply router_eff_records_insert; simpl; eauto. by apply router_rec_step_phase with from.
Qed.

Lemma router_terminal_effect l t w : eff_records w (exec (terminal l t) w).
Proof.
  unfold terminal. run_method; auto. bool_prop. apply dec_stable in H3.
  eapply router_eff_records_insert; simpl; eauto. apply router_rec_step_terminal; [done|].
  by apply eq_None_not_Some.
Qed.

Lemma publication_effect l t w : eff_records w (exec (terminal_for_publication l t) w).
Proof.
  unfold terminal_for_publication. run_method; auto. bool_prop. apply dec_stable in H3.
  eapply router_eff_records_insert; simpl; eauto. apply router_rec_step_terminal; [done|].
  by apply eq_None_not_Some.
Qed.

Lemma router_request_cancel_effect l w : eff_records w (exec (request_cancel l) w).
Proof.
  unfold request_cancel. run_method; auto. split; simpl; try done.
  - intros n Hn. by apply cancel_keeps.
  - intros j Hj. rewrite lookup_insert_ne by congruence. done.
  - intros j q Hj. destruct (decide (operation_id (lease_identity l) = j)) as [<-|Hne].
    + rewrite lookup_insert_eq. simplify_eq. eexists. split_and!; [done|apply router_rec_step_cancel|].
      intros _. right. apply cancel_cancels.
    + rewrite lookup_insert_ne by done. eauto using router_rec_step_refl.
Qed.

Lemma cancel_records_tokens (rs : list OperationRecord) t n :
  token_is_cancelled t n = true ∨ (∃ r, r ∈ rs ∧ rec_released r = n) →
  token_is_cancelled (foldr (λ r t, token_cancel (rec_released r) t) t rs) n = true.
Proof.
  induction rs as [|r rs IH]; simpl.
  - intros [?|(r & Hr & _)]; [done|by apply elem_of_nil in Hr].
  - intros [Ht|(r' & [->|Hr]%elem_of_cons & Hn)].
    + apply cancel_keeps. auto.
    + subst n. apply cancel_cancels.
    + apply cancel_keeps. eauto.
Qed.

Lemma cancel_records_effect w : eff_records w (cancel_records w).
Proof.
  split; simpl; try done.
  - intros n Hn. apply cancel_records_tokens. by left.
  - intros k Hk. by rewrite lookup_fmap, Hk.
  - intros k r Hk. rewrite lookup_fmap, Hk. simpl. eexists. split_and!; [done|apply router_rec_step_cancel|].
    intros _. right. apply cancel_records_tokens. right. exists r. split; [|done].
    apply list_elem_of_fmap. exists (k, r). split; [done|]. by apply elem_of_map_to_list.
Qed.

Lemma router_request_cancel_all_effect w : eff_records w (exec request_cancel_all w).
Proof. unfold request_cancel_all. run_method; auto. apply cancel_records_effect. Qed.

Lemma router_poison_slot_effect l w : eff_records w (poison_slot l w).
Proof.
  split; simpl; [done| |by intros n|done|eauto using router_rec_step_refl]. apply list_eq. intros i.
  rewrite !list_lookup_fmap, list_lookup_alter. case_decide; [subst|done].
  by destruct (slots w !! i).
Qed.

Lemma router_retire_effect l w w' r r' :
  slots w' = <[lease_released l :=
               {| slot_poisoned := false; slot_value := Some (snapshot_of r') |}]> (slots w) →
  operations w !! operation_id (lease_identity l) = Some r →
  rec_identity r = lease_identity l → rec_identity r' = rec_identity r →
  rec_phase r' = Released → rec_cancellation_requested r' = rec_cancellation_requested r →
  (record_wf r → is_Some (rec_terminal r') ∧ rtc op_step (rec_op r) (rec_op r')) →
  next_sequence w' = next_sequence w → tokens w' = tokens w →
  operations w' = delete (operation_id (lease_identity l)) (operations w) →
  eff_release l w w'.
Proof. intros. split; [done|done|]. exists r, r'. split_and!; done || congruence. Qed.

Lemma router_release_effect l w :
  eff_records w (exec (release l) w) ∨ eff_release l w (exec (release l) w).
Proof.
  unfold release. run_method; auto. bool_prop. apply dec_stable in Hb1. right.
  eapply router_retire_effect; [reflexivity|exact H1|exact H2|..]; simpl; try reflexivity.
  intros [_ Ht]. apply Ht in Hb1 as Hs. split; [done|].
  unfold rec_op; simpl. rewrite Hb1. destruct Hs as [t ->]. apply rtc_once, op_release.
Qed.

(** The guard of [terminal_and_release]. *)
Lemma release_guard r t :
  negb (bool_decide (rec_phase r = Queued) || bool_decide (rec_phase r = Running))
    || (bool_decide (rec_phase r = Queued) && bool_decide (t = Completed))
    || bool_decide (is_Some (rec_terminal r)) = false ↔
  (rec_phase r = Running ∨ rec_phase r = Queued ∧ t ≠ Completed) ∧ rec_terminal r = None.
Proof.
  rewrite !orb_false_iff, negb_false_iff, orb_true_iff, andb_false_iff, !bool_decide_eq_true,
    !bool_decide_eq_false, <- eq_None_not_Some.
  destruct (rec_phase r); naive_solver.
Qed.

Lemma terminal_and_release_effect l t w :
  eff_records w (exec (terminal_and_release l t) w) ∨ eff_release l w (exec (terminal_and_release l t) w).
Proof.
  unfold terminal_and_release. run_method; auto. apply release_guard in Hb1 as [Hp Hn]. right.
  eapply router_retire_effect; [reflexivity|exact H1|exact H2|..]; simpl; try reflexivity.
  intros _. split; [by eexists|]. unfold rec_op; simpl. rewrite Hn. by apply router_steps_end_release.
Qed.

(** ** The registry invariant *)

Definition slot_op (w : Registry) (n : loc) : option Op := snap_op <$> slot_value (slots w !!! n).

(** Where the operation behind a lease is: in the map, or in its slot. *)
Definition view (s : Sys) (n : nat) : option Op :=
  l ← issued s !! n;
  match operations (reg s) !! operation_id (lease_identity l) with
  | Some r => if bool_decide (rec_identity r = lease_identity l)
              then Some (rec_op r) else slot_op (reg s) n
  | None => slot_op (reg s) n
  end.

Definition is_live (w : Registry) (n : nat) (l : OperationLease) : Prop :=
  ∃ r, operations w !! operation_id (lease_identity l) = Some r ∧
       rec_identity r = lease_identity l ∧ rec_released r = n.

Definition is_retired (w : Registry) (n : nat) (l : OperationLease) : Prop :=
  ∃ snap, slot_value (slots w !!! n) = Some snap ∧ snap_identity snap = lease_identity l ∧
    snap_phase snap = Released ∧ is_Some (snap_terminal snap).

(** A recorded cancellation has reached the token. *)
Definition token_told (w : Registry) (n : loc) (requested : bool) : Prop :=
  requested = true → token_is_cancelled (tokens w) n = true.

Record Inv (s : Sys) : Prop := {
  inv_len : length (slots (reg s)) = length (issued s);
  inv_issued n l : issued s !! n = Some l →
    lease_released l = n ∧ sequence (lease_identity l) < next_sequence (reg s);
  inv_unique n m l l' : issued s !! n = Some l → issued s !! m = Some l' →
    sequence (lease_identity l) = sequence (lease_identity l') → n = m;
  inv_record k r : operations (reg s) !! k = Some r →
    operation_id (rec_identity r) = k ∧ record_wf r ∧
    (∃ l, issued s !! rec_released r = Some l ∧ lease_identity l = rec_identity r) ∧
    slot_value (slots (reg s) !!! rec_released r) = None ∧
    token_told (reg s) (rec_released r) (rec_cancellation_requested r);
  inv_place n l : issued s !! n = Some l → is_live (reg s) n l ∨ is_retired (reg s) n l;
  inv_slot n snap : slot_value (slots (reg s) !!! n) = Some snap →
    token_told (reg s) n (snap_cancellation_requested snap);
}.

Lemma router_slot_value_lookup (w w' : Registry) n :
  slot_value <$> slots w' = slot_value <$> slots w →
  slot_value (slots w' !!! n) = slot_value (slots w !!! n).
Proof.
  intros Heq. assert ((slot_value <$> slots w') !! n = (slot_value <$> slots w) !! n) as Hn
    by by rewrite Heq.
  rewrite !list_lookup_fmap in Hn. rewrite !list_lookup_total_alt.
  destruct (slots w' !! n), (slots w !! n); naive_solver.
Qed.

Lemma router_eff_records_inv s w :
  Inv s → eff_records (reg s) w → Inv {| reg := w; issued := issued s |}.
Proof.
  intros [Hlen Hiss Huni Hrec Hpl Hslot] [Hn Hsl Htok Hnone Hsome]. split; simpl.
  - rewrite <- Hlen. apply (f_equal length) in Hsl. by rewrite !length_fmap in Hsl.
  - rewrite Hn. done.
  - done.
  - intros k r' Hk'. destruct (operations (reg s) !! k) as [r|] eqn:Hk;
      [|by rewrite (Hnone _ Hk) in Hk'].
    destruct (Hsome _ _ Hk) as (r1 & H1 & [Hid Hrel _ Hwf] & Hc). simplify_eq.
    destruct (Hrec _ _ Hk) as (H2 & H3 & H4 & H5 & H6).
    rewrite Hid, Hrel, (router_slot_value_lookup _ _ _ Hsl). split_and!; auto.
    intros Hr. destruct (Hc Hr) as [Ho|Ht]; [by apply Htok, H6|done].
  - intros n l Hl. destruct (Hpl _ _ Hl) as [(r & H1 & H2 & H3)|(snap & H1 & H2)].
    + left. destruct (Hsome _ _ H1) as (r' & H4 & [Hid Hrel _ _] & _).
      exists r'. split_and!; congruence.
    + right. exists snap. by rewrite (router_slot_value_lookup _ _ _ Hsl).
  - intros n snap. rewrite (router_slot_value_lookup _ _ _ Hsl). intros Hs Hr. by apply Htok, (Hslot n snap).
Qed.

Lemma router_eff_records_view s w n o :
  Inv s → eff_records (reg s) w → view s n = Some o →
  ∃ o', view {| reg := w; issued := issued s |} n = Some o' ∧ rtc op_step o o'.
Proof.
  intros HI [Hn Hsl _ Hnone Hsome]. unfold view; simpl.
  destruct (issued s !! n) as [l|]; simpl; [|done].
  assert (slot_op w n = slot_op (reg s) n) as Hs
    by (unfold slot_op; by rewrite (router_slot_value_lookup _ _ _ Hsl)).
  destruct (operations (reg s) !! _) as [r|] eqn:Hk; simpl.
  - destruct (Hsome _ _ Hk) as (r' & -> & [Hid _ Hop _] & _). rewrite Hid, Hs.
    case_bool_decide; intros Ho; simplify_eq/=; [|by exists o].
    exists (rec_op r'). split; [done|]. apply Hop. apply (inv_record _ HI _ _ Hk).
  - rewrite (Hnone _ Hk), Hs. by exists o.
Qed.

(** Which lease the identity of a record belongs to. *)
Lemma router_live_index s n l k r :
  Inv s → issued s !! n = Some l → operations (reg s) !! k = Some r →
  rec_identity r = lease_identity l → rec_released r = n.
Proof.
  intros HI Hl Hk Hid. destruct (inv_record _ HI _ _ Hk) as (_ & _ & (l' & Hl' & Hid') & _).
  eapply (inv_unique _ HI); [exact Hl'|exact Hl|congruence].
Qed.

Section Retire.
Context (s : Sys) (n : nat) (l : OperationLease) (w : Registry).
Context (HI : Inv s) (Hl : issued s !! n = Some l) (He : eff_release l (reg s) w).

Lemma retired_facts : ∃ r r',
  operations (reg s) !! operation_id (lease_identity l) = Some r ∧
  rec_identity r = lease_identity l ∧ rec_released r = n ∧ rec_identity r' = lease_identity l ∧
  rec_phase r' = Released ∧ is_Some (rec_terminal r') ∧ rtc op_step (rec_op r) (rec_op r') ∧
  token_told (reg s) n (rec_cancellation_requested r') ∧
  operations w = delete (operation_id (lease_identity l)) (operations (reg s)) ∧
  slots w = <[n := {| slot_poisoned := false; slot_value := Some (snapshot_of r') |}]> (slots (reg s)) ∧
  (n < length (slots (reg s)))%nat.
Proof.
  destruct He as [Hn Ht (r & r' & Hk & Hid & Hid' & Hp & Hc & Hop & Ho & Hsl)].
  pose proof (router_live_index _ _ _ _ _ HI Hl Hk Hid) as Hrel.
  rewrite (proj1 (inv_issued _ HI _ _ Hl)) in Hsl.
  destruct (inv_record _ HI _ _ Hk) as (_ & Hwf & _ & _ & Htok). destruct (Hop Hwf).
  exists r, r'. split_and!; try done; [intros Hr; rewrite <- Hrel; apply Htok; congruence|].
  rewrite (inv_len _ HI). by eapply lookup_lt_Some.
Qed.

Lemma router_eff_release_inv : Inv {| reg := w; issued := issued s |}.
Proof.
  destruct retired_facts as (r & r' & Hk & Hid & Hrel & Hid' & Hp & Hterm & _ & Htold & Ho & Hsl & Hlt).
  destruct He as [Hn Htok _]. split; simpl.
  - rewrite Hsl, length_insert. apply HI.
  - rewrite Hn. apply HI.
  - apply HI.
  - intros k r1 H1. rewrite Ho in H1. apply lookup_delete_Some in H1 as [Hne H1].
    destruct (inv_record _ HI _ _ H1) as (A1 & A2 & (l1 & A3 & A4) & A5 & A6).
    split_and!; [done|done|by exists l1| |unfold token_told; by rewrite Htok].
    rewrite Hsl, list_lookup_total_insert_ne; [done|]. intros Heq.
    apply Hne. rewrite <- A1, <- A4. congruence.
  - intros m l1 H1. destruct (decide (m = n)) as [->|Hmn].
    + right. simplify_eq. exists (snapshot_of r'). by rewrite Hsl, list_lookup_total_insert_eq by lia.
    + destruct (inv_place _ HI _ _ H1) as [(r1 & H2 & H3 & H4)|(snap & H2)].
      * left. exists r1. split_and!; [|done|done]. rewrite Ho, lookup_delete_ne; [done|].
        intros Heq. rewrite <- Heq in H2. congruence.
      * right. exists snap. rewrite Hsl, list_lookup_total_insert_ne by congruence. done.
  - intros m snap. rewrite Hsl. unfold token_told. rewrite Htok. destruct (decide (m = n)) as [->|Hmn].
    + rewrite list_lookup_total_insert_eq by lia. intros [= <-]. exact Htold.
    + rewrite list_lookup_total_insert_ne by congruence. apply (inv_slot _ HI).
Qed.

Lemma router_eff_release_view m o : view s m = Some o →
  ∃ o', view {| reg := w; issued := issued s |} m = Some o' ∧ rtc op_step o o'.
Proof.
  destruct retired_facts as (r & r' & Hk & Hid & Hrel & _ & _ & _ & Hop & _ & Ho & Hsl & Hlt).
  unfold view; simpl. destruct (issued s !! m) as [l1|] eqn:H1; simpl; [|done].
  destruct (decide (m = n)) as [->|Hmn].
  - simplify_eq. rewrite Hk, bool_decide_eq_true_2 by done. intros [= <-].
    rewrite Ho, lookup_delete_eq. unfold slot_op. rewrite Hsl, list_lookup_total_insert_eq by lia. eauto.
  - assert (slot_op w m = slot_op (reg s) m) as Hs
      by (unfold slot_op; by rewrite Hsl, list_lookup_total_insert_ne by congruence).
    rewrite Ho, Hs, lookup_delete. case_decide as Hd; [|by exists o].
    rewrite <- Hd, Hk. rewrite bool_decide_eq_false_2; [by exists o|].
    rewrite Hid. intros Heq. apply Hmn. eapply (inv_unique _ HI); eauto. congruence.
Qed.
End Retire.

(** ** Reservation *)

Definition reserved_lease (id : string) (w : Registry) : OperationLease :=
  {| lease_identity := {| operation_id := id; sequence := next_sequence w |};
     lease_released := length (slots w) |}.
Definition reserved_record (id : string) (w : Registry) : OperationRecord :=
  {| rec_identity := {| operation_id := id; sequence := next_sequence w |};
     rec_phase := Reserved; rec_cancellation_requested := false; rec_terminal := None;
     rec_released := length (slots w) |}.
Definition reserved (id : string) (w : Registry) : Registry :=
  set_operations (<[id := reserved_record id w]> (operations w))
    (set_slots (slots w ++ [{| slot_poisoned := false; slot_value := None |}])
      (set_next_sequence (next_sequence w + 1) w)).

Lemma router_reserve_cases id (w : Registry) :
  reserve id w =
    if poisoned w then (Err Poisoned, w)
    else if bool_decide (is_Some (operations w !! id)) then (Err Duplicate, w)
    else if u64_max <? next_sequence w + 1 then (Err Exhausted, w)
    else (Ok ({| guard_lease := reserved_lease id w; cancel_on_drop := true |},
              reserved_lease id w), reserved id w).
Proof.
  unfold reserve. sm_unfold. unfold lock. destruct (poisoned w); [done|]; simpl.
  case_bool_decide; simpl; [done|]. unfold checked_add.
  destruct (u64_max <? next_sequence w + 1) eqn:E; bool_prop.
  - by rewrite (proj2 (Z.leb_gt _ _) E).
  - by rewrite (proj2 (Z.leb_le _ _) E).
Qed.

Section Admit.
Context (s : Sys) (id : string) (HI : Inv s) (Hfree : operations (reg s) !! id = None).
#[local] Notation w := (reg s).
Let s' := {| reg := reserved id w; issued := issued s ++ [reserved_lease id w] |}.

Lemma router_admit_slot n : slot_value (slots (reg s') !!! n) = slot_value (slots w !!! n).
Proof.
  simpl. destruct (decide (n < length (slots w))%nat) as [Hn|Hn].
  - by rewrite lookup_total_app_l.
  - assert (slots w !! n = None) as Hnone by (apply lookup_ge_None; lia).
    rewrite !list_lookup_total_alt, Hnone. destruct (decide (n = length (slots w))) as [->|].
    + by rewrite list_lookup_middle.
    + rewrite lookup_ge_None_2; [done|]. rewrite length_app. simpl. lia.
Qed.

Lemma router_admit_issued n l : issued s' !! n = Some l →
  issued s !! n = Some l ∨ n = length (issued s) ∧ l = reserved_lease id w.
Proof. simpl. intros [?|[? ?]]%lookup_snoc_Some; naive_solver. Qed.

Lemma router_admit_inv : Inv s'.
Proof.
  assert (∀ n l, issued s !! n = Some l → sequence (lease_identity l) < next_sequence w) as Hnew
    by (intros n l Hl; apply (inv_issued _ HI _ _ Hl)).
  split.
  - simpl. rewrite !length_app, (inv_len _ HI). done.
  - intros n l [Hl|[-> ->]]%router_admit_issued; simpl.
    + destruct (inv_issued _ HI _ _ Hl) as (? & ?). split; [done|lia].
    + rewrite <- (inv_len _ HI). split; [done|lia].
  - intros n m l l' [Hl|[-> ->]]%router_admit_issued [Hl'|[-> ->]]%router_admit_issued Hs; [|..|done].
    + by eapply (inv_unique _ HI).
    + specialize (Hnew _ _ Hl). simpl in Hs. lia.
    + specialize (Hnew _ _ Hl'). simpl in Hs. lia.
  - intros k r Hk. rewrite router_admit_slot. simpl in Hk. apply lookup_insert_Some in Hk as [[<- <-]|[Hne Hk]].
    + split_and!; [done|split; [done|split; [by intros []|done]]| | |done].
      * exists (reserved_lease id w). split; [|done]. simpl.
        rewrite (inv_len _ HI). by apply list_lookup_middle.
      * simpl. by rewrite list_lookup_total_alt, lookup_ge_None_2.
    + destruct (inv_record _ HI _ _ Hk) as (A1 & A2 & (l1 & A3 & A4) & A5 & A6).
      split_and!; try done. exists l1. split; [|done]. simpl. by apply lookup_app_l_Some.
  - intros n l [Hl|[-> ->]]%router_admit_issued.
    + destruct (inv_place _ HI _ _ Hl) as [(r & Hk & Hid & Hrel)|(snap & Hs)].
      * left. exists r. split_and!; [|done..]. simpl. rewrite lookup_insert_ne; [done|]. intros ->. congruence.
      * right. exists snap. by rewrite router_admit_slot.
    + left. exists (reserved_record id w). simpl. rewrite lookup_insert_eq.
      split_and!; [done|done|apply (inv_len _ HI)].
  - intros n snap. rewrite router_admit_slot. apply (inv_slot _ HI).
Qed.

Lemma router_admit_view n :
  view s' n = if decide (n = length (issued s)) then Some op_initial else view s n.
Proof.
  case_decide as Hn; unfold view.
  - subst n. simpl. rewrite list_lookup_middle by done; simpl.
    by rewrite lookup_insert_eq, bool_decide_eq_true_2.
  - assert (slot_op (reg s') n = slot_op w n) as Hso by (unfold slot_op; by rewrite router_admit_slot).
    simpl. destruct (issued s !! n) as [l|] eqn:Hl; simpl.
    + rewrite lookup_app_l by (by eapply lookup_lt_Some). rewrite Hl; simpl. simpl in Hso. rewrite Hso.
      rewrite lookup_insert. case_decide as Hid; [|done].
      rewrite <- Hid, Hfree. rewrite bool_decide_eq_false_2; [done|].
      simpl. intros Heq. apply (f_equal sequence) in Heq. simpl in Heq.
      destruct (inv_issued _ HI _ _ Hl) as (_ & Hlt). lia.
    + rewrite lookup_ge_None_2; [done|]. apply lookup_ge_None in Hl.
      rewrite length_app; simpl. lia.
Qed.
End Admit.

(** ** Every call preserves the invariant and moves operations along *)

Inductive effect (s : Sys) : Sys → Prop :=
| effect_records w : eff_records (reg s) w → effect s {| reg := w; issued := issued s |}
| effect_release n l w : issued s !! n = Some l → eff_release l (reg s) w →
    effect s {| reg := w; issued := issued s |}
| effect_admit id : operations (reg s) !! id = None →
    effect s {| reg := reserved id (reg s); issued := issued s ++ [reserved_lease id (reg s)] |}.

Lemma router_effect_id s : effect s s.
Proof. destruct s as [w ls]. by apply (effect_records {| reg := w; issued := ls |}), eff_records_refl. Qed.

Lemma router_with_lease_effect n f s :
  (∀ l, eff_records (reg s) (f l (reg s)) ∨ eff_release l (reg s) (f l (reg s))) →
  effect s (with_lease n f s).
Proof.
  intros Hf. unfold with_lease. destruct (issued s !! n) as [l|] eqn:Hl; [|apply router_effect_id].
  destruct (Hf l); [by apply effect_records|by eapply effect_release].
Qed.

Lemma router_run_call_effect c s : effect s (run_call c s).
Proof.
  destruct c; simpl; try (apply router_with_lease_effect; intros lease); try apply effect_records.
  - rewrite router_reserve_cases. destruct (poisoned (reg s)); [by apply effect_records, eff_records_refl|].
    case_bool_decide as Hd; [by apply effect_records, eff_records_refl|]. destruct (u64_max <? _); [by apply effect_records, eff_records_refl|].
    apply eq_None_not_Some in Hd. by apply effect_admit.
  - left. apply router_transition_effect. by left.
  - left. apply router_transition_effect. by right.
  - left. apply router_terminal_effect.
  - left. apply publication_effect.
  - apply terminal_and_release_effect.
  - apply router_release_effect.
  - left. apply router_request_cancel_effect.
  - apply router_request_cancel_all_effect.
  - apply cancel_records_effect.
  - left. unfold guard_drop. simpl. destruct armed; [apply router_request_cancel_effect|apply eff_records_refl].
  - apply router_eff_records_same; try done. intros n Hn. by apply cancel_keeps.
  - apply router_eff_records_same; try done. by intros n.
  - apply router_poison_slot_effect.
Qed.

Lemma router_effect_inv s s' : Inv s → effect s s' → Inv s'.
Proof.
  intros HI [w He|n l w Hl He|id Hn].
  - by apply router_eff_records_inv.
  - by eapply router_eff_release_inv.
  - by apply router_admit_inv.
Qed.

Lemma router_view_is_Some s n : Inv s → is_Some (view s n) ↔ is_Some (issued s !! n).
Proof.
  intros HI. unfold view. destruct (issued s !! n) as [l|] eqn:Hl; simpl; [|done].
  split; [by eexists|]. intros _.
  destruct (inv_place _ HI _ _ Hl) as [(r & -> & Hid & _)|(snap & Hs & _)].
  - rewrite bool_decide_eq_true_2 by done. by eexists.
  - unfold slot_op. rewrite Hs. destruct (operations _ !! _); [case_bool_decide|]; by eexists.
Qed.

Lemma router_effect_view s s' n o :
  Inv s → effect s s' → view s n = Some o → ∃ o', view s' n = Some o' ∧ rtc op_step o o'.
Proof.
  intros HI [w He|m l w Hl He|id Hn] Hv.
  - by eapply router_eff_records_view.
  - by eapply router_eff_release_view.
  - rewrite router_admit_view by done. case_decide; [|by exists o]. subst n.
    assert (is_Some (view s (length (issued s)))) as Hs by by eexists.
    apply (router_view_is_Some _ _ HI), lookup_lt_is_Some in Hs. lia.
Qed.

Lemma router_effect_fresh s s' n o :
  Inv s → effect s s' → view s n = None → view s' n = Some o → o = op_initial.
Proof.
  intros HI He Hn Hv. pose proof (router_effect_inv _ _ HI He) as HI'.
  assert (¬ is_Some (issued s !! n)) as Hi.
  { intros Hi. apply (router_view_is_Some _ _ HI) in Hi as [? ?]. congruence. }
  destruct He as [w He|m l w Hl He|id Hf].
  1-2: exfalso; apply Hi; apply (router_view_is_Some _ _ HI'); by eexists.
  rewrite router_admit_view in Hv by done. case_decide; congruence.
Qed.

Lemma router_initial_inv next : Inv (initial next).
Proof. split; simpl; done. Qed.

#[export] Instance router_owner : OperationOwner Sys nat.
Proof.
  refine {| owner_inv := Inv; owner_step := call_step; owner_view := view |}.
  - intros s s' HI (c & ->). eapply router_effect_inv; [done|by apply router_run_call_effect].
  - intros s s' n o HI (c & ->). eapply router_effect_view; [done|by apply router_run_call_effect].
  - intros s s' n o HI (c & ->). eapply router_effect_fresh; [done|by apply router_run_call_effect].
Defined.

Lemma router_reachable_inv next s : rtc call_step (initial next) s → Inv s.
Proof. exact (@owner_run_inv Sys nat router_owner _ _ (router_initial_inv next)). Qed.

(** ** Theorems *)

Lemma router_call_step_issued s s' : call_step s s' → issued s `prefix_of` issued s'.
Proof.
  intros (c & ->). destruct c; simpl; unfold with_lease;
    try (destruct (issued s !! n); done); try done.
  rewrite router_reserve_cases. repeat case_match; simplify_eq/=; try done. by apply prefix_app_r.
Qed.

Lemma router_run_issued s s' n l :
  rtc call_step s s' → issued s !! n = Some l → issued s' !! n = Some l.
Proof.
  intros Hrun Hl. assert (issued s `prefix_of` issued s') as Hp.
  { clear Hl. induction Hrun; [done|]. etrans; [by apply router_call_step_issued|done]. }
  by eapply prefix_lookup_Some.
Qed.

(** What [OperationLease::snapshot] shows is the operation behind the lease. *)
Lemma router_lease_snapshot_view s n l snap :
  Inv s → issued s !! n = Some l → fst (lease_snapshot l (reg s)) = Ok (Some snap) →
  view s n = Some (snap_op snap) ∧ snap_identity snap = lease_identity l ∧
  token_told (reg s) n (snap_cancellation_requested snap).
Proof.
  intros HI Hl. unfold lease_snapshot, view. rewrite Hl. run_method; [done|].
  destruct (inv_issued _ HI _ _ Hl) as (Hrel & _).
  destruct (operations (reg s) !! operation_id (lease_identity l)) as [r|] eqn:Hk; simpl.
  - case_bool_decide as Hid; simpl; intros Hs; simplify_eq.
    pose proof (router_live_index _ _ _ _ _ HI Hl Hk Hid) as Hn.
    destruct (inv_record _ HI _ _ Hk) as (_ & _ & _ & _ & Htok). rewrite Hn in Htok. done.
  - run_method; [done|]. intros Hv. simplify_eq. unfold slot_op. rewrite Hv. split; [done|].
    split; [|by apply (inv_slot _ HI)].
    destruct (inv_place _ HI _ _ Hl) as [(r & ? & _)|(snap' & ? & ? & _)]; congruence.
Qed.

(** Two snapshots of one lease of the router, taken at any two moments of any
    run of calls by any clients (panics inside critical sections included), show
    the same identity, and the later operation is reached from the earlier one, and
    the earlier one from a fresh reservation, by steps of the lifecycle. *)
Theorem router_snapshots_follow_lifecycle next s s' n l snap snap' :
  rtc call_step (initial next) s → rtc call_step s s' → issued s !! n = Some l →
  fst (lease_snapshot l (reg s)) = Ok (Some snap) →
  fst (lease_snapshot l (reg s')) = Ok (Some snap') →
  snap_identity snap' = snap_identity snap ∧
  rtc op_step op_initial (snap_op snap) ∧
  rtc op_step (snap_op snap) (snap_op snap') ∧
  op_le (snap_op snap) (snap_op snap').
Proof.
  intros Hr1 Hr2 Hl Hs Hs'. pose proof (router_initial_inv next) as H0'.
  pose proof (router_reachable_inv _ _ Hr1) as HI.
  pose proof (@owner_run_inv Sys nat router_owner _ _ HI Hr2) as HI'.
  destruct (router_lease_snapshot_view _ _ _ _ HI Hl Hs) as (Hv & Hid & _).
  destruct (router_lease_snapshot_view _ _ _ _ HI' (router_run_issued _ _ _ _ Hr2 Hl) Hs') as (Hv' & Hid' & _).
  destruct (@owner_run_view Sys nat router_owner s s' n _ HI Hr2 Hv) as (o & Ho & Hsteps).
  simpl in Ho. rewrite Hv' in Ho. simplify_eq. split_and!; [congruence| |done|by apply op_steps_le].
  by apply (@owner_run_fresh Sys nat router_owner (initial next) s n).
Qed.

Definition released_as (l : OperationLease) (c : bool) (t : TerminalClass) : OperationSnapshot :=
  {| snap_identity := lease_identity l; snap_phase := Released;
     snap_cancellation_requested := c; snap_terminal := Some t |}.

(** The snapshot of a lease whose slot has been filled. *)
Lemma lease_snapshot_released (w : Registry) l snap :
  poisoned w = false → operations w !! operation_id (lease_identity l) = None →
  slots w !! lease_released l = Some {| slot_poisoned := false; slot_value := Some snap |} →
  fst (lease_snapshot l w) = Ok (Some snap).
Proof.
  intros Hp Hn Hs. unfold lease_snapshot, lock, released_lock. sm_unfold. rewrite Hp, Hn.
  by rewrite (list_lookup_total_correct _ _ _ Hs).
Qed.

(** [terminal_and_release] is one transaction. It succeeds exactly on a live
    operation that is Running, or Queued with a result other than Completed; then
    the operation leaves the registry and every clone of the lease sees it Released
    with that result. Otherwise nothing changes, and the error states the cause. And
    when [terminal_for_publication] succeeds, a [release] right after the
    publication succeeds too. *)
Theorem router_terminal_and_release_exact next s n l t :
  rtc call_step (initial next) s → issued s !! n = Some l →
  let w := reg s in
  let live r := operations w !! operation_id (lease_identity l) = Some r ∧
                rec_identity r = lease_identity l in
  let may r := rec_phase r = Running ∨ rec_phase r = Queued ∧ t ≠ Completed in
  match terminal_and_release l t w with
  | (Ok _, w') => ∃ r, live r ∧ may r ∧
      operations w' = delete (operation_id (lease_identity l)) (operations w) ∧
      fst (lease_snapshot l w') = Ok (Some (released_as l (rec_cancellation_requested r) t))
  | (Err e, w') => w' = w ∧
      match e with
      | Poisoned => poisoned w = true ∨ slot_poisoned (slots w !!! n) = true
      | Stale => ∀ r, ¬ live r
      | InvalidTransition => ∃ r, live r ∧ ¬ may r
      | _ => False
      end
  end ∧
  ∀ w1, terminal_for_publication l t w = (Ok tt, w1) →
    ∃ w2 c, release l w1 = (Ok tt, w2) ∧ fst (lease_snapshot l w2) = Ok (Some (released_as l c t)).
Proof.
  intros Hrun Hl w live may. subst w live may. pose proof (router_reachable_inv _ _ Hrun) as HI.
  destruct (inv_issued _ HI _ _ Hl) as [Hrel _].
  assert (n < length (slots (reg s)))%nat as Hlt by (rewrite (inv_len _ HI); by eapply lookup_lt_Some).
  split.
  - unfold terminal_and_release. run_method.
    + auto.
    + rewrite Hrel in Hb0. auto.
    + split; [done|]. apply not_false_iff_true in Hb1. exists a. split; [done|]. intros Hmay. apply Hb1.
      apply release_guard. split; [done|]. apply eq_None_not_Some.
      destruct (inv_record _ HI _ _ H1) as (_ & [_ Hwf] & _). rewrite Hwf. destruct Hmay as [Hp|[Hp _]]; rewrite Hp; done.
    + apply release_guard in Hb1 as [Hp _]. exists a. split_and!; try done.
      apply lease_snapshot_released; simpl; [done|apply lookup_delete_eq|].
      rewrite list_lookup_insert_eq by lia. unfold released_as, snapshot_of. simpl. by rewrite H2.
    + rewrite Hrel in Hb0. auto.
    + assert (e = Stale) as ->.
      { unfold record_mut in Hrec. sm_unfold. destruct (operations _ !! _); simpl in Hrec; [|congruence].
        by case_bool_decide; simplify_eq/=. }
      split; [done|]. intros r Hr. apply router_record_mut_Ok in Hr. congruence.
  - intros w1. unfold terminal_for_publication. run_method; try done. intros [= <-].
    unfold release, lock, released_lock, record_mut, write_record, remove_record, store_released. sm_unfold.
    rewrite Hb. simpl. rewrite Hb0. simpl. rewrite lookup_insert_eq. simpl.
    rewrite (bool_decide_eq_false_2 (rec_identity a ≠ _)) by auto. simpl.
    eexists _, _. split; [reflexivity|]. apply lease_snapshot_released; simpl; [done|apply lookup_delete_eq|].
    rewrite list_lookup_insert_eq by lia. unfold released_as, snapshot_of. simpl. by rewrite H2.
Qed.

(** Cancellation reaches the work. In any run, whenever a snapshot of a lease
    shows that cancellation was requested, its token is cancelled; and the shutdown
    path names and cancels every admitted operation, its record and its token, even
    when the registry is poisoned, which it reports. *)
Theorem router_cancellation_reaches_tokens next s n l :
  rtc call_step (initial next) s → issued s !! n = Some l →
  (∀ snap, fst (lease_snapshot l (reg s)) = Ok (Some snap) →
     snap_cancellation_requested snap = true → token_is_cancelled (tokens (reg s)) n = true) ∧
  let '((ids, e), w') := request_cancel_all_for_shutdown (reg s) in
  e = (if poisoned (reg s) then Some Poisoned else None) ∧
  ids ≡ₚ elements (dom (operations (reg s))) ∧
  (∀ k, operations w' !! k = set_cancelled <$> operations (reg s) !! k) ∧
  (∀ k r, operations (reg s) !! k = Some r → token_is_cancelled (tokens w') (rec_released r) = true).
Proof.
  intros Hrun Hl. pose proof (router_reachable_inv _ _ Hrun) as HI. split.
  - intros snap Hs. by apply (router_lease_snapshot_view _ _ _ _ HI Hl Hs).
  - simpl. split_and!; [done|apply sorted_strings_perm|intros k; apply lookup_fmap|].
    intros k r Hk. apply cancel_records_tokens. right. exists r. split; [|done].
    apply list_elem_of_fmap. exists (k, r). split; [done|]. by apply elem_of_map_to_list.
Qed.
End Effects.

(** ** Witnesses *)

(** Tokens as the set of the cancelled ones. *)
#[export] Instance gset_tokens : CancellationTokens (gset loc) := {
  tokens_new := ∅;
  token_cancel n t := {[n]} ∪ t;
  token_is_cancelled t n := bool_decide (n ∈ t);
}.
#[export] Instance gset_tokens_laws : CancellationLaws (gset loc).
Proof.
  split; simpl.
  - intros n t. apply bool_decide_eq_true. set_solver.
  - intros n t m. rewrite !bool_decide_eq_true. set_solver.
Qed.

Definition run_calls (cs : list Call) (s : Sys (gset loc)) : Sys (gset loc) :=
  foldl (λ s c, run_call c s) s cs.
Lemma router_run_calls_rtc cs s : rtc call_step s (run_calls cs s).
Proof.
  revert s. induction cs as [|c cs IH]; intros s; [done|]. eapply rtc_l; [by exists c|apply IH].
Qed.

Definition demo_start : Sys (gset loc) := initial 1.
Definition demo_running : Sys (gset loc) := run_calls [CReserve "a"; CQueue 0; CStart 0; CCancel 0] demo_start.
Definition demo_released : Sys (gset loc) := run_calls [CTerminalRelease 0 Failed] demo_running.
Definition demo_lease : OperationLease :=
  {| lease_identity := {| operation_id := "a"; sequence := 1 |}; lease_released := 0%nat |}.
Definition demo_snapshot (p : OperationPhase) (t : option TerminalClass) : OperationSnapshot :=
  {| snap_identity := lease_identity demo_lease; snap_phase := p;
     snap_cancellation_requested := true; snap_terminal := t |}.

Lemma router_snapshots_follow_lifecycle_witness :
  op_le (snap_op (demo_snapshot Running None)) (snap_op (demo_snapshot Released (Some Failed))).
Proof.
  eapply (router_snapshots_follow_lifecycle 1 demo_running demo_released 0 demo_lease).
  - apply router_run_calls_rtc.
  - apply router_run_calls_rtc.
  - vm_compute. reflexivity.
  - vm_compute. reflexivity.
  - vm_compute. reflexivity.
Defined.

Lemma router_terminal_and_release_exact_witness :
  (∃ r, rec_identity r = lease_identity demo_lease ∧
    fst (lease_snapshot demo_lease (terminal_and_release demo_lease Completed (reg demo_running)).2) =
      Ok (Some (released_as demo_lease (rec_cancellation_requested r) Completed))) ∧
  ∃ w1 w2, terminal_for_publication demo_lease Cancelled (reg demo_running) = (Ok tt, w1) ∧
    release demo_lease w1 = (Ok tt, w2).
Proof.
  split.
  - destruct (router_terminal_and_release_exact 1 demo_running 0 demo_lease Completed
      ltac:(apply router_run_calls_rtc) ltac:(vm_compute; reflexivity)) as [H _].
    eassert (terminal_and_release demo_lease Completed (reg demo_running) = (Ok tt, _)) as Hr
      by (vm_compute; reflexivity).
    rewrite Hr in H |- *. destruct H as (r & (_ & Hid) & _ & _ & Hs). exists r. split; [exact Hid|exact Hs].
  - destruct (router_terminal_and_release_exact 1 demo_running 0 demo_lease Cancelled
      ltac:(apply router_run_calls_rtc) ltac:(vm_compute; reflexivity)) as [_ H].
    eassert (terminal_for_publication demo_lease Cancelled (reg demo_running) = (Ok tt, _)) as Hr
      by (vm_compute; reflexivity).
    destruct (H _ Hr) as (w2 & c & Hrel & _). eexists _, w2. split; [exact Hr|exact Hrel].
Defined.

Lemma router_cancellation_reaches_tokens_witness :
  token_is_cancelled (tokens (reg demo_released)) 0 = true.
Proof.
  apply (router_cancellation_reaches_tokens 1 demo_released 0 demo_lease) with
    (snap := demo_snapshot Released (Some Failed)).
  - apply (router_run_calls_rtc [CReserve "a"; CQueue 0; CStart 0; CCancel 0; CTerminalRelease 0 Failed]).
  - vm_compute. reflexivity.
  - vm_compute. reflexivity.
  - reflexivity.
Defined.
