(* ===== verification/GenerationSupervisor.v ===== *)
(** * GenerationSupervisor: the operations and attempts of loom-host

    Models [loom-host/src/generation_supervisor.rs]. The state is behind one mutex
    and every lease has a [OnceLock] for the released snapshot; the cancellation of
    an operation and of each of its attempts is a [RunControl], the workers are a
    [WorkerLedger] (both of Lifecycle.v). Each method is one critical section;
    locations name the [OnceLock]s. *)

From S2P Require Import Prelude Text Lifecycle OperationSpec.
Local Open Scope Z_scope.

Notation loc := nat.

Definition COMPLETED_WORKER_HISTORY : nat := 256.

Inductive GenerationSupervisorPhase := SRunning | Quiescing | Closed.
#[export] Instance GenerationSupervisorPhase_eq_dec : EqDecision GenerationSupervisorPhase.
Proof. solve_decision. Defined.

(** [owner] is the [InstanceId], compared by address. *)
Record GenerationAttemptIdentity := {
  owner : loc; operation_id : text; attempt_id : text; sequence : Z
}.
#[export] Instance GenerationAttemptIdentity_eq_dec : EqDecision GenerationAttemptIdentity.
Proof. solve_decision. Defined.

Record GenerationTerminalRecord := { term_identity : GenerationAttemptIdentity; class : TerminalClass }.

Record GenerationOperationSnapshot := {
  snap_identity : GenerationAttemptIdentity;
  snap_phase : OperationPhase;
  snap_cancellation_requested : bool;
  authoritative_terminal : option GenerationTerminalRecord;
  final_projection : option GenerationTerminalRecord;
  progress_projection : list Z;
}.

Record GenerationSupervisorClosedFacts := {
  lifecycle : GenerationSupervisorPhase;
  active_operations : nat;
  retained_tasks : nat;
  expected_workers : gset Z;
  joined_workers : gset Z;
}.

Record GenerationOperationLease := { lease_identity : GenerationAttemptIdentity; lease_released : loc }.

Record SupervisedAttempt := { att_identity : GenerationAttemptIdentity; att_control : Z }.

Record SupervisedOperation := {
  released : loc;
  current : GenerationAttemptIdentity;
  phase : OperationPhase;
  control : Z;
  op_result : option GenerationTerminalRecord;
  progress : list Z;
  attempts : gmap Z SupervisedAttempt;
}.

(** The fields of the inner state, with the [OnceLock]s and the poison flag of the mutex. *)
Record Supervisor := {
  identity : loc;
  sup_phase : GenerationSupervisorPhase;
  next_sequence : Z;
  operations : gmap text SupervisedOperation;
  workers : WorkerLedger.Ledger (K:=Z);
  canonical_close : option GenerationSupervisorClosedFacts;
  progress_capacity : nat;
  slots : list (option GenerationOperationSnapshot);
  poisoned : bool;
}.

Inductive GenerationSupervisorError :=
| InvalidProgressCapacity
| EmptyOperationId
| NotAccepting
| DuplicateOperation (id : text)
| SequenceExhausted
| InvalidTransition
| StaleLease
| AttemptsActive
| NotDrained
| DuplicateWorker (w : Z)
| UnknownWorker (w : Z)
| SupervisorClosed
| Poisoned.

Definition M : Type → Type := SM Supervisor GenerationSupervisorError.

(** *** Updates *)

Definition set_operations (ops : gmap text SupervisedOperation) (s : Supervisor) : Supervisor :=
  {| identity := identity s; sup_phase := sup_phase s; next_sequence := next_sequence s; operations := ops;
     workers := workers s; canonical_close := canonical_close s; progress_capacity := progress_capacity s;
     slots := slots s; poisoned := poisoned s |}.
Definition set_next_sequence (n : Z) (s : Supervisor) : Supervisor :=
  {| identity := identity s; sup_phase := sup_phase s; next_sequence := n; operations := operations s;
     workers := workers s; canonical_close := canonical_close s; progress_capacity := progress_capacity s;
     slots := slots s; poisoned := poisoned s |}.
Definition set_slots (sl : list (option GenerationOperationSnapshot)) (s : Supervisor) : Supervisor :=
  {| identity := identity s; sup_phase := sup_phase s; next_sequence := next_sequence s; operations := operations s;
     workers := workers s; canonical_close := canonical_close s; progress_capacity := progress_capacity s;
     slots := sl; poisoned := poisoned s |}.
Definition set_sup_phase (p : GenerationSupervisorPhase) (s : Supervisor) : Supervisor :=
  {| identity := identity s; sup_phase := p; next_sequence := next_sequence s; operations := operations s;
     workers := workers s; canonical_close := canonical_close s; progress_capacity := progress_capacity s;
     slots := slots s; poisoned := poisoned s |}.
Definition set_workers (w : WorkerLedger.Ledger (K:=Z)) (s : Supervisor) : Supervisor :=
  {| identity := identity s; sup_phase := sup_phase s; next_sequence := next_sequence s; operations := operations s;
     workers := w; canonical_close := canonical_close s; progress_capacity := progress_capacity s;
     slots := slots s; poisoned := poisoned s |}.
Definition set_canonical_close (c : option GenerationSupervisorClosedFacts) (s : Supervisor) : Supervisor :=
  {| identity := identity s; sup_phase := sup_phase s; next_sequence := next_sequence s; operations := operations s;
     workers := workers s; canonical_close := c; progress_capacity := progress_capacity s;
     slots := slots s; poisoned := poisoned s |}.

Definition set_phase (p : OperationPhase) (o : SupervisedOperation) : SupervisedOperation :=
  {| released := released o; current := current o; phase := p; control := control o;
     op_result := op_result o; progress := progress o; attempts := attempts o |}.
Definition set_control (c : Z) (o : SupervisedOperation) : SupervisedOperation :=
  {| released := released o; current := current o; phase := phase o; control := c;
     op_result := op_result o; progress := progress o; attempts := attempts o |}.
Definition set_result (t : GenerationTerminalRecord) (o : SupervisedOperation) : SupervisedOperation :=
  {| released := released o; current := current o; phase := phase o; control := control o;
     op_result := Some t; progress := progress o; attempts := attempts o |}.
Definition set_progress (l : list Z) (o : SupervisedOperation) : SupervisedOperation :=
  {| released := released o; current := current o; phase := phase o; control := control o;
     op_result := op_result o; progress := l; attempts := attempts o |}.
Definition set_attempts (m : gmap Z SupervisedAttempt) (o : SupervisedOperation) : SupervisedOperation :=
  {| released := released o; current := current o; phase := phase o; control := control o;
     op_result := op_result o; progress := progress o; attempts := m |}.

(** ** The free functions *)

Definition lock : M Supervisor := λ s, if poisoned s then (Err Poisoned, s) else (Ok s, s).

Definition snapshot_for (o : SupervisedOperation) (p : OperationPhase) : GenerationOperationSnapshot :=
  {| snap_identity := current o; snap_phase := p;
     snap_cancellation_requested := RunControl.cancellation_requested (control o);
     authoritative_terminal := op_result o; final_projection := op_result o;
     progress_projection := progress o |}.

Definition allocate_identity (id : text) : M GenerationAttemptIdentity :=
  state ← sm_get ;
  let sequence := next_sequence state in
  next ← sm_lift (ok_or (checked_add u64_max sequence 1) SequenceExhausted) ;
  sm_modify (set_next_sequence next) ;;
  mret {| owner := identity state; operation_id := id;
          attempt_id := id ++ str ":" ++ str (pretty sequence); sequence := sequence |}.

(** [current_operation] and [current_operation_mut] *)
Definition current_operation (s : Supervisor) (id : GenerationAttemptIdentity) :
    result GenerationSupervisorError SupervisedOperation :=
  o ← ok_or (operations s !! operation_id id) StaleLease ;
  reject_if (bool_decide (current o ≠ id)) StaleLease ;;
  mret o.

(** [claim_terminal] returns after at most three accesses when it runs alone. *)
Definition claim_terminal_class (cell : Z) (t : TerminalClass) :
    result GenerationSupervisorError (TerminalClass * Z) :=
  match RunControl.claim_terminal 3 cell RunControl.ClaimLoad with
  | Some (Some claim, cell') =>
    Ok (if RunControl.claim_cancellation_requested claim && bool_decide (t = Completed) then Cancelled else t, cell')
  | _ => Err InvalidTransition
  end.

Definition closed_facts_of (s : Supervisor) : GenerationSupervisorClosedFacts :=
  {| lifecycle := sup_phase s; active_operations := size (operations s);
     retained_tasks := WorkerLedger.outstanding_count (workers s);
     expected_workers := WorkerLedger.expected (workers s); joined_workers := WorkerLedger.joined (workers s) |}.

Definition write_operation (id : text) (o : SupervisedOperation) : M unit :=
  sm_modify (λ s, set_operations (<[id := o]> (operations s)) s).

(** [OnceLock::set], which keeps an earlier value. *)
Definition once_set (l : loc) (snap : GenerationOperationSnapshot) : M unit :=
  sm_modify (λ s, set_slots (alter (λ v, match v with None => Some snap | Some _ => v end) l (slots s)) s).
(** [Arc::new(OnceLock::new())] *)
Definition once_new : M loc :=
  s ← sm_get ; sm_modify (λ s, set_slots (slots s ++ [None]) s) ;; mret (length (slots s)).

(** The removal from the map and the snapshot left in the [OnceLock]. *)
Definition remove_released (lease : GenerationOperationLease) : M unit :=
  s ← sm_get ;
  o ← sm_lift (ok_or (operations s !! operation_id (lease_identity lease)) StaleLease) ;
  sm_modify (λ s, set_operations (delete (operation_id (lease_identity lease)) (operations s)) s) ;;
  once_set (released o) (snapshot_for o Released).

Definition terminal_and_release_locked (lease : GenerationOperationLease) (t : TerminalClass) : M unit :=
  s ← sm_get ;
  o ← sm_lift (current_operation s (lease_identity lease)) ;
  '(t, cell) ← sm_lift (claim_terminal_class (control o) t) ;
  let o := set_phase Terminal (set_result {| term_identity := lease_identity lease; class := t |} (set_control cell o)) in
  write_operation (operation_id (lease_identity lease)) o ;;
  remove_released lease.

(** ** The methods of the supervisor *)

Definition with_next_sequence (inst : loc) (capacity : nat) (next : Z) : result GenerationSupervisorError Supervisor :=
  reject_if (bool_decide (capacity = 0%nat)) InvalidProgressCapacity ;;
  mret {| identity := inst; sup_phase := SRunning; next_sequence := next; operations := ∅;
          workers := WorkerLedger.new COMPLETED_WORKER_HISTORY; canonical_close := None;
          progress_capacity := capacity; slots := []; poisoned := false |}.
Definition new (inst : loc) (capacity : nat) := with_next_sequence inst capacity 1.

(** [alive]: whether the [Weak] reference upgrades, which it does while a supervisor exists. *)
Record GenerationConsumerTicket := { ticket_identity : GenerationAttemptIdentity; armed : bool }.

Definition reserve (id : text) : M (GenerationConsumerTicket * GenerationOperationLease) :=
  sm_reject_if (bool_decide (trim id = [])) EmptyOperationId ;;
  state ← lock ;
  sm_reject_if (bool_decide (sup_phase state ≠ SRunning)) NotAccepting ;;
  sm_reject_if (bool_decide (is_Some (operations state !! id))) (DuplicateOperation id) ;;
  ident ← allocate_identity id ;
  rel ← once_new ;
  write_operation id {| released := rel; current := ident; phase := Reserved; control := RunControl.new false;
                        op_result := None; progress := []; attempts := ∅ |} ;;
  mret ({| ticket_identity := ident; armed := true |}, {| lease_identity := ident; lease_released := rel |}).

Definition transition (lease : GenerationOperationLease) (from to : OperationPhase) : M unit :=
  state ← lock ;
  o ← sm_lift (current_operation state (lease_identity lease)) ;
  sm_reject_if (bool_decide (phase o ≠ from)) InvalidTransition ;;
  write_operation (operation_id (lease_identity lease)) (set_phase to o).

Definition queue (lease : GenerationOperationLease) : M unit := transition lease Reserved Queued.
Definition start (lease : GenerationOperationLease) : M unit := transition lease Queued Running.

Definition terminal (lease : GenerationOperationLease) (t : TerminalClass) : M unit :=
  state ← lock ;
  o ← sm_lift (current_operation state (lease_identity lease)) ;
  sm_reject_if (bool_decide (phase o ≠ Running) || bool_decide (is_Some (op_result o))) InvalidTransition ;;
  sm_reject_if (negb (bool_decide (attempts o = ∅))) AttemptsActive ;;
  '(t, cell) ← sm_lift (claim_terminal_class (control o) t) ;
  write_operation (operation_id (lease_identity lease))
    (set_phase Terminal (set_result {| term_identity := lease_identity lease; class := t |} (set_control cell o))).

Definition release (lease : GenerationOperationLease) : M unit :=
  state ← lock ;
  o ← sm_lift (current_operation state (lease_identity lease)) ;
  sm_reject_if (bool_decide (phase o ≠ Terminal)) InvalidTransition ;;
  sm_reject_if (negb (bool_decide (attempts o = ∅))) AttemptsActive ;;
  remove_released lease.

Definition terminal_and_release (lease : GenerationOperationLease) (t : TerminalClass) : M unit :=
  state ← lock ;
  o ← sm_lift (current_operation state (lease_identity lease)) ;
  sm_reject_if (bool_decide (phase o ≠ Running) || bool_decide (is_Some (op_result o))) InvalidTransition ;;
  sm_reject_if (negb (bool_decide (attempts o = ∅))) AttemptsActive ;;
  terminal_and_release_locked lease t.

Definition fail_and_release (lease : GenerationOperationLease) : M unit :=
  state ← lock ;
  o ← sm_lift (current_operation state (lease_identity lease)) ;
  sm_reject_if (negb (bool_decide (phase o = Reserved) || bool_decide (phase o = Queued) || bool_decide (phase o = Running))
                || bool_decide (is_Some (op_result o))) InvalidTransition ;;
  sm_reject_if (negb (bool_decide (attempts o = ∅))) AttemptsActive ;;
  terminal_and_release_locked lease Failed.

Definition cancel_attempt (a : SupervisedAttempt) : SupervisedAttempt :=
  {| att_identity := att_identity a; att_control := (RunControl.request_cancel (att_control a)).2 |}.
(** The cancellation of an operation and of its attempts. *)
Definition cancel_operation (o : SupervisedOperation) : SupervisedOperation :=
  set_attempts (cancel_attempt <$> attempts o) (set_control (RunControl.request_cancel (control o)).2 o).

Definition request_cancel (id : GenerationAttemptIdentity) : M unit :=
  state ← lock ;
  o ← sm_lift (current_operation state id) ;
  write_operation (operation_id id) (cancel_operation o).

(** The ticket's own request, cancellation and [Drop]. *)
Definition ticket_request_cancel (alive : bool) (t : GenerationConsumerTicket) : M unit :=
  sm_reject_if (negb alive) SupervisorClosed ;; request_cancel (ticket_identity t).
Definition ticket_detach (t : GenerationConsumerTicket) : GenerationConsumerTicket :=
  {| ticket_identity := ticket_identity t; armed := false |}.
Definition ticket_drop (alive : bool) (t : GenerationConsumerTicket) (s : Supervisor) : Supervisor :=
  if armed t then (ticket_request_cancel alive t s).2 else s.
(** [cancel] consumes the ticket, which stays armed when the request fails. *)
Definition ticket_cancel (alive : bool) (t : GenerationConsumerTicket) : M unit := λ s,
  match ticket_request_cancel alive t s with
  | (Ok _, s') => (Ok tt, ticket_drop alive (ticket_detach t) s')
  | (Err e, s') => (Err e, ticket_drop alive t s')
  end.

Definition publish_progress (lease : GenerationOperationLease) (seq : Z) : M unit :=
  state ← lock ;
  o ← sm_lift (current_operation state (lease_identity lease)) ;
  sm_reject_if (bool_decide (phase o ≠ Running)) InvalidTransition ;;
  let kept := if bool_decide (length (progress o) = progress_capacity state) then tail (progress o) else progress o in
  write_operation (operation_id (lease_identity lease)) (set_progress (kept ++ [seq]) o).

Definition snapshot (lease : GenerationOperationLease) : M (option GenerationOperationSnapshot) :=
  state ← lock ;
  mret (match current_operation state (lease_identity lease) with
        | Ok o => Some (snapshot_for o (phase o))
        | Err _ => mjoin (slots state !! lease_released lease)
        end).

Definition current_snapshot (id : text) : M (option GenerationOperationSnapshot) :=
  state ← lock ; mret ((λ o, snapshot_for o (phase o)) <$> operations state !! id).

Definition current_lease (id : text) : M (option GenerationOperationLease) :=
  state ← lock ;
  mret ((λ o, {| lease_identity := current o; lease_released := released o |}) <$> operations state !! id).

Definition cancellation_requested (lease : GenerationOperationLease) : M bool :=
  snap ← snapshot lease ; mret (from_option snap_cancellation_requested false snap).

(** [wait_released] over the states it sees: at its start and whenever the condition
    variable wakes it, [timed] when by a timeout, [expired] when no time remains.
    [None]: it still waits. *)
Record Turn := { turn_state : Supervisor; timed : bool; expired : bool }.
Fixpoint wait_released (lease : GenerationOperationLease) (turns : list Turn) :
    option (result GenerationSupervisorError (option GenerationOperationSnapshot)) :=
  match turns with
  | [] => None
  | t :: turns =>
    if poisoned (turn_state t) then Some (Err Poisoned)
    else match mjoin (slots (turn_state t) !! lease_released lease) with
    | Some snap => Some (Ok (Some snap))
    | None =>
      if timed t then Some (Ok None)
      else match current_operation (turn_state t) (lease_identity lease) with
      | Err e => Some (Err e)
      | Ok _ => if expired t then Some (Ok None) else wait_released lease turns
      end
    end
  end.

Definition active_count : M nat := state ← lock ; mret (size (operations state)).
Definition supervisor_phase : M GenerationSupervisorPhase := state ← lock ; mret (sup_phase state).

Definition quiesce : M unit :=
  state ← lock ;
  sm_modify (λ s, if bool_decide (sup_phase s = SRunning) then set_sup_phase Quiescing s else s) ;;
  sm_modify (λ s, set_operations (cancel_operation <$> operations s) s).

Definition resume : M unit :=
  state ← lock ;
  sm_reject_if (bool_decide (sup_phase state = Closed)) SupervisorClosed ;;
  sm_modify (λ s, set_canonical_close None (set_sup_phase SRunning s)).

Definition close : M GenerationSupervisorClosedFacts :=
  state ← lock ;
  match canonical_close state with
  | Some closed => mret closed
  | None =>
    sm_reject_if (negb (bool_decide (operations state = ∅))
                  || negb (bool_decide (WorkerLedger.outstanding_count (workers state) = 0%nat))) NotDrained ;;
    sm_modify (set_sup_phase Closed) ;;
    state ← sm_get ;
    let closed := closed_facts_of state in
    sm_modify (set_canonical_close (Some closed)) ;;
    mret closed
  end.

(** [||] does not note the start when the supervisor is closed. *)
Definition note_worker_started (w : Z) : M unit :=
  state ← lock ;
  match canonical_close state with
  | Some _ => sm_throw (DuplicateWorker w)
  | None =>
    let '(ok, ledger) := WorkerLedger.note_started w (workers state) in
    sm_modify (set_workers ledger) ;;
    sm_reject_if (negb ok) (DuplicateWorker w)
  end.

Definition note_worker_joined (w : Z) : M unit :=
  state ← lock ;
  let '(ok, ledger) := WorkerLedger.note_joined w (workers state) in
  sm_modify (set_workers ledger) ;;
  sm_reject_if (negb ok) (UnknownWorker w).

Definition retained_task_count : M nat := state ← lock ; mret (WorkerLedger.outstanding_count (workers state)).

Definition closed_facts : M GenerationSupervisorClosedFacts :=
  state ← lock ; mret (default (closed_facts_of state) (canonical_close state)).

(** ** Attempts *)

Definition create_operation (id : text) : M GenerationOperationLease :=
  '(ticket, lease) ← reserve id ;
  let ticket := ticket_detach ticket in
  sm_modify (ticket_drop true ticket) ;;
  mret lease.

Definition start_attempt (op : GenerationOperationLease) : M GenerationOperationLease :=
  state ← lock ;
  sm_lift (current_operation state (lease_identity op)) ;;
  ident ← allocate_identity (operation_id (lease_identity op)) ;
  state ← sm_get ;
  o ← sm_lift (ok_or (operations state !! operation_id (lease_identity op)) StaleLease) ;
  let attempt := {| att_identity := ident;
                    att_control := RunControl.new (RunControl.cancellation_requested (control o)) |} in
  write_operation (operation_id (lease_identity op)) (set_attempts (<[sequence ident := attempt]> (attempts o)) o) ;;
  rel ← once_new ;
  mret {| lease_identity := ident; lease_released := rel |}.

(** The values of a [BTreeMap], in the order of its keys. *)
Definition attempt_identities (m : gmap Z SupervisedAttempt) : list GenerationAttemptIdentity :=
  omap (λ k, att_identity <$> m !! k) (merge_sort Z.le (elements (dom m))).

Definition active_attempts (op : GenerationOperationLease) : M (list GenerationAttemptIdentity) :=
  state ← lock ;
  mret (match operations state !! operation_id (lease_identity op) with
        | Some o => if bool_decide (current o = lease_identity op) then attempt_identities (attempts o) else []
        | None => []
        end).

Definition attempt_cancelled (att : GenerationOperationLease) : M bool :=
  state ← lock ;
  mret (match o ← operations state !! operation_id (lease_identity att) ; attempts o !! sequence (lease_identity att) with
        | Some a => bool_decide (att_identity a = lease_identity att) && RunControl.cancellation_requested (att_control a)
        | None => false
        end).

Definition finish_attempt (att : GenerationOperationLease) : M unit :=
  state ← lock ;
  o ← sm_lift (ok_or (operations state !! operation_id (lease_identity att)) StaleLease) ;
  a ← sm_lift (ok_or (attempts o !! sequence (lease_identity att)) StaleLease) ;
  sm_reject_if (bool_decide (att_identity a ≠ lease_identity att)) StaleLease ;;
  write_operation (operation_id (lease_identity att)) (set_attempts (delete (sequence (lease_identity att)) (attempts o)) o).

Definition finish_operation (op : GenerationOperationLease) : M unit :=
  state ← lock ;
  o ← sm_lift (current_operation state (lease_identity op)) ;
  sm_reject_if (negb (bool_decide (attempts o = ∅))) AttemptsActive ;;
  sm_reject_if (bool_decide (is_Some (op_result o))) InvalidTransition ;;
  terminal_and_release_locked op Cancelled.

(** ** Clients of one supervisor

    A client holds the leases that [reserve] and [start_attempt] handed out, of
    operations and of attempts, and clones of them. A panic in a critical section
    poisons the mutex. *)

Record Sys := {
  sup : Supervisor;
  issued : list GenerationOperationLease;
  started : list GenerationOperationLease;
}.

Inductive Handle := HOperation (n : nat) | HAttempt (n : nat).

Inductive Call :=
| CReserve (id : text)
| CCreate (id : text)
| CQueue (h : Handle)
| CStart (h : Handle)
| CTerminal (h : Handle) (t : TerminalClass)
| CRelease (h : Handle)
| CTerminalRelease (h : Handle) (t : TerminalClass)
| CFailRelease (h : Handle)
| CFinishOperation (h : Handle)
| CCancel (h : Handle)
| CTicketCancel (h : Handle) (alive is_armed : bool)
| CTicketDrop (h : Handle) (alive is_armed : bool)
| CProgress (h : Handle) (seq : Z)
| CStartAttempt (h : Handle)
| CFinishAttempt (h : Handle)
| CQuiesce
| CResume
| CClose
| CWorkerStarted (w : Z)
| CWorkerJoined (w : Z)
| CPoison.

Definition exec {A} (m : M A) (s : Supervisor) : Supervisor := (m s).2.

Definition handle (h : Handle) (s : Sys) : option GenerationOperationLease :=
  match h with HOperation n => issued s !! n | HAttempt n => started s !! n end.

Definition with_sup (f : Supervisor → Supervisor) (s : Sys) : Sys :=
  {| sup := f (sup s); issued := issued s; started := started s |}.
Definition with_lease (h : Handle) (f : GenerationOperationLease → Supervisor → Supervisor) (s : Sys) : Sys :=
  match handle h s with Some l => with_sup (f l) s | None => s end.

Definition poison (s : Supervisor) : Supervisor :=
  {| identity := identity s; sup_phase := sup_phase s; next_sequence := next_sequence s; operations := operations s;
     workers := workers s; canonical_close := canonical_close s; progress_capacity := progress_capacity s;
     slots := slots s; poisoned := true |}.

Definition ticket_of (l : GenerationOperationLease) (a : bool) : GenerationConsumerTicket :=
  {| ticket_identity := lease_identity l; armed := a |}.

Definition run_call (c : Call) (s : Sys) : Sys :=
  match c with
  | CReserve id =>
    match reserve id (sup s) with
    | (Ok (_, l), w) => {| sup := w; issued := issued s ++ [l]; started := started s |}
    | (Err _, w) => {| sup := w; issued := issued s; started := started s |}
    end
  | CCreate id =>
    match create_operation id (sup s) with
    | (Ok l, w) => {| sup := w; issued := issued s ++ [l]; started := started s |}
    | (Err _, w) => {| sup := w; issued := issued s; started := started s |}
    end
  | CQueue h => with_lease h (λ l, exec (queue l)) s
  | CStart h => with_lease h (λ l, exec (start l)) s
  | CTerminal h t => with_lease h (λ l, exec (terminal l t)) s
  | CRelease h => with_lease h (λ l, exec (release l)) s
  | CTerminalRelease h t => with_lease h (λ l, exec (terminal_and_release l t)) s
  | CFailRelease h => with_lease h (λ l, exec (fail_and_release l)) s
  | CFinishOperation h => with_lease h (λ l, exec (finish_operation l)) s
  | CCancel h => with_lease h (λ l, exec (request_cancel (lease_identity l))) s
  | CTicketCancel h alive a => with_lease h (λ l, exec (ticket_cancel alive (ticket_of l a))) s
  | CTicketDrop h alive a => with_lease h (λ l, ticket_drop alive (ticket_of l a)) s
  | CProgress h seq => with_lease h (λ l, exec (publish_progress l seq)) s
  | CStartAttempt h =>
    match handle h s with
    | Some op =>
      match start_attempt op (sup s) with
      | (Ok l, w) => {| sup := w; issued := issued s; started := started s ++ [l] |}
      | (Err _, w) => {| sup := w; issued := issued s; started := started s |}
      end
    | None => s
    end
  | CFinishAttempt h => with_lease h (λ l, exec (finish_attempt l)) s
  | CQuiesce => with_sup (exec quiesce) s
  | CResume => with_sup (exec resume) s
  | CClose => with_sup (exec close) s
  | CWorkerStarted w => with_sup (exec (note_worker_started w)) s
  | CWorkerJoined w => with_sup (exec (note_worker_joined w)) s
  | CPoison => with_sup poison s
  end.

Definition call_step (s s' : Sys) : Prop := ∃ c, s' = run_call c s.

(** A supervisor as [with_next_sequence] returns it. *)
Definition initial (inst : loc) (capacity : nat) (next : Z) (s : Sys) : Prop :=
  with_next_sequence inst capacity next = Ok (sup s) ∧ issued s = [] ∧ started s = [].

(** ** Operations and their abstraction *)

Module SupervisorProofs.

Definition op_of (o : SupervisedOperation) : Op :=
  mkOp (phase o) (RunControl.cancellation_requested (control o)) (class <$> op_result o).
Definition snap_op (s : GenerationOperationSnapshot) : Op :=
  mkOp (snap_phase s) (snap_cancellation_requested s) (class <$> authoritative_terminal s).

(** A control that nobody has claimed. *)
Definition unclaimed (cell : Z) : Prop := cell = RunControl.RUNNING ∨ cell = RunControl.CANCEL_REQUESTED.

(** A result is recorded once, by the claim of the control. *)
Definition result_ok (id : GenerationAttemptIdentity) (cancelled : bool) (t : GenerationTerminalRecord) : Prop :=
  term_identity t = id ∧ (class t = Completed → cancelled = false).

Record operation_wf (o : SupervisedOperation) : Prop := {
  wf_phase : phase o ≠ Released;
  wf_result : is_Some (op_result o) ↔ phase o = Terminal;
  wf_control : phase o ≠ Terminal → unclaimed (control o);
  wf_claimed : ∀ t, op_result o = Some t →
    RunControl.is_terminal (control o) = true ∧ result_ok (current o) (RunControl.cancellation_requested (control o)) t;
  wf_attempts : ∀ q a, attempts o !! q = Some a →
    sequence (att_identity a) = q ∧ operation_id (att_identity a) = operation_id (current o) ∧ unclaimed (att_control a) ∧
    (RunControl.cancellation_requested (control o) = true → RunControl.cancellation_requested (att_control a) = true);
}.

(** What a method may do to an operation it leaves in the map; new attempts have
    sequences below [bound]. *)
Record operation_step (bound : Z) (o o' : SupervisedOperation) : Prop := {
  os_attempts : ∀ q, is_Some (attempts o' !! q) → is_Some (attempts o !! q) ∨ q < bound;
  os_current : current o' = current o;
  os_released : released o' = released o;
  os_op : operation_wf o → rtc op_step (op_of o) (op_of o');
  os_wf : operation_wf o → operation_wf o';
}.

Lemma operation_step_refl b o : operation_step b o o.
Proof. split; [by left|done..]. Qed.

Lemma request_cancel_unclaimed cell : unclaimed cell → (RunControl.request_cancel cell).2 = RunControl.CANCEL_REQUESTED.
Proof. by intros [->| ->]. Qed.
Lemma request_cancel_terminal cell : RunControl.is_terminal cell = true → (RunControl.request_cancel cell).2 = cell.
Proof.
  unfold RunControl.is_terminal, RunControl.request_cancel, RunControl.compare_exchange. intros [H|H]%orb_true_iff;
    apply Z.eqb_eq in H as ->; done.
Qed.

(** What a claim of an unclaimed control returns. *)
Lemma claim_unclaimed cell t : unclaimed cell →
  ∃ cell', claim_terminal_class cell t =
      Ok (if RunControl.cancellation_requested cell && bool_decide (t = Completed) then Cancelled else t, cell')
    ∧ RunControl.is_terminal cell' = true
    ∧ RunControl.cancellation_requested cell' = RunControl.cancellation_requested cell.
Proof. intros [->| ->]; eexists; split; done. Qed.

Lemma step_phase b o from to :
  phase o = from → (from = Reserved ∧ to = Queued ∨ from = Queued ∧ to = Running) → operation_step b o (set_phase to o).
Proof.
  intros <- Hft. split; [by left|done|done| |].
  - intros [_ Hr _ _ _]. unfold op_of. simpl. assert (op_result o = None) as ->.
    { apply eq_None_not_Some. rewrite Hr. naive_solver congruence. }
    apply rtc_once. destruct Hft as [[-> ->]|[-> ->]]; constructor.
  - intros [Hp Hr Hc Hcl Ha]. split; simpl; [| | |done|done].
    + naive_solver congruence.
    + rewrite Hr. naive_solver congruence.
    + intros _. apply Hc. naive_solver congruence.
Qed.

Lemma step_progress b o l : operation_step b o (set_progress l o).
Proof. split; [by left|done|done|done|by intros []]. Qed.

Lemma step_cancel b o : operation_step b o (cancel_operation o).
Proof.
  split; [|done|done| |].
  - intros q. simpl. rewrite lookup_fmap, fmap_is_Some. by left.
  - intros [Hp Hr Hc Hcl _]. unfold op_of. simpl. destruct (op_result o) as [t|] eqn:Ht.
    + rewrite request_cancel_terminal by apply (Hcl t eq_refl). done.
    + rewrite request_cancel_unclaimed; [by apply rtc_once, op_cancel|]. apply Hc. rewrite <- Hr. by intros [].
  - intros [Hp Hr Hc Hcl Ha]. split; simpl; [done|done| | |].
    + intros Hn. right. by apply request_cancel_unclaimed, Hc.
    + intros t Ht. destruct (Hcl t Ht) as [H1 H2]. by rewrite request_cancel_terminal.
    + intros q a'. rewrite lookup_fmap. intros (a & Hq & ->)%fmap_Some. simpl.
      destruct (Ha q a Hq) as (H1 & H2 & H3 & H4). rewrite request_cancel_unclaimed by done.
      split_and!; [done|done|by right|done].
Qed.

Lemma step_terminal b o t t' cell' :
  phase o ≠ Terminal → unclaimed (control o) → (phase o = Running ∨ t ≠ Completed) →
  claim_terminal_class (control o) t = Ok (t', cell') →
  let o' := set_phase Terminal (set_result {| term_identity := current o; class := t' |} (set_control cell' o)) in
  operation_step b o o'.
Proof.
  intros Hnt Hun Hrun Hclaim o'. destruct (claim_unclaimed _ t Hun) as (cell & Hc & Hterm & Hcan).
  rewrite Hc in Hclaim. injection Hclaim as Ht <-.
  assert (t' = Completed → RunControl.cancellation_requested (control o) = false ∧ t = Completed) as Hcompl.
  { intros ->. destruct (RunControl.cancellation_requested (control o)); simpl in Ht; [by case_bool_decide|done]. }
  split; [by left|done|done| |].
  - intros [Hp Hr _ _ _]. unfold op_of. simpl. rewrite Hcan.
    assert (op_result o = None) as -> by (apply eq_None_not_Some; by rewrite Hr).
    apply rtc_once. simpl. destruct (decide (phase o = Running)) as [->|Hnr]; [constructor|].
    apply op_reject; [destruct (phase o); simpl; (done || lia)|].
    intros [_ Hcm]%Hcompl. by destruct Hrun.
  - intros [Hp Hr _ _ Ha]. split; simpl; [done| |done| |].
    + split; [done|by eexists].
    + intros ? [= <-]. split; [done|]. rewrite Hcan. split; [done|]. simpl. intros Hcm. by apply Hcompl.
    + intros q a Hq. rewrite Hcan. by apply Ha.
Qed.

Lemma step_attempt b o q a :
  q < b → sequence (att_identity a) = q → operation_id (att_identity a) = operation_id (current o) →
  att_control a = RunControl.new (RunControl.cancellation_requested (control o)) →
  operation_step b o (set_attempts (<[q := a]> (attempts o)) o).
Proof.
  intros Hb Hq Hid Hc. split; [|done|done|done|].
  { intros q'. simpl. destruct (decide (q = q')) as [->|]; [by right|]. rewrite lookup_insert_ne by done. by left. }
  intros [Hp Hr Hco Hcl Ha]. split; simpl; [done..|].
  intros q' a'. rewrite lookup_insert_Some. intros [[<- <-]|[Hne Hq']]; [|by apply Ha].
  rewrite Hc. unfold RunControl.new. split_and!; [done|done| |by intros ->].
  case_match; [by right|by left].
Qed.

Lemma step_finish b o q : operation_step b o (set_attempts (delete q (attempts o)) o).
Proof.
  split; [|done|done|done|].
  { intros q'. simpl. rewrite lookup_delete_is_Some. intros [_ ?]. by left. }
  intros [Hp Hr Hco Hcl Ha]. split; simpl; [done..|].
  intros q' a' [Hne Hq']%lookup_delete_Some. by apply Ha.
Qed.

(** ** Effects of the methods *)

(** The map keeps its keys and moves its operations along; nothing is released. *)
Record eff_map (w w' : Supervisor) : Prop := {
  em_next : next_sequence w ≤ next_sequence w';
  em_length : (length (slots w) ≤ length (slots w'))%nat;
  em_slots n : mjoin (slots w' !! n) = mjoin (slots w !! n);
  em_none k : operations w !! k = None → operations w' !! k = None;
  em_some k o : operations w !! k = Some o → ∃ o', operations w' !! k = Some o' ∧ operation_step (next_sequence w') o o';
}.

(** One operation without attempts leaves the map, its snapshot goes to its [OnceLock]. *)
Record eff_release (w w' : Supervisor) : Prop := {
  el_next : next_sequence w' = next_sequence w;
  el_released : ∃ k o o',
    operations w !! k = Some o ∧ attempts o = ∅ ∧ operation_step (next_sequence w) o o' ∧ (operation_wf o → phase o' = Terminal) ∧
    operations w' = delete k (operations w) ∧
    slots w' = alter (λ v, match v with None => Some (snapshot_for o' Released) | Some _ => v end)
      (released o) (slots w);
}.

Definition eff (w w' : Supervisor) : Prop := eff_map w w' ∨ eff_release w w'.

Lemma eff_map_same w w' :
  next_sequence w' = next_sequence w → slots w' = slots w → operations w' = operations w → eff_map w w'.
Proof. intros H1 H2 H3. split; rewrite ?H1, ?H2, ?H3; eauto using operation_step_refl; lia. Qed.

Lemma eff_refl w : eff w w.
Proof. left. by apply eff_map_same. Qed.
#[local] Hint Resolve eff_refl : core.

Lemma eff_map_insert w w' k o o' :
  next_sequence w ≤ next_sequence w' → (length (slots w) ≤ length (slots w'))%nat →
  (∀ n, mjoin (slots w' !! n) = mjoin (slots w !! n)) →
  operations w !! k = Some o → operations w' = <[k := o']> (operations w) → operation_step (next_sequence w') o o' → eff_map w w'.
Proof.
  intros H1 H2 H3 Hk H4 Hs. split; rewrite ?H4; try done.
  - intros j Hj. by rewrite lookup_insert_ne by congruence.
  - intros j q Hj. destruct (decide (k = j)) as [->|Hne].
    + rewrite lookup_insert_eq. simplify_eq. eauto.
    + rewrite lookup_insert_ne by done. eauto using operation_step_refl.
Qed.

Lemma current_Ok w id o :
  current_operation w id = Ok o ↔ operations w !! operation_id id = Some o ∧ current o = id.
Proof.
  unfold current_operation. sm_unfold. destruct (operations w !! operation_id id) as [q|] eqn:E;
    simpl; [case_bool_decide|]; naive_solver.
Qed.

(** Unfold a method and walk through its guards. *)
Ltac run_method :=
  unfold exec; sm_unfold;
  repeat match goal with
  | |- context [lock ?w] => unfold lock
  | |- context [write_operation] => unfold write_operation; sm_unfold
  | |- context [match current_operation ?w ?id with _ => _ end] =>
      let E := fresh "Hcur" in destruct (current_operation w id) as [?o|?e] eqn:E;
      [apply current_Ok in E as [?Hk ?Hid]|]; simpl in *
  | |- context [if ?b then _ else _] =>
      lazymatch b with
      | context [if _ then _ else _] => fail
      | _ => let E := fresh "Hb" in destruct b eqn:E; simpl in *
      end
  end; simpl in *.

Lemma mjoin_snoc (l : list (option GenerationOperationSnapshot)) n : mjoin ((l ++ [None]) !! n) = mjoin (l !! n).
Proof.
  destruct (decide (n < length l)%nat) as [Hn|Hn]; [by rewrite lookup_app_l|].
  rewrite lookup_app_r, (lookup_ge_None_2 l) by lia. by destruct (n - length l)%nat as [|[|]].
Qed.

Lemma transition_eff l from to w :
  (from = Reserved ∧ to = Queued ∨ from = Queued ∧ to = Running) → eff w (exec (transition l from to) w).
Proof.
  intros Hft. unfold transition. run_method; auto. bool_prop. apply dec_stable in Hb0. left.
  eapply eff_map_insert; simpl; eauto using step_phase. lia.
Qed.

Definition ops_wf (w : Supervisor) : Prop := ∀ k o, operations w !! k = Some o → operation_wf o.

(** The state after a removal. *)
Definition retire (k : text) (l : loc) (snap : GenerationOperationSnapshot) (w : Supervisor) : Supervisor :=
  set_slots (alter (λ v, match v with None => Some snap | Some _ => v end) l (slots w))
    (set_operations (delete k (operations w)) w).

Definition ended (o : SupervisedOperation) (t : TerminalClass) (cell : Z) : SupervisedOperation :=
  set_phase Terminal (set_result {| term_identity := current o; class := t |} (set_control cell o)).

Lemma terminal_release_run lease t t' cell o w :
  operations w !! operation_id (lease_identity lease) = Some o → current o = lease_identity lease →
  claim_terminal_class (control o) t = Ok (t', cell) →
  terminal_and_release_locked lease t w =
    (Ok tt, retire (operation_id (lease_identity lease)) (released o) (snapshot_for (ended o t' cell) Released) w).
Proof.
  intros Hk Hid Hc. unfold terminal_and_release_locked, remove_released, once_set, write_operation.
  cbv [mbind sm_bind sm_get sm_lift sm_modify mret sm_ret]. rewrite (proj2 (current_Ok _ _ _) (conj Hk Hid)), Hc.
  simpl. rewrite lookup_insert_eq. simpl. unfold retire, ended. rewrite Hid. do 2 f_equal.
  unfold set_operations. simpl. by rewrite delete_insert_eq.
Qed.

Section Effects.
Context (w : Supervisor) (Hwf : ops_wf w).

Lemma live_control k o : operations w !! k = Some o → op_result o = None → phase o ≠ Terminal ∧ unclaimed (control o).
Proof.
  intros Hk Hn. destruct (Hwf _ _ Hk) as [_ Hr Hc _ _].
  assert (phase o ≠ Terminal) as Hp by (rewrite <- Hr, Hn; by intros []). auto.
Qed.

Lemma terminal_release_eff lease t o :
  operations w !! operation_id (lease_identity lease) = Some o → current o = lease_identity lease →
  op_result o = None → attempts o = ∅ → (phase o = Running ∨ t ≠ Completed) →
  ∃ t' cell, claim_terminal_class (control o) t = Ok (t', cell) ∧
    terminal_and_release_locked lease t w =
      (Ok tt, retire (operation_id (lease_identity lease)) (released o) (snapshot_for (ended o t' cell) Released) w) ∧
    eff_release w (terminal_and_release_locked lease t w).2.
Proof.
  intros Hk Hid Hn Ha Hrun. destruct (live_control _ _ Hk Hn) as [Hp Hun].
  destruct (claim_unclaimed (control o) t Hun) as (cell & Hc & _). eexists _, cell. split; [exact Hc|].
  rewrite (terminal_release_run _ _ _ _ _ _ Hk Hid Hc). split; [done|]. split; [done|].
  eexists (operation_id (lease_identity lease)), o, (ended o _ cell). split_and!; [done|done| |done|reflexivity|reflexivity].
  by eapply step_terminal.
Qed.

Lemma terminal_eff l t : eff w (exec (terminal l t) w).
Proof.
  unfold terminal. run_method; auto. apply orb_false_iff in Hb0 as [Hp Hn]. bool_prop. apply dec_stable in Hp.
  apply eq_None_not_Some in Hn. destruct (live_control _ _ Hk Hn) as [Hnt Hun].
  destruct (claim_unclaimed (control o) t Hun) as (cell & Hc & _). rewrite Hc. simpl. left.
  eapply eff_map_insert; simpl; [lia|lia|done|exact Hk|reflexivity|]. rewrite <- Hid. eapply step_terminal; eauto.
Qed.

Lemma release_eff l : eff w (exec (release l) w).
Proof.
  unfold release. run_method; auto. bool_prop. apply dec_stable in Hb0. unfold remove_released, once_set. sm_unfold.
  rewrite Hk. simpl. right. split; [done|]. eexists _, o, o. split_and!; by try apply operation_step_refl.
Qed.

Lemma terminal_and_release_eff l t : eff w (exec (terminal_and_release l t) w).
Proof.
  unfold terminal_and_release. run_method; auto. bool_prop. apply dec_stable in H. apply eq_None_not_Some in H0.
  right. by edestruct terminal_release_eff as (? & ? & _ & _ & ?); eauto.
Qed.

Lemma fail_and_release_eff l : eff w (exec (fail_and_release l) w).
Proof.
  unfold fail_and_release. run_method; auto. apply orb_false_iff in Hb0 as [_ Hn]. bool_prop. apply eq_None_not_Some in Hn.
  right. by edestruct (terminal_release_eff l Failed) as (? & ? & _ & _ & ?); eauto.
Qed.

Lemma finish_operation_eff l : eff w (exec (finish_operation l) w).
Proof.
  unfold finish_operation. run_method; auto. bool_prop. apply eq_None_not_Some in Hb1.
  right. by edestruct (terminal_release_eff l Cancelled) as (? & ? & _ & _ & ?); eauto.
Qed.

Lemma request_cancel_eff id : eff w (exec (request_cancel id) w).
Proof.
  unfold request_cancel. run_method; auto. left. eapply eff_map_insert; simpl; eauto using step_cancel. lia.
Qed.

Lemma ticket_request_cancel_eff alive t : eff w (exec (ticket_request_cancel alive t) w).
Proof.
  unfold ticket_request_cancel, exec. sm_unfold. destruct alive; simpl; [|auto]. apply request_cancel_eff.
Qed.

(** A request that fails changes nothing. *)
Lemma request_cancel_fails id e w' : request_cancel id w = (Err e, w') → w' = w.
Proof. unfold request_cancel. run_method; congruence. Qed.

Lemma ticket_drop_eff alive t : eff w (ticket_drop alive t w).
Proof. unfold ticket_drop. destruct (armed t); [apply ticket_request_cancel_eff|auto]. Qed.

Lemma ticket_cancel_eff alive t : eff w (exec (ticket_cancel alive t) w).
Proof.
  pose proof (ticket_request_cancel_eff alive t) as Hr. unfold exec, ticket_cancel in *.
  destruct (ticket_request_cancel alive t w) as [[[]|e] w'] eqn:E; simpl; [done|].
  assert (w' = w) as ->; [|apply ticket_drop_eff].
  unfold ticket_request_cancel in E. sm_unfold. destruct alive; simpl in E; [by eapply request_cancel_fails|congruence].
Qed.

Lemma publish_progress_eff l n : eff w (exec (publish_progress l n) w).
Proof.
  unfold publish_progress. run_method; auto; left; eapply eff_map_insert; simpl; eauto using step_progress; lia.
Qed.

Lemma quiesce_eff : eff w (exec quiesce w).
Proof.
  assert (∀ w', operations w' = cancel_operation <$> operations w → next_sequence w' = next_sequence w →
    slots w' = slots w → eff w w') as Hall.
  { intros w' Ho Hn Hs. left. split; rewrite ?Ho, ?Hn, ?Hs; try done; intros k; rewrite lookup_fmap.
    - by intros ->.
    - intros o ->. simpl. eauto using step_cancel. }
  unfold quiesce. run_method; auto; case_bool_decide; by apply Hall.
Qed.

Lemma resume_eff : eff w (exec resume w).
Proof. unfold resume. run_method; auto. left. by apply eff_map_same. Qed.

Lemma close_eff : eff w (exec close w).
Proof.
  unfold close. run_method; auto; destruct (canonical_close w); simpl; auto; left; by apply eff_map_same.
Qed.

Lemma workers_eff n : eff w (exec (note_worker_started n) w) ∧ eff w (exec (note_worker_joined n) w).
Proof.
  unfold note_worker_started, note_worker_joined. split; run_method; auto; repeat case_match; simpl; auto;
    left; by apply eff_map_same.
Qed.

Lemma finish_attempt_eff l : eff w (exec (finish_attempt l) w).
Proof.
  unfold finish_attempt. run_method; auto. destruct (operations w !! _) as [o|] eqn:Hk; simpl; [|auto].
  destruct (attempts o !! _) as [a|] eqn:Ha; simpl; [|auto]. run_method; auto. left.
  eapply eff_map_insert; simpl; eauto using step_finish. lia.
Qed.

End Effects.

(** *** Reservation and attempts *)

Definition new_identity (id : text) (w : Supervisor) : GenerationAttemptIdentity :=
  {| owner := identity w; operation_id := id;
     attempt_id := id ++ str ":" ++ str (pretty (next_sequence w)); sequence := next_sequence w |}.
Definition new_lease (id : text) (w : Supervisor) : GenerationOperationLease :=
  {| lease_identity := new_identity id w; lease_released := length (slots w) |}.
Definition new_operation (id : text) (w : Supervisor) : SupervisedOperation :=
  {| released := length (slots w); current := new_identity id w; phase := Reserved;
     control := RunControl.new false; op_result := None; progress := []; attempts := ∅ |}.
Definition admitted (id : text) (w : Supervisor) : Supervisor :=
  set_operations (<[id := new_operation id w]> (operations w))
    (set_slots (slots w ++ [None]) (set_next_sequence (next_sequence w + 1) w)).

Lemma sup_reserve_cases id w :
  reserve id w =
    if bool_decide (trim id = []) then (Err EmptyOperationId, w)
    else if poisoned w then (Err Poisoned, w)
    else if bool_decide (sup_phase w ≠ SRunning) then (Err NotAccepting, w)
    else if bool_decide (is_Some (operations w !! id)) then (Err (DuplicateOperation id), w)
    else if u64_max <? next_sequence w + 1 then (Err SequenceExhausted, w)
    else (Ok ({| ticket_identity := new_identity id w; armed := true |}, new_lease id w), admitted id w).
Proof.
  unfold reserve, allocate_identity, once_new, write_operation. sm_unfold. unfold lock.
  case_bool_decide; simpl; [done|]. destruct (poisoned w); simpl; [done|]. case_bool_decide; simpl; [done|].
  case_bool_decide; simpl; [done|]. unfold checked_add.
  destruct (u64_max <? next_sequence w + 1) eqn:E; bool_prop.
  - by rewrite (proj2 (Z.leb_gt _ _) E).
  - by rewrite (proj2 (Z.leb_le _ _) E).
Qed.

Lemma create_operation_reserve id w :
  create_operation id w = match reserve id w with (Ok (_, l), w') => (Ok l, w') | (Err e, w') => (Err e, w') end.
Proof.
  unfold create_operation. sm_unfold. by destruct (reserve id w) as [[[t l]|e] w'].
Qed.

Lemma start_attempt_eff l w : eff w (start_attempt l w).2 ∧
  ∀ a, (start_attempt l w).1 = Ok a → ∃ o, operations w !! operation_id (lease_identity l) = Some o ∧
    current o = lease_identity l ∧ a = new_lease (operation_id (lease_identity l)) w.
Proof.
  unfold start_attempt, allocate_identity, once_new. run_method; try done.
  unfold checked_add. destruct (next_sequence w + 1 <=? u64_max) eqn:Hn; simpl; [|done].
  rewrite Hk. simpl. split; [|intros a [= <-]; by exists o].
  left. eapply eff_map_insert; simpl; [lia|rewrite length_app; simpl; lia|apply mjoin_snoc|exact Hk|reflexivity|].
  apply step_attempt; simpl; rewrite ?Hid; done || lia.
Qed.

(** ** The invariant *)

Definition slot_op (w : Supervisor) (l : loc) : option Op := snap_op <$> mjoin (slots w !! l).

(** Where the operation behind a lease is: in the map, or in its [OnceLock]. *)
Definition view (s : Sys) (n : nat) : option Op :=
  l ← issued s !! n ;
  match operations (sup s) !! operation_id (lease_identity l) with
  | Some o => if bool_decide (current o = lease_identity l) then Some (op_of o) else slot_op (sup s) (lease_released l)
  | None => slot_op (sup s) (lease_released l)
  end.

Definition is_live (w : Supervisor) (l : GenerationOperationLease) : Prop :=
  ∃ o, operations w !! operation_id (lease_identity l) = Some o ∧
       current o = lease_identity l ∧ released o = lease_released l.
(** A released snapshot: the result of the very operation, final. *)
Definition final_for (l : GenerationOperationLease) (snap : GenerationOperationSnapshot) : Prop :=
  snap_identity snap = lease_identity l ∧ snap_phase snap = Released ∧
  ∃ t, authoritative_terminal snap = Some t ∧ final_projection snap = Some t ∧
    result_ok (lease_identity l) (snap_cancellation_requested snap) t.
Definition is_retired (w : Supervisor) (l : GenerationOperationLease) : Prop :=
  ∃ snap, mjoin (slots w !! lease_released l) = Some snap ∧ final_for l snap.

Record Inv (s : Sys) : Prop := {
  inv_wf : ops_wf (sup s);
  inv_issued n l : issued s !! n = Some l →
    sequence (lease_identity l) < next_sequence (sup s) ∧ (lease_released l < length (slots (sup s)))%nat;
  inv_unique n m l l' : issued s !! n = Some l → issued s !! m = Some l' →
    sequence (lease_identity l) = sequence (lease_identity l') ∨ lease_released l = lease_released l' → n = m;
  inv_record k o : operations (sup s) !! k = Some o →
    operation_id (current o) = k ∧ mjoin (slots (sup s) !! released o) = None ∧
    ∃ n l, issued s !! n = Some l ∧ lease_identity l = current o ∧ lease_released l = released o;
  inv_place n l : issued s !! n = Some l → is_live (sup s) l ∨ is_retired (sup s) l;
  inv_attempts k o q : operations (sup s) !! k = Some o → is_Some (attempts o !! q) → q < next_sequence (sup s);
}.

Definition with_state (s : Sys) (w : Supervisor) (atts : list GenerationOperationLease) : Sys :=
  {| sup := w; issued := issued s; started := atts |}.

Lemma eff_map_inv s w atts : Inv s → eff_map (sup s) w → Inv (with_state s w atts).
Proof.
  intros [Hwf Hiss Huni Hrec Hpl Hatt] [Hn Hlen Hsl Hnone Hsome].
  assert (∀ k o', operations w !! k = Some o' → ∃ o, operations (sup s) !! k = Some o ∧ operation_step (next_sequence w) o o') as Hback.
  { intros k o' Hk'. destruct (operations (sup s) !! k) as [o|] eqn:Hk; [|by rewrite (Hnone _ Hk) in Hk'].
    destruct (Hsome _ _ Hk) as (o1 & H1 & Hs). simplify_eq. eauto. }
  split; simpl; [| |done| | |].
  - intros k o' (o & Hk & Hs)%Hback. eapply os_wf; eauto.
  - intros n l Hl. destruct (Hiss _ _ Hl). lia.
  - intros k o' (o & Hk & [_ Hcur Hrel _ _])%Hback. rewrite Hcur, Hrel, Hsl. eauto.
  - intros n l Hl. destruct (Hpl _ _ Hl) as [(o & H1 & H2 & H3)|(snap & H1 & H2)].
    + left. destruct (Hsome _ _ H1) as (o' & H4 & [_ Hcur Hrel _ _]). exists o'. split_and!; congruence.
    + right. exists snap. by rewrite Hsl.
  - intros k o' q (o & Hk & [Ha _ _ _ _])%Hback [Hq|]%Ha; [|done]. specialize (Hatt _ _ _ Hk Hq). lia.
Qed.

Lemma eff_map_view s w atts n o : Inv s → eff_map (sup s) w → view s n = Some o →
  ∃ o', view (with_state s w atts) n = Some o' ∧ rtc op_step o o'.
Proof.
  intros HI [Hn Hlen Hsl Hnone Hsome]. unfold view; simpl.
  destruct (issued s !! n) as [l|]; simpl; [|done].
  assert (slot_op w (lease_released l) = slot_op (sup s) (lease_released l)) as Hs by (unfold slot_op; by rewrite Hsl).
  destruct (operations (sup s) !! _) as [r|] eqn:Hk; simpl.
  - destruct (Hsome _ _ Hk) as (r' & -> & [_ Hid _ Hop _]). rewrite Hid, Hs.
    case_bool_decide; intros Ho; simplify_eq/=; [|by exists o].
    exists (op_of r'). split; [done|]. apply Hop. by eapply (inv_wf _ HI).
  - rewrite (Hnone _ Hk), Hs. by exists o.
Qed.

(** *** Release *)

Section Retire.
Context (s : Sys) (w : Supervisor) (HI : Inv s) (He : eff_release (sup s) w).

Lemma retired_operation : ∃ n l o o',
  issued s !! n = Some l ∧ operations (sup s) !! operation_id (lease_identity l) = Some o ∧
  current o = lease_identity l ∧ rtc op_step (op_of o) (snap_op (snapshot_for o' Released)) ∧
  final_for l (snapshot_for o' Released) ∧
  operations w = delete (operation_id (lease_identity l)) (operations (sup s)) ∧
  (∀ i, mjoin (slots w !! i) = if decide (i = lease_released l) then Some (snapshot_for o' Released) else mjoin (slots (sup s) !! i)) ∧
  length (slots w) = length (slots (sup s)).
Proof.
  destruct He as [_ (k & o & o' & Hk & _ & [_ Hc Hr Hop Howf] & Hph & Ho & Hsl)].
  destruct (inv_record _ HI _ _ Hk) as (Hid & Hnone & n & l & Hl & Hlid & Hlrel).
  destruct (inv_issued _ HI _ _ Hl) as [_ Hlt].
  pose proof (inv_wf _ HI _ _ Hk) as Hwf. specialize (Hph Hwf). specialize (Howf Hwf). specialize (Hop Hwf).
  destruct Howf as [_ Hres _ Hcl _]. apply Hres in Hph as Hs. destruct Hs as [t Ht].
  destruct (Hcl t Ht) as [_ Hok]. exists n, l, o, o'. rewrite Hlid, Hid. split_and!; try done.
  - etrans; [exact Hop|]. unfold op_of, snap_op. simpl. rewrite Hph, Ht. simpl. apply rtc_once, op_release.
  - split; [simpl; congruence|]. split; [done|]. exists t. simpl. split_and!; [done|done|]. by rewrite Hlid, <- Hc.
  - intros i. rewrite Hsl, list_lookup_alter, Hlrel. case_decide as Hi; [subst i|].
    + rewrite decide_True by done. rewrite <- Hlrel in Hnone |- *.
      apply lookup_lt_is_Some in Hlt as [v Hv]. rewrite Hv in Hnone |- *. simpl in *. by rewrite Hnone.
    + by rewrite decide_False.
  - by rewrite Hsl, length_alter.
Qed.

Lemma sup_eff_release_inv atts : Inv (with_state s w atts).
Proof.
  destruct retired_operation as (n & l & o & o' & Hl & Hk & Hcur & _ & Hfin & Ho & Hsl & Hlen).
  split; simpl; [| |apply HI| | |].
  - intros k o1. rewrite Ho. intros [_ H1]%lookup_delete_Some. by eapply (inv_wf _ HI).
  - rewrite (el_next _ _ He), Hlen. apply HI.
  - intros k o1. rewrite Ho. intros [Hne H1]%lookup_delete_Some.
    destruct (inv_record _ HI _ _ H1) as (A1 & A2 & m & l1 & A3 & A4 & A5). split_and!; [done| |by exists m, l1].
    rewrite Hsl. case_decide as Hd; [|done]. exfalso. apply Hne. rewrite <- A1, <- A4.
    assert (m = n) as -> by (eapply (inv_unique _ HI); [done|done|right; congruence]). congruence.
  - intros m l1 H1. destruct (decide (m = n)) as [->|Hmn].
    + simplify_eq. right. exists (snapshot_for o' Released). by rewrite Hsl, decide_True.
    + destruct (inv_place _ HI _ _ H1) as [(o1 & H2 & H3 & H4)|(snap & H2 & H3)].
      * left. exists o1. split_and!; [|done|done]. rewrite Ho, lookup_delete_ne; [done|].
        intros Heq. rewrite <- Heq in H2. simplify_eq. apply Hmn. eapply (inv_unique _ HI); [done|done|left; congruence].
      * right. exists snap. split; [|done]. rewrite Hsl, decide_False; [done|].
        intros Heq. apply Hmn. eapply (inv_unique _ HI); eauto.
  - intros k o1 q. rewrite Ho, (el_next _ _ He). intros [_ H1]%lookup_delete_Some. by eapply (inv_attempts _ HI).
Qed.

Lemma sup_eff_release_view atts m op : view s m = Some op →
  ∃ op', view (with_state s w atts) m = Some op' ∧ rtc op_step op op'.
Proof.
  destruct retired_operation as (n & l & o & o' & Hl & Hk & Hcur & Hop & Hfin & Ho & Hsl & Hlen).
  unfold view; simpl. destruct (issued s !! m) as [l1|] eqn:H1; simpl; [|done].
  destruct (decide (m = n)) as [->|Hmn].
  - simplify_eq. rewrite Hk, bool_decide_eq_true_2 by done. intros [= <-].
    rewrite Ho, lookup_delete_eq. unfold slot_op. rewrite Hsl, decide_True by done. eauto.
  - assert (slot_op w (lease_released l1) = slot_op (sup s) (lease_released l1)) as Hs.
    { unfold slot_op. rewrite Hsl, decide_False; [done|]. intros Heq. apply Hmn. eapply (inv_unique _ HI); eauto. }
    rewrite Ho, Hs, lookup_delete. case_decide as Hd; [|by exists op].
    rewrite <- Hd, Hk. rewrite bool_decide_eq_false_2; [by exists op|].
    rewrite Hcur. intros Heq. apply Hmn. eapply (inv_unique _ HI); [done|done|left; congruence].
Qed.
End Retire.

(** *** Admission *)

Section Admit.
Context (s : Sys) (id : text) (HI : Inv s) (Hfree : operations (sup s) !! id = None).
#[local] Notation w := (sup s).
Let s' := {| sup := admitted id w; issued := issued s ++ [new_lease id w]; started := started s |}.

Lemma sup_admit_slot n : mjoin (slots (sup s') !! n) = mjoin (slots w !! n).
Proof. apply mjoin_snoc. Qed.

Lemma sup_admit_issued n l : issued s' !! n = Some l →
  issued s !! n = Some l ∨ n = length (issued s) ∧ l = new_lease id w.
Proof. simpl. intros [?|[? ?]]%lookup_snoc_Some; naive_solver. Qed.

Lemma sup_admit_inv : Inv s'.
Proof.
  split.
  - intros k o. simpl. intros [[<- <-]|[_ Hk]]%lookup_insert_Some; [|by eapply (inv_wf _ HI)].
    split; simpl; try done; first [by left|split; [by intros []|done]].
  - simpl. rewrite length_app. simpl. intros n l [Hl|[-> ->]]%sup_admit_issued; simpl; [|lia].
    destruct (inv_issued _ HI _ _ Hl). lia.
  - intros n m l l' [Hl|[-> ->]]%sup_admit_issued [Hl'|[-> ->]]%sup_admit_issued Hs; [|..|done].
    + by eapply (inv_unique _ HI).
    + destruct (inv_issued _ HI _ _ Hl). simpl in Hs. lia.
    + destruct (inv_issued _ HI _ _ Hl'). simpl in Hs. lia.
  - intros k o. rewrite sup_admit_slot. simpl. intros [[<- <-]|[Hne Hk]]%lookup_insert_Some.
    + split_and!; [done|simpl; by rewrite lookup_ge_None_2|]. exists (length (issued s)), (new_lease id w).
      split; [by apply list_lookup_middle|done].
    + destruct (inv_record _ HI _ _ Hk) as (A1 & A2 & n & l & A3 & A4).
      split_and!; [done|done|]. exists n, l. split; [by apply lookup_app_l_Some|done].
  - intros n l [Hl|[-> ->]]%sup_admit_issued.
    + destruct (inv_place _ HI _ _ Hl) as [(o & Hk & Hid & Hrel)|(snap & Hs)].
      * left. exists o. split_and!; [|done..]. simpl. rewrite lookup_insert_ne; [done|]. intros ->. congruence.
      * right. exists snap. by rewrite sup_admit_slot.
    + left. exists (new_operation id w). simpl. by rewrite lookup_insert_eq.
  - intros k o q. simpl. intros [[<- <-]|[_ Hk]]%lookup_insert_Some; [by intros []|].
    intros Hq. pose proof (inv_attempts _ HI _ _ _ Hk Hq). lia.
Qed.

Lemma sup_admit_view n :
  view s' n = if decide (n = length (issued s)) then Some op_initial else view s n.
Proof.
  case_decide as Hn; unfold view.
  - subst n. simpl. rewrite list_lookup_middle by done; simpl. by rewrite lookup_insert_eq, bool_decide_eq_true_2.
  - assert (∀ i, slot_op (sup s') i = slot_op w i) as Hso by (intros i; unfold slot_op; by rewrite sup_admit_slot).
    simpl. destruct (issued s !! n) as [l|] eqn:Hl; simpl.
    + rewrite lookup_app_l by (by eapply lookup_lt_Some). rewrite Hl; simpl. simpl in Hso. rewrite Hso.
      rewrite lookup_insert. case_decide as Hid; [|done].
      rewrite <- Hid, Hfree. rewrite bool_decide_eq_false_2; [done|].
      simpl. intros Heq. apply (f_equal sequence) in Heq. simpl in Heq.
      destruct (inv_issued _ HI _ _ Hl). lia.
    + rewrite lookup_ge_None_2; [done|]. apply lookup_ge_None in Hl. rewrite length_app; simpl. lia.
Qed.
End Admit.

(** ** Every call preserves the invariant and moves operations along *)

Inductive effect (s : Sys) : Sys → Prop :=
| effect_eff w atts : eff (sup s) w → effect s (with_state s w atts)
| effect_admit id : operations (sup s) !! id = None →
    effect s {| sup := admitted id (sup s); issued := issued s ++ [new_lease id (sup s)]; started := started s |}.

Lemma sup_with_lease_effect h f s : (∀ l, eff (sup s) (f l (sup s))) → effect s (with_lease h f s).
Proof.
  intros Hf. unfold with_lease. destruct (handle h s) as [l|].
  - by apply (effect_eff s _ (started s)).
  - destruct s as [w i a]. by apply (effect_eff {| sup := w; issued := i; started := a |} w a), eff_refl.
Qed.
Lemma with_sup_effect f s : eff (sup s) (f (sup s)) → effect s (with_sup f s).
Proof. intros Hf. by apply (effect_eff s _ (started s)). Qed.

Lemma sup_reserve_effect s id : effect s
  match reserve id (sup s) with
  | (Ok (_, l), w) => {| sup := w; issued := issued s ++ [l]; started := started s |}
  | (Err _, w) => {| sup := w; issued := issued s; started := started s |}
  end.
Proof.
  assert (effect s {| sup := sup s; issued := issued s; started := started s |}) as Hid
    by apply (effect_eff s _ (started s)), eff_refl.
  rewrite sup_reserve_cases. case_bool_decide; [done|]. destruct (poisoned (sup s)); [done|].
  case_bool_decide; [done|]. case_bool_decide as Hd; [done|]. destruct (u64_max <? _); [done|].
  by apply effect_admit, eq_None_not_Some.
Qed.

Lemma sup_run_call_effect c s : ops_wf (sup s) → effect s (run_call c s).
Proof.
  intros Hwf. destruct c; simpl; try (apply sup_with_lease_effect; intros l); try apply with_sup_effect.
  - apply sup_reserve_effect.
  - pose proof (sup_reserve_effect s id) as He. rewrite create_operation_reserve. by destruct (reserve id (sup s)) as [[[t l]|e] w].
  - apply (transition_eff l Reserved Queued). by left.
  - apply (transition_eff l Queued Running). by right.
  - by apply terminal_eff.
  - apply release_eff.
  - by apply terminal_and_release_eff.
  - by apply fail_and_release_eff.
  - by apply finish_operation_eff.
  - apply request_cancel_eff.
  - apply ticket_cancel_eff.
  - apply ticket_drop_eff.
  - apply publish_progress_eff.
  - destruct (handle h s) as [l|]; [|destruct s as [w i a]; by apply (effect_eff {| sup := w; issued := i; started := a |} w a), eff_refl].
    destruct (start_attempt_eff l (sup s)) as [He _]. destruct (start_attempt l (sup s)) as [[a|e] w]; by apply effect_eff.
  - apply finish_attempt_eff.
  - apply quiesce_eff.
  - apply resume_eff.
  - apply close_eff.
  - apply workers_eff.
  - apply workers_eff.
  - left. by apply eff_map_same.
Qed.

Lemma sup_effect_inv s s' : Inv s → effect s s' → Inv s'.
Proof.
  intros HI [w atts [He|He]|id Hn]; [by apply eff_map_inv|by apply sup_eff_release_inv|by apply sup_admit_inv].
Qed.

Lemma sup_view_is_Some s n : Inv s → is_Some (view s n) ↔ is_Some (issued s !! n).
Proof.
  intros HI. unfold view. destruct (issued s !! n) as [l|] eqn:Hl; simpl; [|done].
  split; [by eexists|]. intros _.
  destruct (inv_place _ HI _ _ Hl) as [(o & -> & Hid & _)|(snap & Hs & _)].
  - rewrite bool_decide_eq_true_2 by done. by eexists.
  - unfold slot_op. rewrite Hs. destruct (operations _ !! _); [case_bool_decide|]; by eexists.
Qed.

Lemma sup_effect_view s s' n o :
  Inv s → effect s s' → view s n = Some o → ∃ o', view s' n = Some o' ∧ rtc op_step o o'.
Proof.
  intros HI [w atts [He|He]|id Hn] Hv; [by eapply eff_map_view|by eapply sup_eff_release_view|].
  rewrite sup_admit_view by done. case_decide; [|by exists o]. subst n.
  assert (is_Some (view s (length (issued s)))) as Hs by by eexists.
  apply (sup_view_is_Some _ _ HI), lookup_lt_is_Some in Hs. lia.
Qed.

Lemma sup_effect_fresh s s' n o :
  Inv s → effect s s' → view s n = None → view s' n = Some o → o = op_initial.
Proof.
  intros HI He Hn Hv. pose proof (sup_effect_inv _ _ HI He) as HI'.
  assert (¬ is_Some (issued s !! n)) as Hi.
  { intros Hi. apply (sup_view_is_Some _ _ HI) in Hi as [? ?]. congruence. }
  destruct He as [w atts He|id Hf].
  - exfalso; apply Hi; apply (sup_view_is_Some _ _ HI'); by eexists.
  - rewrite sup_admit_view in Hv by done. case_decide; congruence.
Qed.

#[export] Instance supervisor_owner : OperationOwner Sys nat.
Proof.
  refine {| owner_inv := Inv; owner_step := call_step; owner_view := view |}.
  - intros s s' HI (c & ->). eapply sup_effect_inv; [done|apply sup_run_call_effect, HI].
  - intros s s' n o HI (c & ->). eapply sup_effect_view; [done|apply sup_run_call_effect, HI].
  - intros s s' n o HI (c & ->). eapply sup_effect_fresh; [done|apply sup_run_call_effect, HI].
Defined.

Lemma sup_initial_inv inst capacity next s : initial inst capacity next s → Inv s.
Proof.
  intros (Hs & Hi & Ha). unfold with_next_sequence in Hs. sm_unfold.
  destruct (bool_decide (capacity = 0%nat)); [done|]. injection Hs as Hs.
  assert (operations (sup s) = ∅) as Ho by by rewrite <- Hs.
  split; rewrite ?Hi; try done; intros k o; by rewrite Ho.
Qed.

Lemma sup_reachable_inv inst capacity next s0 s : initial inst capacity next s0 → rtc call_step s0 s → Inv s.
Proof. intros H0 Hrun. exact (@owner_run_inv Sys nat supervisor_owner _ _ (sup_initial_inv _ _ _ _ H0) Hrun). Qed.

Lemma sup_call_step_issued s s' : call_step s s' → issued s `prefix_of` issued s'.
Proof.
  intros (c & ->). destruct c; simpl; unfold with_lease; try (by destruct (handle h s)); try done.
  - destruct (reserve id (sup s)) as [[[t l]|e] w]; [by apply prefix_app_r|done].
  - destruct (create_operation id (sup s)) as [[l|e] w]; [by apply prefix_app_r|done].
  - destruct (handle h s) as [l|]; [|done]. by destruct (start_attempt l (sup s)) as [[a|e] w].
Qed.

Lemma sup_run_issued s s' n l : rtc call_step s s' → issued s !! n = Some l → issued s' !! n = Some l.
Proof.
  intros Hrun Hl. assert (issued s `prefix_of` issued s') as Hp.
  { clear Hl. induction Hrun; [done|]. etrans; [by apply sup_call_step_issued|done]. }
  by eapply prefix_lookup_Some.
Qed.

(** What [snapshot] shows of a lease is the operation behind it, and the result that
    a terminal or released operation shows is its own. *)
Lemma snapshot_view s n l snap :
  Inv s → issued s !! n = Some l → (snapshot l (sup s)).1 = Ok (Some snap) →
  view s n = Some (snap_op snap) ∧ snap_identity snap = lease_identity l ∧
  (∀ t, authoritative_terminal snap = Some t → result_ok (lease_identity l) (snap_cancellation_requested snap) t) ∧
  (snap_phase snap = Released → final_for l snap).
Proof.
  intros HI Hl. unfold snapshot, view. rewrite Hl. sm_unfold. unfold lock. destruct (poisoned (sup s)); simpl; [done|].
  destruct (current_operation (sup s) (lease_identity l)) as [o|e] eqn:Hcur.
  - apply current_Ok in Hcur as [Hk Hid]. intros [= <-]. rewrite Hk, bool_decide_eq_true_2 by done.
    destruct (inv_wf _ HI _ _ Hk) as [Hp _ _ Hcl _]. split_and!; [done|done| |done].
    intros t Ht. rewrite <- Hid. by apply Hcl.
  - intros [= Hs]. destruct (inv_place _ HI _ _ Hl) as [(o & Hk & Hid & _)|(snap' & Hs' & Hfin)].
    { rewrite (proj2 (current_Ok _ _ _) (conj Hk Hid)) in Hcur. done. }
    rewrite Hs in Hs'. injection Hs' as <-. unfold slot_op. rewrite Hs. split.
    { destruct (operations (sup s) !! _) as [o|] eqn:Hk; [|done]. case_bool_decide as Hid; [|done].
      rewrite (proj2 (current_Ok _ _ _) (conj Hk Hid)) in Hcur. done. }
    pose proof Hfin as (Hi & _ & t & Ht & _ & Hok). split_and!; [done| |done]. intros t'. congruence.
Qed.

(** ** Closing *)

(** What only [close], [resume] and [quiesce] may change. *)
Definition gate (w : Supervisor) := (canonical_close w, sup_phase w).

Lemma lock_keeps : keeps gate lock.
Proof. intros w. unfold lock. by case_match. Qed.
#[local] Hint Resolve lock_keeps : keeps.
Ltac gate_tac := repeat first [progress unfold write_operation, once_set, once_new, remove_released | keeps_step | case_match].

Lemma allocate_keeps id : keeps gate (allocate_identity id).
Proof. unfold allocate_identity. gate_tac. Qed.
Lemma locked_keeps l t : keeps gate (terminal_and_release_locked l t).
Proof. unfold terminal_and_release_locked. gate_tac. Qed.
#[local] Hint Resolve allocate_keeps locked_keeps : keeps.
Lemma reserve_keeps id : keeps gate (reserve id).
Proof. unfold reserve. gate_tac. Qed.
Lemma request_cancel_keeps id : keeps gate (request_cancel id).
Proof. unfold request_cancel. gate_tac. Qed.
#[local] Hint Resolve request_cancel_keeps : keeps.
Lemma ticket_request_keeps alive t : keeps gate (ticket_request_cancel alive t).
Proof. unfold ticket_request_cancel. gate_tac. Qed.
Lemma ticket_drop_keeps alive t w : gate (ticket_drop alive t w) = gate w.
Proof. unfold ticket_drop. case_match; [apply ticket_request_keeps|done]. Qed.
Lemma ticket_cancel_keeps alive t : keeps gate (ticket_cancel alive t).
Proof.
  intros w. unfold ticket_cancel. pose proof (ticket_request_keeps alive t w) as H.
  destruct (ticket_request_cancel alive t w) as [[[]|e] w']; simpl in *; by rewrite ticket_drop_keeps.
Qed.
Lemma start_attempt_keeps l : keeps gate (start_attempt l).
Proof. unfold start_attempt. gate_tac. Qed.
Lemma transition_keeps l from to : keeps gate (transition l from to).
Proof. unfold transition. gate_tac. Qed.
Lemma terminal_keeps l t : keeps gate (terminal l t).
Proof. unfold terminal. gate_tac. Qed.
Lemma release_keeps l : keeps gate (release l).
Proof. unfold release. gate_tac. Qed.
Lemma terminal_and_release_keeps l t : keeps gate (terminal_and_release l t).
Proof. unfold terminal_and_release. gate_tac. Qed.
Lemma fail_and_release_keeps l : keeps gate (fail_and_release l).
Proof. unfold fail_and_release. gate_tac. Qed.
Lemma finish_operation_keeps l : keeps gate (finish_operation l).
Proof. unfold finish_operation. gate_tac. Qed.
Lemma publish_progress_keeps l n : keeps gate (publish_progress l n).
Proof. unfold publish_progress. gate_tac. Qed.
Lemma finish_attempt_keeps l : keeps gate (finish_attempt l).
Proof. unfold finish_attempt. gate_tac. Qed.
Lemma worker_started_keeps n : keeps gate (note_worker_started n).
Proof. unfold note_worker_started. gate_tac. Qed.
Lemma worker_joined_keeps n : keeps gate (note_worker_joined n).
Proof. unfold note_worker_joined. gate_tac. Qed.

Definition closes (c : Call) : bool := match c with CQuiesce | CResume | CClose => true | _ => false end.

Lemma with_lease_keeps h f s : (∀ l, gate (f l (sup s)) = gate (sup s)) → gate (sup (with_lease h f s)) = gate (sup s).
Proof. intros Hf. unfold with_lease. destruct (handle h s); [apply Hf|done]. Qed.

Lemma run_call_keeps c s : closes c = false → gate (sup (run_call c s)) = gate (sup s).
Proof.
  destruct c; intros Hc; try done; simpl; try (apply with_lease_keeps; intros l).
  - pose proof (reserve_keeps id (sup s)) as H. by destruct (reserve id (sup s)) as [[[t l]|e] w].
  - rewrite create_operation_reserve. pose proof (reserve_keeps id (sup s)) as H.
    by destruct (reserve id (sup s)) as [[[t l]|e] w].
  - apply (transition_keeps l Reserved Queued).
  - apply (transition_keeps l Queued Running).
  - apply terminal_keeps.
  - apply release_keeps.
  - apply terminal_and_release_keeps.
  - apply fail_and_release_keeps.
  - apply finish_operation_keeps.
  - apply request_cancel_keeps.
  - apply ticket_cancel_keeps.
  - apply ticket_drop_keeps.
  - apply publish_progress_keeps.
  - destruct (handle h s) as [l|]; [|done]. pose proof (start_attempt_keeps l (sup s)) as H.
    by destruct (start_attempt l (sup s)) as [[a|e] w].
  - apply finish_attempt_keeps.
  - apply worker_started_keeps.
  - apply worker_joined_keeps.
Qed.

(** A closed supervisor: empty, for good. *)
Record closed_as (f : GenerationSupervisorClosedFacts) (w : Supervisor) : Prop := {
  ca_close : canonical_close w = Some f;
  ca_phase : sup_phase w = Closed;
  ca_operations : operations w = ∅;
  ca_workers : WorkerLedger.outstanding (workers w) = ∅;
  ca_facts : f = closed_facts_of w;
}.

Lemma closed_stale f w id : closed_as f w → current_operation w id = Err StaleLease.
Proof. intros [_ _ Ho _ _]. unfold current_operation. by rewrite Ho. Qed.

(** The calls on leases, reservations and workers leave a closed supervisor as it is. *)
Ltac closed_tac Hc :=
  unfold exec; sm_unfold; unfold lock; destruct (poisoned _); simpl; [done|];
  rewrite ?(closed_stale _ _ _ Hc), ?(ca_close _ _ Hc), ?(ca_phase _ _ Hc), ?(ca_operations _ _ Hc), ?lookup_empty; simpl; done.

Section Closed.
Context (f : GenerationSupervisorClosedFacts) (w : Supervisor) (Hc : closed_as f w).

Lemma closed_transition l from to : exec (transition l from to) w = w.
Proof. unfold transition. closed_tac Hc. Qed.
Lemma closed_ending l t :
  exec (terminal l t) w = w ∧ exec (release l) w = w ∧ exec (terminal_and_release l t) w = w
  ∧ exec (fail_and_release l) w = w ∧ exec (finish_operation l) w = w.
Proof.
  unfold terminal, release, terminal_and_release, fail_and_release, finish_operation.
  split_and!; closed_tac Hc.
Qed.
Lemma closed_cancel id : exec (request_cancel id) w = w.
Proof. unfold request_cancel. closed_tac Hc. Qed.
Lemma closed_ticket_request alive t : (ticket_request_cancel alive t w).2 = w.
Proof. unfold ticket_request_cancel. sm_unfold. destruct alive; simpl; [apply closed_cancel|done]. Qed.
Lemma closed_ticket_drop alive t : ticket_drop alive t w = w.
Proof. unfold ticket_drop. case_match; [apply closed_ticket_request|done]. Qed.
Lemma closed_ticket_cancel alive t : exec (ticket_cancel alive t) w = w.
Proof.
  unfold exec, ticket_cancel. pose proof (closed_ticket_request alive t) as H.
  destruct (ticket_request_cancel alive t w) as [[[]|e] w']; simpl in *; subst w'; apply closed_ticket_drop.
Qed.
Lemma closed_progress l n : exec (publish_progress l n) w = w.
Proof. unfold publish_progress. closed_tac Hc. Qed.
Lemma closed_attempt l : (start_attempt l w).2 = w ∧ is_ok (start_attempt l w).1 = false ∧ exec (finish_attempt l) w = w.
Proof. unfold start_attempt, finish_attempt. split_and!; closed_tac Hc. Qed.
Lemma closed_reserve id : (reserve id w).2 = w ∧ is_ok (reserve id w).1 = false.
Proof.
  rewrite sup_reserve_cases. case_bool_decide; [done|]. destruct (poisoned w); [done|].
  by rewrite bool_decide_eq_true_2 by (by rewrite (ca_phase _ _ Hc)).
Qed.
Lemma closed_started n : exec (note_worker_started n) w = w ∧ is_ok (note_worker_started n w).1 = false.
Proof. unfold note_worker_started. split; closed_tac Hc. Qed.
Lemma closed_joined n : closed_as f (exec (note_worker_joined n) w).
Proof.
  unfold note_worker_joined, exec. sm_unfold. unfold lock. destruct (poisoned w); simpl; [done|].
  unfold WorkerLedger.note_joined. rewrite (ca_workers _ _ Hc). simpl. by destruct Hc.
Qed.
Lemma closed_quiesce : closed_as f (exec quiesce w).
Proof.
  unfold quiesce, exec. sm_unfold. unfold lock. destruct (poisoned w); simpl; [done|].
  rewrite (ca_phase _ _ Hc). simpl. rewrite (ca_operations _ _ Hc). destruct Hc as [? ? Ho ? Hf]. split; simpl; try done.
  rewrite Hf. unfold closed_facts_of. simpl. by rewrite Ho.
Qed.
Lemma closed_resume : exec resume w = w ∧ is_ok (resume w).1 = false.
Proof. unfold resume. split; closed_tac Hc. Qed.
Lemma closed_close : (close w).2 = w ∧ (poisoned w = false → (close w).1 = Ok f).
Proof. unfold close. sm_unfold. unfold lock. destruct (poisoned w); simpl; [done|]. by rewrite (ca_close _ _ Hc). Qed.
End Closed.

Lemma closed_run_call f c s : closed_as f (sup s) → closed_as f (sup (run_call c s)).
Proof.
  intros Hc.
  assert (∀ h g, (∀ l, g l (sup s) = sup s) → closed_as f (sup (with_lease h g s))) as Hl.
  { intros h g Hg. unfold with_lease. destruct (handle h s); [|done]. simpl. by rewrite Hg. }
  destruct c; simpl; try (apply Hl; intros l).
  - pose proof (closed_reserve _ _ Hc id) as H. destruct (reserve id (sup s)) as [[[t l]|e] w], H as [? ?]; simpl in *; by subst.
  - rewrite create_operation_reserve. pose proof (closed_reserve _ _ Hc id) as H.
    destruct (reserve id (sup s)) as [[[t l]|e] w], H as [? ?]; simpl in *; by subst.
  - apply (closed_transition _ _ Hc l Reserved Queued).
  - apply (closed_transition _ _ Hc l Queued Running).
  - apply (proj1 (closed_ending _ _ Hc l t)).
  - apply (proj1 (proj2 (closed_ending _ _ Hc l Failed))).
  - apply (proj1 (proj2 (proj2 (closed_ending _ _ Hc l t)))).
  - apply (proj1 (proj2 (proj2 (proj2 (closed_ending _ _ Hc l Failed))))).
  - apply (proj2 (proj2 (proj2 (proj2 (closed_ending _ _ Hc l Failed))))).
  - apply (closed_cancel _ _ Hc).
  - apply (closed_ticket_cancel _ _ Hc).
  - apply (closed_ticket_drop _ _ Hc).
  - apply (closed_progress _ _ Hc).
  - destruct (handle h s) as [l|]; [|done]. pose proof (closed_attempt _ _ Hc l) as (H & _ & _).
    destruct (start_attempt l (sup s)) as [[a|e] w]; simpl in *; by subst.
  - apply (closed_attempt _ _ Hc).
  - apply (closed_quiesce _ _ Hc).
  - by rewrite (proj1 (closed_resume _ _ Hc)).
  - unfold exec. by rewrite (proj1 (closed_close _ _ Hc)).
  - by rewrite (proj1 (closed_started _ _ Hc w)).
  - apply (closed_joined _ _ Hc).
  - by destruct Hc.
Qed.

(** The close is recorded exactly in the Closed phase, of an empty supervisor. *)
Definition gate_inv (w : Supervisor) : Prop :=
  match canonical_close w with Some f => closed_as f w | None => sup_phase w ≠ Closed end.

Lemma close_spec w : gate_inv w →
  match close w with
  | (Ok f, w') => closed_as f w' ∧ operations w = ∅ ∧ WorkerLedger.outstanding (workers w) = ∅
  | (Err e, w') => w' = w ∧ (e = Poisoned ∧ poisoned w = true ∨
      e = NotDrained ∧ poisoned w = false ∧ (operations w ≠ ∅ ∨ WorkerLedger.outstanding (workers w) ≠ ∅))
  end.
Proof.
  unfold gate_inv. intros Hg. unfold close. sm_unfold. unfold lock. destruct (poisoned w) eqn:Hp; simpl; [auto|].
  destruct (canonical_close w) as [f|] eqn:Hf; simpl; [by pose proof Hg as []|].
  unfold WorkerLedger.outstanding_count. destruct (decide (operations w = ∅)) as [Ho|Ho].
  - rewrite (bool_decide_eq_true_2 _ Ho). simpl. case_bool_decide as Hw; simpl.
    + apply size_empty_iff, leibniz_equiv in Hw. by split; [split|].
    + split; [done|]. right. split_and!; [done|done|right]. intros Hw'. apply Hw. rewrite Hw'. apply size_empty.
  - rewrite (bool_decide_eq_false_2 _ Ho). simpl. split; [done|]. right. auto.
Qed.

Lemma run_call_gate c s : gate_inv (sup s) → gate_inv (sup (run_call c s)).
Proof.
  intros Hg. pose proof Hg as Hg'. unfold gate_inv in Hg |- *. destruct (canonical_close (sup s)) as [f|] eqn:Hf.
  { pose proof (closed_run_call f c s Hg) as Hc. by rewrite (ca_close _ _ Hc). }
  destruct (closes c) eqn:Hcl.
  2: { pose proof (run_call_keeps c s Hcl) as [= -> ->]. by rewrite Hf. }
  destruct c; try done; simpl.
  - unfold quiesce, exec. sm_unfold. unfold lock. destruct (poisoned (sup s)); simpl; [by rewrite Hf|].
    case_bool_decide; simpl; by rewrite Hf.
  - unfold resume, exec. sm_unfold. unfold lock. destruct (poisoned (sup s)); simpl; [by rewrite Hf|].
    by case_bool_decide; simpl; rewrite ?Hf.
  - pose proof (close_spec _ Hg') as Hs. unfold exec. destruct (close (sup s)) as [[f|e] w]; simpl.
    + destruct Hs as [Hc _]. by rewrite (ca_close _ _ Hc).
    + destruct Hs as [-> _]. by rewrite Hf.
Qed.

Lemma reachable_gate inst capacity next s0 s : initial inst capacity next s0 → rtc call_step s0 s → gate_inv (sup s).
Proof.
  intros (Hs & _) Hrun. assert (gate_inv (sup s0)) as H0.
  { unfold with_next_sequence in Hs. sm_unfold. destruct (bool_decide (capacity = 0%nat)); [done|]. by injection Hs as <-. }
  eapply (rtc_preserves call_step (λ s, gate_inv (sup s))); [|exact Hrun|done]. intros x y (c & ->). apply run_call_gate.
Qed.

Lemma closed_forever f s s' : closed_as f (sup s) → rtc call_step s s' → closed_as f (sup s').
Proof.
  intros Hc Hrun. eapply (rtc_preserves call_step (λ s, closed_as f (sup s))); [|exact Hrun|done].
  intros x y (c & ->). apply closed_run_call.
Qed.

(** ** The attempts of an operation *)

Section Attempts.
Context (m : gmap Z SupervisedAttempt) (Hm : ∀ q a, m !! q = Some a → sequence (att_identity a) = q).

Definition attempt_keys (m : gmap Z SupervisedAttempt) : list Z := merge_sort Z.le (elements (dom m)).

Lemma elem_of_keys (x : gmap Z SupervisedAttempt) q : q ∈ attempt_keys x ↔ is_Some (x !! q).
Proof. unfold attempt_keys. by rewrite merge_sort_Permutation, elem_of_elements, elem_of_dom. Qed.
Lemma keys_sorted (x : gmap Z SupervisedAttempt) : Sorted Z.le (attempt_keys x).
Proof. apply (Sorted_merge_sort Z.le). Qed.
Lemma keys_nodup (x : gmap Z SupervisedAttempt) : NoDup (attempt_keys x).
Proof. unfold attempt_keys. rewrite merge_sort_Permutation. apply NoDup_elements. Qed.

(** The keys are the only sorted list of the sequences without repetition. *)
Lemma keys_unique (x : gmap Z SupervisedAttempt) ks :
  Sorted Z.le ks → NoDup ks → (∀ q, q ∈ ks ↔ is_Some (x !! q)) → attempt_keys x = ks.
Proof.
  intros Hs Hn Hin. eapply (Sorted_unique Z.le); [apply keys_sorted|done|].
  apply NoDup_Permutation; [apply keys_nodup|done|]. intros q. by rewrite elem_of_keys, Hin.
Qed.

Lemma identities_cons (x : gmap Z SupervisedAttempt) k ks a : x !! k = Some a →
  omap (λ k, att_identity <$> x !! k) (k :: ks) = att_identity a :: omap (λ k, att_identity <$> x !! k) ks.
Proof. intros Hk. simpl. by rewrite Hk. Qed.

Lemma sorted_filter (p : Z → Prop) `{∀ x, Decision (p x)} l : Sorted Z.le l → Sorted Z.le (filter p l).
Proof.
  intros Hl. apply StronglySorted_Sorted. apply Sorted_StronglySorted in Hl; [|intros ???; lia].
  induction Hl as [|x l Hl IH Hx]; [constructor|]. rewrite filter_cons. case_decide; [|done].
  constructor; [done|]. apply Forall_forall. rewrite Forall_forall in Hx. intros y [_ Hy]%list_elem_of_filter. auto.
Qed.

Lemma identities_sequences : sequence <$> attempt_identities m = attempt_keys m.
Proof.
  unfold attempt_identities. fold (attempt_keys m).
  assert (∀ k, k ∈ attempt_keys m → is_Some (m !! k)) as Hk by (intros k; by rewrite elem_of_keys).
  induction (attempt_keys m) as [|k ks IH]; [done|]. destruct (Hk k ltac:(left)) as [a Ha].
  rewrite (identities_cons _ _ _ _ Ha), fmap_cons, (Hm _ _ Ha), IH; [done|]. intros k' Hk'. apply Hk. by right.
Qed.

Lemma elem_of_identities i : i ∈ attempt_identities m ↔ ∃ a, m !! sequence i = Some a ∧ att_identity a = i.
Proof.
  unfold attempt_identities. fold (attempt_keys m). rewrite list_elem_of_omap. split.
  - intros (k & _ & (a & Ha & ->)%fmap_Some). exists a. by rewrite (Hm _ _ Ha).
  - intros (a & Ha & Hi). exists (sequence i). rewrite elem_of_keys, Ha. split; [done|]. simpl. by rewrite Hi.
Qed.

Lemma identities_sorted : Sorted Z.le (sequence <$> attempt_identities m) ∧ NoDup (attempt_identities m).
Proof.
  rewrite identities_sequences. split; [apply keys_sorted|].
  apply (NoDup_fmap_1 sequence). rewrite identities_sequences. apply keys_nodup.
Qed.

Lemma identities_insert q a : (∀ q', is_Some (m !! q') → q' < q) →
  attempt_identities (<[q := a]> m) = attempt_identities m ++ [att_identity a].
Proof.
  intros Hq. unfold attempt_identities. fold (attempt_keys m) (attempt_keys (<[q := a]> m)).
  assert (∀ k, k ∈ attempt_keys m → k < q) as Hlt by (intros k; rewrite elem_of_keys; auto).
  rewrite (keys_unique (<[q := a]> m) (attempt_keys m ++ [q])).
  - rewrite omap_app. rewrite (identities_cons (<[q := a]> m) q [] a) by apply lookup_insert_eq. f_equal.
    assert (∀ k, k ∈ attempt_keys m → is_Some (m !! k)) as Hk by (intros k; by rewrite elem_of_keys).
    induction (attempt_keys m) as [|k ks IH]; [done|]. destruct (Hk k ltac:(left)) as [b Hb].
    rewrite (identities_cons m _ _ _ Hb), (identities_cons (<[q := a]> m) k ks b).
    + rewrite IH; [done| |]; intros k' Hk'; [apply Hlt|apply Hk]; by right.
    + rewrite lookup_insert_ne; [done|]. specialize (Hlt k ltac:(left)). lia.
  - apply StronglySorted_Sorted, StronglySorted_app_2.
    + intros k k' Hk ->%list_elem_of_singleton. specialize (Hlt k Hk). lia.
    + apply Sorted_StronglySorted; [intros ???; lia|apply keys_sorted].
    + repeat constructor.
  - apply NoDup_app. split_and!; [apply keys_nodup| |apply NoDup_singleton].
    intros k Hk ->%list_elem_of_singleton. specialize (Hlt q Hk). lia.
  - intros k. rewrite elem_of_app, elem_of_keys, list_elem_of_singleton, lookup_insert_is_Some'. naive_solver.
Qed.

Lemma identities_delete q i : m !! q = Some i →
  attempt_identities (delete q m) = filter (.≠ att_identity i) (attempt_identities m).
Proof.
  intros Hq. unfold attempt_identities. fold (attempt_keys m) (attempt_keys (delete q m)).
  rewrite (keys_unique (delete q m) (filter (.≠ q) (attempt_keys m))).
  - assert (∀ k, k ∈ attempt_keys m → is_Some (m !! k)) as Hk by (intros k; by rewrite elem_of_keys).
    induction (attempt_keys m) as [|k ks IH]; [done|]. destruct (Hk k ltac:(left)) as [a Ha].
    specialize (IH ltac:(intros k' Hk'; apply Hk; by right)). rewrite filter_cons, (identities_cons m _ _ _ Ha), filter_cons.
    destruct (decide (k = q)) as [->|Hne].
    + rewrite decide_False by auto. simplify_eq. by rewrite decide_False by auto.
    + rewrite decide_True by done. rewrite (identities_cons (delete q m) k _ a) by (by rewrite lookup_delete_ne).
      rewrite decide_True; [by rewrite IH|]. intros Heq. apply Hne. rewrite <- (Hm _ _ Ha), <- (Hm _ _ Hq). congruence.
  - apply sorted_filter, keys_sorted.
  - apply NoDup_filter, keys_nodup.
  - intros k. rewrite list_elem_of_filter, elem_of_keys, lookup_delete_is_Some. naive_solver.
Qed.
End Attempts.

Section Live.
Context (s : Sys) (l : GenerationOperationLease) (o : SupervisedOperation).
Context (HI : Inv s) (Hp : poisoned (sup s) = false) (Hcur : current_operation (sup s) (lease_identity l) = Ok o).

Lemma live_attempt_wf : ∀ q a, attempts o !! q = Some a → sequence (att_identity a) = q.
Proof.
  apply current_Ok in Hcur as [Hk _]. intros q a Hq. by apply (wf_attempts _ (inv_wf _ HI _ _ Hk) q a).
Qed.

Lemma active_attempts_live w o' : poisoned w = false → operations w !! operation_id (lease_identity l) = Some o' →
  current o' = lease_identity l → active_attempts l w = (Ok (attempt_identities (attempts o')), w).
Proof.
  intros Hpw Hk Hid. unfold active_attempts. sm_unfold. unfold lock. rewrite Hpw. simpl. rewrite Hk. simpl.
  by rewrite bool_decide_eq_true_2.
Qed.

Lemma attempt_cancelled_live w o' a att : poisoned w = false →
  operations w !! operation_id (lease_identity a) = Some o' → attempts o' !! sequence (lease_identity a) = Some att →
  att_identity att = lease_identity a → (attempt_cancelled a w).1 = Ok (RunControl.cancellation_requested (att_control att)).
Proof.
  intros Hpw Hk Ha Hid. unfold attempt_cancelled. sm_unfold. unfold lock. rewrite Hpw. simpl. rewrite Hk. simpl.
  rewrite Ha. by rewrite bool_decide_eq_true_2.
Qed.

(** An attempt of the operation: where it is, and that it can finish. *)
Lemma active_attempt a : lease_identity a ∈ attempt_identities (attempts o) →
  operation_id (lease_identity a) = operation_id (lease_identity l) ∧
  (∃ att, attempts o !! sequence (lease_identity a) = Some att ∧ att_identity att = lease_identity a ∧
     (RunControl.cancellation_requested (control o) = true → RunControl.cancellation_requested (att_control att) = true) ∧
     unclaimed (att_control att)) ∧
  ∃ w, finish_attempt a (sup s) = (Ok tt, w) ∧
    (active_attempts l w).1 = Ok (filter (.≠ lease_identity a) (attempt_identities (attempts o))).
Proof.
  intros (att & Ha & Hid)%(elem_of_identities _ live_attempt_wf). pose proof Hcur as Hcur'.
  apply current_Ok in Hcur' as [Hk Hcid].
  destruct (wf_attempts _ (inv_wf _ HI _ _ Hk) _ _ Ha) as (_ & Hop & Hun & Hcan). rewrite Hid, Hcid in Hop.
  split_and!; [done|by exists att|]. eexists. split.
  - unfold finish_attempt, write_operation. sm_unfold. unfold lock. rewrite Hp. simpl. rewrite Hop, Hk. simpl. rewrite Ha. simpl.
    by rewrite (bool_decide_eq_false_2 (att_identity att ≠ _)) by auto.
  - erewrite active_attempts_live; [|done|apply lookup_insert_eq|done]. simpl. f_equal.
    rewrite (identities_delete _ live_attempt_wf _ _ Ha). by rewrite Hid.
Qed.

(** With attempts left, the operation does not end. *)
Lemma attempts_hold : attempts o ≠ ∅ → ∀ t,
  (is_ok (terminal l t (sup s)).1 = false ∧ is_ok (release l (sup s)).1 = false ∧
   is_ok (terminal_and_release l t (sup s)).1 = false ∧ is_ok (fail_and_release l (sup s)).1 = false ∧
   is_ok (finish_operation l (sup s)).1 = false).
Proof.
  intros Ha t. unfold terminal, release, terminal_and_release, fail_and_release, finish_operation.
  split_and!; sm_unfold; unfold lock; rewrite Hp; simpl; rewrite Hcur; simpl; rewrite ?(bool_decide_eq_false_2 _ Ha);
    repeat case_match; simplify_eq/=; done.
Qed.

Lemma started_attempt a w : start_attempt l (sup s) = (Ok a, w) →
  (active_attempts l w).1 = Ok (attempt_identities (attempts o) ++ [lease_identity a]) ∧
  (attempt_cancelled a w).1 = Ok (RunControl.cancellation_requested (control o)).
Proof.
  pose proof Hcur as Hcur'. apply current_Ok in Hcur' as [Hk Hcid].
  unfold start_attempt, allocate_identity, once_new, write_operation. sm_unfold. unfold lock. rewrite Hp. simpl.
  rewrite Hcur. simpl. destruct (checked_add u64_max (next_sequence (sup s)) 1); simpl; [|done].
  rewrite Hk. simpl. intros [= <- <-]. split.
  - erewrite active_attempts_live; [|done|apply lookup_insert_eq|done]. simpl. f_equal.
    rewrite identities_insert; [done|]. intros q. by apply (inv_attempts _ HI _ _ _ Hk).
  - erewrite attempt_cancelled_live; [|done|apply lookup_insert_eq|apply lookup_insert_eq|done]. simpl.
    by destruct (RunControl.cancellation_requested (control o)).
Qed.

Lemma cancelled_attempts w a : request_cancel (lease_identity l) (sup s) = (Ok tt, w) →
  lease_identity a ∈ attempt_identities (attempts o) → (attempt_cancelled a w).1 = Ok true.
Proof.
  intros Hr (Hop & (att & Ha & Hid & _ & Hun) & _)%active_attempt. pose proof Hcur as Hcur'. apply current_Ok in Hcur' as [Hk Hcid].
  unfold request_cancel, write_operation in Hr. sm_unfold. unfold lock in Hr. rewrite Hp in Hr. simpl in Hr.
  rewrite Hcur in Hr. simpl in Hr. injection Hr as <-.
  erewrite attempt_cancelled_live; [|done|simpl; rewrite Hop; apply lookup_insert_eq| |].
  2: { simpl. by rewrite lookup_fmap, Ha. }
  - simpl. by rewrite request_cancel_unclaimed.
  - done.
Qed.
End Live.

End SupervisorProofs.

(** ** Properties *)

Module SupervisorTheorems.
Import SupervisorProofs.

(** two snapshots of one lease of the generation supervisor, taken at any two
    moments of any run of calls by any holders of leases of operations and attempts,
    show the identity of the lease; the later one is reached from the earlier one, and
    the earlier one from a fresh reservation, by steps of the lifecycle. A terminal
    result is the operation's own, and Completed only if no cancellation was
    requested when it was claimed; once an operation is released, its snapshot has a
    result and never changes. *)
Theorem generation_snapshots_follow_lifecycle inst capacity next s0 s s' n l snap snap' :
  initial inst capacity next s0 → rtc call_step s0 s → rtc call_step s s' → issued s !! n = Some l →
  (snapshot l (sup s)).1 = Ok (Some snap) → (snapshot l (sup s')).1 = Ok (Some snap') →
  snap_identity snap = lease_identity l ∧ snap_identity snap' = lease_identity l ∧
  rtc op_step op_initial (snap_op snap) ∧ rtc op_step (snap_op snap) (snap_op snap') ∧
  op_le (snap_op snap) (snap_op snap') ∧
  (∀ t, authoritative_terminal snap' = Some t →
     term_identity t = lease_identity l ∧ (class t = Completed → snap_cancellation_requested snap' = false)) ∧
  (snap_phase snap' = Released → is_Some (authoritative_terminal snap')).
Proof.
  intros H0 Hr1 Hr2 Hl Hs Hs'. pose proof (sup_reachable_inv _ _ _ _ _ H0 Hr1) as HI.
  pose proof (@owner_run_inv Sys nat supervisor_owner _ _ HI Hr2) as HI'.
  destruct (snapshot_view _ _ _ _ HI Hl Hs) as (Hv & Hid & _).
  destruct (snapshot_view _ _ _ _ HI' (sup_run_issued _ _ _ _ Hr2 Hl) Hs') as (Hv' & Hid' & Ht & Hfin).
  destruct (@owner_run_view Sys nat supervisor_owner s s' n _ HI Hr2 Hv) as (o & Ho & Hsteps).
  simpl in Ho. rewrite Hv' in Ho. simplify_eq. split_and!; [done|done| |done|by apply op_steps_le|done|].
  - apply (@owner_run_fresh Sys nat supervisor_owner s0 s n _ (sup_initial_inv _ _ _ _ H0) Hr1); [|done].
    destruct H0 as (_ & Hi & _). simpl. unfold view. by rewrite Hi.
  - intros Hp. destruct (Hfin Hp) as (_ & _ & t & -> & _). by eexists.
Qed.

(** C24: the supervisor closes only when it is drained, and for good. In any run,
    [close] succeeds exactly when the mutex is not poisoned, no operation is left and
    every worker has been joined (which holds of a closed one), and otherwise changes
    nothing. Afterwards no call of any holder brings back an operation or a worker:
    reservations, attempts, worker starts and [resume] fail, and every later [close]
    and [closed_facts] returns the facts of the first close. *)
Theorem generation_close_is_final inst capacity next s0 s :
  initial inst capacity next s0 → rtc call_step s0 s →
  match close (sup s) with
  | (Err e, w) => w = sup s ∧ (e = Poisoned ∧ poisoned (sup s) = true ∨
      e = NotDrained ∧ (operations (sup s) ≠ ∅ ∨ WorkerLedger.outstanding (workers (sup s)) ≠ ∅))
  | (Ok f, w) =>
      operations (sup s) = ∅ ∧ WorkerLedger.outstanding (workers (sup s)) = ∅ ∧
      lifecycle f = Closed ∧ active_operations f = 0%nat ∧ retained_tasks f = 0%nat ∧
      expected_workers f = joined_workers f ∧
      ∀ s', rtc call_step {| sup := w; issued := issued s; started := started s |} s' →
        operations (sup s') = ∅ ∧ WorkerLedger.outstanding (workers (sup s')) = ∅ ∧
        (poisoned (sup s') = false → (close (sup s')).1 = Ok f ∧ (closed_facts (sup s')).1 = Ok f) ∧
        (∀ id, is_ok (reserve id (sup s')).1 = false) ∧ (∀ l, is_ok (start_attempt l (sup s')).1 = false) ∧
        (∀ k, is_ok (note_worker_started k (sup s')).1 = false) ∧ is_ok (resume (sup s')).1 = false
  end.
Proof.
  intros H0 Hrun. pose proof (close_spec _ (reachable_gate _ _ _ _ _ H0 Hrun)) as Hs.
  destruct (close (sup s)) as [[f|e] w]; [|naive_solver]. destruct Hs as (Hc & Ho & Hw). pose proof Hc as [Hf Hp Hops Hwork Hfacts].
  split_and!; try done; try (rewrite Hfacts; simpl; rewrite ?Hops; done).
  - rewrite Hfacts. simpl. unfold WorkerLedger.outstanding_count. by rewrite Hwork.
  - rewrite Hfacts. simpl. unfold WorkerLedger.expected. rewrite Hwork. apply (left_id_L ∅ (∪)).
  - intros s' Hrun'. pose proof (closed_forever f {| sup := w; issued := issued s; started := started s |} s' Hc Hrun') as Hc'. pose proof Hc' as [Hf' _ Ho' Hw' _].
    split_and!; [done|done| | | | |].
    + intros Hp'. split; [by apply (closed_close f)|]. unfold closed_facts. sm_unfold. unfold lock. by rewrite Hp', Hf'.
    + intros id. by apply (closed_reserve f).
    + intros l. by apply (closed_attempt f).
    + intros k. by apply (closed_started f).
    + by apply (closed_resume f).
Qed.

(** attempts belong to their operation. Of a live operation, [active_attempts]
    lists attempts in the order of their sequences, without repetition; each carries
    its operation's id, is cancelled when the operation is, and can be finished, which
    takes exactly it from the list. While one is left no call ends or releases the
    operation. A new attempt is put last and is born cancelled exactly when the
    operation is, and a cancellation of the operation reaches all its attempts. *)
Theorem generation_attempts_exact inst capacity next s0 s l o :
  initial inst capacity next s0 → rtc call_step s0 s → poisoned (sup s) = false →
  current_operation (sup s) (lease_identity l) = Ok o →
  ∃ ids, active_attempts l (sup s) = (Ok ids, sup s) ∧ Sorted Z.le (sequence <$> ids) ∧ NoDup ids ∧
  (∀ a, lease_identity a ∈ ids →
     operation_id (lease_identity a) = operation_id (lease_identity l) ∧
     (RunControl.cancellation_requested (control o) = true → (attempt_cancelled a (sup s)).1 = Ok true) ∧
     ∃ w, finish_attempt a (sup s) = (Ok tt, w) ∧ (active_attempts l w).1 = Ok (filter (.≠ lease_identity a) ids)) ∧
  (ids ≠ [] → ∀ t,
     is_ok (terminal l t (sup s)).1 = false ∧ is_ok (release l (sup s)).1 = false ∧
     is_ok (terminal_and_release l t (sup s)).1 = false ∧ is_ok (fail_and_release l (sup s)).1 = false ∧
     is_ok (finish_operation l (sup s)).1 = false) ∧
  (∀ a w, start_attempt l (sup s) = (Ok a, w) →
     (active_attempts l w).1 = Ok (ids ++ [lease_identity a]) ∧
     (attempt_cancelled a w).1 = Ok (RunControl.cancellation_requested (control o))) ∧
  (∀ w a, request_cancel (lease_identity l) (sup s) = (Ok tt, w) → lease_identity a ∈ ids →
     (attempt_cancelled a w).1 = Ok true).
Proof.
  intros H0 Hrun Hp Hcur. pose proof (sup_reachable_inv _ _ _ _ _ H0 Hrun) as HI.
  pose proof (proj1 (current_Ok _ _ _) Hcur) as [Hk Hid].
  exists (attempt_identities (attempts o)).
  pose proof (identities_sorted _ (live_attempt_wf s l o HI Hcur)) as [Hsort Hnodup].
  split_and!; [by eapply active_attempts_live|done|done| | | |].
  - intros a Ha. destruct (active_attempt s l o HI Hp Hcur a Ha) as (Hop & (att & Hatt & Haid & Hcan & _) & Hfin).
    split_and!; [done| |done]. intros Hc. erewrite attempt_cancelled_live; [by rewrite Hcan|done|by rewrite Hop|done|done].
  - intros Hne. apply (attempts_hold s l o Hp Hcur). intros He. by rewrite He in Hne.
  - intros a w. by apply started_attempt.
  - intros w a. by apply cancelled_attempts.
Qed.

(** *** Witnesses *)

Definition run_calls (cs : list Call) (s : Sys) : Sys := foldl (λ s c, run_call c s) s cs.
Lemma sup_run_calls_rtc cs s : rtc call_step s (run_calls cs s).
Proof.
  revert s. induction cs as [|c cs IH]; intros s; [done|]. eapply rtc_l; [by exists c|apply IH].
Qed.

Definition demo_start : Sys :=
  {| sup := {| identity := 7; sup_phase := SRunning; next_sequence := 1; operations := ∅;
               workers := WorkerLedger.new COMPLETED_WORKER_HISTORY; canonical_close := None;
               progress_capacity := 2; slots := []; poisoned := false |};
     issued := []; started := [] |}.
Lemma demo_initial : initial 7 2 1 demo_start.
Proof. done. Qed.

(** An operation that runs with one attempt, cancelled through its ticket. *)
Definition demo_running : Sys :=
  run_calls [CReserve (str "draft"); CWorkerStarted 9; CQueue (HOperation 0); CStart (HOperation 0);
    CStartAttempt (HOperation 0); CTicketCancel (HOperation 0) true true] demo_start.
(** The attempt finishes, the completed operation is released as cancelled, and the worker is joined. *)
Definition demo_drained : Sys :=
  run_calls [CFinishAttempt (HAttempt 0); CTerminalRelease (HOperation 0) Completed; CWorkerJoined 9] demo_running.

Definition demo_lease : GenerationOperationLease :=
  {| lease_identity := {| owner := 7; operation_id := str "draft"; attempt_id := str "draft:1"; sequence := 1 |};
     lease_released := 0 |}.
Definition demo_attempt : GenerationOperationLease :=
  {| lease_identity := {| owner := 7; operation_id := str "draft"; attempt_id := str "draft:2"; sequence := 2 |};
     lease_released := 1 |}.
Definition demo_snapshot (p : OperationPhase) (t : option GenerationTerminalRecord) : GenerationOperationSnapshot :=
  {| snap_identity := lease_identity demo_lease; snap_phase := p; snap_cancellation_requested := true;
     authoritative_terminal := t; final_projection := t; progress_projection := [] |}.
Definition demo_result : GenerationTerminalRecord := {| term_identity := lease_identity demo_lease; class := Cancelled |}.

Lemma generation_snapshots_follow_lifecycle_witness :
  rtc op_step (snap_op (demo_snapshot Running None)) (snap_op (demo_snapshot Released (Some demo_result))).
Proof.
  refine (proj1 (proj2 (proj2 (proj2 (generation_snapshots_follow_lifecycle 7 2 1 demo_start demo_running demo_drained 0 demo_lease
    (demo_snapshot Running None) (demo_snapshot Released (Some demo_result)) demo_initial _ _ _ _ _))))).
  - apply sup_run_calls_rtc.
  - apply sup_run_calls_rtc.
  - vm_compute. reflexivity.
  - vm_compute. reflexivity.
  - vm_compute. reflexivity.
Defined.

Lemma generation_close_is_final_witness :
  (close (sup demo_running)).1 = Err NotDrained ∧
  ∃ f w, close (sup demo_drained) = (Ok f, w) ∧ lifecycle f = Closed ∧ is_ok (resume w).1 = false.
Proof.
  split.
  - pose proof (generation_close_is_final 7 2 1 demo_start demo_running demo_initial ltac:(apply sup_run_calls_rtc)) as H.
    destruct (close (sup demo_running)) as [[f|e] w] eqn:Hc; [vm_compute in Hc; discriminate|].
    destruct H as [_ [[-> Hp]|[-> _]]]; [vm_compute in Hp; discriminate|reflexivity].
  - pose proof (generation_close_is_final 7 2 1 demo_start demo_drained demo_initial
      ltac:(etrans; [apply sup_run_calls_rtc|apply sup_run_calls_rtc])) as H.
    destruct (close (sup demo_drained)) as [[f|e] w] eqn:Hc; [|vm_compute in Hc; discriminate].
    destruct H as (_ & _ & Hl & _ & _ & _ & Hs). exists f, w. split; [reflexivity|]. split; [exact Hl|].
    specialize (Hs {| sup := w; issued := issued demo_drained; started := started demo_drained |} ltac:(reflexivity)).
    apply Hs.
Defined.

Lemma generation_attempts_exact_witness :
  (active_attempts demo_lease (sup demo_running)).1 = Ok [lease_identity demo_attempt] ∧
  (attempt_cancelled demo_attempt (sup demo_running)).1 = Ok true ∧
  is_ok (finish_operation demo_lease (sup demo_running)).1 = false.
Proof.
  destruct (current_operation (sup demo_running) (lease_identity demo_lease)) as [o|e] eqn:Hcur; [|vm_compute in Hcur; discriminate].
  destruct (generation_attempts_exact 7 2 1 demo_start demo_running demo_lease o demo_initial ltac:(apply sup_run_calls_rtc)
    ltac:(vm_compute; reflexivity) Hcur) as (ids & Hids & _ & _ & Hcan & Hhold & _).
  assert ((active_attempts demo_lease (sup demo_running)).1 = Ok [lease_identity demo_attempt]) as Hact
    by (vm_compute; reflexivity).
  split; [exact Hact|]. rewrite Hids in Hact. cbn [fst] in Hact. injection Hact as ->. split.
  - apply (Hcan demo_attempt); [left|]. vm_compute in Hcur. by injection Hcur as <-.
  - by apply (Hhold ltac:(discriminate) Cancelled).
Defined.

End SupervisorTheorems.
