(* ===== verification/NativeRegistry.v ===== *)
(** * NativeRegistry: the native engine's request registry

    Models [llama-native-engine/src/operation_registry.rs]. Every successful
    [reserve] allocates an entry (an [Arc<ActiveRequest>]) that lives on in its
    holders after it has left the map of active requests; [Registry] keeps all of
    them, and an entry is named by its location. The [Arc<AtomicBool>] flags of the
    callers are locations too; nothing in the engine takes a raised flag back.

    A method that holds the state mutex or an entry's lifecycle mutex is one step.
    [require_current] releases the state mutex before the lifecycle mutex is taken;
    the two are one step here because the lease is borrowed meanwhile, and only its
    drop, which needs it exclusively, makes it stale. [shutdown] and
    [begin_quiesce_and_cancel_all] are run in pieces by threads ([thread_step]), and
    a notification of the condition variable takes effect in a step of its own. *)

From S2P Require Import Prelude OperationSpec.
Local Open Scope Z_scope.

Inductive RequestClass :=
| Generation | ControlledGeneration | Embedding | ResidualTraining | ResidualEvaluation.

(** The location of an [Arc<AtomicBool>], and of an [Arc<ActiveRequest>]. *)
Notation flag := nat.
Notation loc := nat.

Inductive RequestControls :=
| GenerationControls (cancellations reasoning_forces : list (string * flag))
| ControlledGenerationControls (cancellations : list (string * flag))
| EmbeddingControls (cancellation : flag)
| ResidualTrainingControls (cancellation : flag)
| ResidualEvaluationControls (cancellation : flag).

Inductive RegistryPhase := RegRunning | RegQuiescing | RegClosed.
#[export] Instance RegistryPhase_eq_dec : EqDecision RegistryPhase.
Proof. solve_decision. Defined.

Record RequestIdentity := { operation_id : string; attempt_id : string; sequence : Z }.
#[export] Instance RequestIdentity_eq_dec : EqDecision RequestIdentity.
Proof. solve_decision. Defined.

Record RequestTerminal := { term_class : TerminalClass; term_sequence : Z }.
#[export] Instance RequestTerminal_eq_dec : EqDecision RequestTerminal.
Proof. solve_decision. Defined.

Record RequestLifecycle := { phase : OperationPhase; terminal_of : option RequestTerminal }.

Record ActiveRequest := {
  request_id : string;
  class : RequestClass;
  controls : RequestControls;
  reservation_nonce : Z;
  identity : RequestIdentity;
  lifecycle : RequestLifecycle;
  lifecycle_poisoned : bool;
}.
#[export] Instance ActiveRequest_inhabited : Inhabited ActiveRequest :=
  populate {| request_id := ""; class := Embedding; controls := EmbeddingControls 0%nat;
              reservation_nonce := 0;
              identity := {| operation_id := ""; attempt_id := ""; sequence := 0 |};
              lifecycle := {| phase := Released; terminal_of := None |};
              lifecycle_poisoned := false |}.

Record RegistryShutdownOutcome := {
  state_poisoned : bool;
  active_operations : nat;
  retained_tasks : nat;
  expected_workers : nat;
  joined_workers : nat;
  out_expected_worker_ids : list string;
  out_joined_worker_ids : list string;
}.

Record Registry := {
  reg_phase : RegistryPhase;
  next_nonce : Z;
  active : gmap string loc;
  expected_worker_ids : list string;
  joined_worker_ids : list string;
  shutdown_outcome : option RegistryShutdownOutcome;
  poisoned : bool;
  (** the heap: entries, raised flags, and calls of [notify_all] under way *)
  entries : list ActiveRequest;
  raised : gset flag;
  notifying : nat;
}.

(** The errors of the module by the place that constructs them. *)
Inductive NativeError :=
| RegistryPoisoned
| AdmissionClosed
| DuplicateActive (request_id : string)
| SequenceOverflowed
| LifecyclePoisoned
| StaleLease
| TransitionInvalid
| ActiveReservations (n : nat).
#[export] Instance NativeError_eq_dec : EqDecision NativeError.
Proof. solve_decision. Defined.

Inductive NativeErrorCode := Internal | WorkerStopped | DuplicateActiveRequest.
Definition code (e : NativeError) : NativeErrorCode :=
  match e with
  | AdmissionClosed => WorkerStopped
  | DuplicateActive _ => DuplicateActiveRequest
  | _ => Internal
  end.

(** ** Field updates *)

Definition set_active (m : gmap string loc) (w : Registry) : Registry :=
  {| reg_phase := reg_phase w; next_nonce := next_nonce w; active := m;
     expected_worker_ids := expected_worker_ids w; joined_worker_ids := joined_worker_ids w;
     shutdown_outcome := shutdown_outcome w; poisoned := poisoned w; entries := entries w;
     raised := raised w; notifying := notifying w |}.
Definition set_entries (es : list ActiveRequest) (w : Registry) : Registry :=
  {| reg_phase := reg_phase w; next_nonce := next_nonce w; active := active w;
     expected_worker_ids := expected_worker_ids w; joined_worker_ids := joined_worker_ids w;
     shutdown_outcome := shutdown_outcome w; poisoned := poisoned w; entries := es;
     raised := raised w; notifying := notifying w |}.
Definition set_reg_phase (p : RegistryPhase) (w : Registry) : Registry :=
  {| reg_phase := p; next_nonce := next_nonce w; active := active w;
     expected_worker_ids := expected_worker_ids w; joined_worker_ids := joined_worker_ids w;
     shutdown_outcome := shutdown_outcome w; poisoned := poisoned w; entries := entries w;
     raised := raised w; notifying := notifying w |}.
Definition set_next_nonce (n : Z) (w : Registry) : Registry :=
  {| reg_phase := reg_phase w; next_nonce := n; active := active w;
     expected_worker_ids := expected_worker_ids w; joined_worker_ids := joined_worker_ids w;
     shutdown_outcome := shutdown_outcome w; poisoned := poisoned w; entries := entries w;
     raised := raised w; notifying := notifying w |}.
Definition set_workers (expected joined : list string) (w : Registry) : Registry :=
  {| reg_phase := reg_phase w; next_nonce := next_nonce w; active := active w;
     expected_worker_ids := expected; joined_worker_ids := joined;
     shutdown_outcome := shutdown_outcome w; poisoned := poisoned w; entries := entries w;
     raised := raised w; notifying := notifying w |}.
Definition set_shutdown (o : RegistryShutdownOutcome) (w : Registry) : Registry :=
  {| reg_phase := reg_phase w; next_nonce := next_nonce w; active := active w;
     expected_worker_ids := expected_worker_ids w; joined_worker_ids := joined_worker_ids w;
     shutdown_outcome := Some o; poisoned := poisoned w; entries := entries w;
     raised := raised w; notifying := notifying w |}.
Definition set_notifying (n : nat) (w : Registry) : Registry :=
  {| reg_phase := reg_phase w; next_nonce := next_nonce w; active := active w;
     expected_worker_ids := expected_worker_ids w; joined_worker_ids := joined_worker_ids w;
     shutdown_outcome := shutdown_outcome w; poisoned := poisoned w; entries := entries w;
     raised := raised w; notifying := n |}.
(** [flag.store(true)] *)
Definition raise (fs : list flag) (w : Registry) : Registry :=
  {| reg_phase := reg_phase w; next_nonce := next_nonce w; active := active w;
     expected_worker_ids := expected_worker_ids w; joined_worker_ids := joined_worker_ids w;
     shutdown_outcome := shutdown_outcome w; poisoned := poisoned w; entries := entries w;
     raised := list_to_set fs ∪ raised w; notifying := notifying w |}.

(** [self.drained.notify_all()] *)
Definition notify_all (w : Registry) : Registry := set_notifying (S (notifying w)) w.

Definition set_lifecycle (l : RequestLifecycle) (e : ActiveRequest) : ActiveRequest :=
  {| request_id := request_id e; class := class e; controls := controls e;
     reservation_nonce := reservation_nonce e; identity := identity e; lifecycle := l;
     lifecycle_poisoned := lifecycle_poisoned e |}.
Definition entry (w : Registry) (n : loc) : ActiveRequest := entries w !!! n.
(** A write through the guard of an entry's lifecycle mutex. *)
Definition put_lifecycle (n : loc) (l : RequestLifecycle) (w : Registry) : Registry :=
  set_entries (<[n := set_lifecycle l (entry w n)]> (entries w)) w.

(** ** Controls *)

Definition set_named (flags : list (string * flag)) (name : string) (w : Registry)
    : bool * Registry :=
  match find (λ p, (p.1 =? name)%string) flags with
  | Some p => (true, raise [p.2] w)
  | None => (false, w)
  end.

Definition set_all (flags : list flag) (w : Registry) : nat * Registry :=
  (length flags, raise flags w).

Definition cancellation_flags (c : RequestControls) : list flag :=
  match c with
  | GenerationControls cancellations _ | ControlledGenerationControls cancellations =>
      cancellations.*2
  | EmbeddingControls f | ResidualTrainingControls f | ResidualEvaluationControls f => [f]
  end.

Definition cancel_all (c : RequestControls) (w : Registry) : nat * Registry :=
  match c with
  | GenerationControls cancellations _ | ControlledGenerationControls cancellations =>
      set_all cancellations.*2 w
  | EmbeddingControls f | ResidualTrainingControls f | ResidualEvaluationControls f =>
      (1%nat, raise [f] w)
  end.

Definition cancel_named (c : RequestControls) (name : string) (w : Registry) : bool * Registry :=
  match c with
  | GenerationControls cancellations _ | ControlledGenerationControls cancellations =>
      set_named cancellations name w
  | EmbeddingControls _ | ResidualTrainingControls _ | ResidualEvaluationControls _ => (false, w)
  end.

Definition force_reasoning_exit (c : RequestControls) (name : string) (w : Registry)
    : bool * Registry :=
  match c with
  | GenerationControls _ reasoning_forces => set_named reasoning_forces name w
  | ControlledGenerationControls _ | EmbeddingControls _ | ResidualEvaluationControls _
  | ResidualTrainingControls _ => (false, w)
  end.

Definition force_all_reasoning_exits (c : RequestControls) (w : Registry) : nat * Registry :=
  match c with
  | GenerationControls _ reasoning_forces => set_all reasoning_forces.*2 w
  | ControlledGenerationControls _ | EmbeddingControls _ | ResidualEvaluationControls _
  | ResidualTrainingControls _ => (0%nat, w)
  end.

Definition cancellation_requested (c : RequestControls) (w : Registry) : bool :=
  match c with
  | GenerationControls cancellations _ | ControlledGenerationControls cancellations =>
      existsb (λ p, bool_decide (p.2 ∈ raised w)) cancellations
  | EmbeddingControls f | ResidualTrainingControls f | ResidualEvaluationControls f =>
      bool_decide (f ∈ raised w)
  end.

Definition is_released (w : Registry) (n : loc) : bool :=
  bool_decide (phase (lifecycle (entry w n)) = Released).

(** ** The registry *)

Definition M : Type → Type := SM Registry NativeError.

Definition new : Registry :=
  {| reg_phase := RegRunning; next_nonce := 0; active := ∅; expected_worker_ids := [];
     joined_worker_ids := []; shutdown_outcome := None; poisoned := false; entries := [];
     raised := ∅; notifying := 0 |}.

Definition with_external_worker (worker_id : string) : Registry :=
  set_workers (expected_worker_ids new ++ [worker_id]) (joined_worker_ids new) new.

Definition request_attempt_id (request_id : string) (nonce : Z) : string :=
  request_id +:+ "#attempt-" +:+ pretty nonce.

(** The location stands for the [Arc] of the entry and for the lease on it. *)
Definition reserve (request_id : string) (class : RequestClass) (controls : RequestControls)
    : M loc :=
  w ← sm_get ;
  sm_reject_if (poisoned w) RegistryPoisoned ;;
  sm_reject_if (bool_decide (reg_phase w ≠ RegRunning)) AdmissionClosed ;;
  sm_reject_if (bool_decide (is_Some (active w !! request_id))) (DuplicateActive request_id) ;;
  let reservation_nonce := next_nonce w in
  next ← sm_lift (ok_or (checked_add u64_max (next_nonce w) 1) SequenceOverflowed) ;
  sm_modify (set_next_nonce next) ;;
  let n := length (entries w) in
  sm_modify (λ w, set_entries (entries w ++ [{|
    request_id := request_id; class := class; controls := controls;
    reservation_nonce := reservation_nonce;
    identity := {| operation_id := request_id;
                   attempt_id := request_attempt_id request_id reservation_nonce;
                   sequence := reservation_nonce |};
    lifecycle := {| phase := Reserved; terminal_of := None |};
    lifecycle_poisoned := false |}]) w) ;;
  sm_modify (λ w, set_active (<[request_id := n]> (active w)) w) ;;
  mret n.

Definition active_entry (request_id : string) (w : Registry) : option loc := active w !! request_id.

(** The test of [require_current] and [abandon_if_current]. *)
Definition is_current (n : loc) (w : Registry) : bool :=
  match active w !! request_id (entry w n) with
  | Some m => (m =? n)%nat && (reservation_nonce (entry w m) =? reservation_nonce (entry w n))
  | None => false
  end.

Definition require_current (n : loc) : M unit :=
  w ← sm_get ; sm_reject_if (negb (is_current n w)) StaleLease.

(** [lease.entry.lifecycle.lock().map_err(..)?] *)
Definition lock_lifecycle (n : loc) : M RequestLifecycle :=
  w ← sm_get ;
  sm_reject_if (lifecycle_poisoned (entry w n)) LifecyclePoisoned ;;
  mret (lifecycle (entry w n)).

Definition transition (n : loc) (from to : OperationPhase) : M unit :=
  require_current n ;;
  l ← lock_lifecycle n ;
  sm_reject_if (bool_decide (phase l ≠ from)) TransitionInvalid ;;
  sm_modify (put_lifecycle n {| phase := to; terminal_of := terminal_of l |}) ;;
  sm_modify notify_all.

Definition queue (n : loc) : M unit := transition n Reserved Queued.
Definition start (n : loc) : M unit := transition n Queued Running.

(** A terminal entry is one with this lifecycle. *)
Definition ended (p : OperationPhase) (c : TerminalClass) (nonce : Z) : RequestLifecycle :=
  {| phase := p; terminal_of := Some {| term_class := c; term_sequence := nonce |} |}.

Definition terminal (n : loc) (c : TerminalClass) : M unit :=
  require_current n ;;
  l ← lock_lifecycle n ;
  sm_reject_if (bool_decide (phase l ≠ Running) || bool_decide (is_Some (terminal_of l)))
    TransitionInvalid ;;
  w ← sm_get ;
  sm_modify (put_lifecycle n (ended Terminal c (reservation_nonce (entry w n)))) ;;
  sm_modify notify_all.

(** [RequestLease::reject_queued], [cancel_queued], [finished] and
    [completed_or_failed] *)
Definition reject_queued (n : loc) (c : TerminalClass) : M unit :=
  require_current n ;;
  l ← lock_lifecycle n ;
  sm_reject_if (bool_decide (phase l ≠ Queued) || bool_decide (is_Some (terminal_of l))
                || bool_decide (c = Completed)) TransitionInvalid ;;
  w ← sm_get ;
  sm_modify (put_lifecycle n (ended Terminal c (reservation_nonce (entry w n)))).
Definition cancel_queued (n : loc) : M unit := reject_queued n Cancelled.
Definition finished (n : loc) (c : TerminalClass) : M unit := terminal n c.
Definition failure_class (n : loc) (w : Registry) : TerminalClass :=
  if cancellation_requested (controls (entry w n)) w then Cancelled else Failed.
Definition completed_or_failed (n : loc) (succeeded : bool) : M unit :=
  w ← sm_get ; finished n (if succeeded then Completed else failure_class n w).

(** The drop of a lease. *)
Definition abandon_if_current (n : loc) (w : Registry) : Registry :=
  if negb (is_current n w) then w
  else
    let l := lifecycle (entry w n) in
    let t := match terminal_of l with
             | Some t => t
             | None => {| term_class := failure_class n w;
                          term_sequence := reservation_nonce (entry w n) |}
             end in
    notify_all (put_lifecycle n {| phase := Released; terminal_of := Some t |}
      (set_active (delete (request_id (entry w n)) (active w)) w)).

(** The critical section of [begin_quiesce_and_cancel_all]: the active entries,
    or nothing when the registry is closed. *)
Definition quiesce (w : Registry) : option (list loc) * Registry :=
  if bool_decide (reg_phase w = RegClosed) then (None, w)
  else (Some ((map_to_list (active w)).*2), set_reg_phase RegQuiescing w).

Definition begin_quiesce_and_cancel_all (w : Registry) : Registry :=
  match quiesce w with
  | (None, w) => w
  | (Some ns, w) => notify_all (foldl (λ w n, (cancel_all (controls (entry w n)) w).2) w ns)
  end.

(** The last critical section of [shutdown], once no request is active. *)
Definition close (w : Registry) : RegistryShutdownOutcome * Registry :=
  let outcome := {|
    state_poisoned := poisoned w; active_operations := size (active w); retained_tasks := 0;
    expected_workers := length (expected_worker_ids w);
    joined_workers := length (joined_worker_ids w);
    out_expected_worker_ids := expected_worker_ids w;
    out_joined_worker_ids := joined_worker_ids w |} in
  (outcome, notify_all (set_shutdown outcome (set_reg_phase RegClosed w))).

Definition record_external_worker_joined (worker_id : string) (w : Registry) : Registry :=
  notify_all (if existsb (λ id, (id =? worker_id)%string) (joined_worker_ids w) then w
              else set_workers (expected_worker_ids w) (joined_worker_ids w ++ [worker_id]) w).

Definition mark_closed : M unit :=
  w ← sm_get ;
  sm_reject_if (negb (bool_decide (active w = ∅))) (ActiveReservations (size (active w))) ;;
  sm_modify (λ w, notify_all (set_reg_phase RegClosed w)) ;;
  sm_reject_if (poisoned w) RegistryPoisoned.

(** ** Threads and the running engine *)

(** Where a call of [shutdown] is: before its first critical section, cancelling
    the collected entries, behind that (about to notify, to look for a stored
    outcome, to test the map), asleep on the condition variable, or returned. *)
Inductive Shutdown :=
| Begin
| Cancelling (rest : list loc)
| Cached
| Testing
| Asleep
| Returned (outcome : RegistryShutdownOutcome).

(** The next step of a thread; [Asleep] and [Returned] have none of their own. *)
Definition thread_step (w : Registry) (pc : Shutdown) : option (Registry * Shutdown) :=
  match pc with
  | Begin => match quiesce w with
             | (None, w) => Some (w, Cached)
             | (Some ns, w) => Some (w, Cancelling ns)
             end
  | Cancelling [] => Some (notify_all w, Cached)
  | Cancelling (n :: ns) => Some ((cancel_all (controls (entry w n)) w).2, Cancelling ns)
  | Cached => match shutdown_outcome w with
              | Some o => Some (w, Returned o)
              | None => Some (w, Testing)
              end
  | Testing => if bool_decide (active w = ∅)
               then let '(o, w) := close w in Some (w, Returned o)
               else Some (w, Asleep)
  | Asleep | Returned _ => None
  end.

Record Sys := {
  reg : Registry;
  leases : gset loc;
  threads : gmap nat Shutdown;
}.
Definition initial (worker_id : string) : Sys :=
  {| reg := with_external_worker worker_id; leases := ∅; threads := ∅ |}.

Definition set_reg (w : Registry) (y : Sys) : Sys :=
  {| reg := w; leases := leases y; threads := threads y |}.
Definition set_threads (m : gmap nat Shutdown) (y : Sys) : Sys :=
  {| reg := reg y; leases := leases y; threads := m |}.

Definition wake (pc : Shutdown) : Shutdown := if pc is Asleep then Testing else pc.
Definition poison (w : Registry) : Registry :=
  {| reg_phase := reg_phase w; next_nonce := next_nonce w; active := active w;
     expected_worker_ids := expected_worker_ids w; joined_worker_ids := joined_worker_ids w;
     shutdown_outcome := shutdown_outcome w; poisoned := true; entries := entries w;
     raised := raised w; notifying := notifying w |}.
Definition poison_lifecycle (n : loc) (w : Registry) : Registry :=
  let e := entry w n in
  set_entries (<[n := {| request_id := request_id e; class := class e; controls := controls e;
    reservation_nonce := reservation_nonce e; identity := identity e; lifecycle := lifecycle e;
    lifecycle_poisoned := true |}]> (entries w)) w.

Inductive step : Sys → Sys → Prop :=
| do_reserve id c k n w y : reserve id c k (reg y) = (Ok n, w) →
    step y {| reg := w; leases := {[n]} ∪ leases y; threads := threads y |}
| do_reserve_fails id c k e w y : reserve id c k (reg y) = (Err e, w) → step y (set_reg w y)
| do_queue n y : n ∈ leases y → step y (set_reg (queue n (reg y)).2 y)
| do_start n y : n ∈ leases y → step y (set_reg (start n (reg y)).2 y)
| do_terminal n c y : n ∈ leases y → step y (set_reg (terminal n c (reg y)).2 y)
| do_completed_or_failed n b y : n ∈ leases y →
    step y (set_reg (completed_or_failed n b (reg y)).2 y)
| do_reject_queued n c y : n ∈ leases y → step y (set_reg (reject_queued n c (reg y)).2 y)
| do_drop n y : n ∈ leases y →
    step y {| reg := abandon_if_current n (reg y); leases := leases y ∖ {[n]};
              threads := threads y |}
| do_raise fs y : step y (set_reg (raise fs (reg y)) y)
| do_joined id y : step y (set_reg (record_external_worker_joined id (reg y)) y)
| do_mark_closed y : step y (set_reg (mark_closed (reg y)).2 y)
| do_deliver k y : notifying (reg y) = S k →
    step y {| reg := set_notifying k (reg y); leases := leases y; threads := wake <$> threads y |}
| do_spurious t y : threads y !! t = Some Asleep → step y (set_threads (<[t := Testing]> (threads y)) y)
| do_call t y : threads y !! t = None → step y (set_threads (<[t := Begin]> (threads y)) y)
| do_thread t pc pc' w y : threads y !! t = Some pc → thread_step (reg y) pc = Some (w, pc') →
    step y {| reg := w; leases := leases y; threads := <[t := pc']> (threads y) |}
| do_poison y : step y (set_reg (poison (reg y)) y)
| do_poison_lifecycle n y : n ∈ leases y → step y (set_reg (poison_lifecycle n (reg y)) y).

(** ** The invariant *)

Definition all_raised (w : Registry) (n : loc) : Prop :=
  ∀ f, f ∈ cancellation_flags (controls (entry w n)) → f ∈ raised w.

Record entry_wf (i : nat) (e : ActiveRequest) : Prop := {
  wf_nonce : reservation_nonce e = Z.of_nat i;
  wf_identity : identity e = {| operation_id := request_id e;
    attempt_id := request_attempt_id (request_id e) (Z.of_nat i); sequence := Z.of_nat i |};
  wf_terminal : is_Some (terminal_of (lifecycle e)) ↔
    phase (lifecycle e) = Terminal ∨ phase (lifecycle e) = Released;
  wf_sequence t : terminal_of (lifecycle e) = Some t → term_sequence t = Z.of_nat i;
}.

(** An entry whose lease is held. *)
Definition held (w : Registry) (n : loc) : Prop :=
  (n < length (entries w))%nat ∧ phase (lifecycle (entry w n)) ≠ Released.

Record reg_ok (w : Registry) : Prop := {
  i_next : next_nonce w = len (entries w);
  i_bound : next_nonce w ≤ u64_max;
  i_entry i e : entries w !! i = Some e → entry_wf i e;
  i_active id n : active w !! id = Some n ↔ held w n ∧ request_id (entry w n) = id;
  i_closed : reg_phase w = RegClosed → active w = ∅;
  i_stored o : shutdown_outcome w = Some o → reg_phase w = RegClosed ∧
    active_operations o = 0%nat ∧ retained_tasks o = 0%nat;
  i_joined : NoDup (joined_worker_ids w);
}.

(** What a shutdown call knows at each point. *)
Definition pc_ok (w : Registry) (pc : Shutdown) : Prop :=
  match pc with
  | Begin => True
  | Cancelling ns => reg_phase w ≠ RegRunning ∧ ∀ n, held w n → n ∈ ns ∨ all_raised w n
  | Cached | Testing => reg_phase w ≠ RegRunning ∧ ∀ n, held w n → all_raised w n
  | Asleep => (reg_phase w ≠ RegRunning ∧ ∀ n, held w n → all_raised w n) ∧
      (active w ≠ ∅ ∨ notifying w ≠ 0%nat)
  | Returned o => reg_phase w = RegClosed ∧ active_operations o = 0%nat ∧ retained_tasks o = 0%nat
  end.

Record Inv (y : Sys) : Prop := {
  i_reg : reg_ok (reg y);
  i_leases n : n ∈ leases y ↔ held (reg y) n;
  i_threads t pc : threads y !! t = Some pc → pc_ok (reg y) pc;
}.

(** How one step changes the registry, as seen from any entry and any thread. *)
Record evolves (w w' : Registry) : Prop := {
  ev_length : (length (entries w) ≤ length (entries w'))%nat;
  ev_controls n : (n < length (entries w))%nat → controls (entry w' n) = controls (entry w n);
  ev_held n : held w' n → held w n ∨ reg_phase w = RegRunning;
  ev_raised : raised w ⊆ raised w';
  ev_running : reg_phase w ≠ RegRunning → reg_phase w' ≠ RegRunning;
  ev_closed : reg_phase w = RegClosed → reg_phase w' = RegClosed;
  ev_notifies : (active w ≠ ∅ → active w' ≠ ∅) ∧ (notifying w ≤ notifying w')%nat ∨
    notifying w' ≠ 0%nat;
}.

Lemma evolves_pc w w' pc : evolves w w' → pc_ok w pc → pc_ok w' pc.
Proof.
  intros [E1 E2 E3 E4 E5 E6 E7].
  assert (∀ n, reg_phase w ≠ RegRunning → held w' n → held w n ∧ (all_raised w n → all_raised w' n)) as Hn.
  { intros n Hr Hh. destruct (E3 n Hh) as [Hh'|]; [|done]. split; [done|].
    intros Hall f. rewrite E2 by apply Hh'. intros Hf. by apply E4, Hall. }
  destruct pc as [|ns| | | |o]; simpl; [done|..].
  - intros [Hr Hall]. split; [auto|]. intros n Hh. destruct (Hn n Hr Hh) as [Hw Himp].
    destruct (Hall n Hw); auto.
  - intros [Hr Hall]. split; [auto|]. intros n Hh. destruct (Hn n Hr Hh). auto.
  - intros [Hr Hall]. split; [auto|]. intros n Hh. destruct (Hn n Hr Hh). auto.
  - intros [[Hr Hall] Hp]. split; [split; [auto|]|].
    + intros n Hh. destruct (Hn n Hr Hh). auto.
    + destruct E7 as [[Ha Hk]|]; [|by right]. destruct Hp as [Hp|Hp]; [left; auto|right; lia].
  - intros (? & ? & ?). auto.
Qed.

(** ** Steps that leave the entries alone *)

Record quiet (w w' : Registry) : Prop := {
  q_entries : entries w' = entries w;
  q_active : active w' = active w;
  q_nonce : next_nonce w' = next_nonce w;
  q_raised : raised w ⊆ raised w';
  q_notifying : (notifying w ≤ notifying w')%nat;
  q_phase : reg_phase w' = reg_phase w ∨ reg_phase w' = RegQuiescing ∧ reg_phase w ≠ RegClosed ∨
    reg_phase w' = RegClosed ∧ active w = ∅;
  q_joined : NoDup (joined_worker_ids w) → NoDup (joined_worker_ids w');
  q_stored : shutdown_outcome w' = shutdown_outcome w ∨
    ∃ o, shutdown_outcome w' = Some o ∧ reg_phase w' = RegClosed ∧
      active_operations o = 0%nat ∧ retained_tasks o = 0%nat;
}.

Lemma quiet_refl w : quiet w w.
Proof. split; auto; done. Qed.

Lemma quiet_entry w w' n : quiet w w' → entry w' n = entry w n.
Proof. intros Hq. unfold entry. by rewrite (q_entries _ _ Hq). Qed.

Lemma quiet_held w w' n : quiet w w' → held w' n ↔ held w n.
Proof. intros Hq. unfold held. by rewrite (quiet_entry w w' n Hq), (q_entries _ _ Hq). Qed.

Lemma quiet_ok w w' : quiet w w' → reg_ok w → reg_ok w'.
Proof.
  intros Hq. pose proof Hq as [Q1 Q2 Q3 Q4 Q5 Q6 Q7 Q8]. intros [I1 I2 I3 I4 I5 I6 I7].
  assert (reg_phase w = RegClosed → reg_phase w' = RegClosed) as Hcl.
  { intros Hc. destruct Q6 as [->|[[? ?]|[? ?]]]; done. }
  split; rewrite ?Q1, ?Q2, ?Q3; auto.
  - intros id n. rewrite (quiet_held w w' n Hq), (quiet_entry w w' n Hq). apply I4.
  - intros Hc. destruct Q6 as [Heq|[[Heq _]|[_ ?]]]; [apply I5|..]; congruence.
  - intros o Ho. destruct Q8 as [Heq|(o' & Ho' & ?)]; [|naive_solver].
    rewrite Heq in Ho. destruct (I6 o Ho) as (? & ?). auto.
Qed.

Lemma quiet_evolves w w' : quiet w w' → evolves w w'.
Proof.
  intros Hq. pose proof Hq as [Q1 Q2 Q3 Q4 Q5 Q6 Q7 Q8]. split.
  - by rewrite Q1.
  - intros n _. by rewrite (quiet_entry w w' n Hq).
  - intros n Hh. left. by apply (quiet_held w w' n Hq).
  - done.
  - intros Hr. destruct Q6 as [->|[[-> _]|[-> _]]]; done.
  - intros Hc. destruct Q6 as [->|[[_ ?]|[? _]]]; done.
  - left. by rewrite Q2.
Qed.

Lemma raise_quiet fs w : quiet w (raise fs w).
Proof. split; simpl; auto; try done. set_solver. Qed.

Lemma cancel_all_raise c w : (cancel_all c w).2 = raise (cancellation_flags c) w.
Proof. by destruct c. Qed.

Lemma joined_quiet id w : quiet w (record_external_worker_joined id w).
Proof.
  unfold record_external_worker_joined. destruct (existsb _ _) eqn:He; split; simpl; auto; try done.
  intros Hnd. apply NoDup_app. split_and!; [done| |apply NoDup_singleton].
  intros x Hx ->%list_elem_of_singleton. apply not_true_iff_false in He. apply He.
  apply existsb_exists. exists id. rewrite <- list_elem_of_In, String.eqb_refl. done.
Qed.

Lemma mark_closed_quiet w : quiet w (mark_closed w).2.
Proof.
  unfold mark_closed. sm_unfold. case_bool_decide as Ha; simpl; [|by apply quiet_refl].
  destruct (poisoned w); simpl; split; simpl; auto; done.
Qed.

Lemma poison_quiet w : quiet w (poison w).
Proof. split; simpl; auto; done. Qed.

Lemma thread_step_quiet w pc w' pc' : thread_step w pc = Some (w', pc') → quiet w w'.
Proof.
  destruct pc as [|[|n ns]| | | |o]; simpl; intros Hs.
  - unfold quiesce in Hs. case_bool_decide; simplify_eq; [apply quiet_refl|]. split; simpl; auto; done.
  - simplify_eq. split; simpl; auto; done.
  - rewrite cancel_all_raise in Hs. simplify_eq. apply raise_quiet.
  - destruct (shutdown_outcome w); simplify_eq; apply quiet_refl.
  - case_bool_decide as Ha; unfold close in Hs; simplify_eq; [|apply quiet_refl].
    split; simpl; auto; try done. right. eexists. split; [done|]. simpl. by rewrite Ha.
  - done.
  - done.
Qed.

Lemma all_raised_raise w n : all_raised (raise (cancellation_flags (controls (entry w n))) w) n.
Proof. intros f Hf. simpl. apply elem_of_union_l, elem_of_list_to_set. exact Hf. Qed.

(** What a thread knows after its own step. *)
Lemma thread_step_pc w pc w' pc' :
  reg_ok w → pc_ok w pc → thread_step w pc = Some (w', pc') → pc_ok w' pc'.
Proof.
  intros Hok Hpc Hs. pose proof (thread_step_quiet _ _ _ _ Hs) as Hq.
  destruct pc as [|[|n ns]| | | |o]; simpl in Hs, Hpc.
  - unfold quiesce in Hs. case_bool_decide as Hc; simplify_eq; simpl.
    + split; [by rewrite Hc|]. intros n [Hn Hp]. assert (active w' !! request_id (entry w' n) = Some n) as Ha.
      { by apply (i_active w' Hok). }
      rewrite (i_closed w' Hok Hc) in Ha. done.
    + split; [done|]. intros n Hh. left. apply list_elem_of_fmap. exists (request_id (entry w n), n).
      split; [done|]. apply elem_of_map_to_list. by apply (i_active w Hok).
  - simplify_eq. simpl. destruct Hpc as [Hr Hall]. split; [done|]. intros n Hh.
    destruct (Hall n Hh) as [?%elem_of_nil|]; done.
  - rewrite cancel_all_raise in Hs. simplify_eq. simpl. destruct Hpc as [Hr Hall]. split; [done|].
    intros m Hh. destruct (Hall m Hh) as [[->|?]%elem_of_cons|Hm]; [right; apply all_raised_raise|by left|].
    right. intros f Hf. simpl. apply elem_of_union_r. by apply Hm.
  - destruct (shutdown_outcome w) as [o|] eqn:Ho; simplify_eq; simpl; [|done]. by apply (i_stored w' Hok).
  - case_bool_decide as Ha; unfold close in Hs; simplify_eq; simpl; [by rewrite Ha|]. split; [done|by left].
  - done.
  - done.
Qed.

(** ** Steps on one entry *)

(** The lifecycle as an operation of the specification. Cancellation is kept in
    flags of the caller's that outlive the entry, so it is not part of the view. *)
Definition op_of (l : RequestLifecycle) : Op :=
  mkOp (phase l) false (term_class <$> terminal_of l).

(** One held entry is replaced by a held one of the same request. *)
Record replaces (w w' : Registry) (n : loc) (e : ActiveRequest) : Prop := {
  rp_held : held w n;
  rp_phase : phase (lifecycle e) ≠ Released;
  rp_request : request_id e = request_id (entry w n);
  rp_controls : controls e = controls (entry w n);
  rp_wf : entry_wf n (entry w n) → entry_wf n e;
  rp_steps : rtc op_step (op_of (lifecycle (entry w n))) (op_of (lifecycle e));
  rp_result : ∃ k, (notifying w ≤ k)%nat ∧
    w' = set_notifying k (set_entries (<[n := e]> (entries w)) w);
}.

Lemma replaces_entry w w' n e m : replaces w w' n e →
  entry w' m = if decide (n = m) then e else entry w m.
Proof.
  intros [[Hn _] _ _ _ _ _ (k & _ & ->)]. unfold entry. simpl. case_decide as Heq; [subst m|].
  - by rewrite list_lookup_total_insert_eq.
  - by rewrite list_lookup_total_insert_ne.
Qed.

Lemma replaces_held w w' n e m : replaces w w' n e → held w' m ↔ held w m.
Proof.
  intros Hr. unfold held at 1. rewrite (replaces_entry _ _ _ _ m Hr).
  destruct Hr as [Hh Hp _ _ _ _ (k & _ & ->)]. simpl. rewrite length_insert.
  unfold held. case_decide; [subst|done]. destruct Hh. tauto.
Qed.

Lemma replaces_ok w w' n e : reg_ok w → replaces w w' n e → reg_ok w'.
Proof.
  intros [I1 I2 I3 I4 I5 I6 I7] Hr. pose proof (fun m => replaces_held _ _ _ _ m Hr) as Hheld.
  pose proof (fun m => replaces_entry _ _ _ _ m Hr) as Hentry.
  destruct Hr as [Hh Hp Hrid _ Hwf _ (k & _ & ->)]. split; simpl; try done.
  - unfold len. by rewrite length_insert.
  - intros i e' He. apply list_lookup_insert_Some in He as [(<- & <- & Hn)|[_ He]]; [|by apply I3].
    by apply Hwf, I3, list_lookup_lookup_total_lt.
  - intros id m. rewrite Hheld, Hentry, I4. by case_decide; subst; rewrite ?Hrid.
Qed.

Lemma replaces_evolves w w' n e : replaces w w' n e → evolves w w'.
Proof.
  intros Hr. pose proof (fun m => replaces_held _ _ _ _ m Hr) as Hheld.
  pose proof (fun m => replaces_entry _ _ _ _ m Hr) as Hentry.
  destruct Hr as [Hh Hp Hrid Hcon _ _ (k & Hk & ->)]. split; simpl; try done.
  - by rewrite length_insert.
  - intros m _. rewrite Hentry. by case_decide; subst.
  - intros m. rewrite Hheld. by left.
  - by left.
Qed.

(** The new lifecycle of a method that makes a change. *)
Record changes (w w' : Registry) (n : loc) (l : RequestLifecycle) : Prop := {
  ch_held : held w n;
  ch_phase : phase l ≠ Released;
  ch_wf : is_Some (terminal_of l) ↔ phase l = Terminal;
  ch_sequence t : terminal_of l = Some t → term_sequence t = Z.of_nat n;
  ch_steps : rtc op_step (op_of (lifecycle (entry w n))) (op_of l);
  ch_result : ∃ k, (notifying w ≤ k)%nat ∧ w' = set_notifying k (put_lifecycle n l w);
}.

Lemma changes_replaces w w' n l :
  changes w w' n l → replaces w w' n (set_lifecycle l (entry w n)).
Proof.
  intros [Hh Hp Hwf Hseq Hst Hres]. split; try done. simpl. intros [W1 W2 W3 W4]. split; simpl; try done. tauto.
Qed.

Lemma current_held w n : reg_ok w → is_current n w = true → held w n ∧ reservation_nonce (entry w n) = Z.of_nat n.
Proof.
  intros Hok. unfold is_current. destruct (active w !! _) as [m|] eqn:Ha; [|done].
  rewrite andb_true_iff, Nat.eqb_eq. intros [-> _]. apply (i_active w Hok) in Ha as [Hh _].
  split; [done|]. destruct Hh as [Hn _].
  assert (entries w !! n = Some (entry w n)) as He by by apply list_lookup_lookup_total_lt.
  by apply (i_entry w Hok) in He as [].
Qed.

Lemma held_current w n : reg_ok w → held w n → is_current n w = true.
Proof.
  intros Hok Hh. unfold is_current. rewrite (proj2 (i_active w Hok _ n)) by done.
  by rewrite Nat.eqb_refl, Z.eqb_refl.
Qed.

(** A guarded method changes nothing or makes one change. *)
Definition one_change (w w' : Registry) (n : loc) : Prop := w' = w ∨ ∃ l, changes w w' n l.

Lemma lifecycle_wf w n : reg_ok w → held w n →
  is_Some (terminal_of (lifecycle (entry w n))) ↔ phase (lifecycle (entry w n)) = Terminal.
Proof.
  intros Hok [Hn Hp]. assert (entries w !! n = Some (entry w n)) as He by by apply list_lookup_lookup_total_lt.
  apply (i_entry w Hok) in He as [_ _ Hwf _]. rewrite Hwf. tauto.
Qed.

Lemma op_of_none l p : phase l = p → terminal_of l = None → op_of l = mkOp p false None.
Proof. unfold op_of. by intros -> ->. Qed.

Lemma transition_change n from to w :
  reg_ok w → (from = Reserved ∧ to = Queued ∨ from = Queued ∧ to = Running) →
  one_change w (transition n from to w).2 n.
Proof.
  intros Hok Hft. unfold transition, require_current, lock_lifecycle. sm_unfold.
  destruct (is_current n w) eqn:Hc; simpl; [|by left]. apply current_held in Hc as [Hh _]; [|done].
  destruct (lifecycle_poisoned _); simpl; [by left|]. case_bool_decide as Hp; simpl; [by left|].
  right. eexists. pose proof (lifecycle_wf w n Hok Hh) as Hwf.
  assert (terminal_of (lifecycle (entry w n)) = None) as Ht.
  { apply eq_None_not_Some. rewrite Hwf, Hp. by destruct Hft as [[-> _]|[-> _]]. }
  split; [done| | | | |exists (S (notifying w)); split; [lia|reflexivity]]; simpl; rewrite ?Ht.
  - by destruct Hft as [[_ ->]|[_ ->]].
  - destruct Hft as [[_ ->]|[_ ->]]; (split; [by intros []|done]).
  - done.
  - rewrite (op_of_none _ _ Hp Ht). apply rtc_once. unfold op_of. simpl.
    destruct Hft as [[-> ->]|[-> ->]]; constructor.
Qed.

Lemma terminal_change n c w : reg_ok w → one_change w (terminal n c w).2 n.
Proof.
  intros Hok. unfold terminal, require_current, lock_lifecycle. sm_unfold.
  destruct (is_current n w) eqn:Hc; simpl; [|by left]. apply current_held in Hc as [Hh Hnonce]; [|done].
  destruct (lifecycle_poisoned _); simpl; [by left|]. destruct (_ || _) eqn:Hp; simpl; [by left|].
  bool_prop. apply dec_stable in H. right. eexists.
  split; [done| | | | |exists (S (notifying w)); split; [lia|reflexivity]]; simpl.
  - done.
  - split; [done|by eexists].
  - intros t [= <-]. done.
  - rewrite (op_of_none _ _ H) by by apply eq_None_not_Some. apply rtc_once. constructor.
Qed.

Lemma reject_change n c w : reg_ok w → one_change w (reject_queued n c w).2 n.
Proof.
  intros Hok. unfold reject_queued, require_current, lock_lifecycle. sm_unfold.
  destruct (is_current n w) eqn:Hc; simpl; [|by left]. apply current_held in Hc as [Hh Hnonce]; [|done].
  destruct (lifecycle_poisoned _); simpl; [by left|]. destruct (_ || _) eqn:Hp; simpl; [by left|].
  bool_prop. apply dec_stable in H. right. eexists.
  split; [done| | | | |exists (notifying w); split; [lia|by destruct w]]; simpl.
  - done.
  - split; [done|by eexists].
  - intros t [= <-]. done.
  - rewrite (op_of_none _ _ H) by by apply eq_None_not_Some. apply rtc_once. constructor; [simpl; lia|done].
Qed.

Lemma poison_lifecycle_replaces n w : held w n → ∃ e, replaces w (poison_lifecycle n w) n e.
Proof.
  intros Hh. eexists. split; [done| | | | | |exists (notifying w); split; [lia|by destruct w]]; simpl.
  - apply Hh.
  - done.
  - done.
  - by intros [].
  - done.
Qed.

(** ** Drop *)

Lemma abandon_entry w n m : held w n → reg_ok w →
  entry (abandon_if_current n w) m =
    if decide (n = m) then
      set_lifecycle {| phase := Released; terminal_of :=
        Some (match terminal_of (lifecycle (entry w n)) with
              | Some t => t
              | None => {| term_class := failure_class n w; term_sequence := Z.of_nat n |}
              end) |} (entry w n)
    else entry w m.
Proof.
  intros Hh Hok. pose proof (held_current w n Hok Hh) as Hc. unfold abandon_if_current. rewrite Hc. simpl negb. cbv iota.
  apply current_held in Hc as [_ ->]; [|done]. unfold entry at 1, put_lifecycle, notify_all. simpl.
  case_decide as Heq; [subst m|].
  - rewrite list_lookup_total_insert_eq by apply Hh. done.
  - by rewrite list_lookup_total_insert_ne.
Qed.

Lemma abandon_held w n m : held w n → reg_ok w →
  held (abandon_if_current n w) m ↔ held w m ∧ m ≠ n.
Proof.
  intros Hh Hok. unfold held at 1. rewrite (abandon_entry w n m Hh Hok).
  assert (length (entries (abandon_if_current n w)) = length (entries w)) as ->.
  { unfold abandon_if_current. case_match; [done|]. simpl. by rewrite length_insert. }
  unfold held. case_decide; subst; simpl; naive_solver.
Qed.

Lemma abandon_fields w n : held w n → reg_ok w →
  ∃ l, abandon_if_current n w = notify_all (put_lifecycle n l
    (set_active (delete (request_id (entry w n)) (active w)) w)).
Proof.
  intros Hh Hok. unfold abandon_if_current. rewrite (held_current w n Hok Hh). simpl. by eexists.
Qed.

Lemma abandon_ok w n : held w n → reg_ok w → reg_ok (abandon_if_current n w).
Proof.
  intros Hh Hok. pose proof (fun m => abandon_held w n m Hh Hok) as Hheld.
  pose proof (fun m => abandon_entry w n m Hh Hok) as Hentry.
  destruct (abandon_fields w n Hh Hok) as (l & Heq). pose proof Hok as [I1 I2 I3 I4 I5 I6 I7].
  split; [| | | | | |by rewrite Heq].
  - rewrite Heq. simpl. unfold len. by rewrite length_insert.
  - by rewrite Heq.
  - intros i e He. specialize (Hentry i). pose proof He as He'.
    apply list_lookup_total_correct in He'. unfold entry at 1 in Hentry. rewrite He' in Hentry.
    assert (i < length (entries w))%nat as Hi.
    { apply lookup_lt_Some in He. rewrite Heq in He. simpl in He. by rewrite length_insert in He. }
    assert (entries w !! i = Some (entry w i)) as Hei by by apply list_lookup_lookup_total_lt.
    pose proof (I3 i _ Hei) as [W1 W2 W3 W4]. case_decide; subst; [|done].
    split; simpl; try done; [naive_solver|]. intros t [= <-].
    destruct (terminal_of _) eqn:Ht; [by apply W4|done].
  - intros id m. rewrite Hheld, Hentry. rewrite Heq. simpl. rewrite lookup_delete_Some, I4. split.
    + intros (Hne & Hm & Hid). case_decide; [by subst|]. auto.
    + intros ((Hm & Hne) & Hid). case_decide; [by subst|]. split; [|done].
      intros Heqid. apply Hne. assert (active w !! id = Some n) as H1 by (by apply I4).
      assert (active w !! id = Some m) as H2 by (by apply I4). congruence.
  - rewrite Heq. simpl. intros Hc. by rewrite I5, delete_empty.
  - by rewrite Heq.
Qed.

Lemma abandon_evolves w n : held w n → reg_ok w → evolves w (abandon_if_current n w).
Proof.
  intros Hh Hok. pose proof (fun m => abandon_held w n m Hh Hok) as Hheld.
  pose proof (fun m => abandon_entry w n m Hh Hok) as Hentry.
  destruct (abandon_fields w n Hh Hok) as (l & Heq). split; try (by rewrite Heq).
  - rewrite Heq. simpl. by rewrite length_insert.
  - intros m _. rewrite Hentry. by case_decide; subst.
  - intros m. rewrite Hheld. tauto.
  - right. by rewrite Heq.
Qed.

(** ** Reserve *)

Definition fresh_entry (id : string) (c : RequestClass) (k : RequestControls) (n : nat) : ActiveRequest :=
  {| request_id := id; class := c; controls := k; reservation_nonce := Z.of_nat n;
     identity := {| operation_id := id; attempt_id := request_attempt_id id (Z.of_nat n);
                    sequence := Z.of_nat n |};
     lifecycle := {| phase := Reserved; terminal_of := None |}; lifecycle_poisoned := false |}.

(** A reservation succeeds exactly under these conditions, with this effect. *)
Definition reserved (id : string) (c : RequestClass) (k : RequestControls) (w : Registry) : Registry :=
  set_active (<[id := length (entries w)]> (active w))
    (set_entries (entries w ++ [fresh_entry id c k (length (entries w))])
      (set_next_nonce (next_nonce w + 1) w)).

Lemma reserve_is id c k w : reg_ok w →
  reserve id c k w =
    if poisoned w then (Err RegistryPoisoned, w)
    else if bool_decide (reg_phase w ≠ RegRunning) then (Err AdmissionClosed, w)
    else if bool_decide (is_Some (active w !! id)) then (Err (DuplicateActive id), w)
    else if u64_max <=? next_nonce w then (Err SequenceOverflowed, w)
    else (Ok (length (entries w)), reserved id c k w).
Proof.
  intros Hok. unfold reserve. sm_unfold. destruct (poisoned w); [done|].
  case_bool_decide; [done|]. case_bool_decide; [done|]. unfold checked_add.
  destruct (Z.leb_spec (next_nonce w + 1) u64_max); destruct (Z.leb_spec u64_max (next_nonce w)); try lia; try done.
  simpl. unfold reserved. rewrite (i_next w Hok). done.
Qed.

Lemma reserved_entry id c k w m : (m < length (entries w))%nat → entry (reserved id c k w) m = entry w m.
Proof. intros. unfold entry. simpl. rewrite !list_lookup_total_alt. by rewrite lookup_app_l. Qed.

Lemma reserved_new id c k w :
  entry (reserved id c k w) (length (entries w)) = fresh_entry id c k (length (entries w)).
Proof. unfold entry. simpl. apply list_lookup_total_correct. by apply list_lookup_middle. Qed.

Lemma reserved_held id c k w m :
  held (reserved id c k w) m ↔ held w m ∨ m = length (entries w).
Proof.
  unfold held at 1. simpl. rewrite length_app. simpl.
  destruct (decide (m < length (entries w))%nat).
  - rewrite reserved_entry by done. unfold held. split; [left; tauto|].
    intros [[_ ?]| ->]; [|lia]. split; [lia|done].
  - split.
    + intros [? _]. right. lia.
    + intros [[? _]| ->]; [lia|]. rewrite reserved_new. simpl. split; [lia|done].
Qed.

Lemma reserved_ok id c k w :
  reg_ok w → active w !! id = None → reg_phase w = RegRunning → next_nonce w < u64_max →
  reg_ok (reserved id c k w).
Proof.
  intros [I1 I2 I3 I4 I5 I6 I7] Hid Hr Hn. split; simpl; try done.
  - rewrite I1, len_app. done.
  - lia.
  - intros i e [[_ He]|[Hi <-]]%lookup_snoc_Some; [by apply I3|]. subst i. split; simpl; try done.
    split; [by intros []|by intros []].
  - intros id' m. rewrite reserved_held, lookup_insert_Some, I4. split.
    + intros [[<- <-]|[Hne [Hh Hm]]].
      * rewrite reserved_new. auto.
      * rewrite reserved_entry by apply Hh. auto.
    + intros [[Hh| ->] Hm].
      * right. rewrite reserved_entry in Hm by apply Hh. split; [|done]. intros <-.
        assert (active w !! id = Some m) by (by apply I4). congruence.
      * left. rewrite reserved_new in Hm. by simpl in Hm.
  - by rewrite Hr.
Qed.

Lemma reserved_evolves id c k w : reg_phase w = RegRunning → evolves w (reserved id c k w).
Proof.
  intros Hr. split; simpl; try done.
  - rewrite length_app. lia.
  - intros n Hn. by rewrite reserved_entry.
  - intros n _. by right.
  - left. split; [|done]. intros _. apply insert_non_empty.
Qed.

(** ** Every step moves every operation along its lifecycle *)

Definition view (w : Registry) (n : loc) : option Op :=
  if decide (n < length (entries w))%nat then Some (op_of (lifecycle (entry w n))) else None.

Record moves (w w' : Registry) : Prop := {
  mv_steps n o : view w n = Some o → ∃ o', view w' n = Some o' ∧ rtc op_step o o';
  mv_fresh n o : view w n = None → view w' n = Some o → o = op_initial;
}.

Lemma moves_same_length w w' :
  length (entries w') = length (entries w) →
  (∀ n, (n < length (entries w))%nat →
    rtc op_step (op_of (lifecycle (entry w n))) (op_of (lifecycle (entry w' n)))) →
  moves w w'.
Proof.
  intros Hl Hs. split; intros n o; unfold view; rewrite Hl; case_decide; try done.
  intros [= <-]. eauto.
Qed.

Lemma quiet_moves w w' : quiet w w' → moves w w'.
Proof.
  intros Hq. apply moves_same_length; [by rewrite (q_entries _ _ Hq)|].
  intros n _. by rewrite (quiet_entry w w' n Hq).
Qed.

Lemma replaces_moves w w' n e : replaces w w' n e → moves w w'.
Proof.
  intros Hr. apply moves_same_length.
  - destruct Hr as [_ _ _ _ _ _ (k & _ & ->)]. simpl. by rewrite length_insert.
  - intros m _. rewrite (replaces_entry _ _ _ _ m Hr). case_decide; [subst|done]. by apply (rp_steps _ _ _ _ Hr).
Qed.

Lemma abandon_moves w n : held w n → reg_ok w → moves w (abandon_if_current n w).
Proof.
  intros Hh Hok. apply moves_same_length.
  - destruct (abandon_fields w n Hh Hok) as (l & ->). simpl. by rewrite length_insert.
  - intros m _. rewrite (abandon_entry w n m Hh Hok). case_decide; [subst m|done].
    pose proof (lifecycle_wf w n Hok Hh) as Hwf. destruct Hh as [_ Hp]. unfold op_of at 2. simpl.
    destruct (lifecycle (entry w n)) as [p [t|]]; unfold op_of; simpl in *.
    + assert (p = Terminal) as -> by (apply Hwf; by eexists). apply rtc_once. constructor.
    + assert (failure_class n w ≠ Completed) as Hf by (unfold failure_class; by case_match).
      assert (p ≠ Terminal) by (intros Ht; apply Hwf in Ht as []; done).
      eapply rtc_l; [|apply rtc_once; constructor].
      destruct p; try done; try (constructor; [simpl; lia|done]). constructor.
Qed.

Lemma reserved_moves id c k w : moves w (reserved id c k w).
Proof.
  split; intros n o; unfold view; simpl; rewrite length_app; simpl; repeat case_decide; try done; try lia.
  - intros [= <-]. rewrite reserved_entry by done. by eexists.
  - intros _ [= <-]. assert (n = length (entries w)) as -> by lia. by rewrite reserved_new.
Qed.

(** ** The invariant holds of every run *)

Lemma inv_evolve y w :
  Inv y → reg_ok w → evolves (reg y) w → (∀ n, held w n ↔ held (reg y) n) → Inv (set_reg w y).
Proof.
  intros [I1 I2 I3] Hok Hev Hh. split; simpl; [done| |].
  - intros n. rewrite Hh. apply I2.
  - intros t pc Ht. eapply evolves_pc; [done|by eapply I3].
Qed.

Lemma inv_quiet y w : Inv y → quiet (reg y) w → Inv (set_reg w y).
Proof.
  intros HI Hq. pose proof HI as [I1 _ _]. apply inv_evolve; [done|by eapply quiet_ok|by apply quiet_evolves|].
  intros n. by apply quiet_held.
Qed.

Lemma inv_replaces y w n e : Inv y → replaces (reg y) w n e → Inv (set_reg w y).
Proof.
  intros HI Hr. pose proof HI as [I1 _ _].
  apply inv_evolve; [done|by eapply replaces_ok|by eapply replaces_evolves|].
  intros m. by eapply replaces_held.
Qed.

Lemma inv_one_change y w n : Inv y → one_change (reg y) w n → Inv (set_reg w y) ∧ moves (reg y) w.
Proof.
  intros HI [->|(l & Hch%changes_replaces)].
  - split; [destruct y; done|]. apply quiet_moves, quiet_refl.
  - split; [by eapply inv_replaces|by eapply replaces_moves].
Qed.

Lemma completed_or_failed_change n b w : reg_ok w → one_change w (completed_or_failed n b w).2 n.
Proof. intros Hok. by apply terminal_change. Qed.

Lemma inv_deliver y k : Inv y → notifying (reg y) = S k →
  Inv {| reg := set_notifying k (reg y); leases := leases y; threads := wake <$> threads y |}.
Proof.
  intros [I1 I2 I3] _. split; simpl; [by destruct I1|apply I2|].
  intros t pc. rewrite lookup_fmap_Some. intros (pc0 & <- & Ht). specialize (I3 t pc0 Ht).
  destruct pc0; simpl in *; try done. tauto.
Qed.

Lemma inv_step y y' : Inv y → step y y' → Inv y' ∧ moves (reg y) (reg y').
Proof.
  intros HI Hstep. pose proof HI as [I1 I2 I3].
  destruct Hstep as [id c k n w y Hr|id c k e w y Hr|n y Hn|n y Hn|n c y Hn|n b y Hn|n c y Hn|n y Hn
    |fs y|id y|y|k y Hk|t y Ht|t y Ht|t pc pc' w y Ht Hs|y|n y Hn]; simpl.
  - rewrite reserve_is in Hr by done. repeat case_match; simplify_eq. repeat case_bool_decide; simplify_eq.
    bool_prop. assert (active (reg y) !! id = None) as Hid by by apply eq_None_not_Some.
    assert (reg_phase (reg y) = RegRunning) as Hrun by done.
    split; [|apply reserved_moves]. split; simpl.
    + by apply reserved_ok.
    + intros m. rewrite elem_of_union, elem_of_singleton, reserved_held, I2. tauto.
    + intros t pc Ht. eapply evolves_pc; [by apply reserved_evolves|by eapply I3].
  - rewrite reserve_is in Hr by done. assert (w = reg y) as -> by (repeat case_match; by simplify_eq).
    split; [by destruct y|apply quiet_moves, quiet_refl].
  - eapply inv_one_change; [done|]. apply transition_change; auto.
  - eapply inv_one_change; [done|]. apply transition_change; auto.
  - eapply inv_one_change; [done|]. by apply terminal_change.
  - eapply inv_one_change; [done|]. by apply completed_or_failed_change.
  - eapply inv_one_change; [done|]. by apply reject_change.
  - apply I2 in Hn. split; [|by apply abandon_moves]. split; simpl; [by apply abandon_ok| |].
    + intros m. rewrite elem_of_difference, elem_of_singleton, abandon_held, I2 by done. tauto.
    + intros t pc Ht. eapply evolves_pc; [by apply abandon_evolves|by eapply I3].
  - split; [apply inv_quiet|apply quiet_moves]; try done; apply raise_quiet.
  - split; [apply inv_quiet|apply quiet_moves]; try done; apply joined_quiet.
  - split; [apply inv_quiet|apply quiet_moves]; try done; apply mark_closed_quiet.
  - split; [by apply inv_deliver|]. apply moves_same_length; [done|]. intros n _. done.
  - split; [|apply quiet_moves, quiet_refl]. split; simpl; [done..|].
    intros t' pc [[<- <-]|[_ Hpc]]%lookup_insert_Some; [|by eapply I3].
    apply I3 in Ht. simpl in *. tauto.
  - split; [|apply quiet_moves, quiet_refl]. split; simpl; [done..|].
    intros t' pc [[<- <-]|[_ Hpc]]%lookup_insert_Some; [done|by eapply I3].
  - pose proof (thread_step_quiet _ _ _ _ Hs) as Hq. split; [|by apply quiet_moves].
    pose proof (inv_quiet y w HI Hq) as [J1 J2 J3]. split; simpl; [done|apply J2|].
    intros t' p [[<- <-]|[_ Hp]]%lookup_insert_Some; [|by eapply J3].
    by apply (thread_step_pc (reg y) pc w pc' I1 (I3 _ _ Ht)).
  - split; [apply inv_quiet|apply quiet_moves]; try done; apply poison_quiet.
  - apply I2 in Hn. destruct (poison_lifecycle_replaces n (reg y) Hn) as (e & Hr).
    split; [by eapply inv_replaces|by eapply replaces_moves].
Qed.

(** What the holder of an entry can rely on. *)
Record keeps (w w' : Registry) : Prop := {
  k_length : (length (entries w) ≤ length (entries w'))%nat;
  k_controls n : (n < length (entries w))%nat → controls (entry w' n) = controls (entry w n);
  k_raised : raised w ⊆ raised w';
}.

Lemma evolves_keeps w w' : evolves w w' → keeps w w'.
Proof. by intros []. Qed.

Lemma keeps_refl w : keeps w w.
Proof. by split. Qed.

Lemma one_change_keeps w w' n : one_change w w' n → keeps w w'.
Proof.
  intros [->|(l & Hch%changes_replaces)]; [apply keeps_refl|].
  by eapply evolves_keeps, replaces_evolves.
Qed.

Lemma quiet_keeps w w' : quiet w w' → keeps w w'.
Proof. intros Hq. by apply evolves_keeps, quiet_evolves. Qed.

Lemma step_keeps y y' : Inv y → step y y' → keeps (reg y) (reg y').
Proof.
  intros [I1 I2 I3] Hstep.
  destruct Hstep as [id c k n w y Hr|id c k e w y Hr|n y Hn|n y Hn|n c y Hn|n b y Hn|n c y Hn|n y Hn
    |fs y|id y|y|k y Hk|t y Ht|t y Ht|t pc pc' w y Ht Hs|y|n y Hn]; simpl.
  - rewrite reserve_is in Hr by done. repeat case_match; simplify_eq.
    apply evolves_keeps, reserved_evolves. bool_prop. by apply dec_stable.
  - rewrite reserve_is in Hr by done. assert (w = reg y) as -> by (repeat case_match; by simplify_eq).
    apply keeps_refl.
  - eapply one_change_keeps, transition_change; auto.
  - eapply one_change_keeps, transition_change; auto.
  - by eapply one_change_keeps, terminal_change.
  - by eapply one_change_keeps, completed_or_failed_change.
  - by eapply one_change_keeps, reject_change.
  - apply I2 in Hn. by apply evolves_keeps, abandon_evolves.
  - apply quiet_keeps, raise_quiet.
  - apply quiet_keeps, joined_quiet.
  - apply quiet_keeps, mark_closed_quiet.
  - by split.
  - apply keeps_refl.
  - apply keeps_refl.
  - eapply quiet_keeps, thread_step_quiet, Hs.
  - apply quiet_keeps, poison_quiet.
  - apply I2 in Hn. destruct (poison_lifecycle_replaces n (reg y) Hn) as (e & Hr).
    by eapply evolves_keeps, replaces_evolves.
Qed.

Lemma native_initial_inv id : Inv (initial id).
Proof.
  split; simpl.
  - split; simpl; try done.
    + intros id' n. rewrite lookup_empty. unfold held. simpl. split; [done|]. intros [[? _] _]. lia.
    + constructor.
  - intros n. unfold held. simpl. split; [set_solver|]. intros [? _]. lia.
  - done.
Qed.

#[export] Instance native_owner : OperationOwner Sys loc.
Proof.
  refine {| owner_inv := Inv; owner_step := step; owner_view := λ y, view (reg y) |}.
  - intros y y' HI Hs. by apply (inv_step y y').
  - intros y y' n o HI Hs. destruct (inv_step y y' HI Hs) as [_ Hm]. by apply (mv_steps _ _ Hm).
  - intros y y' n o HI Hs. destruct (inv_step y y' HI Hs) as [_ Hm]. by apply (mv_fresh _ _ Hm).
Defined.

Lemma native_reachable_inv id y : rtc step (initial id) y → Inv y.
Proof. exact (owner_run_inv (Ident := loc) _ _ (native_initial_inv id)). Qed.

(** ** Theorems *)

Lemma run_view_of id y y' n :
  rtc step (initial id) y → rtc step y y' → (n < length (entries (reg y)))%nat →
  (n < length (entries (reg y')))%nat ∧
  rtc op_step (op_of (lifecycle (entry (reg y) n))) (op_of (lifecycle (entry (reg y') n))).
Proof.
  intros Hy Hy' Hn. pose proof (native_reachable_inv id y Hy) as HI.
  destruct (@owner_run_view Sys loc native_owner y y' n (op_of (lifecycle (entry (reg y) n))) HI Hy') as (o & Ho & Hs).
  { simpl. unfold view. by rewrite decide_True. }
  simpl in Ho. unfold view in Ho. case_decide; simplify_eq. done.
Qed.

(** Every request of the native engine goes through the lifecycle of the
    specification: between any two moments of any run, however the calls on the
    registry interleave and whatever panics poison, its phase only advances and a
    recorded terminal result stays; and it is in the map of active requests
    exactly as long as its lease is held, which is until it is Released. *)
Theorem native_requests_follow_lifecycle id y y' n :
  rtc step (initial id) y → rtc step y y' → (n < length (entries (reg y)))%nat →
  rtc op_step op_initial (op_of (lifecycle (entry (reg y) n))) ∧
  rtc op_step (op_of (lifecycle (entry (reg y) n))) (op_of (lifecycle (entry (reg y') n))) ∧
  op_le (op_of (lifecycle (entry (reg y) n))) (op_of (lifecycle (entry (reg y') n))) ∧
  (n ∈ leases y' ↔ phase (lifecycle (entry (reg y') n)) ≠ Released) ∧
  (n ∈ leases y' ↔ active (reg y') !! request_id (entry (reg y') n) = Some n).
Proof.
  intros Hy Hy' Hn. destruct (run_view_of id y y' n Hy Hy' Hn) as [Hn' Hs].
  pose proof (native_reachable_inv id y') as [I1 I2 _]; [by etrans|].
  split_and!; [|done|by apply op_steps_le| |].
  - apply (@owner_run_fresh Sys loc native_owner (initial id) y n _ (native_initial_inv id) Hy); simpl; unfold view.
    + rewrite decide_False; [done|]. simpl. lia.
    + by rewrite decide_True.
  - rewrite I2. unfold held. tauto.
  - rewrite I2. rewrite (i_active _ I1). tauto.
Qed.

Lemma cancellation_requested_iff w n :
  cancellation_requested (controls (entry w n)) w = true ↔
  ∃ f, f ∈ cancellation_flags (controls (entry w n)) ∧ f ∈ raised w.
Proof.
  assert (∀ fs : list (string * flag), existsb (λ p, bool_decide (p.2 ∈ raised w)) fs = true ↔
    ∃ f, f ∈ fs.*2 ∧ f ∈ raised w) as Hl.
  { intros fs. rewrite existsb_exists. setoid_rewrite <- list_elem_of_In.
    setoid_rewrite bool_decide_eq_true. setoid_rewrite list_elem_of_fmap. naive_solver. }
  assert (∀ f, bool_decide (f ∈ raised w) = true ↔ ∃ f', f' ∈ [f] ∧ f' ∈ raised w) as Hf.
  { intros f. rewrite bool_decide_eq_true. setoid_rewrite list_elem_of_singleton. naive_solver. }
  destruct (controls (entry w n)); simpl; auto.
Qed.

(** The drop of a lease ends its request and no other. The request becomes
    Released with the result it already had, or else as Cancelled when one of its
    cancellation flags is raised and as Failed when none is; it leaves the map, and
    its id can be reserved again, while every other request is as before. *)
Theorem native_drop_releases id y n c k :
  rtc step (initial id) y → n ∈ leases y →
  let w := reg y in
  let w' := abandon_if_current n w in
  let e := entry w n in
  (∃ t, lifecycle (entry w' n) = {| phase := Released; terminal_of := Some t |} ∧
     term_sequence t = reservation_nonce e ∧
     (terminal_of (lifecycle e) = Some t ∨
      terminal_of (lifecycle e) = None ∧
      (term_class t = Cancelled ∧ (∃ f, f ∈ cancellation_flags (controls e) ∧ f ∈ raised w) ∨
       term_class t = Failed ∧ ∀ f, f ∈ cancellation_flags (controls e) → f ∉ raised w))) ∧
  active w !! request_id e = Some n ∧ active w' = delete (request_id e) (active w) ∧
  (∀ m, m ≠ n → entry w' m = entry w m) ∧ raised w' = raised w ∧
  (poisoned w = false → reg_phase w = RegRunning → next_nonce w < u64_max →
   ∃ w'', reserve (request_id e) c k w' = (Ok (length (entries w)), w'')).
Proof.
  intros Hy Hn w w' e. subst w w' e. pose proof (native_reachable_inv id y Hy) as [I1 I2 _]. apply I2 in Hn.
  destruct (abandon_fields (reg y) n Hn I1) as (l & Heq).
  pose proof (abandon_entry (reg y) n n Hn I1) as He. rewrite decide_True in He by done.
  pose proof (current_held _ _ I1 (held_current _ _ I1 Hn)) as [_ Hnonce].
  pose proof (wf_sequence _ _ (i_entry _ I1 n _ (list_lookup_lookup_total_lt _ _ (proj1 Hn)))) as Hseq.
  split_and!.
  - rewrite He. simpl. eexists. split; [reflexivity|]. rewrite Hnonce.
    unfold entry in *. destruct (terminal_of _) as [t|] eqn:Ht; [by auto|]. split; [done|]. right. split; [done|].
    simpl. unfold failure_class.
    destruct (cancellation_requested (controls (entry (reg y) n)) (reg y)) eqn:Hc.
    + left. split; [done|]. by apply cancellation_requested_iff.
    + right. split; [done|]. intros f Hf Hr. apply not_true_iff_false in Hc. apply Hc.
      apply cancellation_requested_iff. by exists f.
  - by apply (i_active _ I1).
  - by rewrite Heq.
  - intros m Hm. rewrite abandon_entry by done. by rewrite decide_False.
  - by rewrite Heq.
  - intros Hp Hr Hb. rewrite reserve_is by by apply abandon_ok. rewrite Heq. simpl.
    rewrite Hp, Hr, lookup_delete_eq, length_insert, !bool_decide_eq_false_2 by (by intros [] || congruence).
    rewrite (proj2 (Z.leb_gt _ _)) by done. eauto.
Qed.

Definition past_cancelling (pc : Shutdown) : Prop :=
  match pc with Begin | Cancelling _ => False | _ => True end.

Lemma past_cancelling_knows y t pc :
  Inv y → threads y !! t = Some pc → past_cancelling pc →
  reg_phase (reg y) ≠ RegRunning ∧ ∀ n, n ∈ leases y → all_raised (reg y) n.
Proof.
  intros [I1 I2 I3] Ht Hpc. apply I3 in Ht. destruct pc as [| | | | |o]; simpl in *; try done.
  - destruct Ht as [Hr Hall]. split; [done|]. intros n Hn. by apply Hall, I2.
  - destruct Ht as [Hr Hall]. split; [done|]. intros n Hn. by apply Hall, I2.
  - destruct Ht as [[Hr Hall] _]. split; [done|]. intros n Hn. by apply Hall, I2.
  - destruct Ht as [Hr _]. split; [by rewrite Hr|]. intros n Hn%I2.
    assert (active (reg y) !! request_id (entry (reg y) n) = Some n) as Ha by by apply (i_active _ I1).
    by rewrite (i_closed _ I1 Hr) in Ha.
Qed.

(** Quiescing reaches every request. Once any shutdown call is past its
    cancelling loop, all cancellation flags of all requests that still hold a lease
    are raised, and no request is admitted any more: none can have slipped in
    between the closing of admission and the cancellation. *)
Theorem native_quiesce_cancels_all id y t pc :
  rtc step (initial id) y → threads y !! t = Some pc → past_cancelling pc →
  (∀ n f, n ∈ leases y → f ∈ cancellation_flags (controls (entry (reg y) n)) → f ∈ raised (reg y)) ∧
  ∀ rid c k, ∃ e, reserve rid c k (reg y) = (Err e, reg y) ∧
    (poisoned (reg y) = false → code e = WorkerStopped).
Proof.
  intros Hy Ht Hpc. pose proof (native_reachable_inv id y Hy) as HI.
  destruct (past_cancelling_knows y t pc HI Ht Hpc) as [Hr Hall]. split; [intros n f Hn; by apply Hall|].
  intros rid c k. rewrite reserve_is by apply HI. destruct (poisoned (reg y)); [by eexists|].
  rewrite bool_decide_eq_true_2 by done. by eexists.
Qed.

(** C22: When [shutdown] returns, the engine is drained for good: its outcome
    reports no active operation, and from then on no lease is held, no request is
    active, every request ever admitted is Released with a result, and the registry
    stays closed. *)
Theorem native_shutdown_drains id y y' t o :
  rtc step (initial id) y → threads y !! t = Some (Returned o) → rtc step y y' →
  active_operations o = 0%nat ∧ retained_tasks o = 0%nat ∧
  reg_phase (reg y') = RegClosed ∧ leases y' = ∅ ∧ active (reg y') = ∅ ∧
  ∀ n, (n < length (entries (reg y')))%nat →
    phase (lifecycle (entry (reg y') n)) = Released ∧ is_Some (terminal_of (lifecycle (entry (reg y') n))).
Proof.
  intros Hy Ht Hy'. assert (Inv y') as HI by (eapply native_reachable_inv; by etrans).
  assert (reg_phase (reg y) = RegClosed ∧ active_operations o = 0%nat ∧ retained_tasks o = 0%nat) as (Hcl & Ho & Hr).
  { pose proof (native_reachable_inv id y Hy) as [_ _ I3]. by apply I3 in Ht. }
  assert (threads y' !! t = Some (Returned o)) as Ht'.
  { clear -Hy' Ht. induction Hy' as [|x z w Hxz _ IH]; [done|]. apply IH.
    destruct Hxz; simpl; try done.
    - rewrite lookup_fmap, Ht. done.
    - rewrite lookup_insert_ne; [done|]. by intros ->; simplify_eq.
    - rewrite lookup_insert_ne; [done|]. by intros ->; simplify_eq.
    - rewrite lookup_insert_ne; [done|]. by intros ->; simplify_eq. }
  pose proof HI as [I1 I2 I3]. apply I3 in Ht' as (Hcl' & _). pose proof (i_closed _ I1 Hcl') as Ha.
  assert (∀ n, ¬ held (reg y') n) as Hnone.
  { intros n Hh. assert (active (reg y') !! request_id (entry (reg y') n) = Some n) as Han by by apply (i_active _ I1).
    by rewrite Ha in Han. }
  split_and!; try done.
  - apply set_eq. intros n. rewrite I2, elem_of_empty. split; [apply Hnone|done].
  - intros n Hn. assert (phase (lifecycle (entry (reg y') n)) = Released) as Hp.
    { destruct (decide (phase (lifecycle (entry (reg y') n)) = Released)); [done|]. by destruct (Hnone n). }
    split; [done|]. apply (wf_terminal _ _ (i_entry _ I1 n _ (list_lookup_lookup_total_lt _ _ Hn))). by right.
Qed.

(** The steps a shutdown call needs: its own, and deliveries of notifications. *)
Inductive own_step (t : nat) : Sys → Sys → Prop :=
| own_thread pc pc' w y : threads y !! t = Some pc → thread_step (reg y) pc = Some (w, pc') →
    own_step t y {| reg := w; leases := leases y; threads := <[t := pc']> (threads y) |}
| own_deliver k y : notifying (reg y) = S k →
    own_step t y {| reg := set_notifying k (reg y); leases := leases y; threads := wake <$> threads y |}.

Lemma own_step_step t y y' : own_step t y y' → step y y'.
Proof. intros []; by econstructor. Qed.

Definition returns_by (t : nat) (y : Sys) : Prop :=
  ∃ y' o, rtc (own_step t) y y' ∧ threads y' !! t = Some (Returned o).

Lemma returns_by_step t y y' : own_step t y y' → returns_by t y' → returns_by t y.
Proof. intros Hs (z & o & Hz & Ho). exists z, o. split; [by eapply rtc_l|done]. Qed.

Lemma testing_returns t y :
  threads y !! t = Some Testing → active (reg y) = ∅ → returns_by t y.
Proof.
  intros Ht Ha. eapply returns_by_step.
  - eapply own_thread; [done|]. simpl. rewrite bool_decide_eq_true_2 by done. reflexivity.
  - eexists _, _. split; [done|]. simpl. apply lookup_insert_eq.
Qed.

Lemma cached_returns t y :
  threads y !! t = Some Cached → active (reg y) = ∅ → returns_by t y.
Proof.
  intros Ht Ha. destruct (shutdown_outcome (reg y)) as [o|] eqn:Ho; (eapply returns_by_step;
    [eapply own_thread; [done|]; simpl; rewrite Ho; reflexivity|]).
  - eexists _, _. split; [done|]. simpl. apply lookup_insert_eq.
  - apply testing_returns; [apply lookup_insert_eq|done].
Qed.

Lemma cancelling_returns t ns y :
  threads y !! t = Some (Cancelling ns) → active (reg y) = ∅ → returns_by t y.
Proof.
  revert y. induction ns as [|n ns IH]; intros y Ht Ha.
  - eapply returns_by_step; [eapply own_thread; [done|reflexivity]|].
    apply cached_returns; [apply lookup_insert_eq|done].
  - eapply returns_by_step; [eapply own_thread; [done|reflexivity]|].
    apply IH; [apply lookup_insert_eq|]. simpl. by rewrite cancel_all_raise.
Qed.

(** C23: No shutdown call hangs. As soon as every lease has been dropped, a call
    that has not returned, wherever it is, returns by its own steps and the
    deliveries of notifications already under way: the drop that emptied the map
    cannot have been missed by a sleeping call. *)
Theorem native_shutdown_returns id y t pc :
  rtc step (initial id) y → threads y !! t = Some pc → leases y = ∅ →
  ∃ y' o, rtc (own_step t) y y' ∧ rtc step y y' ∧ threads y' !! t = Some (Returned o).
Proof.
  intros Hy Ht Hl. pose proof (native_reachable_inv id y Hy) as [I1 I2 I3].
  assert (active (reg y) = ∅) as Ha.
  { apply map_empty. intros rid. apply eq_None_not_Some. intros (n & [Hh _]%(i_active _ I1)).
    apply I2 in Hh. rewrite Hl in Hh. set_solver. }
  assert (returns_by t y) as (y' & o & Hrun & Ho).
  { destruct pc as [|ns| | | |o].
    - unfold returns_by. destruct (quiesce (reg y)) as [[ns|] w] eqn:Hq;
        (eapply returns_by_step; [eapply own_thread; [done|]; simpl; rewrite Hq; reflexivity|]);
        unfold quiesce in Hq; case_bool_decide; simplify_eq.
      + eapply cancelling_returns; [apply lookup_insert_eq|done].
      + apply cached_returns; [apply lookup_insert_eq|done].
    - by eapply cancelling_returns.
    - by apply cached_returns.
    - by apply testing_returns.
    - destruct (I3 _ _ Ht) as [_ [?|Hk]]; [done|]. destruct (notifying (reg y)) as [|k] eqn:Hn; [done|].
      eapply returns_by_step; [by eapply own_deliver|]. apply testing_returns; [|done].
      simpl. by rewrite lookup_fmap, Ht.
    - by exists y, o. }
  exists y', o. split; [done|]. split; [|done].
  eapply (rtc_subrel (own_step t) (rtc step)); [|apply _|apply _|done].
  intros x z Hs. by eapply rtc_once, own_step_step.
Qed.

(** [reserve] on every branch. It succeeds exactly when the registry is not
    poisoned, admission is open, the id is not active and the sequence is not
    exhausted; then it adds exactly one Reserved request, under an identity no
    earlier request had, and a refused call changes nothing. *)
Theorem native_reserve_exact id y rid c k :
  rtc step (initial id) y →
  let w := reg y in
  match reserve rid c k w with
  | (Ok n, w') =>
      poisoned w = false ∧ reg_phase w = RegRunning ∧ active w !! rid = None ∧
      next_nonce w < u64_max ∧
      n = length (entries w) ∧ entries w' = entries w ++ [fresh_entry rid c k n] ∧
      active w' = <[rid := n]> (active w) ∧ raised w' = raised w ∧
      ∀ m, (m < n)%nat → sequence (identity (entry w m)) ≠ sequence (identity (entry w' n))
  | (Err e, w') => w' = w ∧
      match e with
      | RegistryPoisoned => poisoned w = true
      | AdmissionClosed => reg_phase w ≠ RegRunning
      | DuplicateActive rid' => rid' = rid ∧ is_Some (active w !! rid)
      | SequenceOverflowed => next_nonce w = u64_max
      | _ => False
      end
  end.
Proof.
  intros Hy w. subst w. pose proof (native_reachable_inv id y Hy) as [I1 _ _]. rewrite reserve_is by done.
  destruct (poisoned (reg y)) eqn:Hp; [done|]. case_bool_decide as Hr; [done|].
  case_bool_decide as Ha; [done|]. pose proof (i_bound _ I1). destruct (Z.leb_spec u64_max (next_nonce (reg y))).
  { split; [done|]. lia. }
  split_and!; try done.
  - by apply eq_None_not_Some.
  - intros m Hm. rewrite reserved_new. simpl.
    pose proof (wf_identity _ _ (i_entry _ I1 m _ (list_lookup_lookup_total_lt _ _ Hm))) as Hid.
    unfold entry. rewrite Hid. simpl. lia.
Qed.

(** ** Witnesses *)

(** A run of chosen steps, for the examples. *)
Definition after_reserve (rid : string) (c : RequestClass) (k : RequestControls) (y : Sys) : Sys :=
  let '(r, w) := reserve rid c k (reg y) in
  {| reg := w; leases := match r with Ok n => {[n]} ∪ leases y | Err _ => leases y end;
     threads := threads y |}.
Definition after (f : Registry → Registry) (y : Sys) : Sys := set_reg (f (reg y)) y.
Definition after_drop (n : loc) (y : Sys) : Sys :=
  {| reg := abandon_if_current n (reg y); leases := leases y ∖ {[n]}; threads := threads y |}.
Definition after_call (t : nat) (y : Sys) : Sys := set_threads (<[t := Begin]> (threads y)) y.
Definition after_thread (t : nat) (y : Sys) : Sys :=
  match threads y !! t ≫= thread_step (reg y) with
  | Some (w, pc) => {| reg := w; leases := leases y; threads := <[t := pc]> (threads y) |}
  | None => y
  end.

Lemma reserve_step rid c k y : step y (after_reserve rid c k y).
Proof.
  unfold after_reserve. destruct (reserve rid c k (reg y)) as [[n|e] w] eqn:Hr.
  - by apply (do_reserve rid c k n).
  - by apply (do_reserve_fails rid c k e).
Qed.
Lemma thread_steps t y : rtc step y (after_thread t y).
Proof.
  unfold after_thread. destruct (threads y !! t) as [pc|] eqn:Ht; simpl; [|done].
  destruct (thread_step (reg y) pc) as [[w pc']|] eqn:Hs; [|done]. apply rtc_once. by eapply do_thread.
Qed.

Definition after_deliver (y : Sys) : Sys :=
  match notifying (reg y) with
  | S k => {| reg := set_notifying k (reg y); leases := leases y; threads := wake <$> threads y |}
  | O => y
  end.
Lemma deliver_steps y : rtc step y (after_deliver y).
Proof.
  unfold after_deliver. destruct (notifying (reg y)) as [|k] eqn:Hk; [done|].
  apply rtc_once. by apply do_deliver.
Qed.

(** Two requests; the second runs, a shutdown begins and sleeps. *)
Definition demo_controls (f : flag) : RequestControls := GenerationControls [("case", f)] [].
Definition demo_admitted : Sys :=
  after_reserve "b" Generation (demo_controls 1) (after_reserve "a" Generation (demo_controls 0)
    (initial "worker")).
Definition demo_running : Sys :=
  after (λ w, (start 1 w).2) (after (λ w, (queue 1 w).2) demo_admitted).
Definition demo_cancelled : Sys :=
  after_thread 0 (after_thread 0 (after_thread 0 (after_thread 0 (after_call 0 demo_running)))).
Definition demo_asleep : Sys := after_thread 0 (after_thread 0 demo_cancelled).
Definition demo_drained : Sys := after_drop 1 (after_drop 0 demo_asleep).

Lemma demo_admitted_reachable : rtc step (initial "worker") demo_admitted.
Proof.
  eapply rtc_l; [apply (reserve_step "a" Generation (demo_controls 0))|].
  eapply rtc_l; [apply (reserve_step "b" Generation (demo_controls 1))|]. apply rtc_refl.
Qed.
Lemma demo_running_from : rtc step demo_admitted demo_running.
Proof.
  eapply rtc_l; [apply (do_queue 1); vm_compute; reflexivity|].
  eapply rtc_l; [apply (do_start 1); vm_compute; reflexivity|]. apply rtc_refl.
Qed.
Lemma native_demo_running_reachable : rtc step (initial "worker") demo_running.
Proof. etrans; [apply demo_admitted_reachable|apply demo_running_from]. Qed.
Lemma demo_cancelled_reachable : rtc step (initial "worker") demo_cancelled.
Proof.
  etrans; [apply native_demo_running_reachable|].
  eapply rtc_l; [apply (do_call 0); vm_compute; reflexivity|]. unfold demo_cancelled.
  do 3 (etrans; [apply (thread_steps 0)|]). apply thread_steps.
Qed.
Lemma demo_asleep_reachable : rtc step (initial "worker") demo_asleep.
Proof.
  etrans; [apply demo_cancelled_reachable|]. etrans; [apply (thread_steps 0)|]. apply thread_steps.
Qed.
Lemma demo_drained_reachable : rtc step (initial "worker") demo_drained.
Proof.
  etrans; [apply demo_asleep_reachable|].
  eapply rtc_l; [apply (do_drop 0); vm_compute; reflexivity|].
  eapply rtc_l; [apply (do_drop 1); vm_compute; reflexivity|]. apply rtc_refl.
Qed.

Lemma native_requests_follow_lifecycle_witness :
  op_le (mkOp Reserved false None) (mkOp Running false None) ∧ 1%nat ∈ leases demo_running.
Proof.
  destruct (native_requests_follow_lifecycle "worker" demo_admitted demo_running 1
    demo_admitted_reachable demo_running_from) as (_ & _ & Hle & Hl & _).
  - apply Nat.ltb_lt. vm_compute. reflexivity.
  - split; [exact Hle|]. apply Hl. vm_compute. discriminate.
Defined.

Lemma native_drop_releases_witness :
  ∃ t, lifecycle (entry (abandon_if_current 1 (reg demo_asleep)) 1) =
    {| phase := Released; terminal_of := Some t |} ∧ term_sequence t = 1.
Proof.
  destruct (native_drop_releases "worker" demo_asleep 1 Embedding (EmbeddingControls 3)
    demo_asleep_reachable) as ((t & H1 & H2 & _) & _).
  - vm_compute. reflexivity.
  - exists t. split; [exact H1|]. rewrite H2. vm_compute. reflexivity.
Defined.

Lemma native_quiesce_cancels_all_witness :
  threads demo_cancelled !! 0%nat = Some Cached ∧ 1%nat ∈ raised (reg demo_cancelled).
Proof.
  split; [vm_compute; reflexivity|].
  apply (native_quiesce_cancels_all "worker" demo_cancelled 0 Cached demo_cancelled_reachable
    ltac:(vm_compute; reflexivity) I) with (n := 1%nat).
  - vm_compute. reflexivity.
  - vm_compute. left.
Defined.

Definition demo_returned : Sys := after_thread 0 (after_deliver demo_drained).
Lemma demo_returned_reachable : rtc step (initial "worker") demo_returned.
Proof.
  etrans; [apply demo_drained_reachable|]. etrans; [apply (deliver_steps demo_drained)|]. apply (thread_steps 0).
Qed.

Lemma native_shutdown_drains_witness :
  ∃ o, threads demo_returned !! 0%nat = Some (Returned o) ∧ active_operations o = 0%nat ∧
    leases demo_returned = ∅.
Proof.
  eassert (threads demo_returned !! 0%nat = Some (Returned _)) as Ht by (vm_compute; reflexivity).
  destruct (native_shutdown_drains "worker" demo_returned demo_returned 0 _ demo_returned_reachable Ht
    (rtc_refl _ _)) as (Ho & _ & _ & Hl & _).
  eexists. split; [exact Ht|]. split; [exact Ho|exact Hl].
Defined.

Lemma native_shutdown_returns_witness :
  threads demo_drained !! 0%nat = Some Asleep ∧
  ∃ y' o, rtc step demo_drained y' ∧ threads y' !! 0%nat = Some (Returned o).
Proof.
  split; [vm_compute; reflexivity|].
  destruct (native_shutdown_returns "worker" demo_drained 0 Asleep demo_drained_reachable
    ltac:(vm_compute; reflexivity) ltac:(vm_compute; reflexivity)) as (y' & o & _ & Hr & Ho).
  exists y', o. split; [exact Hr|exact Ho].
Defined.

Lemma native_reserve_exact_witness :
  ∃ w', reserve "c" Embedding (EmbeddingControls 2) (reg demo_admitted) = (Ok 2%nat, w') ∧
    active w' = <["c" := 2%nat]> (active (reg demo_admitted)).
Proof.
  pose proof (native_reserve_exact "worker" demo_admitted "c" Embedding (EmbeddingControls 2)
    demo_admitted_reachable) as H. cbv zeta in H.
  eassert (reserve "c" Embedding (EmbeddingControls 2) (reg demo_admitted) = (Ok 2%nat, _)) as Hr
    by (vm_compute; reflexivity).
  rewrite Hr in H. destruct H as (_ & _ & _ & _ & _ & _ & Ha & _).
  eexists. split; [exact Hr|exact Ha].
Defined.
