(* ===== verification/SpeculativeAdmission.v ===== *)
(** * SpeculativeAdmission: the one speculative generation of a resident worker

    Models [llama-native-engine/src/generation_admission.rs] on top of the request
    registry (NativeRegistry.v), whose entries it holds, cancels and asks for their
    release. Its mutex recovers from poison, so a method is one step that cannot
    fail to lock. A reading of the clock is an argument, in nanoseconds. *)

From S2P Require Import Prelude OperationSpec NativeRegistry.
Local Open Scope Z_scope.

Definition SPECULATIVE_PREEMPTION_LIMIT : Z := 200 * 1000 * 1000.

Inductive SpeculativeAdmissionStatus :=
| Available | Occupied | DisabledForResidentFingerprint | Closing.
#[export] Instance SpeculativeAdmissionStatus_eq_dec : EqDecision SpeculativeAdmissionStatus.
Proof. solve_decision. Defined.

Record PreemptionWatch := { foreground : loc; cancelled_at : Z }.
Record AdmittedSpeculative := { adm_sequence : Z; control : loc }.
Record AdmissionState := {
  disabled : bool;
  admitted : option AdmittedSpeculative;
  preemption : option PreemptionWatch;
}.

(** The two refusals, both with code [QueueFull]. *)
Inductive AdmissionError := FingerprintDisabled | LaneOccupied.
#[export] Instance AdmissionError_eq_dec : EqDecision AdmissionError.
Proof. solve_decision. Defined.

Definition new_admission : AdmissionState :=
  {| disabled := false; admitted := None; preemption := None |}.

Definition set_preemption (p : option PreemptionWatch) (s : AdmissionState) : AdmissionState :=
  {| disabled := disabled s; admitted := admitted s; preemption := p |}.
Definition set_admitted (a : option AdmittedSpeculative) (s : AdmissionState) : AdmissionState :=
  {| disabled := disabled s; admitted := a; preemption := preemption s |}.

Definition retire_released_preemption (w : Registry) (s : AdmissionState) : AdmissionState :=
  match preemption s with
  | Some watch => if is_released w (foreground watch) then set_preemption None s else s
  | None => s
  end.

(** The permit is named by its sequence. *)
Definition reserve_speculative (w : Registry) (control : loc) : SM AdmissionState AdmissionError Z :=
  let sequence := sequence (identity (entry w control)) in
  sm_modify (retire_released_preemption w) ;;
  s ← sm_get ;
  sm_reject_if (disabled s) FingerprintDisabled ;;
  sm_reject_if (bool_decide (is_Some (admitted s)) || bool_decide (is_Some (preemption s)))
    LaneOccupied ;;
  sm_modify (set_admitted (Some {| adm_sequence := sequence; control := control |})) ;;
  mret sequence.

Definition preempt_for_foreground (now : Z) (foreground : loc) (w : Registry) (s : AdmissionState)
    : nat * Registry * AdmissionState :=
  let s := retire_released_preemption w s in
  match preemption s, admitted s with
  | Some _, _ | None, None => (0%nat, w, s)
  | None, Some a =>
      let '(cancelled, w) := cancel_all (controls (entry w (control a))) w in
      (cancelled, w, set_preemption (Some {| foreground := foreground; cancelled_at := now |}) s)
  end.

Definition observe_foreground_running (now foreground_sequence : Z) (w : Registry)
    (s : AdmissionState) : AdmissionState :=
  match preemption s with
  | None => s
  | Some watch =>
      if negb (sequence (identity (entry w (foreground watch))) =? foreground_sequence) then s
      else
        let elapsed := saturating_sub now (cancelled_at watch) in
        {| disabled := if SPECULATIVE_PREEMPTION_LIMIT <? elapsed then true else disabled s;
           admitted := admitted s; preemption := None |}
  end.

Definition status (closing : bool) (w : Registry) (s : AdmissionState)
    : SpeculativeAdmissionStatus * AdmissionState :=
  if closing then (Closing, s)
  else
    let s := retire_released_preemption w s in
    (if disabled s then DisabledForResidentFingerprint
     else if bool_decide (is_Some (admitted s)) || bool_decide (is_Some (preemption s))
     then Occupied else Available, s).

(** The drop of a permit. *)
Definition release (sequence : Z) (s : AdmissionState) : AdmissionState :=
  match admitted s with
  | Some a => if adm_sequence a =? sequence then set_admitted None s else s
  | None => s
  end.

(** ** The worker: the registry and its speculative lane *)

Record Worker := {
  engine : NativeRegistry.Sys;
  lane : AdmissionState;
  (** the sequences of the permits that are held *)
  permits : list Z;
  (** history: the latencies observed, and the request last preempted *)
  latencies : list Z;
  preempted : option loc;
}.

Definition initial_worker (id : string) : Worker :=
  {| engine := initial id; lane := new_admission; permits := []; latencies := []; preempted := None |}.

Definition set_lane (s : AdmissionState) (v : Worker) : Worker :=
  {| engine := engine v; lane := s; permits := permits v; latencies := latencies v;
     preempted := preempted v |}.

Definition step_reserve (n : loc) (v : Worker) : Worker :=
  match reserve_speculative (reg (engine v)) n (lane v) with
  | (Ok p, s) => {| engine := engine v; lane := s; permits := p :: permits v;
                    latencies := latencies v; preempted := preempted v |}
  | (Err _, s) => set_lane s v
  end.

Definition step_release (l k : list Z) (p : Z) (v : Worker) : Worker :=
  {| engine := engine v; lane := release p (lane v); permits := l ++ k;
     latencies := latencies v; preempted := preempted v |}.

Definition step_preempt (now : Z) (n : loc) (v : Worker) : Worker :=
  let '(_, w, s) := preempt_for_foreground now n (reg (engine v)) (lane v) in
  {| engine := set_reg w (engine v); lane := s; permits := permits v; latencies := latencies v;
     preempted := match preemption (retire_released_preemption (reg (engine v)) (lane v)), admitted (lane v) with
                  | None, Some a => Some (control a)
                  | _, _ => preempted v
                  end |}.

(** An observation by the watched foreground request is a latency. *)
Definition step_observe (now seq : Z) (v : Worker) : Worker :=
  {| engine := engine v; lane := observe_foreground_running now seq (reg (engine v)) (lane v);
     permits := permits v;
     latencies := latencies v ++
       match preemption (lane v) with
       | Some watch =>
           if sequence (identity (entry (reg (engine v)) (foreground watch))) =? seq
           then [saturating_sub now (cancelled_at watch)] else []
       | None => []
       end;
     preempted := preempted v |}.

Inductive worker_step : Worker → Worker → Prop :=
| on_engine e v : NativeRegistry.step (engine v) e →
    worker_step v {| engine := e; lane := lane v; permits := permits v;
                     latencies := latencies v; preempted := preempted v |}
| on_reserve n v : (n < length (entries (reg (engine v))))%nat → worker_step v (step_reserve n v)
| on_release l k p v : permits v = l ++ p :: k → worker_step v (step_release l k p v)
| on_preempt now n v : worker_step v (step_preempt now n v)
| on_observe now seq v : worker_step v (step_observe now seq v)
| on_status v : worker_step v (set_lane (status false (reg (engine v)) (lane v)).2 v).

Record lane_ok (v : Worker) : Prop := {
  l_engine : Inv (engine v);
  l_permits : permits v = match admitted (lane v) with Some a => [adm_sequence a] | None => [] end;
  l_control a : admitted (lane v) = Some a → (control a < length (entries (reg (engine v))))%nat;
  l_disabled : disabled (lane v) = true ↔ ∃ d, d ∈ latencies v ∧ SPECULATIVE_PREEMPTION_LIMIT < d;
  l_watch watch : preemption (lane v) = Some watch →
    ∃ n, preempted v = Some n ∧ (n < length (entries (reg (engine v))))%nat ∧
      all_raised (reg (engine v)) n;
}.

Lemma keeps_all_raised w w' n :
  keeps w w' → (n < length (entries w))%nat → all_raised w n → all_raised w' n.
Proof. intros [_ Hc Hr] Hn Hall f. rewrite Hc by done. intros Hf. by apply Hr, Hall. Qed.

(** The lane's own steps leave the entries alone. *)
Lemma lane_ok_set v s :
  lane_ok v → disabled s = disabled (lane v) → admitted s = admitted (lane v) →
  (preemption s = preemption (lane v) ∨ preemption s = None) → lane_ok (set_lane s v).
Proof.
  intros [L1 L2 L3 L4 L5] Hd Ha Hp. split; simpl; rewrite ?Hd, ?Ha; try done.
  intros watch Hw. destruct Hp as [Hp|Hp]; rewrite Hp in Hw; [by apply L5 in Hw|done].
Qed.

Lemma retire_cases w s :
  disabled (retire_released_preemption w s) = disabled s ∧
  admitted (retire_released_preemption w s) = admitted s ∧
  (preemption (retire_released_preemption w s) = preemption s ∨
   preemption (retire_released_preemption w s) = None).
Proof. unfold retire_released_preemption. repeat case_match; simpl; auto. Qed.

(** A watch that counts: its foreground request has not been released. *)
Lemma retire_watch w s :
  is_Some (preemption (retire_released_preemption w s)) ↔
  ∃ watch, preemption s = Some watch ∧ is_released w (foreground watch) = false.
Proof.
  unfold retire_released_preemption. destruct (preemption s) as [p|] eqn:Hp.
  - destruct (is_released w (foreground p)) eqn:Hr; simpl; rewrite ?Hp.
    + split; [by intros []|]. intros (watch & [= <-] & ?). congruence.
    + split; [intros _; by exists p|by eexists].
  - rewrite Hp. split; [by intros []|by intros (? & ? & _)].
Qed.

Lemma lane_ok_retire v : lane_ok v →
  lane_ok (set_lane (retire_released_preemption (reg (engine v)) (lane v)) v).
Proof.
  intros Hv. destruct (retire_cases (reg (engine v)) (lane v)) as (? & ? & ?). by apply lane_ok_set.
Qed.

Lemma worker_step_ok v v' : lane_ok v → worker_step v v' → lane_ok v'.
Proof.
  intros Hv Hstep. pose proof Hv as [L1 L2 L3 L4 L5].
  destruct Hstep as [e v Hs|n v Hn|l k p v Hp|now n v|now seq v|v].
  - destruct (inv_step _ _ L1 Hs) as [HI _]. pose proof (step_keeps _ _ L1 Hs) as Hk.
    pose proof (k_length _ _ Hk). split; simpl; try done.
    + intros a Ha. specialize (L3 a Ha). lia.
    + intros watch Hw. destruct (L5 watch Hw) as (m & ? & Hm & ?). exists m.
      split_and!; [done|lia|by eapply keeps_all_raised].
  - unfold step_reserve, reserve_speculative. sm_unfold.
    pose proof (lane_ok_retire v Hv) as Hret. destruct (retire_cases (reg (engine v)) (lane v)) as (_ & Ha & _).
    destruct (disabled (retire_released_preemption _ _)); simpl; [exact Hret|]. destruct (_ || _) eqn:Hg; simpl; [exact Hret|].
    bool_prop. assert (admitted (lane v) = None) as Hnone by (rewrite <- Ha; by apply eq_None_not_Some).
    rewrite Hnone in L2. destruct Hret as [_ _ _ R4 R5]. split; simpl in *; try done.
    + by rewrite L2.
    + by intros a [= <-].
  - unfold step_release, release. destruct (admitted (lane v)) as [a|] eqn:Ha; [|by destruct l; rewrite L2 in Hp].
    rewrite L2 in Hp. destruct l as [|p' l]; [|by destruct l]. injection Hp as <- <-.
    rewrite Z.eqb_refl. by split.
  - unfold step_preempt, preempt_for_foreground.
    pose proof (lane_ok_retire v Hv) as Hret. destruct (retire_cases (reg (engine v)) (lane v)) as (_ & Ha & _).
    set (s := retire_released_preemption _ _) in *. rewrite <- Ha.
    assert (set_reg (reg (engine v)) (engine v) = engine v) as Hsame by by destruct (engine v).
    destruct (preemption s) eqn:Hpre; [by rewrite Hsame|].
    destruct (admitted s) as [a|] eqn:Hadm; [|by rewrite Hsame].
    destruct (cancel_all _ _) as [cnt w] eqn:Hc. apply (f_equal snd) in Hc. simpl in Hc. rewrite cancel_all_raise in Hc. subst w.
    destruct Hret as [_ R2 R3 R4 R5]. simpl in R2, R3, R4. split; simpl; try done.
    + apply inv_quiet; [done|apply raise_quiet].
    + intros watch [= <-]. exists (control a). split_and!; [done|by apply R3|apply all_raised_raise].
  - unfold step_observe, observe_foreground_running. destruct (preemption (lane v)) as [watch|] eqn:Hw.
    + destruct (_ =? seq) eqn:Hs; simpl.
      * split; simpl; try done. setoid_rewrite elem_of_app. setoid_rewrite list_elem_of_singleton.
        destruct (Z.ltb_spec SPECULATIVE_PREEMPTION_LIMIT (saturating_sub now (cancelled_at watch))).
        -- split; [|done]. intros _. eexists. split; [by right|done].
        -- rewrite L4. split; [intros (d & ? & ?); eauto|]. intros (d & [?| ->] & ?); [eauto|lia].
      * rewrite app_nil_r. by destruct v.
    + rewrite app_nil_r. by destruct v.
  - by apply lane_ok_retire.
Qed.

Lemma worker_reachable id v : rtc worker_step (initial_worker id) v → lane_ok v.
Proof.
  intros Hrun. eapply (rtc_preserves worker_step lane_ok); [|exact Hrun|].
  - intros x y Hxy Hx. by eapply worker_step_ok.
  - split; simpl; try done; [apply native_initial_inv|]. split; [done|]. intros (d & Hd & _). by apply elem_of_nil in Hd.
Qed.

(** The speculative lane is exclusive and its status is truthful. In any
    run at most one permit is held; [reserve] grants one exactly when the lane is
    not disabled, no permit is held and no foreground request that preempted the
    lane is still unreleased, and refuses it for the stated cause otherwise; and
    [status] says Available exactly when it would be granted. *)
Theorem speculative_lane_exclusive id v n :
  rtc worker_step (initial_worker id) v →
  let w := reg (engine v) in
  let busy := ∃ watch, preemption (lane v) = Some watch ∧ is_released w (foreground watch) = false in
  (length (permits v) ≤ 1)%nat ∧
  match (reserve_speculative w n (lane v)).1 with
  | Ok p => disabled (lane v) = false ∧ permits v = [] ∧ ¬ busy ∧ p = sequence (identity (entry w n)) ∧
      (status false w (lane v)).1 = Available
  | Err FingerprintDisabled => disabled (lane v) = true ∧
      (status false w (lane v)).1 = DisabledForResidentFingerprint
  | Err LaneOccupied => disabled (lane v) = false ∧ (permits v ≠ [] ∨ busy) ∧
      (status false w (lane v)).1 = Occupied
  end.
Proof.
  intros Hrun w busy. pose proof (worker_reachable id v Hrun) as [_ L2 _ _ _].
  destruct (retire_cases w (lane v)) as (Hd & Ha & _). pose proof (retire_watch w (lane v)) as Hw.
  split; [rewrite L2; case_match; simpl; lia|].
  unfold reserve_speculative, status. sm_unfold. rewrite Hd, Ha.
  destruct (disabled (lane v)); simpl; [done|]. destruct (_ || _) eqn:Hg; simpl.
  - split; [done|]. split; [|done]. bool_prop. destruct Hg as [Hg|Hg]; bool_prop.
    + left. rewrite L2. by destruct Hg as [a ->].
    + right. by apply Hw.
  - bool_prop. apply eq_None_not_Some in H. rewrite H in L2. split_and!; try done. unfold busy. by rewrite <- Hw.
Qed.

(** Preemption. In any run the lane is disabled exactly when some watched
    foreground request was observed running later than the limit after the
    preemption, so a foreground request that is rejected or abandoned never
    disables it; and while a watch is set, all cancellation flags of the
    speculative request that was preempted for it are raised. *)
Theorem speculative_preemption id v :
  rtc worker_step (initial_worker id) v →
  (disabled (lane v) = true ↔ ∃ d, d ∈ latencies v ∧ SPECULATIVE_PREEMPTION_LIMIT < d) ∧
  ∀ watch, preemption (lane v) = Some watch →
    ∃ n, preempted v = Some n ∧
      ∀ f, f ∈ cancellation_flags (controls (entry (reg (engine v)) n)) → f ∈ raised (reg (engine v)).
Proof.
  intros Hrun. pose proof (worker_reachable id v Hrun) as [_ _ _ L4 L5]. split; [done|].
  intros watch Hw. destruct (L5 watch Hw) as (n & Hn & _ & Hall). exists n. split; [done|exact Hall].
Qed.

(** ** Witnesses *)

(** Request 0 is speculative, request 1 preempts it and is seen 300 ms later. *)
Definition demo_speculating : Worker := step_reserve 0
  {| engine := demo_admitted; lane := new_admission; permits := []; latencies := []; preempted := None |}.
Definition demo_preempted : Worker := step_preempt 1000 1 demo_speculating.
Definition demo_slow : Worker := step_observe 300001000 1 demo_preempted.

Lemma demo_speculating_reachable : rtc worker_step (initial_worker "worker") demo_speculating.
Proof.
  eapply rtc_l; [apply on_engine; apply (reserve_step "a" Generation (demo_controls 0))|].
  eapply rtc_l; [apply on_engine; apply (reserve_step "b" Generation (demo_controls 1))|].
  eapply rtc_l; [apply (on_reserve 0%nat); apply Nat.ltb_lt; vm_compute; reflexivity|]. apply rtc_refl.
Qed.
Lemma demo_preempted_reachable : rtc worker_step (initial_worker "worker") demo_preempted.
Proof. etrans; [apply demo_speculating_reachable|]. apply rtc_once, on_preempt. Qed.
Lemma demo_slow_reachable : rtc worker_step (initial_worker "worker") demo_slow.
Proof. etrans; [apply demo_preempted_reachable|]. apply rtc_once, on_observe. Qed.

Lemma speculative_lane_exclusive_witness :
  (reserve_speculative (reg (engine demo_preempted)) 1 (lane demo_preempted)).1 = Err LaneOccupied ∧
  (permits demo_preempted ≠ [] ∨
   ∃ watch, preemption (lane demo_preempted) = Some watch ∧
     is_released (reg (engine demo_preempted)) (foreground watch) = false).
Proof.
  pose proof (speculative_lane_exclusive "worker" demo_preempted 1 demo_preempted_reachable) as [_ H].
  assert ((reserve_speculative (reg (engine demo_preempted)) 1 (lane demo_preempted)).1 = Err LaneOccupied)
    as Hr by (vm_compute; reflexivity).
  rewrite Hr in H. split; [exact Hr|]. apply H.
Defined.

Lemma speculative_preemption_witness :
  disabled (lane demo_slow) = true ∧ 0%nat ∈ raised (reg (engine demo_preempted)).
Proof.
  split.
  - apply (speculative_preemption "worker" demo_slow demo_slow_reachable).
    exists 300000000. split; [vm_compute; left|reflexivity].
  - destruct (speculative_preemption "worker" demo_preempted demo_preempted_reachable) as [_ H].
    destruct (H {| foreground := 1; cancelled_at := 1000 |}) as (n & Hn & Hall); [vm_compute; reflexivity|].
    vm_compute in Hn. injection Hn as <-. apply Hall. vm_compute. left.
Defined.
