(* ===== verification/TaskSupervisor.v ===== *)
(** * TaskSupervisor: retained ownership of spawned tasks

    Models [speech-native-types/src/task_supervisor.rs]. [Supervisor] is the
    object behind the mutex with its [faulted] flag; each method is one critical
    section. A call of [idle.notify_waiters()] is counted in [notifying] and
    delivered by a step of its own, since a thread may be preempted in front of
    it.

    [System] runs the supervisor: [spawn] and [spawn_blocking] are the steps
    admit, retain, and (in the reaper task, after the retained signal and the join
    of the worker) finish, interleaved freely with each other, with shutdown,
    snapshots and any number of [wait_for_idle] callers. Tokio's [JoinHandle] and
    [Notify] are parameters. *)

From S2P Require Import Prelude.
Local Open Scope Z_scope.

Definition COMPLETED_WORKER_ID_CAPACITY : nat := 1024.

Inductive TaskSupervisorPhase := Running | Quiescing.
#[export] Instance TaskSupervisorPhase_eq_dec : EqDecision TaskSupervisorPhase.
Proof. solve_decision. Defined.

Inductive SupervisedTaskFailureKind := FailError | FailPanic | FailCancelled.

Record SupervisedTaskFailure := {
  label : string;
  kind : SupervisedTaskFailureKind;
  detail : string;
}.

Record SupervisedTaskFailureSummary := {
  first : SupervisedTaskFailure;
  additional : Z;
}.

Record TaskSupervisorSnapshot := {
  snap_active : Z;
  snap_retained_failures : Z;
  snap_total_failures : Z;
  snap_admitted_tasks : Z;
  snap_completed_tasks : Z;
  snap_expected_worker_ids : list string;
  snap_joined_worker_ids : list string;
}.

Inductive TaskSupervisorError := AdmissionClosed | StateUnavailable | RuntimeUnavailable.
#[export] Instance TaskSupervisorError_eq_dec : EqDecision TaskSupervisorError.
Proof. solve_decision. Defined.

Section Supervisor.
(** [tokio::task::JoinHandle<()>] *)
Context {JoinHandle : Type}.

Record TaskSupervisorState := {
  phase : TaskSupervisorPhase;
  active : Z;
  first_failure : option SupervisedTaskFailure;
  additional_failures : Z;
  admitted_tasks : Z;
  completed_tasks : Z;
  next_worker_sequence : Z;
  active_worker_ids : gset string;
  joined_worker_ids : list string;
  join_handles : gmap string JoinHandle;
}.

Record Supervisor := {
  scope : string;
  state : TaskSupervisorState;
  poisoned : bool;
  faulted : bool;
  notifying : nat;
}.

Definition with_scope (s : string) : Supervisor := {|
  scope := s;
  state := {| phase := Running; active := 0; first_failure := None; additional_failures := 0;
              admitted_tasks := 0; completed_tasks := 0; next_worker_sequence := 1;
              active_worker_ids := ∅; joined_worker_ids := []; join_handles := ∅ |};
  poisoned := false; faulted := false; notifying := 0%nat |}.

Definition set_state (st : TaskSupervisorState) (s : Supervisor) : Supervisor :=
  {| scope := scope s; state := st; poisoned := poisoned s; faulted := faulted s;
     notifying := notifying s |}.
(** [self.idle.notify_waiters()] *)
Definition notify_waiters (s : Supervisor) : Supervisor :=
  {| scope := scope s; state := state s; poisoned := poisoned s; faulted := faulted s;
     notifying := S (notifying s) |}.
(** [self.faulted.store(true); self.idle.notify_waiters()] *)
Definition fault (s : Supervisor) : Supervisor :=
  notify_waiters {| scope := scope s; state := state s; poisoned := poisoned s; faulted := true;
                    notifying := notifying s |}.

Notation M := (SM Supervisor TaskSupervisorError).

Definition check_faulted : M unit := λ s,
  if faulted s then (Err StateUnavailable, s) else (Ok tt, s).
(** [self.state.lock().map_err(|_| StateUnavailable)?] *)
Definition lock : M TaskSupervisorState := λ s,
  if poisoned s then (Err StateUnavailable, s) else (Ok (state s), s).
Definition put (st : TaskSupervisorState) : M unit := sm_modify (set_state st).

Definition begin_shutdown : M unit :=
  check_faulted ;;
  st ← lock ;
  put {| phase := Quiescing; active := active st; first_failure := first_failure st;
         additional_failures := additional_failures st; admitted_tasks := admitted_tasks st;
         completed_tasks := completed_tasks st; next_worker_sequence := next_worker_sequence st;
         active_worker_ids := active_worker_ids st; joined_worker_ids := joined_worker_ids st;
         join_handles := join_handles st |}.

Definition diagnostic_faulted (s : Supervisor) : bool := faulted s.

Definition failure_summary : M (option SupervisedTaskFailureSummary) :=
  check_faulted ;;
  st ← lock ;
  mret ((λ f, {| first := f; additional := additional_failures st |}) <$> first_failure st).

Definition task_worker_id (scope : string) (sequence : Z) (label : string) : string :=
  scope +:+ ":task-" +:+ pretty sequence +:+ ":" +:+ label.

Definition admit_task (label : string) : M string :=
  check_faulted ;;
  st ← lock ;
  s ← sm_get ;
  sm_reject_if (bool_decide (phase st ≠ Running)) AdmissionClosed ;;
  active ← sm_lift (ok_or (checked_add usize_max (active st) 1) StateUnavailable) ;
  admitted ← sm_lift (ok_or (checked_add usize_max (admitted_tasks st) 1) StateUnavailable) ;
  let sequence := next_worker_sequence st in
  next ← sm_lift (ok_or (checked_add u64_max sequence 1) StateUnavailable) ;
  let worker_id := task_worker_id (scope s) sequence label in
  sm_reject_if (bool_decide (worker_id ∈ active_worker_ids st)) StateUnavailable ;;
  put {| phase := phase st; active := active; first_failure := first_failure st;
         additional_failures := additional_failures st; admitted_tasks := admitted;
         completed_tasks := completed_tasks st; next_worker_sequence := next;
         active_worker_ids := {[worker_id]} ∪ active_worker_ids st;
         joined_worker_ids := joined_worker_ids st; join_handles := join_handles st |} ;;
  mret worker_id.

Definition retain_join_handle (worker_id : string) (handle : JoinHandle) : M unit := λ s,
  if poisoned s then (Err StateUnavailable, fault s)
  else
    let st := state s in
    let s' := set_state {|
      phase := phase st; active := active st; first_failure := first_failure st;
      additional_failures := additional_failures st; admitted_tasks := admitted_tasks st;
      completed_tasks := completed_tasks st; next_worker_sequence := next_worker_sequence st;
      active_worker_ids := active_worker_ids st; joined_worker_ids := joined_worker_ids st;
      join_handles := <[worker_id := handle]> (join_handles st) |} s in
    if bool_decide (is_Some (join_handles st !! worker_id)) then (Err StateUnavailable, fault s')
    else (Ok tt, s').

(** The failure bookkeeping of [finish]: the first failure and the count of the
    others, [None] if the count overflows. *)
Definition record_outcome (outcome : result SupervisedTaskFailure unit) (st : TaskSupervisorState)
    : option (option SupervisedTaskFailure * Z) :=
  match outcome with
  | Ok _ => Some (first_failure st, additional_failures st)
  | Err failure =>
      match first_failure st with
      | None => Some (Some failure, additional_failures st)
      | Some first => n ← checked_add usize_max (additional_failures st) 1 ; Some (Some first, n)
      end
  end.

Definition finish (worker_id : string) (outcome : result SupervisedTaskFailure unit)
    (s : Supervisor) : Supervisor :=
  if poisoned s then fault s
  else
    let st := state s in
    match checked_add usize_max (completed_tasks st) 1 with
    | None => fault s
    | Some completed =>
        if (active st =? 0)
           || negb (bool_decide (worker_id ∈ active_worker_ids st))
           || bool_decide (worker_id ∈ joined_worker_ids st)
           || negb (bool_decide (is_Some (join_handles st !! worker_id)))
        then fault s
        else match record_outcome outcome st with
        | None => fault s
        | Some (first, additional) =>
            let joined := joined_worker_ids st ++ [worker_id] in
            let evicts := (COMPLETED_WORKER_ID_CAPACITY <? length joined)%nat in
            let s' := set_state {|
              phase := phase st; active := active st - 1; first_failure := first;
              additional_failures := additional; admitted_tasks := admitted_tasks st;
              completed_tasks := completed; next_worker_sequence := next_worker_sequence st;
              active_worker_ids := active_worker_ids st ∖ {[worker_id]};
              joined_worker_ids := if evicts then tail joined else joined;
              join_handles := delete worker_id (join_handles st) |} s in
            if evicts && bool_decide (head joined = Some worker_id) then fault s'
            else if active st - 1 =? 0 then notify_waiters s' else s'
        end
    end.

(** The loop that adds the joined ids to the expected ones; [None] at a clash. *)
Fixpoint insert_all (ids : list string) (expected : gset string) : option (gset string) :=
  match ids with
  | [] => Some expected
  | id :: ids =>
      if bool_decide (id ∈ expected) then None else insert_all ids ({[id]} ∪ expected)
  end.

(** A [BTreeSet<String>] in iteration order. *)
Definition sorted_ids (ids : gset string) : list string :=
  sorted_strings (elements ids).

(** The integrity test of [snapshot]. *)
Definition inconsistent (st : TaskSupervisorState) (accounted : Z) : bool :=
  ((active st =? 0) && negb (bool_decide (join_handles st = ∅)))
  || negb (Z.of_nat (size (active_worker_ids st)) =? active st)
  || negb (accounted =? admitted_tasks st)
  || (COMPLETED_WORKER_ID_CAPACITY <? length (joined_worker_ids st))%nat
  || negb (bool_decide (size (list_to_set (joined_worker_ids st) : gset string)
                        = length (joined_worker_ids st)))
  || negb (bool_decide (dom (join_handles st) ⊆ active_worker_ids st)).

Definition snapshot : M TaskSupervisorSnapshot :=
  check_faulted ;;
  st ← lock ;
  accounted ← sm_lift (ok_or (checked_add usize_max (completed_tasks st) (active st))
                         StateUnavailable) ;
  if inconsistent st accounted then sm_modify fault ;; sm_throw StateUnavailable
  else
    let retained := if first_failure st is Some _ then 1 else 0 in
    total ← sm_lift (ok_or (checked_add usize_max retained (additional_failures st))
                       StateUnavailable) ;
    match insert_all (joined_worker_ids st) (active_worker_ids st) with
    | None => sm_modify fault ;; sm_throw StateUnavailable
    | Some expected =>
        mret {| snap_active := active st; snap_retained_failures := retained;
                snap_total_failures := total; snap_admitted_tasks := admitted_tasks st;
                snap_completed_tasks := completed_tasks st;
                snap_expected_worker_ids := sorted_ids expected;
                snap_joined_worker_ids := joined_worker_ids st |}
    end.

End Supervisor.
Arguments TaskSupervisorState : clear implicits.
Arguments Supervisor : clear implicits.

(** ** The running system *)

(** [tokio::sync::Notify]: [enable] is [notified()] with [Notified::enable] and
    names the waiting future, [is_notified] its readiness. *)
Class Notify (N : Type) := {
  notify_new : N;
  enable : N → nat * N;
  notify_all : N → N;
  is_notified : N → nat → bool;
}.

(** As documented: a future enabled before a call of [notify_waiters] is woken by
    it, and stays woken. *)
Class NotifyLaws (N : Type) `{Notify N} := {
  enabled : N → nat → Prop;
  enable_enabled n : enabled (enable n).2 (enable n).1;
  enable_keeps n w : enabled n w → enabled (enable n).2 w;
  notify_keeps n w : enabled n w → enabled (notify_all n) w;
  notify_wakes n w : enabled n w → is_notified (notify_all n) w = true;
  enable_awake n w : is_notified n w = true → is_notified (enable n).2 w = true;
  notify_awake n w : is_notified n w = true → is_notified (notify_all n) w = true;
}.

Module System.

(** Where a caller of [wait_for_idle] is in its loop: behind [enable], behind the
    test of [faulted], or awaiting. *)
Inductive Stage := Armed | Checked | Waiting.

Section System.
Context {JoinHandle N : Type} `{Notify N}.

Notation outcome := (result SupervisedTaskFailure unit).

Record Sys := {
  sup : Supervisor JoinHandle;
  notify : N;
  (** ids between [admit_task] and [retain_join_handle] *)
  spawning : list string;
  (** ids whose reaper has the retained signal and has not called [finish] *)
  joinable : list string;
  (** history: ids in order of admission, and outcomes in order of [finish] *)
  admitted : list string;
  finished : list (string * outcome);
  waiters : gmap nat Stage;
}.

Definition initial (scope : string) : Sys := {|
  sup := with_scope scope; notify := notify_new; spawning := []; joinable := [];
  admitted := []; finished := []; waiters := ∅ |}.

Definition set_sup (s : Supervisor JoinHandle) (y : Sys) : Sys :=
  {| sup := s; notify := notify y; spawning := spawning y; joinable := joinable y;
     admitted := admitted y; finished := finished y; waiters := waiters y |}.
Definition set_waiters (m : gmap nat Stage) (y : Sys) : Sys :=
  {| sup := sup y; notify := notify y; spawning := spawning y; joinable := joinable y;
     admitted := admitted y; finished := finished y; waiters := m |}.

(** The first step of [spawn] and [spawn_blocking]. *)
Definition step_admit (label : string) (y : Sys) : Sys :=
  match admit_task label (sup y) with
  | (Ok id, s) => {| sup := s; notify := notify y; spawning := spawning y ++ [id];
                     joinable := joinable y; admitted := admitted y ++ [id];
                     finished := finished y; waiters := waiters y |}
  | (Err _, s) => set_sup s y
  end.

(** [retain_join_handle]; sending or dropping [retained] releases the reaper. *)
Definition step_retain (l k : list string) (id : string) (h : JoinHandle) (y : Sys) : Sys :=
  {| sup := (retain_join_handle id h (sup y)).2; notify := notify y; spawning := l ++ k;
     joinable := joinable y ++ [id]; admitted := admitted y; finished := finished y;
     waiters := waiters y |}.

(** The reaper has joined its worker. *)
Definition step_finish (l k : list string) (id : string) (o : outcome) (y : Sys) : Sys :=
  {| sup := finish id o (sup y); notify := notify y; spawning := spawning y;
     joinable := l ++ k; admitted := admitted y; finished := finished y ++ [(id, o)];
     waiters := waiters y |}.

(** A [notify_waiters] call takes effect. *)
Definition step_deliver (n : nat) (y : Sys) : Sys :=
  let s := sup y in
  {| sup := {| scope := scope s; state := state s; poisoned := poisoned s;
               faulted := faulted s; notifying := n |};
     notify := notify_all (notify y); spawning := spawning y; joinable := joinable y;
     admitted := admitted y; finished := finished y; waiters := waiters y |}.

(** The loop of [wait_for_idle], access by access. *)
Definition step_arm (y : Sys) : Sys :=
  let '(w, n) := enable (notify y) in
  {| sup := sup y; notify := n; spawning := spawning y; joinable := joinable y;
     admitted := admitted y; finished := finished y; waiters := <[w := Armed]> (waiters y) |}.
Definition step_check_faulted (w : nat) (y : Sys) : Sys :=
  set_waiters (if faulted (sup y) then delete w (waiters y)
               else <[w := Checked]> (waiters y)) y.
Definition step_check_active (w : nat) (y : Sys) : Sys :=
  set_waiters (if poisoned (sup y) || (active (state (sup y)) =? 0) then delete w (waiters y)
               else <[w := Waiting]> (waiters y)) y.
Definition step_wake (w : nat) (y : Sys) : Sys := set_waiters (delete w (waiters y)) y.

Inductive step : Sys → Sys → Prop :=
| do_admit label y : step y (step_admit label y)
| do_retain l k id h y : spawning y = l ++ id :: k → step y (step_retain l k id h y)
| do_finish l k id o y : joinable y = l ++ id :: k → step y (step_finish l k id o y)
| do_shutdown y : step y (set_sup (begin_shutdown (sup y)).2 y)
| do_snapshot y : step y (set_sup (snapshot (sup y)).2 y)
| do_deliver n y : notifying (sup y) = S n → step y (step_deliver n y)
| do_arm y : step y (step_arm y)
| do_check_faulted w y : waiters y !! w = Some Armed → step y (step_check_faulted w y)
| do_check_active w y : waiters y !! w = Some Checked → step y (step_check_active w y)
| do_wake w y : waiters y !! w = Some Waiting → is_notified (notify y) w = true →
    step y (step_wake w y).

(** The mutex may also be poisoned, by a panic of a thread that holds it. *)
Definition poison (s : Supervisor JoinHandle) : Supervisor JoinHandle :=
  {| scope := scope s; state := state s; poisoned := true; faulted := faulted s;
     notifying := notifying s |}.
Inductive any_step : Sys → Sys → Prop :=
| plain_step y y' : step y y' → any_step y y'
| poison_step y : any_step y (set_sup (poison (sup y)) y).

(** ** The books and the history *)

Definition failures (l : list (string * outcome)) : list SupervisedTaskFailure :=
  omap (λ p, match p.2 with Err f => Some f | Ok _ => None end) l.

Record books (y : Sys) : Prop := {
  b_faulted : faulted (sup y) = false;
  b_poisoned : poisoned (sup y) = false;
  b_next : next_worker_sequence (state (sup y)) = 1 + len (admitted y);
  b_ids i id : admitted y !! i = Some id →
    ∃ label, id = task_worker_id (scope (sup y)) (1 + Z.of_nat i) label;
  b_admitted : admitted_tasks (state (sup y)) = len (admitted y);
  b_bound : len (admitted y) ≤ usize_max;
  b_completed : completed_tasks (state (sup y)) = len (finished y);
  b_perm : admitted y ≡ₚ (finished y).*1 ++ joinable y ++ spawning y;
  b_active : active (state (sup y)) = len (joinable y ++ spawning y);
  b_active_ids : active_worker_ids (state (sup y)) = list_to_set (joinable y ++ spawning y);
  b_handles : dom (join_handles (state (sup y))) = list_to_set (joinable y);
  b_joined : joined_worker_ids (state (sup y)) =
    last_n COMPLETED_WORKER_ID_CAPACITY (finished y).*1;
  b_first : first_failure (state (sup y)) = head (failures (finished y));
  b_additional : additional_failures (state (sup y)) = len (tail (failures (finished y)));
}.

Lemma task_worker_id_inj sc n m l1 l2 :
  0 ≤ n → 0 ≤ m → task_worker_id sc n l1 = task_worker_id sc m l2 → n = m.
Proof.
  unfold task_worker_id. intros Hn Hm Heq.
  apply (inj (String.app sc)), (inj (String.app ":task-")) in Heq.
  apply (separator_inj ":"%char) in Heq as [Heq _]; [|by apply pretty_Z_avoids_colon..].
  by apply (inj pretty) in Heq.
Qed.

Lemma books_NoDup y : books y → NoDup (admitted y).
Proof.
  intros Hb. apply NoDup_alt. intros i j id Hi Hj.
  destruct (b_ids y Hb i id Hi) as (l1 & H1), (b_ids y Hb j id Hj) as (l2 & H2).
  rewrite H1 in H2. apply task_worker_id_inj in H2; lia.
Qed.

Lemma initial_books sc : books (initial sc).
Proof. by split. Qed.

Lemma admit_Ok label (s : Supervisor JoinHandle) id s' :
  admit_task label s = (Ok id, s') →
  id = task_worker_id (scope s) (next_worker_sequence (state s)) label ∧
  admitted_tasks (state s) + 1 ≤ usize_max ∧ faulted s = false ∧ poisoned s = false ∧
  s' = set_state {| phase := phase (state s); active := active (state s) + 1;
    first_failure := first_failure (state s); additional_failures := additional_failures (state s);
    admitted_tasks := admitted_tasks (state s) + 1; completed_tasks := completed_tasks (state s);
    next_worker_sequence := next_worker_sequence (state s) + 1;
    active_worker_ids := {[id]} ∪ active_worker_ids (state s);
    joined_worker_ids := joined_worker_ids (state s); join_handles := join_handles (state s) |} s.
Proof.
  unfold admit_task, check_faulted, lock, put. sm_unfold. intros Hr.
  destruct (faulted s) eqn:Hf; [done|]. destruct (poisoned s) eqn:Hp; [done|].
  case_bool_decide; [done|].
  destruct (checked_add usize_max (active (state s)) 1) as [a|] eqn:Ha; [|done].
  destruct (checked_add usize_max (admitted_tasks (state s)) 1) as [m|] eqn:Hm; [|done].
  destruct (checked_add u64_max (next_worker_sequence (state s)) 1) as [n|] eqn:Hn; [|done].
  case_bool_decide; [done|]. simplify_eq.
  apply checked_add_Some in Ha as [-> ?], Hm as [-> ?], Hn as [-> ?]. done.
Qed.

Lemma admit_Err label (s : Supervisor JoinHandle) e s' : admit_task label s = (Err e, s') → s' = s.
Proof.
  unfold admit_task, check_faulted, lock, put. sm_unfold. intros Hr. by repeat (case_match; simplify_eq/=).
Qed.

Lemma books_admit label y : books y → books (step_admit label y).
Proof.
  intros Hb. unfold step_admit. destruct (admit_task label (sup y)) as [[id|e] s'] eqn:Hr.
  2:{ apply admit_Err in Hr as ->. destruct Hb. by split. }
  apply admit_Ok in Hr as (-> & Hm & Hf & Hp & ->).
  destruct Hb as [B1 B2 B3 B4 B5 B6 B7 B8 B9 B10 B11 B12 B13 B14].
  rewrite B3, B5, B9, B10 in *. split; simpl; try done.
  - rewrite len_app. change (len [_]) with 1. lia.
  - intros i id [[_ Hi]|[Hi <-]]%lookup_snoc_Some; [by apply B4|].
    eexists. subst i. done.
  - by rewrite len_app.
  - by rewrite len_app.
  - set (id := task_worker_id _ _ _). clearbody id. rewrite B8. by rewrite !(assoc_L (++)).
  - rewrite (assoc_L (++)), (len_app (joinable y ++ spawning y)). done.
  - set (id := task_worker_id _ _ _). clearbody id. set_solver.
Qed.

Lemma NoDup_middle (l k r : list string) id :
  NoDup (r ++ l ++ id :: k) → id ∉ r ∧ id ∉ l ++ k.
Proof.
  rewrite !NoDup_app, NoDup_cons. intros (_ & Hr & _ & Hl & Hk & _). split.
  - intros Hid. apply (Hr id Hid). rewrite !elem_of_app, elem_of_cons. auto.
  - rewrite elem_of_app. intros [Hid|Hid]; [|done]. apply (Hl id Hid). by left.
Qed.

Lemma books_retain l k id h y :
  books y → spawning y = l ++ id :: k → books (step_retain l k id h y).
Proof.
  intros Hb Hs. pose proof (books_NoDup y Hb) as Hnd.
  destruct Hb as [B1 B2 B3 B4 B5 B6 B7 B8 B9 B10 B11 B12 B13 B14]. rewrite Hs in *.
  assert (id ∉ joinable y) as Hid.
  { rewrite B8, (assoc_L (++)) in Hnd. apply NoDup_middle in Hnd as [Hnd _]. rewrite elem_of_app in Hnd. tauto. }
  assert (join_handles (state (sup y)) !! id = None) as Hh.
  { apply not_elem_of_dom. rewrite B11, elem_of_list_to_set. done. }
  unfold step_retain, retain_join_handle. rewrite B2, Hh, bool_decide_eq_false_2 by (by intros []).
  assert (joinable y ++ l ++ id :: k ≡ₚ (joinable y ++ [id]) ++ l ++ k) as Hperm.
  { rewrite <- (assoc_L (++)). simpl. f_equiv. by rewrite Permutation_middle. }
  split; simpl; try done.
  - rewrite B8. by rewrite Hperm.
  - rewrite B9. unfold len. by rewrite Hperm.
  - rewrite B10. by rewrite Hperm.
  - rewrite dom_insert_L, B11. set_solver.
Qed.

Lemma failures_snoc (l : list (string * outcome)) id o :
  failures (l ++ [(id, o)]) = failures l ++ match o with Err f => [f] | Ok _ => [] end.
Proof. unfold failures. rewrite omap_app. by destruct o. Qed.

Lemma failures_length (l : list (string * outcome)) : (length (failures l) ≤ length l)%nat.
Proof. induction l as [|[id [|]] l IH]; simpl in *; lia. Qed.

Lemma last_n_snoc (l : list string) id :
  let joined := last_n COMPLETED_WORKER_ID_CAPACITY l ++ [id] in
  (if (COMPLETED_WORKER_ID_CAPACITY <? length joined)%nat then tail joined else joined) =
  last_n COMPLETED_WORKER_ID_CAPACITY (l ++ [id]).
Proof.
  cbv zeta. rewrite <- last_n_app_l. set (j := last_n _ l).
  assert (length j ≤ COMPLETED_WORKER_ID_CAPACITY)%nat as Hj.
  { unfold j, last_n. rewrite length_drop. lia. }
  clearbody j. unfold last_n. rewrite length_app. cbn [length].
  destruct (Nat.ltb_spec COMPLETED_WORKER_ID_CAPACITY (length j + 1)).
  - replace (length j + 1 - COMPLETED_WORKER_ID_CAPACITY)%nat with 1%nat by lia.
    by destruct (j ++ [id]).
  - by replace (length j + 1 - COMPLETED_WORKER_ID_CAPACITY)%nat with 0%nat by lia.
Qed.

Lemma record_outcome_books o (st : TaskSupervisorState JoinHandle) (l : list (string * outcome)) id :
  first_failure st = head (failures l) → additional_failures st = len (tail (failures l)) →
  len l + 1 ≤ usize_max →
  record_outcome o st =
    Some (head (failures (l ++ [(id, o)])), len (tail (failures (l ++ [(id, o)])))).
Proof.
  intros Hf Ha Hmax. rewrite failures_snoc. unfold record_outcome. rewrite Hf, Ha.
  pose proof (failures_length l). unfold len in *.
  destruct o as [?|f]; [by rewrite app_nil_r|].
  destruct (failures l) as [|f0 fs]; simpl in *; [done|].
  rewrite (proj2 (checked_add_Some _ _ _ (Z.of_nat (length (fs ++ [f]))))); [done|].
  rewrite length_app. simpl. lia.
Qed.

Lemma books_finish l k id o y :
  books y → joinable y = l ++ id :: k → books (step_finish l k id o y).
Proof.
  intros Hb Hs. pose proof (books_NoDup y Hb) as Hnd.
  destruct Hb as [B1 B2 B3 B4 B5 B6 B7 B8 B9 B10 B11 B12 B13 B14]. rewrite Hs in *.
  rewrite <- (assoc_L (++)) in *. simpl app in *.
  rewrite B8 in Hnd. pose proof Hnd as Hnd'. apply NoDup_middle in Hnd' as [Hfin Hrest].
  assert (len (admitted y) = len (finished y) + len (l ++ id :: k ++ spawning y)) as Hlen.
  { unfold len. rewrite B8, length_app, length_fmap. lia. }
  pose proof (len_nonneg (finished y)). 
  assert (1 ≤ len (l ++ id :: k ++ spawning y)) as Hpos.
  { rewrite len_app, len_cons. pose proof (len_nonneg l). pose proof (len_nonneg (k ++ spawning y)). lia. }
  unfold step_finish, finish. rewrite B2, B7.
  rewrite (proj2 (checked_add_Some _ _ _ (len (finished y) + 1))) by lia.
  assert (id ∉ last_n COMPLETED_WORKER_ID_CAPACITY (finished y).*1) as Hj by (by intros ?%last_n_incl).
  rewrite (proj2 (Z.eqb_neq _ _)) by lia.
  rewrite B10, (bool_decide_eq_true_2 (id ∈ _)) by (apply elem_of_list_to_set; set_solver).
  rewrite B12, (bool_decide_eq_false_2 (id ∈ _)) by done.
  rewrite (bool_decide_eq_true_2 (is_Some _)) by (apply elem_of_dom; rewrite B11; apply elem_of_list_to_set; set_solver).
  simpl negb. simpl orb. cbv iota.
  rewrite (record_outcome_books o (state (sup y)) (finished y) id) by (done || lia).
  set (s' := set_state _ (sup y)).
  assert (books {| sup := s'; notify := notify y; spawning := spawning y; joinable := l ++ k;
    admitted := admitted y; finished := finished y ++ [(id, o)]; waiters := waiters y |}) as Hbooks.
  { split; unfold s'; simpl; try done.
    - by rewrite len_app.
    - rewrite B8, fmap_app. simpl. rewrite <- !(assoc_L (++)). simpl. f_equiv.
      symmetry. apply Permutation_middle.
    - rewrite B9. rewrite <- (assoc_L (++)), !len_app, len_cons, !len_app. lia.
    - apply set_eq. intros j. rewrite elem_of_difference, elem_of_singleton, !elem_of_list_to_set.
      rewrite <- (assoc_L (++)). set_solver.
    - rewrite dom_delete_L, B11. apply set_eq. intros j.
      rewrite elem_of_difference, elem_of_singleton, !elem_of_list_to_set.
      assert (id ∉ l ++ k) by set_solver. set_solver.
    - rewrite fmap_app. apply last_n_snoc. }
  match goal with |- context [if ?b && bool_decide ?P then _ else _] =>
    assert (b && bool_decide P = false) as -> end.
  { apply andb_false_iff. destruct (Nat.ltb_spec COMPLETED_WORKER_ID_CAPACITY
      (length (last_n COMPLETED_WORKER_ID_CAPACITY (finished y).*1 ++ [id]))) as [Hl|Hl]; [right|by left].
    apply bool_decide_eq_false. rewrite length_app in Hl. 
    destruct (last_n _ _) as [|j js]; [unfold COMPLETED_WORKER_ID_CAPACITY in Hl; simpl in Hl; lia|].
    simpl. intros [= ->]. apply Hj. by left. }
  case_match; [|done]. destruct Hbooks. by split.
Qed.

(** What the snapshot and the failure summary say of the history. *)
Record truthful (y : Sys) (snap : TaskSupervisorSnapshot) : Prop := {
  t_active : snap_active snap = len (joinable y ++ spawning y);
  t_admitted : snap_admitted_tasks snap = len (admitted y);
  t_completed : snap_completed_tasks snap = len (finished y);
  t_failures : snap_total_failures snap = len (failures (finished y));
  t_joined : snap_joined_worker_ids snap = last_n COMPLETED_WORKER_ID_CAPACITY (finished y).*1;
  t_expected : snap_expected_worker_ids snap ≡ₚ
    (joinable y ++ spawning y) ++ last_n COMPLETED_WORKER_ID_CAPACITY (finished y).*1;
}.

Lemma insert_all_Some ids (e : gset string) :
  NoDup ids → (∀ id, id ∈ ids → id ∉ e) → insert_all ids e = Some (list_to_set ids ∪ e).
Proof.
  intros Hnd. revert e. induction Hnd as [|id ids Hid Hnd IH]; intros e He; simpl.
  - by rewrite (left_id_L ∅ (∪)).
  - rewrite bool_decide_eq_false_2 by (apply He; by left).
    rewrite IH; [f_equal; set_solver|]. intros j Hj. specialize (He j). set_solver.
Qed.

Lemma NoDup_last_n (n : nat) (l : list string) : NoDup l → NoDup (last_n n l).
Proof.
  unfold last_n. intros Hl. rewrite <- (take_drop (length l - n) l), NoDup_app in Hl. tauto.
Qed.

Lemma size_list_to_set_NoDup (l : list string) :
  NoDup l → size (list_to_set l : gset string) = length l.
Proof. intros. by apply size_list_to_set. Qed.

Lemma books_snapshot y :
  books y → ∃ snap, snapshot (sup y) = (Ok snap, sup y) ∧ truthful y snap.
Proof.
  intros Hb. pose proof (books_NoDup y Hb) as Hnd. destruct Hb as [B1 B2 B3 B4 B5 B6 B7 B8 B9 B10 B11 B12 B13 B14].
  assert (len (admitted y) = len (finished y) + len (joinable y ++ spawning y)) as Hlen.
  { unfold len. rewrite B8, length_app, length_fmap. lia. }
  rewrite B8, NoDup_app in Hnd. destruct Hnd as (Hnf & Hdisj & Hna).
  pose proof (failures_length (finished y)) as Hfl.
  assert (NoDup (last_n COMPLETED_WORKER_ID_CAPACITY (finished y).*1)) as Hnl by by apply NoDup_last_n.
  assert (insert_all (last_n COMPLETED_WORKER_ID_CAPACITY (finished y).*1)
      (list_to_set (joinable y ++ spawning y)) = Some (list_to_set
        (last_n COMPLETED_WORKER_ID_CAPACITY (finished y).*1) ∪ list_to_set (joinable y ++ spawning y))) as Hins.
  { apply insert_all_Some; [done|]. intros id Hid%last_n_incl. rewrite elem_of_list_to_set. by apply Hdisj. }
  unfold snapshot, check_faulted, lock. sm_unfold. rewrite B1, B2, B7, B9.
  rewrite (proj2 (checked_add_Some _ _ _ (len (admitted y)))) by lia.
  assert (inconsistent (state (sup y)) (len (admitted y)) = false) as ->.
  { unfold inconsistent. rewrite B5, B9, B10, B12, Z.eqb_refl.
    rewrite !size_list_to_set_NoDup by done. rewrite !orb_false_iff. split_and!.
    - apply andb_false_iff. destruct (len (joinable y ++ spawning y) =? 0) eqn:E; [right|by left].
      bool_prop. destruct (joinable y) as [|id k].
      + rewrite bool_decide_eq_true_2; [done|]. apply dom_empty_inv_L. rewrite B11. done.
      + simpl in E. rewrite len_cons in E. pose proof (len_nonneg (k ++ spawning y)). lia.
    - unfold len. by rewrite Z.eqb_refl.
    - done.
    - apply Nat.ltb_ge. unfold last_n. rewrite length_drop. lia.
    - by rewrite bool_decide_eq_true_2.
    - rewrite bool_decide_eq_true_2; [done|]. rewrite B11. set_solver. }
  rewrite B13, B14, B5, B12, B10, Hins.
  assert (checked_add usize_max (match head (failures (finished y)) with Some _ => 1 | None => 0 end)
            (len (tail (failures (finished y)))) = Some (len (failures (finished y)))) as Htot.
  { apply checked_add_Some. unfold len in *. destruct (failures (finished y)); simpl in *; lia. }
  rewrite Htot. eexists. split; [reflexivity|]. split; try done. simpl.
  unfold sorted_ids. rewrite sorted_strings_perm.
  rewrite <- list_to_set_app_L, elements_list_to_set; [apply Permutation_app_comm|].
  rewrite NoDup_app. split_and!; [done| |done]. intros id Hid%last_n_incl. by apply Hdisj.
Qed.

Lemma books_summary y :
  books y → failure_summary (sup y) =
    (Ok (match failures (finished y) with
         | [] => None
         | f :: fs => Some {| first := f; additional := len fs |}
         end), sup y).
Proof.
  intros [B1 B2 B3 B4 B5 B6 B7 B8 B9 B10 B11 B12 B13 B14].
  unfold failure_summary, check_faulted, lock. sm_unfold. rewrite B1, B2, B13, B14.
  by destruct (failures (finished y)).
Qed.

Lemma books_step y y' : books y → step y y' → books y'.
Proof.
  intros Hb Hstep. destruct Hstep.
  - by apply books_admit.
  - by apply books_retain.
  - by apply books_finish.
  - destruct Hb as [B1 B2 B3 B4 B5 B6 B7 B8 B9 B10 B11 B12 B13 B14].
    unfold begin_shutdown, check_faulted, lock, put. sm_unfold. rewrite B1, B2. by split.
  - destruct (books_snapshot y Hb) as (snap & -> & _). destruct Hb. by split.
  - destruct Hb. by split.
  - unfold step_arm. destruct (enable (notify y)). destruct Hb. by split.
  - destruct Hb. by split.
  - destruct Hb. by split.
  - destruct Hb. by split.
Qed.

(** C25: The supervisor never loses account of its tasks: however the steps of
    [spawn], the reapers' [finish], shutdown, snapshots and waiters interleave, it
    is never faulted, no snapshot is refused, and every snapshot and failure
    summary states exactly the tasks admitted, active, completed and failed, the
    first failure, and the ids of the last 1024 completions in join order. *)
Theorem supervisor_books_balance (sc : string) (y : Sys) :
  rtc step (initial sc) y →
  faulted (sup y) = false ∧
  (∃ snap, snapshot (sup y) = (Ok snap, sup y) ∧ truthful y snap) ∧
  failure_summary (sup y) =
    (Ok (match failures (finished y) with
         | [] => None
         | f :: fs => Some {| first := f; additional := len fs |}
         end), sup y).
Proof.
  intros Hrun. assert (books y) as Hb.
  { eapply (rtc_preserves step books); [|exact Hrun|apply initial_books]. intros x z Hxz Hx. by eapply books_step. }
  split_and!; [by apply b_faulted|by apply books_snapshot|by apply books_summary].
Qed.

(** ** Waiters *)

Context `{!NotifyLaws N}.

(** What a caller that is not woken, with no notification under way, has seen is
    still so. *)
Definition seen (y : Sys) (st : Stage) : Prop :=
  match st with
  | Armed => True
  | Checked => faulted (sup y) = false
  | Waiting => faulted (sup y) = false ∧ active (state (sup y)) ≠ 0
  end.

Record waiting_ok (y : Sys) : Prop := {
  w_active : 0 ≤ active (state (sup y));
  w_enabled w st : waiters y !! w = Some st → enabled (notify y) w;
  w_seen w st : waiters y !! w = Some st →
    is_notified (notify y) w = true ∨ notifying (sup y) ≠ 0%nat ∨ seen y st;
}.

(** A step of the supervisor either announces what it did, or takes nothing from
    a waiter. *)
Definition announces (s s' : Supervisor JoinHandle) : Prop :=
  0 ≤ active (state s) →
  0 ≤ active (state s') ∧
  (notifying s' ≠ 0%nat ∨
   notifying s' = notifying s ∧ (faulted s' = true → faulted s = true) ∧
   (active (state s) ≠ 0 → active (state s') ≠ 0)).

Lemma announces_refl s : announces s s.
Proof. intros ?. split; [done|]. right. done. Qed.

Lemma announces_admit label s : announces s (admit_task label s).2.
Proof.
  destruct (admit_task label s) as [[id|e] s'] eqn:Hr; simpl.
  - apply admit_Ok in Hr as (_ & _ & _ & _ & ->). intros ?. simpl. split; [lia|]. right.
    split_and!; try done. lia.
  - apply admit_Err in Hr as ->. apply announces_refl.
Qed.

Lemma announces_retain id h s : announces s (retain_join_handle id h s).2.
Proof.
  unfold retain_join_handle. intros ?. destruct (poisoned s); simpl; [by split; [|left]|].
  case_bool_decide; simpl; (split; [done|]); [by left|by right].
Qed.

Lemma announces_finish id o s : announces s (finish id o s).
Proof.
  unfold finish. intros Hs. destruct (poisoned s); [by split; [|left]|].
  destruct (checked_add _ _ _) as [n|]; [|by split; [|left]].
  destruct (_ || _) eqn:Hg; [by split; [|left]|].
  rewrite !orb_false_iff in Hg. destruct Hg as [[[Hz _] _] _]. bool_prop.
  destruct (record_outcome _ _) as [[f a]|]; [|by split; [|left]].
  case_match; simpl; [split; [lia|by left]|].
  case_match; bool_prop; simpl; (split; [lia|]); [by left|right]. split_and!; (done || lia).
Qed.

Lemma announces_shutdown s : announces s (begin_shutdown s).2.
Proof.
  unfold begin_shutdown, check_faulted, lock, put. sm_unfold. intros ?.
  destruct (faulted s) eqn:Hf; [by split; [|right]|].
  destruct (poisoned s); simpl; rewrite ?Hf; by split; [|right].
Qed.

Lemma announces_snapshot s : announces s (snapshot s).2.
Proof.
  assert (announces s s) as Hsame by apply announces_refl.
  assert (announces s (fault s)) as Hfault by (intros ?; split; [done|by left]).
  unfold snapshot, check_faulted, lock. sm_unfold.
  destruct (faulted s); [apply Hsame|]. destruct (poisoned s); [apply Hsame|].
  destruct (checked_add _ _ _); [|apply Hsame]. destruct (inconsistent _ _); [apply Hfault|].
  destruct (checked_add _ _ _); [|apply Hsame].
  destruct (insert_all _ _); [apply Hsame|apply Hfault].
Qed.

Lemma waiting_ok_announce y y' :
  waiting_ok y → announces (sup y) (sup y') → notify y' = notify y → waiters y' = waiters y →
  waiting_ok y'.
Proof.
  intros [W1 W2 W3] Ha Hn Hw. destruct (Ha W1) as [Hact Hann]. split; [done|rewrite Hw, Hn; done|].
  intros w st. rewrite Hw, Hn. intros Hst. destruct Hann as [Hann|(Heq & Hf & Hz)]; [by right; left|].
  destruct (W3 w st Hst) as [?|[?|Hseen]]; [by left|right; left; lia|].
  right; right. destruct st; simpl in *; [done| |]; destruct (faulted (sup y')); naive_solver.
Qed.

Lemma waiting_ok_initial sc : waiting_ok (initial sc).
Proof. split; [done|by intros w st ?..]. Qed.

Lemma waiting_ok_step y y' : waiting_ok y → any_step y y' → waiting_ok y'.
Proof.
  intros Hw Hstep. destruct Hstep as [y y' Hstep|y].
  2:{ eapply waiting_ok_announce; try done. simpl. intros ?. split; [done|by right]. }
  destruct Hstep as [label y|l k id h y|l k id o y|y|y|n y Hn|y|w y Hst|w y Hst|w y Hst Haw].
  - pose proof (announces_admit label (sup y)) as Ha. unfold step_admit.
    destruct (admit_task label (sup y)) as [[id|e] s']; by eapply waiting_ok_announce.
  - eapply waiting_ok_announce; try done. apply announces_retain.
  - eapply waiting_ok_announce; try done. apply announces_finish.
  - eapply waiting_ok_announce; try done. apply announces_shutdown.
  - eapply waiting_ok_announce; try done. apply announces_snapshot.
  - destruct Hw as [W1 W2 W3]. split; simpl; [done| |].
    + intros w st Hst. by eapply notify_keeps, W2.
    + intros w st Hst. left. by eapply notify_wakes, W2.
  - destruct Hw as [W1 W2 W3]. unfold step_arm.
    pose proof (enable_enabled (notify y)) as He. pose proof (enable_keeps (notify y)) as Hk.
    pose proof (enable_awake (notify y)) as Haw.
    destruct (enable (notify y)) as [w0 n]. simpl in *. split; simpl; [done| |].
    + intros w st [[<- _]|[_ Hst]]%lookup_insert_Some; [done|]. by eapply Hk, W2.
    + intros w st [[<- <-]|[_ Hst]]%lookup_insert_Some; [by right; right|].
      destruct (W3 w st Hst) as [?|[?|?]]; [left; by apply Haw|by right; left|right; right].
      by destruct st.
  - destruct Hw as [W1 W2 W3]. unfold step_check_faulted. destruct (faulted (sup y)) eqn:Hf.
    + split; simpl; [done| |]; intros w' st [_ Hst']%lookup_delete_Some; [by eapply W2|by eapply W3].
    + split; simpl; [done| |]; intros w' st [[<- <-]|[_ Hst']]%lookup_insert_Some; simpl; eauto.
  - destruct Hw as [W1 W2 W3]. unfold step_check_active.
    destruct (poisoned (sup y) || (active (state (sup y)) =? 0)) eqn:Hp; bool_prop.
    + split; simpl; [done| |]; intros w' st [_ Hst']%lookup_delete_Some; [by eapply W2|by eapply W3].
    + split; simpl; [done| |]; intros w' st [[<- <-]|[_ Hst']]%lookup_insert_Some; simpl; eauto.
      destruct (W3 w Checked Hst) as [?|[?|?]]; eauto.
  - destruct Hw as [W1 W2 W3].
    split; simpl; [done| |]; intros w' st [_ Hst']%lookup_delete_Some; [by eapply W2|by eapply W3].
Qed.

(** C26: No wakeup of [wait_for_idle] is lost. Under any interleaving, including
    a poisoned mutex, a caller that awaits and has not been woken waits for a
    reason that still holds (a task is active and the supervisor is not faulted),
    or a notification is on its way to it. *)
Theorem supervisor_no_lost_wakeup (sc : string) (y : Sys) (w : nat) :
  rtc any_step (initial sc) y → waiters y !! w = Some Waiting →
  is_notified (notify y) w = true ∨ notifying (sup y) ≠ 0%nat ∨
  active (state (sup y)) ≠ 0 ∧ faulted (sup y) = false.
Proof.
  intros Hrun Hw. assert (waiting_ok y) as Hok.
  { eapply (rtc_preserves any_step waiting_ok); [|exact Hrun|apply waiting_ok_initial].
    intros x z Hxz Hx. by eapply waiting_ok_step. }
  destruct (w_seen y Hok w Waiting Hw) as [?|[?|[??]]]; auto.
Qed.

End System.

(** ** Witnesses *)

(** A [Notify] that remembers which futures it has woken. *)
Record ListNotify := { issued : nat; woken : nat }.
#[export] Instance list_notify : Notify ListNotify := {
  notify_new := {| issued := 0; woken := 0 |};
  enable n := (issued n, {| issued := S (issued n); woken := woken n |});
  notify_all n := {| issued := issued n; woken := issued n |};
  is_notified n w := ((w <? woken n) && (w <? issued n))%nat;
}.

#[export] Program Instance list_notify_laws : NotifyLaws ListNotify := {
  enabled n w := (w < issued n)%nat;
}.
Next Obligation. intros n. simpl. lia. Qed.
Next Obligation. intros n w. simpl. lia. Qed.
Next Obligation. done. Qed.
Next Obligation. intros n w. simpl. by rewrite andb_true_iff, Nat.ltb_lt. Qed.
Next Obligation. intros n w. simpl. rewrite !andb_true_iff, !Nat.ltb_lt. lia. Qed.
Next Obligation. intros n w. simpl. rewrite !andb_true_iff, !Nat.ltb_lt. lia. Qed.

Notation sys0 := (@initial unit ListNotify _ "s").
Notation id1 := "s:task-1:load".
Definition failure1 : SupervisedTaskFailure :=
  {| label := "load"; kind := FailPanic; detail := "task panicked" |}.

Lemma supervisor_books_balance_witness :
  ∃ y : @Sys unit ListNotify, rtc step sys0 y ∧
    failure_summary (sup y) = (Ok (Some {| first := failure1; additional := 0 |}), sup y) ∧
    ∃ snap, snapshot (sup y) = (Ok snap, sup y) ∧
      snap_joined_worker_ids snap = [id1] ∧ snap_admitted_tasks snap = 2 ∧ snap_active snap = 1.
Proof.
  assert (rtc step sys0 (step_finish [] [] id1 (Err failure1)
    (step_admit "probe" (step_retain [] [] id1 tt (step_admit "load" sys0))))) as Hrun.
  { eapply rtc_l; [apply (do_admit "load")|].
    eapply rtc_l; [apply (do_retain [] [] id1 tt); vm_compute; reflexivity|].
    eapply rtc_l; [apply (do_admit "probe")|].
    eapply rtc_l; [apply (do_finish [] [] id1 (Err failure1)); vm_compute; reflexivity|].
    apply rtc_refl. }
  destruct (supervisor_books_balance "s" _ Hrun) as (_ & (snap & Hs & Ht) & Hf).
  eexists. split; [exact Hrun|]. split; [rewrite Hf; reflexivity|].
  exists snap. split; [exact Hs|]. split; [|split].
  - rewrite (t_joined _ _ Ht). vm_compute. reflexivity.
  - rewrite (t_admitted _ _ Ht). vm_compute. reflexivity.
  - rewrite (t_active _ _ Ht). vm_compute. reflexivity.
Defined.

Lemma supervisor_no_lost_wakeup_witness :
  ∃ y : @Sys unit ListNotify, rtc any_step sys0 y ∧ waiters y !! 0%nat = Some Waiting ∧
    (is_notified (notify y) 0 = true ∨ notifying (sup y) ≠ 0%nat ∨
     active (state (sup y)) ≠ 0 ∧ faulted (sup y) = false).
Proof.
  assert (rtc any_step sys0 (step_check_active 0 (step_check_faulted 0 (step_arm
    (step_retain [] [] id1 tt (step_admit "load" sys0)))))) as Hrun.
  { eapply rtc_l; [apply plain_step, (do_admit "load")|].
    eapply rtc_l; [apply plain_step, (do_retain [] [] id1 tt); vm_compute; reflexivity|].
    eapply rtc_l; [apply plain_step, do_arm|].
    eapply rtc_l; [apply plain_step, (do_check_faulted 0%nat); vm_compute; reflexivity|].
    eapply rtc_l; [apply plain_step, (do_check_active 0%nat); vm_compute; reflexivity|].
    apply rtc_refl. }
  eexists. split; [exact Hrun|]. split; [vm_compute; reflexivity|].
  apply (supervisor_no_lost_wakeup "s" _ 0 Hrun). vm_compute. reflexivity.
Defined.

End System.
