(* ===== verification/SpeechTypes.v ===== *)
(** * SpeechTypes: speech requests and capabilities

    Models [speech-native-types/src/lib.rs]: the requests for transcription and synthesis,
    what the backends report that they can do, and the validation of both. An [f32] is its
    bit pattern; the comparisons of the validation are written out on the bits. *)

From S2P Require Import Prelude Bytes Text Utf8 Strings.
Local Open Scope Z_scope.

(** ** Audio *)

Inductive EncodedAudioFormat := EncodedWav | EncodedFlac | EncodedMp3 | EncodedM4a | EncodedOggOpus | EncodedWebmOpus.
Inductive PcmSampleFormat := I16Le | I24Le | I32Le | F32Le.
Record PcmFormat := { sample_rate_hz : Z; channels : Z; sample_format : PcmSampleFormat; interleaved : bool }.
Inductive AudioInput :=
| InputEncoded (format : EncodedAudioFormat) (data : list Z)
| InputPcm (format : PcmFormat) (data : list Z)
| InputAsset (asset_id : text) (format_hint : option EncodedAudioFormat).
Inductive AudioOutputFormat :=
| OutputWav
| OutputPcm (format : PcmFormat)
| OutputMp3 (bitrate_kbps : option Z)
| OutputOggOpus (bitrate_kbps : option Z).
Record AudioChunk := {
  sequence : Z; sample_offset : Z; chunk_format : PcmFormat; chunk_data : list Z; end_of_stream : bool }.

(** ** Requests *)

Inductive SpeechRouteSelector :=
| Auto
| ExactBackend (backend_id : text) (model_id voice_id : option text)
| Profile (name : text).
Inductive SpeechPrivacyPolicy := LocalOnly | HostedAllowed | HostedOnly.
Inductive SpeechRouteProfile := PrivateBalanced | NativePreferred | ConsistentLocal | QualityLocal | HostedEnabled.
Record SpeechRoutingPolicy := {
  privacy : SpeechPrivacyPolicy; profile : SpeechRouteProfile; allow_asset_download : bool; allow_fallback_before_output : bool }.
Record SpeechDeadlinePolicy := {
  queue_ms : option Z; model_load_ms : option Z; first_result_ms : option Z; idle_stream_ms : option Z; total_ms : option Z }.
Record SpeechRequestContext := {
  request_id : text; client_id : text; route : SpeechRouteSelector; routing : SpeechRoutingPolicy; deadline : SpeechDeadlinePolicy }.

Inductive TranscriptionInput :=
| Complete (audio : AudioInput)
| LiveStream (stream_id : text) (format : PcmFormat).
Inductive TranscriptionTask := Transcribe | TranslateToEnglish.
Inductive TimestampGranularity := TimestampNone | TimestampSegment | TimestampWord.
Inductive DiarizationPolicy := DiarizationDisabled | DiarizationAuto | DiarizationBounded (max_speakers : Z).
Record TranscriptionRequest := {
  t_context : SpeechRequestContext; t_input : TranscriptionInput; t_language : option text; task : TranscriptionTask;
  timestamps : TimestampGranularity; diarization : DiarizationPolicy; partial_results : bool; punctuation : bool;
  hotwords : list text }.

Inductive SynthesisInput := SynthesisText (t : text) | SynthesisSsml (ssml : text).
Inductive VoiceSelector := VoiceAuto | VoiceExact (voice_id : text) | VoiceProfile (name : text).
Inductive AlignmentGranularity := AlignmentNone | AlignmentWord | AlignmentPhoneme.
Record SynthesisRequest := {
  s_context : SpeechRequestContext; s_input : SynthesisInput; voice : VoiceSelector; s_language : option text;
  rate : Z; pitch : Z; volume : Z; output : AudioOutputFormat; alignment : AlignmentGranularity; stream : bool }.

(** ** Capabilities *)

Inductive SpeechBackendKind := PlatformOnDevice | PlatformService | EmbeddedModel | ResidentMultimodalModel | Hosted.
Inductive AssetManager := OperatingSystem | HuggingFaceCache | Application | Provider.
Record SpeechAsset := { asset_name : text; asset_display : text; asset_bytes : option Z; managed_by : AssetManager }.
Inductive SpeechPermission := Microphone | SpeechRecognition | PermitNetwork | FileRead | FileWrite.
Inductive SpeechBackendReadiness :=
| Ready
| ReadyAfterAssets (assets : list SpeechAsset)
| ReadyAfterPermission (permissions : list SpeechPermission)
| NotConfigured (reason : text)
| ReadinessUnavailable (reason : text)
| ReadinessUnknown (reason : text).
Definition is_ready (r : SpeechBackendReadiness) : bool := match r with Ready => true | _ => false end.

Inductive NetworkBehavior := Never | Optional | Required | NetworkUnknown.
Inductive EvidenceKind := Documentation | BuildTarget | RuntimeApi | SystemInventory | RealSmoke | UserConfiguration.
Inductive EvidenceOutcome := Confirmed | Rejected | Inconclusive.
Record CapabilityEvidence := {
  source_id : text; source_version : option text; evidence_kind : EvidenceKind; evidence_outcome : EvidenceOutcome;
  observed_at_unix_ms : Z; evidence_detail : text }.
Inductive CapabilityAvailability := Available | DeferredLoad | AssetInstallRequired | PermissionRequired | Unavailable | Unknown.
Inductive AcceptedAudio := AcceptPcm | AcceptWav | AcceptFlac | AcceptMp3 | AcceptM4a | AcceptOggOpus | AcceptWebmOpus.
Inductive AudioOutputKind := KindPcm | KindWav | KindMp3 | KindOggOpus.
Record TranscriptionCapabilities := {
  streaming : bool; can_partial_results : bool; segment_timestamps : bool; word_timestamps : bool; can_diarization : bool;
  translation_to_english : bool; long_form : bool; can_hotwords : bool; generative : bool; acoustic_turn_events : bool;
  semantic_end_of_utterance : bool; accepted_audio : list AcceptedAudio }.
Record SynthesisCapabilities := {
  streaming_audio : bool; ssml : bool; word_alignment : bool; phoneme_alignment : bool; pause_resume : bool; voice_selection : bool;
  returned_audio : list AudioOutputKind }.
Inductive SpeechOperationCapability :=
| Transcription (features : TranscriptionCapabilities)
| Synthesis (features : SynthesisCapabilities).
Inductive SpeechOperationKind := KindTranscription | KindSynthesis.
Record SpeechCapabilityLimits := {
  max_audio_ms : option Z; max_input_characters : option Z; max_concurrent_requests : option Z; limit_speakers : option Z }.
Record SpeechCapability := {
  c_id : text; c_backend_id : text; c_model_id : option text; operation : SpeechOperationCapability;
  availability : CapabilityAvailability; network : NetworkBehavior; languages : list text;
  limits : SpeechCapabilityLimits; evidence : list CapabilityEvidence }.
Inductive VoiceQuality := Basic | Normal | Enhanced | Premium.
Inductive VoiceGender := Female | Male | Neutral | Unspecified.
Inductive LatencyClass := LatencyVeryLow | LatencyLow | LatencyNormal | LatencyHigh | LatencyVeryHigh.
Record VoiceDescriptor := {
  v_id : text; v_name : text; v_language : text; gender : option VoiceGender; quality : option VoiceQuality;
  expected_latency : option LatencyClass; v_network : NetworkBehavior; installed : bool }.
Record SpeechModelDescriptor := {
  m_id : text; m_display_name : text; family : text; m_languages : list text; resident : bool;
  estimated_memory_bytes : option Z; content_hash : option text }.
Record SpeechBackendDescriptor := {
  b_id : text; b_display_name : text; b_kind : SpeechBackendKind; readiness : SpeechBackendReadiness;
  capabilities : list SpeechCapability; models : list SpeechModelDescriptor; voices : list VoiceDescriptor }.
Inductive ProbeSourceStatus := Succeeded | Failed | TimedOut.
Record CapabilitySourceReport := {
  report_source_id : text; status : ProbeSourceStatus; report_detail : option text; backends : list SpeechBackendDescriptor }.
Record SpeechResolvedRoute := {
  r_backend_id : text; r_model_id : option text; r_voice_id : option text; backend_kind : SpeechBackendKind;
  r_network : NetworkBehavior }.

#[export] Instance backend_kind_eq_dec : EqDecision SpeechBackendKind.
Proof. solve_decision. Defined.
#[export] Instance network_eq_dec : EqDecision NetworkBehavior.
Proof. solve_decision. Defined.
#[export] Instance evidence_kind_eq_dec : EqDecision EvidenceKind.
Proof. solve_decision. Defined.
#[export] Instance evidence_outcome_eq_dec : EqDecision EvidenceOutcome.
Proof. solve_decision. Defined.
#[export] Instance availability_eq_dec : EqDecision CapabilityAvailability.
Proof. solve_decision. Defined.
#[export] Instance accepted_audio_eq_dec : EqDecision AcceptedAudio.
Proof. solve_decision. Defined.
#[export] Instance output_kind_eq_dec : EqDecision AudioOutputKind.
Proof. solve_decision. Defined.
#[export] Instance operation_kind_eq_dec : EqDecision SpeechOperationKind.
Proof. solve_decision. Defined.
#[export] Instance probe_status_eq_dec : EqDecision ProbeSourceStatus.
Proof. solve_decision. Defined.

(** ** Validation of requests *)

(** [SpeechError::invalid_request]: class, retryability and backend are fixed. *)
Record SpeechError := { error_code : string; error_request_id : text; safe_detail : string }.
Definition invalid_request (id : text) (code detail : string) : SpeechError :=
  {| error_code := code; error_request_id := id; safe_detail := detail |}.
Notation valid := (result SpeechError unit).
Definition require (id : text) (bad : bool) (code detail : string) : valid := reject_if bad (invalid_request id code detail).

(** [value.trim().is_empty()] *)
Definition is_blank (t : text) : bool := bool_decide (trim t = []).
Definition is_some_blank (t : option text) : bool := match t with Some t => is_blank t | None => false end.

Definition context_validate (x : SpeechRequestContext) : valid :=
  let id := request_id x in
  require id (is_blank id) "request_id_empty" "request_id must not be empty" ;;
  require id (is_blank (client_id x)) "client_id_empty" "client_id must not be empty" ;;
  let d := deadline x in
  require id (existsb (λ o, bool_decide (o = Some 0)) [queue_ms d; model_load_ms d; first_result_ms d; idle_stream_ms d; total_ms d])
    "deadline_invalid" "configured speech deadlines must be greater than zero" ;;
  match route x with
  | ExactBackend backend model voice =>
    require id (is_blank backend) "backend_id_empty" "an exact backend route must name a backend" ;;
    require id (is_some_blank model) "model_id_empty" "an exact model selection must name a model" ;;
    require id (is_some_blank voice) "route_voice_id_empty" "an exact route voice selection must name a voice"
  | Profile name => require id (is_blank name) "route_profile_empty" "a speech route profile must have a name"
  | Auto => mret tt
  end.

Definition bytes_per_frame (f : PcmFormat) : Z :=
  (match sample_format f with I16Le => 2 | I24Le => 3 | I32Le | F32Le => 4 end) * channels f.
Definition pcm_validate (f : PcmFormat) (id : text) : valid :=
  require id (negb (in_range 8000 384000 (sample_rate_hz f))) "sample_rate_invalid" "sample_rate_hz must be between 8000 and 384000" ;;
  require id (negb (in_range 1 32 (channels f))) "channel_count_invalid" "channels must be between 1 and 32".
Definition validate_audio_bytes (data : list Z) (id : text) : valid :=
  require id (bool_decide (data = [])) "audio_data_empty" "audio data must not be empty".
(** [is_multiple_of]: of 0, only 0 is a multiple. *)
Definition is_multiple_of (a b : Z) : bool := if b =? 0 then a =? 0 else a mod b =? 0.
Definition validate_pcm_bytes (f : PcmFormat) (data : list Z) (id : text) : valid :=
  validate_audio_bytes data id ;;
  require id (negb (is_multiple_of (len data) (bytes_per_frame f))) "pcm_frame_incomplete" "PCM data must contain only complete audio frames".
Definition audio_validate (a : AudioInput) (id : text) : valid :=
  match a with
  | InputEncoded _ data => validate_audio_bytes data id
  | InputPcm f data => pcm_validate f id ;; validate_pcm_bytes f data id
  | InputAsset asset _ => require id (is_blank asset) "audio_asset_id_empty" "asset_id must not be empty"
  end.
Definition chunk_validate (c : AudioChunk) (id : text) : valid :=
  pcm_validate (chunk_format c) id ;;
  if bool_decide (chunk_data c = []) && end_of_stream c then mret tt else validate_pcm_bytes (chunk_format c) (chunk_data c) id.
Definition output_validate (o : AudioOutputFormat) (id : text) : valid :=
  match o with
  | OutputPcm f => pcm_validate f id
  | OutputMp3 b | OutputOggOpus b =>
    require id (bool_decide (b = Some 0)) "audio_bitrate_invalid" "audio bitrate must be greater than zero"
  | OutputWav => mret tt
  end.

Definition language_character (c : Z) : bool := is_ascii_alphabetic c || is_ascii_digit c || (c =? 45).
Definition validate_language (language : option text) (id : text) : valid :=
  require id (match language with Some l => is_blank l || negb (forallb language_character l) | None => false end)
    "language_tag_invalid" "language must be a non-empty BCP-47-style tag".

Definition transcription_validate (r : TranscriptionRequest) : valid :=
  let id := request_id (t_context r) in
  context_validate (t_context r) ;;
  match t_input r with
  | Complete audio => audio_validate audio id
  | LiveStream stream_id f =>
    require id (is_blank stream_id) "audio_stream_id_empty" "stream_id must not be empty" ;;
    pcm_validate f id
  end ;;
  validate_language (t_language r) id ;;
  require id (existsb is_blank (hotwords r)) "hotword_empty" "hotwords must not contain empty values" ;;
  require id (match diarization r with DiarizationBounded n => n =? 0 | _ => false end)
    "diarization_speaker_limit_invalid" "bounded diarization must allow at least one speaker".

(** [f32]: the sign is bit 31, the exponent bits 23 to 30; all ones is infinite or no number. *)
Definition f32_magnitude (x : Z) : Z := Z.land x (2 ^ 31 - 1).
Definition f32_is_finite (x : Z) : bool := f32_magnitude x <? 255 * 2 ^ 23.
Definition f32_positive (x : Z) : bool := negb (Z.testbit x 31) && negb (f32_magnitude x =? 0).
Definition F32_ONE : Z := 127 * 2 ^ 23.
Definition f32_in_unit (x : Z) : bool := (f32_magnitude x =? 0) || negb (Z.testbit x 31) && (f32_magnitude x <=? F32_ONE).

Definition synthesis_validate (r : SynthesisRequest) : valid :=
  let id := request_id (s_context r) in
  context_validate (s_context r) ;;
  let text := match s_input r with SynthesisText t | SynthesisSsml t => t end in
  require id (is_blank text) "synthesis_input_empty" "synthesis input must not be empty" ;;
  validate_language (s_language r) id ;;
  require id (negb (f32_is_finite (rate r)) || negb (f32_positive (rate r))) "speech_rate_invalid"
    "speech rate must be finite and greater than zero" ;;
  require id (negb (f32_is_finite (pitch r)) || negb (f32_positive (pitch r))) "speech_pitch_invalid"
    "speech pitch must be finite and greater than zero" ;;
  require id (negb (f32_is_finite (volume r)) || negb (f32_in_unit (volume r))) "speech_volume_invalid"
    "speech volume must be between zero and one" ;;
  match voice r with
  | VoiceExact v => require id (is_blank v) "voice_id_empty" "an exact voice selection must name a voice"
  | VoiceProfile name => require id (is_blank name) "voice_profile_empty" "a voice profile must have a name"
  | VoiceAuto => mret tt
  end ;;
  output_validate (output r) id.

(** ** Validation of capabilities *)

Inductive CapabilityValidationError :=
| IdentifierInvalid (field : string) (value : text)
| BackendOwnerMismatch (backend_id capability_backend_id : text)
| LanguageEmpty
| EvidenceSourceEmpty
| DeferredLoadInvalid.
(** [Display] *)
Definition capability_error_text (e : CapabilityValidationError) : text :=
  match e with
  | IdentifierInvalid field value => str field ++ str " contains an invalid identifier: " ++ value
  | BackendOwnerMismatch b c => str "capability backend " ++ c ++ str " does not match " ++ b
  | LanguageEmpty => str "capability languages must not contain empty values"
  | EvidenceSourceEmpty => str "capability evidence must name its source"
  | DeferredLoadInvalid => str "a deferred-load capability must bind one never-network model and carry only inconclusive system-inventory evidence"
  end.

Definition identifier_byte (b : Z) : bool := in_range 97 122 b || is_ascii_digit b || (b =? 46) || (b =? 45) || (b =? 95).
Definition valid_identifier (t : text) : bool := negb (bool_decide (t = [])) && forallb identifier_byte t.
Definition proves_runtime (e : CapabilityEvidence) : bool :=
  bool_decide (evidence_outcome e = Confirmed) && match evidence_kind e with RuntimeApi | RealSmoke => true | _ => false end.
Definition eligible_for_local_only (c : SpeechCapability) : bool :=
  bool_decide (availability c = Available) && bool_decide (network c = Never) && existsb proves_runtime (evidence c).
Definition deferred_load_admissible (c : SpeechCapability) : bool :=
  bool_decide (availability c = DeferredLoad) && bool_decide (network c = Never)
  && match c_model_id c with Some m => valid_identifier m | None => false end
  && negb (bool_decide (length (evidence c) = 0%nat))
  && forallb (λ e, bool_decide (evidence_kind e = SystemInventory) && bool_decide (evidence_outcome e = Inconclusive)) (evidence c).
Definition kind_of (o : SpeechOperationCapability) : SpeechOperationKind :=
  match o with Transcription _ => KindTranscription | Synthesis _ => KindSynthesis end.

Definition capability_validate (c : SpeechCapability) : result CapabilityValidationError unit :=
  reject_if (negb (valid_identifier (c_id c))) (IdentifierInvalid "capability.id" (c_id c)) ;;
  reject_if (negb (valid_identifier (c_backend_id c))) (IdentifierInvalid "capability.backend_id" (c_backend_id c)) ;;
  reject_if (existsb is_blank (languages c)) LanguageEmpty ;;
  reject_if (existsb (λ e, is_blank (source_id e)) (evidence c)) EvidenceSourceEmpty ;;
  reject_if (bool_decide (availability c = DeferredLoad) && negb (deferred_load_admissible c)) DeferredLoadInvalid.
Fixpoint capabilities_validate (owner : text) (l : list SpeechCapability) : result CapabilityValidationError unit :=
  match l with
  | [] => mret tt
  | c :: l =>
    capability_validate c ;;
    reject_if (negb (bool_decide (c_backend_id c = owner))) (BackendOwnerMismatch owner (c_backend_id c)) ;;
    capabilities_validate owner l
  end.
Definition backend_validate (b : SpeechBackendDescriptor) : result CapabilityValidationError unit :=
  reject_if (negb (valid_identifier (b_id b))) (IdentifierInvalid "backend.id" (b_id b)) ;;
  capabilities_validate (b_id b) (capabilities b).

(** [PlatformCapabilitySnapshot::local_only_capabilities] over its reports *)
Definition successful_backends (reports : list CapabilitySourceReport) : list SpeechBackendDescriptor :=
  List.filter (λ r, bool_decide (status r = Succeeded)) reports ≫= backends.
Definition local_only_capabilities (reports : list CapabilitySourceReport) : list SpeechCapability :=
  List.filter (λ b, is_ready (readiness b) && negb (bool_decide (b_kind b = Hosted))) (successful_backends reports)
  ≫= (λ b, List.filter eligible_for_local_only (capabilities b)).
