(* ===== verification/SpeechRouter.v ===== *)
(** * SpeechRouter: choosing a backend for a speech request

    Models [speech-native-router/src/lib.rs]: the plan of a transcription or a synthesis
    over the capabilities that the platform's sources reported. Each function is a
    definition of its name; the two planning methods share their loop, which is the same
    in both. The derived [Debug] of a readiness, which only goes into the detail of a
    rejection, is a parameter. *)

From S2P Require Import Prelude Bytes Text Utf8 Strings Sorting SpeechTypes.
Local Open Scope Z_scope.

(** ** Plans *)

Inductive RouteRejectionCode :=
| BackendNotReady | CapabilityUnavailable | OperationMismatch | PrivacyMismatch | NetworkNotProvenLocal | LanguageUnsupported
| InputFormatUnsupported | OutputFormatUnsupported | StreamingUnsupported | PartialResultsUnsupported | TimestampsUnsupported
| DiarizationUnsupported | TranslationUnsupported | HotwordsUnsupported | SsmlUnsupported | AlignmentUnsupported
| BackendSelectorMismatch | ModelSelectorMismatch | VoiceSelectorMismatch | NamedProfileUnresolved.
Record SpeechRouteRejection := {
  rejected_backend : text; rejected_capability : option text; code : RouteRejectionCode; detail : text }.
Record SpeechRouteSelection := {
  selected_route : SpeechResolvedRoute; capability_id : text; policy_rank_of : Z; reason : text }.
Record SpeechRoutePlan := { selected : SpeechRouteSelection; rejections : list SpeechRouteRejection }.
Inductive SpeechRouteError :=
| RequestInvalid (code detail : string)
| SnapshotInvalid (detail : text)
| NoEligibleRoute (op : SpeechOperationKind) (rejections : list SpeechRouteRejection).

(** ** The derived [Debug] of the enumerations *)

Definition code_name (c : RouteRejectionCode) : string :=
  match c with
  | BackendNotReady => "BackendNotReady" | CapabilityUnavailable => "CapabilityUnavailable" | OperationMismatch => "OperationMismatch"
  | PrivacyMismatch => "PrivacyMismatch" | NetworkNotProvenLocal => "NetworkNotProvenLocal" | LanguageUnsupported => "LanguageUnsupported"
  | InputFormatUnsupported => "InputFormatUnsupported" | OutputFormatUnsupported => "OutputFormatUnsupported"
  | StreamingUnsupported => "StreamingUnsupported" | PartialResultsUnsupported => "PartialResultsUnsupported"
  | TimestampsUnsupported => "TimestampsUnsupported" | DiarizationUnsupported => "DiarizationUnsupported"
  | TranslationUnsupported => "TranslationUnsupported" | HotwordsUnsupported => "HotwordsUnsupported" | SsmlUnsupported => "SsmlUnsupported"
  | AlignmentUnsupported => "AlignmentUnsupported" | BackendSelectorMismatch => "BackendSelectorMismatch"
  | ModelSelectorMismatch => "ModelSelectorMismatch" | VoiceSelectorMismatch => "VoiceSelectorMismatch"
  | NamedProfileUnresolved => "NamedProfileUnresolved"
  end.
Definition operation_name (o : SpeechOperationKind) : string := match o with KindTranscription => "Transcription" | KindSynthesis => "Synthesis" end.
Definition availability_name (a : CapabilityAvailability) : string :=
  match a with
  | Available => "Available" | DeferredLoad => "DeferredLoad" | AssetInstallRequired => "AssetInstallRequired"
  | PermissionRequired => "PermissionRequired" | Unavailable => "Unavailable" | Unknown => "Unknown"
  end.
Definition accepted_name (a : AcceptedAudio) : string :=
  match a with
  | AcceptPcm => "Pcm" | AcceptWav => "Wav" | AcceptFlac => "Flac" | AcceptMp3 => "Mp3" | AcceptM4a => "M4a" | AcceptOggOpus => "OggOpus"
  | AcceptWebmOpus => "WebmOpus"
  end.
Definition output_name (o : AudioOutputKind) : string := match o with KindPcm => "Pcm" | KindWav => "Wav" | KindMp3 => "Mp3" | KindOggOpus => "OggOpus" end.
Definition timestamp_name (t : TimestampGranularity) : string :=
  match t with TimestampNone => "None" | TimestampSegment => "Segment" | TimestampWord => "Word" end.
Definition alignment_name (a : AlignmentGranularity) : string :=
  match a with AlignmentNone => "None" | AlignmentWord => "Word" | AlignmentPhoneme => "Phoneme" end.
Definition profile_name (p : SpeechRouteProfile) : string :=
  match p with
  | PrivateBalanced => "PrivateBalanced" | NativePreferred => "NativePreferred" | ConsistentLocal => "ConsistentLocal"
  | QualityLocal => "QualityLocal" | HostedEnabled => "HostedEnabled"
  end.

(** ** Rejections *)

Definition rejection (b : SpeechBackendDescriptor) (c : option SpeechCapability) (k : RouteRejectionCode) (d : text) : SpeechRouteRejection :=
  {| rejected_backend := b_id b; rejected_capability := c_id <$> c; code := k; detail := d |}.
(** [if bad { return Err(rejection(..)) }] *)
Definition refuse (b : SpeechBackendDescriptor) (c : SpeechCapability) (bad : bool) (k : RouteRejectionCode) (d : text) :
    result SpeechRouteRejection unit :=
  reject_if bad (rejection b (Some c) k d).

(** ** The gates *)

Definition exact_deferred_load_selected (x : SpeechRequestContext) (b : SpeechBackendDescriptor) (c : SpeechCapability) : bool :=
  bool_decide (b_kind b = EmbeddedModel) && deferred_load_admissible c
  && match route x with
     | ExactBackend backend_id (Some model_id) _ => bool_decide (backend_id = b_id b) && bool_decide (c_model_id c = Some model_id)
     | _ => false
     end.

Definition evaluate_privacy (x : SpeechRequestContext) (b : SpeechBackendDescriptor) (c : SpeechCapability) : result SpeechRouteRejection unit :=
  match privacy (routing x) with
  | LocalOnly =>
    refuse b c (bool_decide (b_kind b = Hosted)) PrivacyMismatch (str "hosted backends are excluded from local-only routing") ;;
    refuse b c (negb (eligible_for_local_only c) && negb (exact_deferred_load_selected x b c)) NetworkNotProvenLocal
      (str "local-only routing requires confirmed runtime evidence and network=never")
  | HostedOnly =>
    refuse b c (negb (bool_decide (b_kind b = Hosted))) PrivacyMismatch (str "local backend is excluded from hosted-only routing")
  | HostedAllowed => mret tt
  end.
Definition evaluate_selector (x : SpeechRequestContext) (b : SpeechBackendDescriptor) (c : SpeechCapability) : result SpeechRouteRejection unit :=
  match route x with
  | ExactBackend backend_id model_id _ =>
    refuse b c (negb (bool_decide (backend_id = b_id b))) BackendSelectorMismatch (str "request selected backend " ++ backend_id) ;;
    match model_id with
    | Some m => refuse b c (negb (bool_decide (c_model_id c = Some m))) ModelSelectorMismatch (str "request selected model " ++ m)
    | None => mret tt
    end
  | Profile name =>
    refuse b c true NamedProfileUnresolved (str "named route profile " ++ name ++ str " must be resolved before planning")
  | Auto => mret tt
  end.
Definition evaluate_common (x : SpeechRequestContext) (b : SpeechBackendDescriptor) (c : SpeechCapability) : result SpeechRouteRejection unit :=
  refuse b c (negb (is_ready (readiness b))) BackendNotReady (str "backend is not ready") ;;
  refuse b c (negb (bool_decide (availability c = Available)) && negb (exact_deferred_load_selected x b c)) CapabilityUnavailable
    (str "capability is " ++ str (availability_name (availability c))) ;;
  evaluate_privacy x b c ;;
  evaluate_selector x b c.

Definition language_base (l : text) : text := match split_once 45 l with Some (base, _) => base | None => l end.
Definition language_supported (language : option text) (c : SpeechCapability) (b : SpeechBackendDescriptor) : result SpeechRouteRejection unit :=
  match language with
  | Some l =>
    refuse b c (negb (bool_decide (languages c = []))
                && negb (existsb (λ x, eq_ignore_ascii_case x l || eq_ignore_ascii_case (language_base x) (language_base l)) (languages c)))
      LanguageUnsupported (str "language " ++ l ++ str " is not supported")
  | None => mret tt
  end.

Definition encoded_kind (f : EncodedAudioFormat) : AcceptedAudio :=
  match f with
  | EncodedWav => AcceptWav | EncodedFlac => AcceptFlac | EncodedMp3 => AcceptMp3 | EncodedM4a => AcceptM4a
  | EncodedOggOpus => AcceptOggOpus | EncodedWebmOpus => AcceptWebmOpus
  end.
Definition transcription_audio_kind (i : TranscriptionInput) : option AcceptedAudio :=
  match i with
  | Complete (InputPcm _ _) => Some AcceptPcm
  | Complete (InputEncoded f _) => Some (encoded_kind f)
  | Complete (InputAsset _ hint) => encoded_kind <$> hint
  | LiveStream _ _ => Some AcceptPcm
  end.
Definition synthesis_output_kind (o : AudioOutputFormat) : AudioOutputKind :=
  match o with OutputWav => KindWav | OutputPcm _ => KindPcm | OutputMp3 _ => KindMp3 | OutputOggOpus _ => KindOggOpus end.

Definition evaluate_transcription (r : TranscriptionRequest) (b : SpeechBackendDescriptor) (c : SpeechCapability) : result SpeechRouteRejection unit :=
  match operation c with
  | Synthesis _ => refuse b c true OperationMismatch (str "capability is not transcription")
  | Transcription f =>
    language_supported (t_language r) c b ;;
    match transcription_audio_kind (t_input r) with
    | Some k => refuse b c (negb (bool_decide (k ∈ accepted_audio f))) InputFormatUnsupported
        (str "input format " ++ str (accepted_name k) ++ str " is not supported")
    | None => mret tt
    end ;;
    refuse b c ((match t_input r with LiveStream _ _ => true | _ => false end) && negb (streaming f)) StreamingUnsupported
      (str "live audio streaming is not supported") ;;
    refuse b c (partial_results r && negb (can_partial_results f)) PartialResultsUnsupported
      (str "partial transcription results are not supported") ;;
    refuse b c (match timestamps r with
                | TimestampSegment => negb (segment_timestamps f) | TimestampWord => negb (word_timestamps f) | TimestampNone => false end)
      TimestampsUnsupported (str (timestamp_name (timestamps r)) ++ str " timestamps are not supported") ;;
    refuse b c ((match diarization r with DiarizationDisabled => false | _ => true end) && negb (can_diarization f)) DiarizationUnsupported
      (str "speaker diarization is not supported") ;;
    refuse b c ((match task r with TranslateToEnglish => true | Transcribe => false end) && negb (translation_to_english f))
      TranslationUnsupported (str "translation to English is not supported") ;;
    refuse b c (negb (bool_decide (hotwords r = [])) && negb (can_hotwords f)) HotwordsUnsupported (str "hotwords are not supported")
  end.

(** ** Voices *)

Definition voice_quality_rank (q : option VoiceQuality) : Z :=
  match q with Some Premium => 4 | Some Enhanced => 3 | Some Normal => 2 | Some Basic => 1 | None => 0 end.
(** [zip(..).is_some_and(..)]: both tags have a region, and one base. *)
Definition same_base (voice_language language : text) : bool :=
  match split_once 45 voice_language, split_once 45 language with
  | Some (voice_base, _), Some (request_base, _) => eq_ignore_ascii_case voice_base request_base
  | _, _ => false
  end.
Definition voice_language_rank (v : VoiceDescriptor) (language : option text) : Z :=
  match language with
  | None => 0
  | Some l => if eq_ignore_ascii_case (v_language v) l then 0 else if same_base (v_language v) l then 1 else 2
  end.
Definition voice_cmp (language : option text) : VoiceDescriptor → VoiceDescriptor → comparison :=
  lex (λ l r, voice_language_rank l language ?= voice_language_rank r language)
    (lex (λ l r, voice_quality_rank (quality r) ?= voice_quality_rank (quality l)) (λ l r, str_cmp (v_id l) (v_id r))).
Definition speaks (language : text) (v : VoiceDescriptor) : bool :=
  installed v && (eq_ignore_ascii_case (v_language v) language || same_base (v_language v) language).

Definition route_voice (x : SpeechRequestContext) : option text := match route x with ExactBackend _ _ v => v | _ => None end.
Definition installed_voice (b : SpeechBackendDescriptor) (id : text) : option VoiceDescriptor :=
  List.find (λ v, bool_decide (v_id v = id) && installed v) (voices b).
Definition select_voice (r : SynthesisRequest) (b : SpeechBackendDescriptor) (c : SpeechCapability) (supported : bool) :
    result SpeechRouteRejection (option VoiceDescriptor) :=
  request_voice ← match voice r with
    | VoiceAuto => mret None
    | VoiceExact v => mret (Some v)
    | VoiceProfile name => Err (rejection b (Some c) NamedProfileUnresolved
        (str "named voice profile " ++ name ++ str " must be resolved before planning"))
    end ;
  let route_voice := route_voice (s_context r) in
  refuse b c (match route_voice, request_voice with Some x, Some y => negb (bool_decide (x = y)) | _, _ => false end) VoiceSelectorMismatch
    (str "route and request select different voices") ;;
  match (match route_voice with Some v => Some v | None => request_voice end) with
  | Some exact =>
    refuse b c (negb supported) VoiceSelectorMismatch (str "explicit voice selection is not supported") ;;
    match installed_voice b exact with
    | Some v => mret (Some v)
    | None => Err (rejection b (Some c) VoiceSelectorMismatch (str "voice " ++ exact ++ str " is not installed on this backend"))
    end
  | None =>
    match s_language r with
    | None => mret None
    | Some l => mret (head (sort_by (voice_cmp (Some l)) id (List.filter (speaks l) (voices b))))
    end
  end.

Definition evaluate_synthesis (r : SynthesisRequest) (b : SpeechBackendDescriptor) (c : SpeechCapability) :
    result SpeechRouteRejection (option VoiceDescriptor) :=
  match operation c with
  | Transcription _ => Err (rejection b (Some c) OperationMismatch (str "capability is not synthesis"))
  | Synthesis f =>
    language_supported (s_language r) c b ;;
    refuse b c ((match s_input r with SynthesisSsml _ => true | _ => false end) && negb (ssml f)) SsmlUnsupported (str "SSML is not supported") ;;
    refuse b c (stream r && negb (streaming_audio f)) StreamingUnsupported (str "streaming audio is not supported") ;;
    let k := synthesis_output_kind (output r) in
    refuse b c (negb (bool_decide (k ∈ returned_audio f))) OutputFormatUnsupported
      (str "output format " ++ str (output_name k) ++ str " is not supported") ;;
    refuse b c (match alignment r with
                | AlignmentWord => negb (word_alignment f) | AlignmentPhoneme => negb (phoneme_alignment f) | AlignmentNone => false end)
      AlignmentUnsupported (str (alignment_name (alignment r)) ++ str " alignment is not supported") ;;
    select_voice r b c (voice_selection f)
  end.

(** ** Ranking *)

Definition policy_rank (p : SpeechRouteProfile) (k : SpeechBackendKind) : Z :=
  match p with
  | PrivateBalanced | QualityLocal =>
    match k with PlatformOnDevice => 0 | EmbeddedModel => 1 | ResidentMultimodalModel => 2 | PlatformService => 3 | Hosted => 4 end
  | NativePreferred =>
    match k with PlatformOnDevice => 0 | PlatformService => 1 | EmbeddedModel => 2 | ResidentMultimodalModel => 3 | Hosted => 4 end
  | ConsistentLocal =>
    match k with EmbeddedModel => 0 | ResidentMultimodalModel => 1 | PlatformOnDevice => 2 | PlatformService => 3 | Hosted => 4 end
  | HostedEnabled =>
    match k with Hosted => 0 | PlatformOnDevice => 1 | EmbeddedModel => 2 | ResidentMultimodalModel => 3 | PlatformService => 4 end
  end.
(** [4 - voice_quality_rank(..)] cannot underflow: the ranks end at 4. *)
Definition selection (x : SpeechRequestContext) (b : SpeechBackendDescriptor) (c : SpeechCapability) (v : option VoiceDescriptor) :
    SpeechRouteSelection := {|
  selected_route := {| r_backend_id := b_id b; r_model_id := c_model_id c; r_voice_id := v_id <$> v; backend_kind := b_kind b;
                       r_network := network c |};
  capability_id := c_id c;
  policy_rank_of := saturating_add u16_max (saturating_mul u16_max (policy_rank (profile (routing x)) (b_kind b)) 10)
                      (match v with Some v => 4 - voice_quality_rank (quality v) | None => 0 end);
  reason := str "selected by " ++ str (profile_name (profile (routing x))) ++ str " after privacy, readiness, and feature gates" |}.

Definition option_cmp {A} (cmp : A → A → comparison) (a b : option A) : comparison :=
  match a, b with None, None => Eq | None, Some _ => Lt | Some _, None => Gt | Some a, Some b => cmp a b end.
Definition selection_key (s : SpeechRouteSelection) : Z * (text * text) := (policy_rank_of s, (r_backend_id (selected_route s), capability_id s)).
Definition selection_cmp : Z * (text * text) → Z * (text * text) → comparison :=
  lex (λ a b, a.1 ?= b.1) (lex (λ a b, str_cmp a.2.1 b.2.1) (λ a b, str_cmp a.2.2 b.2.2)).
Definition rejection_key (r : SpeechRouteRejection) : text * (option text * text) :=
  (rejected_backend r, (rejected_capability r, str (code_name (code r)))).
Definition rejection_cmp : text * (option text * text) → text * (option text * text) → comparison :=
  lex (λ a b, str_cmp a.1 b.1) (lex (λ a b, option_cmp str_cmp a.2.1 b.2.1) (λ a b, str_cmp a.2.2 b.2.2)).

Definition finalize (op : SpeechOperationKind) (candidates : list SpeechRouteSelection) (rejections : list SpeechRouteRejection) :
    result SpeechRouteError SpeechRoutePlan :=
  let candidates := sort_by selection_cmp selection_key candidates in
  let rejections := sort_by rejection_cmp rejection_key rejections in
  match candidates with
  | selected :: _ => Ok {| selected := selected; rejections := rejections |}
  | [] => Err (NoEligibleRoute op rejections)
  end.

(** ** The snapshot *)

Definition duplicate_capability (id : text) : SpeechRouteError := SnapshotInvalid (str "capability " ++ id ++ str " is reported more than once").
Fixpoint insert_capabilities (seen : list text) (l : list SpeechCapability) : result SpeechRouteError (list text) :=
  match l with
  | [] => mret seen
  | c :: l => reject_if (bool_decide (c_id c ∈ seen)) (duplicate_capability (c_id c)) ;; insert_capabilities (c_id c :: seen) l
  end.
Fixpoint validate_backends (backend_ids capability_ids : list text) (l : list SpeechBackendDescriptor) : result SpeechRouteError unit :=
  match l with
  | [] => mret tt
  | b :: l =>
    match backend_validate b with Ok _ => mret tt | Err e => Err (SnapshotInvalid (capability_error_text e)) end ;;
    reject_if (bool_decide (b_id b ∈ backend_ids)) (SnapshotInvalid (str "backend " ++ b_id b ++ str " is reported by more than one source")) ;;
    capability_ids ← insert_capabilities capability_ids (capabilities b) ;
    validate_backends (b_id b :: backend_ids) capability_ids l
  end.
Definition validate_snapshot (reports : list CapabilitySourceReport) : result SpeechRouteError unit :=
  validate_backends [] [] (successful_backends reports).

(** ** The two methods *)

Section Plan.
Context (debug_readiness : SpeechBackendReadiness → text).

Definition evaluate_backend_basics (x : SpeechRequestContext) (b : SpeechBackendDescriptor) (op : SpeechOperationKind) : list SpeechRouteRejection :=
  (if is_ready (readiness b) then [] else [rejection b None BackendNotReady (str "backend is " ++ debug_readiness (readiness b))])
  ++ (if forallb (λ c, negb (bool_decide (kind_of (operation c) = op))) (capabilities b)
      then [rejection b None OperationMismatch (str "backend does not advertise " ++ str (operation_name op))] else [])
  ++ match route x with
     | ExactBackend backend_id _ _ =>
       if bool_decide (backend_id = b_id b) then []
       else [rejection b None BackendSelectorMismatch (str "request selected backend " ++ backend_id)]
     | _ => []
     end.

Definition transcription_candidate (r : TranscriptionRequest) (b : SpeechBackendDescriptor) (c : SpeechCapability) :
    result SpeechRouteRejection SpeechRouteSelection :=
  evaluate_transcription r b c ;;
  evaluate_common (t_context r) b c ;;
  mret (selection (t_context r) b c None).
Definition synthesis_candidate (r : SynthesisRequest) (b : SpeechBackendDescriptor) (c : SpeechCapability) :
    result SpeechRouteRejection SpeechRouteSelection :=
  v ← evaluate_synthesis r b c ;
  evaluate_common (s_context r) b c ;;
  mret (selection (s_context r) b c v).

(** The loop over the backends, with the candidates and the rejections so far *)
Section Loop.
Context (x : SpeechRequestContext) (op : SpeechOperationKind)
  (candidate : SpeechBackendDescriptor → SpeechCapability → result SpeechRouteRejection SpeechRouteSelection).
Notation found := (list SpeechRouteSelection * list SpeechRouteRejection)%type.

Fixpoint capability_loop (b : SpeechBackendDescriptor) (l : list SpeechCapability) (acc : found) : found :=
  match l with
  | [] => acc
  | c :: l =>
    capability_loop b l (match candidate b c with Ok s => (acc.1 ++ [s], acc.2) | Err r => (acc.1, acc.2 ++ [r]) end)
  end.
Fixpoint backend_loop (l : list SpeechBackendDescriptor) (acc : found) : found :=
  match l with
  | [] => acc
  | b :: l => backend_loop l (capability_loop b (capabilities b) (acc.1, acc.2 ++ evaluate_backend_basics x b op))
  end.
Definition plan_over (valid : result SpeechError unit) (reports : list CapabilitySourceReport) : result SpeechRouteError SpeechRoutePlan :=
  match valid with Ok _ => mret tt | Err e => Err (RequestInvalid (error_code e) (safe_detail e)) end ;;
  validate_snapshot reports ;;
  let found := backend_loop (successful_backends reports) ([], []) in
  finalize op found.1 found.2.
End Loop.

Definition plan_transcription (r : TranscriptionRequest) : list CapabilitySourceReport → result SpeechRouteError SpeechRoutePlan :=
  plan_over (t_context r) KindTranscription (transcription_candidate r) (transcription_validate r).
Definition plan_synthesis (r : SynthesisRequest) : list CapabilitySourceReport → result SpeechRouteError SpeechRoutePlan :=
  plan_over (s_context r) KindSynthesis (synthesis_candidate r) (synthesis_validate r).
End Plan.
