(* ===== verification/SpeechRouting.v ===== *)
(** * SpeechRouting: what the plans of the speech router promise

    Which capabilities a request may be served by, stated without the order of the checks,
    and the theorems about SpeechRouter.v: the plan picks the best of them, keeps to the
    privacy policy, accounts for every capability that it passes over and does not depend
    on the order in which the sources reported. *)

From S2P Require Import Prelude Bytes Text Utf8 Strings Sorting SpeechTypes SpeechRouter.
Local Open Scope Z_scope.

(** ** Requests of either kind *)

Inductive SpeechRequest := ToTranscribe (r : TranscriptionRequest) | ToSpeak (r : SynthesisRequest).
Definition context_of (q : SpeechRequest) : SpeechRequestContext := match q with ToTranscribe r => t_context r | ToSpeak r => s_context r end.
Definition asked_kind (q : SpeechRequest) : SpeechOperationKind := match q with ToTranscribe _ => KindTranscription | ToSpeak _ => KindSynthesis end.
Definition request_validate (q : SpeechRequest) : result SpeechError unit :=
  match q with ToTranscribe r => transcription_validate r | ToSpeak r => synthesis_validate r end.
Definition candidate_for (q : SpeechRequest) : SpeechBackendDescriptor → SpeechCapability → result SpeechRouteRejection SpeechRouteSelection :=
  match q with ToTranscribe r => transcription_candidate r | ToSpeak r => synthesis_candidate r end.
Definition plan (debug : SpeechBackendReadiness → text) (q : SpeechRequest) (reports : list CapabilitySourceReport) :
    result SpeechRouteError SpeechRoutePlan :=
  match q with ToTranscribe r => plan_transcription debug r reports | ToSpeak r => plan_synthesis debug r reports end.

(** ** Which capabilities may serve a request *)

(** A model that is loaded when it is asked for by name *)
Definition deferred_pick (x : SpeechRequestContext) (b : SpeechBackendDescriptor) (c : SpeechCapability) : Prop :=
  b_kind b = EmbeddedModel ∧ deferred_load_admissible c = true ∧
  ∃ model v, route x = ExactBackend (b_id b) (Some model) v ∧ c_model_id c = Some model.

Definition keeps_privacy (x : SpeechRequestContext) (b : SpeechBackendDescriptor) (c : SpeechCapability) : Prop :=
  match privacy (routing x) with
  | LocalOnly =>
    b_kind b ≠ Hosted ∧ network c = Never ∧ ((∃ e, e ∈ evidence c ∧ proves_runtime e = true) ∨ deferred_pick x b c)
  | HostedOnly => b_kind b = Hosted
  | HostedAllowed => True
  end.
Definition is_selected (x : SpeechRequestContext) (b : SpeechBackendDescriptor) (c : SpeechCapability) : Prop :=
  match route x with
  | Auto => True
  | ExactBackend i m _ => i = b_id b ∧ ∀ n, m = Some n → c_model_id c = Some n
  | Profile _ => False
  end.
Definition admitted (x : SpeechRequestContext) (b : SpeechBackendDescriptor) (c : SpeechCapability) : Prop :=
  readiness b = Ready ∧ (availability c = Available ∨ deferred_pick x b c) ∧ keeps_privacy x b c ∧ is_selected x b c.

Definition understands (language : option text) (c : SpeechCapability) : Prop :=
  ∀ l, language = Some l → languages c = [] ∨
    ∃ k, k ∈ languages c ∧ (eq_ignore_ascii_case k l = true ∨ eq_ignore_ascii_case (language_base k) (language_base l) = true).
Definition can_transcribe (r : TranscriptionRequest) (f : TranscriptionCapabilities) : Prop :=
  (∀ k, transcription_audio_kind (t_input r) = Some k → k ∈ accepted_audio f) ∧
  (∀ i p, t_input r = LiveStream i p → streaming f = true) ∧
  (partial_results r = true → can_partial_results f = true) ∧
  (timestamps r = TimestampSegment → segment_timestamps f = true) ∧ (timestamps r = TimestampWord → word_timestamps f = true) ∧
  (diarization r ≠ DiarizationDisabled → can_diarization f = true) ∧
  (task r = TranslateToEnglish → translation_to_english f = true) ∧
  (hotwords r ≠ [] → can_hotwords f = true).
Definition can_speak (r : SynthesisRequest) (f : SynthesisCapabilities) : Prop :=
  (∀ t, s_input r = SynthesisSsml t → ssml f = true) ∧ (stream r = true → streaming_audio f = true) ∧
  synthesis_output_kind (output r) ∈ returned_audio f ∧
  (alignment r = AlignmentWord → word_alignment f = true) ∧ (alignment r = AlignmentPhoneme → phoneme_alignment f = true).

(** The voice that a request gets *)
Definition wanted_voice (r : SynthesisRequest) : option text :=
  match route_voice (s_context r), voice r with Some v, _ => Some v | None, VoiceExact v => Some v | None, _ => None end.
Definition voice_fits (r : SynthesisRequest) (b : SpeechBackendDescriptor) (f : SynthesisCapabilities) (v : option VoiceDescriptor) : Prop :=
  match wanted_voice r, s_language r with
  | Some i, _ => voice_selection f = true ∧ ∃ w, v = Some w ∧ w ∈ voices b ∧ v_id w = i ∧ installed w = true
  | None, None => v = None
  | None, Some l =>
    match v with
    | None => ∀ w, w ∈ voices b → speaks l w = false
    | Some w => w ∈ voices b ∧ speaks l w = true ∧ ∀ w', w' ∈ voices b → speaks l w' = true → voice_cmp (Some l) w w' ≠ Gt
    end
  end.

(** A backend's capability, with the voice it would use, meets all that the request asks for. *)
Definition offered (q : SpeechRequest) (b : SpeechBackendDescriptor) (c : SpeechCapability) (v : option VoiceDescriptor) : Prop :=
  admitted (context_of q) b c ∧
  match q with
  | ToTranscribe r => v = None ∧ understands (t_language r) c ∧ ∃ f, operation c = Transcription f ∧ can_transcribe r f
  | ToSpeak r => understands (s_language r) c ∧
      ∃ f, operation c = Synthesis f ∧ can_speak r f ∧ select_voice r b c (voice_selection f) = Ok v
  end.

(** The capabilities of a snapshot *)
Definition reported (reports : list CapabilitySourceReport) (b : SpeechBackendDescriptor) (c : SpeechCapability) : Prop :=
  b ∈ successful_backends reports ∧ c ∈ capabilities b.
Definition sound_snapshot (l : list SpeechBackendDescriptor) : Prop :=
  (∀ b, b ∈ l → backend_validate b = Ok tt) ∧ NoDup (b_id <$> l) ∧ NoDup (l ≫= λ b, c_id <$> capabilities b).

(** ** The gates *)

Section Gates.
Context (x : SpeechRequestContext) (b : SpeechBackendDescriptor) (c : SpeechCapability).

Lemma seq_Ok {E A} (r : result E unit) (s : result E A) a : (r ;; s) = Ok a ↔ r = Ok tt ∧ s = Ok a.
Proof. destruct r as [[]|]; naive_solver. Qed.
Lemma reject_Ok {E} bad (e : E) : reject_if bad e = Ok tt ↔ bad = false.
Proof. destruct bad; naive_solver. Qed.
Lemma refuse_Ok bad k d : refuse b c bad k d = Ok tt ↔ bad = false.
Proof. apply reject_Ok. Qed.

Lemma deferred_selected : exact_deferred_load_selected x b c = true ↔ deferred_pick x b c.
Proof.
  unfold exact_deferred_load_selected, deferred_pick. split.
  - intros H. destruct (route x) as [|i [m|] v|]; bool_prop; try done. subst i. split_and!; [done..|by exists m, v].
  - intros (Hk & Hd & m & v & -> & Hm). by rewrite !bool_decide_eq_true_2, Hd.
Qed.
Lemma deferred_never : deferred_pick x b c → availability c = DeferredLoad ∧ network c = Never ∧ b_kind b ≠ Hosted.
Proof. intros (Hk & Hd & _). unfold deferred_load_admissible in Hd. bool_prop. split_and!; [done..|by rewrite Hk]. Qed.

Lemma privacy_Ok : availability c = Available ∨ deferred_pick x b c → evaluate_privacy x b c = Ok tt ↔ keeps_privacy x b c.
Proof.
  intros Ha. unfold evaluate_privacy, keeps_privacy. destruct (privacy (routing x)).
  - rewrite seq_Ok, !refuse_Ok, bool_decide_eq_false, andb_false_iff, !negb_false_iff, deferred_selected. unfold eligible_for_local_only.
    rewrite !andb_true_iff, !bool_decide_eq_true, existsb_exists. setoid_rewrite <- list_elem_of_In.
    pose proof deferred_never. naive_solver.
  - naive_solver.
  - rewrite refuse_Ok, negb_false_iff, bool_decide_eq_true. done.
Qed.
Lemma selector_Ok : evaluate_selector x b c = Ok tt ↔ is_selected x b c.
Proof.
  unfold evaluate_selector, is_selected. destruct (route x) as [|i m v|name]; [done| |by rewrite refuse_Ok].
  rewrite seq_Ok, refuse_Ok, negb_false_iff, bool_decide_eq_true. destruct m as [m|]; [|naive_solver].
  rewrite refuse_Ok, negb_false_iff, bool_decide_eq_true. naive_solver.
Qed.
Lemma common_Ok : evaluate_common x b c = Ok tt ↔ admitted x b c.
Proof.
  unfold evaluate_common, admitted. rewrite !seq_Ok, !refuse_Ok, selector_Ok, negb_false_iff, andb_false_iff, !negb_false_iff,
    bool_decide_eq_true, deferred_selected.
  assert (is_ready (readiness b) = true ↔ readiness b = Ready) as -> by (destruct (readiness b); naive_solver).
  pose proof privacy_Ok. naive_solver.
Qed.
Lemma language_Ok l : language_supported l c b = Ok tt ↔ understands l c.
Proof.
  unfold language_supported, understands. destruct l as [l|]; [|naive_solver].
  rewrite refuse_Ok, andb_false_iff, !negb_false_iff, bool_decide_eq_true, existsb_exists. setoid_rewrite <- list_elem_of_In.
  setoid_rewrite orb_true_iff. naive_solver.
Qed.
(** A gate lets through what needs nothing or gets what it needs. *)
Lemma gate_Ok need have k d : refuse b c (need && negb have) k d = Ok tt ↔ (need = true → have = true).
Proof. rewrite refuse_Ok. destruct need, have; naive_solver. Qed.
Lemma accepts_Ok r f : match transcription_audio_kind (t_input r) with
    | Some k => refuse b c (negb (bool_decide (k ∈ accepted_audio f))) InputFormatUnsupported
        (str "input format " ++ str (accepted_name k) ++ str " is not supported")
    | None => mret tt end = Ok tt ↔ ∀ k, transcription_audio_kind (t_input r) = Some k → k ∈ accepted_audio f.
Proof. destruct (transcription_audio_kind _); [|naive_solver]. rewrite refuse_Ok, negb_false_iff, bool_decide_eq_true. naive_solver. Qed.
Lemma timestamps_Ok r f k d : refuse b c (match timestamps r with
    | TimestampSegment => negb (segment_timestamps f) | TimestampWord => negb (word_timestamps f) | TimestampNone => false end) k d = Ok tt ↔
  (timestamps r = TimestampSegment → segment_timestamps f = true) ∧ (timestamps r = TimestampWord → word_timestamps f = true).
Proof. rewrite refuse_Ok. destruct (timestamps r), (segment_timestamps f), (word_timestamps f); naive_solver. Qed.
Lemma transcription_Ok r :
  evaluate_transcription r b c = Ok tt ↔ understands (t_language r) c ∧ ∃ f, operation c = Transcription f ∧ can_transcribe r f.
Proof.
  unfold evaluate_transcription. destruct (operation c) as [f|f]; [|rewrite refuse_Ok; naive_solver].
  assert ((∃ g, Transcription f = Transcription g ∧ can_transcribe r g) ↔ can_transcribe r f) as -> by naive_solver.
  rewrite !seq_Ok, language_Ok, accepts_Ok, timestamps_Ok, !gate_Ok. unfold can_transcribe.
  assert ((match t_input r with LiveStream _ _ => true | _ => false end = true → streaming f = true) ↔
    ∀ i p, t_input r = LiveStream i p → streaming f = true) as -> by (destruct (t_input r); naive_solver).
  assert ((match diarization r with DiarizationDisabled => false | _ => true end = true → can_diarization f = true) ↔
    (diarization r ≠ DiarizationDisabled → can_diarization f = true)) as -> by (destruct (diarization r); naive_solver).
  assert ((match task r with TranslateToEnglish => true | Transcribe => false end = true → translation_to_english f = true) ↔
    (task r = TranslateToEnglish → translation_to_english f = true)) as -> by (destruct (task r); naive_solver).
  rewrite negb_true_iff, bool_decide_eq_false. tauto.
Qed.
Lemma alignment_Ok r f k d : refuse b c (match alignment r with
    | AlignmentWord => negb (word_alignment f) | AlignmentPhoneme => negb (phoneme_alignment f) | AlignmentNone => false end) k d = Ok tt ↔
  (alignment r = AlignmentWord → word_alignment f = true) ∧ (alignment r = AlignmentPhoneme → phoneme_alignment f = true).
Proof. rewrite refuse_Ok. destruct (alignment r), (word_alignment f), (phoneme_alignment f); naive_solver. Qed.
Lemma synthesis_Ok r v : evaluate_synthesis r b c = Ok v ↔
  understands (s_language r) c ∧ ∃ f, operation c = Synthesis f ∧ can_speak r f ∧ select_voice r b c (voice_selection f) = Ok v.
Proof.
  unfold evaluate_synthesis. destruct (operation c) as [f|f]; [naive_solver|].
  assert ((∃ g, Synthesis f = Synthesis g ∧ can_speak r g ∧ select_voice r b c (voice_selection g) = Ok v) ↔
    can_speak r f ∧ select_voice r b c (voice_selection f) = Ok v) as -> by naive_solver.
  rewrite !seq_Ok, language_Ok, alignment_Ok, !gate_Ok, refuse_Ok, negb_false_iff, bool_decide_eq_true. unfold can_speak.
  assert ((match s_input r with SynthesisSsml _ => true | _ => false end = true → ssml f = true) ↔
    ∀ t, s_input r = SynthesisSsml t → ssml f = true) as -> by (destruct (s_input r); naive_solver).
  tauto.
Qed.
End Gates.

Lemma candidate_Ok q b c s : candidate_for q b c = Ok s ↔ ∃ v, offered q b c v ∧ s = selection (context_of q) b c v.
Proof.
  destruct q as [r|r]; simpl.
  - unfold transcription_candidate. rewrite !seq_Ok, transcription_Ok, common_Ok. unfold offered. simpl. split.
    + intros ([Hl Hf] & Ha & [= <-]). by exists None.
    + by intros (v & (Ha & -> & Hl & Hf) & ->).
  - unfold synthesis_candidate. pose proof (synthesis_Ok b c r) as Hv. unfold offered. simpl. split.
    + destruct (evaluate_synthesis r b c) as [v|]; [|done]. simpl. rewrite seq_Ok, common_Ok. intros [Ha [= <-]]. exists v. by rewrite <- Hv.
    + intros (v & [Ha Hs] & ->). apply Hv in Hs as ->. simpl. rewrite (proj2 (common_Ok _ b c) Ha). done.
Qed.

(** A descending order *)
Lemma reverse_ordering {A} (cmp : A → A → comparison) : Ordering cmp → Ordering (λ x y, cmp y x).
Proof. intros [Hr Ha Ht]. split; [done|done|]. intros x y z Hxy Hyz. by apply (Ht z y x). Qed.
#[export] Instance voice_ordering l : Ordering (voice_cmp l).
Proof.
  apply lex_ordering; [apply (on_ordering (λ v, voice_language_rank v l)), _|]. apply lex_ordering.
  - apply (reverse_ordering (λ x y, voice_quality_rank (quality x) ?= voice_quality_rank (quality y))).
    apply (on_ordering (λ v, voice_quality_rank (quality v))), _.
  - apply (on_ordering v_id), _.
Qed.

(** The head of a sorted list is in it, and nothing in it comes before. *)
Lemma sorted_head {A K} (cmp : K → K → comparison) `{!Ordering cmp} (key : A → K) l x :
  head (sort_by cmp key l) = Some x → x ∈ l ∧ ∀ y, y ∈ l → cmp (key x) (key y) ≠ Gt.
Proof.
  intros Hx. pose proof (sort_by_sorted cmp key l) as Hs. destruct (sort_by cmp key l) as [|z k] eqn:Hk; [done|]. injection Hx as ->.
  assert (x :: k ≡ₚ l) as Hp by (by rewrite <- Hk, sort_by_perm). split; [rewrite <- Hp; by left|].
  intros y. rewrite <- Hp. intros [->|Hy]%elem_of_cons; [by rewrite cmp_refl|]. apply StronglySorted_inv in Hs as [_ Hs].
  rewrite Forall_forall in Hs. by apply Hs.
Qed.
Lemma sorted_empty {A K} (cmp : K → K → comparison) (key : A → K) l : head (sort_by cmp key l) = None → l = [].
Proof. pose proof (sort_by_perm cmp key l) as Hp. destruct (sort_by cmp key l); [|done]. intros _. by apply Permutation_nil_l in Hp. Qed.

Lemma voice_Ok r b c f v : select_voice r b c (voice_selection f) = Ok v → voice_fits r b f v.
Proof.
  unfold select_voice, voice_fits, wanted_voice. intros Hs.
  assert (∀ i, (refuse b c (negb (voice_selection f)) VoiceSelectorMismatch (str "explicit voice selection is not supported") ;;
    match installed_voice b i with Some v => mret (Some v)
    | None => Err (rejection b (Some c) VoiceSelectorMismatch (str "voice " ++ i ++ str " is not installed on this backend")) end) = Ok v →
    voice_selection f = true ∧ ∃ w, v = Some w ∧ w ∈ voices b ∧ v_id w = i ∧ installed w = true) as Hexact.
  { intros i [Hf Hi]%seq_Ok. apply refuse_Ok in Hf. bool_prop. split; [done|]. unfold installed_voice in Hi.
    destruct (List.find _ _) as [w|] eqn:Hw; [|done]. injection Hi as <-. apply find_some in Hw as [Hin Hw]. bool_prop. exists w.
    split_and!; [done|by apply list_elem_of_In|done..]. }
  destruct (voice r) as [|i|name]; simpl in Hs; [| |done]; apply seq_Ok in Hs as [Hr Hs]; destruct (route_voice _) as [j|];
    try (by apply Hexact); destruct (s_language r) as [l|]; try (by injection Hs as <-).
  injection Hs as <-. destruct (head _) as [w|] eqn:Hh.
  - apply sorted_head in Hh as [Hw Hbest]; [|apply _]. apply list_elem_of_In, filter_In in Hw as [Hw Hl]. split_and!; [by apply list_elem_of_In|done|].
    intros w' Hw' Hl'. apply Hbest. by apply list_elem_of_In, filter_In; split; [apply list_elem_of_In|].
  - apply sorted_empty in Hh. intros w Hw. apply not_true_iff_false. intros Hl. assert (w ∈ List.filter (speaks l) (voices b)) as Hin; [|by rewrite Hh in Hin; apply elem_of_nil in Hin].
    by apply list_elem_of_In, filter_In; split; [apply list_elem_of_In|].
Qed.

(** ** The rejections *)

(** A rejection of a capability names it. *)
Definition names {A} (b : SpeechBackendDescriptor) (c : SpeechCapability) (m : result SpeechRouteRejection A) : Prop :=
  match m with Ok _ => True | Err r => rejected_backend r = b_id b ∧ rejected_capability r = Some (c_id c) end.
Section Names.
Context (b : SpeechBackendDescriptor) (c : SpeechCapability).
Lemma names_bind {A B} (m : result _ A) (f : A → result _ B) : names b c m → (∀ a, names b c (f a)) → names b c (m ≫= f).
Proof. destruct m; simpl; auto. Qed.
Lemma names_ret {A} (a : A) : names b c (mret a).
Proof. done. Qed.
Lemma names_err {A} k d : names (A:=A) b c (Err (rejection b (Some c) k d)).
Proof. done. Qed.
Lemma names_refuse bad k d : names b c (refuse b c bad k d).
Proof. by destruct bad. Qed.
End Names.
Ltac names_step :=
  match goal with
  | |- names _ _ (refuse _ _ _ _ _) => apply names_refuse
  | |- names _ _ (_ ≫= _) => apply names_bind; [|intros ?]
  | |- names _ _ (mret _) => apply names_ret
  | |- names _ _ (Err (rejection _ _ _ _)) => apply names_err
  | |- names _ _ (match ?x with _ => _ end) => destruct x
  end.
Lemma candidate_names q b c : names b c (candidate_for q b c).
Proof.
  destruct q; simpl; unfold transcription_candidate, synthesis_candidate, evaluate_transcription, evaluate_synthesis, evaluate_common,
    evaluate_privacy, evaluate_selector, language_supported, select_voice; repeat names_step; done.
Qed.

(** ** The loop *)

Definition accepted_of (r : result SpeechRouteRejection SpeechRouteSelection) : option SpeechRouteSelection :=
  match r with Ok s => Some s | Err _ => None end.
Definition refused_of (r : result SpeechRouteRejection SpeechRouteSelection) : option SpeechRouteRejection :=
  match r with Ok _ => None | Err r => Some r end.

Section Loop.
Context (debug : SpeechBackendReadiness → text) (q : SpeechRequest).
Notation judge b c := (candidate_for q b c).
Definition accepted_in (b : SpeechBackendDescriptor) : list SpeechRouteSelection := omap (λ c, accepted_of (judge b c)) (capabilities b).
Definition refused_in (b : SpeechBackendDescriptor) : list SpeechRouteRejection :=
  evaluate_backend_basics debug (context_of q) b (asked_kind q) ++ omap (λ c, refused_of (judge b c)) (capabilities b).
Definition accepted_all (l : list SpeechBackendDescriptor) : list SpeechRouteSelection := l ≫= accepted_in.
Definition refused_all (l : list SpeechBackendDescriptor) : list SpeechRouteRejection := l ≫= refused_in.

Lemma capability_loop_spec b l acc : capability_loop (candidate_for q) b l acc =
  (acc.1 ++ omap (λ c, accepted_of (judge b c)) l, acc.2 ++ omap (λ c, refused_of (judge b c)) l).
Proof.
  revert acc. induction l as [|c l IH]; intros [ss rs]; simpl; [by rewrite !app_nil_r|]. rewrite IH.
  destruct (judge b c); simpl; by rewrite <- app_assoc.
Qed.
Lemma backend_loop_spec l acc : backend_loop debug (context_of q) (asked_kind q) (candidate_for q) l acc =
  (acc.1 ++ accepted_all l, acc.2 ++ refused_all l).
Proof.
  revert acc. induction l as [|b l IH]; intros [ss rs]; simpl; [by rewrite !app_nil_r|]. rewrite IH, capability_loop_spec. simpl.
  unfold accepted_in, refused_in. by rewrite <- !app_assoc.
Qed.
Lemma accepted_spec l s : s ∈ accepted_all l ↔ ∃ b c v, (b ∈ l ∧ c ∈ capabilities b) ∧ offered q b c v ∧ s = selection (context_of q) b c v.
Proof.
  unfold accepted_all, accepted_in. rewrite list_elem_of_bind. setoid_rewrite list_elem_of_omap. split.
  - intros (b & (c & Hc & Hs) & Hb). destruct (judge b c) as [s'|] eqn:Hj; [|done]. injection Hs as ->.
    apply candidate_Ok in Hj as (v & ? & ?). by exists b, c, v.
  - intros (b & c & v & [Hb Hc] & Ho & ->). exists b. split; [|done]. exists c. split; [done|].
    assert (judge b c = Ok (selection (context_of q) b c v)) as -> by (apply candidate_Ok; by exists v). done.
Qed.
Lemma refused_names l b c : b ∈ l → c ∈ capabilities b → (∀ v, ¬ offered q b c v) →
  ∃ r, r ∈ refused_all l ∧ rejected_backend r = b_id b ∧ rejected_capability r = Some (c_id c).
Proof.
  intros Hb Hc Hn. pose proof (candidate_names q b c) as Hr. destruct (judge b c) as [s|r] eqn:Hj.
  - apply candidate_Ok in Hj as (v & Ho & _). by destruct (Hn v).
  - exists r. split; [|exact Hr]. apply list_elem_of_bind. exists b. split; [|done]. apply elem_of_app. right.
    apply list_elem_of_omap. exists c. by rewrite Hj.
Qed.
Lemma refused_in_spec b r : r ∈ refused_in b → rejected_backend r = b_id b ∧
  (rejected_capability r = None ∨ ∃ c, c ∈ capabilities b ∧ rejected_capability r = Some (c_id c) ∧ judge b c = Err r).
Proof.
  intros [Hr|(c & Hc & Hr)%list_elem_of_omap]%elem_of_app.
  - unfold evaluate_backend_basics in Hr. destruct (is_ready _), (forallb _ _), (route _); try case_bool_decide;
      repeat (apply elem_of_cons in Hr as [->|Hr]; [by split; [|left]|]); by apply elem_of_nil in Hr.
  - pose proof (candidate_names q b c) as Hn. destruct (judge b c) as [|r'] eqn:Hj; [done|]. injection Hr as ->. destruct Hn as [? Hn].
    split; [done|]. right. by exists c.
Qed.
End Loop.

(** ** The snapshot *)

Definition capability_ids (l : list SpeechBackendDescriptor) : list text := l ≫= λ b, c_id <$> capabilities b.

Lemma insert_capabilities_Ok seen l ids :
  insert_capabilities seen l = Ok ids ↔ ids = reverse (c_id <$> l) ++ seen ∧ NoDup (c_id <$> l) ∧ ∀ i, i ∈ c_id <$> l → i ∉ seen.
Proof.
  revert seen. induction l as [|c l IH]; intros seen; simpl.
  - split; [intros [= <-]; split_and!; [done|constructor|by intros i ?%elem_of_nil]|by intros [-> _]].
  - rewrite seq_Ok, reject_Ok, IH, bool_decide_eq_false, NoDup_cons, reverse_cons, <- app_assoc. setoid_rewrite elem_of_cons. naive_solver.
Qed.
Lemma validate_backends_Ok bs cs l : validate_backends bs cs l = Ok tt ↔
  (∀ b, b ∈ l → backend_validate b = Ok tt) ∧ NoDup (b_id <$> l) ∧ NoDup (capability_ids l) ∧
  (∀ i, i ∈ b_id <$> l → i ∉ bs) ∧ ∀ i, i ∈ capability_ids l → i ∉ cs.
Proof.
  revert bs cs. induction l as [|b l IH]; intros bs cs; simpl.
  { split; [|done]. intros _. split_and!; [by intros ? ?%elem_of_nil|constructor..|by intros ? ?%elem_of_nil|by intros ? ?%elem_of_nil]. }
  rewrite !seq_Ok, reject_Ok, bool_decide_eq_false, NoDup_cons. change (capability_ids (b :: l)) with ((c_id <$> capabilities b) ++ capability_ids l).
  rewrite NoDup_app. setoid_rewrite elem_of_app. setoid_rewrite elem_of_cons.
  assert ((match backend_validate b with Ok _ => mret tt | Err e => Err (SnapshotInvalid (capability_error_text e)) end) = Ok tt ↔
    backend_validate b = Ok tt) as -> by (destruct (backend_validate b) as [[]|]; naive_solver).
  destruct (insert_capabilities cs (capabilities b)) as [ids|e] eqn:Hi; simpl.
  - apply insert_capabilities_Ok in Hi as (-> & Hn & Hs). rewrite IH. setoid_rewrite elem_of_cons. setoid_rewrite elem_of_app.
    setoid_rewrite elem_of_reverse. naive_solver.
  - split; [naive_solver|]. intros (Hv & Hb & (Hn & Hd & Hl) & Hi1 & Hi2).
    assert (insert_capabilities cs (capabilities b) = Ok (reverse (c_id <$> capabilities b) ++ cs)) as Hok; [|by rewrite Hi in Hok].
    apply insert_capabilities_Ok. naive_solver.
Qed.
Lemma snapshot_Ok reports : validate_snapshot reports = Ok tt ↔ sound_snapshot (successful_backends reports).
Proof.
  unfold validate_snapshot, sound_snapshot. rewrite validate_backends_Ok. fold (capability_ids (successful_backends reports)).
  split; [naive_solver|]. intros (? & ? & ?). split_and!; [done..| |]; by intros i _ ?%elem_of_nil.
Qed.
Lemma insert_capabilities_Err seen l e : insert_capabilities seen l = Err e → ∃ d, e = SnapshotInvalid d.
Proof.
  revert seen. induction l as [|c l IH]; intros seen; simpl; [done|]. destruct (bool_decide _); simpl; [|apply IH].
  intros [= <-]. by eexists.
Qed.
Lemma validate_backends_Err bs cs l e : validate_backends bs cs l = Err e → ∃ d, e = SnapshotInvalid d.
Proof.
  revert bs cs. induction l as [|b l IH]; intros bs cs; simpl; [done|]. destruct (backend_validate b); simpl; [|intros [= <-]; by eexists].
  destruct (bool_decide _); simpl; [intros [= <-]; by eexists|]. destruct (insert_capabilities _ _) eqn:Hi; simpl; [apply IH|].
  intros [= <-]. by eapply insert_capabilities_Err.
Qed.
Lemma sound_perm l k : l ≡ₚ k → sound_snapshot l → sound_snapshot k.
Proof. intros Hp (Hv & Hb & Hc). unfold sound_snapshot. rewrite <- Hp. split_and!; [|done|done]. intros b Hin. apply Hv. by rewrite Hp. Qed.

(** ** The order of plans *)

#[export] Instance option_ordering {A} (cmp : A → A → comparison) : Ordering cmp → Ordering (option_cmp cmp).
Proof.
  intros [Hr Ha Ht]. split.
  - intros [x|]; simpl; [apply Hr|done].
  - intros [x|] [y|]; simpl; [apply Ha|done..].
  - intros [x|] [y|] [z|]; simpl; try done. apply Ht.
Qed.
#[export] Instance selection_ordering : Ordering selection_cmp.
Proof.
  apply lex_ordering; [apply (on_ordering fst), _|].
  apply lex_ordering; [apply (on_ordering (λ k : Z * (text * text), k.2.1)), _|apply (on_ordering (λ k : Z * (text * text), k.2.2)), _].
Qed.
#[export] Instance rejection_ordering : Ordering rejection_cmp.
Proof.
  apply lex_ordering; [apply (on_ordering fst), _|].
  apply lex_ordering; [apply (on_ordering (λ k : text * (option text * text), k.2.1)), _|apply (on_ordering (λ k : text * (option text * text), k.2.2)), _].
Qed.
Lemma selection_cmp_eq a b : selection_cmp a b = Eq → a = b.
Proof.
  destruct a as [x [s t]], b as [y [u v]]. unfold selection_cmp, lex. simpl. destruct (x ?= y) eqn:Hx; [|done..].
  destruct (str_cmp s u) eqn:Hs; [|done..]. intros Ht. apply Z.compare_eq in Hx as ->. apply str_cmp_eq in Hs as ->. by apply str_cmp_eq in Ht as ->.
Qed.
Lemma rejection_cmp_eq a b : rejection_cmp a b = Eq → a = b.
Proof.
  destruct a as [x [s t]], b as [y [u v]]. unfold rejection_cmp, lex. simpl. destruct (str_cmp x y) eqn:Hx; [|done..].
  destruct (option_cmp str_cmp s u) eqn:Hs; [|done..]. intros Ht. apply str_cmp_eq in Hx as ->. apply str_cmp_eq in Ht as ->.
  destruct s as [s|], u as [u|]; simpl in Hs; [by apply str_cmp_eq in Hs as ->|done..].
Qed.

Lemma omap_sublist {A B K} (f : A → option B) (g : A → K) (h : B → K) l :
  (∀ x y, f x = Some y → h y = g x) → h <$> omap f l `sublist_of` g <$> l.
Proof.
  intros Hf. induction l as [|x l IH]; simpl; [constructor|]. destruct (f x) as [y|] eqn:Hy; simpl; [|by constructor].
  rewrite (Hf x y Hy). by constructor.
Qed.
Lemma accepted_keys q l : sound_snapshot l → NoDup (selection_key <$> accepted_all q l).
Proof.
  intros (_ & _ & Hc). apply (NoDup_fmap_1 (λ k, k.2.2)). rewrite <- list_fmap_compose.
  eapply sublist_NoDup; [exact Hc|]. clear Hc. induction l as [|b l IH]; simpl; [constructor|]. unfold accepted_all in *. simpl. rewrite fmap_app.
  apply sublist_app; [|exact IH]. apply omap_sublist. intros c s Hs. destruct (candidate_for q b c) as [s'|] eqn:Hj; [|done]. injection Hs as ->.
  by apply candidate_Ok in Hj as (v & _ & ->).
Qed.

Section Rejected.
Context (debug : SpeechBackendReadiness → text) (q : SpeechRequest).

Lemma basics_keys b : NoDup (rejection_key <$> evaluate_backend_basics debug (context_of q) b (asked_kind q)) ∧
  ∀ k, k ∈ rejection_key <$> evaluate_backend_basics debug (context_of q) b (asked_kind q) → k.2.1 = None.
Proof.
  unfold evaluate_backend_basics. split.
  - apply (NoDup_fmap_1 (λ k, k.2.2)). destruct (is_ready _), (forallb _ _), (route _); try case_bool_decide; by apply (bool_decide_unpack _).
  - intros k. destruct (is_ready _), (forallb _ _), (route _); try case_bool_decide; simpl;
      repeat (intros [->|Hk]%elem_of_cons; [done|]; revert Hk); by intros ?%elem_of_nil.
Qed.
Lemma refused_in_keys b : NoDup (c_id <$> capabilities b) → NoDup (rejection_key <$> refused_in debug q b).
Proof.
  intros Hc. unfold refused_in. rewrite fmap_app. apply NoDup_app. split; [apply basics_keys|]. 
  set (rs := omap _ _). assert ((λ r, rejected_capability r) <$> rs `sublist_of` Some <$> (c_id <$> capabilities b)) as Hsub.
  { rewrite <- list_fmap_compose. apply omap_sublist. intros c r Hr. pose proof (candidate_names q b c) as Hn.
    destruct (candidate_for q b c); [done|]. injection Hr as ->. apply Hn. }
  split.
  - intros k Hk%basics_keys (r & -> & (c & Hin & Hr)%list_elem_of_omap)%list_elem_of_fmap. pose proof (candidate_names q b c) as Hn.
    destruct (candidate_for q b c); [done|]. injection Hr as ->. destruct Hn as [_ Hn]. unfold rejection_key in Hk. simpl in Hk. congruence.
  - apply (NoDup_fmap_1 (λ k, k.2.1)). rewrite <- list_fmap_compose. eapply sublist_NoDup; [|exact Hsub]. by apply NoDup_fmap_2; [apply _|].
Qed.
Lemma refused_keys l : sound_snapshot l → NoDup (rejection_key <$> refused_all debug q l).
Proof.
  intros (_ & Hb & Hc). unfold refused_all. induction l as [|b l IH]; simpl; [constructor|].
  simpl in Hb. apply NoDup_cons in Hb as [Hb Hl]. simpl in Hc. apply NoDup_app in Hc as (Hc & _ & Hcl).
  rewrite fmap_app. apply NoDup_app. split; [by apply refused_in_keys|]. split; [|by apply IH].
  intros k (r & -> & Hr)%list_elem_of_fmap (r' & Hk & (b' & Hr' & Hin)%list_elem_of_bind)%list_elem_of_fmap.
  apply refused_in_spec in Hr as [Hr _]. apply refused_in_spec in Hr' as [Hr' _]. apply Hb.
  unfold rejection_key in Hk. injection Hk as Hk _ _. rewrite <- Hr, Hk, Hr'. by apply list_elem_of_fmap_2.
Qed.

(** Every capability that is passed over is in the rejections, and no other is. *)
Definition accounted (reports : list CapabilitySourceReport) (rs : list SpeechRouteRejection) : Prop :=
  ∀ b c, reported reports b c →
    (∀ v, ¬ offered q b c v) ↔ ∃ r, r ∈ rs ∧ rejected_backend r = b_id b ∧ rejected_capability r = Some (c_id c).
Lemma all_accounted reports rs : sound_snapshot (successful_backends reports) → rs ≡ₚ refused_all debug q (successful_backends reports) →
  accounted reports rs.
Proof.
  intros (_ & Hb & Hc) Hp b c [Hin Hcap]. split.
  - intros Hn. destruct (refused_names debug q _ b c Hin Hcap Hn) as (r & Hr & ?). exists r. by rewrite Hp.
  - intros (r & Hr & Hbr & Hcr) v Ho. rewrite Hp in Hr. apply list_elem_of_bind in Hr as (b' & Hr & Hin').
    apply refused_in_spec in Hr as [Hbr' [?|(c' & Hcap' & Hcr' & Hj)]]; [congruence|].
    assert (b' = b) as -> by (apply (unique_key b_id (successful_backends reports)); [done..|congruence]).
    assert (c' = c) as ->.
    { apply (unique_key c_id (capabilities b)); [|done|done|congruence]. clear -Hc Hin. induction Hin as [l|l b0 Hin IH]; simpl in Hc;
        apply NoDup_app in Hc as (? & _ & ?); auto. }
    assert (candidate_for q b c = Ok (selection (context_of q) b c v)) as Hok by (apply candidate_Ok; by exists v). congruence.
Qed.

(** A plan, step by step *)
Lemma plan_is reports : plan debug q reports =
  (match request_validate q with Ok _ => mret tt | Err e => Err (RequestInvalid (error_code e) (safe_detail e)) end ;;
   validate_snapshot reports ;;
   finalize (asked_kind q) (accepted_all q (successful_backends reports)) (refused_all debug q (successful_backends reports))).
Proof.
  assert (plan debug q reports = plan_over debug (context_of q) (asked_kind q) (candidate_for q) (request_validate q) reports) as -> by by destruct q.
  unfold plan_over. by rewrite backend_loop_spec.
Qed.
End Rejected.

(** Where the selection of a plan comes from *)
Lemma plan_selects debug q reports p : plan debug q reports = Ok p → sound_snapshot (successful_backends reports) ∧
  request_validate q = Ok tt ∧ head (sort_by selection_cmp selection_key (accepted_all q (successful_backends reports))) = Some (selected p) ∧
  rejections p ≡ₚ refused_all debug q (successful_backends reports).
Proof.
  rewrite plan_is. destruct (request_validate q) as [[]|e]; simpl; [|done].
  destruct (validate_snapshot reports) as [[]|e] eqn:Hs; simpl; [|done]. apply snapshot_Ok in Hs. unfold finalize.
  destruct (sort_by selection_cmp _ _) as [|s rest]; [done|]. intros [= <-]. split_and!; [done..|apply sort_by_perm].
Qed.

(** ** The theorems *)

Section Theorems.
Context (debug : SpeechBackendReadiness → text) (q : SpeechRequest).

(** C14: A plan picks, of all capabilities that meet the request (the features it asks for, a
    ready backend, the privacy policy and the selected route), one that no other comes before
    in the ranking of the profile; there is no plan exactly if none meets it. A synthesis gets
    the voice it asks for, or the best installed one of its language. The rejections name
    exactly the capabilities that were passed over, and an invalid request or snapshot is
    refused before that. *)
Theorem speech_route_exact reports :
  match plan debug q reports with
  | Ok p => ∃ b c v, reported reports b c ∧ offered q b c v ∧ selected p = selection (context_of q) b c v ∧
      (∀ r f, q = ToSpeak r → operation c = Synthesis f → voice_fits r b f v) ∧
      (∀ b' c' v', reported reports b' c' → offered q b' c' v' →
        selection_cmp (selection_key (selected p)) (selection_key (selection (context_of q) b' c' v')) ≠ Gt) ∧
      accounted q reports (rejections p)
  | Err (NoEligibleRoute op rs) => op = asked_kind q ∧ (∀ b c v, reported reports b c → ¬ offered q b c v) ∧ accounted q reports rs
  | Err (RequestInvalid k d) => ∃ e, request_validate q = Err e ∧ error_code e = k ∧ safe_detail e = d
  | Err (SnapshotInvalid _) => request_validate q = Ok tt ∧ ¬ sound_snapshot (successful_backends reports)
  end.
Proof.
  rewrite plan_is. destruct (request_validate q) as [[]|e]; simpl; [|by exists e].
  destruct (validate_snapshot reports) as [[]|e] eqn:Hs; simpl.
  2: { destruct (validate_backends_Err _ _ _ _ Hs) as [d ->]. split; [done|]. intros Hok%snapshot_Ok. by rewrite Hok in Hs. }
  apply snapshot_Ok in Hs. pose proof (all_accounted debug q reports _ Hs (sort_by_perm rejection_cmp rejection_key _)) as Ha.
  unfold finalize. pose proof (sorted_head selection_cmp selection_key (accepted_all q (successful_backends reports))) as Hh.
  pose proof (sorted_empty selection_cmp selection_key (accepted_all q (successful_backends reports))) as He.
  destruct (sort_by selection_cmp _ _) as [|s rest]; simpl in *.
  - split_and!; [done| |done]. intros b c v Hr Ho. specialize (He eq_refl).
    assert (selection (context_of q) b c v ∈ accepted_all q (successful_backends reports)) as Hin by (apply accepted_spec; by exists b, c, v).
    rewrite He in Hin. by apply elem_of_nil in Hin.
  - destruct (Hh _ eq_refl) as [Hin Hbest]. apply accepted_spec in Hin as (b & c & v & Hr & Ho & Hsel). exists b, c, v. split_and!; [done..| | |done].
    + intros r f -> Hf. destruct Ho as [_ (_ & f' & Hf' & _ & Hv)]. rewrite Hf in Hf'. injection Hf' as <-. by eapply voice_Ok.
    + intros b' c' v' Hr' Ho'. apply Hbest, accepted_spec. by exists b', c', v'.
Qed.

(** C13: Under the local-only policy a plan never goes to a hosted backend nor to a capability
    that may use the network: the capability was proved at run time to work locally, or is a
    local model that the request names and that is loaded for it. Under the hosted-only
    policy it goes to a hosted backend. *)
Theorem speech_routes_stay_private reports p : plan debug q reports = Ok p →
  let route := selected_route (selected p) in
  match privacy (routing (context_of q)) with
  | LocalOnly => backend_kind route ≠ Hosted ∧ r_network route = Never ∧
      ∃ b c, reported reports b c ∧ b_id b = r_backend_id route ∧ c_id c = capability_id (selected p) ∧
        (c ∈ local_only_capabilities reports ∨ deferred_pick (context_of q) b c)
  | HostedOnly => backend_kind route = Hosted
  | HostedAllowed => True
  end.
Proof.
  intros (_ & _ & Hh & _)%plan_selects. apply sorted_head in Hh as [Hs _]; [|apply _].
  apply accepted_spec in Hs as (b & c & v & [Hb Hc] & [(Hr & Ha & Hk & _) _] & ->). simpl. unfold keeps_privacy in Hk.
  destruct (privacy _); [|done|done]. destruct Hk as (Hh & Hn & He). split_and!; [done..|]. exists b, c. split_and!; [done..|].
  destruct He as [(e & He & Hp')|Hd]; [|by right]. destruct Ha as [Ha|Hd]; [|by right]. left. unfold local_only_capabilities.
  apply list_elem_of_bind. exists b. split.
  - apply list_elem_of_In, filter_In. split; [by apply list_elem_of_In|]. unfold eligible_for_local_only.
    rewrite !bool_decide_eq_true_2 by done. apply existsb_exists. exists e. by rewrite <- list_elem_of_In.
  - apply list_elem_of_In, filter_In. split; [by apply list_elem_of_In|]. by rewrite Hr, bool_decide_eq_false_2.
Qed.

(** C15: The plan does not depend on the order in which the sources reported, nor on what
    failed sources said: the same backends give the same plan and the same rejections. A
    snapshot that is refused is refused in every order. *)
Theorem speech_route_order_independent reports reports' :
  successful_backends reports ≡ₚ successful_backends reports' →
  match plan debug q reports, plan debug q reports' with
  | Err (SnapshotInvalid _), Err (SnapshotInvalid _) => True
  | r, r' => r = r'
  end.
Proof.
  intros Hp. rewrite !plan_is. destruct (request_validate q) as [[]|e]; simpl; [|done].
  destruct (validate_snapshot reports) as [[]|e] eqn:Hs, (validate_snapshot reports') as [[]|e'] eqn:Hs'; simpl.
  - apply snapshot_Ok in Hs, Hs'. unfold finalize.
    rewrite (sort_by_unique selection_cmp selection_key (accepted_all q (successful_backends reports)) (accepted_all q (successful_backends reports')));
      [|apply selection_cmp_eq|by apply accepted_keys|unfold accepted_all; by rewrite Hp].
    rewrite (sort_by_unique rejection_cmp rejection_key (refused_all debug q (successful_backends reports)) (refused_all debug q (successful_backends reports')));
      [|apply rejection_cmp_eq|by apply refused_keys|unfold refused_all; by rewrite Hp].
    by destruct (sort_by selection_cmp _ _).
  - apply snapshot_Ok in Hs. apply (sound_perm _ _ Hp), snapshot_Ok in Hs. by rewrite Hs in Hs'.
  - apply snapshot_Ok in Hs'. symmetry in Hp. apply (sound_perm _ _ Hp), snapshot_Ok in Hs'. by rewrite Hs' in Hs.
  - destruct (validate_backends_Err _ _ _ _ Hs) as [d ->], (validate_backends_Err _ _ _ _ Hs') as [d' ->]. done.
Qed.
End Theorems.

(** ** A small platform

    A local recognizer, a local synthesizer with one voice, and a hosted service that claims
    to need no network. *)

Module SpeechToy.
Definition no_debug (r : SpeechBackendReadiness) : text := [].
Definition runtime : CapabilityEvidence := {|
  source_id := str "probe"; source_version := None; evidence_kind := RuntimeApi; evidence_outcome := Confirmed; observed_at_unix_ms := 1;
  evidence_detail := [] |}.
Definition listening : SpeechOperationCapability := Transcription {|
  streaming := false; can_partial_results := false; segment_timestamps := true; word_timestamps := false; can_diarization := false;
  translation_to_english := false; long_form := false; can_hotwords := false; generative := false; acoustic_turn_events := false;
  semantic_end_of_utterance := false; accepted_audio := [AcceptWav] |}.
Definition speaking : SpeechOperationCapability := Synthesis {|
  streaming_audio := false; ssml := false; word_alignment := false; phoneme_alignment := false; pause_resume := false;
  voice_selection := true; returned_audio := [KindWav] |}.
Definition capability (owner id : string) (op : SpeechOperationCapability) : SpeechCapability := {|
  c_id := str id; c_backend_id := str owner; c_model_id := None; operation := op; availability := Available; network := Never;
  languages := [str "en-US"]; limits := {| max_audio_ms := None; max_input_characters := None; max_concurrent_requests := None; limit_speakers := None |};
  evidence := [runtime] |}.
Definition backend (id : string) (k : SpeechBackendKind) (cs : list SpeechCapability) (vs : list VoiceDescriptor) : SpeechBackendDescriptor :=
  {| b_id := str id; b_display_name := []; b_kind := k; readiness := Ready; capabilities := cs; models := []; voices := vs |}.
Definition ears : SpeechBackendDescriptor := backend "native.ears" PlatformOnDevice [capability "native.ears" "ears.transcribe" listening] [].
Definition cloud : SpeechBackendDescriptor := backend "cloud" Hosted [capability "cloud" "cloud.transcribe" listening] [].
Definition online_voice : VoiceDescriptor := {|
  v_id := str "anna"; v_name := str "Anna"; v_language := str "en-US"; gender := None; quality := Some Premium; expected_latency := None;
  v_network := Required; installed := true |}.
Definition mouth : SpeechBackendDescriptor := backend "native.mouth" PlatformOnDevice [capability "native.mouth" "mouth.speak" speaking] [online_voice].
Definition report (bs : list SpeechBackendDescriptor) : CapabilitySourceReport := {| report_source_id := []; status := Succeeded; report_detail := None; backends := bs |}.

Definition context : SpeechRequestContext := {|
  request_id := str "1"; client_id := str "test"; route := Auto;
  routing := {| privacy := LocalOnly; profile := HostedEnabled; allow_asset_download := false; allow_fallback_before_output := true |};
  deadline := {| queue_ms := None; model_load_ms := None; first_result_ms := None; idle_stream_ms := None; total_ms := None |} |}.
Definition listen : SpeechRequest := ToTranscribe {|
  t_context := context; t_input := Complete (InputEncoded EncodedWav [1]); t_language := Some (str "en-GB"); task := Transcribe;
  timestamps := TimestampSegment; diarization := DiarizationDisabled; partial_results := false; punctuation := true; hotwords := [] |}.
Definition speak : SpeechRequest := ToSpeak {|
  s_context := context; s_input := SynthesisText (str "hello"); voice := VoiceAuto; s_language := Some (str "en-US"); rate := F32_ONE;
  pitch := F32_ONE; volume := F32_ONE; output := OutputWav; alignment := AlignmentNone; stream := false |}.
Definition planned (r : result SpeechRouteError SpeechRoutePlan) : option (text * text) :=
  match r with Ok p => Some (r_backend_id (selected_route (selected p)), capability_id (selected p)) | Err _ => None end.

(** The hosted service would be first in the ranking, but the request stays on the device. *)
Lemma speech_routes_stay_private_witness :
  match plan no_debug listen [report [cloud]; report [ears]] with
  | Ok p => r_backend_id (selected_route (selected p)) = str "native.ears" ∧ code <$> rejections p = [PrivacyMismatch] ∧
      r_network (selected_route (selected p)) = Never
  | Err _ => False
  end.
Proof.
  pose proof (speech_routes_stay_private no_debug listen [report [cloud]; report [ears]]) as H.
  destruct (plan _ _ _) as [p|e] eqn:Hp; [|by vm_compute in Hp]. specialize (H p eq_refl). simpl in H.
  split_and!; [..|apply H]; vm_compute in Hp; injection Hp as <-; by vm_compute.
Defined.
Lemma speech_route_order_independent_witness :
  plan no_debug listen [report [cloud]; report [ears]] = plan no_debug listen [report [ears]; report [cloud]] ∧
  planned (plan no_debug listen [report [cloud]; report [ears]]) = Some (str "native.ears", str "ears.transcribe").
Proof.
  split; [|by vm_compute].
  pose proof (speech_route_order_independent no_debug listen [report [cloud]; report [ears]] [report [ears]; report [cloud]]
    (Permutation_swap ears cloud [])) as H.
  destruct (plan _ _ [_; _]) as [p|e] eqn:Hp; [exact H|by vm_compute in Hp].
Defined.

(** The gates look at the capability, not at the voice: a local-only synthesis is planned with
    a voice that is declared to need the network. *)
Lemma local_only_voice_may_need_network : v_network online_voice = Required ∧
  match plan no_debug speak [report [mouth]] with
  | Ok p => r_voice_id (selected_route (selected p)) = Some (v_id online_voice) ∧ r_network (selected_route (selected p)) = Never
  | Err _ => False
  end.
Proof. by vm_compute. Qed.
(** A voice without a region is not chosen for a language with one, although the language check
    lets a capability without a region serve it. *)
Lemma base_voice_not_chosen : language_base (str "en-US") = str "en" ∧
  speaks (str "en-US") {| v_id := str "b"; v_name := []; v_language := str "en"; gender := None; quality := None; expected_latency := None;
                          v_network := Never; installed := true |} = false.
Proof. by vm_compute. Qed.
End SpeechToy.
