(* ===== verification/XzPreflight.v ===== *)
(** * XzPreflight: the allocation-free XZ metadata walk

    Models [attachment-native-inspect/src/xz_preflight.rs]: the checks that are
    made on an XZ attachment before a decoder is constructed. The parser walks
    the real blocks by their LZMA2 chunk framing, then reads the index and
    compares every record with a second walk.

    - [Xz] holds the parser, function for function;
    - [XzFormat] states the format it accepts as a grammar, with no parser in it;
    - the theorems say that the parser always returns (no panic, no overflow and
      no endless loop on any input), that it accepts exactly the grammar, and
      that its checksum detects every change of a single byte. *)

From S2P Require Import Prelude Bytes.
Local Open Scope Z_scope.

(** ** The parser *)

Module Xz.

Inductive XzPreflightClass := Malformed | Unsupported | Limit.

Record XzPreflightError := {
  code : string;
  class : XzPreflightClass;
  message : string;
}.

Record XzSummary := {
  blocks : Z;
  largest_dictionary_bytes : Z;
  index_bytes : Z;
}.

Record BlockHeader := {
  header_bytes : Z;
  dictionary_bytes : Z;
  declared_compressed_bytes : option Z;
  declared_uncompressed_bytes : option Z;
}.

Record BlockSummary := {
  next : Z;
  unpadded_bytes : Z;
  uncompressed_bytes : Z;
}.

Definition STREAM_HEADER_BYTES : Z := 12.
Definition STREAM_FOOTER_BYTES : Z := 12.
Definition LZMA2_FILTER_ID : Z := 0x21.
Definition XZ_MAGIC : list Z := [0xFD; 0x37; 0x7A; 0x58; 0x5A; 0x00].

Definition malformed (c m : string) : XzPreflightError :=
  {| code := c; class := Malformed; message := m |}.
Definition unsupported (c m : string) : XzPreflightError :=
  {| code := c; class := Unsupported; message := m |}.
Definition limit (c : string) (requested max : Z) (label : string) : XzPreflightError :=
  {| code := c; class := Limit;
     message := label +:+ " requested " +:+ pretty requested +:+
                " bytes/items; the limit is " +:+ pretty max +:+ "." |}.

Notation xz := (parse XzPreflightError).

Definition nonzero (b : Z) : bool := negb (b =? 0).

(** One of the eight rounds of [crc32] on a byte; [0u32.wrapping_sub(value & 1)]
    is the mask. *)
Definition crc_round (value : Z) : Z :=
  let mask := (0 - Z.land value 1) mod 2 ^ 32 in
  Z.lxor (Z.shiftr value 1) (Z.land 0xedb88320 mask).

Definition crc_byte (value byte : Z) : Z :=
  Nat.iter 8 crc_round (Z.lxor value byte).

Definition crc32 (bytes : list Z) : Z :=
  u32_max - foldl crc_byte u32_max bytes.

Definition validate_crc32 (data encoded : list Z) (c m : string) : xz unit :=
  fail_if (negb (len encoded =? 4)) (malformed c m) ;;
  fail_if (negb (crc32 data =? le_value encoded)) (malformed c m).

(** The iterations [index..9] of the loop of [parse_vli]; [n] is how many are left. *)
Fixpoint parse_vli_loop (n : nat) (bytes : list Z) (index value cursor end_ : Z) : xz (Z * Z) :=
  match n with
  | O => Err (Fail (malformed "xz_vli_overflow"
                      "An XZ variable-length integer exceeds nine bytes."))
  | S n =>
      fail_if (end_ <=? cursor) (malformed "xz_vli_truncated"
                                   "An XZ variable-length integer is truncated.") ;;
      byte ← Bytes.index bytes cursor ;
      cursor ← usize_add cursor 1 ;
      fail_if ((index =? 8) && (0x7f <? byte))
        (malformed "xz_vli_overflow" "An XZ variable-length integer overflows 63 bits.") ;;
      let value := Z.lor value (Z.shiftl (Z.land byte 0x7f) (index * 7)) in
      if Z.land byte 0x80 =? 0 then
        fail_if ((0 <? index) && (byte =? 0))
          (malformed "xz_vli_noncanonical"
             "An XZ variable-length integer is not minimally encoded.") ;;
        Ok (value, cursor)
      else parse_vli_loop n bytes (index + 1) value cursor end_
  end.

Definition parse_vli (bytes : list Z) (cursor end_ : Z) : xz (Z * Z) :=
  parse_vli_loop 9 bytes 0 0 cursor end_.

(** [base.checked_shl(shift)]: [None] for a shift of the width or more; the bits
    shifted out are lost. *)
Definition checked_shl_u64 (base shift : Z) : option Z :=
  if shift <? 64 then Some (Z.shiftl base shift mod 2 ^ 64) else None.

Definition decode_lzma2_dictionary (property : Z) : xz Z :=
  fail_if (40 <? property)
    (malformed "xz_lzma2_property_invalid" "The XZ LZMA2 dictionary property is invalid.") ;;
  if property =? 40 then Ok u32_max
  else
    let base := Z.lor 2 (Z.land property 1) in
    let shift := property / 2 + 11 in
    need (checked_shl_u64 base shift)
      (malformed "xz_lzma2_property_invalid" "The XZ LZMA2 dictionary size overflows.").

Definition take_byte (bytes : list Z) (cursor end_ : Z) (label : string) : xz (Z * Z) :=
  fail_if (end_ <=? cursor)
    (malformed "xz_lzma2_truncated" ("The " +:+ label +:+ " is truncated.")) ;;
  byte ← Bytes.index bytes cursor ;
  cursor ← usize_add cursor 1 ;
  Ok (byte, cursor).

Definition take_u16_be (bytes : list Z) (cursor end_ : Z) : xz (Z * Z) :=
  '(high, cursor) ← take_byte bytes cursor end_ "XZ LZMA2 chunk size" ;
  '(low, cursor) ← take_byte bytes cursor end_ "XZ LZMA2 chunk size" ;
  Ok (be_value [high; low], cursor).

Definition skip_bytes (bytes : list Z) (cursor end_ count : Z) (label : string) : xz Z :=
  count ← need (try_from usize_max count)
    (malformed "xz_lzma2_size_overflow" ("The " +:+ label +:+ " is too large for this platform.")) ;
  next ← need (checked_add usize_max cursor count)
    (malformed "xz_lzma2_size_overflow" ("The " +:+ label +:+ " size overflows.")) ;
  fail_if ((end_ <? next) || negb (bool_decide (is_Some (get_slice bytes cursor next))))
    (malformed "xz_lzma2_truncated" ("The " +:+ label +:+ " is truncated.")) ;;
  Ok next.

Definition uncompressed_overflow : XzPreflightError :=
  malformed "xz_uncompressed_size_overflow" "The XZ uncompressed size overflows.".
Definition uninitialized_dictionary : XzPreflightError :=
  malformed "xz_lzma2_state_invalid" "An XZ LZMA2 stream uses an uninitialized dictionary.".

(** The mutable variables of the loop of [scan_lzma2_chunks]. *)
Record Scan := {
  cursor : Z;
  uncompressed : Z;
  dictionary_initialized : bool;
  properties_initialized : bool;
}.

(** The arm [0x01 | 0x02] : a raw chunk. *)
Definition scan_raw_chunk (bytes : list Z) (end_ control : Z) (s : Scan) : xz Scan :=
  dict ← (if control =? 0x01 then Ok true
          else fail_if (negb (dictionary_initialized s)) uninitialized_dictionary ;;
               Ok (dictionary_initialized s)) ;
  '(size, c) ← take_u16_be bytes (cursor s) end_ ;
  chunk_bytes ← usize_add size 1 ;
  c ← skip_bytes bytes c end_ chunk_bytes "XZ LZMA2 raw chunk" ;
  total ← need (checked_add u64_max (uncompressed s) chunk_bytes) uncompressed_overflow ;
  Ok {| cursor := c; uncompressed := total; dictionary_initialized := dict;
        properties_initialized := properties_initialized s |}.

(** The arm [0x80..=0xff] : an LZMA chunk. *)
Definition scan_lzma_chunk (bytes : list Z) (end_ control : Z) (s : Scan) : xz Scan :=
  dict ← (if 0xe0 <=? control then Ok true
          else fail_if (negb (dictionary_initialized s)) uninitialized_dictionary ;;
               Ok (dictionary_initialized s)) ;
  let size_high := Z.shiftl (Z.land control 0x1f) 16 in
  '(size, c) ← take_u16_be bytes (cursor s) end_ ;
  chunk_uncompressed ← usize_add (Z.lor size_high size) 1 ;
  '(size, c) ← take_u16_be bytes c end_ ;
  chunk_compressed ← usize_add size 1 ;
  '(props, c) ← (
    if 0xc0 <=? control then
      '(property, c) ← take_byte bytes c end_ "XZ LZMA properties" ;
      fail_if (224 <? property)
        (malformed "xz_lzma_property_invalid"
           "An XZ LZMA chunk has invalid lc/lp/pb properties.") ;;
      Ok (true, c)
    else
      fail_if (negb (properties_initialized s))
        (malformed "xz_lzma2_state_invalid"
           "An XZ LZMA2 stream uses uninitialized LZMA properties.") ;;
      Ok (properties_initialized s, c)) ;
  c ← skip_bytes bytes c end_ chunk_compressed "XZ LZMA2 compressed chunk" ;
  total ← need (checked_add u64_max (uncompressed s) chunk_uncompressed) uncompressed_overflow ;
  Ok {| cursor := c; uncompressed := total; dictionary_initialized := dict;
        properties_initialized := props |}.

(** The [loop] of [scan_lzma2_chunks], with fuel. *)
Fixpoint scan_loop (fuel : nat) (bytes : list Z) (end_ : Z) (s : Scan) : xz (Z * Z) :=
  match fuel with
  | O => Err OutOfFuel
  | S fuel =>
      '(control, c) ← take_byte bytes (cursor s) end_ "XZ LZMA2 control byte" ;
      let s := {| cursor := c; uncompressed := uncompressed s;
                  dictionary_initialized := dictionary_initialized s;
                  properties_initialized := properties_initialized s |} in
      if control =? 0x00 then Ok (cursor s, uncompressed s)
      else if (control =? 0x01) || (control =? 0x02) then
        s ← scan_raw_chunk bytes end_ control s ; scan_loop fuel bytes end_ s
      else if 0x80 <=? control then
        s ← scan_lzma_chunk bytes end_ control s ; scan_loop fuel bytes end_ s
      else Err (Fail (malformed "xz_lzma2_control_invalid"
                        "An XZ LZMA2 stream contains an invalid control byte."))
  end.

(** Every iteration consumes a byte: the length of the slice bounds the loop. *)
Definition scan_lzma2_chunks (bytes : list Z) (start end_ : Z) : xz (Z * Z) :=
  scan_loop (S (length bytes)) bytes end_
    {| cursor := start; uncompressed := 0;
       dictionary_initialized := false; properties_initialized := false |}.

Definition validate_stream_header (bytes : list Z) : xz Z :=
  fail_if (negb (bool_decide (get_slice bytes 0 (len XZ_MAGIC) = Some XZ_MAGIC)))
    (malformed "xz_magic_invalid" "The XZ stream header magic is invalid.") ;;
  flags ← need (get_slice bytes 6 8)
    (malformed "xz_stream_flags_truncated" "The XZ stream flags are truncated.") ;
  flags0 ← Bytes.index flags 0 ;
  flags1 ← Bytes.index flags 1 ;
  fail_if (nonzero flags0 || nonzero (Z.land flags1 0xf0))
    (malformed "xz_stream_flags_invalid" "The XZ stream header sets reserved flag bits.") ;;
  encoded ← need (get_slice bytes 8 12)
    (malformed "xz_stream_header_truncated" "The XZ stream header is truncated.") ;
  validate_crc32 flags encoded "xz_stream_header_crc_invalid"
    "The XZ stream header CRC is invalid." ;;
  let check := Z.land flags1 0x0f in
  if check =? 0 then Ok 0
  else if check =? 1 then Ok 4
  else if check =? 4 then Ok 8
  else if check =? 10 then Ok 32
  else Err (Fail (unsupported "xz_check_unsupported"
              "The XZ stream uses a reserved or unsupported integrity check.")).

(** The iterations [filter_index..filter_count] of the filter loop of
    [inspect_block_header]; [n] is how many are left. *)
Fixpoint filter_loop (n : nat) (header : list Z) (data_end filter_index filter_count cursor : Z)
    (dictionary : option Z) : xz (Z * option Z) :=
  match n with
  | O => Ok (cursor, dictionary)
  | S n =>
      '(filter_id, cursor) ← parse_vli header cursor data_end ;
      '(properties_size, cursor) ← parse_vli header cursor data_end ;
      properties_size ← need (try_from usize_max properties_size)
        (malformed "xz_filter_properties_overflow" "XZ filter properties are too large.") ;
      properties_end ← need (checked_add usize_max cursor properties_size)
        (malformed "xz_filter_properties_overflow"
           "XZ filter properties overflow the block header.") ;
      data ← slice header 0 data_end ;
      properties ← need (get_slice data cursor properties_end)
        (malformed "xz_filter_properties_truncated" "XZ filter properties are truncated.") ;
      let cursor := properties_end in
      dictionary ← (
        if filter_id =? LZMA2_FILTER_ID then
          fail_if (negb (filter_index + 1 =? filter_count) || negb (len properties =? 1))
            (malformed "xz_lzma2_filter_invalid"
               "The terminating XZ LZMA2 filter is malformed.") ;;
          property ← Bytes.index properties 0 ;
          d ← decode_lzma2_dictionary property ;
          Ok (Some d)
        else Ok dictionary) ;
      filter_loop n header data_end (filter_index + 1) filter_count cursor dictionary
  end.

(** [cond.then(|| parse_vli(header, &mut cursor, data_end)).transpose()?] *)
Definition optional_vli (cond : bool) (header : list Z) (cursor data_end : Z) : xz (option Z * Z) :=
  if cond then '(v, c) ← parse_vli header cursor data_end ; Ok (Some v, c)
  else Ok (None, cursor).

Definition inspect_block_header (bytes : list Z) (block_start block_limit : Z) : xz BlockHeader :=
  size_byte ← need (get bytes block_start)
    (malformed "xz_block_header_truncated" "An XZ block header is truncated.") ;
  fail_if (size_byte =? 0)
    (malformed "xz_block_header_invalid" "An XZ block header has an invalid size byte.") ;;
  header_size ← need (checked_add usize_max size_byte 1 ≫= λ value, checked_mul usize_max value 4)
    (malformed "xz_block_header_size_overflow" "An XZ block header size overflows.") ;
  header_end ← need (checked_add usize_max block_start header_size)
    (malformed "xz_block_header_size_overflow" "An XZ block header size overflows.") ;
  fail_if (block_limit <? header_end)
    (malformed "xz_block_header_out_of_bounds" "An XZ block header overlaps the index.") ;;
  header ← need (get_slice bytes block_start header_end)
    (malformed "xz_block_header_truncated" "An XZ block header is truncated.") ;
  data_end ← usize_sub header_size 4 ;
  data ← slice header 0 data_end ;
  encoded ← slice header data_end (len header) ;
  validate_crc32 data encoded "xz_block_header_crc_invalid"
    "An XZ block header CRC is invalid." ;;
  flags ← Bytes.index header 1 ;
  fail_if (nonzero (Z.land flags 0x3c))
    (malformed "xz_block_flags_invalid" "An XZ block sets reserved flag bits.") ;;
  let filter_count := Z.land flags 0x03 + 1 in
  '(compressed, cursor) ← optional_vli (nonzero (Z.land flags 0x40)) header 2 data_end ;
  '(uncompressed, cursor) ← optional_vli (nonzero (Z.land flags 0x80)) header cursor data_end ;
  '(cursor, dictionary) ←
    filter_loop (Z.to_nat filter_count) header data_end 0 filter_count cursor None ;
  padding ← slice header cursor data_end ;
  fail_if (existsb nonzero padding)
    (malformed "xz_block_padding_invalid" "An XZ block header contains non-zero padding.") ;;
  dictionary ← need dictionary
    (unsupported "xz_filter_unsupported" "The XZ block does not terminate in an LZMA2 filter.") ;
  Ok {| header_bytes := header_size; dictionary_bytes := dictionary;
        declared_compressed_bytes := compressed; declared_uncompressed_bytes := uncompressed |}.

(** [declared.is_some_and(|declared| declared != actual)] *)
Definition declared_differs (declared : option Z) (actual : Z) : bool :=
  match declared with Some d => negb (d =? actual) | None => false end.

Definition inspect_actual_block (bytes : list Z) (block_start index_start check_bytes : Z)
    : xz (BlockSummary * Z) :=
  header ← inspect_block_header bytes block_start index_start ;
  compressed_start ← need (checked_add usize_max block_start (header_bytes header))
    (malformed "xz_block_size_overflow" "An XZ block offset overflows its container.") ;
  '(compressed_end, uncompressed) ← scan_lzma2_chunks bytes compressed_start index_start ;
  compressed ← usize_sub compressed_end compressed_start ;
  compressed ← need (try_from u64_max compressed)
    (malformed "xz_block_size_overflow"
       "An XZ compressed block is too large for this platform.") ;
  fail_if (declared_differs (declared_compressed_bytes header) compressed)
    (malformed "xz_block_compressed_size_mismatch"
       "An XZ block header declares the wrong compressed size.") ;;
  fail_if (declared_differs (declared_uncompressed_bytes header) uncompressed)
    (malformed "xz_block_uncompressed_size_mismatch"
       "An XZ block header declares the wrong uncompressed size.") ;;
  unpadded ← need (value ← try_from u64_max (header_bytes header) ;
                   value ← checked_add u64_max value compressed ;
                   check ← try_from u64_max check_bytes ;
                   checked_add u64_max value check)
    (malformed "xz_block_size_overflow" "An XZ block size overflows its container.") ;
  padding_bytes ← need (try_from usize_max (Z.land (4 - Z.land unpadded 3) 3))
    (malformed "xz_block_padding_overflow"
       "An XZ block padding width cannot be represented safely.") ;
  check_start ← need (checked_add usize_max compressed_end padding_bytes)
    (malformed "xz_block_size_overflow" "XZ block padding overflows.") ;
  next ← need (checked_add usize_max check_start check_bytes)
    (malformed "xz_block_size_overflow" "XZ block check overflows.") ;
  fail_if (index_start <? next)
    (malformed "xz_block_out_of_bounds" "An XZ block overlaps its index.") ;;
  padding ← slice bytes compressed_end check_start ;
  fail_if (existsb nonzero padding)
    (malformed "xz_block_padding_invalid" "An XZ block contains non-zero padding.") ;;
  Ok ({| next := next; unpadded_bytes := unpadded; uncompressed_bytes := uncompressed |},
      dictionary_bytes header).

(** [slice.windows(n)] for [n > 0] *)
Fixpoint windows (n : nat) (l : list Z) : list (list Z) :=
  match l with
  | [] => []
  | _ :: k => if (n <=? length l)%nat then take n l :: windows n k else []
  end.

Definition layout_mismatch (bytes : list Z) (actual_start expected_index : Z) : XzPreflightError :=
  let remaining := default []
    (get_slice bytes (Z.min actual_start (len bytes)) (Z.min expected_index (len bytes))) in
  if existsb (λ window, bool_decide (window = XZ_MAGIC)) (windows (length XZ_MAGIC) remaining)
  then unsupported "xz_multiple_streams_unsupported"
         "Only one XZ stream is decoded in process; concatenated streams are rejected."
  else malformed "xz_block_layout_mismatch"
         "The real XZ block sequence does not end at its declared index.".

(** The first walk of [preflight_xz]: the [while] loop, with fuel. The state is
    [actual_start], [actual_blocks] and [largest_dictionary_bytes]. *)
Fixpoint walk_blocks (fuel : nat) (bytes : list Z)
    (index_start check_bytes max_blocks max_dictionary_bytes : Z)
    (actual_start actual_blocks largest : Z) : xz (Z * Z * Z) :=
  if negb (actual_start <? index_start) then Ok (actual_start, actual_blocks, largest)
  else match fuel with
  | O => Err OutOfFuel
  | S fuel =>
      fail_if (bool_decide (get bytes actual_start = Some 0))
        (layout_mismatch bytes actual_start index_start) ;;
      actual_blocks ← need (checked_add u64_max actual_blocks 1)
        (malformed "xz_block_count_overflow" "The XZ block count overflows.") ;
      fail_if (max_blocks <? actual_blocks)
        (limit "xz_block_limit_exceeded" actual_blocks max_blocks "XZ blocks") ;;
      '(block, dictionary) ← inspect_actual_block bytes actual_start index_start check_bytes ;
      fail_if (max_dictionary_bytes <? dictionary)
        (limit "xz_dictionary_limit_exceeded" dictionary max_dictionary_bytes
           "XZ dictionary bytes") ;;
      walk_blocks fuel bytes index_start check_bytes max_blocks max_dictionary_bytes
        (next block) actual_blocks (Z.max largest dictionary)
  end.

(** The second walk: the loop over the index records; [n] is how many are left.
    The state is [block_start] and [cursor]. *)
Fixpoint check_records (n : nat) (bytes : list Z)
    (index_start index_crc_start check_bytes : Z) (block_start cursor : Z) : xz (Z * Z) :=
  match n with
  | O => Ok (block_start, cursor)
  | S n =>
      '(unpadded_size, cursor) ← parse_vli bytes cursor index_crc_start ;
      '(uncompressed_size, cursor) ← parse_vli bytes cursor index_crc_start ;
      fail_if (unpadded_size =? 0)
        (malformed "xz_block_size_invalid" "An XZ index record declares an empty block.") ;;
      '(actual, _) ← inspect_actual_block bytes block_start index_start check_bytes ;
      fail_if (negb (unpadded_size =? unpadded_bytes actual)
               || negb (uncompressed_size =? uncompressed_bytes actual))
        (malformed "xz_index_record_mismatch"
           "An XZ index record disagrees with the corresponding real block.") ;;
      check_records n bytes index_start index_crc_start check_bytes (next actual) cursor
  end.

(** The footer, up to the location of the index: [check_bytes], [footer_start],
    [index_size] and [index_start]. *)
Definition locate_index (bytes : list Z) (max_index_bytes : Z) : xz (Z * Z * Z * Z) :=
  fail_if (len bytes <? STREAM_HEADER_BYTES + STREAM_FOOTER_BYTES)
    (malformed "xz_truncated" "The XZ stream is truncated.") ;;
  check_bytes ← validate_stream_header bytes ;
  footer_start ← usize_sub (len bytes) STREAM_FOOTER_BYTES ;
  footer ← slice bytes footer_start (len bytes) ;
  fail_if (negb (bool_decide (get_slice footer 10 12 = Some [0x59; 0x5A])))
    (unsupported "xz_multiple_streams_unsupported"
       "Concatenated XZ streams are not decoded in process.") ;;
  footer_data ← slice footer 4 10 ;
  footer_crc ← slice footer 0 4 ;
  validate_crc32 footer_data footer_crc "xz_footer_crc_invalid"
    "The XZ stream footer CRC is invalid." ;;
  fail_if (negb (bool_decide (get_slice bytes 6 8 = get_slice footer 8 10)))
    (malformed "xz_stream_flags_mismatch" "The XZ stream header and footer flags disagree.") ;;
  backward ← slice footer 4 8 ;
  let backward_size := le_value backward in
  index_size ← need (checked_add u64_max backward_size 1 ≫= λ value, checked_mul u64_max value 4)
    (malformed "xz_index_size_overflow" "The XZ index size overflows.") ;
  fail_if (max_index_bytes <? index_size)
    (limit "xz_index_limit_exceeded" index_size max_index_bytes "XZ index bytes") ;;
  index_size ← need (try_from usize_max index_size)
    (malformed "xz_index_size_overflow" "The XZ index is too large.") ;
  index_start ← need (checked_sub footer_start index_size)
    (malformed "xz_index_out_of_bounds" "The XZ footer points outside the attachment.") ;
  fail_if ((index_start <? STREAM_HEADER_BYTES) || (index_size <? 8))
    (malformed "xz_index_out_of_bounds" "The XZ index overlaps the stream header.") ;;
  Ok (check_bytes, footer_start, index_size, index_start).

Definition preflight_xz (bytes : list Z) (max_blocks max_index_bytes max_dictionary_bytes : Z)
    : xz XzSummary :=
  '(check_bytes, footer_start, index_size, index_start) ← locate_index bytes max_index_bytes ;
  index_crc_start ← usize_sub footer_start 4 ;
  index_data ← slice bytes index_start index_crc_start ;
  index_crc ← slice bytes index_crc_start footer_start ;
  validate_crc32 index_data index_crc "xz_index_crc_invalid" "The XZ index CRC is invalid." ;;
  '(actual_start, actual_blocks, largest) ←
    walk_blocks (length bytes) bytes index_start check_bytes max_blocks max_dictionary_bytes
      STREAM_HEADER_BYTES 0 0 ;
  fail_if (negb (actual_start =? index_start)) (layout_mismatch bytes actual_start index_start) ;;
  fail_if (negb (bool_decide (get bytes index_start = Some 0)))
    (malformed "xz_index_marker_invalid" "The XZ index marker is invalid.") ;;
  cursor ← usize_add index_start 1 ;
  '(record_count, cursor) ← parse_vli bytes cursor index_crc_start ;
  fail_if (max_blocks <? record_count)
    (limit "xz_block_limit_exceeded" record_count max_blocks "XZ blocks") ;;
  fail_if (negb (record_count =? actual_blocks))
    (malformed "xz_index_record_count_mismatch"
       ("The XZ index declares " +:+ pretty record_count +:+
        " blocks, but the stream contains " +:+ pretty actual_blocks +:+ ".")) ;;
  '(block_start, cursor) ←
    check_records (Z.to_nat record_count) bytes index_start index_crc_start check_bytes
      STREAM_HEADER_BYTES cursor ;
  fail_if (negb (block_start =? index_start)) (layout_mismatch bytes block_start index_start) ;;
  padding ← slice bytes cursor index_crc_start ;
  fail_if (existsb nonzero padding)
    (malformed "xz_index_padding_invalid" "The XZ index contains non-zero padding.") ;;
  Ok {| blocks := record_count; largest_dictionary_bytes := largest; index_bytes := index_size |}.

End Xz.

(** ** The format *)

Module XzFormat.
Import Xz.

(** A variable-length integer in its shortest form: seven bits a byte, least
    significant first, the high bit marking a continuation. *)
Fixpoint vli_bytes (n : nat) (v : Z) : list Z :=
  match n with
  | O => []
  | S n => if v <? 128 then [v] else v mod 128 + 128 :: vli_bytes n (v / 128)
  end.
Definition vli (v : Z) : list Z := vli_bytes 9 v.
Definition is_vli (v : Z) : Prop := 0 ≤ v < 2 ^ 63.

Definition all_zero (l : list Z) : Prop := Forall (λ b, b = 0) l.

(** Four bytes that hold the checksum of [data]. *)
Definition crc_field (data field : list Z) : Prop :=
  len field = 4 ∧ le_value field = crc32 data.

(** [chunks dict props payload n] : an LZMA2 chunk sequence up to its end marker
    that decodes to [n] bytes, starting from a state where a dictionary reset
    ([dict]) and a properties reset ([props]) have been seen. *)
Inductive chunks : bool → bool → list Z → Z → Prop :=
| chunks_end dict props : chunks dict props [0] 0
| chunks_raw dict props control hi lo data rest n :
    control = 1 ∨ control = 2 ∧ dict = true →
    len data = be_value [hi; lo] + 1 →
    chunks true props rest n →
    chunks dict props (control :: hi :: lo :: data ++ rest) (len data + n)
| chunks_lzma dict props control hi lo chi clo property data rest size n :
    0xe0 ≤ control ∨ 0x80 ≤ control ∧ dict = true →
    match property with
    | Some p => 0xc0 ≤ control ∧ p ≤ 224
    | None => control < 0xc0 ∧ props = true
    end →
    size = control mod 32 * 2 ^ 16 + be_value [hi; lo] + 1 →
    len data = be_value [chi; clo] + 1 →
    chunks true true rest n →
    chunks dict props
      (control :: hi :: lo :: chi :: clo :: option_list property ++ data ++ rest) (size + n).

Definition dictionary_size (property : Z) : Z :=
  if property =? 40 then 2 ^ 32 - 1 else (2 + property mod 2) * 2 ^ (property / 2 + 11).

(** A filter: its id and its properties. *)
Definition filter_bytes (f : Z * list Z) : list Z := vli f.1 ++ vli (len f.2) ++ f.2.
Definition other_filter (f : Z * list Z) : Prop := is_vli f.1 ∧ f.1 ≠ LZMA2_FILTER_ID.
Definition optional (o : option Z) : list Z := match o with Some v => vli v | None => [] end.
Definition optional_ok (o : option Z) : Prop := match o with Some v => is_vli v | None => True end.

Inductive block_header : list Z → BlockHeader → Prop :=
| block_header_intro size flags compressed uncompressed others property pad crc :
    let body := size :: flags :: optional compressed ++ optional uncompressed ++
                concat (map filter_bytes others) ++
                filter_bytes (LZMA2_FILTER_ID, [property]) ++ pad in
    size ≠ 0 →
    len (body ++ crc) = (size + 1) * 4 →
    crc_field body crc →
    Z.land flags 0x3c = 0 →
    len others = Z.land flags 0x03 →
    nonzero (Z.land flags 0x40) = bool_decide (is_Some compressed) →
    nonzero (Z.land flags 0x80) = bool_decide (is_Some uncompressed) →
    optional_ok compressed → optional_ok uncompressed →
    Forall other_filter others →
    property ≤ 40 →
    all_zero pad →
    block_header (body ++ crc)
      {| header_bytes := (size + 1) * 4; dictionary_bytes := dictionary_size property;
         declared_compressed_bytes := compressed; declared_uncompressed_bytes := uncompressed |}.

Definition declared_agrees (declared : option Z) (actual : Z) : Prop :=
  match declared with Some d => d = actual | None => True end.

(** What the index says of a block, and the dictionary the block asks for. *)
Record BlockFacts := { dictionary : Z; unpadded : Z; content : Z }.

Inductive block (check_bytes : Z) : list Z → BlockFacts → Prop :=
| block_intro header h payload n pad check :
    block_header header h →
    chunks false false payload n →
    n ≤ u64_max →
    declared_agrees (declared_compressed_bytes h) (len payload) →
    declared_agrees (declared_uncompressed_bytes h) n →
    all_zero pad → len pad = (- (len header + len payload + check_bytes)) mod 4 →
    len check = check_bytes →
    block check_bytes (header ++ payload ++ pad ++ check)
      {| dictionary := dictionary_bytes h;
         unpadded := len header + len payload + check_bytes; content := n |}.

Inductive block_sequence (check_bytes : Z) : list Z → list BlockFacts → Prop :=
| blocks_nil : block_sequence check_bytes [] []
| blocks_cons b f bs fs :
    block check_bytes b f → block_sequence check_bytes bs fs →
    block_sequence check_bytes (b ++ bs) (f :: fs).

Definition record_bytes (f : BlockFacts) : list Z := vli (unpadded f) ++ vli (content f).

Definition check_size (flags : Z) : option Z :=
  if flags =? 0 then Some 0 else if flags =? 1 then Some 4
  else if flags =? 4 then Some 8 else if flags =? 10 then Some 32 else None.

(** A single-stream file: header, blocks, index, footer. *)
Inductive stream : list Z → list BlockFacts → Z → Prop :=
| stream_intro flags header_crc check_bytes body fs pad index_crc backward footer_crc :
    let index := 0 :: vli (len fs) ++ concat (map record_bytes fs) ++ pad in
    crc_field [0; flags] header_crc →
    check_size flags = Some check_bytes →
    block_sequence check_bytes body fs →
    Forall (λ f, content f < 2 ^ 63) fs →
    all_zero pad →
    crc_field index index_crc →
    len (index ++ index_crc) = (le_value backward + 1) * 4 →
    len backward = 4 →
    crc_field (backward ++ [0; flags]) footer_crc →
    stream ((XZ_MAGIC ++ [0; flags] ++ header_crc) ++ body ++ (index ++ index_crc) ++
            (footer_crc ++ backward ++ [0; flags] ++ [0x59; 0x5A]))
      fs (len (index ++ index_crc)).

End XzFormat.

(** ** Variable-length integers *)

Module XzVli.
Import Xz XzFormat.

Lemma byte_low b : is_byte b → Z.land b 0x7f = b mod 128.
Proof. intros _. change 0x7f with (Z.ones 7). by rewrite Z.land_ones. Qed.

Lemma byte_high b : is_byte b → (Z.land b 0x80 =? 0) = (b <? 128).
Proof.
  intros Hb. apply Bool.eqb_prop.
  by apply (byte_cases (λ b, Bool.eqb (Z.land b 0x80 =? 0) (b <? 128))).
Qed.

Lemma vli_bytes_S n v :
  vli_bytes (S n) v = if v <? 128 then [v] else v mod 128 + 128 :: vli_bytes n (v / 128).
Proof. done. Qed.

Lemma vli_bytes_small n v : 0 ≤ v < 128 → vli_bytes (S n) v = [v].
Proof. intros. simpl. by rewrite (proj2 (Z.ltb_lt _ _)) by lia. Qed.

Lemma vli_bytes_large n b k :
  128 ≤ b < 256 → 0 < k → vli_bytes (S n) (b - 128 + 128 * k) = b :: vli_bytes n k.
Proof.
  intros. simpl. rewrite (proj2 (Z.ltb_ge _ _)) by lia. f_equal.
  - rewrite Z.mul_comm, Z.mod_add, Z.mod_small by lia. lia.
  - f_equal. rewrite Z.mul_comm, Z.div_add, Z.div_small by lia. lia.
Qed.

Lemma vli_bytes_len n v : 0 ≤ v → (0 < n)%nat → 1 ≤ len (vli_bytes n v) ≤ Z.of_nat n.
Proof.
  revert v. induction n as [|n IH]; intros v Hv Hn; [lia|]. simpl.
  case_match; bool_prop; autorewrite with len; [lia|].
  destruct n as [|n]; [simpl; autorewrite with len; lia|].
  specialize (IH (v / 128)). assert (0 ≤ v / 128) by (apply Z.div_pos; lia). lia.
Qed.

Lemma vli_len v : 0 ≤ v → 1 ≤ len (vli v) ≤ 9.
Proof. intros. apply (vli_bytes_len 9); lia. Qed.

Lemma vli_byte_ok n v : 0 ≤ v → bytes_ok (vli_bytes n v).
Proof.
  revert v. induction n as [|n IH]; intros v Hv; simpl; [done|].
  pose proof (Z.mod_pos_bound v 128). case_match; bool_prop; repeat constructor; try lia.
  apply IH, Z.div_pos; lia.
Qed.

#[local] Arguments vli_bytes : simpl never.

Section Loop.
Context (l : list Z) (Hl : slice_ok l).

(** The loop after [i] bytes, [n] before the bound: it reads the shortest form
    of some [k] and adds it, shifted, to the value. *)
Lemma parse_vli_loop_sound n i v c e :
  Z.of_nat n = 9 - i → 0 ≤ i → 0 ≤ v < 2 ^ (i * 7) → 0 ≤ c → e ≤ len l →
  returns_with (λ '(w, c'), c < c' ≤ e ∧ ∃ k,
      0 ≤ k < 2 ^ (7 * Z.of_nat n) ∧ (0 < i → k ≠ 0) ∧
      sub_list l c c' = vli_bytes n k ∧ w = v + k * 2 ^ (i * 7))
    (parse_vli_loop n l i v c e).
Proof.
  destruct Hl as [Hb Hn]. unfold isize_max in Hn.
  revert i v c. induction n as [|n IH]; intros i v c Hni Hi Hv Hc He; simpl; [done|].
  parse_step. parse_step; [lia|]. rename a into b.
  assert (is_byte b) as [Hb1 Hb2] by (apply (get_byte l c); [done|lia|done]).
  parse_step; [by unfold usize_max, u64_max; lia|]. parse_step.
  rewrite byte_high, byte_low, lor_shiftl_add by (done || lia).
  assert (b mod 128 = if b <? 128 then b else b - 128) as Hmod.
  { case_match; bool_prop; [by apply Z.mod_small|].
    symmetry. apply (Z.mod_unique_pos _ _ 1); lia. }
  parse_step.
  - rewrite Hmod, (proj2 (Z.ltb_lt _ _)) by done. parse_step. parse_step.
    split; [lia|]. exists b. rewrite (vli_bytes_small _ b), sub_list_one with (b := b) by (done || lia).
    split_and!; try done.
    + apply (Z.lt_le_trans _ (2 ^ 7)); [done|]. apply Z.pow_le_mono_r; lia.
    + intros. destruct H3; bool_prop; lia.
  - rewrite Hmod, (proj2 (Z.ltb_ge _ _)) by lia.
    assert (n ≠ 0%nat) as Hn0 by (intros ->; destruct H1; bool_prop; lia).
    assert (2 ^ ((i + 1) * 7) = 2 ^ (i * 7) * 128) as Hpow.
    { replace ((i + 1) * 7) with (i * 7 + 7) by lia. by rewrite Z.pow_add_r by lia. }
    eapply returns_with_mono; [|apply IH]; try lia.
    + intros [w c'] (Hc' & k & Hk & Hk0 & Hsub & ->). split; [lia|].
      assert (0 < k) by lia. exists (b - 128 + 128 * k).
      rewrite (vli_bytes_large n b k), (sub_list_cons l c b c') by (done || lia).
      split_and!; [lia| |lia|by f_equal|rewrite Hpow; lia].
      replace (7 * Z.of_nat (S n)) with (7 + 7 * Z.of_nat n) by lia.
      rewrite Z.pow_add_r by lia. lia.
    + rewrite Hpow. nia.
Qed.

Lemma parse_vli_loop_complete n i v c c' e k :
  Z.of_nat n = 9 - i → 0 ≤ i → 0 ≤ v < 2 ^ (i * 7) → 0 ≤ c ≤ c' → c' ≤ e → e ≤ len l →
  0 ≤ k < 2 ^ (7 * Z.of_nat n) → (0 < i → k ≠ 0) → (0 < n)%nat →
  sub_list l c c' = vli_bytes n k →
  parse_vli_loop n l i v c e = Ok (v + k * 2 ^ (i * 7), c').
Proof.
  destruct Hl as [Hb Hn]. unfold isize_max in Hn.
  revert i v c k. induction n as [|n IH]; intros i v c k Hni Hi Hv Hc He He' Hk Hk0 Hn0 Hsub;
    [lia|].
  assert (c < c') as Hcc.
  { pose proof (vli_bytes_len (S n) k ltac:(lia) Hn0) as Hlen.
    rewrite <- Hsub, sub_list_len in Hlen by lia. lia. }
  destruct (get_lt l c) as [b Hget]; [lia|].
  rewrite (sub_list_cons l c b c') in Hsub by (done || lia).
  assert (is_byte b) as [Hb1 Hb2] by (apply (get_byte l c); [done|lia|done]).
  simpl. rewrite (proj2 (Z.leb_gt _ _)) by lia. simpl.
  rewrite (proj2 (index_Ok _ _ _) Hget). simpl.
  rewrite (proj2 (usize_add_Ok c 1 (c + 1))) by (unfold usize_max, u64_max; lia). simpl.
  rewrite byte_high, byte_low, lor_shiftl_add by (done || lia).
  rewrite vli_bytes_S in Hsub. destruct (k <? 128) eqn:Hk128; bool_prop; injection Hsub as -> Hsub.
  - rewrite (proj2 (Z.ltb_ge 127 k)), andb_false_r, (proj2 (Z.ltb_lt k _)) by lia. simpl.
    assert ((0 <? i) && (k =? 0) = false) as ->.
    { apply andb_false_iff. destruct (decide (0 < i)); [right|left].
      - apply Z.eqb_neq. auto.
      - apply Z.ltb_ge. lia. }
    simpl. rewrite Z.mod_small by lia.
    assert (len (sub_list l (c + 1) c') = 0) as Hz by (by rewrite Hsub).
    rewrite sub_list_len in Hz by lia. do 2 f_equal. lia.
  - pose proof (Z.mod_pos_bound k 128 ltac:(lia)).
    assert (1 ≤ k / 128) by (apply Z.div_le_lower_bound; lia).
    assert (n ≠ 0%nat) as Hn1.
    { intros ->. simpl in Hk. lia. }
    rewrite (proj2 (Z.eqb_neq i 8)) by lia. simpl.
    rewrite (proj2 (Z.ltb_ge _ _)) by lia.
    assert (2 ^ ((i + 1) * 7) = 2 ^ (i * 7) * 128) as Hpow.
    { replace ((i + 1) * 7) with (i * 7 + 7) by lia. by rewrite Z.pow_add_r by lia. }
    assert ((k mod 128 + 128) mod 128 = k mod 128) as Hr.
    { symmetry. apply (Z.mod_unique_pos _ _ 1); lia. }
    rewrite Hr, (IH _ _ _ (k / 128)); rewrite ?Hpow; try (lia || nia || done).
    + do 2 f_equal. pose proof (Z.div_mod k 128). nia.
    + split; [lia|]. apply Z.div_lt_upper_bound; [lia|].
      replace (7 * Z.of_nat (S n)) with (7 + 7 * Z.of_nat n) in Hk by lia.
      rewrite Z.pow_add_r in Hk by lia. lia.
Qed.

Lemma parse_vli_sound c e :
  0 ≤ c → e ≤ len l →
  returns_with (λ '(v, c'), c < c' ≤ e ∧ is_vli v ∧ sub_list l c c' = vli v)
    (parse_vli l c e).
Proof.
  intros. eapply returns_with_mono; [|apply (parse_vli_loop_sound 9 0 0); try lia; done].
  intros [v c'] (Hc & k & Hk & _ & Hs & ->). rewrite Z.add_0_l, Z.mul_1_r.
  by split; [|split; [exact Hk|]].
Qed.

Lemma parse_vli_complete c c' e v :
  0 ≤ c ≤ c' → c' ≤ e → e ≤ len l → is_vli v → sub_list l c c' = vli v →
  parse_vli l c e = Ok (v, c').
Proof.
  intros. unfold parse_vli. rewrite (parse_vli_loop_complete 9 0 0 c c' e v); try (lia || done).
  do 2 f_equal. lia.
Qed.

End Loop.

End XzVli.

(** ** LZMA2 chunk framing *)

Module XzChunks.
Import Xz XzFormat.

Section Scan.
Context (l : list Z) (Hl : slice_ok l).

Lemma cursor_add_returns c k :
  c + k ≤ len l → returns_with (λ c', c' = c + k) (usize_add (E:=XzPreflightError) c k).
Proof.
  intros. apply usize_add_returns. destruct Hl as [_ Hn].
  unfold isize_max, usize_max, u64_max in *. lia.
Qed.

Lemma take_byte_sound c e label :
  0 ≤ c → e ≤ len l →
  returns_with (λ '(b, c'), c' = c + 1 ∧ c + 1 ≤ e ∧ is_byte b ∧ get l c = Some b)
    (take_byte l c e label).
Proof.
  intros. unfold take_byte. parse_step. parse_step; [lia|].
  eapply returns_with_bind; [apply (cursor_add_returns c 1); lia|intros ? ->].
  parse_step. split_and!; try done; [lia|]. apply (get_byte l c); [apply Hl|done..].
Qed.

Lemma take_byte_complete c e label b :
  0 ≤ c < e → e ≤ len l → get l c = Some b → take_byte l c e label = Ok (b, c + 1).
Proof.
  intros Hc He Hb. unfold take_byte.
  rewrite fail_if_false by (apply Z.leb_gt; lia). simpl.
  rewrite (proj2 (index_Ok _ _ _) Hb). simpl.
  rewrite (proj2 (usize_add_Ok c 1 (c + 1))); [done|].
  destruct Hl as [_ Hn]. unfold isize_max, usize_max, u64_max in *. lia.
Qed.

Lemma be_value_2 hi lo : be_value [hi; lo] = 256 * hi + lo.
Proof. unfold be_value. simpl. lia. Qed.

Lemma take_u16_be_sound c e :
  0 ≤ c → e ≤ len l →
  returns_with (λ '(v, c'), c' = c + 2 ∧ c + 2 ≤ e ∧ 0 ≤ v ≤ u16_max ∧
      ∃ hi lo, sub_list l c c' = [hi; lo] ∧ v = be_value [hi; lo])
    (take_u16_be l c e).
Proof.
  intros Hc He. unfold take_u16_be.
  eapply returns_with_bind; [by apply take_byte_sound|intros [hi ?] (-> & ? & Hhi & Hh)].
  eapply returns_with_bind; [by apply take_byte_sound; [lia|]|intros [lo ?] (-> & ? & Hlo & Hl')].
  parse_step. rewrite be_value_2. unfold is_byte, u16_max in *. split_and!; try lia.
  exists hi, lo. split; [|by rewrite be_value_2].
  rewrite (sub_list_cons l c hi), (sub_list_cons l (c + 1) lo), sub_list_nil by (done || lia).
  done.
Qed.

Lemma take_u16_be_complete c c' e hi lo rest :
  0 ≤ c → c' ≤ e → e ≤ len l → sub_list l c c' = hi :: lo :: rest → c + 2 ≤ c' →
  take_u16_be l c e = Ok (be_value [hi; lo], c + 2).
Proof.
  intros Hc Hc' He Hs Hlen. unfold take_u16_be.
  assert (get l c = Some hi) as Hhi.
  { rewrite <- (Z.add_0_r c). by apply (get_sub_list l c c' 0 hi (hi :: lo :: rest)); try lia. }
  assert (get l (c + 1) = Some lo) as Hlo.
  { by apply (get_sub_list l c c' 1 lo (hi :: lo :: rest)); try lia. }
  rewrite (take_byte_complete c e _ hi) by (done || lia). simpl.
  rewrite (take_byte_complete (c + 1) e _ lo) by (done || lia). simpl.
  do 2 f_equal. lia.
Qed.

Lemma skip_bytes_sound c e count label :
  0 ≤ c → 0 ≤ count → e ≤ len l →
  returns_with (λ c', c' = c + count ∧ c + count ≤ e) (skip_bytes l c e count label).
Proof.
  intros. unfold skip_bytes. parse_step. apply try_from_Some in H2 as [-> ?].
  parse_step. apply checked_add_Some in H3 as [-> ?]. parse_step. by parse_step.
Qed.

Lemma skip_bytes_complete c e count label :
  0 ≤ c → 0 ≤ count → c + count ≤ e → e ≤ len l →
  skip_bytes l c e count label = Ok (c + count).
Proof.
  intros. assert (c + count ≤ usize_max).
  { destruct Hl as [_ Hn]. unfold isize_max, usize_max, u64_max in *. lia. }
  unfold skip_bytes.
  rewrite (need_is _ _ count) by (apply try_from_Some; lia). simpl.
  rewrite (need_is _ _ (c + count)) by (apply checked_add_Some; lia). simpl.
  rewrite fail_if_false; [done|].
  rewrite (proj2 (Z.ltb_ge _ _)) by lia. simpl. apply negb_false_iff, bool_decide_eq_true.
  exists (sub_list l c (c + count)). apply get_slice_Some. split; [lia|done].
Qed.

Definition dict_ready (bound control : Z) (s : Scan) : Prop :=
  bound ≤ control ∨ dictionary_initialized s = true.

Lemma scan_raw_chunk_sound e control s :
  control = 1 ∨ control = 2 → 0 ≤ cursor s → e ≤ len l →
  returns_with (λ s', cursor s < cursor s' ≤ e ∧ ∃ hi lo data,
      (control = 1 ∨ control = 2 ∧ dictionary_initialized s = true) ∧
      sub_list l (cursor s) (cursor s') = hi :: lo :: data ∧
      len data = be_value [hi; lo] + 1 ∧
      uncompressed s' = uncompressed s + len data ∧ uncompressed s' ≤ u64_max ∧
      dictionary_initialized s' = true ∧ properties_initialized s' = properties_initialized s)
    (scan_raw_chunk l e control s).
Proof.
  intros Hctl Hc He. unfold scan_raw_chunk.
  eapply (returns_with_bind (λ d, d = true ∧ (control = 1 ∨ control = 2 ∧ dictionary_initialized s = true))).
  { parse_step; [by parse_step; auto|]. parse_step. parse_step. naive_solver. }
  intros dict [-> Hdict].
  eapply returns_with_bind; [by apply take_u16_be_sound|].
  intros [size c1] (-> & Hc1 & Hsize & hi & lo & Hs1 & Hv). unfold u16_max in *.
  eapply returns_with_bind; [apply usize_add_returns; unfold usize_max, u64_max; lia|intros ? ->].
  eapply returns_with_bind; [apply skip_bytes_sound; lia|intros c2 [-> Hc2]].
  parse_step. apply checked_add_Some in H as [-> Hmax].
  parse_step. simpl. split; [lia|].
  exists hi, lo, (sub_list l (cursor s + 2) (cursor s + 2 + (size + 1))).
  rewrite sub_list_len by lia. split_and!; try done; try lia.
  by rewrite (sub_list_split l _ (cursor s + 2)), Hs1 by lia.
Qed.

Lemma scan_raw_chunk_complete e control s c' hi lo data :
  control = 1 ∨ control = 2 ∧ dictionary_initialized s = true →
  0 ≤ cursor s ≤ c' → c' ≤ e → e ≤ len l →
  sub_list l (cursor s) c' = hi :: lo :: data → len data = be_value [hi; lo] + 1 →
  uncompressed s + len data ≤ u64_max →
  scan_raw_chunk l e control s =
    Ok {| cursor := c'; uncompressed := uncompressed s + len data;
          dictionary_initialized := true;
          properties_initialized := properties_initialized s |}.
Proof.
  intros Hctl Hc Hc' He Hs Hlen Hmax. unfold scan_raw_chunk.
  apply (Ok_bind _ _ true).
  { destruct Hctl as [->|[-> ->]]; done. }
  pose proof (len_nonneg data).
  assert (c' = cursor s + 2 + len data) as Hc2.
  { pose proof (sub_list_len l (cursor s) c' ltac:(lia) ltac:(lia)) as Hn.
    rewrite Hs, !len_cons in Hn. lia. }
  eapply Ok_bind; [apply (take_u16_be_complete (cursor s) c' e hi lo data); (done || lia)|]. simpl.
  assert (len l ≤ usize_max) by (destruct Hl as [_ Hn]; unfold isize_max, usize_max, u64_max in *; lia).
  eapply Ok_bind; [by apply usize_add_Ok; split; [|lia]|].
  eapply Ok_bind; [apply skip_bytes_complete; lia|].
  eapply Ok_bind; [by apply need_is, checked_add_Some; split; [|lia]|].
  do 2 f_equal; lia.
Qed.

Definition props_ready (control : Z) (property : option Z) (s : Scan) : Prop :=
  match property with
  | Some p => 0xc0 ≤ control ∧ p ≤ 224
  | None => control < 0xc0 ∧ properties_initialized s = true
  end.

Definition lzma_size (control hi lo : Z) : Z := control mod 32 * 2 ^ 16 + be_value [hi; lo] + 1.

Lemma lzma_size_lor control v :
  is_byte control → 0 ≤ v ≤ u16_max →
  Z.lor (Z.shiftl (Z.land control 0x1f) 16) v = control mod 32 * 2 ^ 16 + v.
Proof.
  intros Hc Hv. unfold u16_max in Hv. change 0x1f with (Z.ones 5).
  rewrite Z.land_ones, Z.lor_comm, lor_shiftl_add by lia. change (2 ^ 5) with 32. lia.
Qed.

Lemma lzma_size_bound control v :
  is_byte control → 0 ≤ v ≤ u16_max → 0 ≤ control mod 32 * 2 ^ 16 + v < 2 ^ 21.
Proof. intros ? Hv. unfold u16_max in Hv. pose proof (Z.mod_pos_bound control 32). lia. Qed.

Lemma scan_lzma_chunk_sound e control s :
  is_byte control → 0x80 ≤ control → 0 ≤ cursor s → e ≤ len l →
  returns_with (λ s', cursor s < cursor s' ≤ e ∧ ∃ hi lo chi clo property data,
      (0xe0 ≤ control ∨ 0x80 ≤ control ∧ dictionary_initialized s = true) ∧
      props_ready control property s ∧
      sub_list l (cursor s) (cursor s') =
        hi :: lo :: chi :: clo :: option_list property ++ data ∧
      len data = be_value [chi; clo] + 1 ∧
      uncompressed s' = uncompressed s + lzma_size control hi lo ∧ uncompressed s' ≤ u64_max ∧
      dictionary_initialized s' = true ∧ properties_initialized s' = true)
    (scan_lzma_chunk l e control s).
Proof.
  intros Hb Hctl Hc He. unfold scan_lzma_chunk.
  eapply (returns_with_bind (λ d, d = true ∧ (0xe0 ≤ control ∨ 0x80 ≤ control ∧ dictionary_initialized s = true))).
  { parse_step; [by parse_step; auto|]. parse_step. parse_step. naive_solver. }
  intros dict [-> Hdict].
  eapply returns_with_bind; [by apply take_u16_be_sound|].
  intros [size c1] (-> & Hc1 & Hsize & hi & lo & Hs1 & ->).
  rewrite lzma_size_lor by done. pose proof (lzma_size_bound control _ Hb Hsize).
  eapply returns_with_bind; [apply usize_add_returns; unfold usize_max, u64_max; lia|intros ? ->].
  eapply returns_with_bind; [apply take_u16_be_sound; lia|].
  intros [csize c2] (-> & Hc2 & Hcsize & chi & clo & Hs2 & ->). unfold u16_max in *.
  eapply returns_with_bind; [apply usize_add_returns; unfold usize_max, u64_max; lia|intros ? ->].
  set (c2 := cursor s + 2 + 2) in *.
  eapply (returns_with_bind (λ '(p, c), p = true ∧ c2 ≤ c ≤ e ∧ ∃ property,
      props_ready control property s ∧ sub_list l c2 c = option_list property)).
  { parse_step.
    - eapply returns_with_bind; [apply take_byte_sound; unfold c2; lia|].
      intros [p ?] (-> & ? & Hp & Hg). parse_step. parse_step. split_and!; [done|lia..|].
      exists (Some p). simpl. split; [lia|]. apply sub_list_one; [unfold c2; lia|done].
    - parse_step. parse_step. split_and!; [done|lia..|]. exists None. simpl.
      split; [done|]. apply sub_list_nil. lia. }
  intros [p c3] (-> & Hc3 & property & Hprop & Hs3).
  eapply returns_with_bind; [apply skip_bytes_sound; unfold c2 in *; lia|intros c4 [-> Hc4]].
  parse_step. apply checked_add_Some in H0 as [-> Hmax].
  parse_step. simpl. split; [unfold c2 in *; lia|].
  exists hi, lo, chi, clo, property, (sub_list l c3 (c3 + (be_value [chi; clo] + 1))).
  unfold c2 in *. rewrite sub_list_len by lia. unfold lzma_size. split_and!; try done; try lia.
  rewrite (sub_list_split l _ (cursor s + 2)), Hs1 by lia.
  rewrite (sub_list_split l _ (cursor s + 2 + 2)), Hs2 by lia.
  by rewrite (sub_list_split l _ c3), Hs3 by lia.
Qed.

Lemma scan_lzma_chunk_complete e control s c' hi lo chi clo property data :
  is_byte control → 0xe0 ≤ control ∨ 0x80 ≤ control ∧ dictionary_initialized s = true →
  props_ready control property s →
  0 ≤ cursor s ≤ c' → c' ≤ e → e ≤ len l →
  sub_list l (cursor s) c' = hi :: lo :: chi :: clo :: option_list property ++ data →
  len data = be_value [chi; clo] + 1 →
  uncompressed s + lzma_size control hi lo ≤ u64_max →
  scan_lzma_chunk l e control s =
    Ok {| cursor := c'; uncompressed := uncompressed s + lzma_size control hi lo;
          dictionary_initialized := true; properties_initialized := true |}.
Proof.
  intros Hb Hctl Hprop Hc Hc' He Hs Hlen Hmax. unfold scan_lzma_chunk.
  assert (len l ≤ usize_max) by (destruct Hl as [_ Hn]; unfold isize_max, usize_max, u64_max in *; lia).
  assert (bytes_ok (sub_list l (cursor s) c')) as Hbs by (apply sub_list_bytes, Hl).
  rewrite Hs in Hbs. inversion_clear Hbs as [|?? Hhi Hbs']. inversion_clear Hbs' as [|?? Hlo Hbs2].
  assert (0 ≤ be_value [hi; lo] ≤ u16_max) as Hsize.
  { rewrite be_value_2. unfold is_byte, u16_max in *. lia. }
  pose proof (lzma_size_bound control _ Hb Hsize).
  apply (Ok_bind _ _ true).
  { case_match; bool_prop; [done|]. destruct Hctl as [?|[_ ->]]; [lia|done]. }
  apply (sub_list_app_inv l _ _ [hi; lo]) in Hs as (Hx1 & Hs1 & Hs2); [|lia..].
  change (len [hi; lo]) with 2 in *.
  apply (sub_list_app_inv l _ _ [chi; clo]) in Hs2 as (Hx2 & Hs2 & Hs3); [|lia..].
  change (len [chi; clo]) with 2 in *.
  apply sub_list_app_inv in Hs3 as (Hx3 & Hs3 & Hs4); [|lia..].
  set (c2 := cursor s + 2 + 2) in *.
  eapply Ok_bind; [apply (take_u16_be_complete (cursor s) (cursor s + 2) e hi lo []); (done || lia)|].
  cbv beta iota. rewrite lzma_size_lor by done.
  eapply Ok_bind; [by apply usize_add_Ok; split; [|unfold usize_max, u64_max; lia]|].
  eapply Ok_bind; [apply (take_u16_be_complete (cursor s + 2) c2 e chi clo []); unfold c2 in *; (done || lia)|].
  pose proof (len_nonneg data). pose proof (len_nonneg (option_list property)).
  set (c3 := c2 + len (option_list property)) in *.
  assert (c' = c3 + len data) as ->.
  { pose proof (sub_list_len l c3 c' ltac:(unfold c3, c2 in *; lia) ltac:(lia)) as Hn.
    rewrite Hs4 in Hn. lia. }
  eapply Ok_bind; [by apply usize_add_Ok; split; [|unfold c3, c2 in *; lia]|].
  apply (Ok_bind _ _ (true, c3)); unfold c3 in *.
  { destruct property as [p|]; destruct Hprop as [Hp1 Hp2].
    - change (len (option_list (Some p))) with 1 in *.
      rewrite (proj2 (Z.leb_le _ _)) by lia.
      rewrite (take_byte_complete c2 e _ p); [|unfold c2 in *; lia..|].
      + simpl. by rewrite fail_if_false by (apply Z.ltb_ge; lia).
      + rewrite <- (Z.add_0_r c2). by apply (get_sub_list l c2 (c2 + 1) 0 p [p]); unfold c2; try lia.
    - rewrite (proj2 (Z.leb_gt _ _)) by lia. rewrite Hp2. simpl.
      by rewrite Z.add_0_r. }
  eapply Ok_bind; [apply skip_bytes_complete; unfold c3, c2 in *; lia|].
  unfold lzma_size in *.
  eapply Ok_bind; [by apply need_is, checked_add_Some; split; [|lia]|].
  do 2 f_equal; lia.
Qed.

Lemma scan_loop_sound fuel e s :
  0 ≤ cursor s ≤ e → e ≤ len l → e - cursor s < Z.of_nat fuel → uncompressed s ≤ u64_max →
  returns_with (λ '(c', n), cursor s < c' ≤ e ∧ n ≤ u64_max ∧ ∃ k, n = uncompressed s + k ∧
      chunks (dictionary_initialized s) (properties_initialized s) (sub_list l (cursor s) c') k)
    (scan_loop fuel l e s).
Proof.
  revert s. induction fuel as [|fuel IH]; intros s Hc He Hfuel Hmax; [lia|]. simpl.
  eapply returns_with_bind; [apply take_byte_sound; lia|].
  intros [control ?] (-> & Hc1 & Hb & Hg). cbv beta iota.
  set (s0 := {| cursor := cursor s + 1 |}).
  parse_step; [parse_step|parse_step; [|parse_step]].
  - subst control. split; [lia|]. split; [done|]. exists 0. split; [simpl; lia|].
    rewrite (sub_list_one l _ 0) by (done || lia). constructor.
  - eapply returns_with_bind; [apply scan_raw_chunk_sound; simpl; try done; lia|].
    intros s' (Hs' & hi & lo & data & Hctl & Hsub & Hlen & Hun & Hun' & Hd & Hp).
    simpl in Hs', Hsub, Hun, Hctl, Hp.
    eapply returns_with_mono; [|apply IH; lia].
    intros [c' n] (Hc' & Hn & k & -> & Hk). split; [lia|]. split; [done|].
    exists (len data + k). split; [lia|]. rewrite Hd, Hp in Hk.
    rewrite (sub_list_cons l _ control), (sub_list_split l _ (cursor s')), Hsub by (done || lia).
    by apply chunks_raw.
  - eapply returns_with_bind; [apply scan_lzma_chunk_sound; simpl; try done; lia|].
    intros s' (Hs' & hi & lo & chi & clo & property & data & Hctl & Hprop & Hsub & Hlen & Hun & Hun' & Hd & Hp).
    simpl in Hs', Hsub, Hun, Hctl.
    eapply returns_with_mono; [|apply IH; lia].
    intros [c' n] (Hc' & Hn & k & -> & Hk). split; [lia|]. split; [done|].
    exists (lzma_size control hi lo + k). split; [lia|]. rewrite Hd, Hp in Hk.
    rewrite (sub_list_cons l _ control), (sub_list_split l _ (cursor s')), Hsub by (done || lia).
    simpl. rewrite <- app_assoc. by apply chunks_lzma.
  - parse_step.
Qed.

Lemma chunks_nonneg d p k n : chunks d p k n → bytes_ok k → 0 ≤ n.
Proof.
  intros H. induction H as [|???????? Hctl Hlen Hrest IH
                            |???????????? Hctl Hprop Hsize Hlen Hrest IH]; intros Hk; [done|..].
  - do 3 apply Forall_inv_tail in Hk. apply Forall_app in Hk as [_ Hk].
    pose proof (len_nonneg data). specialize (IH Hk). lia.
  - pose proof (Forall_inv_tail Hk) as Hk1. pose proof (Forall_inv Hk1) as Hhi.
    apply Forall_inv_tail in Hk1. pose proof (Forall_inv Hk1) as Hlo. unfold is_byte in *.
    do 3 apply Forall_inv_tail in Hk1. rewrite !Forall_app in Hk1. destruct Hk1 as (_ & _ & Hr).
    specialize (IH Hr). rewrite be_value_2 in *. pose proof (Z.mod_pos_bound control 32). lia.
Qed.

Lemma head_byte c c' e label b rest :
  0 ≤ c ≤ c' → c' ≤ e → e ≤ len l → sub_list l c c' = b :: rest →
  take_byte l c e label = Ok (b, c + 1) ∧ is_byte b ∧ c + 1 ≤ c' ∧ sub_list l (c + 1) c' = rest.
Proof.
  intros Hc He Hl' Hs.
  assert (c + 1 ≤ c').
  { pose proof (sub_list_len l c c' ltac:(lia) ltac:(lia)) as Hn. rewrite Hs in Hn.
    rewrite len_cons in Hn. pose proof (len_nonneg rest). lia. }
  destruct (get_lt l c) as [x Hx]; [lia|].
  rewrite (sub_list_cons l c x c') in Hs by (done || lia). injection Hs as -> Hs.
  split_and!; [by apply take_byte_complete; try lia| |done|done].
  apply (get_byte l c); [apply Hl|lia|done].
Qed.

Lemma scan_loop_complete d p k n :
  chunks d p k n → ∀ fuel s c' e,
  dictionary_initialized s = d → properties_initialized s = p →
  sub_list l (cursor s) c' = k → 0 ≤ cursor s ≤ c' → c' ≤ e → e ≤ len l →
  len k ≤ Z.of_nat fuel → uncompressed s + n ≤ u64_max →
  scan_loop fuel l e s = Ok (c', uncompressed s + n).
Proof.
  intros H. induction H as
    [d p|d p ctl hi lo data rest n Hctl Hlen Hrest IH
     |d p ctl hi lo chi clo prop data rest size n Hctl Hprop Hsize Hlen Hrest IH];
    intros fuel s c' e <- <- Hsub Hc Hc' He Hfuel Hmax;
    (destruct fuel as [|fuel];
       [rewrite len_cons in Hfuel; match type of Hfuel with 1 + len ?x ≤ _ => pose proof (len_nonneg x) end; lia|]);
    rewrite len_cons in Hfuel;
    pose proof (head_byte _ _ e "XZ LZMA2 control byte" _ _ Hc Hc' He Hsub)
      as (Htake & Hb & Hcc & Hsub1); simpl; rewrite Htake; simpl; clear Htake Hsub.
  - pose proof (sub_list_len l (cursor s + 1) c' ltac:(lia) ltac:(lia)) as Hn.
    rewrite Hsub1 in Hn. change (len []) with 0 in Hn. do 2 f_equal; lia.
  - change (hi :: lo :: data ++ rest) with ((hi :: lo :: data) ++ rest) in *.
    apply sub_list_app_inv in Hsub1 as (Hx & Hs1 & Hs2); [|lia..].
    pose proof (len_nonneg (hi :: lo :: data)). rewrite len_app in Hfuel.
    assert (0 ≤ n). { eapply chunks_nonneg; [done|]. rewrite <- Hs2. apply sub_list_bytes, Hl. }
    rewrite (proj2 (Z.eqb_neq ctl 0)) by (destruct Hctl; lia).
    replace ((ctl =? 1) || (ctl =? 2)) with true by (by destruct Hctl as [->|[-> _]]).
    rewrite (scan_raw_chunk_complete e ctl _ (cursor s + 1 + len (hi :: lo :: data)) hi lo data)
      by (done || simpl; lia). simpl.
    rewrite (IH fuel _ c' e) by (done || simpl; lia). simpl. do 2 f_equal; lia.
  - change (hi :: lo :: chi :: clo :: option_list prop ++ data ++ rest)
      with ([hi; lo; chi; clo] ++ option_list prop ++ data ++ rest) in *.
    rewrite (assoc_L (++) (option_list prop)), (assoc_L (++) [hi; lo; chi; clo]) in *.
    set (x := [hi; lo; chi; clo] ++ option_list prop ++ data) in *.
    apply sub_list_app_inv in Hsub1 as (Hx & Hs1 & Hs2); [|lia..].
    pose proof (len_nonneg x). rewrite len_app in Hfuel.
    assert (0 ≤ n). { eapply chunks_nonneg; [done|]. rewrite <- Hs2. apply sub_list_bytes, Hl. }
    rewrite (proj2 (Z.eqb_neq ctl 0)) by (destruct Hctl; lia).
    replace ((ctl =? 1) || (ctl =? 2)) with false
      by (symmetry; apply orb_false_iff; split; apply Z.eqb_neq; destruct Hctl; lia).
    rewrite (proj2 (Z.leb_le _ _)) by (destruct Hctl; lia).
    rewrite (scan_lzma_chunk_complete e ctl _ (cursor s + 1 + len x) hi lo chi clo prop data)
      by (done || simpl; unfold lzma_size in *; lia). simpl.
    rewrite (IH fuel _ c' e) by (done || simpl; unfold lzma_size in *; lia). simpl.
    unfold lzma_size. do 2 f_equal; lia.
Qed.

Lemma scan_lzma2_chunks_sound c e :
  0 ≤ c ≤ e → e ≤ len l →
  returns_with (λ '(c', n), c < c' ≤ e ∧ n ≤ u64_max ∧ chunks false false (sub_list l c c') n)
    (scan_lzma2_chunks l c e).
Proof.
  intros. unfold scan_lzma2_chunks. eapply returns_with_mono; [|apply scan_loop_sound].
  - intros [c' n] (? & ? & k & -> & ?). by rewrite Z.add_0_l.
  - done.
  - done.
  - cbn [cursor]. unfold len in *. lia.
  - done.
Qed.

Lemma scan_lzma2_chunks_complete c c' e n :
  0 ≤ c ≤ c' → c' ≤ e → e ≤ len l → n ≤ u64_max → chunks false false (sub_list l c c') n →
  scan_lzma2_chunks l c e = Ok (c', n).
Proof.
  intros ???? Hk. unfold scan_lzma2_chunks.
  rewrite (scan_loop_complete _ _ _ _ Hk _ _ c'); try done.
  - simpl. rewrite sub_list_len by lia. unfold len in *. lia.
Qed.

End Scan.
End XzChunks.

(** ** Block headers *)

Module XzHeader.
Import Xz XzFormat XzVli.

Lemma validate_crc32_returns data field c m :
  returns_with (λ _, crc_field data field) (validate_crc32 data field c m).
Proof.
  unfold validate_crc32. parse_step. unfold fail_if.
  destruct (crc32 data =? le_value field) eqn:E; simpl; [|done]. by bool_prop.
Qed.

Lemma validate_crc32_complete data field c m :
  crc_field data field → validate_crc32 data field c m = Ok tt.
Proof.
  intros [Hn Hc]. unfold validate_crc32.
  rewrite (fail_if_false (negb (len field =? 4))) by (by rewrite Hn). simpl.
  by rewrite fail_if_false by (by rewrite Hc, Z.eqb_refl).
Qed.

Lemma existsb_nonzero k : existsb nonzero k = false ↔ all_zero k.
Proof.
  unfold all_zero. induction k as [|x k IH]; simpl; [done|].
  rewrite orb_false_iff, IH, Forall_cons. unfold nonzero.
  by rewrite negb_false_iff, Z.eqb_eq.
Qed.

Lemma decode_lzma2_dictionary_spec p :
  is_byte p →
  match decode_lzma2_dictionary p with
  | Ok d => d = dictionary_size p ∧ p ≤ 40
  | Err (Fail _) => 40 < p
  | Err _ => False
  end.
Proof.
  intros Hp. pose proof (byte_cases (λ p, match decode_lzma2_dictionary p with
    | Ok d => (d =? dictionary_size p) && (p <=? 40)
    | Err (Fail _) => 40 <? p | Err _ => false end) p ltac:(vm_compute; reflexivity) Hp) as H.
  cbv beta in H. destruct (decode_lzma2_dictionary p) as [d|[]]; bool_prop; naive_solver.
Qed.

Lemma optional_vli_sound l cond c e :
  slice_ok l → 0 ≤ c ≤ e → e ≤ len l →
  returns_with (λ '(o, c'), c ≤ c' ≤ e ∧ sub_list l c c' = optional o ∧
      cond = bool_decide (is_Some o) ∧ optional_ok o)
    (optional_vli cond l c e).
Proof.
  intros Hl Hc He. unfold optional_vli. destruct cond.
  - eapply returns_with_bind; [apply parse_vli_sound; (done || lia)|].
    intros [v c'] (? & ? & ?). parse_step. split_and!; (done || lia).
  - parse_step. split_and!; try done; [lia..|]. by rewrite sub_list_nil by lia.
Qed.

Lemma optional_vli_complete l o c c' e :
  slice_ok l → 0 ≤ c ≤ c' → c' ≤ e → e ≤ len l → optional_ok o →
  sub_list l c c' = optional o → optional_vli (bool_decide (is_Some o)) l c e = Ok (o, c').
Proof.
  intros Hl Hc He Hn Ho Hs. unfold optional_vli. destruct o as [v|]; simpl in *.
  - by rewrite (parse_vli_complete l Hl c c' e v) by (done || lia).
  - do 2 f_equal.
    pose proof (sub_list_len l c c' ltac:(lia) ltac:(lia)) as H. rewrite Hs in H.
    change (len []) with 0 in H. lia.
Qed.

Section Filters.
Context (l : list Z) (Hl : slice_ok l).

(** The terminating filter, with its one-byte dictionary property. *)
Definition lzma2 (property : Z) : Z * list Z := (LZMA2_FILTER_ID, [property]).

(** What a run of the filter loop has read. *)
Definition filters_read (fs : list (Z * list Z)) (before after : option Z) : Prop :=
  Forall other_filter fs ∧ after = before ∨
  ∃ others property, fs = others ++ [lzma2 property] ∧ Forall other_filter others ∧
    property ≤ 40 ∧ after = Some (dictionary_size property).

Lemma filter_loop_sound n e i cnt c dict :
  Z.of_nat n = cnt - i → 0 ≤ c ≤ e → e ≤ len l →
  returns_with (λ '(c', d), c ≤ c' ≤ e ∧ ∃ fs, length fs = n ∧
      sub_list l c c' = concat (map filter_bytes fs) ∧ filters_read fs dict d)
    (filter_loop n l e i cnt c dict).
Proof.
  destruct Hl as [Hbytes Hn]. unfold isize_max in Hn.
  revert i c dict. induction n as [|n IH]; intros i c dict Hi Hc He; simpl.
  { split; [lia|]. exists []. split_and!; [done|by rewrite sub_list_nil by lia|by left]. }
  eapply returns_with_bind; [apply parse_vli_sound; (done || lia)|].
  intros [id c1] (Hc1 & Hid & Hs1).
  eapply returns_with_bind; [apply parse_vli_sound; (done || lia)|].
  intros [size c2] (Hc2 & Hsize & Hs2).
  parse_step. apply try_from_Some in H as [-> _].
  parse_step. apply checked_add_Some in H as [-> _].
  parse_step; [lia|]. parse_step. apply get_slice_Some in H as [Hpe ->].
  rewrite sub_list_len in Hpe by lia. rewrite Z.sub_0_r in Hpe.
  rewrite sub_list_sub, !Z.add_0_l by lia.
  set (props := sub_list l c2 (c2 + size)) in *.
  assert (len props = size) as Hprops by (unfold props; rewrite sub_list_len; lia).
  assert (sub_list l c (c2 + size) = filter_bytes (id, props)) as Hf.
  { unfold filter_bytes. simpl. rewrite (sub_list_split l _ c1), (sub_list_split l c1 c2) by lia.
    by rewrite Hs1, Hs2, Hprops. }
  eapply (returns_with_bind (λ d, (id ≠ LZMA2_FILTER_ID ∧ d = dict) ∨
    (n = 0%nat ∧ ∃ p, (id, props) = lzma2 p ∧ p ≤ 40 ∧ d = Some (dictionary_size p)))).
  { parse_step; [|parse_step; by left]. subst id. parse_step.
    parse_step; [lia|]. rename a into p.
    pose proof (decode_lzma2_dictionary_spec p) as Hd.
    assert (is_byte p) as Hp.
    { apply (get_byte props 0); [by apply sub_list_bytes|done..]. }
    specialize (Hd Hp). destruct (decode_lzma2_dictionary p) as [d|[]]; simpl; [|done..].
    right. destruct Hd as [-> ?]. split; [lia|]. exists p. split_and!; try done.
    unfold lzma2. f_equal. rewrite <- (sub_list_all props), Hprops.
    replace size with (0 + 1) by lia. by apply sub_list_one. }
  intros d Hd. eapply returns_with_mono; [|apply (IH (i + 1) (c2 + size) d); lia].
  intros [c' d'] (Hc' & fs & Hlen & Hs' & Hread). split; [lia|].
  exists ((id, props) :: fs). split_and!; [by simpl; f_equal| |].
  { simpl. rewrite (sub_list_split l _ (c2 + size)) by lia. by rewrite Hf, Hs'. }
  destruct Hd as [[Hother ->]|(-> & p & Hp & ? & ->)].
  - destruct Hread as [[? ->]|(others & p & -> & ? & ? & ->)].
    + left. split; [|done]. by constructor.
    + right. exists ((id, props) :: others), p.
      split_and!; [done|by constructor|done..].
  - destruct fs; [|done]. right. exists [], p. rewrite Hp. split_and!; try done.
    destruct Hread as [[_ ->]|([|] & ? & ? & _)]; done.
Qed.

Lemma filter_step_complete n f e i cnt c c' dict :
  0 ≤ c ≤ c' → c' ≤ e → e ≤ len l → is_vli f.1 → sub_list l c c' = filter_bytes f →
  filter_loop (S n) l e i cnt c dict =
    dictionary ← (if f.1 =? LZMA2_FILTER_ID then
          fail_if (negb (i + 1 =? cnt) || negb (len f.2 =? 1))
            (malformed "xz_lzma2_filter_invalid"
               "The terminating XZ LZMA2 filter is malformed.") ;;
          property ← Bytes.index f.2 0 ;
          d ← decode_lzma2_dictionary property ;
          Ok (Some d)
        else Ok dict) ;
    filter_loop n l e (i + 1) cnt c' dictionary.
Proof.
  intros Hc Hc' He Hid Hs. destruct Hl as [Hbytes Hn]. unfold isize_max in Hn.
  destruct f as [id props]. simpl in *. unfold filter_bytes in Hs. simpl in Hs.
  apply sub_list_app_inv in Hs as (Hx1 & Hs1 & Hs2); [|lia..].
  pose proof (vli_len id ltac:(destruct Hid; lia)). pose proof (len_nonneg props).
  apply sub_list_app_inv in Hs2 as (Hx2 & Hs2 & Hs3); [|lia..].
  pose proof (vli_len (len props) ltac:(lia)).
  pose proof (sub_list_len l (c + len (vli id) + len (vli (len props))) c' ltac:(lia) ltac:(lia)) as Hp.
  rewrite Hs3 in Hp.
  rewrite (parse_vli_complete l Hl c (c + len (vli id)) e id) by (done || lia). simpl.
  rewrite (parse_vli_complete l Hl _ (c + len (vli id) + len (vli (len props))) e (len props))
    by (unfold is_vli; done || lia). simpl.
  rewrite (need_is _ _ (len props)) by (apply try_from_Some; unfold usize_max, u64_max; lia). simpl.
  rewrite (need_is _ _ c') by (apply checked_add_Some; unfold usize_max, u64_max; lia). simpl.
  rewrite (proj2 (slice_Ok _ _ _ _) (conj (conj (ltac:(lia) : 0 ≤ e) He) eq_refl)). simpl.
  rewrite (need_is _ _ props).
  - done.
  - apply get_slice_Some. rewrite sub_list_len by lia. split; [lia|].
    rewrite sub_list_sub by lia. by rewrite !Z.add_0_l.
Qed.

Lemma filter_loop_complete others property e i cnt c c' dict :
  Forall other_filter others → is_byte property → property ≤ 40 →
  cnt = i + len others + 1 → 0 ≤ c ≤ c' → c' ≤ e → e ≤ len l →
  sub_list l c c' = concat (map filter_bytes others) ++ filter_bytes (lzma2 property) →
  filter_loop (S (length others)) l e i cnt c dict = Ok (c', Some (dictionary_size property)).
Proof.
  intros Hother Hb Hp. revert i c dict.
  induction Hother as [|f others [Hvli Hid] _ IH]; intros i c dict Hi Hc Hc' He Hs.
  - rewrite (filter_step_complete 0 (lzma2 property) e i cnt c c') by (done || lia).
    simpl. rewrite (proj2 (Z.eqb_eq _ _)) by (unfold len in Hi; simpl in Hi; lia). simpl.
    pose proof (decode_lzma2_dictionary_spec property Hb) as Hd.
    destruct (decode_lzma2_dictionary property) as [d|[]]; simpl; try lia; try done.
    by destruct Hd as [-> _].
  - simpl in Hs. rewrite <- app_assoc in Hs.
    apply sub_list_app_inv in Hs as (Hx & Hs1 & Hs2); [|lia..].
    pose proof (len_nonneg (filter_bytes f)). rewrite len_cons in Hi.
    cbn [length]. rewrite (filter_step_complete _ f e i cnt c (c + len (filter_bytes f))) by (done || lia).
    rewrite (proj2 (Z.eqb_neq _ _)) by done. simpl. apply IH; (done || lia).
Qed.

End Filters.
Section Header.
Context (l : list Z) (Hl : slice_ok l).

(** What the second half of [inspect_block_header] has read, from the flags to
    the padding. *)
Lemma header_fields_sound hd e :
  slice_ok hd → 2 ≤ e ≤ len hd → ∀ flags,
  is_byte flags → Z.land flags 0x3c = 0 →
  returns_with (λ '(compressed, uncompressed, dict, c), 2 ≤ c ≤ e ∧ ∃ fs,
      len fs = Z.land flags 0x03 + 1 ∧ filters_read fs None dict ∧
      nonzero (Z.land flags 0x40) = bool_decide (is_Some compressed) ∧
      nonzero (Z.land flags 0x80) = bool_decide (is_Some uncompressed) ∧
      optional_ok compressed ∧ optional_ok uncompressed ∧
      sub_list hd 2 c = optional compressed ++ optional uncompressed ++
                        concat (map filter_bytes fs))
    ('(compressed, c) ← optional_vli (nonzero (Z.land flags 0x40)) hd 2 e ;
     '(uncompressed, c) ← optional_vli (nonzero (Z.land flags 0x80)) hd c e ;
     '(c, dict) ← filter_loop (Z.to_nat (Z.land flags 0x03 + 1)) hd e 0
                    (Z.land flags 0x03 + 1) c None ;
     Ok (compressed, uncompressed, dict, c)).
Proof.
  intros Hhd He flags Hb Hflags.
  assert (0 ≤ Z.land flags 0x03) by (apply Z.land_nonneg; right; lia).
  eapply returns_with_bind; [apply optional_vli_sound; (done || lia)|].
  intros [dc c1] (Hc1 & Hs1 & Hdc & Hdc').
  eapply returns_with_bind; [apply optional_vli_sound; (done || lia)|].
  intros [du c2] (Hc2 & Hs2 & Hdu & Hdu').
  eapply returns_with_bind; [apply filter_loop_sound; (done || lia)|].
  intros [c3 d] (Hc3 & fs & Hlen & Hs3 & Hread). parse_step.
  split; [lia|]. exists fs. split_and!; try done; [unfold len; lia|].
  rewrite (sub_list_split hd 2 c1), (sub_list_split hd c1 c2) by lia. by rewrite Hs1, Hs2, Hs3.
Qed.

Lemma block_header_sound a lim :
  0 ≤ a → lim ≤ len l →
  returns_with (λ h, a + header_bytes h ≤ lim ∧ 8 ≤ header_bytes h ∧
      block_header (sub_list l a (a + header_bytes h)) h)
    (inspect_block_header l a lim).
Proof.
  intros Ha Hlim. unfold inspect_block_header.
  parse_step. assert (is_byte a0) as [Hb1 Hb2] by (apply (get_byte l a); [apply Hl|done|done]).
  rename a0 into size. parse_step.
  parse_step. unfold mbind, option_bind in H1.
  destruct (checked_add usize_max size 1) as [v|] eqn:Hv; [|done].
  apply checked_add_Some in Hv as [-> _]. apply checked_mul_Some in H1 as [-> _].
  parse_step. apply checked_add_Some in H1 as [-> _]. parse_step.
  parse_step. apply get_slice_Some in H2 as [_ ->].
  set (hd := sub_list l a (a + (size + 1) * 4)) in *.
  assert (slice_ok hd) as Hhd by by apply slice_ok_sub.
  assert (len hd = (size + 1) * 4) as Hn by (unfold hd; rewrite sub_list_len; lia).
  parse_step; [lia|]. parse_step; [lia|]. parse_step; [lia|].
  set (e := (size + 1) * 4 - 4) in *.
  eapply returns_with_bind; [apply validate_crc32_returns|intros [] Hcrc; cbv beta in Hcrc].
  parse_step; [lia|]. rename a0 into flags.
  assert (is_byte flags) as Hfb by (apply (get_byte hd 1); [apply Hhd|done|done]).
  parse_step. unfold nonzero in H3. bool_prop.
  pose proof (header_fields_sound hd e Hhd ltac:(unfold e; lia) flags Hfb H3) as Hfields.
  revert Hfields. destruct (optional_vli (nonzero (Z.land flags 0x40)) hd 2 e)
    as [[dc c1]|[]]; simpl; [|done..].
  destruct (optional_vli (nonzero (Z.land flags 0x80)) hd c1 e) as [[du c2]|[]]; simpl; [|done..].
  destruct (filter_loop _ hd e 0 _ c2 None) as [[c3 dict]|[]]; simpl; [|done..].
  intros (Hc & fs & Hlen & Hread & Hdc & Hdu & Hdc' & Hdu' & Hfs).
  parse_step; [unfold e in *; lia|]. parse_step. apply existsb_nonzero in H4.
  parse_step. subst dict. parse_step. simpl.
  split; [lia|]. split; [lia|]. fold hd.
  destruct Hread as [[_ ?]|(others & p & -> & Hother & Hp & [= ->])]; [done|].
  assert (hd = (size :: flags :: optional dc ++ optional du ++ concat (map filter_bytes others) ++
                filter_bytes (LZMA2_FILTER_ID, [p]) ++ sub_list hd c3 e) ++ sub_list hd e (len hd)) as Hbody.
  { rewrite <- (sub_list_all hd) at 1. rewrite (sub_list_split hd 0 e) by (unfold e; lia). f_equal.
    rewrite (sub_list_split hd 0 2), (sub_list_split hd 2 c3), Hfs by lia.
    rewrite (sub_list_cons hd 0 size), (sub_list_cons hd 1 flags), sub_list_nil; try done; [|lia..|].
    - simpl. rewrite map_app, concat_app. simpl. by rewrite <- !(assoc_L (++)).
    - apply get_Some; [lia|]. split; [lia|]. unfold hd, sub_list.
      rewrite lookup_take_lt by lia. rewrite lookup_drop. apply get_Some in H as [_ H]; [|done].
      by rewrite Z2Nat.inj_0, Nat.add_0_r. }
  rewrite Hbody at 1. apply block_header_intro; try done.
  - by rewrite <- Hbody.
  - by replace (_ :: _) with (sub_list hd 0 e)
      by (apply (app_inj_2 _ _ (sub_list hd e (len hd)) (sub_list hd e (len hd)));
          [done|by rewrite <- Hbody, <- sub_list_split, sub_list_all by (unfold e; lia)]).
  - rewrite len_app in Hlen. change (len [lzma2 p]) with 1 in Hlen. lia.
Qed.

Lemma header_fields_complete hd e c dc du others p flags :
  slice_ok hd → 2 ≤ c ≤ e → e ≤ len hd →
  len others = Z.land flags 0x03 →
  nonzero (Z.land flags 0x40) = bool_decide (is_Some dc) →
  nonzero (Z.land flags 0x80) = bool_decide (is_Some du) →
  optional_ok dc → optional_ok du → Forall other_filter others → is_byte p → p ≤ 40 →
  sub_list hd 2 c = optional dc ++ optional du ++ concat (map filter_bytes others) ++
                    filter_bytes (lzma2 p) →
  ∃ c1 c2, 
    optional_vli (nonzero (Z.land flags 0x40)) hd 2 e = Ok (dc, c1) ∧
    optional_vli (nonzero (Z.land flags 0x80)) hd c1 e = Ok (du, c2) ∧
    filter_loop (Z.to_nat (Z.land flags 0x03 + 1)) hd e 0 (Z.land flags 0x03 + 1) c2 None =
      Ok (c, Some (dictionary_size p)).
Proof.
  intros Hhd Hc He Hlen Hdc Hdu Hdc' Hdu' Hother Hb Hp Hs.
  apply sub_list_app_inv in Hs as (Hx1 & Hs1 & Hs2); [|lia..].
  pose proof (len_nonneg (optional dc)). pose proof (len_nonneg (optional du)).
  apply sub_list_app_inv in Hs2 as (Hx2 & Hs2 & Hs3); [|lia..].
  exists (2 + len (optional dc)), (2 + len (optional dc) + len (optional du)).
  rewrite Hdc, Hdu. split_and!.
  - apply optional_vli_complete; (done || lia).
  - apply optional_vli_complete; (done || lia).
  - rewrite <- Hlen. replace (Z.to_nat (len others + 1)) with (S (length others)) by (unfold len; lia).
    apply filter_loop_complete; (done || lia).
Qed.

Lemma block_header_complete a b lim h :
  0 ≤ a ≤ b → b ≤ lim → lim ≤ len l → block_header (sub_list l a b) h →
  inspect_block_header l a lim = Ok h ∧ b = a + header_bytes h.
Proof.
  intros Ha Hb Hlim Hh. remember (sub_list l a b) as hd eqn:Hhd.
  assert (slice_ok hd) as Hok by (subst; by apply slice_ok_sub).
  destruct Hh as [size flags dc du others p pad crc body Hsize Hn Hcrc Hflags Hlen Hdc Hdu Hdc' Hdu' Hother Hp Hpad].
  pose proof (sub_list_len l a b ltac:(lia) ltac:(lia)) as Hb'. rewrite <- Hhd, Hn in Hb'.
  assert (b = a + (size + 1) * 4) as -> by lia. split; [|done].
  assert (is_byte size ∧ is_byte flags ∧ is_byte p) as ([Hsz1 Hsz2] & Hfb & Hpb).
  { destruct Hok as [Hok _]. unfold body, filter_bytes in Hok.
    rewrite <- app_comm_cons, Forall_cons, <- app_comm_cons, Forall_cons, !Forall_app in Hok.
    simpl in Hok. rewrite !Forall_cons in Hok. naive_solver. }
  assert (get l a = Some size) as Hg.
  { rewrite <- (Z.add_0_r a). by apply (get_sub_list l a (a + (size + 1) * 4) 0 size (body ++ crc)); try lia. }
  assert (get (body ++ crc) 1 = Some flags) as Hg1.
  { apply get_Some; [lia|]. split; [lia|done]. }
  pose proof Hcrc as [Hcn _]. set (hd := body ++ crc) in *. set (e := (size + 1) * 4 - 4).
  assert (len body = e) as Hbn by (unfold e; unfold hd in Hn; rewrite len_app in Hn; lia).
  assert (sub_list hd 0 e = body ∧ sub_list hd e (len hd) = crc) as [Hs1 Hs2].
  { pose proof (sub_list_app_inv hd 0 (len hd) body crc) as (_ & ? & ?);
      [lia..|apply sub_list_all|]. rewrite Z.add_0_l, Hbn in *. done. }
  assert (sub_list hd 2 (e - len pad) = optional dc ++ optional du ++ concat (map filter_bytes others) ++
                    filter_bytes (lzma2 p) ∧ sub_list hd (e - len pad) e = pad ∧ 2 ≤ e - len pad)
    as (Hs3 & Hs4 & Hpad').
  { unfold body in Hs1.
    apply (sub_list_app_inv hd 0 e [size; flags]) in Hs1 as (Hy1 & _ & Hs1); [|lia..].
    change (0 + len [size; flags]) with 2 in *.
    change (2 + 0) with 2 in *. rewrite !(assoc_L (++)) in Hs1. unfold e in *.
    apply sub_list_app_inv in Hs1 as (Hy2 & Hs1 & Hs1'); [|lia..].
    set (x := len _) in Hy2, Hs1, Hs1'. assert (0 ≤ x) by apply len_nonneg.
    assert (len pad = e - (2 + x)) as -> by (rewrite <- Hs1', sub_list_len by lia; unfold e; lia).
    unfold e. replace (_ - _ - _) with (2 + x) by lia.
    split_and!; [by rewrite Hs1, <- !(assoc_L (++))|done|lia]. }
  destruct (header_fields_complete hd e (e - len pad) dc du others p flags)
    as (c1 & c2 & Hf1 & Hf2 & Hf3); try done.
  { pose proof (len_nonneg pad). lia. }
  { unfold e. lia. }
  unfold inspect_block_header.
  rewrite (need_is _ _ size) by done. simpl.
  rewrite fail_if_false by (by apply Z.eqb_neq). simpl.
  assert (len l ≤ usize_max) by (destruct Hl as [_ ?]; unfold isize_max, usize_max, u64_max in *; lia).
  rewrite (need_is _ _ ((size + 1) * 4)); [simpl|].
  2:{ unfold usize_max, u64_max in *. rewrite (proj2 (checked_add_Some _ _ _ (size + 1))) by lia.
      simpl. apply checked_mul_Some. lia. }
  rewrite (need_is _ _ (a + (size + 1) * 4)) by (apply checked_add_Some; lia). simpl.
  rewrite fail_if_false by (apply Z.ltb_ge; lia). simpl.
  rewrite (need_is _ _ hd) by (apply get_slice_Some; split; [lia|done]). simpl.
  rewrite (proj2 (usize_sub_Ok _ 4 e)) by (unfold e; lia). simpl.
  rewrite (proj2 (slice_Ok hd 0 e body)) by (split; [unfold e; lia|done]). simpl.
  rewrite (proj2 (slice_Ok hd e (len hd) crc)) by (split; [unfold e; lia|done]). simpl.
  rewrite validate_crc32_complete by done. simpl.
  rewrite (proj2 (index_Ok hd 1 flags)) by done. simpl.
  rewrite fail_if_false by (by unfold nonzero; rewrite Hflags). simpl.
  rewrite Hf1. simpl. rewrite Hf2. simpl. rewrite Hf3. simpl.
  rewrite (proj2 (slice_Ok hd (e - len pad) e pad))
    by (split; [pose proof (len_nonneg pad); unfold e in *; lia|done]). simpl.
  by rewrite fail_if_false by (by apply existsb_nonzero).
Qed.

End Header.
End XzHeader.

(** ** Blocks *)

Module XzBlock.
Import Xz XzFormat XzVli XzChunks XzHeader.

Lemma padding_mod u : Z.land (4 - Z.land u 3) 3 = (- u) mod 4.
Proof.
  change 3 with (Z.ones 2). rewrite !Z.land_ones by lia. change (2 ^ 2) with 4.
  pose proof (Z.div_mod u 4). symmetry. rewrite <- (Z.mod_add (4 - u mod 4) (- (u / 4) - 1) 4) by lia.
  f_equal. lia.
Qed.

Lemma declared_differs_false o n : declared_differs o n = false ↔ declared_agrees o n.
Proof. destruct o as [d|]; simpl; [|done]. by rewrite negb_false_iff, Z.eqb_eq. Qed.

Section Block.
Context (l : list Z) (Hl : slice_ok l) (check : Z) (Hcheck : 0 ≤ check ≤ 32).

Lemma actual_block_sound a lim :
  0 ≤ a → lim ≤ len l →
  returns_with (λ '(s, d), a + 8 ≤ next s ≤ lim ∧
      block check (sub_list l a (next s))
        {| dictionary := d; unpadded := unpadded_bytes s; content := uncompressed_bytes s |})
    (inspect_actual_block l a lim check).
Proof.
  intros Ha Hlim. unfold inspect_actual_block.
  assert (len l ≤ isize_max) as Hn by apply Hl. unfold isize_max in Hn.
  eapply returns_with_bind; [by apply block_header_sound|intros h (Hh1 & Hh2 & Hh)].
  parse_step. apply checked_add_Some in H as [-> _].
  eapply returns_with_bind; [apply scan_lzma2_chunks_sound; (done || lia)|].
  intros [ce n] (Hce & Hnm & Hchunks). cbv beta iota.
  parse_step; [lia|]. parse_step. apply try_from_Some in H as [-> _].
  parse_step. apply declared_differs_false in H. parse_step. apply declared_differs_false in H0.
  parse_step. unfold mbind, option_bind in H1.
  destruct (try_from u64_max (header_bytes h)) as [v|] eqn:Hv; [|done].
  apply try_from_Some in Hv as [-> _].
  destruct (checked_add _ (header_bytes h) _) as [v|] eqn:Hv; [|done].
  apply checked_add_Some in Hv as [-> _].
  destruct (try_from u64_max check) as [v|] eqn:Hv; [|done].
  apply try_from_Some in Hv as [-> _]. apply checked_add_Some in H1 as [-> _].
  set (c := a + header_bytes h) in *.
  rewrite padding_mod. set (u := header_bytes h + (ce - c) + check).
  pose proof (Z.mod_pos_bound (- u) 4 ltac:(lia)) as Hmod. 
  parse_step. apply try_from_Some in H1 as [-> _].
  parse_step. apply checked_add_Some in H1 as [-> _].
  parse_step. apply checked_add_Some in H1 as [-> _].
  parse_step. parse_step; [lia|]. parse_step. apply existsb_nonzero in H2.
  parse_step. simpl. split; [unfold c in *; lia|].
  set (cs := ce + (- u) mod 4) in *.
  rewrite (sub_list_split l a c), (sub_list_split l c ce), (sub_list_split l ce cs)
    by (unfold c, cs in *; lia).
  replace u with (len (sub_list l a c) + len (sub_list l c ce) + check)
    by (rewrite !sub_list_len by (unfold c in *; lia); unfold c, u; lia).
  apply block_intro; try done; rewrite ?sub_list_len by (unfold c, cs in *; lia); try done.
  - unfold cs, u, c. rewrite Z.add_simpl_l. do 2 f_equal. lia.
  - unfold cs. lia.
Qed.

Lemma actual_block_complete a b lim f :
  0 ≤ a ≤ b → b ≤ lim → lim ≤ len l → block check (sub_list l a b) f →
  inspect_actual_block l a lim check =
    Ok ({| next := b; unpadded_bytes := unpadded f; uncompressed_bytes := content f |},
        dictionary f).
Proof.
  intros Ha Hb Hlim Hblock. remember (sub_list l a b) as k eqn:Hk.
  destruct Hblock as [header h payload n pad chk Hh Hchunks Hnm Hdc Hdu Hpad Hpadlen Hchk].
  symmetry in Hk.
  assert (len l ≤ isize_max) as Hn by apply Hl. unfold isize_max in Hn.
  assert (len l ≤ usize_max) as Hn' by (unfold usize_max, u64_max; lia).
  apply sub_list_app_inv in Hk as (Hx1 & Hs1 & Hk); [|lia..].
  pose proof (len_nonneg header). pose proof (len_nonneg payload). pose proof (len_nonneg pad).
  rewrite <- Hs1 in Hh.
  apply (block_header_complete l Hl a _ lim) in Hh as [Hh Hheader]; [|lia..].
  set (c := a + len header) in *.
  apply sub_list_app_inv in Hk as (Hx2 & Hs2 & Hk); [|lia..]. set (ce := c + len payload) in *.
  apply sub_list_app_inv in Hk as (Hx3 & Hs3 & Hs4); [|lia..]. set (cs := ce + len pad) in *.
  assert (b = cs + check) as Hbc.
  { rewrite <- Hchk, <- Hs4, sub_list_len by lia. lia. }
  assert (header_bytes h = len header) as Hhb by (unfold c in Hheader; lia).
  unfold inspect_actual_block. rewrite Hh. simpl. rewrite Hhb. fold c.
  rewrite (need_is _ _ c) by (apply checked_add_Some; lia). simpl.
  rewrite (scan_lzma2_chunks_complete l Hl c ce lim n) by (rewrite ?Hs2; done || lia). simpl.
  rewrite (proj2 (usize_sub_Ok ce c (len payload))) by (unfold ce; lia). simpl.
  rewrite (need_is _ _ (len payload)) by (apply try_from_Some; unfold u64_max; lia). simpl.
  rewrite fail_if_false by (by apply declared_differs_false). simpl.
  rewrite fail_if_false by (by apply declared_differs_false). simpl.
  set (u := len header + len payload + check) in *.
  assert (u ≤ u64_max) as Hu by (unfold u, u64_max, c, ce in *; lia).
  rewrite (need_is _ _ u); [simpl|].
  2:{ rewrite (proj2 (try_from_Some u64_max (len header) (len header))) by (unfold u in Hu; lia). simpl.
      rewrite (proj2 (checked_add_Some u64_max (len header) (len payload) (len header + len payload))) by (unfold u in Hu; lia). simpl.
      rewrite (proj2 (try_from_Some u64_max check check)) by (unfold u in Hu; lia). simpl.
      apply checked_add_Some. unfold u in *. lia. }
  rewrite padding_mod, <- Hpadlen.
  rewrite (need_is _ _ (len pad)) by (apply try_from_Some; lia). simpl.
  rewrite (need_is _ _ cs) by (apply checked_add_Some; lia). simpl.
  rewrite (need_is _ _ b) by (apply checked_add_Some; lia). simpl.
  rewrite fail_if_false by (apply Z.ltb_ge; lia). simpl.
  rewrite (proj2 (slice_Ok l ce cs pad)) by (split; [lia|done]). simpl.
  by rewrite fail_if_false by (by apply existsb_nonzero).
Qed.

End Block.
End XzBlock.

(** ** The stream header and the footer *)

Module XzFooter.
Import Xz XzFormat XzHeader.

Lemma two_bytes k x y : len k = 2 → get k 0 = Some x → get k 1 = Some y → k = [x; y].
Proof.
  intros Hn [_ Hx]%get_Some [_ Hy]%get_Some; [|done..].
  destruct k as [|a [|b [|c k]]]; [done..|by simplify_eq/=|].
  rewrite !len_cons in Hn. pose proof (len_nonneg k). lia.
Qed.

Lemma check_size_spec flags :
  is_byte flags → Z.land flags 0xf0 = 0 →
  check_size flags =
    (let check := Z.land flags 0x0f in
     if check =? 0 then Some 0 else if check =? 1 then Some 4
     else if check =? 4 then Some 8 else if check =? 10 then Some 32 else None).
Proof.
  intros Hb Hf. pose proof (byte_cases (λ flags, implb (Z.land flags 0xf0 =? 0)
    (Z.land flags 0x0f =? flags)) flags ltac:(vm_compute; reflexivity) Hb) as H.
  cbv beta in H. rewrite Hf in H. simpl in H. bool_prop. by rewrite H.
Qed.

Lemma check_size_flags flags c :
  check_size flags = Some c → is_byte flags ∧ Z.land flags 0xf0 = 0 ∧ 0 ≤ c ≤ 32.
Proof. unfold check_size. repeat case_match; bool_prop; intros; simplify_eq; done. Qed.

Section Ends.
Context (l : list Z) (Hl : slice_ok l) (Hlen : 24 ≤ len l).

Definition header_fields (flags check : Z) : Prop :=
  ∃ crc, sub_list l 0 12 = XZ_MAGIC ++ [0; flags] ++ crc ∧ crc_field [0; flags] crc ∧
         check_size flags = Some check.

Lemma header_flags flags check : header_fields flags check → sub_list l 6 8 = [0; flags].
Proof.
  intros (crc & Hs & _). apply sub_list_app_inv in Hs as (_ & _ & Hs); [|lia..].
  change (0 + len XZ_MAGIC) with 6 in Hs.
  by apply (sub_list_app_inv l 6 12 [0; flags]) in Hs as (_ & ? & _); [|lia..].
Qed.

Lemma validate_stream_header_sound :
  returns_with (λ check, ∃ flags, header_fields flags check) (validate_stream_header l).
Proof.
  unfold validate_stream_header. parse_step. apply get_slice_Some in H as [_ Hmagic].
  change (len XZ_MAGIC) with 6 in Hmagic.
  parse_step. apply get_slice_Some in H as [_ ->].
  assert (len (sub_list l 6 8) = 2) as H2 by (rewrite sub_list_len; lia).
  parse_step; [lia|]. parse_step; [lia|]. rename a into f0, a0 into flags.
  pose proof (two_bytes _ _ _ H2 H H0) as Hflags.
  assert (is_byte flags) as Hb.
  { apply (get_byte (sub_list l 6 8) 1); [apply sub_list_bytes, Hl|done..]. }
  parse_step. unfold nonzero in *. bool_prop. subst f0.
  parse_step. apply get_slice_Some in H1 as [_ ->].
  eapply returns_with_bind; [apply validate_crc32_returns|intros [] Hcrc; cbv beta in Hcrc].
  assert (∀ c, check_size flags = Some c → header_fields flags c) as Hpost.
  { intros c ?. exists (sub_list l 8 12). rewrite Hflags in Hcrc.
    rewrite (sub_list_split l 0 6), (sub_list_split l 6 8), <- Hmagic, Hflags by lia.
    by split_and!. }
  repeat parse_step; exists flags; apply Hpost;
    rewrite check_size_spec by done; cbv beta zeta;
    repeat match goal with
    | H : Z.land flags 0x0f = _ |- _ => rewrite H; clear H
    | H : Z.land flags 0x0f ≠ _ |- _ => rewrite (proj2 (Z.eqb_neq _ _) H); clear H
    end; done.
Qed.

Lemma validate_stream_header_complete flags check :
  header_fields flags check → validate_stream_header l = Ok check.
Proof.
  intros Hh. pose proof (header_flags _ _ Hh) as Hflags. destruct Hh as (crc & Hs & Hcrc & Hsize).
  apply sub_list_app_inv in Hs as (_ & Hmagic & Hs); [|lia..].
  change (0 + len XZ_MAGIC) with 6 in *.
  apply (sub_list_app_inv l 6 12 [0; flags]) in Hs as (_ & _ & Hs); [|lia..].
  change (6 + len [0; flags]) with 8 in *.
  destruct (check_size_flags _ _ Hsize) as (Hb & Hf & _).
  unfold validate_stream_header. change (len XZ_MAGIC) with 6.
  rewrite (proj2 (get_slice_Some l 0 6 XZ_MAGIC)) by (split; [lia|done]).
  eapply Ok_bind; [by apply fail_if_false; rewrite bool_decide_eq_true_2|]. simpl.
  rewrite (need_is (get_slice l 6 8) _ [0; flags]) by (apply get_slice_Some; split; [lia|done]). simpl.
  rewrite Hf. simpl.
  rewrite (need_is (get_slice l 8 12) _ crc) by (apply get_slice_Some; split; [lia|done]). simpl.
  rewrite validate_crc32_complete by done. simpl.
  rewrite check_size_spec in Hsize by done. cbv beta zeta in Hsize.
  repeat case_match; by simplify_eq.
Qed.

Definition footer_fields (flags size : Z) : Prop :=
  ∃ crc backward, sub_list l (len l - 12) (len l) = crc ++ backward ++ [0; flags] ++ [0x59; 0x5A] ∧
    len backward = 4 ∧ crc_field (backward ++ [0; flags]) crc ∧
    size = (le_value backward + 1) * 4.

Lemma locate_index_sound max :
  returns_with (λ '(check, footer_start, size, start), 12 ≤ start ∧ 8 ≤ size ∧ size ≤ max ∧
      start + size = footer_start ∧ footer_start = len l - 12 ∧ 0 ≤ check ≤ 32 ∧
      ∃ flags, header_fields flags check ∧ footer_fields flags size)
    (locate_index l max).
Proof.
  unfold locate_index, STREAM_HEADER_BYTES, STREAM_FOOTER_BYTES. parse_step.
  eapply returns_with_bind; [apply validate_stream_header_sound|intros check (flags & Hh)].
  pose proof (header_flags _ _ Hh) as Hflags.
  destruct Hh as (hcrc & Hs0 & Hcrc0 & Hsize). pose proof (check_size_flags _ _ Hsize) as (_ & _ & ?).
  parse_step; [lia|]. parse_step; [lia|].
  set (ft := sub_list l (len l - 12) (len l)) in *.
  assert (len ft = 12) as Hft by (unfold ft; rewrite sub_list_len; lia).
  parse_step. apply get_slice_Some in H1 as [_ Hyz]. parse_step; [lia|]. parse_step; [lia|].
  eapply returns_with_bind; [apply validate_crc32_returns|intros [] Hcrc; cbv beta in Hcrc].
  parse_step. assert (get_slice l 6 8 = Some [0; flags]) as Hgf by (apply get_slice_Some; split; [lia|done]).
  rewrite Hgf in H1. symmetry in H1. apply get_slice_Some in H1 as [_ Hfl].
  parse_step; [lia|]. parse_step. unfold mbind, option_bind in H1.
  destruct (checked_add u64_max _ 1) as [v|] eqn:Hv; [|done].
  apply checked_add_Some in Hv as [-> _]. apply checked_mul_Some in H1 as [-> _].
  parse_step. parse_step. apply try_from_Some in H2 as [-> _].
  parse_step. apply checked_sub_Some in H2 as [-> _]. parse_step. parse_step.
  split_and!; try lia. exists flags. split; [by exists hcrc|].
  exists (sub_list ft 0 4), (sub_list ft 4 8).
  rewrite (sub_list_split ft 4 8), <- Hfl in Hcrc by lia. split_and!; try done.
  - rewrite Hfl, Hyz. rewrite <- !sub_list_split by lia. change 12 with (12).
    rewrite <- Hft at 2. by rewrite sub_list_all.
  - rewrite sub_list_len; lia.
Qed.

Lemma locate_index_complete flags check size start max :
  header_fields flags check → footer_fields flags size →
  12 ≤ start → 8 ≤ size → size ≤ max → start + size = len l - 12 →
  locate_index l max = Ok (check, len l - 12, size, start).
Proof.
  intros Hh (crc & backward & Hs & Hbn & Hcrc & Hsize) Hstart Hsize8 Hmax Hsum.
  pose proof (header_flags _ _ Hh) as Hflags. destruct Hcrc as [Hcn Hcrc].
  unfold locate_index, STREAM_HEADER_BYTES, STREAM_FOOTER_BYTES.
  rewrite fail_if_false by (apply Z.ltb_ge; lia). simpl.
  rewrite (validate_stream_header_complete flags check) by done. simpl.
  rewrite (proj2 (usize_sub_Ok _ _ (len l - 12))) by lia. simpl.
  set (ft := sub_list l (len l - 12) (len l)) in *.
  assert (len ft = 12) as Hft by (unfold ft; rewrite sub_list_len; lia).
  rewrite (proj2 (slice_Ok l _ _ ft)) by (split; [lia|done]). simpl.
  pose proof (sub_list_all ft) as Hall. rewrite Hft, Hs in Hall.
  rewrite <- Hs in Hall at 1. 
  apply (sub_list_app_inv ft 0 12 crc) in Hall as (_ & Hs0 & Hall); [|lia..].
  rewrite Hcn in *. change (0 + 4) with 4 in *. pose proof Hall as Hall'.
  apply (sub_list_app_inv ft 4 12 backward) in Hall as (_ & Hs1 & Hall); [|lia..].
  rewrite Hbn in *. change (4 + 4) with 8 in *.
  apply (sub_list_app_inv ft 8 12 [0; flags]) in Hall as (_ & Hs2 & Hall); [|lia..].
  change (8 + len [0; flags]) with 10 in *.
  rewrite (proj2 (get_slice_Some ft 10 12 _)) by (split; [lia|done]).
  eapply Ok_bind; [by apply fail_if_false; rewrite bool_decide_eq_true_2|]. simpl.
  rewrite (proj2 (slice_Ok ft 4 10 (backward ++ [0; flags])))
    by (split; [lia|by rewrite (sub_list_split ft 4 8), Hs1, Hs2 by lia]). simpl.
  rewrite (proj2 (slice_Ok ft 0 4 crc)) by (split; [lia|done]). simpl.
  rewrite validate_crc32_complete by done. simpl.
  rewrite (proj2 (get_slice_Some l 6 8 [0; flags])) by (split; [lia|done]).
  rewrite (proj2 (get_slice_Some ft 8 10 [0; flags])) by (split; [lia|done]).
  eapply Ok_bind; [by apply fail_if_false; rewrite bool_decide_eq_true_2|]. simpl.
  rewrite (proj2 (slice_Ok ft 4 8 backward)) by (split; [lia|done]). simpl.
  assert (len l ≤ isize_max) as Hn by apply Hl. unfold isize_max in Hn.
  rewrite (need_is _ _ size); [simpl|].
  2:{ unfold u64_max. rewrite (proj2 (checked_add_Some _ _ 1 (le_value backward + 1))) by lia.
      simpl. apply checked_mul_Some. lia. }
  rewrite fail_if_false by (apply Z.ltb_ge; lia). simpl.
  rewrite (need_is _ _ size) by (apply try_from_Some; unfold usize_max, u64_max; lia). simpl.
  rewrite (need_is _ _ start) by (apply checked_sub_Some; lia). simpl.
  rewrite fail_if_false; [done|]. apply orb_false_iff. split; apply Z.ltb_ge; lia.
Qed.

End Ends.
End XzFooter.

(** ** The two walks *)

Module XzWalk.
Import Xz XzFormat XzVli XzHeader XzBlock.

Section Walk.
Context (l : list Z) (Hl : slice_ok l) (check : Z) (Hcheck : 0 ≤ check ≤ 32).
Context (index_start : Z) (Hstart : 0 ≤ index_start ≤ len l).

Notation sequence a fs := (block_sequence check (sub_list l a index_start) fs).
Definition largest_of (largest : Z) (fs : list BlockFacts) : Z :=
  foldl Z.max largest (map dictionary fs).

Lemma walk_blocks_sound fuel max_blocks max_dict a n largest :
  0 ≤ a ≤ index_start → index_start - a ≤ Z.of_nat fuel → n ≤ max_blocks →
  returns_with (λ '(a', n', largest'), a' = index_start ∧ ∃ fs, sequence a fs ∧
      n' = n + len fs ∧ n' ≤ max_blocks ∧ Forall (λ f, dictionary f ≤ max_dict) fs ∧
      largest' = largest_of largest fs)
    (walk_blocks fuel l index_start check max_blocks max_dict a n largest).
Proof.
  assert (∀ a n largest, 0 ≤ a ≤ index_start → n ≤ max_blocks → (a <? index_start) = false →
    a = index_start ∧ ∃ fs, sequence a fs ∧ n = n + len fs ∧ n ≤ max_blocks ∧
    Forall (λ f, dictionary f ≤ max_dict) fs ∧ largest = largest_of largest fs) as Hend.
  { intros a' n' m' Ha Hn Hlt. bool_prop. split; [lia|]. exists [].
    rewrite sub_list_nil by lia. split_and!; try done; [constructor|rewrite len_nil; lia]. }
  revert a n largest. induction fuel as [|fuel IH]; intros a n largest Ha Hfuel Hn; simpl;
    destruct (a <? index_start) eqn:Hlt; simpl; try by apply Hend.
  { bool_prop. lia. }
  bool_prop. parse_step. parse_step. apply checked_add_Some in H0 as [-> _]. parse_step.
  eapply returns_with_bind; [apply actual_block_sound; (done || lia)|].
  intros [s d] [Hs Hblock]. parse_step.
  eapply returns_with_mono; [|apply IH; lia].
  intros [[a' n'] m'] (-> & fs & Hfs & -> & Hmax & Hdict & ->). split; [done|].
  eexists (_ :: fs). split_and!.
  - rewrite (sub_list_split l a (next s)) by lia. by econstructor.
  - rewrite len_cons. lia.
  - done.
  - by constructor.
  - done.
Qed.

(** A block starts with the non-zero size byte of its header. *)
Lemma block_head a b f :
  0 ≤ a ≤ b → b ≤ len l → block check (sub_list l a b) f →
  a + 8 ≤ b ∧ get l a ≠ Some 0 ∧ 0 < unpadded f < 2 ^ 63 ∧ 0 ≤ content f.
Proof.
  intros Ha Hb H. pose proof (actual_block_complete l Hl check Hcheck a b b f ltac:(lia) ltac:(lia) Hb H) as Hi.
  pose proof (actual_block_sound l Hl check Hcheck a b ltac:(lia) Hb) as Hs.
  rewrite Hi in Hs. simpl in Hs. destruct Hs as [Hs _]. split; [lia|].
  assert (len l ≤ isize_max) as Hn by apply Hl. unfold isize_max in Hn.
  assert (bytes_ok (sub_list l a b)) as Hok by apply sub_list_bytes, Hl.
  pose proof (sub_list_len l a b ltac:(lia) Hb) as Hlen.
  remember (sub_list l a b) as k eqn:Hk.
  destruct H as [header h payload n pad chk Hh Hchunks Hnm Hdc Hdu Hpad Hpadlen Hchk].
  rewrite !len_app in Hlen. pose proof (len_nonneg payload). pose proof (len_nonneg pad).
  simpl. split_and!; [| | |].
  - destruct Hh. assert (get l a = Some size) as Hg.
    { rewrite <- (Z.add_0_r a). symmetry in Hk. eapply get_sub_list; try exact Hk; try lia. done. }
    congruence.
  - destruct Hh. unfold body. rewrite <- app_comm_cons, len_cons. 
    match goal with |- context [len ?x] => pose proof (len_nonneg x) end. lia.
  - lia.
  - eapply XzChunks.chunks_nonneg; [done|]. rewrite !Forall_app in Hok. naive_solver.
Qed.

Lemma block_sequence_head a f fs k :
  0 ≤ a ≤ index_start → sub_list l a index_start = k → block_sequence check k (f :: fs) →
  ∃ b, a ≤ b ≤ index_start ∧ block check (sub_list l a b) f ∧ sequence b fs.
Proof.
  intros Ha Hs H. inversion H as [|k1 f' k2 fs' Hb Hbs Hk]. subst. symmetry in Hk.
  apply sub_list_app_inv in Hk as (? & Hs1 & Hs2); [|lia..].
  pose proof (len_nonneg k1).
  exists (a + len k1). rewrite Hs1, Hs2. split_and!; (done || lia).
Qed.

Lemma block_sequence_nil a : 0 ≤ a ≤ index_start → sequence a [] → a = index_start.
Proof.
  intros Ha H. inversion H as [Hs|]. pose proof (sub_list_len l a index_start ltac:(lia) ltac:(lia)) as Hn.
  rewrite <- Hs in Hn. change (len []) with 0 in Hn. lia.
Qed.

Lemma sequence_len a fs : 0 ≤ a ≤ index_start → sequence a fs → a + 8 * len fs ≤ index_start.
Proof.
  revert a. induction fs as [|f fs IH]; intros a Ha Hs; [change (len []) with 0; lia|].
  eapply block_sequence_head in Hs as (b & Hb & Hblock & Hs); [|done..].
  pose proof (block_head a b f ltac:(lia) ltac:(lia) Hblock) as (Hab & _).
  specialize (IH b ltac:(lia) Hs). rewrite len_cons. lia.
Qed.

Lemma walk_blocks_complete fuel max_blocks max_dict a n largest fs :
  0 ≤ a ≤ index_start → index_start - a ≤ Z.of_nat fuel → sequence a fs →
  n + len fs ≤ max_blocks ≤ u64_max → Forall (λ f, dictionary f ≤ max_dict) fs →
  walk_blocks fuel l index_start check max_blocks max_dict a n largest =
    Ok (index_start, n + len fs, largest_of largest fs).
Proof.
  revert fuel a n largest. induction fs as [|f fs IH]; intros fuel a n largest Ha Hfuel Hs Hmax Hdict.
  { apply block_sequence_nil in Hs as ->; [|done]. rewrite len_nil, Z.add_0_r.
    destruct fuel; simpl; by rewrite Z.ltb_irrefl. }
  eapply block_sequence_head in Hs as (b & Hb & Hblock & Hs); [|done..].
  pose proof (block_head a b f ltac:(lia) ltac:(lia) Hblock) as (Hab & Hg & _).
  apply Forall_cons in Hdict as [Hd Hdict]. rewrite len_cons in *. pose proof (len_nonneg fs).
  destruct fuel as [|fuel]; [lia|]. cbn [walk_blocks].
  rewrite (proj2 (Z.ltb_lt a index_start)) by lia. cbn [negb].
  eapply Ok_bind; [apply fail_if_false; by rewrite bool_decide_eq_false_2|].
  eapply Ok_bind; [apply need_is, checked_add_Some; split; [done|lia]|].
  eapply Ok_bind; [apply fail_if_false, Z.ltb_ge; lia|].
  eapply Ok_bind; [apply (actual_block_complete l Hl check Hcheck a b); (done || lia)|].
  eapply Ok_bind; [apply fail_if_false, Z.ltb_ge; lia|].
  rewrite IH by (done || simpl; lia). do 3 f_equal. lia.
Qed.

Notation records fs := (concat (map record_bytes fs)).
Notation storable fs := (Forall (λ f, content f < 2 ^ 63) fs).

Lemma check_records_sound fs e a c :
  0 ≤ a ≤ index_start → sequence a fs → 0 ≤ c ≤ e → e ≤ len l →
  returns_with (λ '(a', c'), a' = index_start ∧ c ≤ c' ≤ e ∧ storable fs ∧
      sub_list l c c' = records fs)
    (check_records (length fs) l index_start e check a c).
Proof.
  revert a c. induction fs as [|f fs IH]; intros a c Ha Hs Hc He; simpl.
  { apply block_sequence_nil in Hs as ->; [|done].
    split_and!; try done; [lia..|]. by rewrite sub_list_nil by lia. }
  eapply block_sequence_head in Hs as (b & Hb & Hblock & Hs); [|done..].
  eapply returns_with_bind; [apply parse_vli_sound; (done || lia)|].
  intros [u c1] (Hc1 & Hu & Hs1).
  eapply returns_with_bind; [apply parse_vli_sound; (done || lia)|].
  intros [n c2] (Hc2 & Hn & Hs2). parse_step.
  rewrite (actual_block_complete l Hl check Hcheck a b index_start f) by (done || lia). simpl.
  parse_step. subst u n.
  eapply returns_with_mono; [|apply (IH b); (done || lia)].
  intros [a' c'] (-> & Hc' & Hst & Hs'). split_and!; try done; [lia..| |].
  - constructor; [by destruct Hn|done].
  - unfold record_bytes at 1. rewrite (sub_list_split l c c2), (sub_list_split l c c1) by lia.
    by rewrite Hs1, Hs2, Hs'.
Qed.

Lemma check_records_complete fs e a c c' :
  0 ≤ a ≤ index_start → sequence a fs → 0 ≤ c ≤ c' → c' ≤ e → e ≤ len l → storable fs →
  sub_list l c c' = records fs →
  check_records (length fs) l index_start e check a c = Ok (index_start, c').
Proof.
  revert a c. induction fs as [|f fs IH]; intros a c Ha Hs Hc Hc' He Hst Hrec.
  { apply block_sequence_nil in Hs as ->; [|done]. simpl. do 2 f_equal.
    pose proof (sub_list_len l c c' ltac:(lia) ltac:(lia)) as Hn. rewrite Hrec in Hn.
    change (len _) with 0 in Hn. lia. }
  eapply block_sequence_head in Hs as (b & Hb & Hblock & Hs); [|done..].
  pose proof (block_head a b f ltac:(lia) ltac:(lia) Hblock) as (Hab & Hg & Hu & Hn).
  apply Forall_cons in Hst as [Hf Hst]. cbn [map concat] in Hrec. unfold record_bytes at 1 in Hrec.
  rewrite <- (assoc_L (++)) in Hrec.
  pose proof (vli_len (unpadded f) ltac:(lia)). pose proof (vli_len (content f) ltac:(lia)).
  apply sub_list_app_inv in Hrec as (Hx1 & Hs1 & Hrec); [|lia..].
  apply sub_list_app_inv in Hrec as (Hx2 & Hs2 & Hrec); [|lia..].
  cbn [length check_records].
  eapply Ok_bind; [eapply parse_vli_complete; [done| | | | |exact Hs1]; unfold is_vli; lia|].
  cbv beta iota.
  eapply Ok_bind; [eapply parse_vli_complete; [done| | | | |exact Hs2]; unfold is_vli; lia|].
  cbv beta iota.
  eapply Ok_bind; [apply fail_if_false, Z.eqb_neq; lia|].
  eapply Ok_bind; [apply (actual_block_complete l Hl check Hcheck a b); (done || lia)|].
  cbv beta iota. cbn [next unpadded_bytes uncompressed_bytes].
  eapply Ok_bind; [apply fail_if_false; by rewrite !Z.eqb_refl|].
  apply IH; (done || lia).
Qed.

End Walk.
End XzWalk.

(** ** The whole preflight *)

Module XzTheorems.
Import Xz XzFormat XzVli XzChunks XzHeader XzBlock XzFooter XzWalk.

(** What an accepted attachment is: a stream within the three limits, reported
    by its block count, its largest dictionary and the size of its index. *)
Definition accepted (bytes : list Z) (max_blocks max_index max_dict : Z) (s : XzSummary) : Prop :=
  ∃ fs, stream bytes fs (index_bytes s) ∧
    blocks s = len fs ∧ len fs ≤ max_blocks ∧
    index_bytes s ≤ max_index ∧
    Forall (λ f, dictionary f ≤ max_dict) fs ∧
    largest_dictionary_bytes s = largest_of 0 fs.

Lemma preflight_sound bytes max_blocks max_index max_dict :
  slice_ok bytes → 0 ≤ max_blocks →
  returns_with (accepted bytes max_blocks max_index max_dict)
    (preflight_xz bytes max_blocks max_index max_dict).
Proof.
  intros Hl Hmb. destruct (decide (24 ≤ len bytes)) as [Hlen|Hlen].
  2:{ unfold preflight_xz, locate_index, STREAM_HEADER_BYTES, STREAM_FOOTER_BYTES.
      by rewrite (proj2 (Z.ltb_lt _ _)) by lia. }
  unfold preflight_xz, STREAM_HEADER_BYTES.
  eapply returns_with_bind; [by apply locate_index_sound|].
  intros [[[check fst] size] start] (Hst & Hsz & Hmax & Hsum & -> & Hcheck & flags & Hh & Hf).
  cbv beta iota. parse_step; [lia|]. set (ic := len bytes - 12 - 4) in *.
  parse_step; [lia|]. parse_step; [lia|].
  eapply returns_with_bind; [apply validate_crc32_returns|intros [] Hicrc; cbv beta in Hicrc].
  eapply returns_with_bind; [apply walk_blocks_sound; unfold len in *; (done || lia)|].
  intros [[a n] largest] (-> & fs & Hfs & -> & Hn & Hdict & ->). cbv beta iota.
  parse_step. parse_step.
  eapply returns_with_bind; [apply (cursor_add_returns bytes Hl); lia|intros ? ->].
  eapply returns_with_bind; [apply parse_vli_sound; (done || lia)|].
  intros [count c] (Hc & Hcount & Hs). cbv beta iota. parse_step. parse_step. subst count.
  replace (Z.to_nat (0 + len fs)) with (length fs) by (unfold len; lia).
  eapply returns_with_bind; [apply (check_records_sound bytes Hl check Hcheck start); (done || lia)|].
  intros [a c'] (-> & Hc' & Hstore & Hrec). cbv beta iota. parse_step. parse_step; [lia|].
  parse_step. apply existsb_nonzero in H3. parse_step.
  exists fs. cbn [blocks index_bytes largest_dictionary_bytes]. split_and!; try done; try lia.
  rewrite Z.add_0_l in Hs.
  destruct Hh as (hcrc & Hs0 & Hcrc0 & Hcs), Hf as (fcrc & backward & Hs1 & Hbn & Hfcrc & Hsize).
  assert (sub_list bytes start ic = 0 :: vli (len fs) ++ concat (map record_bytes fs) ++ sub_list bytes c' ic) as Hindex.
  { rewrite (sub_list_cons bytes start 0), (sub_list_split bytes (start + 1) c),
      (sub_list_split bytes c c') by (done || lia). by rewrite Hs, Hrec. }
  rewrite Hindex in Hicrc.
  assert (size = len ((0 :: vli (len fs) ++ concat (map record_bytes fs) ++ sub_list bytes c' ic) ++
                      sub_list bytes ic (len bytes - 12))) as Hsz'.
  { rewrite <- Hindex, <- sub_list_split, sub_list_len by lia. lia. }
  assert (bytes = sub_list bytes 0 12 ++ sub_list bytes 12 start ++
    (sub_list bytes start ic ++ sub_list bytes ic (len bytes - 12)) ++
    sub_list bytes (len bytes - 12) (len bytes)) as Hbytes.
  { rewrite <- !sub_list_split by lia. by rewrite sub_list_all. }
  rewrite Hs0, Hs1, Hindex in Hbytes. rewrite Hsz'.
  set (pad := sub_list bytes c' ic) in *. set (icrc := sub_list bytes ic (len bytes - 12)) in *.
  assert (len icrc = 4) by (unfold icrc; rewrite sub_list_len; lia).
  clearbody pad icrc. rewrite Hbytes. eapply stream_intro; try done. lia.
Qed.

Lemma header_len flags crc : len crc = 4 → len (XZ_MAGIC ++ [0; flags] ++ crc) = 12.
Proof. intros H. rewrite !len_app, H. done. Qed.

Lemma preflight_complete bytes max_blocks max_index max_dict s :
  slice_ok bytes → 0 ≤ max_blocks ≤ u64_max → accepted bytes max_blocks max_index max_dict s →
  preflight_xz bytes max_blocks max_index max_dict = Ok s.
Proof.
  intros Hl Hmb (fs & Hstream & Hblocks & Hcount & Hindex & Hdict & Hlargest).
  destruct s as [sb sl si]. cbn [blocks index_bytes largest_dictionary_bytes] in *. subst sb sl.
  remember bytes as l eqn:Hbytes in Hstream.
  destruct Hstream as [flags hcrc check body fs pad icrc backward fcrc index
    Hhcrc Hcs Hbody Hstore Hpad Hicrc Hsize Hbn Hfcrc].
  destruct (check_size_flags _ _ Hcs) as (_ & _ & Hcheck).
  pose proof (proj1 Hhcrc) as Hhn. pose proof (proj1 Hicrc) as Hin. pose proof (proj1 Hfcrc) as Hfn.
  set (size := len (index ++ icrc)) in *.
  set (footer := fcrc ++ backward ++ [0; flags] ++ [0x59; 0x5A]) in *.
  assert (len footer = 12) as Hftn by (unfold footer; rewrite !len_app, Hfn, Hbn; done).
  pose proof (len_nonneg body). assert (0 ≤ size) by apply len_nonneg.
  assert (5 ≤ size) as Hsize5.
  { unfold size, index. rewrite len_app, len_cons, Hin.
    match goal with |- context [1 + len ?x] => pose proof (len_nonneg x) end. lia. }
  pose proof (len_nonneg bytes).
  pose proof (sub_list_all bytes) as Hall. rewrite <- Hbytes in Hall at 3.
  apply sub_list_app_inv in Hall as (Hx1 & Hs1 & Hall); [|lia..].
  rewrite header_len in * by done. change (0 + 12) with 12 in *.
  apply sub_list_app_inv in Hall as (Hx2 & Hs2 & Hall); [|lia..]. set (start := 12 + len body) in *.
  apply sub_list_app_inv in Hall as (Hx3 & Hs3 & Hs4); [|lia..]. fold size in Hx3, Hs3, Hs4.
  assert (start + size = len bytes - 12) as Hend.
  { pose proof (sub_list_len bytes (start + size) (len bytes)) as Hn. rewrite Hs4, Hftn in Hn. lia. }
  rewrite Hend in Hs3, Hs4. set (fst := len bytes - 12) in *.
  apply sub_list_app_inv in Hs3 as (Hx5 & Hs5 & Hs6); [|lia..].
  set (ic := start + len index) in *.
  assert (ic = fst - 4) as Hic by (unfold size in Hend; rewrite len_app, Hin in Hend; lia).
  assert (len bytes ≤ isize_max) as Hn by apply Hl. unfold isize_max in Hn.
  rewrite <- Hs2 in Hbody.
  pose proof (sequence_len bytes Hl check Hcheck start ltac:(lia) 12 fs ltac:(lia) Hbody).
  assert (is_vli (len fs)) as Hvli by (pose proof (len_nonneg fs); unfold is_vli; lia).
  pose proof (vli_len (len fs) (len_nonneg fs)).
  pose proof Hs5 as Hindexs. unfold index in Hs5.
  apply (sub_list_app_inv bytes start ic [0]) in Hs5 as (Hx7 & Hs7 & Hs5); [|lia..].
  change (start + len [0]) with (start + 1) in *.
  apply sub_list_app_inv in Hs5 as (Hx8 & Hs8 & Hs5); [|lia..]. set (c := start + 1 + len (vli (len fs))) in *.
  pose proof (len_nonneg (concat (map record_bytes fs))). pose proof (len_nonneg pad).
  apply sub_list_app_inv in Hs5 as (Hx9 & Hs9 & Hs10); [|lia..].
  unfold preflight_xz, STREAM_HEADER_BYTES.
  eapply Ok_bind; [apply (locate_index_complete bytes Hl ltac:(lia) flags check size start)|].
  { exists hcrc. by rewrite Hs1. }
  { exists fcrc, backward. fold fst. by rewrite Hs4. }
  { lia. }
  { lia. }
  { done. }
  { done. }
  fold fst. cbv beta iota.
  eapply Ok_bind; [by apply (usize_sub_Ok _ _ ic); lia|].
  eapply Ok_bind; [by apply slice_Ok; split; [lia|reflexivity]|].
  eapply Ok_bind; [by apply slice_Ok; split; [lia|reflexivity]|].
  rewrite Hindexs, Hs6. eapply Ok_bind; [by apply validate_crc32_complete|].
  eapply Ok_bind; [by apply (walk_blocks_complete bytes Hl check Hcheck); unfold len in *; (done || lia)|].
  cbv beta iota.
  eapply Ok_bind; [apply fail_if_false; by rewrite Z.eqb_refl|].
  eapply Ok_bind.
  { apply fail_if_false. rewrite bool_decide_eq_true_2; [done|].
    rewrite <- (Z.add_0_r start). by apply (get_sub_list bytes start (start + 1) 0 0 [0]); try lia. }
  eapply Ok_bind; [apply usize_add_Ok; split; [done|unfold usize_max, u64_max; lia]|].
  eapply Ok_bind; [by apply (parse_vli_complete bytes Hl _ c ic (len fs)); (done || lia)|].
  cbv beta iota.
  eapply Ok_bind; [apply fail_if_false, Z.ltb_ge; lia|].
  eapply Ok_bind; [apply fail_if_false; by rewrite Z.eqb_refl|].
  replace (Z.to_nat (len fs)) with (length fs) by (unfold len; lia).
  eapply Ok_bind; [eapply (check_records_complete bytes Hl check Hcheck start); try exact Hs9; (done || lia)|].
  cbv beta iota.
  eapply Ok_bind; [apply fail_if_false; by rewrite Z.eqb_refl|].
  eapply Ok_bind; [by apply slice_Ok; split; [lia|reflexivity]|].
  eapply Ok_bind; [apply fail_if_false; by rewrite Hs10; apply existsb_nonzero|].
  done.
Qed.

(** ** The checksum *)

(** The inverse of a round: the top bit of the result is the bit shifted out. *)
Definition crc_unround (r : Z) : Z :=
  if 2 ^ 31 <=? r then 2 * Z.lxor r 0xedb88320 + 1 else 2 * r.

Lemma lxor_bound a b n : 0 ≤ n → 0 ≤ a < 2 ^ n → 0 ≤ b < 2 ^ n → 0 ≤ Z.lxor a b < 2 ^ n.
Proof.
  intros Hn Ha Hb. split; [by apply Z.lxor_nonneg; lia|].
  destruct (decide (Z.lxor a b = 0)) as [->|]; [lia|].
  assert (0 ≤ Z.lxor a b) by (apply Z.lxor_nonneg; lia).
  destruct (decide (a = 0)) as [->|]; [rewrite Z.lxor_0_l; lia|].
  destruct (decide (b = 0)) as [->|]; [rewrite Z.lxor_0_r; lia|].
  apply Z.log2_lt_pow2; [lia|]. eapply Z.le_lt_trans; [apply Z.log2_lxor; lia|].
  apply Z.max_lub_lt; apply Z.log2_lt_pow2; lia.
Qed.

Lemma crc_round_cases v :
  0 ≤ v < 2 ^ 32 →
  crc_round v = if Z.odd v then Z.lxor (v / 2) 0xedb88320 else v / 2.
Proof.
  intros Hv. unfold crc_round. rewrite Z.shiftr_div_pow2 by lia. change (2 ^ 1) with 2.
  assert (Z.land v 1 = v mod 2) as -> by (change 1 with (Z.ones 1); by rewrite Z.land_ones).
  rewrite Zmod_odd. destruct (Z.odd v); [done|]. by rewrite Z.land_0_r, Z.lxor_0_r.
Qed.

Lemma crc_round_ok v : 0 ≤ v < 2 ^ 32 → 0 ≤ crc_round v < 2 ^ 32.
Proof.
  intros Hv. rewrite crc_round_cases by done.
  assert (0 ≤ v / 2 < 2 ^ 31) by (split; [apply Z.div_pos; lia|apply Z.div_lt_upper_bound; lia]).
  case_match; [apply lxor_bound|]; lia.
Qed.

Lemma crc_round_inv v : 0 ≤ v < 2 ^ 32 → crc_unround (crc_round v) = v.
Proof.
  intros Hv. rewrite crc_round_cases by done.
  assert (0 ≤ v / 2 < 2 ^ 31) as Hh by (split; [apply Z.div_pos; lia|apply Z.div_lt_upper_bound; lia]).
  pose proof (Z.div_mod v 2 ltac:(lia)) as Hdm. rewrite Zmod_odd in Hdm. unfold crc_unround.
  destruct (Z.odd v).
  - rewrite (proj2 (Z.leb_le _ _)).
    + rewrite Z.lxor_assoc, Z.lxor_nilpotent, Z.lxor_0_r. lia.
    + assert (0 ≤ Z.lxor (v / 2) 0xedb88320) by (apply Z.lxor_nonneg; lia).
      apply Z.nlt_ge. intros Hlt.
      assert (Z.testbit (Z.lxor (v / 2) 0xedb88320) 31 = false) as Hbit.
      { rewrite <- (Z.mod_small _ (2 ^ 31) (conj H Hlt)). by apply Z.mod_pow2_bits_high. }
      rewrite Z.lxor_spec, <- (Z.mod_small _ (2 ^ 31) Hh), Z.mod_pow2_bits_high in Hbit by lia.
      by vm_compute in Hbit.
  - rewrite (proj2 (Z.leb_gt _ _)) by lia. lia.
Qed.

Lemma crc_byte_ok v b : 0 ≤ v < 2 ^ 32 → is_byte b → 0 ≤ crc_byte v b < 2 ^ 32.
Proof.
  intros Hv Hb. unfold crc_byte. apply Nat.iter_invariant; [by intros ??; apply crc_round_ok|].
  apply lxor_bound; unfold is_byte in *; lia.
Qed.

Lemma iter_round_inj n v w :
  0 ≤ v < 2 ^ 32 → 0 ≤ w < 2 ^ 32 → Nat.iter n crc_round v = Nat.iter n crc_round w → v = w.
Proof.
  intros Hv Hw. induction n as [|n IH]; [done|]. simpl. intros Heq. apply IH.
  assert (∀ u, 0 ≤ u < 2 ^ 32 → 0 ≤ Nat.iter n crc_round u < 2 ^ 32) as Hok.
  { intros u Hu. apply Nat.iter_invariant; [|done]. by intros ??; apply crc_round_ok. }
  rewrite <- (crc_round_inv (Nat.iter n crc_round v)), Heq, crc_round_inv by auto. done.
Qed.

Lemma crc_byte_inj v w b c :
  0 ≤ v < 2 ^ 32 → 0 ≤ w < 2 ^ 32 → is_byte b → is_byte c →
  crc_byte v b = crc_byte w c → Z.lxor v b = Z.lxor w c.
Proof. intros ????. apply iter_round_inj; apply lxor_bound; unfold is_byte in *; lia. Qed.

Lemma crc_bytes_inj k v w :
  bytes_ok k → 0 ≤ v < 2 ^ 32 → 0 ≤ w < 2 ^ 32 →
  foldl crc_byte v k = foldl crc_byte w k → v = w.
Proof.
  intros Hk. revert v w. induction Hk as [|b k Hb _ IH]; intros v w Hv Hw; simpl; [done|].
  intros Heq%IH; [|by apply crc_byte_ok..].
  apply crc_byte_inj in Heq; [|done..].
  rewrite <- (Z.lxor_0_r v), <- (Z.lxor_nilpotent b), <- Z.lxor_assoc, Heq.
  by rewrite Z.lxor_assoc, Z.lxor_nilpotent, Z.lxor_0_r.
Qed.

Lemma crc_bytes_ok k v : bytes_ok k → 0 ≤ v < 2 ^ 32 → 0 ≤ foldl crc_byte v k < 2 ^ 32.
Proof.
  intros Hk. revert v. induction Hk as [|b k Hb _ IH]; intros v Hv; simpl; [done|].
  by apply IH, crc_byte_ok.
Qed.

(** ** Properties *)

(** The preflight returns on every input: whatever the bytes and the
    limits, it yields a summary or one of its own errors. No index or slice is
    out of range, no [usize] arithmetic overflows, and the chunk loop and the
    block loop come to an end. *)
Theorem xz_preflight_returns (bytes : list Z) (max_blocks max_index max_dict : Z) :
  slice_ok bytes → 0 ≤ max_blocks →
  returns (preflight_xz bytes max_blocks max_index max_dict).
Proof.
  intros Hl Hmb. eapply returns_with_returns. by apply preflight_sound.
Qed.

(** C2: The preflight accepts exactly the single-stream XZ files whose block
    count, index size and dictionaries are within the limits, and its summary
    states those three of the real blocks: an index that lies about a block, a
    dictionary hidden in a block the index omits, or a byte outside the grammar
    is never accepted, and no well-formed file within the limits is refused. *)
Theorem xz_preflight_accepts_exactly_streams
    (bytes : list Z) (max_blocks max_index max_dict : Z) (s : XzSummary) :
  slice_ok bytes → 0 ≤ max_blocks ≤ u64_max →
  preflight_xz bytes max_blocks max_index max_dict = Ok s ↔
  accepted bytes max_blocks max_index max_dict s.
Proof.
  intros Hl Hmb. split.
  - intros Heq. pose proof (preflight_sound bytes max_blocks max_index max_dict Hl ltac:(lia)) as H.
    by rewrite Heq in H.
  - by apply preflight_complete.
Qed.

(** [parse_vli] reads a value exactly from its shortest encoding: it
    succeeds with [v] and stops at [c'] just when the bytes from the cursor to
    [c'] are the canonical encoding of a 63-bit [v]. *)
Theorem xz_vli_roundtrip (l : list Z) (c e v c' : Z) :
  slice_ok l → 0 ≤ c → e ≤ len l →
  parse_vli l c e = Ok (v, c') ↔
  c < c' ≤ e ∧ is_vli v ∧ sub_list l c c' = vli v.
Proof.
  intros Hl Hc He. split.
  - intros Heq. pose proof (parse_vli_sound l Hl c e Hc He) as H. by rewrite Heq in H.
  - intros (Hc' & Hv & Hs). apply parse_vli_complete; (done || lia).
Qed.

(** The chunk scan finds exactly the LZMA2 chunk sequence that starts at
    its cursor: it stops just behind the end marker, with the length the chunks
    decode to, and refuses every byte string that is not such a sequence. *)
Theorem xz_scan_finds_chunks (l : list Z) (start e stop n : Z) :
  slice_ok l → 0 ≤ start ≤ e → e ≤ len l →
  scan_lzma2_chunks l start e = Ok (stop, n) ↔
  start < stop ≤ e ∧ n ≤ u64_max ∧ chunks false false (sub_list l start stop) n.
Proof.
  intros Hl Hc He. split.
  - intros Heq. pose proof (scan_lzma2_chunks_sound l Hl start e Hc He) as H. by rewrite Heq in H.
  - intros (Hc' & Hn & Hk). apply scan_lzma2_chunks_complete; (done || lia).
Qed.

(** The checksum detects every change of a single byte: where a field
    validates one content, it refuses the content with one byte changed. *)
Theorem xz_crc_detects_byte_change (pre post field : list Z) (b b' : Z) (c m : string) :
  bytes_ok pre → bytes_ok post → is_byte b → is_byte b' → b ≠ b' →
  validate_crc32 (pre ++ b :: post) field c m = Ok tt →
  validate_crc32 (pre ++ b' :: post) field c m = Err (Fail (malformed c m)).
Proof.
  intros Hpre Hpost Hb Hb' Hne Hv.
  pose proof (validate_crc32_returns (pre ++ b :: post) field c m) as Hr. rewrite Hv in Hr.
  destruct Hr as [Hn Hc]. unfold validate_crc32.
  rewrite (fail_if_false (negb (len field =? 4))) by (by rewrite Hn). simpl.
  assert (crc32 (pre ++ b' :: post) ≠ le_value field) as Hcrc.
  { rewrite Hc. unfold crc32. rewrite !foldl_app. simpl. intros Heq.
    assert (0 ≤ foldl crc_byte u32_max pre < 2 ^ 32) as Hok by (by apply crc_bytes_ok).
    apply (f_equal (λ x, u32_max - x)) in Heq. rewrite !(Z.sub_sub_distr u32_max), !Z.sub_diag, !Z.add_0_l in Heq.
    apply crc_bytes_inj in Heq; [|done|by apply crc_byte_ok..].
    apply crc_byte_inj in Heq; [|done..].
    apply (f_equal (Z.lxor (foldl crc_byte u32_max pre))) in Heq.
    rewrite <- !Z.lxor_assoc, !Z.lxor_nilpotent, !Z.lxor_0_l in Heq. done. }
  by rewrite (proj2 (Z.eqb_neq _ _) Hcrc).
Qed.

(** ** Witnesses *)

(** A one-block file, as the [xz] tool writes it. *)
Definition sample : list Z :=
  [253; 55; 122; 88; 90; 0; 0; 1; 105; 34; 222; 54; 2; 0; 33; 1; 22; 0; 0; 0; 116; 47; 229; 163; 224; 0; 22; 0; 11; 93; 0; 52; 25; 73; 238; 141; 233; 86; 10; 181; 224; 0; 0; 0; 227; 81; 61; 141; 0; 1; 35; 23; 141; 71; 252; 29; 144; 66; 153; 13; 1; 0; 0; 0; 0; 1; 89; 90].

Definition sample_summary : XzSummary :=
  {| blocks := 1; largest_dictionary_bytes := 2 ^ 23; index_bytes := 8 |}.

Lemma xz_preflight_returns_witness :
  returns (preflight_xz sample 10 1000 (2 ^ 30)) ∧
  preflight_xz sample 10 1000 (2 ^ 30) = Ok sample_summary.
Proof.
  assert (slice_ok sample) as Hs by (apply slice_ok_check; vm_compute; reflexivity).
  split; [|vm_compute; reflexivity].
  apply (xz_preflight_returns sample 10 1000 (2 ^ 30) Hs). lia.
Defined.

Lemma xz_preflight_accepts_exactly_streams_witness :
  accepted sample 10 1000 (2 ^ 30) sample_summary ∧
  ¬ accepted sample 10 1000 (2 ^ 10) sample_summary.
Proof.
  assert (slice_ok sample) as Hs by (apply slice_ok_check; vm_compute; reflexivity).
  assert (0 ≤ 10 ≤ u64_max) as Hm by (unfold u64_max; lia).
  split.
  - apply (xz_preflight_accepts_exactly_streams sample 10 1000 (2 ^ 30) sample_summary Hs Hm).
    vm_compute. reflexivity.
  - intros Ha%(xz_preflight_accepts_exactly_streams sample 10 1000 (2 ^ 10) sample_summary Hs Hm).
    assert (is_ok (preflight_xz sample 10 1000 (2 ^ 10)) = false) as Hf by (vm_compute; reflexivity).
    rewrite Ha in Hf. discriminate Hf.
Defined.

Lemma xz_vli_roundtrip_witness :
  vli 300 = [172; 2] ∧ parse_vli [9; 172; 2; 7] 1 4 = Ok (300, 3).
Proof.
  split; [vm_compute; reflexivity|].
  assert (slice_ok [9; 172; 2; 7]) as Hs by (apply slice_ok_check; vm_compute; reflexivity).
  assert (4 ≤ len [9; 172; 2; 7]) as He by (vm_compute; discriminate).
  apply (xz_vli_roundtrip [9; 172; 2; 7] 1 4 300 3 Hs); [lia|exact He|].
  split; [lia|]. split; [unfold is_vli; lia|vm_compute; reflexivity].
Defined.

Lemma xz_scan_finds_chunks_witness :
  chunks false false [1; 0; 1; 5; 6; 0] 2.
Proof.
  assert (slice_ok [1; 0; 1; 5; 6; 0]) as Hs by (apply slice_ok_check; vm_compute; reflexivity).
  assert (6 ≤ len [1; 0; 1; 5; 6; 0]) as He by (vm_compute; discriminate).
  assert (scan_lzma2_chunks [1; 0; 1; 5; 6; 0] 0 6 = Ok (6, 2)) as Hr by (vm_compute; reflexivity).
  destruct (proj1 (xz_scan_finds_chunks [1; 0; 1; 5; 6; 0] 0 6 6 2 Hs ltac:(lia) He) Hr)
    as (_ & _ & Hk).
  exact Hk.
Defined.

Lemma xz_crc_detects_byte_change_witness :
  validate_crc32 [0; 1] [105; 34; 222; 54] "code" "message" = Ok tt ∧
  validate_crc32 [0; 4] [105; 34; 222; 54] "code" "message" =
    Err (Fail (malformed "code" "message")).
Proof.
  assert (validate_crc32 ([0] ++ 1 :: []) [105; 34; 222; 54] "code" "message" = Ok tt) as Hv
    by (vm_compute; reflexivity).
  split; [exact Hv|].
  apply (xz_crc_detects_byte_change [0] [] [105; 34; 222; 54] 1 4 "code" "message");
    [repeat constructor; unfold is_byte; lia|constructor|unfold is_byte; lia|unfold is_byte; lia|lia|exact Hv].
Defined.

End XzTheorems.
