(* ===== verification/ZipPreflight.v ===== *)
(** * ZipPreflight: ZIP end records and the admitted directory

    Models [attachment-native-inspect/src/zip_preflight.rs]: the bounded search
    for the end record of a ZIP attachment, the checks of the zip64 records, the
    walk over the central directory, and [AdmittedZipCursor], the reader through
    which the [zip] crate builds its metadata.

    - [Zip] holds the parser and the cursor, function for function;
    - [ZipFormat] says what an end record and a central directory are;
    - the theorems say that the parser returns on every input and keeps its
      figures inside the file, that the end record it picks is the only one, that
      the directory walk accepts exactly the declared entries, and that the
      cursor shows its client a file without archive comment and nothing else. *)

From S2P Require Import Prelude Bytes.
Local Open Scope Z_scope.

Module Zip.

Definition EOCD_SIGNATURE : list Z := [0x50; 0x4B; 0x05; 0x06].
Definition ZIP64_EOCD_SIGNATURE : list Z := [0x50; 0x4B; 0x06; 0x06].
Definition ZIP64_LOCATOR_SIGNATURE : list Z := [0x50; 0x4B; 0x06; 0x07].
Definition DIGITAL_SIGNATURE : list Z := [0x50; 0x4B; 0x05; 0x05].
Definition FILE_HEADER_SIGNATURE : list Z := [0x50; 0x4B; 0x01; 0x02].
Definition EOCD_MIN_BYTES : Z := 22.
Definition MAX_ZIP_COMMENT_BYTES : Z := u16_max.

Record ZipDirectorySummary := {
  entries : Z;
  metadata_bytes : Z;
  directory_end : Z;
  relative_directory_start : Z;
  eocd : Z;
  extensible_bytes : Z;
}.

Inductive ZipPreflightError :=
| EndRecordMissing
| EndRecordAmbiguous
| EndRecordTruncated
| MultiDiskUnsupported
| Zip64LocatorMissing
| Zip64RecordInvalid
| DirectoryOutOfBounds
| DirectoryEntryCountMismatch.

Notation zip := (parse ZipPreflightError).

(** [read_u16_le], [read_u32_le], [read_u64_le] : [w] bytes at [offset]. *)
Definition read_le (w : Z) (bytes : list Z) (offset : Z) : option Z :=
  end_ ← checked_add usize_max offset w ;
  k ← get_slice bytes offset end_ ;
  Some (le_value k).
Definition read_u16_le := read_le 2.
Definition read_u32_le := read_le 4.
Definition read_u64_le := read_le 8.

(** [bytes.get(offset..offset.saturating_add(4)) == Some(signature)] *)
Definition signature_at (signature bytes : list Z) (offset : Z) : bool :=
  bool_decide (get_slice bytes offset (saturating_add usize_max offset 4) = Some signature).

(** The filter of [find_eocd]. *)
Definition eocd_candidate (bytes : list Z) (offset : Z) : bool :=
  signature_at EOCD_SIGNATURE bytes offset &&
  match read_u16_le bytes (saturating_add usize_max offset 20) with
  | Some comment_bytes =>
      bool_decide ((checked_add usize_max offset EOCD_MIN_BYTES ≫= λ end_,
                    checked_add usize_max end_ comment_bytes) = Some (len bytes))
  | None => false
  end.

(** The offsets [(earliest..=latest).rev()]. *)
Definition eocd_window (bytes : list Z) : list Z :=
  let earliest := saturating_sub (len bytes)
                    (saturating_add usize_max EOCD_MIN_BYTES MAX_ZIP_COMMENT_BYTES) in
  let latest := saturating_sub (len bytes) EOCD_MIN_BYTES in
  rev (seqZ earliest (latest + 1 - earliest)).

Definition find_eocd (bytes : list Z) : zip Z :=
  fail_if (len bytes <? EOCD_MIN_BYTES) EndRecordMissing ;;
  match List.filter (eocd_candidate bytes) (eocd_window bytes) with
  | [] => Err (Fail EndRecordMissing)
  | [candidate] => Ok candidate
  | _ :: _ :: _ => Err (Fail EndRecordAmbiguous)
  end.

Definition allocation_metadata_bytes (s : ZipDirectorySummary) : Z :=
  saturating_add u64_max (metadata_bytes s) (extensible_bytes s).

Definition start (s : ZipDirectorySummary) : zip Z :=
  metadata ← need (try_from usize_max (metadata_bytes s)) DirectoryOutOfBounds ;
  need (checked_sub (directory_end s) metadata) DirectoryOutOfBounds.

Definition archive_offset (s : ZipDirectorySummary) : zip Z :=
  first ← start s ;
  first ← need (try_from u64_max first) DirectoryOutOfBounds ;
  need (checked_sub first (relative_directory_start s)) DirectoryOutOfBounds.

(** The predicate of the [find] in [zip64_summary]. *)
Definition zip64_candidate (bytes : list Z) (locator eocd_disk position : Z) : bool :=
  signature_at ZIP64_EOCD_SIGNATURE bytes position &&
  bool_decide ((size ← read_u64_le bytes (saturating_add usize_max position 4) ;
                size ← (if 44 <=? size then Some size else None) ;
                size ← try_from usize_max size ;
                end_ ← checked_add usize_max position size ;
                checked_add usize_max end_ 12) = Some locator) &&
  bool_decide (read_u32_le bytes (saturating_add usize_max position 20) = Some eocd_disk) &&
  match read_u64_le bytes (saturating_add usize_max position 32),
        read_u64_le bytes (saturating_add usize_max position 48) with
  | Some entries, Some offset =>
      saturating_add u64_max (saturating_mul u64_max entries 46) offset <=? position
  | _, _ => false
  end.

Definition zip64_summary (bytes : list Z) (eocd_offset : Z) : zip ZipDirectorySummary :=
  locator ← need (checked_sub eocd_offset 20) Zip64LocatorMissing ;
  locator_end ← usize_add locator 4 ;
  fail_if (negb (bool_decide (get_slice bytes locator locator_end = Some ZIP64_LOCATOR_SIGNATURE)))
    Zip64LocatorMissing ;;
  at4 ← usize_add locator 4 ;
  eocd_disk ← need (read_u32_le bytes at4) Zip64LocatorMissing ;
  at8 ← usize_add locator 8 ;
  relative_record_offset ← need (read_u64_le bytes at8) Zip64LocatorMissing ;
  at16 ← usize_add locator 16 ;
  disks ← need (read_u32_le bytes at16) Zip64LocatorMissing ;
  fail_if (negb (eocd_disk =? 0) || negb (disks =? 1)) MultiDiskUnsupported ;;
  earliest ← need (try_from usize_max relative_record_offset) Zip64RecordInvalid ;
  zip64_offset ← need (List.find (zip64_candidate bytes locator eocd_disk)
                         (seqZ earliest (locator - earliest))) Zip64RecordInvalid ;
  at4 ← usize_add zip64_offset 4 ;
  record_payload ← need (read_u64_le bytes at4) Zip64RecordInvalid ;
  fail_if (record_payload <? 44) Zip64RecordInvalid ;;
  at16 ← usize_add zip64_offset 16 ;
  disk ← need (read_u32_le bytes at16) Zip64RecordInvalid ;
  at20 ← usize_add zip64_offset 20 ;
  directory_disk ← need (read_u32_le bytes at20) Zip64RecordInvalid ;
  at24 ← usize_add zip64_offset 24 ;
  entries_on_disk ← need (read_u64_le bytes at24) Zip64RecordInvalid ;
  at32 ← usize_add zip64_offset 32 ;
  entries ← need (read_u64_le bytes at32) Zip64RecordInvalid ;
  at40 ← usize_add zip64_offset 40 ;
  metadata_bytes ← need (read_u64_le bytes at40) Zip64RecordInvalid ;
  at48 ← usize_add zip64_offset 48 ;
  directory_offset ← need (read_u64_le bytes at48) Zip64RecordInvalid ;
  fail_if (negb (disk =? 0) || negb (directory_disk =? 0) || negb (entries_on_disk =? entries))
    MultiDiskUnsupported ;;
  extensible ← usize_sub record_payload 44 ;
  let summary := {| entries := entries; metadata_bytes := metadata_bytes;
                    directory_end := zip64_offset; relative_directory_start := directory_offset;
                    eocd := eocd_offset; extensible_bytes := extensible |} in
  expected ← need (value ← try_from u64_max zip64_offset ;
                   checked_sub value relative_record_offset) DirectoryOutOfBounds ;
  offset ← archive_offset summary ;
  fail_if (negb (offset =? expected)) Zip64RecordInvalid ;;
  Ok summary.

Definition preflight (bytes : list Z) : zip ZipDirectorySummary :=
  eocd ← find_eocd bytes ;
  at4 ← usize_add eocd 4 ;
  disk ← need (read_u16_le bytes at4) EndRecordTruncated ;
  at6 ← usize_add eocd 6 ;
  directory_disk ← need (read_u16_le bytes at6) EndRecordTruncated ;
  at8 ← usize_add eocd 8 ;
  entries_on_disk ← need (read_u16_le bytes at8) EndRecordTruncated ;
  at10 ← usize_add eocd 10 ;
  entries ← need (read_u16_le bytes at10) EndRecordTruncated ;
  at12 ← usize_add eocd 12 ;
  directory_bytes ← need (read_u32_le bytes at12) EndRecordTruncated ;
  at16 ← usize_add eocd 16 ;
  directory_offset ← need (read_u32_le bytes at16) EndRecordTruncated ;
  fail_if (negb (disk =? 0) || negb (directory_disk =? 0) || negb (entries_on_disk =? entries))
    MultiDiskUnsupported ;;
  let uses_zip64 := (entries =? u16_max) || (directory_bytes =? u32_max)
                    || (directory_offset =? u32_max) in
  summary ← (if uses_zip64 then zip64_summary bytes eocd
             else Ok {| entries := entries; metadata_bytes := directory_bytes;
                        directory_end := eocd; relative_directory_start := directory_offset;
                        eocd := eocd; extensible_bytes := 0 |}) ;
  directory_bytes ← need (try_from usize_max (metadata_bytes summary)) DirectoryOutOfBounds ;
  fail_if (directory_end summary <? directory_bytes) DirectoryOutOfBounds ;;
  Ok summary.

(** The [while] loop of [validate_directory], with fuel; it returns [count]. *)
Fixpoint directory_loop (fuel : nat) (bytes : list Z) (summary : ZipDirectorySummary)
    (position count : Z) : zip Z :=
  if negb (position <? directory_end summary) then Ok count
  else match fuel with
  | O => Err OutOfFuel
  | S fuel =>
      if signature_at DIGITAL_SIGNATURE bytes position then
        at4 ← usize_add position 4 ;
        length ← need (read_u16_le bytes at4) DirectoryOutOfBounds ;
        extent ← usize_add 6 length ;
        position ← need (checked_add usize_max position extent) DirectoryOutOfBounds ;
        fail_if (negb (position =? directory_end summary)) DirectoryOutOfBounds ;;
        Ok count
      else
        fail_if (negb (signature_at FILE_HEADER_SIGNATURE bytes position)
                 || (directory_end summary <? saturating_add usize_max position 46))
          DirectoryOutOfBounds ;;
        at28 ← usize_add position 28 ;
        name ← need (read_u16_le bytes at28) DirectoryOutOfBounds ;
        at30 ← usize_add position 30 ;
        extra ← need (read_u16_le bytes at30) DirectoryOutOfBounds ;
        at32 ← usize_add position 32 ;
        comment ← need (read_u16_le bytes at32) DirectoryOutOfBounds ;
        extent ← usize_add 46 name ;
        extent ← usize_add extent extra ;
        extent ← usize_add extent comment ;
        position ← need (end_ ← checked_add usize_max position extent ;
                         if end_ <=? directory_end summary then Some end_ else None)
          DirectoryOutOfBounds ;
        count ← usize_add count 1 ;
        fail_if (entries summary <? count) DirectoryEntryCountMismatch ;;
        directory_loop fuel bytes summary position count
  end.

Definition validate_directory (bytes : list Z) (summary : ZipDirectorySummary) : zip unit :=
  position ← start summary ;
  archive_offset summary ;;
  count ← directory_loop (length bytes) bytes summary position 0 ;
  fail_if (negb (count =? entries summary)) DirectoryEntryCountMismatch.

(** ** The admitted cursor *)

(** [std::io::Cursor] over a slice, and the calls of it that are used. *)
Inductive SeekFrom := FromStart (n : Z) | FromEnd (n : Z) | FromCurrent (n : Z).
Inductive IoError := InvalidData (m : string) | InvalidInput (m : string).

#[export] Instance SeekFrom_eq_dec : EqDecision SeekFrom.
Proof. solve_decision. Defined.

(** [cursor.read(&mut output)] : the count, the buffer and the position after. *)
Definition std_read (bytes : list Z) (position : Z) (output : list Z) : Z * list Z * Z :=
  let first := Z.min position (len bytes) in
  let count := Z.min (len output) (len bytes - first) in
  (count, sub_list bytes first (first + count) ++ drop (Z.to_nat count) output, position + count).

Definition seek_error : IoError :=
  InvalidInput "invalid seek to a negative or overflowing position".

(** [base.checked_add_signed(delta)] *)
Definition checked_add_signed (base delta : Z) : option Z :=
  if (0 <=? base + delta) && (base + delta <=? u64_max) then Some (base + delta) else None.

(** [cursor.seek(position)] : the new position. *)
Definition std_seek (bytes : list Z) (position : Z) (target : SeekFrom) : result IoError Z :=
  match target with
  | FromStart n => Ok n
  | FromEnd n => ok_or (checked_add_signed (len bytes) n) seek_error
  | FromCurrent n => ok_or (checked_add_signed position n) seek_error
  end.

(** [AdmittedZipCursor]; [pos] is the position of its inner cursor. The shared
    cell [members_enabled] is an argument of the calls. *)
Record AdmittedZipCursor := {
  pos : Z;
  first : Z;
  last : Z;
  footer : Z;
  parsing : bool;
  signature_probed : bool;
  header_armed : bool;
}.

Definition new (summary : ZipDirectorySummary) : zip AdmittedZipCursor :=
  first ← start summary ;
  Ok {| pos := 0; first := first; last := directory_end summary; footer := eocd summary;
        parsing := false; signature_probed := false; header_armed := false |}.

Definition set_pos (p : Z) (c : AdmittedZipCursor) : AdmittedZipCursor :=
  {| pos := p; first := first c; last := last c; footer := footer c; parsing := parsing c;
     signature_probed := signature_probed c; header_armed := header_armed c |}.
Definition set_parsing (c : AdmittedZipCursor) : AdmittedZipCursor :=
  {| pos := pos c; first := first c; last := last c; footer := footer c; parsing := true;
     signature_probed := signature_probed c; header_armed := header_armed c |}.
Definition set_probed (c : AdmittedZipCursor) : AdmittedZipCursor :=
  {| pos := pos c; first := first c; last := last c; footer := footer c; parsing := parsing c;
     signature_probed := true; header_armed := header_armed c |}.
Definition set_armed (c : AdmittedZipCursor) : AdmittedZipCursor :=
  {| pos := pos c; first := first c; last := last c; footer := footer c; parsing := parsing c;
     signature_probed := signature_probed c; header_armed := true |}.

(** The loop that hides the comment length: for the two bytes of it,
    [if byte >= position && byte - position < count { output[byte - position] = 0 }]. *)
Definition hide_byte (position count byte : Z) (output : list Z) : list Z :=
  if (position <=? byte) && (byte - position <? count)
  then <[Z.to_nat (byte - position) := 0]> output else output.

Definition left_extent : IoError := InvalidData "ZIP directory read left its admitted extent".
Definition outside_directory : IoError :=
  InvalidData "ZIP metadata fallback is outside the admitted directory".

(** [read(&mut self, output)] : the result, the buffer and the cursor after. *)
Definition read (bytes : list Z) (members_enabled : bool) (output : list Z)
    (c : AdmittedZipCursor) : result IoError Z * list Z * AdmittedZipCursor :=
  let position := pos c in
  let c :=
    if negb members_enabled &&
       (header_armed c ||
        (signature_probed c && (pos c =? saturating_add u64_max (first c) 4)))
    then set_parsing c else c in
  if negb members_enabled && parsing c &&
     ((pos c <? first c) || (last c <? saturating_add u64_max (pos c) (len output)))
  then (Err left_extent, output, c)
  else
    let probing := negb members_enabled && negb (parsing c) &&
                   (pos c =? first c) && (len output =? 4) in
    let length :=
      if members_enabled then len output
      else Z.min (len output)
             (saturating_sub (saturating_add u64_max (footer c) 22) position) in
    let '(count, prefix, position') := std_read bytes (pos c) (take (Z.to_nat length) output) in
    let output := prefix ++ drop (Z.to_nat length) output in
    let c := set_pos position' c in
    let output :=
      if members_enabled then output
      else hide_byte position count (footer c + 21) (hide_byte position count (footer c + 20) output) in
    let c :=
      if probing && (count =? 4) && bool_decide (output = FILE_HEADER_SIGNATURE)
      then set_probed c else c in
    (Ok count, output, c).

Definition invalid_metadata_seek : IoError := InvalidInput "Invalid ZIP metadata seek".

(** [u64::try_from(target)] of an [i128]. *)
Definition try_u64 (target : Z) : option Z :=
  if (0 <=? target) && (target <=? u64_max) then Some target else None.

(** [seek(&mut self, position)] : the result and the cursor after. *)
Definition seek (bytes : list Z) (members_enabled : bool) (position : SeekFrom)
    (c : AdmittedZipCursor) : result IoError Z * AdmittedZipCursor :=
  let position :=
    if members_enabled then Ok position
    else match position with
    | FromEnd delta =>
        target ← ok_or (try_u64 (footer c + 22 + delta)) invalid_metadata_seek ;
        Ok (FromStart target)
    | _ => Ok position
    end in
  match position with
  | Err e => (Err e, c)
  | Ok position =>
      let unchanged := match position with
        | FromStart value => value =? pos c
        | FromCurrent value => value =? 0
        | FromEnd _ => false
        end in
      if parsing c && negb members_enabled && negb unchanged then (Err outside_directory, c)
      else
        let c := if signature_probed c && negb (parsing c) &&
                    bool_decide (position = FromStart (first c))
                 then set_armed c else c in
        match std_seek bytes (pos c) position with
        | Err e => (Err e, c)
        | Ok p => (Ok p, set_pos p c)
        end
  end.

End Zip.

(** ** The format *)

Module ZipFormat.
Import Zip.

(** An end record at [p]: its comment runs exactly to the end of the file. *)
Definition is_footer (bytes : list Z) (p : Z) : Prop :=
  0 ≤ p ≤ len bytes ∧ ∃ fixed lo hi comment,
    sub_list bytes p (len bytes) = EOCD_SIGNATURE ++ fixed ++ [lo; hi] ++ comment ∧
    len fixed = 16 ∧ len comment = le_value [lo; hi].

(** A file header of the central directory, with its three variable parts. *)
Definition is_entry (e : list Z) : Prop :=
  ∃ head name extra comment middle tail,
    e = FILE_HEADER_SIGNATURE ++ head ++ name ++ extra ++ comment ++ middle ++ tail ∧
    len head = 24 ∧ len name = 2 ∧ len extra = 2 ∧ len comment = 2 ∧ len middle = 12 ∧
    len tail = le_value name + le_value extra + le_value comment.

(** A digital signature record. *)
Definition is_signature (e : list Z) : Prop :=
  ∃ size data, e = DIGITAL_SIGNATURE ++ size ++ data ∧ len size = 2 ∧ len data = le_value size.

(** A central directory of [n] file headers and at most one signature behind them. *)
Definition directory (k : list Z) (n : Z) : Prop :=
  ∃ es sig, k = concat es ++ sig ∧ len es = n ∧ Forall is_entry es ∧ (sig = [] ∨ is_signature sig).

(** The little-endian field of [w] bytes at [o]. *)
Definition field (bytes : list Z) (o w : Z) : Z := le_value (sub_list bytes o (o + w)).

(** What the end record at [eocd s] says of the central directory. *)
Definition plain_summary (bytes : list Z) (s : ZipDirectorySummary) : Prop :=
  field bytes (eocd s + 8) 2 = entries s ∧ field bytes (eocd s + 10) 2 = entries s ∧
  field bytes (eocd s + 12) 4 = metadata_bytes s ∧
  field bytes (eocd s + 16) 4 = relative_directory_start s ∧
  directory_end s = eocd s ∧ extensible_bytes s = 0.

(** What the zip64 end record at [directory_end s] says, where the end record
    asks for one and the locator in front of the end record points at or before
    it. The record and its extensible data fill the space up to the locator. *)
Definition zip64_record (bytes : list Z) (s : ZipDirectorySummary) : Prop :=
  let r := directory_end s in
  (field bytes (eocd s + 10) 2 = u16_max ∨ field bytes (eocd s + 12) 4 = u32_max ∨
   field bytes (eocd s + 16) 4 = u32_max) ∧
  sub_list bytes (eocd s - 20) (eocd s - 16) = ZIP64_LOCATOR_SIGNATURE ∧
  field bytes (eocd s - 16) 4 = 0 ∧ field bytes (eocd s - 4) 4 = 1 ∧
  sub_list bytes r (r + 4) = ZIP64_EOCD_SIGNATURE ∧
  r + 12 + field bytes (r + 4) 8 = eocd s - 20 ∧
  field bytes (r + 4) 8 = 44 + extensible_bytes s ∧
  field bytes (r + 16) 4 = 0 ∧ field bytes (r + 20) 4 = 0 ∧
  field bytes (r + 24) 8 = entries s ∧ field bytes (r + 32) 8 = entries s ∧
  field bytes (r + 40) 8 = metadata_bytes s ∧
  field bytes (r + 48) 8 = relative_directory_start s ∧
  46 * entries s + relative_directory_start s ≤ r ∧
  (** the prefix in front of the archive, computed in both ways *)
  r - metadata_bytes s - relative_directory_start s = r - field bytes (eocd s - 12) 8 ∧
  field bytes (eocd s - 12) 8 ≤ r.

Definition admitted_summary (bytes : list Z) (s : ZipDirectorySummary) : Prop :=
  is_footer bytes (eocd s) ∧ (∀ q, is_footer bytes q → q = eocd s) ∧
  field bytes (eocd s + 4) 2 = 0 ∧ field bytes (eocd s + 6) 2 = 0 ∧
  (plain_summary bytes s ∨ zip64_record bytes s) ∧
  0 ≤ entries s ≤ u64_max ∧ 0 ≤ metadata_bytes s ≤ directory_end s ∧
  0 ≤ relative_directory_start s ∧ 0 ≤ extensible_bytes s ∧
  directory_end s ≤ eocd s ∧ metadata_bytes s + extensible_bytes s ≤ eocd s.

(** The archive the metadata reader is shown: it ends behind an end record with
    an empty comment. *)
Definition without_comment (bytes : list Z) (footer : Z) : list Z :=
  sub_list bytes 0 (footer + 20) ++ [0; 0].

End ZipFormat.

Module ZipRecords.
Import Zip ZipFormat.

Section Records.
Context (l : list Z) (Hl : slice_ok l).

Lemma len_usize : 0 ≤ len l ∧ len l + 2 ^ 62 ≤ usize_max.
Proof. destruct Hl as [_ Hn]. pose proof (len_nonneg l). unfold isize_max, usize_max, u64_max in *. lia. Qed.

Lemma read_le_Some w o v :
  0 ≤ o → 0 < w < 2 ^ 62 →
  read_le w l o = Some v ↔ o + w ≤ len l ∧ v = le_value (sub_list l o (o + w)).
Proof.
  intros Ho Hw. pose proof len_usize. unfold read_le, mbind, option_bind. split.
  - destruct (checked_add _ _ _) as [e|] eqn:He; [|done]. apply checked_add_Some in He as [-> _].
    destruct (get_slice _ _ _) as [k|] eqn:Hk; [|done]. apply get_slice_Some in Hk as [? ->].
    intros [= <-]. split; [lia|done].
  - intros [? ->]. rewrite (proj2 (checked_add_Some _ _ _ (o + w))) by lia.
    by rewrite (proj2 (get_slice_Some l o (o + w) _)) by (split; [lia|reflexivity]).
Qed.

Lemma read_le_bound w o v : 0 ≤ o → 0 < w < 2 ^ 62 → read_le w l o = Some v → 0 ≤ v < 2 ^ (8 * w).
Proof.
  intros Ho Hw [Hlen ->]%read_le_Some; [|done..].
  pose proof (le_value_bound (sub_list l o (o + w))) as H.
  rewrite sub_list_len in H by lia. replace (8 * w) with (8 * (o + w - o)) by lia.
  apply H, sub_list_bytes, Hl.
Qed.

Lemma signature_at_true signature o :
  0 ≤ o → len signature = 4 →
  signature_at signature l o = true ↔ o + 4 ≤ len l ∧ sub_list l o (o + 4) = signature.
Proof.
  intros Ho Hs. pose proof len_usize. unfold signature_at, saturating_add.
  rewrite bool_decide_eq_true, get_slice_Some. split.
  - intros [Hb ->].
    assert (Z.min usize_max (o + 4) = o + 4) as ->; [lia|]. split; [lia|done].
  - intros [Hb <-]. rewrite Z.min_r by lia. split; [lia|done].
Qed.

Lemma le_value_2 x y : le_value [x; y] = x + 256 * y.
Proof. unfold le_value. simpl. lia. Qed.

Lemma sub_list_two o : 0 ≤ o → o + 2 ≤ len l → ∃ x y, sub_list l o (o + 2) = [x; y].
Proof.
  intros Ho Hn. destruct (get_lt l o) as [x Hx]; [lia|]. destruct (get_lt l (o + 1)) as [y Hy]; [lia|].
  exists x, y. rewrite (sub_list_cons l o x), (sub_list_cons l (o + 1) y), sub_list_nil by (done || lia).
  done.
Qed.

Lemma eocd_candidate_footer p : 0 ≤ p → eocd_candidate l p = true ↔ is_footer l p.
Proof.
  intros Hp. pose proof len_usize. unfold eocd_candidate, is_footer.
  rewrite andb_true_iff, signature_at_true by done. split.
  - intros [[Hn Hsig] Hc].
    destruct (read_u16_le _ _) as [comment|] eqn:Hr; [|done].
    unfold saturating_add in Hr. rewrite Z.min_r in Hr by lia.
    apply read_le_Some in Hr as [Hn20 ->]; [|lia..].
    rewrite bool_decide_eq_true in Hc. unfold mbind, option_bind in Hc.
    destruct (checked_add _ p _) as [e|] eqn:He; [|done].
    apply checked_add_Some in He as [-> _]. apply checked_add_Some in Hc as [Hc _].
    unfold EOCD_MIN_BYTES in Hc. replace (p + 20 + 2) with (p + 22) in * by lia.
    destruct (sub_list_two (p + 20)) as (x & y & Hxy); [lia..|].
    replace (p + 20 + 2) with (p + 22) in Hxy by lia. rewrite Hxy in Hc.
    pose proof (le_value_bound [x; y]) as Hv.
    assert (0 ≤ le_value [x; y]).
    { apply Hv. rewrite <- Hxy. apply sub_list_bytes, Hl. }
    split; [lia|]. exists (sub_list l (p + 4) (p + 20)), x, y, (sub_list l (p + 22) (len l)).
    rewrite <- Hsig, <- Hxy, <- !sub_list_split by lia. split; [done|].
    rewrite !sub_list_len by lia. split; [lia|]. rewrite Hxy. lia.
  - intros [Hpl (fixed & x & y & comment & Hs & Hf & Hc)].
    assert (len (sub_list l p (len l)) = 22 + len comment) as Hlen.
    { rewrite Hs, !len_app, Hf. change (len EOCD_SIGNATURE) with 4. change (len [x; y]) with 2. lia. }
    pose proof (len_nonneg comment). rewrite sub_list_len in Hlen by lia.
    apply sub_list_app_inv in Hs as (_ & Hs1 & Hs); [|lia..]. change (len EOCD_SIGNATURE) with 4 in *.
    apply sub_list_app_inv in Hs as (_ & _ & Hs); [|lia..]. rewrite Hf in Hs.
    apply (sub_list_app_inv l _ _ [x; y]) in Hs as (_ & Hs2 & _); [|lia..].
    change (len [x; y]) with 2 in Hs2. split; [split; [lia|done]|].
    unfold saturating_add. rewrite Z.min_r by lia.
    replace (p + 4 + 16) with (p + 20) in Hs2 by lia.
    unfold read_u16_le. rewrite (proj2 (read_le_Some 2 (p + 20) (le_value [x; y]) ltac:(lia) ltac:(lia))) by (rewrite Hs2; split; [lia|done]).
    apply bool_decide_eq_true. unfold EOCD_MIN_BYTES.
    rewrite (proj2 (checked_add_Some _ _ _ (p + 22))) by lia. cbn [mbind option_bind].
    apply checked_add_Some. lia.
Qed.

Lemma eocd_window_footer p : is_footer l p → p ∈ eocd_window l.
Proof.
  intros [Hpl (fixed & x & y & comment & Hs & Hf & Hc)]. pose proof len_usize.
  assert (len (sub_list l p (len l)) = 22 + len comment) as Hlen.
  { rewrite Hs, !len_app, Hf. change (len EOCD_SIGNATURE) with 4. change (len [x; y]) with 2. lia. }
  rewrite sub_list_len in Hlen by lia. pose proof (len_nonneg comment).
  assert (is_byte x ∧ is_byte y) as [Hx Hy].
  { pose proof (sub_list_bytes l p (len l) (proj1 Hl)) as Hb. rewrite Hs, !Forall_app in Hb.
    destruct Hb as (_ & _ & Hb & _). rewrite !Forall_cons in Hb. naive_solver. }
  rewrite le_value_2 in Hc. unfold is_byte in *.
  unfold eocd_window. rewrite list_elem_of_In, <- in_rev, <- list_elem_of_In, elem_of_seqZ.
  unfold saturating_sub, saturating_add, EOCD_MIN_BYTES, MAX_ZIP_COMMENT_BYTES, u16_max.
  unfold usize_max, u64_max in *. lia.
Qed.

Lemma eocd_window_nonneg p : p ∈ eocd_window l → 0 ≤ p.
Proof.
  unfold eocd_window. rewrite list_elem_of_In, <- in_rev, <- list_elem_of_In, elem_of_seqZ.
  unfold saturating_sub. lia.
Qed.

(** The candidates are the end records, each once. *)
Lemma candidates_footers p :
  p ∈ List.filter (eocd_candidate l) (eocd_window l) ↔ is_footer l p.
Proof.
  rewrite list_elem_of_In, filter_In, <- list_elem_of_In. split.
  - intros [Hw Hc]. apply eocd_candidate_footer in Hc; [done|]. by apply eocd_window_nonneg.
  - intros Hf. split; [by apply eocd_window_footer|].
    apply eocd_candidate_footer; [|done]. destruct Hf as [? _]. lia.
Qed.

Lemma candidates_NoDup : NoDup (List.filter (eocd_candidate l) (eocd_window l)).
Proof.
  rewrite NoDup_ListNoDup. apply List.NoDup_filter. unfold eocd_window.
  apply List.NoDup_rev. rewrite <- NoDup_ListNoDup. apply NoDup_seqZ.
Qed.

Lemma footer_fits p : is_footer l p → 0 ≤ p ∧ p + 22 ≤ len l.
Proof.
  intros [Hpl (fixed & x & y & comment & Hs & Hf & Hc)].
  assert (len (sub_list l p (len l)) = 22 + len comment) as Hlen.
  { rewrite Hs, !len_app, Hf. change (len EOCD_SIGNATURE) with 4. change (len [x; y]) with 2. lia. }
  rewrite sub_list_len in Hlen by lia. pose proof (len_nonneg comment). lia.
Qed.

Lemma find_eocd_cases :
  match find_eocd l with
  | Ok p => is_footer l p ∧ ∀ q, is_footer l q → q = p
  | Err (Fail EndRecordMissing) => ∀ q, ¬ is_footer l q
  | Err (Fail EndRecordAmbiguous) => ∃ p q, p ≠ q ∧ is_footer l p ∧ is_footer l q
  | Err _ => False
  end.
Proof.
  unfold find_eocd, EOCD_MIN_BYTES. destruct (len l <? 22) eqn:Hn; simpl.
  { bool_prop. intros q Hq%footer_fits. lia. }
  pose proof candidates_NoDup as Hnd. pose proof candidates_footers as Hc.
  destruct (List.filter _ _) as [|p [|q k]].
  - intros q Hq%Hc. by apply elem_of_nil in Hq.
  - split; [apply Hc; by left|]. intros q Hq%Hc. by apply list_elem_of_singleton in Hq.
  - exists p, q. split_and!; [|apply Hc; by left|apply Hc; by right; left].
    intros ->. apply NoDup_cons in Hnd as [Hnd _]. apply Hnd. by left.
Qed.

Lemma read_returns w o e :
  0 ≤ o → 0 < w < 2 ^ 62 →
  returns_with (λ v, o + w ≤ len l ∧ v = field l o w ∧ 0 ≤ v < 2 ^ (8 * w))
    (need (E:=ZipPreflightError) (read_le w l o) e).
Proof.
  intros Ho Hw. eapply returns_with_mono; [|apply need_returns]. intros v Hv. cbv beta in Hv.
  pose proof (read_le_bound w o v Ho Hw Hv). apply read_le_Some in Hv as [? ->]; [|done..].
  split_and!; try done; lia.
Qed.

Lemma find_eocd_sound :
  returns_with (λ p, is_footer l p ∧ ∀ q, is_footer l q → q = p) (find_eocd l).
Proof. pose proof find_eocd_cases as H. by destruct (find_eocd l) as [|[| |[]]]. Qed.

Lemma usize_add_small a b :
  a ≤ len l → b < 2 ^ 62 → returns_with (λ c, c = a + b) (usize_add (E:=ZipPreflightError) a b).
Proof. intros. pose proof len_usize. apply usize_add_returns. lia. Qed.

Lemma zip64_candidate_true locator disk q :
  0 ≤ q → locator ≤ len l → zip64_candidate l locator disk q = true →
  sub_list l q (q + 4) = ZIP64_EOCD_SIGNATURE ∧ q + 12 + field l (q + 4) 8 = locator ∧
  44 ≤ field l (q + 4) 8 ∧
  46 * field l (q + 32) 8 + field l (q + 48) 8 ≤ q.
Proof.
  intros Hq Hloc. pose proof len_usize. unfold zip64_candidate.
  rewrite !andb_true_iff, !bool_decide_eq_true, signature_at_true by done.
  intros [[[[Hn Hsig] Hsize] _] Hfields].
  unfold saturating_add at 1 2 in Hfields. unfold saturating_add in Hsize.
  rewrite !Z.min_r in * by lia. unfold mbind, option_bind in Hsize.
  destruct (read_u64_le l (q + 4)) as [size|] eqn:Hr; [|done].
  apply read_le_Some in Hr as [_ Hr]; [|lia..]. fold (field l (q + 4) 8) in Hr. subst size.
  destruct (44 <=? _) eqn:H44; [|done]. bool_prop.
  destruct (try_from _ _) as [size|] eqn:Ht; [|done]. apply try_from_Some in Ht as [-> _].
  destruct (checked_add _ q _) as [e|] eqn:He; [|done].
  apply checked_add_Some in He as [-> _]. apply checked_add_Some in Hsize as [Hsize _].
  assert (q + 32 ≤ len l) by lia.
  destruct (read_u64_le l (q + 32)) as [n|] eqn:Hr; [|done].
  pose proof (read_le_bound 8 (q + 32) n ltac:(lia) ltac:(lia) Hr).
  apply read_le_Some in Hr as [_ Hr]; [|lia..]. fold (field l (q + 32) 8) in Hr. subst n.
  destruct (read_u64_le l (q + 48)) as [n|] eqn:Hr; [|done].
  pose proof (read_le_bound 8 (q + 48) n ltac:(lia) ltac:(lia) Hr).
  apply read_le_Some in Hr as [_ Hr]; [|lia..]. fold (field l (q + 48) 8) in Hr. subst n.
  bool_prop. unfold saturating_add, saturating_mul, usize_max in *. split_and!; try done; lia.
Qed.

(** The next read of a fixed record at a known place. *)
Ltac field_step :=
  first
    [ eapply returns_with_bind; [apply usize_add_small; lia|intros ? ->]
    | eapply returns_with_bind; [apply read_returns; lia|intros ? (? & -> & ?)]
    | parse_step ].

Lemma start_returns s :
  0 ≤ metadata_bytes s →
  returns_with (λ v, v = directory_end s - metadata_bytes s ∧ metadata_bytes s ≤ directory_end s)
    (start s).
Proof.
  intros Hm. unfold start. parse_step. apply try_from_Some in H as [-> _].
  eapply returns_with_mono; [|apply need_returns]. cbv beta.
  by intros v Hv%checked_sub_Some.
Qed.

Lemma archive_offset_returns s :
  0 ≤ metadata_bytes s →
  returns_with (λ v, v = directory_end s - metadata_bytes s - relative_directory_start s ∧ 0 ≤ v ∧
      metadata_bytes s ≤ directory_end s)
    (archive_offset s).
Proof.
  intros Hm. unfold archive_offset.
  eapply returns_with_bind; [by apply start_returns|intros v [-> ?]].
  parse_step. apply try_from_Some in H0 as [-> _].
  eapply returns_with_mono; [|apply need_returns]. cbv beta.
  intros v [-> ?]%checked_sub_Some. lia.
Qed.

Lemma zip64_summary_returns p :
  0 ≤ p → p + 22 ≤ len l →
  field l (p + 10) 2 = u16_max ∨ field l (p + 12) 4 = u32_max ∨ field l (p + 16) 4 = u32_max →
  returns_with (λ s, eocd s = p ∧ zip64_record l s ∧
      0 ≤ entries s ≤ u64_max ∧ 0 ≤ metadata_bytes s ≤ directory_end s ∧
      0 ≤ relative_directory_start s ∧ 0 ≤ extensible_bytes s ∧
      directory_end s + 76 + extensible_bytes s = p)
    (zip64_summary l p).
Proof.
  intros Hp Hn Hmark. unfold zip64_summary.
  parse_step. option_facts. field_step. parse_step. option_facts.
  do 6 field_step. parse_step. parse_step. option_facts.
  parse_step. match goal with H : find _ _ = Some _ |- _ => destruct (find_some _ _ H) as [Hin Hc] end.
  apply list_elem_of_In, elem_of_seqZ in Hin.
  apply zip64_candidate_true in Hc as (Hsig & Hend & Hpay & Hmin); [|lia..].
  replace (p - 20 + 4) with (p - 16) in * by lia.
  replace (p - 20 + 8) with (p - 12) in * by lia.
  replace (p - 20 + 16) with (p - 4) in * by lia.
  do 2 field_step. parse_step. do 12 field_step. parse_step. parse_step; [lia|].
  parse_step. match goal with H : (_ ≫= _) = Some _ |- _ => unfold mbind, option_bind in H end.
  destruct (try_from _ _) as [v|] eqn:Hv; [|done]. option_facts.
  eapply returns_with_bind; [apply archive_offset_returns; simpl; lia|simpl; intros v (-> & ? & ?)].
  parse_step. parse_step. unfold zip64_record. simpl. unfold u64_max.
  bool_prop. split_and!; try done; try lia; destruct_or?; lia.
Qed.

Lemma preflight_returns :
  returns_with (admitted_summary l) (preflight l).
Proof.
  unfold preflight.
  eapply returns_with_bind; [apply find_eocd_sound|intros p [Hf Huniq]].
  destruct (footer_fits p Hf) as [Hp Hn].
  do 12 field_step. parse_step.
  eapply (returns_with_bind (λ s, eocd s = p ∧ (plain_summary l s ∨ zip64_record l s) ∧
      0 ≤ entries s ≤ u64_max ∧ 0 ≤ metadata_bytes s ∧
      0 ≤ relative_directory_start s ∧ 0 ≤ extensible_bytes s ∧
      directory_end s + extensible_bytes s ≤ p)).
  - parse_step.
    + eapply returns_with_mono; [|apply zip64_summary_returns; try done].
      * intros s (-> & ? & ? & ? & ? & ? & ?). split_and!; try done; try lia. by right.
      * repeat (destruct_or?; bool_prop); auto.
    + parse_step. simpl. unfold u64_max, plain_summary. simpl. split_and!; try done; try lia.
  - intros s (<- & Hs & ? & ? & ? & ? & ?). parse_step. option_facts.
    parse_step. parse_step. unfold admitted_summary. split_and!; try done; lia.
Qed.

End Records.
End ZipRecords.

(** ** The directory walk *)

Module ZipWalk.
Import Zip ZipFormat ZipRecords.

Section Walk.
Context (l : list Z) (Hl : slice_ok l).

Lemma is_entry_window a b :
  0 ≤ a ≤ b → b ≤ len l →
  is_entry (sub_list l a b) ↔
  a + 46 ≤ b ∧ sub_list l a (a + 4) = FILE_HEADER_SIGNATURE ∧
  b = a + (46 + field l (a + 28) 2 + field l (a + 30) 2 + field l (a + 32) 2).
Proof.
  intros Ha Hb. split.
  - intros (h & n & e & c & m & t & Hs & Hh & Hn & He & Hc & Hm & Ht).
    assert (b - a = 46 + len t) as Hlen.
    { rewrite <- (sub_list_len l a b), Hs, !len_app by lia. change (len FILE_HEADER_SIGNATURE) with 4. lia. }
    pose proof (len_nonneg t).
    apply sub_list_app_inv in Hs as (_ & Hs0 & Hs); [|lia..]. change (len FILE_HEADER_SIGNATURE) with 4 in *.
    apply sub_list_app_inv in Hs as (_ & _ & Hs); [|lia..]. rewrite Hh in *.
    apply sub_list_app_inv in Hs as (_ & Hs1 & Hs); [|lia..]. rewrite Hn in *.
    apply sub_list_app_inv in Hs as (_ & Hs2 & Hs); [|lia..]. rewrite He in *.
    apply sub_list_app_inv in Hs as (_ & Hs3 & _); [|lia..]. rewrite Hc in *.
    replace (a + 4 + 24) with (a + 28) in * by lia. replace (a + 28 + 2 + 2) with (a + 32) in * by lia.
    replace (a + 28 + 2) with (a + 30) in * by lia.
    unfold field. replace (a + 28 + 2) with (a + 30) by lia. replace (a + 30 + 2) with (a + 32) by lia.
    rewrite Hs1, Hs2, Hs3. split_and!; [lia|done|lia].
  - intros (Hab & Hs & Hbe).
    exists (sub_list l (a + 4) (a + 28)), (sub_list l (a + 28) (a + 28 + 2)),
      (sub_list l (a + 30) (a + 30 + 2)), (sub_list l (a + 32) (a + 32 + 2)),
      (sub_list l (a + 34) (a + 46)), (sub_list l (a + 46) b).
    rewrite !sub_list_len by lia. split_and!; try lia; [|unfold field in Hbe; lia].
    rewrite <- Hs. replace (a + 28 + 2) with (a + 30) by lia. replace (a + 30 + 2) with (a + 32) by lia.
    replace (a + 32 + 2) with (a + 34) by lia. by rewrite <- !sub_list_split by lia.
Qed.

Lemma is_signature_window a b :
  0 ≤ a ≤ b → b ≤ len l →
  is_signature (sub_list l a b) ↔
  a + 6 ≤ b ∧ sub_list l a (a + 4) = DIGITAL_SIGNATURE ∧ b = a + (6 + field l (a + 4) 2).
Proof.
  intros Ha Hb. split.
  - intros (size & data & Hs & Hsize & Hdata).
    assert (b - a = 6 + len data) as Hlen.
    { rewrite <- (sub_list_len l a b), Hs, !len_app by lia. change (len DIGITAL_SIGNATURE) with 4. lia. }
    pose proof (len_nonneg data).
    apply sub_list_app_inv in Hs as (_ & Hs0 & Hs); [|lia..]. change (len DIGITAL_SIGNATURE) with 4 in *.
    apply sub_list_app_inv in Hs as (_ & Hs1 & _); [|lia..]. rewrite Hsize in *.
    unfold field. rewrite Hs1. split_and!; [lia|done|lia].
  - intros (Hab & Hs & Hbe). exists (sub_list l (a + 4) (a + 4 + 2)), (sub_list l (a + 4 + 2) b).
    rewrite !sub_list_len by lia. split_and!; [|lia|unfold field in Hbe; lia].
    rewrite <- Hs. by rewrite <- !sub_list_split by lia.
Qed.

Context (s : ZipDirectorySummary) (Hend : directory_end s ≤ len l).

Notation rest a := (sub_list l a (directory_end s)).

Lemma directory_loop_sound fuel a n :
  0 ≤ a ≤ directory_end s → directory_end s - a ≤ Z.of_nat fuel → 0 ≤ n ≤ a →
  returns_with (λ n', ∃ k, n' = n + k ∧ directory (rest a) k)
    (directory_loop fuel l s a n).
Proof.
  pose proof len_usize l Hl as Husize.
  assert (directory [] 0) as Hnil by (exists [], []; split_and!; [done..|by left]).
  revert a n. induction fuel as [|fuel IH]; intros a n Ha Hfuel Hn; simpl;
    (destruct (a <? directory_end s) eqn:Hlt; bool_prop; simpl;
      [|exists 0; rewrite sub_list_nil by lia; split; [lia|done]]); [lia|].
  parse_step.
  - match goal with H : signature_at _ _ _ = true |- _ => apply signature_at_true in H as [Hsn Hsig]; [|(done || lia)..] end.
    eapply returns_with_bind; [apply (usize_add_small l); (done || lia)|intros ? ->].
    eapply returns_with_bind; [apply read_returns; (done || lia)|intros ? (? & -> & ?)].
    eapply returns_with_bind; [apply usize_add_returns; unfold usize_max, u64_max; lia|intros ? ->].
    parse_step. option_facts. parse_step. parse_step. exists 0. split; [lia|].
    exists [], (rest a). split_and!; [done..|]. right.
    apply is_signature_window; [lia..|]. split_and!; [lia|done|lia].
  - parse_step. match goal with H : signature_at FILE_HEADER_SIGNATURE _ _ = true |- _ =>
      apply signature_at_true in H as [Hsn Hsig]; [|(done || lia)..] end.
    unfold saturating_add in *.
    do 3 (eapply returns_with_bind; [apply (usize_add_small l); (done || lia)|intros ? ->];
          eapply returns_with_bind; [apply read_returns; (done || lia)|intros ? (? & -> & ?)]).
    do 3 (eapply returns_with_bind; [apply usize_add_returns; unfold usize_max, u64_max; lia|intros ? ->]).
    parse_step. match goal with H : (_ ≫= _) = Some _ |- _ => unfold mbind, option_bind in H end.
    destruct (checked_add _ a _) as [e|] eqn:He; [|done]. option_facts.
    destruct (_ <=? _) eqn:Hle; [|done]. simplify_eq. bool_prop.
    eapply returns_with_bind; [apply usize_add_returns; lia|intros ? ->]. parse_step.
    set (b := a + (46 + field l (a + 28) 2 + field l (a + 30) 2 + field l (a + 32) 2)) in *.
    eapply returns_with_mono; [|apply IH; lia].
    intros n' (k & -> & es & sig & Hk & <- & Hes & Hsg). exists (1 + len es). split; [lia|].
    exists (sub_list l a b :: es), sig. split_and!; [|by rewrite len_cons| |done].
    + cbn [concat]. rewrite (sub_list_split l a b), Hk by lia. by rewrite (assoc_L (++)).
    + constructor; [|done]. apply is_entry_window; [lia..|]. split_and!; [lia|done|done].
Qed.

Lemma directory_loop_complete es sig fuel a n :
  0 ≤ a ≤ directory_end s → directory_end s - a ≤ Z.of_nat fuel → 0 ≤ n →
  rest a = concat es ++ sig → Forall is_entry es → sig = [] ∨ is_signature sig →
  n + len es ≤ entries s ≤ u64_max →
  directory_loop fuel l s a n = Ok (n + len es).
Proof.
  pose proof len_usize l Hl as Husize. intros Ha Hfuel Hn Hrest Hes Hsig Hmax.
  revert fuel a n Ha Hfuel Hn Hrest Hmax. induction Hes as [|e es He Hes IH];
    intros fuel a n Ha Hfuel Hn Hrest Hmax.
  - rewrite len_nil, Z.add_0_r. cbn [concat app] in Hrest. subst sig.
    destruct fuel as [|fuel]; cbn [directory_loop];
      (destruct (a <? directory_end s) eqn:Hlt; bool_prop; cbn [negb]; [|done]); [lia|].
    destruct Hsig as [Hnil|Hsig].
    { pose proof (sub_list_len l a (directory_end s)) as H. rewrite Hnil in H.
      change (len []) with 0 in H. lia. }
    apply is_signature_window in Hsig as (H6 & Hs & He); [|lia..].
    rewrite (proj2 (signature_at_true l Hl DIGITAL_SIGNATURE a ltac:(lia) eq_refl)) by (split; [lia|done]).
    eapply Ok_bind; [by apply usize_add_Ok; split; [|lia]|].
    eapply Ok_bind; [apply need_is, read_le_Some; [done|lia..|]; split; [lia|reflexivity]|].
    fold (field l (a + 4) 2).
    eapply Ok_bind; [by apply usize_add_Ok; split; [|lia]|].
    eapply Ok_bind; [by apply need_is, checked_add_Some; split; [|lia]|].
    eapply Ok_bind; [apply fail_if_false; rewrite He; by rewrite Z.eqb_refl|done].
  - cbn [concat] in Hrest. rewrite <- (assoc_L (++)) in Hrest. rewrite len_cons in *.
    apply sub_list_app_inv in Hrest as (Hx & Hs1 & Hrest); [|lia..].
    pose proof (len_nonneg e). pose proof (len_nonneg es). set (b := a + len e) in *.
    rewrite <- Hs1 in He. apply is_entry_window in He as (H46 & Hs & Hb); [|lia..].
    destruct fuel as [|fuel]; [lia|]. cbn [directory_loop].
    rewrite (proj2 (Z.ltb_lt a _)) by lia. cbn [negb].
    destruct (signature_at DIGITAL_SIGNATURE l a) eqn:Hd.
    { apply signature_at_true in Hd as [_ Hd]; [|done || lia..]. rewrite Hs in Hd. done. }
    eapply Ok_bind.
    { apply fail_if_false. rewrite (proj2 (signature_at_true l Hl FILE_HEADER_SIGNATURE a ltac:(lia) eq_refl))
        by (split; [lia|done]). simpl. apply Z.ltb_ge. unfold saturating_add. lia. }
    do 3 (eapply Ok_bind; [by apply usize_add_Ok; split; [|lia]|];
      eapply Ok_bind; [apply need_is, read_le_Some; [done|lia..|]; split; [lia|reflexivity]|]).
    fold (field l (a + 28) 2) (field l (a + 30) 2) (field l (a + 32) 2).
    assert (∀ o, 0 ≤ field l o 2) as Hf.
    { intros o. apply le_value_bound, sub_list_bytes, Hl. }
    pose proof (Hf (a + 28)). pose proof (Hf (a + 30)). pose proof (Hf (a + 32)).
    do 3 (eapply Ok_bind; [by apply usize_add_Ok; split; [|lia]|]).
    eapply Ok_bind.
    { apply need_is. rewrite (proj2 (checked_add_Some _ _ _ b)) by lia. cbn [mbind option_bind].
      by rewrite (proj2 (Z.leb_le b _)) by lia. }
    eapply Ok_bind; [apply usize_add_Ok; split; [reflexivity|unfold usize_max; lia]|].
    eapply Ok_bind; [apply fail_if_false, Z.ltb_ge; lia|].
    rewrite (IH fuel b (n + 1)) by (done || lia). f_equal. lia.
Qed.

Lemma validate_directory_returns :
  0 ≤ metadata_bytes s →
  returns_with (λ _, 0 ≤ directory_end s - metadata_bytes s - relative_directory_start s ∧
      metadata_bytes s ≤ directory_end s ∧
      directory (rest (directory_end s - metadata_bytes s)) (entries s))
    (validate_directory l s).
Proof.
  intros Hm. unfold validate_directory.
  eapply returns_with_bind; [by apply start_returns|intros a [-> Ha]].
  eapply returns_with_bind; [by apply archive_offset_returns|intros o (-> & ? & ?)].
  eapply returns_with_bind; [apply directory_loop_sound; try lia|].
  { unfold len in *. lia. }
  intros n (k & -> & Hd). unfold fail_if.
  destruct (_ =? entries s) eqn:E; simpl; [|done]. bool_prop. rewrite Z.add_0_l in E. by subst k.
Qed.

Lemma validate_directory_complete :
  0 ≤ metadata_bytes s → 0 ≤ directory_end s - metadata_bytes s - relative_directory_start s →
  0 ≤ relative_directory_start s → entries s ≤ u64_max →
  directory (rest (directory_end s - metadata_bytes s)) (entries s) →
  validate_directory l s = Ok tt.
Proof.
  intros Hm Ho Hr He (es & sig & Hrest & Hn & Hes & Hsig). pose proof len_usize l Hl as Husize.
  assert (start s = Ok (directory_end s - metadata_bytes s)) as Hstart.
  { unfold start. eapply Ok_bind; [apply need_is, try_from_Some; split; [reflexivity|lia]|].
    apply need_is, checked_sub_Some. lia. }
  unfold validate_directory. rewrite Hstart. cbn [mbind result_bind].
  eapply Ok_bind.
  { unfold archive_offset. rewrite Hstart. cbn [mbind result_bind].
    eapply Ok_bind; [apply need_is, try_from_Some; split; [reflexivity|unfold usize_max in *; lia]|].
    apply need_is, checked_sub_Some. split; [reflexivity|lia]. }
  eapply Ok_bind; [apply (directory_loop_complete es sig); try done; unfold len in *; lia|].
  apply fail_if_false. rewrite Z.add_0_l, Hn. by rewrite Z.eqb_refl.
Qed.

End Walk.
End ZipWalk.

(** ** The admitted cursor *)

Module ZipCursor.
Import Zip ZipFormat ZipRecords.

(** The calls of a metadata reader, and their replies. *)
Inductive Call := CallRead (output : list Z) | CallSeek (target : SeekFrom).
Inductive Reply := ReplyRead (r : result IoError Z) (output : list Z) | ReplySeek (r : result IoError Z).

Definition call_ok (call : Call) : Prop :=
  match call with
  | CallRead output => len output ≤ isize_max
  | CallSeek (FromStart n) => 0 ≤ n ≤ u64_max
  | CallSeek (FromEnd n) | CallSeek (FromCurrent n) => - 2 ^ 63 ≤ n < 2 ^ 63
  end.

Definition admitted_call (bytes : list Z) (c : AdmittedZipCursor) (call : Call)
    : Reply * AdmittedZipCursor :=
  match call with
  | CallRead output => let '(r, output, c) := read bytes false output c in (ReplyRead r output, c)
  | CallSeek target => let '(r, c) := seek bytes false target c in (ReplySeek r, c)
  end.

(** The same call on a plain cursor. *)
Definition std_call (bytes : list Z) (p : Z) (call : Call) : Reply * Z :=
  match call with
  | CallRead output => let '(n, output, p) := std_read bytes p output in (ReplyRead (Ok n) output, p)
  | CallSeek target => match std_seek bytes p target with
      | Ok q => (ReplySeek (Ok q), q)
      | Err e => (ReplySeek (Err e), p)
      end
  end.

(** A call refused by the guard, which leaves the buffer alone. *)
Definition refused (call : Call) (reply : Reply) : Prop :=
  match call, reply with
  | CallRead output, ReplyRead (Err (InvalidData _)) output' => output' = output
  | CallSeek _, ReplySeek (Err (InvalidData _)) => True
  | _, _ => False
  end.

(** Equal replies, up to the text of an invalid seek. *)
Definition same_reply (r1 r2 : Reply) : Prop :=
  match r1, r2 with
  | ReplySeek (Err (InvalidInput _)), ReplySeek (Err (InvalidInput _)) => True
  | _, _ => r1 = r2
  end.

(** While the central directory is read, answered reads stay inside it and
    answered seeks do not move. *)
Definition confined (c : AdmittedZipCursor) (call : Call) (reply : Reply) (c' : AdmittedZipCursor) : Prop :=
  match call, reply with
  | CallRead output, ReplyRead (Ok _) _ => first c ≤ pos c ∧ pos c + len output ≤ last c
  | CallSeek _, ReplySeek (Ok _) => pos c' = pos c
  | _, _ => pos c' = pos c
  end.

(** Every reply of a metadata run is a refusal or the reply of a plain cursor on
    [shown]. *)
Fixpoint shows (bytes shown : list Z) (c : AdmittedZipCursor) (calls : list Call) : Prop :=
  match calls with
  | [] => True
  | call :: calls =>
      let '(reply, c') := admitted_call bytes c call in
      let '(reply', p') := std_call shown (pos c) call in
      (refused call reply ∧ pos c' = pos c ∨ same_reply reply reply' ∧ pos c' = p') ∧
      (parsing c' = true → confined c call reply c') ∧
      (parsing c = true → parsing c' = true) ∧
      shows bytes shown c' calls
  end.

Section Cursor.
Context (l : list Z) (Hl : slice_ok l) (f : Z) (Hf : 0 ≤ f) (Hlen : f + 22 ≤ len l).

Notation shown := (without_comment l f).

Lemma shown_len : len shown = f + 22.
Proof. unfold without_comment. rewrite len_app, sub_list_len by lia. change (len [0; 0]) with 2. lia. Qed.

Lemma sub_list_lookup k a b (i : nat) :
  0 ≤ a → Z.of_nat i < b - a → sub_list k a b !! i = k !! (Z.to_nat a + i)%nat.
Proof. intros. unfold sub_list. rewrite lookup_take_lt by lia. by rewrite lookup_drop. Qed.

Lemma shown_lookup (j : nat) :
  Z.of_nat j < f + 22 →
  shown !! j = if decide (Z.of_nat j < f + 20) then l !! j else Some 0.
Proof.
  intros Hj. unfold without_comment.
  assert (length (sub_list l 0 (f + 20)) = Z.to_nat (f + 20)) as Hn.
  { pose proof (sub_list_len l 0 (f + 20)). unfold len in *. lia. }
  case_decide.
  - rewrite lookup_app_l by lia. rewrite sub_list_lookup by lia. by f_equal.
  - rewrite lookup_app_r, Hn by lia.
    destruct (j - Z.to_nat (f + 20))%nat as [|[|]] eqn:E; [done|done|lia].
Qed.

Lemma hide_byte_app p n b k r :
  len k = n → hide_byte p n b (k ++ r) = hide_byte p n b k ++ r.
Proof.
  intros Hn. unfold hide_byte. case_match; [|done]. bool_prop.
  apply insert_app_l. unfold len in Hn. lia.
Qed.

Lemma hide_byte_len p n b k : len (hide_byte p n b k) = len k.
Proof. unfold hide_byte. case_match; [|done]. unfold len. by rewrite length_insert. Qed.

Lemma hide_byte_lookup p n b k (i : nat) :
  len k = n → hide_byte p n b k !! i =
    if decide (0 ≤ b - p < n ∧ Z.of_nat i = b - p) then Some 0 else k !! i.
Proof.
  intros Hn. unfold hide_byte, len in *. destruct (_ && _) eqn:E; bool_prop.
  - rewrite list_lookup_insert. repeat case_decide; try done; lia.
  - case_decide; [|done]. destruct E; bool_prop; lia.
Qed.

Lemma hide_comment p n :
  0 ≤ p → 0 ≤ n → p + n ≤ f + 22 →
  hide_byte p n (f + 21) (hide_byte p n (f + 20) (sub_list l p (p + n))) = sub_list shown p (p + n).
Proof.
  intros Hp Hn Hend. pose proof shown_len as Hsl.
  assert (len (sub_list l p (p + n)) = n) as Hk by (rewrite sub_list_len; lia).
  assert (len (sub_list shown p (p + n)) = n) as Hs by (rewrite sub_list_len; lia).
  apply list_eq. intros i. destruct (decide (Z.of_nat i < n)) as [Hi|Hi].
  - rewrite !hide_byte_lookup by (rewrite ?hide_byte_len; done).
    rewrite !sub_list_lookup, shown_lookup by lia.
    repeat case_decide; try done; lia.
  - assert (len (hide_byte p n (f + 21) (hide_byte p n (f + 20) (sub_list l p (p + n)))) = n)
      by (by rewrite !hide_byte_len).
    unfold len in *. rewrite !lookup_ge_None_2; [done|lia..].
Qed.

Definition cursor_ok (c : AdmittedZipCursor) : Prop :=
  footer c = f ∧ 0 ≤ first c ≤ last c ∧ last c ≤ f ∧ 0 ≤ pos c ≤ u64_max.

(** The unguarded part of a metadata read is a read of the shown archive. *)
Lemma metadata_read_shown p output :
  0 ≤ p ≤ u64_max → len output ≤ isize_max →
  let n := Z.min (len output) (saturating_sub (saturating_add u64_max f 22) p) in
  let '(count, prefix, p') := std_read l p (take (Z.to_nat n) output) in
  (count, hide_byte p count (f + 21) (hide_byte p count (f + 20)
            (prefix ++ drop (Z.to_nat n) output)), p') = std_read shown p output ∧
  0 ≤ p' ≤ u64_max.
Proof.
  intros Hp Hout. pose proof shown_len as Hsl. pose proof (len_nonneg output).
  pose proof (len_usize l Hl) as Husize. unfold usize_max in Husize.
  set (n := Z.min _ _). cbv zeta. unfold std_read. rewrite Hsl.
  assert ((p ≤ f + 22 → n = Z.min (len output) (f + 22 - p)) ∧ (f + 22 < p → n = 0)) as [Hin Hout'].
  { unfold n, saturating_sub, saturating_add. lia. }
  assert (0 ≤ n ≤ len output) by (unfold n, saturating_sub; lia).
  clearbody n.
  assert (len (take (Z.to_nat n) output) = n) as ->.
  { unfold len in *. rewrite length_take. lia. }
  assert (drop (Z.to_nat n) (take (Z.to_nat n) output) = []) as Hdrop.
  { apply drop_ge. rewrite length_take. lia. }
  destruct (decide (p ≤ f + 22)).
  - specialize (Hin ltac:(done)). rewrite !(Z.min_l p) by lia.
    replace (Z.min n (len l - p)) with n by lia. rewrite <- Hin.
    rewrite Hdrop, app_nil_r, !hide_byte_app, hide_comment
      by (rewrite ?hide_byte_len, ?sub_list_len; lia).
    split; [done|]. lia.
  - assert (n = 0) as -> by lia.
    replace (Z.min 0 (len l - Z.min p (len l))) with 0 by lia.
    replace (Z.min (len output) (f + 22 - Z.min p (f + 22))) with 0 by lia.
    rewrite Hdrop, !sub_list_nil by lia. unfold hide_byte. 
    rewrite !(proj2 (Z.leb_gt _ _)) by lia. simpl. split; [done|lia].
Qed.

(** Writing the flags leaves the rest of the cursor alone. *)
Lemma read_reply c output :
  cursor_ok c → len output ≤ isize_max →
  let '(r, output', c') := read l false output c in
  cursor_ok c' ∧ first c' = first c ∧ last c' = last c ∧
  (parsing c = true → parsing c' = true) ∧
  (r = Err left_extent ∧ output' = output ∧ pos c' = pos c ∨
   (∃ n, r = Ok n ∧ (n, output', pos c') = std_read shown (pos c) output) ∧
   (parsing c' = true → first c ≤ pos c ∧ pos c + len output ≤ last c)).
Proof.
  intros (Hfc & Hfl & Hlf & Hp) Hout. pose proof (len_usize l Hl) as Husize. unfold usize_max in Husize.
  pose proof (metadata_read_shown (pos c) output Hp Hout) as Hread. cbv zeta in Hread.
  unfold read. cbn [negb andb].
  match goal with |- context [if ?b then set_parsing c else c] => set (c1 := if b then set_parsing c else c) end.
  assert (pos c1 = pos c ∧ first c1 = first c ∧ last c1 = last c ∧ footer c1 = f ∧
          (parsing c = true → parsing c1 = true)) as (H1 & H2 & H3 & H4 & H5).
  { unfold c1. by match goal with |- context [if ?b then set_parsing c else c] => destruct b end; split_and!. }
  clearbody c1. rewrite H1, H2, H3, H4.
  destruct (parsing c1 && _) eqn:Hguard.
  { split_and!; try done; [unfold cursor_ok; rewrite H1, H2, H3; split_and!; (done || lia)|by left]. }
  destruct (std_read l (pos c) _) as [[count prefix] p'] eqn:Hstd.
  destruct Hread as [Hread Hp'].
  match goal with |- context [if ?b then set_probed ?c0 else ?c0] =>
    set (c2 := if b then set_probed c0 else c0) end.
  assert (pos c2 = p' ∧ first c2 = first c ∧ last c2 = last c ∧ footer c2 = f ∧ parsing c2 = parsing c1)
    as (G1 & G2 & G3 & G4 & G5).
  { unfold c2. by match goal with |- context [if ?b then set_probed _ else _] => destruct b end; split_and!. }
  clearbody c2. split_and!.
  - unfold cursor_ok. rewrite G1, G2, G3. split_and!; (done || lia).
  - done.
  - done.
  - rewrite G5. done.
  - right. cbn [footer set_pos]. rewrite H4, G1, G5. split; [by exists count|]. intros Hparse. rewrite Hparse in Hguard.
    unfold saturating_add in Hguard. simpl in Hguard. bool_prop. lia.
Qed.

Lemma seek_reply c target :
  cursor_ok c → call_ok (CallSeek target) →
  let '(r, c') := seek l false target c in
  cursor_ok c' ∧ first c' = first c ∧ last c' = last c ∧ parsing c' = parsing c ∧
  (r = Err outside_directory ∧ pos c' = pos c ∨
   match r, std_seek shown (pos c) target with
   | Ok q, Ok q' => q = q' ∧ pos c' = q'
   | Err (InvalidInput _), Err (InvalidInput _) => pos c' = pos c
   | _, _ => False
   end ∧ (parsing c = true → pos c' = pos c)).
Proof.
  intros (Hfc & Hfl & Hlf & Hp) Htarget. pose proof (len_usize l Hl) as Husize. unfold usize_max in Husize.
  unfold seek. pose proof shown_len as Hsl.
  assert (∀ p, 0 ≤ p ≤ u64_max → cursor_ok (set_pos p c)) as Hok by (intros; unfold cursor_ok; simpl; split_and!; (done || lia)).
  assert (∀ (b : bool) p, let c' := set_pos p (if b then set_armed c else c) in
    pos c' = p ∧ first c' = first c ∧ last c' = last c ∧ footer c' = footer c ∧ parsing c' = parsing c)
    as Harm by (by intros [] p).
  destruct target as [n|n|n]; cbn [call_ok] in Htarget; cbn [std_seek mbind result_bind].
  - destruct (_ && _ && _) eqn:Hg; [split_and!; try done; by left|].
    match goal with |- context [if ?b then set_armed c else c] => set (arm := b) end.
    destruct (Harm arm n) as (? & E2 & E3 & E4 & E5). split_and!; try done.
    + unfold cursor_ok. rewrite E2, E3, E4. split_and!; (done || simpl; lia).
    + right. split; [done|]. intros Hparse. rewrite Hparse in Hg. simpl in Hg. by bool_prop.
  - rewrite Hsl, Hfc. unfold try_u64, checked_add_signed. destruct (_ && _) eqn:Hr; simpl.
    + destruct (_ && _ && _) eqn:Hg; [split_and!; try done; by left|].
      match goal with |- context [if ?b then set_armed c else c] => set (arm := b) end.
      destruct (Harm arm (f + 22 + n)) as (? & E2 & E3 & E4 & E5). bool_prop. split_and!; try done.
      * unfold cursor_ok. rewrite E2, E3, E4. split_and!; (done || simpl; lia).
      * right. split; [done|]. intros Hparse. rewrite Hparse in Hg. destruct Hg as [|Hg]; [done|].
        bool_prop. simpl. lia.
    + split_and!; try done. by right.
  - destruct (_ && _ && _) eqn:Hg; [split_and!; try done; by left|].
    match goal with |- context [if ?b then set_armed c else c] => set (arm := b) end.
    assert (pos (if arm then set_armed c else c) = pos c) as -> by (by destruct arm).
    unfold checked_add_signed. destruct ((0 <=? pos c + n) && _) eqn:Hr; simpl.
    + destruct (Harm arm (pos c + n)) as (? & E2 & E3 & E4 & E5). bool_prop. split_and!; try done.
      * unfold cursor_ok. rewrite E2, E3, E4. split_and!; (done || simpl; lia).
      * right. split; [done|]. intros Hparse. rewrite Hparse in Hg. destruct Hg as [|Hg]; [done|].
        bool_prop. simpl. lia.
    + destruct (Harm arm (pos c)) as (? & E2 & E3 & E4 & E5).
      assert (first (if arm then set_armed c else c) = first c ∧ last (if arm then set_armed c else c) = last c ∧
        footer (if arm then set_armed c else c) = footer c ∧ pos (if arm then set_armed c else c) = pos c ∧
        parsing (if arm then set_armed c else c) = parsing c) as (D1 & D2 & D3 & D4 & D5) by (by destruct arm).
      split_and!; try done; [unfold cursor_ok; rewrite D1, D2, D3, D4; split_and!; (done || lia)|]. by right.
Qed.

Lemma cursor_shows c calls : cursor_ok c → Forall call_ok calls → shows l shown c calls.
Proof.
  intros Hc Hcalls. revert c Hc. induction Hcalls as [|call calls Hcall _ IH]; intros c Hc; [done|].
  destruct call as [output|target]; cbn [shows admitted_call std_call].
  - pose proof (read_reply c output Hc Hcall) as H.
    destruct (read l false output c) as [[r output'] c'].
    destruct H as (Hc' & H1 & H2 & H3 & [(-> & -> & Hp)|[(n & -> & Hn) Hconf]]).
    + destruct (std_read _ _ _) as [[? ?] ?]. split_and!; [by left|by simpl|done|by apply IH].
    + rewrite <- Hn. split_and!; [by right|by simpl|done|by apply IH].
  - pose proof (seek_reply c target Hc Hcall) as H.
    destruct (seek l false target c) as [r c'].
    destruct H as (Hc' & H1 & H2 & H3 & [[-> Hp]|[Hr Hconf]]).
    + destruct (std_seek _ _ _); split_and!; try (by left); try (by simpl); try congruence; by apply IH.
    + rewrite H3. destruct (std_seek shown (pos c) target) as [q'|[]], r as [q|[]]; try done.
      * destruct Hr as [<- Hr]. split_and!; [by right| |done|by apply IH]. simpl. by intros ?%Hconf.
      * split_and!; [by right| |done|by apply IH]. simpl. by intros ?%Hconf.
Qed.

(** Searched from the end, the shown archive has the admitted end record first. *)
Lemma shown_footer : is_footer l f → is_footer shown f ∧ ∀ q, is_footer shown q → q ≤ f.
Proof.
  intros [Hpl (fixed & x & y & comment & Hs & Hfx & Hc)]. pose proof shown_len as Hsl. split.
  - split; [lia|]. exists fixed, 0, 0, []. split_and!; [|done|done].
    apply sub_list_app_inv in Hs as (_ & Hs1 & Hs); [|lia..]. change (len EOCD_SIGNATURE) with 4 in *.
    apply sub_list_app_inv in Hs as (_ & Hs2 & _); [|lia..]. rewrite Hfx in Hs2.
    replace (f + 4 + 16) with (f + 20) in Hs2 by lia.
    assert (slice_ok shown) as Hsok.
    { split; [|unfold slice_ok, isize_max in *; destruct Hl; lia]. unfold without_comment.
      apply Forall_app. split; [apply sub_list_bytes, Hl|repeat constructor; done]. }
    assert (sub_list l 0 (f + 20) = sub_list shown 0 (f + 20)) as Hpre.
    { pose proof (sub_list_all shown) as Hall. unfold without_comment at 3 in Hall.
      apply sub_list_app_inv in Hall as (_ & Hall & _); [|lia..].
      rewrite sub_list_len in Hall by lia. by rewrite Z.add_0_l, Z.sub_0_r in Hall. }
    assert (∀ a b, 0 ≤ a ≤ b → b ≤ f + 20 → sub_list shown a b = sub_list l a b) as Heq.
    { intros a b Ha Hb. rewrite <- (Z.add_0_l a), <- (Z.add_0_l b).
      rewrite <- (sub_list_sub shown 0 (f + 20) a b), <- Hpre, sub_list_sub by lia. done. }
    rewrite Hsl, (sub_list_split shown f (f + 4)), (sub_list_split shown (f + 4) (f + 20)) by lia.
    rewrite !Heq, Hs1, Hs2 by lia. do 2 f_equal.
    pose proof (sub_list_all shown) as Hall. unfold without_comment at 3 in Hall.
    apply sub_list_app_inv in Hall as (_ & _ & Hall); [|lia..].
    rewrite sub_list_len in Hall by lia. rewrite Hsl in Hall.
    by replace (f + 20) with (0 + (f + 20 - 0)) by lia.
  - intros q [? (fixed' & x' & y' & comment' & Hs' & Hfx' & _)].
    assert (len (sub_list shown q (len shown)) = 22 + len comment') as Hlen'.
    { rewrite Hs', !len_app, Hfx'. change (len EOCD_SIGNATURE) with 4. change (len [x'; y']) with 2. lia. }
    rewrite sub_list_len in Hlen' by lia. pose proof (len_nonneg comment'). lia.
Qed.

End Cursor.
End ZipCursor.

(** ** Properties *)

Module ZipTheorems.
Import Zip ZipFormat ZipRecords ZipWalk ZipCursor.

(** The search for the end record is exact: it returns the only offset at
    which an end record's comment runs to the end of the file, reports a missing
    record exactly when there is none, and refuses to choose exactly when there
    are several. *)
Theorem zip_find_eocd_exact (bytes : list Z) :
  slice_ok bytes →
  (∀ p, find_eocd bytes = Ok p ↔ is_footer bytes p ∧ ∀ q, is_footer bytes q → q = p) ∧
  (find_eocd bytes = Err (Fail EndRecordMissing) ↔ ∀ q, ¬ is_footer bytes q) ∧
  (find_eocd bytes = Err (Fail EndRecordAmbiguous) ↔
     ∃ p q, p ≠ q ∧ is_footer bytes p ∧ is_footer bytes q).
Proof.
  intros Hl. pose proof (find_eocd_cases bytes Hl) as H.
  destruct (find_eocd bytes) as [p|[| |[]]]; try done; split_and!; try intros p'; split;
    try discriminate; try naive_solver.
  - destruct H as [_ Hu]. intros (x & y & Hxy & Hx & Hy). destruct Hxy. by rewrite (Hu x), (Hu y).
  - destruct H as (x & y & Hxy & Hx & Hy). intros [_ Hu]. destruct Hxy. by rewrite (Hu x), (Hu y).
Qed.

(** The preflight returns on every input, and what it admits lies inside the
    file: the summary is what the one end record (or the zip64 record it points
    at) declares, the directory ends at or before the end record, and the memory
    figure the caller gates allocations with never exceeds the file. *)
Theorem zip_preflight_summary_in_file (bytes : list Z) :
  slice_ok bytes →
  returns (preflight bytes) ∧
  ∀ s, preflight bytes = Ok s →
    admitted_summary bytes s ∧ 0 ≤ allocation_metadata_bytes s ≤ eocd s ∧ eocd s + 22 ≤ len bytes.
Proof.
  intros Hl. pose proof (preflight_returns bytes Hl) as H.
  split; [by eapply returns_with_returns|]. intros s Hs. rewrite Hs in H. split; [done|].
  destruct H as (Hf & _ & _ & _ & _ & _ & Hm & _ & He & _ & Hsum).
  destruct (footer_fits bytes _ Hf). unfold allocation_metadata_bytes, saturating_add, u64_max. lia.
Qed.

(** The directory walk accepts exactly the declared directory: it returns on
    every admitted summary, and succeeds if and only if the admitted extent is a
    sequence of exactly [entries s] file headers with at most a digital signature
    behind them, whose declared start does not lie in front of the file. *)
Theorem zip_validate_directory_exact (bytes : list Z) (s : ZipDirectorySummary) :
  slice_ok bytes → preflight bytes = Ok s →
  returns (validate_directory bytes s) ∧
  (validate_directory bytes s = Ok tt ↔
     0 ≤ directory_end s - metadata_bytes s - relative_directory_start s ∧
     directory (sub_list bytes (directory_end s - metadata_bytes s) (directory_end s)) (entries s)).
Proof.
  intros Hl Hs. pose proof (preflight_returns bytes Hl) as H. rewrite Hs in H.
  destruct H as (Hf & _ & _ & _ & _ & He & Hm & Hr & _ & Hend & _).
  destruct (footer_fits bytes _ Hf).
  pose proof (validate_directory_returns bytes Hl s ltac:(lia) ltac:(lia)) as Hv.
  split; [by eapply returns_with_returns|]. split.
  - intros Hok. rewrite Hok in Hv. destruct Hv as (? & ? & ?). done.
  - intros [Ho Hd]. apply validate_directory_complete; (done || lia).
Qed.

(** While members are disabled, the admitted cursor shows the archive cut
    behind its end record with an empty comment: over any sequence of reads and
    seeks on a fresh cursor, every reply is the reply of a plain cursor on that
    archive at the same position, or a refusal that changes nothing the caller
    sees; once the central directory is being read, answered reads lie inside the
    admitted extent and answered seeks do not move. In the archive shown, the
    admitted end record is the last one. *)
Theorem zip_cursor_shows_archive_without_comment
    (bytes : list Z) (s : ZipDirectorySummary) (c : AdmittedZipCursor) (calls : list Call) :
  slice_ok bytes → preflight bytes = Ok s → new s = Ok c → Forall call_ok calls →
  let shown := without_comment bytes (eocd s) in
  shows bytes shown c calls ∧
  is_footer shown (eocd s) ∧ ∀ q, is_footer shown q → q ≤ eocd s.
Proof.
  intros Hl Hs Hc Hcalls. pose proof (preflight_returns bytes Hl) as H. rewrite Hs in H.
  destruct H as (Hf & _ & _ & _ & _ & _ & Hm & _ & _ & Hend & _).
  destruct (footer_fits bytes _ Hf).
  pose proof (start_returns s ltac:(lia)) as Hst. unfold new in Hc.
  destruct (start s) as [a|] eqn:Ha; [|done]. destruct Hst as [-> ?].
  injection Hc as <-. cbv zeta. split.
  - apply cursor_shows; try done. unfold cursor_ok, u64_max. simpl. lia.
  - apply shown_footer; (done || lia).
Qed.

(** ** Witnesses *)

(** An archive with one member and a four-byte comment. *)
Definition sample : list Z :=
  [80; 75; 3; 4; 20; 0; 0; 0; 0; 0; 132; 188; 114; 93; 172; 42; 147; 216; 2; 0; 0; 0; 2; 0; 0; 0; 1; 0; 0; 0; 97; 104; 105; 80; 75; 1; 2; 20; 3; 20; 0; 0; 0; 0; 0; 132; 188; 114; 93; 172; 42; 147; 216; 2; 0; 0; 0; 2; 0; 0; 0; 1; 0; 0; 0; 0; 0; 0; 0; 0; 0; 0; 0; 128; 1; 0; 0; 0; 0; 97; 80; 75; 5; 6; 0; 0; 0; 0; 1; 0; 1; 0; 47; 0; 0; 0; 33; 0; 0; 0; 4; 0; 110; 111; 116; 101].
Definition sample_summary : ZipDirectorySummary :=
  {| entries := 1; metadata_bytes := 47; directory_end := 80; relative_directory_start := 33;
     eocd := 80; extensible_bytes := 0 |}.
Definition sample_cursor : AdmittedZipCursor :=
  {| pos := 0; first := 33; last := 80; footer := 80; parsing := false;
     signature_probed := false; header_armed := false |}.

Lemma zip_find_eocd_exact_witness : is_footer sample 80 ∧ ¬ is_footer sample 33.
Proof.
  assert (slice_ok sample) as Hs by (apply slice_ok_check; vm_compute; reflexivity).
  assert (find_eocd sample = Ok 80) as Hf by (vm_compute; reflexivity).
  destruct (zip_find_eocd_exact sample Hs) as (Hex & _ & _).
  destruct (proj1 (Hex 80) Hf) as [H80 Huniq].
  split; [exact H80|]. intros H33. specialize (Huniq 33 H33). lia.
Defined.

Lemma zip_preflight_summary_in_file_witness :
  preflight sample = Ok sample_summary ∧ admitted_summary sample sample_summary.
Proof.
  assert (slice_ok sample) as Hs by (apply slice_ok_check; vm_compute; reflexivity).
  assert (preflight sample = Ok sample_summary) as Hp by (vm_compute; reflexivity).
  split; [exact Hp|].
  destruct (zip_preflight_summary_in_file sample Hs) as [_ Hsum].
  destruct (Hsum sample_summary Hp) as [Ha _]. exact Ha.
Defined.

Lemma zip_validate_directory_exact_witness : directory (sub_list sample 33 80) 1.
Proof.
  assert (slice_ok sample) as Hs by (apply slice_ok_check; vm_compute; reflexivity).
  assert (preflight sample = Ok sample_summary) as Hp by (vm_compute; reflexivity).
  assert (validate_directory sample sample_summary = Ok tt) as Hv by (vm_compute; reflexivity).
  destruct (zip_validate_directory_exact sample sample_summary Hs Hp) as [_ Hiff].
  destruct (proj1 Hiff Hv) as [_ Hd]. exact Hd.
Defined.

Lemma zip_cursor_shows_archive_without_comment_witness :
  shows sample (without_comment sample 80) sample_cursor
    [CallSeek (FromEnd (-22)); CallRead (replicate 22 7)] ∧
  (let '(_, c) := seek sample false (FromEnd (-22)) sample_cursor in
   let '(_, output, _) := read sample false (replicate 22 7) c in
   output = sub_list sample 80 100 ++ [0; 0]).
Proof.
  assert (slice_ok sample) as Hs by (apply slice_ok_check; vm_compute; reflexivity).
  assert (preflight sample = Ok sample_summary) as Hp by (vm_compute; reflexivity).
  assert (new sample_summary = Ok sample_cursor) as Hn by (vm_compute; reflexivity).
  split; [|vm_compute; reflexivity].
  destruct (zip_cursor_shows_archive_without_comment sample sample_summary sample_cursor
    [CallSeek (FromEnd (-22)); CallRead (replicate 22 7)] Hs Hp Hn) as [Hshow _]; [|exact Hshow].
  repeat constructor; vm_compute; discriminate.
Defined.

End ZipTheorems.
