(* ===== verification/Budget.v ===== *)
(** * Budget: the inspection budget of an attachment

    Models [attachment-native-inspect/src/budget.rs] (the [BudgetLedger]), the
    limits and usage records of [attachment-native-types/src/lib.rs] with their
    validation, and the bounded stream reader [read_derived_bounded] of
    [attachment-native-inspect/src/lib.rs], which draws on the ledger.

    The elapsed time of an inspection is an input: every operation that reads the
    clock takes the elapsed nanoseconds as its first argument. The decoder behind
    [read_derived_bounded] is an interface, [ByteReader]. *)

From S2P Require Import Prelude Bytes Text.
Local Open Scope Z_scope.

Module Limits.

Record BudgetLimits := {
  max_root_bytes : Z;
  max_object_bytes : Z;
  max_total_derived_bytes : Z;
  max_retained_bytes : Z;
  max_objects : Z;
  max_edges : Z;
  max_entries : Z;
  max_depth : Z;
  max_name_bytes : Z;
  max_parser_input_bytes : Z;
  max_container_metadata_bytes : Z;
  max_decoder_window_bytes : Z;
  max_declared_to_actual_ratio : Z;
  max_text_bytes : Z;
  max_media_objects : Z;
  max_media_bytes : Z;
  max_image_pixels : Z;
  max_transform_requests : Z;
  deadline_ms : Z;
}.

(** [BudgetLimits::default()] *)
Definition default : BudgetLimits := {|
  max_root_bytes := 256 * 1024 * 1024;
  max_object_bytes := 128 * 1024 * 1024;
  max_total_derived_bytes := 1024 * 1024 * 1024;
  max_retained_bytes := 512 * 1024 * 1024;
  max_objects := 4096;
  max_edges := 8192;
  max_entries := 8192;
  max_depth := 8;
  max_name_bytes := 4096;
  max_parser_input_bytes := 64 * 1024 * 1024;
  max_container_metadata_bytes := 64 * 1024 * 1024;
  max_decoder_window_bytes := 64 * 1024 * 1024;
  max_declared_to_actual_ratio := 200;
  max_text_bytes := 32 * 1024 * 1024;
  max_media_objects := 128;
  max_media_bytes := 256 * 1024 * 1024;
  max_image_pixels := 40000000;
  max_transform_requests := 256;
  deadline_ms := 30000;
|}.

(** The variant of [ContractError] that [validate] returns. *)
Inductive ContractError := InvalidBudget (m : string).

Definition validate (self : BudgetLimits) : result ContractError unit :=
  let positive := forallb (λ value, 0 <? value)
    [ max_root_bytes self; max_object_bytes self; max_total_derived_bytes self;
      max_retained_bytes self; max_text_bytes self; max_media_bytes self;
      max_image_pixels self; max_parser_input_bytes self; max_container_metadata_bytes self;
      max_decoder_window_bytes self; deadline_ms self ] in
  reject_if (negb positive
      || (max_objects self =? 0) || (max_edges self =? 0) || (max_entries self =? 0)
      || (max_name_bytes self =? 0) || (max_declared_to_actual_ratio self =? 0)
      || (max_media_objects self =? 0) || (max_transform_requests self =? 0))
    (InvalidBudget "all attachment limits except max_depth must be greater than zero") ;;
  reject_if (max_total_derived_bytes self <? max_object_bytes self)
    (InvalidBudget "max_object_bytes cannot exceed max_total_derived_bytes") ;;
  reject_if (max_retained_bytes self <? max_root_bytes self)
    (InvalidBudget "max_root_bytes cannot exceed max_retained_bytes").

Record BudgetUsage := {
  root_bytes : Z;
  total_derived_bytes : Z;
  retained_bytes : Z;
  objects : Z;
  edges : Z;
  entries : Z;
  deepest_object : Z;
  text_bytes : Z;
  media_objects : Z;
  media_bytes : Z;
  transform_requests : Z;
}.

(** [BudgetUsage::default()] *)
Definition no_usage : BudgetUsage := {|
  root_bytes := 0; total_derived_bytes := 0; retained_bytes := 0; objects := 0; edges := 0;
  entries := 0; deepest_object := 0; text_bytes := 0; media_objects := 0; media_bytes := 0;
  transform_requests := 0 |}.

Definition dominates (self earlier : BudgetUsage) : bool :=
  (root_bytes earlier <=? root_bytes self)
  && (total_derived_bytes earlier <=? total_derived_bytes self)
  && (retained_bytes earlier <=? retained_bytes self)
  && (objects earlier <=? objects self)
  && (edges earlier <=? edges self)
  && (entries earlier <=? entries self)
  && (deepest_object earlier <=? deepest_object self)
  && (text_bytes earlier <=? text_bytes self)
  && (media_objects earlier <=? media_objects self)
  && (media_bytes earlier <=? media_bytes self)
  && (transform_requests earlier <=? transform_requests self).

Inductive IssueClass :=
  Policy | Budget | Detection | Malformed | Encrypted | Unsupported | Integrity | Internal.

Record AttachmentError := {
  code : string;
  class : IssueClass;
  safe_message : text;
  object_id : option text;
  retryable : bool;
}.

(** [AttachmentError::budget] *)
Definition budget (c m : string) : AttachmentError :=
  {| code := c; class := Budget; safe_message := str m; object_id := None; retryable := false |}.

End Limits.

Module Ledger.
Import Limits.

Record BudgetLedger := { limits : BudgetLimits; usage : BudgetUsage }.

Definition new (l : BudgetLimits) : BudgetLedger := {| limits := l; usage := no_usage |}.
Definition finish (self : BudgetLedger) : BudgetUsage := usage self.

(** Writes to one field of the usage. *)
Definition set_usage (u : BudgetUsage) (s : BudgetLedger) : BudgetLedger :=
  {| limits := limits s; usage := u |}.
Definition set_root (v : Z) (u : BudgetUsage) : BudgetUsage :=
  {| root_bytes := v; total_derived_bytes := total_derived_bytes u;
     retained_bytes := retained_bytes u; objects := objects u; edges := edges u;
     entries := entries u; deepest_object := deepest_object u; text_bytes := text_bytes u;
     media_objects := media_objects u; media_bytes := media_bytes u;
     transform_requests := transform_requests u |}.
Definition set_derived (v : Z) (u : BudgetUsage) : BudgetUsage :=
  {| root_bytes := root_bytes u; total_derived_bytes := v;
     retained_bytes := retained_bytes u; objects := objects u; edges := edges u;
     entries := entries u; deepest_object := deepest_object u; text_bytes := text_bytes u;
     media_objects := media_objects u; media_bytes := media_bytes u;
     transform_requests := transform_requests u |}.
Definition set_retained (v : Z) (u : BudgetUsage) : BudgetUsage :=
  {| root_bytes := root_bytes u; total_derived_bytes := total_derived_bytes u;
     retained_bytes := v; objects := objects u; edges := edges u;
     entries := entries u; deepest_object := deepest_object u; text_bytes := text_bytes u;
     media_objects := media_objects u; media_bytes := media_bytes u;
     transform_requests := transform_requests u |}.
Definition set_objects (v : Z) (u : BudgetUsage) : BudgetUsage :=
  {| root_bytes := root_bytes u; total_derived_bytes := total_derived_bytes u;
     retained_bytes := retained_bytes u; objects := v; edges := edges u;
     entries := entries u; deepest_object := deepest_object u; text_bytes := text_bytes u;
     media_objects := media_objects u; media_bytes := media_bytes u;
     transform_requests := transform_requests u |}.
Definition set_edges (v : Z) (u : BudgetUsage) : BudgetUsage :=
  {| root_bytes := root_bytes u; total_derived_bytes := total_derived_bytes u;
     retained_bytes := retained_bytes u; objects := objects u; edges := v;
     entries := entries u; deepest_object := deepest_object u; text_bytes := text_bytes u;
     media_objects := media_objects u; media_bytes := media_bytes u;
     transform_requests := transform_requests u |}.
Definition set_entries (v : Z) (u : BudgetUsage) : BudgetUsage :=
  {| root_bytes := root_bytes u; total_derived_bytes := total_derived_bytes u;
     retained_bytes := retained_bytes u; objects := objects u; edges := edges u;
     entries := v; deepest_object := deepest_object u; text_bytes := text_bytes u;
     media_objects := media_objects u; media_bytes := media_bytes u;
     transform_requests := transform_requests u |}.
Definition set_deepest (v : Z) (u : BudgetUsage) : BudgetUsage :=
  {| root_bytes := root_bytes u; total_derived_bytes := total_derived_bytes u;
     retained_bytes := retained_bytes u; objects := objects u; edges := edges u;
     entries := entries u; deepest_object := v; text_bytes := text_bytes u;
     media_objects := media_objects u; media_bytes := media_bytes u;
     transform_requests := transform_requests u |}.

Notation ledger := (SM BudgetLedger AttachmentError).

Definition update (f : BudgetUsage → BudgetUsage) : ledger unit :=
  sm_modify (λ s, set_usage (f (usage s)) s).

Definition integer_overflow : AttachmentError :=
  budget "budget_integer_overflow"
    "Attachment budget accounting overflowed and the operation was blocked.".

(** The free function [checked_add]. *)
Definition add_u64 (left right : Z) : result AttachmentError Z :=
  ok_or (checked_add u64_max left right) integer_overflow.

(** [started.elapsed() > Duration::from_millis(deadline_ms)] *)
Definition check_deadline (elapsed : Z) : ledger unit :=
  s ← sm_get ;
  sm_reject_if (deadline_ms (limits s) * 1000000 <? elapsed)
    (budget "attachment_deadline_exceeded"
       "Attachment inspection exceeded its configured deadline.").

Definition next_retained_bytes (bytes : Z) : ledger Z :=
  s ← sm_get ;
  next ← sm_lift (add_u64 (retained_bytes (usage s)) bytes) ;
  sm_reject_if (max_retained_bytes (limits s) <? next)
    (budget "retained_bytes_exceeded"
       ("Attachment inspection exceeds the configured " +:+
        pretty (max_retained_bytes (limits s)) +:+ " byte retained-data limit.")) ;;
  mret next.

Definition next_object_count : ledger Z :=
  s ← sm_get ;
  next ← sm_lift (ok_or (checked_add u32_max (objects (usage s)) 1) integer_overflow) ;
  sm_reject_if (max_objects (limits s) <? next)
    (budget "object_count_exceeded"
       ("Attachment inspection exceeds the configured " +:+
        pretty (max_objects (limits s)) +:+ " object limit.")) ;;
  mret next.

Definition charge_root (elapsed bytes : Z) : ledger unit :=
  check_deadline elapsed ;;
  s ← sm_get ;
  sm_reject_if (max_root_bytes (limits s) <? bytes)
    (budget "root_bytes_exceeded"
       ("The attachment is " +:+ pretty bytes +:+ " bytes; the configured root limit is " +:+
        pretty (max_root_bytes (limits s)) +:+ " bytes.")) ;;
  root ← sm_lift (add_u64 (root_bytes (usage s)) bytes) ;
  retained ← next_retained_bytes bytes ;
  count ← next_object_count ;
  update (set_root root) ;;
  update (set_retained retained) ;;
  update (set_objects count).

Definition charge_entry (elapsed : Z) : ledger unit :=
  check_deadline elapsed ;;
  s ← sm_get ;
  next ← sm_lift (ok_or (checked_add u32_max (entries (usage s)) 1) integer_overflow) ;
  sm_reject_if (max_entries (limits s) <? next)
    (budget "archive_entry_limit_exceeded"
       ("Attachment containers exceed the configured " +:+
        pretty (max_entries (limits s)) +:+ " entry limit.")) ;;
  update (set_entries next).

Definition remaining_entries (s : BudgetLedger) : Z :=
  saturating_sub (max_entries (limits s)) (entries (usage s)).
Definition remaining_objects (s : BudgetLedger) : Z :=
  saturating_sub (max_objects (limits s)) (objects (usage s)).
Definition remaining_edges (s : BudgetLedger) : Z :=
  saturating_sub (max_edges (limits s)) (edges (usage s)).
Definition remaining_derived_bytes (s : BudgetLedger) : Z :=
  saturating_sub (max_total_derived_bytes (limits s)) (total_derived_bytes (usage s)).
Definition derived_budget_exhausted (s : BudgetLedger) : bool :=
  remaining_derived_bytes s =? 0.

Definition charge_edge (elapsed depth : Z) : ledger unit :=
  check_deadline elapsed ;;
  s ← sm_get ;
  next ← sm_lift (ok_or (checked_add u32_max (edges (usage s)) 1) integer_overflow) ;
  sm_reject_if (max_edges (limits s) <? next)
    (budget "derivation_edge_limit_exceeded"
       ("Attachment expansion exceeds the configured " +:+
        pretty (max_edges (limits s)) +:+ " edge limit.")) ;;
  update (set_edges next) ;;
  update (λ u, set_deepest (Z.max (deepest_object u) depth) u).

Definition depth_allows_derivation (s : BudgetLedger) (child_depth : Z) : bool :=
  child_depth <=? max_depth (limits s).

Definition check_name_len (bytes : Z) : ledger unit :=
  s ← sm_get ;
  bytes ← sm_lift (ok_or (try_from u32_max bytes) integer_overflow) ;
  sm_reject_if (max_name_bytes (limits s) <? bytes)
    (budget "archive_name_limit_exceeded"
       ("An archive member name is " +:+ pretty bytes +:+ " bytes; the configured limit is " +:+
        pretty (max_name_bytes (limits s)) +:+ " bytes.")).

Definition check_declared_member (declared : Z) (compressed : option Z) : ledger unit :=
  s ← sm_get ;
  sm_reject_if (max_object_bytes (limits s) <? declared)
    (budget "object_bytes_exceeded"
       ("An attachment member declares " +:+ pretty declared +:+
        " bytes; the configured object limit is " +:+
        pretty (max_object_bytes (limits s)) +:+ " bytes.")) ;;
  match compressed with
  | Some compressed =>
      if 0 <? declared then
        let base := Z.max compressed 1 in
        allowed ← sm_lift (ok_or (checked_mul u64_max base (max_declared_to_actual_ratio (limits s)))
                             integer_overflow) ;
        sm_reject_if (allowed <? declared)
          (budget "compression_ratio_exceeded"
             ("An attachment member declares an expansion ratio above the configured " +:+
              pretty (max_declared_to_actual_ratio (limits s)) +:+ ":1 limit."))
      else mret tt
  | None => mret tt
  end.

Definition max_stream_output (s : BudgetLedger) (compressed : option Z) : Z :=
  let ratio_bound := compressed ≫= λ bytes,
    checked_mul u64_max (Z.max bytes 1) (max_declared_to_actual_ratio (limits s)) in
  let remaining := saturating_sub (max_total_derived_bytes (limits s))
                     (total_derived_bytes (usage s)) in
  Z.min (Z.min (max_object_bytes (limits s)) remaining)
        (match ratio_bound with Some b => b | None => u64_max end).

Definition charge_derived_chunk (elapsed bytes : Z) : ledger unit :=
  check_deadline elapsed ;;
  s ← sm_get ;
  bytes ← sm_lift (ok_or (try_from u64_max bytes) integer_overflow) ;
  next ← sm_lift (add_u64 (total_derived_bytes (usage s)) bytes) ;
  if max_total_derived_bytes (limits s) <? next then
    update (set_derived (max_total_derived_bytes (limits s))) ;;
    sm_throw (budget "total_derived_bytes_exceeded"
       ("Attachment expansion exceeds the configured " +:+
        pretty (max_total_derived_bytes (limits s)) +:+ " byte cumulative limit."))
  else update (set_derived next).

Definition charge_rejected_stream_attempt (attempted : Z) : ledger unit :=
  s ← sm_get ;
  let charge := Z.min attempted (remaining_derived_bytes s) in
  update (set_derived (saturating_add u64_max (total_derived_bytes (usage s)) charge)).

Definition charge_unique_object (elapsed bytes depth : Z) : ledger unit :=
  check_deadline elapsed ;;
  retained ← next_retained_bytes bytes ;
  count ← next_object_count ;
  update (set_retained retained) ;;
  update (set_objects count) ;;
  update (λ u, set_deepest (Z.max (deepest_object u) depth) u).

End Ledger.

(** ** Reading a derived stream *)

(** A decoder and the clock that runs beside it: [source_elapsed] is the reading
    of [started.elapsed()] and [source_read w n] a [read] into [n] bytes of
    buffer, [None] for an I/O error. *)
Class ByteReader (W : Type) := {
  source_elapsed : W → Z * W;
  source_read : W → Z → option (list Z) * W;
}.

(** The contract of [std::io::Read] for a finite stream: a read returns a prefix
    of what is left, no longer than the buffer, and an empty one only at the end
    of the stream or for an empty buffer. *)
Class FiniteReader (W : Type) `{ByteReader W} := {
  contents : W → list Z;
  contents_elapsed w : contents (source_elapsed w).2 = contents w;
  contents_read w n chunk w' :
    0 ≤ n → source_read w n = (Some chunk, w') →
    contents w = chunk ++ contents w' ∧ len chunk ≤ n ∧
    (chunk = [] → n = 0 ∨ contents w = []);
}.

Module Stream.
Import Limits Ledger.

Inductive ReadFailure := FailBudget (e : AttachmentError) | FailIo.

Section Read.
Context {W : Type} `{ByteReader W}.

Notation io := (SM (BudgetLedger * W) (fault ReadFailure)).

(** A ledger operation that reads the clock, [.map_err(ReadFailure::Budget)]. *)
Definition timed {A} (op : Z → SM BudgetLedger AttachmentError A) : io A := λ '(s, w),
  let '(elapsed, w) := source_elapsed w in
  match op elapsed s with
  | (Ok a, s) => (Ok a, (s, w))
  | (Err e, s) => (Err (Fail (FailBudget e)), (s, w))
  end.

(** [reader.read(buffer).map_err(|_| ReadFailure::Io)] with a buffer of [n] bytes. *)
Definition read_up_to (n : Z) : io (list Z) := λ '(s, w),
  match source_read w n with
  | (Some chunk, w) => (Ok chunk, (s, w))
  | (None, w) => (Err (Fail FailIo), (s, w))
  end.

Definition derived_bytes_overflow : fault ReadFailure :=
  Fail (FailBudget (budget "derived_bytes_overflow"
    "A derived object length cannot be represented safely.")).
Definition derived_stream_limit_exceeded : fault ReadFailure :=
  Fail (FailBudget (budget "derived_stream_limit_exceeded"
    "A compressed attachment member exceeded its object, cumulative, or expansion-ratio limit.")).

Definition CHUNK_BYTES : Z := 32 * 1024.

(** The [loop] of [read_derived_bounded], with fuel. *)
Fixpoint read_loop (fuel : nat) (limit : Z) (output : list Z) : io (list Z) :=
  match fuel with
  | O => sm_throw OutOfFuel
  | S fuel =>
      timed check_deadline ;;
      produced ← sm_lift (ok_or (try_from u64_max (len output)) derived_bytes_overflow) ;
      if produced =? limit then
        probe ← read_up_to 1 ;
        if len probe =? 0 then mret output else sm_throw derived_stream_limit_exceeded
      else
        left ← sm_lift (usize_sub limit produced) ;
        let allowance := Z.min left CHUNK_BYTES in
        chunk ← read_up_to allowance ;
        if len chunk =? 0 then mret output
        else
          next ← sm_lift (ok_or (checked_add u64_max (len output) (len chunk))
                            derived_bytes_overflow) ;
          sm_reject_if (limit <? next) derived_stream_limit_exceeded ;;
          timed (λ elapsed, charge_derived_chunk elapsed (len chunk)) ;;
          read_loop fuel limit (output ++ chunk)
  end.

(** Every round but the last appends a byte, up to the limit. *)
Definition read_derived_bounded (compressed : option Z) : io (list Z) :=
  '(s, _) ← sm_get ;
  let limit := max_stream_output s compressed in
  sm_reject_if (limit =? 0)
    (Fail (FailBudget (budget "total_derived_bytes_exceeded"
       "The cumulative derived-byte budget is exhausted; the decoder was not read."))) ;;
  read_loop (S (Z.to_nat limit)) limit [].

End Read.
End Stream.

(** ** The ledger's operations as one step *)

Module BudgetProofs.
Import Limits Ledger.

Inductive Op :=
| ChargeRoot (bytes : Z)
| ChargeEntry
| ChargeEdge (depth : Z)
| ChargeDerivedChunk (bytes : Z)
| ChargeRejectedStreamAttempt (attempted : Z)
| ChargeUniqueObject (bytes depth : Z).

Definition run_op (elapsed : Z) (op : Op) : SM BudgetLedger AttachmentError unit :=
  match op with
  | ChargeRoot bytes => charge_root elapsed bytes
  | ChargeEntry => charge_entry elapsed
  | ChargeEdge depth => charge_edge elapsed depth
  | ChargeDerivedChunk bytes => charge_derived_chunk elapsed bytes
  | ChargeRejectedStreamAttempt attempted => charge_rejected_stream_attempt attempted
  | ChargeUniqueObject bytes depth => charge_unique_object elapsed bytes depth
  end.

(** The arguments as their Rust types bound them. *)
Definition op_ok (op : Op) : Prop :=
  match op with
  | ChargeRoot b | ChargeDerivedChunk b | ChargeRejectedStreamAttempt b => 0 ≤ b ≤ u64_max
  | ChargeEntry => True
  | ChargeEdge d => 0 ≤ d ≤ u16_max
  | ChargeUniqueObject b d => 0 ≤ b ≤ u64_max ∧ 0 ≤ d ≤ u16_max
  end.

Definition limits_ok (l : BudgetLimits) : Prop :=
  0 ≤ max_root_bytes l ≤ u64_max ∧ 0 ≤ max_object_bytes l ≤ u64_max ∧
  0 ≤ max_total_derived_bytes l ≤ u64_max ∧ 0 ≤ max_retained_bytes l ≤ u64_max ∧
  0 ≤ max_objects l ≤ u32_max ∧ 0 ≤ max_edges l ≤ u32_max ∧ 0 ≤ max_entries l ≤ u32_max ∧
  0 ≤ max_declared_to_actual_ratio l ≤ u32_max.

(** The usage stays within the limits. *)
Definition within (l : BudgetLimits) (u : BudgetUsage) : Prop :=
  0 ≤ root_bytes u ≤ retained_bytes u ∧ retained_bytes u ≤ max_retained_bytes l ∧
  0 ≤ total_derived_bytes u ≤ max_total_derived_bytes l ∧
  0 ≤ objects u ≤ max_objects l ∧ 0 ≤ edges u ≤ max_edges l ∧ 0 ≤ entries u ≤ max_entries l ∧
  0 ≤ deepest_object u ≤ u16_max.

(** When an operation is accepted, and what it adds. *)
Definition accepts (l : BudgetLimits) (u : BudgetUsage) (op : Op) : Prop :=
  match op with
  | ChargeRoot b => b ≤ max_root_bytes l ∧ retained_bytes u + b ≤ max_retained_bytes l ∧
                    objects u + 1 ≤ max_objects l
  | ChargeEntry => entries u + 1 ≤ max_entries l
  | ChargeEdge _ => edges u + 1 ≤ max_edges l
  | ChargeDerivedChunk b => total_derived_bytes u + b ≤ max_total_derived_bytes l
  | ChargeRejectedStreamAttempt _ => True
  | ChargeUniqueObject b _ => retained_bytes u + b ≤ max_retained_bytes l ∧
                              objects u + 1 ≤ max_objects l
  end.

Definition charged (l : BudgetLimits) (u : BudgetUsage) (op : Op) : BudgetUsage :=
  match op with
  | ChargeRoot b => set_objects (objects u + 1) (set_retained (retained_bytes u + b)
                      (set_root (root_bytes u + b) u))
  | ChargeEntry => set_entries (entries u + 1) u
  | ChargeEdge d => set_deepest (Z.max (deepest_object u) d) (set_edges (edges u + 1) u)
  | ChargeDerivedChunk b => set_derived (total_derived_bytes u + b) u
  | ChargeRejectedStreamAttempt b =>
      set_derived (Z.min (total_derived_bytes u + b) (max_total_derived_bytes l)) u
  | ChargeUniqueObject b d =>
      set_deepest (Z.max (deepest_object u) d) (set_objects (objects u + 1)
        (set_retained (retained_bytes u + b) u))
  end.

(** What a refused operation leaves: nothing changed, except that a chunk that
    crosses the cumulative limit consumes what was left of it. *)
Definition refused (l : BudgetLimits) (u : BudgetUsage) (elapsed : Z) (op : Op) : BudgetUsage :=
  match op with
  | ChargeDerivedChunk b =>
      if (elapsed <=? deadline_ms l * 1000000) && (total_derived_bytes u + b <=? u64_max)
      then set_derived (max_total_derived_bytes l) u else u
  | _ => u
  end.

Definition timely (l : BudgetLimits) (elapsed : Z) (op : Op) : Prop :=
  match op with
  | ChargeRejectedStreamAttempt _ => True
  | _ => elapsed ≤ deadline_ms l * 1000000
  end.

Ltac ledger_unfold :=
  unfold run_op, charge_root, charge_entry, charge_edge, charge_derived_chunk,
    charge_rejected_stream_attempt, charge_unique_object, check_deadline, next_retained_bytes,
    next_object_count, update, add_u64, mbind, mret, sm_bind, sm_ret, sm_get, sm_modify,
    sm_reject_if, sm_lift, sm_throw, reject_if, ok_or, remaining_derived_bytes, saturating_sub in *;
  cbn [usage limits set_usage set_root set_retained set_objects set_edges set_entries set_deepest
       set_derived root_bytes total_derived_bytes retained_bytes objects edges entries
       deepest_object text_bytes media_objects media_bytes transform_requests] in *.

Ltac ledger_cbn :=
  cbn [usage limits set_usage set_root set_retained set_objects set_edges set_entries set_deepest
       set_derived root_bytes total_derived_bytes retained_bytes objects edges entries
       deepest_object text_bytes media_objects media_bytes transform_requests].

(** Follow the guards of an operation. *)
Ltac ledger_cases :=
  repeat (ledger_cbn; match goal with
  | |- context [checked_add ?m ?a ?b] =>
      let E := fresh in destruct (checked_add m a b) eqn:E;
      [apply checked_add_Some in E as [-> ?]|apply checked_add_None in E]
  | |- context [try_from ?m ?a] =>
      let E := fresh in destruct (try_from m a) eqn:E;
      [apply try_from_Some in E as [-> ?]|unfold try_from in E]
  | |- context [if ?a <? ?b then _ else _] => destruct (Z.ltb_spec a b)
  | |- context [(?a <=? ?b) && (?c <=? ?d)] => destruct (Z.leb_spec a b), (Z.leb_spec c d)
  end).

Lemma run_op_spec s elapsed op :
  limits_ok (limits s) → within (limits s) (usage s) → op_ok op →
  let '(r, s') := run_op elapsed op s in
  limits s' = limits s ∧
  ((timely (limits s) elapsed op ∧ accepts (limits s) (usage s) op) ∧
     r = Ok tt ∧ usage s' = charged (limits s) (usage s) op ∨
   ¬ (timely (limits s) elapsed op ∧ accepts (limits s) (usage s) op) ∧
     (∃ e, r = Err e ∧ class e = Budget) ∧ usage s' = refused (limits s) (usage s) elapsed op).
Proof.
  intros Hl Hw Hop. destruct s as [l u]. cbn [limits usage] in *.
  unfold limits_ok, within in *.
  destruct op; cbn [op_ok timely accepts charged refused] in *; ledger_unfold; ledger_cases;
    cbn [andb]; (split; [done|]);
    first [left; split_and!; (done || lia)
          |right; split_and!; [lia|eexists; split; [reflexivity|done]|done]
          |idtac].
  - rewrite (proj2 (Z.leb_le _ _)) in H by lia. done.
  - left. split_and!; [done..|]. f_equal. unfold saturating_add. lia.
Qed.

(** Charging an accepted operation, and refusing one, keep the usage within the
    limits and only ever raise it. *)
Lemma run_op_within s elapsed op :
  limits_ok (limits s) → within (limits s) (usage s) → op_ok op →
  let s' := (run_op elapsed op s).2 in
  limits s' = limits s ∧ within (limits s) (usage s') ∧ dominates (usage s') (usage s) = true.
Proof.
  intros Hl Hw Hop. pose proof (run_op_spec s elapsed op Hl Hw Hop) as H.
  destruct (run_op elapsed op s) as [r s']. cbn [snd]. destruct H as [Hlim H]. split; [done|].
  unfold limits_ok, within, dominates in *. rewrite !andb_true_iff, !Z.leb_le.
  destruct H as [([_ Hacc] & _ & ->)|(_ & _ & ->)];
    destruct op; cbn [accepts charged refused op_ok] in *; try case_match; ledger_cbn; lia.
Qed.

Definition run_ops (ops : list (Z * Op)) (s : BudgetLedger) : BudgetLedger :=
  foldl (λ s '(elapsed, op), (run_op elapsed op s).2) s ops.

Lemma run_ops_within ops s :
  limits_ok (limits s) → within (limits s) (usage s) → Forall (λ o, op_ok o.2) ops →
  limits (run_ops ops s) = limits s ∧ within (limits s) (usage (run_ops ops s)) ∧
  dominates (usage (run_ops ops s)) (usage s) = true.
Proof.
  intros Hl Hw Hops. revert s Hl Hw. induction Hops as [|[elapsed op] ops Hop _ IH]; intros s Hl Hw.
  - split_and!; try done. unfold dominates. by rewrite !Z.leb_refl.
  - destruct (run_op_within s elapsed op Hl Hw Hop) as (H1 & H2 & H3). simpl.
    set (s1 := (run_op elapsed op s).2) in *.
    destruct (IH s1) as (G1 & G2 & G3); [by rewrite H1..|]. rewrite H1 in *.
    split_and!; try done. unfold dominates in *. rewrite !andb_true_iff, !Z.leb_le in *. lia.
Qed.

Lemma new_within l : limits_ok l → within l (usage (new l)).
Proof. unfold limits_ok, within. simpl. unfold u16_max. lia. Qed.

Lemma run_ops_app ops1 ops2 s : run_ops (ops1 ++ ops2) s = run_ops ops2 (run_ops ops1 s).
Proof. unfold run_ops. by rewrite foldl_app. Qed.


(** Every decision of the ledger is exact. On a ledger within its limits an
    operation succeeds if and only if the inspection is in time and the charge
    fits its limits, and then adds exactly the charge; otherwise it fails with a
    budget error and changes nothing, except that a chunk that crosses the
    cumulative limit uses up what was left of it. *)
Theorem budget_decisions_exact (s : BudgetLedger) (elapsed : Z) (op : Op) :
  limits_ok (limits s) → within (limits s) (usage s) → op_ok op →
  let '(r, s') := run_op elapsed op s in
  (r = Ok tt ↔ timely (limits s) elapsed op ∧ accepts (limits s) (usage s) op) ∧
  match r with
  | Ok _ => usage s' = charged (limits s) (usage s) op
  | Err e => class e = Budget ∧ usage s' = refused (limits s) (usage s) elapsed op
  end.
Proof.
  intros Hl Hw Hop. pose proof (run_op_spec s elapsed op Hl Hw Hop) as H.
  destruct (run_op elapsed op s) as [r s'].
  destruct H as [_ [(Hacc & -> & ?)|(Hacc & (e & -> & ?) & ?)]].
  - by split.
  - split; [|done]. by split; [|intros ?%Hacc].
Qed.

(** Limits that pass validation are usable: a fresh ledger admits a root if
    and only if the root is within its own limit (the retained-data and object
    limits are never in the way), and a first stream of unknown compressed size
    may fill a whole object. *)
Theorem budget_validated_limits_usable (l : BudgetLimits) (elapsed bytes : Z) :
  limits_ok l → validate l = Ok tt → 0 ≤ bytes ≤ u64_max →
  elapsed ≤ deadline_ms l * 1000000 →
  ((charge_root elapsed bytes (new l)).1 = Ok tt ↔ bytes ≤ max_root_bytes l) ∧
  max_stream_output (new l) None = max_object_bytes l ∧ 0 < max_object_bytes l.
Proof.
  intros Hl Hv Hb Ht.
  assert (0 < max_objects l ∧ 0 < max_object_bytes l ∧ max_object_bytes l ≤ max_total_derived_bytes l ∧
          max_root_bytes l ≤ max_retained_bytes l) as (Ho & Hob & Hot & Hr).
  { unfold validate in Hv. revert Hv. cbn [forallb]. unfold reject_if.
    repeat match goal with |- context [if ?b then _ else _] => destruct b eqn:?; [done|] end.
    intros _. bool_prop. unfold limits_ok in *. lia. }
  pose proof (run_op_spec (new l) elapsed (ChargeRoot bytes) Hl (new_within l Hl) Hb) as H.
  cbn [run_op] in H. destruct (charge_root elapsed bytes (new l)) as [r s'].
  unfold limits_ok in Hl. split_and!; [|unfold max_stream_output, saturating_sub; simpl; lia|done].
  destruct H as [_ [([_ Hacc] & -> & _)|(Hacc & (e & -> & _) & _)]]; cbn [fst accepts timely new usage limits no_usage retained_bytes objects] in *.
  - split; [lia|done].
  - split; [done|]. intros Hroot. exfalso. apply Hacc. split; [done|]. lia.
Qed.

(** A stream is never read past an object, the bytes that are left, or a [u64]. *)
Lemma max_stream_output_bounds (s : BudgetLedger) (compressed : option Z) : limits_ok (limits s) → within (limits s) (usage s) →
  0 ≤ max_stream_output s compressed ≤ max_object_bytes (limits s) ∧
  max_stream_output s compressed ≤ remaining_derived_bytes s ∧ max_stream_output s compressed ≤ u64_max.
Proof.
  intros Hl Hw. unfold max_stream_output, remaining_derived_bytes, limits_ok, within, saturating_sub in *.
  destruct compressed as [c|]; cbn [mbind option_bind]; [|lia].
  destruct (checked_mul _ _ _) as [v|] eqn:Hv; [|lia]. apply checked_mul_Some in Hv as [-> ?].
  assert (0 ≤ Z.max c 1 * max_declared_to_actual_ratio (limits s)) by (apply Z.mul_nonneg_nonneg; lia).
  lia.
Qed.

End BudgetProofs.

(** ** The bounded stream reader *)

Module BudgetStream.
Import Limits Ledger Stream BudgetProofs.

Section Bounded.
Context {W : Type} `{FiniteReader W}.

(** The outcome of a bounded read that may append up to [room] bytes to [output]. *)
Definition stream_outcome (room : Z) (output : list Z) (s : BudgetLedger) (w : W)
    (r : result (fault ReadFailure) (list Z)) (s' : BudgetLedger) (w' : W) : Prop :=
  limits s' = limits s ∧ ∃ n, 0 ≤ n ≤ room ∧
  usage s' = set_derived (total_derived_bytes (usage s) + n) (usage s) ∧
  match r with
  | Ok res => res = output ++ contents w ∧ len (contents w) = n
  | Err (Fail (FailBudget e)) =>
      class e = Budget ∧
      (code e = "attachment_deadline_exceeded" ∨
       code e = "derived_stream_limit_exceeded" ∧ room < len (contents w))
  | Err (Fail FailIo) => True
  | Err _ => False
  end.

Lemma check_deadline_cases elapsed s :
  check_deadline elapsed s = (Ok tt, s) ∨
  ∃ e, check_deadline elapsed s = (Err e, s) ∧ class e = Budget ∧
       code e = "attachment_deadline_exceeded".
Proof. ledger_unfold. case_match; [right; eauto|by left]. Qed.

(** A chunk that fits is charged, or the deadline has passed. *)
Lemma charge_fitting_chunk elapsed b s :
  limits_ok (limits s) → within (limits s) (usage s) → 0 ≤ b →
  total_derived_bytes (usage s) + b ≤ max_total_derived_bytes (limits s) →
  charge_derived_chunk elapsed b s =
    (Ok tt, set_usage (set_derived (total_derived_bytes (usage s) + b) (usage s)) s) ∨
  ∃ e, charge_derived_chunk elapsed b s = (Err e, s) ∧ class e = Budget ∧
       code e = "attachment_deadline_exceeded".
Proof.
  intros Hl Hw Hb Hfit. unfold limits_ok, within in *. destruct s as [l u].
  ledger_unfold. ledger_cases; try lia; try (by left); try (right; by eauto).
  rewrite (proj2 (Z.leb_le b _)) in H1 by lia. done.
Qed.

Lemma set_derived_id u : set_derived (total_derived_bytes u + 0) u = u.
Proof. destruct u. unfold set_derived. simpl. by rewrite Z.add_0_r. Qed.

(** An outcome that charges nothing more. *)
Lemma outcome_here room output s w w' r :
  0 ≤ room → 
  match r with
  | Ok res => res = output ++ contents w ∧ len (contents w) = 0
  | Err (Fail (FailBudget e)) =>
      class e = Budget ∧
      (code e = "attachment_deadline_exceeded" ∨
       code e = "derived_stream_limit_exceeded" ∧ room < len (contents w))
  | Err (Fail FailIo) => True
  | Err _ => False
  end →
  stream_outcome room output s w r s w'.
Proof.
  intros Hroom Hr. split; [done|]. exists 0. split; [lia|]. split; [|done].
  by rewrite set_derived_id.
Qed.

Lemma read_loop_spec fuel limit output s w :
  limits_ok (limits s) → within (limits s) (usage s) →
  len output ≤ limit ≤ u64_max → limit - len output < Z.of_nat fuel →
  total_derived_bytes (usage s) + (limit - len output) ≤ max_total_derived_bytes (limits s) →
  let '(r, (s', w')) := read_loop fuel limit output (s, w) in
  stream_outcome (limit - len output) output s w r s' w'.
Proof.
  revert output s w. induction fuel as [|fuel IH]; intros output s w Hl Hw Hout Hfuel Hroom; [lia|].
  cbn [read_loop]. unfold mbind, sm_bind, timed at 1.
  destruct (source_elapsed w) as [elapsed w1] eqn:Hw1.
  assert (contents w1 = contents w) as Hc1 by (pose proof (contents_elapsed w) as Hc; by rewrite Hw1 in Hc).
  destruct (check_deadline_cases elapsed s) as [->|(e & -> & He)];
    [|apply outcome_here; [lia|naive_solver]].
  unfold sm_lift at 1. unfold try_from. rewrite (proj2 (Z.leb_le (len output) u64_max)) by lia. cbn [ok_or].
  destruct (len output =? limit) eqn:Hfull; bool_prop.
  - unfold read_up_to. destruct (source_read w1 1) as [[probe|] w2] eqn:Hr; [|by apply outcome_here; [lia|]].
    apply contents_read in Hr as (Hc & Hn & He); [|lia]. rewrite Hc1 in *.
    destruct probe as [|b probe]; simpl.
    + apply outcome_here; [lia|]. destruct He as [?| ->]; [done|lia|]. by rewrite app_nil_r.
    + apply outcome_here; [lia|]. split; [done|]. right. split; [done|].
      rewrite Hc, len_app, len_cons. pose proof (len_nonneg probe). pose proof (len_nonneg (contents w2)). lia.
  - unfold sm_lift at 1, usize_sub, checked_sub. rewrite (proj2 (Z.leb_le (len output) limit)) by lia. cbn [ok_or].
    unfold read_up_to at 1. 
    destruct (source_read w1 _) as [[chunk|] w2] eqn:Hr; [|by apply outcome_here; [lia|]].
    apply contents_read in Hr as (Hc & Hn & He); [|unfold CHUNK_BYTES; lia]. rewrite Hc1 in *.
    destruct (len chunk =? 0) eqn:Hz; bool_prop.
    { assert (chunk = []) as -> by (destruct chunk; [done|rewrite len_cons in Hz; pose proof (len_nonneg chunk); lia]).
      apply outcome_here; [lia|]. destruct He as [?| ->]; [done|unfold CHUNK_BYTES in *; lia|]. by rewrite app_nil_r. }
    pose proof (len_nonneg chunk). pose proof (len_nonneg output).
    unfold sm_lift at 1, checked_add. rewrite (proj2 (Z.leb_le (len output + len chunk) u64_max)) by lia. cbn [ok_or].
    unfold sm_reject_if, sm_lift, reject_if. rewrite (proj2 (Z.ltb_ge limit _)) by lia.
    unfold timed. destruct (source_elapsed w2) as [elapsed2 w3] eqn:Hw3.
    assert (contents w3 = contents w2) as Hc3 by (pose proof (contents_elapsed w2) as Hc'; by rewrite Hw3 in Hc').
    destruct (charge_fitting_chunk elapsed2 (len chunk) s) as [->|(e & -> & He')]; try done; try lia;
      [|apply outcome_here; [lia|naive_solver]].
    set (s1 := set_usage _ s).
    specialize (IH (output ++ chunk) s1 w3). rewrite len_app in IH.
    assert (within (limits s) (usage s1)) as Hw'.
    { unfold within in *. unfold s1. ledger_cbn. lia. }
    destruct (read_loop fuel limit (output ++ chunk) (s1, w3)) as [r [s' w']].
    destruct IH as (Hlim & n & Hn' & Hu & Hres); try done; try lia.
    { unfold s1. ledger_cbn. lia. }
    split; [done|]. exists (len chunk + n). split; [lia|].
    split. { rewrite Hu. unfold s1. ledger_cbn. unfold set_derived. ledger_cbn. by rewrite Z.add_assoc. }
    rewrite Hc3 in *. destruct r as [res|[| |[e|]]]; try done.
    + destruct Hres as [-> <-]. rewrite Hc, len_app. by rewrite (assoc_L (++)).
    + destruct Hres as [? [?|[? ?]]]; split; auto. right. split; [done|].
      rewrite Hc, len_app. lia.
Qed.

(** A derived stream is read completely or not at all, and never past its
    bound. Whatever the decoder yields, the read returns; a successful read is the
    whole content of the stream, no longer than an object, the remaining
    cumulative budget and the expansion ratio allow, and the ledger is charged
    exactly its length; a failed read has charged at most that bound, and its
    budget error is the deadline, the exhausted budget, or a stream that really is
    longer than the bound. *)
Theorem budget_stream_read_bounded (s : BudgetLedger) (w : W) (compressed : option Z) :
  limits_ok (limits s) → within (limits s) (usage s) →
  let bound := max_stream_output s compressed in
  let '(r, (s', w')) := read_derived_bounded compressed (s, w) in
  0 ≤ bound ≤ max_object_bytes (limits s) ∧ bound ≤ remaining_derived_bytes s ∧
  limits s' = limits s ∧ ∃ n, 0 ≤ n ≤ bound ∧
  usage s' = set_derived (total_derived_bytes (usage s) + n) (usage s) ∧
  match r with
  | Ok res => res = contents w ∧ len res = n
  | Err (Fail (FailBudget e)) =>
      class e = Budget ∧
      (code e = "attachment_deadline_exceeded" ∨
       code e = "total_derived_bytes_exceeded" ∧ bound = 0 ∨
       code e = "derived_stream_limit_exceeded" ∧ bound < len (contents w))
  | Err (Fail FailIo) => True
  | Err _ => False
  end.
Proof.
  intros Hl Hw. cbv zeta.
  destruct (max_stream_output_bounds s compressed Hl Hw) as (Hb & Hrem & Hmax).
  unfold read_derived_bounded, mbind, sm_bind, sm_get.
  unfold sm_reject_if, sm_lift, reject_if at 1.
  destruct (max_stream_output s compressed =? 0) eqn:Hz; bool_prop.
  - split_and!; try done; try lia. exists 0. split; [lia|]. split; [by rewrite set_derived_id|].
    simpl. auto.
  - pose proof (read_loop_spec (S (Z.to_nat (max_stream_output s compressed)))
      (max_stream_output s compressed) [] s w Hl Hw) as H1.
    destruct (read_loop _ _ _ _) as [r [s' w']].
    unfold remaining_derived_bytes, saturating_sub in *. unfold within in Hw. change (len []) with 0 in H1.
    destruct H1 as (Hlim & n & Hn & Hu & Hr); [lia..|].
    split_and!; try done; try lia. exists n. split; [lia|]. split; [done|].
    rewrite Z.sub_0_r in Hr. destruct r as [res|[| |[e|]]]; naive_solver.
Qed.

End Bounded.
End BudgetStream.

(** ** Witnesses *)

Module BudgetWitnesses.
Import Limits Ledger Stream BudgetProofs BudgetStream.

(** A decoder that holds its content, with a clock that stands still. *)
#[export] Instance list_reader : ByteReader (list Z) := {
  source_elapsed w := (0, w);
  source_read w n := (Some (take (Z.to_nat n) w), drop (Z.to_nat n) w);
}.

#[export] Program Instance list_reader_finite : FiniteReader (list Z) := { contents w := w }.
Next Obligation. done. Qed.
Next Obligation.
  intros w n chunk w' Hn [= <- <-]. split_and!; [by rewrite take_drop| |].
  - unfold len. rewrite length_take. lia.
  - intros Hnil. destruct w as [|b w]; [by right|left].
    apply (f_equal length) in Hnil. rewrite length_take in Hnil. simpl in Hnil. lia.
Qed.

Lemma default_ok : limits_ok default.
Proof. unfold limits_ok, u64_max, u32_max. simpl. lia. Qed.

(** The default limits with room for ten derived bytes. *)
Definition small : BudgetLimits := {|
  max_root_bytes := 100; max_object_bytes := 10; max_total_derived_bytes := 10;
  max_retained_bytes := 100; max_objects := 2; max_edges := 1; max_entries := 1;
  max_depth := 8; max_name_bytes := 16; max_parser_input_bytes := 100;
  max_container_metadata_bytes := 100; max_decoder_window_bytes := 100;
  max_declared_to_actual_ratio := 2; max_text_bytes := 100; max_media_objects := 1;
  max_media_bytes := 100; max_image_pixels := 100; max_transform_requests := 1;
  deadline_ms := 1000 |}.

Lemma small_ok : limits_ok small.
Proof. unfold limits_ok, u64_max, u32_max. simpl. lia. Qed.

Definition sample_ops : list (Z * Op) :=
  [(0, ChargeRoot 60); (1, ChargeEdge 1); (2, ChargeDerivedChunk 7)].


Lemma budget_decisions_exact_witness :
  (charge_derived_chunk 0 7 (new small)).1 = Ok tt ∧
  class (budget "" "") = Budget.
Proof.
  split; [|reflexivity].
  pose proof (budget_decisions_exact (new small) 0 (ChargeDerivedChunk 7) small_ok
    (new_within small small_ok)) as H.
  cbn [run_op] in H. destruct (charge_derived_chunk 0 7 (new small)) as [r s'].
  destruct H as [Hiff _]; [vm_compute; split; discriminate|].
  apply Hiff. split; vm_compute; discriminate.
Defined.

Lemma budget_validated_limits_usable_witness :
  (charge_root 0 (256 * 1024 * 1024) (new default)).1 = Ok tt ∧
  max_stream_output (new default) None = 128 * 1024 * 1024.
Proof.
  assert (validate default = Ok tt) as Hv by (vm_compute; reflexivity).
  assert (0 ≤ 256 * 1024 * 1024 ≤ u64_max) as Hb by (unfold u64_max; lia).
  assert (0 ≤ deadline_ms default * 1000000) as Ht by (vm_compute; discriminate).
  destruct (budget_validated_limits_usable default 0 (256 * 1024 * 1024) default_ok Hv Hb Ht)
    as (Hroot & Hstream & _).
  split; [apply Hroot; vm_compute; discriminate|rewrite Hstream; vm_compute; reflexivity].
Defined.

Lemma budget_stream_read_bounded_witness :
  (read_derived_bounded (Some 4) (new small, [1; 2; 3; 4; 5; 6])).1 = Ok [1; 2; 3; 4; 5; 6] ∧
  ¬ is_ok (read_derived_bounded (Some 2) (new small, [1; 2; 3; 4; 5; 6])).1.
Proof.
  split; [vm_compute; reflexivity|].
  pose proof (budget_stream_read_bounded (new small) [1; 2; 3; 4; 5; 6] (Some 2) small_ok
    (new_within small small_ok)) as H.
  cbv zeta in H. assert (max_stream_output (new small) (Some 2) = 4) as Hb by (vm_compute; reflexivity).
  rewrite Hb in H. destruct (read_derived_bounded _ _) as [r [s' w']].
  destruct H as (_ & _ & _ & n & Hn & _ & Hr). destruct r as [res|]; [|intros []].
  destruct Hr as [-> Hlen]. vm_compute in Hlen. subst n. lia.
Defined.

End BudgetWitnesses.
