(* ===== verification/PdfPreflight.v ===== *)
(** * PdfPreflight: what a PDF declares, before it is parsed

    Models [attachment-native-inspect/src/pdf_preflight.rs]: a scan that counts the object
    headers, the entries of cross-reference tables and streams and the embedded files that
    the bytes of a PDF declare, and refuses more than the budget has left, before the
    third-party parser allocates anything.

    A cursor is the rest of the bytes behind it. Shows that the scan ends on every input and
    that what it lets through declares no more than it is allowed to. *)

From S2P Require Import Prelude Bytes Text Utf8 Strings.
Local Open Scope Z_scope.

Record PdfPreflight := {
  object_declarations : Z; xref_entries : Z; potential_embedded_files : Z; metadata_bytes : Z }.
Record PdfPreflightError := limit_error { code : string; message : string }.
Notation pdf := (parse PdfPreflightError).

(** ** Bytes *)

(** [u8::is_ascii_whitespace] *)
Definition is_ascii_whitespace (b : Z) : bool := (b =? 9) || (b =? 10) || (b =? 12) || (b =? 13) || (b =? 32).
Definition is_eol (b : Z) : bool := (b =? 10) || (b =? 13).
Definition is_pdf_delimiter (b : Z) : bool := bool_decide (b ∈ str "/<>[](){}").
Definition is_pdf_separator (b : Z) : bool := is_ascii_whitespace b || is_pdf_delimiter b.
Definition PERCENT : Z := 37.
(** What a token is made of *)
Definition is_regular (b : Z) : bool := negb (is_ascii_whitespace b) && negb (is_pdf_delimiter b) && negb (b =? PERCENT).

(** The bytes that a [while] loop over a predicate passes, and the rest *)
Fixpoint span_by (p : Z → bool) (l : list Z) : list Z * list Z :=
  match l with
  | [] => ([], [])
  | b :: l' => if p b then let '(x, r) := span_by p l' in (b :: x, r) else ([], l)
  end.

Definition trim_ascii (l : list Z) : list Z := trim_end_by is_ascii_whitespace (trim_start_by is_ascii_whitespace l).

Fixpoint parse_digits (value : Z) (l : list Z) : option Z :=
  match l with
  | [] => Some value
  | b :: l => v ← checked_mul u64_max value 10 ; d ← checked_sub b 48 ; v ← checked_add u64_max v d ; parse_digits v l
  end.
Definition parse_u64 (l : list Z) : option Z := if bool_decide (l = []) then None else parse_digits 0 l.

(** ** Tokens and object headers *)

(** The loop that skips whitespace and comments *)
Fixpoint skip_blank (fuel : nat) (l : list Z) : pdf (list Z) :=
  match fuel with
  | O => Err OutOfFuel
  | S fuel =>
    let l := (span_by is_ascii_whitespace l).2 in
    match l with
    | b :: _ => if b =? PERCENT then skip_blank fuel (span_by (λ b, negb (is_eol b)) l).2 else Ok l
    | [] => Ok l
    end
  end.
Definition next_pdf_token (l : list Z) : pdf (option (list Z * list Z)) :=
  l ← skip_blank (S (length l)) l ;
  match l with
  | [] => Ok None
  | first :: rest =>
    if is_pdf_delimiter first then Ok (Some ([first], rest))
    else
      let '(token, rest) := span_by is_regular l in
      Ok (if bool_decide (token = []) then None else Some (token, rest))
  end.

Fixpoint count_loop (fuel : nat) (limit : Z) (l : list Z) (count : Z) (previous_number two_numbers : bool) : pdf Z :=
  match fuel with
  | O => Err OutOfFuel
  | S fuel =>
    t ← next_pdf_token l ;
    match t with
    | None => Ok count
    | Some (token, l) =>
      if bool_decide (token = str "obj") && two_numbers then
        count ← need (checked_add u32_max count 1) (limit_error "pdf_object_count_overflow" "The PDF object count cannot be represented safely.") ;
        fail_if (limit <? count) (limit_error "pdf_object_limit_exceeded"
          "The PDF declares more objects than the remaining global object budget. It was not parsed.") ;;
        count_loop fuel limit l count false false
      else
        let number := bool_decide (is_Some (parse_u64 token)) in
        count_loop fuel limit l count number (previous_number && number)
    end
  end.
Definition count_object_declarations (l : list Z) (limit : Z) : pdf Z := count_loop (S (length l)) limit l 0 false false.
Definition contains_object_header (line : list Z) : pdf bool :=
  match count_object_declarations line u32_max with
  | Ok count => Ok (0 <? count)
  | Err (Fail _) => Ok false
  | Err Panic => Err Panic
  | Err OutOfFuel => Err OutOfFuel
  end.

(** ** Lines and cross-reference tables *)

(** One line with the line ends behind it, and the rest *)
Definition next_line (l : list Z) : list Z * list Z :=
  let '(a, r) := span_by (λ b, negb (is_eol b)) l in
  let '(b, r) := span_by is_eol r in
  (a ++ b, r).

(** [line.split(u8::is_ascii_whitespace).filter(|part| !part.is_empty())] *)
Fixpoint split_by (p : Z → bool) (l : list Z) : list (list Z) :=
  match l with
  | [] => [[]]
  | b :: l =>
    if p b then [] :: split_by p l
    else match split_by p l with
         | [] => [[b]]
         | x :: xs => (b :: x) :: xs
         end
  end.
Definition fields (line : list Z) : list (list Z) :=
  List.filter (λ part, negb (bool_decide (part = []))) (split_by is_ascii_whitespace line).
Definition xref_subsection_count (line : list Z) : option Z :=
  match fields line with
  | [start; count] => if bool_decide (is_Some (parse_u64 start)) then parse_u64 count else None
  | _ => None
  end.

Definition checked_metadata (current additional limit : Z) : pdf Z :=
  let overflow := limit_error "pdf_metadata_length_overflow" "PDF structural metadata length cannot be represented safely." in
  next ← need (checked_add u64_max current additional) overflow ;
  fail_if (limit <? next) (limit_error "pdf_metadata_limit_exceeded"
    "The PDF cross-reference and object metadata exceed the configured container-metadata limit. It was not parsed.") ;;
  Ok next.

Definition xref_step (line : list Z) (in_xref : bool) : bool :=
  if bool_decide (line = str "xref") then true
  else if in_xref && (starts_with line (str "trailer") || starts_with line (str "startxref")) then false
  else in_xref.

Fixpoint scan_lines (fuel : nat) (max_objects max_metadata_bytes : Z) (l : list Z) (xref_entries metadata_bytes : Z) (in_xref : bool) :
    pdf (Z * Z) :=
  match l, fuel with
  | [], _ => Ok (xref_entries, metadata_bytes)
  | _, O => Err OutOfFuel
  | _, S fuel =>
    let '(raw, rest) := next_line l in
    let line := trim_ascii raw in
    let in_xref := xref_step line in_xref in
    header ← contains_object_header line ;
    metadata_bytes ← (if header : bool then checked_metadata metadata_bytes (len raw) max_metadata_bytes else Ok metadata_bytes) ;
    if in_xref then
      metadata_bytes ← checked_metadata metadata_bytes (len raw) max_metadata_bytes ;
      match xref_subsection_count line with
      | Some count =>
        xref_entries ← need (checked_add u64_max xref_entries count)
          (limit_error "pdf_xref_count_overflow" "The PDF cross-reference count cannot be represented safely.") ;
        fail_if (max_objects <? xref_entries) (limit_error "pdf_xref_object_limit_exceeded"
          "The PDF cross-reference table declares more objects than the remaining global object budget. It was not parsed.") ;;
        scan_lines fuel max_objects max_metadata_bytes rest xref_entries metadata_bytes in_xref
      | None => scan_lines fuel max_objects max_metadata_bytes rest xref_entries metadata_bytes in_xref
      end
    else scan_lines fuel max_objects max_metadata_bytes rest xref_entries metadata_bytes in_xref
  end.

(** ** Names *)

(** Whether what is behind a name ends it, given what stands for the end of the bytes *)
Definition name_ends (rest : list Z) : bool := match rest with b :: _ => is_pdf_separator b | [] => true end.

Fixpoint maximum_loop (fuel : nat) (name : list Z) (l : list Z) (maximum : Z) : pdf Z :=
  if len l <? len name then Ok maximum
  else match fuel with
  | O => Err OutOfFuel
  | S fuel =>
    match strip_prefix l name with
    | Some rest =>
      if name_ends rest then
        let '(digits, rest) := span_by is_ascii_digit (span_by is_ascii_whitespace rest).2 in
        maximum ← (if bool_decide (digits = []) then Ok maximum
                   else value ← need (parse_u64 digits)
                          (limit_error "pdf_xref_count_overflow" "A PDF cross-reference size cannot be represented safely.") ;
                        Ok (Z.max maximum value)) ;
        maximum_loop fuel name rest maximum
      else maximum_loop fuel name (tail l) maximum
    | None => maximum_loop fuel name (tail l) maximum
    end
  end.
Definition maximum_name_integer (l name : list Z) : pdf Z := maximum_loop (S (length l)) name l 0.

Fixpoint count_name_loop (fuel : nat) (name : list Z) (l : list Z) (count : Z) : pdf Z :=
  if len l <? len name then Ok count
  else match fuel with
  | O => Err OutOfFuel
  | S fuel =>
    match strip_prefix l name with
    | Some rest => if name_ends rest then count_name_loop fuel name rest (saturating_add u32_max count 1)
                   else count_name_loop fuel name (tail l) count
    | None => count_name_loop fuel name (tail l) count
    end
  end.
Definition count_name (l name : list Z) : pdf Z := count_name_loop (S (length l)) name l 0.

Fixpoint name_pair_loop (fuel : nat) (first second : list Z) (l : list Z) : pdf bool :=
  if len l <? len first then Ok false
  else match fuel with
  | O => Err OutOfFuel
  | S fuel =>
    match strip_prefix l first with
    | Some rest =>
      let rest := (span_by is_ascii_whitespace rest).2 in
      if starts_with rest second then Ok true else name_pair_loop fuel first second rest
    | None => name_pair_loop fuel first second (tail l)
    end
  end.
Definition has_name_pair (l first second : list Z) : pdf bool := name_pair_loop (S (length l)) first second l.

(** ** The preflight *)

Definition preflight (l : list Z) (max_objects max_entries max_metadata_bytes : Z) : pdf PdfPreflight :=
  objects ← count_object_declarations l max_objects ;
  '(entries, metadata) ← scan_lines (S (length l)) max_objects max_metadata_bytes l 0 0 false ;
  pair ← has_name_pair l (str "/Type") (str "/XRef") ;
  xref_size ← (if pair : bool then maximum_name_integer l (str "/Size") else Ok 0) ;
  fail_if (max_objects <? xref_size) (limit_error "pdf_xref_object_limit_exceeded"
    "A PDF cross-reference stream declares more objects than the remaining global object budget. It was not parsed.") ;;
  specs ← count_name l (str "/Filespec") ;
  files ← count_name l (str "/EmbeddedFile") ;
  fail_if (max_entries <? Z.max specs files) (limit_error "archive_entry_limit_exceeded"
    "The PDF declares more potential embedded files than the remaining global entry budget. It was not parsed.") ;;
  Ok {| object_declarations := objects; xref_entries := Z.max entries xref_size; potential_embedded_files := Z.max specs files;
        metadata_bytes := metadata |}.

(** ** Lemmas *)

Lemma span_by_spec p l : ∃ x r, span_by p l = (x, r) ∧ l = x ++ r ∧ Forall (λ b, p b = true) x ∧
  (∀ b, head r = Some b → p b = false).
Proof.
  induction l as [|b l (x & r & IH & -> & Hx & Hr)]; simpl; [exists [], []; split_and!; [done..|by constructor|done]|].
  destruct (p b) eqn:Hb.
  - exists (b :: x), r. rewrite IH. split_and!; [done..|by constructor|done].
  - exists [], (b :: x ++ r). split_and!; [done..|by constructor|]. by intros ? [= <-].
Qed.
Lemma span_by_all p x r : Forall (λ b, p b = true) x → (∀ b, head r = Some b → p b = false) → span_by p (x ++ r) = (x, r).
Proof.
  induction 1 as [|b x Hb _ IH]; intros Hr; simpl; [|by rewrite Hb, IH].
  destruct r as [|b r]; [done|]. simpl. by rewrite Hr.
Qed.
Ltac span_by_step :=
  match goal with
  | |- context [span_by ?p ?l] =>
    let x := fresh "x" in let r := fresh "r" in let E := fresh "E" in let Hl := fresh "Hl" in
    destruct (span_by_spec p l) as (x & r & E & Hl & ?Hx & ?Hr); rewrite E; cbn [snd fst]
  end.

(** ** Object headers *)

(** The tokens of a PDF: delimiters and runs of regular bytes, between whitespace and comments *)
Inductive tokens : list Z → list (list Z) → Prop :=
| tokens_end : tokens [] []
| tokens_white b l ts : is_ascii_whitespace b = true → tokens l ts → tokens (b :: l) ts
| tokens_comment c l ts :
    Forall (λ b, is_eol b = false) c → (∀ b, head l = Some b → is_eol b = true) → tokens l ts → tokens (PERCENT :: c ++ l) ts
| tokens_delimiter b l ts : is_pdf_delimiter b = true → tokens l ts → tokens (b :: l) ([b] :: ts)
| tokens_word w l ts :
    w ≠ [] → Forall (λ b, is_regular b = true) w → (∀ b, head l = Some b → is_regular b = false) → tokens l ts → tokens (w ++ l) (w :: ts).

Lemma tokens_blank w l ts : Forall (λ b, is_ascii_whitespace b = true) w → tokens l ts → tokens (w ++ l) ts.
Proof. induction 1; simpl; [done|]. intros. constructor; auto. Qed.

Lemma comment_rest r : ∃ c s, (span_by (λ b, negb (is_eol b)) (PERCENT :: r)).2 = s ∧ r = c ++ s ∧
  Forall (λ b, is_eol b = false) c ∧ ∀ b, head s = Some b → is_eol b = true.
Proof.
  destruct (span_by_spec (λ b, negb (is_eol b)) r) as (c & s & E & -> & Hc & Hs). exists c, s. simpl. rewrite E. split_and!; [done..| |].
  - eapply Forall_impl; [done|]. by intros b ?%negb_true_iff.
  - intros b Hb. by apply negb_false_iff, Hs.
Qed.

Lemma skip_blank_spec fuel l : (length l < fuel)%nat →
  returns_with (λ r, (length r ≤ length l)%nat ∧ (∀ ts, tokens r ts → tokens l ts) ∧
    ∀ b, head r = Some b → is_ascii_whitespace b = false ∧ b ≠ PERCENT) (skip_blank fuel l).
Proof.
  revert l. induction fuel as [|fuel IH]; intros l Hf; [lia|]. cbn [skip_blank]. span_by_step. subst l. rewrite length_app in *.
  destruct r as [|b r]; [split_and!; [lia|intros ts; by apply tokens_blank|done]|].
  destruct (Z.eqb_spec b PERCENT) as [->|Hb].
  - destruct (comment_rest r) as (c & s & -> & -> & Hc & Hs). simpl in Hf. rewrite length_app in *.
    eapply returns_with_mono; [|apply IH; lia]. intros u (Hlen & Hts & Hh). split_and!; [simpl; rewrite length_app; lia| |done].
    intros ts Ht. apply tokens_blank; [done|]. apply tokens_comment; auto.
  - split_and!; [lia|intros ts; by apply tokens_blank|]. intros c [= <-]. split; [by apply Hr|done].
Qed.

Lemma next_pdf_token_spec l :
  returns_with (λ t, match t with
    | None => tokens l []
    | Some (t, r) => (length r < length l)%nat ∧ ∀ ts, tokens r ts → tokens l (t :: ts)
    end) (next_pdf_token l).
Proof.
  unfold next_pdf_token. eapply returns_with_bind; [apply skip_blank_spec; lia|]. intros r (Hlen & Hts & Hh).
  destruct r as [|first rest]; [apply Hts; constructor|]. destruct (Hh first eq_refl) as [Hw Hp].
  destruct (is_pdf_delimiter first) eqn:Hd.
  { simpl in Hlen. split; [lia|]. intros ts Ht. by apply Hts, tokens_delimiter. }
  assert (is_regular first = true) as Hreg by (unfold is_regular; by rewrite Hw, Hd, (proj2 (Z.eqb_neq _ _) Hp)).
  span_by_step. destruct x as [|b x].
  { exfalso. simpl in Hl. subst r. specialize (Hr first eq_refl). congruence. }
  cbn. rewrite Hl in Hlen. rewrite length_app in Hlen. simpl in Hlen. split; [lia|]. intros ts Ht. apply Hts. rewrite Hl. by apply tokens_word.
Qed.

(** What the loop counts: the token [obj] behind two numbers *)
Fixpoint headers (previous_number two_numbers : bool) (ts : list (list Z)) : Z :=
  match ts with
  | [] => 0
  | t :: ts =>
    if bool_decide (t = str "obj") && two_numbers then 1 + headers false false ts
    else let number := bool_decide (is_Some (parse_u64 t)) in headers number (previous_number && number) ts
  end.

Lemma headers_nonneg p w ts : 0 ≤ headers p w ts.
Proof. revert p w. induction ts as [|t ts IH]; intros p w; simpl; [done|]. case_match; [|apply IH]. specialize (IH false false). lia. Qed.

Lemma count_loop_spec fuel limit l count p w : (length l < fuel)%nat →
  returns_with (λ n, ∃ ts, tokens l ts ∧ n = count + headers p w ts ∧ (count ≤ limit → n ≤ limit)) (count_loop fuel limit l count p w).
Proof.
  revert l count p w. induction fuel as [|fuel IH]; intros l count p w Hf; [lia|]. cbn [count_loop].
  eapply returns_with_bind; [apply next_pdf_token_spec|]. intros [[t r]|] Ht.
  - destruct Ht as [Hlen Hts]. destruct (bool_decide (t = str "obj") && w) eqn:Ho.
    + assert (∀ ts, headers p w (t :: ts) = 1 + headers false false ts) as Hh by (intros ts; simpl; by rewrite Ho).
      parse_step. parse_step. option_facts. eapply returns_with_mono; [|apply IH; lia].
      intros n (ts & Ht & -> & Hn). exists (t :: ts). rewrite Hh. split_and!; [by apply Hts|lia|intros; apply Hn; lia].
    + eapply returns_with_mono; [|apply IH; lia]. intros n (ts & Ht & -> & Hn). exists (t :: ts). split_and!; [by apply Hts| |done].
      simpl. by rewrite Ho.
  - exists []. split_and!; [done|simpl; lia|done].
Qed.
Lemma count_object_declarations_spec l limit : 0 ≤ limit →
  returns_with (λ n, ∃ ts, tokens l ts ∧ n = headers false false ts ∧ n ≤ limit) (count_object_declarations l limit).
Proof.
  intros Hl. eapply returns_with_mono; [|apply count_loop_spec; lia]. intros n (ts & Ht & -> & Hn). exists ts. split_and!; [done|lia|auto].
Qed.

(** The headers of indirect objects: two numbers in digits, then [obj] *)
Definition digits (t : list Z) : bool := bool_decide (t ≠ []) && forallb is_ascii_digit t && bool_decide (is_Some (parse_u64 t)).
Fixpoint declared (ts : list (list Z)) : Z :=
  match ts with
  | a :: (b :: c :: _) as r => (if digits a && digits b && bool_decide (c = str "obj") then 1 else 0) + declared r
  | _ => 0
  end.
(** Whether [obj] comes first or second *)
Definition first_obj (ts : list (list Z)) : bool := match ts with t :: _ => bool_decide (t = str "obj") | [] => false end.
Definition second_obj (ts : list (list Z)) : bool := match ts with t :: ts => digits t && first_obj ts | [] => false end.

Lemma declared_cons t ts : declared (t :: ts) = (if digits t && second_obj ts then 1 else 0) + declared ts.
Proof. destruct ts as [|b [|c ts]]; [by rewrite andb_false_r|simpl; by rewrite !andb_false_r|]. simpl. by rewrite andb_assoc. Qed.
Lemma obj_not_digits : digits (str "obj") = false.
Proof. vm_compute. reflexivity. Qed.
Lemma digits_number t : digits t = true → bool_decide (is_Some (parse_u64 t)) = true.
Proof. unfold digits. by intros [_ H]%andb_true_iff. Qed.

(** Every declared header is counted. *)
Lemma declared_le_headers ts p w p' w' : (p' = true → p = true) → (w' = true → w = true) →
  (if w' && first_obj ts then 1 else 0) + (if p' && second_obj ts then 1 else 0) + declared ts ≤ headers p w ts.
Proof.
  revert p w p' w'. induction ts as [|t ts IH]; intros p w p' w' Hp Hw; [simpl; by rewrite !andb_false_r|].
  rewrite declared_cons. cbn [headers first_obj second_obj]. case_bool_decide as Ht.
  - subst t. rewrite obj_not_digits. cbn [andb]. rewrite andb_false_r. destruct w.
    + cbn [andb]. specialize (IH false false false false). cbn in IH. destruct w'; cbn; lia.
    + cbn [andb]. destruct w'; [by specialize (Hw eq_refl)|]. cbn [andb].
      specialize (IH (bool_decide (is_Some (parse_u64 (str "obj")))) (p && bool_decide (is_Some (parse_u64 (str "obj")))) false false).
      cbn [andb] in IH. specialize (IH ltac:(done) ltac:(done)). lia.
  - rewrite andb_false_r. cbn [andb].
    specialize (IH (bool_decide (is_Some (parse_u64 t))) (p && bool_decide (is_Some (parse_u64 t))) (digits t) (p' && digits t)).
    assert (digits t = true → bool_decide (is_Some (parse_u64 t)) = true) as Hd by apply digits_number.
    specialize (IH Hd). rewrite andb_assoc. 
    assert (p' && digits t = true → p && bool_decide (is_Some (parse_u64 t)) = true) as Hpd.
    { intros [H1 H2]%andb_true_iff. by rewrite Hp, Hd. }
    specialize (IH Hpd). lia.
Qed.

(** ** Lines *)

(** The lines of a file, each with the line ends behind it *)
Inductive pdf_lines : list Z → list (list Z) → Prop :=
| lines_end : pdf_lines [] []
| lines_next a e l ls :
    a ++ e ≠ [] → Forall (λ b, is_eol b = false) a → Forall (λ b, is_eol b = true) e →
    (∀ b, head (e ++ l) = Some b → is_eol b = true) → (∀ b, head l = Some b → is_eol b = false) →
    pdf_lines l ls → pdf_lines (a ++ e ++ l) ((a ++ e) :: ls).

(** The sizes of the subsections of cross-reference tables, and the bytes of the tables *)
Fixpoint table_entries (in_xref : bool) (ls : list (list Z)) : list Z :=
  match ls with
  | [] => []
  | raw :: ls =>
    let in_xref := xref_step (trim_ascii raw) in_xref in
    (if in_xref then from_option (λ n, [n]) [] (xref_subsection_count (trim_ascii raw)) else []) ++ table_entries in_xref ls
  end.
Fixpoint table_bytes (in_xref : bool) (ls : list (list Z)) : Z :=
  match ls with
  | [] => 0
  | raw :: ls =>
    let in_xref := xref_step (trim_ascii raw) in_xref in
    (if in_xref then len raw else 0) + table_bytes in_xref ls
  end.

Lemma next_line_spec l : l ≠ [] → ∃ raw rest, next_line l = (raw, rest) ∧ (length rest < length l)%nat ∧
  ∀ ls, pdf_lines rest ls → pdf_lines l (raw :: ls).
Proof.
  intros Hl. unfold next_line.
  destruct (span_by_spec (λ b, negb (is_eol b)) l) as (a & r & E & -> & Ha & Hr). rewrite E.
  destruct (span_by_spec is_eol r) as (e & s & E' & -> & He & Hs). rewrite E'. exists (a ++ e), s.
  assert (a ++ e ≠ []) as Hne.
  { destruct a as [|x a]; [|done]. destruct e as [|y e]; [|done]. destruct s as [|z s]; [done|]. simpl in *.
    specialize (Hr z eq_refl). specialize (Hs z eq_refl). by rewrite Hs in Hr. }
  split_and!; [done| |].
  - rewrite app_assoc, (length_app (a ++ e)). destruct (a ++ e); [done|simpl; lia].
  - intros ls Hls. apply lines_next; [done| |done| |done|done].
    + eapply Forall_impl; [done|]. by intros b ?%negb_true_iff.
    + intros b Hb. by apply negb_false_iff, Hr.
Qed.

Lemma contains_object_header_returns l : returns (contains_object_header l).
Proof.
  unfold contains_object_header. pose proof (count_object_declarations_spec l u32_max ltac:(done)) as H.
  destruct (count_object_declarations l u32_max) as [n|[]]; done.
Qed.
Lemma checked_metadata_spec c n limit : returns_with (λ m, m = c + n ∧ m ≤ limit) (checked_metadata c n limit).
Proof. unfold checked_metadata. parse_step. parse_step. parse_step. option_facts. lia. Qed.

Lemma scan_lines_spec fuel mo mm l e m x : (length l < fuel)%nat → 0 ≤ m →
  returns_with (λ r, ∃ ls, pdf_lines l ls ∧ r.1 = e + total (table_entries x ls) ∧ m + table_bytes x ls ≤ r.2 ∧
    (e ≤ mo → r.1 ≤ mo) ∧ (m ≤ mm → r.2 ≤ mm)) (scan_lines fuel mo mm l e m x).
Proof.
  revert l e m x. induction fuel as [|fuel IH]; intros l e m x Hf Hm; [lia|].
  destruct l as [|b l]; [exists []; split_and!; [constructor|simpl; lia..|done|done]|].
  destruct (next_line_spec (b :: l)) as (raw & rest & E & Hlen & Hls); [done|].
  cbn [scan_lines]. rewrite E. simpl in Hf, Hlen. set (line := trim_ascii raw). set (y := xref_step line x). pose proof (len_nonneg raw) as Hraw.
  eapply (returns_with_bind (λ _, True)).
  { pose proof (contains_object_header_returns line) as Hh. by destruct (contains_object_header line) as [|[]]. }
  intros h _. eapply (returns_with_bind (λ m', m ≤ m' ∧ (m ≤ mm → m' ≤ mm))).
  { destruct h; [|simpl; lia]. eapply returns_with_mono; [|apply checked_metadata_spec]. intros a [-> ?]; lia. }
  intros m' [Hm1 Hm2]. assert (∀ ls, table_bytes x (raw :: ls) = (if y then len raw else 0) + table_bytes y ls) as Hb by done.
  assert (∀ ls, table_entries x (raw :: ls) = (if y then from_option (λ n, [n]) [] (xref_subsection_count line) else []) ++ table_entries y ls) as He by done.
  destruct y.
  - eapply returns_with_bind; [apply checked_metadata_spec|]. intros m2 [-> Hm3].
    destruct (xref_subsection_count line) as [n|] eqn:Hn.
    + parse_step. parse_step. option_facts. eapply returns_with_mono; [|apply IH; lia].
      intros r (ls & Hl & Hr1 & Hr2 & H3 & H4). exists (raw :: ls). rewrite Hb, He.
      split_and!; [auto| |lia|intros; apply H3; lia|intros; apply H4; lia]. change (from_option _ _ _) with [n]. unfold total in *. simpl. lia.
    + eapply returns_with_mono; [|apply IH; lia].
      intros r (ls & Hl & Hr1 & Hr2 & H3 & H4). exists (raw :: ls). rewrite Hb, He. split_and!; [auto|simpl; lia|lia|done|intros; apply H4; lia].
  - eapply returns_with_mono; [|apply IH; lia].
    intros r (ls & Hl & Hr1 & Hr2 & H3 & H4). exists (raw :: ls). rewrite Hb, He. split_and!; [auto|simpl; lia|lia|done|intros; apply H4; lia].
Qed.

(** ** Names *)

Section Names.
Context (w : list Z).
Notation name := (47 :: w).
Context (Hw : 47 ∉ w).

(** The occurrences of a name that something ends *)
Definition name_here (l : list Z) : bool := match strip_prefix l name with Some rest => name_ends rest | None => false end.
Fixpoint occurrences (l : list Z) : Z := (if name_here l then 1 else 0) + match l with [] => 0 | _ :: l => occurrences l end.

Lemma occurrences_nonneg l : 0 ≤ occurrences l.
Proof. induction l as [|b l IH]; cbn [occurrences]; destruct (name_here _); lia. Qed.
Lemma strip_prefix_short l : len l < len name → strip_prefix l name = None.
Proof.
  intros Hl. destruct (strip_prefix l name) eqn:E; [|done]. apply strip_prefix_Some in E. subst. rewrite len_app in Hl.
  pose proof (len_nonneg l0). lia.
Qed.
Lemma occurrences_short l : len l < len name → occurrences l = 0.
Proof.
  induction l as [|b l IH]; intros Hl; cbn [occurrences]; unfold name_here; rewrite strip_prefix_short by done; [done|]. rewrite IH; [done|].
  rewrite len_cons in Hl. lia.
Qed.
(** No name starts within what has no slash. *)
Lemma occurrences_skip v l : 47 ∉ v → occurrences (v ++ l) = occurrences l.
Proof.
  induction v as [|b v IH]; [done|]. intros [Hb Hv]%not_elem_of_cons. cbn [app occurrences]. rewrite IH by done.
  assert (name_here (b :: v ++ l) = false) as ->; [|done]. unfold name_here, strip_prefix. simpl.
  by rewrite (proj2 (Z.eqb_neq b 47)) by done.
Qed.
Lemma occurrences_name rest : name_ends rest = true → occurrences (name ++ rest) = 1 + occurrences rest.
Proof.
  intros Hr. cbn [app occurrences]. rewrite occurrences_skip by done.
  assert (name_here (47 :: w ++ rest) = true) as ->; [|done]. unfold name_here.
  by rewrite (proj2 (strip_prefix_Some (47 :: w ++ rest) name rest) eq_refl).
Qed.

Lemma count_name_spec fuel l count : (length l < fuel)%nat → 0 ≤ count ≤ u32_max →
  returns_with (λ n, n = Z.min u32_max (count + occurrences l)) (count_name_loop fuel name l count).
Proof.
  revert l count. induction fuel as [|fuel IH]; intros l count Hf Hc; [lia|]. cbn [count_name_loop].
  destruct (Z.ltb_spec (len l) (len name)) as [Hl|Hl]; [simpl; rewrite occurrences_short by done; lia|].
  destruct l as [|b l]; [rewrite len_cons in Hl; pose proof (len_nonneg w); change (len []) with 0 in Hl; lia|].
  destruct (strip_prefix (b :: l) name) as [rest|] eqn:E; [destruct (name_ends rest) eqn:He|].
  - apply strip_prefix_Some in E. rewrite E in Hf |- *. rewrite length_app in Hf. simpl in Hf.
    eapply returns_with_mono; [|apply IH; [lia|unfold saturating_add; lia]]. intros n ->. rewrite occurrences_name by done.
    pose proof (occurrences_nonneg rest). unfold saturating_add. lia.
  - simpl in Hf. eapply returns_with_mono; [|apply IH; [simpl; lia|done]]. intros n ->. cbn [occurrences]. unfold name_here. by rewrite E, He.
  - simpl in Hf. eapply returns_with_mono; [|apply IH; [simpl; lia|done]]. intros n ->. cbn [occurrences]. unfold name_here. by rewrite E.
Qed.

(** A number behind the name and whitespace *)
Definition sized (l : list Z) (v : Z) : Prop :=
  ∃ u d rest, l = name ++ u ++ d ++ rest ∧ u ≠ [] ∧ Forall (λ b, is_ascii_whitespace b = true) u ∧
    d ≠ [] ∧ Forall (λ b, is_ascii_digit b = true) d ∧ (∀ b, head rest = Some b → is_ascii_digit b = false) ∧ parse_u64 d = Some v.
Definition holds_size (l : list Z) (v : Z) : Prop := ∃ p s, l = p ++ s ∧ sized s v.

Lemma holds_size_cons b l v : holds_size (b :: l) v → sized (b :: l) v ∨ holds_size l v.
Proof.
  intros ([|c p] & s & Hl & Hs); [left; simpl in Hl; by subst|]. injection Hl as -> ->. right. by exists p, s.
Qed.
Lemma holds_size_skip v u l : 47 ∉ u → holds_size (u ++ l) v → holds_size l v.
Proof.
  induction u as [|b u IH]; [done|]. intros [Hb Hu]%not_elem_of_cons [Hs|Hs]%holds_size_cons; [|auto].
  destruct Hs as (? & ? & ? & Hl & _). injection Hl as ->. done.
Qed.
Lemma sized_long l v : sized l v → len name < len l.
Proof.
  intros (u & d & rest & -> & Hu & _). rewrite !len_app. destruct u as [|b u]; [done|]. rewrite (len_cons b u).
  pose proof (len_nonneg u). pose proof (len_nonneg d). pose proof (len_nonneg rest). lia.
Qed.
Lemma holds_size_long l v : holds_size l v → len name < len l.
Proof. intros (p & s & -> & Hs%sized_long). rewrite len_app. pose proof (len_nonneg p). lia. Qed.

Lemma whitespace_facts b : is_ascii_whitespace b = true → b ≠ 47 ∧ is_ascii_digit b = false ∧ is_pdf_separator b = true.
Proof.
  intros H. unfold is_pdf_separator. rewrite H. split; [|split; [|done]].
  - intros ->. done.
  - unfold is_ascii_whitespace in H. unfold is_ascii_digit, in_range. apply andb_false_iff. rewrite !orb_true_iff, !Z.eqb_eq in H. rewrite !Z.leb_gt. lia.
Qed.
Lemma digit_facts b : is_ascii_digit b = true → b ≠ 47 ∧ is_ascii_whitespace b = false.
Proof.
  intros H. assert (48 ≤ b ≤ 57) by (unfold is_ascii_digit, in_range in H; bool_prop; lia). split; [lia|].
  unfold is_ascii_whitespace. rewrite !orb_false_iff, !Z.eqb_neq. lia.
Qed.

Lemma sized_prefix l v : sized l v → ∃ rest, strip_prefix l name = Some rest ∧ name_ends rest = true.
Proof.
  intros (u & d & r & -> & Hu & Hs & _). exists (u ++ d ++ r). split; [by apply strip_prefix_Some|].
  destruct u as [|b u]; [done|]. apply Forall_cons in Hs as [Hb _]. by apply whitespace_facts.
Qed.
(** The number is what the two loops behind a name find. *)
Lemma sized_spans rest v u d r :
  span_by is_ascii_whitespace rest = (u, d ++ r) → span_by is_ascii_digit (d ++ r) = (d, r) → sized (name ++ rest) v → d ≠ [] ∧ parse_u64 d = Some v.
Proof.
  intros E1 E2 (u' & d' & r' & Hl & Hu & Hs & Hd & Hds & Hr & Hv). apply app_inv_head in Hl. subst rest.
  rewrite span_by_all in E1; [|done|].
  2: { intros b Hb. destruct d' as [|c d']; [done|]. injection Hb as <-. apply Forall_cons in Hds as [Hc _]. by apply digit_facts. }
  injection E1 as -> E1. rewrite <- E1 in E2. rewrite span_by_all in E2 by done. by injection E2 as -> ->.
Qed.

Lemma maximum_loop_spec fuel l maximum : (length l < fuel)%nat →
  returns_with (λ m, maximum ≤ m ∧ ∀ v, holds_size l v → v ≤ m) (maximum_loop fuel name l maximum).
Proof.
  revert l maximum. induction fuel as [|fuel IH]; intros l maximum Hf; [lia|]. cbn [maximum_loop].
  destruct (Z.ltb_spec (len l) (len name)) as [Hl|Hl]; [split; [lia|]; intros v Hv%holds_size_long; lia|].
  destruct l as [|b l]; [rewrite len_cons in Hl; pose proof (len_nonneg w); change (len []) with 0 in Hl; lia|].
  assert ((∀ v, ¬ sized (b :: l) v) → returns_with (λ m, maximum ≤ m ∧ ∀ v, holds_size (b :: l) v → v ≤ m) (maximum_loop fuel name l maximum)) as Hnext.
  { intros Hn. simpl in Hf. eapply returns_with_mono; [|apply IH; lia]. intros m [Hm Hall]. split; [done|].
    intros v [Hs|Hs]%holds_size_cons; [by destruct (Hn v)|auto]. }
  destruct (strip_prefix (b :: l) name) as [rest|] eqn:E; [destruct (name_ends rest) eqn:He|].
  2-3: apply Hnext; intros v (r & Hr & Hends)%sized_prefix; congruence.
  apply strip_prefix_Some in E. destruct (span_by_spec is_ascii_whitespace rest) as (u & s & Eu & Hrest & Hu & _). rewrite Eu. cbn [snd].
  destruct (span_by_spec is_ascii_digit s) as (d & r & Ed & -> & Hd & Hr). rewrite Ed.
  eapply (returns_with_bind (λ m, maximum ≤ m ∧ ∀ v, sized (b :: l) v → v ≤ m)).
  { case_bool_decide as Hn.
    - split; [lia|]. intros v Hv. rewrite E in Hv. by destruct (sized_spans rest v u d r Eu Ed Hv).
    - parse_step. split; [lia|]. intros v Hv. rewrite E in Hv. destruct (sized_spans rest v u d r Eu Ed Hv) as [_ Hv']. simplify_eq. lia. }
  intros m [Hm Hhere]. rewrite E, Hrest in Hf. rewrite !length_app in Hf. simpl in Hf.
  eapply returns_with_mono; [|apply IH; lia]. intros m' [Hm' Hall]. split; [lia|]. intros v Hv.
  apply holds_size_cons in Hv as [Hs|Hs]; [apply Hhere in Hs; lia|]. apply Hall.
  injection E as -> ->. rewrite Hrest in Hs. apply holds_size_skip in Hs; [|done].
  apply holds_size_skip in Hs; [|intros H; rewrite Forall_forall in Hu; by apply Hu, whitespace_facts in H as [? _]].
  by apply holds_size_skip in Hs; [|intros H; rewrite Forall_forall in Hd; by apply Hd, digit_facts in H as [? _]].
Qed.

(** A name, whitespace, and another name *)
Definition pair_at (second : list Z) (l : list Z) : Prop :=
  ∃ u rest, l = name ++ u ++ 47 :: second ++ rest ∧ Forall (λ b, is_ascii_whitespace b = true) u.
Lemma name_pair_loop_spec second fuel l : (length l < fuel)%nat →
  returns_with (λ r, ∀ p s, l = p ++ s → pair_at second s → r = true) (name_pair_loop fuel name (47 :: second) l).
Proof.
  revert l. induction fuel as [|fuel IH]; intros l Hf; [lia|]. cbn [name_pair_loop].
  destruct (Z.ltb_spec (len l) (len name)) as [Hl|Hl].
  { intros p s -> (u & rest & -> & _). rewrite !len_app in Hl. pose proof (len_nonneg p). pose proof (len_nonneg u).
    pose proof (len_nonneg (47 :: second ++ rest)). lia. }
  destruct l as [|b l]; [rewrite len_cons in Hl; pose proof (len_nonneg w); change (len []) with 0 in Hl; lia|].
  destruct (strip_prefix (b :: l) name) as [rest|] eqn:E.
  - apply strip_prefix_Some in E. destruct (span_by_spec is_ascii_whitespace rest) as (u & s & Eu & Hrest & Hu & _). rewrite Eu. cbn [snd].
    destruct (starts_with s (47 :: second)) eqn:Hs; [done|]. rewrite E, Hrest in Hf. rewrite !length_app in Hf. simpl in Hf.
    eapply returns_with_mono; [|apply IH; lia]. intros r Hr p t Ht Hp. rewrite E in Ht. destruct p as [|c p].
    + exfalso. simpl in Ht. subst t. destruct Hp as (u' & rest' & Hl' & Hu'). apply (app_inv_head name) in Hl'. subst rest.
      rewrite Hl', span_by_all in Eu by (done || by intros ? [= <-]). injection Eu as _ <-.
      change (starts_with ((47 :: second) ++ rest') (47 :: second) = false) in Hs. by rewrite starts_with_app in Hs.
    + simpl in Ht. injection Ht as <- Ht. rewrite Hrest in Ht. 
      assert (∀ v, 47 ∉ v → ∀ q, v ++ s = q ++ t → ∃ q', s = q' ++ t) as Hskip.
      { clear -Hp. induction v as [|x v IH]; intros Hv q Hq; [by exists q|]. apply not_elem_of_cons in Hv as [Hx Hv].
        destruct q as [|y q]; [|injection Hq as _ Hq; by eapply IH]. simpl in Hq. destruct Hp as (u' & ? & Ht & _). rewrite Ht in Hq. by injection Hq as ->. }
      assert (47 ∉ w ++ u) as Hno.
      { intros [H|H]%elem_of_app; [done|]. rewrite Forall_forall in Hu. by apply Hu, whitespace_facts in H as [? _]. }
      destruct (Hskip (w ++ u) Hno p) as [q Hq]; [by rewrite <- app_assoc|]. by eapply Hr.
  - simpl in Hf. eapply returns_with_mono; [|apply IH; simpl; lia]. intros r Hr [|c p] t Ht Hp.
    + exfalso. simpl in Ht. subst t. destruct Hp as (u' & rest' & Hl' & _).
      by rewrite (proj2 (strip_prefix_Some (b :: l) name (u' ++ 47 :: second ++ rest')) Hl') in E.
    + injection Ht as <- Ht. by eapply Hr.
Qed.
End Names.

(** ** The preflight *)

Lemma literal_no_slash : 47 ∉ str "Type" ∧ 47 ∉ str "XRef" ∧ 47 ∉ str "Size" ∧ 47 ∉ str "Filespec" ∧ 47 ∉ str "EmbeddedFile".
Proof. split_and!; by apply (bool_decide_unpack _). Qed.

(** The scan ends on every input. *)
Lemma pdf_preflight_returns l max_objects max_entries max_metadata_bytes :
  0 ≤ max_objects → returns (preflight l max_objects max_entries max_metadata_bytes).
Proof.
  intros Ho. destruct literal_no_slash as (N1 & N2 & N3 & N4 & N5). apply (returns_with_returns (λ _, True)). unfold preflight.
  eapply returns_with_bind; [by apply count_object_declarations_spec|]. intros n _.
  eapply returns_with_bind; [apply scan_lines_spec; [lia|done]|]. intros [e m] _.
  eapply returns_with_bind; [apply (name_pair_loop_spec (str "Type") N1 (str "XRef")); lia|]. intros pair _.
  eapply (returns_with_bind (λ _, True)).
  { destruct pair; [|done]. eapply returns_with_mono; [|apply (maximum_loop_spec (str "Size") N3); lia]. done. }
  intros s _. parse_step.
  eapply returns_with_bind; [apply (count_name_spec (str "Filespec") N4); [lia|done]|]. intros f _.
  eapply returns_with_bind; [apply (count_name_spec (str "EmbeddedFile") N5); [lia|done]|]. intros g _.
  by parse_step.
Qed.

(** C36: The scan ends on every input, and a PDF that it lets through declares no more than
    there is room for: its object headers, the entries of its cross-reference tables, the
    size of every cross-reference stream, its embedded files and the bytes of its tables are
    within the limits that were given. *)
Theorem pdf_preflight_bounds l max_objects max_entries max_metadata_bytes :
  0 ≤ max_objects → 0 ≤ max_entries < u32_max → 0 ≤ max_metadata_bytes →
  returns_with (λ p,
    (∃ ts, tokens l ts ∧ declared ts ≤ object_declarations p ≤ max_objects) ∧
    (∃ ls, pdf_lines l ls ∧ total (table_entries false ls) ≤ xref_entries p ≤ max_objects ∧
       table_bytes false ls ≤ metadata_bytes p ≤ max_metadata_bytes) ∧
    ((∃ a b, l = a ++ b ∧ pair_at (str "Type") (str "XRef") b) → ∀ v, holds_size (str "Size") l v → v ≤ xref_entries p) ∧
    occurrences (str "Filespec") l ≤ potential_embedded_files p ∧ occurrences (str "EmbeddedFile") l ≤ potential_embedded_files p ∧
    potential_embedded_files p ≤ max_entries)
  (preflight l max_objects max_entries max_metadata_bytes).
Proof.
  intros Ho He Hm. destruct literal_no_slash as (N1 & N2 & N3 & N4 & N5). unfold preflight.
  eapply returns_with_bind; [by apply count_object_declarations_spec|]. intros n (ts & Hts & -> & Hn).
  eapply returns_with_bind; [apply scan_lines_spec; [lia|done]|]. intros [e m] (ls & Hls & Hx & Hb & Hem & Hmm). simpl in Hx, Hb, Hem, Hmm.
  eapply returns_with_bind; [apply (name_pair_loop_spec (str "Type") N1 (str "XRef")); lia|]. intros pair Hpair.
  eapply (returns_with_bind (λ s, 0 ≤ s ∧ (pair = true → ∀ v, holds_size (str "Size") l v → v ≤ s))).
  { destruct pair; [|done]. eapply returns_with_mono; [|apply (maximum_loop_spec (str "Size") N3); lia]. by intros s [? ?]. }
  intros s [Hs0 Hs]. parse_step.
  eapply returns_with_bind; [apply (count_name_spec (str "Filespec") N4); [lia|done]|]. intros f ->.
  eapply returns_with_bind; [apply (count_name_spec (str "EmbeddedFile") N5); [lia|done]|]. intros f ->.
  parse_step. apply Ok_returns. cbn [object_declarations xref_entries potential_embedded_files metadata_bytes].
  specialize (Hem Ho). specialize (Hmm Hm). split_and!; try lia.
  - exists ts. split; [done|]. pose proof (declared_le_headers ts false false false false ltac:(done) ltac:(done)). simpl in *. lia.
  - exists ls. split_and!; [done|lia..].
  - intros (a & b & Hl & Hp) v Hv. specialize (Hs (Hpair a b Hl Hp) v Hv). lia.
Qed.

(** A small file, within its limits *)
Definition small_pdf : list Z := str "%PDF-1.7 1 0 obj <</Type /XRef /Size 2>> xref 2 0 obj".
Lemma pdf_preflight_bounds_witness :
  ∃ p, preflight small_pdf 2 1 100 = Ok p ∧ occurrences (str "Filespec") small_pdf ≤ potential_embedded_files p.
Proof.
  assert (0 ≤ 2 ∧ 0 ≤ 1 < u32_max ∧ 0 ≤ 100) as (H1 & H2 & H3) by (unfold u32_max; lia).
  pose proof (pdf_preflight_bounds small_pdf 2 1 100 H1 H2 H3) as H. set (p := preflight small_pdf 2 1 100) in *. vm_compute in p.
  eexists. split; [reflexivity|]. exact (proj1 (proj2 (proj2 (proj2 H)))).
Defined.

(** Bytes behind the digits count as digits: two words in front of [obj] are an object header. *)
Lemma pdf_words_declare_object :
  parse_u64 (str "ab") = Some 540 ∧ count_object_declarations (str "first second obj") u32_max = Ok 1.
Proof. vm_compute. by split. Qed.
