(* ===== verification/PdfScan.v ===== *)
(** * PdfScan: what a loaded PDF declares

    Models [attachment-native-inspect/src/pdf.rs]: the walk over the loaded objects of a
    PDF that collects embedded files and active content, and the decoding of names. The
    objects are those that the PDF parser has loaded; what a reference leads to is an
    argument ([dereference]).

    The stack of the walk holds inline values only, so that its fuel is the number of
    nodes. Shows that the walk visits every node once, in order, or reports that there are
    too many ([pdf_scan_exact]). *)

From S2P Require Import Prelude Bytes Text Utf8 Strings Sorting Budget.
Local Open Scope Z_scope.

(** ** Objects *)

Definition PdfId : Type := Z * Z.
Inductive PdfObject :=
| Null
| Boolean (b : bool)
| Integer (i : Z)
| Real
| NameObj (n : list Z)
| StringObj (s : list Z)
| Array (l : list PdfObject)
| Dictionary (d : list (list Z * PdfObject))
| StreamObj (d : list (list Z * PdfObject)) (content : list Z)
| Reference (id : PdfId).
Notation PdfDictionary := (list (list Z * PdfObject)).

(** [dictionary.get(key)] *)
Definition dict_get (d : PdfDictionary) (key : list Z) : option PdfObject := snd <$> List.find (λ e, bool_decide (e.1 = key)) d.
Definition as_dict (o : PdfObject) : option PdfDictionary := match o with Dictionary d => Some d | _ => None end.
Definition as_i64 (o : PdfObject) : option Z := match o with Integer i => Some i | _ => None end.
Definition as_name (o : PdfObject) : option (list Z) := match o with NameObj n => Some n | _ => None end.
Definition is_stream (o : PdfObject) : bool := match o with StreamObj _ _ => true | _ => false end.
Definition is_reference (o : PdfObject) : bool := match o with Reference _ => true | _ => false end.

Inductive ActiveContent := JavaScript | LaunchAction | RichMedia.
#[export] Instance active_content_eq_dec : EqDecision ActiveContent.
Proof. solve_decision. Defined.
Definition active_rank (a : ActiveContent) : Z := match a with JavaScript => 0 | LaunchAction => 1 | RichMedia => 2 end.
Definition active_issue (a : ActiveContent) : string * string :=
  match a with
  | JavaScript => ("pdf_javascript_detected", "The PDF declares JavaScript. It was reported but never executed.")
  | LaunchAction => ("pdf_launch_action_detected", "The PDF declares a launch action. It was reported but never executed.")
  | RichMedia => ("pdf_rich_media_detected", "The PDF declares rich-media content. It was reported but never activated.")
  end%string.

Record EmbeddedFile := { raw_name : list Z; stream_id : option PdfId; owner_id : option PdfId }.
(** The active content is a set: a list without repetition, in the order of [active_rank] at the end. *)
Record Scan := { embedded_files : list EmbeddedFile; active_content : list ActiveContent }.
Definition no_scan : Scan := {| embedded_files := []; active_content := [] |}.
Inductive ScanError := Deadline (e : Limits.AttachmentError) | NodeLimit.

Definition PDF_SCAN_CHECKPOINT_INTERVAL : Z := 1024.

(** ** Names *)

(** [u8::from_str_radix(hex, 16)] of two characters: a sign may stand in place of a digit. *)
Definition hex_digit (b : Z) : option Z :=
  if in_range 48 57 b then Some (b - 48)
  else if in_range 65 70 b then Some (b - 55)
  else if in_range 97 102 b then Some (b - 87)
  else None.
Definition hex_pair (a b : Z) : option Z :=
  if a =? 43 then hex_digit b
  else h ← hex_digit a ; l ← hex_digit b ; Some (16 * h + l).
Fixpoint decode_pdf_name (name : list Z) : list Z :=
  match name with
  | 35 :: ((a :: b :: rest) as tail) =>
    match hex_pair a b with
    | Some byte => byte :: decode_pdf_name rest
    | None => 35 :: decode_pdf_name tail
    end
  | c :: rest => c :: decode_pdf_name rest
  | [] => []
  end.

(** [chunks_exact(2)] and [String::from_utf16_lossy] *)
Fixpoint utf16_units (big : bool) (body : list Z) : list Z :=
  match body with
  | a :: b :: rest => (if big then 256 * a + b else a + 256 * b) :: utf16_units big rest
  | _ => []
  end.
Fixpoint from_utf16_lossy (units : list Z) : text :=
  match units with
  | [] => []
  | u :: rest =>
    if in_range 55296 56319 u then
      match rest with
      | v :: rest' =>
        if in_range 56320 57343 v then (65536 + 1024 * (u - 55296) + (v - 56320)) :: from_utf16_lossy rest'
        else REPLACEMENT :: from_utf16_lossy rest
      | [] => [REPLACEMENT]
      end
    else if in_range 56320 57343 u then REPLACEMENT :: from_utf16_lossy rest
    else u :: from_utf16_lossy rest
  end.
Definition decode_utf16 (big : bool) (body : list Z) : list Z := as_bytes (from_utf16_lossy (utf16_units big body)).
Definition decode_pdf_text (bytes : list Z) : list Z :=
  match strip_prefix bytes [254; 255] with
  | Some body => decode_utf16 true body
  | None =>
    match strip_prefix bytes [255; 254] with
    | Some body => decode_utf16 false body
    | None => as_bytes (from_utf8_lossy bytes)
    end
  end.

Definition FILE_KEYS : list (list Z) := [str "UF"; str "F"; str "DOS"; str "Mac"; str "Unix"].

Section Document.
Context (dereference : PdfObject → option (option PdfId * PdfObject)).

Definition declared_stream_size (d : PdfDictionary) : option Z :=
  params ← dict_get d (str "Params") ;
  '(_, params) ← dereference params ;
  params ← as_dict params ;
  size ← dict_get params (str "Size") ;
  size ← as_i64 size ;
  if 0 <=? size then Some size else None.
Definition declared_stream_media_type (d : PdfDictionary) : option text :=
  subtype ← dict_get d (str "Subtype") ;
  name ← as_name subtype ;
  media_type ← from_utf8 (decode_pdf_name name) ;
  if bool_decide (47 ∈ media_type) then Some media_type else None.

(** [active.insert(a)] *)
Definition insert_active (a : ActiveContent) (l : list ActiveContent) : list ActiveContent :=
  if bool_decide (a ∈ l) then l else l ++ [a].
Definition is_key (key : list Z) (names : list string) : bool := existsb (λ s, bool_decide (key = str s)) names.
Definition active_of (entry : list Z * PdfObject) : option ActiveContent :=
  let '(key, value) := entry in
  if is_key key ["JS"; "JavaScript"]%string then Some JavaScript
  else if is_key key ["Launch"]%string then Some LaunchAction
  else if is_key key ["RichMedia"; "RichMediaContent"; "RichMediaSettings"]%string then Some RichMedia
  else if is_key key ["S"; "Subtype"]%string then
    name ← as_name value ;
    if is_key name ["JavaScript"]%string then Some JavaScript
    else if is_key name ["Launch"]%string then Some LaunchAction
    else if is_key name ["RichMedia"]%string then Some RichMedia
    else None
  else None.
Definition detect_active_content (d : PdfDictionary) (active : list ActiveContent) : list ActiveContent :=
  foldl (λ active entry, match active_of entry with Some a => insert_active a active | None => active end) active d.

Fixpoint file_name_of (d : PdfDictionary) (keys : list (list Z)) : option (list Z) :=
  match keys with
  | [] => None
  | key :: keys =>
    match (value ← dict_get d key ; dereference value) with
    | Some (_, StringObj bytes) | Some (_, NameObj bytes) => Some (decode_pdf_text bytes)
    | _ => file_name_of d keys
    end
  end.
Definition file_spec_name (d : PdfDictionary) (owner : option PdfId) (index : Z) (preferred : option (list Z)) : list Z :=
  match file_name_of d (match preferred with Some k => k :: FILE_KEYS | None => FILE_KEYS end) with
  | Some name => name
  | None =>
    match owner with
    | None => str "pdf-embedded-inline-" ++ decimal index ++ str ".bin"
    | Some (object, generation) => str "pdf-embedded-" ++ decimal object ++ str "-" ++ decimal generation ++ str ".bin"
    end
  end.

(** The streams of a file specification, each once; [seen] is the set of ids. *)
Fixpoint streams_of (ef : PdfDictionary) (seen : list PdfId) (keys : list (list Z)) : list (list Z * option PdfId) :=
  match keys with
  | [] => []
  | key :: keys =>
    match dict_get ef key with
    | None => streams_of ef seen keys
    | Some value =>
      match dereference value with
      | None => (key, None) :: streams_of ef seen keys
      | Some (object_id, object) =>
        match (if is_stream object then object_id else None) with
        | None => (key, None) :: streams_of ef seen keys
        | Some id => if bool_decide (id ∈ seen) then streams_of ef seen keys
                     else (key, Some id) :: streams_of ef (id :: seen) keys
        end
      end
    end
  end.
Definition embedded_streams (d : PdfDictionary) : list (list Z * option PdfId) :=
  match (value ← dict_get d (str "EF") ; '(_, o) ← dereference value ; as_dict o) with
  | None => []
  | Some ef => streams_of ef [] FILE_KEYS
  end.

Definition push_file (d : PdfDictionary) (owner : option PdfId) (files : list EmbeddedFile) (stream : list Z * option PdfId) :
    list EmbeddedFile :=
  files ++ [{| raw_name := file_spec_name d owner (len files) (Some stream.1); stream_id := stream.2; owner_id := owner |}].
Definition inspect_dictionary (d : PdfDictionary) (owner : option PdfId) (scan : Scan) : Scan :=
  let active := detect_active_content d (active_content scan) in
  let files := embedded_files scan in
  {| active_content := active;
     embedded_files :=
       if bool_decide (is_Some (dict_get d (str "EF"))) then
         match embedded_streams d with
         | [] => files ++ [{| raw_name := file_spec_name d owner (len files) None; stream_id := None; owner_id := owner |}]
         | streams => foldl (push_file d owner) files streams
         end
       else files |}.

(** ** The walk *)

Definition inline_values (o : PdfObject) : list PdfObject :=
  List.filter (λ v, negb (is_reference v))
    match o with Array l => l | Dictionary d | StreamObj d _ => snd <$> d | _ => [] end.
Definition inspect_object (owner : option PdfId) (o : PdfObject) (scan : Scan) : Scan :=
  match o with Dictionary d | StreamObj d _ => inspect_dictionary d owner scan | _ => scan end.

(** Option ids compare with [None] first. *)
Definition id_cmp (a b : option PdfId) : comparison :=
  match a, b with
  | None, None => Eq
  | None, Some _ => Lt
  | Some _, None => Gt
  | Some (x, y), Some (x', y') => match x ?= x' with Eq => y ?= y' | c => c end
  end.
Definition file_cmp (a b : EmbeddedFile) : comparison :=
  match str_cmp (raw_name a) (raw_name b) with
  | Eq => match id_cmp (owner_id a) (owner_id b) with Eq => id_cmp (stream_id a) (stream_id b) | c => c end
  | c => c
  end.

Section Walk.
Context {S : Type} (check_deadline : SM S Limits.AttachmentError unit).

Definition checkpoint (visited : Z) : SM S (fault ScanError) unit := λ s,
  if visited mod PDF_SCAN_CHECKPOINT_INTERVAL =? 0 then
    match check_deadline s with
    | (Ok tt, s) => (Ok tt, s)
    | (Err e, s) => (Err (Fail (Deadline e)), s)
    end
  else (Ok tt, s).

Fixpoint scan_loop (fuel : nat) (max_nodes visited : Z) (stack : list (option PdfId * PdfObject)) (scan : Scan) :
    SM S (fault ScanError) Scan :=
  match stack, fuel with
  | [], _ => mret scan
  | _, O => sm_throw OutOfFuel
  | (owner, object) :: stack, Datatypes.S fuel =>
    visited ← sm_lift (need (checked_add usize_max visited 1) NodeLimit) ;
    sm_reject_if (max_nodes <? visited) (Fail NodeLimit) ;;
    checkpoint visited ;;
    scan_loop fuel max_nodes visited (((λ v, (owner, v)) <$> inline_values object) ++ stack) (inspect_object owner object scan)
  end.
End Walk.
End Document.

(** The nodes of an object, each before what it holds. *)
Fixpoint nodes (o : PdfObject) : list PdfObject :=
  o :: match o with
       | Array l => (fix go l := match l with [] => [] | v :: l => (if is_reference v then [] else nodes v) ++ go l end) l
       | Dictionary d | StreamObj d _ =>
         (fix go d := match d with [] => [] | (_, v) :: d => (if is_reference v then [] else nodes v) ++ go d end) d
       | _ => []
       end.
Definition owned_nodes (r : option PdfId * PdfObject) : list (option PdfId * PdfObject) := (λ o, (r.1, o)) <$> nodes r.2.

(** A loaded document: the indirect objects by id, and what a reference leads to *)
Record PdfDocument := {
  pdf_encrypted : bool;
  pdf_objects : list (PdfId * PdfObject);
  dereference : PdfObject → option (option PdfId * PdfObject);
  get_object : PdfId → option PdfObject;
}.
Definition roots (doc : PdfDocument) : list (option PdfId * PdfObject) := (λ e, (Some e.1, e.2)) <$> pdf_objects doc.

Definition scan_document {S} (doc : PdfDocument) (max_nodes : Z) (check_deadline : SM S Limits.AttachmentError unit) :
    SM S (fault ScanError) Scan :=
  scan ← scan_loop (dereference doc) check_deadline (length (roots doc ≫= owned_nodes)) max_nodes 0 (roots doc) no_scan ;
  mret {| embedded_files := sort_by file_cmp id (embedded_files scan);
          active_content := sort_by Z.compare active_rank (active_content scan) |}.

(** ** The walk visits every node *)

Lemma nodes_unfold o : nodes o = o :: (inline_values o ≫= nodes).
Proof.
  assert (∀ l, (fix go l := match l with [] => [] | v :: l => (if is_reference v then [] else nodes v) ++ go l end) l =
    List.filter (λ v, negb (is_reference v)) l ≫= nodes) as Hl.
  { induction l as [|v l IH]; [done|]. simpl. rewrite IH. by destruct (is_reference v). }
  assert (∀ d : PdfDictionary, (fix go d := match d with [] => [] | (_, v) :: d => (if is_reference v then [] else nodes v) ++ go d end) d =
    List.filter (λ v, negb (is_reference v)) (snd <$> d) ≫= nodes) as Hd.
  { induction d as [|[k v] d IH]; [done|]. simpl. rewrite IH. by destruct (is_reference v). }
  unfold inline_values. destruct o; simpl; by rewrite ?Hl, ?Hd.
Qed.

Lemma owned_nodes_unfold owner o :
  owned_nodes (owner, o) = (owner, o) :: (((λ v, (owner, v)) <$> inline_values o) ≫= owned_nodes).
Proof.
  unfold owned_nodes at 1. simpl. rewrite nodes_unfold. rewrite fmap_cons. f_equal.
  induction (inline_values o) as [|v l IH]; [done|]. rewrite fmap_cons, !bind_cons, fmap_app, IH. done.
Qed.

(** What the nodes declare *)
Definition inspect_all (deref : PdfObject → option (option PdfId * PdfObject)) (ns : list (option PdfId * PdfObject)) (scan : Scan) : Scan :=
  foldl (λ scan n, inspect_object deref n.1 n.2 scan) scan ns.

Section Walk.
Context (deref : PdfObject → option (option PdfId * PdfObject)).
Context {S : Type} (check_deadline : SM S Limits.AttachmentError unit).

Lemma scan_loop_spec fuel max_nodes visited stack scan s :
  (length (stack ≫= owned_nodes) ≤ fuel)%nat → max_nodes ≤ usize_max → visited ≤ max_nodes →
  match (scan_loop deref check_deadline fuel max_nodes visited stack scan s).1 with
  | Ok r => r = inspect_all deref (stack ≫= owned_nodes) scan ∧ visited + len (stack ≫= owned_nodes) ≤ max_nodes
  | Err (Fail NodeLimit) => max_nodes < visited + len (stack ≫= owned_nodes)
  | Err (Fail (Deadline e)) => ∃ s, (check_deadline s).1 = Err e
  | Err _ => False
  end.
Proof.
  intros Hf Hmax. revert visited stack scan s Hf. induction fuel as [|fuel IH]; intros visited stack scan s Hf Hv;
    (destruct stack as [|[owner o] stack]; [simpl; rewrite Z.add_0_r; done|]).
  - rewrite bind_cons, owned_nodes_unfold in Hf. cbn [app length] in Hf. lia.
  - rewrite bind_cons, owned_nodes_unfold in *. cbn [app length] in Hf. rewrite <- app_comm_cons, len_cons.
    set (rest := ((λ v, (owner, v)) <$> inline_values o) ++ stack).
    assert ((((λ v, (owner, v)) <$> inline_values o) ≫= owned_nodes) ++ (stack ≫= owned_nodes) = rest ≫= owned_nodes) as Hr
      by (unfold rest; by rewrite bind_app).
    rewrite Hr in *. cbn [scan_loop]. unfold mbind at 1, sm_bind at 1, sm_lift, need, checked_add.
    pose proof (len_nonneg (rest ≫= owned_nodes)).
    destruct (visited + 1 <=? usize_max) eqn:Hu; bool_prop; cbn [ok_or]; [|simpl; lia].
    unfold sm_reject_if, reject_if. unfold mbind at 1, sm_bind at 1, sm_lift.
    destruct (max_nodes <? visited + 1) eqn:Hm; bool_prop; [simpl; lia|].
    unfold mbind at 1, sm_bind at 1, checkpoint.
    destruct ((visited + 1) mod PDF_SCAN_CHECKPOINT_INTERVAL =? 0).
    + destruct (check_deadline s) as [[[]|e] s'] eqn:Hc; [|exists s; by rewrite Hc].
      specialize (IH (visited + 1) rest (inspect_object deref owner o scan) s' ltac:(lia) ltac:(lia)).
      destruct (scan_loop _ _ _ _ _ _ _ _) as [[r|[| |[e|]]] s'']; simpl in *; rewrite ?Z.add_assoc; done.
    + specialize (IH (visited + 1) rest (inspect_object deref owner o scan) s ltac:(lia) ltac:(lia)).
      destruct (scan_loop _ _ _ _ _ _ _ _) as [[r|[| |[e|]]] s'']; simpl in *; rewrite ?Z.add_assoc; done.
Qed.
End Walk.

(** The walk changes nothing but what the checks of the deadline change. *)
Lemma scan_keeps {S} (I : S → Prop) (doc : PdfDocument) (max_nodes : Z) (check_deadline : SM S Limits.AttachmentError unit) s :
  (∀ s, I s → I (check_deadline s).2) → I s → I (scan_document doc max_nodes check_deadline s).2.
Proof.
  intros Hc. unfold scan_document, mbind, sm_bind.
  assert (∀ fuel v stack scan s, I s → I (scan_loop (dereference doc) check_deadline fuel max_nodes v stack scan s).2) as Hloop.
  { intros fuel. induction fuel as [|fuel IH]; intros v [|[owner o] stack] scan s' Hs; cbn [scan_loop]; try exact Hs.
    unfold mbind at 1, sm_bind at 1, sm_lift. destruct (need _ _) as [k|e]; [|exact Hs].
    unfold mbind at 1, sm_bind at 1, sm_reject_if, sm_lift. destruct (reject_if _ _) as [u|e]; [|exact Hs].
    unfold mbind at 1, sm_bind at 1, checkpoint. specialize (Hc s' Hs). destruct (k mod _ =? 0).
    - destruct (check_deadline s') as [[[]|e] s'']; [by apply IH|exact Hc].
    - by apply IH. }
  intros Hs. set (fuel := length _). specialize (Hloop fuel 0 (roots doc) no_scan s Hs).
  by destruct (scan_loop _ _ fuel _ _ _ _ s) as [[r|e] s'].
Qed.

(** The walk over a PDF returns. Unless the deadline has passed, it inspects every node of
    the loaded objects, once and in order, if there are no more than the limit, and
    reports that there are too many otherwise. *)
Theorem pdf_scan_exact {S} (doc : PdfDocument) (max_nodes : Z) (check_deadline : SM S Limits.AttachmentError unit) (s : S) :
  0 ≤ max_nodes ≤ usize_max →
  let ns := roots doc ≫= owned_nodes in
  let all := inspect_all (dereference doc) ns no_scan in
  match (scan_document doc max_nodes check_deadline s).1 with
  | Ok r => len ns ≤ max_nodes ∧ embedded_files r = sort_by file_cmp id (embedded_files all) ∧ active_content r ≡ₚ active_content all
  | Err (Fail NodeLimit) => max_nodes < len ns
  | Err (Fail (Deadline e)) => ∃ s, (check_deadline s).1 = Err e
  | Err _ => False
  end.
Proof.
  intros Hm ns all. unfold scan_document, mbind, sm_bind.
  pose proof (scan_loop_spec (dereference doc) check_deadline (length ns) max_nodes 0 (roots doc) no_scan s (le_n _) (proj2 Hm) (proj1 Hm)) as H.
  fold ns in H. destruct (scan_loop _ _ _ _ _ _ _ s) as [[r|[| |[e|]]] s']; simpl in *; [|done..].
  destruct H as [-> Hl]. split_and!; [done..|]. apply sort_by_perm.
Qed.

(** A PDF with an embedded file under two names and an action *)
Definition sample_pdf : PdfDocument := {|
  pdf_encrypted := false;
  pdf_objects := [((1, 0), Dictionary [(str "S", NameObj (str "JavaScript")); (str "A", Array [Dictionary [(str "Launch", Null)]])]);
                  ((2, 0), Dictionary [(str "EF", Dictionary [(str "F", Reference (3, 0)); (str "UF", Reference (3, 0))]);
                                       (str "UF", StringObj [254; 255; 0; 97; 0; 46; 0; 116])]);
                  ((3, 0), StreamObj [(str "Subtype", NameObj (str "application#2Fzip"))] [80; 75])];
  dereference o := match o with
    | Reference (3, 0) => Some (Some (3, 0), StreamObj [(str "Subtype", NameObj (str "application#2Fzip"))] [80; 75])
    | Reference _ => None
    | _ => Some (None, o)
    end;
  get_object i := if bool_decide (i = (3, 0)) then Some (StreamObj [(str "Subtype", NameObj (str "application#2Fzip"))] [80; 75]) else None;
|}.
Definition never_late : SM unit Limits.AttachmentError unit := mret tt.

Lemma pdf_scan_exact_witness :
  (scan_document sample_pdf 20 never_late tt).1 =
    Ok {| embedded_files := [{| raw_name := str "a.t"; stream_id := Some (3, 0); owner_id := Some (2, 0) |}];
          active_content := [JavaScript; LaunchAction] |} ∧
  len (roots sample_pdf ≫= owned_nodes) = 10.
Proof.
  pose proof (pdf_scan_exact sample_pdf 20 never_late tt ltac:(by apply (bool_decide_unpack _))) as _.
  split; by vm_compute.
Defined.
