(* ===== verification/MimePreflight.v ===== *)
(** * MimePreflight: bounded admission of a MIME message

    Models [attachment-native-inspect/src/mime_preflight.rs]: before an email is parsed, its
    declared boundaries are walked without decoding bodies, and its parts, the bytes of its
    headers and the depth of its nested messages are bounded. The header parser and the
    delimiter search belong to the mail parser and are an interface, [MailStream].

    The walk is a loop without an evident end: every round charges a part or goes one
    message deeper, so its fuel is the number of parts times the depths. Shows that it ends
    for every header parser, and that an admitted message is within every limit. *)

From S2P Require Import Prelude Bytes Text Utf8 Budget.
Local Open Scope Z_scope.

Record MimePreflight := { parts : Z; metadata_bytes : Z; potential_derived_bytes : Z }.
Record MimePreflightError := { mime_class : Limits.IssueClass; mime_code : string; mime_message : string }.
Notation mime := (parse MimePreflightError).

(** What the code asks of parsed headers *)
Record ContentType := { ctype : text; subtype : option text; boundary_attribute : option text }.
Record Headers := { content_type_value : option ContentType; transfer_encoding : option text }.

(** [MessageStream] over the bytes that are left. [parse_headers] gives what it read, whether
    it was complete, and the offset after it; [seek_next_part] the offset after a delimiter;
    [skip_crlf] and [is_multipart_end] move on from an offset. *)
Class MailStream := {
  parse_headers : list Z → Headers * bool * Z;
  seek_next_part : list Z → list Z → option Z;
  skip_crlf : list Z → Z → Z;
  is_multipart_end : list Z → Z → bool * Z;
}.

Record Boundary := { value : list Z; digest : bool; boundary_depth : Z }.

Definition mime_budget (c m : string) : MimePreflightError := {| mime_class := Limits.Budget; mime_code := c; mime_message := m |}.

Definition charge_part (n max_parts : Z) : mime Z :=
  n ← need (checked_add u32_max n 1) (mime_budget "mime_part_count_overflow" "The MIME part count cannot be represented safely.") ;
  fail_if (max_parts <? n) (mime_budget "mime_part_limit_exceeded"
    "The email declares more potential MIME parts than the remaining global attachment budget. It was not parsed.") ;;
  Ok n.

Definition finish (bytes : list Z) (n metadata max_potential : Z) : mime MimePreflight :=
  potential ← need (raw ← try_from u64_max (len bytes) ; checked_mul u64_max raw (Z.max n 1))
    (mime_budget "mime_derived_length_overflow" "Potential MIME decoded length cannot be represented safely.") ;
  fail_if (max_potential <? potential) (mime_budget "mime_derived_budget_exceeded"
    "The email's MIME structure can exceed the remaining cumulative decoded-byte budget. It was not parsed.") ;;
  Ok {| parts := n; metadata_bytes := metadata; potential_derived_bytes := potential |}.

Section Walk.
Context `{MailStream}.

(** The headers at the cursor, the cursor after them and the bytes of headers so far *)
Definition read_headers (bytes : list Z) (cursor metadata max_metadata : Z) : mime (option Headers * Z * Z) :=
  let remaining := saturating_sub max_metadata metadata in
  input ← slice bytes cursor (len bytes) ;
  let window_len := Z.min (saturating_add usize_max remaining 1) (len input) in
  window ← slice input 0 window_len ;
  let '(headers, complete, offset) := parse_headers window in
  let overflow := mime_budget "mime_metadata_length_overflow" "MIME metadata length cannot be represented safely." in
  consumed ← need (try_from u64_max offset) overflow ;
  metadata ← need (checked_add u64_max metadata consumed) overflow ;
  fail_if ((max_metadata <? metadata) || (negb complete && (window_len <? len input)))
    (mime_budget "mime_metadata_limit_exceeded"
       "The email's MIME headers exceed the configured container-metadata limit. It was not parsed.") ;;
  cursor ← usize_add cursor offset ;
  Ok (if complete then Some headers else None, cursor, metadata).

(** The next delimiter of a boundary, whether it closes it, and the cursor after it *)
Definition next_boundary (bytes : list Z) (cursor : Z) (boundary : list Z) : mime (option (bool * Z)) :=
  input ← slice bytes cursor (len bytes) ;
  match seek_next_part input boundary with
  | None => Ok None
  | Some offset =>
    let '(closing, offset) := is_multipart_end input offset in
    cursor ← usize_add cursor offset ;
    Ok (Some (closing, cursor))
  end.

(** The state of the loop *)
Record Walk := {
  boundaries : list Boundary; walk_parts : Z; walk_metadata : Z; walk_cursor : Z;
  in_nested_message : bool; header_charged_by_delimiter : bool; message_depth : Z }.

Definition is_text (o : option text) (l : list string) : bool :=
  match o with Some t => existsb (λ s, bool_decide (t = str s)) l | None => false end.

(** The inner loop: ancestors whose boundary closes are left. The top of the stack comes first. *)
Fixpoint close_boundaries (bytes : list Z) (cursor : Z) (bs : list Boundary) : mime (option (list Boundary * Boundary * Z)) :=
  match bs with
  | [] => Ok None
  | b :: rest =>
    next ← next_boundary bytes cursor (value b) ;
    match next with
    | None => Ok None
    | Some (true, cursor) => close_boundaries bytes cursor rest
    | Some (false, cursor) => Ok (Some (b :: rest, b, cursor))
    end
  end.

(** A multipart whose first delimiter is found *)
Definition open_child (bytes : list Z) (cursor : Z) (ct : option ContentType) : mime (option (ContentType * list Z * Z)) :=
  match ct with
  | Some c =>
    if bool_decide (ctype c = str "multipart") then
      match boundary_attribute c with
      | Some b =>
        if bool_decide (b = []) then Ok None
        else
          input ← slice bytes cursor (len bytes) ;
          match seek_next_part input (as_bytes b) with
          | Some offset => cursor ← usize_add cursor (skip_crlf input offset) ; Ok (Some (c, as_bytes b, cursor))
          | None => Ok None
          end
      | None => Ok None
      end
    else Ok None
  | None => Ok None
  end.

Section Limits_.
Context (bytes : list Z) (max_parts max_message_depth max_metadata max_potential : Z).

Definition is_nested (ct : option ContentType) (w : Walk) : bool :=
  match ct with
  | Some c => bool_decide (ctype c = str "message") && is_text (subtype c) ["rfc822"; "global"]%string
  | None => negb (in_nested_message w) && match boundaries w with b :: _ => digest b | [] => false end
  end.
Definition encoded (h : Headers) : bool :=
  match transfer_encoding h with
  | Some e => eq_ignore_ascii_case e (str "base64") || eq_ignore_ascii_case e (str "quoted-printable")
  | None => false
  end.

(** One round of the loop: the answer, or the state of the next round *)
Definition round (w : Walk) : mime (MimePreflight + Walk) :=
  '(headers, cursor, metadata) ← read_headers bytes (walk_cursor w) (walk_metadata w) max_metadata ;
  match headers with
  | None => r ← finish bytes (walk_parts w) metadata max_potential ; Ok (inl r)
  | Some h =>
    let ct := content_type_value h in
    child ← open_child bytes cursor ct ;
    match child with
    | Some (c, value, cursor) =>
      n ← charge_part (walk_parts w) max_parts ;
      Ok (inr {| boundaries := {| value := value; digest := bool_decide (subtype c = Some (str "digest"));
                                  boundary_depth := message_depth w |} :: boundaries w;
                 walk_parts := n; walk_metadata := metadata; walk_cursor := cursor; in_nested_message := false;
                 header_charged_by_delimiter := true; message_depth := message_depth w |})
    | None =>
      n ← match ct with
          | Some c => if bool_decide (ctype c = str "multipart") && negb (header_charged_by_delimiter w)
                      then charge_part (walk_parts w) max_parts else Ok (walk_parts w)
          | None => Ok (walk_parts w)
          end ;
      if is_nested ct w then
        fail_if (encoded h) {| mime_class := Limits.Unsupported; mime_code := "mime_encoded_message_unsupported";
          mime_message := "A transfer-encoded nested email cannot be inspected before decoding its hidden MIME structure. Its original bytes were retained without parsing." |} ;;
        n ← (if negb (header_charged_by_delimiter w) then charge_part n max_parts else Ok n) ;
        depth ← need (d ← checked_add u16_max (message_depth w) 1 ; if d <=? max_message_depth then Some d else None)
          (mime_budget "mime_message_depth_exceeded"
             "The email's nested message structure exceeds the remaining attachment depth. It was not parsed.") ;
        Ok (inr {| boundaries := boundaries w; walk_parts := n; walk_metadata := metadata; walk_cursor := cursor;
                   in_nested_message := true; header_charged_by_delimiter := false; message_depth := depth |})
      else
        closed ← close_boundaries bytes cursor (boundaries w) ;
        match closed with
        | None => r ← finish bytes n metadata max_potential ; Ok (inl r)
        | Some (bs, b, cursor) =>
          n ← charge_part n max_parts ;
          Ok (inr {| boundaries := bs; walk_parts := n; walk_metadata := metadata; walk_cursor := cursor;
                     in_nested_message := false; header_charged_by_delimiter := true; message_depth := boundary_depth b |})
        end
    end
  end.

Fixpoint walk (fuel : nat) (w : Walk) : mime MimePreflight :=
  match fuel with
  | O => Err OutOfFuel
  | S fuel =>
    next ← round w ;
    match next with inl r => Ok r | inr w => walk fuel w end
  end.

Definition first_walk : Walk := {| boundaries := []; walk_parts := 0; walk_metadata := 0; walk_cursor := 0;
  in_nested_message := false; header_charged_by_delimiter := false; message_depth := 0 |}.
(** A round charges a part or goes one message deeper, and no deeper than the limit. *)
Definition walk_fuel : nat := S (Z.to_nat ((max_parts + 1) * (max_message_depth + 1))).
Definition preflight : mime MimePreflight := walk walk_fuel first_walk.
End Limits_.
End Walk.

(** ** The walk ends within its limits *)

(** The mail parser stays inside what it is given. *)
Class MailStreamLaws `{MailStream} := {
  parse_headers_within l : 0 ≤ (parse_headers l).2 ≤ len l;
  seek_within l b o : seek_next_part l b = Some o → 0 ≤ o ≤ len l;
  skip_within l o : 0 ≤ o ≤ len l → 0 ≤ skip_crlf l o ≤ len l;
  multipart_end_within l o : 0 ≤ o ≤ len l → 0 ≤ (is_multipart_end l o).2 ≤ len l;
}.

Section Bounds.
Context `{MailStreamLaws}.
Context (bytes : list Z) (max_parts max_message_depth max_metadata max_potential : Z).
Hypotheses (Hbytes : len bytes ≤ usize_max) (Hparts : 0 ≤ max_parts ≤ u32_max) (Hdepth : 0 ≤ max_message_depth ≤ u16_max)
  (Hmeta : 0 ≤ max_metadata ≤ u64_max).

Definition at_cursor (c : Z) : Prop := 0 ≤ c ≤ len bytes.
Record walk_ok (w : Walk) : Prop := {
  wk_cursor : at_cursor (walk_cursor w);
  wk_metadata : 0 ≤ walk_metadata w ≤ max_metadata;
  wk_parts : 0 ≤ walk_parts w ≤ max_parts;
  wk_depth : 0 ≤ message_depth w ≤ max_message_depth;
  wk_boundaries b : b ∈ boundaries w → 0 ≤ boundary_depth b ≤ max_message_depth;
}.
Definition measure (w : Walk) : Z := (max_parts - walk_parts w) * (max_message_depth + 1) + (max_message_depth - message_depth w).

Lemma slice_rest c : at_cursor c → slice (E:=MimePreflightError) bytes c (len bytes) = Ok (sub_list bytes c (len bytes)) ∧
  len (sub_list bytes c (len bytes)) = len bytes - c.
Proof.
  intros Hc. unfold at_cursor in Hc. split; [|apply sub_list_len; lia]. unfold slice, get_slice.
  rewrite (proj2 (Z.leb_le c _)), Z.leb_refl by lia. done.
Qed.
Lemma usize_add_within c o : at_cursor c → 0 ≤ o ≤ len bytes - c → usize_add (E:=MimePreflightError) c o = Ok (c + o) ∧ at_cursor (c + o).
Proof. intros Hc Ho. unfold at_cursor, usize_add, checked_add in *. rewrite (proj2 (Z.leb_le _ _)) by lia. split; [done|lia]. Qed.

Lemma charge_part_returns n : 0 ≤ n → returns_with (λ m, m = n + 1 ∧ m ≤ max_parts) (charge_part n max_parts).
Proof.
  intros Hn. unfold charge_part, checked_add. destruct (n + 1 <=? u32_max) eqn:Hu; simpl; [|done].
  unfold fail_if, reject_if. destruct (max_parts <? n + 1) eqn:Hm; simpl; [done|]. bool_prop. lia.
Qed.
Definition within_limits (r : MimePreflight) : Prop :=
  0 ≤ parts r ≤ max_parts ∧ metadata_bytes r ≤ max_metadata ∧
  potential_derived_bytes r = len bytes * Z.max (parts r) 1 ∧ potential_derived_bytes r ≤ max_potential.
Lemma finish_returns n m : 0 ≤ m ≤ max_metadata → 0 ≤ n ≤ max_parts →
  returns_with within_limits (finish bytes n m max_potential).
Proof.
  intros Hm Hn. unfold finish, try_from, checked_mul. destruct (len bytes <=? u64_max) eqn:Hl; simpl; [|done].
  destruct (len bytes * Z.max n 1 <=? u64_max) eqn:Hu; simpl; [|done].
  unfold fail_if, reject_if. destruct (max_potential <? _) eqn:Hp; simpl; [done|]. bool_prop. unfold within_limits. split_and!; simpl; lia.
Qed.

Lemma read_headers_returns c m : at_cursor c → 0 ≤ m ≤ max_metadata →
  returns_with (λ r, at_cursor r.1.2 ∧ 0 ≤ r.2 ≤ max_metadata) (read_headers bytes c m max_metadata).
Proof.
  intros Hc Hm. unfold read_headers. destruct (slice_rest c Hc) as [-> Hlen]. cbn [mbind result_bind].
  set (input := sub_list bytes c (len bytes)) in *. pose proof (len_nonneg input).
  set (n := Z.min (saturating_add usize_max (saturating_sub max_metadata m) 1) (len input)).
  assert (0 ≤ n ≤ len input) as Hn by (unfold n, saturating_add, saturating_sub, usize_max, u64_max; lia).
  unfold slice, get_slice. rewrite (proj2 (Z.leb_le 0 n)), (proj2 (Z.leb_le n _)) by lia. cbn [andb ok_or mbind result_bind].
  assert (len (sub_list input 0 n) = n) as Hw by (rewrite sub_list_len; lia).
  pose proof (parse_headers_within (sub_list input 0 n)) as Ho. destruct (parse_headers _) as [[h complete] o]. simpl in Ho.
  unfold try_from. destruct (o <=? u64_max); simpl; [|done]. unfold checked_add.
  destruct (m + o <=? u64_max); simpl; [|done]. unfold fail_if, reject_if.
  destruct (_ || _) eqn:Hx; simpl; [done|]. bool_prop.
  destruct (usize_add_within c o Hc) as [-> Hc']; [lia|]. simpl. split; [done|lia].
Qed.

Lemma next_boundary_returns c b : at_cursor c →
  returns_with (λ r, match r with Some (_, c) => at_cursor c | None => True end) (next_boundary bytes c b).
Proof.
  intros Hc. unfold next_boundary. destruct (slice_rest c Hc) as [-> Hlen]. cbn [mbind result_bind].
  destruct (seek_next_part _ b) as [o|] eqn:Hs; [|done]. apply seek_within in Hs.
  pose proof (multipart_end_within _ o Hs) as Ho. destruct (is_multipart_end _ o) as [closing o']. simpl in Ho.
  destruct (usize_add_within c o' Hc) as [-> Hc']; [lia|]. done.
Qed.
Lemma close_boundaries_returns c bs : at_cursor c →
  returns_with (λ r, match r with Some (bs', b, c) => at_cursor c ∧ b ∈ bs ∧ bs' ⊆ bs | None => True end) (close_boundaries bytes c bs).
Proof.
  revert c. induction bs as [|b bs IH]; intros c Hc; [done|]. cbn [close_boundaries].
  eapply returns_with_bind; [by apply next_boundary_returns|]. intros [[[] c']|] Hc'; [| |done].
  - eapply returns_with_mono; [|by apply IH]. intros [[[bs' b'] c'']|] Hr; [|done]. destruct Hr as (? & ? & ?).
    split_and!; [done|by right|]. intros x Hx. right. auto.
  - simpl. split_and!; [done|by left|done].
Qed.
Lemma open_child_returns c ct : at_cursor c →
  returns_with (λ r, match r with Some (_, _, c) => at_cursor c | None => True end) (open_child bytes c ct).
Proof.
  intros Hc. unfold open_child. destruct ct as [t|]; [|done]. case_bool_decide; [|done]. destruct (boundary_attribute t) as [b|]; [|done].
  case_bool_decide; [done|]. destruct (slice_rest c Hc) as [-> Hlen]. cbn [mbind result_bind].
  destruct (seek_next_part _ _) as [o|] eqn:Hs; [|done]. apply seek_within in Hs. pose proof (skip_within _ _ Hs) as Ho.
  destruct (usize_add_within c (skip_crlf (sub_list bytes c (len bytes)) o) Hc) as [-> Hc']; [lia|]. done.
Qed.

(** The next round has less to do. *)
Definition round_ok (w : Walk) (next : MimePreflight + Walk) : Prop :=
  match next with
  | inl r => within_limits r
  | inr w' => walk_ok w' ∧ measure w' < measure w
  end.

Lemma round_returns w : walk_ok w →
  returns_with (round_ok w) (round bytes max_parts max_message_depth max_metadata max_potential w).
Proof.
  intros [Hc Hm Hp Hd Hb]. unfold round. eapply returns_with_bind; [by apply read_headers_returns|].
  intros [[headers cursor] metadata] [Hc' Hm']. simpl in Hc', Hm'. destruct headers as [h|].
  2: { eapply returns_with_bind; [by apply finish_returns|]. intros r Hr. exact Hr. }
  eapply returns_with_bind; [by apply open_child_returns|]. intros [[[t v] c']|] Hc''.
  { eapply returns_with_bind; [apply charge_part_returns; lia|]. intros n [-> Hn]. split; [split; simpl; try done; try lia|].
    - intros b [->|Hin]%elem_of_cons; [done|auto].
    - unfold measure. simpl. nia. }
  eapply (returns_with_bind (λ n, walk_parts w ≤ n ≤ max_parts)).
  { destruct (content_type_value h) as [t|]; [|simpl; lia]. case_match; [|simpl; lia].
    eapply returns_with_mono; [|apply charge_part_returns; lia]. intros n [-> ?]. lia. }
  intros n Hn. destruct (is_nested _ w).
  - eapply (returns_with_bind (λ _, True)); [by unfold fail_if, reject_if; case_match|]. intros [] _.
    eapply (returns_with_bind (λ n', n ≤ n' ≤ max_parts)).
    { destruct (header_charged_by_delimiter w); [simpl; lia|]. eapply returns_with_mono; [|apply charge_part_returns; lia].
      intros n' [-> ?]. lia. }
    intros n' Hn'. eapply returns_with_bind; [apply need_returns|]. intros d Hdep. cbv beta in Hdep.
    unfold checked_add in Hdep. destruct (message_depth w + 1 <=? u16_max); [|done]. simpl in Hdep.
    destruct (message_depth w + 1 <=? max_message_depth) eqn:Hle; [|done]. bool_prop. simplify_eq/=.
    split; [split; simpl; try done; lia|]. unfold measure. simpl. nia.
  - eapply returns_with_bind; [by apply close_boundaries_returns|]. intros [[[bs b] c']|] Hcl.
    2: { eapply returns_with_bind; [apply finish_returns; [done|lia]|]. intros r Hr. exact Hr. }
    destruct Hcl as (Hc3 & Hin & Hsub). eapply returns_with_bind; [apply charge_part_returns; lia|]. intros n' [-> Hn'].
    pose proof (Hb b Hin). split; [split; simpl; try done; try lia|].
    + intros b' Hb'. auto.
    + unfold measure. simpl. nia.
Qed.

Lemma walk_returns fuel w : walk_ok w → measure w < Z.of_nat fuel →
  returns_with within_limits (walk bytes max_parts max_message_depth max_metadata max_potential fuel w).
Proof.
  revert w. induction fuel as [|fuel IH]; intros w Hw Hf.
  { destruct Hw as [_ _ Hp Hd _]. unfold measure in Hf. nia. }
  cbn [walk]. eapply returns_with_bind; [by apply round_returns|]. intros [r|w'] Hr; [done|].
  destruct Hr as [Hw' Hlt]. apply IH; [done|lia].
Qed.

(** The walk over the boundaries of a message returns, whatever the header parser finds in
    the bytes. A message that is admitted has no more parts and no more bytes of headers than
    the limits, and its potential decoded length, its length for every part, is within the
    remaining budget. *)
Theorem mime_preflight_bounds :
  returns_with (λ r, 0 ≤ parts r ≤ max_parts ∧ metadata_bytes r ≤ max_metadata ∧
    potential_derived_bytes r = len bytes * Z.max (parts r) 1 ∧ potential_derived_bytes r ≤ max_potential)
    (preflight bytes max_parts max_message_depth max_metadata max_potential).
Proof.
  unfold preflight. apply (walk_returns (walk_fuel max_parts max_message_depth) first_walk).
  - pose proof (len_nonneg bytes). split; simpl; unfold at_cursor; try lia. intros b Hb. by apply elem_of_nil in Hb.
  - unfold measure, walk_fuel, first_walk. simpl. nia.
Qed.
End Bounds.

(** A mail parser for the witness: [M] begins a multipart with boundary [x], every header
    is one byte long, and [-] after a delimiter closes it. *)
#[export] Instance toy_mail : MailStream := {
  parse_headers l := ({| content_type_value := match l with
      | 77 :: _ => Some {| ctype := str "multipart"; subtype := None; boundary_attribute := Some (str "x") |}
      | _ => None end; transfer_encoding := None |}, true, match l with [] => 0 | _ => 1 end);
  seek_next_part l _ := (λ i, Z.of_nat i.1 + 1) <$> list_find (λ b, b = 120) l;
  skip_crlf _ o := o;
  is_multipart_end l o := match get l o with Some 45 => (true, o + 1) | _ => (false, o) end;
}.
#[export] Instance toy_mail_laws : MailStreamLaws.
Proof.
  split.
  - intros l. cbn. destruct l; [done|]. rewrite len_cons. pose proof (len_nonneg l). lia.
  - intros l b o H. cbn in H. apply fmap_Some in H as ([i x] & Hf & ->). apply list_find_Some in Hf as (Hl & _ & _).
    apply lookup_lt_Some in Hl. unfold len. simpl. lia.
  - intros l o H. exact H.
  - intros l o H. cbn. destruct (get l o) as [b|] eqn:Hg; [|exact H]. apply get_Some in Hg as [Hlt _]; [|lia].
    repeat case_match; simpl; lia.
Qed.

Lemma mime_preflight_bounds_witness :
  preflight (str "MxTxTx-") 2 8 100 100 = Ok {| parts := 2; metadata_bytes := 3; potential_derived_bytes := 14 |} ∧
  returns (preflight (str "MxTxTx-") 1 8 100 100) ∧ ¬ is_ok (preflight (str "MxTxTx-") 1 8 100 100).
Proof.
  split; [by vm_compute|]. split; [|by vm_compute; intros []].
  eapply returns_with_returns. apply (mime_preflight_bounds (str "MxTxTx-") 1 8 100 100); by apply (bool_decide_unpack _).
Defined.
