(* ===== verification/AttachmentTypes.v ===== *)
(** * AttachmentTypes: the contracts of attachment inspection and preparation

    Models [attachment-native-types/src/lib.rs]: the graph of the objects that were
    found in an attachment, the artifacts made from them, the bundle of both with the
    retained bytes, the plan that prepares a bundle for one target and the receipt of an
    inspection, each with its validation. The limits and the usage of an inspection are
    in Budget.v.

    Strings are [text]; the length of one is a [usize], which converts to [u64]. A
    [BTreeSet] or [BTreeMap] is a [gset] or [gmap], with its entries listed in key order
    where the code goes through them. SHA-256 is an argument. *)

From S2P Require Import Prelude Bytes Text Utf8 Budget.
Local Open Scope Z_scope.

Definition GRAPH_SCHEMA : text := str "attachment_native.graph.v1".
Definition ARTIFACT_SCHEMA : text := str "attachment_native.artifact.v2".
Definition PLAN_SCHEMA : text := str "attachment_native.preparation_plan.v2".
Definition RECEIPT_SCHEMA : text := str "attachment_native.receipt.v1".

(** ** Errors *)

Inductive ContractError :=
| SchemaMismatch (expected actual : text)
| InvalidBudget (m : text)
| InvalidCapabilities (m : text)
| MissingObject (id : text)
| MissingBlob (id : text)
| InvalidGraph (m : text)
| DuplicateObject (id : text)
| DuplicateArtifact (id : text)
| DuplicateObjectArtifactReference (id : text)
| ObjectArtifactReferenceMismatch (id : text)
| DuplicatePreparedArtifact (id : text)
| DuplicateTransformRequest (id : text)
| InvalidPreparationPlan (m : text)
| InvalidHash (h : text)
| ObjectIdHashMismatch (id : text)
| DepthOutOfRange (d : Z)
| InvalidTextSegment (start end_ text_len : Z)
| BlobLengthMismatch (id : text) (expected actual : Z)
| BlobHashMismatch (id actual : text)
| ArtifactBlobSourceMismatch (artifact_id artifact_source blob_object_id blob_sha256 : text)
| InvalidArtifactBlob (artifact_id reason : text)
| InvalidReceipt (m : text)
| IntegerOverflow.

(** [Display] *)
Definition contract_error_text (e : ContractError) : text :=
  match e with
  | SchemaMismatch x a => str "schema mismatch: expected " ++ x ++ str ", got " ++ a
  | InvalidBudget m => str "invalid budget: " ++ m
  | InvalidCapabilities m => str "invalid target capabilities: " ++ m
  | MissingObject i => str "missing object " ++ i
  | MissingBlob i => str "missing retained blob for object " ++ i
  | InvalidGraph m => str "invalid attachment graph: " ++ m
  | DuplicateObject i => str "duplicate object " ++ i
  | DuplicateArtifact i => str "duplicate artifact " ++ i
  | DuplicateObjectArtifactReference i => str "object " ++ i ++ str " contains duplicate artifact references"
  | ObjectArtifactReferenceMismatch i => str "object " ++ i ++ str " artifact references do not match emitted artifacts"
  | DuplicatePreparedArtifact i => str "duplicate prepared artifact " ++ i
  | DuplicateTransformRequest i => str "duplicate transform request " ++ i
  | InvalidPreparationPlan m => str "invalid preparation plan: " ++ m
  | InvalidHash h => str "invalid sha256 " ++ h
  | ObjectIdHashMismatch i => str "object id does not match sha256 for " ++ i
  | DepthOutOfRange d => str "depth " ++ decimal d ++ str " is outside graph limits"
  | InvalidTextSegment s e l =>
    str "invalid UTF-8 text segment " ++ decimal s ++ str ".." ++ decimal e ++ str " for text length " ++ decimal l
  | BlobLengthMismatch i x a => str "blob " ++ i ++ str " length mismatch: expected " ++ decimal x ++ str ", got " ++ decimal a
  | BlobHashMismatch i a => str "blob " ++ i ++ str " content hash mismatch: got " ++ a
  | ArtifactBlobSourceMismatch i s b h =>
    str "artifact " ++ i ++ str " source " ++ s ++ str " does not match blob object " ++ b ++ str " / hash " ++ h
  | InvalidArtifactBlob i r => str "artifact " ++ i ++ str " contains an invalid blob reference: " ++ r
  | InvalidReceipt m => str "invalid attachment receipt: " ++ m
  | IntegerOverflow => str "integer conversion overflow"
  end.

Notation contract := (parse ContractError).

(** ** Generic steps *)

(** [for x in l { f(x)?; }] *)
Fixpoint each {E A} (f : A → parse E unit) (l : list A) : parse E unit :=
  match l with
  | [] => Ok tt
  | x :: l => f x ;; each f l
  end.

(** [s.trim().is_empty()] *)
Definition blank (s : text) : bool := bool_decide (trim s = []).

(** [.map(|x| (key(x), x)).collect::<BTreeMap<_, _>>()]: a later entry replaces an earlier one. *)
Definition by_key {A} (key : A → text) (l : list A) : gmap text A := foldl (λ m x, <[key x := x]> m) ∅ l.

(** The entries of a [BTreeMap], in key order *)
Definition str_le (s t : text) : Prop := str_cmp s t ≠ Gt.
Definition key_le {A} (x y : text * A) : Prop := str_le x.1 y.1.
#[export] Instance str_le_dec : RelDecision str_le.
Proof. intros s t. unfold str_le. apply _. Defined.
#[export] Instance key_le_dec {A} : RelDecision (key_le (A:=A)).
Proof. intros x y. unfold key_le. apply _. Defined.
Definition in_key_order {A} (m : gmap text A) : list (text * A) := merge_sort key_le (map_to_list m).

(** Sixty-four lowercase hexadecimal digits *)
Definition is_sha256_text (s : text) : bool :=
  (str_len s =? 64) && forallb (λ b, is_ascii_hexdigit b && negb (is_ascii_uppercase b)) (as_bytes s).

(** ** Formats *)

Inductive MediaFamily := Image | Audio | Video.
#[export] Instance media_family_eq_dec : EqDecision MediaFamily.
Proof. solve_decision. Defined.
Definition media_family_name (f : MediaFamily) : text :=
  match f with Image => str "Image" | Audio => str "Audio" | Video => str "Video" end.

Inductive DetectedFormat :=
| PlainText | Markdown_ | RichText | WebVtt | SubRip | Json | Csv | Tsv | Html | Xml | Svg | JupyterNotebook | Pdf
| Docx | Pptx | Xlsx | Epub | OpenDocumentText | OpenDocumentSpreadsheet | OpenDocumentPresentation
| IWorkPages | IWorkNumbers | IWorkKeynote | OleCompound | Email | Mbox
| Zip | Tar | Gzip | Bzip2 | Xz | Zstd | SevenZip | Rar
| Png | Jpeg | Gif | Webp | Bmp | Tiff | Heif | Avif
| Wav | Aiff | Caf | Flac | Mp3 | Ogg | OggAudio | OggVideo | M4a | Mp4 | QuickTime | Matroska | Webm | Avi
| Executable | UnknownBinary.
#[export] Instance detected_format_eq_dec : EqDecision DetectedFormat.
Proof. solve_decision. Defined.

Definition is_container (f : DetectedFormat) : bool :=
  match f with
  | Zip | Docx | Pptx | Xlsx | Epub | OpenDocumentText | OpenDocumentSpreadsheet | OpenDocumentPresentation
  | IWorkPages | IWorkNumbers | IWorkKeynote | OleCompound | Email | Mbox | Tar | Gzip | Bzip2 | Xz | Zstd | SevenZip | Rar => true
  | _ => false
  end.

Definition media_family (f : DetectedFormat) : option MediaFamily :=
  match f with
  | Png | Jpeg | Gif | Webp | Bmp | Tiff | Heif | Avif | Svg => Some Image
  | Wav | Aiff | Caf | Flac | Mp3 | OggAudio | M4a => Some Audio
  | OggVideo | Mp4 | QuickTime | Matroska | Webm | Avi => Some Video
  | _ => None
  end.

Definition canonical_media_type (f : DetectedFormat) : text :=
  str match f with
  | PlainText => "text/plain"
  | Markdown_ => "text/markdown"
  | RichText => "application/rtf"
  | WebVtt => "text/vtt"
  | SubRip => "application/x-subrip"
  | Json => "application/json"
  | Csv => "text/csv"
  | Tsv => "text/tab-separated-values"
  | Html => "text/html"
  | Xml => "application/xml"
  | Svg => "image/svg+xml"
  | JupyterNotebook => "application/x-ipynb+json"
  | Pdf => "application/pdf"
  | Docx => "application/vnd.openxmlformats-officedocument.wordprocessingml.document"
  | Pptx => "application/vnd.openxmlformats-officedocument.presentationml.presentation"
  | Xlsx => "application/vnd.openxmlformats-officedocument.spreadsheetml.sheet"
  | Epub => "application/epub+zip"
  | OpenDocumentText => "application/vnd.oasis.opendocument.text"
  | OpenDocumentSpreadsheet => "application/vnd.oasis.opendocument.spreadsheet"
  | OpenDocumentPresentation => "application/vnd.oasis.opendocument.presentation"
  | IWorkPages => "application/vnd.apple.pages"
  | IWorkNumbers => "application/vnd.apple.numbers"
  | IWorkKeynote => "application/vnd.apple.keynote"
  | OleCompound => "application/x-ole-storage"
  | Email => "message/rfc822"
  | Mbox => "application/mbox"
  | Zip => "application/zip"
  | Tar => "application/x-tar"
  | Gzip => "application/gzip"
  | Bzip2 => "application/x-bzip2"
  | Xz => "application/x-xz"
  | Zstd => "application/zstd"
  | SevenZip => "application/x-7z-compressed"
  | Rar => "application/vnd.rar"
  | Png => "image/png"
  | Jpeg => "image/jpeg"
  | Gif => "image/gif"
  | Webp => "image/webp"
  | Bmp => "image/bmp"
  | Tiff => "image/tiff"
  | Heif => "image/heif"
  | Avif => "image/avif"
  | Wav => "audio/wav"
  | Aiff => "audio/aiff"
  | Caf => "audio/x-caf"
  | Flac => "audio/flac"
  | Mp3 => "audio/mpeg"
  | Ogg => "application/ogg"
  | OggAudio => "audio/ogg"
  | OggVideo => "video/ogg"
  | M4a => "audio/mp4"
  | Mp4 => "video/mp4"
  | QuickTime => "video/quicktime"
  | Matroska => "video/x-matroska"
  | Webm => "video/webm"
  | Avi => "video/x-msvideo"
  | Executable => "application/x-executable"
  | UnknownBinary => "application/octet-stream"
  end%string.

Inductive DetectionConfidence := ParserConfirmed | StrongSignature | Probable | HintOnly.
Inductive DetectionEvidence := ParserStructure | MagicBytes | ContainerMembers | TextSyntax | DeclaredMediaType | FileExtension.
Record FormatCandidate := {
  candidate_format : DetectedFormat; confidence : DetectionConfidence; evidence : DetectionEvidence; candidate_offset : Z }.
Record DetectionMismatch := { mismatch_hint : text; mismatch_detected : text }.
Record Detection := {
  selected : option DetectedFormat;
  candidates : list FormatCandidate;
  extension_hint : option text;
  declared_media_type : option text;
  mismatch : option DetectionMismatch;
}.

(** ** The policy of an inspection *)

Inductive UnknownBinaryPolicy := UnknownReject | RecordOpaque.
Inductive ArchivePathPolicy := RejectEntry | SanitizeAndScan.
#[export] Instance archive_path_policy_eq_dec : EqDecision ArchivePathPolicy.
Proof. solve_decision. Defined.
Record InspectionPolicy := {
  policy_limits : Limits.BudgetLimits;
  unknown_binary : UnknownBinaryPolicy;
  path_policy : ArchivePathPolicy;
  analyze_duplicate_content_once : bool;
  continue_after_child_error : bool;
  inspect_pdf_embedded_files : bool;
}.
Definition default_inspection_policy : InspectionPolicy := {|
  policy_limits := Limits.default; unknown_binary := RecordOpaque; path_policy := SanitizeAndScan;
  analyze_duplicate_content_once := true; continue_after_child_error := true; inspect_pdf_embedded_files := true |}.

(** ** The graph of objects *)

Inductive ObjectStatus :=
| StatusComplete
| StatusPartial (reasons : list text)
| StatusOpaque
| StatusUnsupported (code : text)
| StatusBlocked (code : text)
| StatusMalformed (code : text).
#[export] Instance object_status_eq_dec : EqDecision ObjectStatus.
Proof. solve_decision. Defined.
Inductive Coverage := CoverageComplete | CoveragePartial (reasons : list text).

Record LogicalName := { display : text; raw_name_hex : option text; sanitized : bool }.
Definition provided (d : text) : LogicalName := {| display := d; raw_name_hex := None; sanitized := false |}.

Inductive TransformKind :=
  RootInput | VoiceInferenceAudio | ZipMember | TarMember | GzipPayload | Bzip2Payload | XzPayload | ZstdPayload
| SevenZipMember | RarMember | EmbeddedRange | DocumentPart | EmailPart | MailboxMessage | PdfEmbeddedFile.
Record TransformProvenance := { kind : TransformKind; implementation : text; version : text }.
Inductive EdgeOutcome :=
  Derived | Duplicate | Directory | RejectedName | SpecialFile | Encrypted | UnsupportedCodec | Malformed | BudgetExceeded | DepthExceeded.
#[export] Instance edge_outcome_eq_dec : EqDecision EdgeOutcome.
Proof. solve_decision. Defined.
Definition edge_outcome_name (o : EdgeOutcome) : text :=
  str match o with
  | Derived => "Derived" | Duplicate => "Duplicate" | Directory => "Directory" | RejectedName => "RejectedName"
  | SpecialFile => "SpecialFile" | Encrypted => "Encrypted" | UnsupportedCodec => "UnsupportedCodec" | Malformed => "Malformed"
  | BudgetExceeded => "BudgetExceeded" | DepthExceeded => "DepthExceeded"
  end%string.
Record ByteRange := { start : Z; end_exclusive : Z }.

Record ObjectRecord := {
  o_id : text;
  o_sha256 : text;
  o_byte_len : Z;
  detection : Detection;
  status : ObjectStatus;
  first_depth : Z;
  artifact_ids : list text;
}.
Record DerivationEdge := {
  parent : text;
  child : option text;
  depth : Z;
  name : LogicalName;
  transform : TransformProvenance;
  declared_uncompressed_bytes : option Z;
  compressed_bytes : option Z;
  source_range : option ByteRange;
  outcome : EdgeOutcome;
}.

Inductive IssueSeverity := Info | Warning | Blocked.
#[export] Instance issue_severity_eq_dec : EqDecision IssueSeverity.
Proof. solve_decision. Defined.
Record AttachmentIssue := {
  issue_code : text;
  issue_class : Limits.IssueClass;
  severity : IssueSeverity;
  issue_object_id : option text;
  edge_index : option Z;
  issue_message : text;
}.

Record AttachmentGraph := {
  g_schema : text;
  g_job_id : text;
  root : text;
  root_name : LogicalName;
  objects : list ObjectRecord;
  edges : list DerivationEdge;
  issues : list AttachmentIssue;
  coverage : Coverage;
  limits : Limits.BudgetLimits;
  usage : Limits.BudgetUsage;
}.

(** [objects.iter().find(|object| object.id == id)] *)
Definition find_object (os : list ObjectRecord) (id : text) : option ObjectRecord := List.find (λ o, bool_decide (o_id o = id)) os.

(** [ObjectRecord::validate] *)
Definition object_validate (o : ObjectRecord) : contract unit :=
  fail_if (negb (is_sha256_text (o_sha256 o))) (InvalidHash (o_sha256 o)) ;;
  fail_if (negb (bool_decide (o_id o = o_sha256 o))) (ObjectIdHashMismatch (o_id o)).

Definition validate_usage (u : Limits.BudgetUsage) (l : Limits.BudgetLimits) : contract unit :=
  fail_if (negb ((Limits.root_bytes u <=? Limits.max_root_bytes l)
      && (Limits.total_derived_bytes u <=? Limits.max_total_derived_bytes l)
      && (Limits.retained_bytes u <=? Limits.max_retained_bytes l)
      && (Limits.objects u <=? Limits.max_objects l)
      && (Limits.edges u <=? Limits.max_edges l)
      && (Limits.entries u <=? Limits.max_entries l)
      && (Limits.deepest_object u <=? saturating_add u16_max (Limits.max_depth l) 1)
      && (Limits.text_bytes u <=? Limits.max_text_bytes l)
      && (Limits.media_objects u <=? Limits.max_media_objects l)
      && (Limits.media_bytes u <=? Limits.max_media_bytes l)
      && (Limits.transform_requests u <=? Limits.max_transform_requests l)))
    (InvalidGraph (str "recorded usage exceeds the graph's declared limits")).

(** [AttachmentGraph::validate], part by part: the limits, *)
Definition limits_validate (l : Limits.BudgetLimits) : contract unit :=
  match Limits.validate l with Ok u => Ok u | Err (Limits.InvalidBudget m) => Err (Fail (InvalidBudget (str m))) end.

(** the objects and their ids, *)
Fixpoint object_ids (os : list ObjectRecord) (ids : gset text) : contract (gset text) :=
  match os with
  | [] => Ok ids
  | o :: os =>
    object_validate o ;;
    fail_if (bool_decide (o_id o ∈ ids)) (DuplicateObject (o_id o)) ;;
    object_ids os ({[o_id o]} ∪ ids)
  end.

(** the depths and sizes, *)
Definition root_validate (g : AttachmentGraph) (r : ObjectRecord) : contract unit :=
  fail_if (negb (first_depth r =? 0)) (InvalidGraph (str "the root object must have depth zero")) ;;
  fail_if (Limits.max_root_bytes (limits g) <? o_byte_len r)
    (InvalidGraph (str "root object length " ++ decimal (o_byte_len r) ++ str " exceeds the declared root-byte limit "
                   ++ decimal (Limits.max_root_bytes (limits g)))).
Definition derived (g : AttachmentGraph) : list ObjectRecord := List.filter (λ o, negb (bool_decide (o_id o = root g))) (objects g).
Definition derived_validate (g : AttachmentGraph) (o : ObjectRecord) : contract unit :=
  fail_if (first_depth o =? 0) (InvalidGraph (str "non-root object " ++ o_id o ++ str " cannot have depth zero")) ;;
  fail_if (Limits.max_depth (limits g) <? first_depth o) (DepthOutOfRange (first_depth o)) ;;
  fail_if (Limits.max_object_bytes (limits g) <? o_byte_len o)
    (InvalidGraph (str "derived object " ++ o_id o ++ str " length " ++ decimal (o_byte_len o)
                   ++ str " exceeds the declared per-object limit " ++ decimal (Limits.max_object_bytes (limits g)))).

(** the usage against the objects, *)
Fixpoint sum_bytes (total : Z) (l : list Z) : contract Z :=
  match l with
  | [] => Ok total
  | n :: l => t ← need (checked_add u64_max total n) IntegerOverflow ; sum_bytes t l
  end.
Definition usage_validate (g : AttachmentGraph) (r : ObjectRecord) : contract unit :=
  let u := usage g in
  fail_if (negb (Limits.root_bytes u =? o_byte_len r))
    (InvalidGraph (str "root byte usage " ++ decimal (Limits.root_bytes u) ++ str " does not match the root object length "
                   ++ decimal (o_byte_len r))) ;;
  object_count ← need (try_from u32_max (len (objects g))) IntegerOverflow ;
  edge_count ← need (try_from u32_max (len (edges g))) IntegerOverflow ;
  fail_if (negb (Limits.objects u =? object_count) || negb (Limits.edges u =? edge_count))
    (InvalidGraph (str "usage counts (" ++ decimal (Limits.objects u) ++ str ", " ++ decimal (Limits.edges u)
                   ++ str " objects/edges) do not match graph counts (" ++ decimal object_count ++ str ", " ++ decimal edge_count
                   ++ str ")")) ;;
  minimum_derived_bytes ← sum_bytes 0 (o_byte_len <$> derived g) ;
  fail_if (Limits.total_derived_bytes u <? minimum_derived_bytes)
    (InvalidGraph (str "derived-byte usage " ++ decimal (Limits.total_derived_bytes u) ++ str " is smaller than the "
                   ++ decimal minimum_derived_bytes ++ str " bytes retained by derived objects")) ;;
  validate_usage u (limits g).

(** each edge, *)
Definition must_have_child (o : EdgeOutcome) : bool := match o with Derived | Duplicate => true | _ => false end.
Definition edge_validate (g : AttachmentGraph) (ids : gset text) (objects_by_id : gmap text ObjectRecord) (e : DerivationEdge) :
    contract unit :=
  fail_if (blank (implementation (transform e)) || blank (version (transform e)))
    (InvalidGraph (str "derivation-edge implementation and version provenance must not be empty")) ;;
  fail_if (negb (bool_decide (parent e ∈ ids))) (MissingObject (parent e)) ;;
  match child e with Some c => fail_if (negb (bool_decide (c ∈ ids))) (MissingObject c) | None => Ok tt end ;;
  fail_if ((saturating_add u16_max (Limits.max_depth (limits g)) 1 <? depth e)
           || ((Limits.max_depth (limits g) <? depth e) && negb (bool_decide (outcome e = DepthExceeded)))) (DepthOutOfRange (depth e)) ;;
  p ← need (objects_by_id !! parent e) (MissingObject (parent e)) ;
  fail_if (negb (depth e =? saturating_add u16_max (first_depth p) 1))
    (InvalidGraph (str "edge from " ++ parent e ++ str " has depth " ++ decimal (depth e) ++ str ", expected "
                   ++ decimal (saturating_add u16_max (first_depth p) 1))) ;;
  fail_if (negb (Bool.eqb (must_have_child (outcome e)) (bool_decide (is_Some (child e)))))
    (InvalidGraph (str "edge outcome " ++ edge_outcome_name (outcome e) ++ str " has an inconsistent child reference")) ;;
  match child e with
  | Some child_id =>
    c ← need (objects_by_id !! child_id) (MissingObject child_id) ;
    match outcome e with
    | Derived => fail_if (negb (first_depth c =? depth e))
        (InvalidGraph (str "derived child " ++ o_id c ++ str " has depth " ++ decimal (first_depth c) ++ str ", expected "
                       ++ decimal (depth e)))
    | Duplicate => fail_if (depth e <? first_depth c)
        (InvalidGraph (str "duplicate child " ++ o_id c ++ str " first appears below its referring edge"))
    | _ => Ok tt
    end
  | None => Ok tt
  end ;;
  match source_range e with
  | Some r =>
    fail_if (end_exclusive r <? start r) (InvalidGraph (str "an edge source range starts after it ends")) ;;
    fail_if (o_byte_len p <? end_exclusive r)
      (InvalidGraph (str "an edge source range ends at " ++ decimal (end_exclusive r) ++ str ", beyond parent " ++ o_id p
                     ++ str " length " ++ decimal (o_byte_len p)))
  | None => Ok tt
  end.

(** the derivation of each object, *)
Definition provenance_validate (g : AttachmentGraph) (o : ObjectRecord) : contract unit :=
  fail_if (negb (existsb (λ e, bool_decide (outcome e = Derived) && bool_decide (child e = Some (o_id o))) (edges g)))
    (InvalidGraph (str "non-root object " ++ o_id o ++ str " has no provenance-establishing derived edge")).

(** the greatest depth, *)
Definition deepest (g : AttachmentGraph) : Z := foldr Z.max 0 ((first_depth <$> objects g) ++ (depth <$> edges g)).

(** what is reachable from the root, breadth first, *)
Definition push_child (p : text) (q : list text * gset text) (e : DerivationEdge) : list text * gset text :=
  if bool_decide (parent e = p) then
    match child e with
    | Some c => if bool_decide (c ∈ q.2) then q else (q.1 ++ [c], {[c]} ∪ q.2)
    | None => q
    end
  else q.
Fixpoint reach_loop (fuel : nat) (es : list DerivationEdge) (queue : list text) (reachable : gset text) : contract (gset text) :=
  match queue, fuel with
  | [], _ => Ok reachable
  | _, O => Err OutOfFuel
  | p :: queue, S fuel => let q := foldl (push_child p) (queue, reachable) es in reach_loop fuel es q.1 q.2
  end.
Definition reach (g : AttachmentGraph) : contract (gset text) := reach_loop (S (length (edges g))) (edges g) [root g] {[root g]}.

(** each issue, *)
Definition issue_validate (g : AttachmentGraph) (ids : gset text) (i : AttachmentIssue) : contract unit :=
  fail_if (blank (issue_code i) || blank (issue_message i)) (InvalidGraph (str "issue codes and safe messages must not be empty")) ;;
  match issue_object_id i with Some o => fail_if (negb (bool_decide (o ∈ ids))) (MissingObject o) | None => Ok tt end ;;
  match edge_index i with
  | Some n => fail_if (len (edges g) <=? n) (InvalidGraph (str "an issue refers to a missing derivation edge"))
  | None => Ok tt
  end.

(** and the coverage. *)
Definition incomplete_outcome (o : EdgeOutcome) : bool :=
  match o with
  | RejectedName | SpecialFile | Encrypted | UnsupportedCodec | Malformed | BudgetExceeded | DepthExceeded => true
  | _ => false
  end.
Definition coverage_validate (g : AttachmentGraph) : contract unit :=
  match coverage g with
  | CoverageComplete =>
    fail_if (existsb (λ o, negb (bool_decide (status o = StatusComplete))) (objects g))
      (InvalidGraph (str "complete coverage cannot contain an incomplete object")) ;;
    fail_if (existsb (λ i, bool_decide (severity i = Blocked)) (issues g))
      (InvalidGraph (str "complete coverage cannot contain a blocked issue")) ;;
    fail_if (existsb (λ e, incomplete_outcome (outcome e)) (edges g))
      (InvalidGraph (str "complete coverage cannot contain an incomplete derivation outcome"))
  | CoveragePartial reasons => fail_if (bool_decide (reasons = [])) (InvalidGraph (str "partial coverage must name at least one reason"))
  end.

Definition graph_validate (g : AttachmentGraph) : contract unit :=
  fail_if (negb (bool_decide (g_schema g = GRAPH_SCHEMA))) (SchemaMismatch GRAPH_SCHEMA (g_schema g)) ;;
  limits_validate (limits g) ;;
  ids ← object_ids (objects g) ∅ ;
  fail_if (negb (bool_decide (root g ∈ ids))) (MissingObject (root g)) ;;
  r ← need (find_object (objects g) (root g)) (MissingObject (root g)) ;
  root_validate g r ;;
  each (derived_validate g) (derived g) ;;
  usage_validate g r ;;
  each (edge_validate g ids (by_key o_id (objects g))) (edges g) ;;
  each (provenance_validate g) (derived g) ;;
  fail_if (negb (Limits.deepest_object (usage g) =? deepest g))
    (InvalidGraph (str "deepest-object usage " ++ decimal (Limits.deepest_object (usage g)) ++ str " does not match graph depth "
                   ++ decimal (deepest g))) ;;
  reachable ← reach g ;
  fail_if (negb (Z.of_nat (size reachable) =? len (objects g)))
    (InvalidGraph (str "the object graph contains an object unreachable from the root")) ;;
  each (issue_validate g ids) (issues g) ;;
  coverage_validate g.

(** ** Artifacts *)

Record ProcessorProvenance := { processor_name : text; processor_version : text; policy_fingerprint : text }.
Inductive ContentTrust := UntrustedAttachmentData.
Inductive BlobValidationGrade := HeaderOrStructureOnly | WholeFileStructure | PayloadDecoded.
Definition permits_direct_media (g : BlobValidationGrade) : bool := match g with PayloadDecoded => true | _ => false end.
Definition grade_name (g : BlobValidationGrade) : text :=
  match g with
  | HeaderOrStructureOnly => str "HeaderOrStructureOnly"
  | WholeFileStructure => str "WholeFileStructure"
  | PayloadDecoded => str "PayloadDecoded"
  end.
Record BlobValidation := { grade : BlobValidationGrade; method : text; validator : ProcessorProvenance }.

Inductive TextFormat := Plain | Markdown.
#[export] Instance text_format_eq_dec : EqDecision TextFormat.
Proof. solve_decision. Defined.
Inductive SegmentKind := Document | Page | Slide | Sheet | SegmentRow | Cell | EmailHeader | EmailBody | NotebookCell | ArchiveMember.
Record TextSegment := {
  segment_kind : SegmentKind; label : option text; start_byte : Z; end_byte : Z; coordinates : option (gmap text text) }.
Record BlobRef := { b_object_id : text; b_sha256 : text; b_byte_len : Z; media_type : text }.
#[export] Instance blob_ref_eq_dec : EqDecision BlobRef.
Proof. solve_decision. Defined.
Record MediaMetadata := {
  width : option Z; height : option Z; duration_ms : option Z; channels : option Z; sample_rate_hz : option Z; frame_count : option Z }.

Inductive ArtifactPayload :=
| Text (format : TextFormat) (txt : text) (segments : list TextSegment)
| Media (family : MediaFamily) (blob : BlobRef) (metadata : MediaMetadata) (validation : BlobValidation)
| Opaque (blob : BlobRef).

Record CanonicalArtifact := {
  a_schema : text;
  a_id : text;
  source : text;
  processor : ProcessorProvenance;
  trust : ContentTrust;
  payload : ArtifactPayload;
  a_warnings : list text;
}.

(** [BlobValidation::validate] *)
Definition blob_validation_validate (v : BlobValidation) (a : CanonicalArtifact) : contract unit :=
  fail_if (blank (method v) || blank (processor_name (validator v)) || blank (processor_version (validator v))
           || blank (policy_fingerprint (validator v)))
    (InvalidArtifactBlob (a_id a) (str "media validation method and provenance must not be empty")).

(** [media_type.split(';').next()] *)
Fixpoint before_semicolon (t : text) : text :=
  match t with
  | [] => []
  | c :: t => if c =? 59 then [] else c :: before_semicolon t
  end.
Definition prefix_is (essence p : text) : bool :=
  match str_get essence 0 (str_len p) with Some x => eq_ignore_ascii_case x p | None => false end.
Definition media_family_from_type (t : text) : option MediaFamily :=
  let essence := trim (before_semicolon t) in
  if prefix_is essence (str "image/") then Some Image
  else if prefix_is essence (str "audio/") then Some Audio
  else if prefix_is essence (str "video/") then Some Video
  else None.

(** [CanonicalArtifact::validate]: the segments of a text, *)
Definition is_char_boundary (t : text) (b : Z) : bool := bool_decide (is_Some (boundary t b)).
Fixpoint segments_validate (t : text) (previous_end : Z) (l : list TextSegment) : contract unit :=
  match l with
  | [] => Ok tt
  | s :: l =>
    fail_if ((end_byte s <? start_byte s) || (str_len t <? end_byte s) || negb (is_char_boundary t (start_byte s))
             || negb (is_char_boundary t (end_byte s)) || (start_byte s <? previous_end))
      (InvalidTextSegment (start_byte s) (end_byte s) (str_len t)) ;;
    segments_validate t (end_byte s) l
  end.

(** the blob of a medium or of opaque bytes, *)
Definition artifact_blob_validate (a : CanonicalArtifact) (b : BlobRef) : contract unit :=
  fail_if (negb (bool_decide (b_object_id b = source a)) || negb (bool_decide (b_sha256 b = source a))
           || negb (bool_decide (b_sha256 b = b_object_id b)))
    (ArtifactBlobSourceMismatch (a_id a) (source a) (b_object_id b) (b_sha256 b)) ;;
  fail_if (blank (media_type b)) (InvalidArtifactBlob (a_id a) (str "media_type must not be empty")).

Definition artifact_validate (a : CanonicalArtifact) : contract unit :=
  fail_if (negb (bool_decide (a_schema a = ARTIFACT_SCHEMA))) (SchemaMismatch ARTIFACT_SCHEMA (a_schema a)) ;;
  fail_if (blank (processor_name (processor a)) || blank (processor_version (processor a)) || blank (policy_fingerprint (processor a)))
    (InvalidArtifactBlob (a_id a) (str "processor provenance must not be empty")) ;;
  match payload a with
  | Text _ t segments => segments_validate t 0 segments
  | Media family blob _ validation =>
    artifact_blob_validate a blob ;;
    match media_family_from_type (media_type blob) with
    | Some f => fail_if (negb (bool_decide (f = family)))
        (InvalidArtifactBlob (a_id a) (str "declared media family " ++ media_family_name family ++ str " contradicts media type "
                                       ++ media_type blob))
    | None => Ok tt
    end ;;
    blob_validation_validate validation a
  | Opaque blob => artifact_blob_validate a blob
  end.

(** ** The bundle *)

Record AttachmentBundle := { graph : AttachmentGraph; artifacts : list CanonicalArtifact; blobs : gmap text (list Z) }.

Definition payload_blob (p : ArtifactPayload) : option BlobRef :=
  match p with Media _ b _ _ | Opaque b => Some b | Text _ _ _ => None end.

(** The loop over the artifacts: the ids seen, by source, and what they use. *)
Record Tally := {
  seen_ids : gset text; artifacts_by_source : gmap text (gset text); tally_text : Z; tally_objects : Z; tally_media : Z }.
Definition tally_artifact (objs : gset text) (t : Tally) (a : CanonicalArtifact) : contract Tally :=
  artifact_validate a ;;
  fail_if (negb (bool_decide (source a ∈ objs))) (MissingObject (source a)) ;;
  fail_if (bool_decide (a_id a ∈ seen_ids t)) (DuplicateArtifact (a_id a)) ;;
  let seen := {[a_id a]} ∪ seen_ids t in
  let by_source := <[source a := {[a_id a]} ∪ default ∅ (artifacts_by_source t !! source a)]> (artifacts_by_source t) in
  match payload a with
  | Text _ x _ =>
    n ← need (checked_add u64_max (tally_text t) (str_len x)) IntegerOverflow ;
    Ok {| seen_ids := seen; artifacts_by_source := by_source; tally_text := n; tally_objects := tally_objects t;
          tally_media := tally_media t |}
  | Media _ b _ _ =>
    m ← need (checked_add u32_max (tally_objects t) 1) IntegerOverflow ;
    n ← need (checked_add u64_max (tally_media t) (b_byte_len b)) IntegerOverflow ;
    Ok {| seen_ids := seen; artifacts_by_source := by_source; tally_text := tally_text t; tally_objects := m; tally_media := n |}
  | Opaque _ =>
    Ok {| seen_ids := seen; artifacts_by_source := by_source; tally_text := tally_text t; tally_objects := tally_objects t;
          tally_media := tally_media t |}
  end.
Fixpoint tally (objs : gset text) (t : Tally) (l : list CanonicalArtifact) : contract Tally :=
  match l with
  | [] => Ok t
  | a :: l => t ← tally_artifact objs t a ; tally objs t l
  end.

(** The loop over the objects: the artifacts and the bytes of each *)
Fixpoint objects_validate (held : gmap text (list Z)) (by_source : gmap text (gset text)) (os : list ObjectRecord) : contract unit :=
  match os with
  | [] => Ok tt
  | o :: os =>
    let declared : gset text := list_to_set (artifact_ids o) in
    fail_if (negb (Z.of_nat (size declared) =? len (artifact_ids o))) (DuplicateObjectArtifactReference (o_id o)) ;;
    fail_if (negb (bool_decide (declared = default ∅ (by_source !! o_id o)))) (ObjectArtifactReferenceMismatch (o_id o)) ;;
    fail_if (negb (bool_decide (is_Some (held !! o_id o)))) (MissingBlob (o_id o)) ;;
    objects_validate held (delete (o_id o) by_source) os
  end.

Section Hashes.
Context (sha256_hex : list Z → text).

Definition blob_validate (g : AttachmentGraph) (objs : gset text) (entry : text * list Z) : contract unit :=
  let '(id, bytes) := entry in
  fail_if (negb (bool_decide (id ∈ objs))) (MissingObject id) ;;
  expected ← need (o_byte_len <$> find_object (objects g) id) (MissingObject id) ;
  fail_if (negb (expected =? len bytes)) (BlobLengthMismatch id expected (len bytes)) ;;
  fail_if (negb (bool_decide (id = sha256_hex bytes))) (BlobHashMismatch id (sha256_hex bytes)).

Definition artifact_length_validate (g : AttachmentGraph) (a : CanonicalArtifact) : contract unit :=
  match payload_blob (payload a) with
  | None => Ok tt
  | Some b =>
    o ← need (find_object (objects g) (source a)) (MissingObject (source a)) ;
    fail_if (negb (b_byte_len b =? o_byte_len o))
      (InvalidArtifactBlob (a_id a) (str "declared blob length " ++ decimal (b_byte_len b) ++ str " does not match source length "
                                     ++ decimal (o_byte_len o)))
  end.

Definition bundle_validate (b : AttachmentBundle) : contract unit :=
  let g := graph b in
  graph_validate g ;;
  let objs : gset text := list_to_set (o_id <$> objects g) in
  t ← tally objs {| seen_ids := ∅; artifacts_by_source := ∅; tally_text := 0; tally_objects := 0; tally_media := 0 |} (artifacts b) ;
  fail_if (negb (Limits.text_bytes (usage g) =? tally_text t) || negb (Limits.media_objects (usage g) =? tally_objects t)
           || negb (Limits.media_bytes (usage g) =? tally_media t))
    (InvalidGraph (str "canonical usage (" ++ decimal (Limits.text_bytes (usage g)) ++ str ", " ++ decimal (Limits.media_objects (usage g))
                   ++ str ", " ++ decimal (Limits.media_bytes (usage g))
                   ++ str " text bytes/media objects/media bytes) does not match retained artifacts (" ++ decimal (tally_text t)
                   ++ str ", " ++ decimal (tally_objects t) ++ str ", " ++ decimal (tally_media t) ++ str ")")) ;;
  objects_validate (blobs b) (artifacts_by_source t) (objects g) ;;
  retained_bytes ← sum_bytes 0 ((λ e, len e.2) <$> in_key_order (blobs b)) ;
  fail_if (negb (retained_bytes =? Limits.retained_bytes (usage g)))
    (InvalidGraph (str "retained-byte usage " ++ decimal (Limits.retained_bytes (usage g)) ++ str " does not match retained blobs "
                   ++ decimal retained_bytes)) ;;
  each (blob_validate g objs) (in_key_order (blobs b)) ;;
  each (artifact_length_validate g) (artifacts b).
End Hashes.

(** ** Targets and policies *)

Record TargetCapabilities := {
  target_id : text;
  fingerprint : text;
  accepted_media_types : gset text;
  accepted_media_families : list MediaFamily;
  max_media_objects : Z;
  max_media_bytes : Z;
  max_text_bytes : Z;
  supports_markdown : bool;
  supports_native_pdf : bool;
  supports_native_video : bool;
}.
(** [TargetCapabilities::validate] *)
Definition target_validate (t : TargetCapabilities) : contract unit :=
  fail_if (blank (target_id t) || blank (fingerprint t)) (InvalidCapabilities (str "target_id and fingerprint must not be empty")) ;;
  fail_if ((max_media_objects t =? 0) || (max_media_bytes t =? 0) || (max_text_bytes t =? 0))
    (InvalidCapabilities (str "target media and text limits must be greater than zero")).

Inductive ImagePreparationPolicy := DirectWhenSupported | OcrOnly | DirectAndOcr.
Inductive AudioPreparationPolicy := DirectThenTranscribe | TranscribeOnly | DirectAndTranscribe | AudioDirectOnly.
Inductive VideoPreparationPolicy := DirectThenFramesAndTranscript | FramesAndTranscript | FramesOnly | TranscriptOnly | VideoDirectOnly.
Inductive DocumentPreparationPolicy := NativeThenCanonicalText | CanonicalTextThenNative | CanonicalTextOnly.
Inductive UnsupportedPreparationPolicy := Block | PreserveAsOpaqueReference.
Record PreparationPolicy := {
  image : ImagePreparationPolicy;
  audio : AudioPreparationPolicy;
  video : VideoPreparationPolicy;
  document : DocumentPreparationPolicy;
  unsupported : UnsupportedPreparationPolicy;
}.
Definition default_policy : PreparationPolicy := {|
  image := DirectWhenSupported; audio := DirectThenTranscribe; video := DirectThenFramesAndTranscript;
  document := CanonicalTextThenNative; unsupported := Block |}.

(** ** Plans *)

Inductive PreparedPart :=
| UntrustedText (artifact_id : text) (format : TextFormat) (txt : text) (source : text)
| DirectMedia (artifact_id : text) (family : MediaFamily) (blob : BlobRef) (source : text)
| OpaqueReference (artifact_id : text) (blob : BlobRef) (source : text).
Inductive TransformOperation :=
| TranscribeAudio
| ExtractVideoAudio
| SampleVideoFrames (max_frames : Z)
| OcrImage
| RasterizePdfPages (max_pages max_megapixels : Z)
| ExtractDocumentText.
Record TransformLimits := { max_input_bytes : Z; max_output_bytes : Z; timeout_ms : Z }.
Record TransformRequest := {
  t_id : text;
  depends_on : list text;
  source_artifact : text;
  t_source : text;
  operation : TransformOperation;
  required : bool;
  t_limits : TransformLimits;
}.
Record PreparationBlocker := {
  blocker_code : text; blocker_message : text; blocker_artifact : option text; blocker_source : option text }.
Record PreparationAggregateLimits := {
  all_text_bytes : Z; all_media_objects : Z; all_media_bytes : Z; all_transform_requests : Z }.
Record PreparationPlan := {
  p_schema : text;
  plan_id : text;
  p_target_id : text;
  target_fingerprint : text;
  source_job_id : text;
  parts : list PreparedPart;
  transforms : list TransformRequest;
  blockers : list PreparationBlocker;
  p_warnings : list text;
  aggregate_limits : PreparationAggregateLimits;
  cache_fingerprint : text;
}.

(** [PreparationAggregateLimits::validate] *)
Definition aggregate_validate (l : PreparationAggregateLimits) : contract unit :=
  fail_if ((all_text_bytes l =? 0) || (all_media_objects l =? 0) || (all_media_bytes l =? 0) || (all_transform_requests l =? 0))
    (InvalidPreparationPlan (str "aggregate preparation limits must all be greater than zero")).

Definition validate_prepared_blob (artifact_id source : text) (b : BlobRef) : contract unit :=
  fail_if (negb (bool_decide (b_object_id b = source)) || negb (bool_decide (b_sha256 b = source))
           || negb (bool_decide (b_sha256 b = b_object_id b)) || blank (media_type b))
    (InvalidPreparationPlan (str "prepared artifact " ++ artifact_id ++ str " has an invalid blob reference")).

(** [PreparationPlan::validate]: the parts, *)
Record PartTally := { prepared : gset text; direct_text : Z; direct_objects : Z; direct_bytes : Z }.
Definition tally_part (t : PartTally) (p : PreparedPart) : contract PartTally :=
  '(artifact_id, t) ← match p with
    | UntrustedText a _ x s =>
      fail_if (blank s) (InvalidPreparationPlan (str "prepared text has an empty source object")) ;;
      n ← need (checked_add u64_max (direct_text t) (str_len x)) IntegerOverflow ;
      Ok (a, {| prepared := prepared t; direct_text := n; direct_objects := direct_objects t; direct_bytes := direct_bytes t |})
    | DirectMedia a _ b s | OpaqueReference a b s =>
      validate_prepared_blob a s b ;;
      m ← need (checked_add u32_max (direct_objects t) 1) IntegerOverflow ;
      n ← need (checked_add u64_max (direct_bytes t) (b_byte_len b)) IntegerOverflow ;
      Ok (a, {| prepared := prepared t; direct_text := direct_text t; direct_objects := m; direct_bytes := n |})
    end ;
  fail_if (blank artifact_id) (InvalidPreparationPlan (str "prepared artifact identifiers must not be empty")) ;;
  fail_if (bool_decide (artifact_id ∈ prepared t)) (DuplicatePreparedArtifact artifact_id) ;;
  Ok {| prepared := {[artifact_id]} ∪ prepared t; direct_text := direct_text t; direct_objects := direct_objects t;
        direct_bytes := direct_bytes t |}.
Fixpoint tally_parts (t : PartTally) (l : list PreparedPart) : contract PartTally :=
  match l with
  | [] => Ok t
  | p :: l => t ← tally_part t p ; tally_parts t l
  end.

(** the dependencies of a request on earlier ones, *)
Fixpoint dependencies_validate (id : text) (ids : gset text) (dependencies : gset text) (l : list text) : contract unit :=
  match l with
  | [] => Ok tt
  | d :: l =>
    fail_if (blank d) (InvalidPreparationPlan (str "transform request " ++ id ++ str " has an empty dependency identifier")) ;;
    fail_if (bool_decide (d ∈ dependencies)) (InvalidPreparationPlan (str "transform request " ++ id ++ str " repeats dependency " ++ d)) ;;
    fail_if (bool_decide (d = id)) (InvalidPreparationPlan (str "transform request " ++ id ++ str " cannot depend on itself")) ;;
    fail_if (negb (bool_decide (d ∈ ids)))
      (InvalidPreparationPlan (str "transform request " ++ id ++ str " depends on missing or later transform " ++ d)) ;;
    dependencies_validate id ids ({[d]} ∪ dependencies) l
  end.

(** each request, *)
Definition makes_text (o : TransformOperation) : bool :=
  match o with OcrImage | TranscribeAudio | ExtractDocumentText => true | _ => false end.
Definition aggregate_output_limit (l : PreparationAggregateLimits) (o : TransformOperation) : Z :=
  if makes_text o then all_text_bytes l else all_media_bytes l.
Definition transform_validate (l : PreparationAggregateLimits) (ids : gset text) (t : TransformRequest) : contract (gset text) :=
  fail_if (blank (t_id t) || blank (source_artifact t) || blank (t_source t))
    (InvalidPreparationPlan (str "transform request, artifact, and source identifiers must not be empty")) ;;
  fail_if (bool_decide (t_id t ∈ ids)) (DuplicateTransformRequest (t_id t)) ;;
  let ids := {[t_id t]} ∪ ids in
  dependencies_validate (t_id t) ids ∅ (depends_on t) ;;
  fail_if ((max_input_bytes (t_limits t) =? 0) || (max_output_bytes (t_limits t) =? 0) || (timeout_ms (t_limits t) =? 0))
    (InvalidPreparationPlan (str "transform request " ++ t_id t ++ str " has an unbounded or zero limit")) ;;
  fail_if (aggregate_output_limit l (operation t) <? max_output_bytes (t_limits t))
    (InvalidPreparationPlan (str "transform request " ++ t_id t ++ str " exceeds the plan's shared aggregate output budget")) ;;
  match operation t with
  | SampleVideoFrames n => fail_if ((n =? 0) || (all_media_objects l <? n))
      (InvalidPreparationPlan (str "transform request " ++ t_id t ++ str " has an invalid frame limit"))
  | RasterizePdfPages n _ => fail_if ((n =? 0) || (all_media_objects l <? n))
      (InvalidPreparationPlan (str "transform request " ++ t_id t ++ str " has an invalid page limit"))
  | _ => Ok tt
  end ;;
  Ok ids.
Fixpoint transforms_validate (l : PreparationAggregateLimits) (ids : gset text) (ts : list TransformRequest) : contract unit :=
  match ts with
  | [] => Ok tt
  | t :: ts => ids ← transform_validate l ids t ; transforms_validate l ids ts
  end.

(** and each blocker. *)
Definition blocker_validate (b : PreparationBlocker) : contract unit :=
  fail_if (blank (blocker_code b) || blank (blocker_message b))
    (InvalidPreparationPlan (str "preparation blocker codes and safe messages must not be empty")).

Definition plan_validate (p : PreparationPlan) : contract unit :=
  fail_if (negb (bool_decide (p_schema p = PLAN_SCHEMA))) (SchemaMismatch PLAN_SCHEMA (p_schema p)) ;;
  fail_if (blank (p_target_id p) || blank (target_fingerprint p) || blank (source_job_id p)
           || negb (is_sha256_text (cache_fingerprint p)) || negb (bool_decide (plan_id p = str "plan-" ++ cache_fingerprint p)))
    (InvalidPreparationPlan (str "plan, target, source-job, and cache identifiers are invalid")) ;;
  let l := aggregate_limits p in
  aggregate_validate l ;;
  t ← tally_parts {| prepared := ∅; direct_text := 0; direct_objects := 0; direct_bytes := 0 |} (parts p) ;
  fail_if ((all_text_bytes l <? direct_text t) || (all_media_objects l <? direct_objects t) || (all_media_bytes l <? direct_bytes t))
    (InvalidPreparationPlan (str "prepared parts exceed the plan's shared aggregate output budget")) ;;
  transform_count ← need (try_from u32_max (len (transforms p))) IntegerOverflow ;
  fail_if (all_transform_requests l <? transform_count)
    (InvalidPreparationPlan (str "transform requests exceed the plan's shared aggregate request budget")) ;;
  transforms_validate l ∅ (transforms p) ;;
  each blocker_validate (blockers p).

(** [PreparationPlan::validate_against]: a part, a request and a blocker against the bundle *)
Definition payload_bytes (p : ArtifactPayload) : Z :=
  match p with Text _ t _ => str_len t | Media _ b _ _ | Opaque b => b_byte_len b end.
Definition missing_artifact (what id : text) : ContractError := InvalidPreparationPlan (what ++ str " references missing artifact " ++ id).
Definition part_artifact (p : PreparedPart) : text :=
  match p with UntrustedText id _ _ _ | DirectMedia id _ _ _ | OpaqueReference id _ _ => id end.
Definition part_validate (as_ : gmap text CanonicalArtifact) (p : PreparedPart) : contract unit :=
  match p with
  | UntrustedText id format t s =>
    a ← need (as_ !! id) (missing_artifact (str "prepared part") id) ;
    match payload a with
    | Text f x _ =>
      fail_if (negb (bool_decide (s = source a)) || negb (bool_decide (t = x))
               || negb (bool_decide (format = f) || (bool_decide (format = Plain) && bool_decide (f = Markdown))))
        (InvalidPreparationPlan (str "prepared text " ++ id ++ str " does not match its canonical artifact"))
    | _ => Err (Fail (InvalidPreparationPlan (str "prepared text " ++ id ++ str " does not reference a text artifact")))
    end
  | DirectMedia id family b s =>
    a ← need (as_ !! id) (missing_artifact (str "prepared part") id) ;
    fail_if (negb match payload a with
                  | Media f c _ _ => bool_decide (f = family) && bool_decide (c = b) && bool_decide (source a = s)
                  | _ => false
                  end)
      (InvalidPreparationPlan (str "direct media " ++ id ++ str " does not match its canonical artifact"))
  | OpaqueReference id b s =>
    a ← need (as_ !! id) (missing_artifact (str "prepared part") id) ;
    fail_if (negb match payload a with
                  | Opaque c => bool_decide (c = b) && bool_decide (source a = s)
                  | _ => false
                  end)
      (InvalidPreparationPlan (str "opaque reference " ++ id ++ str " does not match its canonical artifact"))
  end ;;
  fail_if (negb (bool_decide (is_Some (as_ !! part_artifact p)))) (missing_artifact (str "prepared part") (part_artifact p)).
Definition transform_source_validate (as_ : gmap text CanonicalArtifact) (t : TransformRequest) : contract unit :=
  a ← need (as_ !! source_artifact t) (missing_artifact (str "transform " ++ t_id t) (source_artifact t)) ;
  fail_if (negb (bool_decide (t_source t = source a)) || negb (max_input_bytes (t_limits t) =? payload_bytes (payload a)))
    (InvalidPreparationPlan (str "transform " ++ t_id t ++ str " does not match its canonical source artifact")).
Definition blocker_source_validate (as_ : gmap text CanonicalArtifact) (objs : gset text) (b : PreparationBlocker) : contract unit :=
  a ← match blocker_artifact b with
      | Some id => a ← need (as_ !! id) (missing_artifact (str "blocker") id) ; Ok (Some a)
      | None => Ok None
      end ;
  match blocker_source b with
  | Some s => fail_if (negb (bool_decide (s ∈ objs))) (InvalidPreparationPlan (str "blocker references missing source object " ++ s))
  | None => Ok tt
  end ;;
  match a, blocker_source b with
  | Some a, Some s => fail_if (negb (bool_decide (source a = s)))
      (InvalidPreparationPlan (str "blocker artifact and source references disagree"))
  | _, _ => Ok tt
  end.

(** ** Receipts *)

Inductive ReceiptStatus := Passed | Partial | ReceiptBlocked | Failed.
#[export] Instance receipt_status_eq_dec : EqDecision ReceiptStatus.
Proof. solve_decision. Defined.
Definition receipt_status_name (s : ReceiptStatus) : text :=
  str match s with Passed => "Passed" | Partial => "Partial" | ReceiptBlocked => "Blocked" | Failed => "Failed" end%string.
Record AttachmentReceipt := {
  r_schema : text;
  r_job_id : text;
  r_status : ReceiptStatus;
  root_sha256 : text;
  r_policy_fingerprint : text;
  processor_versions : gmap text text;
  r_usage : Limits.BudgetUsage;
  complete_coverage : bool;
  network_used : bool;
  process_used : bool;
  model_invoked : bool;
  changed_paths : list text;
}.
#[export] Instance usage_eq_dec : EqDecision Limits.BudgetUsage.
Proof. solve_decision. Defined.

Section PlanValidation.
Context (sha256_hex : list Z → text).

Definition validate_against (p : PreparationPlan) (b : AttachmentBundle) : contract unit :=
  plan_validate p ;;
  bundle_validate sha256_hex b ;;
  fail_if (negb (bool_decide (source_job_id p = g_job_id (graph b))))
    (InvalidPreparationPlan (str "the preparation plan belongs to a different inspection job")) ;;
  let as_ := by_key a_id (artifacts b) in
  let objs : gset text := list_to_set (o_id <$> objects (graph b)) in
  each (part_validate as_) (parts p) ;;
  each (transform_source_validate as_) (transforms p) ;;
  each (blocker_source_validate as_ objs) (blockers p).

(** [AttachmentReceipt::validate_against] *)
Definition receipt_validate (r : AttachmentReceipt) (b : AttachmentBundle) (plan : option PreparationPlan) : contract unit :=
  fail_if (negb (bool_decide (r_schema r = RECEIPT_SCHEMA))) (SchemaMismatch RECEIPT_SCHEMA (r_schema r)) ;;
  bundle_validate sha256_hex b ;;
  let g := graph b in
  fail_if (negb (bool_decide (r_job_id r = g_job_id g)) || negb (bool_decide (root_sha256 r = root g)) || negb (bool_decide (r_usage r = usage g)))
    (InvalidReceipt (str "receipt identity or usage does not match its graph")) ;;
  let partial := match coverage g with CoverageComplete => false | CoveragePartial _ => true end in
  fail_if (Bool.eqb (complete_coverage r) partial) (InvalidReceipt (str "receipt coverage does not match its graph")) ;;
  fail_if (blank (r_policy_fingerprint r) || bool_decide (processor_versions r = ∅)
           || existsb (λ e, blank e.1 || blank e.2) (in_key_order (processor_versions r)))
    (InvalidReceipt (str "receipt policy and processor provenance must not be empty")) ;;
  blocked ← match plan with
            | Some p => validate_against p b ;; Ok (negb (bool_decide (length (blockers p) = 0%nat)))
            | None => Ok false
            end ;
  let fully_blocked := blocked && match plan with
    | Some p => bool_decide (length (parts p) = 0%nat) && bool_decide (length (transforms p) = 0%nat)
    | None => false
    end in
  let expected_status := if fully_blocked then ReceiptBlocked else if blocked || partial then Partial else Passed in
  fail_if (negb (bool_decide (r_status r = expected_status)))
    (InvalidReceipt (str "receipt status " ++ receipt_status_name (r_status r) ++ str " does not match derived status "
                     ++ receipt_status_name expected_status)).
End PlanValidation.
