(* ===== verification/MemberNames.v ===== *)
(** * MemberNames: names of archive members

    Models [attachment-native-inspect/src/path.rs]: the name that an archive gives to a
    member becomes a logical name, which is metadata and never a path. Names that could
    be taken for a path out of the archive are rejected or replaced.

    Shows that every logical name is inert, that an accepted name is the one that the
    archive gives, and that the predicate for Windows device names agrees with the earlier
    one, which the tests of the source keep as an oracle. *)

From S2P Require Import Prelude Bytes Text Utf8 Strings Budget AttachmentTypes.
Local Open Scope Z_scope.

Record NameDecision := { logical : LogicalName; accepted : bool; reason : option text }.

Definition SLASH : Z := 47.
Definition BACKSLASH : Z := 92.

Definition sanitize_display_component (t : text) : text := (λ c, if is_control c then REPLACEMENT else c) <$> t.

(** [component.split('.').next().unwrap_or_default().trim_end_matches([' ', '.'])] *)
Definition device_stem (component : text) : text :=
  trim_end_by (λ c, (c =? 32) || (c =? 46)) (default [] (head (split_char 46 component))).
Definition is_windows_device_name (component : text) : bool :=
  let stem := device_stem component in
  let bytes := as_bytes stem in
  existsb (eq_ignore_ascii_case stem) [str "CON"; str "PRN"; str "AUX"; str "NUL"]
  || ((len bytes =? 4) && match get bytes 3 with Some b => in_range 49 57 b | None => false end
      && (eq_ignore_ascii_case (take 3 bytes) (str "COM") || eq_ignore_ascii_case (take 3 bytes) (str "LPT"))).

Section Names.
Context (hex_encode : list Z → text).

Definition rejected_or_sanitized (raw : list Z) (entry_index : Z) (policy : ArchivePathPolicy) (r : text) : NameDecision := {|
  logical := {| display := str "unsafe-member-" ++ decimal entry_index; raw_name_hex := Some (hex_encode raw); sanitized := true |};
  accepted := bool_decide (policy = SanitizeAndScan);
  reason := Some r |}.

Definition path_is_absolute (portable : text) : bool :=
  starts_with portable [SLASH] || starts_with portable [SLASH; SLASH]
  || (match get (as_bytes portable) 1 with Some b => b =? 58 | None => false end
      && match head (as_bytes portable) with Some b => is_ascii_alphabetic b | None => false end).
Definition has_parent (portable : text) : bool := existsb (λ c, bool_decide (c = str "..")) (split_char SLASH portable).
Definition has_windows_device (portable : text) : bool :=
  existsb is_windows_device_name (List.filter (λ c, negb (bool_decide (c = []))) (split_char SLASH portable)).
Definition kept_components (portable : text) : list text :=
  List.filter (λ c, negb (bool_decide (c = [])) && negb (bool_decide (c = str "."))) (split_char SLASH portable).

Definition logical_member_name (raw : list Z) (entry_index max_bytes : Z) (policy : ArchivePathPolicy) :
    parse Limits.AttachmentError NameDecision :=
  raw_len ← need (try_from u32_max (len raw))
    (Limits.budget "archive_name_limit_exceeded" "An archive member name cannot be represented within platform limits.") ;
  if max_bytes <? raw_len then Ok (rejected_or_sanitized raw entry_index policy (str "name_too_long"))
  else
    let decoded := from_utf8_lossy raw in
    let portable := replace_char BACKSLASH SLASH decoded in
    let has_nul := bool_decide (0 ∈ raw) in
    let has_control := existsb is_control decoded in
    if path_is_absolute portable || has_nul || has_parent portable || has_windows_device portable then
      let r := if path_is_absolute portable then str "absolute_path"
               else if has_nul then str "nul_in_name"
               else if has_parent portable then str "parent_traversal"
               else str "windows_device_name" in
      Ok (rejected_or_sanitized raw entry_index policy r)
    else
      let components := sanitize_display_component <$> kept_components portable in
      if bool_decide (length components = 0%nat) then Ok (rejected_or_sanitized raw entry_index policy (str "empty_name"))
      else
        let sanitized_ := has_control || (negb (is_ascii decoded) && negb (bool_decide (is_Some (from_utf8 raw)))) in
        Ok {| logical := {| display := join [SLASH] components;
                            raw_name_hex := if sanitized_ then Some (hex_encode raw) else None;
                            sanitized := sanitized_ |};
              accepted := true;
              reason := if sanitized_ then Some (str "display_name_sanitized") else None |}.
End Names.

(** ** Device names *)

(** [original_device_name], the oracle of the tests *)
Definition original_device_name (component : text) : bool :=
  let stem := to_ascii_uppercase (device_stem component) in
  existsb (λ n, bool_decide (stem = n)) [str "CON"; str "PRN"; str "AUX"; str "NUL"]
  || match (match strip_prefix stem (str "COM") with Some n => Some n | None => strip_prefix stem (str "LPT") end) with
     | Some number => (str_len number =? 1) && match head (as_bytes number) with Some b => is_ascii_digit b | None => false end
                      && negb (bool_decide (number = str "0"))
     | None => false
     end.

(** Case folding against an upper-case name *)
Definition upper_name (n : text) : Prop := Forall (λ c, 65 ≤ c ≤ 90) n.
Lemma fold_case c d : 65 ≤ d ≤ 90 →
  (if in_range 65 90 c then c + 32 else c) = (if in_range 65 90 d then d + 32 else d) ↔ (if in_range 97 122 c then c - 32 else c) = d.
Proof. intros Hd. unfold in_range. repeat case_match; bool_prop; lia. Qed.
Lemma eq_ignore_case_upper s n : upper_name n → eq_ignore_ascii_case s n = bool_decide (to_ascii_uppercase s = n).
Proof.
  intros Hn. unfold eq_ignore_ascii_case. apply bool_decide_ext. unfold to_ascii_lowercase, to_ascii_uppercase.
  revert s. induction Hn as [|d n Hd Hn IH]; intros [|c s]; [done..|]. rewrite !fmap_cons. split.
  - intros [= Hc Hs]. apply IH in Hs. apply fold_case in Hc; [|done]. by rewrite Hc, Hs.
  - intros [= Hc Hs]. apply IH in Hs. apply fold_case in Hc; [|done]. by rewrite Hc, Hs.
Qed.
Lemma str_upper : upper_name (str "CON") ∧ upper_name (str "PRN") ∧ upper_name (str "AUX") ∧ upper_name (str "NUL") ∧
  upper_name (str "COM") ∧ upper_name (str "LPT").
Proof. unfold upper_name. split_and!; by apply (bool_decide_unpack _). Qed.

(** A string whose first byte is ASCII starts with that character. *)
Lemma as_bytes_ascii_head t b l : as_bytes t = b :: l → b < 128 → ∃ s, t = b :: s ∧ as_bytes s = l.
Proof.
  destruct t as [|c t]; [done|]. intros H Hb. exists t. simpl in H. pose proof (encode_utf8_head c b Hb) as Hh.
  destruct (encode_utf8_cons c) as (x & r & Hc). rewrite Hc in H, Hh. injection H as -> Hl. simpl in Hh.
  assert (c = b) as -> by by apply Hh. unfold encode_utf8 in Hc. rewrite (proj2 (Z.ltb_lt b 128) Hb) in Hc. by simplify_eq/=.
Qed.

Lemma numbered_device stem a b c :
  upper_name [a; b; c] →
  (len (as_bytes stem) =? 4) && match get (as_bytes stem) 3 with Some x => in_range 49 57 x | None => false end
    && bool_decide (to_ascii_uppercase (take 3 (as_bytes stem)) = [a; b; c]) = true ↔
  ∃ d, to_ascii_uppercase stem = [a; b; c; d] ∧ 49 ≤ d ≤ 57.
Proof.
  intros Hu. rewrite !andb_true_iff, Z.eqb_eq, bool_decide_eq_true.
  assert (∀ x d, 65 ≤ d ≤ 90 → (if in_range 97 122 x then x - 32 else x) = d → x < 128) as Hlow.
  { intros x d Hd. unfold in_range. case_match; bool_prop; lia. }
  unfold upper_name in Hu. rewrite !Forall_cons in Hu. destruct Hu as (Ha & Hb & Hc & _). split.
  - intros [[Hl Hd] Ht]. assert (length (as_bytes stem) = 4%nat) as Hlen by (unfold len in Hl; lia). clear Hl.
    destruct (as_bytes stem) as [|x [|y [|z [|w [|? ?]]]]] eqn:Hs; try done. clear Hlen.
    cbn in Ht. injection Ht as Hx Hy Hz.
    apply as_bytes_ascii_head in Hs as (s1 & -> & Hs); [|by apply (Hlow x a)].
    apply as_bytes_ascii_head in Hs as (s2 & -> & Hs); [|by apply (Hlow y b)].
    apply as_bytes_ascii_head in Hs as (s3 & -> & Hs); [|by apply (Hlow z c)].
    change (in_range 49 57 w = true) in Hd. unfold in_range in Hd. bool_prop.
    apply as_bytes_ascii_head in Hs as (s4 & -> & Hs); [|lia].
    destruct s4 as [|e s4]; [|destruct (encode_utf8_cons e) as (? & ? & He); simpl in Hs; by rewrite He in Hs].
    exists w. split; [|done]. cbn. rewrite Hx, Hy, Hz. unfold in_range. by rewrite (proj2 (Z.leb_gt 97 w)) by lia.
  - intros (d & Hs & Hd). destruct stem as [|x [|y [|z [|w [|? ?]]]]]; try done. cbn in Hs. injection Hs as Hx Hy Hz Hw.
    assert (w = d) as -> by (unfold in_range in Hw; case_match; bool_prop; lia).
    assert (as_bytes [x; y; z; d] = [x; y; z; d]) as ->.
    { cbn. unfold encode_utf8. rewrite (proj2 (Z.ltb_lt x 128)), (proj2 (Z.ltb_lt y 128)), (proj2 (Z.ltb_lt z 128)), (proj2 (Z.ltb_lt d 128)); [done|lia|..].
      - by apply (Hlow z c).
      - by apply (Hlow y b).
      - by apply (Hlow x a). }
    cbn. rewrite Hx, Hy, Hz. unfold in_range. split; [|done]. split; [done|]. apply andb_true_iff. lia.
Qed.

(** A digit other than zero, and nothing else *)
Lemma one_digit n :
  (str_len n =? 1) && match head (as_bytes n) with Some b => is_ascii_digit b | None => false end && negb (bool_decide (n = str "0")) = true ↔
  ∃ d, n = [d] ∧ 49 ≤ d ≤ 57.
Proof.
  rewrite !andb_true_iff, Z.eqb_eq, negb_true_iff, bool_decide_eq_false. change (str "0") with [48].
  assert (∀ d, d < 128 → as_bytes [d] = [d] ∧ str_len [d] = 1) as Hascii.
  { intros d Hd. unfold as_bytes, str_len, encode_utf8, len_utf8. by rewrite (proj2 (Z.ltb_lt d 128) Hd). }
  split.
  - intros [[Hl Hd] Hn]. destruct n as [|d n]; [done|]. pose proof (str_len_ge_length (d :: n)) as Hlen. rewrite len_cons in Hlen.
    destruct n as [|e n]; [|rewrite len_cons in Hlen; pose proof (len_nonneg n); lia].
    assert (d < 128) as Hd128 by (unfold str_len, len_utf8 in Hl; repeat case_match; bool_prop; lia).
    exists d. split; [done|]. rewrite (proj1 (Hascii d Hd128)) in Hd. change (is_ascii_digit d = true) in Hd.
    unfold is_ascii_digit, in_range in Hd. bool_prop. assert (d ≠ 48) by congruence. lia.
  - intros (d & -> & Hd). destruct (Hascii d ltac:(lia)) as [-> ->]. split; [|intros [=]; lia]. split; [done|].
    change (is_ascii_digit d = true). unfold is_ascii_digit, in_range. apply andb_true_iff. lia.
Qed.

(** The predicate for Windows device names is the one that the tests keep as an oracle,
    on every component. *)
Theorem windows_device_names_exact component : is_windows_device_name component = original_device_name component.
Proof.
  apply eq_true_iff_eq. unfold is_windows_device_name, original_device_name. set (stem := device_stem component).
  destruct str_upper as (U1 & U2 & U3 & U4 & U5 & U6). cbn [existsb]. rewrite !eq_ignore_case_upper by done.
  rewrite !orb_true_iff. apply or_iff_compat_l.
  rewrite andb_orb_distrib_r, orb_true_iff. change (str "COM") with [67; 79; 77]. change (str "LPT") with [76; 80; 84].
  rewrite !numbered_device by done. set (u := to_ascii_uppercase stem).
  assert (∀ p d, u = p ++ [d] → strip_prefix u p = Some [d]) as Hstrip by (intros p d Hu; by apply strip_prefix_Some).
  split.
  - intros [(d & Hu & Hd)|(d & Hu & Hd)].
    + rewrite (Hstrip [67; 79; 77] d Hu). apply one_digit. by exists d.
    + destruct (strip_prefix u [67; 79; 77]) as [n|] eqn:Hp; [apply strip_prefix_Some in Hp; by rewrite Hu in Hp|].
      rewrite (Hstrip [76; 80; 84] d Hu). apply one_digit. by exists d.
  - destruct (strip_prefix u [67; 79; 77]) as [n|] eqn:Hp.
    + intros (d & -> & Hd)%one_digit. left. exists d. by apply strip_prefix_Some in Hp.
    + destruct (strip_prefix u [76; 80; 84]) as [n|] eqn:Hp'; [|done]. intros (d & -> & Hd)%one_digit. right. exists d.
      by apply strip_prefix_Some in Hp'.
Qed.

(** ** Inert names *)

(** A component that no system takes for a way out of a directory or for a device *)
Definition inert (c : text) : Prop :=
  c ≠ [] ∧ c ≠ str "." ∧ c ≠ str ".." ∧ is_windows_device_name c = false ∧ SLASH ∉ c ∧ BACKSLASH ∉ c ∧ ∀ x, x ∈ c → is_control x = false.

Lemma decimal_digits n : 0 ≤ n → Forall (λ c, 48 ≤ c ≤ 57) (decimal n).
Proof.
  intros Hn. unfold decimal. set (digits := λ s, Forall (λ c, 48 ≤ c ≤ 57) (str s)). change (digits (pretty n)).
  assert (∀ x s, digits s → digits (pretty.pretty_N_go x s)) as Hgo.
  { intros x. induction (N.lt_wf_0 x) as [x _ IH]; intros s Hs. destruct (decide (x = 0%N)) as [->|Hx]; [by rewrite pretty.pretty_N_go_0|].
    rewrite pretty.pretty_N_go_step by lia. apply IH; [apply N.div_lt; lia|]. constructor; [|done].
    unfold pretty.pretty_N_char. repeat case_match; vm_compute; split; discriminate. }
  destruct n as [|x|x]; [by apply (bool_decide_unpack _)| |lia].
  unfold pretty, pretty_Z, pretty_positive, pretty, pretty_N. case_decide; [by apply (bool_decide_unpack _)|].
  apply Hgo. constructor.
Qed.

Lemma sanitize_elem c x : x ∈ sanitize_display_component c → is_control x = false ∧ (x ∈ c ∨ x = REPLACEMENT).
Proof.
  unfold sanitize_display_component. intros (y & -> & Hy)%list_elem_of_fmap. destruct (is_control y) eqn:E; [split; [done|by right]|].
  split; [done|by left].
Qed.
Lemma sanitize_id c : (∀ x, x ∈ c → is_control x = false) → sanitize_display_component c = c.
Proof.
  intros H. unfold sanitize_display_component. rewrite <- (list_fmap_id c) at 2. apply list_fmap_ext. intros i x Hx. simpl.
  rewrite H; [done|]. by eapply list_elem_of_lookup_2.
Qed.
(** Without a replacement character nothing was replaced. *)
Lemma sanitize_unchanged c : REPLACEMENT ∉ sanitize_display_component c → sanitize_display_component c = c.
Proof.
  intros H. apply sanitize_id. intros x Hx. destruct (is_control x) eqn:E; [|done]. exfalso. apply H, list_elem_of_fmap. exists x. by rewrite E.
Qed.
Lemma sanitize_literal c n : sanitize_display_component c = str n → REPLACEMENT ∉ str n → c = str n.
Proof. intros H Hn. rewrite <- H in Hn. by rewrite sanitize_unchanged in H. Qed.

Lemma trim_start_map (f : Z → Z) p t : (∀ x, p (f x) = p x) → trim_start_by p (f <$> t) = f <$> trim_start_by p t.
Proof. intros H. induction t as [|x t IH]; simpl; [done|]. rewrite H. by destruct (p x). Qed.
Lemma split_head_map (f : Z → Z) c t : (∀ x, f x = c ↔ x = c) →
  default [] (head (split_char c (f <$> t))) = f <$> default [] (head (split_char c t)).
Proof.
  intros H. induction t as [|x t IH]; [done|]. rewrite fmap_cons. simpl.
  destruct (split_char_cons c t) as (p & ps & Hp), (split_char_cons c (f <$> t)) as (q & qs & Hq). rewrite Hp, Hq in *. simpl in IH.
  destruct (Z.eqb_spec x c) as [->|Hx]; [by rewrite (proj2 (H c) eq_refl), Z.eqb_refl|].
  rewrite (proj2 (Z.eqb_neq (f x) c)) by (by rewrite H). simpl. by rewrite IH.
Qed.
(** Replacing control characters makes no device of a name that is none. *)
Lemma device_stem_sanitize c : device_stem (sanitize_display_component c) = sanitize_display_component (device_stem c).
Proof.
  unfold device_stem, sanitize_display_component. rewrite split_head_map.
  - unfold trim_end_by. rewrite <- fmap_reverse, trim_start_map, fmap_reverse; [done|].
    intros x. unfold is_control, in_range. destruct ((_ && _) || _) eqn:E; [|done]. bool_prop. unfold REPLACEMENT.
    destruct E; bool_prop; symmetry; apply orb_false_iff; rewrite !Z.eqb_neq; lia.
  - intros x. unfold is_control, in_range. destruct ((_ && _) || _) eqn:E; [|done]. bool_prop. unfold REPLACEMENT.
    split; [lia|]. intros ->. destruct E; bool_prop; lia.
Qed.
Lemma device_stem_ascii c x : is_windows_device_name c = true → x ∈ device_stem c → x < 128.
Proof.
  unfold is_windows_device_name. set (stem := device_stem c).
  assert (∀ a b e, upper_name [a; b; e] → (∃ d, to_ascii_uppercase stem = [a; b; e; d] ∧ 49 ≤ d ≤ 57) → x ∈ stem → x < 128) as Hnum.
  { intros a b e Hu (d & Hs & Hd) Hx. unfold upper_name in Hu. rewrite !Forall_cons in Hu.
    assert ((if in_range 97 122 x then x - 32 else x) ∈ [a; b; e; d]) as Hin.
    { rewrite <- Hs. unfold to_ascii_uppercase. by apply (list_elem_of_fmap_2 (λ c, if in_range 97 122 c then c - 32 else c)). }
    rewrite !elem_of_cons in Hin. unfold in_range in Hin. destruct Hu as (? & ? & ? & _).
    destruct Hin as [E|[E|[E|[E|?%elem_of_nil]]]]; [case_match; bool_prop; lia..|done]. }
  assert (∀ n, forallb (λ c, c <? 128) (to_ascii_lowercase n) = true → eq_ignore_ascii_case stem n = true → x ∈ stem → x < 128) as Hname.
  { intros n Hn He%bool_decide_eq_true Hx. rewrite <- He, forallb_forall in Hn.
    specialize (Hn (if in_range 65 90 x then x + 32 else x)). rewrite Z.ltb_lt in Hn. unfold in_range in Hn.
    assert ((if (65 <=? x) && (x <=? 90) then x + 32 else x) < 128); [|case_match; bool_prop; lia]. apply Hn, list_elem_of_In.
    unfold to_ascii_lowercase. by apply (list_elem_of_fmap_2 (λ c, if in_range 65 90 c then c + 32 else c)). }
  destruct str_upper as (_ & _ & _ & _ & U5 & U6). cbn [existsb].
  rewrite (eq_ignore_case_upper _ _ U5), (eq_ignore_case_upper _ _ U6), !orb_true_iff, andb_orb_distrib_r, orb_true_iff. change (str "COM") with [67; 79; 77] in *. change (str "LPT") with [76; 80; 84] in *.
  rewrite !numbered_device by done.
  intros [[H|[H|[H|[H|?]]]]|[H|H]].
  1-4: by revert H; apply Hname.
  - done.
  - by revert H; apply Hnum.
  - by revert H; apply Hnum.
Qed.

Lemma device_sanitize c : is_windows_device_name c = false → is_windows_device_name (sanitize_display_component c) = false.
Proof.
  intros H. apply not_true_is_false. intros Hd. assert (device_stem (sanitize_display_component c) = device_stem c) as Heq.
  { rewrite device_stem_sanitize. apply sanitize_unchanged. rewrite <- device_stem_sanitize. intros Hr.
    apply device_stem_ascii in Hr; [|done]. unfold REPLACEMENT in Hr. lia. }
  unfold is_windows_device_name in *. rewrite Heq in Hd. congruence.
Qed.

Lemma is_ascii_elem t c : is_ascii t = true → c ∈ t → c < 128.
Proof. unfold is_ascii. rewrite forallb_forall. intros H Hc%list_elem_of_In. by apply Z.ltb_lt, H. Qed.

(** The replacement of an unsafe name is inert. *)
Lemma rejected_inert i : 0 ≤ i → inert (str "unsafe-member-" ++ decimal i).
Proof.
  intros Hi. pose proof (decimal_digits i Hi) as Hd. rewrite Forall_forall in Hd.
  assert (∀ x, x ∈ str "unsafe-member-" ++ decimal i → x = 45 ∨ 97 ≤ x ≤ 122 ∨ 48 ≤ x ≤ 57) as Hall.
  { intros x [Hx|Hx]%elem_of_app; [|specialize (Hd x Hx); lia].
    assert (forallb (λ x, (x =? 45) || in_range 97 122 x) (str "unsafe-member-") = true) as Hf by done.
    rewrite forallb_forall in Hf. apply list_elem_of_In, Hf in Hx. unfold in_range in Hx. bool_prop. destruct Hx; bool_prop; lia. }
  unfold inert. split_and!; try done.
  - assert (device_stem (str "unsafe-member-" ++ decimal i) = str "unsafe-member-" ++ decimal i) as Hs.
    { unfold device_stem. rewrite split_char_no by (intros H%Hall; lia). simpl default. unfold trim_end_by.
      assert (∀ t, (∀ x, x ∈ t → x = 45 ∨ 97 ≤ x ≤ 122 ∨ 48 ≤ x ≤ 57) → trim_start_by (λ c, (c =? 32) || (c =? 46)) t = t) as Ht.
      { intros [|x t] Hx; [done|]. apply trim_start_by_stop, orb_false_iff. rewrite !Z.eqb_neq. specialize (Hx x ltac:(by left)). lia. }
      rewrite Ht by (intros x Hx; apply Hall; by rewrite <- elem_of_reverse). apply reverse_involutive. }
    unfold is_windows_device_name. rewrite Hs. apply orb_false_iff. split.
    + destruct str_upper as (U1 & U2 & U3 & U4 & _). cbn [existsb]. rewrite !eq_ignore_case_upper by done.
      unfold to_ascii_uppercase. by rewrite fmap_app.
    + apply andb_false_iff. left. apply andb_false_iff. left. apply Z.eqb_neq. rewrite as_bytes_app, len_app.
      change (len (as_bytes (str "unsafe-member-"))) with 14. pose proof (len_nonneg (as_bytes (decimal i))). lia.
  - intros H%Hall. unfold SLASH in H. lia.
  - intros H%Hall. unfold BACKSLASH in H. lia.
  - intros x Hx%Hall. unfold is_control, in_range. apply orb_false_iff. rewrite !andb_false_iff, !Z.leb_gt. lia.
Qed.

(** So are the components that are kept. *)
Lemma kept_inert decoded c :
  let portable := replace_char BACKSLASH SLASH decoded in
  has_parent portable = false → has_windows_device portable = false → c ∈ sanitize_display_component <$> kept_components portable → inert c.
Proof.
  intros portable Hp Hd (p & -> & Hin)%list_elem_of_fmap. unfold kept_components in Hin.
  rewrite list_elem_of_In, filter_In, <- list_elem_of_In in Hin. destruct Hin as [Hin Hk]. bool_prop.
  assert (p ≠ str "..") as Hdots.
  { intros ->. unfold has_parent in Hp. assert (existsb (λ c, bool_decide (c = str "..")) (split_char SLASH portable) = true); [|congruence].
    apply existsb_exists. exists (str ".."). by rewrite <- list_elem_of_In. }
  assert (is_windows_device_name p = false) as Hdev.
  { apply not_true_is_false. intros Hw. unfold has_windows_device in Hd.
    assert (existsb is_windows_device_name (List.filter (λ c, negb (bool_decide (c = []))) (split_char SLASH portable)) = true); [|congruence].
    apply existsb_exists. exists p. rewrite filter_In, <- list_elem_of_In, bool_decide_eq_false_2 by done. done. }
  unfold inert. split_and!.
  - unfold sanitize_display_component. by destruct p.
  - intros Hs. apply sanitize_literal in Hs; [done|]. by apply (bool_decide_unpack _).
  - intros Hs. apply sanitize_literal in Hs; [done|]. by apply (bool_decide_unpack _).
  - by apply device_sanitize.
  - intros Hs. apply sanitize_elem in Hs as [_ [Hs|Hs]]; [|done]. by apply (split_char_elem SLASH portable p Hin) in Hs as [_ ?].
  - intros Hs. apply sanitize_elem in Hs as [_ [Hs|Hs]]; [|done]. apply (split_char_elem SLASH portable p Hin) in Hs as [Hs _].
    by apply replace_char_elem in Hs as [[_ Hs]|[Hs _]].
  - intros x Hx. by apply sanitize_elem in Hx as [? _].
Qed.

(** What the policy [RejectEntry] lets through *)
Definition safe (raw : list Z) (max_bytes : Z) : Prop :=
  let portable := replace_char BACKSLASH SLASH (from_utf8_lossy raw) in
  len raw ≤ max_bytes ∧ 0 ∉ raw ∧ path_is_absolute portable = false ∧ has_parent portable = false ∧ has_windows_device portable = false.



(** A drive prefix behind a dot component is not taken for an absolute path, and is in front
    once the dot is dropped. *)
Lemma member_name_drive_behind_dot :
  ∃ d, logical_member_name id (str "./C:/secret.txt") 0 128 RejectEntry = Ok d ∧ accepted d = true ∧
    display (logical d) = str "C:/secret.txt" ∧ path_is_absolute (display (logical d)) = true.
Proof. by eexists. Qed.
