(* ===== verification/Detect.v ===== *)
(** * Detect: what kind of file the bytes are

    Models [attachment-native-inspect/src/detect.rs]: the candidates for the format of a
    blob, from its bytes, its name and its declared media type, and the one that is
    selected. The recognition of [infer] is a parameter: the MIME type of [infer::get], if
    it knows the bytes. Names are taken apart as on Unix. *)

From S2P Require Import Prelude Bytes Text Utf8 Strings Sorting AttachmentTypes.
Local Open Scope Z_scope.

(** ** Strings and bytes *)

(** [find_bytes] *)
Definition find_bytes (haystack needle : list Z) : bool := negb (bool_decide (needle = [])) && contains haystack needle.

(** [split_once] at a string *)
Fixpoint split_once_str (s t : text) : option (text * text) :=
  match strip_prefix t s with
  | Some rest => Some ([], rest)
  | None => match t with
            | [] => None
            | d :: t => '(a, b) ← split_once_str s t ; Some (d :: a, b)
            end
  end.

(** [bytes.get(a..b) == Some(s)] *)
Definition get_is (bytes : list Z) (a b : Z) (s : list Z) : bool := bool_decide (get_slice bytes a b = Some s).
(** [matches!(t, a | b | ..)] on strings *)
Definition one_of (t : text) (l : list string) : bool := existsb (λ s, bool_decide (t = str s)) l.

Definition BOM : list Z := [239; 187; 191].
Definition is_utf8 (bytes : list Z) : bool := bool_decide (is_Some (from_utf8 bytes)).

(** ** Names and media types *)

(** [Path::new(name).file_name()] and [extension()] *)
Definition file_name (name : text) : option text :=
  match last (List.filter (λ c, negb (bool_decide (c = [])) && negb (bool_decide (c = str "."))) (split_char 47 name)) with
  | Some c => if bool_decide (c = str "..") then None else Some c
  | None => None
  end.
Definition path_extension (name : text) : option text :=
  f ← file_name name ;
  match split_once 46 (reverse f) with
  | Some (after, before) => if bool_decide (before = []) then None else Some (reverse after)
  | None => None
  end.

Definition extension_hint (name : text) : option text :=
  let lower := to_ascii_lowercase name in
  match List.find (ends_with lower) [str "tar.gz"; str "tar.bz2"; str "tar.xz"] with
  | Some compound => Some compound
  | None => match path_extension lower with
            | Some extension => if bool_decide (extension = []) then None else Some extension
            | None => None
            end
  end.

(** The arms of a [match] on strings, in order *)
Definition lookup_str (table : list (list string * DetectedFormat)) (t : text) : option DetectedFormat :=
  snd <$> List.find (λ arm, one_of t arm.1) table.

Definition extension_table : list (list string * DetectedFormat) := [
  (["txt"; "log"; "rst"; "yaml"; "yml"; "toml"; "ini"; "cfg"; "conf"; "tex"; "bib"; "c"; "h"; "cc"; "cpp"; "cxx"; "hpp"; "hh";
    "rs"; "go"; "py"; "rb"; "php"; "swift"; "kt"; "kts"; "java"; "scala"; "sh"; "bash"; "zsh"; "fish"; "ps1"; "sql"; "js"; "jsx";
    "ts"; "tsx"; "css"; "scss"; "less"; "properties"; "env"], PlainText);
  (["md"; "markdown"], Markdown_); (["rtf"], RichText); (["vtt"], WebVtt); (["srt"], SubRip); (["json"], Json); (["csv"], Csv);
  (["tsv"], Tsv); (["html"; "htm"], Html); (["xml"], Xml); (["svg"], Svg); (["ipynb"], JupyterNotebook); (["pdf"], Pdf);
  (["docx"], Docx); (["pptx"], Pptx); (["xlsx"], Xlsx); (["epub"], Epub); (["odt"], OpenDocumentText);
  (["ods"], OpenDocumentSpreadsheet); (["odp"], OpenDocumentPresentation); (["pages"], IWorkPages); (["numbers"], IWorkNumbers);
  (["key"; "keynote"], IWorkKeynote); (["doc"; "xls"; "ppt"; "msg"], OleCompound); (["eml"], Email); (["mbox"], Mbox);
  (["zip"], Zip); (["tar"], Tar); (["gz"; "gzip"; "tgz"; "tar.gz"], Gzip); (["bz2"; "tbz2"; "tar.bz2"], Bzip2);
  (["xz"; "txz"; "tar.xz"], Xz); (["zst"; "zstd"], Zstd); (["7z"], SevenZip); (["rar"], Rar);
  (["png"], Png); (["jpg"; "jpeg"], Jpeg); (["gif"], Gif); (["webp"], Webp); (["bmp"], Bmp); (["tif"; "tiff"], Tiff);
  (["heif"; "heic"], Heif); (["avif"], Avif); (["wav"], Wav); (["aif"; "aiff"; "aifc"], Aiff); (["caf"], Caf); (["flac"], Flac);
  (["mp3"], Mp3); (["ogg"], Ogg); (["oga"; "opus"], OggAudio); (["ogv"], OggVideo); (["m4a"; "m4b"], M4a); (["mp4"; "m4v"], Mp4);
  (["mov"], QuickTime); (["mkv"], Matroska); (["webm"], Webm); (["avi"], Avi);
  (["exe"; "dll"; "elf"; "dylib"; "so"], Executable)]%string.
Definition format_from_extension (extension : text) : option DetectedFormat :=
  lookup_str extension_table (to_ascii_lowercase (trim_start_by (λ c, c =? 46) extension)).

Definition media_type_table : list (list string * DetectedFormat) := [
  (["text/plain"], PlainText); (["text/markdown"], Markdown_); (["application/rtf"; "text/rtf"], RichText); (["text/vtt"], WebVtt);
  (["application/x-subrip"], SubRip); (["application/json"], Json); (["text/csv"], Csv); (["text/tab-separated-values"], Tsv);
  (["text/html"], Html); (["application/xml"; "text/xml"], Xml); (["image/svg+xml"], Svg);
  (["application/x-ipynb+json"], JupyterNotebook); (["application/pdf"], Pdf);
  (["application/vnd.openxmlformats-officedocument.wordprocessingml.document"], Docx);
  (["application/vnd.openxmlformats-officedocument.presentationml.presentation"], Pptx);
  (["application/vnd.openxmlformats-officedocument.spreadsheetml.sheet"], Xlsx);
  (["application/epub+zip"], Epub); (["application/vnd.oasis.opendocument.text"], OpenDocumentText);
  (["application/vnd.oasis.opendocument.spreadsheet"], OpenDocumentSpreadsheet);
  (["application/vnd.oasis.opendocument.presentation"], OpenDocumentPresentation);
  (["application/vnd.apple.pages"], IWorkPages); (["application/vnd.apple.numbers"], IWorkNumbers);
  (["application/vnd.apple.keynote"], IWorkKeynote);
  (["application/x-ole-storage"; "application/msword"; "application/vnd.ms-excel"; "application/vnd.ms-powerpoint"], OleCompound);
  (["message/rfc822"], Email); (["application/mbox"], Mbox); (["application/zip"], Zip); (["application/x-tar"], Tar);
  (["application/gzip"], Gzip); (["application/x-bzip2"], Bzip2); (["application/x-xz"], Xz); (["application/zstd"], Zstd);
  (["application/x-7z-compressed"], SevenZip); (["application/vnd.rar"; "application/x-rar-compressed"], Rar);
  (["image/png"], Png); (["image/jpeg"], Jpeg); (["image/gif"], Gif); (["image/webp"], Webp); (["image/bmp"], Bmp);
  (["image/tiff"], Tiff); (["image/heif"; "image/heic"], Heif); (["image/avif"], Avif); (["audio/wav"; "audio/x-wav"], Wav);
  (["audio/aiff"; "audio/x-aiff"], Aiff); (["audio/x-caf"], Caf); (["audio/flac"], Flac); (["audio/mpeg"], Mp3);
  (["application/ogg"], Ogg); (["audio/ogg"; "audio/opus"], OggAudio); (["video/ogg"], OggVideo);
  (["audio/mp4"; "audio/x-m4a"], M4a); (["video/mp4"], Mp4); (["video/quicktime"], QuickTime); (["video/x-matroska"], Matroska);
  (["video/webm"], Webm); (["video/x-msvideo"], Avi); (["application/octet-stream"], UnknownBinary)]%string.
Definition format_from_media_type (media_type : text) : option DetectedFormat :=
  essence ← head (split_char 59 media_type) ;
  lookup_str media_type_table (to_ascii_lowercase (trim essence)).

(** ** Candidates *)

(** The derived order of [DetectedFormat]: the order of the declaration *)
Definition all_formats : list DetectedFormat := [
  PlainText; Markdown_; RichText; WebVtt; SubRip; Json; Csv; Tsv; Html; Xml; Svg; JupyterNotebook; Pdf;
  Docx; Pptx; Xlsx; Epub; OpenDocumentText; OpenDocumentSpreadsheet; OpenDocumentPresentation;
  IWorkPages; IWorkNumbers; IWorkKeynote; OleCompound; Email; Mbox;
  Zip; Tar; Gzip; Bzip2; Xz; Zstd; SevenZip; Rar;
  Png; Jpeg; Gif; Webp; Bmp; Tiff; Heif; Avif;
  Wav; Aiff; Caf; Flac; Mp3; Ogg; OggAudio; OggVideo; M4a; Mp4; QuickTime; Matroska; Webm; Avi; Executable; UnknownBinary].
Definition format_index (f : DetectedFormat) : Z :=
  match list_find (λ g, g = f) all_formats with Some (i, _) => Z.of_nat i | None => 0 end.

#[export] Instance detection_confidence_eq_dec : EqDecision DetectionConfidence.
Proof. solve_decision. Defined.
#[export] Instance detection_evidence_eq_dec : EqDecision DetectionEvidence.
Proof. solve_decision. Defined.
#[export] Instance format_candidate_eq_dec : EqDecision FormatCandidate.
Proof. solve_decision. Defined.

Definition candidate (f : DetectedFormat) (c : DetectionConfidence) (e : DetectionEvidence) (offset : Z) : FormatCandidate :=
  {| candidate_format := f; confidence := c; evidence := e; candidate_offset := offset |}.
Definition push_candidate (cs : list FormatCandidate) (f : DetectedFormat) (c : DetectionConfidence) (e : DetectionEvidence)
    (offset : Z) : list FormatCandidate :=
  if existsb (λ d, bool_decide (candidate_format d = f) && bool_decide (confidence d = c) && bool_decide (evidence d = e)
                   && (candidate_offset d =? offset)) cs
  then cs else cs ++ [candidate f c e offset].
(** The common case: a signature at an offset *)
Definition push_if (b : bool) (f : DetectedFormat) (c : DetectionConfidence) (e : DetectionEvidence) (offset : Z)
    (cs : list FormatCandidate) : list FormatCandidate := if b then push_candidate cs f c e offset else cs.
Definition push_some (o : option DetectedFormat) (c : DetectionConfidence) (e : DetectionEvidence) (offset : Z)
    (cs : list FormatCandidate) : list FormatCandidate := match o with Some f => push_candidate cs f c e offset | None => cs end.

Definition confidence_rank (c : DetectionConfidence) : Z :=
  match c with ParserConfirmed => 0 | StrongSignature => 1 | Probable => 2 | HintOnly => 3 end.

(** ** Signatures *)

Definition signatures : list (list Z * DetectedFormat) := [
  (str "%PDF-", Pdf); (str "PK" ++ [3; 4], Zip); (str "PK" ++ [5; 6], Zip); (str "PK" ++ [7; 8], Zip);
  ([31; 139], Gzip); (str "BZh", Bzip2); ([253] ++ str "7zXZ" ++ [0], Xz); ([40; 181; 47; 253], Zstd);
  (str "7z" ++ [188; 175; 39; 28], SevenZip); (str "Rar!" ++ [26; 7; 0], Rar); (str "Rar!" ++ [26; 7; 1; 0], Rar);
  ([208; 207; 17; 224; 161; 177; 26; 225], OleCompound); (str "{\rtf", RichText);
  ([137] ++ str "PNG" ++ [13; 10; 26; 10], Png); ([255; 216; 255], Jpeg); (str "GIF87a", Gif); (str "GIF89a", Gif);
  (str "BM", Bmp); (str "II*" ++ [0], Tiff); (str "MM" ++ [0] ++ str "*", Tiff); (str "fLaC", Flac); (str "ID3", Mp3);
  (str "OggS", Ogg); (str "caff", Caf); (str "RIFF", Wav); ([127] ++ str "ELF", Executable); (str "MZ", Executable)].

(** What a signature at the front of the bytes says; of RIFF only two forms are kept here. *)
Definition signature_format (bytes : list Z) (s : list Z * DetectedFormat) : option DetectedFormat :=
  if starts_with bytes s.1 then
    if bool_decide (s.2 = Wav) then
      if get_is bytes 8 12 (str "WAVE") then Some Wav
      else if get_is bytes 8 12 (str "AVI ") then Some Avi else None
    else Some s.2
  else None.

Definition looks_like_mp3_frame (bytes : list Z) : bool :=
  match get_slice bytes 0 4 with
  | Some header =>
    let header := be_value header in
    let version := Z.land (Z.shiftr header 19) 3 in
    let layer := Z.land (Z.shiftr header 17) 3 in
    let bitrate := Z.land (Z.shiftr header 12) 15 in
    let sample_rate := Z.land (Z.shiftr header 10) 3 in
    (Z.land header 4292870144 =? 4292870144) && negb (version =? 1) && negb (layer =? 0) && negb (bitrate =? 0)
    && negb (bitrate =? 15) && negb (sample_rate =? 3)
  | None => false
  end.

Definition classify_ogg_stream (bytes : list Z) : DetectedFormat :=
  if (len bytes <? 27) || negb (bool_decide (get bytes 4 = Some 0)) then Ogg
  else match get bytes 26 with
       | None => Ogg
       | Some segment_count =>
         match get_slice bytes (saturating_add usize_max 27 segment_count) (len bytes) with
         | None => Ogg
         | Some payload =>
           if starts_with payload (str "OpusHead") || starts_with payload ([1] ++ str "vorbis")
              || starts_with payload (str "Speex   ") || starts_with payload (str "fLaC") then OggAudio
           else if starts_with payload ([128] ++ str "theora") then OggVideo
           else Ogg
         end
       end.

Definition ftyp_format (bytes : list Z) : DetectedFormat :=
  let brand := default [] (get_slice bytes 8 12) in
  if one_of brand ["heic"; "heix"; "hevc"; "hevx"; "mif1"; "msf1"]%string then Heif
  else if one_of brand ["avif"; "avis"]%string then Avif
  else if one_of brand ["M4A "; "M4B "]%string then M4a
  else if one_of brand ["qt  "]%string then QuickTime
  else Mp4.

Definition mach_o_magics : list (list Z) :=
  [[254; 237; 250; 206]; [206; 250; 237; 254]; [254; 237; 250; 207]; [207; 250; 237; 254]; [202; 254; 186; 190]].

Definition signature_candidates (bytes : list Z) (cs : list FormatCandidate) : list FormatCandidate :=
  let cs := foldl (λ cs s, push_some (signature_format bytes s) StrongSignature MagicBytes 0 cs) cs signatures in
  let cs := push_if (starts_with bytes (str "FORM") && (get_is bytes 8 12 (str "AIFF") || get_is bytes 8 12 (str "AIFC")))
              Aiff StrongSignature MagicBytes 0 cs in
  let cs := push_if (starts_with bytes (str "OggS")) (classify_ogg_stream bytes) ParserConfirmed ParserStructure 0 cs in
  let cs := push_if (looks_like_mp3_frame bytes) Mp3 StrongSignature MagicBytes 0 cs in
  let cs := push_if (get_is bytes 257 262 (str "ustar")) Tar StrongSignature MagicBytes 257 cs in
  let cs := push_if (get_is bytes 0 4 (str "RIFF") && get_is bytes 8 12 (str "WEBP")) Webp StrongSignature MagicBytes 0 cs in
  let cs := push_if (get_is bytes 0 4 [26; 69; 223; 163])
              (if find_bytes (take (Z.to_nat (Z.min (len bytes) 4096)) bytes) (str "webm") then Webm else Matroska)
              StrongSignature MagicBytes 0 cs in
  let cs := push_if (get_is bytes 4 8 (str "ftyp")) (ftyp_format bytes) StrongSignature MagicBytes 4 cs in
  push_if (existsb (get_is bytes 0 4) mach_o_magics) Executable StrongSignature MagicBytes 0 cs.

(** ** Text *)

Fixpoint email_lines (ls : list text) (has_header : bool) : bool :=
  match ls with
  | [] => false
  | line :: ls =>
    if bool_decide (line = []) then has_header
    else email_lines ls (has_header || existsb (λ prefix, starts_with (to_ascii_lowercase line) (str prefix))
                                         ["from:"; "to:"; "subject:"; "date:"; "mime-version:"]%string)
  end.
Definition looks_like_email (t : text) : bool := email_lines (take 64 (lines t)) false.
Definition looks_like_email_bytes (bytes : list Z) : bool :=
  looks_like_email (from_utf8_lossy (take (Z.to_nat (Z.min (len bytes) 8192)) bytes)).

Definition looks_like_subrip (t : text) : bool :=
  match List.filter (λ l, negb (bool_decide (l = []))) (trim <$> lines t) with
  | number :: times :: _ =>
    forallb is_ascii_digit (as_bytes number)
    && match split_once_str (str "-->") times with
       | Some (start, end_) => contains start (str ":") && contains start (str ",") && contains end_ (str ":") && contains end_ (str ",")
       | None => false
       end
  | _ => false
  end.

Definition quoted (s : string) : text := [34] ++ str s ++ [34].
Definition starts_and_ends (t : text) (a b : string) : bool := starts_with t (str a) && ends_with t (str b).
(** The [format] of [text_candidates] *)
Definition text_format (t : text) (extension : option DetectedFormat) : DetectedFormat :=
  let trimmed := trim_start t in
  let lower_prefix := to_ascii_lowercase (take 512 trimmed) in
  let extended f := bool_decide (extension = Some f) in
  if starts_with trimmed (str "WEBVTT") then WebVtt
  else if looks_like_subrip t && extended SubRip then SubRip
  else if starts_with lower_prefix (str "<!doctype html") || starts_with lower_prefix (str "<html")
          || contains lower_prefix (str "<body") then Html
  else if starts_with lower_prefix (str "<svg") then Svg
  else if starts_with lower_prefix (str "<?xml") then Xml
  else if starts_with t (str "From ") && match split_once 10 t with Some (_, rest) => looks_like_email rest | None => false end then Mbox
  else if looks_like_email t then Email
  else if extended JupyterNotebook && contains lower_prefix (quoted "nbformat") && contains lower_prefix (quoted "cells") then JupyterNotebook
  else if starts_and_ends trimmed "{" "}" || starts_and_ends trimmed "[" "]" then Json
  else if extended Markdown_ then Markdown_
  else if extended WebVtt then WebVtt
  else if extended SubRip then SubRip
  else if extended Csv then Csv
  else if extended Tsv then Tsv
  else PlainText.

(** The text of the bytes, if they are text: without a byte order mark and without NUL *)
Definition text_of (bytes : list Z) : option text :=
  t ← from_utf8 (default bytes (strip_prefix bytes BOM)) ;
  if existsb (λ c, c =? 0) t then None else Some t.
Definition text_candidates (bytes : list Z) (extension : option DetectedFormat) (cs : list FormatCandidate) : list FormatCandidate :=
  push_some ((λ t, text_format t extension) <$> text_of bytes) Probable TextSyntax 0 cs.

(** ** Containers *)

Definition portable_name (n : text) : text := replace_char 92 47 n.
Definition is_iwork_index (n : text) : bool := starts_with n (str "Index/") && ends_with n (str ".iwa").
Definition has_member (names : list text) (s : string) : bool := existsb (λ n, bool_decide (portable_name n = str s)) names.
Definition has_iwork_index (names : list text) : bool := existsb (λ n, is_iwork_index (portable_name n)) names.
Definition classify_zip_members (names : list text) (extension_hint : option text) : DetectedFormat :=
  let has := has_member names in
  let hinted s := bool_decide (extension_hint = Some (str s)) in
  if has "[Content_Types].xml"%string && has "word/document.xml"%string then Docx
  else if has "[Content_Types].xml"%string && has "ppt/presentation.xml"%string then Pptx
  else if has "[Content_Types].xml"%string && has "xl/workbook.xml"%string then Xlsx
  else if has "META-INF/container.xml"%string then Epub
  else if has "content.xml"%string && has "META-INF/manifest.xml"%string then
    if hinted "odt"%string then OpenDocumentText
    else if hinted "ods"%string then OpenDocumentSpreadsheet
    else if hinted "odp"%string then OpenDocumentPresentation
    else Zip
  else if has_iwork_index names then
    if hinted "pages"%string then IWorkPages
    else if hinted "numbers"%string then IWorkNumbers
    else if hinted "key"%string || hinted "keynote"%string then IWorkKeynote
    else Zip
  else Zip.

(** ** Detection *)

Definition compatible_pairs : list (DetectedFormat * DetectedFormat) := [
  (PlainText, Markdown_); (PlainText, Csv); (PlainText, Tsv); (Json, JupyterNotebook); (Zip, Docx); (Zip, Pptx); (Zip, Xlsx);
  (Zip, Epub); (Zip, OpenDocumentText); (Zip, OpenDocumentSpreadsheet); (Zip, OpenDocumentPresentation); (Zip, IWorkPages);
  (Zip, IWorkNumbers); (Zip, IWorkKeynote); (Ogg, OggAudio); (Ogg, OggVideo); (Mp4, M4a)].
Definition formats_compatible (hint detected : DetectedFormat) : bool :=
  bool_decide (hint = detected) || bool_decide ((hint, detected) ∈ compatible_pairs).

Definition candidate_key (c : FormatCandidate) : Z * Z * Z :=
  (confidence_rank (confidence c), candidate_offset c, format_index (candidate_format c)).
Definition candidate_cmp : Z * Z * Z → Z * Z * Z → comparison :=
  lex (λ x y, x.1.1 ?= y.1.1) (lex (λ x y, x.1.2 ?= y.1.2) (λ x y, x.2 ?= y.2)).

(** The rest of the first line is a mail *)
Definition mbox_structure (bytes : list Z) : bool :=
  starts_with bytes (str "From ")
  && match split_once 10 bytes with Some (_, rest) => looks_like_email_bytes rest | None => false end.

Section Detect.
Context (infer_mime : list Z → option text).

Definition collect (extension_format declared_format : option DetectedFormat) (bytes : list Z) : list FormatCandidate :=
  let cs := signature_candidates bytes [] in
  let cs := push_if (mbox_structure bytes) Mbox ParserConfirmed ParserStructure 0 cs in
  let cs := push_some (infer_mime bytes ≫= format_from_media_type) StrongSignature MagicBytes 0 cs in
  let cs := text_candidates bytes extension_format cs in
  let cs := push_if (negb (is_utf8 bytes) && looks_like_email_bytes bytes) Email Probable TextSyntax 0 cs in
  let cs := push_some declared_format HintOnly DeclaredMediaType 0 cs in
  push_some extension_format HintOnly FileExtension 0 cs.

Definition select (bytes : list Z) (cs : list FormatCandidate) : option DetectedFormat :=
  match List.find (λ c, negb (bool_decide (confidence c = HintOnly))) cs with
  | Some c => Some (candidate_format c)
  | None => if bool_decide (bytes = []) then Some PlainText else Some UnknownBinary
  end.

Definition find_mismatch (extension_format declared_format selected : option DetectedFormat) : option DetectionMismatch :=
  detected ← selected ;
  hinted ← match extension_format with Some f => Some f | None => declared_format end ;
  if formats_compatible hinted detected then None
  else Some {| mismatch_hint := canonical_media_type hinted; mismatch_detected := canonical_media_type detected |}.

Definition detect (name : text) (declared : option text) (bytes : list Z) : Detection :=
  let hint := extension_hint name in
  let extension_format := hint ≫= format_from_extension in
  let declared_format := declared ≫= format_from_media_type in
  let found := sort_by candidate_cmp candidate_key (collect extension_format declared_format bytes) in
  let format := select bytes found in
  {| selected := format; candidates := found; AttachmentTypes.extension_hint := hint;
     declared_media_type := declared; mismatch := find_mismatch extension_format declared_format format |}.
End Detect.

(** ** Candidates and their order *)

Lemma format_index_inj f g : format_index f = format_index g → f = g.
Proof.
  assert (∀ x, all_formats !! Z.to_nat (format_index x) = Some x) as Hat by by intros []; vm_compute.
  intros H. specialize (Hat g) as Hg. rewrite <- H, Hat in Hg. by injection Hg.
Qed.

#[local] Instance candidate_cmp_ordering : Ordering candidate_cmp.
Proof.
  apply lex_ordering; [|apply lex_ordering].
  - apply (on_ordering (λ x : Z * Z * Z, x.1.1)), _.
  - apply (on_ordering (λ x : Z * Z * Z, x.1.2)), _.
  - apply (on_ordering (λ x : Z * Z * Z, x.2)), _.
Qed.

(** No candidate of the list is in front. *)
Notation before := (key_order candidate_cmp candidate_key).

Lemma before_spec c d : before c d ↔
  confidence_rank (confidence c) < confidence_rank (confidence d)
  ∨ confidence_rank (confidence c) = confidence_rank (confidence d)
    ∧ (candidate_offset c < candidate_offset d
       ∨ candidate_offset c = candidate_offset d
         ∧ format_index (candidate_format c) ≤ format_index (candidate_format d)).
Proof.
  unfold key_order, candidate_cmp, lex, candidate_key. simpl.
  destruct (Z.compare_spec (confidence_rank (confidence c)) (confidence_rank (confidence d))),
    (Z.compare_spec (candidate_offset c) (candidate_offset d)),
    (Z.compare_spec (format_index (candidate_format c)) (format_index (candidate_format d)));
    split; intros; (done || lia).
Qed.
Lemma before_same c d : before c d → before d c → candidate_format c = candidate_format d.
Proof. rewrite !before_spec. intros. apply format_index_inj. lia. Qed.

Lemma push_candidate_elem cs f k e o c : c ∈ push_candidate cs f k e o ↔ c ∈ cs ∨ c = candidate f k e o.
Proof.
  unfold push_candidate. case_match eqn:Hex; [|set_solver]. split; [by left|]. intros [?| ->]; [done|].
  apply existsb_exists in Hex as (d & Hd%list_elem_of_In & Heq). bool_prop. destruct d; simpl in *; subst. exact Hd.
Qed.
Lemma push_if_elem b f k e o cs c : c ∈ push_if b f k e o cs ↔ c ∈ cs ∨ b = true ∧ c = candidate f k e o.
Proof. unfold push_if. destruct b; [rewrite push_candidate_elem|]; naive_solver. Qed.
Lemma push_some_elem g k e o cs c : c ∈ push_some g k e o cs ↔ c ∈ cs ∨ ∃ f, g = Some f ∧ c = candidate f k e o.
Proof. unfold push_some. destruct g; [rewrite push_candidate_elem|]; naive_solver. Qed.

Lemma push_candidate_nodup cs f k e o : NoDup cs → NoDup (push_candidate cs f k e o).
Proof.
  unfold push_candidate. case_match eqn:Hex; [done|]. intros Hn. apply NoDup_app. split_and!; [done| |apply NoDup_singleton].
  intros d Hd ->%list_elem_of_singleton. apply not_true_iff_false in Hex. apply Hex, existsb_exists.
  exists (candidate f k e o). split; [by apply list_elem_of_In|]. simpl. by rewrite !bool_decide_eq_true_2, Z.eqb_refl.
Qed.
Lemma push_if_nodup b f k e o cs : NoDup cs → NoDup (push_if b f k e o cs).
Proof. destruct b; [apply push_candidate_nodup|done]. Qed.
Lemma push_some_nodup g k e o cs : NoDup cs → NoDup (push_some g k e o cs).
Proof. destruct g; [apply push_candidate_nodup|done]. Qed.
#[local] Hint Resolve push_candidate_nodup push_if_nodup push_some_nodup : core.

Lemma signatures_elem bytes l cs c :
  c ∈ foldl (λ cs s, push_some (signature_format bytes s) StrongSignature MagicBytes 0 cs) cs l ↔
  c ∈ cs ∨ ∃ s f, s ∈ l ∧ signature_format bytes s = Some f ∧ c = candidate f StrongSignature MagicBytes 0.
Proof.
  revert cs. induction l as [|s l IH]; intros cs; simpl; [set_solver|]. rewrite IH, push_some_elem. set_solver.
Qed.
Lemma signatures_nodup bytes l cs :
  NoDup cs → NoDup (foldl (λ cs s, push_some (signature_format bytes s) StrongSignature MagicBytes 0 cs) cs l).
Proof. revert cs. induction l as [|s l IH]; intros cs Hn; simpl; auto. Qed.

Lemma collect_nodup infer_mime e d bytes : NoDup (collect infer_mime e d bytes).
Proof.
  unfold collect, signature_candidates, text_candidates. cbv zeta.
  do 2 apply push_some_nodup. apply push_if_nodup. do 2 apply push_some_nodup. do 9 apply push_if_nodup.
  apply signatures_nodup, NoDup_nil_2.
Qed.

(** ** Selection *)

Definition decides (c : FormatCandidate) : bool := negb (bool_decide (confidence c = HintOnly)).

Lemma find_sorted l c :
  StronglySorted before l → List.find decides l = Some c →
  c ∈ l ∧ decides c = true ∧ ∀ d, d ∈ l → decides d = true → before c d.
Proof.
  induction l as [|x l IH]; [done|]. intros [Hl Hx]%StronglySorted_inv. simpl. destruct (decides x) eqn:Hd.
  - intros [= ->]. split_and!; [by left|done|]. intros d [->|Hin]%elem_of_cons _; [|by eapply Forall_forall in Hx].
    unfold key_order. by rewrite cmp_refl.
  - intros Hf. destruct (IH Hl Hf) as (Hc & Hk & Hmin). split_and!; [by right|done|].
    intros d [->|Hin]%elem_of_cons ?; [congruence|auto].
Qed.

(** The selected candidate: it does not rest on a hint alone, and no other such candidate is
    in front of it. *)
Definition best (cs : list FormatCandidate) (c : FormatCandidate) : Prop :=
  c ∈ cs ∧ decides c = true ∧ ∀ d, d ∈ cs → decides d = true → before c d.

Lemma select_spec bytes cs f :
  select bytes (sort_by candidate_cmp candidate_key cs) = Some f →
  (∃ c, best cs c ∧ f = candidate_format c)
  ∨ ((∀ c, c ∈ cs → decides c = false) ∧ f = if bool_decide (bytes = []) then PlainText else UnknownBinary).
Proof.
  unfold select, best. pose proof (sort_by_sorted candidate_cmp candidate_key cs) as Hs.
  fold decides. destruct (List.find _ _) as [c|] eqn:Hf.
  - intros [= <-]. left. exists c. split; [|done]. apply find_sorted in Hf as (Hc & Hd & Hmin); [|done].
    setoid_rewrite (sort_by_perm candidate_cmp candidate_key cs) in Hmin. rewrite sort_by_perm in Hc. done.
  - intros Hsel. right. split; [|by case_bool_decide; injection Hsel as <-]. intros c Hc.
    eapply find_none in Hf; [exact Hf|]. apply list_elem_of_In. by rewrite sort_by_perm.
Qed.
Lemma select_some bytes cs : is_Some (select bytes cs).
Proof. unfold select. repeat case_match; done. Qed.

(** ** Hints *)

(** The candidates that the bytes alone give *)
Definition intrinsic (infer_mime : list Z → option text) (bytes : list Z) (c : FormatCandidate) : Prop :=
  c ∈ signature_candidates bytes [] ∨ mbox_structure bytes = true ∧ c = candidate Mbox ParserConfirmed ParserStructure 0
  ∨ (∃ f, infer_mime bytes ≫= format_from_media_type = Some f ∧ c = candidate f StrongSignature MagicBytes 0)
  ∨ negb (is_utf8 bytes) && looks_like_email_bytes bytes = true ∧ c = candidate Email Probable TextSyntax 0.

Lemma signature_candidates_rank bytes c :
  c ∈ signature_candidates bytes [] → confidence_rank (confidence c) < 2.
Proof.
  unfold signature_candidates. rewrite !push_if_elem, signatures_elem.
  intros H. decompose [or and ex] H; subst; simpl; (lia || by apply elem_of_nil in H0 || set_solver).
Qed.

Lemma text_of_utf8 bytes t : text_of bytes = Some t → is_utf8 bytes = true.
Proof.
  unfold text_of, is_utf8. intros (u & Hu & _)%bind_Some. apply bool_decide_eq_true.
  destruct (strip_prefix bytes BOM) as [rest|] eqn:Hs; simpl in Hu; [|by rewrite Hu].
  apply strip_prefix_Some in Hs as ->. cbn. rewrite Hu. done.
Qed.

Lemma intrinsic_strong infer_mime bytes t c :
  text_of bytes = Some t → intrinsic infer_mime bytes c → confidence_rank (confidence c) < 2.
Proof.
  intros Ht%text_of_utf8 [Hc|[[_ ->]|[(f & _ & ->)|[Hc _] ] ] ]; simpl; [by apply signature_candidates_rank in Hc|lia..|].
  by rewrite Ht in Hc.
Qed.

Lemma collect_elem infer_mime e d bytes c :
  decides c = true →
  c ∈ collect infer_mime e d bytes ↔
  intrinsic infer_mime bytes c ∨ ∃ t, text_of bytes = Some t ∧ c = candidate (text_format t e) Probable TextSyntax 0.
Proof.
  intros Hd. unfold collect, intrinsic, text_candidates. cbv zeta.
  rewrite !push_some_elem, push_if_elem, !push_some_elem, push_if_elem.
  assert ((∃ f, (λ t, text_format t e) <$> text_of bytes = Some f ∧ c = candidate f Probable TextSyntax 0)
          ↔ ∃ t, text_of bytes = Some t ∧ c = candidate (text_format t e) Probable TextSyntax 0) as ->.
  { setoid_rewrite fmap_Some. naive_solver. }
  assert (∀ o k, ¬ ∃ f : DetectedFormat, o = Some f ∧ c = candidate f HintOnly k 0) as Hh by by intros o k (f & _ & ->).
  pose proof (Hh d DeclaredMediaType). pose proof (Hh e FileExtension). clear Hh. tauto.
Qed.

(** What plain text can be taken for by its name, once nothing in it says more *)
Definition plain_formats : list DetectedFormat := [WebVtt; SubRip; JupyterNotebook; Json; Markdown_; Csv; Tsv; PlainText].
Definition same_but_for_hints (bytes : list Z) (f g : DetectedFormat) : Prop :=
  f = g ∨ f ∈ plain_formats ∧ g ∈ plain_formats
  ∨ (f = SubRip ∨ g = SubRip) ∧ ∃ t, text_of bytes = Some t ∧ looks_like_subrip t = true.

Lemma text_format_hints bytes t e e' :
  text_of bytes = Some t → same_but_for_hints bytes (text_format t e) (text_format t e').
Proof.
  intros Ht. unfold same_but_for_hints, text_format. cbv zeta.
  destruct (starts_with (trim_start t) (str "WEBVTT")); [by left|].
  destruct (looks_like_subrip t) eqn:Hsub; [destruct (decide (e = Some SubRip)) as [->|He]; [right; right; eauto|];
    destruct (decide (e' = Some SubRip)) as [->|He']; [right; right; eauto|]|];
    [rewrite (bool_decide_eq_false_2 (e = Some SubRip)), (bool_decide_eq_false_2 (e' = Some SubRip)) by done; rewrite !andb_false_r|rewrite !andb_false_l];
  do 5 (match goal with |- context [if ?b then _ else _] => destruct b; [by left|] end).
  all: right; left; unfold plain_formats; split; repeat (case_match; [set_solver|]); set_solver.
Qed.

(** Two collections from the same bytes, whatever the hints are *)
Lemma best_hints infer_mime e d e' d' bytes c c' :
  best (collect infer_mime e d bytes) c → best (collect infer_mime e' d' bytes) c' →
  same_but_for_hints bytes (candidate_format c) (candidate_format c').
Proof.
  intros Hb Hb'. destruct Hb as (Hc & Hd & Hmin) eqn:Heq, Hb' as (Hc' & Hd' & Hmin') eqn:Heq'. clear Heq Heq'.
  apply collect_elem in Hc as [Hc|(t & Ht & Hc)], Hc' as [Hc'|(t' & Ht' & Hc')]; try done.
  - left. apply before_same; [apply Hmin|apply Hmin']; try done; apply collect_elem; auto.
  - exfalso. pose proof (intrinsic_strong _ _ _ _ Ht' Hc) as Hr.
    assert (before c' c) as Hbf by (apply Hmin'; [apply collect_elem; auto|done]). rewrite Hc', before_spec in Hbf. simpl in Hbf. lia.
  - exfalso. pose proof (intrinsic_strong _ _ _ _ Ht Hc') as Hr.
    assert (before c c') as Hbf by (apply Hmin; [apply collect_elem; auto|done]). rewrite Hc, before_spec in Hbf. simpl in Hbf. lia.
  - rewrite Ht in Ht'. injection Ht' as <-. rewrite Hc, Hc'. by apply text_format_hints.
Qed.

Lemma detect_selected infer_mime name declared bytes f :
  selected (detect infer_mime name declared bytes) = Some f →
  let cs := collect infer_mime (extension_hint name ≫= format_from_extension) (declared ≫= format_from_media_type) bytes in
  (∃ c, best cs c ∧ f = candidate_format c)
  ∨ ((∀ c, c ∈ cs → decides c = false) ∧ f = if bool_decide (bytes = []) then PlainText else UnknownBinary).
Proof. apply select_spec. Qed.

Lemma best_exists infer_mime e d e' d' bytes c :
  best (collect infer_mime e d bytes) c → ∃ x, x ∈ collect infer_mime e' d' bytes ∧ decides x = true.
Proof.
  intros (Hc & Hd & _). apply collect_elem in Hc as [Hc|(t & Ht & _)]; [| |done].
  - exists c. split; [|done]. apply collect_elem; auto.
  - exists (candidate (text_format t e') Probable TextSyntax 0). split; [|done]. apply collect_elem; [done|]. eauto.
Qed.

(** ** Executables *)

(** The front of a Windows, Linux or macOS executable *)
Definition executable_magic (bytes : list Z) : Prop :=
  ∃ m rest, m ∈ (str "MZ" :: ([127] ++ str "ELF") :: mach_o_magics) ∧ bytes = m ++ rest.

Lemma get_is_front bytes n s : get_is bytes 0 n s = true → starts_with bytes s = true.
Proof.
  unfold get_is, get_slice, sub_list. intros H%bool_decide_eq_true. case_match; [|done]. injection H as <-.
  apply starts_with_true. exists (drop (Z.to_nat (n - 0)) bytes). by rewrite drop_0, take_drop.
Qed.

Lemma signature_front bytes s f :
  signature_format bytes s = Some f → starts_with bytes s.1 = true ∧ (s.2 ≠ Wav → f = s.2).
Proof. unfold signature_format. intros H. repeat (case_match; simplify_eq; bool_prop); done. Qed.

(** A frame header of MPEG audio starts with eleven set bits. *)
Lemma mp3_front b bytes : bytes_ok (b :: bytes) → looks_like_mp3_frame (b :: bytes) = true → b = 255.
Proof.
  unfold looks_like_mp3_frame. intros [Hb Hbs]%Forall_cons. case_match eqn:Hg; [|done].
  apply get_slice_Some in Hg as [ [_ Hlen] Hl]. destruct bytes as [|x [|y [|z r] ] ]; try (unfold len in Hlen; simpl in Hlen; lia).
  rewrite !Forall_cons in Hbs. destruct Hbs as (Hx & Hy & Hz & _). unfold is_byte in *.
  intros Hm. bool_prop. clear - H Hl Hb Hx Hy Hz. cbn in Hl. subst l. apply (f_equal (λ h, Z.shiftr h 24)) in H.
  rewrite Z.shiftr_land in H. change (Z.shiftr 4292870144 24) with (Z.ones 8) in H. rewrite Z.land_ones in H by lia.
  rewrite Z.shiftr_div_pow2 in H by lia. unfold be_value in H. simpl foldl in H. change (Z.ones 8) with 255 in H.
  assert ((256 * (256 * (256 * (256 * 0 + b) + x) + y) + z) / 2 ^ 24 = b) as Hd by (symmetry; apply (Z.div_unique _ _ _ (65536 * x + 256 * y + z)); lia).
  simpl in H, Hd. rewrite Hd in H. by rewrite Z.mod_small in H by lia.
Qed.

Section Executables.
Context (bytes : list Z) (Hx : executable_magic bytes).
Definition exe : FormatCandidate := candidate Executable StrongSignature MagicBytes 0.

Lemma executable_signature : Forall (λ s, starts_with bytes s.1 = true → s.2 = Executable) signatures.
Proof using Hx.
  destruct Hx as (m & rest & Hm & ->). unfold signatures, mach_o_magics in *.
  repeat (apply elem_of_cons in Hm as [->|Hm]); [..|by apply elem_of_nil in Hm];
  repeat (apply Forall_cons; split; [done|]); apply Forall_nil; done.
Qed.

(** What else would have to be at the front of the bytes is not. *)
Lemma executable_front s :
  s ∈ [str "FORM"; str "OggS"; str "RIFF"; [26; 69; 223; 163]; str "From "] → starts_with bytes s = false.
Proof using Hx.
  destruct Hx as (m & rest & Hm & ->). unfold mach_o_magics in *.
  repeat (apply elem_of_cons in Hm as [->|Hm]); [..|by apply elem_of_nil in Hm];
  intros Hs; repeat (apply elem_of_cons in Hs as [->|Hs]; [done|]); by apply elem_of_nil in Hs.
Qed.
Lemma executable_get_is n s : s ∈ [str "FORM"; str "OggS"; str "RIFF"; [26; 69; 223; 163]; str "From "] → get_is bytes 0 n s = false.
Proof using Hx. intros Hs. apply not_true_iff_false. intros H%get_is_front. by rewrite executable_front in H. Qed.
Lemma executable_candidate : exe ∈ signature_candidates bytes [].
Proof using Hx.
  assert (existsb (get_is bytes 0 4) mach_o_magics = true ∨ ∃ s, s ∈ signatures ∧ signature_format bytes s = Some Executable) as Hs.
  { destruct Hx as (m & rest & Hm & ->). apply elem_of_cons in Hm as [->|[->|Hm]%elem_of_cons].
    - right. exists (str "MZ", Executable). split; [by apply (bool_decide_unpack _); vm_compute|]. unfold signature_format. by rewrite starts_with_app.
    - right. exists ([127] ++ str "ELF", Executable). split; [by apply (bool_decide_unpack _); vm_compute|]. unfold signature_format. by rewrite starts_with_app.
    - left. apply existsb_exists. exists m. split; [by apply list_elem_of_In|]. unfold get_is. apply bool_decide_eq_true, get_slice_Some.
      unfold mach_o_magics in Hm. repeat (apply elem_of_cons in Hm as [->|Hm]; [split; [unfold len; simpl; lia|done]|]). by apply elem_of_nil in Hm. }
  unfold signature_candidates. rewrite !push_if_elem, signatures_elem.
  destruct Hs as [Hs|(s & Hs & Hf)]; [by right|]. do 8 left. right. eauto.
Qed.

Context (Hok : bytes_ok bytes).
Lemma executable_no_frame : looks_like_mp3_frame bytes = false.
Proof using Hx Hok.
  apply not_true_iff_false. intros Hm. destruct Hx as (m & rest & Hin & Heq). unfold mach_o_magics in *.
  repeat (apply elem_of_cons in Hin as [->|Hin]); [..|by apply elem_of_nil in Hin]; simpl in Heq; rewrite Heq in Hm, Hok;
  by apply mp3_front in Hm.
Qed.

Lemma executable_first c : c ∈ signature_candidates bytes [] → before c exe → candidate_format c = Executable.
Proof using Hx Hok.
  unfold signature_candidates. rewrite !push_if_elem, signatures_elem.
  rewrite executable_no_frame, !(executable_front _) by set_solver.
  rewrite !(executable_get_is _ (str "RIFF")), !(executable_get_is _ [26; 69; 223; 163]) by set_solver.
  intros H Hb. rewrite before_spec in Hb.
  destruct H as [ [ [ [ [ [ [ [ [H|(s & f & Hs & Hf & ->)]|[? _] ]|[? _] ]|[? _] ]|[_ ->] ]|[? _] ]|[? _] ]|[_ ->] ]|[_ ->] ]; try done.
  - by apply elem_of_nil in H.
  - pose proof executable_signature as He. rewrite Forall_forall in He. apply signature_front in Hf as [Hf Hw]. specialize (He s Hs Hf).
    simpl. rewrite Hw; congruence.
  - simpl in Hb. lia.
  - simpl in Hb. lia.
Qed.
End Executables.

(** ** Theorems *)

Section Theorems.
Context (infer_mime : list Z → option text).
Notation detect := (detect infer_mime).

(** C34: The format of a blob is decided by its bytes. The candidates are distinct and in the
    order of their confidence. Any two detections of the same bytes, whatever their names and
    declared media types are, select the same format, except that a text without a syntax of
    its own may be taken for what it is called: no hint makes bytes an image, an archive, a
    document or an executable, and none hides one. What begins like a Windows, Linux or macOS
    executable is selected as an executable, or as what [infer] recognises in it. *)
Theorem detection_follows_bytes bytes :
  (∀ name declared, let d := detect name declared bytes in
     NoDup (candidates d) ∧ StronglySorted before (candidates d)) ∧
  (∀ name declared name' declared', ∃ f f',
     selected (detect name declared bytes) = Some f ∧ selected (detect name' declared' bytes) = Some f'
     ∧ same_but_for_hints bytes f f') ∧
  (bytes_ok bytes → executable_magic bytes → ∀ name declared, ∃ f,
     selected (detect name declared bytes) = Some f
     ∧ (f = Executable ∨ infer_mime bytes ≫= format_from_media_type = Some f)).
Proof.
  split_and!.
  - intros name declared. split; [|apply (sort_by_sorted candidate_cmp candidate_key)]. simpl. rewrite sort_by_perm. apply collect_nodup.
  - intros name declared name' declared'.
    destruct (select_some bytes (candidates (detect name declared bytes))) as [f Hf].
    destruct (select_some bytes (candidates (detect name' declared' bytes))) as [f' Hf'].
    exists f, f'. split_and!; [done..|]. apply select_spec in Hf as [(c & Hc & ->)|[Hn ->]], Hf' as [(c' & Hc' & ->)|[Hn' ->]].
    + by eapply best_hints.
    + eapply best_exists in Hc as (x & Hx & Hd). rewrite Hn' in Hd; [done|exact Hx].
    + eapply best_exists in Hc' as (x & Hx & Hd). rewrite Hn in Hd; [done|exact Hx].
    + by left.
  - intros Hok Hx name declared. destruct (select_some bytes (candidates (detect name declared bytes))) as [f Hf].
    exists f. split; [done|]. pose proof (executable_candidate bytes Hx) as He.
    assert (∀ e d, exe ∈ collect infer_mime e d bytes) as Hin by (intros; apply collect_elem; [done|by left; left]).
    apply select_spec in Hf as [(c & (Hc & Hd & Hmin) & ->)|[Hn _]]; [|by specialize (Hn _ (Hin _ _))].
    specialize (Hmin exe (Hin _ _) eq_refl).
    apply collect_elem in Hc as [[Hc|[[Hm _]|[(g & Hg & ->)|[_ ->] ] ] ]|(t & _ & ->)]; [| | | | |done].
    + left. by eapply executable_first.
    + unfold mbox_structure in Hm. by rewrite (executable_front bytes Hx) in Hm by set_solver.
    + by right.
    + rewrite before_spec in Hmin. simpl in Hmin. lia.
    + rewrite before_spec in Hmin. simpl in Hmin. lia.
Qed.
End Theorems.

Definition whitespace (t : text) : Prop := Forall (λ c, is_whitespace c = true) t.

(** ** Media types *)

Definition blank (t : text) : Prop := Forall (λ c, is_whitespace c = true) t.

(** The characters of media types are lower case letters, digits and some punctuation. *)
Definition plain_char (c : Z) : bool := (33 <=? c) && (c <? 127) && negb (c =? 59) && negb (in_range 65 90 c).
Lemma media_type_chars f : canonical_media_type f ≠ [] ∧ Forall (λ c, plain_char c = true) (canonical_media_type f).
Proof. split; [by destruct f|]. apply (bool_decide_unpack _). by destruct f; vm_compute. Qed.
Lemma lowercase_plain t : Forall (λ c, plain_char c = true) (to_ascii_lowercase t) → Forall (λ c, 33 ≤ c < 127 ∧ c ≠ 59) t.
Proof.
  unfold to_ascii_lowercase. rewrite Forall_fmap. intros H. eapply Forall_impl; [exact H|]. intros c. unfold compose, plain_char, in_range.
  case_match; intros ?; bool_prop; lia.
Qed.
Lemma plain_no_blank c : 33 ≤ c < 127 → is_whitespace c = false.
Proof.
  intros Hc. unfold is_whitespace. apply not_true_iff_false. intros H. rewrite !orb_true_iff in H. unfold in_range in H.
  repeat destruct H as [H|H]; bool_prop; lia.
Qed.

Lemma trim_blank w t w' :
  blank w → blank w' → t ≠ [] → Forall (λ c, is_whitespace c = false) t → trim (w ++ t ++ w') = t.
Proof.
  intros Hw Hw' Hne Ht. unfold trim, trim_end_by, trim_start. rewrite trim_start_by_skip by done.
  destruct t as [|c t]; [done|]. apply Forall_cons in Ht as Ht'. simpl app. rewrite trim_start_by_stop by apply Ht'.
  change (c :: t ++ w') with ((c :: t) ++ w'). rewrite reverse_app, trim_start_by_skip by (by rewrite Forall_reverse).
  destruct (reverse (c :: t)) as [|x r] eqn:Hr; [by apply (f_equal length) in Hr; rewrite length_reverse in Hr|].
  assert (is_whitespace x = false) as Hx.
  { apply Forall_reverse in Ht. rewrite Hr in Ht. by apply Forall_cons in Ht as [? _]. }
  rewrite trim_start_by_stop by done. rewrite <- Hr. apply reverse_involutive.
Qed.

(** The piece in front of the parameters *)
Lemma essence_of t parameters :
  59 ∉ t → parameters = [] ∨ head parameters = Some 59 → head (split_char 59 (t ++ parameters)) = Some t.
Proof.
  intros Ht [->|Hp]; [by rewrite app_nil_r, split_char_no|]. destruct parameters as [|c p]; [done|]. injection Hp as ->.
  by rewrite split_char_app.
Qed.

(** Every format but that of executables is read back from its media type, whatever the
    case of the letters, the blanks around it and the parameters behind it are. *)
Theorem media_types_read_back f t w w' parameters :
  to_ascii_lowercase t = canonical_media_type f → blank w → blank w' →
  (parameters = [] ∨ head parameters = Some 59) →
  format_from_media_type (w ++ t ++ w' ++ parameters) = if bool_decide (f = Executable) then None else Some f.
Proof.
  intros Ht Hw Hw' Hp. destruct (media_type_chars f) as [Hne Hc]. rewrite <- Ht in Hc. apply lowercase_plain in Hc.
  assert (blank w ∧ 59 ∉ w) as [_ Hs] by (split; [done|]; intros Hin; eapply Forall_forall in Hw; [|done]; done).
  assert (59 ∉ w') as Hs' by (intros Hin; eapply Forall_forall in Hw'; [|done]; done).
  assert (59 ∉ t) as Hst by (intros Hin; eapply Forall_forall in Hc; [|done]; lia).
  unfold format_from_media_type. rewrite (app_assoc t), (app_assoc w). rewrite essence_of by set_solver. simpl.
  rewrite trim_blank; [|done..|by intros ->|].
  - rewrite Ht. by destruct f; vm_compute.
  - eapply Forall_impl; [exact Hc|]. intros c [? _]. by apply plain_no_blank.
Qed.

(** ** Archives *)

Lemma has_member_true names s : has_member names s = true ↔ str s ∈ portable_name <$> names.
Proof.
  unfold has_member. rewrite existsb_exists. setoid_rewrite bool_decide_eq_true. setoid_rewrite <- list_elem_of_In.
  rewrite list_elem_of_fmap. naive_solver.
Qed.
Lemma has_iwork_index_true names : has_iwork_index names = true ↔ ∃ n, n ∈ portable_name <$> names ∧ is_iwork_index n = true.
Proof.
  unfold has_iwork_index. rewrite existsb_exists. setoid_rewrite <- list_elem_of_In. setoid_rewrite list_elem_of_fmap. naive_solver.
Qed.

(** The member that an archive must have to be of a format *)
Definition required_members (f : DetectedFormat) : list text :=
  match f with
  | Docx => [str "[Content_Types].xml"; str "word/document.xml"]
  | Pptx => [str "[Content_Types].xml"; str "ppt/presentation.xml"]
  | Xlsx => [str "[Content_Types].xml"; str "xl/workbook.xml"]
  | Epub => [str "META-INF/container.xml"]
  | OpenDocumentText | OpenDocumentSpreadsheet | OpenDocumentPresentation => [str "content.xml"; str "META-INF/manifest.xml"]
  | _ => []
  end.

(** What an archive is does not depend on the order or the path separators of its members; it
    is a ZIP archive or one of the documents that are, and a document only if it has the
    members of one. *)
Theorem zip_members_classified names hint :
  (∀ names', (∀ n, n ∈ portable_name <$> names ↔ n ∈ portable_name <$> names') →
     classify_zip_members names' hint = classify_zip_members names hint) ∧
  (let f := classify_zip_members names hint in
   formats_compatible Zip f = true ∧ required_members f ⊆ portable_name <$> names ∧
   (f ∈ [IWorkPages; IWorkNumbers; IWorkKeynote] → ∃ n, n ∈ portable_name <$> names ∧ is_iwork_index n = true)).
Proof.
  split.
  - intros names' Hn. unfold classify_zip_members. cbv zeta.
    assert (∀ s, has_member names' s = has_member names s) as Hm by (intros s; apply eq_true_iff_eq; by rewrite !has_member_true, Hn).
    assert (has_iwork_index names' = has_iwork_index names) as -> by (apply eq_true_iff_eq; rewrite !has_iwork_index_true; naive_solver).
    by rewrite !Hm.
  - unfold classify_zip_members. cbv zeta.
    repeat case_match; (split_and!; [done| |]); simpl;
      repeat match goal with H : _ && _ = true |- _ => apply andb_true_iff in H as [?%has_member_true ?%has_member_true] end.
    all: try (intros Hi; exfalso; revert Hi; apply (bool_decide_unpack (¬ _)); by vm_compute).
    all: try (intros _; by apply has_iwork_index_true).
    all: intros x Hx; repeat (apply elem_of_cons in Hx as [->|Hx]; [done || by apply has_member_true|]); by apply elem_of_nil in Hx.
Qed.

(** ** Examples *)

Definition no_infer (_ : list Z) : option text := None.
Definition renamed_program : list Z := str "MZ" ++ [144; 0; 3].

Lemma detection_follows_bytes_witness :
  bytes_ok renamed_program ∧ executable_magic renamed_program ∧
  selected (detect no_infer (str "holiday.png") (Some (str "image/png")) renamed_program) = Some Executable ∧
  mismatch (detect no_infer (str "holiday.png") (Some (str "image/png")) renamed_program) =
    Some {| mismatch_hint := str "image/png"; mismatch_detected := str "application/x-executable" |}.
Proof.
  assert (bytes_ok renamed_program) as Hok by by apply (bool_decide_unpack _).
  assert (executable_magic renamed_program) as Hx by (exists (str "MZ"), [144; 0; 3]; split; [by left|done]).
  split_and!; [done..| |by vm_compute].
  destruct (detection_follows_bytes no_infer renamed_program) as (_ & _ & He).
  destruct (He Hok Hx (str "holiday.png") (Some (str "image/png"))) as (f & Hf & [->|Hi]); [exact Hf|discriminate].
Defined.

Lemma media_types_read_back_witness :
  format_from_media_type (str " Text/HTML ; charset=utf-8") = Some Html.
Proof.
  apply (media_types_read_back Html (str "Text/HTML") (str " ") (str " ") (str "; charset=utf-8")); [done| | |by right];
    by apply (bool_decide_unpack _).
Defined.

Lemma zip_members_classified_witness :
  classify_zip_members [str "[Content_Types].xml"; str "word\document.xml"] None =
    classify_zip_members [str "word/document.xml"; str "[Content_Types].xml"] None ∧
  classify_zip_members [str "word/document.xml"; str "[Content_Types].xml"] None = Docx.
Proof.
  split; [|by vm_compute].
  apply (proj1 (zip_members_classified [str "word/document.xml"; str "[Content_Types].xml"] None)).
  intros n. simpl. rewrite !elem_of_cons. tauto.
Defined.
