(* ===== verification/AttachmentGraph.v ===== *)
(** * AttachmentGraph: what a valid graph and a valid bundle are

    The lemmas behind the validations of AttachmentTypes.v, and two theorems: in a graph
    that validates, the depth of each object is its distance from the root; a bundle that
    validates holds the bytes, the artifacts and the usage of exactly its objects. *)

From S2P Require Import Prelude Bytes Text Utf8 Sorting Budget AttachmentTypes.
Local Open Scope Z_scope.

(** ** Generic steps *)

(** The successful steps of a validation, as hypotheses *)
Ltac contract_steps H :=
  repeat (apply bind_Ok in H; let r := fresh "r" in let Hr := fresh "Hr" in destruct H as (r & Hr & H));
  repeat match goal with
  | H : fail_if _ _ = Ok _ |- _ => apply fail_if_Ok in H
  | H : need _ _ = Ok _ |- _ => apply need_Ok in H
  | u : unit |- _ => destruct u
  end.

Section Each.
Context {E A : Type}.

Lemma each_Ok (f : A → parse E unit) l : each f l = Ok tt ↔ ∀ x, x ∈ l → f x = Ok tt.
Proof.
  induction l as [|x l IH]; simpl.
  { split; [by intros _ x ?%elem_of_nil|done]. }
  rewrite bind_Ok. split.
  - intros ([] & Hx & Hl) y [->|Hy]%elem_of_cons; [done|]. by apply IH.
  - intros H. exists tt. split; [apply H; by left|]. apply IH. intros y Hy. apply H. by right.
Qed.

Lemma each_returns (f : A → parse E unit) (l : list A) :
  (∀ x, x ∈ l → returns (f x)) → returns_with (λ _, ∀ x, x ∈ l → f x = Ok tt) (each f l).
Proof.
  induction l as [|x l IH]; intros H; simpl; [by intros x ?%elem_of_nil|].
  assert (returns (f x)) as Hx by (apply H; by left).
  destruct (f x) as [[]|e] eqn:Hf; [|by destruct e]. change (returns_with (λ _, ∀ y, y ∈ x :: l → f y = Ok tt) (each f l)).
  eapply returns_with_mono; [|apply IH; intros y Hy; apply H; by right].
  intros ? Hl y [->|Hy]%elem_of_cons; auto.
Qed.
End Each.

Lemma by_key_lookup {A} (key : A → text) l k x :
  NoDup (key <$> l) → by_key key l !! k = Some x ↔ x ∈ l ∧ key x = k.
Proof.
  unfold by_key. intros Hn. 
  assert (∀ (l : list A) (m : gmap text A), NoDup (key <$> l) → (∀ x, x ∈ l → m !! key x = None) →
    foldl (λ m x, <[key x := x]> m) m l !! k = Some x ↔ m !! k = Some x ∨ x ∈ l ∧ key x = k) as H.
  { clear l Hn. induction l as [|y l IH]; intros m Hn Hm; simpl.
    { split; [by left|]. intros [?|[?%elem_of_nil _]]; done. }
    apply NoDup_cons in Hn as [Hy Hn]. rewrite IH; [|done|].
    2: { intros z Hz. rewrite lookup_insert_ne; [apply Hm; by right|]. intros Heq. apply Hy. rewrite Heq. by apply list_elem_of_fmap_2. }
    destruct (decide (key y = k)) as [<-|Hk].
    - rewrite lookup_insert_eq. assert (m !! key y = None) as -> by (apply Hm; by left). split.
      + intros [[= ->]|[Hx Hkx]]; right; [split; [by left|done]|]. split; [by right|done].
      + intros [?|[[->|Hx]%elem_of_cons Hkx]]; [done|by left|]. right. done.
    - rewrite lookup_insert_ne by done. split.
      + intros [?|[Hx Hkx]]; [by left|]. right. split; [by right|done].
      + intros [?|[[->|Hx]%elem_of_cons Hkx]]; [by left|done|]. by right. }
  rewrite H; [|done|intros y Hy; apply lookup_empty]. rewrite lookup_empty. split; [by intros [|]|by right].
Qed.

(** An element is known by its key. *)

Lemma find_object_Some os id o : NoDup (o_id <$> os) → find_object os id = Some o ↔ o ∈ os ∧ o_id o = id.
Proof.
  intros Hn. unfold find_object. split.
  - intros Hf. apply find_some in Hf as [Hin Hd]. bool_prop. by rewrite list_elem_of_In.
  - intros [Hin Hid]. destruct (List.find _ os) as [o'|] eqn:Hf.
    + apply find_some in Hf as [Hin' Hd]. bool_prop. f_equal. rewrite <- list_elem_of_In in Hin'.
      apply (unique_key o_id os); congruence.
    + apply list_elem_of_In in Hin. by apply (find_none _ _ Hf), bool_decide_eq_false in Hin.
Qed.

Lemma in_key_order_elem {A} (m : gmap text A) k x : (k, x) ∈ in_key_order m ↔ m !! k = Some x.
Proof. unfold in_key_order. by rewrite merge_sort_Permutation, elem_of_map_to_list. Qed.

(** ** Objects *)

Lemma object_validate_returns o : returns (object_validate o).
Proof. unfold object_validate, fail_if, reject_if. by repeat case_match. Qed.
#[local] Opaque object_validate.

Lemma object_ids_Ok os ids ids' :
  object_ids os ids = Ok ids' ↔
    (∀ o, o ∈ os → object_validate o = Ok tt) ∧ NoDup (o_id <$> os) ∧ (∀ o, o ∈ os → o_id o ∉ ids) ∧
    ids' = list_to_set (o_id <$> os) ∪ ids.
Proof.
  revert ids. induction os as [|o os IH]; intros ids; simpl.
  { split; [intros [= <-]|intros (_ & _ & _ & ->)]; [|f_equal; set_solver].
    split_and!; [by intros o ?%elem_of_nil|by constructor|by intros o ?%elem_of_nil|set_solver]. }
  rewrite bind_Ok. setoid_rewrite bind_Ok. setoid_rewrite fail_if_Ok. setoid_rewrite IH. split.
  - intros ([] & Ho & [] & Hi & Hall & Hn & Hnew & ->). bool_prop. split_and!.
    + intros o' [->|]%elem_of_cons; auto.
    + constructor; [|done]. intros (o' & Heq & Hin)%list_elem_of_fmap. specialize (Hnew o' Hin). set_solver.
    + intros o' [->|Hin]%elem_of_cons; [done|]. specialize (Hnew o' Hin). set_solver.
    + set_solver.
  - intros (Hall & [Ho Hn]%NoDup_cons & Hnew & ->). exists tt. split; [apply Hall; by left|]. exists tt.
    split; [apply bool_decide_eq_false, Hnew; by left|]. split_and!.
    + intros o' Hin. apply Hall. by right.
    + done.
    + intros o' Hin. assert (o_id o' ∉ ids) by (apply Hnew; by right).
      assert (o_id o' ≠ o_id o); [|set_solver]. intros Heq. apply Ho. rewrite <- Heq. by apply list_elem_of_fmap_2.
    + set_solver.
Qed.

Lemma object_ids_returns os ids : returns (object_ids os ids).
Proof.
  revert ids. induction os as [|o os IH]; intros ids; simpl; [done|].
  eapply (returns_with_returns (λ _, True)). pose proof (object_validate_returns o) as Ho.
  destruct (object_validate o) as [[]|e]; [|by destruct e].
  change (returns_with (λ _, True) (fail_if (bool_decide (o_id o ∈ ids)) (DuplicateObject (o_id o)) ;; object_ids os ({[o_id o]} ∪ ids))).
  parse_step. specialize (IH ({[o_id o]} ∪ ids)). destruct (object_ids os _) as [|[]]; done.
Qed.

(** ** Reachability *)

(** A path of [n] edges from the root *)
Inductive path (g : AttachmentGraph) : nat → text → Prop :=
| path_root : path g 0 (root g)
| path_edge n e c : path g n (parent e) → e ∈ edges g → child e = Some c → path g (S n) c.

Lemma push_children p es queue seen :
  ∃ fresh, (foldl (push_child p) (queue, seen) es).1 = queue ++ fresh ∧
    (foldl (push_child p) (queue, seen) es).2 = list_to_set fresh ∪ seen ∧ NoDup fresh ∧
    (∀ c, c ∈ fresh → c ∉ seen ∧ ∃ e, e ∈ es ∧ parent e = p ∧ child e = Some c) ∧
    ∀ e c, e ∈ es → parent e = p → child e = Some c → c ∈ list_to_set fresh ∪ seen.
Proof.
  revert queue seen. induction es as [|e es IH]; intros queue seen; simpl.
  { exists []. rewrite app_nil_r. split_and!; [done|set_solver|constructor|by intros c ?%elem_of_nil|by intros e c ?%elem_of_nil]. }
  unfold push_child at 2 4. cbn [fst snd].
  assert (∀ q s, (q = queue ∧ s = seen ∧ ∀ c, parent e = p → child e = Some c → c ∈ seen) ∨
    (∃ c, q = queue ++ [c] ∧ s = {[c]} ∪ seen ∧ parent e = p ∧ child e = Some c ∧ c ∉ seen) →
    ∃ fresh, (foldl (push_child p) (q, s) es).1 = queue ++ fresh ∧
      (foldl (push_child p) (q, s) es).2 = list_to_set fresh ∪ seen ∧ NoDup fresh ∧
      (∀ c, c ∈ fresh → c ∉ seen ∧ ∃ e', e' ∈ e :: es ∧ parent e' = p ∧ child e' = Some c) ∧
      ∀ e' c, e' ∈ e :: es → parent e' = p → child e' = Some c → c ∈ list_to_set fresh ∪ seen) as H.
  { intros q s [(-> & -> & He)|(c & -> & -> & Hp & Hc & Hnew)].
    - destruct (IH queue seen) as (fresh & H1 & H2 & H3 & H4 & H5). exists fresh. split_and!; [done..| |].
      + intros c Hin. destruct (H4 c Hin) as (Hs & e' & ? & ? & ?). split; [done|]. exists e'. split_and!; [by right|done..].
      + intros e' c [->|Hin]%elem_of_cons Hp Hc; [|by eapply H5]. specialize (He c Hp Hc). set_solver.
    - destruct (IH (queue ++ [c]) ({[c]} ∪ seen)) as (fresh & H1 & H2 & H3 & H4 & H5). exists (c :: fresh). split_and!.
      + by rewrite H1, <- app_assoc.
      + rewrite H2. set_solver.
      + constructor; [|done]. intros Hin. destruct (H4 c Hin) as [Hs _]. set_solver.
      + intros c' [->|Hin]%elem_of_cons.
        * split; [done|]. exists e. split_and!; [by left|done..].
        * destruct (H4 c' Hin) as (Hs & e' & ? & ? & ?). split; [set_solver|]. exists e'. split_and!; [by right|done..].
      + intros e' c' [->|Hin]%elem_of_cons Hp' Hc'; [|specialize (H5 e' c' Hin Hp' Hc'); set_solver].
        assert (c' = c) as -> by congruence. set_solver. }
  case_bool_decide as Hp; [|apply H; left; split_and!; [done..|]; intros c Hp' _; done].
  destruct (child e) as [c|] eqn:Hc; [|apply H; left; split_and!; [done..|]; by intros c Hp' Hc'].
  case_bool_decide as Hs; apply H.
  - left. split_and!; [done..|]. intros c' _ [= <-]. done.
  - right. exists c. done.
Qed.

(** The ids that the edges lead to *)
Definition children (es : list DerivationEdge) : gset text := list_to_set (omap child es).

Lemma elem_of_children es c : c ∈ children es ↔ ∃ e, e ∈ es ∧ child e = Some c.
Proof. unfold children. by rewrite elem_of_list_to_set, list_elem_of_omap. Qed.

Lemma children_cons e es : children (e :: es) = match child e with Some c => {[c]} ∪ children es | None => children es end.
Proof. unfold children. cbn [omap list_omap]. by destruct (child e). Qed.

Lemma children_size es : (size (children es) ≤ length es)%nat.
Proof.
  induction es as [|e es IH]; [done|]. rewrite children_cons. cbn [length]. destruct (child e) as [c|]; [|lia].
  rewrite size_union_alt, size_singleton.
  assert (size (children es ∖ {[c]}) ≤ size (children es))%nat; [|lia]. apply subseteq_size. set_solver.
Qed.

(** The loop ends with the least set that holds the queue and is closed under the edges. *)
Lemma reach_loop_spec fuel es queue seen :
  (∀ p, p ∈ queue → p ∈ seen) → (length queue + size (children es ∖ seen) ≤ fuel)%nat →
  ∃ r, reach_loop fuel es queue seen = Ok r ∧ seen ⊆ r ∧
    (∀ (P : text → Prop), (∀ p, p ∈ seen → P p) → (∀ e c, e ∈ es → P (parent e) → child e = Some c → P c) → ∀ p, p ∈ r → P p) ∧
    ((∀ e c, e ∈ es → parent e ∈ seen → parent e ∉ queue → child e = Some c → c ∈ seen) →
     ∀ e c, e ∈ es → parent e ∈ r → child e = Some c → c ∈ r).
Proof.
  revert queue seen. induction fuel as [|fuel IH]; intros queue seen Hq Hf; (destruct queue as [|p queue]; simpl).
  1, 3: exists seen; split_and!; [done..|auto|]; intros H e c He Hp Hc; by apply (H e c He Hp (not_elem_of_nil _)).
  { simpl in Hf. lia. }
  destruct (push_children p es queue seen) as (fresh & -> & -> & Hn & Hfresh & Hall).
  destruct (IH (queue ++ fresh) (list_to_set fresh ∪ seen)) as (r & Hr & Hsub & Hleast & Hclosed).
  - intros x [Hx|Hx]%elem_of_app; [|set_solver]. assert (x ∈ seen) by (apply Hq; by right). set_solver.
  - assert (children es ∖ seen = list_to_set fresh ∪ (children es ∖ (list_to_set fresh ∪ seen))) as Heq.
    { apply set_eq. intros c. rewrite elem_of_union, !elem_of_difference, elem_of_union, elem_of_list_to_set. split.
      - intros [Hc Hs]. destruct (decide (c ∈ fresh)); [by left|]. right. split; [done|]. by intros [].
      - intros [Hc|[Hc Hs]]; [|split; [done|]; tauto]. destruct (Hfresh c Hc) as (Hs & e & He & _ & Hce). split; [|done].
        apply elem_of_children. by exists e. }
    rewrite Heq, size_union, (size_list_to_set fresh) in Hf by (done || set_solver). rewrite length_app. simpl in Hf. lia.
  - exists r. split_and!; [done|set_solver| |].
    + intros P Hs He. apply Hleast; [|done]. intros x [Hx|Hx]%elem_of_union; [|auto]. apply elem_of_list_to_set in Hx.
      destruct (Hfresh x Hx) as (_ & e & Hin & Hp & Hc). apply (He e x Hin); [|done]. rewrite Hp. apply Hs, Hq. by left.
    + intros H. apply Hclosed. intros e c He Hp Hpq Hc. destruct (decide (parent e = p)) as [Hpe|Hpe]; [by eapply Hall|].
      apply elem_of_union in Hp as [Hp%elem_of_list_to_set|Hp]; [exfalso; apply Hpq, elem_of_app; by right|].
      apply elem_of_union. right. apply (H e c He Hp); [|done]. intros [Heq|Hin]%elem_of_cons; [done|]. apply Hpq, elem_of_app. by left.
Qed.

(** [reach] computes what paths lead to. *)
Lemma reach_spec g : ∃ r, reach g = Ok r ∧ ∀ id, id ∈ r ↔ ∃ n, path g n id.
Proof.
  unfold reach. destruct (reach_loop_spec (S (length (edges g))) (edges g) [root g] {[root g]}) as (r & Hr & Hsub & Hleast & Hclosed).
  - by intros p ->%list_elem_of_singleton; apply elem_of_singleton.
  - cbn [length]. pose proof (children_size (edges g)). assert (size (children (edges g) ∖ {[root g]}) ≤ size (children (edges g)))%nat.
    { apply subseteq_size. set_solver. }
    lia.
  - exists r. split; [done|]. intros id. split.
    + apply (Hleast (λ id, ∃ n, path g n id)).
      * intros p ->%elem_of_singleton. exists 0%nat. constructor.
      * intros e c He [n Hn] Hc. exists (S n). by econstructor.
    + intros [n Hp]. induction Hp as [|n e c Hp IH He Hc]; [set_solver|]. apply (Hclosed) with e; [|done..].
      intros e' c' _ Hp' Hq' _. exfalso. apply Hq', list_elem_of_singleton. by apply elem_of_singleton in Hp'.
Qed.

(** ** Valid graphs *)

(** What [edge_validate] establishes of an edge *)
Definition edge_ok (g : AttachmentGraph) (e : DerivationEdge) : Prop :=
  ∃ p, p ∈ objects g ∧ o_id p = parent e ∧ depth e = saturating_add u16_max (first_depth p) 1 ∧
    (Limits.max_depth (limits g) < depth e → outcome e = DepthExceeded) ∧
    (is_Some (child e) ↔ must_have_child (outcome e) = true) ∧
    ∀ id, child e = Some id → ∃ c, c ∈ objects g ∧ o_id c = id ∧
      (outcome e = Derived → first_depth c = depth e) ∧ first_depth c ≤ depth e.

Lemma edge_validate_ok g e :
  NoDup (o_id <$> objects g) →
  edge_validate g (list_to_set (o_id <$> objects g)) (by_key o_id (objects g)) e = Ok tt → edge_ok g e.
Proof.
  intros Hn. unfold edge_validate. repeat setoid_rewrite bind_Ok. setoid_rewrite need_Ok.
  repeat setoid_rewrite fail_if_Ok.
  intros ([] & _ & [] & _ & [] & _ & [] & Hd & p & Hp & [] & Hdepth & [] & Hchild & [] & Hc & _).
  apply by_key_lookup in Hp as [Hp Hid]; [|done]. bool_prop. exists p. split_and!; [done..|lia| | |].
  - intros Hlt. match goal with H : _ ∨ _ |- _ => destruct H; bool_prop; [lia|done] end.
  - apply Bool.eqb_prop in Hchild. rewrite Hchild. by rewrite bool_decide_eq_true.
  - intros id Heq. rewrite Heq in Hc, Hchild. apply bind_Ok in Hc as (c & Hc & Hd'). apply need_Ok, by_key_lookup in Hc as [Hc Hcid]; [|done].
    exists c. split_and!; [done..| |].
    + intros Ho. rewrite Ho in Hd'. apply fail_if_Ok in Hd'. bool_prop. lia.
    + destruct (outcome e) eqn:Ho; try done; apply fail_if_Ok in Hd'; bool_prop; lia.
Qed.

Record graph_ok (g : AttachmentGraph) : Prop := {
  graph_ids : NoDup (o_id <$> objects g);
  graph_objects o : o ∈ objects g → object_validate o = Ok tt;
  graph_limits : limits_validate (limits g) = Ok tt;
  graph_root : ∃ r, r ∈ objects g ∧ o_id r = root g ∧ first_depth r = 0;
  graph_derived o : o ∈ objects g → o_id o ≠ root g →
    first_depth o ≠ 0 ∧ first_depth o ≤ Limits.max_depth (limits g) ∧
    ∃ e, e ∈ edges g ∧ outcome e = Derived ∧ child e = Some (o_id o);
  graph_edges e : e ∈ edges g → edge_ok g e;
  graph_reach id : id ∈ (o_id <$> objects g) ↔ ∃ n, path g n id;
  graph_complete : coverage g = CoverageComplete → ∀ o, o ∈ objects g → status o = StatusComplete;
}.

Lemma elem_of_derived g o : o ∈ derived g ↔ o ∈ objects g ∧ o_id o ≠ root g.
Proof. unfold derived. rewrite list_elem_of_In, filter_In, <- list_elem_of_In, negb_true_iff. by rewrite bool_decide_eq_false. Qed.

Lemma paths_lead_to_objects g n id :
  (∃ r, r ∈ objects g ∧ o_id r = root g) → (∀ e, e ∈ edges g → edge_ok g e) → path g n id → id ∈ (o_id <$> objects g).
Proof.
  intros (r & Hr & Hid) He Hp. apply list_elem_of_fmap. destruct Hp as [|n e c Hp Hin Hc].
  - exists r. by rewrite Hid.
  - destruct (He e Hin) as (p & _ & _ & _ & _ & _ & Hall). destruct (Hall c Hc) as (o & Ho & Hoid & _). by exists o.
Qed.

Lemma provenance_validate_ok g o :
  provenance_validate g o = Ok tt → ∃ e, e ∈ edges g ∧ outcome e = Derived ∧ child e = Some (o_id o).
Proof.
  intros H. apply fail_if_Ok, negb_false_iff, existsb_exists in H as (e & Hin & He). bool_prop. exists e. by rewrite list_elem_of_In.
Qed.

Lemma graph_validate_ok g : graph_validate g = Ok tt → graph_ok g.
Proof.
  intros H. unfold graph_validate in H. contract_steps H.
  match goal with Hi : object_ids _ _ = Ok _ |- _ => apply object_ids_Ok in Hi as (Hobj & Hn & _ & ->) end.
  match goal with Hf : find_object _ _ = Some _ |- _ => apply find_object_Some in Hf as [Hroot Hrid]; [|done] end.
  repeat match goal with He : each _ _ = Ok _ |- _ => rewrite each_Ok in He end.
  match goal with Hr : root_validate _ _ = Ok _ |- _ => unfold root_validate in Hr; contract_steps Hr end. bool_prop.
  rewrite (right_id_L ∅ (∪)) in *.
  assert (∀ e, e ∈ edges g → edge_ok g e) as Hedges by (intros e He; apply edge_validate_ok; auto).
  assert (∃ r, r ∈ objects g ∧ o_id r = root g) as Hex by eauto.
  split; [done|done| |by eexists| |done| |].
  - done.
  - intros o Ho Hne. assert (o ∈ derived g) as Hd by by apply elem_of_derived.
    match goal with Hx : ∀ x, x ∈ derived g → derived_validate g x = Ok tt |- _ => specialize (Hx o Hd); unfold derived_validate in Hx; contract_steps Hx end.
    bool_prop. split_and!; [done|lia|]. apply provenance_validate_ok. auto.
  - destruct (reach_spec g) as (seen & Hseen & Hall). intros id. rewrite <- Hall.
    match goal with Hx : reach g = Ok ?x |- _ => assert (seen = x) as <- by congruence end.
    assert (seen = list_to_set (o_id <$> objects g)) as ->; [|by rewrite elem_of_list_to_set].
    apply set_subseteq_size_eq.
    + intros i Hi. apply Hall in Hi as [n Hi]. apply elem_of_list_to_set. by eapply paths_lead_to_objects.
    + rewrite size_list_to_set by done. rewrite length_fmap. unfold len in *. lia.
  - intros Hcov o Ho. unfold coverage_validate in H. rewrite Hcov in H. contract_steps H.
    destruct (decide (status o = StatusComplete)) as [|Hs]; [done|].
    match goal with Hx : existsb _ (objects g) = false |- _ => rename Hx into Hex' end.
    assert (existsb (λ o, negb (bool_decide (status o = StatusComplete))) (objects g) = true); [|congruence].
    apply existsb_exists. exists o. split; [by apply list_elem_of_In|]. by rewrite bool_decide_eq_false_2.
Qed.

Lemma object_unique g o o' : graph_ok g → o ∈ objects g → o' ∈ objects g → o_id o = o_id o' → o = o'.
Proof.
  intros Hg Ho Ho' Heq. apply (unique_key o_id (objects g)); [by apply graph_ids|done..].
Qed.

(** A depth is at most the length of any path: edges go down one level at most. *)
Lemma depth_le_path g n id o : graph_ok g → path g n id → o ∈ objects g → o_id o = id → first_depth o ≤ Z.of_nat n.
Proof.
  intros Hg Hp. revert o.
  induction Hp as [|n e c Hp IH He Hc]; intros o Ho Hid.
  - destruct (graph_root g Hg) as (r & Hr & Hrid & Hd). rewrite (object_unique g o r) by congruence. lia.
  - destruct (graph_edges g Hg e He) as (p & Hpo & Hpid & Hd & _ & _ & Hall).
    destruct (Hall c Hc) as (o' & Ho' & Hid' & _ & Hle). rewrite (object_unique g o o') by congruence.
    specialize (IH p Hpo Hpid). unfold saturating_add in Hd. lia.
Qed.

(** A derivation chain is a path as long as the depth. *)
Lemma path_of_depth g n o :
  graph_ok g → Limits.max_depth (limits g) < u16_max → (∀ x, x ∈ objects g → 0 ≤ first_depth x) →
  o ∈ objects g → first_depth o = Z.of_nat n → path g n (o_id o).
Proof.
  intros Hg Hmax Hpos. revert o. induction n as [|n IH]; intros o Ho Hd.
  - destruct (decide (o_id o = root g)) as [->|Hne]; [constructor|].
    destruct (graph_derived g Hg o Ho Hne) as (Hd0 & _). lia.
  - destruct (decide (o_id o = root g)) as [Heq|Hne].
    { pose proof (depth_le_path g 0 (root g) o Hg (path_root g) Ho Heq). lia. }
    destruct (graph_derived g Hg o Ho Hne) as (_ & Hle & e & He & Hder & Hc).
    destruct (graph_edges g Hg e He) as (p & Hp & Hpid & Hde & _ & _ & Hall).
    destruct (Hall (o_id o) Hc) as (o' & Ho' & Hid' & Hd' & _). specialize (Hd' Hder).
    rewrite (object_unique g o' o) in Hd' by done.
    pose proof (Hpos p Hp). unfold saturating_add in Hde.
    apply path_edge with e; [|done..]. rewrite <- Hpid. apply IH; [done|]. lia.
Qed.

(** ** Validation returns *)

Lemma fail_if_unit_returns {E} b (e : E) : returns (fail_if b e).
Proof. unfold fail_if, reject_if. by destruct b. Qed.
Lemma need_plain_returns {E A} (o : option A) (e : E) : returns (need o e).
Proof. by destruct o. Qed.
Lemma returns_bind {E A B} (r : parse E A) (f : A → parse E B) : returns r → (∀ a, r = Ok a → returns (f a)) → returns (r ≫= f).
Proof. destruct r as [a|[]]; simpl; auto. Qed.
Lemma each_returns_all {E A} (f : A → parse E unit) l : (∀ x, returns (f x)) → returns (each f l).
Proof. intros H. by eapply returns_with_returns, each_returns. Qed.
Create HintDb returns.
#[export] Hint Resolve fail_if_unit_returns need_plain_returns : returns.

(** One step of a proof that a validation returns. *)
Ltac returns_step :=
  first [ done | solve [auto with returns nocore] | apply returns_bind; [|intros ? ?] | case_match ].

Lemma sum_bytes_returns t l : returns (sum_bytes t l).
Proof. revert t. induction l as [|n l IH]; intros t; simpl; repeat returns_step. Qed.
Lemma limits_validate_returns l : returns (limits_validate l).
Proof. unfold limits_validate. by destruct (Limits.validate l) as [|[]]. Qed.
Lemma root_validate_returns g r : returns (root_validate g r).
Proof. unfold root_validate. repeat returns_step. Qed.
Lemma derived_validate_returns g o : returns (derived_validate g o).
Proof. unfold derived_validate. repeat returns_step. Qed.
#[export] Hint Resolve sum_bytes_returns limits_validate_returns root_validate_returns derived_validate_returns object_ids_returns : returns.
Lemma usage_validate_returns g r : returns (usage_validate g r).
Proof. unfold usage_validate, validate_usage. repeat returns_step. Qed.
Lemma edge_validate_returns g ids m e : returns (edge_validate g ids m e).
Proof. unfold edge_validate. repeat returns_step. Qed.
Lemma reach_returns g : returns (reach g).
Proof. destruct (reach_spec g) as (r & -> & _). done. Qed.
Lemma issue_validate_returns g ids i : returns (issue_validate g ids i).
Proof. unfold issue_validate. repeat returns_step. Qed.
Lemma coverage_validate_returns g : returns (coverage_validate g).
Proof. unfold coverage_validate. repeat returns_step. Qed.
#[export] Hint Resolve usage_validate_returns reach_returns coverage_validate_returns : returns.
Lemma graph_validate_returns g : returns (graph_validate g).
Proof.
  unfold graph_validate. repeat (first [apply each_returns_all; intros ?; first [apply derived_validate_returns | apply edge_validate_returns
    | apply fail_if_unit_returns | apply issue_validate_returns] | returns_step]).
Qed.

(** C10: The validation of a graph ends, and in a graph that it accepts the ids are distinct,
    the objects are exactly what edges lead to from the root, and the depth of every object
    is its distance from the root: the length of the shortest path to it. *)
Theorem attachment_graph_depths g :
  returns (graph_validate g) ∧
  (graph_validate g = Ok tt →
   NoDup (o_id <$> objects g) ∧
   (∀ id, id ∈ (o_id <$> objects g) ↔ ∃ n, path g n id) ∧
   (Limits.max_depth (limits g) < u16_max → (∀ o, o ∈ objects g → 0 ≤ first_depth o) →
    ∀ o, o ∈ objects g → path g (Z.to_nat (first_depth o)) (o_id o) ∧
      ∀ n, path g n (o_id o) → (Z.to_nat (first_depth o) ≤ n)%nat)).
Proof.
  split; [apply graph_validate_returns|]. intros Hg%graph_validate_ok.
  split; [by apply graph_ids|]. split; [by apply graph_reach|]. intros Hmax Hpos o Ho. pose proof (Hpos o Ho). split.
  - apply path_of_depth; [done..|lia].
  - intros n Hp. pose proof (depth_le_path g n (o_id o) o Hg Hp Ho eq_refl). lia.
Qed.

(** ** Valid bundles *)

Definition text_size (a : CanonicalArtifact) : Z := match payload a with Text _ t _ => str_len t | _ => 0 end.
Definition media_size (a : CanonicalArtifact) : option Z := match payload a with Media _ b _ _ => Some (b_byte_len b) | _ => None end.

Lemma media_sizes_cons a l :
  omap media_size (a :: l) = match media_size a with Some n => n :: omap media_size l | None => omap media_size l end.
Proof. done. Qed.

(** The loop over the artifacts *)
Record tallied (objs : gset text) (t : Tally) (l : list CanonicalArtifact) (t' : Tally) : Prop := {
  tallied_valid a : a ∈ l → artifact_validate a = Ok tt ∧ source a ∈ objs;
  tallied_ids : NoDup (a_id <$> l) ∧ ∀ a, a ∈ l → a_id a ∉ seen_ids t;
  tallied_sources s i : i ∈ default ∅ (artifacts_by_source t' !! s) ↔
    i ∈ default ∅ (artifacts_by_source t !! s) ∨ ∃ a, a ∈ l ∧ source a = s ∧ a_id a = i;
  tallied_text : tally_text t' = tally_text t + total (text_size <$> l);
  tallied_objects : tally_objects t' = tally_objects t + len (omap media_size l);
  tallied_media : tally_media t' = tally_media t + total (omap media_size l);
}.

Lemma tally_artifact_ok objs t a t' : tally_artifact objs t a = Ok t' →
  tallied objs t [a] t' ∧ seen_ids t' = {[a_id a]} ∪ seen_ids t.
Proof.
  intros H. unfold tally_artifact in H. contract_steps H. bool_prop.
  assert (∀ s i, i ∈ default ∅ (<[source a := {[a_id a]} ∪ default ∅ (artifacts_by_source t !! source a)]> (artifacts_by_source t) !! s) ↔
    i ∈ default ∅ (artifacts_by_source t !! s) ∨ ∃ a', a' ∈ [a] ∧ source a' = s ∧ a_id a' = i) as Hsrc.
  { intros s i. split.
    - destruct (decide (source a = s)) as [<-|Hs]; [rewrite lookup_insert_eq|rewrite lookup_insert_ne by done; by left]. simpl.
      rewrite elem_of_union, elem_of_singleton. intros [->|]; [|by left]. right. exists a. by rewrite list_elem_of_singleton.
    - intros [Hi|(a' & ->%list_elem_of_singleton & <- & <-)]; [|rewrite lookup_insert_eq; simpl; set_solver].
      destruct (decide (source a = s)) as [<-|Hs]; [rewrite lookup_insert_eq; simpl; set_solver|by rewrite lookup_insert_ne]. }
  assert (∀ x, x ∈ [a] → artifact_validate x = Ok tt ∧ source x ∈ objs) as Hvalid by by intros x ->%list_elem_of_singleton.
  assert (NoDup (a_id <$> [a]) ∧ ∀ x, x ∈ [a] → a_id x ∉ seen_ids t) as Hids.
  { split; [apply NoDup_singleton|by intros x ->%list_elem_of_singleton]. }
  destruct (payload a) as [f x segs|f b md v|b] eqn:Hp; contract_steps H; option_facts; injection H as <-;
    (split; [|done]); split; unfold text_size, media_size; simpl; rewrite ?Hp; cbn; rewrite ?len_cons, ?len_nil; (done || lia).
Qed.

Lemma tally_ok objs t l t' : tally objs t l = Ok t' → tallied objs t l t'.
Proof.
  revert t. induction l as [|a l IH]; intros t; cbn [tally].
  { intros [= <-]. split; cbn; rewrite ?len_nil; try lia.
    - by intros a ?%elem_of_nil.
    - split; [constructor|by intros a ?%elem_of_nil].
    - intros s i. split; [by left|]. by intros [|(a & ?%elem_of_nil & _)]. }
  intros (t1 & H1 & H2)%bind_Ok. apply tally_artifact_ok in H1 as [H1 Hseen]. apply IH in H2.
  destruct H1 as [V1 [N1 D1] S1 T1 O1 M1], H2 as [V2 [N2 D2] S2 T2 O2 M2].
  assert (∀ x, x ∈ l → a_id x ≠ a_id a ∧ a_id x ∉ seen_ids t) as Hfresh.
  { intros x Hx. specialize (D2 x Hx). rewrite Hseen in D2. set_solver. }
  split.
  - intros x [->|Hx]%elem_of_cons; [apply V1; by left|auto].
  - split; [|intros x [->|Hx]%elem_of_cons; [apply D1; by left|by apply Hfresh]].
    cbn. constructor; [|done]. intros (x & Heq & Hx)%list_elem_of_fmap. by destruct (Hfresh x Hx).
  - intros s i. rewrite S2, S1. setoid_rewrite list_elem_of_singleton. setoid_rewrite elem_of_cons. naive_solver.
  - rewrite T2, T1, !fmap_cons, !total_cons. unfold total. simpl. lia.
  - rewrite O2, O1, !media_sizes_cons. destruct (media_size a); rewrite ?len_cons; change (len (omap media_size [])) with 0; lia.
  - rewrite M2, M1, !media_sizes_cons. destruct (media_size a); rewrite ?total_cons; change (total (omap media_size [])) with 0; lia.
Qed.

Lemma list_to_set_NoDup (l : list text) : size (list_to_set l : gset text) = length l → NoDup l.
Proof.
  induction l as [|x l IH]; intros Hs; [constructor|]. cbn in Hs. rewrite size_union_alt, size_singleton in Hs.
  assert (size (list_to_set l ∖ {[x]} : gset text) ≤ size (list_to_set l : gset text))%nat by (apply subseteq_size; set_solver).
  assert (size (list_to_set l : gset text) ≤ length l)%nat as Hle.
  { clear. induction l as [|x l IH]; cbn; [done|]. rewrite size_union_alt, size_singleton.
    assert (size (list_to_set l ∖ {[x]} : gset text) ≤ size (list_to_set l : gset text))%nat by (apply subseteq_size; set_solver). lia. }
  constructor; [|apply IH; lia]. intros Hin.
  assert (size (list_to_set l ∖ {[x]} : gset text) < size (list_to_set l : gset text))%nat; [|lia].
  apply subset_size. split; [set_solver|]. intros Hsub. assert (x ∈ (list_to_set l : gset text)) by by apply elem_of_list_to_set.
  set_solver.
Qed.

Lemma objects_validate_ok held m os :
  NoDup (o_id <$> os) → objects_validate held m os = Ok tt →
  ∀ o, o ∈ os → NoDup (artifact_ids o) ∧ is_Some (held !! o_id o) ∧ ∀ i, i ∈ artifact_ids o ↔ i ∈ default ∅ (m !! o_id o).
Proof.
  revert m. induction os as [|o os IH]; intros m Hn H o' Ho'; [by apply elem_of_nil in Ho'|].
  apply NoDup_cons in Hn as [Ho Hn]. cbn [objects_validate] in H. contract_steps H. bool_prop.
  apply elem_of_cons in Ho' as [->|Ho'].
  - split_and!; [apply list_to_set_NoDup; unfold len in *; lia|done|]. intros i.
    rewrite <- Hr0. by rewrite elem_of_list_to_set.
  - destruct (IH _ Hn H o' Ho') as (H1 & H2 & H3). split_and!; [done..|]. intros i. rewrite H3.
    rewrite lookup_delete_ne; [done|]. intros Heq. apply Ho. rewrite Heq. by apply list_elem_of_fmap_2.
Qed.

(** What a validated bundle is; SHA-256 is an argument. *)
Section Bundles.
Context (sha256_hex : list Z → text).

Record bundle_ok (b : AttachmentBundle) : Prop := {
  bundle_graph : graph_ok (graph b);
  bundle_artifacts a : a ∈ artifacts b → artifact_validate a = Ok tt ∧ source a ∈ (o_id <$> objects (graph b));
  bundle_ids : NoDup (a_id <$> artifacts b);
  bundle_bytes o : o ∈ objects (graph b) →
    ∃ bytes, blobs b !! o_id o = Some bytes ∧ o_id o = sha256_hex bytes ∧ o_byte_len o = len bytes;
  bundle_only_objects id bytes : blobs b !! id = Some bytes → id ∈ (o_id <$> objects (graph b));
  bundle_declared o : o ∈ objects (graph b) →
    NoDup (artifact_ids o) ∧ ∀ i, i ∈ artifact_ids o ↔ ∃ a, a ∈ artifacts b ∧ source a = o_id o ∧ a_id a = i;
  bundle_lengths a r : a ∈ artifacts b → payload_blob (payload a) = Some r →
    ∃ o, o ∈ objects (graph b) ∧ o_id o = source a ∧ b_byte_len r = o_byte_len o;
  bundle_usage :
    Limits.text_bytes (usage (graph b)) = total (text_size <$> artifacts b) ∧
    Limits.media_objects (usage (graph b)) = len (omap media_size (artifacts b)) ∧
    Limits.media_bytes (usage (graph b)) = total (omap media_size (artifacts b));
}.

Lemma blob_validate_ok g id bytes :
  NoDup (o_id <$> objects g) → blob_validate sha256_hex g (list_to_set (o_id <$> objects g)) (id, bytes) = Ok tt →
  ∃ o, o ∈ objects g ∧ o_id o = id ∧ o_byte_len o = len bytes ∧ id = sha256_hex bytes.
Proof.
  intros Hn H. unfold blob_validate in H. contract_steps H. bool_prop.
  match goal with Hf : _ <$> find_object _ _ = Some _ |- _ => apply fmap_Some in Hf as (o & Hf & ->) end.
  match goal with Hf : find_object _ _ = Some _ |- _ => apply find_object_Some in Hf as [Ho <-]; [|done] end. by exists o.
Qed.

Lemma bundle_validate_ok b : bundle_validate sha256_hex b = Ok tt → bundle_ok b.
Proof.
  intros H. unfold bundle_validate in H. contract_steps H.
  match goal with Hg : graph_validate _ = Ok _ |- _ => apply graph_validate_ok in Hg as Hok end.
  match goal with Hx : tally _ _ _ = Ok _ |- _ => apply tally_ok in Hx as [Hv [Hn _] Hs Ht Hob Hm] end.
  match goal with Ho : objects_validate _ _ _ = Ok _ |- _ =>
    pose proof (objects_validate_ok _ _ _ (graph_ids _ Hok) Ho) as Hobj end.
  rewrite each_Ok in H. match goal with He : each _ (in_key_order _) = Ok _ |- _ => rewrite each_Ok in He; rename He into Hblobs end.
  assert (∀ id bytes, blobs b !! id = Some bytes →
    ∃ o, o ∈ objects (graph b) ∧ o_id o = id ∧ o_byte_len o = len bytes ∧ id = sha256_hex bytes) as Hbytes.
  { intros id bytes Hid. apply blob_validate_ok; [by apply graph_ids|]. by apply Hblobs, in_key_order_elem. }
  bool_prop. split.
  - done.
  - intros a Ha. destruct (Hv a Ha) as [? Hin]. by rewrite elem_of_list_to_set in Hin.
  - done.
  - intros o Ho. destruct (Hobj o Ho) as (_ & [bytes Hb] & _). exists bytes. split; [done|].
    destruct (Hbytes _ _ Hb) as (o' & Ho' & Hid & Hl & Hh). by rewrite (object_unique _ _ _ Hok Ho' Ho Hid) in Hl.
  - intros id bytes Hb. destruct (Hbytes _ _ Hb) as (o & Ho & <- & _). by apply list_elem_of_fmap_2.
  - intros o Ho. destruct (Hobj o Ho) as (Hd & _ & Hi). split; [done|]. intros i. rewrite Hi, Hs. simpl. rewrite lookup_empty. simpl.
    split; [by intros [?%elem_of_empty|]|by right].
  - intros a r Ha Hr'. specialize (H a Ha). unfold artifact_length_validate in H. rewrite Hr' in H. contract_steps H. bool_prop.
    match goal with Hf : find_object _ _ = Some _ |- _ => apply find_object_Some in Hf as [Ho Hid]; [|by apply graph_ids] end. by eexists.
  - simpl in Ht, Hob, Hm. split_and!; lia.
Qed.

Lemma artifact_blob_ok a r : artifact_validate a = Ok tt → payload_blob (payload a) = Some r →
  b_object_id r = source a ∧ b_sha256 r = source a ∧ blank (media_type r) = false.
Proof.
  intros H Hr. unfold artifact_validate in H. contract_steps H. bool_prop.
  assert (artifact_blob_validate a r = Ok tt) as Hb.
  { destruct (payload a); simplify_eq/=; [|done]. by contract_steps H. }
  unfold artifact_blob_validate in Hb. contract_steps Hb. by bool_prop.
Qed.

Lemma segments_validate_returns t p l : returns (segments_validate t p l).
Proof. revert p. induction l as [|s l IH]; intros p; simpl; repeat returns_step. Qed.
#[local] Hint Resolve segments_validate_returns graph_validate_returns : returns.
Lemma artifact_validate_returns a : returns (artifact_validate a).
Proof. unfold artifact_validate, artifact_blob_validate, blob_validation_validate. repeat returns_step. Qed.
Lemma tally_returns objs t l : returns (tally objs t l).
Proof.
  revert t. induction l as [|a l IH]; intros t; simpl; [done|]. apply returns_bind; [|intros; apply IH].
  pose proof artifact_validate_returns. unfold tally_artifact. repeat (first [apply H | returns_step]).
Qed.
Lemma objects_validate_returns held m os : returns (objects_validate held m os).
Proof. revert m. induction os as [|o os IH]; intros m; simpl; repeat returns_step. Qed.
Lemma blob_validate_returns g objs e : returns (blob_validate sha256_hex g objs e).
Proof. destruct e as [id bytes]. unfold blob_validate. repeat returns_step. Qed.
Lemma artifact_length_returns g a : returns (artifact_length_validate g a).
Proof. unfold artifact_length_validate. repeat returns_step. Qed.
#[local] Hint Resolve tally_returns objects_validate_returns : returns.
Lemma bundle_validate_returns b : returns (bundle_validate sha256_hex b).
Proof.
  unfold bundle_validate.
  repeat (first [apply each_returns_all; intros ?; first [apply blob_validate_returns | apply artifact_length_returns] | returns_step]).
Qed.
End Bundles.

(** C9: The validation of a bundle ends, and a bundle that it accepts holds exactly the bytes
    of its objects, each under its digest and with its length; every artifact that refers to
    bytes refers to the bytes of its own source; the artifacts of every object are exactly
    the declared ones, under distinct ids; and the recorded usage is their sum. *)
Theorem attachment_bundle_sound sha256_hex b :
  returns (bundle_validate sha256_hex b) ∧
  (bundle_validate sha256_hex b = Ok tt →
   (∀ id, is_Some (blobs b !! id) ↔ id ∈ (o_id <$> objects (graph b))) ∧
   (∀ o, o ∈ objects (graph b) → ∃ bytes, blobs b !! o_id o = Some bytes ∧ o_id o = sha256_hex bytes ∧ o_byte_len o = len bytes) ∧
   NoDup (a_id <$> artifacts b) ∧
   (∀ a r, a ∈ artifacts b → payload_blob (payload a) = Some r →
      b_object_id r = source a ∧
      ∃ bytes, blobs b !! source a = Some bytes ∧ b_sha256 r = sha256_hex bytes ∧ b_byte_len r = len bytes) ∧
   (∀ o, o ∈ objects (graph b) → NoDup (artifact_ids o) ∧
      ∀ i, i ∈ artifact_ids o ↔ ∃ a, a ∈ artifacts b ∧ source a = o_id o ∧ a_id a = i) ∧
   Limits.text_bytes (usage (graph b)) = total (text_size <$> artifacts b) ∧
   Limits.media_objects (usage (graph b)) = len (omap media_size (artifacts b)) ∧
   Limits.media_bytes (usage (graph b)) = total (omap media_size (artifacts b))).
Proof.
  split; [apply bundle_validate_returns|]. intros Hb%bundle_validate_ok. split_and!; [| | | | |apply (bundle_usage _ _ Hb)..].
  - intros id. split; [intros [bytes Hid]; by eapply (bundle_only_objects _ _ Hb)|].
    intros (o & -> & Ho)%list_elem_of_fmap. destruct (bundle_bytes _ _ Hb o Ho) as (bytes & -> & _). by eexists.
  - apply (bundle_bytes _ _ Hb).
  - apply (bundle_ids _ _ Hb).
  - intros a r Ha Hr. destruct (bundle_artifacts _ _ Hb a Ha) as [Hv _]. destruct (artifact_blob_ok a r Hv Hr) as (H1 & H2 & _).
    split; [done|]. destruct (bundle_lengths _ _ Hb a r Ha Hr) as (o & Ho & Hid & Hl).
    destruct (bundle_bytes _ _ Hb o Ho) as (bytes & Hby & Hh & Hlen). exists bytes. rewrite <- Hid. split_and!; [done|congruence|congruence].
  - apply (bundle_declared _ _ Hb).
Qed.
