(* ===== verification/AttachmentPlan.v ===== *)
(** * AttachmentPlan: how a bundle is prepared for a target

    Models [attachment-native-plan/src/lib.rs]: [PreparationPlanner::plan] turns the
    artifacts of a bundle into the parts, transforms and blockers of a plan for one target
    and one policy.

    [PlanBuilder] is the state of the builder; what it borrows (planner, bundle, target,
    policy, seed) are arguments. SHA-256 and the JSON encoder of serde are arguments. *)

From S2P Require Import Prelude Bytes Text Utf8 Sorting Budget AttachmentTypes.
Local Open Scope Z_scope.

Definition PLANNER_NAME : text := str "attachment-native-plan".
Definition PLANNER_VERSION : text := str "0.1.0".

Record PreparationPlanner := {
  transform_timeout_ms : Z; video_frame_limit : Z; pdf_page_limit : Z; pdf_page_megapixels : Z }.
(** [PreparationPlanner::default] and [with_transform_limits] *)
Definition default_planner : PreparationPlanner := {|
  transform_timeout_ms := 120000; video_frame_limit := 8; pdf_page_limit := 32; pdf_page_megapixels := 8 |}.
Definition with_transform_limits (timeout_ms video_frames pdf_pages megapixels : Z) (_ : PreparationPlanner) : PreparationPlanner := {|
  transform_timeout_ms := timeout_ms; video_frame_limit := video_frames; pdf_page_limit := pdf_pages; pdf_page_megapixels := megapixels |}.

(** [serde_json::to_vec] *)
Class Json := {
  json_target : TargetCapabilities → option (list Z);
  json_policy : PreparationPolicy → option (list Z);
  json_selected : option DetectedFormat → option (list Z);
  json_status : ObjectStatus → option (list Z);
  json_processor : ProcessorProvenance → option (list Z);
  json_trust : ContentTrust → option (list Z);
  json_payload : ArtifactPayload → option (list Z);
  json_warnings : list text → option (list Z);
}.

(** ** Errors *)

Notation AttachmentError := Limits.AttachmentError.
Definition attachment_error (c : string) (k : Limits.IssueClass) (m : text) (id : option text) : AttachmentError :=
  {| Limits.code := c; Limits.class := k; Limits.safe_message := m; Limits.object_id := id; Limits.retryable := false |}.
Definition invalid_bundle (e : ContractError) : AttachmentError :=
  attachment_error "invalid_attachment_bundle" Limits.Internal
    (str "Attachment bundle contract validation failed: " ++ contract_error_text e) None.
Definition invalid_target (e : ContractError) : AttachmentError :=
  attachment_error "invalid_target_capabilities" Limits.Policy
    (str "Target capability validation failed: " ++ contract_error_text e) None.
Definition invalid_generated_plan (e : ContractError) : AttachmentError :=
  attachment_error "invalid_generated_preparation_plan" Limits.Internal
    (str "Generated attachment preparation plan validation failed: " ++ contract_error_text e) None.
Definition invalid_blob (source message : text) : AttachmentError :=
  attachment_error "invalid_artifact_blob_reference" Limits.Integrity message (Some source).
Definition policy_error (c : string) (m : text) : AttachmentError := attachment_error c Limits.Policy m None.

(** ** Media types *)

Definition media_type_eq (left right : text) : bool := eq_ignore_ascii_case (trim left) (trim right).
Definition media_type_family (t : text) : option MediaFamily :=
  let normalized := to_ascii_lowercase (trim t) in
  if starts_with normalized (str "image/") then Some Image
  else if starts_with normalized (str "audio/") then Some Audio
  else if starts_with normalized (str "video/") then Some Video
  else None.

Definition artifact_is_pdf (a : CanonicalArtifact) : bool :=
  match payload_blob (payload a) with
  | Some b => media_type_eq (media_type b) (str "application/pdf")
  | None => false
  end.
Definition artifact_input_bytes (a : CanonicalArtifact) : Z := payload_bytes (payload a).

(** ** Hashes *)

Definition hash_field (value : list Z) : list Z := le_bytes 8 (len value) ++ value.
Definition transform_operation_key (o : TransformOperation) : text :=
  match o with
  | TranscribeAudio => str "transcribe_audio"
  | ExtractVideoAudio => str "extract_video_audio"
  | SampleVideoFrames n => str "sample_video_frames:" ++ decimal n
  | OcrImage => str "ocr_image"
  | RasterizePdfPages n m => str "rasterize_pdf_pages:" ++ decimal n ++ str ":" ++ decimal m
  | ExtractDocumentText => str "extract_document_text"
  end.

Section Plan.
Context {J : Json} (sha256_hex : list Z → text).

Definition transform_bytes (seed : text) (ordinal : Z) (source : text) (o : TransformOperation) : list Z :=
  hash_field (as_bytes (str "attachment-native-transform-v1")) ++ hash_field (as_bytes seed)
  ++ hash_field (as_bytes (decimal ordinal)) ++ hash_field (as_bytes source) ++ hash_field (as_bytes (transform_operation_key o)).
Definition transform_id (seed : text) (ordinal : Z) (source : text) (o : TransformOperation) : text :=
  str "transform-" ++ sha256_hex (transform_bytes seed ordinal source o).

(** [hash_json]: the field that is hashed *)
Definition hash_json (encoded : option (list Z)) : parse AttachmentError (list Z) :=
  bytes ← need encoded (policy_error "plan_fingerprint_failed" (str "Attachment preparation fingerprint serialization failed.")) ;
  Ok (hash_field bytes).

Fixpoint hash_objects (os : list ObjectRecord) : parse AttachmentError (list Z) :=
  match os with
  | [] => Ok []
  | o :: os =>
    a ← hash_json (json_selected (selected (detection o))) ;
    b ← hash_json (json_status (status o)) ;
    rest ← hash_objects os ;
    Ok (hash_field (as_bytes (o_id o)) ++ a ++ b ++ rest)
  end.
Fixpoint hash_artifacts (l : list CanonicalArtifact) : parse AttachmentError (list Z) :=
  match l with
  | [] => Ok []
  | x :: l =>
    a ← hash_json (json_processor (processor x)) ;
    b ← hash_json (json_trust (trust x)) ;
    c ← hash_json (json_payload (payload x)) ;
    d ← hash_json (json_warnings (a_warnings x)) ;
    rest ← hash_artifacts l ;
    Ok (hash_field (as_bytes (a_id x)) ++ hash_field (as_bytes (a_schema x)) ++ hash_field (as_bytes (source x))
        ++ a ++ b ++ c ++ d ++ rest)
  end.
Definition input_fingerprint (pl : PreparationPlanner) (b : AttachmentBundle) (l : list CanonicalArtifact) (t : TargetCapabilities)
    (p : PreparationPolicy) : parse AttachmentError text :=
  jt ← hash_json (json_target t) ;
  jp ← hash_json (json_policy p) ;
  os ← hash_objects (objects (graph b)) ;
  as_ ← hash_artifacts l ;
  Ok (sha256_hex (hash_field (as_bytes (str "attachment-native-plan-input-v1")) ++ hash_field (as_bytes PLANNER_NAME)
      ++ hash_field (as_bytes PLANNER_VERSION)
      ++ hash_field (le_bytes 8 (transform_timeout_ms pl)) ++ hash_field (le_bytes 4 (video_frame_limit pl))
      ++ hash_field (le_bytes 4 (pdf_page_limit pl)) ++ hash_field (le_bytes 4 (pdf_page_megapixels pl))
      ++ hash_field (le_bytes 4 (Limits.max_transform_requests (limits (graph b))))
      ++ jt ++ jp ++ os ++ as_)).

(** ** Order *)

Definition text_format_name (f : TextFormat) : text := match f with Plain => str "Plain" | Markdown => str "Markdown" end.
Definition artifact_sort_key (a : CanonicalArtifact) : Z * text * text :=
  match payload a with
  | Text f t _ => (0, text_format_name f, sha256_hex (as_bytes t))
  | Media f b _ _ => (1, media_family_name f ++ str ":" ++ to_ascii_lowercase (media_type b), b_sha256 b)
  | Opaque b => (2, to_ascii_lowercase (media_type b), b_sha256 b)
  end.

(** The lexicographic order of the keys *)
Definition key_cmp : Z * text * text → Z * text * text → comparison :=
  lex (λ x y, x.1.1 ?= y.1.1) (lex (λ x y, str_cmp x.1.2 y.1.2) (λ x y, str_cmp x.2 y.2)).
Definition placed_cmp : Z * (Z * text * text) → Z * (Z * text * text) → comparison :=
  lex (λ x y, x.1 ?= y.1) (λ x y, key_cmp x.2 y.2).

Definition indexed (os : list ObjectRecord) : list (text * Z) := imap (λ i o, (o_id o, Z.of_nat i)) os.
Definition source_order (b : AttachmentBundle) : gmap text Z :=
  foldl (λ (m : gmap text Z) (e : text * Z), <[e.1 := e.2]> m) ∅ (indexed (objects (graph b))).
Definition placed_key (b : AttachmentBundle) (a : CanonicalArtifact) : Z * (Z * text * text) :=
  (default usize_max (source_order b !! source a), artifact_sort_key a).
Definition ordered_artifacts (b : AttachmentBundle) : list CanonicalArtifact :=
  sort_by placed_cmp (placed_key b) (artifacts b).

(** ** The builder *)

Record PlanBuilder := {
  b_parts : list PreparedPart;
  b_transforms : list TransformRequest;
  b_blockers : list PreparationBlocker;
  b_warnings : list text;
  text_bytes : Z;
  media_objects : Z;
  media_bytes : Z;
  transform_limit_reported : bool;
}.
Definition new_builder : PlanBuilder := {|
  b_parts := []; b_transforms := []; b_blockers := []; b_warnings := []; text_bytes := 0; media_objects := 0; media_bytes := 0;
  transform_limit_reported := false |}.

Definition push_part (p : PreparedPart) (s : PlanBuilder) : PlanBuilder := {|
  b_parts := b_parts s ++ [p]; b_transforms := b_transforms s; b_blockers := b_blockers s; b_warnings := b_warnings s;
  text_bytes := text_bytes s; media_objects := media_objects s; media_bytes := media_bytes s;
  transform_limit_reported := transform_limit_reported s |}.
Definition push_request (t : TransformRequest) (s : PlanBuilder) : PlanBuilder := {|
  b_parts := b_parts s; b_transforms := b_transforms s ++ [t]; b_blockers := b_blockers s; b_warnings := b_warnings s;
  text_bytes := text_bytes s; media_objects := media_objects s; media_bytes := media_bytes s;
  transform_limit_reported := transform_limit_reported s |}.
Definition warn (w : text) (s : PlanBuilder) : PlanBuilder := {|
  b_parts := b_parts s; b_transforms := b_transforms s; b_blockers := b_blockers s; b_warnings := b_warnings s ++ [w];
  text_bytes := text_bytes s; media_objects := media_objects s; media_bytes := media_bytes s;
  transform_limit_reported := transform_limit_reported s |}.
Definition set_text_bytes (n : Z) (s : PlanBuilder) : PlanBuilder := {|
  b_parts := b_parts s; b_transforms := b_transforms s; b_blockers := b_blockers s; b_warnings := b_warnings s;
  text_bytes := n; media_objects := media_objects s; media_bytes := media_bytes s;
  transform_limit_reported := transform_limit_reported s |}.
Definition set_media (objs bytes : Z) (s : PlanBuilder) : PlanBuilder := {|
  b_parts := b_parts s; b_transforms := b_transforms s; b_blockers := b_blockers s; b_warnings := b_warnings s;
  text_bytes := text_bytes s; media_objects := objs; media_bytes := bytes;
  transform_limit_reported := transform_limit_reported s |}.
Definition report_transform_limit (s : PlanBuilder) : PlanBuilder := {|
  b_parts := b_parts s; b_transforms := b_transforms s; b_blockers := b_blockers s; b_warnings := b_warnings s;
  text_bytes := text_bytes s; media_objects := media_objects s; media_bytes := media_bytes s;
  transform_limit_reported := true |}.

Definition block (c m : text) (artifact_id source : option text) (s : PlanBuilder) : PlanBuilder := {|
  b_parts := b_parts s; b_transforms := b_transforms s;
  b_blockers := b_blockers s ++ [{| blocker_code := c; blocker_message := m; blocker_artifact := artifact_id; blocker_source := source |}];
  b_warnings := b_warnings s;
  text_bytes := text_bytes s; media_objects := media_objects s; media_bytes := media_bytes s;
  transform_limit_reported := transform_limit_reported s |}.
(** [block] of an artifact, with its source *)
Definition block_artifact (c m : string) (a : CanonicalArtifact) : PlanBuilder → PlanBuilder :=
  block (str c) (str m) (Some (a_id a)) (Some (source a)).

Context (pl : PreparationPlanner) (bundle : AttachmentBundle) (target : TargetCapabilities) (policy : PreparationPolicy)
  (transform_seed : text).

Definition block_object_status (st : ObjectStatus) (l : list CanonicalArtifact) (s : PlanBuilder) : bool * PlanBuilder :=
  let blocked c m :=
    (true, block (str c) m (a_id <$> head l) (source <$> head l) s) in
  match st with
  | StatusBlocked c => blocked "source_object_blocked" (str "Attachment inspection blocked this object (" ++ c ++ str ").")
  | StatusMalformed c =>
    blocked "source_object_malformed" (str "Attachment inspection found a malformed object (" ++ c ++ str ").")
  | StatusUnsupported c =>
    blocked "source_object_unsupported" (str "Attachment inspection marked this object unsupported (" ++ c ++ str ").")
  | _ => (false, s)
  end.

Definition push_text (a : CanonicalArtifact) (format : TextFormat) (t : text) (s : PlanBuilder) : PlanBuilder :=
  let exceeded := block_artifact "target_text_budget_exceeded" "Attachment text exceeds the target text budget." a s in
  match checked_add u64_max (text_bytes s) (str_len t) with
  | None => exceeded
  | Some next =>
    if max_text_bytes target <? next then exceeded
    else
      let s := set_text_bytes next s in
      let '(output_format, s) :=
        if bool_decide (format = Markdown) && negb (supports_markdown target)
        then (Plain, warn (str "Artifact " ++ a_id a
                ++ str " contains Markdown; the target does not advertise Markdown rendering, so it is supplied as untrusted plain text without interpretation.") s)
        else (format, s) in
      push_part (UntrustedText (a_id a) output_format t (source a)) s
  end.

Definition accepts_media (family : MediaFamily) (t : text) (native_video : bool) : bool :=
  if native_video && negb (supports_native_video target) then false
  else
    let accepted := elements (accepted_media_types target) in
    let exact := existsb (λ x, media_type_eq x t) accepted in
    let family_has_exact_types := existsb (λ x, bool_decide (media_type_family x = Some family)) accepted in
    exact || (negb family_has_exact_types && existsb (λ f, bool_decide (f = family)) (accepted_media_families target)).

(** [objects.iter().find(..).is_some_and(|object| object.status is Complete)] *)
Definition source_complete (a : CanonicalArtifact) : bool :=
  match find_object (objects (graph bundle)) (source a) with
  | Some o => bool_decide (status o = StatusComplete)
  | None => false
  end.

Definition direct_media_evidence (a : CanonicalArtifact) (v : BlobValidation) (s : PlanBuilder) : bool * PlanBuilder :=
  if negb (permits_direct_media (grade v)) then
    (false, warn (str "Artifact " ++ a_id a ++ str " was not routed as direct media: validation grade " ++ grade_name (grade v)
                  ++ str " does not prove a complete bounded payload decode.") s)
  else if source_complete a then (true, s)
  else
    (false, warn (str "Artifact " ++ a_id a
                  ++ str " was not routed as direct media because inspection did not establish complete source coverage.") s).

(** [accepts_media(..) && direct_media_evidence(..)] *)
Definition direct (family : MediaFamily) (native_video : bool) (a : CanonicalArtifact) (b : BlobRef) (v : BlobValidation)
    (s : PlanBuilder) : bool * PlanBuilder :=
  if accepts_media family (media_type b) native_video then direct_media_evidence a v s else (false, s).

Definition block_direct_media_unavailable (a : CanonicalArtifact) (v : BlobValidation) (family : MediaFamily) (s : PlanBuilder) :
    PlanBuilder :=
  let '(c, m) :=
    if negb (permits_direct_media (grade v)) then
      ("direct_media_validation_insufficient",
       "Direct media is disabled because the retained blob did not pass a complete bounded payload decode.")
    else if negb (source_complete a) then
      ("direct_media_source_incomplete",
       "Direct media is disabled because attachment inspection did not establish complete source coverage.")
    else match family with
         | Audio => ("audio_not_supported_by_target",
                     "The target does not accept this audio type and transcription is disabled.")
         | Video => ("video_not_supported_by_target",
                     "The target does not accept native video and fallback transforms are disabled.")
         | Image => ("image_not_supported_by_target",
                     "The target does not accept this image type and fallback transforms are disabled.")
         end%string in
  block_artifact c m a s.

Definition accepts_any_image : bool :=
  existsb (λ f, bool_decide (f = Image)) (accepted_media_families target)
  || existsb (λ t, starts_with (to_ascii_lowercase t) (str "image/")) (elements (accepted_media_types target)).

Definition block_media_budget : CanonicalArtifact → PlanBuilder → PlanBuilder :=
  block_artifact "target_media_budget_exceeded" "Direct attachment media exceeds the target media budget.".

Definition reserve_direct_blob (a : CanonicalArtifact) (byte_len : Z) (s : PlanBuilder) : bool * PlanBuilder :=
  match checked_add u32_max (media_objects s) 1 with
  | None => (false, block_media_budget a s)
  | Some next_objects =>
    match checked_add u64_max (media_bytes s) byte_len with
    | None => (false, block_media_budget a s)
    | Some next_bytes =>
      if (max_media_objects target <? next_objects) || (max_media_bytes target <? next_bytes)
      then (false, block_media_budget a s)
      else (true, set_media next_objects next_bytes s)
    end
  end.

Definition push_media (a : CanonicalArtifact) (family : MediaFamily) (b : BlobRef) (s : PlanBuilder) : PlanBuilder :=
  let '(reserved, s) := reserve_direct_blob a (b_byte_len b) s in
  if reserved : bool then push_part (DirectMedia (a_id a) family b (source a)) s else s.
(** The opaque reference at the end of [plan_opaque] and of [push_pdf_native] *)
Definition push_opaque (a : CanonicalArtifact) (b : BlobRef) (s : PlanBuilder) : PlanBuilder :=
  let '(reserved, s) := reserve_direct_blob a (b_byte_len b) s in
  if reserved : bool then push_part (OpaqueReference (a_id a) b (source a)) s else s.

Definition try_push_transform (a : CanonicalArtifact) (o : TransformOperation) (req : bool) (deps : list text) (s : PlanBuilder) :
    option text * PlanBuilder :=
  let limit := Limits.max_transform_requests (limits (graph bundle)) in
  if limit <=? len (b_transforms s) then
    (None, if transform_limit_reported s then s
           else report_transform_limit
             (block_artifact "transform_request_budget_exceeded"
                "Attachment preparation requires more transforms than the inspection policy permits." a s))
  else
    let id := transform_id transform_seed (len (b_transforms s)) (source a) o in
    let output_limit := if makes_text o then max_text_bytes target else max_media_bytes target in
    (Some id, push_request
       {| t_id := id; depends_on := deps; source_artifact := a_id a; t_source := source a; operation := o; required := req;
          t_limits := {| max_input_bytes := artifact_input_bytes a; max_output_bytes := output_limit;
                         timeout_ms := transform_timeout_ms pl |} |} s).
Definition push_transform (a : CanonicalArtifact) (o : TransformOperation) (req : bool) (s : PlanBuilder) : PlanBuilder :=
  (try_push_transform a o req [] s).2.
Fixpoint push_transform_pipeline (a : CanonicalArtifact) (os : list TransformOperation) (req : bool) (deps : list text)
    (s : PlanBuilder) : PlanBuilder :=
  match os with
  | [] => s
  | o :: os =>
    match try_push_transform a o req deps s with
    | (None, s) => s
    | (Some id, s) => push_transform_pipeline a os req [id] s
    end
  end.

Definition plan_image (a : CanonicalArtifact) (b : BlobRef) (v : BlobValidation) (s : PlanBuilder) : PlanBuilder :=
  let '(direct_, s) := direct Image false a b v s in
  match image policy with
  | DirectWhenSupported => if direct_ : bool then push_media a Image b s else push_transform a OcrImage true s
  | OcrOnly => push_transform a OcrImage true s
  | DirectAndOcr => push_transform a OcrImage true (if direct_ : bool then push_media a Image b s else s)
  end.

Definition plan_audio (a : CanonicalArtifact) (b : BlobRef) (v : BlobValidation) (s : PlanBuilder) : PlanBuilder :=
  let '(direct_, s) := direct Audio false a b v s in
  match audio policy with
  | DirectThenTranscribe => if direct_ : bool then push_media a Audio b s else push_transform a TranscribeAudio true s
  | TranscribeOnly => push_transform a TranscribeAudio true s
  | DirectAndTranscribe => push_transform a TranscribeAudio true (if direct_ : bool then push_media a Audio b s else s)
  | AudioDirectOnly => if direct_ : bool then push_media a Audio b s else block_direct_media_unavailable a v Audio s
  end.

Definition push_video_frames (a : CanonicalArtifact) (s : PlanBuilder) : PlanBuilder :=
  let sample_frames := SampleVideoFrames (Z.min (video_frame_limit pl) (max_media_objects target)) in
  let policy_also_requires_ocr := match image policy with OcrOnly | DirectAndOcr => true | _ => false end in
  if negb accepts_any_image || policy_also_requires_ocr
  then push_transform_pipeline a [sample_frames; OcrImage] true [] s
  else push_transform a sample_frames true s.
Definition push_video_transcript (a : CanonicalArtifact) (s : PlanBuilder) : PlanBuilder :=
  push_transform_pipeline a [ExtractVideoAudio; TranscribeAudio] true [] s.

Definition plan_video (a : CanonicalArtifact) (b : BlobRef) (v : BlobValidation) (s : PlanBuilder) : PlanBuilder :=
  let '(direct_, s) := direct Video true a b v s in
  match video policy with
  | DirectThenFramesAndTranscript =>
    if direct_ : bool then push_media a Video b s else push_video_transcript a (push_video_frames a s)
  | FramesAndTranscript => push_video_transcript a (push_video_frames a s)
  | FramesOnly => push_video_frames a s
  | TranscriptOnly => push_video_transcript a s
  | VideoDirectOnly => if direct_ : bool then push_media a Video b s else block_direct_media_unavailable a v Video s
  end.

Definition is_executable (a : CanonicalArtifact) : bool :=
  existsb (λ o, bool_decide (o_id o = source a) && bool_decide (selected (detection o) = Some Executable)) (objects (graph bundle)).
Definition plan_opaque (a : CanonicalArtifact) (b : BlobRef) (s : PlanBuilder) : PlanBuilder :=
  if is_executable a then
    block_artifact "executable_attachment_blocked" "Executable attachment bytes cannot be sent to a model target." a s
  else match unsupported policy with
       | Block => block_artifact "unsupported_opaque_attachment"
                    "The attachment has no safe canonical representation for this target." a s
       | PreserveAsOpaqueReference => push_opaque a b s
       end.

Definition plan_artifact (a : CanonicalArtifact) (s : PlanBuilder) : PlanBuilder :=
  match payload a with
  | Text format t _ => push_text a format t s
  | Media Image b _ v => plan_image a b v s
  | Media Audio b _ v => plan_audio a b v s
  | Media Video b _ v => plan_video a b v s
  | Opaque b => plan_opaque a b s
  end.

(** ** PDF documents *)

Definition is_text (a : CanonicalArtifact) : bool := match payload a with Text _ _ _ => true | _ => false end.
Definition is_native_pdf (a : CanonicalArtifact) : bool :=
  match payload a with Opaque b => media_type_eq (media_type b) (str "application/pdf") | _ => false end.

(** [native_pdf_evidence] *)
Definition native_pdf_evidence (a : CanonicalArtifact) : bool :=
  match coverage (graph bundle) with CoverageComplete => true | CoveragePartial _ => false end
  && match find_object (objects (graph bundle)) (source a) with
     | Some o => bool_decide (status o = StatusComplete) && bool_decide (selected (detection o) = Some Pdf)
     | None => false
     end.

Fixpoint text_total (total : Z) (l : list CanonicalArtifact) : option Z :=
  match l with
  | [] => Some total
  | a :: l =>
    match payload a with
    | Text _ t _ => total ← checked_add u64_max total (str_len t) ; text_total total l
    | _ => text_total total l
    end
  end.
Definition text_artifacts_fit (l : list CanonicalArtifact) (s : PlanBuilder) : bool :=
  match text_total (text_bytes s) l with Some total => total <=? max_text_bytes target | None => false end.

Definition direct_blob_fits (byte_len : Z) (s : PlanBuilder) : bool :=
  match checked_add u32_max (media_objects s) 1 with Some n => n <=? max_media_objects target | None => false end
  && match checked_add u64_max (media_bytes s) byte_len with Some n => n <=? max_media_bytes target | None => false end.

Fixpoint push_text_artifacts (l : list CanonicalArtifact) (s : PlanBuilder) : PlanBuilder :=
  match l with
  | [] => s
  | a :: l => push_text_artifacts l (match payload a with Text format t _ => push_text a format t s | _ => s end)
  end.
Definition push_pdf_native (a : CanonicalArtifact) (s : PlanBuilder) : PlanBuilder :=
  match payload a with Opaque b => push_opaque a b s | _ => s end.

(** [native.is_some_and(..)]: a native PDF that the target takes, with evidence and within its budget *)
Definition native_ready (native : option CanonicalArtifact) (s : PlanBuilder) : bool :=
  match native with
  | Some a => supports_native_pdf target && native_pdf_evidence a
              && match payload a with Opaque b => direct_blob_fits (b_byte_len b) s | _ => false end
  | None => false
  end.
Definition push_native (native : option CanonicalArtifact) (s : PlanBuilder) : PlanBuilder :=
  match native with Some a => push_pdf_native a s | None => s end.

Definition plan_pdf_fallback (texts : list CanonicalArtifact) (native representative : option CanonicalArtifact) (s : PlanBuilder) :
    PlanBuilder :=
  if negb (bool_decide (length texts = 0%nat)) then push_text_artifacts texts s
  else if native_ready native s then push_native native s
  else match representative with
       | Some a =>
         if accepts_any_image
         then push_transform a (RasterizePdfPages (Z.min (pdf_page_limit pl) (max_media_objects target)) (pdf_page_megapixels pl)) true s
         else push_transform a ExtractDocumentText true s
       | None => s
       end.

(** The warning of [plan_pdf] *)
Definition warn_partial_pdf (native : option CanonicalArtifact) (s : PlanBuilder) : PlanBuilder :=
  match native with
  | Some a =>
    if supports_native_pdf target && negb (native_pdf_evidence a)
    then warn (str "Artifact " ++ a_id a
               ++ str " was not routed as a native PDF because inspection did not establish complete parser-backed coverage.") s
    else s
  | None => s
  end.
(** [texts.first().or(native).or_else(|| artifacts.first())] *)
Definition pdf_representative (texts : list CanonicalArtifact) (native : option CanonicalArtifact) (l : list CanonicalArtifact) :
    option CanonicalArtifact :=
  match head texts with
  | Some a => Some a
  | None => match native with Some a => Some a | None => head l end
  end.
Definition plan_pdf (l : list CanonicalArtifact) (s : PlanBuilder) : PlanBuilder :=
  let texts := List.filter is_text l in
  let native := List.find is_native_pdf l in
  let s := warn_partial_pdf native s in
  let representative := pdf_representative texts native l in
  let text_ready := negb (bool_decide (length texts = 0%nat)) && text_artifacts_fit texts s in
  let native_ready_ := native_ready native s in
  let s := match document policy with
           | NativeThenCanonicalText =>
             if native_ready_ then push_native native s
             else if text_ready then push_text_artifacts texts s
             else plan_pdf_fallback texts native representative s
           | CanonicalTextThenNative =>
             if text_ready then push_text_artifacts texts s
             else if native_ready_ then push_native native s
             else plan_pdf_fallback texts native representative s
           | CanonicalTextOnly =>
             if negb (bool_decide (length texts = 0%nat)) then push_text_artifacts texts s
             else match representative with Some a => push_transform a ExtractDocumentText true s | None => s end
           end in
  match representative with
  | Some _ => s
  | None => block (str "pdf_artifact_missing") (str "The PDF object has no canonical artifact to prepare.") None (source <$> head l) s
  end.

(** ** The plan *)

(** The loop over the objects of the graph, with the groups of artifacts that are left *)
Fixpoint plan_artifacts (l : list CanonicalArtifact) (s : PlanBuilder) : PlanBuilder :=
  match l with
  | [] => s
  | a :: l => plan_artifacts l (plan_artifact a s)
  end.
Definition plan_object (o : ObjectRecord) (group : list CanonicalArtifact) (s : PlanBuilder) : PlanBuilder :=
  let l := sort_by key_cmp artifact_sort_key group in
  let '(blocked, s) := block_object_status (status o) l s in
  if blocked : bool then s
  else if bool_decide (selected (detection o) = Some Pdf) || existsb artifact_is_pdf l then plan_pdf l s
  else plan_artifacts l s.
Fixpoint plan_objects (os : list ObjectRecord) (groups : gmap text (list CanonicalArtifact)) (s : PlanBuilder) : PlanBuilder :=
  match os with
  | [] => s
  | o :: os =>
    match groups !! o_id o with
    | None => plan_objects os groups s
    | Some group => plan_objects os (delete (o_id o) groups) (plan_object o group s)
    end
  end.
Definition group_artifacts (l : list CanonicalArtifact) : gmap text (list CanonicalArtifact) :=
  foldl (λ m a, <[source a := default [] (m !! source a) ++ [a]]> m) ∅ l.

Definition build (ordered : list CanonicalArtifact) : PlanBuilder :=
  let s := plan_objects (objects (graph bundle)) (group_artifacts ordered) new_builder in
  if bool_decide (length (b_parts s) = 0%nat) && bool_decide (length (b_transforms s) = 0%nat) && bool_decide (length (b_blockers s) = 0%nat)
  then block (str "no_preparable_attachment_content")
         (str "The attachment produced no canonical content that can be prepared for this target.") None (Some (root (graph bundle))) s
  else s.
Definition finished_plan (s : PlanBuilder) : PreparationPlan := {|
  p_schema := PLAN_SCHEMA;
  plan_id := str "plan-" ++ transform_seed;
  p_target_id := target_id target;
  target_fingerprint := fingerprint target;
  source_job_id := g_job_id (graph bundle);
  parts := b_parts s;
  transforms := b_transforms s;
  blockers := b_blockers s;
  p_warnings := b_warnings s;
  aggregate_limits := {| all_text_bytes := max_text_bytes target; all_media_objects := max_media_objects target;
                         all_media_bytes := max_media_bytes target;
                         all_transform_requests := Limits.max_transform_requests (limits (graph bundle)) |};
  cache_fingerprint := transform_seed |}.
End Plan.

Definition validate_blob_contract (b : AttachmentBundle) (a : CanonicalArtifact) : parse AttachmentError unit :=
  match payload_blob (payload a) with
  | None => Ok tt
  | Some r =>
    fail_if (negb (bool_decide (b_object_id r = source a)) || negb (bool_decide (b_sha256 r = source a))
             || negb (bool_decide (b_sha256 r = b_object_id r)))
      (invalid_blob (source a) (str "A canonical artifact cannot substitute bytes from a different inspected object.")) ;;
    o ← need (by_key o_id (objects (graph b)) !! b_object_id r)
      (invalid_blob (source a) (str "A canonical artifact references a blob outside its inspected object graph.")) ;
    fail_if (negb (bool_decide (b_sha256 r = o_sha256 o)) || negb (b_byte_len r =? o_byte_len o) || blank (media_type r)
             || negb (bool_decide (is_Some (blobs b !! b_object_id r))))
      (invalid_blob (source a) (str "A canonical artifact blob reference does not match retained inspected bytes."))
  end.
Definition validate_blob_contracts (b : AttachmentBundle) : parse AttachmentError unit := each (validate_blob_contract b) (artifacts b).

(** [PreparationPlanner::plan] *)
Definition plan {J : Json} (sha256_hex : list Z → text) (pl : PreparationPlanner) (b : AttachmentBundle) (target : TargetCapabilities)
    (policy : PreparationPolicy) : parse AttachmentError PreparationPlan :=
  map_fault invalid_bundle (bundle_validate sha256_hex b) ;;
  validate_blob_contracts b ;;
  map_fault invalid_target (target_validate target) ;;
  fail_if ((transform_timeout_ms pl =? 0) || (video_frame_limit pl =? 0) || (pdf_page_limit pl =? 0) || (pdf_page_megapixels pl =? 0))
    (policy_error "invalid_planner_limits" (str "Planner transform limits must all be greater than zero.")) ;;
  let ordered := ordered_artifacts sha256_hex b in
  cache ← input_fingerprint sha256_hex pl b ordered target policy ;
  let p := finished_plan b target cache (build sha256_hex pl b target policy cache ordered) in
  map_fault invalid_generated_plan (validate_against sha256_hex p b) ;;
  Ok p.
