(* ===== verification/AttachmentBuilder.v ===== *)
(** * AttachmentBuilder: the invariant of the plan builder

    What every operation of [PlanBuilder] keeps: the parts are what may be sent, within the
    budgets and once each; the requests are numbered and depend on earlier ones; nothing is
    taken back; every artifact that has had its turn is accounted for. A builder with this
    invariant finishes with a plan that validates. *)

From S2P Require Import Prelude Bytes Text Utf8 Sorting Budget AttachmentTypes AttachmentGraph AttachmentPlan.
Local Open Scope Z_scope.

Module AttachmentBuilder.
Section Builder.
Context {J : Json} (sha256_hex : list Z → text) (pl : PreparationPlanner) (bundle : AttachmentBundle) (target : TargetCapabilities)
  (policy : PreparationPolicy) (seed : text).

Notation try_push_transform := (try_push_transform sha256_hex pl bundle target seed).
Notation push_transform := (push_transform sha256_hex pl bundle target seed).
Notation plan_artifact := (plan_artifact sha256_hex pl bundle target policy seed).
Notation limit := (Limits.max_transform_requests (limits (graph bundle))).

(** ** What may be in a plan *)

(** A part is the text of an artifact as it is, a medium that was decoded completely and
    that the target takes, or opaque bytes: a fully inspected PDF for a target that reads
    PDFs, or what the policy says to keep, but no executable. *)
Definition routed (p : PreparedPart) : Prop :=
  ∃ a, a ∈ artifacts bundle ∧ part_artifact p = a_id a ∧
  match p with
  | UntrustedText _ f t s => s = source a ∧ ∃ format segments, payload a = Text format t segments ∧
      f = if bool_decide (format = Markdown) && negb (supports_markdown target) then Plain else format
  | DirectMedia _ family b s => s = source a ∧ ∃ metadata v, payload a = Media family b metadata v ∧ grade v = PayloadDecoded ∧
      source_complete bundle a = true ∧ accepts_media target family (media_type b) (bool_decide (family = Video)) = true
  | OpaqueReference _ b s => s = source a ∧ payload a = Opaque b ∧
      (supports_native_pdf target = true ∧ native_pdf_evidence bundle a = true ∧ is_native_pdf a = true ∨
       unsupported policy = PreserveAsOpaqueReference ∧ is_executable bundle a = false)
  end.

(** The operations of the planner *)
Definition sample_frames : TransformOperation := SampleVideoFrames (Z.min (video_frame_limit pl) (max_media_objects target)).
Definition rasterize_pages : TransformOperation :=
  RasterizePdfPages (Z.min (pdf_page_limit pl) (max_media_objects target)) (pdf_page_megapixels pl).
Definition operations : list TransformOperation :=
  [TranscribeAudio; ExtractVideoAudio; sample_frames; OcrImage; rasterize_pages; ExtractDocumentText].

(** A request, given those before it: of an artifact with bytes, with its own number in its id,
    after at most one earlier request *)
Definition requested (before : list TransformRequest) (t : TransformRequest) : Prop :=
  ∃ a r, a ∈ artifacts bundle ∧ payload_blob (payload a) = Some r ∧ operation t ∈ operations ∧
    (depends_on t = [] ∨ ∃ t', t' ∈ before ∧ depends_on t = [t_id t']) ∧
    t = {| t_id := transform_id sha256_hex seed (len before) (source a) (operation t); depends_on := depends_on t;
           source_artifact := a_id a; t_source := source a; operation := operation t; required := true;
           t_limits := {| max_input_bytes := b_byte_len r;
                          max_output_bytes := if makes_text (operation t) then max_text_bytes target else max_media_bytes target;
                          timeout_ms := transform_timeout_ms pl |} |}.

(** A blocker says something of an artifact and its source, or of an object *)
Definition blocked (b : PreparationBlocker) : Prop :=
  blank (blocker_code b) = false ∧ blank (blocker_message b) = false ∧
  ((∃ a, a ∈ artifacts bundle ∧ blocker_artifact b = Some (a_id a) ∧ blocker_source b = Some (source a)) ∨
   blocker_artifact b = None ∧ blocker_source b = Some (root (graph bundle))).

(** ** The state of the builder *)

Definition part_text (p : PreparedPart) : Z := match p with UntrustedText _ _ t _ => str_len t | _ => 0 end.
Definition part_blob (p : PreparedPart) : option BlobRef :=
  match p with UntrustedText _ _ _ _ => None | DirectMedia _ _ b _ | OpaqueReference _ b _ => Some b end.
Definition part_bytes (p : PreparedPart) : Z := match part_blob p with Some b => b_byte_len b | None => 0 end.
Definition part_count (p : PreparedPart) : Z := match part_blob p with Some _ => 1 | None => 0 end.
Definition limit_code : text := str "transform_request_budget_exceeded".

(** The invariant, for the ids of the artifacts that have had their turn *)
Record planned (seen : list text) (s : PlanBuilder) : Prop := {
  planned_parts p : p ∈ b_parts s → routed p ∧ part_artifact p ∈ seen;
  planned_once : NoDup (part_artifact <$> b_parts s);
  planned_text : text_bytes s = total (part_text <$> b_parts s) ∧ text_bytes s ≤ max_text_bytes target;
  planned_objects : media_objects s = total (part_count <$> b_parts s) ∧ media_objects s ≤ max_media_objects target;
  planned_bytes : media_bytes s = total (part_bytes <$> b_parts s) ∧ media_bytes s ≤ max_media_bytes target;
  planned_transforms before t after : b_transforms s = before ++ t :: after → requested before t;
  planned_limit : len (b_transforms s) ≤ limit;
  planned_blockers b : b ∈ b_blockers s → blocked b;
  planned_reported : transform_limit_reported s = true → ∃ b, b ∈ b_blockers s ∧ blocker_code b = limit_code;
}.

(** Nothing is taken back. *)
Record extends (s s' : PlanBuilder) : Prop := {
  extends_parts : b_parts s `prefix_of` b_parts s';
  extends_transforms : b_transforms s `prefix_of` b_transforms s';
  extends_blockers : b_blockers s `prefix_of` b_blockers s';
  extends_reported : transform_limit_reported s = true → transform_limit_reported s' = true;
}.
#[export] Instance extends_preorder : PreOrder extends.
Proof.
  split; [by intros s; split|]. intros s1 s2 s3 [A1 A2 A3 A4] [B1 B2 B3 B4]. split; [by etrans..|auto].
Qed.

(** The plan says something about an artifact. *)
Definition accounted (s : PlanBuilder) (a : CanonicalArtifact) : Prop :=
  a_id a ∈ (part_artifact <$> b_parts s) ∨ a_id a ∈ (source_artifact <$> b_transforms s) ∨
  Some (a_id a) ∈ (blocker_artifact <$> b_blockers s).

Lemma accounted_extends s s' a : extends s s' → accounted s a → accounted s' a.
Proof.
  intros [[p Hp] [t Ht] [b Hb] _] H. unfold accounted in *. rewrite Hp, Ht, Hb, !fmap_app, !elem_of_app. tauto.
Qed.

(** What an operation on an artifact achieves; [limited]: the transform limit was met. *)
Definition handled (seen : list text) (s : PlanBuilder) (a : CanonicalArtifact) (s' : PlanBuilder) : Prop :=
  planned seen s' ∧ extends s s' ∧ (accounted s' a ∨ transform_limit_reported s' = true).

Context (range : 0 ≤ max_text_bytes target ∧ 0 ≤ max_media_objects target ∧ 0 ≤ max_media_bytes target ∧ 0 ≤ limit).

Lemma planned_new : planned [] new_builder.
Proof.
  destruct range as (? & ? & ? & ?). split; simpl; try done; try lia.
  - by intros p ?%elem_of_nil.
  - constructor.
  - intros before t after Heq. by destruct before.
  - by intros b ?%elem_of_nil.
Qed.

Lemma planned_mono seen seen' s : seen ⊆ seen' → planned seen s → planned seen' s.
Proof. intros Hsub []. split; auto. intros p Hp. destruct (planned_parts0 p Hp). auto. Qed.

Lemma planned_warn seen w s : planned seen s → planned seen (warn w s).
Proof. by intros []. Qed.
Lemma extends_warn w s : extends s (warn w s).
Proof. by split. Qed.

Lemma blank_false s c : c ∈ s → is_whitespace c = false → blank s = false.
Proof.
  intros Hc Hw. apply bool_decide_eq_false. intros Ht%trim_nil. rewrite Forall_forall in Ht. specialize (Ht c Hc). congruence.
Qed.

Lemma planned_block seen c m a o s :
  blocked {| blocker_code := c; blocker_message := m; blocker_artifact := a; blocker_source := o |} →
  planned seen s → planned seen (block c m a o s).
Proof.
  intros Hb []. split; auto; simpl.
  - intros b [Hin| ->%list_elem_of_singleton]%elem_of_app; auto.
  - intros Hr. destruct (planned_reported0 Hr) as (b & Hin & Hc). exists b. split; [|done]. apply elem_of_app. by left.
Qed.
Lemma extends_block c m a o s : extends s (block c m a o s).
Proof. split; try done. simpl. by apply prefix_app_r. Qed.

Lemma handled_block seen c m a s :
  blank (str c) = false → blank (str m) = false → a ∈ artifacts bundle → planned seen s →
  handled seen s a (block_artifact c m a s).
Proof.
  intros Hc Hm Ha Hs. split_and!.
  - apply planned_block; [|done]. split_and!; [done..|]. left. by exists a.
  - apply extends_block.
  - left. right. right. unfold block_artifact. simpl. rewrite fmap_app. apply elem_of_app. right. by left.
Qed.

Lemma total_snoc l x : total (l ++ [x]) = total l + x.
Proof. unfold total. induction l as [|y l IH]; simpl; lia. Qed.

(** A part of an artifact that had no turn yet *)
Lemma planned_push_part seen p s s' :
  planned seen s → routed p → part_artifact p ∉ seen →
  s' = push_part p (set_media (media_objects s + part_count p) (media_bytes s + part_bytes p) (set_text_bytes (text_bytes s + part_text p) s)) →
  text_bytes s + part_text p ≤ max_text_bytes target → media_objects s + part_count p ≤ max_media_objects target →
  media_bytes s + part_bytes p ≤ max_media_bytes target → planned (part_artifact p :: seen) s'.
Proof.
  intros [] Hp Hnew -> H1 H2 H3. split; simpl; auto.
  - intros q [Hq| ->%list_elem_of_singleton]%elem_of_app; [|by split; [|left]]. destruct (planned_parts0 q Hq). split; [done|by right].
  - rewrite fmap_app. simpl. apply NoDup_app. split_and!; [done| |apply NoDup_singleton].
    intros i (q & -> & Hq)%list_elem_of_fmap Hi%list_elem_of_singleton. apply Hnew. rewrite <- Hi. by apply planned_parts0.
  - rewrite fmap_app. simpl. rewrite total_snoc. split; [|done]. lia.
  - rewrite fmap_app. simpl. rewrite total_snoc. split; [|done]. lia.
  - rewrite fmap_app. simpl. rewrite total_snoc. split; [|done]. lia.
Qed.

Lemma accounted_push_part p a s : part_artifact p = a_id a → accounted (push_part p s) a.
Proof. intros Hp. left. simpl. rewrite fmap_app. apply elem_of_app. right. simpl. rewrite Hp. by left. Qed.

(** ** The operations *)

Lemma handled_push_text seen a format segments t s :
  a ∈ artifacts bundle → payload a = Text format t segments → a_id a ∉ seen → planned seen s →
  handled (a_id a :: seen) s a (push_text target a format t s).
Proof.
  intros Ha Hp Hnew Hs. unfold push_text.
  assert (∀ c m, blank (str c) = false → blank (str m) = false → handled (a_id a :: seen) s a (block_artifact c m a s)) as Hblock.
  { intros c m Hc Hm. apply handled_block; [done..|]. eapply planned_mono; [|done]. by intros ?; right. }
  destruct (checked_add u64_max (text_bytes s) (str_len t)) as [next|] eqn:Hn; [|by apply Hblock]. option_facts.
  destruct (_ <? _) eqn:Hlt; [by apply Hblock|]. bool_prop.
  set (f := if bool_decide (format = Markdown) && negb (supports_markdown target) then Plain else format).
  assert (∀ w, let s' := push_part (UntrustedText (a_id a) f t (source a)) (w (set_text_bytes (text_bytes s + str_len t) s)) in
    (w = id ∨ ∃ m, w = warn m) → handled (a_id a :: seen) s a s') as Hpush.
  { intros w s' Hw. assert (routed (UntrustedText (a_id a) f t (source a))) as Hr.
    { exists a. split_and!; [done..|]. by exists format, segments. }
    assert (planned (a_id a :: seen) (push_part (UntrustedText (a_id a) f t (source a)) (set_text_bytes (text_bytes s + str_len t) s))) as Hpl.
    { apply (planned_push_part seen (UntrustedText (a_id a) f t (source a)) s); [done..| |simpl; try done; try lia| |].
      - simpl. destruct s. unfold push_part, set_media, set_text_bytes. simpl. do 2 f_equal; unfold part_count, part_bytes; simpl; lia.
      - unfold part_count. simpl. pose proof (planned_objects _ _ Hs). lia.
      - unfold part_bytes. simpl. pose proof (planned_bytes _ _ Hs). lia. }
    split_and!; [| |left; by apply accounted_push_part].
    - destruct Hw as [->|[m ->]]; [done|]. apply (planned_warn _ m) in Hpl. by destruct s.
    - destruct Hw as [->|[m ->]]; split; simpl; try done; by apply prefix_app_r. }
  subst f. destruct (bool_decide (format = Markdown) && negb (supports_markdown target)).
  - apply (Hpush (warn _)). right. by eexists.
  - apply (Hpush id). by left.
Qed.

Lemma handled_push_blob seen a p b s :
  a ∈ artifacts bundle → a_id a ∉ seen → planned seen s → routed p → part_artifact p = a_id a → part_blob p = Some b →
  handled (a_id a :: seen) s a
    (let '(reserved, s) := reserve_direct_blob target a (b_byte_len b) s in if reserved : bool then push_part p s else s).
Proof.
  intros Ha Hnew Hs Hr Hp Hb.
  assert (handled (a_id a :: seen) s a (block_media_budget a s)) as Hblock.
  { apply handled_block; [done..|]. eapply planned_mono; [|done]. by intros ?; right. }
  unfold reserve_direct_blob.
  destruct (checked_add u32_max (media_objects s) 1) as [m|] eqn:Hm; [|done].
  destruct (checked_add u64_max (media_bytes s) (b_byte_len b)) as [n|] eqn:Hn; [|done]. option_facts.
  destruct (_ || _) eqn:Hlt; [done|]. bool_prop.
  assert (part_text p = 0) as Ht by (by destruct p).
  split_and!; [| |left; by apply accounted_push_part].
  - rewrite <- Hp. apply (planned_push_part seen p s); [done|done|by rewrite Hp| |..];
      rewrite ?Ht; unfold part_count, part_bytes; rewrite ?Hb; pose proof (planned_text _ _ Hs); try lia.
    destruct s. unfold push_part, set_media, set_text_bytes. simpl. by rewrite Z.add_0_r.
  - split; simpl; try done. by apply prefix_app_r.
Qed.

Lemma handled_extends seen s a s1 s2 : handled seen s a s1 → planned seen s2 → extends s1 s2 → handled seen s a s2.
Proof.
  intros (_ & H1 & Hh) Hp He. split_and!; [done|by etrans|]. destruct Hh as [Hh|Hh]; [left; by eapply accounted_extends|right].
  by apply (extends_reported _ _ He).
Qed.
Lemma handled_after seen s s1 a s2 : extends s s1 → handled seen s1 a s2 → handled seen s a s2.
Proof. intros He (Hp & H1 & Hh). split_and!; [done|by etrans|done]. Qed.

Lemma handled_try_push seen a r o deps s :
  a ∈ artifacts bundle → payload_blob (payload a) = Some r → o ∈ operations → planned seen s →
  (deps = [] ∨ ∃ t, t ∈ b_transforms s ∧ deps = [t_id t]) →
  handled seen s a (try_push_transform a o true deps s).2 ∧
  ∀ i, (try_push_transform a o true deps s).1 = Some i → ∃ t, t ∈ b_transforms (try_push_transform a o true deps s).2 ∧ t_id t = i.
Proof.
  intros Ha Hr Ho Hs Hd. unfold AttachmentPlan.try_push_transform. destruct (_ <=? _) eqn:Hl; bool_prop; simpl.
  - split; [|done]. destruct (transform_limit_reported s) eqn:Hrep; [by split_and!; [| |right]|].
    destruct (handled_block seen "transform_request_budget_exceeded" "Attachment preparation requires more transforms than the inspection policy permits." a s) as (Hp & He & _);
      [done..|]. split_and!; [|by destruct He; split|by right].
    destruct Hp. split; auto. simpl. intros _. eexists. split; [apply elem_of_app; right; by left|done].
  - split; [|intros i [= <-]; eexists; split; [apply elem_of_app; right; by left|done]]. split_and!.
    + destruct Hs. split; auto; simpl.
      * intros before t after Heq. destruct after as [|x after _] using rev_ind.
        { apply app_inj_tail in Heq as [<- <-]. exists a, r. split_and!; [done..|].
          unfold artifact_input_bytes. f_equal. f_equal. by destruct (payload a); simplify_eq/=. }
        rewrite app_comm_cons, app_assoc in Heq. apply app_inj_tail in Heq as [Heq _]. by eapply planned_transforms0.
      * rewrite len_app, len_cons, len_nil. lia.
    + split; simpl; try done. by apply prefix_app_r.
    + left. right. left. simpl. rewrite fmap_app. apply elem_of_app. right. by left.
Qed.

Lemma handled_push_transform seen a r o s :
  a ∈ artifacts bundle → payload_blob (payload a) = Some r → o ∈ operations → planned seen s →
  handled seen s a (push_transform a o true s).
Proof. intros. apply (handled_try_push seen a r o [] s); auto. Qed.

Lemma handled_pipeline seen a r o os deps s :
  a ∈ artifacts bundle → payload_blob (payload a) = Some r → Forall (λ o, o ∈ operations) (o :: os) → planned seen s →
  (deps = [] ∨ ∃ t, t ∈ b_transforms s ∧ deps = [t_id t]) →
  handled seen s a (push_transform_pipeline sha256_hex pl bundle target seed a (o :: os) true deps s).
Proof.
  intros Ha Hr. revert o deps s. induction os as [|o' os IH]; intros o deps s [Ho Hos]%Forall_cons Hs Hd; cbn [push_transform_pipeline].
  all: destruct (handled_try_push seen a r o deps s) as [Hh Hi]; [done..|].
  all: destruct (try_push_transform a o true deps s) as [[i|] s']; [|done]; [].
  - done.
  - simpl in Hh, Hi. eapply handled_after; [apply Hh|]. apply IH; [done|apply Hh|].
    right. destruct (Hi i eq_refl) as (t & Ht & <-). by exists t.
Qed.

Lemma direct_spec seen family nv a b v s :
  planned seen s →
  let '(d, s') := direct bundle target family nv a b v s in
  planned seen s' ∧ extends s s' ∧
  (d = true → accepts_media target family (media_type b) nv = true ∧ grade v = PayloadDecoded ∧ source_complete bundle a = true).
Proof.
  intros Hs. unfold direct, direct_media_evidence. destruct (accepts_media _ _ _ _); [|by split_and!].
  destruct (permits_direct_media (grade v)) eqn:Hg; simpl; [|split_and!; [by apply planned_warn|apply extends_warn|done]].
  destruct (source_complete bundle a) eqn:Hc; simpl; [|split_and!; [by apply planned_warn|apply extends_warn|done]].
  split_and!; [done..|]. intros _. split_and!; [done| |done]. by destruct (grade v).
Qed.

Section Artifact.
Context (seen : list text) (a : CanonicalArtifact) (s : PlanBuilder).
Context (Ha : a ∈ artifacts bundle) (Hnew : a_id a ∉ seen) (Hs : planned seen s).

Lemma planned_later t : planned seen t → planned (a_id a :: seen) t.
Proof. apply planned_mono. by intros ?; right. Qed.
Hint Resolve planned_later : core.

Lemma handled_push_media family b md v t :
  payload a = Media family b md v → planned seen t → grade v = PayloadDecoded → source_complete bundle a = true →
  accepts_media target family (media_type b) (bool_decide (family = Video)) = true →
  handled (a_id a :: seen) t a (push_media target a family b t).
Proof.
  intros Hp Ht Hg Hc Hacc. unfold push_media. apply (handled_push_blob seen a (DirectMedia (a_id a) family b (source a)) b t); try done.
  exists a. split_and!; [done..|]. by exists md, v.
Qed.

Lemma handled_push_opaque b t :
  payload a = Opaque b → planned seen t →
  (supports_native_pdf target = true ∧ native_pdf_evidence bundle a = true ∧ is_native_pdf a = true ∨
   unsupported policy = PreserveAsOpaqueReference ∧ is_executable bundle a = false) →
  handled (a_id a :: seen) t a (push_opaque target a b t).
Proof.
  intros Hp Ht Hr. unfold push_opaque. apply (handled_push_blob seen a (OpaqueReference (a_id a) b (source a)) b t); try done.
  exists a. by split_and!.
Qed.

Lemma handled_transform r o t :
  payload_blob (payload a) = Some r → o ∈ operations → planned (a_id a :: seen) t → handled (a_id a :: seen) t a (push_transform a o true t).
Proof. intros. by apply (handled_push_transform _ a r). Qed.

Lemma handled_transcript r t :
  payload_blob (payload a) = Some r → planned (a_id a :: seen) t →
  handled (a_id a :: seen) t a (push_video_transcript sha256_hex pl bundle target seed a t).
Proof.
  intros Hr Ht. unfold push_video_transcript. apply (handled_pipeline _ a r); [done..| |done|by left].
  repeat constructor; unfold operations; set_solver.
Qed.
Lemma handled_frames r t :
  payload_blob (payload a) = Some r → planned (a_id a :: seen) t →
  handled (a_id a :: seen) t a (push_video_frames sha256_hex pl bundle target policy seed a t).
Proof.
  intros Hr Ht. unfold push_video_frames. destruct (_ || _).
  - apply (handled_pipeline _ a r); [done..| |done|by left]. repeat constructor; unfold operations, sample_frames; set_solver.
  - apply (handled_transform r); [done| |done]. unfold operations, sample_frames. set_solver.
Qed.

Lemma handled_unavailable family v t : planned seen t → handled (a_id a :: seen) t a (block_direct_media_unavailable bundle a v family t).
Proof.
  intros Ht. unfold block_direct_media_unavailable.
  destruct (negb (permits_direct_media (grade v))); [apply handled_block; auto|].
  destruct (negb (source_complete bundle a)); [apply handled_block; auto|]. destruct family; apply handled_block; auto.
Qed.

Lemma in_operations o : existsb (λ x, match x, o with
    | TranscribeAudio, TranscribeAudio | ExtractVideoAudio, ExtractVideoAudio | OcrImage, OcrImage
    | ExtractDocumentText, ExtractDocumentText => true | _, _ => false end) operations = true → o ∈ operations.
Proof. unfold operations, sample_frames, rasterize_pages. destruct o; simpl; intros; try done; set_solver. Qed.

Lemma handled_plan_media family b md v :
  payload a = Media family b md v → handled (a_id a :: seen) s a (plan_artifact a s).
Proof.
  intros Hp. assert (payload_blob (payload a) = Some b) as Hr by by rewrite Hp.
  unfold AttachmentPlan.plan_artifact. rewrite Hp. unfold plan_image, plan_audio, plan_video.
  destruct family.
  - pose proof (direct_spec seen Image false a b v s Hs) as Hd.
    destruct (direct bundle target Image false a b v s) as [d t]. destruct Hd as (Ht & He & Hd).
    apply (handled_after _ _ t); [done|]. destruct (image policy), d;
      try (destruct Hd as (? & ? & ?); [done|]);
      try (apply (handled_transform b); [done|by apply in_operations|auto]); [by eapply handled_push_media|].
    eapply handled_after; [|apply (handled_transform b); [done|by apply in_operations|]]; by eapply handled_push_media.
  - pose proof (direct_spec seen Audio false a b v s Hs) as Hd.
    destruct (direct bundle target Audio false a b v s) as [d t]. destruct Hd as (Ht & He & Hd).
    apply (handled_after _ _ t); [done|]. destruct (audio policy), d;
      try (destruct Hd as (? & ? & ?); [done|]);
      try (apply (handled_transform b); [done|by apply in_operations|auto]);
      try (by eapply handled_push_media); try (by apply handled_unavailable).
    eapply handled_after; [|apply (handled_transform b); [done|by apply in_operations|]]; by eapply handled_push_media.
  - pose proof (direct_spec seen Video true a b v s Hs) as Hd.
    destruct (direct bundle target Video true a b v s) as [d t]. destruct Hd as (Ht & He & Hd).
    apply (handled_after _ _ t); [done|]. destruct (video policy), d;
      try (destruct Hd as (? & ? & ?); [done|]);
      try (by eapply handled_push_media); try (by apply handled_unavailable);
      try (apply (handled_frames b); auto); try (apply (handled_transcript b); auto).
    all: eapply handled_after; [|apply (handled_transcript b); [done|]]; apply (handled_frames b); auto.
Qed.

Lemma handled_plan_opaque b : payload a = Opaque b → handled (a_id a :: seen) s a (plan_artifact a s).
Proof.
  intros Hp. unfold AttachmentPlan.plan_artifact. rewrite Hp. unfold plan_opaque.
  destruct (is_executable bundle a) eqn:He; [apply handled_block; auto|].
  destruct (unsupported policy) eqn:Hu; [apply handled_block; auto|]. apply handled_push_opaque; auto.
Qed.

Lemma handled_plan_artifact : handled (a_id a :: seen) s a (plan_artifact a s).
Proof.
  destruct (payload a) as [f t segments|family b md v|b] eqn:Hp.
  - unfold AttachmentPlan.plan_artifact. rewrite Hp. by eapply handled_push_text.
  - by eapply handled_plan_media.
  - by eapply handled_plan_opaque.
Qed.
End Artifact.

(** ** Groups of artifacts *)

Notation ids l := (a_id <$> l).
Definition fresh (seen : list text) (l : list CanonicalArtifact) : Prop :=
  NoDup (ids l) ∧ ∀ a, a ∈ l → a ∈ artifacts bundle ∧ a_id a ∉ seen.

Lemma fresh_cons seen a l : fresh seen (a :: l) → a ∈ artifacts bundle ∧ a_id a ∉ seen ∧ fresh (a_id a :: seen) l.
Proof.
  intros [[Hn1 Hn]%NoDup_cons Hf]. destruct (Hf a) as [H1 H2]; [by left|]. split; [done|]. split; [done|]. split; [done|].
  intros x Hx. destruct (Hf x) as [H3 H4]; [by right|]. split; [done|]. intros [Heq|]%elem_of_cons; [|done].
  apply Hn1. rewrite <- Heq. by apply list_elem_of_fmap_2.
Qed.

(** One after the other, every artifact is handled. *)
Lemma handled_each (f : CanonicalArtifact → PlanBuilder → PlanBuilder) (g : list CanonicalArtifact → PlanBuilder → PlanBuilder) l seen s :
  (∀ s, g [] s = s) → (∀ a l s, g (a :: l) s = g l (f a s)) →
  (∀ a seen s, a ∈ l → a ∈ artifacts bundle → a_id a ∉ seen → planned seen s → handled (a_id a :: seen) s a (f a s)) →
  fresh seen l → planned seen s →
  planned (ids l ++ seen) (g l s) ∧ extends s (g l s) ∧
  ∀ a, a ∈ l → accounted (g l s) a ∨ transform_limit_reported (g l s) = true.
Proof.
  intros Hnil Hcons. revert seen s. induction l as [|a l IH]; intros seen s Hf Hl Hs.
  { rewrite Hnil. split_and!; [done..|]. by intros a ?%elem_of_nil. }
  rewrite Hcons. apply fresh_cons in Hl as (Ha & Hnew & Hl).
  destruct (Hf a seen s) as (H1 & H2 & H3); [by left|done..|].
  destruct (IH (a_id a :: seen) (f a s)) as (H4 & H5 & H6); [|done..|].
  { intros x seen' s' Hx. apply Hf. by right. }
  split_and!.
  - eapply planned_mono; [|done]. intros x. rewrite fmap_cons, !elem_of_app, !elem_of_cons. tauto.
  - by etrans.
  - intros x [->|Hx]%elem_of_cons; [|auto]. destruct H3 as [H3|H3]; [left; by eapply accounted_extends|right].
    by apply (extends_reported _ _ H5).
Qed.

(** What a group of artifacts of one object achieves: each of them, or one for all, is accounted for. *)
Definition group_handled (whole : bool) (seen : list text) (l : list CanonicalArtifact) (s s' : PlanBuilder) : Prop :=
  planned (ids l ++ seen) s' ∧ extends s s' ∧
  if whole then ∃ a, a ∈ l ∧ (accounted s' a ∨ transform_limit_reported s' = true)
  else ∀ a, a ∈ l → accounted s' a ∨ transform_limit_reported s' = true.

Lemma group_handled_one seen l a s s' : a ∈ l → handled (a_id a :: seen) s a s' → group_handled true seen l s s'.
Proof.
  intros Ha (H1 & H2 & H3). split_and!; [|done|by exists a]. eapply planned_mono; [|done].
  intros x [->|Hx]%elem_of_cons; apply elem_of_app; [left; by apply list_elem_of_fmap_2|by right].
Qed.
Lemma group_handled_after whole seen l s s1 s' : extends s s1 → group_handled whole seen l s1 s' → group_handled whole seen l s s'.
Proof. intros He (H1 & H2 & H3). split_and!; [done|by etrans|done]. Qed.

Lemma fresh_sublist seen k l : k `sublist_of` l → fresh seen l → fresh seen k.
Proof.
  intros Hk [Hn Hf]. split; [|intros a Ha; apply Hf; by eapply sublist_subseteq].
  eapply sublist_NoDup; [done|]. by apply fmap_sublist.
Qed.

Lemma filter_sublist {A} (f : A → bool) (l : list A) : List.filter f l `sublist_of` l.
Proof. induction l as [|x l IH]; simpl; [done|]. destruct (f x); by constructor. Qed.

Lemma handled_push_texts seen l k s :
  k ≠ [] → k `sublist_of` l → (∀ a, a ∈ k → is_text a = true) → fresh seen l → planned seen s →
  group_handled true seen l s (push_text_artifacts target k s).
Proof.
  intros Hne Hk Htext Hl Hs.
  destruct (handled_each (λ a s, match payload a with Text format t _ => push_text target a format t s | _ => s end)
    (push_text_artifacts target) k seen s) as (H1 & H2 & H3); [done|done| |by eapply fresh_sublist|done|].
  { intros a seen' s' Ha Hin Hnew Hs'. specialize (Htext a Ha). unfold is_text in Htext.
    destruct (payload a) eqn:Hp; try done. by eapply handled_push_text. }
  split_and!; [|done|].
  - eapply planned_mono; [|done]. intros x [Hx|Hx]%elem_of_app; apply elem_of_app; [left|by right].
    eapply sublist_subseteq; [|done]. by apply fmap_sublist.
  - destruct k as [|a k]; [done|]. exists a. split; [|apply H3; by left]. eapply sublist_subseteq; [done|by left].
Qed.

Lemma group_plan_pdf seen l s :
  l ≠ [] → fresh seen l → planned seen s → group_handled true seen l s (plan_pdf sha256_hex pl bundle target policy seed l s).
Proof.
  intros Hne Hl Hs. unfold plan_pdf. set (texts := List.filter is_text l). set (native := List.find is_native_pdf l).
  set (s1 := warn_partial_pdf bundle target native s).
  assert (planned seen s1 ∧ extends s s1) as [Hs1 He1].
  { subst s1. unfold warn_partial_pdf. destruct native; [|done]. destruct (_ && _); [|done]. split; [by apply planned_warn|apply extends_warn]. }
  apply (group_handled_after _ _ _ _ s1); [done|]. clearbody s1. clear s Hs He1.
  set (representative := pdf_representative texts native l).
  assert (∀ t, t ∈ texts → is_text t = true) as Htexts.
  { intros t Ht. subst texts. by apply list_elem_of_In, filter_In in Ht as [_ ?]. }
  assert (native_ready bundle target native s1 = true → group_handled true seen l s1 (push_native target native s1)) as Hnative.
  { intros Hr. destruct native as [a|] eqn:Hn; [|done]. apply find_some in Hn as [Hin Hpdf]. apply list_elem_of_In in Hin.
    apply (group_handled_one _ _ a); [done|]. destruct (proj2 Hl a Hin) as [Ha Hnew]. simpl in Hr. bool_prop.
    unfold push_native, push_pdf_native. destruct (payload a) eqn:Hp; try done.
    apply handled_push_opaque; [done..|]. by left. }
  assert (texts ≠ [] → group_handled true seen l s1 (push_text_artifacts target texts s1)) as Htext.
  { intros Ht. apply handled_push_texts; [done| |done..]. apply filter_sublist. }
  assert (texts = [] → ∃ a, representative = Some a ∧ ∀ o, o ∈ operations → group_handled true seen l s1 (push_transform a o true s1)) as Hrep.
  { intros Ht. assert (∃ a, representative = Some a ∧ a ∈ l) as (a & Hr & Hin).
    { subst representative. unfold pdf_representative. rewrite Ht. simpl. destruct native as [a|] eqn:Hn.
      - exists a. split; [done|]. apply list_elem_of_In. by apply find_some in Hn as [? _].
      - destruct l as [|a l']; [done|]. exists a. split; [done|by left]. }
    exists a. split; [done|]. intros o Ho. apply (group_handled_one _ _ a); [done|]. destruct (proj2 Hl a Hin) as [Ha Hnew].
    assert (∃ r, payload_blob (payload a) = Some r) as [r Hpr].
    { destruct (payload a) eqn:Hp; [|by eexists..]. assert (a ∈ texts) as Hbad; [|by rewrite Ht in Hbad; apply elem_of_nil in Hbad].
      apply list_elem_of_In, filter_In. rewrite <- list_elem_of_In. unfold is_text. by rewrite Hp. }
    apply (handled_push_transform _ a r); [done..|]. by apply planned_later. }
  assert (is_Some representative) as [a0 Hsome].
  { destruct (decide (texts = [])) as [Ht|Ht]; [by destruct (Hrep Ht) as (a & -> & _)|]. subst representative. unfold pdf_representative. by destruct texts. }
  assert (∀ o, o ∈ operations → texts = [] → ∀ a, representative = Some a → group_handled true seen l s1 (push_transform a o true s1)) as Htr.
  { intros o Ho Ht a Hr. destruct (Hrep Ht) as (a' & Hr' & Hh). rewrite Hr in Hr'. injection Hr' as <-. by apply Hh. }
  rewrite Hsome in *.
  assert (group_handled true seen l s1 (plan_pdf_fallback sha256_hex pl bundle target seed texts native (Some a0) s1)) as Hfall.
  { unfold plan_pdf_fallback. case_bool_decide as Ht; simpl; [|by apply Htext; intros ->]. apply nil_length_inv in Ht.
    destruct (native_ready bundle target native s1); [by apply Hnative|]. destruct (accepts_any_image target); apply Htr; try done;
      unfold operations, rasterize_pages; set_solver. }
  case_bool_decide as Ht; cbn [negb andb].
  - apply nil_length_inv in Ht. destruct (document policy); try (destruct (native_ready bundle target native s1); [by apply Hnative|done]).
    apply Htr; [|done..]. unfold operations. set_solver.
  - assert (texts ≠ []) as Hne' by by intros ->. destruct (document policy).
    + destruct (native_ready bundle target native s1); [by apply Hnative|]. destruct (text_artifacts_fit target texts s1); [by apply Htext|done].
    + destruct (text_artifacts_fit target texts s1); [by apply Htext|]. destruct (native_ready bundle target native s1); [by apply Hnative|done].
    + by apply Htext.
Qed.

(** ** Objects *)

Lemma fresh_perm seen l k : l ≡ₚ k → fresh seen l → fresh seen k.
Proof. intros Hp [Hn Hf]. split; [by rewrite <- Hp|]. intros a Ha. apply Hf. by rewrite Hp. Qed.

(** An object whose artifacts are prepared one by one *)
Definition status_refused (st : ObjectStatus) : bool :=
  match st with StatusBlocked _ | StatusMalformed _ | StatusUnsupported _ => true | _ => false end.
Definition whole (o : ObjectRecord) (l : list CanonicalArtifact) : bool :=
  status_refused (status o) || bool_decide (selected (detection o) = Some Pdf) || existsb artifact_is_pdf l.

Lemma block_status_spec seen st l s :
  l ≠ [] → fresh seen l → planned seen s →
  match block_object_status st l s with
  | (true, s') => status_refused st = true ∧ group_handled true seen l s s'
  | (false, s') => status_refused st = false ∧ s' = s
  end.
Proof.
  intros Hne Hl Hs. destruct l as [|a l]; [done|]. destruct (proj2 Hl a ltac:(by left)) as [Ha Hnew].
  assert (∀ c m, blank (str c) = false → blank m = false →
    group_handled true seen (a :: l) s (block (str c) m (Some (a_id a)) (Some (source a)) s)) as H.
  { intros c m Hc Hm. apply (group_handled_one _ _ a); [by left|]. split_and!; [|apply extends_block|].
    - apply planned_block; [|by apply planned_later]. split_and!; [done..|]. left. by exists a.
    - left. right. right. simpl. rewrite fmap_app. apply elem_of_app. right. by left. }
  destruct st; simpl; (split; [done|]); try done; (apply H; [done|apply (blank_false _ 65); [by left|done]]).
Qed.

Lemma existsb_perm {A} (f : A → bool) l k : l ≡ₚ k → existsb f l = existsb f k.
Proof. intros Hp. induction Hp; simpl; congruence || (rewrite !orb_assoc, (orb_comm (f _)); done). Qed.

Lemma group_plan_object seen o l s :
  l ≠ [] → fresh seen l → planned seen s →
  group_handled (whole o l) seen l s (plan_object sha256_hex pl bundle target policy seed o l s).
Proof.
  intros Hne Hl Hs. unfold plan_object. set (k := sort_by key_cmp (artifact_sort_key sha256_hex) l).
  assert (k ≡ₚ l) as Hp by apply sort_by_perm.
  assert (∀ w s', group_handled w seen k s s' → group_handled w seen l s s') as Hback.
  { intros w s' (H1 & H2 & H3). split_and!; [|done|].
    - eapply planned_mono; [|done]. intros x. by rewrite Hp.
    - destruct w; [destruct H3 as (a & Ha & H3); exists a; by rewrite <- Hp|]. intros a Ha. apply H3. by rewrite Hp. }
  assert (k ≠ []) as Hnek. { intros Hk. rewrite Hk in Hp. by apply Permutation_nil in Hp. }
  assert (fresh seen k) as Hlk by by apply (fresh_perm _ l).
  apply Hback. clear Hback.
  pose proof (block_status_spec seen (status o) k s Hnek Hlk Hs) as Hb. unfold whole.
  rewrite <- (existsb_perm artifact_is_pdf k l) by done.
  destruct (block_object_status (status o) k s) as [[] s'], Hb as [-> Hb]; [done|subst s'; simpl].
  destruct (_ || _); [by apply group_plan_pdf|].
  apply (handled_each plan_artifact (plan_artifacts sha256_hex pl bundle target policy seed)); try done.
  intros a seen' s' _ Ha Hnew Hs'. by apply handled_plan_artifact.
Qed.

(** The groups of artifacts are those of each source, in order. *)
Lemma group_artifacts_spec l s :
  group_artifacts l !! s = match List.filter (λ a, bool_decide (source a = s)) l with [] => None | g => Some g end.
Proof.
  unfold group_artifacts. induction l as [|a l IH] using rev_ind; [simpl; by rewrite lookup_empty|].
  rewrite foldl_app, List.filter_app. simpl. destruct (decide (source a = s)) as [<-|Hs].
  - rewrite lookup_insert_eq, bool_decide_eq_true_2, IH by done. by destruct (List.filter _ l).
  - rewrite lookup_insert_ne, bool_decide_eq_false_2, app_nil_r by done. apply IH.
Qed.

Definition of_source (l : list CanonicalArtifact) (s : text) : list CanonicalArtifact := List.filter (λ a, bool_decide (source a = s)) l.
Lemma elem_of_source l s a : a ∈ of_source l s ↔ a ∈ l ∧ source a = s.
Proof. unfold of_source. by rewrite list_elem_of_In, filter_In, <- list_elem_of_In, bool_decide_eq_true. Qed.

Lemma of_source_perm l k s : l ≡ₚ k → of_source l s ≡ₚ of_source k s.
Proof.
  unfold of_source. intros Hp. induction Hp as [|x l k _ IH|x y l|l k m _ IH1 _ IH2]; simpl; [done| | |by etrans].
  - destruct (bool_decide _); [by constructor|done].
  - destruct (bool_decide _), (bool_decide _); first [apply perm_swap | done].
Qed.

(** The plan says something of each artifact, or of the object when it is planned as a whole,
    or that there are too many transforms. *)
Definition object_accounted (l : list CanonicalArtifact) (s : PlanBuilder) (o : ObjectRecord) : Prop :=
  let group := of_source l (o_id o) in
  group = [] ∨
  if whole o group then ∃ a, a ∈ group ∧ (accounted s a ∨ transform_limit_reported s = true)
  else ∀ a, a ∈ group → accounted s a ∨ transform_limit_reported s = true.

Lemma object_accounted_extends l s s' o : extends s s' → object_accounted l s o → object_accounted l s' o.
Proof.
  intros He. assert (∀ a, accounted s a ∨ transform_limit_reported s = true → accounted s' a ∨ transform_limit_reported s' = true) as H.
  { intros a [Ha|Ha]; [left; by eapply accounted_extends|right]. by apply (extends_reported _ _ He). }
  unfold object_accounted. intros [?|Hw]; [by left|right]. destruct (whole _ _); [|by auto].
  destruct Hw as (a & Hin & Ha). exists a. auto.
Qed.

Lemma plan_objects_spec l os groups seen s :
  NoDup (ids l) → (∀ a, a ∈ l → a ∈ artifacts bundle) → NoDup (o_id <$> os) →
  (∀ o, o ∈ os → groups !! o_id o = group_artifacts l !! o_id o) →
  (∀ a, a ∈ l → source a ∈ (o_id <$> os) → a_id a ∉ seen) → planned seen s →
  ∃ seen', let s' := plan_objects sha256_hex pl bundle target policy seed os groups s in
    planned seen' s' ∧ extends s s' ∧ ∀ o, o ∈ os → object_accounted l s' o.
Proof.
  intros Hn Hl. revert groups seen s. induction os as [|o os IH]; intros groups seen s Hos Hg Hnew Hs; simpl.
  { exists seen. split_and!; [done..|]. by intros o ?%elem_of_nil. }
  apply NoDup_cons in Hos as [Ho Hos].
  assert (∀ a, a ∈ l → source a ∈ (o_id <$> os) → source a ∈ (o_id <$> o :: os)) as Hlater by (intros a _ H; by right).
  rewrite (Hg o ltac:(by left)), group_artifacts_spec. fold (of_source l (o_id o)).
  destruct (of_source l (o_id o)) as [|x k] eqn:Hk.
  - destruct (IH groups seen s) as (seen' & H1 & H2 & H3); [done|intros; apply Hg; by right|auto|done|].
    exists seen'. split_and!; [done..|]. intros o' [->|Hin]%elem_of_cons; [by left|auto].
  - rewrite <- Hk in *. assert (∀ a, a ∈ of_source l (o_id o) → a ∈ l ∧ source a = o_id o) as Hof by by intros a ?%elem_of_source.
    assert (fresh seen (of_source l (o_id o))) as Hfresh.
    { split; [eapply sublist_NoDup; [exact Hn|apply fmap_sublist, filter_sublist]|]. intros a [Ha Hsrc]%Hof. split; [auto|].
      apply Hnew; [done|]. rewrite Hsrc. by left. }
    destruct (group_plan_object seen o (of_source l (o_id o)) s) as (H1 & H2 & H3); [by rewrite Hk|done..|].
    destruct (IH (delete (o_id o) groups) (ids (of_source l (o_id o)) ++ seen)
      (plan_object sha256_hex pl bundle target policy seed o (of_source l (o_id o)) s)) as (seen' & H4 & H5 & H6); [done| | |done|].
    + intros o' Hin. rewrite lookup_delete_ne; [apply Hg; by right|]. intros Heq. apply Ho. rewrite Heq. by apply list_elem_of_fmap_2.
    + intros a Ha Hsrc [Hin|Hin]%elem_of_app; [|by apply (Hnew a Ha (Hlater a Ha Hsrc))]; [].
      apply list_elem_of_fmap in Hin as (a' & Hid & [Ha' Hs']%Hof). apply Ho.
      assert (a = a') as -> by by apply (unique_key a_id l). by rewrite <- Hs'.
    + exists seen'. split_and!; [done|by etrans|]. intros o' [->|Hin]%elem_of_cons; [|auto].
      apply (object_accounted_extends _ _ _ _ H5). by right.
Qed.

Lemma build_spec ordered :
  graph_ok (graph bundle) → NoDup (ids (artifacts bundle)) → ordered ≡ₚ artifacts bundle →
  let s := build sha256_hex pl bundle target policy seed ordered in
  (∃ seen, planned seen s) ∧ ∀ o, o ∈ objects (graph bundle) → object_accounted ordered s o.
Proof.
  intros Hg Hn Hp. unfold build.
  destruct (plan_objects_spec ordered (objects (graph bundle)) (group_artifacts ordered) [] new_builder) as (seen & H1 & H2 & H3).
  - by rewrite Hp.
  - intros a. by rewrite Hp.
  - by apply graph_ids.
  - done.
  - by intros a _ _ ?%elem_of_nil.
  - apply planned_new.
  - destruct (_ && _); [|by split; [exists seen|]]. split.
    + exists seen. apply planned_block; [|done]. split_and!; [done..|by right].
    + intros o Ho. eapply object_accounted_extends; [apply extends_block|auto].
Qed.

(** ** The finished plan is valid *)

Record ready : Prop := {
  ready_digests x : is_sha256_text (sha256_hex x) = true;
  ready_bundle : bundle_validate sha256_hex bundle = Ok tt;
  ready_target : target_validate target = Ok tt;
  ready_ranges : max_text_bytes target ≤ u64_max ∧ max_media_objects target ≤ u32_max ∧ max_media_bytes target ≤ u64_max ∧
    limit ≤ u32_max;
  ready_planner : 0 < transform_timeout_ms pl ∧ 0 < video_frame_limit pl ∧ 0 < pdf_page_limit pl ∧ 0 < pdf_page_megapixels pl;
  ready_job : blank (g_job_id (graph bundle)) = false;
  ready_ids a : a ∈ artifacts bundle → blank (a_id a) = false;
  ready_bytes a r : a ∈ artifacts bundle → payload_blob (payload a) = Some r → 0 < b_byte_len r;
}.

Lemma hex_not_blank s : is_sha256_text s = true → blank s = false.
Proof.
  unfold is_sha256_text. intros [Hl%Z.eqb_eq Hall]%andb_true_iff. destruct s as [|c s]; [done|].
  apply (blank_false _ c); [by left|]. rewrite forallb_forall in Hall.
  destruct (encode_utf8_cons c) as (x & l & Hc). specialize (Hall x). simpl in Hall. rewrite Hc in Hall.
  specialize (Hall (or_introl eq_refl)). apply andb_true_iff in Hall as [Hx _].
  assert (c = x) as ->.
  { unfold is_ascii_hexdigit, in_range in Hx. assert (x < 128) by (bool_prop; lia).
    pose proof (encode_utf8_head c x) as Hh. rewrite Hc in Hh. by apply Hh. }
  unfold is_ascii_hexdigit, in_range in Hx. unfold is_whitespace. bool_prop. apply not_true_is_false. intros Hw. bool_prop. lia.
Qed.

Context (R : ready).

Lemma ready_bundle_ok : bundle_ok sha256_hex bundle.
Proof. apply bundle_validate_ok, R. Qed.
Lemma ready_source a : a ∈ artifacts bundle → blank (source a) = false.
Proof.
  intros Ha. destruct (bundle_artifacts _ _ ready_bundle_ok a Ha) as [_ (o & -> & Ho)%list_elem_of_fmap].
  destruct (bundle_bytes _ _ ready_bundle_ok o Ho) as (bytes & _ & -> & _). apply hex_not_blank, R.
Qed.
Lemma ready_blob a r : a ∈ artifacts bundle → payload_blob (payload a) = Some r →
  b_object_id r = source a ∧ b_sha256 r = source a ∧ blank (media_type r) = false ∧ 0 < b_byte_len r.
Proof.
  intros Ha Hr. destruct (bundle_artifacts _ _ ready_bundle_ok a Ha) as [Hv _].
  destruct (artifact_blob_ok a r Hv Hr) as (H1 & H2 & H3). split_and!; [done..|]. by apply (ready_bytes R a).
Qed.

Lemma routed_blob p b : routed p → part_blob p = Some b →
  ∃ a, a ∈ artifacts bundle ∧ part_artifact p = a_id a ∧ payload_blob (payload a) = Some b ∧
    match p with UntrustedText _ _ _ s | DirectMedia _ _ _ s | OpaqueReference _ _ s => s = source a end.
Proof.
  intros (a & Ha & Hid & Hp) Hb. exists a. split; [done|]. split; [done|]. destruct p as [|id f x src|id x src]; [done|..];
    injection Hb as ->.
  - destruct Hp as (-> & md & v & -> & _). done.
  - destruct Hp as (-> & -> & _). done.
Qed.

Lemma part_sizes p : routed p → 0 ≤ part_text p ∧ 0 ≤ part_count p ∧ 0 ≤ part_bytes p.
Proof.
  intros Hp. unfold part_count, part_bytes. split_and!.
  - destruct p; simpl; auto; lia.
  - by destruct (part_blob p).
  - destruct (part_blob p) as [b|] eqn:Hb; [|done]. destruct (routed_blob p b Hp Hb) as (a & Ha & _ & Hr & _).
    destruct (ready_blob a b Ha Hr) as (_ & _ & _ & H). lia.
Qed.

Lemma parts_nonneg (f : PreparedPart → Z) ps : (∀ p, p ∈ ps → 0 ≤ f p) → 0 ≤ total (f <$> ps).
Proof. intros H. apply total_nonneg. intros n (p & -> & Hp)%list_elem_of_fmap. auto. Qed.

Lemma tally_part_Ok t p :
  routed p → part_artifact p ∉ prepared t →
  direct_text t + part_text p ≤ u64_max → direct_objects t + part_count p ≤ u32_max → direct_bytes t + part_bytes p ≤ u64_max →
  tally_part t p = Ok {| prepared := {[part_artifact p]} ∪ prepared t; direct_text := direct_text t + part_text p;
                         direct_objects := direct_objects t + part_count p; direct_bytes := direct_bytes t + part_bytes p |}.
Proof.
  intros Hr Hnew H1 H2 H3. unfold part_count, part_bytes in *.
  assert (blank (part_artifact p) = false ∧ blank (match p with UntrustedText _ _ _ s | DirectMedia _ _ _ s | OpaqueReference _ _ s => s end) = false) as [Hid Hsrc].
  { destruct Hr as (a & Ha & -> & Hm). split; [by apply (ready_ids R)|]. destruct p; destruct Hm as [-> _]; by apply ready_source. }
  assert (bool_decide (part_artifact p ∈ prepared t) = false) as Hnew' by by apply bool_decide_eq_false_2.
  unfold tally_part. destruct (part_blob p) as [b|] eqn:Hb.
  - destruct (routed_blob p b Hr Hb) as (a & Ha & Hid' & Hp & Hs). destruct (ready_blob a b Ha Hp) as (B1 & B2 & B3 & _).
    assert (validate_prepared_blob (part_artifact p) (source a) b = Ok tt) as Hv.
    { apply fail_if_false. by rewrite !bool_decide_eq_true_2, B3 by congruence. }
    destruct p as [|id f x src|id x src]; [done|..]; injection Hb as ->; simpl in *; subst src; rewrite Hv;
      cbn [mbind result_bind]; rewrite (need_is (checked_add u32_max _ _) _ (direct_objects t + 1)) by (apply checked_add_is; lia);
      cbn [mbind result_bind]; rewrite (need_is (checked_add u64_max _ _) _ (direct_bytes t + b_byte_len b)) by (apply checked_add_is; lia);
      cbn [mbind result_bind prepared direct_text direct_objects direct_bytes]; rewrite Hid, Hnew'; cbn;
      by rewrite Z.add_0_r.
  - destruct p as [id f x src| |]; [|done..]. simpl in *. rewrite (fail_if_false (blank src)) by done.
    cbn [mbind result_bind]. rewrite (need_is _ _ (direct_text t + str_len x)) by (apply checked_add_is; lia).
    cbn [mbind result_bind prepared direct_text direct_objects direct_bytes]. rewrite Hid, Hnew'. cbn. by rewrite !Z.add_0_r.
Qed.

Lemma tally_parts_Ok ps t :
  (∀ p, p ∈ ps → routed p ∧ part_artifact p ∉ prepared t) → NoDup (part_artifact <$> ps) →
  direct_text t + total (part_text <$> ps) ≤ u64_max → direct_objects t + total (part_count <$> ps) ≤ u32_max →
  direct_bytes t + total (part_bytes <$> ps) ≤ u64_max →
  ∃ t', tally_parts t ps = Ok t' ∧ direct_text t' = direct_text t + total (part_text <$> ps) ∧
    direct_objects t' = direct_objects t + total (part_count <$> ps) ∧ direct_bytes t' = direct_bytes t + total (part_bytes <$> ps).
Proof.
  revert t. induction ps as [|p ps IH]; intros t Hps Hn H1 H2 H3.
  { exists t. simpl. unfold total. simpl. split_and!; [done|lia..]. }
  rewrite !fmap_cons in *. rewrite !total_cons in *. apply NoDup_cons in Hn as [Hp Hn].
  destruct (Hps p) as [Hr Hnew]; [by left|].
  assert (∀ f, (∀ q, routed q → 0 ≤ f q) → 0 ≤ total (f <$> ps)) as Hnn.
  { intros f Hf. apply parts_nonneg. intros q Hq. apply Hf, Hps. by right. }
  pose proof (Hnn part_text ltac:(intros; by apply part_sizes)). pose proof (Hnn part_count ltac:(intros; by apply part_sizes)).
  pose proof (Hnn part_bytes ltac:(intros; by apply part_sizes)).
  set (t1 := {| prepared := {[part_artifact p]} ∪ prepared t; direct_text := direct_text t + part_text p;
                direct_objects := direct_objects t + part_count p; direct_bytes := direct_bytes t + part_bytes p |}).
  assert (tally_part t p = Ok t1) as Ht1 by (apply tally_part_Ok; [done..|lia|lia|lia]).
  cbn [tally_parts]. rewrite Ht1. cbn [mbind result_bind].
  destruct (IH t1) as (t' & Ht' & E1 & E2 & E3); simpl in *; [|done|lia..|].
  - intros q Hq. destruct (Hps q) as [Hq1 Hq2]; [by right|]. split; [done|].
    assert (part_artifact q ≠ part_artifact p); [|set_solver]. intros Heq. apply Hp. rewrite <- Heq. by apply list_elem_of_fmap_2.
  - exists t'. split_and!; [done|lia..].
Qed.

Definition aggregate : PreparationAggregateLimits := {|
  all_text_bytes := max_text_bytes target; all_media_objects := max_media_objects target; all_media_bytes := max_media_bytes target;
  all_transform_requests := limit |}.

Lemma target_positive : 0 < max_text_bytes target ∧ 0 < max_media_objects target ∧ 0 < max_media_bytes target ∧
  blank (target_id target) = false ∧ blank (fingerprint target) = false.
Proof.
  pose proof (ready_target R) as H. unfold target_validate in H. contract_steps H. destruct range as (? & ? & ? & _).
  bool_prop. split_and!; (done || lia).
Qed.
Lemma limit_positive : 0 < limit.
Proof.
  pose proof (graph_limits _ (bundle_graph _ _ ready_bundle_ok)) as H. unfold limits_validate in H.
  destruct (Limits.validate (limits (graph bundle))) as [u|[]] eqn:Hv; [|done]. unfold Limits.validate in Hv.
  sm_unfold. destruct range as (_ & _ & _ & ?). repeat case_match; simplify_eq. bool_prop. lia.
Qed.

Lemma requested_named before t : requested before t → blank (t_id t) = false.
Proof. intros (a & r & _ & _ & _ & _ & ->). simpl. by apply (blank_false _ 116); [left|]. Qed.

Lemma dependencies_Ok before t :
  requested before t → (∀ t', t' ∈ before → blank (t_id t') = false ∧ t_id t' ≠ t_id t) →
  dependencies_validate (t_id t) ({[t_id t]} ∪ list_to_set (t_id <$> before)) ∅ (depends_on t) = Ok tt.
Proof.
  intros (a & r & _ & _ & _ & Hd & _) Hbefore. destruct Hd as [->|(t' & Ht' & ->)]; [done|].
  destruct (Hbefore t' Ht') as [Hb Hne]. cbn [dependencies_validate]. rewrite (fail_if_false (blank _)) by done.
  cbn [mbind result_bind]. rewrite (fail_if_false (bool_decide (t_id t' ∈ (∅ : gset text)))) by (apply bool_decide_eq_false; set_solver).
  cbn [mbind result_bind]. rewrite (fail_if_false (bool_decide (t_id t' = t_id t))) by by apply bool_decide_eq_false.
  cbn [mbind result_bind]. rewrite fail_if_false; [done|]. apply negb_false_iff, bool_decide_eq_true, elem_of_union_r, elem_of_list_to_set.
  by apply list_elem_of_fmap_2.
Qed.

Lemma transform_validate_Ok before t :
  requested before t → (∀ t', t' ∈ before → blank (t_id t') = false ∧ t_id t' ≠ t_id t) →
  transform_validate aggregate (list_to_set (t_id <$> before)) t = Ok (list_to_set (t_id <$> before ++ [t])).
Proof.
  intros Ht Hbefore. pose proof (dependencies_Ok before t Ht Hbefore) as Hd. pose proof (requested_named before t Ht) as Hn.
  unfold transform_validate. destruct Ht as (a & r & Ha & Hr & Ho & _ & Heq).
  destruct (ready_blob a r Ha Hr) as (_ & _ & _ & Hlen). destruct target_positive as (H1 & H2 & H3 & _).
  destruct (ready_planner R) as (P1 & P2 & P3 & _).
  rewrite (fail_if_false (blank _ || _ || _)); [|rewrite Hn, Heq; simpl; by rewrite (ready_ids R a Ha), (ready_source a Ha)].
  cbn [mbind result_bind]. rewrite (fail_if_false (bool_decide (t_id t ∈ _))).
  2: { apply bool_decide_eq_false. intros (t' & Hid & Hin)%elem_of_list_to_set%list_elem_of_fmap. by destruct (Hbefore t' Hin). }
  cbn [mbind result_bind]. rewrite Hd. cbn [mbind result_bind].
  rewrite (fail_if_false (_ || _ || _)).
  2: { rewrite Heq. simpl. rewrite !orb_false_iff, !Z.eqb_neq. split_and!; [lia|destruct (makes_text _); lia|lia]. }
  cbn [mbind result_bind]. rewrite (fail_if_false (_ <? _)).
  2: { rewrite Heq. simpl. unfold aggregate_output_limit. simpl. destruct (makes_text _); apply Z.ltb_irrefl. }
  cbn [mbind result_bind].
  assert (match operation t with
    | SampleVideoFrames n => fail_if ((n =? 0) || (all_media_objects aggregate <? n))
        (InvalidPreparationPlan (str "transform request " ++ t_id t ++ str " has an invalid frame limit"))
    | RasterizePdfPages n _ => fail_if ((n =? 0) || (all_media_objects aggregate <? n))
        (InvalidPreparationPlan (str "transform request " ++ t_id t ++ str " has an invalid page limit"))
    | _ => Ok tt end = Ok tt) as ->.
  { unfold operations, sample_frames, rasterize_pages in Ho. rewrite !elem_of_cons, elem_of_nil in Ho.
    destruct Ho as [->|[->|[->|[->|[->|[->|[]]]]]]]; try done; apply fail_if_false; simpl; rewrite orb_false_iff, Z.eqb_neq, Z.ltb_ge; lia. }
  cbn [mbind result_bind]. f_equal. rewrite fmap_app. apply set_eq. intros x. rewrite elem_of_union, !elem_of_list_to_set, elem_of_app. simpl.
  rewrite list_elem_of_singleton, elem_of_singleton. tauto.
Qed.

Lemma transforms_validate_Ok before after :
  (∀ before' t after', before ++ after = before' ++ t :: after' → requested before' t) → NoDup (t_id <$> before ++ after) →
  transforms_validate aggregate (list_to_set (t_id <$> before)) after = Ok tt.
Proof.
  revert before. induction after as [|t after IH]; intros before Hr Hn; [done|]. cbn [transforms_validate].
  rewrite transform_validate_Ok.
  - cbn [mbind result_bind]. apply IH; rewrite <- app_assoc; done.
  - by apply (Hr before t after).
  - intros t' Hin. split.
    + apply list_elem_of_split in Hin as (l1 & l2 & ->). apply (requested_named l1), (Hr l1 t' (l2 ++ t :: after)). by rewrite <- app_assoc.
    + intros Heq. rewrite fmap_app in Hn. apply NoDup_app in Hn as (_ & Hn & _). apply (Hn (t_id t')); [by apply list_elem_of_fmap_2|].
      rewrite fmap_cons, Heq. by left.
Qed.

Context (Hseed : is_sha256_text seed = true).
Notation finished_plan := (finished_plan bundle target seed).

Lemma plan_validate_Ok seen s : planned seen s → NoDup (t_id <$> b_transforms s) → plan_validate (finished_plan s) = Ok tt.
Proof.
  intros Hs Hn. destruct target_positive as (T1 & T2 & T3 & Hid & Hfp). pose proof limit_positive as Hlim.
  destruct (ready_ranges R) as (R1 & R2 & R3 & R4).
  destruct (planned_text _ _ Hs) as [E1 L1], (planned_objects _ _ Hs) as [E2 L2], (planned_bytes _ _ Hs) as [E3 L3].
  destruct (tally_parts_Ok (b_parts s) {| prepared := ∅; direct_text := 0; direct_objects := 0; direct_bytes := 0 |})
    as (t & Ht & S1 & S2 & S3); [|by apply (planned_once _ _ Hs)|cbn; lia..|].
  { intros p Hp. split; [by apply (planned_parts _ _ Hs)|]. set_solver. }
  unfold plan_validate. cbn [p_schema p_target_id target_fingerprint source_job_id plan_id cache_fingerprint aggregate_limits parts transforms
    blockers AttachmentPlan.finished_plan].
  rewrite (fail_if_false (negb (bool_decide (PLAN_SCHEMA = _)))) by by rewrite bool_decide_eq_true_2.
  cbn [mbind result_bind]. rewrite (fail_if_false (_ || _)).
  2: { rewrite Hid, Hfp, (ready_job R), Hseed. simpl. by rewrite bool_decide_eq_true_2. }
  cbn [mbind result_bind]. fold aggregate. unfold aggregate_validate. rewrite (fail_if_false (_ || _)).
  2: { rewrite !orb_false_iff, !Z.eqb_neq. simpl. lia. }
  cbn [mbind result_bind]. rewrite Ht. cbn [mbind result_bind]. cbn in S1, S2, S3.
  rewrite (fail_if_false (_ || _)). 2: { rewrite !orb_false_iff, !Z.ltb_ge. simpl. lia. }
  cbn [mbind result_bind]. pose proof (planned_limit _ _ Hs). rewrite (need_is (try_from _ _) _ (len (b_transforms s))).
  2: { apply try_from_Some. split; [done|lia]. }
  cbn [mbind result_bind]. rewrite (fail_if_false (_ <? _)). 2: { apply Z.ltb_ge. simpl. lia. }
  cbn [mbind result_bind]. change (∅ : gset text) with (list_to_set (t_id <$> ([] : list TransformRequest)) : gset text).
  rewrite (transforms_validate_Ok [] (b_transforms s)); [|intros before' t' after' Heq; by eapply (planned_transforms _ _ Hs)|done].
  cbn [mbind result_bind]. apply each_Ok. intros b Hb. destruct (planned_blockers _ _ Hs b Hb) as (B1 & B2 & _).
  unfold blocker_validate. by rewrite B1, B2.
Qed.

Lemma artifact_lookup a : a ∈ artifacts bundle → by_key a_id (artifacts bundle) !! a_id a = Some a.
Proof. intros Ha. apply by_key_lookup; [|done]. apply (bundle_ids _ _ ready_bundle_ok). Qed.

Lemma part_validate_Ok p : routed p → part_validate (by_key a_id (artifacts bundle)) p = Ok tt.
Proof.
  intros (a & Ha & Hid & Hp). pose proof (artifact_lookup a Ha) as Hl. unfold part_validate.
  destruct p as [id f x src|id f b src|id b src]; simpl in Hid; subst id; rewrite (need_is _ _ a) by done; cbn [mbind result_bind part_artifact];
    rewrite Hl; destruct Hp as [-> Hp].
  - destruct Hp as (format & segments & -> & ->). rewrite (fail_if_false (_ || _)); [done|].
    rewrite !(bool_decide_eq_true_2 (_ = _)) by done. simpl. apply negb_false_iff.
    destruct format, (supports_markdown target); done.
  - destruct Hp as (md & v & -> & _). by rewrite !(bool_decide_eq_true_2 (_ = _)) by done.
  - destruct Hp as [-> _]. by rewrite !(bool_decide_eq_true_2 (_ = _)) by done.
Qed.

Lemma transform_source_Ok before t : requested before t → transform_source_validate (by_key a_id (artifacts bundle)) t = Ok tt.
Proof.
  intros (a & r & Ha & Hr & _ & _ & ->). unfold transform_source_validate. cbn [source_artifact t_source t_limits t_id max_input_bytes].
  rewrite (need_is _ _ a) by by apply artifact_lookup. cbn [mbind result_bind]. apply fail_if_false.
  rewrite bool_decide_eq_true_2 by done. simpl. apply negb_false_iff, Z.eqb_eq. by destruct (payload a); simplify_eq/=.
Qed.

Lemma blocker_source_Ok b : blocked b →
  blocker_source_validate (by_key a_id (artifacts bundle)) (list_to_set (o_id <$> objects (graph bundle))) b = Ok tt.
Proof.
  intros (_ & _ & [(a & Ha & Hid & Hsrc)|[Hid Hsrc]]); unfold blocker_source_validate; rewrite Hid, Hsrc.
  - rewrite (need_is _ _ a) by by apply artifact_lookup. cbn [mbind result_bind].
    rewrite (fail_if_false (negb (bool_decide (source a ∈ _)))).
    + cbn [mbind result_bind]. by rewrite bool_decide_eq_true_2.
    + apply negb_false_iff, bool_decide_eq_true, elem_of_list_to_set. by apply (bundle_artifacts _ _ ready_bundle_ok).
  - cbn [mbind result_bind]. rewrite fail_if_false; [done|]. apply negb_false_iff, bool_decide_eq_true, elem_of_list_to_set.
    destruct (graph_root _ (bundle_graph _ _ ready_bundle_ok)) as (r & Hr & <- & _). by apply list_elem_of_fmap_2.
Qed.

Lemma validate_against_Ok seen s : planned seen s → NoDup (t_id <$> b_transforms s) →
  validate_against sha256_hex (finished_plan s) bundle = Ok tt.
Proof.
  intros Hs Hn. unfold validate_against. rewrite (plan_validate_Ok seen s Hs Hn). cbn [mbind result_bind]. rewrite (ready_bundle R).
  cbn [mbind result_bind source_job_id parts transforms blockers AttachmentPlan.finished_plan].
  rewrite (fail_if_false (negb _)) by by rewrite bool_decide_eq_true_2. cbn [mbind result_bind].
  rewrite (proj2 (each_Ok _ (b_parts s))) by (intros p Hp; by apply part_validate_Ok, (planned_parts _ _ Hs)).
  cbn [mbind result_bind]. rewrite (proj2 (each_Ok _ (b_transforms s))).
  - cbn [mbind result_bind]. apply each_Ok. intros b Hb. by apply blocker_source_Ok, (planned_blockers _ _ Hs).
  - intros t Ht. apply list_elem_of_split in Ht as (before & after & Heq). by eapply (transform_source_Ok before), (planned_transforms _ _ Hs).
Qed.
End Builder.
End AttachmentBuilder.
