(* ===== verification/AttachmentPlanTheorems.v ===== *)
(** * AttachmentPlanTheorems: what a preparation plan promises

    The theorems about [PreparationPlanner::plan]: the plan of a valid bundle passes its own
    validation, sends only what the evidence and the policy allow, accounts for every artifact
    and does not depend on the order in which the artifacts are given. *)

From S2P Require Import Prelude Bytes Text Utf8 Sorting Budget AttachmentTypes AttachmentGraph AttachmentPlan AttachmentBuilder.
Local Open Scope Z_scope.

(** ** Ids of transforms *)

Module TransformIds.

Lemma str_inj s t : str s = str t → s = t.
Proof.
  unfold str. intros H.
  rewrite <- (String.string_of_list_ascii_of_string s), <- (String.string_of_list_ascii_of_string t). f_equal. revert H.
  generalize (String.list_ascii_of_string s), (String.list_ascii_of_string t). clear.
  induction l as [|a l IH]; intros [|b k]; simpl; intros H; try done. injection H as Hab Hl. f_equal; [|auto].
  rewrite <- (ascii_nat_embedding a), <- (ascii_nat_embedding b). f_equal. lia.
Qed.
Lemma decimal_inj m n : decimal m = decimal n → m = n.
Proof. unfold decimal. intros H%str_inj. by apply (inj pretty) in H. Qed.

Lemma str_scalar s : Forall scalar (str s).
Proof.
  unfold str. apply Forall_fmap, Forall_true. intros a. unfold scalar. simpl. pose proof (nat_ascii_bounded a). lia.
Qed.
Lemma as_bytes_inj s t : Forall scalar s → Forall scalar t → as_bytes s = as_bytes t → s = t.
Proof. intros Hs Ht H. pose proof (from_utf8_as_bytes s Hs) as H1. rewrite H, from_utf8_as_bytes in H1 by done. congruence. Qed.

Lemma pretty_go_length x s : (String.length (pretty.pretty_N_go x s) ≤ String.length s + N.to_nat x)%nat.
Proof.
  revert s. induction (N.lt_wf_0 x) as [x _ IH]; intros s. destruct (decide (x = 0%N)) as [->|Hx]; [rewrite pretty.pretty_N_go_0; lia|].
  rewrite pretty.pretty_N_go_step by lia. assert (x / 10 < x)%N by (apply N.div_lt; lia).
  etrans; [by apply IH|]. simpl. lia.
Qed.
Lemma decimal_len n : 0 ≤ n → len (decimal n) ≤ n + 1.
Proof.
  intros Hn. unfold decimal, str, len. rewrite length_fmap.
  assert (length (String.list_ascii_of_string (pretty n)) = String.length (pretty n)) as ->.
  { generalize (pretty n). intros s. induction s as [|a s IH]; simpl; [done|]. by rewrite IH. }
  destruct n as [|x|x]; [done| |lia]. unfold pretty, pretty_Z, pretty_positive, pretty, pretty_N. case_decide; [simpl; lia|].
  pose proof (pretty_go_length (N.pos x) "") as Hl. simpl String.length in Hl. lia.
Qed.
Lemma str_len_le t : str_len t ≤ 4 * len t.
Proof. induction t as [|c t IH]; [done|]. rewrite len_cons. simpl. pose proof (len_utf8_pos c). lia. Qed.

(** A field says how long it is, so that the field behind it can be found. *)
Lemma hash_field_inj a b x y : len a ≤ u64_max → len b ≤ u64_max → hash_field a ++ x = hash_field b ++ y → a = b ∧ x = y.
Proof.
  intros Ha Hb. unfold hash_field. rewrite <- !app_assoc. intros H.
  apply app_inj_1 in H as [Hl H].
  - assert (len a = len b) as Hlen.
    { rewrite <- (le_value_le_bytes 8 (len a)), <- (le_value_le_bytes 8 (len b)) by (pose proof (len_nonneg a); pose proof (len_nonneg b);
        unfold u64_max in *; change (Z.of_nat 8) with 8; lia). by rewrite Hl. }
    apply app_inj_1 in H as [-> ->]; [done|]. unfold len in Hlen. lia.
  - pose proof (le_bytes_len 8 (len a)). pose proof (le_bytes_len 8 (len b)). unfold len in *. lia.
Qed.

(** What is hashed for the id of a request names its number. *)
Lemma transform_bytes_ordinal seed i j s s' o o' :
  0 ≤ i ≤ u32_max → 0 ≤ j ≤ u32_max → len (as_bytes seed) ≤ u64_max → transform_bytes seed i s o = transform_bytes seed j s' o' → i = j.
Proof.
  intros Hi Hj Hs H. unfold transform_bytes in H. apply hash_field_inj in H as [_ H]; [|done..].
  apply hash_field_inj in H as [_ H]; [|done..].
  assert (∀ n, 0 ≤ n ≤ u32_max → len (as_bytes (decimal n)) ≤ u64_max) as Hd.
  { intros n Hn. rewrite as_bytes_len. pose proof (str_len_le (decimal n)). pose proof (decimal_len n ltac:(lia)). unfold u32_max, u64_max in *. lia. }
  apply hash_field_inj in H as [H _]; [|by apply Hd..]. apply decimal_inj, as_bytes_inj; [apply str_scalar..|done].
Qed.
End TransformIds.

Module PlanTheorems.
Import AttachmentBuilder.AttachmentBuilder TransformIds.
Section Theorems.
Context {J : Json} (sha256_hex : list Z → text) (pl : PreparationPlanner) (b : AttachmentBundle) (target : TargetCapabilities)
  (policy : PreparationPolicy).
Notation plan := (plan sha256_hex pl b target policy).
Notation built cache := (build sha256_hex pl b target policy cache (ordered_artifacts sha256_hex b)).

(** The limits are unsigned. *)
Definition unsigned : Prop :=
  0 ≤ max_text_bytes target ∧ 0 ≤ max_media_objects target ∧ 0 ≤ max_media_bytes target ∧
  0 ≤ Limits.max_transform_requests (limits (graph b)).

(** serde encodes what is hashed. *)
Definition json_total : Prop :=
  (∀ x, is_Some (json_target x)) ∧ (∀ x, is_Some (json_policy x)) ∧ (∀ x, is_Some (json_selected x)) ∧ (∀ x, is_Some (json_status x)) ∧
  (∀ x, is_Some (json_processor x)) ∧ (∀ x, is_Some (json_trust x)) ∧ (∀ x, is_Some (json_payload x)) ∧ (∀ x, is_Some (json_warnings x)).

Lemma hash_json_Ok o : is_Some o → ∃ x, hash_json o = Ok x.
Proof. intros [x ->]. by eexists. Qed.

Lemma hash_objects_Ok os : json_total → ∃ x, hash_objects os = Ok x.
Proof.
  intros (_ & _ & H1 & H2 & _). induction os as [|o os [x IH]]; simpl; [by eexists|].
  destruct (hash_json_Ok _ (H1 (selected (detection o)))) as [? ->]. destruct (hash_json_Ok _ (H2 (status o))) as [? ->].
  simpl. rewrite IH. by eexists.
Qed.
Lemma hash_artifacts_Ok l : json_total → ∃ x, hash_artifacts l = Ok x.
Proof.
  intros (_ & _ & _ & _ & H1 & H2 & H3 & H4). induction l as [|a l [x IH]]; simpl; [by eexists|].
  destruct (hash_json_Ok _ (H1 (processor a))) as [? ->]. destruct (hash_json_Ok _ (H2 (trust a))) as [? ->].
  destruct (hash_json_Ok _ (H3 (payload a))) as [? ->]. destruct (hash_json_Ok _ (H4 (a_warnings a))) as [? ->].
  simpl. rewrite IH. by eexists.
Qed.
Lemma input_fingerprint_Ok l : json_total → ∃ x, input_fingerprint sha256_hex pl b l target policy = Ok (sha256_hex x).
Proof.
  intros Hj. unfold input_fingerprint. destruct (hash_objects_Ok (objects (graph b)) Hj) as [? ->], (hash_artifacts_Ok l Hj) as [? ->].
  destruct Hj as (H1 & H2 & _). destruct (hash_json_Ok _ (H1 target)) as [? ->], (hash_json_Ok _ (H2 policy)) as [? ->]. by eexists.
Qed.

(** The blob contracts say nothing that the bundle does not. *)
Lemma blob_contracts_Ok : bundle_ok sha256_hex b → validate_blob_contracts b = Ok tt.
Proof.
  intros Hb. apply each_Ok. intros a Ha. unfold validate_blob_contract. destruct (payload_blob (payload a)) as [r|] eqn:Hr; [|done].
  destruct (bundle_artifacts _ _ Hb a Ha) as [Hv _]. destruct (artifact_blob_ok a r Hv Hr) as (B1 & B2 & B3).
  destruct (bundle_lengths _ _ Hb a r Ha Hr) as (o & Ho & Hid & Hlen). destruct (bundle_bytes _ _ Hb o Ho) as (bytes & Hbytes & _).
  rewrite (fail_if_false (_ || _ || _)) by by rewrite !bool_decide_eq_true_2 by congruence. cbn [mbind result_bind].
  rewrite (need_is _ _ o). 2: { apply by_key_lookup; [by apply (graph_ids _ (bundle_graph _ _ Hb))|]. split; [done|congruence]. }
  cbn [mbind result_bind]. apply fail_if_false.
  pose proof (graph_objects _ (bundle_graph _ _ Hb) o Ho) as Hov. unfold object_validate in Hov. contract_steps Hov. bool_prop.
  rewrite B1, <- Hid, Hbytes, B3, Hlen, Z.eqb_refl, !bool_decide_eq_true_2; [done| |congruence]. by eexists.
Qed.

Lemma ordered_perm : ordered_artifacts sha256_hex b ≡ₚ artifacts b.
Proof. apply sort_by_perm. Qed.

(** What a plan that was returned is made of *)
Lemma plan_Ok p : plan = Ok p →
  bundle_ok sha256_hex b ∧ ∃ cache, input_fingerprint sha256_hex pl b (ordered_artifacts sha256_hex b) target policy = Ok cache ∧
    p = finished_plan b target cache (built cache).
Proof.
  intros H. unfold AttachmentPlan.plan in H. contract_steps H. injection H as <-.
  match goal with Hb : map_fault _ (bundle_validate _ _) = Ok _ |- _ => apply map_fault_Ok, bundle_validate_ok in Hb end.
  split; [done|]. by eexists.
Qed.

Lemma built_spec cache : bundle_ok sha256_hex b → unsigned →
  (∃ seen, planned sha256_hex pl b target policy cache seen (built cache)) ∧
  ∀ o, o ∈ objects (graph b) → object_accounted (ordered_artifacts sha256_hex b) (built cache) o.
Proof.
  intros Hb Hu. apply build_spec; [done|by apply Hb|by apply (bundle_ids _ _ Hb)|apply ordered_perm].
Qed.

(** Two requests with one id are a collision of SHA-256. *)
Definition colliding (cache : text) (ts : list TransformRequest) : Prop :=
  ∃ before t between t' after, ts = before ++ t :: between ++ t' :: after ∧
    let x := transform_bytes cache (len before) (t_source t) (operation t) in
    let y := transform_bytes cache (len (before ++ t :: between)) (t_source t') (operation t') in
    x ≠ y ∧ sha256_hex x = sha256_hex y.

Lemma duplicate {A} `{EqDecision A} (l : list A) : ¬ NoDup l → ∃ x l1 l2 l3, l = l1 ++ x :: l2 ++ x :: l3.
Proof.
  induction l as [|x l IH]; intros Hn; [by destruct Hn; constructor|]. destruct (decide (x ∈ l)) as [Hx|Hx].
  - apply list_elem_of_split in Hx as (l2 & l3 & ->). by exists x, [], l2, l3.
  - destruct IH as (y & l1 & l2 & l3 & ->); [intros H; apply Hn; by constructor|]. by exists y, (x :: l1), l2, l3.
Qed.

Lemma duplicate_collides cache seen s :
  Limits.max_transform_requests (limits (graph b)) ≤ u32_max → len (as_bytes cache) ≤ u64_max →
  planned sha256_hex pl b target policy cache seen s → ¬ NoDup (t_id <$> b_transforms s) → colliding cache (b_transforms s).
Proof.
  intros Hlim Hc Hs Hn. apply duplicate in Hn as (id & l1 & l2 & l3 & Heq).
  apply fmap_app_inv in Heq as (T1 & T & -> & HT & Heq). symmetry in HT. apply fmap_cons_inv in HT as (t & T2 & Hid & HT & ->).
  symmetry in HT. apply fmap_app_inv in HT as (T3 & T4 & -> & HT & ->). symmetry in HT. apply fmap_cons_inv in HT as (t' & T5 & Hid' & -> & ->).
  exists T1, t, T3, t', T5. split; [done|]. pose proof (planned_limit _ _ _ _ _ _ _ _ Hs) as Hl.
  destruct (planned_transforms _ _ _ _ _ _ _ _ Hs T1 t _ Heq) as (a & r & _ & _ & _ & _ & Ht).
  destruct (planned_transforms _ _ _ _ _ _ _ _ Hs (T1 ++ t :: T3) t' T5) as (a' & r' & _ & _ & _ & _ & Ht'); [by rewrite <- app_assoc|].
  rewrite Heq in Hl. rewrite !len_app, len_cons, len_app, len_cons in Hl. pose proof (len_nonneg T1). pose proof (len_nonneg T3). pose proof (len_nonneg T5).
  split.
  - intros Hx%transform_bytes_ordinal; [|lia|rewrite len_app, len_cons; lia|done]. rewrite len_app, len_cons in Hx. lia.
  - pose proof (f_equal t_id Ht) as Hi. pose proof (f_equal t_id Ht') as Hi'. pose proof (f_equal t_source Ht) as Hs1.
    pose proof (f_equal t_source Ht') as Hs2. cbn [t_id t_source] in *. rewrite Hs1, Hs2.
    apply (app_inv_head (str "transform-")). change (transform_id sha256_hex cache (len T1) (source a) (operation t)
      = transform_id sha256_hex cache (len (T1 ++ t :: T3)) (source a') (operation t')). congruence.
Qed.


(** C6: A plan sends only what was established: each part is an artifact of the bundle, text
    goes as untrusted text word for word, media only after a complete decode of a completely
    inspected object and if the target takes their type, opaque bytes only as a completely
    inspected PDF for a target that reads PDFs, or by policy and never from an executable.
    No artifact is sent twice, and the parts are within the budgets of the target. *)
Theorem attachment_plan_routes_safely p :
  unsigned → plan = Ok p →
  (∀ part, part ∈ parts p → routed b target policy part) ∧ NoDup (part_artifact <$> parts p) ∧
  total (part_text <$> parts p) ≤ max_text_bytes target ∧ total (part_count <$> parts p) ≤ max_media_objects target ∧
  total (part_bytes <$> parts p) ≤ max_media_bytes target ∧
  len (transforms p) ≤ Limits.max_transform_requests (limits (graph b)).
Proof.
  intros Hu (Hb & cache & _ & ->)%plan_Ok. destruct (built_spec cache Hb Hu) as [[seen []] _]. simpl.
  split_and!; [naive_solver|done|lia|lia|lia|done].
Qed.

(** The plan says something of an artifact. *)
Definition mentions (p : PreparationPlan) (a : CanonicalArtifact) : Prop :=
  a_id a ∈ (part_artifact <$> parts p) ∨ a_id a ∈ (source_artifact <$> transforms p) ∨
  Some (a_id a) ∈ (blocker_artifact <$> blockers p).

(** C8: A plan drops nothing silently. Unless it says that there are too many transforms, it
    has a part, a transform or a blocker for every artifact; for an object that inspection
    refused or for a PDF, which are prepared as a whole, for one of its artifacts at least. *)
Theorem attachment_plan_accounts p :
  unsigned → plan = Ok p →
  (parts p ≠ [] ∨ transforms p ≠ [] ∨ blockers p ≠ []) ∧
  (limit_code ∈ (blocker_code <$> blockers p) ∨
   ∀ a, a ∈ artifacts b → mentions p a ∨
     ∃ o, o ∈ objects (graph b) ∧ o_id o = source a ∧ whole o (of_source (artifacts b) (o_id o)) = true ∧
       ∃ a', a' ∈ artifacts b ∧ source a' = source a ∧ mentions p a').
Proof.
  intros Hu (Hb & cache & _ & ->)%plan_Ok. destruct (built_spec cache Hb Hu) as [[seen Hs] Hall]. split.
  - simpl. clear. unfold build. set (s := plan_objects _ _ _ _ _ _ _ _ _). destruct (_ && _) eqn:He.
    + right. right. simpl. intros H. by apply app_eq_nil in H as [_ H].
    + destruct (b_parts s), (b_transforms s), (b_blockers s); simpl in He; try done; naive_solver.
  - destruct (transform_limit_reported (built cache)) eqn:Hrep.
    { left. destruct (planned_reported _ _ _ _ _ _ _ _ Hs Hrep) as (bl & Hbl & <-). by apply list_elem_of_fmap_2. }
    right. intros a Ha. destruct (bundle_artifacts _ _ Hb a Ha) as [_ (o & Hid & Ho)%list_elem_of_fmap].
    assert (∀ x, x ∈ of_source (ordered_artifacts sha256_hex b) (o_id o) ↔ x ∈ artifacts b ∧ source x = o_id o) as Hof.
    { intros x. by rewrite elem_of_source, ordered_perm. }
    destruct (Hall o Ho) as [He|Hw]; [by assert (a ∈ of_source (ordered_artifacts sha256_hex b) (o_id o)) as Hin by (by apply Hof); rewrite He in Hin; apply elem_of_nil in Hin|].
    assert (whole o (of_source (ordered_artifacts sha256_hex b) (o_id o)) = whole o (of_source (artifacts b) (o_id o))) as Hwhole.
    { unfold whole. f_equal. by apply existsb_perm, of_source_perm, ordered_perm. }
    destruct (whole o (of_source (ordered_artifacts sha256_hex b) (o_id o))) eqn:Hwo.
    + right. exists o. split_and!; [done..|congruence|]. destruct Hw as (a' & [Ha' Hsrc]%Hof & [Hm|Hm]); [|congruence].
      exists a'. split_and!; [done|congruence|done].
    + left. destruct (Hw a) as [Hm|Hm]; [by apply Hof|done|congruence].
Qed.
End Theorems.

(** ** The order of the artifacts *)

#[local] Instance key_cmp_ordering : Ordering key_cmp.
Proof.
  apply lex_ordering; [|apply lex_ordering].
  - apply (on_ordering (λ x : Z * text * text, x.1.1)), _.
  - apply (on_ordering (λ x : Z * text * text, x.1.2)), _.
  - apply (on_ordering (λ x : Z * text * text, x.2)), _.
Qed.
#[local] Instance placed_cmp_ordering : Ordering placed_cmp.
Proof.
  apply lex_ordering.
  - apply (on_ordering (λ x : Z * (Z * text * text), x.1)), _.
  - apply (on_ordering (λ x : Z * (Z * text * text), x.2)), _.
Qed.
Lemma placed_cmp_eq x y : placed_cmp x y = Eq → x = y.
Proof.
  destruct x as [n [[r s] t]], y as [n' [[r' s'] t']]. unfold placed_cmp, key_cmp, lex. simpl.
  destruct (Z.compare_spec n n') as [->| |], (Z.compare_spec r r') as [->| |]; try done.
  destruct (str_cmp s s') eqn:Hs; try done. intros Ht. by rewrite (str_cmp_eq _ _ Hs), (str_cmp_eq _ _ Ht).
Qed.

(** What the loop over the artifacts of a bundle needs to succeed *)
Lemma tally_bounds objs t l t' : tally objs t l = Ok t' →
  tally_text t ≤ u64_max → tally_objects t ≤ u32_max → tally_media t ≤ u64_max →
  tally_text t' ≤ u64_max ∧ tally_objects t' ≤ u32_max ∧ tally_media t' ≤ u64_max.
Proof.
  revert t. induction l as [|a l IH]; intros t H H1 H2 H3; simpl in H; [by injection H as <-|].
  apply bind_Ok in H as (t1 & Ht1 & H). apply (IH t1 H); unfold tally_artifact in Ht1; contract_steps Ht1;
    destruct (payload a); contract_steps Ht1; option_facts; injection Ht1 as <-; simpl; lia.
Qed.

Lemma tally_complete objs t l :
  (∀ a, a ∈ l → artifact_validate a = Ok tt ∧ source a ∈ objs) → NoDup (a_id <$> l) → (∀ a, a ∈ l → a_id a ∉ seen_ids t) →
  (∀ a n, a ∈ l → media_size a = Some n → 0 ≤ n) →
  tally_text t + total (text_size <$> l) ≤ u64_max → tally_objects t + len (omap media_size l) ≤ u32_max →
  tally_media t + total (omap media_size l) ≤ u64_max → ∃ t', tally objs t l = Ok t'.
Proof.
  revert t. induction l as [|a l IH]; intros t Hv Hn Hnew Hpos H1 H2 H3; [by eexists|].
  rewrite fmap_cons, total_cons in H1. rewrite media_sizes_cons in H2, H3. rewrite fmap_cons in Hn. apply NoDup_cons in Hn as [Ha Hn].
  destruct (Hv a ltac:(by left)) as [Hva Hsa].
  assert (0 ≤ total (text_size <$> l)).
  { apply total_nonneg. intros n (x & -> & _)%list_elem_of_fmap. unfold text_size. by destruct (payload x). }
  assert (0 ≤ total (omap media_size l)).
  { apply total_nonneg. intros n (x & Hx & Hm)%list_elem_of_omap. apply (Hpos x); [by right|done]. }
  assert (∃ t1, tally_artifact objs t a = Ok t1) as [t1 Ht1].
  { unfold tally_artifact. rewrite Hva. cbn [mbind result_bind]. rewrite (fail_if_false (negb _)) by by rewrite bool_decide_eq_true_2.
    cbn [mbind result_bind]. rewrite (fail_if_false (bool_decide _)) by (apply bool_decide_eq_false, Hnew; by left). cbn [mbind result_bind].
    unfold text_size, media_size in *. destruct (payload a) as [f x segs|f b md v|b] eqn:Hp; [| |by eexists].
    - rewrite (need_is _ _ (tally_text t + str_len x)) by (apply checked_add_is; lia). by eexists.
    - rewrite total_cons in H3. rewrite len_cons in H2. pose proof (len_nonneg (omap media_size l)). unfold media_size in *.
      rewrite (need_is (checked_add u32_max _ _) _ (tally_objects t + 1)) by (apply checked_add_is; lia). cbn [mbind result_bind].
      rewrite (need_is (checked_add u64_max _ _) _ (tally_media t + b_byte_len b)) by (apply checked_add_is; lia). by eexists. }
  cbn [tally]. rewrite Ht1. apply tally_artifact_ok in Ht1 as [[_ _ _ E1 E2 E3] Hseen]. apply IH.
  - intros x Hx. apply Hv. by right.
  - done.
  - intros x Hx. rewrite Hseen. assert (a_id x ∉ seen_ids t) by (apply Hnew; by right).
    assert (a_id x ≠ a_id a); [|set_solver]. intros Heq. apply Ha. rewrite <- Heq. by apply list_elem_of_fmap_2.
  - intros x n Hx. apply Hpos. by right.
  - rewrite E1, fmap_cons, total_cons. unfold total at 1. simpl. lia.
  - rewrite E2, media_sizes_cons. destruct (media_size a); rewrite ?len_cons in *; change (len (omap media_size [])) with 0; lia.
  - rewrite E3, media_sizes_cons. destruct (media_size a); rewrite ?total_cons in *; change (total (omap media_size [])) with 0; lia.
Qed.

Lemma objects_validate_same held m m' os :
  (∀ s, default ∅ (m !! s) = default ∅ (m' !! s)) → objects_validate held m os = objects_validate held m' os.
Proof.
  revert m m'. induction os as [|o os IH]; intros m m' H; simpl; [done|]. rewrite (H (o_id o)).
  rewrite (IH (delete (o_id o) m) (delete (o_id o) m')); [done|]. intros s.
  destruct (decide (o_id o = s)) as [<-|]; [by rewrite !lookup_delete_eq|by rewrite !lookup_delete_ne].
Qed.

Lemma sizes_perm l k : l ≡ₚ k → total l = total k.
Proof. unfold total. induction 1; simpl; lia. Qed.

Lemma by_key_perm {A} (key : A → text) l k : NoDup (key <$> l) → l ≡ₚ k → by_key key l = by_key key k.
Proof.
  intros Hn Hp. assert (NoDup (key <$> k)) as Hn' by by rewrite <- Hp. apply map_eq. intros i. apply option_eq. intros x.
  rewrite !by_key_lookup by done. by rewrite Hp.
Qed.

Section Order.
Context {J : Json} (sha256_hex : list Z → text) (g : AttachmentGraph) (l k : list CanonicalArtifact) (held : gmap text (list Z)).
Notation b := {| graph := g; artifacts := l; blobs := held |}.
Notation b' := {| graph := g; artifacts := k; blobs := held |}.
Context (Hperm : l ≡ₚ k).

Lemma media_size_nonneg a n : bundle_ok sha256_hex b → a ∈ l → media_size a = Some n → 0 ≤ n.
Proof.
  intros Hb Ha Hm. assert (∃ r, payload_blob (payload a) = Some r ∧ b_byte_len r = n) as (r & Hr & <-).
  { unfold media_size in Hm. destruct (payload a); simplify_eq/=. by eexists. }
  destruct (bundle_lengths _ _ Hb a r Ha Hr) as (o & Ho & _ & ->). destruct (bundle_bytes _ _ Hb o Ho) as (bytes & _ & _ & ->).
  apply len_nonneg.
Qed.

(** A bundle stays valid when its artifacts are listed in another order. *)
Lemma bundle_validate_perm : bundle_validate sha256_hex b = Ok tt → bundle_validate sha256_hex b' = Ok tt.
Proof.
  intros H. pose proof (bundle_validate_ok _ _ H) as Hb. unfold bundle_validate in *. contract_steps H. cbn [graph artifacts blobs] in *.
  match goal with Ht : tally _ _ _ = Ok ?t |- _ => rename t into u; pose proof (tally_ok _ _ _ _ Ht) as [Hv [Hn _] Hs E1 E2 E3];
    pose proof (tally_bounds _ _ _ _ Ht ltac:(done) ltac:(done) ltac:(done)) as (B1 & B2 & B3) end.
  assert (total (text_size <$> k) = total (text_size <$> l)) as T1 by (apply sizes_perm; by rewrite Hperm).
  assert (total (omap media_size k) = total (omap media_size l)) as T2 by (apply sizes_perm; by rewrite Hperm).
  assert (len (omap media_size k) = len (omap media_size l)) as T3 by (unfold len; by rewrite Hperm).
  cbn [tally_text tally_objects tally_media artifacts_by_source] in *.
  destruct (tally_complete (list_to_set (o_id <$> objects g))
    {| seen_ids := ∅; artifacts_by_source := ∅; tally_text := 0; tally_objects := 0; tally_media := 0 |} k) as [u' Hu'];
    cbn [tally_text tally_objects tally_media seen_ids]; try lia.
  { intros a Ha. apply Hv. by rewrite Hperm. }
  { by rewrite <- Hperm. }
  { set_solver. }
  { intros a n Ha. apply media_size_nonneg; [done|by rewrite Hperm]. }
  pose proof (tally_ok _ _ _ _ Hu') as [_ _ Hs' E1' E2' E3']. cbn [tally_text tally_objects tally_media artifacts_by_source] in *.
  repeat match goal with Hx : ?r = Ok tt |- context [?r] => rewrite Hx; cbn [mbind result_bind] end.
  rewrite Hu'. cbn [mbind result_bind]. rewrite E1', E2', E3', T1, T2, T3, <- E1, <- E2, <- E3.
  rewrite fail_if_false by done. cbn [mbind result_bind].
  rewrite (objects_validate_same held _ (artifacts_by_source u)).
  2: { intros s. apply set_eq. intros i. rewrite Hs, Hs'. setoid_rewrite Hperm. done. }
  repeat match goal with Hx : ?r = Ok _ |- context [?r] => rewrite Hx; cbn [mbind result_bind] end.
  rewrite fail_if_false by done. cbn [mbind result_bind].
  repeat match goal with Hx : ?r = Ok tt |- context [?r] => rewrite Hx; cbn [mbind result_bind] end.
  rewrite each_Ok in *. intros a Ha. apply H. by rewrite Hperm.
Qed.

Lemma ordered_artifacts_perm :
  NoDup (placed_key sha256_hex b <$> l) → ordered_artifacts sha256_hex b = ordered_artifacts sha256_hex b'.
Proof. intros Hn. apply (sort_by_unique _ _ l k placed_cmp_eq Hn Hperm). Qed.

Lemma validate_against_perm p : validate_against sha256_hex p b = Ok tt → validate_against sha256_hex p b' = Ok tt.
Proof.
  intros H. unfold validate_against in *. contract_steps H.
  match goal with Hv : bundle_validate _ b = Ok tt |- _ =>
    pose proof (bundle_ids _ _ (bundle_validate_ok _ _ Hv)) as Hn; apply bundle_validate_perm in Hv end.
  cbn [graph artifacts] in *. rewrite <- (by_key_perm a_id l k) by done.
  repeat match goal with Hx : ?r = Ok tt |- context [?r] => rewrite Hx; cbn [mbind result_bind] end.
  by rewrite fail_if_false by done.
Qed.

Lemma plan_perm pl target policy p :
  NoDup (placed_key sha256_hex b <$> l) → plan sha256_hex pl b target policy = Ok p → plan sha256_hex pl b' target policy = Ok p.
Proof.
  intros Hn H. pose proof (ordered_artifacts_perm Hn) as Ho. unfold plan in *. contract_steps H. injection H as <-.
  rewrite map_fault_Ok in *. rename select (bundle_validate _ b = Ok tt) into Hv.
  rewrite (bundle_validate_perm Hv). cbn [map_fault mbind result_bind].
  rewrite (blob_contracts_Ok sha256_hex b' (bundle_validate_ok _ _ (bundle_validate_perm Hv))). cbn [mbind result_bind].
  rename select (target_validate target = Ok tt) into Ht. rewrite Ht. cbn [map_fault mbind result_bind].
  rewrite fail_if_false by done. cbn [mbind result_bind]. rewrite <- Ho.
  match goal with Hx : input_fingerprint _ _ b ?o _ _ = Ok ?c |- _ => change (input_fingerprint sha256_hex pl b' o target policy)
    with (input_fingerprint sha256_hex pl b o target policy); rewrite Hx; cbn [mbind result_bind] end.
  match goal with Hx : validate_against _ _ b = Ok tt |- _ => apply validate_against_perm in Hx; rename Hx into Hlast end.
  set (q := finished_plan _ _ _ _) in Hlast |- * at 3. change (finished_plan b' _ _ _) with q. by rewrite Hlast.
Qed.
End Order.

(** The plan does not depend on the order in which the bundle lists its artifacts, unless
    two of them have one source, one kind and one digest: what is a plan of the bundle is the
    plan, with the same cache fingerprint, of the bundle with its artifacts permuted. *)
Theorem attachment_plan_order_independent {J : Json} sha256_hex pl target policy b k p :
  artifacts b ≡ₚ k → NoDup (placed_key sha256_hex b <$> artifacts b) → plan sha256_hex pl b target policy = Ok p →
  plan sha256_hex pl {| graph := graph b; artifacts := k; blobs := blobs b |} target policy = Ok p.
Proof. destruct b as [g l held]. intros Hk Hn. by apply plan_perm. Qed.
End PlanTheorems.
