(* ===== verification/AttachmentToy.v ===== *)
(** * AttachmentToy: a small bundle on which the theorems about attachments are run

    A toy digest and a toy encoder in place of SHA-256 and serde, and an archive with a
    text, an image and a recording. *)

From S2P Require Import Prelude Bytes Text Utf8 Budget AttachmentTypes AttachmentGraph AttachmentPlan AttachmentBuilder AttachmentPlanTheorems.
Local Open Scope Z_scope.

Module AttachmentToy.
Import AttachmentBuilder.AttachmentBuilder PlanTheorems.

(** ** The digest and the encoder *)

Definition digit (n : Z) : Z := nth (Z.to_nat (n mod 16)) (str "0123456789abcdef") 48.
Definition checksum (x : list Z) : Z := foldl (λ h c, (h * 31 + c + 7) mod 2 ^ 64) 1 x.
Definition hex (n : Z) : text := (λ i, digit (n / 16 ^ Z.of_nat i)) <$> rev (seq 0 64).
Definition digest (x : list Z) : text := hex (checksum x).

Definition hex_digit (c : Z) : bool := (0 <=? c) && (c <? 128) && is_ascii_hexdigit c && negb (is_ascii_uppercase c).
Lemma digit_hex n : hex_digit (digit n) = true.
Proof.
  unfold digit. destruct (nth_in_or_default (Z.to_nat (n mod 16)) (str "0123456789abcdef") 48) as [Hin|Hd].
  - revert Hin. generalize (nth (Z.to_nat (n mod 16)) (str "0123456789abcdef") 48). intros c. cbn.
    intros H. repeat destruct H as [<-|H]; done.
  - by rewrite Hd.
Qed.
Lemma hex_digits_bytes t : Forall (λ c, hex_digit c = true) t → as_bytes t = t.
Proof.
  induction 1 as [|c t Hc _ IH]; [done|]. change (encode_utf8 c ++ as_bytes t = c :: t). rewrite IH.
  unfold hex_digit in Hc. bool_prop. unfold encode_utf8. by rewrite (proj2 (Z.ltb_lt c 128)) by lia.
Qed.
Lemma digest_is_sha256 x : is_sha256_text (digest x) = true.
Proof.
  unfold digest, hex. generalize (checksum x). intros n.
  assert (Forall (λ c, hex_digit c = true) ((λ i, digit (n / 16 ^ Z.of_nat i)) <$> rev (seq 0 64))) as Hall.
  { apply Forall_fmap, Forall_true. intros i. apply digit_hex. }
  unfold is_sha256_text. rewrite <- as_bytes_len, (hex_digits_bytes _ Hall). apply andb_true_iff. split.
  - apply Z.eqb_eq. unfold len. by rewrite length_fmap.
  - apply forallb_forall. intros c Hc%list_elem_of_In. rewrite Forall_forall in Hall. specialize (Hall c Hc). unfold hex_digit in Hall.
    apply andb_true_iff in Hall as [[_ H1]%andb_true_iff H2]. by rewrite H1, H2.
Qed.

Definition encode_text (t : text) : list Z := len t :: t.
#[global] Instance toy_json : Json := {|
  json_target t := Some (encode_text (fingerprint t));
  json_policy _ := Some [];
  json_selected o := Some (match o with Some f => encode_text (canonical_media_type f) | None => [] end);
  json_status s := Some [match s with StatusComplete => 0 | _ => 1 end];
  json_processor p := Some (encode_text (processor_name p));
  json_trust _ := Some [];
  json_payload p := Some (match p with Text _ t _ => encode_text t | Media _ b _ _ | Opaque b => encode_text (media_type b) end);
  json_warnings l := Some [len l];
|}.

(** ** The bundle *)

Definition archive_bytes : list Z := [80; 75; 3; 4; 20].
Definition note_bytes : list Z := as_bytes (str "hello").
Definition image_bytes : list Z := [137; 80; 78; 71].
Definition sound_bytes : list Z := [82; 73; 70; 70; 0; 0].

Definition found (bytes : list Z) (f : DetectedFormat) (d : Z) (ids : list text) : ObjectRecord := {|
  o_id := digest bytes; o_sha256 := digest bytes; o_byte_len := len bytes;
  detection := {| selected := Some f; candidates := []; extension_hint := None; declared_media_type := None; mismatch := None |};
  status := StatusComplete; first_depth := d; artifact_ids := ids |}.
Definition member (bytes : list Z) : DerivationEdge := {|
  parent := digest archive_bytes; child := Some (digest bytes); depth := 1; name := provided (str "member");
  transform := {| kind := ZipMember; implementation := str "zip"; version := str "1" |};
  declared_uncompressed_bytes := Some (len bytes); compressed_bytes := None; source_range := None; outcome := Derived |}.

Definition toy_graph : AttachmentGraph := {|
  g_schema := GRAPH_SCHEMA; g_job_id := str "job-1"; root := digest archive_bytes; root_name := provided (str "mail.zip");
  objects := [found archive_bytes Zip 0 []; found note_bytes PlainText 1 [str "note"]; found image_bytes Png 1 [str "image"];
              found sound_bytes Wav 1 [str "sound"]];
  edges := [member note_bytes; member image_bytes; member sound_bytes];
  issues := []; coverage := CoverageComplete; limits := Limits.default;
  usage := {| Limits.root_bytes := 5; Limits.total_derived_bytes := 15; Limits.retained_bytes := 20; Limits.objects := 4;
              Limits.edges := 3; Limits.entries := 3; Limits.deepest_object := 1; Limits.text_bytes := 5; Limits.media_objects := 2;
              Limits.media_bytes := 10; Limits.transform_requests := 0 |} |}.

Definition processed : ProcessorProvenance := {| processor_name := str "reader"; processor_version := str "1"; policy_fingerprint := str "p" |}.
Definition made (id : string) (bytes : list Z) (p : ArtifactPayload) : CanonicalArtifact := {|
  a_schema := ARTIFACT_SCHEMA; a_id := str id; source := digest bytes; processor := processed; trust := UntrustedAttachmentData;
  payload := p; a_warnings := [] |}.
Definition medium (f : MediaFamily) (t : string) (bytes : list Z) : ArtifactPayload :=
  Media f {| b_object_id := digest bytes; b_sha256 := digest bytes; b_byte_len := len bytes; media_type := str t |}
    {| width := None; height := None; duration_ms := None; channels := None; sample_rate_hz := None; frame_count := None |}
    {| grade := PayloadDecoded; method := str "decode"; validator := processed |}.

Definition note : CanonicalArtifact := made "note" note_bytes
  (Text Plain (str "hello") [{| segment_kind := Document; label := None; start_byte := 0; end_byte := 5; coordinates := None |}]).
Definition picture : CanonicalArtifact := made "image" image_bytes (medium Image "image/png" image_bytes).
Definition recording : CanonicalArtifact := made "sound" sound_bytes (medium Audio "audio/wav" sound_bytes).

Definition toy_bundle : AttachmentBundle := {|
  graph := toy_graph; artifacts := [recording; note; picture];
  blobs := <[digest archive_bytes := archive_bytes]> (<[digest note_bytes := note_bytes]> (<[digest image_bytes := image_bytes]>
    (<[digest sound_bytes := sound_bytes]> ∅))) |}.

(** A target that takes images and no sound *)
Definition toy_target : TargetCapabilities := {|
  target_id := str "model"; fingerprint := str "f1"; accepted_media_types := ∅; accepted_media_families := [Image];
  max_media_objects := 4; max_media_bytes := 1000; max_text_bytes := 100; supports_markdown := false; supports_native_pdf := false;
  supports_native_video := false |}.

Notation toy_plan b := (plan digest default_planner b toy_target default_policy).
Definition plan_or (p : PreparationPlan) (r : parse Limits.AttachmentError PreparationPlan) : PreparationPlan :=
  match r with Ok q => q | Err _ => p end.
Definition toy_planned : PreparationPlan := plan_or (finished_plan toy_bundle toy_target [] new_builder) (toy_plan toy_bundle).

(** The note and the image are sent, the recording is transcribed first. *)
Example toy_plan_Ok : toy_plan toy_bundle = Ok toy_planned.
Proof. vm_compute. reflexivity. Qed.
Example toy_plan_is : (part_artifact <$> parts toy_planned, operation <$> transforms toy_planned, blockers toy_planned)
  = ([str "note"; str "image"], [TranscribeAudio], []).
Proof. vm_compute. reflexivity. Qed.
Lemma toy_graph_valid : graph_validate toy_graph = Ok tt.
Proof. vm_compute. reflexivity. Qed.
Lemma toy_bundle_valid : bundle_validate digest toy_bundle = Ok tt.
Proof. vm_compute. reflexivity. Qed.

(** ** The theorems on the toy *)

Lemma toy_json_total : json_total.
Proof. repeat split; by eexists. Qed.
Lemma toy_unsigned : unsigned toy_bundle toy_target.
Proof. by repeat split. Qed.
Lemma toy_ready : ready digest default_planner toy_bundle toy_target.
Proof.
  split.
  - apply digest_is_sha256.
  - apply toy_bundle_valid.
  - vm_compute. reflexivity.
  - vm_compute. by split_and!.
  - vm_compute. by split_and!.
  - vm_compute. reflexivity.
  - intros a Ha. change (artifacts toy_bundle) with [recording; note; picture] in Ha.
    rewrite !elem_of_cons in Ha. destruct Ha as [->|[->|[->|?%elem_of_nil]]]; done.
  - intros a r Ha Hr. change (artifacts toy_bundle) with [recording; note; picture] in Ha.
    rewrite !elem_of_cons in Ha. destruct Ha as [->|[->|[->|?%elem_of_nil]]]; simplify_eq/=; done.
Qed.

(** The depth of the recording is its distance from the archive. *)
Lemma attachment_graph_depths_witness :
  path toy_graph 1 (digest sound_bytes) ∧ ∀ n, path toy_graph n (digest sound_bytes) → (1 ≤ n)%nat.
Proof.
  destruct (attachment_graph_depths toy_graph) as [_ H]. specialize (H toy_graph_valid). destruct H as (_ & _ & H).
  apply (H ltac:(done)) with (o := found sound_bytes Wav 1 [str "sound"]).
  - intros o Ho. change (objects toy_graph) with [found archive_bytes Zip 0 []; found note_bytes PlainText 1 [str "note"];
      found image_bytes Png 1 [str "image"]; found sound_bytes Wav 1 [str "sound"]] in Ho.
    rewrite !elem_of_cons in Ho. destruct Ho as [->|[->|[->|[->|?%elem_of_nil]]]]; simpl; lia || done.
  - right. right. right. left.
Defined.

(** The bytes that the recording refers to *)
Lemma attachment_bundle_sound_witness :
  ∃ bytes, blobs toy_bundle !! source recording = Some bytes ∧ digest sound_bytes = digest bytes ∧ 6 = len bytes.
Proof.
  destruct (attachment_bundle_sound digest toy_bundle) as [_ H]. destruct (H toy_bundle_valid) as (_ & _ & _ & Hb & _).
  refine (proj2 (Hb recording {| b_object_id := digest sound_bytes; b_sha256 := digest sound_bytes; b_byte_len := len sound_bytes;
    media_type := str "audio/wav" |} _ eq_refl)). left.
Defined.


(** The two parts are routed, the image because it was decoded and the target takes images. *)
Lemma attachment_plan_routes_safely_witness :
  total (part_bytes <$> parts toy_planned) = 4 ∧ ∀ part, part ∈ parts toy_planned → routed toy_bundle toy_target default_policy part.
Proof.
  split; [vm_compute; reflexivity|].
  exact (proj1 (attachment_plan_routes_safely digest default_planner toy_bundle toy_target default_policy toy_planned toy_unsigned toy_plan_Ok)).
Defined.

Lemma attachment_plan_accounts_witness :
  limit_code ∈ (blocker_code <$> blockers toy_planned) ∨
  ∀ a, a ∈ artifacts toy_bundle → mentions toy_planned a ∨
    ∃ o, o ∈ objects toy_graph ∧ o_id o = source a ∧ whole o (of_source (artifacts toy_bundle) (o_id o)) = true ∧
      ∃ a', a' ∈ artifacts toy_bundle ∧ source a' = source a ∧ mentions toy_planned a'.
Proof. exact (proj2 (attachment_plan_accounts digest default_planner toy_bundle toy_target default_policy toy_planned toy_unsigned toy_plan_Ok)). Defined.

(** The same plan for the artifacts in another order *)
Lemma attachment_plan_order_independent_witness :
  toy_plan {| graph := toy_graph; artifacts := [picture; recording; note]; blobs := blobs toy_bundle |} = Ok toy_planned.
Proof.
  refine (attachment_plan_order_independent digest default_planner toy_target default_policy toy_bundle [picture; recording; note]
    toy_planned _ _ toy_plan_Ok).
  - change ([recording; note; picture] ≡ₚ [picture; recording; note]). by rewrite (Permutation_cons_append [recording; note] picture).
  - apply (bool_decide_unpack _). vm_compute. exact I.
Defined.
End AttachmentToy.
