(* ===== verification/Inspection.v ===== *)
(** * Inspection: the state of an attachment inspection

    Models [attachment-native-inspect/src/lib.rs]: the [InspectionState], the operations
    that all formats share (recording issues, statuses and derived objects) and the
    formats that hold one compressed stream (Gzip, Bzip2, XZ, Zstandard) or a plain
    sequence of members (TAR).

    The methods take [&mut self]: they are state-and-error programs over
    [InspectionState]. A result that the code handles in place is a value ([attempt]).
    The clock is part of the state; each check of the deadline reads it. The decoders and
    container parsers of other crates are an interface, [Parsers]. *)

From S2P Require Import Prelude Bytes Text Utf8 Strings Sorting PdfPreflight MimePreflight PdfScan XzPreflight ZipPreflight Budget AttachmentTypes MemberNames Detect.
Local Open Scope Z_scope.

Definition IMPLEMENTATION : text := str "attachment-native-inspect".
Definition VERSION : text := str "0.1.0".

Record ProvidedAttachment := { display_name : text; provided_media_type : option text; provided_bytes : list Z }.

(** ** The decoders *)

Inductive PdfError := MemoryLimitExceeded | Unimplemented | OtherPdfError.
Inductive ZstdError := WindowSizeTooBig | OtherZstdError.

(** [D] is a decoder that is being read. *)
Record TarEntry (D : Type) := {
  tar_path : list Z; tar_size : Z; tar_is_dir : bool; tar_is_file : bool; tar_reader : D }.
Arguments tar_path {D}. Arguments tar_size {D}. Arguments tar_is_dir {D}. Arguments tar_is_file {D}. Arguments tar_reader {D}.

Record ZipFile := {
  zf_name_raw : list Z; zf_name : text; zf_size : Z; zf_compressed_size : Z; zf_is_dir : bool; zf_is_symlink : bool;
  zf_is_file : bool; zf_encrypted : bool; zf_unix_mode : option Z; zf_data_start : option Z }.
Record ZipArchive (D : Type) := { zip_len : Z; by_index_raw : Z → option ZipFile; by_index : Z → option D }.
Arguments zip_len {D}. Arguments by_index_raw {D}. Arguments by_index {D}.

(** A decoded MIME part and message *)
Record MailPart := { attachment_name : option text; part_contents : list Z; content_type : option (text * option text) }.
Record MailMessage := { attachment_count : Z; attachments : list MailPart }.

(** The events of a 7z archive *)
Inductive SevenZipErrorKind := KindLimit | KindUnsupported | KindCapability | KindMalformed | KindIntegrity | KindOther.
Inductive EntryKind := EntryFile | EntryDir | EntrySymlink | EntryOther.
#[export] Instance entry_kind_eq_dec : EqDecision EntryKind.
Proof. solve_decision. Defined.
Record EntryMetadata := {
  em_path : list Z; em_size : option Z; em_kind : EntryKind; em_link_target : bool; em_encrypted : bool }.
Inductive ReaderEvent := ArchiveMetadata | Entry (m : EntryMetadata) | Data (chunk : list Z) | EndEntry | Done | OtherEvent.
Record SevenZipLimits := {
  decoded_total : Z; entry_bytes : Z; entries_limit : Z; metadata_limit : Z; codec_memory : Z; path_bytes : Z;
  nesting : Z; filter_depth : Z; in_flight : Z }.

(** The crates behind the inspection. [clock_elapsed] is [started.elapsed()], [decoder_read] is [Read::read]. *)
Class Parsers (C D : Type) := {
  clock_elapsed : C → Z * C;
  decoder_read : D → Z → option (list Z) * D;
  sha256_hex : list Z → text;
  hex_of : list Z → text;
  infer_mime : list Z → option text;
  gzip_decoder : list Z → option (list Z) * D;
  bzip2_decoder : list Z → D;
  xz_decoder : list Z → D;
  zstd_decoder : list Z → Z → result ZstdError D;
  tar_entries : list Z → option (list (option (TarEntry D)));
  zip_archive : list Z → Z → Zip.AdmittedZipCursor → option (ZipArchive D);
  parse_message : list Z → option MailMessage;
  mailbox_messages : list Z → list (option (list Z));
  load_pdf : list Z → Z → result PdfError PdfDocument;
  decompress_pdf : PdfDictionary → list Z → Z → result PdfError (list Z);
  seven_zip_reader : list Z → SevenZipLimits → result (option SevenZipErrorKind) (list (result (option SevenZipErrorKind) ReaderEvent));
}.

(** ** The state *)

Record InspectionState (C : Type) := {
  policy : InspectionPolicy;
  budget : Ledger.BudgetLedger;
  clock : C;
  s_root : option text;
  s_root_name : option LogicalName;
  s_objects : list ObjectRecord;
  object_index : gmap text nat;
  s_edges : list DerivationEdge;
  s_blobs : gmap text (list Z);
  queue : list (text * Z);
  analyzed : gset text;
  s_issues : list AttachmentIssue;
  partial_reasons : gset text;
}.
Arguments policy {C}. Arguments budget {C}. Arguments clock {C}. Arguments s_root {C}. Arguments s_root_name {C}.
Arguments s_objects {C}. Arguments object_index {C}. Arguments s_edges {C}. Arguments s_blobs {C}. Arguments queue {C}.
Arguments analyzed {C}. Arguments s_issues {C}. Arguments partial_reasons {C}.
Arguments Build_InspectionState {C}.

Section Inspection.
Context {C D : Type} `{!Parsers C D}.
Notation State := (InspectionState C).
Notation insp := (SM State (fault Limits.AttachmentError)).

Definition new (p : InspectionPolicy) (c : C) : State := {|
  policy := p; budget := Ledger.new (policy_limits p); clock := c; s_root := None; s_root_name := None; s_objects := [];
  object_index := ∅; s_edges := []; s_blobs := ∅; queue := []; analyzed := ∅; s_issues := []; partial_reasons := ∅ |}.

(** ** Writes to one part of the state *)

Definition set_budget (b : Ledger.BudgetLedger) (c : C) (s : State) : State := {|
  policy := policy s; budget := b; clock := c; s_root := s_root s; s_root_name := s_root_name s; s_objects := s_objects s;
  object_index := object_index s; s_edges := s_edges s; s_blobs := s_blobs s; queue := queue s; analyzed := analyzed s;
  s_issues := s_issues s; partial_reasons := partial_reasons s |}.
Definition set_objects (os : list ObjectRecord) (s : State) : State := {|
  policy := policy s; budget := budget s; clock := clock s; s_root := s_root s; s_root_name := s_root_name s; s_objects := os;
  object_index := object_index s; s_edges := s_edges s; s_blobs := s_blobs s; queue := queue s; analyzed := analyzed s;
  s_issues := s_issues s; partial_reasons := partial_reasons s |}.
Definition push_edge (e : DerivationEdge) (s : State) : State := {|
  policy := policy s; budget := budget s; clock := clock s; s_root := s_root s; s_root_name := s_root_name s;
  s_objects := s_objects s; object_index := object_index s; s_edges := s_edges s ++ [e]; s_blobs := s_blobs s; queue := queue s;
  analyzed := analyzed s; s_issues := s_issues s; partial_reasons := partial_reasons s |}.
Definition push_issue (i : AttachmentIssue) (partial : bool) (s : State) : State := {|
  policy := policy s; budget := budget s; clock := clock s; s_root := s_root s; s_root_name := s_root_name s;
  s_objects := s_objects s; object_index := object_index s; s_edges := s_edges s; s_blobs := s_blobs s; queue := queue s;
  analyzed := analyzed s; s_issues := s_issues s ++ [i];
  partial_reasons := if partial then {[issue_code i]} ∪ partial_reasons s else partial_reasons s |}.
Definition set_queue (q : list (text * Z)) (a : gset text) (s : State) : State := {|
  policy := policy s; budget := budget s; clock := clock s; s_root := s_root s; s_root_name := s_root_name s;
  s_objects := s_objects s; object_index := object_index s; s_edges := s_edges s; s_blobs := s_blobs s; queue := q;
  analyzed := a; s_issues := s_issues s; partial_reasons := partial_reasons s |}.
Definition set_root (id : text) (n : LogicalName) (s : State) : State := {|
  policy := policy s; budget := budget s; clock := clock s; s_root := Some id; s_root_name := Some n; s_objects := s_objects s;
  object_index := object_index s; s_edges := s_edges s; s_blobs := s_blobs s; queue := queue s; analyzed := analyzed s;
  s_issues := s_issues s; partial_reasons := partial_reasons s |}.
(** A new object with its bytes, at the end of the queue *)
Definition add_object (o : ObjectRecord) (bytes : list Z) (s : State) : State := {|
  policy := policy s; budget := budget s; clock := clock s; s_root := s_root s; s_root_name := s_root_name s;
  s_objects := s_objects s ++ [o]; object_index := <[o_id o := length (s_objects s)]> (object_index s); s_edges := s_edges s;
  s_blobs := <[o_id o := bytes]> (s_blobs s); queue := queue s ++ [(o_id o, first_depth o)]; analyzed := analyzed s;
  s_issues := s_issues s; partial_reasons := partial_reasons s |}.

(** ** Errors and the budget *)

Definition error_of (c : string) (k : Limits.IssueClass) (m : string) (o : option text) (r : bool) : Limits.AttachmentError :=
  {| Limits.code := c; Limits.class := k; Limits.safe_message := str m; Limits.object_id := o; Limits.retryable := r |}.

(** [if let Err(error) = m], [match m]: the error is a value; panics are not. *)
Definition attempt {S E F A} (m : SM S (fault E) A) : SM S (fault F) (result E A) := λ s,
  match m s with
  | (Ok a, s) => (Ok (Ok a), s)
  | (Err (Fail e), s) => (Ok (Err e), s)
  | (Err Panic, s) => (Err Panic, s)
  | (Err OutOfFuel, s) => (Err OutOfFuel, s)
  end.
(** [let _ = m;] *)
Definition ignore {S E F A} (m : SM S (fault E) A) : SM S (fault F) unit := attempt m ;; mret tt.

(** A fallible method as one that may also panic *)
Definition fallible {S E A} (m : SM S E A) : SM S (fault E) A := λ s,
  match m s with (Ok a, s) => (Ok a, s) | (Err e, s) => (Err (Fail e), s) end.
(** An operation of the ledger, with the time it reads *)
Definition on_ledger {A} (op : SM Ledger.BudgetLedger Limits.AttachmentError A) : SM State Limits.AttachmentError A := λ s,
  let '(r, b) := op (budget s) in (r, set_budget b (clock s) s).
Definition on_timed {A} (op : Z → SM Ledger.BudgetLedger Limits.AttachmentError A) : SM State Limits.AttachmentError A := λ s,
  let '(elapsed, c) := clock_elapsed (clock s) in on_ledger (op elapsed) (set_budget (budget s) c s).
Definition ledger {A} (op : SM Ledger.BudgetLedger Limits.AttachmentError A) : insp A := fallible (on_ledger op).
Definition timed {A} (op : Z → SM Ledger.BudgetLedger Limits.AttachmentError A) : insp A := fallible (on_timed op).
Definition check_deadline : insp unit := timed Ledger.check_deadline.
Definition charge_entry : insp unit := timed Ledger.charge_entry.
Definition charge_edge (depth : Z) : insp unit := timed (λ t, Ledger.charge_edge t depth).
Definition charge_derived_chunk (bytes : Z) : insp unit := timed (λ t, Ledger.charge_derived_chunk t bytes).
Definition charge_unique_object (bytes depth : Z) : insp unit := timed (λ t, Ledger.charge_unique_object t bytes depth).
Definition charge_root (bytes : Z) : insp unit := timed (λ t, Ledger.charge_root t bytes).
Definition check_declared_member (declared : Z) (compressed : option Z) : insp unit :=
  ledger (Ledger.check_declared_member declared compressed).

(** [read_derived_bounded(reader, &mut self.budget, compressed)] *)
#[export] Instance clocked_decoder : ByteReader (C * D) := {
  source_elapsed w := let '(t, c) := clock_elapsed w.1 in (t, (c, w.2));
  source_read w n := let '(r, d) := decoder_read w.2 n in (r, (w.1, d));
}.
Definition read_derived_bounded (d : D) (compressed : option Z) : SM State (fault Stream.ReadFailure) (list Z) := λ s,
  let '(r, (b, (c, _))) := Stream.read_derived_bounded compressed (budget s, (clock s, d)) in (r, set_budget b c s).

(** ** Issues, statuses and edges *)

Definition issue (code : text) (class : Limits.IssueClass) (sev : IssueSeverity) (object : option text) (message : text)
    (makes_partial : bool) : insp unit :=
  sm_modify (push_issue {| issue_code := code; issue_class := class; severity := sev; issue_object_id := object;
                           edge_index := None; issue_message := message |} makes_partial).
(** An issue of a container, with a literal code and message *)
Definition parent_issue (parent : text) (code : string) (class : Limits.IssueClass) (sev : IssueSeverity) (message : string)
    (makes_partial : bool) : insp unit :=
  issue (str code) class sev (Some parent) (str message) makes_partial.
Definition record_budget_issue (object : text) (e : Limits.AttachmentError) : insp unit :=
  issue (str (Limits.code e)) Limits.Budget Blocked (Some object) (Limits.safe_message e) true.

Definition object_index_missing (id : text) : Limits.AttachmentError :=
  error_of "object_index_missing" Limits.Internal "An inspected object is absent from its index." (Some id) false.
Definition object_record_missing (id : text) : Limits.AttachmentError :=
  error_of "object_record_missing" Limits.Internal "An inspected object record is absent." (Some id) false.
Definition object (id : text) : insp ObjectRecord :=
  s ← sm_get ;
  index ← sm_lift (need (object_index s !! id) (object_index_missing id)) ;
  sm_lift (need (s_objects s !! index) (object_record_missing id)).
(** [self.object_mut(id)?], and the write to what it returns *)
Definition object_mut (id : text) (f : ObjectRecord → ObjectRecord) : insp unit :=
  s ← sm_get ;
  index ← sm_lift (need (object_index s !! id) (object_index_missing id)) ;
  o ← sm_lift (need (s_objects s !! index) (object_record_missing id)) ;
  sm_modify (set_objects (<[index := f o]> (s_objects s))).

Definition with_status (x : ObjectStatus) (o : ObjectRecord) : ObjectRecord := {|
  o_id := o_id o; o_sha256 := o_sha256 o; o_byte_len := o_byte_len o; detection := detection o; status := x;
  first_depth := first_depth o; artifact_ids := artifact_ids o |}.
Definition with_detection (x : Detection) (o : ObjectRecord) : ObjectRecord := {|
  o_id := o_id o; o_sha256 := o_sha256 o; o_byte_len := o_byte_len o; detection := x; status := status o;
  first_depth := first_depth o; artifact_ids := artifact_ids o |}.
Definition set_status (id : text) (x : ObjectStatus) : insp unit := object_mut id (with_status x).

Definition provenance (k : TransformKind) : TransformProvenance := {| kind := k; implementation := IMPLEMENTATION; version := VERSION |}.
Definition new_edge (parent : text) (depth : Z) (n : LogicalName) (k : TransformKind) (declared compressed : option Z)
    (range : option ByteRange) : DerivationEdge := {|
  parent := parent; child := None; depth := depth; name := n; transform := provenance k; declared_uncompressed_bytes := declared;
  compressed_bytes := compressed; source_range := range; outcome := Malformed |}.
Definition with_child (c : option text) (o : EdgeOutcome) (e : DerivationEdge) : DerivationEdge := {|
  parent := parent e; child := c; depth := depth e; name := name e; transform := transform e;
  declared_uncompressed_bytes := declared_uncompressed_bytes e; compressed_bytes := compressed_bytes e;
  source_range := source_range e; outcome := o |}.
(** [edge.outcome = o; self.edges.push(edge);] *)
Definition push (o : EdgeOutcome) (e : DerivationEdge) : insp unit := sm_modify (push_edge (with_child (child e) o e)).

(** ** Objects *)

Definition derived_bytes_overflow : Limits.AttachmentError :=
  Limits.budget "derived_bytes_overflow" "A derived object length cannot be represented safely.".
Definition new_object (id : text) (bytes : list Z) (d : Detection) (depth : Z) : ObjectRecord := {|
  o_id := id; o_sha256 := id; o_byte_len := len bytes; detection := d; status := StatusComplete; first_depth := depth;
  artifact_ids := [] |}.
Definition mismatch_issue (code : string) (m : option DetectionMismatch) (id : text) (subject : string) : insp unit :=
  match m with
  | None => mret tt
  | Some x =>
    issue (str code) Limits.Detection Warning (Some id)
      (str subject ++ str " suggests " ++ mismatch_hint x ++ str ", but its bytes indicate " ++ mismatch_detected x ++ str ".") false
  end.

Definition insert_root (input : ProvidedAttachment) : insp unit :=
  let bytes := provided_bytes input in
  byte_len ← sm_lift (need (try_from u64_max (len bytes))
    (Limits.budget "root_bytes_overflow" "The attachment length cannot be represented safely.")) ;
  charge_root byte_len ;;
  let id := sha256_hex bytes in
  let d := detect infer_mime (display_name input) (provided_media_type input) bytes in
  mismatch_issue "declared_type_mismatch" (mismatch d) id "The attachment name or declared type" ;;
  sm_modify (add_object (new_object id bytes d 0) bytes) ;;
  sm_modify (set_root id (provided (display_name input))).

Definition finish_child (e : DerivationEdge) (bytes : list Z) (declared : option text) : insp unit :=
  match try_from u64_max (len bytes) with
  | None => push BudgetExceeded e ;; sm_throw (Fail derived_bytes_overflow)
  | Some byte_len =>
    let id := sha256_hex bytes in
    s ← sm_get ;
    if bool_decide (is_Some (object_index s !! id)) then sm_modify (push_edge (with_child (Some id) Duplicate e))
    else
      r ← attempt (charge_unique_object byte_len (depth e)) ;
      match r with
      | Err error => sm_modify (push_edge (with_child None BudgetExceeded e)) ;; sm_throw (Fail error)
      | Ok _ =>
        let d := detect infer_mime (display (name e)) declared bytes in
        mismatch_issue "archive_member_type_mismatch" (mismatch d) id "An archive member name" ;;
        sm_modify (add_object (new_object id bytes d (depth e)) bytes) ;;
        sm_modify (push_edge (with_child (Some id) Derived e))
      end
  end.
(** [if let Err(error) = m { self.record_budget_issue(parent, &error) }] *)
Definition recorded (parent : text) (m : insp unit) : insp unit :=
  r ← attempt m ;
  match r with Ok _ => mret tt | Err e => record_budget_issue parent e end.

Definition container_label (f : option DetectedFormat) : text :=
  match f with Some f => canonical_media_type f | None => str "unknown container" end.
Definition mark_unsupported_container (id : text) (f : option DetectedFormat) : insp unit :=
  ignore (set_status id (StatusUnsupported (str "container_decoder_unavailable"))) ;;
  issue (str "container_decoder_unavailable") Limits.Unsupported Blocked (Some id)
    (str "The " ++ container_label f ++ str " container was detected, but its audited decoder is not enabled in the safe core.") true.

Definition is_confirmed (f : DetectedFormat) (c : FormatCandidate) : bool :=
  bool_decide (candidate_format c = f) && match confidence c with ParserConfirmed => true | _ => false end.
Definition refine_detection (f : DetectedFormat) (d : Detection) : Detection := {|
  selected := Some f;
  candidates := if existsb (is_confirmed f) (candidates d) then candidates d
                else {| candidate_format := f; confidence := ParserConfirmed; evidence := ContainerMembers; candidate_offset := 0 |}
                     :: candidates d;
  AttachmentTypes.extension_hint := AttachmentTypes.extension_hint d; declared_media_type := declared_media_type d;
  mismatch := mismatch d |}.
Definition refine_zip_detection (id : text) (f : DetectedFormat) : insp unit :=
  object_mut id (λ o, with_detection (refine_detection f (detection o)) o).

(** A container that is given up: its status and one issue *)
Definition reject_container (parent : text) (st : ObjectStatus) (code : string) (class : Limits.IssueClass) (message : string) : insp unit :=
  ignore (set_status parent st) ;;
  parent_issue parent code class Blocked message true.
Definition partial_status (reason : string) : ObjectStatus := StatusPartial [str reason].

(** The name of a member, under the policy *)
Definition member_name (raw : list Z) (index : Z) : insp NameDecision :=
  s ← sm_get ;
  sm_lift (logical_member_name hex_of raw index (Limits.max_name_bytes (policy_limits (policy s))) (path_policy (policy s))).
(** [if let Some(reason) = name.reason { .. }] *)
Definition name_issue (parent : text) (n : NameDecision) (message : string) : insp unit :=
  match reason n with
  | Some r => issue r Limits.Policy Warning (Some parent) (str message) (negb (accepted n))
  | None => mret tt
  end.
Definition ARCHIVE_NAME_ISSUE : string := "An archive member name was treated as inert metadata and sanitized.".
Definition depth_allows (depth : Z) : insp bool := s ← sm_get ; mret (Ledger.depth_allows_derivation (budget s) depth).
Definition child_depth (depth : Z) : Z := saturating_add u16_max depth 1.

(** An edge without a child, and why *)
Definition push_with_issue (o : EdgeOutcome) (e : DerivationEdge) (parent : text) (code : string) (class : Limits.IssueClass)
    (sev : IssueSeverity) (message : string) : insp unit :=
  push o e ;; parent_issue parent code class sev message true.
Definition push_over_budget (e : DerivationEdge) (parent : text) (error : Limits.AttachmentError) : insp unit :=
  push BudgetExceeded e ;; record_budget_issue parent error.

(** ** One compressed stream *)

Record CompressedStreamSpec := {
  compressed_source_len : Z; spec_raw_name : list Z; spec_transform : TransformKind; decode_error_code : string;
  decode_error_message : string }.

Definition expand_compressed_stream (parent : text) (depth : Z) (spec : CompressedStreamSpec) (d : D) : insp unit :=
  let child_depth := child_depth depth in
  recorded parent (
    charge_entry ;;
    n ← member_name (spec_raw_name spec) 0 ;
    charge_edge child_depth ;;
    let compressed := try_from u64_max (compressed_source_len spec) in
    let e := new_edge parent child_depth (logical n) (spec_transform spec) None compressed None in
    if negb (accepted n) then
      push RejectedName e ;;
      issue (match reason n with Some r => r | None => str "compressed_payload_name_rejected" end) Limits.Policy Warning (Some parent)
        (str "The compressed payload name was rejected as unsafe metadata.") true
    else
      allowed ← depth_allows child_depth ;
      if negb allowed then
        push_with_issue DepthExceeded e parent "attachment_depth_exceeded" Limits.Budget Blocked
          "The compressed payload was not derived beyond the configured depth."
      else
        decoded ← attempt (read_derived_bounded d compressed) ;
        match decoded with
        | Err (Stream.FailBudget error) => push_over_budget e parent error
        | Err Stream.FailIo =>
          push_with_issue Malformed e parent (decode_error_code spec) Limits.Malformed Blocked (decode_error_message spec)
        | Ok decoded => finish_child e decoded None
        end).

Definition expand_gzip (parent : text) (depth : Z) (bytes : list Z) : insp unit :=
  let '(filename, d) := gzip_decoder bytes in
  expand_compressed_stream parent depth
    {| compressed_source_len := len bytes; spec_raw_name := default (str "gzip-payload") filename; spec_transform := GzipPayload;
       decode_error_code := "gzip_decode_failed";
       decode_error_message := "The GZIP payload failed integrity or decompression checks." |} d.
Definition expand_bzip2 (parent : text) (depth : Z) (bytes : list Z) : insp unit :=
  expand_compressed_stream parent depth
    {| compressed_source_len := len bytes; spec_raw_name := str "bzip2-payload"; spec_transform := Bzip2Payload;
       decode_error_code := "bzip2_decode_failed";
       decode_error_message := "The BZIP2 payload failed integrity or decompression checks." |} (bzip2_decoder bytes).

Definition xz_class (c : Xz.XzPreflightClass) (code : string) : Limits.IssueClass * ObjectStatus :=
  match c with
  | Xz.Malformed => (Limits.Malformed, StatusMalformed (str code))
  | Xz.Unsupported => (Limits.Unsupported, StatusUnsupported (str code))
  | Xz.Limit => (Limits.Budget, partial_status code)
  end.
Definition expand_xz (parent : text) (depth : Z) (bytes : list Z) : insp unit :=
  s ← sm_get ;
  let l := policy_limits (policy s) in
  r ← attempt (sm_lift (Xz.preflight_xz bytes (Limits.max_container_metadata_bytes l / 2) (Limits.max_container_metadata_bytes l)
                          (Limits.max_decoder_window_bytes l))) ;
  match r with
  | Err e =>
    let '(class, st) := xz_class (Xz.class e) (Xz.code e) in
    reject_container parent st (Xz.code e) class (Xz.message e)
  | Ok _ =>
    expand_compressed_stream parent depth
      {| compressed_source_len := len bytes; spec_raw_name := str "xz-payload"; spec_transform := XzPayload;
         decode_error_code := "xz_decode_failed";
         decode_error_message := "The XZ payload failed integrity or decompression checks." |} (xz_decoder bytes)
  end.
Definition expand_zstd (parent : text) (depth : Z) (bytes : list Z) : insp unit :=
  s ← sm_get ;
  match zstd_decoder bytes (Limits.max_decoder_window_bytes (policy_limits (policy s))) with
  | Err WindowSizeTooBig =>
    reject_container parent (partial_status "zstd_window_limit_exceeded") "zstd_window_limit_exceeded" Limits.Budget
      "The Zstandard frame requests a decoder window larger than the configured memory limit."
  | Err OtherZstdError =>
    reject_container parent (StatusMalformed (str "zstd_structure_invalid")) "zstd_structure_invalid" Limits.Malformed
      "The attachment has Zstandard-like bytes but an invalid frame header."
  | Ok d =>
    expand_compressed_stream parent depth
      {| compressed_source_len := len bytes; spec_raw_name := str "zstd-payload"; spec_transform := ZstdPayload;
         decode_error_code := "zstd_decode_failed";
         decode_error_message := "The Zstandard payload failed integrity or decompression checks." |} d
  end.

(** ** TAR *)

(** A file of an archive: its bytes are read within the budget and must have the declared length. *)
Record MemberErrors := { decode_code : string; decode_message : string; size_code : string; size_message : string }.
Definition derive_member (parent : text) (e : DerivationEdge) (d : D) (size : Z) (compressed : option Z) (m : MemberErrors) : insp unit :=
  bytes ← attempt (read_derived_bounded d compressed) ;
  match bytes with
  | Err (Stream.FailBudget error) => push_over_budget e parent error
  | Err Stream.FailIo => push_with_issue Malformed e parent (decode_code m) Limits.Malformed Blocked (decode_message m)
  | Ok bytes =>
    if negb (bool_decide (try_from u64_max (len bytes) = Some size)) then
      push_with_issue Malformed e parent (size_code m) Limits.Integrity Blocked (size_message m)
    else finish_child e bytes None
  end.
Definition tar_errors : MemberErrors := {|
  decode_code := "tar_member_decode_failed"; decode_message := "A TAR member could not be read completely.";
  size_code := "tar_member_size_mismatch"; size_message := "A TAR member's decoded length does not match its declared length." |}.

Definition process_tar_entry (parent : text) (depth index : Z) (t : TarEntry D) : insp unit :=
  let child_depth := child_depth depth in
  ledger (Ledger.check_name_len (len (tar_path t))) ;;
  n ← member_name (tar_path t) index ;
  charge_edge child_depth ;;
  let e := new_edge parent child_depth (logical n) TarMember (Some (tar_size t)) (Some (tar_size t)) None in
  name_issue parent n ARCHIVE_NAME_ISSUE ;;
  if negb (accepted n) then push RejectedName e
  else if tar_is_dir t then push Directory e
  else if negb (tar_is_file t) then
    push_with_issue SpecialFile e parent "archive_special_file_skipped" Limits.Policy Warning
      "A TAR link, sparse object, device, pipe, or other special entry was not materialized or followed."
  else
    allowed ← depth_allows child_depth ;
    if negb allowed then
      push_with_issue DepthExceeded e parent "attachment_depth_exceeded" Limits.Budget Blocked
        "The member is visible in the graph but was not derived beyond the configured depth."
    else
      r ← attempt (check_declared_member (tar_size t) None) ;
      match r with
      | Err error => push_over_budget e parent error
      | Ok _ => derive_member parent e (tar_reader t) (tar_size t) None tar_errors
      end.

(** The loop over the entries: whether the archive is only partly inspected *)
Fixpoint tar_loop (parent : text) (depth index : Z) (l : list (option (TarEntry D))) (partial : bool) : insp bool :=
  match l with
  | [] => mret partial
  | entry :: l =>
    r ← attempt charge_entry ;
    match r with
    | Err error => record_budget_issue parent error ;; mret true
    | Ok _ =>
      match entry with
      | None =>
        parent_issue parent "tar_entry_metadata_invalid" Limits.Malformed Blocked "A TAR member has invalid metadata." true ;;
        mret true
      | Some t =>
        r ← attempt (process_tar_entry parent depth index t) ;
        match r with
        | Ok _ => tar_loop parent depth (index + 1) l partial
        | Err error =>
          record_budget_issue parent error ;;
          s ← sm_get ;
          if continue_after_child_error (policy s) then tar_loop parent depth (index + 1) l true else mret true
        end
      end
    end
  end.
Definition expand_tar (parent : text) (depth : Z) (bytes : list Z) : insp unit :=
  match tar_entries bytes with
  | None =>
    reject_container parent (StatusMalformed (str "tar_structure_invalid")) "tar_structure_invalid" Limits.Malformed
      "The attachment has TAR-like bytes but an invalid TAR structure."
  | Some entries =>
    partial ← tar_loop parent depth 0 entries false ;
    if (partial : bool) then ignore (set_status parent (partial_status "tar_child_processing_incomplete")) else mret tt
  end.
(** ** A granted stream

    [reader.take(left).read_to_end(..)]: every read but the last gives a byte. *)
Definition attachment_read_failed : Limits.AttachmentError :=
  error_of "attachment_read_failed" Limits.Malformed "The granted attachment stream could not be read completely." None true.
Fixpoint take_to_end (fuel : nat) (left : Z) (d : D) : parse Limits.AttachmentError (list Z) :=
  if left =? 0 then Ok []
  else match fuel, decoder_read d left with
    | O, _ => Err OutOfFuel
    | _, (None, _) => Err (Fail attachment_read_failed)
    | _, (Some [], _) => Ok []
    | S fuel, (Some chunk, d) => rest ← take_to_end fuel (left - len chunk) d ; mret (chunk ++ rest)
    end.

Definition from_bytes (name : text) (declared : option text) (bytes : list Z) : ProvidedAttachment :=
  {| display_name := name; provided_media_type := declared; provided_bytes := bytes |}.
Definition root_bytes_overflow (message : string) : Limits.AttachmentError := Limits.budget "root_bytes_overflow" message.
Definition root_bytes_exceeded (max : Z) : Limits.AttachmentError :=
  {| Limits.code := "root_bytes_exceeded"; Limits.class := Limits.Budget;
     Limits.safe_message := str "The attachment exceeds the configured " ++ decimal max ++ str " byte root limit.";
     Limits.object_id := None; Limits.retryable := false |}.
Definition read_bounded (name : text) (declared : option text) (d : D) (max_root_bytes : Z) : parse Limits.AttachmentError ProvidedAttachment :=
  let unrepresentable := root_bytes_overflow "The root attachment limit cannot be represented safely." in
  probe_limit ← need (checked_add u64_max max_root_bytes 1) unrepresentable ;
  _ ← need (try_from usize_max (Z.min max_root_bytes (1024 * 1024))) unrepresentable ;
  bytes ← take_to_end (Z.to_nat probe_limit) probe_limit d ;
  actual ← need (try_from u64_max (len bytes)) (root_bytes_overflow "The attachment length cannot be represented safely.") ;
  fail_if (max_root_bytes <? actual) (root_bytes_exceeded max_root_bytes) ;;
  mret (from_bytes name declared bytes).
End Inspection.
