(* ===== verification/InspectionContainers.v ===== *)
(** * InspectionContainers: ZIP, 7z, PDF, email and mailbox members

    Models the containers of [attachment-native-inspect/src/lib.rs] whose parsers admit
    their members first: ZIP behind its preflight and the admitted cursor, 7z as a stream of
    events, the embedded files of a PDF, the parts of an email and (of [mbox.rs]) the
    messages of a mailbox. What the parsers give is an interface ([Parsers] of
    Inspection.v); a vector that cannot be grown for want of memory is not modelled. *)

From S2P Require Import Prelude Bytes Text Utf8 Strings Sorting PdfPreflight MimePreflight PdfScan XzPreflight ZipPreflight Budget AttachmentTypes MemberNames Detect Inspection.
Local Open Scope Z_scope.

Definition MAX_PDF_STRUCTURE_NODES : Z := 1000000.

Record ZipEntryMetadata := { zip_index : Z; zip_file : ZipFile }.
Record SevenZipPending := { pending_edge : DerivationEdge; pending_declared : option Z; retain : bool; pending_bytes : list Z }.
Inductive PdfChildOutcome := Complete | PartialContinue | PartialStop.

(** [0o170000], [0o100000] and [0o040000] *)
Definition zip_mode_is_special (mode : option Z) : bool :=
  match mode with
  | None => false
  | Some mode =>
    let kind := Z.land mode 0xF000 in
    negb (kind =? 0) && negb (kind =? 0x8000) && negb (kind =? 0x4000)
  end.

Section Containers.
Context {C D : Type} `{!Parsers C D} `{!MailStream}.
Notation State := (InspectionState C).
Notation insp := (SM State (fault Limits.AttachmentError)).

Definition limits_of (s : State) : Limits.BudgetLimits := policy_limits (policy s).

(** [.expect(..)] *)
Definition expect {E A} (r : parse E A) : insp A := λ s,
  (match r with Ok a => Ok a | Err (Fail _) => Err Panic | Err Panic => Err Panic | Err OutOfFuel => Err OutOfFuel end, s).

(** ** ZIP *)

Definition zip_range (f : ZipFile) : option ByteRange :=
  (λ start, {| start := start; end_exclusive := saturating_add u64_max start (zf_compressed_size f) |}) <$> zf_data_start f.
Definition zip_errors : MemberErrors := {|
  decode_code := "zip_member_decode_failed"; decode_message := "A ZIP member failed integrity or decompression checks.";
  size_code := "zip_member_size_mismatch"; size_message := "A ZIP member's decoded length does not match its declared length." |}.

Definition process_zip_entry (parent : text) (depth : Z) (archive : ZipArchive D) (m : ZipEntryMetadata) : insp unit :=
  let child_depth := child_depth depth in
  let f := zip_file m in
  n ← member_name (zf_name_raw f) (zip_index m) ;
  charge_edge child_depth ;;
  name_issue parent n ARCHIVE_NAME_ISSUE ;;
  let e := new_edge parent child_depth (logical n) ZipMember (Some (zf_size f)) (Some (zf_compressed_size f)) (zip_range f) in
  if negb (accepted n) then push RejectedName e
  else if zf_is_dir f then push Directory e
  else if zf_is_symlink f || negb (zf_is_file f) || zip_mode_is_special (zf_unix_mode f) then
    push_with_issue SpecialFile e parent "archive_special_file_skipped" Limits.Policy Warning
      "A ZIP symlink or special filesystem entry was not materialized or followed."
  else if zf_encrypted f then
    push_with_issue Encrypted e parent "archive_member_encrypted" Limits.Encrypted Blocked
      "An encrypted ZIP member was not decrypted; coverage is incomplete."
  else
    allowed ← depth_allows child_depth ;
    if negb allowed then
      push_with_issue DepthExceeded e parent "attachment_depth_exceeded" Limits.Budget Blocked
        "The member is visible in the graph but was not derived beyond the configured depth."
    else
      r ← attempt (check_declared_member (zf_size f) (Some (zf_compressed_size f))) ;
      match r with
      | Err error => push_over_budget e parent error
      | Ok _ =>
        s ← sm_get ;
        if Ledger.derived_budget_exhausted (budget s) then
          push_with_issue BudgetExceeded e parent "total_derived_bytes_exceeded" Limits.Budget Blocked
            "The cumulative derived-byte budget is exhausted. This ZIP member's decoder was not opened."
        else
          match by_index archive (zip_index m) with
          | None =>
            push_with_issue UnsupportedCodec e parent "zip_codec_unsupported" Limits.Unsupported Blocked
              "A ZIP member uses an unsupported or invalid compression method."
          | Some d => derive_member parent e d (zf_size f) (Some (zf_compressed_size f)) zip_errors
          end
      end.

(** The loop that collects the metadata; [None] when the budget ends it. *)
Fixpoint zip_entries (parent : text) (archive : ZipArchive D) (indices : list Z) : insp (option (list ZipEntryMetadata)) :=
  match indices with
  | [] => mret (Some [])
  | index :: indices =>
    r ← attempt charge_entry ;
    match r with
    | Err error => record_budget_issue parent error ;; mret None
    | Ok _ =>
      match by_index_raw archive index with
      | None =>
        parent_issue parent "zip_entry_metadata_invalid" Limits.Malformed Blocked "A ZIP member has invalid metadata." true ;;
        zip_entries parent archive indices
      | Some f =>
        rest ← zip_entries parent archive indices ;
        mret ((λ l, {| zip_index := index; zip_file := f |} :: l) <$> rest)
      end
    end
  end.
(** The loop over the members: whether the archive is only partly inspected *)
Fixpoint zip_members (parent : text) (depth : Z) (archive : ZipArchive D) (l : list ZipEntryMetadata) (partial : bool) : insp bool :=
  match l with
  | [] => mret partial
  | m :: l =>
    r ← attempt (process_zip_entry parent depth archive m) ;
    match r with
    | Ok _ => zip_members parent depth archive l partial
    | Err error =>
      record_budget_issue parent error ;;
      s ← sm_get ;
      if continue_after_child_error (policy s) then zip_members parent depth archive l true else mret true
    end
  end.
Definition entry_key (m : ZipEntryMetadata) : list Z * Z := (zf_name_raw (zip_file m), zip_index m).
Definition entry_cmp (a b : list Z * Z) : comparison := match str_cmp a.1 b.1 with Eq => a.2 ?= b.2 | c => c end.

(** An issue and then the status, as the checks after the ZIP preflight order them *)
Definition decline (parent : text) (st : ObjectStatus) (code : string) (class : Limits.IssueClass) (message : text) : insp unit :=
  issue (str code) class Blocked (Some parent) message true ;;
  ignore (set_status parent st).

Definition expand_zip_archive (parent : text) (depth : Z) (archive : ZipArchive D) : insp unit :=
  entries ← zip_entries parent archive (Z.of_nat <$> seq 0 (Z.to_nat (zip_len archive))) ;
  match entries with
  | None => mret tt
  | Some entries =>
    let entries := sort_by entry_cmp entry_key entries in
    o ← attempt (object parent) ;
    let hint := match o with Ok o => AttachmentTypes.extension_hint (detection o) | Err _ => None end in
    let refined := classify_zip_members ((λ m, zf_name (zip_file m)) <$> entries) hint in
    r ← attempt (refine_zip_detection parent refined) ;
    match r with
    | Ok _ => mret tt
    | Err error => issue (str "zip_detection_refinement_failed") Limits.Internal Blocked (Some parent) (Limits.safe_message error) true
    end ;;
    partial ← zip_members parent depth archive entries false ;
    if (partial : bool) then ignore (set_status parent (partial_status "zip_child_processing_incomplete")) else mret tt
  end.

Definition expand_zip (parent : text) (depth : Z) (bytes : list Z) : insp unit :=
  summary ← attempt (sm_lift (Zip.preflight bytes)) ;
  match summary with
  | Err Zip.EndRecordAmbiguous =>
    reject_container parent (partial_status "zip_end_record_ambiguous") "zip_end_record_ambiguous" Limits.Integrity
      "Multiple ZIP footer framings end at the captured input boundary. The original bytes are retained without choosing an interpretation."
  | Err Zip.MultiDiskUnsupported =>
    reject_container parent (StatusUnsupported (str "zip_multi_disk_unsupported")) "zip_multi_disk_unsupported" Limits.Unsupported
      "Multi-disk ZIP archives are not supported by the bounded in-process inspector."
  | Err _ =>
    reject_container parent (StatusMalformed (str "zip_structure_invalid")) "zip_structure_invalid" Limits.Malformed
      "The attachment has ZIP-like bytes but an invalid ZIP end record or directory boundary."
  | Ok summary =>
    s ← sm_get ;
    if Ledger.remaining_entries (budget s) <? Zip.entries summary then
      decline parent (partial_status "archive_entry_limit_exceeded") "archive_entry_limit_exceeded" Limits.Budget
        (str "The ZIP declares " ++ decimal (Zip.entries summary)
         ++ str " entries, exceeding the remaining global entry budget. Its central directory was not materialized.")
    else if Limits.max_container_metadata_bytes (limits_of s) <? Zip.allocation_metadata_bytes summary then
      decline parent (partial_status "container_metadata_limit_exceeded") "container_metadata_limit_exceeded" Limits.Budget
        (str "The ZIP directory and ZIP64 extensible data declare " ++ decimal (Zip.allocation_metadata_bytes summary)
         ++ str " bytes, exceeding the configured " ++ decimal (Limits.max_container_metadata_bytes (limits_of s))
         ++ str " byte container-metadata limit. They were not materialized.")
    else
      valid ← attempt (sm_lift (Zip.validate_directory bytes summary)) ;
      match valid with
      | Err _ =>
        reject_container parent (StatusMalformed (str "zip_directory_metadata_invalid")) "zip_directory_metadata_invalid" Limits.Integrity
          "The ZIP directory extent or actual record count disagrees with its footer. No members were admitted."
      | Ok _ =>
        cursor ← expect (Zip.new summary) ;
        offset ← expect (Zip.archive_offset summary) ;
        match zip_archive bytes offset cursor with
        | None =>
          reject_container parent (StatusMalformed (str "zip_structure_invalid")) "zip_structure_invalid" Limits.Malformed
            "The attachment has ZIP-like bytes but an invalid ZIP structure."
        | Some archive =>
          match try_from u32_max (zip_len archive) with
          | None =>
            decline parent (partial_status "zip_entry_count_overflow") "zip_entry_count_overflow" Limits.Budget
              (str "The ZIP entry count cannot be represented safely.")
          | Some count =>
            if negb (count =? Zip.entries summary) then
              decline parent (StatusMalformed (str "zip_entry_count_mismatch")) "zip_entry_count_mismatch" Limits.Integrity
                (str "The ZIP parser entry count disagrees with the allocation preflight record.")
            else if Ledger.remaining_entries (budget s) <? count then
              decline parent (partial_status "archive_entry_limit_exceeded") "archive_entry_limit_exceeded" Limits.Budget
                (str "The ZIP contains " ++ decimal count
                 ++ str " entries, exceeding the remaining global entry budget. No attacker-selected subset was scanned.")
            else expand_zip_archive parent depth archive
          end
        end
      end
  end.

(** ** 7z *)

Definition SMALL_BUFFER : Z := 64 * 1024.
Definition seven_zip_limits (s : State) : SevenZipLimits :=
  let l := limits_of s in {|
  decoded_total := Ledger.remaining_derived_bytes (budget s);
  entry_bytes := Limits.max_object_bytes l;
  entries_limit := Z.min (Ledger.remaining_entries (budget s)) (Ledger.remaining_edges (budget s));
  metadata_limit := Z.min usize_max (Limits.max_container_metadata_bytes l);
  codec_memory := Z.min usize_max (Z.min (Z.min (Limits.max_container_metadata_bytes l) (Limits.max_parser_input_bytes l))
                                         (Limits.max_decoder_window_bytes l));
  path_bytes := Limits.max_name_bytes l;
  nesting := saturating_add u16_max (Limits.max_depth l) 1;
  filter_depth := 1;
  in_flight := Z.min usize_max (Z.min (Limits.max_object_bytes l) SMALL_BUFFER) |}.

Definition budget_entry_index (s : State) : Z :=
  saturating_sub (saturating_sub (Limits.max_entries (limits_of s)) (Ledger.remaining_entries (budget s))) 1.

Definition pend (e : DerivationEdge) (o : EdgeOutcome) (declared : option Z) (keep : bool) : SevenZipPending :=
  {| pending_edge := with_child (child e) o e; pending_declared := declared; retain := keep; pending_bytes := [] |}.
Definition begin_seven_zip_entry (parent : text) (depth : Z) (m : EntryMetadata) : insp SevenZipPending :=
  charge_entry ;;
  let child_depth := child_depth depth in
  s ← sm_get ;
  n ← member_name (em_path m) (budget_entry_index s) ;
  match em_size m with
  | Some bytes =>
    if bool_decide (em_kind m = EntrySymlink) && em_link_target m then
      bytes ← sm_lift (need (try_from usize_max bytes)
        (Limits.budget "derived_bytes_overflow" "A decoded 7z link-target length cannot be represented safely.")) ;
      charge_derived_chunk bytes
    else mret tt
  | None => mret tt
  end ;;
  charge_edge child_depth ;;
  name_issue parent n "A 7z member name was treated as inert metadata and sanitized." ;;
  let e := new_edge parent child_depth (logical n) SevenZipMember (em_size m) None None in
  let drop o := mret (pend e o (em_size m) false) in
  if negb (accepted n) then drop RejectedName
  else if bool_decide (em_kind m = EntryDir) then drop Directory
  else if em_encrypted m then
    parent_issue parent "seven_zip_member_encrypted" Limits.Encrypted Blocked
      "An encrypted 7z member was not decrypted; coverage is incomplete." true ;;
    drop Encrypted
  else if negb (bool_decide (em_kind m = EntryFile)) then
    parent_issue parent "archive_special_file_skipped" Limits.Policy Warning
      "A 7z link or special filesystem entry was retained only as inert metadata." true ;;
    drop SpecialFile
  else
    allowed ← depth_allows child_depth ;
    if negb allowed then
      parent_issue parent "attachment_depth_exceeded" Limits.Budget Blocked
        "The 7z member is visible in the graph but was not retained beyond the configured depth." true ;;
      drop DepthExceeded
    else
      match em_size m with
      | Some declared =>
        r ← attempt (check_declared_member declared None) ;
        match r with
        | Err error => record_budget_issue parent error ;; drop BudgetExceeded
        | Ok _ => mret (pend e Malformed (em_size m) true)
        end
      | None => mret (pend e Malformed (em_size m) true)
      end.

(** Whether the member is complete *)
Definition finish_seven_zip_entry (parent : text) (p : SevenZipPending) : insp bool :=
  if negb (retain p) then sm_modify (push_edge (pending_edge p)) ;; mret true
  else
    let e := pending_edge p in
    let mismatched := match pending_declared p with
      | Some declared => negb (bool_decide (try_from u64_max (len (pending_bytes p)) = Some declared))
      | None => false
      end in
    if mismatched then
      push_with_issue Malformed e parent "seven_zip_member_size_mismatch" Limits.Integrity Blocked
        "A 7z member's decoded length does not match its declared length." ;;
      mret false
    else
      r ← attempt (finish_child e (pending_bytes p) None) ;
      match r with
      | Ok _ => mret true
      | Err error => record_budget_issue parent error ;; mret false
      end.

Definition error_kind (k : option SevenZipErrorKind) : SevenZipErrorKind := default KindMalformed k.
Definition record_seven_zip_open_error (parent : text) (k : option SevenZipErrorKind) : insp unit :=
  match error_kind k with
  | KindLimit =>
    reject_container parent (partial_status "seven_zip_native_limit_exceeded") "seven_zip_native_limit_exceeded" Limits.Budget
      "The 7z archive exceeds an entry, decoded-byte, member, metadata, codec-memory, path, nesting, filter-depth, or in-flight safety limit."
  | KindUnsupported | KindCapability =>
    reject_container parent (StatusUnsupported (str "seven_zip_layout_unsupported")) "seven_zip_layout_unsupported" Limits.Unsupported
      "The 7z archive uses encryption, a coder, or a layout outside the audited in-process subset."
  | KindMalformed | KindIntegrity =>
    reject_container parent (StatusMalformed (str "seven_zip_structure_invalid")) "seven_zip_structure_invalid" Limits.Malformed
      "The attachment has 7z-like bytes but failed structural or integrity validation."
  | KindOther =>
    reject_container parent (partial_status "seven_zip_decoder_failed") "seven_zip_decoder_failed" Limits.Internal
      "The bounded 7z decoder could not establish complete coverage."
  end.
Definition push_pending (o : EdgeOutcome) (p : option SevenZipPending) : insp unit :=
  match p with Some p => push o (pending_edge p) | None => mret tt end.
Definition record_seven_zip_stream_error (parent : text) (p : option SevenZipPending) (k : option SevenZipErrorKind) : insp unit :=
  match error_kind k with
  | KindLimit =>
    push_pending BudgetExceeded p ;;
    parent_issue parent "seven_zip_native_limit_exceeded" Limits.Budget Blocked "A 7z member exceeded a native decoder safety limit." true
  | KindUnsupported | KindCapability =>
    push_pending UnsupportedCodec p ;;
    parent_issue parent "seven_zip_codec_unsupported" Limits.Unsupported Blocked
      "A 7z member uses encryption, a coder, or a layout outside the audited in-process subset." true
  | KindMalformed | KindIntegrity =>
    push_pending Malformed p ;;
    parent_issue parent "seven_zip_member_decode_failed" Limits.Malformed Blocked
      "A 7z member failed structural, integrity, or decompression validation." true
  | KindOther =>
    push_pending Malformed p ;;
    parent_issue parent "seven_zip_decoder_failed" Limits.Internal Blocked
      "The bounded 7z decoder could not establish complete coverage." true
  end.

Definition protocol_issue (parent : text) (message : string) : insp bool :=
  parent_issue parent "seven_zip_event_protocol_invalid" Limits.Internal Blocked message true ;; mret true.
Definition keep_chunk (chunk : list Z) (p : SevenZipPending) : SevenZipPending :=
  if retain p then {| pending_edge := pending_edge p; pending_declared := pending_declared p; retain := true;
                      pending_bytes := pending_bytes p ++ chunk |}
  else p.

(** The loop over the events: whether the archive is only partly inspected. A reader whose
    events do not end has no answer. *)
Fixpoint seven_zip_loop (parent : text) (depth : Z) (events : list (result (option SevenZipErrorKind) ReaderEvent))
    (pending : option SevenZipPending) (partial : bool) : insp bool :=
  match events with
  | [] => sm_throw OutOfFuel
  | event :: events =>
    late ← attempt check_deadline ;
    match late with
    | Err error => record_budget_issue parent error ;; mret true
    | Ok _ =>
      match event with
      | Err k => record_seven_zip_stream_error parent pending k ;; mret true
      | Ok ArchiveMetadata => seven_zip_loop parent depth events pending partial
      | Ok (Entry m) =>
        match pending with
        | Some _ => protocol_issue parent "The 7z decoder began a member before ending the previous member."
        | None =>
          r ← attempt (begin_seven_zip_entry parent depth m) ;
          match r with
          | Ok next => seven_zip_loop parent depth events (Some next) partial
          | Err error => record_budget_issue parent error ;; mret true
          end
        end
      | Ok (Data chunk) =>
        match pending with
        | None => protocol_issue parent "The 7z decoder emitted member bytes without an open member."
        | Some current =>
          r ← attempt (charge_derived_chunk (len chunk)) ;
          match r with
          | Err error => push BudgetExceeded (pending_edge current) ;; record_budget_issue parent error ;; mret true
          | Ok _ => seven_zip_loop parent depth events (Some (keep_chunk chunk current)) partial
          end
        end
      | Ok EndEntry =>
        match pending with
        | None => protocol_issue parent "The 7z decoder ended a member that was not open."
        | Some current =>
          complete ← finish_seven_zip_entry parent current ;
          if (complete : bool) then seven_zip_loop parent depth events None partial
          else
            s ← sm_get ;
            if continue_after_child_error (policy s) then seven_zip_loop parent depth events None true else mret true
        end
      | Ok Done =>
        match pending with
        | Some current =>
          push_with_issue Malformed (pending_edge current) parent "seven_zip_member_truncated" Limits.Malformed Blocked
            "The 7z archive ended before its current member ended." ;;
          mret true
        | None => mret partial
        end
      | Ok OtherEvent =>
        parent_issue parent "seven_zip_event_unsupported" Limits.Unsupported Blocked
          "The 7z decoder emitted an event this inspector does not support." true ;;
        mret true
      end
    end
  end.
Definition expand_seven_zip (parent : text) (depth : Z) (bytes : list Z) : insp unit :=
  s ← sm_get ;
  match seven_zip_reader bytes (seven_zip_limits s) with
  | Err k => record_seven_zip_open_error parent k
  | Ok events =>
    partial ← seven_zip_loop parent depth events None false ;
    if (partial : bool) then ignore (set_status parent (partial_status "seven_zip_inspection_incomplete")) else mret tt
  end.

(** ** PDF *)

(** [self.edges.push(edge); self.issue(..); return Ok(outcome);] *)
Definition pdf_child_failed (o : EdgeOutcome) (e : DerivationEdge) (parent : text) (code : string) (class : Limits.IssueClass)
    (message : string) (r : PdfChildOutcome) : insp PdfChildOutcome :=
  push_with_issue o e parent code class Blocked message ;; mret r.
Definition with_sizes (declared compressed : option Z) (e : DerivationEdge) : DerivationEdge := {|
  parent := parent e; child := child e; depth := depth e; name := name e; transform := transform e;
  declared_uncompressed_bytes := declared; compressed_bytes := compressed; source_range := source_range e; outcome := outcome e |}.

(** The bytes of an embedded stream *)
Definition derive_pdf_stream (doc : PdfDocument) (parent : text) (e : DerivationEdge) (d : PdfDictionary) (content : list Z) :
    insp PdfChildOutcome :=
  compressed ← sm_lift (need (try_from u64_max (len content))
    (Limits.budget "derived_bytes_overflow" "A PDF embedded stream length cannot be represented safely.")) ;
  let declared := declared_stream_size (dereference doc) d in
  let e := with_sizes declared (Some compressed) e in
  r ← match declared with
      | Some size => attempt (check_declared_member size (Some compressed))
      | None => mret (Ok tt)
      end ;
  match r with
  | Err error => push_over_budget e parent error ;; mret PartialContinue
  | Ok _ =>
    s ← sm_get ;
    let output_limit := Ledger.max_stream_output (budget s) (Some compressed) in
    if output_limit =? 0 then
      pdf_child_failed BudgetExceeded e parent "derived_stream_limit_exceeded" Limits.Budget
        "No global derived-byte budget remains for the PDF embedded stream." PartialContinue
    else
      match decompress_pdf d content output_limit with
      | Err MemoryLimitExceeded =>
        ledger (Ledger.charge_rejected_stream_attempt output_limit) ;;
        pdf_child_failed BudgetExceeded e parent "derived_stream_limit_exceeded" Limits.Budget
          "A PDF embedded stream exceeded its object, cumulative, or expansion-ratio limit." PartialStop
      | Err Unimplemented =>
        pdf_child_failed UnsupportedCodec e parent "pdf_embedded_file_codec_unsupported" Limits.Unsupported
          "A PDF embedded stream uses a compression filter unavailable in the safe core." PartialContinue
      | Err OtherPdfError =>
        pdf_child_failed Malformed e parent "pdf_embedded_file_decode_failed" Limits.Malformed
          "A PDF embedded stream failed bounded integrity or decompression checks." PartialContinue
      | Ok decoded =>
        charge_derived_chunk (len decoded) ;;
        if match declared with Some size => negb (bool_decide (try_from u64_max (len decoded) = Some size)) | None => false end then
          pdf_child_failed Malformed e parent "pdf_embedded_file_size_mismatch" Limits.Integrity
            "A PDF embedded stream's decoded length does not match its declared length." PartialContinue
        else
          r ← attempt (finish_child e decoded (declared_stream_media_type d)) ;
          match r with
          | Ok _ => mret Complete
          | Err error => record_budget_issue parent error ;; mret PartialStop
          end
      end
  end.

Definition process_pdf_embedded_file (parent : text) (depth index : Z) (doc : PdfDocument) (f : EmbeddedFile) : insp PdfChildOutcome :=
  let child_depth := child_depth depth in
  charge_entry ;;
  n ← member_name (raw_name f) index ;
  charge_edge child_depth ;;
  name_issue parent n "A PDF embedded-file name was treated as inert metadata and sanitized." ;;
  let e := new_edge parent child_depth (logical n) PdfEmbeddedFile None None None in
  if negb (accepted n) then push RejectedName e ;; mret PartialContinue
  else
    allowed ← depth_allows child_depth ;
    if negb allowed then
      pdf_child_failed DepthExceeded e parent "attachment_depth_exceeded" Limits.Budget
        "The PDF embedded file is visible in the graph but was not derived beyond the configured depth." PartialContinue
    else
      match stream_id f with
      | None =>
        pdf_child_failed Malformed e parent "pdf_embedded_file_reference_invalid" Limits.Malformed
          "A PDF file specification does not resolve to an indirect embedded-file stream." PartialContinue
      | Some id =>
        match get_object doc id with
        | Some (StreamObj d content) => derive_pdf_stream doc parent e d content
        | _ =>
          pdf_child_failed Malformed e parent "pdf_embedded_file_stream_invalid" Limits.Malformed
            "A PDF embedded-file reference does not resolve to a stream." PartialContinue
        end
      end.

(** The loop over the embedded files: whether one of them is incomplete *)
Fixpoint pdf_loop (parent : text) (depth index : Z) (doc : PdfDocument) (l : list EmbeddedFile) (partial : bool) : insp bool :=
  match l with
  | [] => mret partial
  | f :: l =>
    r ← attempt (process_pdf_embedded_file parent depth index doc f) ;
    match r with
    | Ok Complete => pdf_loop parent depth (index + 1) doc l partial
    | Ok PartialContinue => pdf_loop parent depth (index + 1) doc l true
    | Ok PartialStop => mret true
    | Err error => record_budget_issue parent error ;; mret true
    end
  end.
Definition mark_pdf_partial (parent : text) (reason : string) : insp unit := ignore (set_status parent (partial_status reason)).

Fixpoint active_issues (parent : text) (l : list ActiveContent) : insp unit :=
  match l with
  | [] => mret tt
  | a :: l => parent_issue parent (active_issue a).1 Limits.Policy Warning (active_issue a).2 false ;; active_issues parent l
  end.

(** What is done with a loaded document *)
Definition expand_pdf_document (parent : text) (depth : Z) (doc : PdfDocument) : insp unit :=
  if pdf_encrypted doc then
    reject_container parent (StatusUnsupported (str "pdf_encrypted_unsupported")) "pdf_encrypted_unsupported" Limits.Encrypted
      "The PDF is encrypted. No password was requested and embedded content was not decrypted."
  else
    scan ← attempt (scan_document doc MAX_PDF_STRUCTURE_NODES (on_timed Ledger.check_deadline)) ;
    match scan with
    | Err (Deadline error) =>
      record_budget_issue parent error ;;
      ignore (set_status parent (partial_status (Limits.code error)))
    | Err NodeLimit =>
      reject_container parent (partial_status "pdf_structure_scan_limit_exceeded") "pdf_structure_scan_limit_exceeded" Limits.Budget
        "The PDF structure exceeds the bounded passive-scan limit. No attacker-selected subset of embedded files was derived."
    | Ok scan =>
      active_issues parent (active_content scan) ;;
      s ← sm_get ;
      if bool_decide (embedded_files scan = []) then mret tt
      else if negb (inspect_pdf_embedded_files (policy s)) then
        reject_container parent (partial_status "pdf_embedded_file_inspection_disabled") "pdf_embedded_file_inspection_disabled"
          Limits.Policy "The PDF declares embedded files, but the inspection policy disables their derivation."
      else
        match try_from u32_max (len (embedded_files scan)) with
        | None =>
          reject_container parent (partial_status "pdf_embedded_file_count_overflow") "pdf_embedded_file_count_overflow" Limits.Budget
            "The PDF embedded-file count cannot be represented safely."
        | Some count =>
          if Ledger.remaining_entries (budget s) <? count then
            mark_pdf_partial parent "archive_entry_limit_exceeded" ;;
            issue (str "archive_entry_limit_exceeded") Limits.Budget Blocked (Some parent)
              (str "The PDF declares " ++ decimal count
               ++ str " embedded files, exceeding the remaining global entry budget. No attacker-selected subset was derived.") true
          else
            partial ← pdf_loop parent depth 0 doc (embedded_files scan) false ;
            if (partial : bool) then mark_pdf_partial parent "pdf_embedded_file_inspection_incomplete" else mret tt
        end
    end.

Definition expand_pdf (parent : text) (depth : Z) (bytes : list Z) : insp unit :=
  s ← sm_get ;
  let l := limits_of s in
  admitted ← attempt (sm_lift (PdfPreflight.preflight bytes (Ledger.remaining_objects (budget s)) (Ledger.remaining_entries (budget s))
                                 (Limits.max_container_metadata_bytes l))) ;
  match admitted with
  | Err e =>
    reject_container parent (partial_status (PdfPreflight.code e)) (PdfPreflight.code e) Limits.Budget (PdfPreflight.message e)
  | Ok _ =>
    match load_pdf bytes (Z.min usize_max (Z.min (Limits.max_container_metadata_bytes l) (Limits.max_object_bytes l))) with
    | Err MemoryLimitExceeded =>
      reject_container parent (partial_status "pdf_parser_stream_limit_exceeded") "pdf_parser_stream_limit_exceeded" Limits.Budget
        "A PDF object or cross-reference stream exceeded the configured bounded parser limit."
    | Err _ =>
      reject_container parent (StatusMalformed (str "pdf_structure_invalid")) "pdf_structure_invalid" Limits.Malformed
        "The attachment has PDF-like bytes but does not pass strict PDF structure parsing."
    | Ok doc => expand_pdf_document parent depth doc
    end
  end.

(** ** Email *)

(** A part whose edge is there: what becomes of it *)
Definition email_child (parent : text) (e : DerivationEdge) (n : NameDecision) (part : MailPart) (declared : Z) : insp unit :=
  if negb (accepted n) then
    push RejectedName e ;;
    issue (match reason n with Some r => r | None => str "email_part_name_rejected" end) Limits.Policy Warning (Some parent)
      (str "An email MIME part name was rejected as unsafe metadata.") true
  else
    allowed ← depth_allows (AttachmentTypes.depth e) ;
    if negb allowed then
      push_with_issue DepthExceeded e parent "attachment_depth_exceeded" Limits.Budget Blocked
        "The email MIME part was not derived beyond the configured depth."
    else
      r ← attempt (check_declared_member declared None) ;
      match r with
      | Err error => push_over_budget e parent error
      | Ok _ =>
        r ← attempt (charge_derived_chunk (len (part_contents part))) ;
        match r with
        | Err error => push_over_budget e parent error
        | Ok _ =>
          let media_type := (λ t, match t.2 with Some sub => t.1 ++ str "/" ++ sub | None => t.1 end) <$> content_type part in
          recorded parent (finish_child e (part_contents part) media_type)
        end
      end.
Fixpoint email_loop (parent : text) (depth index : Z) (l : list MailPart) : insp unit :=
  match l with
  | [] => mret tt
  | part :: l =>
    r ← attempt charge_entry ;
    match r with
    | Err error => record_budget_issue parent error
    | Ok _ =>
      let child_depth := child_depth depth in
      let raw_name := as_bytes (default (str "email-part-" ++ decimal index) (attachment_name part)) in
      n ← attempt (member_name raw_name index) ;
      match n with
      | Err error => record_budget_issue parent error ;; email_loop parent depth (index + 1) l
      | Ok n =>
        match try_from u64_max (len (part_contents part)) with
        | None =>
          parent_issue parent "email_part_size_overflow" Limits.Budget Blocked
            "An email MIME part length cannot be represented safely." true ;;
          email_loop parent depth (index + 1) l
        | Some declared =>
          r ← attempt (charge_edge child_depth) ;
          match r with
          | Err error => record_budget_issue parent error
          | Ok _ =>
            email_child parent (new_edge parent child_depth (logical n) EmailPart (Some declared) None None) n part declared ;;
            email_loop parent depth (index + 1) l
          end
        end
      end
    end
  end.
Definition expand_email (parent : text) (depth : Z) (bytes : list Z) : insp unit :=
  s ← sm_get ;
  let b := budget s in
  let max_parts := Z.min (Z.min (Ledger.remaining_entries b) (Ledger.remaining_edges b)) (Ledger.remaining_objects b) in
  admitted ← attempt (sm_lift (MimePreflight.preflight bytes max_parts (saturating_sub (Limits.max_depth (limits_of s)) depth)
                                 (Limits.max_container_metadata_bytes (limits_of s)) (Ledger.remaining_derived_bytes b))) ;
  match admitted with
  | Err e =>
    reject_container parent (partial_status (mime_code e)) (mime_code e) (mime_class e) (mime_message e)
  | Ok _ =>
    match parse_message bytes with
    | None =>
      reject_container parent (StatusMalformed (str "email_structure_invalid")) "email_structure_invalid" Limits.Malformed
        "The attachment resembles an email but its MIME structure is invalid."
    | Some m =>
      match try_from u32_max (attachment_count m) with
      | None =>
        parent_issue parent "email_part_count_overflow" Limits.Budget Blocked
          "The email attachment count cannot be represented safely." true
      | Some count =>
        if Ledger.remaining_entries b <? count then
          parent_issue parent "archive_entry_limit_exceeded" Limits.Budget Blocked
            "The email contains more MIME attachments than the remaining global entry budget; no attacker-selected subset was scanned." true
        else email_loop parent depth 0 (attachments m)
      end
    end
  end.

(** ** Mailboxes *)

Definition mbox_count (bytes : list Z) (limit : Z) : Z :=
  len (take (Z.to_nat (saturating_add usize_max limit 1)) (List.filter (λ l, starts_with l (str "From ")) (split_char 10 bytes))).
Fixpoint mbox_loop (parent : text) (depth index : Z) (l : list (option (list Z))) : insp unit :=
  match l with
  | [] => mret tt
  | message :: l =>
    r ← attempt charge_entry ;
    match r with
    | Err error => record_budget_issue parent error
    | Ok _ =>
      match message with
      | None =>
        parent_issue parent "mbox_parse_failed" Limits.Malformed Blocked "The mailbox could not be read completely." true
      | Some contents =>
        let child_depth := child_depth depth in
        r ← attempt (charge_edge child_depth) ;
        match r with
        | Err error => record_budget_issue parent error
        | Ok _ =>
          n ← attempt (member_name (as_bytes (str "message-" ++ decimal (index + 1) ++ str ".eml")) index) ;
          match n with
          | Err _ =>
            parent_issue parent "mbox_name_limit" Limits.Budget Blocked "The mailbox member name exceeds the name budget." true
          | Ok n =>
            let e := new_edge parent child_depth (logical n) MailboxMessage (Some (len contents)) None None in
            allowed ← depth_allows child_depth ;
            (if negb allowed then
               push_with_issue DepthExceeded e parent "attachment_depth_exceeded" Limits.Budget Blocked
                 "The mailbox message exceeds the derivation depth limit."
             else
               r ← attempt (check_declared_member (len contents) None ;; charge_derived_chunk (len contents)) ;
               match r with
               | Err error => push_over_budget e parent error
               | Ok _ =>
                 if negb (looks_like_email_bytes contents) then
                   push_with_issue Malformed e parent "mbox_message_invalid" Limits.Malformed Blocked
                     "A mailbox member does not contain recognizable email headers."
                 else recorded parent (finish_child e contents (Some (str "message/rfc822")))
               end) ;;
            mbox_loop parent depth (index + 1) l
          end
        end
      end
    end
  end.
Definition expand_mbox (parent : text) (depth : Z) (bytes : list Z) : insp unit :=
  s ← sm_get ;
  let limit := Z.min (Ledger.remaining_entries (budget s)) (Ledger.remaining_edges (budget s)) in
  let count := mbox_count bytes limit in
  if (count =? 0) || (limit <? count) then
    parent_issue parent "mbox_entry_limit" Limits.Budget Blocked "The mailbox exceeds the remaining message budget." true
  else mbox_loop parent depth 0 (mailbox_messages bytes).
End Containers.
