(* ===== verification/InspectionRun.v ===== *)
(** * InspectionRun: the loop of an inspection

    Models [Inspector::inspect] and [InspectionState::run] of
    [attachment-native-inspect/src/lib.rs]: objects are taken from a queue and expanded by
    their format until none is left; the graph is assembled and validated.

    The fuel of the loop is the limit on objects: an object is queued once, when it is
    found, and is charged to the budget then. *)

From S2P Require Import Prelude Bytes Text Utf8 Strings Sorting PdfPreflight MimePreflight PdfScan XzPreflight ZipPreflight Budget AttachmentTypes MemberNames Detect Inspection InspectionContainers.
Local Open Scope Z_scope.

Definition format_can_derive (f : DetectedFormat) : bool :=
  match f with
  | Zip | Docx | Pptx | Xlsx | Epub | OpenDocumentText | OpenDocumentSpreadsheet | OpenDocumentPresentation
  | IWorkPages | IWorkNumbers | IWorkKeynote | Tar | Gzip | Bzip2 | Xz | Zstd | SevenZip | Email | Mbox | Pdf => true
  | _ => false
  end.
(** The formats that go to a structured parser *)
Definition structured (f : DetectedFormat) : bool :=
  match f with
  | Zip | Docx | Pptx | Xlsx | Epub | OpenDocumentText | OpenDocumentSpreadsheet | OpenDocumentPresentation
  | IWorkPages | IWorkNumbers | IWorkKeynote | Pdf | Email | Mbox | SevenZip => true
  | _ => false
  end.

Section Run.
Context {C D : Type} `{!Parsers C D} `{!MailStream}.
Notation State := (InspectionState C).
Notation insp := (SM State (fault Limits.AttachmentError)).

Definition set_and_report (id : text) (st : ObjectStatus) (code : string) (class : Limits.IssueClass) (sev : IssueSeverity)
    (message : text) : insp unit :=
  set_status id st ;; issue (str code) class sev (Some id) message true.

(** The [match format] of the loop *)
Definition expand (id : text) (depth : Z) (bytes : list Z) (format : option DetectedFormat) : insp unit :=
  match format with
  | Some (Zip | Docx | Pptx | Xlsx | Epub | OpenDocumentText | OpenDocumentSpreadsheet | OpenDocumentPresentation
          | IWorkPages | IWorkNumbers | IWorkKeynote) => expand_zip id depth bytes
  | Some Tar => expand_tar id depth bytes
  | Some Gzip => expand_gzip id depth bytes
  | Some Bzip2 => expand_bzip2 id depth bytes
  | Some Xz => expand_xz id depth bytes
  | Some Zstd => expand_zstd id depth bytes
  | Some SevenZip => expand_seven_zip id depth bytes
  | Some Email => expand_email id depth bytes
  | Some Mbox => expand_mbox id depth bytes
  | Some Pdf => expand_pdf id depth bytes
  | Some (Rar | OleCompound) => mark_unsupported_container id format
  | Some Executable =>
    set_and_report id (StatusBlocked (str "executable_content_blocked")) "executable_content_blocked" Limits.Policy Blocked
      (str "Executable attachment content is retained for provenance but is not prepared for a model.")
  | Some UnknownBinary | None =>
    s ← sm_get ;
    match unknown_binary (policy s) with
    | UnknownReject =>
      set_and_report id (StatusUnsupported (str "unknown_binary_rejected")) "unknown_binary_rejected" Limits.Unsupported Blocked
        (str "The attachment format could not be established from its bytes.")
    | RecordOpaque =>
      set_and_report id StatusOpaque "unknown_binary_recorded" Limits.Unsupported Warning
        (str "The attachment format is unknown; its bytes remain opaque and will not be sent to a model by default.")
    end
  | _ => mret tt
  end.

Definition is_some_and {A} (p : A → bool) (o : option A) : bool := match o with Some a => p a | None => false end.

(** The body of the loop for one object *)
Definition inspect_object (id : text) (depth : Z) : insp unit :=
  check_deadline ;;
  s ← sm_get ;
  if bool_decide (id ∈ analyzed s) then mret tt
  else
    sm_modify (set_queue (queue s) ({[id]} ∪ analyzed s)) ;;
    bytes ← sm_lift (need (s_blobs s !! id)
      (error_of "object_blob_missing" Limits.Internal "An inspected object lost its content-addressed blob." (Some id) false)) ;
    o ← object id ;
    let format := selected (detection o) in
    if Ledger.derived_budget_exhausted (budget s) && is_some_and format_can_derive format then
      set_and_report id (partial_status "total_derived_bytes_exceeded") "total_derived_bytes_exceeded" Limits.Budget Blocked
        (str "The cumulative derived-byte budget is exhausted. This queued container was not opened or decoded.")
    else
      parser_input_bytes ← sm_lift (need (try_from u64_max (len bytes))
        (Limits.budget "parser_input_length_overflow" "A parser input length cannot be represented safely.")) ;
      if is_some_and structured format && (Limits.max_parser_input_bytes (limits_of s) <? parser_input_bytes) then
        set_and_report id (partial_status "parser_input_limit_exceeded") "parser_input_limit_exceeded" Limits.Budget Blocked
          (str "The structured parser input is " ++ decimal parser_input_bytes ++ str " bytes, exceeding the configured "
           ++ decimal (Limits.max_parser_input_bytes (limits_of s)) ++ str " byte parser boundary.")
      else expand id depth bytes format.

Fixpoint run_loop (fuel : nat) : insp unit :=
  s ← sm_get ;
  match queue s, fuel with
  | [], _ => mret tt
  | _, O => sm_throw OutOfFuel
  | (id, depth) :: rest, S fuel =>
    sm_modify (set_queue rest (analyzed s)) ;;
    inspect_object id depth ;;
    run_loop fuel
  end.

(** [self.partial_reasons.into_iter().collect()] *)
Definition coverage_of (s : State) : Coverage :=
  if bool_decide (partial_reasons s = ∅) then CoverageComplete
  else CoveragePartial (merge_sort str_le (elements (partial_reasons s))).
(** The graph of a finished inspection *)
Definition graph_of (job_id root : text) (root_name : LogicalName) (s : State) : AttachmentGraph := {|
  g_schema := GRAPH_SCHEMA; g_job_id := job_id; AttachmentTypes.root := root; AttachmentTypes.root_name := root_name;
  objects := s_objects s; edges := s_edges s; issues := s_issues s; coverage := coverage_of s;
  AttachmentTypes.limits := limits_of s; AttachmentTypes.usage := Ledger.finish (budget s) |}.
Definition bundle_of (job_id root : text) (root_name : LogicalName) (s : State) : AttachmentBundle :=
  {| graph := graph_of job_id root root_name s; artifacts := []; blobs := s_blobs s |}.

Definition contract_invalid (e : ContractError) : Limits.AttachmentError :=
  {| Limits.code := "inspection_contract_invalid"; Limits.class := Limits.Internal; Limits.safe_message := contract_error_text e;
     Limits.object_id := None; Limits.retryable := false |}.
Definition run (job_id : text) : insp AttachmentBundle :=
  s ← sm_get ;
  run_loop (Z.to_nat (Limits.max_objects (limits_of s))) ;;
  s ← sm_get ;
  root ← sm_lift (need (s_root s)
    (error_of "root_object_missing" Limits.Internal "Attachment inspection did not retain its root object." None false)) ;
  root_name ← sm_lift (need (s_root_name s)
    (error_of "root_name_missing" Limits.Internal "Attachment inspection did not retain its root name." (Some root) false)) ;
  let bundle := bundle_of job_id root root_name s in
  sm_lift (map_fault contract_invalid (bundle_validate sha256_hex bundle)) ;;
  mret bundle.

(** [Inspector::new] and [Inspector::inspect] *)
Definition inspector_new (p : InspectionPolicy) : parse Limits.AttachmentError InspectionPolicy :=
  match limits_validate (policy_limits p) with
  | Ok _ => Ok p
  | Err (Fail e) => Err (Fail {| Limits.code := "inspection_policy_invalid"; Limits.class := Limits.Policy;
      Limits.safe_message := contract_error_text e; Limits.object_id := None; Limits.retryable := false |})
  | Err Panic => Err Panic
  | Err OutOfFuel => Err OutOfFuel
  end.
Definition inspect (p : InspectionPolicy) (job_id : text) (input : ProvidedAttachment) (c : C) : parse Limits.AttachmentError AttachmentBundle :=
  ((insert_root input ;; run job_id) (new p c)).1.
End Run.
