(* ===== verification/InspectionErrors.v ===== *)
(** * InspectionErrors: every refusal says what it refuses

    A valid graph has no issue without a code and a message. The issues of an inspection
    repeat the errors of the budget, of the member names and of the preflights, so that
    each of these errors must have both: here, function by function. *)

From S2P Require Import Prelude Bytes Text Utf8 Strings PdfPreflight MimePreflight XzPreflight Budget AttachmentTypes MemberNames.
Local Open Scope Z_scope.

(** ** Texts that are not blank *)

Definition seen (t : text) : bool := existsb (λ c, negb (is_whitespace c)) t.
Lemma blank_seen t : blank t = negb (seen t).
Proof.
  unfold blank, seen. apply eq_true_iff_eq. rewrite bool_decide_eq_true, trim_nil, negb_true_iff, <- not_true_iff_false, existsb_exists.
  rewrite Forall_forall. split.
  - intros H (c & Hc%list_elem_of_In & Hw). by rewrite H in Hw.
  - intros H c Hc. destruct (is_whitespace c) eqn:Hw; [done|]. exfalso. apply H. exists c. by rewrite <- list_elem_of_In, Hw.
Qed.
Lemma seen_not_blank t : seen t = true → blank t = false.
Proof. rewrite blank_seen. by intros ->. Qed.

Definition says (code message : text) : Prop := seen code = true ∧ seen message = true.

(** ** Results whose errors satisfy a predicate *)

Definition refuses {E A} (V : E → Prop) (r : parse E A) : Prop := ∀ e, r = Err (Fail e) → V e.

Section Refuses.
Context {E : Type} (V : E → Prop).
Lemma refuses_Ok {A} (a : A) : refuses V (Ok a).
Proof. by intros e. Qed.
Lemma refuses_bind {A B} (r : parse E A) (f : A → parse E B) : refuses V r → (∀ a, refuses V (f a)) → refuses V (r ≫= f).
Proof. intros Hr Hf e. destruct r as [a|x]; simpl; [apply Hf|]. intros [= ->]. by apply Hr. Qed.
Lemma refuses_need {A} (o : option A) e : V e → refuses V (need o e).
Proof. intros HV e'. destruct o; [done|]. by intros [= <-]. Qed.
Lemma refuses_fail_if b e : V e → refuses V (fail_if b e).
Proof. intros HV e'. destruct b; [|done]. by intros [= <-]. Qed.
Lemma refuses_Fail {A} e : V e → refuses V (Err (Fail e) : parse E A).
Proof. by intros HV e' [= <-]. Qed.
Lemma refuses_ok_or {A} (o : option A) : refuses V (ok_or o Panic).
Proof. by destruct o. Qed.
End Refuses.

Ltac refusal_step :=
  first [ done | apply refuses_Ok | apply refuses_ok_or | solve [auto with refuses nocore]
        | apply refuses_need; split; reflexivity | apply refuses_fail_if; split; reflexivity | apply refuses_Fail; split; reflexivity
        | apply refuses_bind; [|intros ?] | case_match ].
Ltac refusals := repeat refusal_step.

(** ** XZ *)

Section XzErrors.
Import Xz.
Definition xz_says (e : XzPreflightError) : Prop := says (str (Xz.code e)) (str (Xz.message e)).
Create HintDb refuses.

Lemma crc_refuses d x c m : says (str c) (str m) → refuses xz_says (validate_crc32 d x c m).
Proof. intros H. unfold validate_crc32. apply refuses_bind; [by apply refuses_fail_if|intros _; by apply refuses_fail_if]. Qed.
Lemma vli_loop_refuses n bs i v c e : refuses xz_says (parse_vli_loop n bs i v c e).
Proof. revert i v c. induction n as [|n IH]; intros i v c; cbn [parse_vli_loop]; refusals; apply IH. Qed.
Lemma vli_refuses bs c e : refuses xz_says (parse_vli bs c e).
Proof. apply vli_loop_refuses. Qed.
Lemma dictionary_refuses p : refuses xz_says (decode_lzma2_dictionary p).
Proof. unfold decode_lzma2_dictionary. refusals. Qed.
Lemma take_byte_refuses bs c e l : refuses xz_says (take_byte bs c e l).
Proof. unfold take_byte. refusals. Qed.
Lemma skip_refuses bs c e n l : refuses xz_says (skip_bytes bs c e n l).
Proof. unfold skip_bytes. refusals. Qed.
#[local] Hint Resolve vli_refuses dictionary_refuses take_byte_refuses skip_refuses : refuses.
Lemma take_u16_refuses bs c e : refuses xz_says (take_u16_be bs c e).
Proof. unfold take_u16_be. refusals. Qed.
#[local] Hint Resolve take_u16_refuses : refuses.
Lemma raw_chunk_refuses bs e c s : refuses xz_says (scan_raw_chunk bs e c s).
Proof. unfold scan_raw_chunk, uncompressed_overflow, uninitialized_dictionary. refusals. Qed.
Lemma lzma_chunk_refuses bs e c s : refuses xz_says (scan_lzma_chunk bs e c s).
Proof. unfold scan_lzma_chunk, uncompressed_overflow, uninitialized_dictionary. refusals. Qed.
#[local] Hint Resolve raw_chunk_refuses lzma_chunk_refuses : refuses.
Lemma scan_loop_refuses n bs e s : refuses xz_says (Xz.scan_loop n bs e s).
Proof. revert s. induction n as [|n IH]; intros s; cbn [Xz.scan_loop]; [done|]. refusals; apply IH. Qed.
#[local] Hint Resolve scan_loop_refuses : refuses.
Lemma chunks_refuses bs a e : refuses xz_says (scan_lzma2_chunks bs a e).
Proof. apply scan_loop_refuses. Qed.
Lemma header_refuses bs : refuses xz_says (validate_stream_header bs).
Proof. unfold validate_stream_header. refusals; by apply crc_refuses. Qed.
Lemma filter_refuses n h d i k c x : refuses xz_says (filter_loop n h d i k c x).
Proof. revert i c x. induction n as [|n IH]; intros i c x; cbn [filter_loop]; refusals; apply IH. Qed.
Lemma optional_vli_refuses b h c d : refuses xz_says (optional_vli b h c d).
Proof. unfold optional_vli. refusals. Qed.
#[local] Hint Resolve chunks_refuses header_refuses filter_refuses optional_vli_refuses : refuses.
Lemma block_header_refuses bs a b : refuses xz_says (inspect_block_header bs a b).
Proof. unfold inspect_block_header. refusals; by apply crc_refuses. Qed.
#[local] Hint Resolve block_header_refuses : refuses.
Lemma block_refuses bs a b c : refuses xz_says (inspect_actual_block bs a b c).
Proof. unfold inspect_actual_block. refusals. Qed.
#[local] Hint Resolve block_refuses : refuses.
Lemma layout_says bs a b : xz_says (layout_mismatch bs a b).
Proof. unfold layout_mismatch. by case_match. Qed.
Lemma layout_refuses c bs a b : refuses xz_says (fail_if c (layout_mismatch bs a b)).
Proof. apply refuses_fail_if, layout_says. Qed.
#[local] Hint Resolve layout_refuses : refuses.
Lemma walk_blocks_refuses n bs i c mb md a k l : refuses xz_says (walk_blocks n bs i c mb md a k l).
Proof. revert a k l. induction n as [|n IH]; intros a k l; cbn [walk_blocks]; refusals; apply IH. Qed.
Lemma records_refuses n bs i e c b k : refuses xz_says (check_records n bs i e c b k).
Proof. revert b k. induction n as [|n IH]; intros b k; cbn [check_records]; refusals; apply IH. Qed.
Lemma locate_refuses bs m : refuses xz_says (locate_index bs m).
Proof. unfold locate_index. refusals; by apply crc_refuses. Qed.
#[local] Hint Resolve walk_blocks_refuses records_refuses locate_refuses : refuses.
Lemma xz_refuses bs a b c : refuses xz_says (preflight_xz bs a b c).
Proof. unfold preflight_xz. refusals; by apply crc_refuses. Qed.
End XzErrors.

(** ** PDF *)

Definition pdf_says (e : PdfPreflightError) : Prop := says (str (PdfPreflight.code e)) (str (PdfPreflight.message e)).
Lemma blank_refuses n l : refuses pdf_says (skip_blank n l).
Proof. revert l. induction n as [|n IH]; intros l; cbn [skip_blank]; refusals; apply IH. Qed.
Lemma token_refuses l : refuses pdf_says (next_pdf_token l).
Proof. unfold next_pdf_token. apply refuses_bind; [apply blank_refuses|]. intros ?. refusals. Qed.
Lemma count_refuses n lim l c a b : refuses pdf_says (count_loop n lim l c a b).
Proof.
  revert l c a b. induction n as [|n IH]; intros l c a b; cbn [count_loop]; [done|]. apply refuses_bind; [apply token_refuses|].
  intros ?. refusals; apply IH.
Qed.
Lemma object_header_refuses l : refuses pdf_says (contains_object_header l).
Proof. unfold contains_object_header. refusals. Qed.
Lemma metadata_refuses a b c : refuses pdf_says (checked_metadata a b c).
Proof. unfold checked_metadata. refusals. Qed.
Create HintDb refuses.
#[local] Hint Resolve object_header_refuses metadata_refuses : refuses.
Lemma lines_refuses n mo mm l x m b : refuses pdf_says (scan_lines n mo mm l x m b).
Proof. revert l x m b. induction n as [|n IH]; intros l x m b; cbn [scan_lines]; refusals; apply IH. Qed.
Lemma maximum_refuses n name l m : refuses pdf_says (maximum_loop n name l m).
Proof. revert l m. induction n as [|n IH]; intros l m; cbn [maximum_loop]; refusals; apply IH. Qed.
Lemma count_name_refuses n name l c : refuses pdf_says (count_name_loop n name l c).
Proof. revert l c. induction n as [|n IH]; intros l c; cbn [count_name_loop]; refusals; apply IH. Qed.
Lemma pair_refuses n a b l : refuses pdf_says (name_pair_loop n a b l).
Proof. revert l. induction n as [|n IH]; intros l; cbn [name_pair_loop]; refusals; apply IH. Qed.
Lemma pdf_refuses l a b c : refuses pdf_says (PdfPreflight.preflight l a b c).
Proof.
  unfold PdfPreflight.preflight, count_object_declarations, has_name_pair, maximum_name_integer, count_name.
  pose proof count_refuses; pose proof lines_refuses; pose proof pair_refuses; pose proof maximum_refuses; pose proof count_name_refuses.
  refusals; auto.
Qed.

(** ** MIME *)

Definition mime_says (e : MimePreflightError) : Prop := says (str (mime_code e)) (str (mime_message e)).
Section MimeErrors.
Context `{MailStream}.
Lemma charge_part_refuses n m : refuses mime_says (charge_part n m).
Proof. unfold charge_part. refusals. Qed.
Lemma finish_refuses l n m p : refuses mime_says (MimePreflight.finish l n m p).
Proof. unfold MimePreflight.finish. refusals. Qed.
Lemma read_headers_refuses l c m x : refuses mime_says (read_headers l c m x).
Proof. unfold read_headers. refusals. Qed.
Lemma next_boundary_refuses l c b : refuses mime_says (next_boundary l c b).
Proof. unfold next_boundary. refusals. Qed.
Lemma close_refuses l c bs : refuses mime_says (close_boundaries l c bs).
Proof.
  revert c. induction bs as [|b bs IH]; intros c; cbn [close_boundaries]; [done|]. apply refuses_bind; [apply next_boundary_refuses|].
  intros ?. refusals; apply IH.
Qed.
Lemma open_refuses l c t : refuses mime_says (open_child l c t).
Proof. unfold open_child. refusals. Qed.
#[local] Hint Resolve charge_part_refuses finish_refuses read_headers_refuses close_refuses open_refuses : refuses.
Lemma round_refuses l a b c d w : refuses mime_says (round l a b c d w).
Proof. unfold round. refusals. Qed.
#[local] Hint Resolve round_refuses : refuses.
Lemma mime_walk_refuses l a b c d n w : refuses mime_says (walk l a b c d n w).
Proof. revert w. induction n as [|n IH]; intros w; cbn [walk]; refusals; apply IH. Qed.
Lemma mime_refuses l a b c d : refuses mime_says (MimePreflight.preflight l a b c d).
Proof. apply mime_walk_refuses. Qed.
End MimeErrors.

(** ** The budget and the names *)

Definition error_says (e : Limits.AttachmentError) : Prop := says (str (Limits.code e)) (Limits.safe_message e).

(** A ledger operation says why it fails. *)
Definition ledger_says {A} (m : SM Ledger.BudgetLedger Limits.AttachmentError A) : Prop := ∀ s e, (m s).1 = Err e → error_says e.
Lemma says_bind {A B} (m : SM Ledger.BudgetLedger Limits.AttachmentError A) (f : A → SM Ledger.BudgetLedger Limits.AttachmentError B) :
  ledger_says m → (∀ a, ledger_says (f a)) → ledger_says (m ≫= f).
Proof.
  intros Hm Hf s e. unfold mbind, sm_bind. specialize (Hm s). destruct (m s) as [[a|x] s']; [apply Hf|]. intros [= ->]. by apply Hm.
Qed.
Lemma says_get : ledger_says sm_get.
Proof. by intros s e. Qed.
Lemma says_update f : ledger_says (Ledger.update f).
Proof. by intros s e. Qed.
Lemma says_ret {A} (a : A) : ledger_says (mret a).
Proof. by intros s e. Qed.
Lemma says_lift {A} (o : option A) e : error_says e → ledger_says (sm_lift (ok_or o e)).
Proof. intros He s e'. destruct o; [done|]. by intros [= <-]. Qed.
Lemma says_reject b e : error_says e → ledger_says (sm_reject_if b e).
Proof. intros He s e'. destruct b; [|done]. by intros [= <-]. Qed.
Lemma says_throw {A} e : error_says e → ledger_says (sm_throw (A:=A) e).
Proof. by intros He s e' [= <-]. Qed.
Create HintDb ledger_says.
#[local] Hint Resolve says_get says_update says_ret : ledger_says.
Ltac ledger_step :=
  first [ solve [auto with ledger_says nocore] | apply says_lift; split; reflexivity | apply says_reject; split; reflexivity
        | apply says_throw; split; reflexivity | apply says_bind; [|intros ?] | case_match ].
Ltac ledger_says := repeat ledger_step.
Lemma check_deadline_says t : ledger_says (Ledger.check_deadline t).
Proof. unfold Ledger.check_deadline. ledger_says. Qed.
Lemma next_retained_says b : ledger_says (Ledger.next_retained_bytes b).
Proof. unfold Ledger.next_retained_bytes, Ledger.add_u64, Ledger.integer_overflow. ledger_says. Qed.
Lemma next_count_says : ledger_says Ledger.next_object_count.
Proof. unfold Ledger.next_object_count, Ledger.integer_overflow. ledger_says. Qed.
#[local] Hint Resolve check_deadline_says next_retained_says next_count_says : ledger_says.
Lemma charge_root_says t b : ledger_says (Ledger.charge_root t b).
Proof. unfold Ledger.charge_root, Ledger.add_u64, Ledger.integer_overflow. ledger_says. Qed.
Lemma charge_entry_says t : ledger_says (Ledger.charge_entry t).
Proof. unfold Ledger.charge_entry, Ledger.integer_overflow. ledger_says. Qed.
Lemma charge_edge_says t d : ledger_says (Ledger.charge_edge t d).
Proof. unfold Ledger.charge_edge, Ledger.integer_overflow. ledger_says. Qed.
Lemma charge_chunk_says t b : ledger_says (Ledger.charge_derived_chunk t b).
Proof. unfold Ledger.charge_derived_chunk, Ledger.add_u64, Ledger.integer_overflow. ledger_says. Qed.
Lemma charge_object_says t b d : ledger_says (Ledger.charge_unique_object t b d).
Proof. unfold Ledger.charge_unique_object. ledger_says. Qed.
Lemma declared_member_says d c : ledger_says (Ledger.check_declared_member d c).
Proof. unfold Ledger.check_declared_member, Ledger.integer_overflow. ledger_says. Qed.
Lemma name_len_says n : ledger_says (Ledger.check_name_len n).
Proof. unfold Ledger.check_name_len, Ledger.integer_overflow. ledger_says. Qed.

Lemma member_name_says hex raw i m p : refuses error_says (logical_member_name hex raw i m p).
Proof. unfold logical_member_name. refusals. Qed.
(** A decision about a name has a reason when the name is rejected, and says it. *)
Lemma member_name_reason hex raw i m p n : logical_member_name hex raw i m p = Ok n →
  (accepted n = false → is_Some (reason n)) ∧ ∀ r, reason n = Some r → seen r = true.
Proof.
  unfold logical_member_name. intros H. apply bind_Ok in H as (k & _ & H). revert H.
  repeat case_match; intros [= <-]; simpl; (split; [first [done | intros _; by eexists]|]); try (by intros r [= <-]).
  all: repeat case_match; by intros r [= <-].
Qed.

(** ** The bounded reader *)

Section ReadErrors.
Import Stream.
Context {W : Type} `{ByteReader W}.
Definition read_says {A} (m : SM (Ledger.BudgetLedger * W) (fault ReadFailure) A) : Prop :=
  ∀ s e, (m s).1 = Err (Fail (FailBudget e)) → error_says e.
Lemma read_says_bind {A B} (m : SM (Ledger.BudgetLedger * W) (fault ReadFailure) A) (f : A → SM (Ledger.BudgetLedger * W) (fault ReadFailure) B) :
  read_says m → (∀ a, read_says (f a)) → read_says (m ≫= f).
Proof.
  intros Hm Hf s e. unfold mbind, sm_bind. specialize (Hm s). destruct (m s) as [[a|x] s']; [apply Hf|]. intros [= ->]. by apply Hm.
Qed.
Lemma read_says_timed {A} (op : Z → SM Ledger.BudgetLedger Limits.AttachmentError A) : (∀ t, ledger_says (op t)) → read_says (timed op).
Proof.
  intros Hop [b w] e. unfold timed. destruct (source_elapsed w) as [t w']. specialize (Hop t b). destruct (op t b) as [[a|x] b']; [done|].
  intros [= ->]. by apply Hop.
Qed.
Lemma read_says_up_to k : read_says (read_up_to k).
Proof. intros [b w] e. unfold read_up_to. by destruct (source_read w k) as [[]]. Qed.
Lemma read_says_lift {A} (r : result (fault ReadFailure) A) : (∀ e, r = Err (Fail (FailBudget e)) → error_says e) → read_says (sm_lift r).
Proof. intros Hr s e. apply Hr. Qed.

Lemma read_loop_says k limit out : read_says (read_loop k limit out).
Proof.
  revert out. induction k as [|k IH]; intros out; cbn [read_loop]; [done|].
  apply read_says_bind; [apply read_says_timed, check_deadline_says|]. intros _.
  apply read_says_bind; [apply read_says_lift; intros e; destruct (try_from _ _); [done|]; by intros [= <-]|]. intros produced.
  destruct (produced =? limit).
  - apply read_says_bind; [apply read_says_up_to|]. intros probe. destruct (len probe =? 0); [done|]. by intros s e [= <-].
  - apply read_says_bind; [apply read_says_lift; intros e; unfold usize_sub; by destruct (checked_sub _ _)|]. intros left.
    apply read_says_bind; [apply read_says_up_to|]. intros chunk. destruct (len chunk =? 0); [done|].
    apply read_says_bind; [apply read_says_lift; intros e; destruct (checked_add _ _ _); [done|]; by intros [= <-]|]. intros next.
    apply read_says_bind; [apply read_says_lift; intros e; destruct (limit <? next); [|done]; by intros [= <-]|]. intros _.
    apply read_says_bind; [apply read_says_timed; intros t; apply charge_chunk_says|]. intros _. apply IH.
Qed.
Lemma read_derived_says c : read_says (read_derived_bounded c).
Proof.
  unfold read_derived_bounded. apply read_says_bind; [done|]. intros [b w].
  apply read_says_bind; [apply read_says_lift; intros e; destruct (_ =? 0); [|done]; by intros [= <-]|]. intros _. apply read_loop_says.
Qed.
End ReadErrors.
