(* ===== verification/InspectionInvariant.v ===== *)
(** * InspectionInvariant: what holds throughout an inspection

    The state of an inspection between any two operations, in four parts: its shape (the
    objects form a breadth-first tree whose queue is its unvisited end, the edges join
    objects one level apart), its books (the usage counts what is there), its issues, and
    its coverage (what is incomplete has a reason). An operation that is under way owes
    edges that it has charged, and holds bytes that it has charged and not yet retained.

    Every operation of Inspection.v keeps the invariant, and its errors say what they
    refuse. *)

From S2P Require Import Prelude Bytes Text Utf8 Strings Sorting PdfPreflight MimePreflight PdfScan XzPreflight ZipPreflight Budget AttachmentTypes AttachmentGraph MemberNames Detect Inspection InspectionErrors.
Local Open Scope Z_scope.

(** The laws of the decoders: what they yield is bytes in memory, no more than was asked for. *)
Definition ends {E} (l : list (result E ReaderEvent)) : Prop := Exists (λ e, match e with Err _ | Ok Done | Ok OtherEvent => True | _ => False end) l.
Fixpoint members_within {E} (limit : Z) (acc : list Z) (l : list (result E ReaderEvent)) : Prop :=
  match l with
  | [] => True
  | Ok (Data chunk) :: l => slice_ok (acc ++ chunk) ∧ len (acc ++ chunk) ≤ limit ∧ members_within limit (acc ++ chunk) l
  | Ok (Entry m) :: l => (∀ b, em_size m = Some b → 0 ≤ b) ∧ members_within limit [] l
  | _ :: l => members_within limit acc l
  end.
Class ParserLaws {C D : Type} `(!Parsers C D) := {
  decoder_contents : D → list Z;
  contents_ok d : slice_ok (decoder_contents d);
  read_contents d n chunk d' : 0 ≤ n → decoder_read d n = (Some chunk, d') →
    decoder_contents d = chunk ++ decoder_contents d' ∧ len chunk ≤ n ∧ (chunk = [] → n = 0 ∨ decoder_contents d = []);
  sha256_text l : is_sha256_text (sha256_hex l) = true;
  archive_ranges b n c a i f x : zip_archive b n c = Some a → by_index_raw a i = Some f → zf_data_start f = Some x →
    0 ≤ x ≤ u64_max ∧ 0 ≤ zf_compressed_size f;
  parts_ok b m part : parse_message b = Some m → part ∈ attachments m → slice_ok (part_contents part);
  messages_ok b l : Some l ∈ mailbox_messages b → slice_ok l;
  decompressed_ok d b n l : decompress_pdf d b n = Ok l → slice_ok l ∧ len l ≤ n;
  events_ok b l es : seven_zip_reader b l = Ok es → ends es ∧ members_within (entry_bytes l) [] es;
}.

(** ** The parts of the invariant *)

(** An object without its status and its detection, which may change *)
Definition no_detection : Detection := {|
  selected := None; candidates := []; AttachmentTypes.extension_hint := None; declared_media_type := None; mismatch := None |}.
Definition core (o : ObjectRecord) : ObjectRecord := with_status StatusComplete (with_detection no_detection o).
Definition place (o : ObjectRecord) : text * Z := (o_id o, first_depth o).

Record edge_sound (os : list ObjectRecord) (e : DerivationEdge) : Prop := {
  es_provenance : ∃ k, transform e = provenance k;
  es_parent : ∃ d, (parent e, d) ∈ (place <$> os) ∧ depth e = child_depth d;
  es_child : match child e with
    | Some c => ∃ d, (c, d) ∈ (place <$> os) ∧ (outcome e = Derived ∧ d = depth e ∨ outcome e = Duplicate ∧ d ≤ depth e)
    | None => must_have_child (outcome e) = false
    end;
  es_range r : source_range e = Some r → start r ≤ end_exclusive r;
}.
Definition issue_sound (os : list ObjectRecord) (i : AttachmentIssue) : Prop :=
  says (issue_code i) (issue_message i) ∧ edge_index i = None ∧ ∀ o, issue_object_id i = Some o → o ∈ (o_id <$> os).

(** The limits are machine integers, and the object that is expanded is within the depth. *)
Class Setting (p : InspectionPolicy) (d : Z) : Prop := {
  set_limits : BudgetProofs.limits_ok (policy_limits p);
  set_depth : 0 ≤ Limits.max_depth (policy_limits p) ≤ u16_max;
  set_at : 0 ≤ d ≤ Limits.max_depth (policy_limits p);
  set_metadata : 0 ≤ Limits.max_container_metadata_bytes (policy_limits p) ≤ u64_max;
}.

(** What is inspected: a root object with a name, under a policy *)
Record Subject := { subject_policy :> InspectionPolicy; subject_root : text; subject_name : LogicalName }.

Section Invariant.
Context {C D : Type} `{!Parsers C D} (p : Subject).
Notation State := (InspectionState C).
Notation insp := (SM State (fault Limits.AttachmentError)).
Notation Lm := (policy_limits p).

Definition object_sound (held : gmap text (list Z)) (o : ObjectRecord) : Prop :=
  o_sha256 o = o_id o ∧ artifact_ids o = [] ∧
  ∃ bytes, held !! o_id o = Some bytes ∧ slice_ok bytes ∧ o_id o = sha256_hex bytes ∧ o_byte_len o = len bytes.
Definition derived_sound (es : list DerivationEdge) (os : list ObjectRecord) (i : nat) (o : ObjectRecord) : Prop :=
  1 ≤ first_depth o ≤ Limits.max_depth Lm ∧ o_byte_len o ≤ Limits.max_object_bytes Lm ∧
  ∃ e, e ∈ es ∧ outcome e = Derived ∧ child e = Some (o_id o) ∧ parent e ∈ take i (o_id <$> os).

Definition cores (s : State) : list ObjectRecord := core <$> s_objects s.
Definition usage_of (s : State) : Limits.BudgetUsage := Ledger.usage (budget s).

(** [d] is the depth of the object that is being expanded, [n] how many have been. *)
Record shape (d : Z) (n : nat) (s : State) : Prop := {
  sh_policy : policy s = p;
  sh_root : s_root s = Some (subject_root p) ∧ s_root_name s = Some (subject_name p) ∧
    ∃ ro rest, cores s = ro :: rest ∧ o_id ro = subject_root p ∧ first_depth ro = 0;
  sh_derived i o : (0 < i)%nat → cores s !! i = Some o → derived_sound (s_edges s) (cores s) i o;
  sh_objects o : o ∈ cores s → object_sound (s_blobs s) o;
  sh_nodup : NoDup (o_id <$> cores s);
  sh_index id k : object_index s !! id = Some k ↔ (o_id <$> cores s) !! k = Some id;
  sh_blobs id : is_Some (s_blobs s !! id) → id ∈ (o_id <$> cores s);
  sh_order i j x y : (i ≤ j)%nat → cores s !! i = Some x → cores s !! j = Some y → first_depth x ≤ first_depth y;
  sh_bound o : o ∈ cores s → 0 ≤ first_depth o ≤ child_depth d;
  sh_queue : queue s = drop n (place <$> cores s);
  sh_analyzed : analyzed s = list_to_set (take n (o_id <$> cores s));
  sh_visited : (n ≤ length (cores s))%nat;
  sh_last k o : (n ≤ k)%nat → cores s !! k = Some o → d ≤ first_depth o;
  sh_edges e : e ∈ s_edges s → edge_sound (cores s) e;
}.

(** [owed] are the depths of the edges that are charged and not there, [held] the bytes that
    are charged and not retained. *)
Definition depths_of (s : State) (owed : list Z) : list Z := (first_depth <$> cores s) ++ (depth <$> s_edges s) ++ owed.
Record books (owed : list Z) (held : Z) (s : State) : Prop := {
  bk_limits : Ledger.limits (budget s) = Lm;
  bk_within : BudgetProofs.within Lm (usage_of s);
  bk_root ro rest : cores s = ro :: rest → o_byte_len ro = Limits.root_bytes (usage_of s) ∧ o_byte_len ro ≤ Limits.max_root_bytes Lm ∧
    total (o_byte_len <$> rest) + held ≤ Limits.total_derived_bytes (usage_of s);
  bk_objects : Limits.objects (usage_of s) = len (cores s);
  bk_edges : Limits.edges (usage_of s) = len (s_edges s) + len owed;
  bk_retained : Limits.retained_bytes (usage_of s) = total (o_byte_len <$> cores s);
  bk_deepest : Limits.deepest_object (usage_of s) = foldr Z.max 0 (depths_of s owed);
  bk_artifacts : Limits.text_bytes (usage_of s) = 0 ∧ Limits.media_objects (usage_of s) = 0 ∧ Limits.media_bytes (usage_of s) = 0 ∧
    Limits.transform_requests (usage_of s) = 0;
}.

Definition noted (s : State) : Prop := ∀ i, i ∈ s_issues s → issue_sound (cores s) i.

Definition flagged (s : State) : Prop := partial_reasons s ≠ ∅.
Definition covered (s : State) : Prop := partial_reasons s = ∅ →
  (∀ o, o ∈ s_objects s → status o = StatusComplete) ∧ (∀ i, i ∈ s_issues s → severity i ≠ Blocked) ∧
  (∀ e, e ∈ s_edges s → incomplete_outcome (outcome e) = false).
Lemma flag_raised i s : flagged (push_issue i true s).
Proof. unfold flagged. simpl. set_solver. Qed.
Lemma flag_kept i b s : flagged s → flagged (push_issue i b s).
Proof. unfold flagged. intros Hf. simpl. destruct b; [set_solver|done]. Qed.
Lemma flagged_covered s : flagged s → covered s.
Proof. intros Hf He. by destruct Hf. Qed.

(** *** What does not matter to the parts *)

Lemma shape_same d n s s' :
  policy s' = policy s → cores s' = cores s → s_root s' = s_root s → s_root_name s' = s_root_name s →
  object_index s' = object_index s → s_edges s' = s_edges s → s_blobs s' = s_blobs s → queue s' = queue s → analyzed s' = analyzed s →
  shape d n s → shape d n s'.
Proof. intros E1 E2 E3 E4 E5 E6 E7 E8 E9 []. split; rewrite ?E1, ?E2, ?E3, ?E4, ?E5, ?E6, ?E7, ?E8, ?E9; done. Qed.
Lemma books_same owed held s s' : budget s' = budget s → cores s' = cores s → s_edges s' = s_edges s → books owed held s → books owed held s'.
Proof.
  intros E1 E2 E3 []. unfold usage_of in *. split; unfold usage_of, depths_of in *; rewrite ?E1, ?E2, ?E3; done.
Qed.
Lemma noted_same s s' : s_issues s' = s_issues s → cores s' = cores s → noted s → noted s'.
Proof. unfold noted. by intros -> ->. Qed.

(** ** The invariant of an operation on the members of one object *)

Context (par : text) (d : Z) (n : nat).

(** Everything but the coverage; [whole] is all of it. *)
Record weak (owed : list Z) (held : Z) (s : State) : Prop := {
  wk_shape : shape d n s;
  wk_books : books owed held s;
  wk_noted : noted s;
  wk_parent : (par, d) ∈ (place <$> cores s);
}.
Definition whole (owed : list Z) (held : Z) (s : State) : Prop := weak owed held s ∧ covered s.
Definition weakly (s : State) : Prop := ∃ owed, weak owed 0 s.
Definition kept (s : State) : Prop := ∃ owed, whole owed 0 s.

Lemma weak_held owed held held' s : held' ≤ held → weak owed held s → weak owed held' s.
Proof.
  intros Hle [Hs [? ? Hr ? ? ? ? ?] Hn Hp]. split; [done| |done..]. split; [done..| |done|done|done|done|done].
  intros ro rest Hc. destruct (Hr ro rest Hc) as (? & ? & ?). split_and!; [done..|lia].
Qed.
Lemma whole_held owed held held' s : held' ≤ held → whole owed held s → whole owed held' s.
Proof. intros Hle [Hw Hc]. split; [by eapply weak_held|done]. Qed.
Lemma whole_kept owed held s : 0 ≤ held → whole owed held s → kept s.
Proof. intros. exists owed. by eapply whole_held. Qed.
Lemma weak_weakly owed held s : 0 ≤ held → weak owed held s → weakly s.
Proof. intros. exists owed. by eapply weak_held. Qed.
Lemma kept_weakly s : kept s → weakly s.
Proof. intros (owed & Hw & _). by exists owed. Qed.

(** The error of an operation says what it refuses, in a state that satisfies [P]. *)
Definition fails (P : State → Prop) (f : fault Limits.AttachmentError) (s : State) : Prop := ∃ e, f = Fail e ∧ error_says e ∧ P s.
Definition never {E} (_ : E) (_ : State) : Prop := False.

Lemma fails_mono (P Q : State → Prop) f s : (P s → Q s) → fails P f s → fails Q f s.
Proof. intros H (e & ? & ? & ?). exists e. auto. Qed.
Lemma attempt_spec {E F A} (m : SM State (fault E) A) Q (R : E → State → Prop) s :
  post m Q (λ f s, ∃ e, f = Fail e ∧ R e s) s →
  post (attempt (F:=F) m) (λ r s, match r with Ok a => Q a s | Err e => R e s end) never s.
Proof. unfold post, attempt. destruct (m s) as [[a|f] s']; [done|]. by intros (e & -> & H). Qed.
Lemma post_try {F A} (m : insp A) Q P s :
  post m Q (fails P) s → post (attempt (F:=F) m) (λ r s, match r with Ok a => Q a s | Err e => error_says e ∧ P s end) never s.
Proof. intros H. apply (attempt_spec m Q (λ e s, error_says e ∧ P s)). exact H. Qed.
Lemma post_never {A} (m : insp A) Q F s : post m Q never s → post m Q F s.
Proof. intros H. eapply post_mono; [exact H|done|done]. Qed.

(** ** The budget *)

Context `{!Setting p d}.
Notation cd := (child_depth d).

Lemma cd_range : 0 ≤ cd ≤ u16_max ∧ cd ≤ saturating_add u16_max (Limits.max_depth Lm) 1.
Proof. pose proof set_depth. pose proof set_at. unfold child_depth, saturating_add, u16_max in *. lia. Qed.

(** The ledger is replaced, and nothing else. *)
Definition reledger (b : Ledger.BudgetLedger) (s s' : State) : Prop := ∃ c, s' = set_budget b c s.

Lemma timed_spec op s :
  Ledger.limits (budget s) = Lm → BudgetProofs.within Lm (usage_of s) → BudgetProofs.op_ok op → (∀ t, ledger_says (BudgetProofs.run_op t op)) →
  post (timed (λ t, BudgetProofs.run_op t op))
    (λ _ s', ∃ b, reledger b s s' ∧ Ledger.limits b = Lm ∧ BudgetProofs.within Lm (Ledger.usage b) ∧
       BudgetProofs.accepts Lm (usage_of s) op ∧ Ledger.usage b = BudgetProofs.charged Lm (usage_of s) op)
    (fails (λ s', ∃ b t, reledger b s s' ∧ Ledger.limits b = Lm ∧ BudgetProofs.within Lm (Ledger.usage b) ∧
       Ledger.usage b = BudgetProofs.refused Lm (usage_of s) t op)) s.
Proof.
  intros Hl Hw Hop Hsays. unfold post, timed, fallible, on_timed, on_ledger. destruct (clock_elapsed (clock s)) as [t c].
  change (budget (set_budget (budget s) c s)) with (budget s).
  pose proof (BudgetProofs.run_op_spec (budget s) t op) as H. pose proof (BudgetProofs.run_op_within (budget s) t op) as Hwi.
  specialize (Hsays t (budget s)). destruct (BudgetProofs.run_op t op (budget s)) as [r b]. rewrite Hl in *.
  destruct (H set_limits Hw Hop) as [Hb Hcase]. destruct (Hwi set_limits Hw Hop) as (_ & Hw' & _). simpl in Hsays, Hw'.
  destruct Hcase as [([_ Hacc] & -> & Hu)|(_ & (e & -> & _) & Hu)].
  - exists b. split_and!; [by exists c|done..].
  - exists e. split_and!; [done|by apply Hsays|]. exists b, t. split_and!; [by exists c|done..].
Qed.

(** What a new ledger does to the parts *)
Lemma weak_reledger owed held owed' held' b s s' :
  reledger b s s' → weak owed held s → Ledger.limits b = Lm → BudgetProofs.within Lm (Ledger.usage b) →
  let u := Ledger.usage b in let v := usage_of s in
  Limits.objects u = Limits.objects v → Limits.retained_bytes u = Limits.retained_bytes v → Limits.root_bytes u = Limits.root_bytes v →
  Limits.total_derived_bytes v - held ≤ Limits.total_derived_bytes u - held' →
  Limits.edges u - len owed' = Limits.edges v - len owed →
  Limits.deepest_object u = foldr Z.max 0 (depths_of s owed') →
  Limits.text_bytes u = 0 ∧ Limits.media_objects u = 0 ∧ Limits.media_bytes u = 0 ∧ Limits.transform_requests u = 0 →
  weak owed' held' s'.
Proof.
  intros [c ->] [Hs [Bl Bw Br Bo Be Bt Bd Ba] Hn Hp] Hl Hw u v Ho Hr Hroot Hder Hed Hdeep Hart.
  split; [apply (shape_same d n s); [reflexivity..|done]| |done|done].
  split; [done|done| | | | |done|done]; change (usage_of (set_budget b c s)) with u; change (cores (set_budget b c s)) with (cores s).
  - intros ro rest Hc. destruct (Br ro rest Hc) as (? & ? & ?). fold v in H, H0, H1. split_and!; [congruence|congruence|lia].
  - fold v in Bo. congruence.
  - change (s_edges (set_budget b c s)) with (s_edges s). fold v in Be. lia.
  - fold v in Bt. congruence.
Qed.
Lemma whole_reledger owed held owed' held' b s s' :
  reledger b s s' → whole owed held s → weak owed' held' s' → whole owed' held' s'.
Proof. intros [c ->] [_ Hc] Hw. split; [done|exact Hc]. Qed.

(** A new ledger keeps the invariant: the usage is computed. *)
Ltac rebooked B Hu := eapply weak_reledger; try done; rewrite Hu; try done; try (by apply B); simpl.

Lemma charge_entry_whole owed held s : whole owed held s → post charge_entry (λ _, whole owed held) (fails (whole owed held)) s.
Proof.
  intros [Hw Hc]. pose proof (wk_books _ _ _ Hw) as B. eapply post_mono.
  - apply (timed_spec BudgetProofs.ChargeEntry); [by apply B|by apply B|done|exact charge_entry_says].
  - intros [] s' (b & Hr & Hl & Hwi & _ & Hu). eapply whole_reledger; [done|by split|]. rebooked B Hu; lia.
  - intros f s'. apply fails_mono. intros (b & t & Hr & Hl & Hwi & Hu). eapply whole_reledger; [done|by split|]. rebooked B Hu; lia.
Qed.

Lemma charge_edge_whole owed held s : whole owed held s →
  post (charge_edge cd) (λ _, whole (cd :: owed) held) (fails (whole owed held)) s.
Proof.
  intros [Hw Hc]. pose proof (wk_books _ _ _ Hw) as B. pose proof cd_range. eapply post_mono.
  - apply (timed_spec (BudgetProofs.ChargeEdge cd)); [by apply B|by apply B|simpl; lia|intros t; apply charge_edge_says].
  - intros [] s' (b & Hr & Hl & Hwi & _ & Hu). eapply whole_reledger; [done|by split|]. rebooked B Hu; rewrite ?len_cons; try lia.
    rewrite (bk_deepest _ _ _ B). unfold depths_of. rewrite !foldr_app. simpl.
    generalize (foldr Z.max 0 owed). intros x. generalize (depth <$> s_edges s) (first_depth <$> cores s). intros l l'.
    assert (∀ k, foldr Z.max (Z.max cd k) l = Z.max (foldr Z.max k l) cd) as Hl1.
    { intros k. induction l as [|z l IH]; simpl; [lia|]. rewrite IH. lia. }
    rewrite Hl1. generalize (foldr Z.max x l). intros k. induction l' as [|z l' IH]; simpl; [lia|]. rewrite <- IH. lia.
  - intros f s'. apply fails_mono. intros (b & t & Hr & Hl & Hwi & Hu). eapply whole_reledger; [done|by split|]. rebooked B Hu; lia.
Qed.

Lemma charge_chunk_whole owed held b s : 0 ≤ b ≤ u64_max → whole owed held s →
  post (charge_derived_chunk b) (λ _, whole owed (held + b)) (fails (whole owed held)) s.
Proof.
  intros Hb [Hw Hc]. pose proof (wk_books _ _ _ Hw) as B. eapply post_mono.
  - apply (timed_spec (BudgetProofs.ChargeDerivedChunk b)); [by apply B|by apply B|done|intros t; apply charge_chunk_says].
  - intros [] s' (b' & Hr & Hl & Hwi & _ & Hu). eapply whole_reledger; [done|by split|]. rebooked B Hu; lia.
  - intros f s'. apply fails_mono. intros (b' & t & Hr & Hl & Hwi & Hu). eapply whole_reledger; [done|by split|].
    pose proof (bk_within _ _ _ B) as W. unfold BudgetProofs.within in W.
    rebooked B Hu; case_match; simpl; try done; try (by apply B); lia.
Qed.

(** Checks that leave the ledger alone *)
Lemma check_spec (op : SM Ledger.BudgetLedger Limits.AttachmentError unit) (P : Prop) s :
  ledger_says op → (op (budget s)).2 = budget s → ((op (budget s)).1 = Ok tt → P) →
  post (ledger op) (λ _ s', s' = s ∧ P) (fails (λ s', s' = s)) s.
Proof.
  intros Hsays Hb HP. unfold post, ledger, fallible, on_ledger. specialize (Hsays (budget s)).
  assert (∀ b, b = budget s → set_budget b (clock s) s = s) as Hset by (intros b ->; by destruct s).
  destruct (op (budget s)) as [[[]|e] b]; simpl in *.
  - split; [by apply Hset|auto].
  - exists e. split_and!; [done|by apply Hsays|by apply Hset].
Qed.
Lemma declared_member_keeps size c (b : Ledger.BudgetLedger) :
  (Ledger.check_declared_member size c b).2 = b ∧
  ((Ledger.check_declared_member size c b).1 = Ok tt → size ≤ Limits.max_object_bytes (Ledger.limits b)).
Proof.
  unfold Ledger.check_declared_member, mbind, sm_bind, sm_get, sm_reject_if, sm_lift, reject_if.
  destruct (Limits.max_object_bytes (Ledger.limits b) <? size) eqn:Hs; [done|]. bool_prop.
  destruct c as [c|]; [|done]. destruct (0 <? size); [|done]. unfold checked_mul. destruct (_ <=? u64_max); [|done]. simpl.
  by destruct (_ <? size).
Qed.
Lemma check_declared_spec size c s :
  Ledger.limits (budget s) = Lm →
  post (check_declared_member size c) (λ _ s', s' = s ∧ size ≤ Limits.max_object_bytes Lm) (fails (λ s', s' = s)) s.
Proof.
  intros Hl. destruct (declared_member_keeps size c (budget s)) as [H1 H2]. rewrite Hl in H2.
  apply check_spec; [apply declared_member_says|done..].
Qed.
Lemma check_name_spec k s : post (ledger (Ledger.check_name_len k)) (λ _ s', s' = s ∧ True) (fails (λ s', s' = s)) s.
Proof.
  apply check_spec; [apply name_len_says| |done]. unfold Ledger.check_name_len. BudgetProofs.ledger_unfold. by repeat case_match; simplify_eq/=.
Qed.

Lemma charge_rejected_whole owed held b s : 0 ≤ b ≤ u64_max → whole owed held s →
  post (ledger (Ledger.charge_rejected_stream_attempt b)) (λ _, whole owed held) never s.
Proof.
  intros Hb [Hw Hc]. pose proof (wk_books _ _ _ Hw) as B. unfold post, ledger, fallible, on_ledger.
  pose proof (BudgetProofs.run_op_spec (budget s) 0 (BudgetProofs.ChargeRejectedStreamAttempt b)) as H.
  pose proof (BudgetProofs.run_op_within (budget s) 0 (BudgetProofs.ChargeRejectedStreamAttempt b)) as Hwi.
  change (BudgetProofs.run_op 0 (BudgetProofs.ChargeRejectedStreamAttempt b)) with (Ledger.charge_rejected_stream_attempt b) in *.
  rewrite (bk_limits _ _ _ B) in *. destruct (Ledger.charge_rejected_stream_attempt b (budget s)) as [r b'].
  destruct (H set_limits (bk_within _ _ _ B) Hb) as [Hl Hcase]. destruct (Hwi set_limits (bk_within _ _ _ B) Hb) as (_ & Hw' & _). simpl in Hw'.
  destruct Hcase as [(_ & -> & Hu)|(Hno & _)]; [|by destruct Hno].
  apply (whole_reledger owed held owed held b' s); [by exists (clock s)|by split|].
  pose proof (bk_within _ _ _ B) as W. unfold BudgetProofs.within in W.
  eapply weak_reledger; [by exists (clock s)|done..| | | | | | |]; rewrite Hu; simpl; try done; try (by apply B). unfold usage_of in *. lia.
Qed.

(** ** Reading a decoder *)

Context `{!ParserLaws Parsers0}.

Lemma clocked_contents (w : C * D) k chunk w' : 0 ≤ k → source_read w k = (Some chunk, w') →
  decoder_contents w.2 = chunk ++ decoder_contents w'.2 ∧ len chunk ≤ k ∧ (chunk = [] → k = 0 ∨ decoder_contents w.2 = []).
Proof.
  intros Hk. unfold source_read, clocked_decoder. destruct (decoder_read w.2 k) as [r x] eqn:Hr. intros [= -> <-].
  by apply read_contents.
Qed.
#[local] Instance clocked_finite : FiniteReader (C * D).
Proof.
  refine {| contents w := decoder_contents w.2 |}.
  - intros w. unfold source_elapsed, clocked_decoder. by destruct (clock_elapsed w.1).
  - apply clocked_contents.
Defined.

Lemma read_whole owed held dec c s : whole owed held s →
  post (read_derived_bounded dec c) (λ r s', whole owed (held + len r) s' ∧ slice_ok r ∧ len r ≤ Limits.max_object_bytes Lm)
    (λ f s', ∃ e, f = Fail e ∧ match e with Stream.FailBudget e => error_says e | Stream.FailIo => True end ∧ whole owed held s') s.
Proof.
  intros [Hw Hc]. pose proof (wk_books _ _ _ Hw) as B. unfold post, read_derived_bounded.
  assert (BudgetProofs.limits_ok (Ledger.limits (budget s))) as Hl' by (by (rewrite (bk_limits _ _ _ B); apply set_limits)).
  assert (BudgetProofs.within (Ledger.limits (budget s)) (Ledger.usage (budget s))) as Hw' by (rewrite (bk_limits _ _ _ B); apply B).
  pose proof (BudgetStream.budget_stream_read_bounded (budget s) (clock s, dec) c Hl' Hw') as H. cbv zeta in H.
  pose proof (read_derived_says c (budget s, (clock s, dec))) as Hsays.
  destruct (Stream.read_derived_bounded c (budget s, (clock s, dec))) as [r [b [ck dec']]]. simpl in Hsays.
  destruct H as (Hb1 & Hb2 & Hl & k & Hk & Hu & Hr). rewrite (bk_limits _ _ _ B) in *.
  assert (∀ held', held' ≤ held + k → whole owed held' (set_budget b ck s)) as Hkeep.
  { intros held' Hle. apply (whole_reledger owed held owed held' b s); [by exists ck|by split|].
    assert (BudgetProofs.within Lm (Ledger.usage b)) as Hwi.
    { rewrite Hu. unfold BudgetProofs.within, Ledger.remaining_derived_bytes, saturating_sub in *. rewrite (bk_limits _ _ _ B) in *. simpl. lia. }
    eapply weak_reledger; [by exists ck|done..| | | | | | |]; rewrite Hu; simpl; try done; try (by apply B). unfold usage_of. lia. }
  destruct r as [r|[| |[e|]]].
  - destruct Hr as [-> Hlen]. split_and!; [apply Hkeep; lia|apply contents_ok|lia].
  - done.
  - done.
  - exists (Stream.FailBudget e). split_and!; [done|by apply Hsays|apply Hkeep; lia].
  - exists Stream.FailIo. split_and!; [done..|apply Hkeep; lia].
Qed.

(** ** Issues *)

Lemma weak_issue owed held i b s : weak owed held s → issue_sound (cores s) i → weak owed held (push_issue i b s).
Proof.
  intros [Hs Hb Hn Hp] Hi. split; [by apply (shape_same d n s)|by apply (books_same owed held s)| |done].
  intros j Hj. change (s_issues (push_issue i b s)) with (s_issues s ++ [i]) in Hj. change (cores (push_issue i b s)) with (cores s).
  apply elem_of_app in Hj as [Hj| ->%list_elem_of_singleton]; auto.
Qed.
Lemma covered_issue i b s : covered s → severity i ≠ Blocked → covered (push_issue i b s).
Proof.
  intros Hc Hi Hp. assert (partial_reasons s = ∅) as Hp' by (destruct b; simpl in Hp; [set_solver|done]).
  destruct (Hc Hp') as (H1 & H2 & H3). split_and!; [done| |done]. intros j [Hj| ->%list_elem_of_singleton]%elem_of_app; auto.
Qed.

(** An issue that makes the coverage partial restores it. *)
Lemma issue_spec owed held code class sev o message s :
  weak owed held s → says code message → (∀ x, o = Some x → x ∈ (o_id <$> cores s)) →
  post (issue code class sev o message true) (λ _ s', whole owed held s' ∧ flagged s') never s.
Proof.
  intros Hw Hsay Ho. apply post_modify. split; [|apply flag_raised]. split; [by apply weak_issue|]. apply flagged_covered, flag_raised.
Qed.
Lemma notice_spec owed held code class o message b s :
  whole owed held s → says code message → (∀ x, o = Some x → x ∈ (o_id <$> cores s)) →
  post (issue code class Warning o message b) (λ _ s', whole owed held s' ∧ (b = true → flagged s')) never s.
Proof.
  intros [Hw Hc] Hsay Ho. apply post_modify. split; [|intros ->; apply flag_raised]. split; [by apply weak_issue|by apply covered_issue].
Qed.
Lemma parent_known owed held s : weak owed held s → ∀ x, Some par = Some x → x ∈ (o_id <$> cores s).
Proof.
  intros Hw x [= <-]. pose proof (wk_parent _ _ _ Hw) as Hp. apply list_elem_of_fmap in Hp as (o & Ho & Hin).
  apply list_elem_of_fmap. exists o. by injection Ho.
Qed.
Lemma parent_issue_spec owed held code class sev message s :
  weak owed held s → says (str code) (str message) →
  post (parent_issue par code class sev message true) (λ _ s', whole owed held s' ∧ flagged s') never s.
Proof. intros Hw Hs. apply issue_spec; [done..|by eapply parent_known]. Qed.
Lemma record_spec owed held e s :
  weak owed held s → error_says e → post (record_budget_issue par e) (λ _ s', whole owed held s' ∧ flagged s') never s.
Proof. intros Hw Hs. apply issue_spec; [done..|by eapply parent_known]. Qed.
Lemma recorded_spec (P : State → Prop) m s :
  post m (λ _, kept) (fails weakly) s → post (recorded par m) (λ _, kept) never s.
Proof.
  intros H. unfold recorded. apply post_bind. eapply post_mono; [by apply post_try| |done].
  intros [[]|e] s'; simpl; [done|]. intros [He (owed & Hw)]. eapply post_mono; [by apply record_spec| |done].
  intros [] s'' [Hs _]. by exists owed.
Qed.

(** ** Edges *)

(** The edge of a member that has not been decided yet *)
Definition open_edge (e : DerivationEdge) : Prop :=
  child e = None ∧ parent e = par ∧ depth e = cd ∧ (∃ k, transform e = provenance k) ∧
  ∀ r, source_range e = Some r → start r ≤ end_exclusive r.
Lemma new_edge_open nm k a c r :
  (∀ x, r = Some x → start x ≤ end_exclusive x) → open_edge (new_edge par cd nm k a c r).
Proof. intros Hr. split_and!; [done..|by exists k|done]. Qed.
Lemma open_sound owed held e o s : weak owed held s → open_edge e → must_have_child o = false → edge_sound (cores s) (with_child None o e).
Proof.
  intros Hw (Hc & Hp & Hde & Hk & Hr) Ho. split; [done| |done|done]. exists d. simpl. rewrite Hp, Hde. split; [apply Hw|done].
Qed.

Lemma derived_more es e os i o : derived_sound es os i o → derived_sound (es ++ [e]) os i o.
Proof. intros (H1 & H2 & x & Hx & H3). split; [done|]. split; [done|]. exists x. split; [apply elem_of_app; by left|done]. Qed.
Lemma shape_edge e s : shape d n s → edge_sound (cores s) e → shape d n (push_edge e s).
Proof.
  intros [] He. split; try done.
  - intros i o Hi Ho. by apply derived_more, sh_derived0.
  - intros x [Hx| ->%list_elem_of_singleton]%elem_of_app; [auto|done].
Qed.
Lemma max_permutation l l' : l ≡ₚ l' → foldr Z.max 0 l = foldr Z.max 0 l'.
Proof. induction 1; simpl; lia. Qed.
Lemma books_edge owed held e s : books (depth e :: owed) held s → books owed held (push_edge e s).
Proof.
  intros [Bl Bw Br Bo Be Bt Bd Ba]. split; try done.
  - change (usage_of (push_edge e s)) with (usage_of s). change (s_edges (push_edge e s)) with (s_edges s ++ [e]).
    rewrite Be, len_app, !len_cons, len_nil. lia.
  - change (usage_of (push_edge e s)) with (usage_of s). rewrite Bd. apply max_permutation. unfold depths_of.
    change (s_edges (push_edge e s)) with (s_edges s ++ [e]). change (cores (push_edge e s)) with (cores s). rewrite fmap_app. simpl.
    apply Permutation_app_head. rewrite <- app_assoc. by apply Permutation_app_head.
Qed.
Lemma weak_edge owed held e s : weak (depth e :: owed) held s → edge_sound (cores s) e → weak owed held (push_edge e s).
Proof.
  intros [Hs Hb Hn Hp] He. split; [by apply shape_edge|by apply books_edge|by apply (noted_same s)|done].
Qed.
Lemma covered_edge e s : covered s → flagged s ∨ incomplete_outcome (outcome e) = false → covered (push_edge e s).
Proof.
  intros Hc He Hp. change (partial_reasons s = ∅) in Hp. destruct He as [Hf|He]; [by destruct Hf|]. destruct (Hc Hp) as (H1 & H2 & H3).
  split_and!; [done..|]. intros x [Hx| ->%list_elem_of_singleton]%elem_of_app; auto.
Qed.

Lemma push_weak owed held o e s : weak (cd :: owed) held s → open_edge e → must_have_child o = false →
  post (push o e) (λ _, weak owed held) never s.
Proof.
  intros Hw He Ho. apply post_modify. pose proof He as (Hc & _ & Hde & _). apply weak_edge; [by simpl; rewrite Hde|].
  rewrite Hc. by eapply open_sound.
Qed.
Lemma push_whole owed held o e s : whole (cd :: owed) held s → open_edge e → must_have_child o = false →
  flagged s ∨ incomplete_outcome o = false → post (push o e) (λ _, whole owed held) never s.
Proof.
  intros [Hw Hc] He Ho Hf. pose proof (push_weak _ _ _ _ _ Hw He Ho) as H. revert H. unfold push, post, sm_modify. split; [done|].
  by apply covered_edge.
Qed.
Lemma push_with_issue_spec owed held o e code class sev message s :
  weak (cd :: owed) held s → open_edge e → must_have_child o = false → says (str code) (str message) →
  post (push_with_issue o e par code class sev message) (λ _ s', whole owed held s' ∧ flagged s') never s.
Proof.
  intros Hw He Ho Hs. unfold push_with_issue. apply post_bind. eapply post_mono; [by apply push_weak| |done].
  intros [] s' Hw'. by apply parent_issue_spec.
Qed.
Lemma push_over_budget_spec owed held e error s :
  weak (cd :: owed) held s → open_edge e → error_says error → post (push_over_budget e par error) (λ _ s', whole owed held s' ∧ flagged s') never s.
Proof.
  intros Hw He Hs. unfold push_over_budget. apply post_bind. eapply post_mono; [by apply push_weak| |done].
  intros [] s' Hw'. by apply record_spec.
Qed.

(** ** Statuses and detections *)

Lemma core_idemp o : core (core o) = core o.
Proof. done. Qed.
Lemma object_known s id : shape d n s → id ∈ (o_id <$> cores s) →
  ∃ k o, object_index s !! id = Some k ∧ s_objects s !! k = Some o ∧ o_id o = id.
Proof.
  intros Hs (k & Hk)%list_elem_of_lookup. exists k. pose proof (proj2 (sh_index _ _ _ Hs id k) Hk) as Hk'.
  unfold cores in Hk. rewrite !list_lookup_fmap in Hk. destruct (s_objects s !! k) as [o|] eqn:Ho; [|done]. simpl in Hk. injection Hk as Hid.
  exists o. done.
Qed.
(** Changing the status or the detection of a known object *)
Lemma object_mut_spec owed held id f s : (∀ o, core (f o) = core o) → weak owed held s → id ∈ (o_id <$> cores s) →
  post (object_mut id f) (λ _ s', weak owed held s' ∧ partial_reasons s' = partial_reasons s) never s.
Proof.
  intros Hf Hw Hid. destruct (object_known s id (wk_shape _ _ _ Hw) Hid) as (k & o & Hk & Ho & _).
  unfold object_mut. apply post_bind, post_get, post_bind, post_lift; [|by rewrite Hk]. intros x Hx%need_Ok. assert (x = k) as -> by congruence.
  apply post_bind, post_lift; [|by rewrite Ho]. intros y Hy%need_Ok. assert (y = o) as -> by congruence. apply post_modify. split; [|done].
  set (s' := set_objects _ s). assert (cores s' = cores s) as Hc.
  { unfold cores. simpl. rewrite list_fmap_insert, Hf. apply list_insert_id. by rewrite list_lookup_fmap, Ho. }
  destruct Hw as [Hs Hb Hn Hp]. split; [by apply (shape_same d n s)|by apply (books_same owed held s)|by apply (noted_same s)|by rewrite Hc].
Qed.
Lemma set_status_spec owed held id x s : weak owed held s → id ∈ (o_id <$> cores s) →
  post (set_status id x) (λ _ s', weak owed held s' ∧ partial_reasons s' = partial_reasons s) never s.
Proof. intros Hw Hid. by apply object_mut_spec. Qed.
Lemma ignore_spec {A} (m : insp A) (Q : State → Prop) s : post m (λ _, Q) never s → post (ignore m : insp unit) (λ _, Q) never s.
Proof.
  intros H. unfold ignore. apply post_bind. eapply post_mono; [apply (attempt_spec m (λ _, Q) (λ _ _, False))| |done].
  - eapply post_mono; [exact H|done|done].
  - intros [a|e] s' Hs; [exact Hs|done].
Qed.
Lemma parent_in owed held s : weak owed held s → par ∈ (o_id <$> cores s).
Proof. intros Hw. by apply (parent_known owed held s). Qed.
Lemma ignored_status_spec owed held x s : weak owed held s →
  post (ignore (set_status par x) : insp unit) (λ _ s', weak owed held s' ∧ partial_reasons s' = partial_reasons s) never s.
Proof. intros Hw. apply ignore_spec. apply set_status_spec; [done|by eapply parent_in]. Qed.
(** A status of a container whose issues say why *)
Lemma flagged_status_spec owed held x s : weak owed held s → flagged s → post (ignore (set_status par x) : insp unit) (λ _, whole owed held) never s.
Proof.
  intros Hw Hf. eapply post_mono; [by apply ignored_status_spec| |done]. intros [] s' [Hw' Hp]. split; [done|].
  apply flagged_covered. unfold flagged. by rewrite Hp.
Qed.
Lemma reject_spec owed held st code class message s : weak owed held s → says (str code) (str message) →
  post (reject_container par st code class message) (λ _, whole owed held) never s.
Proof.
  intros Hw Hs. unfold reject_container. apply post_bind. eapply post_mono; [by apply ignored_status_spec| |done].
  intros [] s' [Hw' _]. eapply post_mono; [by apply parent_issue_spec|by intros ? ? []|done].
Qed.

(** ** Names *)

Lemma member_name_spec owed held raw i s : whole owed held s →
  post (member_name raw i) (λ r s', whole owed held s' ∧ (accepted r = false → is_Some (reason r)) ∧ ∀ x, reason r = Some x → seen x = true)
    (fails (whole owed held)) s.
Proof.
  intros Hw. unfold member_name. apply post_bind, post_get, post_lift.
  - intros r Hr. split; [done|]. by eapply member_name_reason.
  - intros f Hf. pose proof (member_name_says hex_of raw i (Limits.max_name_bytes (policy_limits (policy s))) (path_policy (policy s))) as Hsay.
    revert Hf Hsay. unfold logical_member_name, need. destruct (try_from u32_max (len raw)); simpl.
    + destruct (_ <? z); [done|]. destruct (_ || _); [done|]. by case_bool_decide.
    + intros [= <-] Hsay. eexists. split_and!; [done|by apply Hsay|done].
Qed.
Lemma name_issue_spec owed held r message s :
  whole owed held s → seen (str message) = true → (accepted r = false → is_Some (reason r)) → (∀ x, reason r = Some x → seen x = true) →
  post (name_issue par r message) (λ _ s', whole owed held s' ∧ (accepted r = false → flagged s')) never s.
Proof.
  intros Hw Hm Hacc Hsee. unfold name_issue. destruct (reason r) as [x|] eqn:Hr.
  - eapply post_mono; [apply notice_spec; [done|split; [by apply Hsee|done]|eapply parent_known, Hw]| |done].
    intros [] s' [Hw' Hf]. split; [done|]. intros Ha. apply Hf. by rewrite Ha.
  - apply post_ret. split; [done|]. intros Ha. by destruct (Hacc Ha).
Qed.
Lemma depth_allows_spec k s : Ledger.limits (budget s) = Lm →
  post (depth_allows k) (λ b s', s' = s ∧ b = (k <=? Limits.max_depth Lm)) never s.
Proof. intros Hl. unfold depth_allows. apply post_bind, post_get, post_ret. unfold Ledger.depth_allows_derivation. by rewrite Hl. Qed.
Lemma weak_limits owed held s : weak owed held s → Ledger.limits (budget s) = Lm.
Proof. intros Hw. apply (wk_books _ _ _ Hw). Qed.

(** ** A new object *)

Lemma edge_sound_more os o e : edge_sound os e → edge_sound (os ++ [o]) e.
Proof.
  intros [Hk (x & Hx & Hde) Hc Hr]. split; [done| | |done].
  - exists x. split; [|done]. rewrite fmap_app. apply elem_of_app. by left.
  - destruct (child e) as [c|]; [|done]. destruct Hc as (y & Hy & Hc). exists y. split; [|done]. rewrite fmap_app. apply elem_of_app. by left.
Qed.
Lemma issue_sound_more os o i : issue_sound os i → issue_sound (os ++ [o]) i.
Proof. intros (H1 & H2 & H3). split; [done|]. split; [done|]. intros x Hx. rewrite fmap_app. apply elem_of_app. left. auto. Qed.

(** A derived object, its bytes and the edge to it *)
Section Grow.
Context (o : ObjectRecord) (bytes : list Z) (e : DerivationEdge) (s : State).
Hypotheses (Hid : o_id o = sha256_hex bytes) (Hsha : o_sha256 o = o_id o) (Hlen : o_byte_len o = len bytes) (Hart : artifact_ids o = [])
  (Hdo : first_depth o = cd) (Hok : slice_ok bytes) (Hsize : len bytes ≤ Limits.max_object_bytes Lm) (Hdeep : cd ≤ Limits.max_depth Lm)
  (Hnew : o_id o ∉ (o_id <$> cores s)) (He : open_edge e) (Hpar : (par, d) ∈ (place <$> cores s)).
Notation grown := (push_edge (with_child (Some (o_id o)) Derived e) (add_object o bytes s)).

Lemma grown_cores : cores grown = cores s ++ [core o].
Proof. unfold cores. simpl. by rewrite fmap_app. Qed.
Lemma cd_positive : 1 ≤ cd.
Proof. pose proof set_depth. pose proof set_at. unfold child_depth, saturating_add, u16_max in *. lia. Qed.
Lemma grown_edge : edge_sound (cores grown) (with_child (Some (o_id o)) Derived e).
Proof.
  destruct He as (_ & Hp & Hde & Hk & Hr). rewrite grown_cores. split; [done| | |done].
  - exists d. simpl. rewrite Hp, Hde. split; [|done]. rewrite fmap_app. apply elem_of_app. by left.
  - simpl. exists cd. split; [|by left]. rewrite fmap_app. apply elem_of_app. right. apply list_elem_of_singleton. unfold place. simpl. by rewrite Hdo.
Qed.
Lemma par_in : par ∈ (o_id <$> cores s).
Proof. apply list_elem_of_fmap in Hpar as (x & Hx & Hin). apply list_elem_of_fmap. exists x. by injection Hx. Qed.

Lemma grow_shape : shape d n s → shape d n grown.
Proof.
  intros [Sp Sr Sd So Sn Si Sb Sor Sbo Sq Sa Sv Sl Se]. pose proof grown_edge as Hge. pose proof cd_positive. rewrite grown_cores in Hge.
  assert (length (s_objects s) = length (cores s)) as Hlo by (unfold cores; by rewrite length_fmap).
  assert (length (o_id <$> cores s) = length (cores s)) as Hli by (by rewrite length_fmap).
  split; rewrite ?grown_cores; simpl.
  - done.
  - destruct Sr as (? & ? & ro & rest & -> & ? & ?). split_and!; [done..|]. by exists ro, (rest ++ [core o]).
  - intros i x Hi Hx. destruct (decide (i < length (cores s))%nat) as [Hlt|Hge'].
    + rewrite lookup_app_l in Hx by done. destruct (Sd i x Hi Hx) as (H1 & H2 & y & Hy & H3 & H4 & H5).
      split; [done|]. split; [done|]. exists y. split_and!; [apply elem_of_app; by left|done..|].
      rewrite fmap_app, take_app_le; [done|lia].
    + assert (i = length (cores s)) as ->.
      { apply lookup_lt_Some in Hx. rewrite length_app in Hx. simpl in Hx. lia. }
      rewrite list_lookup_middle in Hx by done. injection Hx as <-. split; [simpl; lia|]. split; [simpl; lia|].
      exists (with_child (Some (o_id o)) Derived e). split_and!; [apply elem_of_app; right; by apply list_elem_of_singleton|done..|].
      destruct He as (_ & Hp & _). simpl. rewrite Hp, fmap_app, take_app_le by lia. rewrite take_ge by lia. apply par_in.
  - intros x [Hx| ->%list_elem_of_singleton]%elem_of_app.
    + destruct (So x Hx) as (H1 & H2 & b & Hb & H3). split_and!; [done..|]. exists b. split; [|done].
      rewrite lookup_insert_ne; [done|]. intros Heq. apply Hnew. rewrite Heq. by apply list_elem_of_fmap_2.
    + split_and!; [done..|]. exists bytes. split; [by rewrite lookup_insert_eq|done].
  - rewrite fmap_app. apply NoDup_app. split_and!; [done| |by apply NoDup_singleton]. intros x Hx ->%list_elem_of_singleton. by apply Hnew.
  - intros id k. rewrite fmap_app, Hlo. simpl. destruct (decide (o_id o = id)) as [<-|Hne].
    + rewrite lookup_insert_eq. split.
      * intros [= <-]. rewrite <- Hli. by rewrite list_lookup_middle.
      * intros Hk. destruct (decide (k < length (cores s))%nat) as [Hlt|Hge'].
        { rewrite lookup_app_l in Hk by lia. exfalso. apply Hnew. by eapply list_elem_of_lookup_2. }
        f_equal. apply lookup_lt_Some in Hk. rewrite length_app in Hk. simpl in Hk. lia.
    + rewrite lookup_insert_ne by done. rewrite Si. split.
      * intros Hk. by apply lookup_app_l_Some.
      * intros [?|[_ Hk]]%lookup_app_Some; [done|]. apply list_lookup_singleton_Some in Hk as [_ Hk]. done.
  - intros id. rewrite fmap_app. destruct (decide (o_id o = id)) as [<-|Hne].
    + intros _. apply elem_of_app. right. by apply list_elem_of_singleton.
    + rewrite lookup_insert_ne by done. intros Hb. apply elem_of_app. left. auto.
  - intros i j x y Hij Hx Hy. destruct (decide (j < length (cores s))%nat) as [Hlt|Hge'].
    + rewrite lookup_app_l in Hx, Hy by lia. by apply (Sor i j).
    + assert (j = length (cores s)) as ->.
      { apply lookup_lt_Some in Hy. rewrite length_app in Hy. simpl in Hy. lia. }
      rewrite list_lookup_middle in Hy by done. injection Hy as <-. simpl. rewrite Hdo.
      apply list_elem_of_lookup_2, elem_of_app in Hx as [Hx| ->%list_elem_of_singleton]; [apply Sbo in Hx; lia|simpl; lia].
  - intros x [Hx| ->%list_elem_of_singleton]%elem_of_app; [auto|simpl; lia].
  - rewrite Sq, fmap_app, drop_app_le; [|by rewrite length_fmap]. done.
  - rewrite Sa, fmap_app, take_app_le; [done|lia].
  - rewrite length_app. lia.
  - intros k x Hk [Hx|[_ Hx]]%lookup_app_Some; [by apply (Sl k)|]. apply list_lookup_singleton_Some in Hx as [_ <-]. simpl.
    pose proof set_depth. pose proof set_at. rewrite Hdo. unfold child_depth, saturating_add, u16_max in *. lia.
  - intros x [Hx| ->%list_elem_of_singleton]%elem_of_app; [by apply edge_sound_more, Se|done].
Qed.

(** [v] is the usage before the object is charged. *)
Lemma grow_books owed held v : 0 ≤ held →
  (∀ ro rest, cores s = ro :: rest → o_byte_len ro = Limits.root_bytes v ∧ o_byte_len ro ≤ Limits.max_root_bytes Lm ∧
    total (o_byte_len <$> rest) + (held + len bytes) ≤ Limits.total_derived_bytes v) →
  Limits.objects v = len (cores s) → Limits.edges v = len (s_edges s) + len (cd :: owed) →
  Limits.retained_bytes v = total (o_byte_len <$> cores s) → Limits.deepest_object v = foldr Z.max 0 (depths_of s (cd :: owed)) →
  Limits.text_bytes v = 0 ∧ Limits.media_objects v = 0 ∧ Limits.media_bytes v = 0 ∧ Limits.transform_requests v = 0 →
  cores s ≠ [] →
  Ledger.limits (budget s) = Lm → BudgetProofs.within Lm (usage_of s) →
  usage_of s = BudgetProofs.charged Lm v (BudgetProofs.ChargeUniqueObject (len bytes) cd) →
  books owed held grown.
Proof.
  intros Hh Br Bo Be Bt Bd Ba Hne Hl Hwi Hu. destruct He as (_ & _ & Hde & _).
  split; [done|exact Hwi|..]; change (usage_of grown) with (usage_of s); rewrite ?Hu, ?grown_cores; simpl.
  - intros ro rest Hc. destruct (cores s) as [|ro' rest'] eqn:Hcs; [done|]. injection Hc as <- <-.
    destruct (Br ro' rest' eq_refl) as (H1 & H2 & H3). split_and!; [done..|]. rewrite fmap_app, total_app. simpl. rewrite Hlen. lia.
  - rewrite len_app, len_cons, len_nil. lia.
  - rewrite Be, len_app, !len_cons, len_nil. lia.
  - rewrite Bt, fmap_app, total_app. simpl. rewrite Hlen. lia.
  - rewrite Bd. rewrite Z.max_comm.
    transitivity (foldr Z.max 0 (cd :: depths_of s (cd :: owed))); [done|]. apply max_permutation. unfold depths_of.
    rewrite grown_cores, fmap_app. simpl. rewrite fmap_app. simpl. rewrite Hdo, Hde, <- !app_assoc. simpl.
    apply Permutation_middle.
  - done.
Qed.
End Grow.

(** The optional issue about a type that its name contradicts *)
Lemma mismatch_spec code m id subject s :
  ∃ notes, post (mismatch_issue code m id subject) (λ _ s', s' = foldl (λ s i, push_issue i false s) s notes) never s ∧
    (says (str code) (str subject) → ∀ i, i ∈ notes → says (issue_code i) (issue_message i) ∧ edge_index i = None ∧ severity i = Warning ∧
       ∀ x, issue_object_id i = Some x → x = id).
Proof.
  unfold mismatch_issue. destruct m as [x|]; [|exists []; split; [done|intros _ i ?%elem_of_nil; done]].
  eexists [_]. split; [by apply post_modify|]. intros [Hc Hm] i ->%list_elem_of_singleton. split; [|split_and!; [done|done|by intros y [= ->]]].
  split; [done|]. simpl. unfold seen in *. by rewrite existsb_app, Hm.
Qed.
Lemma foldl_issues notes s : let s' := foldl (λ s i, push_issue i false s) s notes in
  budget s' = budget s ∧ clock s' = clock s ∧ cores s' = cores s ∧ s_edges s' = s_edges s ∧ s_objects s' = s_objects s ∧
  partial_reasons s' = partial_reasons s ∧ s_issues s' = s_issues s ++ notes ∧ (shape d n s → shape d n s').
Proof.
  revert s. induction notes as [|i notes IH]; intros s; simpl; [by rewrite app_nil_r|].
  destruct (IH (push_issue i false s)) as (H1 & H2 & H3 & H4 & H5 & H6 & H7 & H8). split_and!; try done.
  - rewrite H7. simpl. by rewrite <- app_assoc.
  - intros Hs. apply H8. by apply (shape_same d n s).
Qed.

(** A derived object joins the graph: as a new object, as another edge to one that is known,
    or, when the budget does not allow it, as an edge to nothing. *)
Lemma finish_child_spec owed held e bytes declared s : 0 ≤ held →
  whole (cd :: owed) (held + len bytes) s → open_edge e → slice_ok bytes → len bytes ≤ Limits.max_object_bytes Lm →
  cd ≤ Limits.max_depth Lm →
  post (finish_child e bytes declared) (λ _, whole owed held) (fails (weak owed held)) s.
Proof.
  intros Hh [Hw Hc] He Hok Hsize Hdeep. unfold finish_child, try_from. pose proof (len_nonneg bytes) as Hlen.
  pose proof Hw as [Hs HB Hn Hp]. pose proof He as (Hchild & Hpe & Hde & Hk & Hr).
  rewrite (proj2 (Z.leb_le (len bytes) u64_max)) by (destruct Hok as [_ Hok']; unfold isize_max, u64_max in *; lia).
  apply post_bind, post_get. set (id := sha256_hex bytes). case_bool_decide as Hdup.
  - apply post_modify. destruct Hdup as [k Hk']. apply (sh_index _ _ _ Hs) in Hk'.
    assert (id ∈ (o_id <$> cores s)) as Hin by by eapply list_elem_of_lookup_2.
    apply list_elem_of_fmap in Hin as (x & Hx & Hin). split.
    + apply weak_edge; [simpl; rewrite Hde; by eapply weak_held; [|done]; lia|]. split; [done| |simpl|done].
      * exists d. simpl. by rewrite Hpe, Hde.
      * exists (first_depth x). split; [apply list_elem_of_fmap; exists x; by rewrite Hx|]. right. split; [done|].
        rewrite Hde. by apply (sh_bound _ _ _ Hs).
    + apply covered_edge; [done|by right].
  - assert (id ∉ (o_id <$> cores s)) as Hnew.
    { intros (k & Hk')%list_elem_of_lookup. apply Hdup. exists k. by apply (sh_index _ _ _ Hs). }
    apply post_bind. pose proof cd_range as Hcd. eapply post_mono.
    + rewrite Hde. eapply post_try.
      apply (timed_spec (BudgetProofs.ChargeUniqueObject (len bytes) cd)); [apply HB|apply HB| |intros t; apply charge_object_says].
      simpl. destruct Hok as [_ Hok']. unfold isize_max, u64_max in *. lia.
    + intros [[]|error] s1; simpl.
      * intros (b & [c ->] & Hl & Hwi & _ & Hu). rewrite Hde.
        destruct (mismatch_spec "archive_member_type_mismatch" (mismatch (detect infer_mime (display (name e)) declared bytes)) id
                    "An archive member name" (set_budget b c s)) as (notes & Hpost & His).
        specialize (His ltac:(by split)). apply post_bind. eapply post_mono; [exact Hpost| |done]. intros [] s2 ->.
        destruct (foldl_issues notes (set_budget b c s)) as (F1 & F2 & F3 & F4 & F5 & F6 & F7 & F8).
        set (s2 := foldl _ _ notes) in *. apply post_bind, post_modify, post_modify.
        set (o := new_object id bytes _ cd).
        change (with_child (Some id) Derived e) with (with_child (Some (o_id o)) Derived e).
        assert (shape d n s2) as Hs2 by (apply F8; by apply (shape_same d n s)).
        change (cores (set_budget b c s)) with (cores s) in F3.
        assert (o_id o ∉ (o_id <$> cores s2)) as Hnew2 by by rewrite F3.
        assert ((par, d) ∈ (place <$> cores s2)) as Hp2 by by rewrite F3.
        split; [split|].
        -- by apply grow_shape.
        -- apply (grow_books o bytes e s2) with (v := usage_of s); try done.
           ++ rewrite F3. intros ro rest Hcs. pose proof (bk_root _ _ _ HB ro rest Hcs). lia.
           ++ rewrite F3. apply HB.
           ++ rewrite F4. apply HB.
           ++ rewrite F3. apply HB.
           ++ unfold depths_of. rewrite F3, F4. apply HB.
           ++ apply HB.
           ++ rewrite F3. intros Hnil. rewrite Hnil in Hp. by apply elem_of_nil in Hp.
           ++ by rewrite F1.
           ++ unfold usage_of. by rewrite F1.
           ++ unfold usage_of. by rewrite F1.
        -- intros i Hi. change (i ∈ s_issues s2) in Hi. rewrite F7 in Hi. rewrite grown_cores, F3.
           apply elem_of_app in Hi as [Hi|Hi]; [apply issue_sound_more, Hn, Hi|]. destruct (His i Hi) as (H1 & H2 & _ & H3).
           split; [done|]. split; [done|]. intros x Hx. rewrite (H3 x Hx), fmap_app. apply elem_of_app. right. by apply list_elem_of_singleton.
        -- rewrite grown_cores, fmap_app. apply elem_of_app. by left.
        -- intros Hpr. change (partial_reasons s2 = ∅) in Hpr. rewrite F6 in Hpr. destruct (Hc Hpr) as (C1 & C2 & C3). split_and!.
           ++ intros x [Hx| ->%list_elem_of_singleton]%elem_of_app; [|done]. rewrite F5 in Hx. auto.
           ++ intros i Hi. change (i ∈ s_issues s2) in Hi. rewrite F7 in Hi. apply elem_of_app in Hi as [Hi|Hi]; [auto|].
              destruct (His i Hi) as (_ & _ & -> & _). done.
           ++ intros x [Hx| ->%list_elem_of_singleton]%elem_of_app; [|done]. change (x ∈ s_edges s2) in Hx. rewrite F4 in Hx. auto.
      * intros [Hsay (b & t & Hre & Hl & Hwi & Hu)]. apply post_bind, post_modify, post_throw. exists error. split_and!; [done..|].
        assert (weak (cd :: owed) held s1) as Hw1.
        { eapply weak_reledger; try done; rewrite Hu; try done; try (by apply HB). simpl. lia. }
        apply weak_edge; [simpl; by rewrite Hde|]. by eapply open_sound.
    + done.
Qed.
End Invariant.
