(* ===== verification/InspectionHandlers.v ===== *)
(** * InspectionHandlers: every format keeps the invariant

    The specifications of the handlers of Inspection.v and InspectionContainers.v: from a
    state in which the invariant of InspectionInvariant.v holds, the expansion of a
    container returns in a state in which it holds; it does not panic and its loops end,
    whatever the bytes are and whatever the decoders, within their laws, make of them. *)

From S2P Require Import Prelude Bytes Text Utf8 Strings Sorting PdfPreflight MimePreflight PdfScan XzPreflight ZipPreflight Budget AttachmentTypes AttachmentGraph MemberNames Detect Inspection InspectionContainers InspectionErrors InspectionInvariant.
Local Open Scope Z_scope.

(** ** Operations that keep the flag

    Once a reason for partial coverage is recorded, it stays. *)

Section Steady.
Context {C D : Type} `{!Parsers C D}.
Notation State := (InspectionState C).

Definition steady {E A} (m : SM State E A) : Prop := ∀ s, flagged s → flagged (m s).2.
Lemma steady_bind {E A B} (m : SM State E A) (f : A → SM State E B) : steady m → (∀ a, steady (f a)) → steady (m ≫= f).
Proof.
  intros Hm Hf s Hs. specialize (Hm s Hs). unfold mbind, sm_bind. destruct (m s) as [[a|e] s']; [by apply Hf|done].
Qed.
Lemma steady_pure {E A} (r : result E A) : steady (sm_lift r).
Proof. by intros s. Qed.
Lemma steady_ret {E A} (a : A) : steady (E:=E) (mret a).
Proof. by intros s. Qed.
Lemma steady_get {E} : steady (E:=E) sm_get.
Proof. by intros s. Qed.
Lemma steady_throw {E A} (e : E) : steady (A:=A) (sm_throw e).
Proof. by intros s. Qed.
Lemma steady_push {E} x : steady (E:=E) (sm_modify (push_edge x)).
Proof. by intros s. Qed.
Lemma steady_objects {E} (f : State → list ObjectRecord) : steady (E:=E) (sm_modify (λ s, set_objects (f s) s)).
Proof. by intros s. Qed.
Lemma steady_add {E} o l : steady (E:=E) (sm_modify (add_object o l)).
Proof. by intros s. Qed.
Lemma steady_issue c k v o m b : steady (issue c k v o m b).
Proof. intros s Hs. by apply flag_kept. Qed.
Lemma steady_attempt {E F A} (m : SM State (fault E) A) : steady m → steady (attempt (F:=F) m).
Proof. intros Hm s Hs. specialize (Hm s Hs). unfold attempt. by destruct (m s) as [[a|[]] s']. Qed.
Lemma steady_ledger {A} (op : SM Ledger.BudgetLedger Limits.AttachmentError A) : steady (ledger op).
Proof. intros s Hs. unfold ledger, fallible, on_ledger. by destruct (op (budget s)) as [[a|e] b]. Qed.
Lemma steady_timed {A} (op : Z → SM Ledger.BudgetLedger Limits.AttachmentError A) : steady (timed op).
Proof.
  intros s Hs. unfold timed, fallible, on_timed, on_ledger. destruct (clock_elapsed (clock s)) as [t c]. by destruct (op t _) as [[a|e] b].
Qed.
Lemma steady_read (x : D) c : steady (read_derived_bounded x c).
Proof. intros s Hs. unfold read_derived_bounded. by destruct (Stream.read_derived_bounded _ _) as [r [b [k y]]]. Qed.

Lemma post_steady {E A} (m : SM State E A) Q F s : steady m → post m Q F s →
  post m (λ a s', Q a s' ∧ (flagged s → flagged s')) (λ e s', F e s' ∧ (flagged s → flagged s')) s.
Proof. intros Hm. unfold post. specialize (Hm s). by destruct (m s) as [[a|e] s']. Qed.
End Steady.

Create HintDb steady.
#[export] Hint Resolve steady_pure steady_ret steady_get steady_throw steady_push steady_add steady_issue steady_ledger steady_timed steady_read : steady.
Ltac steady_step :=
  first [ solve [auto with steady nocore] | apply steady_bind; [|intros ?] | apply steady_attempt | case_match
        | solve [unfold need, sm_reject_if; auto with steady nocore] ].
Ltac steady_all := repeat steady_step.

Section SteadyHandlers.
Context {C D : Type} `{!Parsers C D}.
Lemma steady_parent_issue p c k v m b : steady (C:=C) (parent_issue p c k v m b).
Proof. apply steady_issue. Qed.
Lemma steady_record p e : steady (C:=C) (record_budget_issue p e).
Proof. apply steady_issue. Qed.
Lemma steady_name p nm m : steady (C:=C) (name_issue p nm m).
Proof. unfold name_issue. steady_all. Qed.
Lemma steady_mismatch c m id x : steady (C:=C) (mismatch_issue c m id x).
Proof. unfold mismatch_issue. steady_all. Qed.
Lemma steady_member raw i : steady (C:=C) (member_name raw i).
Proof. unfold member_name. steady_all. Qed.
Lemma steady_depth k : steady (C:=C) (depth_allows k).
Proof. unfold depth_allows. steady_all. Qed.
Lemma steady_edge o e : steady (C:=C) (push o e).
Proof. apply steady_push. Qed.
#[local] Hint Resolve steady_parent_issue steady_record steady_name steady_mismatch steady_member steady_depth steady_edge : steady.
Lemma steady_with_issue o e p c k v m : steady (C:=C) (push_with_issue o e p c k v m).
Proof. unfold push_with_issue. steady_all. Qed.
Lemma steady_over e p x : steady (C:=C) (push_over_budget e p x).
Proof. unfold push_over_budget. steady_all. Qed.
Lemma steady_finish e l x : steady (C:=C) (finish_child e l x).
Proof. unfold finish_child, charge_unique_object. steady_all. Qed.
#[local] Hint Resolve steady_with_issue steady_over steady_finish : steady.
Lemma steady_derive p e x z c m : steady (C:=C) (derive_member p e x z c m).
Proof. unfold derive_member. steady_all. Qed.
#[local] Hint Resolve steady_derive : steady.
Lemma steady_tar p k i t : steady (C:=C) (process_tar_entry p k i t).
Proof. unfold process_tar_entry, charge_edge, check_declared_member. steady_all. Qed.
Lemma steady_zip p k a m : steady (C:=C) (process_zip_entry p k a m).
Proof. unfold process_zip_entry, charge_edge, check_declared_member. steady_all. Qed.
Lemma steady_begin p k m : steady (C:=C) (begin_seven_zip_entry p k m).
Proof. unfold begin_seven_zip_entry, charge_edge, charge_entry, charge_derived_chunk, check_declared_member. cbv zeta. steady_all. Qed.
Lemma steady_end p x : steady (C:=C) (finish_seven_zip_entry p x).
Proof. unfold finish_seven_zip_entry. steady_all. Qed.
Lemma steady_embedded p k i doc f : steady (C:=C) (process_pdf_embedded_file p k i doc f).
Proof.
  unfold process_pdf_embedded_file, derive_pdf_stream, pdf_child_failed, charge_edge, charge_entry, charge_derived_chunk, check_declared_member.
  cbv zeta. steady_all.
Qed.
End SteadyHandlers.
#[export] Hint Resolve steady_tar steady_zip steady_begin steady_end steady_embedded : steady.

(** ** The specifications *)

Section Handlers.
Context {C D : Type} `{!Parsers C D} `{!ParserLaws Parsers0} `{MailStreamLaws} (p : Subject) (par : text) (d : Z) (n : nat) `{!Setting p d}.
Notation State := (InspectionState C).
Notation insp := (SM State (fault Limits.AttachmentError)).
Notation Lm := (policy_limits p).
Notation cd := (child_depth d).
Notation whole := (whole p par d n).
Notation weak := (weak p par d n).
Notation kept := (kept p par d n).
Notation weakly := (weakly p par d n).
Notation open_edge := (open_edge par d).

Lemma kept_of owed s : whole owed 0 s → kept s.
Proof. by apply whole_kept. Qed.
Lemma weakly_of owed s : weak owed 0 s → weakly s.
Proof. by apply weak_weakly. Qed.
Lemma whole_weakly owed s : whole owed 0 s → weakly s.
Proof. intros [Hw _]. by eapply weakly_of. Qed.

Lemma kept_policy s : kept s → policy s = p.
Proof. intros (owed & [[Hs _ _ _] _]). apply Hs. Qed.

(** The last step of a handler, whose invariant is stronger than needed *)
Lemma post_kept {A} (m : insp A) (Q : A → State → Prop) owed F s :
  post m (λ _ s', whole owed 0 s' ∧ flagged s') never s → post m (λ _, kept) F s.
Proof. intros H'. eapply post_mono; [exact H'| |done]. intros a s' [Hw _]. by eapply kept_of. Qed.
Lemma post_whole {A} (m : insp A) owed F s : post m (λ _, whole owed 0) never s → post m (λ _, kept) F s.
Proof. intros H'. eapply post_mono; [exact H'| |done]. intros a s'. apply kept_of. Qed.
Lemma post_fails {A} (m : insp A) owed owed' s :
  post m (λ _, whole owed 0) (fails (weak owed' 0)) s → post m (λ _, kept) (fails weakly) s.
Proof.
  intros H'. eapply post_mono; [exact H'| |]; [intros a s'; apply kept_of|].
  intros e s'. apply fails_mono, weakly_of.
Qed.
Lemma lifted_spec {E A} (V : E → Prop) (r : parse E A) s : returns r → refuses V r →
  post (attempt (sm_lift r) : insp _) (λ x s', s' = s ∧ match x with Ok a => r = Ok a | Err e => V e end) never s.
Proof.
  intros Hr HV. unfold post, attempt, sm_lift. destruct r as [a|[| |e]]; try done. split; [done|]. by apply HV.
Qed.

(** A step whose specification is [H]; its errors pass. *)
Ltac via H := apply post_bind; eapply post_mono; [apply H| |try done].

(** A recorded failure of a step *)
Lemma record_kept owed held e s : 0 ≤ held → weak owed held s → error_says e → post (record_budget_issue par e) (λ _ s', kept s' ∧ flagged s') never s.
Proof.
  intros Hh Hw He. eapply post_mono; [by apply record_spec| |done]. intros [] s' [Hw' Hf]. split; [by eapply whole_kept|done].
Qed.

Lemma read_spec owed x c s : whole owed 0 s →
  post (attempt (read_derived_bounded x c) : insp _) (λ r s', match r with
    | Ok b => whole owed (0 + len b) s' ∧ slice_ok b ∧ len b ≤ Limits.max_object_bytes Lm
    | Err (Stream.FailBudget e) => error_says e ∧ whole owed 0 s'
    | Err Stream.FailIo => whole owed 0 s'
    end) never s.
Proof.
  intros Hw. pose proof (read_whole p par d n owed 0 x c s Hw) as Hr.
  eapply post_mono; [exact (attempt_spec _ _ (λ e s', match e with Stream.FailBudget e => error_says e | _ => True end ∧ whole owed 0 s') s Hr)| |done].
  intros [b|[e|]] s' Hpost; [exact Hpost..|]. apply Hpost.
Qed.

Lemma derive_member_spec owed e x size c m s :
  whole (cd :: owed) 0 s → open_edge e → cd ≤ Limits.max_depth Lm →
  says (str (decode_code m)) (str (decode_message m)) → says (str (size_code m)) (str (size_message m)) →
  post (derive_member par e x size c m) (λ _, kept) (fails weakly) s.
Proof.
  intros Hw He Hd Hm Hm'. unfold derive_member. apply post_bind. eapply post_mono; [by apply (read_spec (cd :: owed))| |done].
  intros [bytes|[error|]] s'; simpl.
  - intros (Hw' & Hok & Hsz). destruct (negb _).
    + apply (post_kept _ (λ _ _, True) owed). apply push_with_issue_spec; [|done..]. eapply weak_held; [|apply Hw']. pose proof (len_nonneg bytes). lia.
    + apply (post_fails _ owed owed). by apply finish_child_spec.
  - intros [Hsay Hw']. apply (post_kept _ (λ _ _, True) owed). by apply push_over_budget_spec; [apply Hw'|..].
  - intros Hw'. apply (post_kept _ (λ _ _, True) owed). by apply push_with_issue_spec; [apply Hw'|..].
Qed.

(** ** One compressed stream *)

Lemma compressed_spec spec x s : says (str (decode_error_code spec)) (str (decode_error_message spec)) →
  kept s → post (expand_compressed_stream par d spec x) (λ _, kept) never s.
Proof.
  intros Hsay (owed & Hw). unfold expand_compressed_stream. apply (recorded_spec p par d n (λ _, True)).
  apply post_bind. eapply post_mono; [by apply charge_entry_whole| |intros f s'; apply fails_mono, whole_weakly].
  intros [] s1 Hw1. apply post_bind. eapply post_mono; [by apply member_name_spec| |intros f s'; apply fails_mono, whole_weakly].
  intros r s2 (Hw2 & Hacc & Hsee). apply post_bind. eapply post_mono; [by apply charge_edge_whole| |intros f s'; apply fails_mono, whole_weakly].
  intros [] s3 Hw3. set (e := new_edge _ _ _ _ _ _ _). assert (open_edge e) as He by by apply new_edge_open.
  destruct (accepted r) eqn:Ha; simpl.
  - apply post_bind. eapply post_mono; [apply depth_allows_spec; by eapply weak_limits, Hw3| |done].
    intros b s4 [-> ->]. destruct (cd <=? Limits.max_depth Lm) eqn:Hd; bool_prop; simpl.
    + apply post_bind. eapply post_mono; [by apply (read_spec (cd :: owed))| |done]. intros [bytes|[error|]] s5; simpl.
      * intros (Hw5 & Hok & Hsz). apply (post_fails _ owed owed). by apply finish_child_spec.
      * intros [Hs Hw5]. apply (post_kept _ (λ _ _, True) owed). by apply push_over_budget_spec; [apply Hw5|..].
      * intros Hw5. apply (post_kept _ (λ _ _, True) owed). by apply push_with_issue_spec; [apply Hw5|..].
    + apply (post_kept _ (λ _ _, True) owed). by apply push_with_issue_spec; [apply Hw3|..].
  - destruct (Hacc eq_refl) as [x' Hx]. rewrite Hx. specialize (Hsee x' Hx). apply post_bind.
    eapply post_mono; [apply push_weak; [apply Hw3|done..]| |done]. intros [] s4 Hw4.
    apply (post_kept _ (λ _ _, True) owed). apply issue_spec; [done|split; [done|reflexivity]|]. by eapply parent_known.
Qed.

Lemma gzip_spec bytes s : kept s → post (expand_gzip par d bytes) (λ _, kept) never s.
Proof. unfold expand_gzip. destruct (gzip_decoder bytes) as [f x]. by apply compressed_spec. Qed.
Lemma bzip2_spec bytes s : kept s → post (expand_bzip2 par d bytes) (λ _, kept) never s.
Proof. by apply compressed_spec. Qed.
Lemma xz_spec bytes s : slice_ok bytes → kept s → post (expand_xz par d bytes) (λ _, kept) never s.
Proof.
  intros Hok Hk. unfold expand_xz. apply post_bind, post_get, post_bind.
  rewrite (kept_policy s Hk).
  eapply post_mono; [apply (lifted_spec xz_says); [|apply xz_refuses]| |done].
  - eapply returns_with_returns, XzTheorems.preflight_sound; [done|]. pose proof (set_metadata (p:=p) (d:=d)). apply Z.div_pos; lia.
  - intros [x|e] s' [-> He]; [by apply compressed_spec|]. destruct Hk as (owed & Hw).
    destruct (xz_class _ _) as [k st]. apply (post_whole _ owed). apply reject_spec; [apply Hw|done].
Qed.
Lemma zstd_spec bytes s : kept s → post (expand_zstd par d bytes) (λ _, kept) never s.
Proof.
  intros Hk. unfold expand_zstd. apply post_bind, post_get. destruct (zstd_decoder _ _) as [x|[]]; [by apply compressed_spec|..];
    destruct Hk as (owed & Hw); apply (post_whole _ owed); apply reject_spec; [apply Hw|done|apply Hw|done].
Qed.

(** ** TAR *)

(** What a failed member leaves is recorded. *)
Lemma failed_member {A} (m : insp A) (Q : A → State → Prop) s : steady m → post m Q (fails weakly) s →
  post (attempt m : insp _) (λ r s', (flagged s → flagged s') ∧ match r with Ok a => Q a s' | Err e => error_says e ∧ weakly s' end) never s.
Proof.
  intros Hst Hm. pose proof (post_try (F:=Limits.AttachmentError) m Q weakly s Hm) as Ht.
  pose proof (post_steady (E:=fault Limits.AttachmentError) _ _ _ s (steady_attempt m Hst) Ht) as Hp.
  eapply post_mono; [exact Hp| |by intros e s' []]. intros r s' [Hr Hf]. split; [done|exact Hr].
Qed.
Lemma recorded_failure e s : weakly s → error_says e → post (record_budget_issue par e) (λ _ s', kept s' ∧ flagged s') never s.
Proof. intros (owed & Hw) He. by eapply record_kept. Qed.
Lemma issue_kept code class sev message s : weakly s → says (str code) (str message) →
  post (parent_issue par code class sev message true) (λ _ s', kept s' ∧ flagged s') never s.
Proof.
  intros (owed & Hw) He. eapply post_mono; [by apply parent_issue_spec| |done]. intros [] s' [Hw' Hf]. split; [by eapply kept_of|done].
Qed.
Lemma entry_spec s : kept s →
  post (attempt charge_entry : insp _) (λ r s', (flagged s → flagged s') ∧ kept s' ∧ match r with Ok _ => True | Err e => error_says e end) never s.
Proof.
  intros (owed & Hw). pose proof (post_try (F:=Limits.AttachmentError) _ _ _ _ (charge_entry_whole p par d n owed 0 s Hw)) as Ht.
  pose proof (post_steady (E:=fault Limits.AttachmentError) _ _ _ s (steady_attempt charge_entry (steady_timed _)) Ht) as Hp.
  eapply post_mono; [exact Hp| |by intros e s' []]. intros [[]|e] s' [Hr Hf]; simpl in Hr; (split; [done|]); [split; [|done]|split; [|apply Hr]];
    exists owed; apply Hr.
Qed.
Lemma status_kept x s : kept s → flagged s → post (ignore (set_status par x) : insp unit) (λ _, kept) never s.
Proof. intros (owed & [Hw _]) Hf. apply (post_whole _ owed). by apply flagged_status_spec. Qed.

Lemma tar_entry_spec i t s : kept s → post (process_tar_entry par d i t) (λ _, kept) (fails weakly) s.
Proof.
  intros (owed & Hw). unfold process_tar_entry.
  apply post_bind. eapply post_mono; [apply check_name_spec| |intros f s'; apply fails_mono; intros ->; by eapply whole_weakly].
  intros [] s1 [-> _]. apply post_bind. eapply post_mono; [by apply member_name_spec| |intros f s'; apply fails_mono, whole_weakly].
  intros r s2 (Hw2 & Hacc & Hsee). apply post_bind. eapply post_mono; [by apply charge_edge_whole| |intros f s'; apply fails_mono, whole_weakly].
  intros [] s3 Hw3. set (e := new_edge _ _ _ _ _ _ _). assert (open_edge e) as He by by apply new_edge_open.
  apply post_bind. eapply post_mono; [by apply name_issue_spec| |done]. intros [] s4 [Hw4 Hf].
  destruct (accepted r) eqn:Ha; simpl; [|apply (post_whole _ owed), push_whole; auto].
  destruct (tar_is_dir t); [apply (post_whole _ owed), push_whole; auto|].
  destruct (tar_is_file t); simpl; [|apply (post_kept _ (λ _ _, True) owed); by apply push_with_issue_spec; [apply Hw4|..]].
  apply post_bind. eapply post_mono; [apply depth_allows_spec; by eapply weak_limits, Hw4| |done].
  intros b s5 [-> ->]. destruct (cd <=? Limits.max_depth Lm) eqn:Hd; bool_prop; simpl;
    [|apply (post_kept _ (λ _ _, True) owed); by apply push_with_issue_spec; [apply Hw4|..]].
  apply post_bind. eapply post_mono; [eapply post_try, check_declared_spec, weak_limits, Hw4| |done].
  intros [[]|error] s6; simpl.
  - intros [-> _]. by apply (derive_member_spec owed).
  - intros [Hs ->]. apply (post_kept _ (λ _ _, True) owed); by apply push_over_budget_spec; [apply Hw4|..].
Qed.

Lemma tar_loop_spec i l partial s : kept s → (partial = true → flagged s) →
  post (tar_loop par d i l partial) (λ b s', kept s' ∧ (b = true → flagged s')) never s.
Proof.
  revert i partial s. induction l as [|t l IH]; intros i partial s Hk Hf; cbn [tar_loop]; [by apply post_ret|].
  apply post_bind. eapply post_mono; [by apply entry_spec| |done]. intros [[]|error] s1 (Hf1 & Hk1 & Hs).
  - destruct t as [t|].
    + apply post_bind. eapply post_mono; [apply (failed_member _ (λ _, kept)); [auto with steady|by apply tar_entry_spec]| |done].
      intros [[]|error] s2 [Hf2 Hr]; [apply IH; auto|]. destruct Hr as [He Hw].
      apply post_bind. eapply post_mono; [by apply recorded_failure| |done]. intros [] s3 [Hk3 Hf3]. apply post_bind, post_get.
      destruct (continue_after_child_error _); [by apply IH|by apply post_ret].
    + apply post_bind. eapply post_mono; [apply issue_kept; [by apply kept_weakly|done]| |done]. intros [] s2 [Hk2 Hf2]. by apply post_ret.
  - apply post_bind. eapply post_mono; [apply recorded_failure; [by apply kept_weakly|done]| |done]. intros [] s2 [Hk2 Hf2]. by apply post_ret.
Qed.
Lemma reject_kept st code class message s : kept s → says (str code) (str message) →
  post (reject_container par st code class message) (λ _, kept) never s.
Proof. intros (owed & [Hw _]) Hs. apply (post_whole _ owed). by apply reject_spec. Qed.
(** The status of a container whose members are only partly derived *)
Lemma partial_spec (m : insp bool) x s : post m (λ b s', kept s' ∧ (b = true → flagged s')) never s →
  post (partial ← m ; if (partial : bool) then ignore (set_status par x) else mret tt) (λ _, kept) never s.
Proof.
  intros Hm. apply post_bind. eapply post_mono; [exact Hm| |done]. intros [] s' [Hk Hf]; [by apply status_kept; auto|by apply post_ret].
Qed.
Lemma tar_spec bytes s : kept s → post (expand_tar par d bytes) (λ _, kept) never s.
Proof.
  intros Hk. unfold expand_tar. destruct (tar_entries bytes) as [l|]; [|by apply reject_kept]. apply partial_spec. by apply tar_loop_spec.
Qed.
End Handlers.
