(* ===== verification/InspectionMembers.v ===== *)
(** * InspectionMembers: the containers keep the invariant

    The specifications of the handlers of InspectionContainers.v: ZIP, 7z, PDF, email and
    mailboxes, each from the operations of InspectionInvariant.v and InspectionHandlers.v. *)

From S2P Require Import Prelude Bytes Text Utf8 Strings Sorting PdfPreflight MimePreflight PdfScan XzPreflight ZipPreflight Budget AttachmentTypes AttachmentGraph MemberNames Detect Inspection InspectionContainers InspectionErrors InspectionInvariant InspectionHandlers.
Local Open Scope Z_scope.

Section Members.
Context {C D : Type} `{!Parsers C D} `{!ParserLaws Parsers0} `{MailStreamLaws} (p : Subject) (par : text) (d : Z) (n : nat) `{!Setting p d}.
Notation State := (InspectionState C).
Notation insp := (SM State (fault Limits.AttachmentError)).
Notation Lm := (policy_limits p).
Notation cd := (child_depth d).
Notation whole := (whole p par d n).
Notation weak := (weak p par d n).
Notation kept := (kept p par d n).
Notation weakly := (weakly p par d n).
Notation open_edge := (open_edge par d).

(** ** ZIP *)

(** The start of a member: its entry, its name and the charge for its edge *)
Lemma zip_entry_spec a m b o c s : zip_archive b o c = Some a → by_index_raw a (zip_index m) = Some (zip_file m) →
  kept s → post (process_zip_entry par d a m) (λ _, kept) (fails weakly) s.
Proof.
  intros Ha Hm (owed & Hw). unfold process_zip_entry.
  apply post_bind. eapply post_mono; [by apply member_name_spec| |intros f s'; apply fails_mono, whole_weakly].
  intros r s2 (Hw2 & Hacc & Hsee). apply post_bind. eapply post_mono; [by apply charge_edge_whole| |intros f s'; apply fails_mono, whole_weakly].
  intros [] s3 Hw3. set (e := new_edge _ _ _ _ _ _ _). assert (open_edge e) as He.
  { apply new_edge_open. intros x. unfold zip_range. destruct (zf_data_start (zip_file m)) as [y|] eqn:Hy; [|done]. intros [= <-]. simpl.
    destruct (archive_ranges _ _ _ _ _ _ _ Ha Hm Hy). unfold saturating_add. lia. }
  apply post_bind. eapply post_mono; [by apply name_issue_spec| |done]. intros [] s4 [Hw4 Hf].
  destruct (accepted r) eqn:Hok; simpl; [|apply (post_whole p par d n _ owed), push_whole; auto].
  destruct (zf_is_dir _); [apply (post_whole p par d n _ owed), push_whole; auto|].
  assert (∀ o c k v t, must_have_child o = false → says (str c) (str t) →
    post (push_with_issue o e par c k v t) (λ _, kept) (fails weakly) s4) as Hpush.
  { intros. apply (post_kept p par d n _ (λ _ _, True) owed). apply push_with_issue_spec; [apply Hw4|done..]. }
  destruct (_ || _); [by apply Hpush|]. destruct (zf_encrypted _); [by apply Hpush|].
  apply post_bind. eapply post_mono; [apply depth_allows_spec; by eapply weak_limits, Hw4| |done].
  intros x s5 [-> ->]. destruct (cd <=? Limits.max_depth Lm) eqn:Hd; bool_prop; simpl; [|by apply Hpush].
  apply post_bind. eapply post_mono; [eapply post_try, check_declared_spec, weak_limits, Hw4| |done].
  intros [[]|error] s6; simpl.
  - intros [-> _]. apply post_bind, post_get. destruct (Ledger.derived_budget_exhausted _); [by apply Hpush|].
    destruct (by_index _ _); [|by apply Hpush]. by apply (derive_member_spec p par d n owed).
  - intros [Hs ->]. apply (post_kept p par d n _ (λ _ _, True) owed); by apply push_over_budget_spec; [apply Hw4|..].
Qed.

Lemma zip_entries_spec a l s : kept s →
  post (zip_entries par a l) (λ r s', kept s' ∧ ∀ es m, r = Some es → m ∈ es → by_index_raw a (zip_index m) = Some (zip_file m)) never s.
Proof.
  revert s. induction l as [|i l IH]; intros s Hk; cbn [zip_entries].
  - apply post_ret. split; [done|]. intros es m [= <-] Hm. by apply elem_of_nil in Hm.
  - apply post_bind. eapply post_mono; [by apply entry_spec| |done]. intros [[]|error] s1 (_ & Hk1 & Hs).
    + destruct (by_index_raw a i) as [f|] eqn:Hf.
      * apply post_bind. eapply post_mono; [by apply IH| |done]. intros r s2 [Hk2 Hr]. apply post_ret. split; [done|].
        intros es m Hes Hm. destruct r as [k|]; [|done]. simpl in Hes. injection Hes as <-.
        apply elem_of_cons in Hm as [->|Hm]; [done|]. by apply (Hr k).
      * apply post_bind. eapply post_mono; [apply issue_kept; [by apply kept_weakly|done]| |done]. intros [] s2 [Hk2 _]. by apply IH.
    + apply post_bind. eapply post_mono; [apply recorded_failure; [by apply kept_weakly|done]| |done]. intros [] s2 [Hk2 Hf2].
      by apply post_ret.
Qed.

Lemma zip_members_spec a l partial b o c s : zip_archive b o c = Some a → (∀ m, m ∈ l → by_index_raw a (zip_index m) = Some (zip_file m)) →
  kept s → (partial = true → flagged s) → post (zip_members par d a l partial) (λ b s', kept s' ∧ (b = true → flagged s')) never s.
Proof.
  intros Ha. revert partial s. induction l as [|m l IH]; intros partial s Hl Hk Hf; cbn [zip_members]; [by apply post_ret|].
  apply post_bind. eapply post_mono; [apply (failed_member p par d n _ (λ _, kept)); [auto with steady|eapply zip_entry_spec; [done|apply Hl; by left|done]]| |done].
  assert (∀ m, m ∈ l → by_index_raw a (zip_index m) = Some (zip_file m)) as Hl' by (intros x Hx; apply Hl; by right).
  intros [[]|error] s2 [Hf2 Hr]; [apply IH; auto|]. destruct Hr as [He Hw].
  apply post_bind. eapply post_mono; [by apply recorded_failure| |done]. intros [] s3 [Hk3 Hf3]. apply post_bind, post_get.
  destruct (continue_after_child_error _); [by apply IH|by apply post_ret].
Qed.

(** The issue of a container that is given up, and its status *)
Lemma decline_spec st code class message s : kept s → says (str code) message → post (decline par st code class message) (λ _, kept) never s.
Proof.
  intros (owed & [Hw _]) Hs. unfold decline. apply post_bind. eapply post_mono; [apply issue_spec; [done..|by eapply parent_known]| |done].
  intros [] s' [Hw' Hf]. apply (post_whole p par d n _ owed). apply flagged_status_spec; [apply Hw'|done].
Qed.
(** A text in front is enough for a message to be seen. *)
Lemma says_app code x y : seen (str code) = true → seen x = true → says (str code) (x ++ y).
Proof. intros Hc Hx. split; [done|]. unfold seen in *. by rewrite existsb_app, Hx. Qed.


(** The detection of a container may be refined; nothing that the coverage is about changes. *)
Lemma object_spec (s : State) : kept s → post (attempt (object par) : insp _) (λ _ s', s' = s) never s.
Proof.
  intros (owed & [Hw _]). destruct (object_known p d n s par (wk_shape _ _ _ _ _ _ _ Hw) (parent_in _ _ _ _ _ _ _ Hw)) as (k & o & Hk & Ho & _).
  unfold post, attempt, object, mbind, sm_bind, sm_get, sm_lift. rewrite Hk. simpl. by rewrite Ho.
Qed.
Lemma mutation_covered id f (s : State) : (∀ o, status (f o) = status o) → covered s → covered (object_mut id f s).2.
Proof.
  intros Hf Hc. unfold object_mut, mbind, sm_bind, sm_get, sm_lift. destruct (object_index s !! id) as [k|]; [|done]. simpl.
  destruct (s_objects s !! k) as [o|] eqn:Ho; [|done]. simpl. intros Hp. destruct (Hc Hp) as (H1 & H2 & H3). split; [|done].
  intros x Hx. apply list_elem_of_lookup in Hx as (i & Hi). apply list_lookup_insert_Some in Hi as [(<- & <- & _)|(_ & Hi)].
  - rewrite Hf. apply H1. by eapply list_elem_of_lookup_2.
  - apply H1. by eapply list_elem_of_lookup_2.
Qed.
Lemma refine_spec f (s : State) : kept s → post (attempt (refine_zip_detection par f) : insp _) (λ r s', is_ok r ∧ kept s') never s.
Proof.
  intros (owed & [Hw Hc]). unfold refine_zip_detection. set (g := λ o, _).
  pose proof (object_mut_spec p par d n owed 0 par g s ltac:(done) Hw (parent_in _ _ _ _ _ _ _ Hw)) as Hm.
  pose proof (mutation_covered par g s ltac:(done) Hc) as Hcov. revert Hm Hcov. unfold post, attempt.
  destruct (object_mut par g s) as [[[]|e] s']; [|done]. intros [Hw' _] Hcov. split; [by eexists|]. by exists owed.
Qed.

Lemma zip_archive_spec a b o c s : zip_archive b o c = Some a → kept s → post (expand_zip_archive par d a) (λ _, kept) never s.
Proof.
  intros Ha Hk. unfold expand_zip_archive. apply post_bind. eapply post_mono; [by apply zip_entries_spec| |done].
  intros [es|] s1 [Hk1 Hes]; [|by apply post_ret]. set (sorted := sort_by _ _ es).
  assert (∀ m, m ∈ sorted → by_index_raw a (zip_index m) = Some (zip_file m)) as Hs.
  { intros m Hm. apply (Hes es); [done|]. unfold sorted in Hm. by rewrite sort_by_perm in Hm. }
  apply post_bind. eapply post_mono; [by apply object_spec| |done]. intros x s2 ->.
  apply post_bind. eapply post_mono; [by apply refine_spec| |done]. intros [[]|e] s3 [Hok Hk3]; [|by destruct Hok].
  apply post_bind, post_ret. apply partial_spec. by eapply zip_members_spec.
Qed.

Lemma expect_spec {E A} (r : parse E A) (Q : A → State → Prop) a s : r = Ok a → Q a s → post (expect r : insp A) Q never s.
Proof. intros -> HQ. exact HQ. Qed.

(** What the directory check has established is what the cursor and the reader need. *)
Lemma cursor_exists (summary : Zip.ZipDirectorySummary) m : 0 ≤ Zip.metadata_bytes summary ≤ Zip.directory_end summary →
  Zip.directory_end summary ≤ m → m ≤ isize_max → 0 ≤ Zip.relative_directory_start summary →
  0 ≤ Zip.directory_end summary - Zip.metadata_bytes summary - Zip.relative_directory_start summary →
  (∃ c, Zip.new summary = Ok c) ∧ ∃ o, Zip.archive_offset summary = Ok o.
Proof.
  intros. unfold isize_max in *. assert (Zip.start summary = Ok (Zip.directory_end summary - Zip.metadata_bytes summary)) as Hs.
  { unfold Zip.start, try_from, need, checked_sub, usize_max, u64_max. rewrite (proj2 (Z.leb_le _ _)) by lia. simpl.
    by rewrite (proj2 (Z.leb_le _ _)) by lia. }
  unfold Zip.new, Zip.archive_offset. rewrite Hs. simpl. split; [by eexists|]. unfold try_from, need, checked_sub, u64_max.
  rewrite (proj2 (Z.leb_le _ _)) by lia. simpl. rewrite (proj2 (Z.leb_le _ _)) by lia. by eexists.
Qed.

Lemma zip_spec bytes s : slice_ok bytes → kept s → post (expand_zip par d bytes) (λ _, kept) never s.
Proof.
  intros Hok Hk. unfold expand_zip. pose proof (ZipRecords.preflight_returns bytes Hok) as Hr.
  apply post_bind. eapply post_mono; [apply (lifted_spec (λ _, True)); [by eapply returns_with_returns|done]| |done].
  intros [summary|e] s1 [-> He]; [|destruct e; by apply reject_kept].
  rewrite He in Hr. simpl in Hr. destruct Hr as ((Hp & _) & _ & _ & _ & _ & _ & Hmeta & Hrel & _ & Hend & _). apply post_bind, post_get.
  destruct (_ <? Zip.entries summary); [apply decline_spec; [done|by apply says_app]|].
  destruct (_ <? Zip.allocation_metadata_bytes summary); [apply decline_spec; [done|by apply says_app]|].
  pose proof (len_nonneg bytes). assert (Zip.directory_end summary ≤ len bytes) as Hdir by lia.
  pose proof (ZipWalk.validate_directory_returns bytes Hok summary Hdir ltac:(lia)) as Hv.
  apply post_bind. eapply post_mono; [apply (lifted_spec (λ _, True)); [by eapply returns_with_returns|done]| |done].
  intros [[]|e] s2 [-> He']; [|by apply reject_kept]. rewrite He' in Hv. simpl in Hv. destruct Hv as (Hv1 & Hv2 & _).
  destruct (cursor_exists summary (len bytes)) as [[cur Hcur] [off Hoff]]; [lia|done|apply Hok|lia..|].
  apply post_bind. eapply expect_spec; [done|]. apply post_bind. eapply expect_spec; [done|].
  destruct (zip_archive bytes off cur) as [a|] eqn:Ha; [|by apply reject_kept].
  destruct (try_from u32_max (zip_len a)) as [count|]; [|by apply decline_spec].
  destruct (negb _); [by apply decline_spec|]. destruct (_ <? count); [apply decline_spec; [done|by apply says_app]|].
  by eapply zip_archive_spec.
Qed.

(** ** 7z *)

(** A check of the deadline reads the clock. *)
Lemma deadline_post s :
  post check_deadline (λ _ s', ∃ c, s' = set_budget (budget s) c s) (fails (λ s', ∃ c, s' = set_budget (budget s) c s)) s.
Proof.
  unfold post, check_deadline, timed, fallible, on_timed, on_ledger. destruct (clock_elapsed (clock s)) as [t c].
  change (budget (set_budget (budget s) c s)) with (budget s). pose proof (check_deadline_says t (budget s)) as Hs. revert Hs.
  unfold Ledger.check_deadline, mbind, sm_bind, sm_get, sm_reject_if, sm_lift, reject_if. destruct (_ <? t); intros Hs.
  - eexists. split_and!; [done|by apply Hs|by exists c].
  - by exists c.
Qed.
Lemma clock_whole owed held c s : whole owed held s → whole owed held (set_budget (budget s) c s).
Proof.
  intros [[Hs Hb Hn Hp] Hc]. split; [|exact Hc].
  split; [by apply (shape_same p d n s)|by apply (books_same p owed held s)|done|done].
Qed.
Lemma deadline_spec owed held s : whole owed held s →
  post (attempt check_deadline : insp _)
    (λ r s', (flagged s → flagged s') ∧ whole owed held s' ∧ match r with Ok _ => True | Err e => error_says e end) never s.
Proof.
  intros Hw. pose proof (post_try (F:=Limits.AttachmentError) _ _ _ _ (deadline_post s)) as H'.
  eapply post_mono; [exact H'| |done]. intros [[]|e] s'; simpl.
  - intros (c & ->). split_and!; [done|by apply clock_whole|done].
  - intros [He (c & ->)]. split_and!; [done|by apply clock_whole|done].
Qed.

(** The member that is open: its edge is charged and not there, its bytes are held. *)
Record pending_ok (x : SevenZipPending) (s : State) : Prop := {
  po_edge : open_edge (pending_edge x);
  po_drop : retain x = false → must_have_child (outcome (pending_edge x)) = false ∧
    (flagged s ∨ incomplete_outcome (outcome (pending_edge x)) = false) ∧ pending_bytes x = [];
  po_bytes : slice_ok (pending_bytes x) ∧ len (pending_bytes x) ≤ Limits.max_object_bytes Lm;
  po_depth : retain x = true → cd ≤ Limits.max_depth Lm;
}.
Definition open_member (o : option SevenZipPending) (s : State) : Prop :=
  match o with
  | None => kept s
  | Some x => (∃ owed, whole (cd :: owed) (len (pending_bytes x)) s) ∧ pending_ok x s
  end.
Lemma open_kept o s : open_member o s → kept s.
Proof. destruct o as [x|]; [|done]. intros [(owed & Hw) _]. eapply whole_kept; [|done]. apply len_nonneg. Qed.
Lemma pending_steady x s s' : (flagged s → flagged s') → pending_ok x s → pending_ok x s'.
Proof.
  intros Hf [H1 H2 H3 H4]. split; [done| |done|done]. intros Hr. destruct (H2 Hr) as (? & [?|?] & ?); split_and!; auto.
Qed.
Lemma reopened o e : open_edge e → open_edge (with_child (child e) o e).
Proof. done. Qed.
Lemma object_limit : 0 ≤ Limits.max_object_bytes Lm ≤ u64_max.
Proof. apply (set_limits (p:=p) (d:=d)). Qed.
Lemma empty_ok : slice_ok [] ∧ len (@nil Z) ≤ Limits.max_object_bytes Lm.
Proof. split; [split; [by constructor|done]|]. rewrite len_nil. apply object_limit. Qed.

Lemma dropped_ok e o z s : open_edge e → must_have_child o = false → flagged s ∨ incomplete_outcome o = false →
  pending_ok (pend e o z false) s.
Proof. intros He Hm Hi. split; [done|done|apply empty_ok|done]. Qed.
Lemma retained_ok e z s : open_edge e → cd ≤ Limits.max_depth Lm → pending_ok (pend e Malformed z true) s.
Proof. intros He Hd. split; [done|done|apply empty_ok|done]. Qed.

Lemma begin_spec m s : (∀ b, em_size m = Some b → 0 ≤ b) → kept s →
  post (begin_seven_zip_entry par d m) (λ x s', open_member (Some x) s' ∧ pending_bytes x = []) (fails weakly) s.
Proof.
  intros Hsize (owed & Hw). unfold begin_seven_zip_entry.
  apply post_bind. eapply post_mono; [by apply charge_entry_whole| |intros f s'; apply fails_mono, whole_weakly].
  intros [] s1 Hw1. apply post_bind, post_get, post_bind.
  eapply post_mono; [by apply member_name_spec| |intros f s'; apply fails_mono, whole_weakly].
  intros r s2 (Hw2 & Hacc & Hsee). apply post_bind. apply (post_mono _ (λ _, whole owed 0) _ (fails (whole owed 0))).
  { destruct (em_size m) as [b|] eqn:Hb; [|by apply post_ret]. destruct (_ && _); [|by apply post_ret]. specialize (Hsize b eq_refl).
    unfold try_from. destruct (b <=? usize_max) eqn:Hle; bool_prop.
    - apply post_bind, post_lift; [|done]. intros y [= <-]. eapply post_mono; [apply (charge_chunk_whole p par d n owed 0 b); [|done]| |done].
      + unfold usize_max in *. lia.
      + intros [] s' Hw'. eapply whole_held; [|done]. lia.
    - apply post_bind, post_lift; [done|]. intros f [= <-]. by eexists. }
  2: { intros f s'. apply fails_mono, whole_weakly. }
  intros [] s3 Hw3. apply post_bind. eapply post_mono; [by apply charge_edge_whole| |intros f s'; apply fails_mono, whole_weakly].
  intros [] s4 Hw4. apply post_bind. eapply post_mono; [by apply name_issue_spec| |done]. intros [] s5 [Hw5 Hf].
  set (e := new_edge _ _ _ _ _ _ _). assert (open_edge e) as He by by apply new_edge_open.
  assert (∀ o s', must_have_child o = false → whole (cd :: owed) 0 s' → flagged s' ∨ incomplete_outcome o = false →
    post (mret (pend e o (em_size m) false) : insp _) (λ x s', open_member (Some x) s' ∧ pending_bytes x = []) (fails weakly) s') as Hdrop.
  { intros o s' Ho Hw' Hi. apply post_ret. split; [|done]. split; [by exists owed|by apply dropped_ok]. }
  assert (∀ o c k v t, must_have_child o = false → says (str c) (str t) →
    post (parent_issue par c k v t true ;; mret (pend e o (em_size m) false)) (λ x s', open_member (Some x) s' ∧ pending_bytes x = [])
      (fails weakly) s5) as Hissue.
  { intros o c k v t Ho Hs. apply post_bind. eapply post_mono; [apply parent_issue_spec; [apply Hw5|done]| |done].
    intros [] s' [Hw' Hf']. apply Hdrop; [done..|by left]. }
  destruct (accepted r) eqn:Ha; simpl; [|apply Hdrop; [done..|left; auto]].
  case_bool_decide; [apply Hdrop; [done..|by right]|]. destruct (em_encrypted m); [by apply Hissue|].
  case_bool_decide; simpl; [|by apply Hissue].
  apply post_bind. eapply post_mono; [apply depth_allows_spec; by eapply weak_limits, Hw5| |done].
  intros x s6 [-> ->]. destruct (cd <=? Limits.max_depth Lm) eqn:Hd; bool_prop; simpl; [|by apply Hissue].
  assert (∀ z, post (mret (pend e Malformed z true) : insp _) (λ x s', open_member (Some x) s' ∧ pending_bytes x = []) (fails weakly) s5) as Hkeep.
  { intros z. apply post_ret. split; [|done]. split; [by exists owed|by apply retained_ok]. }
  destruct (em_size m) as [size|]; [|apply Hkeep].
  apply post_bind. eapply post_mono; [eapply post_try, check_declared_spec, weak_limits, Hw5| |done].
  intros [[]|error] s6; simpl; [intros [-> _]; apply Hkeep|]. intros [Hs ->].
  apply post_bind. eapply post_mono; [apply record_spec; [apply Hw5|done]| |done]. intros [] s' [Hw' Hf']. apply Hdrop; [done..|by left].
Qed.

Lemma end_spec x s : open_member (Some x) s →
  post (finish_seven_zip_entry par x) (λ b s', kept s' ∧ (b = false → flagged s')) never s.
Proof.
  intros [(owed & Hw) [He Hdrop [Hok Hsize] Hdepth]]. unfold finish_seven_zip_entry. pose proof (len_nonneg (pending_bytes x)).
  destruct (retain x) eqn:Hr; simpl.
  - case_match.
    + apply post_bind. eapply post_mono; [apply push_with_issue_spec; [eapply weak_held, Hw; done|done..]| |done].
      intros [] s1 [Hw1 Hf1]. apply post_ret. split; [by eapply kept_of|done].
    + apply post_bind. eapply post_mono; [apply (post_try _ (λ _, kept) weakly)| |done].
      { apply (post_fails p par d n _ owed owed). by apply finish_child_spec; auto. }
      intros [[]|e] s1; simpl; [intros Hk; by apply post_ret|]. intros [Hs Hk]. apply post_bind.
      eapply post_mono; [by apply recorded_failure| |done]. intros [] s2 [Hk2 Hf2]. by apply post_ret.
  - destruct (Hdrop eq_refl) as (Hm & Hi & Hnil). rewrite Hnil in Hw. change (len []) with 0 in Hw. apply post_bind.
    assert (pending_edge x = with_child (child (pending_edge x)) (outcome (pending_edge x)) (pending_edge x)) as -> by by destruct (pending_edge x).
    eapply post_mono; [apply (push_whole p par d n owed 0 (outcome (pending_edge x)) (pending_edge x)); done| |done].
    intros [] s1 Hw1. apply post_ret. split; [by eapply kept_of|done].
Qed.

(** What becomes of the open member when the archive is given up *)
Lemma push_pending_spec o x s : must_have_child o = false → open_member x s → post (push_pending o x) (λ _, weakly) never s.
Proof.
  intros Ho. destruct x as [x|]; [|intros Hk; apply post_ret; by apply kept_weakly]. intros [(owed & [Hw _]) Hp].
  pose proof (len_nonneg (pending_bytes x)). eapply post_mono; [apply (push_weak p par d n owed 0); [eapply weak_held, Hw; done|apply Hp|done]| |done].
  intros [] s'. apply weakly_of.
Qed.
Lemma given_up code class sev message s : weakly s → says (str code) (str message) →
  post (parent_issue par code class sev message true ;; mret true) (λ (b : bool) s', kept s' ∧ (b = true → flagged s')) never s.
Proof.
  intros Hw Hs. apply post_bind. eapply post_mono; [by apply (issue_kept p par d n)| |done]. intros [] s' [Hk Hf]. by apply post_ret.
Qed.
Lemma recorded_up e s : weakly s → error_says e →
  post (record_budget_issue par e ;; mret true) (λ (b : bool) s', kept s' ∧ (b = true → flagged s')) never s.
Proof.
  intros Hw Hs. apply post_bind. eapply post_mono; [by apply (recorded_failure p par d n)| |done]. intros [] s' [Hk Hf]. by apply post_ret.
Qed.
Lemma stream_error_spec x k s : open_member x s →
  post (record_seven_zip_stream_error par x k ;; mret true) (λ (b : bool) s', kept s' ∧ (b = true → flagged s')) never s.
Proof.
  intros Ho. apply post_bind. unfold record_seven_zip_stream_error.
  assert (∀ o c q t, must_have_child o = false → says (str c) (str t) → post (push_pending o x ;; parent_issue par c q Blocked t true)
    (λ _ s', post (mret true : insp bool) (λ (b : bool) s', kept s' ∧ (b = true → flagged s')) never s') never s) as Hall.
  { intros o c q t Hm Hs. apply post_bind. eapply post_mono; [by apply push_pending_spec| |done]. intros [] s1 Hw.
    eapply post_mono; [by apply (issue_kept p par d n)| |done]. intros [] s2 [Hk Hf]. by apply post_ret. }
  destruct (error_kind k); by apply Hall.
Qed.

(** The bytes that a member holds are what the reader has yielded of it. *)
Definition holds (o : option SevenZipPending) (acc : list Z) : Prop := ∀ x, o = Some x → retain x = true → pending_bytes x = acc.
Lemma data_spec x chunk acc s : open_member (Some x) s → holds (Some x) acc →
  slice_ok (acc ++ chunk) → len (acc ++ chunk) ≤ Limits.max_object_bytes Lm →
  post (attempt (charge_derived_chunk (len chunk)) : insp _) (λ r s', (flagged s → flagged s') ∧
    match r with
    | Ok _ => open_member (Some (keep_chunk chunk x)) s' ∧ holds (Some (keep_chunk chunk x)) (acc ++ chunk)
    | Err e => error_says e ∧ open_member (Some x) s'
    end) never s.
Proof.
  intros [(owed & Hw) Hp] Hacc Hok Hsize. pose proof (len_nonneg chunk). pose proof (len_nonneg (pending_bytes x)).
  assert (0 ≤ len chunk ≤ u64_max) as Hc.
  { destruct Hok as [_ Hok]. rewrite len_app in Hok. pose proof (len_nonneg acc). unfold isize_max, u64_max in *. lia. }
  pose proof (post_try (F:=Limits.AttachmentError) _ _ _ _ (charge_chunk_whole p par d n (cd :: owed) _ (len chunk) s Hc Hw)) as Ht.
  pose proof (post_steady (E:=fault Limits.AttachmentError) _ _ _ s (steady_attempt (charge_derived_chunk (len chunk)) (steady_timed _)) Ht) as Hst.
  eapply post_mono; [exact Hst| |by intros e s' []]. intros [[]|e] s' [Hr Hf]; simpl in Hr; (split; [done|]).
  - unfold keep_chunk, holds. destruct (retain x) eqn:Hre.
    + rewrite (Hacc x eq_refl Hre) in *. split; [|by intros y [= <-]]. split; [exists owed; simpl; by rewrite len_app|].
      destruct Hp as [P1 P2 P3 P4]. split; [done|done|done|auto].
    + split; [|intros y [= <-]; by rewrite Hre]. split; [|by eapply pending_steady]. exists owed. eapply whole_held; [|exact Hr]. lia.
  - destruct Hr as [He Hw']. split; [done|]. split; [by exists owed|by eapply pending_steady].
Qed.

Lemma seven_loop_spec l acc x partial s : ends l → members_within (Limits.max_object_bytes Lm) acc l →
  open_member x s → holds x acc → (partial = true → flagged s) →
  post (seven_zip_loop par d l x partial) (λ (b : bool) s', kept s' ∧ (b = true → flagged s')) never s.
Proof.
  revert acc x partial s. induction l as [|ev l IH]; intros acc x partial s Hends Hin Ho Hacc Hf; [by inversion Hends|]. cbn [seven_zip_loop].
  assert (∀ y, x = Some y → pending_ok y s) as Hp by (intros y ->; apply Ho).
  apply post_bind. apply (post_mono _ (λ r s', (flagged s → flagged s') ∧ open_member x s' ∧ match r with Ok _ => True | Err e => error_says e end) _ never).
  { destruct x as [y|].
    - destruct Ho as [(owed & Hw) Hy]. eapply post_mono; [by apply deadline_spec| |done]. intros r s' (Hf' & Hw' & Hr).
      split_and!; [done| |done]. split; [by exists owed|by eapply pending_steady].
    - destruct Ho as (owed & Hw). eapply post_mono; [by apply deadline_spec| |done]. intros r s' (Hf' & Hw' & Hr).
      split_and!; [done| |done]. by exists owed. }
  2: done.
  intros [[]|error] s1 (Hf1 & Ho1 & Hr1); [|apply recorded_up; [by eapply kept_weakly, open_kept|done]].
  destruct ev as [ev|k]; [|by apply stream_error_spec].
  assert (ends l ∨ ev = Done ∨ ev = OtherEvent) as Hends' by (inversion Hends as [? ? He|]; subst; [destruct ev; try done; auto|by left]).
  destruct ev as [|m|chunk| | |]; cbn [members_within] in Hin.
  - destruct Hends' as [?|[?|?]]; [|done..]. apply (IH acc); auto.
  - destruct Hends' as [?|[?|?]]; [|done..]. destruct Hin as [Hm Hin]. destruct x as [y|]; [apply given_up; [by eapply kept_weakly, open_kept|done]|].
    apply post_bind. eapply post_mono; [apply (failed_member p par d n); [auto with steady|by apply begin_spec]| |done].
    intros [y|e] s2 [Hf2 Hr2]; [|destruct Hr2; by apply recorded_up]. destruct Hr2 as [Ho2 Hnil]. apply (IH []); [done..| |auto]. by intros z [= <-].
  - destruct Hends' as [?|[?|?]]; [|done..]. destruct Hin as (Hok & Hsize & Hin). destruct x as [y|]; [|apply given_up; [by apply kept_weakly|done]].
    apply post_bind. eapply post_mono; [by apply (data_spec y chunk acc)| |done]. intros [[]|e] s2 [Hf2 Hr2].
    + destruct Hr2 as [Ho2 Hh]. apply (IH (acc ++ chunk)); auto.
    + destruct Hr2 as [He Ho2]. apply post_bind. eapply post_mono; [by apply (push_pending_spec BudgetExceeded (Some y))| |done].
      intros [] s3 Hw3. by apply recorded_up.
  - destruct Hends' as [?|[?|?]]; [|done..]. destruct x as [y|]; [|apply given_up; [by apply kept_weakly|done]].
    apply post_bind. pose proof (post_steady (E:=fault Limits.AttachmentError) _ _ _ s1 (steady_end par y) (end_spec y s1 Ho1)) as He.
    eapply post_mono; [exact He| |by intros e s' []]. intros b s2 [[Hk2 Hb2] Hf2].
    destruct b; [apply (IH acc); [done..|auto]|]. apply post_bind, post_get. destruct (continue_after_child_error _); [apply (IH acc); [done..|auto]|].
    by apply post_ret; auto.
  - destruct x as [y|]; [|apply post_ret; split; [done|auto]]. unfold push_with_issue.
    destruct Ho1 as [(owed & [Hw _]) Hy]. pose proof (len_nonneg (pending_bytes y)). apply post_bind.
    eapply post_mono; [apply push_with_issue_spec; [eapply weak_held, Hw; done|apply Hy|done..]| |done].
    intros [] s2 [Hw2 Hf2]. apply post_ret. split; [by eapply kept_of|done].
  - apply given_up; [by eapply kept_weakly, open_kept|done].
Qed.
Lemma seven_zip_spec bytes s : kept s → post (expand_seven_zip par d bytes) (λ _, kept) never s.
Proof.
  intros Hk. unfold expand_seven_zip. apply post_bind, post_get. destruct (seven_zip_reader _ _) as [l|k] eqn:Hr.
  - destruct (events_ok _ _ _ Hr) as [He Hin]. apply partial_spec. apply (seven_loop_spec l []); [done| |done|done|done].
    unfold seven_zip_limits, limits_of in Hin. simpl in Hin. by rewrite (kept_policy p par d n s Hk) in Hin.
  - unfold record_seven_zip_open_error. destruct (error_kind k); by apply reject_kept.
Qed.
End Members.
