(* ===== verification/InspectionDocuments.v ===== *)
(** * InspectionDocuments: PDFs, emails and mailboxes keep the invariant

    The specifications of the last handlers of InspectionContainers.v. *)

From S2P Require Import Prelude Bytes Text Utf8 Strings Sorting PdfPreflight MimePreflight PdfScan XzPreflight ZipPreflight Budget AttachmentTypes AttachmentGraph MemberNames Detect Inspection InspectionContainers InspectionErrors InspectionInvariant InspectionHandlers InspectionMembers.
Local Open Scope Z_scope.

Section Documents.
Context {C D : Type} `{!Parsers C D} `{!ParserLaws Parsers0} `{MailStreamLaws} (p : Subject) (par : text) (d : Z) (n : nat) `{!Setting p d}.
Notation State := (InspectionState C).
Notation insp := (SM State (fault Limits.AttachmentError)).
Notation Lm := (policy_limits p).
Notation cd := (child_depth d).
Notation whole := (whole p par d n).
Notation weak := (weak p par d n).
Notation kept := (kept p par d n).
Notation weakly := (weakly p par d n).
Notation open_edge := (open_edge par d).

(** ** PDF *)

(** A member that is not complete has raised the flag. *)
Definition pdf_kept (o : PdfChildOutcome) (s : State) : Prop := kept s ∧ (o = Complete ∨ flagged s).
Lemma child_failed_spec owed o e c k m r s : weak (cd :: owed) 0 s → open_edge e → must_have_child o = false → says (str c) (str m) →
  post (pdf_child_failed o e par c k m r) pdf_kept (fails weakly) s.
Proof.
  intros Hw He Ho Hs. unfold pdf_child_failed. apply post_bind. eapply post_mono; [by apply push_with_issue_spec| |done].
  intros [] s1 [Hw1 Hf1]. apply post_ret. split; [by eapply kept_of|by right].
Qed.

Lemma pdf_stream_spec owed doc e x content s : whole (cd :: owed) 0 s → open_edge e → cd ≤ Limits.max_depth Lm →
  post (derive_pdf_stream doc par e x content) pdf_kept (fails weakly) s.
Proof.
  intros Hw He Hd. unfold derive_pdf_stream. apply post_bind, post_lift.
  2: { intros f Hf. unfold need, try_from in Hf. destruct (_ <=? _); [done|]. injection Hf as <-. eexists. split_and!; [done..|]. by eapply whole_weakly. }
  intros compressed _. set (size := declared_stream_size _ _). set (e' := with_sizes _ _ e). assert (open_edge e') as He' by done.
  apply post_bind. apply (post_mono _ (λ r s', s' = s ∧ match r with Ok _ => True | Err e => error_says e end) _ never).
  { destruct size as [z|]; [|by apply post_ret]. eapply post_mono; [eapply post_try, check_declared_spec, weak_limits, Hw| |done].
    intros [[]|error] s1; simpl; [by intros [-> _]|by intros [? ->]]. }
  2: done.
  intros [[]|error] s1 [-> Hs].
  2: { apply post_bind. eapply post_mono; [apply push_over_budget_spec; [apply Hw|done..]| |done].
       intros [] s1 [Hw1 Hf1]. apply post_ret. split; [by eapply kept_of|by right]. }
  apply post_bind, post_get. set (room := Ledger.max_stream_output _ _).
  assert (0 ≤ room ≤ u64_max ∧ room ≤ Limits.max_object_bytes Lm) as [Hroom Hobj].
  { destruct Hw as [[_ B _ _] _]. pose proof (BudgetProofs.max_stream_output_bounds (budget s) (Some compressed)) as Hb.
    rewrite (bk_limits _ _ _ _ B) in Hb. destruct (Hb set_limits (bk_within _ _ _ _ B)) as (? & ? & ?). unfold room. lia. }
  destruct (room =? 0); [apply (child_failed_spec owed); [apply Hw|done..]|].
  destruct (decompress_pdf x content room) as [decoded|[]] eqn:Hdec;
    [|apply post_bind; eapply post_mono; [by apply charge_rejected_whole| |done]; intros [] s1 Hw1; apply (child_failed_spec owed); [apply Hw1|done..]
     |apply (child_failed_spec owed); [apply Hw|done..]..].
  destruct (decompressed_ok _ _ _ _ Hdec) as [Hok Hlen]. pose proof (len_nonneg decoded).
  apply post_bind. eapply post_mono; [apply (charge_chunk_whole p par d n (cd :: owed) 0 (len decoded)); [lia|done]| |].
  2: { intros f s'. apply fails_mono, whole_weakly. }
  intros [] s1 Hw1. case_match; [apply (child_failed_spec owed); [eapply weak_held, Hw1; lia|done..]|].
  apply post_bind. eapply post_mono; [apply (post_try _ (λ _, kept) weakly)| |done].
  { apply (post_fails p par d n _ owed owed). apply finish_child_spec; auto; lia. }
  intros [[]|error] s2; simpl; [intros Hk; apply post_ret; by split; [|left]|]. intros [He2 Hw2].
  apply post_bind. eapply post_mono; [by apply recorded_failure| |done]. intros [] s3 [Hk3 Hf3]. apply post_ret. by split; [|right].
Qed.

Lemma push_flagged owed o e s : whole (cd :: owed) 0 s → open_edge e → must_have_child o = false → flagged s →
  post (push o e) (λ _ s', whole owed 0 s' ∧ flagged s') never s.
Proof. intros Hw He Ho Hf. pose proof (push_whole p par d n owed 0 o e s Hw He Ho (or_introl Hf)) as Hp. by split. Qed.

Lemma embedded_spec i doc f s : kept s → post (process_pdf_embedded_file par d i doc f) pdf_kept (fails weakly) s.
Proof.
  intros (owed & Hw). unfold process_pdf_embedded_file.
  apply post_bind. eapply post_mono; [by apply charge_entry_whole| |intros g s'; apply fails_mono, whole_weakly].
  intros [] s1 Hw1. apply post_bind. eapply post_mono; [by apply member_name_spec| |intros g s'; apply fails_mono, whole_weakly].
  intros r s2 (Hw2 & Hacc & Hsee). apply post_bind. eapply post_mono; [by apply charge_edge_whole| |intros g s'; apply fails_mono, whole_weakly].
  intros [] s3 Hw3. apply post_bind. eapply post_mono; [by apply name_issue_spec| |done]. intros [] s4 [Hw4 Hf4].
  set (e := new_edge _ _ _ _ _ _ _). assert (open_edge e) as He by by apply new_edge_open.
  destruct (accepted r) eqn:Ha; simpl.
  - apply post_bind. eapply post_mono; [apply depth_allows_spec; by eapply weak_limits, Hw4| |done].
    intros b s5 [-> ->]. destruct (cd <=? Limits.max_depth Lm) eqn:Hd; bool_prop; simpl; [|apply (child_failed_spec owed); [apply Hw4|done..]].
    destruct (stream_id f) as [id|]; [|apply (child_failed_spec owed); [apply Hw4|done..]].
    destruct (get_object doc id) as [[]|]; try (apply (child_failed_spec owed); [apply Hw4|done..]). by apply (pdf_stream_spec owed).
  - apply post_bind. eapply post_mono; [apply (push_flagged owed); auto| |done]. intros [] s5 [Hw5 Hf5]. apply post_ret.
    split; [by eapply kept_of|by right].
Qed.

Lemma pdf_loop_spec i doc l partial s : kept s → (partial = true → flagged s) →
  post (pdf_loop par d i doc l partial) (λ b s', kept s' ∧ (b = true → flagged s')) never s.
Proof.
  revert i partial s. induction l as [|f l IH]; intros i partial s Hk Hf; cbn [pdf_loop]; [by apply post_ret|].
  apply post_bind. eapply post_mono; [apply (failed_member p par d n _ pdf_kept); [auto with steady|by apply embedded_spec]| |done].
  intros [[| |]|error] s1 [Hf1 Hr1].
  - apply IH; [apply Hr1|auto].
  - apply IH; [apply Hr1|]. intros _. by destruct Hr1 as [_ [?|?]].
  - apply post_ret. split; [apply Hr1|]. intros _. by destruct Hr1 as [_ [?|?]].
  - destruct Hr1. by apply (recorded_up p par d n).
Qed.

Lemma active_spec l s : kept s → post (active_issues par l) (λ _, kept) never s.
Proof.
  revert s. induction l as [|a l IH]; intros s Hk; cbn [active_issues]; [by apply post_ret|]. apply post_bind. destruct Hk as (owed & Hw).
  eapply post_mono; [apply (notice_spec p par d n owed 0); [done|by destruct a|eapply parent_known, Hw]| |done].
  intros [] s1 [Hw1 _]. apply IH. by exists owed.
Qed.
(** The deadline during the walk over a document *)
Lemma pdf_walk_spec doc s : kept s →
  post (attempt (scan_document doc MAX_PDF_STRUCTURE_NODES (on_timed Ledger.check_deadline)) : insp _)
    (λ r s', kept s' ∧ match r with Err (Deadline e) => error_says e | _ => True end) never s.
Proof.
  intros (owed & Hw). pose proof (scan_keeps (λ s, whole owed 0 s) doc MAX_PDF_STRUCTURE_NODES (on_timed Ledger.check_deadline) s) as Hkeep.
  pose proof (pdf_scan_exact doc MAX_PDF_STRUCTURE_NODES (on_timed Ledger.check_deadline) s) as Hscan.
  assert (∀ s', (whole owed 0 s' → whole owed 0 (on_timed Ledger.check_deadline s').2) ∧
    ∀ e, (on_timed Ledger.check_deadline s').1 = Err e → error_says e) as Hdl.
  { intros s'. pose proof (deadline_post s') as Hp. revert Hp. unfold post, check_deadline, timed, fallible.
    destruct (on_timed Ledger.check_deadline s') as [[[]|e] s'']; simpl.
    - intros (c & ->). split; [apply clock_whole|done].
    - intros (e' & [= <-] & He & c & ->). split; [apply clock_whole|by intros e' [= <-]]. }
  specialize (Hkeep (λ s', proj1 (Hdl s')) Hw). specialize (Hscan ltac:(done)). unfold post, attempt.
  destruct (scan_document _ _ _ s) as [[r|[| |[e|]]] s']; simpl in *; [|done..| |].
  - split; [by exists owed|done].
  - destruct Hscan as (s'' & He). split; [by exists owed|by eapply Hdl].
  - split; [by exists owed|done].
Qed.

Lemma pdf_document_spec doc s : kept s → post (expand_pdf_document par d doc) (λ _, kept) never s.
Proof.
  intros Hk. unfold expand_pdf_document. destruct (pdf_encrypted doc); [by apply reject_kept|].
  apply post_bind. eapply post_mono; [by apply pdf_walk_spec| |done]. intros [scan|[e|]] s1 [Hk1 Hr].
  - apply post_bind. eapply post_mono; [by apply active_spec| |done]. intros [] s2 Hk2. apply post_bind, post_get.
    case_bool_decide; [by apply post_ret|]. destruct (negb _); [by apply reject_kept|].
    destruct (try_from _ _) as [count|]; [|by apply reject_kept]. destruct (_ <? count).
    + destruct Hk2 as (owed & [Hw _]). apply post_bind. eapply post_mono; [by apply ignored_status_spec| |done]. intros [] s3 [Hw3 _].
      apply (post_kept p par d n _ (λ _ _, True) owed). apply issue_spec; [done|by apply says_app|by eapply parent_known].
    + apply partial_spec. by apply pdf_loop_spec.
  - apply post_bind. eapply post_mono; [apply (recorded_failure p par d n); [by apply kept_weakly|done]| |done].
    intros [] s2 [Hk2 Hf2]. by apply (status_kept p par d n).
  - by apply reject_kept.
Qed.
Lemma pdf_spec bytes s : kept s → post (expand_pdf par d bytes) (λ _, kept) never s.
Proof.
  intros Hk. unfold expand_pdf. apply post_bind, post_get, post_bind.
  eapply post_mono; [apply (lifted_spec pdf_says); [|apply pdf_refuses]| |done].
  - apply pdf_preflight_returns. unfold Ledger.remaining_objects, saturating_sub. lia.
  - intros [x|e] s1 [-> He]; [|by apply reject_kept]. destruct (load_pdf _ _) as [doc|[]]; [by apply pdf_document_spec|by apply reject_kept..].
Qed.

(** ** Email *)

Lemma email_child_spec owed e r part declared s : whole (cd :: owed) 0 s → open_edge e → slice_ok (part_contents part) →
  declared = len (part_contents part) →
  (accepted r = false → is_Some (reason r)) → (∀ x, reason r = Some x → seen x = true) →
  post (email_child par e r part declared) (λ _, kept) never s.
Proof.
  intros Hw He Hok -> Hacc Hsee. unfold email_child. pose proof (len_nonneg (part_contents part)).
  destruct (accepted r) eqn:Ha; simpl.
  - assert (depth e = cd) as -> by apply He.
    apply post_bind. eapply post_mono; [apply depth_allows_spec; by eapply weak_limits, Hw| |done].
    intros b s1 [-> ->]. destruct (cd <=? Limits.max_depth Lm) eqn:Hd; bool_prop; simpl.
    + apply post_bind. eapply post_mono; [eapply post_try, check_declared_spec, weak_limits, Hw| |done].
      intros [[]|error] s1; simpl.
      2: { intros [Hs ->]. apply (post_kept p par d n _ (λ _ _, True) owed). by apply push_over_budget_spec; [apply Hw|..]. }
      intros [-> Hsize]. assert (0 ≤ len (part_contents part) ≤ u64_max) as Hrange.
      { destruct Hok as [_ Hok]. unfold isize_max, u64_max in *. lia. }
      apply post_bind. eapply post_mono; [by apply post_try, charge_chunk_whole| |done].
      intros [[]|error] s2; simpl.
      * intros Hw2. apply (recorded_spec p par d n (λ _, True)). apply (post_fails p par d n _ owed owed). by apply finish_child_spec.
      * intros [Hs Hw2]. apply (post_kept p par d n _ (λ _ _, True) owed). by apply push_over_budget_spec; [apply Hw2|..].
    + apply (post_kept p par d n _ (λ _ _, True) owed). by apply push_with_issue_spec; [apply Hw|..].
  - destruct (Hacc eq_refl) as [x Hx]. rewrite Hx. specialize (Hsee x Hx). apply post_bind.
    eapply post_mono; [apply push_weak; [apply Hw|done..]| |done]. intros [] s4 Hw4.
    apply (post_kept p par d n _ (λ _ _, True) owed). apply issue_spec; [done|split; [done|reflexivity]|]. by eapply parent_known.
Qed.
Lemma email_loop_spec i l s : (∀ part, part ∈ l → slice_ok (part_contents part)) → kept s → post (email_loop par d i l) (λ _, kept) never s.
Proof.
  intros Hl. revert i s. induction l as [|part l IH]; intros i s Hk; cbn [email_loop]; [by apply post_ret|].
  assert (∀ j s, kept s → post (email_loop par d j l) (λ _, kept) never s) as Hnext.
  { intros j s' Hk'. apply IH; [|done]. intros x Hx. apply Hl. by right. }
  assert (slice_ok (part_contents part)) as Hok by (apply Hl; by left). clear IH Hl.
  apply post_bind. eapply post_mono; [by apply entry_spec| |done]. intros [[]|error] s1 (_ & (owed & Hw1) & Hs1).
  2: { eapply post_mono; [by apply (record_kept p par d n owed 0); [|apply Hw1|]|by intros ? ? []|done]. }
  apply post_bind. eapply post_mono; [by apply post_try, member_name_spec| |done]. intros [r|error] s2; simpl.
  2: { intros [He Hw2]. apply post_bind. eapply post_mono; [by apply (record_kept p par d n owed 0); [|apply Hw2|]| |done].
       intros [] s3 [Hk3 _]. by apply Hnext. }
  intros (Hw2 & Hacc & Hsee). unfold try_from.
  destruct (_ <=? u64_max).
  2: { apply post_bind. eapply post_mono; [apply (issue_kept p par d n); [by eapply whole_weakly|done]| |done].
       intros [] s3 [Hk3 _]. by apply Hnext. }
  apply post_bind. eapply post_mono; [by apply post_try, charge_edge_whole| |done]. intros [[]|error] s3; simpl.
  2: { intros [He Hw3]. eapply post_mono; [by apply (record_kept p par d n owed 0); [|apply Hw3|]|by intros ? ? []|done]. }
  intros Hw3. apply post_bind. eapply post_mono; [apply (email_child_spec owed); [done|by apply new_edge_open|done..]| |done].
  intros [] s4 Hk4. by apply Hnext.
Qed.
Lemma email_spec bytes s : slice_ok bytes → kept s → post (expand_email par d bytes) (λ _, kept) never s.
Proof.
  intros Hok Hk. unfold expand_email. apply post_bind, post_get. unfold limits_of. rewrite (kept_policy p par d n s Hk).
  apply post_bind. eapply post_mono; [apply (lifted_spec mime_says); [|apply mime_refuses]| |done].
  - eapply returns_with_returns, mime_preflight_bounds.
    + destruct Hok. unfold isize_max, usize_max, u64_max in *. lia.
    + destruct Hk as (owed & [[_ B _ _] _]). pose proof (bk_within _ _ _ _ B) as W. pose proof (set_limits (p:=p) (d:=d)) as L.
      unfold BudgetProofs.within, BudgetProofs.limits_ok, usage_of, Ledger.remaining_entries, Ledger.remaining_edges, Ledger.remaining_objects,
        saturating_sub in *. rewrite (bk_limits _ _ _ _ B). lia.
    + pose proof (set_depth (p:=p) (d:=d)). pose proof (set_at (p:=p) (d:=d)). unfold saturating_sub. lia.
    + apply (set_metadata (p:=p) (d:=d)).
  - intros [x|e] s1 [-> He]; [|by apply reject_kept]. destruct (parse_message bytes) as [m|] eqn:Hm; [|by apply reject_kept].
    assert (∀ c t, says (str c) (str t) → post (parent_issue par c Limits.Budget Blocked t true) (λ _, kept) never s) as Hissue.
    { intros c t Hs. eapply post_mono; [by apply (issue_kept p par d n); [apply kept_weakly|]|by intros ? ? []|done]. }
    destruct (try_from _ _) as [count|]; [|by apply Hissue]. destruct (_ <? count); [by apply Hissue|].
    apply email_loop_spec; [|done]. intros part Hp. by eapply parts_ok.
Qed.

(** ** Mailboxes *)

Lemma message_spec owed c s : whole (cd :: owed) 0 s → slice_ok c →
  post (check_declared_member (len c) None ;; charge_derived_chunk (len c))
    (λ _ s', whole (cd :: owed) (0 + len c) s' ∧ len c ≤ Limits.max_object_bytes Lm) (fails (whole (cd :: owed) 0)) s.
Proof.
  intros Hw [_ Hok]. pose proof (len_nonneg c). assert (0 ≤ len c ≤ u64_max) as Hr by (unfold isize_max, u64_max in *; lia).
  apply post_bind. eapply post_mono; [by eapply check_declared_spec, weak_limits, Hw| |intros f s'; apply fails_mono; by intros ->].
  intros [] s1 [-> Hsize]. eapply post_mono; [by apply charge_chunk_whole| |done]. intros [] s2 Hw2. by split.
Qed.
Lemma mbox_loop_spec i l s : (∀ c, Some c ∈ l → slice_ok c) → kept s → post (mbox_loop par d i l) (λ _, kept) never s.
Proof.
  intros Hl. revert i s. induction l as [|m l IH]; intros i s Hk; cbn [mbox_loop]; [by apply post_ret|].
  assert (∀ j s, kept s → post (mbox_loop par d j l) (λ _, kept) never s) as Hnext.
  { intros j s' Hk'. apply IH; [|done]. intros c Hc. apply Hl. by right. }
  assert (∀ c, m = Some c → slice_ok c) as Hm by (intros c ->; apply Hl; by left). clear IH Hl.
  assert (∀ k v t s', weakly s' → says (str k) (str t) → post (parent_issue par k v Blocked t true) (λ _, kept) never s') as Hissue.
  { intros k v t s' Hk' Hs. eapply post_mono; [by apply (issue_kept p par d n)|by intros ? ? []|done]. }
  assert (∀ e s', weakly s' → error_says e → post (record_budget_issue par e) (λ _, kept) never s') as Hrec.
  { intros e s' Hk' Hs. eapply post_mono; [by apply (recorded_failure p par d n)|by intros ? ? []|done]. }
  apply post_bind. eapply post_mono; [by apply entry_spec| |done]. intros [[]|error] s1 (_ & Hk1 & Hs1); [|apply Hrec; [by apply kept_weakly|done]].
  destruct m as [c|]; [|apply Hissue; [by apply kept_weakly|done]]. specialize (Hm c eq_refl). destruct Hk1 as (owed & Hw1).
  pose proof (len_nonneg c).
  apply post_bind. eapply post_mono; [by apply post_try, charge_edge_whole| |done]. intros [[]|error] s2; simpl.
  2: { intros [He Hw2]. apply Hrec; [by eapply whole_weakly|done]. }
  intros Hw2. apply post_bind. eapply post_mono; [by apply post_try, member_name_spec| |done]. intros [r|error] s3; simpl.
  2: { intros [He Hw3]. apply Hissue; [by eapply whole_weakly|done]. }
  intros (Hw3 & _). set (e := new_edge _ _ _ _ _ _ _). assert (open_edge e) as He by by apply new_edge_open.
  apply post_bind. eapply post_mono; [apply depth_allows_spec; by eapply weak_limits, Hw3| |done].
  intros b s4 [-> ->]. apply post_bind. apply (post_mono _ (λ _, kept) _ never); [|intros [] s5 Hk5; by apply Hnext|done].
  destruct (cd <=? Limits.max_depth Lm) eqn:Hd; bool_prop; simpl.
  - apply post_bind. eapply post_mono; [by apply post_try, message_spec| |done]. intros [[]|error] s5; simpl.
    + intros [Hw5 Hsize]. destruct (negb _).
      * apply (post_kept p par d n _ (λ _ _, True) owed). apply push_with_issue_spec; [eapply weak_held, Hw5; lia|done..].
      * apply (recorded_spec p par d n (λ _, True)). apply (post_fails p par d n _ owed owed). by apply finish_child_spec.
    + intros [Hs Hw5]. apply (post_kept p par d n _ (λ _ _, True) owed). by apply push_over_budget_spec; [apply Hw5|..].
  - apply (post_kept p par d n _ (λ _ _, True) owed). by apply push_with_issue_spec; [apply Hw3|..].
Qed.
Lemma mbox_spec bytes s : kept s → post (expand_mbox par d bytes) (λ _, kept) never s.
Proof.
  intros Hk. unfold expand_mbox. apply post_bind, post_get. destruct (_ || _).
  - eapply post_mono; [by apply (issue_kept p par d n); [apply kept_weakly|]|by intros ? ? []|done].
  - apply mbox_loop_spec; [|done]. intros c. apply messages_ok.
Qed.
End Documents.
