(* ===== verification/InspectionGraph.v ===== *)
(** * InspectionGraph: when the result of an inspection is valid

    A finished inspection assembles its graph and validates it. Check by check, the
    validation accepts what the invariant of InspectionInvariant.v establishes; three
    facts about the edges, which the handlers do not establish, remain. *)

From S2P Require Import Prelude Bytes Text Utf8 Sorting PdfPreflight MimePreflight Budget AttachmentTypes AttachmentGraph Detect Inspection InspectionContainers InspectionRun InspectionErrors InspectionInvariant.
Local Open Scope Z_scope.

(** ** Sums and filters *)

Lemma sum_bytes_Ok t l : (∀ x, x ∈ l → 0 ≤ x) → t + total l ≤ u64_max → sum_bytes t l = Ok (t + total l).
Proof.
  revert t. induction l as [|x l IH]; intros t Hl Hmax; simpl; [unfold total; simpl; by rewrite Z.add_0_r|].
  rewrite total_cons in *. assert (0 ≤ total l) by (apply total_nonneg; intros y Hy; apply Hl; by right).
  unfold checked_add. rewrite (proj2 (Z.leb_le _ _)) by lia. simpl. rewrite IH; [f_equal; lia|intros y Hy; apply Hl; by right|lia].
Qed.
Lemma others_of_root (r : ObjectRecord) rest : NoDup (o_id <$> r :: rest) →
  List.filter (λ o, negb (bool_decide (o_id o = o_id r))) (r :: rest) = rest.
Proof.
  intros [Hr Hn]%NoDup_cons. simpl. rewrite bool_decide_eq_true_2 by done. simpl. 
  assert (∀ l, (∀ o, o ∈ l → o_id o ≠ o_id r) → List.filter (λ o, negb (bool_decide (o_id o = o_id r))) l = l) as Hall.
  { induction l as [|o l IH]; intros Hl; [done|]. simpl. rewrite bool_decide_eq_false_2 by (apply Hl; by left). simpl. f_equal.
    apply IH. intros x Hx. apply Hl. by right. }
  apply Hall. intros o Ho Heq. apply Hr. rewrite <- Heq. by apply list_elem_of_fmap_2.
Qed.

(** The three facts: an edge below the depth limit is a [DepthExceeded], a source range ends
    within its parent, and no charged edge has been dropped. *)
Record edges_fit {C} (l : Limits.BudgetLimits) (s : InspectionState C) : Prop := {
  fit_depth e : e ∈ s_edges s → Limits.max_depth l < depth e → outcome e = DepthExceeded;
  fit_range e r : e ∈ s_edges s → source_range e = Some r →
    ∃ o, o ∈ s_objects s ∧ o_id o = parent e ∧ end_exclusive r ≤ o_byte_len o;
  fit_count : Limits.edges (Ledger.usage (budget s)) = len (s_edges s);
}.

Section Graph.
Context {C D : Type} `{!Parsers C D} `{!ParserLaws Parsers0} (p : Subject).
Notation State := (InspectionState C).
Notation Lm := (policy_limits p).
Context (s : State) (d : Z) (owed : list Z) (job : text) (nm : LogicalName).
Hypotheses (Hlimits : BudgetProofs.limits_ok Lm) (Hvalid : limits_validate Lm = Ok tt) (Hdepth : 0 ≤ Limits.max_depth Lm ≤ u16_max)
  (Hart : 0 ≤ Limits.max_text_bytes Lm ∧ 0 ≤ Limits.max_media_objects Lm ∧ 0 ≤ Limits.max_media_bytes Lm ∧ 0 ≤ Limits.max_transform_requests Lm)
  (Hs : shape p d (length (cores s)) s) (Hb : books p owed 0 s) (Hn : noted s) (Hc : covered s).
Context (r : ObjectRecord) (rest : list ObjectRecord).
Hypotheses (Hobjects : s_objects s = r :: rest).
Notation g := (graph_of job (o_id r) nm s).
Notation u := (usage_of s).

Lemma ids_of_cores : o_id <$> cores s = o_id <$> s_objects s.
Proof. unfold cores. by rewrite <- list_fmap_compose. Qed.
Lemma lens_of_cores : o_byte_len <$> cores s = o_byte_len <$> s_objects s.
Proof. unfold cores. by rewrite <- list_fmap_compose. Qed.
Lemma depths_of_cores : first_depth <$> cores s = first_depth <$> s_objects s.
Proof. unfold cores. by rewrite <- list_fmap_compose. Qed.
Lemma ids_NoDup : NoDup (o_id <$> s_objects s).
Proof. rewrite <- ids_of_cores. apply Hs. Qed.
Lemma core_in o : o ∈ s_objects s → core o ∈ cores s.
Proof. intros Ho. by apply list_elem_of_fmap_2. Qed.
Lemma root_core : core r = core r ∧ first_depth r = 0 ∧ s_root s = Some (o_id r).
Proof.
  destruct (sh_root _ _ _ _ Hs) as (Hr & _ & ro & l & Hcs & Hid & Hz). unfold cores in Hcs. rewrite Hobjects in Hcs. injection Hcs as <- _.
  rewrite Hr, <- Hid. done.
Qed.
Lemma derived_rest : derived g = rest.
Proof. unfold derived. simpl. rewrite Hobjects. apply others_of_root. rewrite <- Hobjects. apply ids_NoDup. Qed.
Lemma derived_known o : o ∈ rest → ∃ i, (0 < i)%nat ∧ cores s !! i = Some (core o).
Proof.
  intros (i & Hi)%list_elem_of_lookup. exists (S i). split; [lia|]. unfold cores. rewrite Hobjects, list_lookup_fmap. simpl. by rewrite Hi.
Qed.
Lemma limits_eq : AttachmentTypes.limits g = Lm.
Proof. simpl. unfold limits_of. by rewrite (sh_policy _ _ _ _ Hs). Qed.
Lemma root_found : find_object (s_objects s) (o_id r) = Some r.
Proof. apply find_object_Some; [apply ids_NoDup|]. split; [|done]. rewrite Hobjects. by left. Qed.
Lemma bytes_nonneg x : x ∈ (o_byte_len <$> s_objects s) → 0 ≤ x.
Proof.
  intros (o & -> & Ho)%list_elem_of_fmap. destruct (sh_objects _ _ _ _ Hs _ (core_in o Ho)) as (_ & _ & b & _ & _ & _ & Hl). simpl in Hl.
  rewrite Hl. apply len_nonneg.
Qed.

Lemma valid_objects : object_ids (s_objects s) ∅ = Ok (list_to_set (o_id <$> s_objects s)).
Proof.
  apply object_ids_Ok. split_and!; [|apply ids_NoDup|set_solver|by rewrite (right_id_L ∅ (∪))].
  intros o Ho. destruct (sh_objects _ _ _ _ Hs _ (core_in o Ho)) as (Hsha & _ & b & _ & _ & Hid & _). simpl in Hsha, Hid.
  unfold object_validate. eapply Ok_bind; [apply fail_if_false|apply fail_if_false].
  - by rewrite Hsha, Hid, sha256_text.
  - rewrite bool_decide_eq_true_2; [done|congruence].
Qed.
Lemma books_of_root : o_byte_len r = Limits.root_bytes u ∧ o_byte_len r ≤ Limits.max_root_bytes Lm ∧
  total (o_byte_len <$> rest) ≤ Limits.total_derived_bytes u.
Proof.
  destruct (bk_root _ _ _ _ Hb (core r) (core <$> rest)) as (H1 & H2 & H3).
  { unfold cores. by rewrite Hobjects. }
  rewrite <- list_fmap_compose in H3. rewrite Z.add_0_r in H3. done.
Qed.
Lemma valid_root : root_validate g r = Ok tt.
Proof.
  unfold root_validate. destruct root_core as (_ & -> & _). rewrite limits_eq. destruct books_of_root as (_ & ? & _).
  eapply Ok_bind; [by apply fail_if_false|]. apply fail_if_false, Z.ltb_ge. done.
Qed.
Lemma valid_derived : each (derived_validate g) (derived g) = Ok tt.
Proof.
  apply each_Ok. rewrite derived_rest. intros o Ho. destruct (derived_known o Ho) as (i & Hi & Hl).
  destruct (sh_derived _ _ _ _ Hs i _ Hi Hl) as ([H1 H2] & H3 & _). simpl in *. unfold derived_validate. rewrite limits_eq.
  eapply Ok_bind; [apply fail_if_false, Z.eqb_neq; lia|]. eapply Ok_bind; [apply fail_if_false, Z.ltb_ge; lia|].
  apply fail_if_false, Z.ltb_ge. done.
Qed.
Lemma valid_provenance : each (provenance_validate g) (derived g) = Ok tt.
Proof.
  apply each_Ok. rewrite derived_rest. intros o Ho. destruct (derived_known o Ho) as (i & Hi & Hl).
  destruct (sh_derived _ _ _ _ Hs i _ Hi Hl) as (_ & _ & e & He & Hd' & Hch & _). apply fail_if_false, negb_false_iff, existsb_exists.
  exists e. split; [by apply list_elem_of_In|]. by rewrite !bool_decide_eq_true_2.
Qed.
Lemma valid_issues : each (issue_validate g (list_to_set (o_id <$> s_objects s))) (issues g) = Ok tt.
Proof.
  apply each_Ok. intros i Hi. destruct (Hn i Hi) as ([H1 H2] & H3 & H4). unfold issue_validate. rewrite H3.
  eapply Ok_bind; [apply fail_if_false; by rewrite !seen_not_blank|].
  destruct (issue_object_id i) as [o|]; [|done]. eapply Ok_bind; [|done]. apply fail_if_false, negb_false_iff, bool_decide_eq_true.
  rewrite elem_of_list_to_set, <- ids_of_cores. by apply H4.
Qed.
Lemma valid_coverage : coverage_validate g = Ok tt.
Proof.
  unfold coverage_validate. simpl. unfold coverage_of. case_bool_decide as Hp.
  - destruct (Hc Hp) as (H1 & H2 & H3). eapply Ok_bind; [|eapply Ok_bind]; apply fail_if_false, not_true_iff_false.
    + intros (o & Ho & Hst)%existsb_exists. apply list_elem_of_In in Ho. by rewrite (H1 o Ho), bool_decide_eq_true_2 in Hst.
    + intros (i & Hi & Hsev)%existsb_exists. apply list_elem_of_In in Hi. bool_prop. by apply (H2 i Hi).
    + intros (e & He & Ho)%existsb_exists. apply list_elem_of_In in He. by rewrite (H3 e He) in Ho.
  - apply fail_if_false, bool_decide_eq_false. intros Hnil. apply Hp. apply leibniz_equiv, elements_empty_inv.
    apply Permutation_nil_r. by rewrite <- (merge_sort_Permutation str_le), Hnil.
Qed.

(** *** The edges *)

Lemma placed x k : (x, k) ∈ (place <$> cores s) → ∃ o, o ∈ s_objects s ∧ o_id o = x ∧ first_depth o = k.
Proof.
  intros (o & Heq & Ho)%list_elem_of_fmap. apply list_elem_of_fmap in Ho as (o' & -> & Ho). exists o'. by injection Heq as -> ->.
Qed.
Lemma object_within o : o ∈ s_objects s → first_depth o ≤ Limits.max_depth Lm.
Proof.
  rewrite Hobjects. intros [->|Ho]%elem_of_cons.
  - destruct root_core as (_ & -> & _). lia.
  - destruct (derived_known o Ho) as (i & Hi & Hl). destruct (sh_derived _ _ _ _ Hs i _ Hi Hl) as ([_ H2] & _). done.
Qed.
Lemma edge_level e : e ∈ s_edges s → ∃ o, o ∈ s_objects s ∧ o_id o = parent e ∧ depth e = saturating_add u16_max (first_depth o) 1 ∧
  depth e ≤ saturating_add u16_max (Limits.max_depth Lm) 1.
Proof.
  intros He. destruct (es_parent _ _ (sh_edges _ _ _ _ Hs e He)) as (k & Hk & Hde). destruct (placed _ _ Hk) as (o & Ho & Hid & <-).
  exists o. split_and!; [done..|]. rewrite Hde. pose proof (object_within o Ho). unfold child_depth, saturating_add. lia.
Qed.
Definition edge_fits (e : DerivationEdge) : Prop :=
  (Limits.max_depth Lm < depth e → outcome e = DepthExceeded) ∧
  ∀ x, source_range e = Some x → ∃ o, o ∈ s_objects s ∧ o_id o = parent e ∧ end_exclusive x ≤ o_byte_len o.
Lemma valid_edge e : e ∈ s_edges s →
  edge_validate g (list_to_set (o_id <$> s_objects s)) (by_key o_id (s_objects s)) e = Ok tt ↔ edge_fits e.
Proof.
  intros He. destruct (edge_level e He) as (o & Ho & Hid & Hlevel & Hdeep). pose proof (sh_edges _ _ _ _ Hs e He) as [[k Hk] _ Hch Hrange].
  assert (∀ c, c ∈ s_objects s → o_id c ∈ (list_to_set (o_id <$> s_objects s) : gset text)) as Hin.
  { intros c Hc'. apply elem_of_list_to_set. by apply list_elem_of_fmap_2. }
  assert (by_key o_id (s_objects s) !! parent e = Some o) as Hpar by (apply by_key_lookup; [apply ids_NoDup|done]).
  unfold edge_validate. rewrite limits_eq, Hk, Hpar. split.
  - repeat setoid_rewrite bind_Ok. repeat setoid_rewrite fail_if_Ok. setoid_rewrite need_Ok.
    intros (_ & _ & _ & _ & _ & _ & _ & Hd' & o' & [= <-] & _ & _ & _ & _ & _ & _ & Hr). bool_prop. split.
    + intros Hlt. match goal with Hd : _ ∨ _ |- _ => destruct Hd; bool_prop; [lia|done] end.
    + intros x Hx. rewrite Hx in Hr. apply bind_Ok in Hr as (_ & _ & Hr). apply fail_if_Ok in Hr. bool_prop. exists o. split_and!; [done..|lia].
  - intros [Hd' Hr]. eapply Ok_bind; [done|]. eapply Ok_bind; [apply fail_if_false; rewrite <- Hid, bool_decide_eq_true_2 by auto; done|].
    assert (∀ c, child e = Some c → ∃ x, x ∈ s_objects s ∧ o_id x = c ∧
      (outcome e = Derived ∧ first_depth x = depth e ∨ outcome e = Duplicate ∧ first_depth x ≤ depth e)) as Hchild.
    { intros c Hce. rewrite Hce in Hch. destruct Hch as (y & Hy & Hch). destruct (placed _ _ Hy) as (x & Hx & Hxid & <-). by exists x. }
    eapply Ok_bind.
    { instantiate (1 := tt). destruct (child e) as [c|]; [|done]. destruct (Hchild c eq_refl) as (x & Hx & <- & _).
      apply fail_if_false. by rewrite bool_decide_eq_true_2 by auto. }
    eapply Ok_bind.
    { apply fail_if_false, orb_false_iff. split; [apply Z.ltb_ge; lia|]. apply andb_false_iff.
      destruct (Limits.max_depth Lm <? depth e) eqn:Hlt; bool_prop; [|by left]. right. by rewrite bool_decide_eq_true_2 by auto. }
    eapply Ok_bind; [done|]. eapply Ok_bind; [apply fail_if_false; by rewrite Hlevel, Z.eqb_refl|].
    eapply Ok_bind.
    { apply fail_if_false, negb_false_iff. destruct (child e) as [c|] eqn:Hce; [|by rewrite Hch].
      destruct (Hchild c eq_refl) as (x & _ & _ & [[-> _]|[-> _]]); done. }
    eapply Ok_bind.
    { instantiate (1 := tt). destruct (child e) as [c|]; [|done]. destruct (Hchild c eq_refl) as (x & Hx & Hxid & Hcase).
      eapply Ok_bind; [apply need_is, by_key_lookup; [apply ids_NoDup|done]|].
      destruct Hcase as [[-> ->]|[-> Hle]]; apply fail_if_false; [by rewrite Z.eqb_refl|by apply Z.ltb_ge]. }
    destruct (source_range e) as [x|] eqn:Hx; [|done]. eapply Ok_bind; [apply fail_if_false, Z.ltb_ge; by apply Hrange|].
    destruct (Hr x eq_refl) as (o' & Ho' & Hid' & Hle). apply fail_if_false, Z.ltb_ge.
    by rewrite (unique_key o_id (s_objects s) o o' ids_NoDup Ho Ho') by congruence.
Qed.

(** *** The usage *)

Lemma all_counted : Limits.edges u = len (s_edges s) → owed = [].
Proof. rewrite (bk_edges _ _ _ _ Hb). intros He. destruct owed as [|x l]; [done|]. rewrite len_cons in He. pose proof (len_nonneg l). lia. Qed.
Lemma foldr_max_le m l : 0 ≤ m → (∀ x, x ∈ l → x ≤ m) → foldr Z.max 0 l ≤ m.
Proof.
  intros Hm. induction l as [|x l IH]; intros Hl; simpl; [done|]. assert (x ≤ m) by (apply Hl; by left).
  assert (foldr Z.max 0 l ≤ m); [|lia]. apply IH. intros y Hy. apply Hl. by right.
Qed.
Lemma deepest_within : owed = [] → Limits.deepest_object u ≤ saturating_add u16_max (Limits.max_depth Lm) 1.
Proof.
  intros Ho. rewrite (bk_deepest _ _ _ _ Hb), Ho. unfold depths_of. rewrite app_nil_r, depths_of_cores.
  apply foldr_max_le; [unfold saturating_add, u16_max; lia|]. intros x [(o & -> & Hx)%list_elem_of_fmap|(e & -> & Hx)%list_elem_of_fmap]%elem_of_app.
  - pose proof (object_within o Hx). unfold saturating_add, u16_max in *. lia.
  - destruct (edge_level e Hx) as (_ & _ & _ & _ & Hle). done.
Qed.

Lemma valid_usage : usage_validate g r = Ok tt ↔ Limits.edges u = len (s_edges s).
Proof.
  destruct books_of_root as (H1 & H2 & H3). pose proof (bk_within _ _ _ _ Hb) as W. unfold BudgetProofs.within in W.
  unfold BudgetProofs.limits_ok in Hlimits.
  assert (len (s_objects s) = Limits.objects u) as Hcount.
  { rewrite (bk_objects _ _ _ _ Hb). unfold cores, len. by rewrite length_fmap. }
  assert (0 ≤ len (s_edges s) ≤ Limits.edges u) as Hedges.
  { rewrite (bk_edges _ _ _ _ Hb). pose proof (len_nonneg (s_edges s)). pose proof (len_nonneg owed). lia. }
  assert (sum_bytes 0 (o_byte_len <$> rest) = Ok (0 + total (o_byte_len <$> rest))) as Hsum.
  { apply sum_bytes_Ok; [|lia]. intros x Hx. apply bytes_nonneg. rewrite Hobjects. by right. }
  unfold usage_validate. change (AttachmentTypes.usage g) with u. rewrite limits_eq, derived_rest, Hsum.
  change (objects g) with (s_objects s). change (edges g) with (s_edges s). split.
  - intros H. contract_steps H. option_facts. bool_prop. lia.
  - intros He. destruct (bk_artifacts _ _ _ _ Hb) as (A1 & A2 & A3 & A4).
    assert (Limits.deepest_object u ≤ saturating_add u16_max (Limits.max_depth Lm) 1) as Hdeep by by apply deepest_within, all_counted.
    eapply Ok_bind; [apply fail_if_false; by rewrite H1, Z.eqb_refl|].
    eapply Ok_bind; [apply need_is, try_from_Some; split; [reflexivity|lia]|].
    eapply Ok_bind; [apply need_is, try_from_Some; split; [reflexivity|lia]|].
    eapply Ok_bind; [apply fail_if_false; by rewrite He, Hcount, !Z.eqb_refl|]. eapply Ok_bind; [reflexivity|].
    eapply Ok_bind; [apply fail_if_false, Z.ltb_ge; lia|]. apply fail_if_false, negb_false_iff.
    rewrite !andb_true_iff, !Z.leb_le. destruct Hart as (? & ? & ? & ?). lia.
Qed.
Lemma valid_deepest : owed = [] → Limits.deepest_object u = deepest g.
Proof. intros Ho. rewrite (bk_deepest _ _ _ _ Hb), Ho. unfold depths_of, deepest. by rewrite app_nil_r, depths_of_cores. Qed.

(** *** What is reachable *)

Lemma child_known e c : e ∈ s_edges s → child e = Some c → c ∈ (o_id <$> s_objects s).
Proof.
  intros He Hce. pose proof (es_child _ _ (sh_edges _ _ _ _ Hs e He)) as Hch. rewrite Hce in Hch. destruct Hch as (k & Hk & _).
  destruct (placed _ _ Hk) as (o & Ho & <- & _). by apply list_elem_of_fmap_2.
Qed.
Lemma objects_reached i o : cores s !! i = Some o → ∃ n, path g n (o_id o).
Proof.
  revert o. induction i as [i IH] using lt_wf_ind. intros o Ho. destruct i as [|i].
  - exists 0%nat. assert (o = core r) as ->; [|apply path_root]. unfold cores in Ho. rewrite Hobjects in Ho. by injection Ho.
  - destruct (sh_derived _ _ _ _ Hs (S i) o ltac:(lia) Ho) as (_ & _ & e & He & _ & Hch & Hp).
    apply list_elem_of_lookup in Hp as (j & Hj). apply lookup_take_Some in Hj as [Hj Hlt]. rewrite list_lookup_fmap in Hj.
    destruct (cores s !! j) as [x|] eqn:Hx; [|done]. simpl in Hj. injection Hj as Hj. destruct (IH j Hlt x Hx) as (n & Hpath).
    exists (S n). apply path_edge with e; [by rewrite <- Hj|done..].
Qed.
Lemma valid_reach : ∃ seen, reach g = Ok seen ∧ Z.of_nat (size seen) = len (s_objects s).
Proof.
  destruct (reach_spec g) as (seen & Hseen & Hall). exists seen. split; [done|].
  assert (seen = list_to_set (o_id <$> s_objects s)) as ->; [|rewrite size_list_to_set by apply ids_NoDup; by rewrite length_fmap].
  apply set_eq. intros x. rewrite Hall, elem_of_list_to_set. split.
  - intros (n & Hp). destruct Hp as [|n e c _ He Hc']; [|by eapply child_known]. simpl. rewrite Hobjects. by left.
  - rewrite <- ids_of_cores. intros (o & -> & Ho)%list_elem_of_fmap. apply list_elem_of_lookup in Ho as (i & Hi). by eapply objects_reached.
Qed.

(** *** The graph *)

Lemma valid_graph : graph_validate g = Ok tt ↔ Limits.edges u = len (s_edges s) ∧ ∀ e, e ∈ s_edges s → edge_fits e.
Proof.
  unfold graph_validate. change (objects g) with (s_objects s). change (AttachmentTypes.root g) with (o_id r). change (edges g) with (s_edges s).
  change (AttachmentTypes.usage g) with u.
  rewrite limits_eq, valid_objects, root_found. split.
  - intros H. contract_steps H. repeat match goal with Hx : Ok _ = Ok _ |- _ => injection Hx as <- | Hx : Some _ = Some _ |- _ => injection Hx as <- end.
    split; [by apply valid_usage|]. intros e He. apply valid_edge; [done|].
    match goal with Hx : each (edge_validate _ _ _) _ = _ |- _ => rewrite each_Ok in Hx; by apply Hx end.
  - intros [Hu He]. pose proof (all_counted Hu) as Ho. destruct valid_reach as (seen & Hseen & Hsize).
    eapply Ok_bind; [reflexivity|]. eapply Ok_bind; [exact Hvalid|]. eapply Ok_bind; [reflexivity|].
    eapply Ok_bind; [apply fail_if_false, negb_false_iff, bool_decide_eq_true, elem_of_list_to_set; rewrite Hobjects; by left|].
    eapply Ok_bind; [reflexivity|]. eapply Ok_bind; [apply valid_root|]. eapply Ok_bind; [apply valid_derived|].
    eapply Ok_bind; [by apply valid_usage|]. eapply Ok_bind; [apply each_Ok; intros e Hin; apply valid_edge; auto|].
    eapply Ok_bind; [apply valid_provenance|]. eapply Ok_bind; [apply fail_if_false; by rewrite valid_deepest, Z.eqb_refl|].
    eapply Ok_bind; [exact Hseen|]. eapply Ok_bind; [apply fail_if_false; by rewrite Hsize, Z.eqb_refl|].
    eapply Ok_bind; [apply valid_issues|apply valid_coverage].
Qed.

(** *** The bundle *)

Lemma valid_artifacts os m : (∀ o, o ∈ os → artifact_ids o = [] ∧ is_Some (s_blobs s !! o_id o)) →
  (∀ k, default ∅ (m !! k) = (∅ : gset text)) → objects_validate (s_blobs s) m os = Ok tt.
Proof.
  revert m. induction os as [|o os IH]; intros m Hos Hm; [done|]. destruct (Hos o ltac:(by left)) as [Hno Hblob]. cbn [objects_validate].
  rewrite Hno. eapply Ok_bind; [done|]. eapply Ok_bind; [apply fail_if_false; by rewrite Hm, bool_decide_eq_true_2|].
  eapply Ok_bind; [apply fail_if_false; by rewrite bool_decide_eq_true_2|]. apply IH; [intros x Hx; apply Hos; by right|].
  intros k. destruct (decide (o_id o = k)) as [<-|Hk]; [by rewrite lookup_delete_eq|]. by rewrite lookup_delete_ne.
Qed.
(** The bytes that are held are those of the objects. *)
Lemma held_bytes id bytes : s_blobs s !! id = Some bytes → ∃ o, o ∈ s_objects s ∧ o_id o = id ∧ o_byte_len o = len bytes ∧ id = sha256_hex bytes.
Proof.
  intros Hbytes. pose proof (sh_blobs _ _ _ _ Hs id ltac:(by eexists)) as Hin. rewrite ids_of_cores in Hin.
  apply list_elem_of_fmap in Hin as (o & -> & Ho). destruct (sh_objects _ _ _ _ Hs _ (core_in o Ho)) as (_ & _ & b & Hb' & _ & Hid & Hl). simpl in *.
  exists o. assert (b = bytes) as -> by congruence. done.
Qed.
Lemma held_sizes : ((λ e : text * list Z, len e.2) <$> in_key_order (s_blobs s)) ≡ₚ (o_byte_len <$> s_objects s).
Proof.
  set (entry := λ o, (o_id o, default [] (s_blobs s !! o_id o))).
  assert (in_key_order (s_blobs s) ≡ₚ entry <$> s_objects s) as Hperm.
  { unfold in_key_order. rewrite merge_sort_Permutation. apply NoDup_Permutation; [apply NoDup_map_to_list| |].
    - apply (NoDup_fmap_1 fst). rewrite <- list_fmap_compose. apply ids_NoDup.
    - intros [id bytes]. rewrite elem_of_map_to_list, list_elem_of_fmap. split.
      + intros Hh. destruct (held_bytes _ _ Hh) as (o & Ho & <- & _). exists o. unfold entry. by rewrite Hh.
      + intros (o & Heq & Ho). unfold entry in Heq. injection Heq as -> ->.
        destruct (sh_objects _ _ _ _ Hs _ (core_in o Ho)) as (_ & _ & b & Hb' & _). simpl in Hb'. by rewrite Hb'. }
  rewrite Hperm, <- list_fmap_compose. apply Permutation_refl'. apply list_fmap_ext. intros i o Ho. apply list_elem_of_lookup_2 in Ho.
  destruct (sh_objects _ _ _ _ Hs _ (core_in o Ho)) as (_ & _ & b & Hb' & _ & _ & Hl). simpl in *. unfold entry. simpl. by rewrite Hb'.
Qed.

Lemma valid_bundle : bundle_validate sha256_hex (bundle_of job (o_id r) nm s) = Ok tt ↔ edges_fit Lm s.
Proof.
  assert (graph_validate g = Ok tt ↔ edges_fit Lm s) as Hg.
  { rewrite valid_graph. split.
    - intros [Hu He]. split; [intros e Hin; by apply He|intros e x Hin; by apply He|done].
    - intros [F1 F2 F3]. split; [done|]. intros e Hin. split; [auto|]. intros x Hx. by apply (F2 e x). }
  rewrite <- Hg. unfold bundle_validate. change (graph (bundle_of job (o_id r) nm s)) with g. split.
  - intros H. by apply bind_Ok in H as ([] & Hv & _).
  - intros Hv. destruct (bk_artifacts _ _ _ _ Hb) as (A1 & A2 & A3 & _). eapply Ok_bind; [exact Hv|]. eapply Ok_bind; [reflexivity|].
    change (AttachmentTypes.usage g) with u. cbn [tally_text tally_objects tally_media artifacts_by_source].
    eapply Ok_bind; [apply fail_if_false; by rewrite A1, A2, A3|]. eapply Ok_bind.
    { apply valid_artifacts; [|intros k; by rewrite lookup_empty]. intros o Ho.
      destruct (sh_objects _ _ _ _ Hs _ (core_in o Ho)) as (_ & Hno & b & Hb' & _). split; [done|by eexists]. }
    pose proof (total_Permutation _ _ held_sizes) as Htotal. rewrite <- lens_of_cores, <- (bk_retained _ _ _ _ Hb) in Htotal.
    pose proof (bk_within _ _ _ _ Hb) as W. unfold BudgetProofs.within in W. unfold BudgetProofs.limits_ok in Hlimits.
    eapply Ok_bind; [apply sum_bytes_Ok; [intros x (e & -> & _)%list_elem_of_fmap; apply len_nonneg|change (blobs (bundle_of job (o_id r) nm s)) with (s_blobs s); rewrite Htotal; lia]|].
    change (blobs (bundle_of job (o_id r) nm s)) with (s_blobs s). rewrite Htotal.
    eapply Ok_bind; [apply fail_if_false, negb_false_iff, Z.eqb_eq; lia|]. eapply Ok_bind; [|done]. apply each_Ok.
    intros [id bytes] Hin. apply in_key_order_elem in Hin. destruct (held_bytes _ _ Hin) as (o & Ho & <- & Hl & Hid).
    unfold blob_validate. eapply Ok_bind; [apply fail_if_false, negb_false_iff, bool_decide_eq_true, elem_of_list_to_set; by apply list_elem_of_fmap_2|].
    assert (find_object (s_objects s) (o_id o) = Some o) as Hf by (apply find_object_Some; [apply ids_NoDup|done]).
    eapply Ok_bind; [apply need_is; change (objects g) with (s_objects s); by rewrite Hf|].
    eapply Ok_bind; [apply fail_if_false; by rewrite Hl, Z.eqb_refl|]. apply fail_if_false. by rewrite bool_decide_eq_true_2.
Qed.
End Graph.
