(* ===== verification/InspectionResult.v ===== *)
(** * InspectionResult: an inspection ends, and what it ends with

    The loop of InspectionRun.v keeps the invariant of InspectionInvariant.v: every object
    is expanded once, in the order in which it was found, and their number bounds the
    loop. At the end the invariant says whether the graph that was built is valid: all
    that a validation checks holds by construction, but for three facts about edges. *)

From S2P Require Import Prelude Bytes Text Utf8 Strings Sorting PdfPreflight MimePreflight PdfScan XzPreflight ZipPreflight Budget AttachmentTypes AttachmentGraph MemberNames Detect Inspection InspectionContainers InspectionRun InspectionErrors InspectionInvariant InspectionHandlers InspectionMembers InspectionDocuments InspectionGraph AttachmentToy.
Local Open Scope Z_scope.

(** The limits as their Rust types bound them *)
Definition typed_limits (l : Limits.BudgetLimits) : Prop :=
  BudgetProofs.limits_ok l ∧ 0 ≤ Limits.max_depth l ≤ u16_max ∧ 0 ≤ Limits.max_container_metadata_bytes l ≤ u64_max ∧
  0 ≤ Limits.max_text_bytes l ∧ 0 ≤ Limits.max_media_objects l ∧ 0 ≤ Limits.max_media_bytes l ∧ 0 ≤ Limits.max_transform_requests l.

(** ** A granted stream *)

Section Granted.
Context {C D : Type} `{!Parsers C D} `{!ParserLaws Parsers0}.

Lemma take_to_end_spec fuel left (d : D) : 0 ≤ left ≤ Z.of_nat fuel →
  take_to_end fuel left d = Ok (take (Z.to_nat left) (decoder_contents d)) ∨ take_to_end fuel left d = Err (Fail attachment_read_failed).
Proof.
  revert left d. induction fuel as [|fuel IH]; intros left d Hl; simpl; destruct (left =? 0) eqn:Hz; bool_prop.
  1, 3: by subst left; left. 1: lia.
  destruct (decoder_read d left) as [[[|b chunk]|] d'] eqn:Hr; [| |by right].
  - apply read_contents in Hr as (_ & _ & Hend); [|lia]. destruct (Hend eq_refl) as [?|Hnil]; [lia|]. left. by rewrite Hnil, take_nil.
  - apply read_contents in Hr as (Hc & Hn & _); [|lia]. rewrite len_cons in Hn. pose proof (len_nonneg chunk). rewrite len_cons.
    destruct (IH (left - (1 + len chunk)) d' ltac:(lia)) as [-> | ->]; [left|by right]. simpl. rewrite Hc.
    change (Ok (b :: chunk ++ ?x)) with (Ok ((b :: chunk) ++ x)). f_equal. rewrite take_app_ge by (simpl; unfold len in *; lia).
    simpl. do 3 f_equal. unfold len in *. lia.
Qed.

(** A granted stream is read whole if it fits the limit and refused otherwise, without more
    than one byte above the limit being held; a failing read is refused too. *)
Lemma read_bounded_exact name declared (d : D) max : 0 ≤ max ≤ u64_max →
  match read_bounded name declared d max with
  | Ok a => a = from_bytes name declared (decoder_contents d) ∧ len (decoder_contents d) ≤ max
  | Err (Fail e) =>
    e = root_bytes_overflow "The root attachment limit cannot be represented safely." ∧ max = u64_max
    ∨ e = attachment_read_failed ∨ e = root_bytes_exceeded max ∧ max < len (decoder_contents d)
  | Err _ => False
  end.
Proof.
  intros Hm. unfold read_bounded, checked_add. destruct (max + 1 <=? u64_max) eqn:Hp; bool_prop; simpl; [|left; split; [done|lia]].
  assert (∀ n, n ≤ u64_max → try_from u64_max n = Some n) as Hfits by (intros n Hn; by apply try_from_Some).
  unfold usize_max. rewrite Hfits by lia. simpl.
  destruct (take_to_end_spec (Z.to_nat (max + 1)) (max + 1) d ltac:(lia)) as [-> | ->]; simpl; [|by right; left].
  set (l := decoder_contents d). assert (len (take (Z.to_nat (max + 1)) l) = Z.min (max + 1) (len l)) as Hl.
  { unfold len. rewrite length_take. lia. }
  rewrite Hl, Hfits by lia. simpl. destruct (max <? _) eqn:Hx; bool_prop; simpl; [right; right; split; [done|lia]|].
  split; [|lia]. rewrite take_ge; [done|]. unfold len in *. lia.
Qed.
End Granted.

Section Result.
Context {C D : Type} `{!Parsers C D} `{!ParserLaws Parsers0} `{MailStreamLaws} (p : Subject).
Hypothesis (Htyped : typed_limits (policy_limits p)).
Notation State := (InspectionState C).
Notation insp := (SM State (fault Limits.AttachmentError)).
Notation Lm := (policy_limits p).

Lemma setting_at k : 0 ≤ k ≤ Limits.max_depth Lm → Setting p k.
Proof. intros Hk. destruct Htyped as (? & ? & ? & _). by split. Qed.

(** ** One object *)

Lemma report_spec id d n st code class sev message s `{!Setting p d} : kept p id d n s → says (str code) message →
  post (set_and_report id st code class sev message) (λ _, kept p id d n) never s.
Proof.
  intros (owed & [Hw _]) Hs. unfold set_and_report. apply post_bind.
  eapply post_mono; [apply (set_status_spec p id d n owed 0); [done|by eapply parent_in]| |done]. intros [] s1 [Hw1 _].
  apply (post_kept p id d n _ (λ _ _, True) owed). apply issue_spec; [done..|by eapply parent_known].
Qed.
Lemma expand_spec id d n bytes format s `{!Setting p d} : slice_ok bytes → kept p id d n s →
  post (expand id d bytes format) (λ _, kept p id d n) never s.
Proof.
  intros Hok Hk. assert (policy s = p) as Hp by by eapply kept_policy.
  assert (∀ f, post (mark_unsupported_container id (Some f)) (λ _, kept p id d n) never s) as Hmark.
  { intros f. destruct Hk as (owed & [Hw _]). unfold mark_unsupported_container. apply post_bind.
    eapply post_mono; [by apply (ignored_status_spec p id d n owed 0)| |done]. intros [] s1 [Hw1 _].
    apply (post_kept p id d n _ (λ _ _, True) owed). apply issue_spec; [done|by apply says_app|by eapply parent_known]. }
  assert (post (s ← sm_get ; match unknown_binary (policy s) with
    | UnknownReject =>
      set_and_report id (StatusUnsupported (str "unknown_binary_rejected")) "unknown_binary_rejected" Limits.Unsupported Blocked
        (str "The attachment format could not be established from its bytes.")
    | RecordOpaque =>
      set_and_report id StatusOpaque "unknown_binary_recorded" Limits.Unsupported Warning
        (str "The attachment format is unknown; its bytes remain opaque and will not be sent to a model by default.")
    end) (λ _, kept p id d n) never s) as Hunknown.
  { apply post_bind, post_get. destruct (unknown_binary _); by apply report_spec. }
  destruct format as [[]|]; try exact Hunknown; try (by apply Hmark); try (by apply post_ret); simpl.
  all: first [ by apply zip_spec | by apply tar_spec | by apply gzip_spec | by apply bzip2_spec | by apply xz_spec | by apply zstd_spec
    | by apply seven_zip_spec | by apply email_spec | by apply mbox_spec | by apply pdf_spec | by apply report_spec ].
Qed.

(** ** Between two objects *)

Definition settled (n : nat) (s : State) : Prop :=
  ∃ d owed, 0 ≤ d ≤ Limits.max_depth Lm ∧ shape p d n s ∧ books p owed 0 s ∧ noted s ∧ covered s.
Lemma kept_settled id d n s : 0 ≤ d ≤ Limits.max_depth Lm → kept p id d n s → settled n s.
Proof. intros Hd (owed & [[Hs Hb Hn _] Hc]). by exists d, owed. Qed.

(** The next object of the queue *)
Lemma next_object n s id d rest : settled n s → queue s = (id, d) :: rest →
  ∃ o, cores s !! n = Some o ∧ o_id o = id ∧ first_depth o = d ∧ rest = drop (S n) (place <$> cores s).
Proof.
  intros (k & owed & _ & Hs & _) Hq. rewrite (sh_queue _ _ _ _ Hs) in Hq.
  assert ((place <$> cores s) !! n = Some (id, d)) as Hl.
  { rewrite <- (Nat.add_0_r n), <- lookup_drop, Hq. done. }
  rewrite list_lookup_fmap in Hl. apply fmap_Some in Hl as (o & Ho & Hp). injection Hp as -> ->.
  exists o. split_and!; [done..|]. rewrite <- (Nat.add_1_r n), <- drop_drop, Hq. done.
Qed.
Lemma object_depth n s o k : settled n s → cores s !! k = Some o → 0 ≤ first_depth o ≤ Limits.max_depth Lm.
Proof.
  intros (d & owed & _ & Hs & _) Ho. destruct k as [|k].
  - destruct (sh_root _ _ _ _ Hs) as (_ & _ & ro & rest & Hc & _ & Hz). rewrite Hc in Ho. injection Ho as <-.
    destruct Htyped as (_ & ? & _). lia.
  - destruct (sh_derived _ _ _ _ Hs (S k) o ltac:(lia) Ho) as ([? ?] & _). lia.
Qed.

Lemma enter n s id d rest c : settled n s → queue s = (id, d) :: rest →
  kept p id d (S n) (set_queue rest ({[id]} ∪ analyzed s) (set_budget (budget s) c s)).
Proof.
  intros Hset Hq. destruct (next_object n s id d rest Hset Hq) as (o & Ho & Hid & Hd & Hrest).
  pose proof (object_depth n s o n Hset Ho) as Hdepth. destruct Hset as (k & owed & Hk & Hs & Hb & Hn & Hc).
  set (s' := set_queue _ _ _). assert (cores s' = cores s) as Hcs by done.
  assert (o ∈ cores s) as Hin by by eapply list_elem_of_lookup_2.
  exists owed. split; [|exact Hc]. split; [|by apply (books_same p owed 0 s)|exact Hn|].
  - pose proof (sh_last _ _ _ _ Hs n o (le_n n) Ho) as Hlast. destruct Hs as [Sp Sr Sd So Sn Si Sb Sor Sbo Sq Sa Sv Sl Se].
    split; rewrite ?Hcs; try done.
    + intros x Hx. specialize (Sbo x Hx). unfold child_depth, saturating_add in *. lia.
    + change (analyzed s') with ({[id]} ∪ analyzed s). rewrite Sa. apply set_eq. intros x.
      assert ((o_id <$> cores s) !! n = Some id) as Hl by (by rewrite list_lookup_fmap, Ho, <- Hid).
      rewrite (take_S_r _ _ _ Hl), list_to_set_app_L. set_solver.
    + apply lookup_lt_Some in Ho. lia.
    + intros j x Hj Hx. rewrite <- Hd. apply (Sor n j); [lia|done..].
  - rewrite Hcs. apply list_elem_of_fmap. exists o. split; [|done]. unfold place. by rewrite Hid, Hd.
Qed.
Lemma not_analyzed n s id d rest : settled n s → queue s = (id, d) :: rest → id ∉ analyzed s.
Proof.
  intros Hset Hq. destruct (next_object n s id d rest Hset Hq) as (o & Ho & Hid & _). destruct Hset as (k & owed & _ & Hs & _).
  rewrite (sh_analyzed _ _ _ _ Hs), elem_of_list_to_set. intros (i & Hi)%list_elem_of_lookup. apply lookup_take_Some in Hi as [Hi Hlt].
  assert ((o_id <$> cores s) !! n = Some id) as Hl by (by rewrite list_lookup_fmap, Ho, <- Hid).
  pose proof (NoDup_lookup _ _ _ _ (sh_nodup _ _ _ _ Hs) Hi Hl). lia.
Qed.

Lemma inspect_spec n s id d rest : settled n s → queue s = (id, d) :: rest →
  post (inspect_object id d) (λ _, settled (S n)) (fails (λ _, True)) (set_queue rest (analyzed s) s).
Proof.
  intros Hset Hq. destruct (next_object n s id d rest Hset Hq) as (o & Ho & Hid & Hd & _).
  pose proof (object_depth n s o n Hset Ho) as Hdepth. rewrite Hd in Hdepth. pose proof (setting_at d Hdepth) as HS.
  pose proof (not_analyzed n s id d rest Hset Hq) as Hnew. unfold inspect_object.
  apply post_bind. eapply post_mono; [apply deadline_post| |intros f s'; by apply fails_mono]. intros [] s1 (c & ->).
  pose proof (enter n s id d rest c Hset Hq) as Hk. apply post_bind, post_get.
  rewrite bool_decide_eq_false_2 by exact Hnew. apply post_bind, post_modify.
  change (kept p id d (S n) (set_queue (queue (set_budget (budget (set_queue rest (analyzed s) s)) c (set_queue rest (analyzed s) s)))
    ({[id]} ∪ analyzed (set_budget (budget (set_queue rest (analyzed s) s)) c (set_queue rest (analyzed s) s)))
    (set_budget (budget (set_queue rest (analyzed s) s)) c (set_queue rest (analyzed s) s)))) in Hk.
  set (s2 := set_budget _ c _) in *. set (s3 := set_queue _ _ s2) in *.
  assert (∃ bytes, s_blobs s2 !! id = Some bytes ∧ slice_ok bytes) as (bytes & Hbytes & Hok).
  { destruct Hset as (k & owed & _ & Hs & _). destruct (sh_objects _ _ _ _ Hs o) as (_ & _ & bytes & Hb & Hok & _); [by eapply list_elem_of_lookup_2|].
    exists bytes. by rewrite <- Hid. }
  rewrite Hbytes. apply post_bind, post_lift; [|done]. intros x [= <-].
  assert (∃ x, object id s3 = (Ok x, s3)) as (x & Hobj).
  { destruct Hk as (owed & [Hw _]). destruct (object_known p d (S n) s3 id (wk_shape _ _ _ _ _ _ _ Hw) (parent_in _ _ _ _ _ _ _ Hw)) as (k & y & Hy & Hy' & _).
    exists y. unfold object, mbind, sm_bind, sm_get, sm_lift, need, ok_or. rewrite Hy. cbv beta iota. by rewrite Hy'. }
  apply post_bind. unfold post at 1. rewrite Hobj.
  assert (∀ m : insp unit, post m (λ _, kept p id d (S n)) never s3 → post m (λ _, settled (S n)) (fails (λ _, True)) s3) as Hdone.
  { intros m Hm. eapply post_mono; [exact Hm| |done]. intros [] s'. by apply kept_settled. }
  destruct (_ && _); [apply Hdone; by apply report_spec|]. unfold try_from.
  assert (len bytes ≤ u64_max) as Hlen by (destruct Hok; unfold isize_max, u64_max in *; lia).
  rewrite (proj2 (Z.leb_le _ _) Hlen). apply post_bind, post_lift; [|done]. intros y [= <-].
  destruct (_ && _); apply Hdone; [|by apply expand_spec].
  apply (report_spec id d (S n)); [exact HS|exact Hk|by apply says_app].
Qed.

(** ** The loop *)

Lemma settled_objects n s : settled n s → len (cores s) ≤ Limits.max_objects Lm ∧ (n ≤ length (cores s))%nat.
Proof.
  intros (d & owed & _ & Hs & Hb & _). split; [|apply Hs]. rewrite <- (bk_objects _ _ _ _ Hb).
  apply (bk_within _ _ _ _ Hb).
Qed.
Definition finished (s : State) : Prop := settled (length (cores s)) s ∧ queue s = [].
Lemma loop_spec fuel n s : settled n s → Limits.max_objects Lm ≤ Z.of_nat (n + fuel) →
  post (run_loop fuel) (λ _, finished) (fails (λ _, True)) s.
Proof.
  revert n s. induction fuel as [|fuel IH]; intros n s Hset Hf; cbn [run_loop]; apply post_bind, post_get;
    pose proof (settled_objects n s Hset) as [Hle Hn]; unfold len in Hle; destruct (queue s) as [|[id d] rest] eqn:Hq.
  1, 3: apply post_ret; split; [|done]; assert (length (cores s) = n) as ->; [|done];
    destruct Hset as (d & owed & _ & Hs & _); pose proof (sh_queue _ _ _ _ Hs) as Hd; rewrite Hq in Hd;
    pose proof (length_drop (place <$> cores s) n) as Hl; rewrite <- Hd, length_fmap in Hl; simpl in Hl; lia.
  - exfalso. destruct (next_object n s id d rest Hset Hq) as (o & Ho & _). apply lookup_lt_Some in Ho. lia.
  - apply post_bind, post_modify, post_bind. eapply post_mono; [by eapply inspect_spec| |done]. intros [] s1 Hs1. apply (IH (S n)); [done|lia].
Qed.

(** ** The root *)

Definition with_notes (notes : list AttachmentIssue) (s : State) : State := {|
  policy := policy s; budget := budget s; clock := clock s; s_root := s_root s; s_root_name := s_root_name s;
  s_objects := s_objects s; object_index := object_index s; s_edges := s_edges s; s_blobs := s_blobs s; queue := queue s;
  analyzed := analyzed s; s_issues := s_issues s ++ notes; partial_reasons := partial_reasons s |}.
Lemma foldl_notes notes (s : State) : foldl (λ s i, push_issue i false s) s notes = with_notes notes s.
Proof.
  revert s. induction notes as [|i notes IH]; intros s; simpl.
  - unfold with_notes. rewrite app_nil_r. by destruct s.
  - rewrite IH. unfold with_notes. simpl. by rewrite <- app_assoc.
Qed.
Lemma root_settled c b bytes d nm notes : let id := sha256_hex bytes in
  slice_ok bytes → Ledger.limits b = Lm → BudgetProofs.within Lm (Ledger.usage b) →
  Ledger.usage b = BudgetProofs.charged Lm Limits.no_usage (BudgetProofs.ChargeRoot (len bytes)) → len bytes ≤ Limits.max_root_bytes Lm →
  (∀ i, i ∈ notes → says (issue_code i) (issue_message i) ∧ edge_index i = None ∧ severity i = Warning ∧ ∀ x, issue_object_id i = Some x → x = id) →
  subject_root p = id → subject_name p = nm →
  settled 0 (set_root id nm (add_object (new_object id bytes d 0) bytes (with_notes notes (set_budget b c (new p c))))).
Proof.
  intros id Hok Hl Hw Hu Hroot Hn Hid Hnm. destruct Htyped as (_ & Hdep & _). pose proof (len_nonneg bytes).
  set (s := set_root _ _ _). assert (cores s = [core (new_object id bytes d 0)]) as Hc by done. set (o := core _) in Hc.
  exists 0, []. split; [lia|]. split; [|split; [|split]].
  - split; rewrite ?Hc; try done.
    + rewrite Hid, Hnm. split; [done|]. split; [done|]. by exists o, [].
    + intros i x Hi Hx. destruct i; [lia|done].
    + intros x ->%list_elem_of_singleton. split; [done|]. split; [done|]. exists bytes. split; [apply lookup_insert_eq|done].
    + apply NoDup_singleton.
    + intros x k. change (object_index s) with (<[id := 0%nat]> (∅ : gmap text nat)). destruct (decide (id = x)) as [<-|Hne].
      * rewrite lookup_insert_eq. split; [by intros [= <-]|]. destruct k; [done|]. by destruct k.
      * rewrite lookup_insert_ne, lookup_empty by done. split; [done|]. destruct k as [|k]; [|by destruct k]. by intros [= ?].
    + intros x. change (s_blobs s) with (<[id := bytes]> (∅ : gmap text (list Z))). destruct (decide (id = x)) as [<-|Hne]; [by left|].
      rewrite lookup_insert_ne, lookup_empty by done. by intros [].
    + intros i j x y _ Hx Hy. apply list_lookup_singleton_Some in Hx as [_ <-]. by apply list_lookup_singleton_Some in Hy as [_ <-].
    + intros x ->%list_elem_of_singleton. done.
    + simpl. lia.
    + intros k x _ Hx. by apply list_lookup_singleton_Some in Hx as [_ <-].
    + intros e He. by apply elem_of_nil in He.
  - assert (usage_of s = Ledger.usage b) as Hus by done. split; rewrite ?Hus, ?Hc, ?Hu; try done.
    + by rewrite <- Hu.
    + intros ro rest [= <- <-]. simpl. split_and!; [done|done|]. change (total []) with 0. lia.
    + simpl. unfold total. simpl. lia.
  - intros i Hi. destruct (Hn i Hi) as (? & ? & _ & Hio). split; [done|]. split; [done|]. intros x Hx. rewrite (Hio x Hx), Hc. by left.
  - intros _. split_and!; [by intros x ->%list_elem_of_singleton| |by intros e ?%elem_of_nil].
    intros i Hi. destruct (Hn i Hi) as (_ & _ & -> & _). done.
Qed.
Lemma root_spec input c : slice_ok (provided_bytes input) → subject_root p = sha256_hex (provided_bytes input) →
  subject_name p = provided (display_name input) → post (insert_root input) (λ _, settled 0) (fails (λ _, True)) (new p c).
Proof.
  intros Hok Hid Hnm. destruct Htyped as (Hl & Hdep & _). set (bytes := provided_bytes input) in *. pose proof (setting_at 0 ltac:(lia)) as HS.
  unfold insert_root, try_from. pose proof (len_nonneg bytes). assert (len bytes ≤ u64_max) as Hlen by (destruct Hok; unfold isize_max, u64_max in *; lia).
  fold bytes. rewrite (proj2 (Z.leb_le _ _) Hlen). apply post_bind, post_lift; [|done]. intros y [= <-].
  apply post_bind. eapply post_mono; [apply (timed_spec p 0 (BudgetProofs.ChargeRoot (len bytes))); [done| |done|intros t; apply charge_root_says]| |].
  { by apply BudgetProofs.new_within. }
  2: { intros f s'. apply fails_mono. done. }
  intros [] s1 (b & [c' ->] & Hbl & Hbw & Hacc & Hu). set (s1 := set_budget b c' (new p c)).
  set (d := detect infer_mime (display_name input) (provided_media_type input) bytes). set (id := sha256_hex bytes).
  destruct (mismatch_spec "declared_type_mismatch" (mismatch d) id "The attachment name or declared type" s1) as (notes & Hpost & His).
  specialize (His ltac:(by split)). apply post_bind. eapply post_mono; [exact Hpost| |done]. intros [] s2 ->.
  apply post_bind, post_modify, post_modify. rewrite foldl_notes. exact (root_settled c' b bytes d _ notes Hok Hbl Hbw Hu (proj1 Hacc) His Hid Hnm).
Qed.
End Result.

(** ** The inspection *)

Section Inspect.
Context {C D : Type} `{!Parsers C D} `{!ParserLaws Parsers0} `{MailStreamLaws}.
Context (p : InspectionPolicy) (job : text) (input : ProvidedAttachment) (c : C).
Hypotheses (Htyped : typed_limits (policy_limits p)) (Hvalid : limits_validate (policy_limits p) = Ok tt)
  (Hbytes : slice_ok (provided_bytes input)).

Definition subject : Subject := {|
  subject_policy := p; subject_root := sha256_hex (provided_bytes input); subject_name := provided (display_name input) |}.
(** The inspection up to the validation of what it has found *)
Definition explored : result (fault Limits.AttachmentError) unit * InspectionState C :=
  (insert_root input ;; run_loop (Z.to_nat (Limits.max_objects (policy_limits p)))) (new p c).

Lemma explored_spec : post (insert_root input ;; run_loop (Z.to_nat (Limits.max_objects (policy_limits p))))
  (λ _, finished subject) (fails (λ _, True)) (new p c).
Proof.
  apply post_bind. eapply post_mono; [by apply (root_spec subject)| |done]. intros [] s Hs.
  apply (loop_spec subject Htyped _ 0%nat); [done|]. simpl. lia.
Qed.
Lemma inspect_explored : match explored with
  | (Ok _, s) => finished subject s ∧ inspect p job input c =
      let b := bundle_of job (sha256_hex (provided_bytes input)) (provided (display_name input)) s in
      (map_fault contract_invalid (bundle_validate sha256_hex b) ;; Ok b)
  | (Err f, _) => (∃ e, f = Fail e ∧ error_says e) ∧ inspect p job input c = Err f
  end.
Proof.
  pose proof explored_spec as Hspec. unfold explored, inspect, run, mbind, sm_bind, post, sm_get in *.
  pose proof (root_spec subject Htyped input c Hbytes eq_refl eq_refl) as Hroot. unfold post in Hroot. change (subject_policy subject) with p in Hroot.
  destruct (insert_root input (new p c)) as [[[]|f] s0]; [|by destruct Hspec as (e & ? & ? & _); split; [exists e|]].
  assert (policy s0 = p) as Hp by (destruct Hroot as (d & owed & _ & Hs & _); exact (sh_policy _ _ _ _ Hs)).
  assert (limits_of s0 = policy_limits p) as -> by (unfold limits_of; by rewrite Hp).
  destruct (run_loop _ s0) as [[[]|f] s1]; [|destruct Hspec as (e & ? & ? & _); split; [by exists e|done]].
  split; [done|]. destruct Hspec as [(d & owed & _ & Hs & _) _]. destruct (sh_root _ _ _ _ Hs) as (Hr & Hn & _).
  rewrite Hr, Hn. simpl. unfold sm_lift. by destruct (map_fault _ _).
Qed.

(** C12: An inspection ends, whatever the bytes are and whatever the decoders make of them: it
    returns a bundle or an error. *)
Theorem inspection_ends : returns (inspect p job input c).
Proof.
  pose proof inspect_explored as Hi. destruct explored as [[[]|f] s].
  - destruct Hi as [_ ->]. cbv zeta. pose proof (bundle_validate_returns sha256_hex
      (bundle_of job (sha256_hex (provided_bytes input)) (provided (display_name input)) s)) as Hr.
    by destruct (bundle_validate _ _) as [[]|[]].
  - by destruct Hi as [(e & -> & _) ->].
Qed.

(** C11: An inspection either refuses with an error that has a code and a message, or expands
    every object of its graph once and returns the graph exactly if the edges fit: no edge
    deeper than the limit has another outcome than [DepthExceeded], every source range ends
    within its parent, and every charged edge is there. Otherwise the whole inspection fails
    with [inspection_contract_invalid]. *)
Theorem inspection_accepts_exactly : match explored with
  | (Ok _, s) =>
    let b := bundle_of job (sha256_hex (provided_bytes input)) (provided (display_name input)) s in
    queue s = [] ∧ analyzed s = list_to_set (o_id <$> s_objects s) ∧
    (edges_fit (policy_limits p) s → inspect p job input c = Ok b) ∧
    (¬ edges_fit (policy_limits p) s → ∃ e, inspect p job input c = Err (Fail (contract_invalid e)))
  | (Err f, _) => ∃ e, f = Fail e ∧ error_says e ∧ inspect p job input c = Err (Fail e)
  end.
Proof.
  pose proof inspect_explored as Hi. destruct explored as [[[]|f] s].
  - destruct Hi as [[Hset Hq] ->]. destruct Hset as (d & owed & _ & Hs & Hb & Hn & Hc).
    pose proof (sh_analyzed _ _ _ _ Hs) as Ha. rewrite take_ge, (ids_of_cores s) in Ha by (by rewrite length_fmap).
    destruct (sh_root _ _ _ _ Hs) as (_ & _ & ro & rest & Hcs & Hid & _). unfold cores in Hcs.
    destruct (s_objects s) as [|r l] eqn:Hobj; [done|]. injection Hcs as Hro _. 
    assert (o_id r = sha256_hex (provided_bytes input)) as Hr by (by rewrite <- Hro in Hid).
    destruct Htyped as (Hl & Hd & _ & Hart).
    pose proof (valid_bundle subject s d owed job (provided (display_name input)) Hl Hvalid Hd Hart Hs Hb Hn Hc r l Hobj) as Hiff.
    rewrite Hr in Hiff. cbv zeta. split_and!; [done..| |].
    + intros Hf. apply Hiff in Hf. rewrite Hf. done.
    + intros Hf. pose proof (bundle_validate_returns sha256_hex
        (bundle_of job (sha256_hex (provided_bytes input)) (provided (display_name input)) s)) as Hret.
      destruct (bundle_validate _ _) as [[]|[| |e]]; [by destruct Hf; apply Hiff|done..|by exists e].
  - destruct Hi as [(e & -> & He) ->]. by exists e.
Qed.
End Inspect.

(** ** A small inspection

    Decoders for the witnesses: every stream decodes to one byte, a TAR holds one
    directory, and no other container is understood. *)

Module InspectionToy.

#[export] Instance toy_parsers : Parsers unit bool := {
  clock_elapsed c := (0, c);
  decoder_read more n := if more && (0 <? n) then (Some [65], false) else (Some [], more);
  sha256_hex := AttachmentToy.digest;
  hex_of _ := [];
  infer_mime _ := None;
  gzip_decoder _ := (None, true);
  bzip2_decoder _ := true;
  xz_decoder _ := true;
  zstd_decoder _ _ := Ok true;
  tar_entries _ := Some [Some {| tar_path := str "docs"; tar_size := 0; tar_is_dir := true; tar_is_file := false; tar_reader := false |}];
  zip_archive _ _ _ := None;
  parse_message _ := None;
  mailbox_messages _ := [];
  load_pdf _ _ := Err OtherPdfError;
  decompress_pdf _ _ _ := Err OtherPdfError;
  seven_zip_reader _ _ := Err None;
}.
#[export] Instance toy_laws : ParserLaws toy_parsers.
Proof.
  refine {| decoder_contents (more : bool) := if more then [65] else [] |}; try done.
  - intros []; by apply (bool_decide_unpack _).
  - intros [] n chunk d' Hn Hr; simpl in Hr.
    + destruct (0 <? n) eqn:Hz; bool_prop; injection Hr as <- <-; split; try done; [|rewrite len_nil; split; [lia|left; lia]].
      split; [rewrite len_cons, len_nil; lia|done].
    + injection Hr as <- <-. split; [done|]. split; [by rewrite len_nil|by right].
  - apply AttachmentToy.digest_is_sha256.
  - intros b l. by intros ?%elem_of_nil.
Defined.

Definition small_limits (depth : Z) : Limits.BudgetLimits := {|
  Limits.max_root_bytes := 1024; Limits.max_object_bytes := 64; Limits.max_total_derived_bytes := 256;
  Limits.max_retained_bytes := 2048; Limits.max_objects := 8; Limits.max_edges := 8; Limits.max_entries := 8;
  Limits.max_depth := depth; Limits.max_name_bytes := 64; Limits.max_parser_input_bytes := 1024;
  Limits.max_container_metadata_bytes := 1024; Limits.max_decoder_window_bytes := 1024;
  Limits.max_declared_to_actual_ratio := 100; Limits.max_text_bytes := 1024; Limits.max_media_objects := 8;
  Limits.max_media_bytes := 1024; Limits.max_image_pixels := 1024; Limits.max_transform_requests := 8; Limits.deadline_ms := 1000 |}.
Definition small_policy (depth : Z) : InspectionPolicy := {|
  policy_limits := small_limits depth; unknown_binary := RecordOpaque; path_policy := SanitizeAndScan;
  analyze_duplicate_content_once := true; continue_after_child_error := true; inspect_pdf_embedded_files := true |}.
Definition packed : ProvidedAttachment := {|
  display_name := str "a.gz"; provided_media_type := None; provided_bytes := [31; 139; 8; 0] |}.
Definition folder : ProvidedAttachment := {|
  display_name := str "a.tar"; provided_media_type := None; provided_bytes := repeat 0 257 ++ str "ustar" |}.

Lemma small_typed depth : 0 ≤ depth ≤ u16_max → typed_limits (policy_limits (small_policy depth)).
Proof. intros. unfold typed_limits, BudgetProofs.limits_ok, u64_max, u32_max, u16_max in *. simpl. lia. Qed.

(** A packed byte is found as an object of its own. *)
Lemma inspection_ends_witness :
  returns (inspect (small_policy 2) (str "job") packed tt) ∧
  match inspect (small_policy 2) (str "job") packed tt with
  | Ok b => (o_byte_len <$> objects (graph b)) = [4; 1] ∧ (outcome <$> edges (graph b)) = [Derived]
  | Err _ => False
  end.
Proof.
  split; [|by vm_compute]. apply (inspection_ends (small_policy 2) (str "job") packed tt).
  - by apply small_typed.
  - by apply (bool_decide_unpack _).
Defined.

(** With no depth to derive to, a directory in a TAR makes the whole inspection fail. *)
Lemma inspection_accepts_exactly_witness :
  ¬ edges_fit (small_limits 0) (explored (small_policy 0) folder tt).2 ∧
  ∃ e, inspect (small_policy 0) (str "job") folder tt = Err (Fail (contract_invalid e)).
Proof.
  assert (¬ edges_fit (small_limits 0) (explored (small_policy 0) folder tt).2) as Hn.
  { intros [Hd _ _]. set (s := (explored (small_policy 0) folder tt).2) in *. vm_compute in s.
    assert (∃ e, head (s_edges s) = Some e) as [e He] by by eexists.
    assert (e ∈ s_edges s) as Hin by (injection He as <-; by left).
    injection He as <-. specialize (Hd _ Hin eq_refl). discriminate. }
  split; [exact Hn|].
  pose proof (inspection_accepts_exactly (small_policy 0) (str "job") folder tt
    ltac:(by apply small_typed) eq_refl ltac:(by apply (bool_decide_unpack _))) as H.
  assert (is_ok (explored (small_policy 0) folder tt).1) as Hok by (vm_compute; by eexists).
  destruct (explored (small_policy 0) folder tt) as [[[]|f] s]; [|by destruct Hok].
  exact (proj2 (proj2 (proj2 H)) Hn).
Defined.
End InspectionToy.
