(* ===== verification/GenerationTypes.v ===== *)
(** * GenerationTypes: requests, events and outputs of a generation

    The types of [llama-native-types/src/lib.rs] that the budget of a batch, the
    cooperative executor and the evidence of a generation share, with the fields that
    one of them reads or sets. An [f32] is its bit pattern: no component here computes
    with one. Token ids are [i32]s. *)

From S2P Require Import Prelude Bytes Text.
Local Open Scope Z_scope.

(** ** Requests *)

Inductive ChatRole := System | User | Assistant | Tool.
Record ChatMessage := { role : ChatRole; content : string }.

Inductive SpecialTokenPolicy := NoBosParseSpecial | AddBosParseSpecial.

Inductive CompletionPrompt :=
| Text (text : string) (special_tokens : SpecialTokenPolicy)
| Tokens (token_ids : list Z).

Inductive GenerationInput :=
| Chat (messages : list ChatMessage)
| Completion (prompts : list CompletionPrompt)
| FillInMiddle (prefix suffix : string).

Inductive SamplerKind := Penalties | Dry | TopK | TypicalP | TopP | MinP | Xtc | Temperature.

Record SamplingConfig := {
  seed : Z;
  temperature : Z;
  dynamic_temperature_range : Z;
  dynamic_temperature_exponent : Z;
  top_k : Z;
  top_p : Z;
  min_p : Z;
  typical_p : Z;
  xtc_probability : Z;
  xtc_threshold : Z;
  repeat_last_n : Z;
  repeat_penalty : Z;
  frequency_penalty : Z;
  presence_penalty : Z;
  dry_multiplier : Z;
  dry_base : Z;
  dry_allowed_length : Z;
  dry_penalty_last_n : Z;
  sampler_order : list SamplerKind;
  sampling_max_tokens : Z;
  stop : list text;
}.

Record SequenceStateBlob := { token_count : Z; cached_ids : list Z }.

Record GenerationCase := {
  case_id : string;
  input : GenerationInput;
  sampling : SamplingConfig;
  cached_prefix : option SequenceStateBlob;
}.
(** [case.sampling.max_tokens] *)
Definition max_tokens (c : GenerationCase) : Z := sampling_max_tokens (sampling c).

Inductive FirstWordChoicePolicy :=
| DistinctV2 | DistinctPlainTextV3 | DistinctVisualProseV4 | DistinctVisualProseV5.

Inductive MediaKind := Image | Audio.
Record MediaInput := { media_id : string; media_kind : MediaKind; mime : string; sha256 : string; media_bytes : list Z }.

Record GenerationBatchRequest := {
  first_word_choices : option FirstWordChoicePolicy;
  request_id : string;
  model_id : string;
  media : list MediaInput;
  cases : list GenerationCase;
}.

(** ** Events *)

Inductive GenerationState := SQueued | SPrefilling | SGenerating | SCompleted | SCancelled | SFailed.
#[export] Instance GenerationState_eq_dec : EqDecision GenerationState.
Proof. solve_decision. Defined.

Inductive GenerationEventKind :=
| StateEvent (state : GenerationState)
| Delta (delta : text)
| Warning (warning_code : string) (warning_message : string).
#[export] Instance GenerationEventKind_eq_dec : EqDecision GenerationEventKind.
Proof. solve_decision. Defined.

Record GenerationEvent := {
  event_request_id : string;
  event_branch_id : string;
  event_sequence_id : Z;
  event_input_index : Z;
  event_index : Z;
  event : GenerationEventKind;
}.
#[export] Instance GenerationEvent_eq_dec : EqDecision GenerationEvent.
Proof. solve_decision. Defined.

Definition is_terminal_state (s : GenerationState) : bool :=
  match s with SCompleted | SCancelled | SFailed => true | _ => false end.

(** ** Outputs *)

Record GenerationCacheMetrics := {
  supplied_prefix_tokens : Z;
  restored_prefix_tokens : Z;
  replayed_prefix_tokens : Z;
  batch_shared_prefix_tokens : Z;
  resident_prefix_tokens : Z;
}.
Definition no_cache : GenerationCacheMetrics :=
  {| supplied_prefix_tokens := 0; restored_prefix_tokens := 0; replayed_prefix_tokens := 0;
     batch_shared_prefix_tokens := 0; resident_prefix_tokens := 0 |}.

(** The rate is a quotient of a count and milliseconds, or zero. *)
Record GenerationMetrics := {
  metric_prompt_tokens : Z;
  completion_tokens : Z;
  shared_prefix_tokens : Z;
  duration_ms : Z;
  first_token_ms : option Z;
  tokens_per_second : option (Z * Z);
  cache : GenerationCacheMetrics;
}.

Inductive NativeTransport := InProcess | FakeFixture.
#[export] Instance NativeTransport_eq_dec : EqDecision NativeTransport.
Proof. solve_decision. Defined.

Record GenerationOutput := {
  out_request_id : string;
  out_branch_id : string;
  out_input_index : Z;
  out_model_id : string;
  out_text : text;
  generated_token_ids : list Z;
  out_state : GenerationState;
  finish_reason : string;
  metrics : GenerationMetrics;
  real_engine_invoked : bool;
  fake_fixture : bool;
  transport : NativeTransport;
}.

(** ** Errors *)

Inductive NativeErrorCode :=
| InvalidConfig | ModelMissing | ModelInvalid | ModelLoadFailed | ModelNotLoaded | ModelInUse | ModelSlotsFull
| MemoryBudgetExceeded | ContextCreateFailed | PromptTooLarge | UnsupportedPromptForm | UnsupportedParameter
| UnsupportedMedia | DecodeFailed | CodeCancelled | QueueFull | DuplicateActiveRequest | WorkerStopped
| CacheIncompatible | Internal.
#[export] Instance NativeErrorCode_eq_dec : EqDecision NativeErrorCode.
Proof. solve_decision. Defined.
