(* ===== verification/TokenBudget.v ===== *)
(** * TokenBudget: the KV cells of an exact-token batch

    Models [llama-native-types/src/exact_token_budget.rs]: the checked accounting
    of the cells that a batch of token prompts occupies. Counts are [u64]s. *)

From S2P Require Import Prelude Bytes Text GenerationTypes.
Local Open Scope Z_scope.

(** ** The budget *)

Record ExactTokenCaseCellBudget := {
  input_index : Z;
  prompt_tokens : Z;
  reused_prefix_tokens : Z;
  case_cached_prefix_tokens : Z;
  unshared_prompt_tokens : Z;
  maximum_sampled_tokens : Z;
  maximum_resident_completion_tokens : Z;
  required_suffix_and_completion_cells : Z;
}.

Record ExactTokenBatchCellBudget := {
  shared_uncached_prefix_tokens : Z;
  cached_prefix_tokens : Z;
  budget_cases : list ExactTokenCaseCellBudget;
  required_cells : Z;
}.

Definition fits (b : ExactTokenBatchCellBudget) (available_cells : Z) : bool :=
  required_cells b <=? available_cells.

Inductive ExactTokenBatchBudgetError :=
| EmptyBatch
| NonExactTokenCase (i : Z)
| EmptyPrompt (i : Z)
| NegativeTokenId (i : Z)
| ZeroCompletionBudget (i : Z)
| InvalidCachedPrefix (i : Z)
| ArithmeticOverflow.

Notation M := (parse ExactTokenBatchBudgetError).

Definition usize_to_u64 (v : Z) : M Z := need (try_from u64_max v) ArithmeticOverflow.
Definition u64_add (l r : Z) : M Z := need (checked_add u64_max l r) ArithmeticOverflow.
Definition u64_sub (l r : Z) : M Z := need (checked_sub l r) ArithmeticOverflow.

(** ** The validation of one case *)

Definition exact_token_ids (i : Z) (c : GenerationCase) : M (list Z) :=
  match input c with
  | Completion [Tokens token_ids] => Ok token_ids
  | Completion _ => Err (Fail (NonExactTokenCase i))
  | Chat _ | FillInMiddle _ _ => Err (Fail (NonExactTokenCase i))
  end.

Definition valid_cached (token_ids : list Z) (cached : SequenceStateBlob) : bool :=
  (0 <? token_count cached) && (token_count cached =? len (cached_ids cached))
  && (token_count cached <? len token_ids)
  && bool_decide (take (Z.to_nat (token_count cached)) token_ids = cached_ids cached).

(** The body of the first loop: the prompt and its cached prefix length. *)
Definition validate_case (i : Z) (c : GenerationCase) : M (list Z * option Z) :=
  token_ids ← exact_token_ids i c ;
  _ ← fail_if (bool_decide (token_ids = [])) (EmptyPrompt i) ;
  _ ← fail_if (existsb (λ t, t <? 0) token_ids) (NegativeTokenId i) ;
  _ ← fail_if (max_tokens c =? 0) (ZeroCompletionBudget i) ;
  match cached_prefix c with
  | None => Ok (token_ids, None)
  | Some cached =>
    if valid_cached token_ids cached then Ok (token_ids, Some (token_count cached))
    else Err (Fail (InvalidCachedPrefix i))
  end.

Fixpoint validate_cases (i : Z) (cs : list GenerationCase) : M (list (list Z) * list (option Z)) :=
  match cs with
  | [] => Ok ([], [])
  | c :: cs =>
    '(p, l) ← validate_case i c ;
    '(ps, ls) ← validate_cases (i + 1) cs ;
    Ok (p :: ps, l :: ls)
  end.

(** ** The shared prefix *)

Fixpoint uncached_indices (i : Z) (ls : list (option Z)) : list Z :=
  match ls with
  | [] => []
  | l :: ls => (match l with None => [i] | Some _ => [] end) ++ uncached_indices (i + 1) ls
  end.

(** [prompts[index]] *)
Definition prompt_at (prompts : list (list Z)) (i : Z) : M (list Z) := ok_or (prompts !! Z.to_nat i) Panic.

Definition minimum (ls : list Z) : option Z :=
  match ls with [] => None | l :: ls => Some (foldl Z.min l ls) end.

(** [.all(|index| prompts[*index][*position] == first[*position])] *)
Fixpoint agrees_at (prompts : list (list Z)) (first : list Z) (position : Z) (ixs : list Z) : M bool :=
  match ixs with
  | [] => Ok true
  | i :: ixs =>
    p ← prompt_at prompts i ;
    x ← index p position ;
    y ← index first position ;
    if x =? y then agrees_at prompts first position ixs else Ok false
  end.

(** [(0..minimum).take_while(..).count()], from [position] with [n] positions left *)
Fixpoint common_from (prompts : list (list Z)) (first : list Z) (ixs : list Z) (n : nat) (position : Z) : M Z :=
  match n with
  | O => Ok 0
  | S n =>
    b ← agrees_at prompts first position ixs ;
    if (b : bool) then c ← common_from prompts first ixs n (position + 1) ; Ok (1 + c) else Ok 0
  end.

Definition shared_uncached_prefix (prompts : list (list Z)) (indices : list Z) : M Z :=
  match indices with
  | i0 :: (_ :: _) as rest =>
    first ← prompt_at prompts i0 ;
    lens ← mapM (λ i, p ← prompt_at prompts i ; Ok (len p)) indices ;
    min ← need (minimum lens) ArithmeticOverflow ;
    common ← common_from prompts first rest (Z.to_nat min) 0 ;
    Ok (Z.min common (saturating_sub min 1))
  | _ => Ok 0
  end.

(** ** The accounting *)

(** The body of the second loop. *)
Definition account_case (shared : Z) (i : Z) (c : GenerationCase) (prompt : list Z) (cached : option Z)
    (cached_total : Z) (required : Z) : M (Z * Z * ExactTokenCaseCellBudget) :=
  prompt_tokens ← usize_to_u64 (len prompt) ;
  cached_for_case ← usize_to_u64 (default 0 cached) ;
  cached_total ← u64_add cached_total cached_for_case ;
  reused ← (match cached with Some _ => Ok cached_for_case | None => usize_to_u64 shared end) ;
  unshared ← u64_sub prompt_tokens reused ;
  let sampled := max_tokens c in
  resident ← u64_sub sampled 1 ;
  cells ← u64_add unshared resident ;
  required ← u64_add required cells ;
  Ok (cached_total, required,
      {| input_index := i; prompt_tokens := prompt_tokens; reused_prefix_tokens := reused;
         case_cached_prefix_tokens := cached_for_case; unshared_prompt_tokens := unshared;
         maximum_sampled_tokens := sampled; maximum_resident_completion_tokens := resident;
         required_suffix_and_completion_cells := cells |}).

Fixpoint account_cases (shared : Z) (i : Z) (cs : list GenerationCase) (prompts : list (list Z))
    (ls : list (option Z)) (cached_total required : Z) : M (Z * Z * list ExactTokenCaseCellBudget) :=
  match cs, prompts, ls with
  | c :: cs, p :: prompts, l :: ls =>
    '(cached_total, required, b) ← account_case shared i c p l cached_total required ;
    '(cached_total, required, bs) ← account_cases shared (i + 1) cs prompts ls cached_total required ;
    Ok (cached_total, required, b :: bs)
  | _, _, _ => Ok (cached_total, required, [])
  end.

Definition exact_token_batch_cell_budget (request : GenerationBatchRequest) : M ExactTokenBatchCellBudget :=
  _ ← fail_if (bool_decide (cases request = [])) EmptyBatch ;
  '(prompts, lengths) ← validate_cases 0 (cases request) ;
  shared ← shared_uncached_prefix prompts (uncached_indices 0 lengths) ;
  shared64 ← usize_to_u64 shared ;
  '(cached_total, required, bs) ← account_cases shared 0 (cases request) prompts lengths 0 shared64 ;
  required ← u64_add required cached_total ;
  shared64 ← usize_to_u64 shared ;
  Ok {| shared_uncached_prefix_tokens := shared64; cached_prefix_tokens := cached_total;
        budget_cases := bs; required_cells := required |}.

(** ** What the budget promises *)

(** A cached state can be reused when it is a proper, non-empty prefix. *)
Definition reusable (token_ids : list Z) (b : SequenceStateBlob) : Prop :=
  cached_ids b ≠ [] ∧ token_count b = len (cached_ids b)
    ∧ ∃ rest, rest ≠ [] ∧ token_ids = cached_ids b ++ rest.

(** What is wrong with a case, the first thing that is. *)
Inductive offence (c : GenerationCase) : (Z → ExactTokenBatchBudgetError) → Prop :=
| offence_form : (∀ ts, input c ≠ Completion [Tokens ts]) → offence c NonExactTokenCase
| offence_empty : input c = Completion [Tokens []] → offence c EmptyPrompt
| offence_negative ts t : input c = Completion [Tokens ts] → t ∈ ts → t < 0 → offence c NegativeTokenId
| offence_zero ts : input c = Completion [Tokens ts] → ts ≠ [] → Forall (λ t, 0 ≤ t) ts →
    max_tokens c = 0 → offence c ZeroCompletionBudget
| offence_cached ts b : input c = Completion [Tokens ts] → ts ≠ [] → Forall (λ t, 0 ≤ t) ts →
    max_tokens c ≠ 0 → cached_prefix c = Some b → ¬ reusable ts b → offence c InvalidCachedPrefix.

Definition acceptable (c : GenerationCase) : Prop :=
  ∃ ts, input c = Completion [Tokens ts] ∧ ts ≠ [] ∧ Forall (λ t, 0 ≤ t) ts ∧ max_tokens c ≠ 0
    ∧ ∀ b, cached_prefix c = Some b → reusable ts b.

Definition prompt (c : GenerationCase) : list Z :=
  match input c with Completion [Tokens ts] => ts | _ => [] end.
Definition cached_length (c : GenerationCase) : Z := from_option token_count 0 (cached_prefix c).
Definition uncached_prompts (cs : list GenerationCase) : list (list Z) :=
  omap (λ c, match cached_prefix c with None => Some (prompt c) | Some _ => None end) cs.

(** A prefix that every prompt has, with something behind it. *)
Definition proper_prefix (pre : list Z) (ps : list (list Z)) : Prop :=
  Forall (λ p, ∃ rest, rest ≠ [] ∧ p = pre ++ rest) ps.
(** The prefix that is stored once: none for fewer than two prompts, else the longest one. *)
Definition shared_length (ps : list (list Z)) (s : Z) : Prop :=
  if decide (length ps ≤ 1)%nat then s = 0
  else (∃ pre, len pre = s ∧ proper_prefix pre ps) ∧ ∀ pre, proper_prefix pre ps → len pre ≤ s.

Definition reused (s : Z) (c : GenerationCase) : Z := from_option token_count s (cached_prefix c).
Definition suffix_cells (s : Z) (c : GenerationCase) : Z :=
  (len (prompt c) - reused s c) + (max_tokens c - 1).
Definition case_budget (s : Z) (i : Z) (c : GenerationCase) : ExactTokenCaseCellBudget :=
  {| input_index := i; prompt_tokens := len (prompt c); reused_prefix_tokens := reused s c;
     case_cached_prefix_tokens := cached_length c; unshared_prompt_tokens := len (prompt c) - reused s c;
     maximum_sampled_tokens := max_tokens c; maximum_resident_completion_tokens := max_tokens c - 1;
     required_suffix_and_completion_cells := suffix_cells s c |}.

Fixpoint case_budgets (s : Z) (i : Z) (cs : list GenerationCase) : list ExactTokenCaseCellBudget :=
  match cs with [] => [] | c :: cs => case_budget s i c :: case_budgets s (i + 1) cs end.

Definition sum (l : list Z) : Z := foldr Z.add 0 l.
Definition total_cached (cs : list GenerationCase) : Z := sum (map cached_length cs).
Definition total_cells (s : Z) (cs : list GenerationCase) : Z :=
  s + sum (map (suffix_cells s) cs) + total_cached cs.

(** What the Rust types guarantee: the widths of the counts. *)
Definition case_ok (c : GenerationCase) : Prop :=
  0 ≤ max_tokens c ≤ u32_max ∧ len (prompt c) ≤ usize_max ∧ 0 ≤ cached_length c.

(** ** Lemmas *)

Module BudgetProofs.

Lemma valid_cached_spec ts b : valid_cached ts b = true ↔ reusable ts b.
Proof.
  unfold valid_cached, reusable. rewrite !andb_true_iff, Z.ltb_lt, Z.eqb_eq, Z.ltb_lt, bool_decide_eq_true. split.
  - intros [[[H0 Hl] Hlt] Ht]. split_and!; [intros Hn; rewrite Hn in Hl; unfold len in Hl; simpl in Hl; lia|done|].
    exists (drop (Z.to_nat (token_count b)) ts). split.
    + intros Hd%(f_equal length). rewrite length_drop in Hd. unfold len in Hlt. simpl in Hd. lia.
    + by rewrite <- Ht, take_drop.
  - intros (Hne & Hl & rest & Hr & ->). rewrite Hl. unfold len. rewrite Nat2Z.id, take_app_length, length_app.
    split_and!; try done; destruct (cached_ids b), rest; simpl in *; (done || lia).
Qed.

Lemma no_negative ts : Forall (λ t, 0 ≤ t) ts → existsb (λ t, t <? 0) ts = false.
Proof.
  intros Hpos. apply not_true_iff_false. intros (t & Hin%list_elem_of_In & Ht)%existsb_exists.
  rewrite Forall_forall in Hpos. specialize (Hpos t Hin). lia.
Qed.

(** Perform the steps whose outcome is known. *)
Ltac run := cbn [fail_if reject_if mbind result_bind need ok_or].

Lemma validate_ok i c : acceptable c → validate_case i c = Ok (prompt c, token_count <$> cached_prefix c).
Proof.
  intros (ts & Hi & Hne & Hpos & Hmax & Hc). unfold validate_case, exact_token_ids, prompt. rewrite Hi. run.
  rewrite bool_decide_eq_false_2 by done. run. rewrite no_negative by done. run.
  rewrite (proj2 (Z.eqb_neq _ _)) by done. run. destruct (cached_prefix c) as [b|]; [|done].
  by rewrite (proj2 (valid_cached_spec _ _) (Hc b eq_refl)).
Qed.

Lemma validate_fails i c e : offence c e → validate_case i c = Err (Fail (e i)).
Proof.
  unfold validate_case, exact_token_ids. intros H.
  destruct H as [Hi|Hi|ts t Hi Hin Ht|ts Hi Hne Hpos Hmax|ts b Hi Hne Hpos Hmax Hb Hr].
  - destruct (input c) as [|[|[|ts] [|]]|]; try done. by destruct (Hi ts).
  - by rewrite Hi.
  - rewrite Hi. run. rewrite bool_decide_eq_false_2 by (intros ->; by apply elem_of_nil in Hin). run.
    assert (existsb (λ t, t <? 0) ts = true) as ->; [|done].
    apply existsb_exists. exists t. split; [by apply list_elem_of_In|by apply Z.ltb_lt].
  - rewrite Hi. run. rewrite bool_decide_eq_false_2, no_negative by done. run. by rewrite Hmax.
  - rewrite Hi. run. rewrite bool_decide_eq_false_2, no_negative by done. run.
    rewrite (proj2 (Z.eqb_neq _ _)) by done. run. rewrite Hb.
    destruct (valid_cached ts b) eqn:Hv; [|done]. by apply valid_cached_spec in Hv.
Qed.

(** A case is acceptable or has an offence. *)
Lemma acceptable_or_offence c : acceptable c ∨ ∃ e, offence c e.
Proof.
  assert ((∃ ts, input c = Completion [Tokens ts]) ∨ ∀ ts, input c ≠ Completion [Tokens ts]) as [[ts Hi]|Hn].
  { destruct (input c) as [|[|[|ts] [|]]|]; try (right; congruence). left. by exists ts. }
  2: { right. exists NonExactTokenCase. by apply offence_form. }
  destruct (decide (ts = [])) as [->|Hne]; [right; eexists; by apply offence_empty|].
  destruct (decide (Forall (λ t, 0 ≤ t) ts)) as [Hpos|Hneg].
  2: { right. exists NegativeTokenId. apply not_Forall_Exists in Hneg; [|apply _].
       apply Exists_exists in Hneg as (t & Hin & Ht). simpl in Ht. eapply offence_negative; [done|done|lia]. }
  destruct (decide (max_tokens c = 0)) as [H0|H0]; [right; eexists; by eapply offence_zero|].
  destruct (cached_prefix c) as [b|] eqn:Hb.
  - destruct (valid_cached ts b) eqn:Hv.
    + left. exists ts. split_and!; try done. intros b' Hb'. assert (b' = b) as -> by congruence. by apply valid_cached_spec.
    + right. exists InvalidCachedPrefix. eapply offence_cached; try done. rewrite <- valid_cached_spec. congruence.
  - left. exists ts. split_and!; try done. congruence.
Qed.

Lemma validate_cases_ok cs : ∀ i, Forall acceptable cs →
  validate_cases i cs = Ok (map prompt cs, map (λ c, token_count <$> cached_prefix c) cs).
Proof.
  induction cs as [|c cs IH]; intros i Hf; [done|]. apply Forall_cons in Hf as [Hc Hf]. simpl.
  rewrite validate_ok by done. run. rewrite IH by done. done.
Qed.

Lemma validate_cases_fails pre c post e : ∀ i, Forall acceptable pre → offence c e →
  validate_cases i (pre ++ c :: post) = Err (Fail (e (i + len pre))).
Proof.
  induction pre as [|c' pre IH]; intros i Hf He; simpl.
  - rewrite (validate_fails _ _ e) by done. run. do 3 f_equal. unfold len. simpl. lia.
  - apply Forall_cons in Hf as [Hc Hf]. rewrite validate_ok by done. run. rewrite IH by done. run.
    do 3 f_equal. rewrite len_cons. lia.
Qed.

(** *** The shared prefix *)

Definition reads (prompts : list (list Z)) (i : Z) (p : list Z) : Prop := prompts !! Z.to_nat i = Some p.
Lemma reads_at prompts i p : reads prompts i p → prompt_at prompts i = Ok p.
Proof. unfold reads, prompt_at. by intros ->. Qed.

Lemma uncached_reads cs : ∀ pre,
  Forall2 (reads (pre ++ map prompt cs)) (uncached_indices (len pre) (map (λ c, token_count <$> cached_prefix c) cs))
    (uncached_prompts cs).
Proof.
  induction cs as [|c cs IH]; intros pre; simpl; [constructor|].
  specialize (IH (pre ++ [prompt c])). rewrite <- app_assoc, len_app in IH. simpl in IH.
  replace (len pre + len [prompt c]) with (len pre + 1) in IH by (unfold len; simpl; lia).
  unfold uncached_prompts in *. simpl. destruct (cached_prefix c); simpl; [done|]. constructor; [|done].
  unfold reads, len. rewrite Nat2Z.id. by rewrite list_lookup_middle.
Qed.

Lemma agrees_at_spec prompts first pos ixs ps y :
  Forall2 (reads prompts) ixs ps → 0 ≤ pos → get first pos = Some y → Forall (λ p, pos < len p) ps →
  ∃ b, agrees_at prompts first pos ixs = Ok b ∧ (b = true ↔ Forall (λ p, get p pos = Some y) ps).
Proof.
  intros Hr Hpos Hy. induction Hr as [|i p ixs ps Hi Hr IH]; intros Hlt; simpl; [by exists true|].
  apply Forall_cons in Hlt as [Hp Hlt]. rewrite (reads_at _ _ _ Hi). run.
  destruct (get_lt p pos) as [x Hx]; [lia|]. unfold index. rewrite Hx, Hy. run.
  destruct (Z.eqb_spec x y) as [->|Hxy].
  - destruct (IH Hlt) as (b & -> & Hb). exists b. split; [done|]. rewrite Hb, Forall_cons. naive_solver.
  - exists false. split; [done|]. rewrite Forall_cons. split; [done|]. intros [H _]. congruence.
Qed.

(** The number of positions from [pos] on, at most [n], at which all prompts agree with the first. *)
Lemma common_from_spec prompts first ixs ps n : ∀ pos,
  Forall2 (reads prompts) ixs ps → 0 ≤ pos → pos + Z.of_nat n ≤ len first →
  Forall (λ p, pos + Z.of_nat n ≤ len p) ps →
  ∃ k, common_from prompts first ixs n pos = Ok (Z.of_nat k) ∧ (k ≤ n)%nat ∧
    Forall (λ p, sub_list p pos (pos + Z.of_nat k) = sub_list first pos (pos + Z.of_nat k)) ps ∧
    ((k < n)%nat → ∃ p, p ∈ ps ∧ get p (pos + Z.of_nat k) ≠ get first (pos + Z.of_nat k)).
Proof.
  induction n as [|n IH]; intros pos Hr Hpos Hf Hps; simpl.
  { exists 0%nat. split_and!; [done|lia| |lia]. apply Forall_forall. intros. by rewrite !sub_list_nil by lia. }
  destruct (get_lt first pos) as [y Hy]; [lia|].
  destruct (agrees_at_spec prompts first pos ixs ps y Hr Hpos Hy) as (b & -> & Hb).
  { eapply Forall_impl; [done|]. simpl. lia. }
  run. destruct b.
  - destruct (IH (pos + 1) Hr) as (k & -> & Hk & Hag & Hdis); [lia|lia|eapply Forall_impl; [done|]; simpl; lia|].
    run. exists (S k). split_and!; [f_equal; lia|lia| |].
    + apply proj1 in Hb. specialize (Hb eq_refl). rewrite Forall_forall in Hag, Hb |- *. intros p Hp.
      rewrite !(sub_list_cons _ pos y) by (auto || lia). f_equal.
      replace (pos + Z.of_nat (S k)) with (pos + 1 + Z.of_nat k) by lia. auto.
    + intros Hkn. destruct Hdis as (p & Hp & Hne); [lia|]. exists p. split; [done|].
      by replace (pos + Z.of_nat (S k)) with (pos + 1 + Z.of_nat k) by lia.
  - exists 0%nat. split_and!; [done|lia| |].
    { apply Forall_forall. intros. by rewrite !sub_list_nil by lia. }
    intros _. rewrite Z.add_0_r. destruct (decide (Forall (λ p, get p pos = Some y) ps)) as [Hall|Hn].
    { by apply Hb in Hall. }
    apply not_Forall_Exists in Hn; [|apply _]. apply Exists_exists in Hn as (p & Hp & Hne). exists p.
    split; [done|]. by rewrite Hy.
Qed.

Lemma minimum_spec l ls : ∃ m, minimum (l :: ls) = Some m ∧ m ∈ l :: ls ∧ Forall (λ x, m ≤ x) (l :: ls).
Proof.
  revert l. induction ls as [|x ls IH]; intros l; simpl.
  - exists l. split_and!; [done|left|by repeat constructor].
  - destruct (IH (Z.min l x)) as (m & Hm & Hin & Hle). exists m. split; [done|].
    apply Forall_cons in Hle as [Hle Hls]. split; [|constructor; [lia|constructor; [lia|done]]].
    apply elem_of_cons in Hin as [->|Hin]; [|by do 2 right]. rewrite !elem_of_cons.
    destruct (Z.min_spec l x) as [[_ ->]|[_ ->]]; auto.
Qed.

Lemma prompt_lengths prompts ixs ps : Forall2 (reads prompts) ixs ps →
  mapM (λ i, p ← prompt_at prompts i ; Ok (len p)) ixs = Ok (E:=fault ExactTokenBatchBudgetError) (map len ps).
Proof. induction 1 as [|i p ixs ps Hi _ IH]; [done|]. simpl. rewrite (reads_at _ _ _ Hi). run. by rewrite IH. Qed.

Lemma get_prefix pre rest k : (k < length pre)%nat → get (pre ++ rest) (Z.of_nat k) = pre !! k.
Proof.
  intros Hk. unfold get. rewrite (proj2 (Z.ltb_lt _ _)) by (unfold len; rewrite length_app; lia).
  by rewrite Nat2Z.id, lookup_app_l.
Qed.

(** The positions that agree, cut one short of the shortest prompt, are the longest proper prefix. *)
Lemma longest_proper_prefix p0 ps m k :
  m ∈ map len (p0 :: ps) → Forall (λ x, m ≤ x) (map len (p0 :: ps)) → 1 ≤ m → Z.of_nat k ≤ m →
  Forall (λ p, sub_list p 0 (Z.of_nat k) = sub_list p0 0 (Z.of_nat k)) ps →
  (Z.of_nat k < m → ∃ p, p ∈ ps ∧ get p (Z.of_nat k) ≠ get p0 (Z.of_nat k)) →
  let s := Z.min (Z.of_nat k) (saturating_sub m 1) in
  (∃ pre, len pre = s ∧ proper_prefix pre (p0 :: ps)) ∧ ∀ pre, proper_prefix pre (p0 :: ps) → len pre ≤ s.
Proof.
  intros Hin Hle Hm Hk Hag Hdis s. unfold saturating_sub in s. rewrite Forall_map in Hle.
  assert (∀ p, p ∈ p0 :: ps → s < len p) as Hlt.
  { intros p Hp. rewrite Forall_forall in Hle. specialize (Hle p Hp). simpl in Hle. lia. }
  split.
  - exists (take (Z.to_nat s) p0). split.
    { specialize (Hlt p0 ltac:(left)). unfold len in *. rewrite length_take. lia. }
    apply Forall_forall. intros p Hp. exists (drop (Z.to_nat s) p). split.
    { intros Hd%(f_equal length). specialize (Hlt p Hp). rewrite length_drop in Hd. unfold len in Hlt. simpl in Hd. lia. }
    assert (take k p = take k p0) as Heq.
    { apply elem_of_cons in Hp as [->|Hp]; [done|]. rewrite Forall_forall in Hag. specialize (Hag p Hp).
      unfold sub_list in Hag. simpl in Hag. by rewrite Z.sub_0_r, Nat2Z.id, !drop_0 in Hag. }
    assert (take (Z.to_nat s) p = take (Z.to_nat s) p0) as <-; [|by rewrite take_drop].
    apply (f_equal (take (Z.to_nat s))) in Heq. by rewrite !take_take, !Nat.min_l in Heq by lia.
  - intros pre Hpre. unfold proper_prefix in Hpre. rewrite Forall_forall in Hpre.
    assert (len pre ≤ m - 1) as Hshort.
    { apply list_elem_of_fmap in Hin as (p & -> & Hp). destruct (Hpre p Hp) as (rest & Hr & ->).
      rewrite len_app. destruct rest; [done|]. rewrite len_cons. pose proof (len_nonneg rest). lia. }
    destruct (decide (Z.of_nat k < len pre)) as [Hkp|]; [|lia]. exfalso.
    destruct Hdis as (p & Hp & Hne); [lia|]. apply Hne.
    destruct (Hpre p ltac:(by right)) as (r1 & _ & ->), (Hpre p0 ltac:(by left)) as (r2 & _ & ->).
    unfold len in Hkp. by rewrite !get_prefix by lia.
Qed.

Lemma shared_spec prompts ixs ps :
  Forall2 (reads prompts) ixs ps → Forall (λ p, p ≠ []) ps →
  ∃ s, shared_uncached_prefix prompts ixs = Ok s ∧ 0 ≤ s ∧ shared_length ps s ∧ Forall (λ p, s < len p) ps.
Proof.
  intros Hr Hne. unfold shared_length.
  assert (Forall (λ p, 0 < len p) ps) as Hpos.
  { eapply Forall_impl; [done|]. intros [|x p] ?; [done|]. rewrite len_cons. pose proof (len_nonneg p). lia. }
  destruct ps as [|p0 [|p1 ps]]; [|by inversion Hr as [|? ? ? ? ? Hr']; subst; inversion Hr'; subst; exists 0|].
  { inversion Hr; subst. by exists 0. }
  pose proof (prompt_lengths _ _ _ Hr) as Hlens.
  destruct (minimum_spec (len p0) (map len (p1 :: ps))) as (m & Hm & Hin & Hle).
  assert (1 ≤ m) as Hm1.
  { change (m ∈ map len (p0 :: p1 :: ps)) in Hin. apply list_elem_of_fmap in Hin as (p & -> & Hp).
    rewrite Forall_forall in Hpos. specialize (Hpos p Hp). simpl in Hpos. lia. }
  assert (Forall (λ p, m ≤ len p) (p0 :: p1 :: ps)) as Hlep.
  { change (Forall (λ x, m ≤ x) (map len (p0 :: p1 :: ps))) in Hle. by rewrite Forall_map in Hle. }
  inversion Hr as [|i0 ? ixs0 ? Hi0 Hr0]; subst. inversion Hr0 as [|i1 ? ixs1]; subst.
  set (rest := i1 :: ixs1) in *. cbn [shared_uncached_prefix]. fold rest.
  change (i0 :: i1 :: ixs1) with (i0 :: rest) in *. unfold rest at 1.
  rewrite (reads_at _ _ _ Hi0). run. rewrite Hlens. run. change (map len (p0 :: p1 :: ps)) with (len p0 :: map len (p1 :: ps)).
  rewrite Hm. run. apply Forall_cons in Hlep as [Hm0 Hlep'].
  destruct (common_from_spec prompts p0 rest (p1 :: ps) (Z.to_nat m) 0) as (k & -> & Hk & Hag & Hdis);
    [done|lia|lia|eapply Forall_impl; [exact Hlep'|simpl; lia]|].
  run. eexists. split; [done|]. unfold saturating_sub in *. split; [lia|]. rewrite decide_False by (simpl; lia).
  split.
  - apply (longest_proper_prefix p0 (p1 :: ps) m k); [done|done|done|lia|exact Hag|].
    intros ?. apply Hdis. lia.
  - apply Forall_cons. split; [lia|]. eapply Forall_impl; [exact Hlep'|simpl; lia].
Qed.

(** *** The accounting *)

Lemma u64_add_spec l r : u64_add l r = if decide (l + r ≤ u64_max) then Ok (l + r) else Err (Fail ArithmeticOverflow).
Proof. unfold u64_add, checked_add. case_decide; [by rewrite (proj2 (Z.leb_le _ _))|by rewrite (proj2 (Z.leb_gt _ _)) by lia]. Qed.
Lemma u64_sub_ok l r : r ≤ l → u64_sub l r = Ok (l - r).
Proof. intros. unfold u64_sub, checked_sub. by rewrite (proj2 (Z.leb_le _ _)). Qed.
Lemma usize_to_u64_ok v : v ≤ usize_max → usize_to_u64 v = Ok v.
Proof. intros. unfold usize_to_u64, try_from. by rewrite (proj2 (Z.leb_le _ _)). Qed.

(** What the accounting needs of a case: its prompt exceeds what it reuses. *)
Definition accountable (s : Z) (c : GenerationCase) : Prop :=
  len (prompt c) ≤ usize_max ∧ 0 ≤ cached_length c ∧ 0 ≤ reused s c < len (prompt c) ∧ 1 ≤ max_tokens c.

Lemma suffix_cells_nonneg s c : accountable s c → 0 ≤ suffix_cells s c.
Proof. unfold accountable, suffix_cells. lia. Qed.

Lemma account_case_spec s i c ct req : 0 ≤ s ≤ usize_max → 0 ≤ req → accountable s c →
  account_case s i c (prompt c) (token_count <$> cached_prefix c) ct req =
    if decide (ct + cached_length c ≤ u64_max ∧ req + suffix_cells s c ≤ u64_max)
    then Ok (ct + cached_length c, req + suffix_cells s c, case_budget s i c)
    else Err (Fail ArithmeticOverflow).
Proof.
  intros Hs Hreq (Hlen & Hc & Hr & Hmax). unfold account_case, case_budget, suffix_cells.
  rewrite (usize_to_u64_ok (len (prompt c))) by done. run.
  assert (default 0 (token_count <$> cached_prefix c) = cached_length c) as ->.
  { unfold cached_length. by destruct (cached_prefix c). }
  assert (cached_length c ≤ usize_max) as Hcm.
  { unfold cached_length, reused in *. destruct (cached_prefix c); simpl in *; [lia|unfold usize_max, u64_max; lia]. }
  rewrite (usize_to_u64_ok (cached_length c)) by done. run. rewrite (u64_add_spec ct).
  destruct (decide (ct + cached_length c ≤ u64_max)) as [Hct|Hct]; [|by rewrite decide_False by tauto]. run.
  assert ((match token_count <$> cached_prefix c with Some _ => Ok (cached_length c) | None => usize_to_u64 s end)
          = Ok (reused s c)) as ->.
  { unfold cached_length, reused. destruct (cached_prefix c); simpl; [done|]. apply usize_to_u64_ok. lia. }
  run. rewrite !u64_sub_ok by lia. run. rewrite (u64_add_spec (len (prompt c) - _)).
  case_decide as Hcells; run; rewrite ?(u64_add_spec req); repeat case_decide; run; try tauto; try done; exfalso; lia.
Qed.

Lemma sum_nonneg l : Forall (λ x, 0 ≤ x) l → 0 ≤ sum l.
Proof. induction 1; simpl; lia. Qed.

Lemma cells_nonneg s cs : Forall (accountable s) cs → 0 ≤ sum (map (suffix_cells s) cs).
Proof. intros. apply sum_nonneg, Forall_map. eapply Forall_impl; [done|]. apply suffix_cells_nonneg. Qed.
Lemma cached_nonneg s cs : Forall (accountable s) cs → 0 ≤ total_cached cs.
Proof. intros. apply sum_nonneg, Forall_map. eapply Forall_impl; [done|]. by intros c (_ & ? & _). Qed.

Lemma account_cases_spec s cs : ∀ i ct req, 0 ≤ s ≤ usize_max → 0 ≤ ct ≤ u64_max → 0 ≤ req ≤ u64_max → Forall (accountable s) cs →
  account_cases s i cs (map prompt cs) (map (λ c, token_count <$> cached_prefix c) cs) ct req =
    if decide (ct + total_cached cs ≤ u64_max ∧ req + sum (map (suffix_cells s) cs) ≤ u64_max)
    then Ok (ct + total_cached cs, req + sum (map (suffix_cells s) cs), case_budgets s i cs)
    else Err (Fail ArithmeticOverflow).
Proof.
  induction cs as [|c cs IH]; intros i ct req Hs Hct Hreq Hacc.
  { unfold total_cached. simpl. rewrite !Z.add_0_r. by rewrite decide_True by lia. }
  apply Forall_cons in Hacc as [Hc Hacc]. cbn [map account_cases]. rewrite account_case_spec by (done || lia).
  pose proof (suffix_cells_nonneg _ _ Hc). pose proof (cells_nonneg _ _ Hacc). pose proof (cached_nonneg _ _ Hacc).
  assert (0 ≤ cached_length c) by apply Hc. unfold total_cached in *. simpl.
  case_decide as Hd; run.
  - rewrite IH by (done || lia). rewrite !Z.add_assoc. by case_decide.
  - rewrite decide_False; [done|]. lia.
Qed.

(** The accounting of acceptable cases. *)
Lemma accountable_of s cs : Forall case_ok cs → Forall acceptable cs → 0 ≤ s →
  Forall (λ p, s < len p) (uncached_prompts cs) → Forall (accountable s) cs.
Proof.
  unfold uncached_prompts. induction cs as [|c cs IH]; intros Hok Hacc Hs Hlt; [done|].
  apply Forall_cons in Hok as [(Hm & Hp & Hc) Hok], Hacc as [(ts & Hi & Hne & _ & Hmax & Hca) Hacc]. simpl in Hlt.
  constructor.
  - unfold accountable, reused, cached_length, prompt in *. rewrite Hi in *.
    destruct (cached_prefix c) as [b|]; simpl in *.
    + destruct (Hca b eq_refl) as (Hb & Hl & rest & Hr & ->). rewrite len_app in *.
      destruct rest; [done|]. rewrite len_cons in *. pose proof (len_nonneg rest). lia.
    + apply Forall_cons in Hlt as [? _]. lia.
  - apply IH; try done. destruct (cached_prefix c); [done|]. by apply Forall_cons in Hlt as [_ ?].
Qed.

Lemma uncached_nonempty cs : Forall acceptable cs → Forall (λ p, p ≠ []) (uncached_prompts cs).
Proof.
  unfold uncached_prompts. induction 1 as [|c cs (ts & Hi & Hne & _) _ IH]; simpl; [done|].
  destruct (cached_prefix c); [done|]. constructor; [|done]. unfold prompt. by rewrite Hi.
Qed.

Lemma shared_in_u64 ps s : Forall (λ p, len p ≤ usize_max) ps → Forall (λ p, s < len p) ps → shared_length ps s → s ≤ usize_max.
Proof.
  intros Hle Hlt. unfold shared_length. case_decide; [intros ->; by compute|]. intros _.
  destruct ps as [|p ps]; simpl in *; [lia|]. apply Forall_cons in Hle as [? _], Hlt as [? _]. lia.
Qed.

Lemma uncached_len cs : Forall case_ok cs → Forall (λ p, len p ≤ usize_max) (uncached_prompts cs).
Proof.
  unfold uncached_prompts. induction 1 as [|c cs (_ & Hp & _) _ IH]; simpl; [done|].
  destruct (cached_prefix c); [done|]. by constructor.
Qed.

Lemma accounted cs : Forall case_ok cs → Forall acceptable cs →
  ∃ s, shared_length (uncached_prompts cs) s ∧
    (shared ← shared_uncached_prefix (map prompt cs) (uncached_indices 0 (map (λ c, token_count <$> cached_prefix c) cs)) ;
     shared64 ← usize_to_u64 shared ;
     '(cached_total, required, bs) ←
       account_cases shared 0 cs (map prompt cs) (map (λ c, token_count <$> cached_prefix c) cs) 0 shared64 ;
     required ← u64_add required cached_total ;
     shared64 ← usize_to_u64 shared ;
     Ok {| shared_uncached_prefix_tokens := shared64; cached_prefix_tokens := cached_total;
           budget_cases := bs; required_cells := required |}) =
    if decide (total_cells s cs ≤ u64_max) then
      Ok {| shared_uncached_prefix_tokens := s; cached_prefix_tokens := total_cached cs;
            budget_cases := case_budgets s 0 cs; required_cells := total_cells s cs |}
    else Err (Fail ArithmeticOverflow).
Proof.
  intros Hok Hacc.
  destruct (shared_spec _ _ _ (uncached_reads cs []) (uncached_nonempty _ Hacc)) as (s & Hs & Hs0 & Hsh & Hlt).
  simpl in Hs. change (len []) with 0 in Hs. exists s. split; [done|]. rewrite Hs. run.
  pose proof (shared_in_u64 _ _ (uncached_len _ Hok) Hlt Hsh) as Hsm. rewrite usize_to_u64_ok by done. run.
  pose proof (accountable_of s cs Hok Hacc Hs0 Hlt) as Haccountable. rewrite account_cases_spec by (done || (unfold usize_max in *; lia)).
  pose proof (cells_nonneg _ _ Haccountable). pose proof (cached_nonneg _ _ Haccountable). rewrite Z.add_0_l.
  unfold total_cells. case_decide; run.
  - rewrite u64_add_spec. case_decide; run; [|done]. done.
  - rewrite decide_False by lia. done.
Qed.

Lemma first_offence cs :
  Forall acceptable cs ∨ ∃ pre c post e, cs = pre ++ c :: post ∧ Forall acceptable pre ∧ offence c e.
Proof.
  induction cs as [|c cs [Hf|(pre & c' & post & e & -> & Hpre & He)]]; [by left| |];
    destruct (acceptable_or_offence c) as [Hc|[e' He']].
  - left. by constructor.
  - right. by exists [], c, cs, e'.
  - right. exists (c :: pre), c', post, e. split_and!; [done|by constructor|done].
  - right. by exists [], c, (pre ++ c' :: post), e'.
Qed.

End BudgetProofs.

(** ** Properties *)

Module TokenBudgetTheorems.
Import BudgetProofs.

(** C28: the budget of an exact-token batch refuses an empty batch, and the first case
    that has an offence, with its index and its first offence, in the documented
    order. Otherwise it stores once the longest prefix that all uncached prompts share
    with a token left over (none when fewer than two are uncached), and each case gets
    its own suffix and one cell less than it may sample; cached prefixes are counted
    per case. The required cells are the exact sum, and overflow is reported exactly
    when that sum is no [u64]. No indexing is out of range. *)
Theorem token_budget_exact r :
  Forall case_ok (cases r) →
  (cases r = [] → exact_token_batch_cell_budget r = Err (Fail EmptyBatch)) ∧
  (∀ pre c post e, cases r = pre ++ c :: post → Forall acceptable pre → offence c e →
     exact_token_batch_cell_budget r = Err (Fail (e (len pre)))) ∧
  (cases r ≠ [] → Forall acceptable (cases r) →
   ∃ s, shared_length (uncached_prompts (cases r)) s ∧
     exact_token_batch_cell_budget r =
       if decide (total_cells s (cases r) ≤ u64_max) then
         Ok {| shared_uncached_prefix_tokens := s; cached_prefix_tokens := total_cached (cases r);
               budget_cases := case_budgets s 0 (cases r); required_cells := total_cells s (cases r) |}
       else Err (Fail ArithmeticOverflow)) ∧
  (Forall acceptable (cases r) ∨
   ∃ pre c post e, cases r = pre ++ c :: post ∧ Forall acceptable pre ∧ offence c e).
Proof.
  intros Hok. unfold exact_token_batch_cell_budget. split_and!.
  - intros ->. done.
  - intros pre c post e -> Hpre He. rewrite bool_decide_eq_false_2 by by destruct pre. run.
    by rewrite (validate_cases_fails pre c post e) by done.
  - intros Hne Hacc. rewrite bool_decide_eq_false_2 by done. run. rewrite validate_cases_ok by done. run.
    by apply accounted.
  - apply first_offence.
Qed.

Definition sampling_w (max : Z) : SamplingConfig :=
  {| seed := 1; temperature := 0; dynamic_temperature_range := 0; dynamic_temperature_exponent := 0; top_k := 40; top_p := 0;
     min_p := 0; typical_p := 0; xtc_probability := 0; xtc_threshold := 0; repeat_last_n := 64; repeat_penalty := 0;
     frequency_penalty := 0; presence_penalty := 0; dry_multiplier := 0; dry_base := 0; dry_allowed_length := 2;
     dry_penalty_last_n := -1; sampler_order := []; sampling_max_tokens := max; stop := [] |}.
Definition case_w (ts : list Z) (max : Z) (cached : option SequenceStateBlob) : GenerationCase :=
  {| case_id := EmptyString; input := Completion [Tokens ts]; sampling := sampling_w max; cached_prefix := cached |}.
Definition request_w (cs : list GenerationCase) : GenerationBatchRequest :=
  {| first_word_choices := None; request_id := EmptyString; model_id := EmptyString; media := []; cases := cs |}.

(** Two prompts that share three tokens and a third one with two cached ones. *)
Definition batch_w : list GenerationCase :=
  [case_w [1; 2; 3; 4] 5 None; case_w [1; 2; 3; 4] 7 None;
   case_w [8; 9; 10] 1 (Some {| token_count := 2; cached_ids := [8; 9] |})].

Lemma batch_w_acceptable : Forall acceptable batch_w.
Proof.
  repeat constructor; eexists; (split; [reflexivity|]); split_and!; try done; try (by repeat constructor).
  intros b [= <-]. split_and!; [done|done|]. by exists [10].
Qed.

Lemma token_budget_exact_witness :
  ∃ b, exact_token_batch_cell_budget (request_w batch_w) = Ok b ∧
    shared_uncached_prefix_tokens b = 3 ∧ cached_prefix_tokens b = 2 ∧ required_cells b = 18 ∧ fits b 18 = true.
Proof.
  destruct (token_budget_exact (request_w batch_w)) as (_ & _ & H & _).
  { repeat constructor; by vm_compute. }
  destruct (H ltac:(done) batch_w_acceptable) as (s & _ & Hb).
  assert (exact_token_batch_cell_budget (request_w batch_w) =
    Ok {| shared_uncached_prefix_tokens := 3; cached_prefix_tokens := 2;
          budget_cases := case_budgets 3 0 batch_w; required_cells := 18 |}) as He by (vm_compute; reflexivity).
  eexists. split; [exact He|]. rewrite He in Hb. case_decide; [|done]. split_and!; done.
Defined.
End TokenBudgetTheorems.
