(* ===== verification/GenerationEvidence.v ===== *)
(** * GenerationEvidence: the evidence a generation must leave to be certified

    Models the verification of a finished batch in [llama-native-engine/src/lib.rs]:
    the trace of token pieces ([TokenPieceTrace]), stop sequences, and the checks of
    [verify_generation_batch_authority] and [validate_verified_generation_batch] on the
    outputs, the retained events and the sampled tokens. The tokenizer of the model is
    a parameter; the artifacts of the model are read when the checks are over, and what
    that reading said is an argument. *)

From S2P Require Import Prelude Bytes Text Utf8 NativeRegistry GenerationTypes TokenBudget.
Local Open Scope Z_scope.

(** An error of the engine is raised with a code and a message, or comes from the
    request registry. *)
Inductive EngineError :=
| Raised (error_code : NativeErrorCode) (message : string)
| OfRegistry (e : NativeRegistry.NativeError).
Definition error_code (e : EngineError) : NativeErrorCode :=
  match e with
  | Raised c _ => c
  | OfRegistry e => match NativeRegistry.code e with
                    | NativeRegistry.Internal => Internal
                    | NativeRegistry.WorkerStopped => WorkerStopped
                    | NativeRegistry.DuplicateActiveRequest => DuplicateActiveRequest
                    end
  end.

Definition generation_verification_error (message : string) : EngineError := Raised Internal message.

Notation engine := (parse EngineError).

(** The part of [ModelFingerprint] that is read; the hashes are compared with the
    artifacts on disk. *)
Record ModelFingerprint := { fingerprint_model_id : string; fingerprint_max_sequences : Z }.

Definition MAX_GENERATED_OUTPUT_BYTES : Z := 16 * 1024 * 1024.

Definition checked_generated_output_len (current additional : Z) : engine Z :=
  next ← need (checked_add usize_max current additional)
    (Raised MemoryBudgetExceeded "generated UTF-8 output byte count overflowed") ;
  fail_if (MAX_GENERATED_OUTPUT_BYTES <? next)
    (Raised MemoryBudgetExceeded "generated UTF-8 output exceeds the per-case ceiling") ;;
  Ok next.

(** ** The trace of token pieces *)

Record TokenPieceTrace := { raw_piece_bytes : list Z; cumulative_boundaries : list Z }.

Definition with_token_capacity : TokenPieceTrace := {| raw_piece_bytes := []; cumulative_boundaries := [0] |}.

Definition push_piece (t : TokenPieceTrace) (piece : list Z) : engine TokenPieceTrace :=
  next_len ← checked_generated_output_len (len (raw_piece_bytes t)) (len piece) ;
  boundary ← need (try_from u64_max next_len) (generation_verification_error "token-piece byte boundary does not fit u64") ;
  Ok {| raw_piece_bytes := raw_piece_bytes t ++ piece; cumulative_boundaries := cumulative_boundaries t ++ [boundary] |}.

(** [windows(2).all(|pair| pair[0] <= pair[1])] *)
Fixpoint nondecreasing (l : list Z) : bool :=
  match l with
  | x :: (y :: _) as l' => (x <=? y) && nondecreasing l'
  | _ => true
  end.

Definition trace_validate (t : TokenPieceTrace) (token_count : Z) : engine unit :=
  expected ← need (checked_add usize_max token_count 1)
    (generation_verification_error "token-piece boundary count overflowed") ;
  fail_if (negb (len (cumulative_boundaries t) =? expected)
           || negb (bool_decide (head (cumulative_boundaries t) = Some 0))
           || negb (nondecreasing (cumulative_boundaries t))
           || negb (bool_decide (last (cumulative_boundaries t) = try_from u64_max (len (raw_piece_bytes t)))))
    (generation_verification_error "token-piece bytes and cumulative boundaries are inconsistent").

(** ** Stop sequences *)

(** [text.find(pattern)] *)
Fixpoint str_find (t pattern : text) : option Z :=
  if starts_with t pattern then Some 0
  else match t with
       | [] => None
       | c :: t => Z.add (len_utf8 c) <$> str_find t pattern
       end.

(** [iter().min()] *)
Definition iter_min (l : list Z) : option Z := match l with [] => None | x :: l => Some (foldl Z.min x l) end.

Definition stop_sequence_start (t : text) (stops : list text) : option Z :=
  iter_min (omap (str_find t) (List.filter (λ s, negb (bool_decide (s = []))) stops)).

(** [text.truncate(n)] panics off a boundary. *)
Definition truncate (t : text) (n : Z) : engine text := ok_or (str_get t 0 n) Panic.

Definition apply_stop_sequences (t : text) (stops : list text) : engine (text * bool) :=
  match stop_sequence_start t stops with
  | None => Ok (t, false)
  | Some start => t ← truncate t start ; Ok (t, true)
  end.

Definition append_generated_utf8_piece (output piece : text) : engine text :=
  checked_generated_output_len (str_len output) (str_len piece) ;;
  Ok (output ++ piece).

(** ** Exact-token requests *)

Definition exact_generation_case_token_ids (c : GenerationCase) : option (list Z) :=
  match input c with
  | Completion [Tokens token_ids] => if bool_decide (token_ids = []) then None else Some token_ids
  | _ => None
  end.

Definition is_exact_token_generation_batch (r : GenerationBatchRequest) : bool :=
  negb (bool_decide (cases r = []))
  && forallb (λ c, bool_decide (is_Some (exact_generation_case_token_ids c))) (cases r).

Definition exact_batch_shared_prefix_tokens (r : GenerationBatchRequest) : option Z :=
  match exact_token_batch_cell_budget r with
  | Ok b => try_from usize_max (shared_uncached_prefix_tokens b)
  | Err _ => None
  end.

(** The admission is one of the two exact modes. *)
Definition is_statically_sealable_generation_batch (r : GenerationBatchRequest) (exact_admission : bool) : bool :=
  exact_admission && bool_decide (first_word_choices r = None) && bool_decide (media r = [])
  && is_exact_token_generation_batch r
  && forallb (λ c, bool_decide (cached_prefix c = None) && negb (seed (sampling c) =? u32_max)) (cases r).

(** ** The evidence *)

Record GenerationAuthorityCapture := {
  capture_terminals : list (option Z);
  capture_events : list GenerationEvent;
  token_piece_traces : list TokenPieceTrace;
}.

Record VerifiedGenerationEvidence := {
  evidence_request : GenerationBatchRequest;
  evidence_fingerprint : ModelFingerprint;
  evidence_terminals : list (option Z);
  evidence_events : list GenerationEvent;
  evidence_traces : list TokenPieceTrace;
}.

(** What was seen of each case in the retained events *)
Record Ledger := { next_event_indexes : list Z; terminal_states : list (option GenerationState); delta_text : list text }.

Section Tokenizer.
Context (is_eog : Z → bool) (generated_token_piece : Z → result string (list Z)).

Fixpoint validate_pieces (t : TokenPieceTrace) (token_ids boundaries : list Z) : engine unit :=
  match token_ids, boundaries with
  | token_id :: token_ids, start :: (end_ :: _) as boundaries' =>
    captured ← need (get_slice (raw_piece_bytes t) start end_)
      (generation_verification_error "token-piece boundary falls outside captured bytes") ;
    expected ← match generated_token_piece token_id with
               | Ok b => Ok b
               | Err m => Err (Fail (generation_verification_error m))
               end ;
    fail_if (negb (bool_decide (captured = expected)))
      (generation_verification_error "captured token-piece bytes disagree with the sampled token ID") ;;
    validate_pieces t token_ids boundaries'
  | _, _ => Ok tt
  end.

Definition validate_live_token_piece_trace (o : GenerationOutput) (t : TokenPieceTrace) : engine unit :=
  trace_validate t (len (generated_token_ids o)) ;;
  validate_pieces t (generated_token_ids o) (cumulative_boundaries t).

Definition strict_verified_utf8_bytes (bytes : list Z) : engine text :=
  need (from_utf8 bytes) (generation_verification_error "generated token pieces are not complete canonical UTF-8").

(** One retained event *)
Definition check_event (r : GenerationBatchRequest) (l : Ledger) (e : GenerationEvent) : engine Ledger :=
  let i := Z.to_nat (event_input_index e) in
  case ← need (cases r !! i) (generation_verification_error "retained event input index is outside the submitted batch") ;
  expected_sequence_id ← need (try_from (2 ^ 31 - 1) (event_input_index e))
    (generation_verification_error "retained event input index does not fit sequence ID") ;
  fail_if (negb (bool_decide (event_request_id e = request_id r)) || negb (bool_decide (event_branch_id e = case_id case))
           || negb (event_sequence_id e =? expected_sequence_id))
    (generation_verification_error "retained event request, case, or sequence identity disagrees") ;;
  expected_event_index ← ok_or (next_event_indexes l !! i) Panic ;
  fail_if (negb (event_index e =? expected_event_index))
    (generation_verification_error "retained event indexes are not contiguous per case") ;;
  terminal ← ok_or (terminal_states l !! i) Panic ;
  fail_if (bool_decide (is_Some terminal))
    (generation_verification_error "retained ledger contains an event after a case terminal") ;;
  delta ← ok_or (delta_text l !! i) Panic ;
  '(terminal, delta) ←
    (match event e with
     | StateEvent SPrefilling =>
       if event_index e =? 0 then Ok (terminal, delta) else Err (Fail (generation_verification_error "retained ledger contains an impossible generation event transition"))
     | StateEvent SGenerating =>
       if event_index e =? 1 then Ok (terminal, delta) else Err (Fail (generation_verification_error "retained ledger contains an impossible generation event transition"))
     | StateEvent s =>
       if (2 <=? event_index e) && (bool_decide (s = SCompleted) || bool_decide (s = SCancelled)) then Ok (Some s, delta)
       else Err (Fail (generation_verification_error "retained ledger contains an impossible generation event transition"))
     | Delta t =>
       if (2 <=? event_index e) && negb (bool_decide (t = [])) then Ok (terminal, delta ++ t)
       else Err (Fail (generation_verification_error "retained ledger contains an impossible generation event transition"))
     | Warning _ _ => Err (Fail (generation_verification_error "retained ledger contains an impossible generation event transition"))
     end) ;
  next ← need (checked_add u64_max expected_event_index 1) (generation_verification_error "retained event index overflowed") ;
  Ok {| next_event_indexes := <[i := next]> (next_event_indexes l);
        terminal_states := <[i := terminal]> (terminal_states l); delta_text := <[i := delta]> (delta_text l) |}.

Fixpoint check_events (r : GenerationBatchRequest) (l : Ledger) (events : list GenerationEvent) : engine Ledger :=
  match events with
  | [] => Ok l
  | e :: events => l ← check_event r l e ; check_events r l events
  end.

(** The last [match]: the text, the stop condition, the state and the reason agree. *)
Definition reason_agrees (c : GenerationCase) (o : GenerationOutput) (terminal : option Z) (decoded : text) : engine bool :=
  let reason := finish_reason o in
  match out_state o with
  | SCancelled => Ok (bool_decide (reason = "cancelled"%string) && bool_decide (terminal = None) && bool_decide (out_text o = decoded))
  | SCompleted =>
    if bool_decide (reason = "end_of_generation"%string) then
      Ok (match terminal with Some t => is_eog t | None => false end && bool_decide (out_text o = decoded))
    else if bool_decide (reason = "max_tokens"%string) then
      Ok (bool_decide (terminal = None) && bool_decide (out_text o = decoded)
          && (len (generated_token_ids o) =? max_tokens c))
    else if bool_decide (reason = "stop_sequence"%string) && bool_decide (terminal = None) then
      match stop_sequence_start decoded (stop (sampling c)) with
      | Some start => t ← truncate decoded start ; Ok (bool_decide (out_text o = t))
      | None => Ok false
      end
    else Ok false
  | _ => Ok false
  end.

Definition check_output (r : GenerationBatchRequest) (l : Ledger) (expected_shared_prefix index : Z) (c : GenerationCase)
    (o : GenerationOutput) (terminal : option Z) (decoded : text) : engine unit :=
  prompt_token_ids ← need (exact_generation_case_token_ids c)
    (generation_verification_error "verified case lost its exact token prompt") ;
  fail_if (negb (bool_decide (out_request_id o = request_id r)) || negb (bool_decide (out_model_id o = model_id r))
           || negb (bool_decide (out_branch_id o = case_id c)) || negb (out_input_index o =? index))
    (generation_verification_error "ordered output identity disagrees with the submitted request") ;;
  fail_if (negb (real_engine_invoked o) || fake_fixture o || negb (bool_decide (transport o = InProcess)))
    (generation_verification_error "verified output lacks real in-process engine evidence") ;;
  fail_if (negb (len (generated_token_ids o) =? completion_tokens (metrics o)))
    (generation_verification_error "generated token evidence disagrees with completion metrics") ;;
  fail_if (negb (metric_prompt_tokens (metrics o) =? len prompt_token_ids)
           || (max_tokens c <? len (generated_token_ids o))
           || negb (shared_prefix_tokens (metrics o) =? expected_shared_prefix)
           || negb (supplied_prefix_tokens (cache (metrics o)) =? 0)
           || negb (restored_prefix_tokens (cache (metrics o)) =? 0)
           || negb (replayed_prefix_tokens (cache (metrics o)) =? 0)
           || negb (batch_shared_prefix_tokens (cache (metrics o)) =? expected_shared_prefix))
    (generation_verification_error "output prompt, generation, or uncached-prefix metrics disagree") ;;
  fail_if (existsb is_eog (generated_token_ids o))
    (generation_verification_error "generated prose token evidence contains an unseparated EOG token") ;;
  terminal_state ← ok_or (terminal_states l !! Z.to_nat index) Panic ;
  fail_if (negb (bool_decide (out_state o = SCompleted) || bool_decide (out_state o = SCancelled))
           || negb (bool_decide (terminal_state = Some (out_state o))))
    (generation_verification_error "output and retained terminal states disagree") ;;
  delta ← ok_or (delta_text l !! Z.to_nat index) Panic ;
  fail_if (negb (bool_decide (delta = decoded)))
    (generation_verification_error "retained delta text disagrees with the exact generated token IDs") ;;
  agrees ← reason_agrees c o terminal decoded ;
  fail_if (negb agrees) (generation_verification_error "output text, stop condition, state, and finish reason disagree").

Fixpoint check_outputs (r : GenerationBatchRequest) (l : Ledger) (expected_shared_prefix index : Z) (cs : list GenerationCase)
    (os : list GenerationOutput) (terminals : list (option Z)) (decoded : list text) : engine unit :=
  match cs, os with
  | c :: cs, o :: os =>
    match terminals, decoded with
    | t :: terminals, d :: decoded =>
      check_output r l expected_shared_prefix index c o t d ;;
      check_outputs r l expected_shared_prefix (index + 1) cs os terminals decoded
    | _, _ => Err Panic
    end
  | _, _ => Ok tt
  end.

Definition validate_verified_generation_batch (r : GenerationBatchRequest) (fingerprint : ModelFingerprint)
    (outputs : list GenerationOutput) (terminals : list (option Z)) (events : list GenerationEvent) (decoded : list text) :
    engine unit :=
  fail_if (negb (is_exact_token_generation_batch r))
    (generation_verification_error "only exact-token completion batches can receive owner-worker authority") ;;
  fail_if (existsb (λ c, bool_decide (is_Some (cached_prefix c))) (cases r))
    (generation_verification_error "caller-supplied cached state cannot receive owner-worker authority") ;;
  fail_if (existsb (λ c, seed (sampling c) =? u32_max) (cases r))
    (generation_verification_error "the random default-seed sentinel cannot receive owner-worker authority") ;;
  fail_if (negb (bool_decide (model_id r = fingerprint_model_id fingerprint)))
    (generation_verification_error "request and live model fingerprint IDs disagree") ;;
  fail_if (negb (len outputs =? len (cases r)) || negb (len decoded =? len outputs) || negb (len terminals =? len outputs))
    (generation_verification_error "verified output count does not match the exact submitted batch") ;;
  expected_shared_prefix ← need (exact_batch_shared_prefix_tokens r)
    (generation_verification_error "failed to derive exact batch prefix metrics") ;
  let n := length (cases r) in
  l ← check_events r {| next_event_indexes := replicate n 0; terminal_states := replicate n None; delta_text := replicate n [] |} events ;
  check_outputs r l expected_shared_prefix 0 (cases r) outputs terminals decoded.

(** The texts of the outputs, decoded from their traces *)
Fixpoint decoded_texts (outputs : list GenerationOutput) (traces : list TokenPieceTrace) : engine (list text) :=
  match outputs, traces with
  | o :: outputs, t :: traces =>
    validate_live_token_piece_trace o t ;;
    d ← strict_verified_utf8_bytes (raw_piece_bytes t) ;
    ds ← decoded_texts outputs traces ;
    Ok (d :: ds)
  | _, _ => Ok []
  end.

(** [artifacts]: what [verify_strict_unchanged] said *)
Definition verify_generation_batch_authority (artifacts : result EngineError unit) (r : GenerationBatchRequest)
    (fingerprint : ModelFingerprint) (outputs : list GenerationOutput) (capture : GenerationAuthorityCapture) :
    engine VerifiedGenerationEvidence :=
  fail_if (negb (len (token_piece_traces capture) =? len outputs))
    (generation_verification_error "token-piece trace count does not match the generated outputs") ;;
  decoded ← decoded_texts outputs (token_piece_traces capture) ;
  validate_verified_generation_batch r fingerprint outputs (capture_terminals capture) (capture_events capture) decoded ;;
  match artifacts with Ok u => Ok u | Err e => Err (Fail e) end ;;
  Ok {| evidence_request := r; evidence_fingerprint := fingerprint; evidence_terminals := capture_terminals capture;
        evidence_events := capture_events capture; evidence_traces := token_piece_traces capture |}.
End Tokenizer.

(** ** Stop sequences *)

Module StopSequences.

(** A stop sequence, not the empty one, starts at scalar [i]. *)
Definition stop_at (t : text) (stops : list text) (i : nat) : Prop := ∃ s, s ∈ stops ∧ s ≠ [] ∧ s `prefix_of` drop i t.
Definition first_stop (t : text) (stops : list text) (i : nat) : Prop := stop_at t stops i ∧ ∀ j, (j < i)%nat → ¬ stop_at t stops j.

Lemma stop_at_le t stops i : stop_at t stops i → (i ≤ length t)%nat.
Proof.
  intros (s & _ & Hs & [r Hr]). destruct (decide (i ≤ length t)%nat); [done|]. rewrite drop_ge in Hr by lia.
  symmetry in Hr. by apply app_eq_nil in Hr as [-> _].
Qed.

Lemma str_find_eq t p :
  str_find t p = if starts_with t p then Some 0 else match t with [] => None | c :: t => Z.add (len_utf8 c) <$> str_find t p end.
Proof. by destruct t. Qed.

(** [find] returns the offset of the first occurrence. *)
Lemma str_find_Some t p n :
  str_find t p = Some n → ∃ i, n = off t i ∧ p `prefix_of` drop i t ∧ ∀ j, (j < i)%nat → ¬ p `prefix_of` drop j t.
Proof.
  revert n. induction t as [|c t IH]; intros n Hn; rewrite str_find_eq in Hn;
    (destruct (starts_with _ p) eqn:Hs; [injection Hn as <-; apply starts_with_true in Hs; exists 0%nat; split_and!; [done|done|lia]|]);
    [done|].
  apply fmap_Some in Hn as (m & Hm & ->). destruct (IH _ Hm) as (i & -> & Hi & Hj). exists (S i).
  split_and!; [by rewrite off_cons|done|]. intros [|j] Hlt [r Hr]; [by apply (starts_with_false _ _ Hs r)|].
  apply (Hj j); [lia|by exists r].
Qed.
Lemma str_find_None t p i : str_find t p = None → ¬ p `prefix_of` drop i t.
Proof.
  revert i. induction t as [|c t IH]; intros i Hn; rewrite str_find_eq in Hn; (destruct (starts_with _ p) eqn:Hs; [done|]).
  - rewrite drop_nil. intros [r Hr]. by apply (starts_with_false _ _ Hs r).
  - destruct (str_find t p); [done|]. destruct i as [|i]; [|by apply IH]. intros [r Hr]. by apply (starts_with_false _ _ Hs r).
Qed.

Lemma iter_min_Some l m : iter_min l = Some m → m ∈ l ∧ Forall (λ x, m ≤ x) l.
Proof.
  destruct l as [|x l]; [done|]. intros [= <-]. revert x. induction l as [|y l IH]; intros x; simpl.
  { split; [by constructor|by repeat constructor]. }
  destruct (IH (Z.min x y)) as [H1 H2]. apply Forall_cons in H2 as [H2 H3]. split.
  - apply elem_of_cons in H1 as [->|H1]; [|by do 2 right]. destruct (Z.min_spec x y) as [[_ ->]|[_ ->]]; [by left|by right; left].
  - constructor; [lia|]. constructor; [lia|done].
Qed.
Lemma iter_min_None l : iter_min l = None → l = [].
Proof. by destruct l. Qed.

Lemma stop_start_Some t stops n : stop_sequence_start t stops = Some n → ∃ i, n = off t i ∧ first_stop t stops i.
Proof.
  intros [Hin Hmin]%iter_min_Some. rewrite Forall_forall in Hmin.
  apply list_elem_of_omap in Hin as (s & Hs%list_elem_of_In%filter_In & Hf). destruct Hs as [Hs%list_elem_of_In Hne].
  apply negb_true_iff, bool_decide_eq_false in Hne. destruct (str_find_Some _ _ _ Hf) as (i & -> & Hi & _).
  assert (stop_at t stops i) as Hat by by exists s.
  exists i. split; [done|]. split; [done|]. intros j Hj (s' & Hs' & Hne' & Hp').
  destruct (str_find t s') as [m|] eqn:Hm; [|by apply (str_find_None _ _ j Hm)].
  assert (off t i ≤ m) as Hle.
  { apply Hmin, list_elem_of_omap. exists s'. split; [|done]. apply list_elem_of_In, filter_In. rewrite <- list_elem_of_In.
    split; [done|]. by apply negb_true_iff, bool_decide_eq_false. }
  destruct (str_find_Some _ _ _ Hm) as (k & -> & Hk & Hfirst).
  assert (stop_at t stops k) as Hatk%stop_at_le by by exists s'.
  apply stop_at_le in Hat. destruct (decide (k ≤ j)%nat) as [Hkj|Hkj].
  - pose proof (off_lt t k i). lia.
  - by apply (Hfirst j); [lia|].
Qed.
Lemma stop_start_None t stops i : stop_sequence_start t stops = None → ¬ stop_at t stops i.
Proof.
  intros Hn%iter_min_None (s & Hs & Hne & Hp). destruct (str_find t s) as [m|] eqn:Hm; [|by apply (str_find_None _ _ i Hm)].
  assert (m ∈ omap (str_find t) (List.filter (λ s, negb (bool_decide (s = []))) stops)) as Hin.
  { apply list_elem_of_omap. exists s. split; [|done]. apply list_elem_of_In, filter_In. rewrite <- list_elem_of_In.
    split; [done|]. by apply negb_true_iff, bool_decide_eq_false. }
  unfold stop_sequence_start in *. rewrite Hn in Hin. by apply elem_of_nil in Hin.
Qed.

Lemma truncate_off t i : (i ≤ length t)%nat → truncate t (off t i) = Ok (take i t).
Proof.
  intros Hi. unfold truncate. change 0 with (off t 0). rewrite str_get_off by lia. by rewrite span_from_start.
Qed.

(** The text is cut in front of its first stop sequence; the call does not fail. *)
Lemma apply_stop_exact t stops :
  (∃ i, first_stop t stops i ∧ apply_stop_sequences t stops = Ok (take i t, true)) ∨
  ((∀ i, ¬ stop_at t stops i) ∧ apply_stop_sequences t stops = Ok (t, false)).
Proof.
  unfold apply_stop_sequences. destruct (stop_sequence_start t stops) as [n|] eqn:Hs.
  - apply stop_start_Some in Hs as (i & -> & Hi). left. exists i. split; [done|].
    rewrite truncate_off; [done|]. destruct Hi as [Hi%stop_at_le _]. done.
  - right. split; [|done]. intros i. by apply stop_start_None.
Qed.
End StopSequences.

(** ** What a certified batch is *)

Module Authority.
Import StopSequences.
Section Authority.
Context (is_eog : Z → bool) (generated_token_piece : Z → result string (list Z)).

(** The text of the retained deltas of case [i] *)
Definition delta_of (i : nat) (e : GenerationEvent) : text :=
  match event e with Delta t => if bool_decide (Z.to_nat (event_input_index e) = i) then t else [] | _ => [] end.
Definition deltas (i : nat) (es : list GenerationEvent) : text := concat (delta_of i <$> es).

(** Why and with which text a generation ended, if [d] is the text of its tokens *)
Inductive ended (c : GenerationCase) (o : GenerationOutput) (terminal : option Z) (d : text) : Prop :=
| ended_cancelled : out_state o = SCancelled → finish_reason o = "cancelled"%string → terminal = None → out_text o = d → ended c o terminal d
| ended_eog t : out_state o = SCompleted → finish_reason o = "end_of_generation"%string → terminal = Some t → is_eog t = true →
    out_text o = d → ended c o terminal d
| ended_length : out_state o = SCompleted → finish_reason o = "max_tokens"%string → terminal = None → out_text o = d →
    len (generated_token_ids o) = max_tokens c → ended c o terminal d
| ended_stop i : out_state o = SCompleted → finish_reason o = "stop_sequence"%string → terminal = None →
    first_stop d (stop (sampling c)) i → out_text o = take i d → ended c o terminal d.

(** The output of one case: its tokens are what was traced, its text is theirs. *)
Definition certified (r : GenerationBatchRequest) (es : list GenerationEvent) (i : nat) (c : GenerationCase) (o : GenerationOutput)
    (terminal : option Z) (tr : TokenPieceTrace) : Prop :=
  ∃ prompt pieces d,
    exact_generation_case_token_ids c = Some prompt ∧ metric_prompt_tokens (metrics o) = len prompt ∧
    out_request_id o = request_id r ∧ out_model_id o = model_id r ∧ out_branch_id o = case_id c ∧ out_input_index o = Z.of_nat i ∧
    mapM generated_token_piece (generated_token_ids o) = Ok pieces ∧ raw_piece_bytes tr = concat pieces ∧
    from_utf8 (concat pieces) = Some d ∧ deltas i es = d ∧
    Forall (λ t, is_eog t = false) (generated_token_ids o) ∧
    completion_tokens (metrics o) = len (generated_token_ids o) ∧ len (generated_token_ids o) ≤ max_tokens c ∧
    ended c o terminal d.

(** *** Traces *)

Lemma validate_pieces_returns t ids bs : returns_with (λ _, True) (validate_pieces generated_token_piece t ids bs).
Proof.
  revert bs. induction ids as [|i ids IH]; intros [|b [|b' bs]]; simpl; try done.
  parse_step. destruct (generated_token_piece i); simpl; [|done]. parse_step. apply IH.
Qed.

Lemma validate_pieces_Ok t ids b bs e :
  validate_pieces generated_token_piece t ids (b :: bs) = Ok tt → length ids = length bs → 0 ≤ b → last (b :: bs) = Some e →
  b ≤ e ∧ ∃ pieces, mapM generated_token_piece ids = Ok pieces ∧ sub_list (raw_piece_bytes t) b e = concat pieces.
Proof.
  revert b bs. induction ids as [|i ids IH]; intros b [|b' bs] Hv Hl Hb He; simpl in Hl; try done.
  { injection He as ->. split; [done|]. exists []. split; [done|by apply sub_list_nil]. }
  cbn [validate_pieces] in Hv. apply bind_Ok in Hv as (captured & Hc%need_Ok & Hv).
  apply get_slice_Some in Hc as [Hbb ->]. apply bind_Ok in Hv as (piece & Hp & ([] & Hf & Hv)%bind_Ok).
  destruct (generated_token_piece i) as [p|] eqn:Hgp; [|done]. injection Hp as <-.
  apply fail_if_Ok in Hf. bool_prop. injection Hl as Hl. rewrite last_cons_cons in He.
  destruct (IH b' bs Hv Hl ltac:(lia) He) as (Hle & pieces & Hm & Hs). split; [lia|]. exists (p :: pieces). split.
  - apply mapM_Ok. constructor; [done|]. by apply mapM_Ok.
  - simpl. rewrite (sub_list_split _ b b' e), Hs by lia. by f_equal.
Qed.

Lemma trace_Ok o t :
  validate_live_token_piece_trace generated_token_piece o t = Ok tt →
  ∃ pieces, mapM generated_token_piece (generated_token_ids o) = Ok pieces ∧ raw_piece_bytes t = concat pieces.
Proof.
  intros ([] & Ht & Hv)%bind_Ok. unfold trace_validate in Ht. apply bind_Ok in Ht as (n & Hn%need_Ok & Hf%fail_if_Ok).
  apply checked_add_Some in Hn as [-> _]. bool_prop. destruct (cumulative_boundaries t) as [|b bs] eqn:Hb; [done|].
  simplify_eq/=. rewrite len_cons in *. destruct (last (0 :: bs)) as [e|] eqn:He; [|by apply last_None in He].
  destruct (validate_pieces_Ok t (generated_token_ids o) 0 bs e Hv ltac:(unfold len in *; lia) ltac:(lia) He) as (_ & pieces & Hm & Hs).
  exists pieces. split; [done|]. symmetry in H0. apply try_from_Some in H0 as [-> _]. by rewrite sub_list_all in Hs.
Qed.

Lemma trace_returns o t : returns_with (λ _, True) (validate_live_token_piece_trace generated_token_piece o t).
Proof.
  unfold validate_live_token_piece_trace, trace_validate. eapply (returns_with_bind (λ _, True)); [|intros _ _; apply validate_pieces_returns].
  parse_step. by eapply returns_with_mono; [|apply fail_if_returns].
Qed.

(** *** The ledger of retained events *)

Definition ledger_of (n : nat) (es : list GenerationEvent) (l : Ledger) : Prop :=
  length (next_event_indexes l) = n ∧ length (terminal_states l) = n ∧ length (delta_text l) = n ∧
  ∀ i d, delta_text l !! i = Some d → d = deltas i es.

Lemma deltas_app i es es' : deltas i (es ++ es') = deltas i es ++ deltas i es'.
Proof. unfold deltas. by rewrite fmap_app, concat_app. Qed.

Lemma check_event_ledger r n es l e :
  length (cases r) = n → ledger_of n es l → returns_with (ledger_of n (es ++ [e])) (check_event r l e).
Proof.
  intros Hn (H1 & H2 & H3 & Hd). unfold check_event.
  eapply returns_with_bind; [apply need_returns|]. intros c Hc. pose proof (lookup_lt_Some _ _ _ Hc) as Hi. rewrite Hn in Hi.
  parse_step. parse_step. set (i := Z.to_nat (event_input_index e)) in *.
  destruct (lookup_lt_is_Some_2 (next_event_indexes l) i ltac:(lia)) as [n' Hn']. rewrite Hn'. simpl.
  eapply returns_with_bind; [apply fail_if_returns|]. intros _ _.
  destruct (lookup_lt_is_Some_2 (terminal_states l) i ltac:(lia)) as [t Ht]. rewrite Ht. simpl.
  eapply returns_with_bind; [apply fail_if_returns|]. intros _ _.
  destruct (lookup_lt_is_Some_2 (delta_text l) i ltac:(lia)) as [d Hd']. rewrite Hd'. simpl.
  eapply (returns_with_bind (λ p, p.2 = d ++ delta_of i e)).
  { unfold delta_of. rewrite bool_decide_true by done.
    destruct (event e) as [[]|txt|]; repeat case_match; simplify_eq/=; rewrite ?app_nil_r; done. }
  intros [t' d'] Hd''. simpl in Hd''. subst d'. parse_step. apply Ok_returns. unfold ledger_of.
  cbn [next_event_indexes terminal_states delta_text]. rewrite !length_insert. split_and!; [done..|].
  intros j dj Hj. rewrite deltas_app. unfold deltas at 2. simpl. rewrite app_nil_r.
  apply list_lookup_insert_Some in Hj as [(<- & <- & _)|[Hne Hj]].
  - by rewrite (Hd _ _ Hd').
  - rewrite (Hd _ _ Hj). unfold delta_of. case_match; rewrite ?bool_decide_false by done; by rewrite app_nil_r.
Qed.

Lemma check_events_ledger r n es es' l :
  length (cases r) = n → ledger_of n es l → returns_with (ledger_of n (es ++ es')) (check_events r l es').
Proof.
  intros Hn. revert es l. induction es' as [|e es' IH]; intros es l Hl; simpl; [by rewrite app_nil_r|].
  eapply returns_with_bind; [by apply check_event_ledger|]. intros l' Hl'. rewrite (cons_middle e es es'), app_assoc. by apply IH.
Qed.

(** *** One output *)

Lemma reason_agrees_returns c o t d : returns_with (λ b, b = true → ended c o t d) (reason_agrees is_eog c o t d).
Proof.
  unfold reason_agrees. destruct (out_state o) eqn:Ho; try done.
  - destruct (bool_decide _) eqn:E1; bool_prop.
    { simpl. intros Hb. bool_prop. destruct t as [t|]; [|done]. bool_prop. by eapply ended_eog. }
    destruct (bool_decide (finish_reason o = "max_tokens"%string)) eqn:E2; bool_prop.
    { simpl. intros Hb. bool_prop. by apply ended_length. }
    destruct (bool_decide _ && _) eqn:E3; [|done]. bool_prop.
    destruct (stop_sequence_start d _) as [n|] eqn:Hs; [|done]. apply stop_start_Some in Hs as (i & -> & Hi).
    rewrite truncate_off by (by destruct Hi as [Hi%stop_at_le _]). simpl. intros Hb. bool_prop. by eapply ended_stop.
  - simpl. intros Hb. bool_prop. by apply ended_cancelled.
Qed.
(** What the checks of one output establish *)
Definition checked (r : GenerationBatchRequest) (es : list GenerationEvent) (i : nat) (c : GenerationCase) (o : GenerationOutput)
    (terminal : option Z) (d : text) : Prop :=
  ∃ prompt,
    exact_generation_case_token_ids c = Some prompt ∧ metric_prompt_tokens (metrics o) = len prompt ∧
    out_request_id o = request_id r ∧ out_model_id o = model_id r ∧ out_branch_id o = case_id c ∧ out_input_index o = Z.of_nat i ∧
    deltas i es = d ∧ Forall (λ t, is_eog t = false) (generated_token_ids o) ∧
    completion_tokens (metrics o) = len (generated_token_ids o) ∧ len (generated_token_ids o) ≤ max_tokens c ∧
    ended c o terminal d.

Lemma existsb_false {A} (f : A → bool) l : existsb f l = false → Forall (λ x, f x = false) l.
Proof. induction l as [|x l IH]; simpl; [done|]. intros [Hx Hl]%orb_false_iff. constructor; auto. Qed.

Lemma check_output_returns r es n l p i c o t d :
  ledger_of n es l → (i < n)%nat → returns_with (λ _, checked r es i c o t d) (check_output is_eog r l p (Z.of_nat i) c o t d).
Proof.
  intros (H1 & H2 & H3 & Hd) Hi. unfold check_output. rewrite Nat2Z.id.
  do 6 parse_step. destruct (lookup_lt_is_Some_2 (terminal_states l) i ltac:(lia)) as [st Hst]. rewrite Hst. simpl. parse_step.
  destruct (lookup_lt_is_Some_2 (delta_text l) i ltac:(lia)) as [d' Hd']. rewrite Hd'. simpl. parse_step.
  eapply returns_with_bind; [apply reason_agrees_returns|]. intros b Hb.
  eapply returns_with_mono; [|apply fail_if_returns]. intros ? Hagree. simpl in Hagree. bool_prop.
  eexists. split; [eassumption|]. split_and!; try done; try lia.
  - simplify_eq. symmetry. by apply Hd.
  - by apply existsb_false.
  - by apply Hb.
Qed.

Lemma check_outputs_returns r es n l p i cs os ts ds :
  ledger_of n es l → (i + length cs = n)%nat → length os = length cs → length ts = length cs → length ds = length cs →
  returns_with (λ _, ∀ j c o t d, cs !! j = Some c → os !! j = Some o → ts !! j = Some t → ds !! j = Some d →
    checked r es (i + j) c o t d) (check_outputs is_eog r l p (Z.of_nat i) cs os ts ds).
Proof.
  intros Hl. revert i os ts ds. induction cs as [|c cs IH]; intros i [|o os] [|t ts] [|d ds] Hi Ho Ht Hd; simpl in Hi, Ho, Ht, Hd; try done.
  simpl. eapply returns_with_bind; [apply (check_output_returns _ es n); [done|lia]|]. intros ? Hc.
  replace (Z.of_nat i + 1) with (Z.of_nat (S i)) by lia.
  eapply returns_with_mono; [|apply (IH (S i)); lia]. intros ? Hall [|j] c' o' t' d' Hc' Ho' Ht' Hd'; simplify_eq/=.
  - by rewrite Nat.add_0_r.
  - rewrite Nat.add_succ_r. by apply (Hall j).
Qed.

Lemma decoded_texts_returns os trs :
  length trs = length os →
  returns_with (λ ds, length ds = length os ∧ ∀ j o tr d, os !! j = Some o → trs !! j = Some tr → ds !! j = Some d →
    ∃ pieces, mapM generated_token_piece (generated_token_ids o) = Ok pieces ∧ raw_piece_bytes tr = concat pieces ∧
      from_utf8 (concat pieces) = Some d) (decoded_texts generated_token_piece os trs).
Proof.
  revert trs. induction os as [|o os IH]; intros [|tr trs] Hl; simpl in Hl; try done. simpl.
  eapply (returns_with_bind (λ _, validate_live_token_piece_trace generated_token_piece o tr = Ok tt)).
  { pose proof (trace_returns o tr) as Hr. destruct (validate_live_token_piece_trace _ o tr) as [[]|]; done. }
  intros ? Htr. unfold strict_verified_utf8_bytes. parse_step.
  eapply returns_with_bind; [apply IH; lia|]. intros ds [Hlen Hall]. simpl. split; [lia|].
  intros [|j] o' tr' d' Ho' Htr' Hd'; simplify_eq/=; [|by eapply Hall].
  apply trace_Ok in Htr as (pieces & Hm & Hraw). exists pieces. by rewrite <- Hraw.
Qed.

(** C16: The verification of a batch never panics; it returns evidence or an error, and
    evidence only where each output is the one that its own tokens, token pieces, text
    deltas and finish reason spell, for the model and the request it names. *)
Theorem authority_certifies artifacts r fp os cap :
  returns_with (λ ev,
    length os = length (cases r) ∧ model_id r = fingerprint_model_id fp ∧ artifacts = Ok tt ∧
    ev = {| evidence_request := r; evidence_fingerprint := fp; evidence_terminals := capture_terminals cap;
            evidence_events := capture_events cap; evidence_traces := token_piece_traces cap |} ∧
    ∀ i c o, cases r !! i = Some c → os !! i = Some o →
      seed (sampling c) ≠ u32_max ∧ cached_prefix c = None ∧
      ∃ t tr, capture_terminals cap !! i = Some t ∧ token_piece_traces cap !! i = Some tr ∧
        certified r (capture_events cap) i c o t tr)
    (verify_generation_batch_authority is_eog generated_token_piece artifacts r fp os cap).
Proof.
  unfold verify_generation_batch_authority. parse_step.
  eapply returns_with_bind; [apply decoded_texts_returns; unfold len in *; lia|]. intros ds [Hds Hdec].
  unfold validate_verified_generation_batch.
  eapply (returns_with_bind (λ _, length os = length (cases r) ∧ model_id r = fingerprint_model_id fp ∧
    length (capture_terminals cap) = length (cases r) ∧
    existsb (λ c, bool_decide (is_Some (cached_prefix c))) (cases r) = false ∧
    existsb (λ c, seed (sampling c) =? u32_max) (cases r) = false ∧
    ∀ j c o t d, cases r !! j = Some c → os !! j = Some o → capture_terminals cap !! j = Some t → ds !! j = Some d →
      checked r (capture_events cap) j c o t d)).
  { do 6 parse_step.
    eapply returns_with_bind; [apply (check_events_ledger r (length (cases r)) []); [done|]|].
    - unfold ledger_of. simpl. rewrite !length_replicate. split_and!; [done..|]. intros i d Hd.
      by apply lookup_replicate in Hd as [-> _].
    - intros l Hl. simpl in Hl. eapply returns_with_mono; [|apply (check_outputs_returns r (capture_events cap) (length (cases r)) l _ 0); [exact Hl|unfold len in *; lia..]].
      intros ? Hall. split_and!; [unfold len in *; lia|done|unfold len in *; lia|done|done|exact Hall]. }
  intros ? (Hlen & Hmodel & Hterm & Hcached & Hseed & Hall).
  destruct artifacts as [[]|e]; simpl; [|done]. split_and!; [done..|]. intros i c o Hc Ho.
  pose proof (lookup_lt_Some _ _ _ Hc) as Hi.
  destruct (lookup_lt_is_Some_2 (capture_terminals cap) i ltac:(lia)) as [t Ht].
  destruct (lookup_lt_is_Some_2 (token_piece_traces cap) i ltac:(unfold len in *; lia)) as [tr Htr].
  destruct (lookup_lt_is_Some_2 ds i ltac:(lia)) as [d Hd].
  pose proof (existsb_false _ _ Hcached) as Hca. pose proof (existsb_false _ _ Hseed) as Hse. rewrite Forall_forall in Hca, Hse.
  pose proof (list_elem_of_lookup_2 _ _ _ Hc) as Hin. specialize (Hca c Hin). specialize (Hse c Hin). bool_prop.
  split; [done|]. split; [by apply eq_None_not_Some|]. exists t, tr. split; [done|]. split; [done|].
  destruct (Hall i c o t d Hc Ho Ht Hd) as (prompt & Hchecked). destruct (Hdec i o tr d Ho Htr Hd) as (pieces & Hm & Hraw & Hu).
  exists prompt, pieces, d. naive_solver.
Qed.
End Authority.
End Authority.
