(* ===== verification/Cooperative.v ===== *)
(** * Cooperative: request sharing on the owner thread of a resident model

    Models [llama-native-engine/src/cooperative.rs]: one thread decodes up to eight
    independent requests together. [Exec] is the state of the thread: its pool of live
    sequences, the native context, and what it shares with the other threads (the
    request registry of NativeRegistry.v, the speculative lane, the command queue, the
    observers). Other threads act at every access to what is shared: [env n] is what they
    do in front of the [n]-th access. What the thread sends to its callers is recorded in
    [trail], in order; a full event channel may drop events there, which is not modelled.

    llama.cpp (the context, the tokenizer, the samplers) and the decoder of [encoding_rs]
    are the parameter [Llama]. The maps of the code are ordered by slot. *)

From S2P Require Import Prelude Bytes Text Utf8 OperationSpec NativeRegistry SpeculativeAdmission GenerationTypes GenerationEvidence.
Local Open Scope Z_scope.

Definition MAX_LIVE : Z := 8.
Definition PREFILL_QUANTUM : Z := 64.
Definition MAX_PROMPT_TOKENS : Z := 64 * 1024.
Definition MAX_OUTPUT_TOKENS : Z := 2048.
Definition MAX_OBSERVERS : Z := 2.
Definition OBSERVATION_CAPACITY : Z := 4096.

Definition internal (message : string) : EngineError := Raised Internal message.
Definition unsupported (message : string) : EngineError := Raised UnsupportedParameter message.
Definition cancelled : EngineError := Raised CodeCancelled "cooperative request cancelled".
Definition native_decode_error (what error : string) : EngineError := Raised DecodeFailed (what ++ ": " ++ error).

(** ** Observers of the decode calls *)

Record DecodeMember := {
  member_request_id : string;
  member_case_id : string;
  physical_sequence : Z;
  prefill_tokens : Z;
  decode_tokens : Z;
}.
Record DecodeSample := { sample_ordinal : Z; members : list DecodeMember }.

(** A subscriber and its observer share a bounded channel; [dropped] is the state of the
    observer, which the hub holds weakly: it is gone once the observer is dropped. *)
Record Subscriber := { channel : list DecodeSample; dropped_samples : Z; observed : bool }.

Record Hub := { ordinal : Z; hub_closed : bool; subscribers : list Subscriber; hub_poisoned : bool }.

Definition deliver (s : DecodeSample) (x : Subscriber) : Subscriber :=
  if len (channel x) <? OBSERVATION_CAPACITY
  then {| channel := channel x ++ [s]; dropped_samples := dropped_samples x; observed := observed x |}
  else {| channel := channel x; dropped_samples := saturating_add u64_max (dropped_samples x) 1; observed := observed x |}.

(** [DecodeHub::publish], [subscribe] and the drop of [DecodeWorkerLifetime] *)
Definition publish_sample (ms : list DecodeMember) (h : Hub) : result EngineError unit * Hub :=
  if hub_poisoned h then (Err (internal "decode observer registry poisoned"), h)
  else match checked_add u64_max (ordinal h) 1 with
       | None => (Err (internal "native decode ordinal overflow"), h)
       | Some n =>
         (Ok tt, {| ordinal := n; hub_closed := hub_closed h;
                    subscribers := deliver {| sample_ordinal := n; members := ms |} <$> List.filter observed (subscribers h);
                    hub_poisoned := hub_poisoned h |})
       end.

Definition subscribe (h : Hub) : result EngineError unit * Hub :=
  if hub_poisoned h then (Err (internal "decode observer registry poisoned"), h)
  else if hub_closed h then (Err (Raised WorkerStopped "native decode observation owner stopped"), h)
  else
    let kept := List.filter observed (subscribers h) in
    if MAX_OBSERVERS <=? len kept
    then (Err (Raised QueueFull "native decode observers are full"),
          {| ordinal := ordinal h; hub_closed := hub_closed h; subscribers := kept; hub_poisoned := hub_poisoned h |})
    else (Ok tt, {| ordinal := ordinal h; hub_closed := hub_closed h;
                    subscribers := kept ++ [{| channel := []; dropped_samples := 0; observed := true |}];
                    hub_poisoned := hub_poisoned h |}).

Definition worker_lifetime_drop (h : Hub) : Hub :=
  {| ordinal := ordinal h; hub_closed := true; subscribers := []; hub_poisoned := hub_poisoned h |}.

(** ** Admission of a request *)

Definition validate_request (r : GenerationBatchRequest) : result EngineError unit :=
  match cases r with
  | [c] =>
    reject_if (bool_decide (is_Some (first_word_choices r)) || negb (bool_decide (media r = []))
               || bool_decide (is_Some (cached_prefix c)))
      (unsupported "cooperative generation does not accept media or caller KV caches") ;;
    reject_if (negb ((1 <=? max_tokens c) && (max_tokens c <=? MAX_OUTPUT_TOKENS)))
      (unsupported "cooperative output must be between 1 and 2048 tokens") ;;
    let bounded_input :=
      match input c with
      | Completion [Tokens token_ids] => negb (bool_decide (token_ids = [])) && (len token_ids <=? MAX_PROMPT_TOKENS)
      | _ => false
      end in
    reject_if (negb bounded_input)
      (unsupported "cooperative generation requires one nonempty exact-token prompt of at most 65536 tokens")
  | _ => Err (unsupported "cooperative generation requires exactly one independently owned case")
  end.

(** Geometry of the native streams *)
Record StreamLayout := { layout_cells : Z; slots : Z }.
Definition layout_new (cells sequences batch : Z) : StreamLayout :=
  {| layout_cells := cells; slots := Z.min (Z.min sequences batch) MAX_LIVE |}.

Definition vacant_slot (l : StreamLayout) (cells : Z) (occupied : Z → bool) : result EngineError (option Z) :=
  if (cells =? 0) || (layout_cells l <? cells) || (slots l =? 0)
  then Err (Raised PromptTooLarge "cooperative request exceeds its independent stream capacity")
  else Ok (List.find (λ slot, negb (occupied slot)) (seqZ 0 (slots l))).

(** A [GenerateBatch] command with the cooperative admission, or any other command. The
    ticket names its event and result channels. *)
Record BatchCommand := {
  ticket : nat;
  request : GenerationBatchRequest;
  cancellations : list flag;
  reasoning_forces : list flag;
  request_lease : loc;
}.
Inductive WorkerCommand := GenerateCooperative (c : BatchCommand) | OtherCommand (n : nat).

Record Job := { job_ticket : nat; job_request : GenerationBatchRequest; cancel : flag; reasoning_force : flag; lease : loc }.

(** [GenerationCompletion]: the outputs, and the evidence or why there is none *)
Record GenerationCompletion := { outputs : list GenerationOutput; authority : result EngineError VerifiedGenerationEvidence }.

(** What callers are sent; [Taken] marks the receipt of a command. *)
Inductive Effect :=
| Taken (c : BatchCommand)
| Emitted (t : nat) (e : GenerationEvent)
| Answered (t : nat) (r : result EngineError GenerationCompletion).

(** ** The native library *)

Record Row := { row_token : Z; row_position : Z; row_sequence : Z; row_logits : bool }.
Inductive CoderResult := InputEmpty | OutputFull.

Class Llama (C S D : Type) := {
  n_vocab : Z;
  is_eog_token : Z → bool;
  token_to_piece_bytes : Z → result string (list Z);
  context_decode : C → list Row → result string C;
  clear_kv_cache_seq : C → Z → result string (bool * C);
  clear_kv_cache : C → C;
  build_sampler : SamplingConfig → S;
  sampler_accept : S → Z → S;
  sampler_sample : S → C → Z → Z * S;
  new_decoder : D;
  max_utf8_buffer_length : D → Z → option Z;
  (** the result, the bytes read, the text written within the capacity *)
  decode_to_string : D → list Z → Z → bool → CoderResult * Z * text * D;
}.

Section Executor.
Context {C S D : Type} {L : Llama C S D}.

(** [decode_generated_utf8_piece], with fuel for its loop *)
Fixpoint decode_piece_loop (fuel : nat) (d : D) (remaining : list Z) (capacity : Z) (last : bool) (piece : text) :
    engine (text * D) :=
  match fuel with
  | O => Err OutOfFuel
  | Datatypes.S fuel =>
    let '(r, read, written, d) := decode_to_string d remaining capacity last in
    let piece := piece ++ written in
    remaining ← need (get_slice remaining read (len remaining))
      (Raised DecodeFailed "generated UTF-8 decoder consumed beyond its input") ;
    match r with
    | InputEmpty =>
      fail_if (negb (bool_decide (remaining = []))) (Raised DecodeFailed "generated UTF-8 decoder left unconsumed input") ;;
      Ok (piece, d)
    | OutputFull =>
      additional ← need (max_utf8_buffer_length d (len remaining))
        (Raised MemoryBudgetExceeded "generated UTF-8 decoder retry capacity overflowed") ;
      decode_piece_loop fuel d remaining (Z.max additional 1) last piece
    end
  end.
Definition decode_generated_utf8_piece (d : D) (bytes : list Z) (last : bool) : engine (text * D) :=
  capacity ← need (max_utf8_buffer_length d (len bytes))
    (Raised MemoryBudgetExceeded "generated UTF-8 decoder capacity overflowed") ;
  decode_piece_loop (Datatypes.S (length bytes)) d bytes capacity last [].

Definition finalize_generated_text (d : D) (t : text) (stopped : bool) : engine (text * text * D) :=
  '(piece, d) ← decode_generated_utf8_piece d [] true ;
  t ← (if stopped then Ok t else append_generated_utf8_piece t piece) ;
  Ok (piece, t, d).

(** [completion_prompt_tokens] of an exact prompt; other inputs do not pass
    [validate_request]. *)
Definition generation_case_tokens (c : GenerationCase) : engine (list Z) :=
  match input c with
  | Completion (Tokens token_ids :: _) =>
    fail_if (existsb (λ t, (t <? 0) || (n_vocab <=? t)) token_ids)
      (Raised InvalidConfig "completion prompt contains a token ID outside the vocabulary") ;;
    Ok token_ids
  | _ => Err (Fail (Raised UnsupportedPromptForm "not an exact-token prompt"))
  end.

Record Pending := { pending_job : Job; pending_tokens : list Z; pending_cells : Z }.

Definition prepare (job : Job) (maximum_cells : Z) : engine Pending :=
  match validate_request (job_request job) with Ok u => Ok u | Err e => Err (Fail e) end ;;
  case ← ok_or (head (cases (job_request job))) Panic ;
  tokens ← generation_case_tokens case ;
  cells ← need (checked_add usize_max (len tokens) (saturating_sub (max_tokens case) 1)) (internal "cooperative cell count overflow") ;
  fail_if (bool_decide (tokens = []) || (maximum_cells <? cells))
    (Raised PromptTooLarge "cooperative prompt and maximum growth exceed the resident context") ;;
  Ok {| pending_job := job; pending_tokens := tokens; pending_cells := cells |}.

(** ** The state of the thread *)

Record Sequence := {
  job : Job;
  prompt : list Z;
  prefilled : Z;
  next_position : Z;
  pending_token : option Z;
  sampler : S;
  decoder : D;
  generated_text : text;
  token_ids : list Z;
  trace : option TokenPieceTrace;
  events : option (list GenerationEvent);
  authority_error : option EngineError;
  terminal_token : option Z;
  finish : option string;
  generating : bool;
  next_event : Z;
  started : Z;
  first_token : option Z;
}.

(** What other threads can reach. [strict] is what reading the artifacts would say, [now]
    the clock in nanoseconds. *)
Record Shared := {
  registry : Registry;
  speculative : AdmissionState;
  hub : Hub;
  commands : list WorkerCommand;
  shutdown_requested : bool;
  strict : result EngineError unit;
  now : Z;
}.

Record Exec := {
  clock : nat;
  shared : Shared;
  context : C;
  deferred : list WorkerCommand;
  active_sequences : Z;
  live : gmap Z Sequence;
  pending : option Pending;
  prefill_cursor : Z;
  trail : list Effect;
}.

(** Assignments to the fields of a sequence *)
Definition place (position fed : Z) (p : option Z) (s : Sequence) : Sequence :=
  {| job := job s; prompt := prompt s; prefilled := fed; next_position := position; pending_token := p;
     sampler := sampler s; decoder := decoder s; generated_text := generated_text s; token_ids := token_ids s;
     trace := trace s; events := events s; authority_error := authority_error s;
     terminal_token := terminal_token s; finish := finish s; generating := generating s;
     next_event := next_event s; started := started s; first_token := first_token s |}.
Definition set_generating  (s : Sequence) : Sequence :=
  {| job := job s; prompt := prompt s; prefilled := prefilled s; next_position := next_position s;
     pending_token := pending_token s; sampler := sampler s; decoder := decoder s;
     generated_text := generated_text s; token_ids := token_ids s; trace := trace s; events := events s;
     authority_error := authority_error s; terminal_token := terminal_token s; finish := finish s;
     generating := true; next_event := next_event s; started := started s; first_token := first_token s |}.
Definition log_event (e : GenerationEvent) (s : Sequence) : Sequence :=
  {| job := job s; prompt := prompt s; prefilled := prefilled s; next_position := next_position s;
     pending_token := pending_token s; sampler := sampler s; decoder := decoder s;
     generated_text := generated_text s; token_ids := token_ids s; trace := trace s;
     events := (λ es, es ++ [e]) <$> events s; authority_error := authority_error s;
     terminal_token := terminal_token s; finish := finish s; generating := generating s;
     next_event := next_event s + 1; started := started s; first_token := first_token s |}.
Definition set_finish (reason : string) (t : option Z) (s : Sequence) : Sequence :=
  {| job := job s; prompt := prompt s; prefilled := prefilled s; next_position := next_position s;
     pending_token := pending_token s; sampler := sampler s; decoder := decoder s;
     generated_text := generated_text s; token_ids := token_ids s; trace := trace s; events := events s;
     authority_error := authority_error s; terminal_token := t; finish := Some reason; generating := generating s;
     next_event := next_event s; started := started s; first_token := first_token s |}.
Definition set_sampler (p : S) (s : Sequence) : Sequence :=
  {| job := job s; prompt := prompt s; prefilled := prefilled s; next_position := next_position s;
     pending_token := pending_token s; sampler := p; decoder := decoder s; generated_text := generated_text s;
     token_ids := token_ids s; trace := trace s; events := events s; authority_error := authority_error s;
     terminal_token := terminal_token s; finish := finish s; generating := generating s;
     next_event := next_event s; started := started s; first_token := first_token s |}.
Definition push_token (t : Z) (tr : option TokenPieceTrace) (d : D) (first : option Z) (s : Sequence) : Sequence :=
  {| job := job s; prompt := prompt s; prefilled := prefilled s; next_position := next_position s;
     pending_token := pending_token s; sampler := sampler s; decoder := d; generated_text := generated_text s;
     token_ids := token_ids s ++ [t]; trace := tr; events := events s; authority_error := authority_error s;
     terminal_token := terminal_token s; finish := finish s; generating := generating s;
     next_event := next_event s; started := started s; first_token := first |}.
Definition set_text (t : text) (s : Sequence) : Sequence :=
  {| job := job s; prompt := prompt s; prefilled := prefilled s; next_position := next_position s;
     pending_token := pending_token s; sampler := sampler s; decoder := decoder s; generated_text := t;
     token_ids := token_ids s; trace := trace s; events := events s; authority_error := authority_error s;
     terminal_token := terminal_token s; finish := finish s; generating := generating s;
     next_event := next_event s; started := started s; first_token := first_token s |}.

Notation Co := (SM Exec (fault EngineError)).

Definition set_world (n : nat) (s : Shared) (x : Exec) : Exec :=
  {| clock := n; shared := s; context := context x; deferred := deferred x; active_sequences := active_sequences x;
     live := live x; pending := pending x; prefill_cursor := prefill_cursor x; trail := trail x |}.
Definition set_context (c : C) (x : Exec) : Exec :=
  {| clock := clock x; shared := shared x; context := c; deferred := deferred x; active_sequences := active_sequences x;
     live := live x; pending := pending x; prefill_cursor := prefill_cursor x; trail := trail x |}.
Definition set_deferred (d : list WorkerCommand) (x : Exec) : Exec :=
  {| clock := clock x; shared := shared x; context := context x; deferred := d; active_sequences := active_sequences x;
     live := live x; pending := pending x; prefill_cursor := prefill_cursor x; trail := trail x |}.
Definition set_active_sequences (n : Z) (x : Exec) : Exec :=
  {| clock := clock x; shared := shared x; context := context x; deferred := deferred x; active_sequences := n;
     live := live x; pending := pending x; prefill_cursor := prefill_cursor x; trail := trail x |}.
Definition set_live (m : gmap Z Sequence) (x : Exec) : Exec :=
  {| clock := clock x; shared := shared x; context := context x; deferred := deferred x; active_sequences := active_sequences x;
     live := m; pending := pending x; prefill_cursor := prefill_cursor x; trail := trail x |}.
Definition set_pending (p : option Pending) (x : Exec) : Exec :=
  {| clock := clock x; shared := shared x; context := context x; deferred := deferred x; active_sequences := active_sequences x;
     live := live x; pending := p; prefill_cursor := prefill_cursor x; trail := trail x |}.
Definition set_prefill_cursor (n : Z) (x : Exec) : Exec :=
  {| clock := clock x; shared := shared x; context := context x; deferred := deferred x; active_sequences := active_sequences x;
     live := live x; pending := pending x; prefill_cursor := n; trail := trail x |}.
Definition record (e : Effect) (x : Exec) : Exec :=
  {| clock := clock x; shared := shared x; context := context x; deferred := deferred x; active_sequences := active_sequences x;
     live := live x; pending := pending x; prefill_cursor := prefill_cursor x; trail := trail x ++ [e] |}.

Definition with_registry (w : Registry) (s : Shared) : Shared :=
  {| registry := w; speculative := speculative s; hub := hub s; commands := commands s;
     shutdown_requested := shutdown_requested s; strict := strict s; now := now s |}.
Definition with_speculative (a : AdmissionState) (s : Shared) : Shared :=
  {| registry := registry s; speculative := a; hub := hub s; commands := commands s;
     shutdown_requested := shutdown_requested s; strict := strict s; now := now s |}.
Definition with_hub (h : Hub) (s : Shared) : Shared :=
  {| registry := registry s; speculative := speculative s; hub := h; commands := commands s;
     shutdown_requested := shutdown_requested s; strict := strict s; now := now s |}.
Definition with_commands (cs : list WorkerCommand) (s : Shared) : Shared :=
  {| registry := registry s; speculative := speculative s; hub := hub s; commands := cs;
     shutdown_requested := shutdown_requested s; strict := strict s; now := now s |}.

(** A loop over a list, the body in the monad *)
Fixpoint for_each {A} (f : A → Co unit) (l : list A) : Co unit :=
  match l with
  | [] => mret tt
  | a :: l => f a ;; for_each f l
  end.

Section Thread.
Context (env : nat → Shared → Shared).

(** ** Accesses to what is shared *)

Definition access {A} (f : Shared → A * Shared) : Co A := λ x,
  let '(a, s) := f (env (clock x) (shared x)) in (Ok a, set_world (Datatypes.S (clock x)) s x).

Definition read {A} (f : Shared → A) : Co A := access (λ s, (f s, s)).
Definition load (f : flag) : Co bool := read (λ s, bool_decide (f ∈ raised (registry s))).
Definition store (f : flag) : Co unit := access (λ s, (tt, with_registry (raise [f] (registry s)) s)).
Definition registry_call (m : SM Registry NativeRegistry.NativeError unit) : Co (result EngineError unit) :=
  access (λ s, let '(r, w) := m (registry s) in
    (match r with Ok u => Ok u | Err e => Err (OfRegistry e) end, with_registry w s)).
Definition drop_lease (n : loc) : Co unit := access (λ s, (tt, with_registry (abandon_if_current n (registry s)) s)).
Definition publish_members (ms : list DecodeMember) : Co unit :=
  r ← access (λ s, let '(r, h) := publish_sample ms (hub s) in (r, with_hub h s)) ;
  sm_lift (match r with Ok u => Ok u | Err e => Err (Fail e) end).

(** A fallible part whose error is a value: panics are not caught. *)
Definition attempt {A} (m : Co A) : Co (result EngineError A) := λ x,
  match m x with
  | (Ok a, x) => (Ok (Ok a), x)
  | (Err (Fail e), x) => (Ok (Err e), x)
  | (Err p, x) => (Err p, x)
  end.

(** ** Jobs *)

Definition job_event (j : Job) (index : Z) (k : GenerationEventKind) : engine GenerationEvent :=
  case ← ok_or (head (cases (job_request j))) Panic ;
  Ok {| event_request_id := request_id (job_request j); event_branch_id := case_id case; event_sequence_id := 0;
        event_input_index := 0; event_index := index; event := k |}.

Definition from_command (c : BatchCommand) : Co Job :=
  match cancellations c, reasoning_forces c with
  | [f], [g] => mret {| job_ticket := ticket c; job_request := request c; cancel := f; reasoning_force := g; lease := request_lease c |}
  | _, _ =>
    let error := internal "cooperative request lost its independent controls" in
    sm_modify (record (Answered (ticket c) (Err error))) ;;
    drop_lease (request_lease c) ;;
    sm_throw (Fail error)
  end.

(** [emit_cancelled_case_events] and [emit_failed_case_events] *)
Fixpoint emit_case_events (t : nat) (s : GenerationState) (r : GenerationBatchRequest) (index : Z) (cs : list GenerationCase) : Co unit :=
  match cs with
  | [] => mret tt
  | c :: cs =>
    sm_modify (record (Emitted t {| event_request_id := request_id r; event_branch_id := case_id c; event_sequence_id := index;
      event_input_index := index; event_index := u64_max; event := StateEvent s |})) ;;
    emit_case_events t s r (index + 1) cs
  end.

Definition result_class (r : result EngineError GenerationCompletion) : TerminalClass :=
  match r with
  | Ok c => if existsb (λ o, bool_decide (out_state o = SCancelled)) (outputs c) then Cancelled else Completed
  | Err e => if bool_decide (error_code e = CodeCancelled) then Cancelled else Failed
  end.

(** [Job::publish]; the lease is dropped with the job. *)
Definition publish (j : Job) (r : result EngineError GenerationCompletion) (queued_rejection : bool) : Co unit :=
  let terminal := result_class r in
  registry_call (if queued_rejection then reject_queued (lease j) terminal else finished (lease j) terminal) ;;
  match r with
  | Ok _ => mret tt
  | Err _ => emit_case_events (job_ticket j) (if bool_decide (terminal = Cancelled) then SCancelled else SFailed)
               (job_request j) 0 (cases (job_request j))
  end ;;
  sm_modify (record (Answered (job_ticket j) r)) ;;
  drop_lease (lease j).
Definition job_finish (j : Job) (r : result EngineError GenerationCompletion) : Co unit := publish j r false.

Definition reject (j : Job) (e : EngineError) : Co unit :=
  (if bool_decide (error_code e = CodeCancelled) then store (cancel j) else mret tt) ;;
  publish j (Err e) true.

(** [reject_queued_command] of a batch *)
Definition reject_queued_command (c : BatchCommand) : Co unit :=
  for_each store (cancellations c) ;;
  emit_case_events (ticket c) SCancelled (request c) 0 (cases (request c)) ;;
  registry_call (cancel_queued (request_lease c)) ;;
  sm_modify (record (Answered (ticket c) (Err (Raised CodeCancelled "native model shutdown cancelled an admitted queued command")))) ;;
  drop_lease (request_lease c).

(** ** Sequences *)

(** [Sequence::emit] *)
Definition emit (k : GenerationEventKind) (s : Sequence) : Co Sequence :=
  e ← sm_lift (job_event (job s) (next_event s) k) ;
  sm_modify (record (Emitted (job_ticket (job s)) e)) ;;
  mret (log_event e s).

(** [begin_generation_command] of a foreground command *)
Definition begin_generation_command (n : loc) : Co (result EngineError unit) :=
  r ← registry_call (NativeRegistry.start n) ;
  match r with
  | Err e => mret (Err e)
  | Ok _ =>
    access (λ s, (tt, with_speculative (observe_foreground_running (now s) (reservation_nonce (entry (registry s) n))
                                          (registry s) (speculative s)) s)) ;;
    mret (Ok tt)
  end.

(** [Sequence::start] *)
Definition start_sequence (p : Pending) : Co (result EngineError Sequence) :=
  let j := pending_job p in
  let tokens := pending_tokens p in
  r ← begin_generation_command (lease j) ;
  match r with
  | Err e => mret (Err e)
  | Ok _ =>
    authority_error ←
      (if is_statically_sealable_generation_batch (job_request j) true
       then s ← read strict ; mret (match s with Ok _ => None | Err e => Some e end)
       else mret (Some (unsupported "this cooperative request does not carry exact-token authority"))) ;
    let retain := bool_decide (authority_error = None) in
    case ← sm_lift (ok_or (head (cases (job_request j))) Panic) ;
    started ← read now ;
    s ← emit (StateEvent SPrefilling)
      {| job := j; prompt := tokens; prefilled := 0; next_position := 0; pending_token := None;
         sampler := foldl sampler_accept (build_sampler (sampling case)) tokens; decoder := new_decoder;
         generated_text := []; token_ids := []; trace := if retain then Some with_token_capacity else None;
         events := if retain then Some [] else None; authority_error := authority_error; terminal_token := None;
         finish := None; generating := false; next_event := 0; started := started; first_token := None |} ;
    mret (Ok s)
  end.

(** [started.elapsed().as_millis()] *)
Definition elapsed_ms (started : Z) : Co Z := n ← read now ; mret (saturating_sub n started / 1000000).

(** [Sequence::sample]: the sampled token is text *)
Definition accept_token (token : Z) (s : Sequence) : Co Sequence :=
  bytes ← sm_lift (match token_to_piece_bytes token with
                   | Ok b => Ok b
                   | Err m => Err (Fail (native_decode_error "cooperative token piece" m))
                   end) ;
  tr ← sm_lift (match trace s with Some t => t ← push_piece t bytes ; Ok (Some t) | None => Ok None end) ;
  '(piece, d) ← sm_lift (decode_generated_utf8_piece (decoder s) bytes false) ;
  first ← (match first_token s with Some t => mret (Some t) | None => ms ← elapsed_ms (started s) ; mret (Some ms) end) ;
  let s := push_token token tr d first s in
  t ← sm_lift (append_generated_utf8_piece (generated_text s) piece) ;
  s ← (if bool_decide (piece = []) then mret s else emit (Delta piece) s) ;
  case ← sm_lift (ok_or (head (cases (job_request (job s)))) Panic) ;
  '(t, stopped) ← sm_lift (apply_stop_sequences t (stop (sampling case))) ;
  let s := set_text t s in
  if stopped : bool then mret (set_finish "stop_sequence" (terminal_token s) s)
  else if max_tokens case <=? len (token_ids s) then mret (set_finish "max_tokens" (terminal_token s) s)
  else mret (place (next_position s) (prefilled s) (Some token) s).

(** [Sequence::sample] *)
Definition sample (row : Z) (s : Sequence) : Co Sequence :=
  s ← (if generating s then mret s else emit (StateEvent SGenerating) (set_generating s)) ;
  c ← load (cancel (job s)) ;
  if c : bool then mret (set_finish "cancelled" (terminal_token s) s)
  else
    x ← sm_get ;
    let '(token, p) := sampler_sample (sampler s) (context x) row in
    let s := set_sampler p s in
    if is_eog_token token then mret (set_finish "end_of_generation" (Some token) s)
    else accept_token token s.

(** [Sequence::completion]; the artifacts are read when the other evidence was checked,
    which no access separates from the reading here. *)
Definition completion (fingerprint : ModelFingerprint) (s : Sequence) : Co GenerationCompletion :=
  reason ← sm_lift (need (finish s) (internal "cooperative completion has no terminal")) ;
  if negb (generating s) then sm_throw (Fail cancelled)
  else
    '(piece, t, _) ← sm_lift (finalize_generated_text (decoder s) (generated_text s) (bool_decide (reason = "stop_sequence"%string))) ;
    s ← (if bool_decide (piece = []) then mret s else emit (Delta piece) s) ;
    let state := if bool_decide (reason = "cancelled"%string) then SCancelled else SCompleted in
    terminal ← sm_lift (job_event (job s) (next_event s) (StateEvent state)) ;
    let s := log_event terminal s in
    duration ← elapsed_ms (started s) ;
    case ← sm_lift (ok_or (head (cases (job_request (job s)))) Panic) ;
    let count := len (token_ids s) in
    let output :=
      {| out_request_id := request_id (job_request (job s)); out_branch_id := case_id case; out_input_index := 0;
         out_model_id := model_id (job_request (job s)); out_text := t; generated_token_ids := token_ids s; out_state := state;
         finish_reason := reason;
         metrics := {| metric_prompt_tokens := len (prompt s); completion_tokens := count; shared_prefix_tokens := 0;
                       duration_ms := duration; first_token_ms := first_token s;
                       tokens_per_second := if duration =? 0 then None else Some (count * 1000, duration);
                       cache := no_cache |};
         real_engine_invoked := true; fake_fixture := false; transport := InProcess |} in
    authority ←
      (match authority_error s with
       | Some e => mret (Err e)
       | None =>
         es ← sm_lift (need (events s) (internal "cooperative authority lost its events")) ;
         tr ← sm_lift (need (trace s) (internal "cooperative authority lost its token trace")) ;
         artifacts ← read strict ;
         match verify_generation_batch_authority is_eog_token token_to_piece_bytes artifacts (job_request (job s)) fingerprint [output]
                 {| capture_terminals := [terminal_token s]; capture_events := es; token_piece_traces := [tr] |} with
         | Ok e => mret (Ok e)
         | Err (Fail e) => mret (Err e)
         | Err p => sm_throw p
         end
       end) ;
    sm_modify (record (Emitted (job_ticket (job s)) terminal)) ;;
    mret {| outputs := [output]; authority := authority |}.

(** [Sequence::finish] and [Sequence::fail] *)
Definition finish_sequence (fingerprint : ModelFingerprint) (s : Sequence) : Co unit :=
  r ← attempt (completion fingerprint s) ;
  job_finish (job s) r.
Definition fail_sequence (s : Sequence) (e : EngineError) : Co unit := job_finish (job s) (Err e).

(** ** The pool *)

(** The slots of a map, in the order of a [BTreeMap] *)
Definition sorted_slots {A} (m : gmap Z A) : list Z := merge_sort Z.le (elements (dom m)).

Definition context_call {A} (f : C → result string (A * C)) (what : string) : Co A :=
  x ← sm_get ;
  match f (context x) with
  | Ok (a, c) => sm_modify (set_context c) ;; mret a
  | Err m => sm_throw (Fail (native_decode_error what m))
  end.
Definition decode_rows (rows : list Row) (what : string) : Co unit :=
  context_call (λ c, c ← context_decode c rows ; Ok (tt, c)) what.

Definition clear_slot (slot : Z) (used : bool) : Co unit :=
  if used then
    cleared ← context_call (λ c, clear_kv_cache_seq c slot) "cooperative sequence removal" ;
    if cleared : bool then mret tt
    else sm_throw (Fail (internal "native context refused cooperative sequence removal"))
  else mret tt.

(** The slots that [settle] ends: the flags are read in turn, a raised one hides the next. *)
Fixpoint ended_slots (l : list (Z * Sequence)) : Co (list Z) :=
  match l with
  | [] => mret []
  | (slot, s) :: l =>
    ended ← (if bool_decide (is_Some (finish s)) then mret true
             else c ← load (cancel (job s)) ; if c : bool then mret true else load (reasoning_force (job s))) ;
    rest ← ended_slots l ;
    mret (if ended : bool then slot :: rest else rest)
  end.

Definition live_list (m : gmap Z Sequence) : list (Z * Sequence) := omap (λ k, pair k <$> m !! k) (sorted_slots m).

Definition settle_slot (fingerprint : ModelFingerprint) (slot : Z) : Co unit :=
  x ← sm_get ;
  s ← sm_lift (need (live x !! slot) (internal "cooperative slot disappeared")) ;
  sm_modify (set_live (delete slot (live x))) ;;
  r ← attempt (clear_slot slot (negb (prefilled s =? 0))) ;
  match r with
  | Err e => fail_sequence s e ;; sm_throw (Fail e)
  | Ok _ =>
    force ← load (reasoning_force (job s)) ;
    if force : bool then
      fail_sequence s (unsupported "reasoning intervention is unsupported for an independently scheduled request")
    else
      c ← load (cancel (job s)) ;
      finish_sequence fingerprint (if c : bool then set_finish "cancelled" None s else s)
  end.

Definition settle (fingerprint : ModelFingerprint) : Co unit :=
  x ← sm_get ;
  terminal ← ended_slots (live_list (live x)) ;
  for_each (settle_slot fingerprint) terminal.

(** The batch of ready sequences: its rows, and their slots, members in order *)
Record Ready := { rows : list Row; owners : list Z; ready_members : list DecodeMember }.

Definition member (s : Sequence) (slot prefill decode : Z) : engine DecodeMember :=
  case ← ok_or (head (cases (job_request (job s)))) Panic ;
  Ok {| member_request_id := request_id (job_request (job s)); member_case_id := case_id case; physical_sequence := slot;
        prefill_tokens := prefill; decode_tokens := decode |}.

(** The first loop of [step]; [capacity] is that of the [LlamaBatch]. *)
Fixpoint ready_loop (capacity : Z) (l : list (Z * Sequence)) (b : Ready) : Co Ready :=
  match l with
  | [] => mret b
  | (slot, s) :: l =>
    let final_prompt := prefilled s + 1 =? len (prompt s) in
    match (if final_prompt then last (prompt s) else pending_token s) with
    | None => ready_loop capacity l b
    | Some token =>
      sm_lift (fail_if (capacity <? len (rows b) + 1) (native_decode_error "cooperative generation batch" "Insufficient Space")) ;;
      let s := place (next_position s + 1) (if final_prompt then prefilled s + 1 else prefilled s)
                 (if final_prompt then pending_token s else None) s in
      sm_modify (λ x, set_live (<[slot:=s]> (live x)) x) ;;
      m ← sm_lift (member s slot (if final_prompt then 1 else 0) (if final_prompt then 0 else 1)) ;
      ready_loop capacity l
        {| rows := rows b ++ [{| row_token := token; row_position := next_position s - 1; row_sequence := slot; row_logits := true |}];
           owners := owners b ++ [slot]; ready_members := ready_members b ++ [m] |}
    end
  end.

Fixpoint sample_loop (l : list Z) (row : Z) : Co unit :=
  match l with
  | [] => mret tt
  | slot :: l =>
    x ← sm_get ;
    s ← sm_lift (need (live x !! slot) (internal "cooperative logit owner disappeared")) ;
    s ← sample row s ;
    sm_modify (λ x, set_live (<[slot:=s]> (live x)) x) ;;
    sample_loop l (row + 1)
  end.

(** One decode call for all rows, then every owner is sampled. *)
Definition decode_ready (b : Ready) : Co unit :=
  decode_rows (rows b) "cooperative native decode" ;;
  publish_members (ready_members b) ;;
  sample_loop (owners b) 0.

(** [decode_tokens_chunked] without logits: the chunks from an offset on *)
Fixpoint prompt_rows (tokens : list Z) (position slot : Z) : list Row :=
  match tokens with
  | [] => []
  | t :: tokens => {| row_token := t; row_position := position; row_sequence := slot; row_logits := false |}
                   :: prompt_rows tokens (position + 1) slot
  end.
Fixpoint decode_chunks (fuel : nat) (chunk_size : Z) (tokens : list Z) (position slot : Z) : Co unit :=
  match fuel, tokens with
  | _, [] => mret tt
  | O, _ => sm_throw OutOfFuel
  | Datatypes.S fuel, _ =>
    decode_rows (prompt_rows (take (Z.to_nat chunk_size) tokens) position slot) "failed to decode prompt batch" ;;
    decode_chunks fuel chunk_size (drop (Z.to_nat chunk_size) tokens) (position + chunk_size) slot
  end.
Definition decode_tokens_chunked (n_batch : Z) (tokens : list Z) (slot start_position : Z) : Co unit :=
  decode_chunks (length tokens) (Z.max n_batch 1) tokens start_position slot.

(** The second loop of [step]: the slots in their order of turn, the quantum that remains *)
Fixpoint prefill_loop (n_batch : Z) (l : list Z) (remaining : Z) (progressed : bool) : Co bool :=
  match l with
  | [] => mret progressed
  | slot :: l =>
    if remaining =? 0 then mret progressed
    else
      x ← sm_get ;
      s ← sm_lift (need (live x !! slot) (internal "cooperative prefill owner disappeared")) ;
      let count := Z.min remaining (len (prompt s) - 1 - prefilled s) in
      let end_ := prefilled s + count in
      decode_tokens_chunked n_batch (sub_list (prompt s) (prefilled s) end_) slot (prefilled s) ;;
      m ← sm_lift (member s slot count 0) ;
      publish_members [m] ;;
      sm_modify (λ x, set_live (<[slot := place end_ end_ (pending_token s) s]> (live x)) x) ;;
      sm_modify (set_prefill_cursor ((slot + 1) mod MAX_LIVE)) ;;
      prefill_loop n_batch l (remaining - count) true
  end.

Definition turn (cursor slot : Z) : Z := (slot + MAX_LIVE - cursor) mod MAX_LIVE.
Definition turn_le (cursor x y : Z) : Prop := turn cursor x ≤ turn cursor y.
#[export] Instance turn_le_dec (cursor : Z) : RelDecision (turn_le cursor).
Proof. intros x y. unfold turn_le. apply _. Defined.

Definition prefilling (l : list (Z * Sequence)) : list Z :=
  (List.filter (λ p : Z * Sequence, prefilled p.2 + 1 <? len (prompt p.2)) l).*1.

Definition step (n_batch : Z) : Co unit :=
  x ← sm_get ;
  b ← ready_loop n_batch (live_list (live x)) {| rows := []; owners := []; ready_members := [] |} ;
  let progressed := negb (bool_decide (owners b = [])) in
  (if progressed : bool then decode_ready b else mret tt) ;;
  x ← sm_get ;
  let order := merge_sort (turn_le (prefill_cursor x)) (prefilling (live_list (live x))) in
  progressed ← prefill_loop n_batch order (Z.min n_batch PREFILL_QUANTUM) progressed ;
  if progressed : bool then mret tt
  else sm_throw (Fail (internal "live cooperative requests produced no bounded decode work")).

(** ** The loop *)

(** What becomes of a command that was received: whether the pool drains from now on. *)
Definition receive (cells : Z) (c : WorkerCommand) (draining : bool) : Co bool :=
  match c with
  | GenerateCooperative c =>
    sm_modify (record (Taken c)) ;;
    j ← from_command c ;
    cancelled_ ← load (cancel j) ;
    (if cancelled_ : bool then reject j cancelled
     else match prepare j cells with
          | Ok p => sm_modify (set_pending (Some p))
          | Err (Fail e) => reject j e
          | Err p => sm_throw p
          end) ;;
    mret draining
  | OtherCommand n => sm_modify (λ x, set_deferred (deferred x ++ [OtherCommand n]) x) ;; mret true
  end.

(** [commands.try_recv().ok()] *)
Definition try_recv : Co (option WorkerCommand) :=
  access (λ s, match commands s with
               | [] => (None, s)
               | c :: cs => (Some c, with_commands cs s)
               end).

(** A pending request starts in a vacant slot, or waits on. *)
Definition admit_pending (layout : StreamLayout) : Co unit :=
  x ← sm_get ;
  match pending x with
  | None => mret tt
  | Some p =>
    sm_modify (set_pending None) ;;
    c ← load (cancel (pending_job p)) ;
    if c : bool then reject (pending_job p) cancelled
    else
      match vacant_slot layout (pending_cells p) (λ slot, bool_decide (is_Some (live x !! slot))) with
      | Err e => drop_lease (lease (pending_job p)) ;; sm_throw (Fail e)
      | Ok None => sm_modify (set_pending (Some p))
      | Ok (Some slot) =>
        r ← start_sequence p ;
        match r with
        | Err e => reject (pending_job p) e
        | Ok s =>
          x ← sm_get ;
          match live x !! slot with
          | None => sm_modify (set_live (<[slot:=s]> (live x)))
          | Some _ =>
            let error := internal "cooperative slot was occupied during admission" in
            fail_sequence s error ;; sm_throw (Fail error)
          end
        end
      end
  end.

(** What a shutdown request does at the start of the loop body *)
Definition drain (first : option BatchCommand) : Co unit :=
  x ← sm_get ;
  for_each (λ p : Z * Sequence, store (cancel (job p.2))) (live_list (live x)) ;;
  x ← sm_get ;
  match pending x with
  | Some p => sm_modify (set_pending None) ;; reject (pending_job p) cancelled
  | None => mret tt
  end ;;
  match first with
  | Some c => sm_modify (record (Taken c)) ;; reject_queued_command c
  | None => mret tt
  end.

(** A command is taken while no request waits and the pool does not drain. *)
Definition next_command (layout : StreamLayout) (first : option BatchCommand) (draining : bool) : Co (option BatchCommand * bool) :=
  x ← sm_get ;
  if bool_decide (pending x = None) && negb draining then
    command ← (match first with Some c => mret (Some (GenerateCooperative c)) | None => try_recv end) ;
    match command with
    | Some c => d ← receive (layout_cells layout) c draining ; mret (None, d)
    | None => mret (None, draining)
    end
  else mret (first, draining).

(** The step of a pool with live sequences; an empty pool ends the loop. *)
Definition advance (n_batch : Z) : Co bool :=
  x ← sm_get ;
  if bool_decide (live x = ∅) then
    if bool_decide (is_Some (pending x))
    then sm_throw (Fail (internal "empty cooperative pool cannot admit its pending request"))
    else mret false
  else
    sm_modify (λ x, set_active_sequences (Z.of_nat (size (live x))) x) ;;
    step n_batch ;;
    mret true.

(** One round of [run_inner]: [None] when it returns, else the command still held and
    whether the pool drains *)
Definition round (layout : StreamLayout) (fingerprint : ModelFingerprint) (n_batch : Z) (first : option BatchCommand)
    (draining : bool) : Co (option (option BatchCommand * bool)) :=
  stop_ ← read shutdown_requested ;
  (if stop_ : bool then drain first else mret tt) ;;
  settle fingerprint ;;
  '(first, draining) ← next_command layout (if stop_ : bool then None else first) (draining || stop_) ;
  admit_pending layout ;;
  more ← advance n_batch ;
  mret (if more : bool then Some (first, draining) else None).

Fixpoint run_inner (fuel : nat) (layout : StreamLayout) (fingerprint : ModelFingerprint) (n_batch : Z)
    (first : option BatchCommand) (draining : bool) : Co unit :=
  match fuel with
  | O => sm_throw OutOfFuel
  | Datatypes.S fuel =>
    r ← round layout fingerprint n_batch first draining ;
    match r with
    | None => mret tt
    | Some (first, draining) => run_inner fuel layout fingerprint n_batch first draining
    end
  end.

Definition clear_all : Co unit := sm_modify (λ x, set_context (clear_kv_cache (context x)) x).

(** The end of [run]: a failed native call invalidates every sequence of the context. *)
Definition fail_all (e : EngineError) : Co unit :=
  clear_all ;;
  x ← sm_get ;
  sm_modify (set_live ∅) ;;
  for_each (λ p : Z * Sequence, fail_sequence p.2 e) (live_list (live x)) ;;
  x ← sm_get ;
  match pending x with
  | Some p => sm_modify (set_pending None) ;; reject (pending_job p) e
  | None => mret tt
  end.

(** [run] and the clearing of the context in front of it; [n_ctx], [n_batch] are those of the context. *)
Definition run (fuel : nat) (n_ctx n_batch : Z) (fingerprint : ModelFingerprint) (first : BatchCommand) : Co unit :=
  clear_all ;;
  sm_modify (λ x, set_prefill_cursor 0 (set_pending None (set_live ∅ x))) ;;
  (if fingerprint_max_sequences fingerprint =? 0 then sm_throw Panic else mret tt) ;;
  let layout := layout_new (n_ctx / fingerprint_max_sequences fingerprint) (fingerprint_max_sequences fingerprint) n_batch in
  r ← attempt (run_inner fuel layout fingerprint n_batch (Some first) false) ;
  match r with
  | Ok _ => mret tt
  | Err e => fail_all e
  end ;;
  clear_all ;;
  sm_modify (set_active_sequences 0).
End Thread.
End Executor.
