(* ===== verification/CooperativeSpec.v ===== *)
(** * CooperativeSpec: what sharing the owner thread must not change

    The specification of Cooperative.v. [LlamaLaws] states what is relied on of
    llama.cpp with separate streams: a decode call appends the rows of a batch to their
    streams, and the logits of a row depend on its own stream only. [drafts] generates
    one request alone; a shared run must answer every request with it. *)

From S2P Require Import Prelude Bytes Text Utf8 OperationSpec NativeRegistry SpeculativeAdmission GenerationTypes GenerationEvidence Cooperative.
Local Open Scope Z_scope.

(** The tokens of each stream once rows were appended *)
Fixpoint appended (f : Z → list Z) (rs : list Row) : Z → list Z :=
  match rs with
  | [] => f
  | r :: rs => appended (λ s, if s =? row_sequence r then f s ++ [row_token r] else f s) rs
  end.

(** Every row continues its stream. *)
Fixpoint continues (f : Z → list Z) (rs : list Row) : Prop :=
  match rs with
  | [] => True
  | r :: rs => row_position r = len (f (row_sequence r)) ∧
      continues (λ s, if s =? row_sequence r then f s ++ [row_token r] else f s) rs
  end.

Class LlamaLaws {C S D : Type} (L : Llama C S D) := {
  (** the tokens of a stream; the tokens that the logits of a row follow; the choice of a sampler *)
  stream : C → Z → list Z;
  history : C → Z → list Z;
  pick : S → list Z → Z * S;
  decode_appends c rs c' : context_decode c rs = Ok c' → continues (stream c) rs → ∀ s, stream c' s = appended (stream c) rs s;
  decode_logits c rs c' : context_decode c rs = Ok c' → continues (stream c) rs → Forall (λ r, row_logits r = true) rs →
    NoDup (map row_sequence rs) → ∀ i r, rs !! i = Some r → history c' (Z.of_nat i) = stream c' (row_sequence r);
  sample_picks p c i : sampler_sample p c i = pick p (history c i);
  clear_seq_clears c s c' : clear_kv_cache_seq c s = Ok (true, c') → ∀ t, stream c' t = if t =? s then [] else stream c t;
  clear_clears c s : stream (clear_kv_cache c) s = [];
  (** all input fits into a buffer of the worst-case size *)
  decoder_fits d bytes n b : max_utf8_buffer_length d (len bytes) = Some n →
    ∃ written d', decode_to_string d bytes n b = (InputEmpty, len bytes, written, d');
}.

(** Errors for states that the thread does not reach; it does not panic either. *)
Definition unreachable_errors : list EngineError :=
  [internal "cooperative slot disappeared"; native_decode_error "cooperative generation batch" "Insufficient Space";
   internal "cooperative logit owner disappeared"; internal "cooperative prefill owner disappeared";
   internal "live cooperative requests produced no bounded decode work";
   Raised PromptTooLarge "cooperative request exceeds its independent stream capacity";
   internal "cooperative slot was occupied during admission";
   internal "empty cooperative pool cannot admit its pending request"].
Definition reachable (e : fault EngineError) : Prop := match e with Fail f => f ∉ unreachable_errors | _ => False end.

Section Reference.
Context {C S D : Type} {L : Llama C S D} {LL : LlamaLaws L}.

(** ** A request alone *)

Record Draft := { draft_sampler : S; draft_decoder : D; draft_text : text; draft_ids : list Z }.

Definition draft_start (c : GenerationCase) (tokens : list Z) : Draft :=
  {| draft_sampler := foldl sampler_accept (build_sampler (sampling c)) tokens; draft_decoder := new_decoder;
     draft_text := []; draft_ids := [] |}.

(** A token that is text, and why the generation ends with it *)
Definition accept (c : GenerationCase) (d : Draft) (token : Z) : engine (Draft * option (string * option Z)) :=
  bytes ← match token_to_piece_bytes token with Ok b => Ok b | Err m => Err (Fail (native_decode_error "cooperative token piece" m)) end ;
  '(piece, e) ← decode_generated_utf8_piece (draft_decoder d) bytes false ;
  t ← append_generated_utf8_piece (draft_text d) piece ;
  '(t, stopped) ← apply_stop_sequences t (stop (sampling c)) ;
  let ids := draft_ids d ++ [token] in
  Ok ({| draft_sampler := draft_sampler d; draft_decoder := e; draft_text := t; draft_ids := ids |},
      if stopped : bool then Some ("stop_sequence"%string, None)
      else if max_tokens c <=? len ids then Some ("max_tokens"%string, None)
      else None).

(** One more token, and why and with which token the generation ends *)
Definition draw (c : GenerationCase) (tokens : list Z) (d : Draft) : engine (Draft * option (string * option Z)) :=
  let '(token, p) := pick (draft_sampler d) (tokens ++ draft_ids d) in
  let d := {| draft_sampler := p; draft_decoder := draft_decoder d; draft_text := draft_text d; draft_ids := draft_ids d |} in
  if is_eog_token token then Ok (d, Some ("end_of_generation"%string, Some token)) else accept c d token.

(** The state after at most [n] tokens *)
Fixpoint drafts (c : GenerationCase) (tokens : list Z) (n : nat) : engine (Draft * option (string * option Z)) :=
  match n with
  | O => Ok (draft_start c tokens, None)
  | Datatypes.S n =>
    '(d, f) ← drafts c tokens n ;
    match f with
    | Some _ => Ok (d, f)
    | None => draw c tokens d
    end
  end.

(** An output is the request's own: its tokens and text are those of the request alone, to
    the end or, if it was cancelled, up to some token; the rest of the decoder's bytes is
    text unless a stop sequence ended it. *)
Definition own_output (r : GenerationBatchRequest) (o : GenerationOutput) : Prop :=
  ∃ c tokens n d f rest e,
    cases r = [c] ∧ exact_generation_case_token_ids c = Some tokens ∧
    drafts c tokens n = Ok (d, f) ∧
    decode_generated_utf8_piece (draft_decoder d) [] true = Ok (rest, e) ∧
    out_request_id o = request_id r ∧ out_model_id o = model_id r ∧ out_branch_id o = case_id c ∧ out_input_index o = 0 ∧
    generated_token_ids o = draft_ids d ∧ len (draft_ids d) ≤ max_tokens c ∧
    metric_prompt_tokens (metrics o) = len tokens ∧ completion_tokens (metrics o) = len (draft_ids d) ∧
    ((finish_reason o = "cancelled"%string ∧ out_state o = SCancelled ∧ out_text o = draft_text d ++ rest) ∨
     (∃ t, f = Some (finish_reason o, t) ∧ out_state o = SCompleted ∧
           out_text o = if bool_decide (finish_reason o = "stop_sequence"%string) then draft_text d else draft_text d ++ rest)).

(** ** The books of the thread *)

Definition taken (x : Exec (C:=C) (S:=S) (D:=D)) : list nat :=
  omap (λ e, match e with Taken c => Some (ticket c) | _ => None end) (trail x).
Definition answered (x : Exec (C:=C) (S:=S) (D:=D)) : list nat :=
  omap (λ e, match e with Answered t _ => Some t | _ => None end) (trail x).
Definition held (x : Exec (C:=C) (S:=S) (D:=D)) : list nat :=
  ((λ p : Z * Sequence, job_ticket (job p.2)) <$> map_to_list (live x))
  ++ option_list ((λ p, job_ticket (pending_job p)) <$> pending x).

(** A job and the command it came from *)
Definition job_of (j : Job) (b : BatchCommand) : Prop := job_ticket j = ticket b ∧ job_request j = request b.
Definition admitted (x : Exec (C:=C) (S:=S) (D:=D)) (j : Job) : Prop := ∃ b, Taken b ∈ trail x ∧ job_of j b.

(** Every command that was received is answered, held, or owed by the code that runs, once;
    what was answered with outputs is one output, the request's own. *)
Record Books (owed : list Job) (x : Exec (C:=C) (S:=S) (D:=D)) : Prop := {
  books_balance : taken x ≡ₚ answered x ++ (job_ticket <$> owed) ++ held x;
  books_owed : Forall (admitted x) owed;
  books_live : ∀ s q, live x !! s = Some q → admitted x (job q);
  books_pending : ∀ p, pending x = Some p → admitted x (pending_job p);
  books_answers : ∀ t g, Answered t (Ok g) ∈ trail x →
    ∃ b o, Taken b ∈ trail x ∧ ticket b = t ∧ outputs g = [o] ∧ own_output (request b) o;
}.

(** ** Sequences *)

Definition draft_of (s : Sequence (S:=S) (D:=D)) : Draft :=
  {| draft_sampler := sampler s; draft_decoder := decoder s; draft_text := generated_text s; draft_ids := token_ids s |}.

(** A sequence generates a draft of its own request. *)
Definition drafted (s : Sequence (S:=S) (D:=D)) (c : GenerationCase) (f : option (string * option Z)) : Prop :=
  cases (job_request (job s)) = [c] ∧ exact_generation_case_token_ids c = Some (prompt s) ∧ 1 ≤ max_tokens c ∧
  ∃ n, drafts c (prompt s) n = Ok (draft_of s, f).

(** What the stream of a sequence holds, and how far the sequence is *)
Definition sequence_ok (cells : list Z) (s : Sequence (S:=S) (D:=D)) : Prop :=
  ∃ c f, drafted s c f ∧ next_position s = len cells ∧
    match finish s with
    | None =>
      terminal_token s = None ∧ f = None ∧
      ((generating s = false ∧ token_ids s = [] ∧ 0 ≤ prefilled s < len (prompt s) ∧ pending_token s = None ∧
        cells = take (Z.to_nat (prefilled s)) (prompt s)) ∨
       (generating s = true ∧ prefilled s = len (prompt s) ∧
        ∃ ids t, token_ids s = ids ++ [t] ∧ pending_token s = Some t ∧ cells = prompt s ++ ids))
    | Some r =>
      generating s = true ∧ prefilled s = len (prompt s) ∧ pending_token s = None ∧ len cells < len (prompt s) + max_tokens c ∧
      (r = "cancelled"%string ∨ f = Some (r, terminal_token s))
    end.

Definition pending_ok (layout : StreamLayout) (p : Pending) : Prop :=
  ∃ c, cases (job_request (pending_job p)) = [c] ∧ exact_generation_case_token_ids c = Some (pending_tokens p) ∧
    1 ≤ max_tokens c ∧ 1 ≤ pending_cells p ≤ layout_cells layout.

(** The streams of the context are those of the live sequences, all others are empty. *)
Record Pool (layout : StreamLayout) (R : Z → list Z → Sequence → Prop) (x : Exec (C:=C) (S:=S) (D:=D)) : Prop := {
  pool_slots : ∀ k q, live x !! k = Some q → 0 ≤ k < slots layout;
  pool_live : ∀ k q, live x !! k = Some q → R k (stream (context x) k) q;
  pool_empty : ∀ k, live x !! k = None → stream (context x) k = [];
  pool_pending : ∀ p, pending x = Some p → pending_ok layout p;
}.
Definition Streams (layout : StreamLayout) : Exec → Prop := Pool layout (λ _, sequence_ok).

(** The tokens that a job may still decode bound the rounds it takes: every round decodes
    one of them or brings the turn of its slot nearer. *)
Definition work (j : Job) : Z :=
  match cases (job_request j) with
  | [c] => match exact_generation_case_token_ids c with Some tokens => len tokens + max_tokens c | None => 0 end
  | _ => 0
  end.
Definition rank (x : Exec (C:=C) (S:=S) (D:=D)) (k : Z) (j : Job) : Z :=
  MAX_LIVE * (work j - len (stream (context x) k)) + turn (prefill_cursor x) k.
End Reference.
