(* ===== verification/CooperativeBooks.v ===== *)
(** * CooperativeBooks: what the owner thread owes

    Of Cooperative.v: the calls that change nothing but what other threads see and the
    events ([framed], [quiet]), and the books of CooperativeSpec.v under the moves of a
    job between the queue, the pool and its answer. *)

From S2P Require Import Prelude Bytes Text Utf8 OperationSpec NativeRegistry SpeculativeAdmission GenerationTypes GenerationEvidence Cooperative CooperativeSpec.
Local Open Scope Z_scope.

(** An error is none of those that are not reached. *)
Ltac unlisted := intros Hin; repeat (apply elem_of_cons in Hin as [Hin|Hin]; [discriminate Hin|]); by apply elem_of_nil in Hin.

(** ** Framing *)

Module CooperativeFrames.
Section Frames.
Context {C S D : Type} {L : Llama C S D}.
Notation Exec := (Exec (C:=C) (S:=S) (D:=D)).
Notation Sequence := (Sequence (S:=S) (D:=D)).
Notation Co := (SM Exec (fault EngineError)).

Definition is_emitted (e : Effect) : Prop := match e with Emitted _ _ => True | _ => False end.

(** What happened between two states is only seen by other threads and as events. *)
Definition frame (x y : Exec) : Prop :=
  context y = context x ∧ live y = live x ∧ pending y = pending x ∧ prefill_cursor y = prefill_cursor x ∧
  ∃ es, Forall is_emitted es ∧ trail y = trail x ++ es.

#[export] Instance frame_preorder : PreOrder frame.
Proof.
  split.
  - intros x. repeat split. exists []. by rewrite app_nil_r.
  - intros x y z (H1 & H2 & H3 & H4 & es & He & Ht) (H1' & H2' & H3' & H4' & es' & He' & Ht').
    repeat split; [congruence..|]. exists (es ++ es'). split; [by apply Forall_app|]. by rewrite Ht', Ht, app_assoc.
Qed.

Definition framed {A} (m : Co A) : Prop := ∀ x, frame x (m x).2.

Lemma framed_post {A} (m : Co A) Q F x :
  framed m → (∀ a y, m x = (Ok a, y) → frame x y → Q a y) → (∀ e y, frame x y → F e y) → post m Q F x.
Proof. intros Hm HQ HF. specialize (Hm x). unfold post. destruct (m x) as [[a|e] y] eqn:Heq; auto. Qed.

Lemma framed_also {A} (m : Co A) Q F x :
  framed m → post m Q F x → post m (λ a y, frame x y ∧ Q a y) (λ e y, frame x y ∧ F e y) x.
Proof. intros Hm. specialize (Hm x). unfold post. by destruct (m x) as [[a|e] y]. Qed.

Lemma framed_ret {A} (a : A) : framed (mret a).
Proof. intros x. reflexivity. Qed.
Lemma framed_get : framed sm_get.
Proof. intros x. reflexivity. Qed.
Lemma framed_lift {A} (r : result (fault EngineError) A) : framed (sm_lift r).
Proof. intros x. reflexivity. Qed.
Lemma framed_throw {A} e : framed (sm_throw (A:=A) e).
Proof. intros x. reflexivity. Qed.
Lemma framed_bind {A B} (m : Co A) (f : A → Co B) : framed m → (∀ a, framed (f a)) → framed (m ≫= f).
Proof.
  intros Hm Hf x. specialize (Hm x). unfold mbind, sm_bind. destruct (m x) as [[a|e] y]; simpl in *; [|done].
  etrans; [exact Hm|apply Hf].
Qed.
Lemma framed_emitted t e : framed (sm_modify (record (Emitted t e))).
Proof. intros x. repeat split. exists [Emitted t e]. by repeat constructor. Qed.
Lemma framed_active n : framed (sm_modify (λ x, set_active_sequences (n x) x)).
Proof. intros x. repeat split. exists []. by rewrite app_nil_r. Qed.
Lemma framed_defer (f : Exec → list WorkerCommand) : framed (sm_modify (λ x, set_deferred (f x) x)).
Proof. intros x. repeat split. exists []. by rewrite app_nil_r. Qed.

Context (env : nat → Shared → Shared).

Lemma framed_access {A} (f : Shared → A * Shared) : framed (access env f).
Proof.
  intros x. unfold access. destruct (f _) as [a s]. repeat split. exists []. by rewrite app_nil_r.
Qed.
Lemma framed_attempt {A} (m : Co A) : framed m → framed (attempt m).
Proof. intros Hm x. specialize (Hm x). unfold attempt. by destruct (m x) as [[a|[| |e]] y]. Qed.
End Frames.

Create HintDb framed.
#[export] Hint Resolve framed_ret framed_get framed_lift framed_throw framed_emitted framed_active framed_defer framed_access : framed.

Ltac framed_step :=
  first [ solve [auto with framed nocore]
        | apply framed_bind; [|intros ?]
        | apply framed_attempt
        | match goal with
          | |- framed (let '(_, _) := ?p in _) => destruct p
          | |- framed (match ?r with _ => _ end) => destruct r
          end ].
Ltac framed := repeat framed_step.

Section Framed.
Context {C S D : Type} {L : Llama C S D} (env : nat → Shared → Shared).

Lemma framed_read {A} (f : Shared → A) : framed (C:=C) (S:=S) (D:=D) (read env f).
Proof. apply framed_access. Qed.
Lemma framed_load f : framed (C:=C) (S:=S) (D:=D) (load env f).
Proof. apply framed_access. Qed.
Lemma framed_store f : framed (C:=C) (S:=S) (D:=D) (store env f).
Proof. apply framed_access. Qed.
Lemma framed_registry m : framed (C:=C) (S:=S) (D:=D) (registry_call env m).
Proof. apply framed_access. Qed.
Lemma framed_drop n : framed (C:=C) (S:=S) (D:=D) (drop_lease env n).
Proof. apply framed_access. Qed.
Lemma framed_publish ms : framed (C:=C) (S:=S) (D:=D) (publish_members env ms).
Proof. unfold publish_members. framed. Qed.
Lemma framed_for_each {A} (f : A → SM (Exec (C:=C) (S:=S) (D:=D)) (fault EngineError) unit) l :
  (∀ a, framed (f a)) → framed (for_each f l).
Proof. intros Hf. induction l as [|a l IH]; simpl; framed; auto. Qed.
Hint Resolve framed_read framed_load framed_store framed_registry framed_drop framed_publish : framed.

Lemma framed_case_events t s r i cs : framed (C:=C) (S:=S) (D:=D) (emit_case_events t s r i cs).
Proof. revert i. induction cs as [|c cs IH]; intros i; simpl; framed. Qed.
Lemma framed_emit k (s : Sequence) : framed (C:=C) (S:=S) (D:=D) (emit k s).
Proof. unfold emit. framed. Qed.
Hint Resolve framed_case_events framed_emit : framed.
Lemma framed_begin n : framed (C:=C) (S:=S) (D:=D) (begin_generation_command env n).
Proof. unfold begin_generation_command. framed. Qed.
Lemma framed_elapsed n : framed (C:=C) (S:=S) (D:=D) (elapsed_ms env n).
Proof. unfold elapsed_ms. framed. Qed.
Hint Resolve framed_begin framed_elapsed : framed.
Lemma framed_start p : framed (start_sequence (L:=L) env p).
Proof. unfold start_sequence. framed. Qed.
Lemma framed_accept t s : framed (accept_token (L:=L) env t s).
Proof. unfold accept_token. framed. Qed.
Hint Resolve framed_accept : framed.
Lemma framed_sample row s : framed (sample (L:=L) env row s).
Proof. unfold sample. framed. Qed.
Lemma framed_completion fp s : framed (completion (L:=L) env fp s).
Proof. unfold completion. framed. Qed.
Lemma framed_ended l : framed (C:=C) (S:=S) (D:=D) (ended_slots env l).
Proof. induction l as [|[k s] l IH]; simpl; framed. Qed.
End Framed.
#[export] Hint Resolve framed_read framed_load framed_store framed_registry framed_drop framed_publish framed_case_events
  framed_emit framed_begin framed_elapsed framed_start framed_accept framed_sample framed_completion framed_ended : framed.
End CooperativeFrames.

(** ** Books *)

Module CooperativeBooks.
Import CooperativeFrames.
Section Books.
Context {C S D : Type} {L : Llama C S D} {LL : LlamaLaws L}.
Notation Exec := (Exec (C:=C) (S:=S) (D:=D)).
Notation Sequence := (Sequence (S:=S) (D:=D)).
Notation Co := (SM Exec (fault EngineError)).
Context (env : nat → Shared → Shared).

Definition takes (es : list Effect) : list nat := omap (λ e, match e with Taken c => Some (ticket c) | _ => None end) es.
Definition answers (es : list Effect) : list nat := omap (λ e, match e with Answered t _ => Some t | _ => None end) es.

Definition answer_good (es : list Effect) (e : Effect) : Prop :=
  match e with
  | Answered t (Ok g) => ∃ b o, Taken b ∈ es ∧ ticket b = t ∧ outputs g = [o] ∧ own_output (request b) o
  | _ => True
  end.

Lemma admitted_mono (x y : Exec) es j : trail y = trail x ++ es → admitted x j → admitted y j.
Proof. intros Ht (b & Hb & Hj). exists b. rewrite Ht, elem_of_app. auto. Qed.

(** The books after some effects *)
Lemma books_move o o' (x y : Exec) es :
  trail y = trail x ++ es → Books o x →
  takes es ++ (job_ticket <$> o) ++ held x ≡ₚ answers es ++ (job_ticket <$> o') ++ held y →
  Forall (admitted y) o' →
  (∀ k q, live y !! k = Some q → admitted y (job q)) → (∀ p, pending y = Some p → admitted y (pending_job p)) →
  Forall (answer_good (trail y)) es → Books o' y.
Proof.
  intros Ht [Hb Ho Hl Hp Ha] He Ho' Hl' Hp' Hg. split; [|done..|].
  - unfold taken, answered in *. rewrite Ht, !omap_app. fold (takes es) (answers es). rewrite Hb.
    rewrite <- (app_assoc _ _ ((job_ticket <$> o') ++ held y)), <- He.
    rewrite <- !(app_assoc (omap _ (trail x))). f_equiv. by rewrite Permutation_app_comm.
  - intros t g Hin. rewrite Ht, elem_of_app in Hin. destruct Hin as [Hin|Hin].
    + destruct (Ha t g Hin) as (b & p & Hb' & Hr). exists b, p. rewrite Ht, elem_of_app. auto.
    + rewrite Forall_forall in Hg. exact (Hg _ Hin).
Qed.

Lemma emitted_takes es : Forall is_emitted es → takes es = [] ∧ answers es = [].
Proof. induction 1 as [|[] es He _ [IH1 IH2]]; done. Qed.
Lemma emitted_good es k : Forall is_emitted es → Forall (answer_good k) es.
Proof. intros He. eapply Forall_impl; [exact He|]. by intros []. Qed.

Lemma held_eq (x y : Exec) : live y = live x → pending y = pending x → held y = held x.
Proof. intros Hl Hp. unfold held. by rewrite Hl, Hp. Qed.

(** Events and what other threads do are not in the books. *)
Lemma books_frame o (x y : Exec) : frame x y → Books o x → Books o y.
Proof.
  intros (_ & Hl & Hp & _ & es & He & Ht) Hb. apply (books_move o o x y es); try done.
  - destruct (emitted_takes es He) as [-> ->]. simpl. by rewrite (held_eq x y).
  - eapply Forall_impl; [exact (books_owed _ _ Hb)|]. intros j. by apply (admitted_mono x y es).
  - intros k q Hk. rewrite Hl in Hk. eapply admitted_mono; [exact Ht|]. by eapply books_live.
  - intros p Hk. rewrite Hp in Hk. eapply admitted_mono; [exact Ht|]. by eapply books_pending.
  - by apply emitted_good.
Qed.

(** Nothing was recorded: the jobs moved between what is owed and what is held. *)
Lemma books_shift o o' (x y : Exec) :
  trail y = trail x → Books o x → (job_ticket <$> o) ++ held x ≡ₚ (job_ticket <$> o') ++ held y →
  Forall (admitted x) o' →
  (∀ k q, live y !! k = Some q → admitted x (job q)) → (∀ p, pending y = Some p → admitted x (pending_job p)) → Books o' y.
Proof.
  intros Ht Hb He Ho Hl Hp. unfold admitted in *. apply (books_move o o' x y []); unfold admitted; rewrite ?Ht; try done.
  by rewrite app_nil_r.
Qed.

(** A state that differs in nothing the books speak of *)
Lemma books_irrelevant o (x y : Exec) : trail y = trail x → live y = live x → pending y = pending x → Books o x → Books o y.
Proof.
  intros Ht Hl Hp Hb. apply (books_shift o o x); [done|done|by rewrite (held_eq x y)|by apply (books_owed _ _ Hb)| |];
    rewrite ?Hl, ?Hp; [apply (books_live _ _ Hb)|apply (books_pending _ _ Hb)].
Qed.

Lemma held_live (x : Exec) m k q :
  m !! k = None → held (set_live (<[k:=q]> m) x) ≡ₚ job_ticket (job q) :: held (set_live m x).
Proof. intros Hk. unfold held. simpl. rewrite map_to_list_insert by done. done. Qed.

Lemma set_live_id (x : Exec) : set_live (live x) x = x.
Proof. by destruct x. Qed.

(** A live sequence is taken out of the pool, or put into it. *)
Lemma books_out o (x : Exec) k q : live x !! k = Some q → Books o x → Books (job q :: o) (set_live (delete k (live x)) x).
Proof.
  intros Hk Hb. eapply (books_shift _ _ x); [done|exact Hb| | | |exact (books_pending _ _ Hb)].
  - rewrite <- (set_live_id x), <- (insert_delete_id (live x) k q Hk) at 1.
    rewrite held_live by apply lookup_delete_eq. simpl. by rewrite Permutation_middle.
  - constructor; [|by apply (books_owed _ _ Hb)]. by eapply books_live.
  - simpl. intros i s [_ Hi]%lookup_delete_Some. by eapply books_live.
Qed.
Lemma books_in o (x : Exec) k q j : live x !! k = None → job q = j → Books (j :: o) x → Books o (set_live (<[k:=q]> (live x)) x).
Proof.
  intros Hk <- Hb. destruct (Forall_cons_1 _ _ _ (books_owed _ _ Hb)) as [Hj Ho].
  eapply (books_shift _ _ x); [done|exact Hb| |done| |exact (books_pending _ _ Hb)].
  - rewrite held_live by done. rewrite set_live_id. simpl. by rewrite Permutation_middle.
  - simpl. intros i s [[<- <-]|[_ Hi]]%lookup_insert_Some; [done|]. by eapply books_live.
Qed.
Lemma books_update o (x : Exec) k q q' :
  live x !! k = Some q → job q' = job q → Books o x → Books o (set_live (<[k:=q']> (live x)) x).
Proof.
  intros Hk Hj Hb. apply (books_out o x k q Hk) in Hb.
  apply (books_in _ _ k q') in Hb; [|by apply lookup_delete_eq|done]. simpl in Hb. by rewrite insert_delete_eq in Hb.
Qed.

(** The pending request, likewise *)
Lemma books_unpend o (x : Exec) p : pending x = Some p → Books o x → Books (pending_job p :: o) (set_pending None x).
Proof.
  intros Hp Hb. eapply (books_shift _ _ x); [done|exact Hb| | |exact (books_live _ _ Hb)|done].
  - unfold held. rewrite Hp. simpl. rewrite app_nil_r, <- Permutation_cons_append. by rewrite Permutation_middle.
  - constructor; [|by apply (books_owed _ _ Hb)]. by eapply books_pending.
Qed.
Lemma books_pend o (x : Exec) p : pending x = None → Books (pending_job p :: o) x → Books o (set_pending (Some p) x).
Proof.
  intros Hp Hb. destruct (Forall_cons_1 _ _ _ (books_owed _ _ Hb)) as [Hj Ho].
  eapply (books_shift _ _ x); [done|exact Hb| |done|exact (books_live _ _ Hb)|by intros ? [= <-]].
  unfold held. rewrite Hp. simpl. rewrite app_nil_r, <- Permutation_cons_append. by rewrite Permutation_middle.
Qed.

(** A command is received. *)
Lemma books_take o (x : Exec) b j : job_of j b → Books o x → Books (j :: o) (record (Taken b) x).
Proof.
  intros Hj Hb. assert (∀ i, admitted x i → admitted (record (Taken b) x) i) as Hm.
  { intros i. by apply (admitted_mono x _ [Taken b]). }
  eapply (books_move o (j :: o) x _ [Taken b]); try done.
  - simpl. by destruct Hj as [-> _].
  - constructor; [|by eapply Forall_impl; [exact (books_owed _ _ Hb)|]].
    exists b. split; [|done]. simpl. apply elem_of_app. right. by constructor.
  - intros k q Hk. apply Hm. by eapply books_live.
  - intros p Hp. apply Hm. by eapply books_pending.
  - by repeat constructor.
Qed.

(** What answering a job does *)
Definition answering (t : nat) (r : result EngineError GenerationCompletion) (x y : Exec) : Prop :=
  context y = context x ∧ live y = live x ∧ pending y = pending x ∧ prefill_cursor y = prefill_cursor x ∧
  ∃ es es', Forall is_emitted es ∧ Forall is_emitted es' ∧ trail y = trail x ++ es ++ Answered t r :: es'.

Lemma answering_record t r (x : Exec) : answering t r x (record (Answered t r) x).
Proof. repeat split. by exists [], []. Qed.
Lemma answering_after t r x y z : frame x y → answering t r y z → answering t r x z.
Proof.
  intros (H1 & H2 & H3 & H4 & es & He & Ht) (H1' & H2' & H3' & H4' & es1 & es2 & He1 & He2 & Ht').
  repeat split; [congruence..|]. exists (es ++ es1), es2. split; [by apply Forall_app|]. by rewrite Ht', Ht, <- !app_assoc.
Qed.
Lemma answering_before t r x y z : answering t r x y → frame y z → answering t r x z.
Proof.
  intros (H1 & H2 & H3 & H4 & es1 & es2 & He1 & He2 & Ht) (H1' & H2' & H3' & H4' & es & He & Ht').
  repeat split; [congruence..|]. exists es1, (es2 ++ es). split; [done|]. split; [by apply Forall_app|].
  by rewrite Ht', Ht, <- !app_assoc.
Qed.

(** Framed, and it does not fail *)
Definition quiet {A} (m : Co A) : Prop := ∀ x, ∃ a y, m x = (Ok a, y) ∧ frame x y.

Lemma quiet_post {A} (m : Co A) Q F x : quiet m → (∀ a y, frame x y → Q a y) → post m Q F x.
Proof. intros Hm HQ. destruct (Hm x) as (a & y & Hy & Hf). unfold post. rewrite Hy. auto. Qed.
Lemma quiet_access {A} (f : Shared → A * Shared) : quiet (access env f).
Proof. intros x. pose proof (framed_access env f x) as Hf. unfold access in *. destruct (f _) as [a s]. by exists a; eexists. Qed.
Lemma quiet_ret {A} (a : A) : quiet (mret a).
Proof. intros x. by eexists _, _. Qed.
Lemma quiet_bind {A B} (m : Co A) (f : A → Co B) : quiet m → (∀ a, quiet (f a)) → quiet (m ≫= f).
Proof.
  intros Hm Hf x. destruct (Hm x) as (a & y & Hy & Hxy). destruct (Hf a y) as (b & z & Hz & Hyz).
  exists b, z. unfold mbind, sm_bind. rewrite Hy. split; [done|]. by etrans.
Qed.
Lemma quiet_case_events t s r i cs : quiet (emit_case_events t s r i cs).
Proof.
  revert i. induction cs as [|c cs IH]; intros i; [apply quiet_ret|]. apply quiet_bind; [|auto].
  intros x. eexists _, _. split; [done|]. by apply framed_emitted.
Qed.
Lemma quiet_for_each {A} (f : A → Co unit) l : (∀ a, quiet (f a)) → quiet (for_each f l).
Proof. intros Hf. induction l as [|a l IH]; [apply quiet_ret|]. by apply quiet_bind. Qed.

Lemma quiet_elapsed n : quiet (elapsed_ms env n).
Proof. apply quiet_bind; [apply quiet_access|intros; apply quiet_ret]. Qed.

Lemma record_then_drop t r n (x : Exec) Q F :
  (∀ y, answering t r x y → Q tt y) → post (sm_modify (record (Answered t r)) ;; drop_lease env n) Q F x.
Proof.
  intros HQ. apply post_bind, post_modify, quiet_post; [apply quiet_access|]. intros [] y Hy. apply HQ.
  eapply answering_before; [apply answering_record|exact Hy].
Qed.

(** A job is answered with what it is published with. *)
Lemma publish_post j r q (x : Exec) Q F :
  (∀ y, answering (job_ticket j) r x y → Q tt y) → post (publish env j r q) Q F x.
Proof.
  intros HQ. unfold publish. apply post_bind, quiet_post; [apply quiet_access|]. intros a y Hy.
  apply post_bind, quiet_post; [destruct r; [apply quiet_ret|apply quiet_case_events]|]. intros b z Hz.
  apply record_then_drop. intros w Hw. apply HQ. eapply answering_after; [|exact Hw]. by etrans.
Qed.
Lemma reject_post j e (x : Exec) Q F : (∀ y, answering (job_ticket j) (Err e) x y → Q tt y) → post (reject env j e) Q F x.
Proof.
  intros HQ. unfold reject. apply post_bind, quiet_post; [case_match; [apply quiet_access|apply quiet_ret]|].
  intros a y Hy. apply publish_post. intros z Hz. apply HQ. by eapply answering_after.
Qed.
Lemma reject_queued_post b (x : Exec) Q F :
  (∀ e y, answering (ticket b) (Err e) x y → Q tt y) → post (reject_queued_command env b) Q F x.
Proof.
  intros HQ. unfold reject_queued_command. apply post_bind, quiet_post; [apply quiet_for_each; intros; apply quiet_access|].
  intros a y Hy. apply post_bind, quiet_post; [apply quiet_case_events|]. intros a' z Hz.
  apply post_bind, quiet_post; [apply quiet_access|]. intros a'' w Hw.
  apply record_then_drop. intros v Hv. eapply HQ, answering_after; [|exact Hv]. by do 2 (etrans; [eassumption|]).
Qed.

(** What is owed is answered. *)
Lemma books_answer o (x y : Exec) j t r :
  answering t r x y → job_ticket j = t → answer_good (trail x) (Answered t r) → Books (j :: o) x → Books o y.
Proof.
  intros (_ & Hl & Hp & _ & es & es' & He & He' & Ht) <- Hg Hb.
  destruct (Forall_cons_1 _ _ _ (books_owed _ _ Hb)) as [Hj Ho].
  assert (∀ i, admitted x i → admitted y i) as Hm by (intros i; by apply (admitted_mono x y _ i Ht)).
  eapply (books_move _ _ x y _ Ht Hb).
  - destruct (emitted_takes es He) as [H1 H2], (emitted_takes es' He') as [H3 H4].
    assert (takes (es ++ Answered (job_ticket j) r :: es') = []) as ->.
    { unfold takes in *. rewrite omap_app, H1. exact H3. }
    assert (answers (es ++ Answered (job_ticket j) r :: es') = [job_ticket j]) as ->.
    { unfold answers in *. rewrite omap_app, H2. exact (f_equal (cons _) H4). }
    simpl. by rewrite (held_eq x y).
  - by eapply Forall_impl.
  - intros k q Hk. apply Hm. rewrite Hl in Hk. by eapply books_live.
  - intros p Hk. apply Hm. rewrite Hp in Hk. by eapply books_pending.
  - apply Forall_app. split; [by apply emitted_good|]. constructor; [|by apply emitted_good].
    destruct r as [g|e]; [|done]. destruct Hg as (b & q & Hbt & Hr). exists b, q. rewrite Ht, elem_of_app. auto.
Qed.
End Books.
End CooperativeBooks.
