(* ===== verification/CooperativeStreams.v ===== *)
(** * CooperativeStreams: one step of the owner thread

    Of Cooperative.v: sampling and completing a sequence against the drafts of
    CooperativeSpec.v, and the loops of [step] against its streams. *)

From S2P Require Import Prelude Bytes Text Utf8 OperationSpec NativeRegistry SpeculativeAdmission GenerationTypes GenerationEvidence Cooperative CooperativeSpec CooperativeBooks.
Local Open Scope Z_scope.

(** ** Drafts and samples *)

Module CooperativeDrafts.
Import CooperativeFrames CooperativeBooks.
Section Drafts.
Context {C S D : Type} {L : Llama C S D} {LL : LlamaLaws L}.
Notation Exec := (Exec (C:=C) (S:=S) (D:=D)).
Notation Sequence := (Sequence (S:=S) (D:=D)).
Notation Co := (SM Exec (fault EngineError)).

(** What a draw does to the count of tokens, and why it ends *)
Lemma draw_Ok c tokens (d d' : Draft) f :
  draw c tokens d = Ok (d', f) → len (draft_ids d) < max_tokens c →
  len (draft_ids d') ≤ max_tokens c ∧
  match f with None => len (draft_ids d') < max_tokens c | Some (r, _) => r ≠ "cancelled"%string end.
Proof.
  intros Hd Hl. unfold draw in Hd. destruct (pick _ _) as [token p]. destruct (is_eog_token token).
  { simplify_eq/=. split; [lia|done]. }
  apply bind_Ok in Hd as (bytes & _ & ([piece e] & _ & (t & _ & ([t' stopped] & _ & Hd)%bind_Ok)%bind_Ok)%bind_Ok).
  cbv zeta in Hd. injection Hd as <- <-. cbn [draft_ids] in *.
  destruct stopped; [|destruct (_ <=? _) eqn:E; bool_prop];
    rewrite len_app, len_cons, len_nil in *; (split; [lia|done || lia]).
Qed.

Lemma drafts_Ok c tokens n (d : Draft) f :
  drafts c tokens n = Ok (d, f) → 1 ≤ max_tokens c →
  len (draft_ids d) ≤ max_tokens c ∧
  match f with None => len (draft_ids d) < max_tokens c | Some (r, _) => r ≠ "cancelled"%string end.
Proof.
  revert d f. induction n as [|n IH]; intros d f Hd Hm; simpl in Hd; [simplify_eq/=; rewrite len_nil; lia|].
  apply bind_Ok in Hd as ([d1 f1] & H1 & Hd). destruct (IH _ _ H1 Hm) as [Hl Hf].
  destruct f1 as [f1|]; [by simplify_eq|]. by eapply draw_Ok.
Qed.

Lemma drafts_S c tokens n (d : Draft) : drafts c tokens n = Ok (d, None) → drafts c tokens (Datatypes.S n) = draw c tokens d.
Proof. intros Hd. simpl. by rewrite Hd. Qed.

Lemma emit_post c k (s : Sequence) (x : Exec) Q F :
  cases (job_request (job s)) = [c] → (∀ e y, frame x y → Q (log_event e s) y) → post (emit k s) Q F x.
Proof.
  intros Hc HQ. unfold emit, job_event. rewrite Hc. apply post_bind, post_lift; [|done]. intros e _.
  apply post_bind, post_modify, post_ret, HQ, framed_emitted.
Qed.

Context (env : nat → Shared → Shared).

(** A sequence about to be sampled: its stream holds its prompt and all its tokens. *)
Definition sampling_ok (s : Sequence) : Prop :=
  ∃ c, drafted s c None ∧ finish s = None ∧ terminal_token s = None ∧ prefilled s = len (prompt s) ∧ pending_token s = None ∧
    next_position s = len (prompt s ++ token_ids s).

(** Errors of the parts of a sample *)
Definition errors_ok {A} (r : engine A) : Prop := ∀ e, r = Err e → reachable e.

Lemma errors_Ok {A} (a : A) : errors_ok (Ok a).
Proof. by intros e. Qed.
Lemma errors_Fail {A} f : reachable (Fail f) → errors_ok (A:=A) (Err (Fail f)).
Proof. by intros Hf e [= <-]. Qed.
Lemma errors_bind {A B} (m : engine A) (f : A → engine B) : errors_ok m → (∀ a, errors_ok (f a)) → errors_ok (m ≫= f).
Proof. intros Hm Hf. destruct m as [a|e']; [apply Hf|]. intros e [= <-]. by apply Hm. Qed.
Lemma errors_need {A} (o : option A) f : reachable (Fail f) → errors_ok (need o f).
Proof. intros Hf. destruct o; [apply errors_Ok|by apply errors_Fail]. Qed.
Lemma errors_fail_if b f : reachable (Fail f) → errors_ok (fail_if b f).
Proof. intros Hf. destruct b; [by apply errors_Fail|apply errors_Ok]. Qed.

Ltac errors :=
  repeat first [ apply errors_Ok | apply errors_need | apply errors_fail_if | apply errors_Fail
               | apply errors_bind; [|intros ?] | solve [unlisted]
               | match goal with |- errors_ok (let '(_, _) := ?p in _) => destruct p
                 | |- errors_ok (match ?r with _ => _ end) => destruct r end ].

Lemma errors_piece t :
  errors_ok (match token_to_piece_bytes t with Ok b => Ok b | Err m => Err (Fail (native_decode_error "cooperative token piece" m)) end).
Proof. errors. Qed.
Lemma errors_push t bytes : errors_ok (push_piece t bytes).
Proof. unfold push_piece, checked_generated_output_len. errors. Qed.
Lemma errors_append t p : errors_ok (append_generated_utf8_piece t p).
Proof. unfold append_generated_utf8_piece, checked_generated_output_len. errors. Qed.
Lemma errors_stop t stops : errors_ok (apply_stop_sequences t stops).
Proof. destruct (StopSequences.apply_stop_exact t stops) as [(i & _ & ->)|[_ ->]]; errors. Qed.
Lemma errors_decode d bytes b : errors_ok (decode_generated_utf8_piece (L:=L) d bytes b).
Proof.
  unfold decode_generated_utf8_piece. destruct (max_utf8_buffer_length d (len bytes)) as [n|] eqn:Hn; [|errors].
  destruct (decoder_fits d bytes n b Hn) as (w & d' & Hd). simpl. rewrite Hd.
  rewrite (proj2 (get_slice_Some bytes _ _ _) (conj (conj (Z.le_refl _) (Z.le_refl _)) eq_refl)). errors.
Qed.

(** Accepting a token does to a sequence what it does to its draft. *)
Definition accepted (c : GenerationCase) (token : Z) (s s' : Sequence) : Prop :=
  ∃ f, accept c (draft_of s) token = Ok (draft_of s', f) ∧
    job s' = job s ∧ prompt s' = prompt s ∧ generating s' = generating s ∧ prefilled s' = prefilled s ∧
    next_position s' = next_position s ∧ token_ids s' = token_ids s ++ [token] ∧ terminal_token s' = terminal_token s ∧
    match f with
    | None => finish s' = finish s ∧ pending_token s' = Some token
    | Some (r, t) => finish s' = Some r ∧ t = None ∧ pending_token s' = pending_token s
    end.

Lemma accept_post c token (s : Sequence) (x : Exec) :
  cases (job_request (job s)) = [c] →
  post (accept_token env token s) (λ s' y, accepted c token s s') (λ e _, reachable e) x.
Proof.
  intros Hc. unfold accept_token, accepted, accept.
  apply post_bind, post_lift; [|apply errors_piece]. intros bytes Hb. rewrite Hb.
  apply post_bind, post_lift; [|destruct (trace s); [apply errors_bind; [apply errors_push|intros; apply errors_Ok]|apply errors_Ok]].
  intros tr _.
  apply post_bind, post_lift; [|apply errors_decode]. intros [piece d] Hp.
  apply post_bind, quiet_post; [destruct (first_token s); [apply quiet_ret|apply quiet_bind; [apply quiet_elapsed|intros; apply quiet_ret]]|].
  intros first y _. apply post_bind, post_lift; [|apply errors_append]. simpl. intros t Ht.
  apply post_bind, (post_mono _ (λ s1 _, ∃ es n, s1 = {| job := job s; prompt := prompt s; prefilled := prefilled s; next_position := next_position s;
    pending_token := pending_token s; sampler := sampler s; decoder := d; generated_text := generated_text s;
    token_ids := token_ids s ++ [token]; trace := tr; events := es; authority_error := authority_error s;
    terminal_token := terminal_token s; finish := finish s; generating := generating s;
    next_event := n; started := started s; first_token := first |}) _ (λ _ _, False)); [| |done].
  { case_bool_decide; [apply post_ret; by eexists _, _|]. eapply emit_post; [done|]. intros e ? _. by eexists _, _. }
  intros s1 z (es & n & ->). simpl. rewrite Hc. apply post_bind, post_lift; [|done]. intros c' [= <-].
  apply post_bind, post_lift; [|apply errors_stop]. intros [t' stopped] Hs. cbn in *.
  rewrite Hp. cbn. rewrite Ht. cbn. rewrite Hs. cbn. destruct stopped; [apply post_ret; by eexists|].
  destruct (_ <=? _); apply post_ret; by eexists.
Qed.

Lemma sample_post row (s : Sequence) (x : Exec) :
  sampling_ok s → history (context x) row = prompt s ++ token_ids s →
  post (sample env row s) (λ s' y, job s' = job s ∧ sequence_ok (prompt s ++ token_ids s) s') (λ e _, reachable e) x.
Proof.
  intros (c & (Hc & He & Hm & n & Hdr) & Hf & Ht & Hp & Hpt & Hn) Hh. unfold sample.
  apply post_bind, (post_mono _ (λ s1 y, frame x y ∧ generating s1 = true ∧ job s1 = job s ∧ prompt s1 = prompt s ∧
    draft_of s1 = draft_of s ∧ finish s1 = None ∧
    terminal_token s1 = None ∧ prefilled s1 = len (prompt s1) ∧ pending_token s1 = None ∧
    next_position s1 = len (prompt s ++ token_ids s)) _ (λ _ _, False)); [| |done].
  { destruct (generating s) eqn:Hg; [by apply post_ret|]. by eapply emit_post. }
  intros s1 y (Hxy & Hg1 & Hj1 & Hpr1 & Hd1 & Hf1 & Ht1 & Hp1 & Hpt1 & Hn1).
  rewrite <- Hj1, <- Hpr1, <- Hd1 in *. pose proof (drafts_S _ _ _ _ Hdr) as HS.
  injection Hd1 as Hs1 Hd1 Htx1 Hi1. rewrite <- Hi1 in *.
  assert (len (prompt s1 ++ token_ids s1) < len (prompt s1) + max_tokens c) as Hlt.
  { rewrite len_app. destruct (drafts_Ok _ _ _ _ _ Hdr Hm) as [_ Hlt]. simpl in Hlt. lia. }
  apply post_bind, quiet_post; [apply quiet_access|]. intros b z Hyz. destruct b.
  { apply post_ret. split; [done|]. exists c, None. split; [by repeat split; eauto|]. simpl. auto 10. }
  apply post_bind, post_get. rewrite sample_picks.
  assert (context z = context x) as -> by (destruct Hxy, Hyz; congruence). rewrite Hh.
  remember (Datatypes.S n) as n' eqn:Hn'. clear Hn'. unfold draw in HS. simpl in HS. destruct (pick _ _) as [token p]. destruct (is_eog_token token) eqn:Heog.
  { apply post_ret. split; [done|]. eexists c, _. split; [repeat split; [done..|]; eexists; exact HS|]. simpl. auto 10. }
  eapply post_mono; [by apply (accept_post c)| |done].
  intros s2 _ (f & Ha & H1 & H2 & H3 & H4 & H5 & H6 & H7 & Hfin). simpl in *. split; [done|]. pose proof (eq_trans HS Ha) as Hd2.
  exists c, f. unfold drafted. rewrite H1, H2, H3, H4, H5, H7. split; [by eauto 10|]. split; [done|].
  destruct f as [[r t]|]; destruct Hfin as [-> Hfin]; [destruct Hfin as [-> ->]; rewrite Ht1; auto 12|]. rewrite Hf1.
  split; [done|]. split; [done|]. right. eauto 10.
Qed.

(** A cancelled or finished sequence completes with its own output. *)
Definition own_error (e : fault EngineError) : Prop := match e with Fail _ => True | _ => False end.

Lemma errors_own {A} (r : engine A) e : errors_ok r → r = Err e → own_error e.
Proof. intros Hr He. specialize (Hr e He). by destruct e. Qed.

Lemma completion_post fp c f (s : Sequence) (x : Exec) :
  drafted s c f → (generating s = true → ∀ r, finish s = Some r → r = "cancelled"%string ∨ f = Some (r, terminal_token s)) →
  post (completion env fp s) (λ g y, ∃ o, outputs g = [o] ∧ own_output (job_request (job s)) o) (λ e _, own_error e) x.
Proof.
  intros (Hc & He & Hm & n & Hdr) Hfin. destruct (drafts_Ok _ _ _ _ _ Hdr Hm) as [Hl Hr]. unfold completion.
  apply post_bind, post_lift; [|by destruct (finish s); intros ? [= <-]]. intros reason Hreason. apply need_Ok in Hreason.
  destruct (generating s) eqn:Hg; [|done]. simpl. specialize (Hfin eq_refl _ Hreason).
  apply post_bind, post_lift.
  2: { intros e. apply errors_own. apply errors_bind; [apply errors_decode|]. intros [p d].
       apply errors_bind; [destruct (bool_decide _); [apply errors_Ok|apply errors_append]|intros; apply errors_Ok]. }
  intros [[piece t] e] Hfz.
  unfold finalize_generated_text in Hfz. apply bind_Ok in Hfz as ([piece' e'] & Hpiece & (t' & Ht & [= <- <- <-])%bind_Ok).
  apply post_bind, (post_mono _ (λ s1 _, job s1 = job s ∧ prompt s1 = prompt s ∧ token_ids s1 = token_ids s) _ (λ _ _, False)); [| |done].
  { destruct (bool_decide (piece' = [])); [by apply post_ret|]. by eapply emit_post. }
  intros s1 y (Hj1 & Hp1 & Hi1). unfold job_event. rewrite Hj1, Hc. apply post_bind, post_lift; [|done]. intros terminal _.
  apply post_bind, quiet_post; [apply quiet_elapsed|]. intros duration z _.
  apply post_bind, post_lift; [|done]. intros c' [= <-].
  apply post_bind, (post_mono _ (λ _ _, True) _ (λ e _, own_error e)); [|intros au w _|done].
  { destruct (authority_error s1); [by apply post_ret|].
    apply post_bind, post_lift; [intros es _|by destruct (_ <$> _); intros ? [= <-]].
    apply post_bind, post_lift; [intros tr _|by destruct (trace _); intros ? [= <-]].
    apply post_bind, quiet_post; [apply quiet_access|]. intros ar w _.
    match goal with |- post (match ?v with _ => _ end) _ _ _ =>
      assert (returns v) as Hv by (eapply returns_with_returns, Authority.authority_certifies); destruct v as [ev|[| |e]]; try done; by apply post_ret end. }
  apply post_bind, post_modify, post_ret. eexists. split; [done|].
  exists c, (prompt s), n, (draft_of s), f, piece', e'. simpl. rewrite Hp1, Hi1. do 12 (split; [done|]).
  destruct (decide (reason = "cancelled"%string)) as [->|Hne].
  - left. simpl in Ht. apply bind_Ok in Ht as (? & _ & [= ->]). done.
  - right. destruct Hfin as [|Hf]; [done|]. exists (terminal_token s). split; [done|].
    rewrite (bool_decide_eq_false_2 (reason = "cancelled"%string)) by done. split; [done|].
    destruct (bool_decide (reason = _)); [by injection Ht as ->|]. by apply bind_Ok in Ht as (? & _ & [= ->]).
Qed.
End Drafts.
End CooperativeDrafts.

(** ** Streams *)

Module CooperativeStreams.
Import CooperativeFrames CooperativeBooks CooperativeDrafts.

(** What rows do to the streams *)
Lemma appended_prompt tokens p slot f s :
  appended f (prompt_rows tokens p slot) s = if s =? slot then f s ++ tokens else f s.
Proof.
  revert f p. induction tokens as [|t tokens IH]; intros f p; simpl; [by rewrite app_nil_r; case_match|].
  rewrite IH. destruct (s =? slot); [|done]. by rewrite <- app_assoc.
Qed.
Lemma continues_prompt tokens slot f p : p = len (f slot) → continues f (prompt_rows tokens p slot).
Proof.
  revert f p. induction tokens as [|t tokens IH]; intros f p Hp; simpl; [done|]. split; [done|].
  apply IH. rewrite Z.eqb_refl, len_app, len_cons, len_nil. lia.
Qed.

Lemma appended_other rs f s : s ∉ (row_sequence <$> rs) → appended f rs s = f s.
Proof.
  revert f. induction rs as [|r rs IH]; intros f Hs; simpl; [done|]. apply not_elem_of_cons in Hs as [Hr Hs].
  rewrite IH by done. by rewrite (proj2 (Z.eqb_neq _ _) Hr).
Qed.
Lemma appended_row rs f r : NoDup (row_sequence <$> rs) → r ∈ rs → appended f rs (row_sequence r) = f (row_sequence r) ++ [row_token r].
Proof.
  revert f. induction rs as [|r' rs IH]; intros f Hn Hr; [by apply elem_of_nil in Hr|].
  apply NoDup_cons in Hn as [Hn1 Hn]. apply elem_of_cons in Hr as [->|Hr]; simpl.
  - rewrite appended_other by done. by rewrite Z.eqb_refl.
  - rewrite IH by done. destruct (row_sequence r =? row_sequence r') eqn:E; [|done]. apply Z.eqb_eq in E.
    destruct Hn1. rewrite <- E. by apply list_elem_of_fmap_2.
Qed.
Lemma continues_rows rs f :
  NoDup (row_sequence <$> rs) → Forall (λ r, row_position r = len (f (row_sequence r))) rs → continues f rs.
Proof.
  revert f. induction rs as [|r rs IH]; intros f Hn Hr; simpl; [done|].
  apply NoDup_cons in Hn as [Hn1 Hn]. apply Forall_cons in Hr as [Hr Hrs]. split; [done|]. apply IH; [done|].
  rewrite Forall_forall in *. intros r' Hr'. rewrite (Hrs r') by done. destruct (_ =? _) eqn:E; [|done].
  apply Z.eqb_eq in E. destruct Hn1. rewrite <- E. by apply list_elem_of_fmap_2.
Qed.

Section Streams.
Context {C S D : Type} {L : Llama C S D} {LL : LlamaLaws L}.
Notation Exec := (Exec (C:=C) (S:=S) (D:=D)).
Notation Sequence := (Sequence (S:=S) (D:=D)).
Notation Co := (SM Exec (fault EngineError)).
Context (env : nat → Shared → Shared).

(** ** Native calls *)

Lemma context_call_post {A} (f : C → result string (A * C)) what (x : Exec) Q (F : fault EngineError → Exec → Prop) :
  (∀ a c, f (context x) = Ok (a, c) → Q a (set_context c x)) → (∀ e, F (Fail (native_decode_error what e)) x) → post (context_call f what) Q F x.
Proof.
  intros HQ HF. unfold context_call. apply post_bind, post_get. destruct (f (context x)) as [[a c]|m] eqn:E.
  - apply post_bind, post_modify, post_ret. by apply HQ.
  - apply post_throw, HF.
Qed.

Lemma decode_rows_post rs what (x : Exec) Q (F : fault EngineError → Exec → Prop) :
  continues (stream (context x)) rs →
  (∀ c, context_decode (context x) rs = Ok c → (∀ s, stream c s = appended (stream (context x)) rs s) → Q tt (set_context c x)) →
  (∀ e, F (Fail (native_decode_error what e)) x) → post (decode_rows rs what) Q F x.
Proof.
  intros Hc HQ HF. apply context_call_post; [|done]. intros [] c Hd. destruct (context_decode _ rs) as [c'|] eqn:E; [|done].
  injection Hd as ->. apply HQ; [done|]. by apply decode_appends.
Qed.

Lemma set_context_same (x : Exec) : set_context (context x) x = x.
Proof. by destruct x. Qed.

Lemma decode_chunks_post fuel chunk tokens slot p (x : Exec) Q (F : fault EngineError → Exec → Prop) :
  1 ≤ chunk → (length tokens ≤ fuel)%nat → (tokens ≠ [] → p = len (stream (context x) slot)) →
  (∀ c, (∀ s, stream c s = if s =? slot then stream (context x) s ++ tokens else stream (context x) s) → Q tt (set_context c x)) →
  (∀ e c, F (Fail (native_decode_error "failed to decode prompt batch" e)) (set_context c x)) →
  post (decode_chunks fuel chunk tokens p slot) Q F x.
Proof.
  intros Hchunk. revert tokens p x Q F. induction fuel as [|fuel IH]; intros tokens p x Q F Hfuel Hp HQ HF.
  { destruct tokens; [|simpl in Hfuel; lia]. simpl. rewrite <- (set_context_same x). apply HQ.
    intros s. by rewrite app_nil_r; case_match. }
  destruct tokens as [|t tokens]; [simpl; rewrite <- (set_context_same x); apply HQ; intros s; by rewrite app_nil_r; case_match|].
  specialize (Hp ltac:(done)). simpl decode_chunks. remember (t :: tokens) as all eqn:Hall.
  assert (0 < length all)%nat by (subst; simpl; lia). clear Hall.
  apply post_bind, decode_rows_post; [by apply continues_prompt| |intros e; rewrite <- (set_context_same x); apply HF].
  intros c _ Hs. apply IH; [rewrite length_drop; lia| |intros c' Hs'; simpl in *; apply HQ|intros e c'; apply HF].
  - intros Hd. simpl. rewrite Hs, appended_prompt, Z.eqb_refl, len_app, Hp. f_equal.
    unfold len. rewrite length_take. destruct (decide (length all ≤ Z.to_nat chunk)%nat) as [Hle|Hle]; [|lia].
    by rewrite drop_ge in Hd.
  - intros s. rewrite Hs', Hs, appended_prompt. destruct (s =? slot); [|done]. by rewrite <- app_assoc, take_drop.
Qed.
(** ** Invariants of the loops of [step] *)

Definition safe {A} (m : Co A) (Q : A → Exec → Prop) (x : Exec) : Prop := post m Q (λ e y, Books [] y ∧ reachable e) x.

Lemma publish_members_post ms (x : Exec) (Q : unit → Exec → Prop) :
  Books [] x → (∀ y, frame x y → Q tt y) → safe (publish_members env ms) Q x.
Proof.
  intros Hb HQ. unfold safe, publish_members. apply post_bind.
  unfold access, post at 1. destruct (let '(r, h) := publish_sample ms _ in _) as [r w] eqn:Er.
  assert (frame x (set_world (Datatypes.S (clock x)) w x)) as Hf by (repeat split; exists []; by rewrite app_nil_r).
  apply post_lift; [intros [] _; by apply HQ|]. intros e He. split; [by eapply books_frame|].
  destruct (publish_sample ms (hub (env (clock x) (shared x)))) as [r' h] eqn:Ep. injection Er as <- _.
  unfold publish_sample in Ep. repeat case_match; simplify_eq/=; unlisted.
Qed.

Lemma member_is c (s : Sequence) slot p d : cases (job_request (job s)) = [c] → ∃ m, member s slot p d = Ok m.
Proof. intros Hc. unfold member. rewrite Hc. by eexists. Qed.

Definition jobs (x : Exec) : gmap Z Job := job <$> live x.

Lemma jobs_update (x : Exec) k q q' : live x !! k = Some q → job q' = job q → job <$> <[k:=q']> (live x) = jobs x.
Proof. intros Hk Hj. rewrite fmap_insert, Hj. apply insert_id. unfold jobs. by rewrite lookup_fmap, Hk. Qed.

(** What the books and streams say survives what other threads do. *)
Lemma pool_frame layout R (x y : Exec) : frame x y → Pool layout R x → Pool layout R y.
Proof. intros (Hc & Hl & Hp & _) [H1 H2 H3 H4]. split; rewrite ?Hc, ?Hl, ?Hp; done. Qed.

(** One stream and its sequence move. *)
Lemma pool_update layout (R R' : Z → list Z → Sequence → Prop) (x y : Exec) k q q' :
  Pool layout R x → live x !! k = Some q → live y = <[k:=q']> (live x) → pending y = pending x →
  (∀ i, i ≠ k → stream (context y) i = stream (context x) i) →
  R' k (stream (context y) k) q' →
  (∀ i s, i ≠ k → live x !! i = Some s → R i (stream (context x) i) s → R' i (stream (context x) i) s) →
  Pool layout R' y.
Proof.
  intros [H1 H2 H3 H4] Hk Hl Hp Hs Hq HR. split; rewrite ?Hl, ?Hp; [| | |done].
  - intros i s [[<- <-]|[_ Hi]]%lookup_insert_Some; [by eapply H1|by eapply H1].
  - intros i s [[<- <-]|[Hne Hi]]%lookup_insert_Some; [done|]. rewrite Hs by done. auto.
  - intros i Hi. apply lookup_insert_None in Hi as [Hi Hne]. rewrite Hs by done. by apply H3.
Qed.

(** A sequence before the end of its prompt *)
Lemma sequence_prefilling cells (s : Sequence) :
  sequence_ok cells s → prefilled s < len (prompt s) →
  (∃ c, drafted s c None) ∧ finish s = None ∧ terminal_token s = None ∧ generating s = false ∧ token_ids s = [] ∧
  0 ≤ prefilled s ∧ pending_token s = None ∧ next_position s = len cells ∧ cells = take (Z.to_nat (prefilled s)) (prompt s).
Proof.
  intros (c & f & Hd & Hn & Hs) Hp. destruct (finish s) as [r|]; [destruct Hs as (_ & ? & _); lia|].
  destruct Hs as (Ht & -> & [(Hg & Hi & Hr & Hpt & Hc)|(_ & ? & _)]); [|lia]. split; [by exists c|]. tauto.
Qed.

Lemma prefilled_more cells (s : Sequence) n :
  sequence_ok cells s → prefilled s ≤ n < len (prompt s) →
  sequence_ok (cells ++ sub_list (prompt s) (prefilled s) n) (place n n (pending_token s) s).
Proof.
  intros Hs Hn. destruct (sequence_prefilling _ _ Hs ltac:(lia)) as ((c & Hd) & Hf & Ht & Hg & Hi & Hp & Hpt & _ & ->).
  assert (take (Z.to_nat (prefilled s)) (prompt s) ++ sub_list (prompt s) (prefilled s) n = take (Z.to_nat n) (prompt s)) as ->.
  { pose proof (sub_list_split (prompt s) 0 (prefilled s) n ltac:(lia) ltac:(lia)) as Hsp.
    unfold sub_list in Hsp at 1 2. by rewrite !drop_0, !Z.sub_0_r in Hsp. }
  exists c, None. split; [exact Hd|]. simpl. split; [unfold len in *; rewrite length_take; lia|]. rewrite Hf.
  split; [done|]. split; [done|]. left. repeat split; (done || lia).
Qed.
(** What the loop over the prefilling slots did: a prefix of them was fed. *)
Definition fed (l : list Z) (remaining : Z) (b b' : bool) (x y : Exec) : Prop :=
  ∃ l1 l2, l = l1 ++ l2 ∧ b' = b || negb (bool_decide (l1 = [])) ∧ (0 < remaining → l ≠ [] → l1 ≠ []) ∧
    prefill_cursor y = (match last l1 with Some k => (k + 1) mod MAX_LIVE | None => prefill_cursor x end) ∧
    (∀ k, len (stream (context x) k) ≤ len (stream (context y) k)) ∧
    (∀ k, k ∈ l1 → len (stream (context x) k) < len (stream (context y) k)).

Lemma fed_nothing l remaining b (x : Exec) : (remaining = 0 ∨ l = []) → fed l remaining b b x x.
Proof.
  intros H. exists [], l. rewrite bool_decide_true by done. rewrite orb_false_r. repeat split; try done.
  - intros ? ?. destruct H; [lia|done].
  - by intros k ?%elem_of_nil.
Qed.

Definition prefilling_slot (x : Exec) (k : Z) : Prop := ∃ q, live x !! k = Some q ∧ prefilled q + 1 < len (prompt q).

Lemma prefill_loop_post layout n_batch l remaining b (x : Exec) :
  Books [] x → Streams layout x → 0 ≤ remaining → NoDup l → Forall (prefilling_slot x) l →
  safe (prefill_loop env n_batch l remaining b)
    (λ b' y, Books [] y ∧ Streams layout y ∧ jobs y = jobs x ∧ fed l remaining b b' x y) x.
Proof.
  revert remaining b x. induction l as [|k l IH]; intros remaining b x Hb Hs Hr Hnd Hl.
  { apply post_ret. split_and!; [done..|]. apply fed_nothing. by right. }
  apply NoDup_cons in Hnd as [Hk Hnd]. apply Forall_cons in Hl as [(q & Hq & Hpq) Hl]. simpl.
  destruct (remaining =? 0) eqn:Er; [apply Z.eqb_eq in Er; apply post_ret; split_and!; [done..|]; apply fed_nothing; by left|].
  apply Z.eqb_neq in Er. apply post_bind, post_get. rewrite Hq. apply post_bind, post_lift; [|done]. simpl. intros ? [= <-].
  pose proof (pool_live _ _ _ Hs _ _ Hq) as Hok.
  destruct (sequence_prefilling _ _ Hok ltac:(lia)) as ((c & Hc & _) & _ & _ & _ & _ & Hp & _ & _ & Hcells).
  set (count := Z.min remaining (len (prompt q) - 1 - prefilled q)).
  assert (len (stream (context x) k) = prefilled q) as Hlen by (rewrite Hcells; unfold len in *; rewrite length_take; lia).
  assert (1 ≤ count) as Hcount by lia.
  set (toks := sub_list (prompt q) (prefilled q) (prefilled q + count)).
  assert (len toks = count) as Htoks by (unfold toks; rewrite sub_list_len by lia; lia).
  apply post_bind, decode_chunks_post; [lia|done|done| |intros e c'; split; [by apply (books_irrelevant _ x)|unlisted]].
  intros c' Hc'. apply post_bind. destruct (member_is c q k count 0 Hc) as [m Hm].
  apply post_lift; [|by rewrite Hm]. rewrite Hm. intros ? [= <-].
  apply post_bind, publish_members_post; [by apply (books_irrelevant _ x)|]. intros y2 Hy2.
  assert (Books [] y2) as Hb2 by (eapply books_frame; [exact Hy2|]; by apply (books_irrelevant _ x)).
  apply post_bind, post_modify. apply post_bind, post_modify.
  set (q' := place (prefilled q + count) (prefilled q + count) (pending_token q) q).
  destruct Hy2 as (Hcy & Hly & Hpy & Hcur & Htr).
  set (y3 := set_prefill_cursor ((k + 1) mod MAX_LIVE) (set_live (<[k:=q']> (live y2)) y2)).
  simpl in Hcy, Hly, Hpy, Hcur.
  assert (∀ s, stream (context y3) s = if s =? k then stream (context x) s ++ toks else stream (context x) s) as Hst by
    (intros s; simpl; by rewrite Hcy).
  assert (∀ s, len (stream (context x) s) ≤ len (stream (context y3) s)) as Hmore.
  { intros i. rewrite Hst. case_match; [rewrite len_app|]; pose proof (len_nonneg toks); lia. }
  assert (live y3 = <[k:=q']> (live x)) as Hl3 by (simpl; by rewrite Hly).
  assert (Streams layout y3) as Hs3.
  { eapply (pool_update _ _ _ x y3 k q q'); [exact Hs|done|done|exact Hpy| | |done].
    - intros i Hi. rewrite Hst. by rewrite (proj2 (Z.eqb_neq _ _) Hi).
    - rewrite Hst, Z.eqb_refl. apply prefilled_more; [done|lia]. }
  assert (Books [] y3) as Hb3.
  { apply (books_irrelevant _ (set_live (<[k:=q']> (live y2)) y2)); [done..|].
    apply (books_update _ _ _ q); [by rewrite Hly|done|done]. }
  assert (Forall (prefilling_slot y3) l) as Hl'.
  { rewrite Forall_forall in *. intros i Hi. destruct (Hl i Hi) as (s & Hs' & Hps). exists s.
    rewrite Hl3. rewrite lookup_insert_ne; [done|]. by intros ->. }
  eapply post_mono; [apply (IH _ _ y3); [done|done|lia|done|done]| |done].
  intros b' y (Hby & Hsy & Hjy & (l1 & l2 & -> & -> & _ & Hcy' & Hge & Hgt)). split_and!; [done|done| |].
  - rewrite Hjy. unfold jobs at 1. rewrite Hl3. by apply (jobs_update x k q).
  - exists (k :: l1), l2. split; [done|]. split; [by rewrite !orb_true_r|]. split; [done|]. split_and!.
    + rewrite Hcy', last_cons. by destruct (last l1).
    + intros i. etrans; [|apply Hge]. apply Hmore.
    + intros i [->|Hi]%elem_of_cons; [eapply Z.lt_le_trans; [|apply Hge]; rewrite Hst, Z.eqb_refl, len_app; lia|].
      eapply Z.le_lt_trans; [apply Hmore|by apply Hgt].
Qed.
(** The loop over the owners of the logits; [l] are those still to be sampled. *)
Definition sampling_left (l : list Z) (k : Z) (cells : list Z) (q : Sequence) : Prop :=
  if bool_decide (k ∈ l) then sampling_ok q ∧ cells = prompt q ++ token_ids q else sequence_ok cells q.

Lemma sample_loop_post layout l row (x : Exec) :
  Books [] x → Pool layout (sampling_left l) x → NoDup l → Forall (λ k, is_Some (live x !! k)) l →
  (∀ i k, l !! i = Some k → history (context x) (row + Z.of_nat i) = stream (context x) k) →
  safe (sample_loop env l row)
    (λ _ y, Books [] y ∧ Streams layout y ∧ jobs y = jobs x ∧ context y = context x ∧ prefill_cursor y = prefill_cursor x ∧
      ∀ k, k ∉ l → live y !! k = live x !! k) x.
Proof.
  revert row x. induction l as [|k l IH]; intros row x Hb Hs Hnd Hl Hh; simpl.
  { apply post_ret. by split_and!. }
  apply NoDup_cons in Hnd as [Hk Hnd]. apply Forall_cons in Hl as [[q Hq] Hl].
  apply post_bind, post_get. rewrite Hq. apply post_bind, post_lift; [|done]. simpl. intros ? [= <-].
  pose proof (pool_live _ _ _ Hs _ _ Hq) as Hok. unfold sampling_left in Hok. rewrite bool_decide_true in Hok by constructor.
  destruct Hok as [Hok Hcells]. specialize (Hh 0%nat k eq_refl) as Hh0. rewrite Z.add_0_r, Hcells in Hh0.
  apply post_bind. eapply post_mono; [apply framed_also; [apply framed_sample|by apply sample_post]| |].
  2: { intros e y [Hf He]. split; [by eapply books_frame|done]. }
  intros q' y (Hf & Hj & Hq'). apply post_bind, post_modify.
  set (y2 := set_live (<[k:=q']> (live y)) y). destruct Hf as (Hc & Hly & Hp & Hcur & Htr) eqn:E. clear E.
  assert (Books [] y) as Hby by (eapply books_frame; [|exact Hb]; by split_and!).
  assert (live y2 = <[k:=q']> (live x)) as Hl2 by (simpl; by rewrite Hly).
  eapply post_mono; [apply (IH (row + 1) y2)| |done].
  - apply (books_update _ _ _ q); [by rewrite Hly|done|done].
  - eapply (pool_update _ (sampling_left (k :: l)) _ x y2 k q q'); [exact Hs|done|done|exact Hp| | |].
    + intros i _. simpl. by rewrite Hc.
    + unfold sampling_left. rewrite bool_decide_false by done. simpl. by rewrite Hc, Hcells.
    + intros i s Hi _. unfold sampling_left. by rewrite (bool_decide_ext (i ∈ k :: l) (i ∈ l)) by set_solver.
  - done.
  - rewrite Forall_forall in *. intros i Hi. rewrite Hl2. rewrite lookup_insert_ne by (by intros ->). by apply Hl.
  - intros i k' Hi. simpl. rewrite Hc. rewrite <- (Hh (Datatypes.S i) k' Hi). f_equal. lia.
  - simpl. intros _ z (Hbz & Hsz & Hjz & Hcz & Hcurz & Hout). split_and!; [done|done| |congruence|congruence|].
    + rewrite Hjz. unfold jobs at 1. rewrite Hl2. by apply (jobs_update x k q).
    + intros i [Hi Hil]%not_elem_of_cons. rewrite Hout, Hly by done. by rewrite lookup_insert_ne.
Qed.

(** The loop that collects the ready sequences: one row each *)
Definition ready (q : Sequence) : Prop := prefilled q + 1 = len (prompt q) ∨ is_Some (pending_token q).

Definition row_ok (x : Exec) (r : Row) : Prop :=
  ∃ q, live x !! row_sequence r = Some q ∧ row_logits r = true ∧ row_position r = len (stream (context x) (row_sequence r)) ∧
    sampling_ok q ∧ stream (context x) (row_sequence r) ++ [row_token r] = prompt q ++ token_ids q.

Definition outside (o : list Z) (k : Z) (cells : list Z) (q : Sequence) : Prop := k ∉ o → sequence_ok cells q.

(** What a ready sequence feeds, and that it may be sampled then *)
Lemma sequence_ready cells (q : Sequence) :
  sequence_ok cells q →
  (prefilled q + 1 = len (prompt q) → ∃ t, last (prompt q) = Some t ∧
    sampling_ok (place (next_position q + 1) (prefilled q + 1) (pending_token q) q) ∧
    next_position q = len cells ∧ cells ++ [t] = prompt q ++ token_ids q) ∧
  (∀ t, prefilled q + 1 ≠ len (prompt q) → pending_token q = Some t →
    sampling_ok (place (next_position q + 1) (prefilled q) None q) ∧
    next_position q = len cells ∧ cells ++ [t] = prompt q ++ token_ids q).
Proof.
  intros Hs. split.
  - intros Hp. destruct (sequence_prefilling _ _ Hs ltac:(lia)) as ((c & Hd) & Hf & Ht & Hg & Hi & Hp0 & Hpt & Hn & Hcells).
    destruct (last (prompt q)) as [t|] eqn:El; [|apply last_None in El; rewrite El in Hp; unfold len in Hp; simpl in Hp; lia].
    exists t. apply last_Some in El as [l El]. rewrite El in *. rewrite len_app, len_cons, len_nil in Hp.
    rewrite take_app_length' in Hcells by (unfold len in *; lia). subst cells. rewrite Hi, app_nil_r.
    split; [done|]. split; [|done]. exists c. simpl. rewrite El, Hi, app_nil_r, len_app, len_cons, len_nil.
    split; [exact Hd|]. repeat split; (done || lia).
  - intros t Hp Hpt. destruct Hs as (c & f & Hd & Hn & Hs). destruct (finish q) eqn:Hf; [by destruct Hs as (_ & _ & ? & _); simplify_eq|].
    destruct Hs as (Ht & -> & [(_ & _ & _ & ? & _)|(Hg & Hp' & ids & t' & Hi & Hpt' & ->)]); [by simplify_eq|].
    simplify_eq. rewrite Hi, <- app_assoc. split; [|done]. exists c. simpl. rewrite Hn, Hi, !len_app, len_cons, len_nil.
    split; [exact Hd|]. repeat split; (done || lia).
Qed.
(** What the batch of ready rows is, at any point of the loop *)
Record batch_ok layout (x : Exec) (b : Ready) : Prop := {
  batch_books : Books [] x;
  batch_pool : Pool layout (outside (owners b)) x;
  batch_owners : row_sequence <$> rows b = owners b;
  batch_rows : Forall (row_ok x) (rows b);
}.

(** One more row *)
Definition with_row (r : Row) (m : DecodeMember) (b : Ready) : Ready :=
  {| rows := rows b ++ [r]; owners := owners b ++ [row_sequence r]; ready_members := ready_members b ++ [m] |}.

Lemma batch_more layout (x : Exec) b k q q' t m :
  batch_ok layout x b → live x !! k = Some q → k ∉ owners b → job q' = job q → sampling_ok q' →
  stream (context x) k ++ [t] = prompt q' ++ token_ids q' →
  batch_ok layout (set_live (<[k:=q']> (live x)) x)
    (with_row {| row_token := t; row_position := len (stream (context x) k); row_sequence := k; row_logits := true |} m b).
Proof.
  intros [Hb Hp Ho Hr] Hq Hk Hj Hs Ht. split.
  - by eapply books_update.
  - eapply (pool_update _ (outside (owners b)) _ x _ k q q'); [exact Hp|done|done|done|done| |].
    + simpl. intros Hn. destruct Hn. apply elem_of_app. right. by constructor.
    + simpl. intros i s Hi _ Ho' Hn. apply Ho'. intros Hin. apply Hn. apply elem_of_app. by left.
  - simpl. by rewrite fmap_app, Ho.
  - simpl. apply Forall_app. split.
    + rewrite Forall_forall in *. intros r Hin. destruct (Hr r Hin) as (s & Hs' & Hrest). exists s. simpl.
      rewrite lookup_insert_ne; [done|]. intros ->. destruct Hk. rewrite <- Ho. by apply list_elem_of_fmap_2.
    + constructor; [|done]. exists q'. simpl. rewrite lookup_insert_eq. done.
Qed.

Definition collected (l : list (Z * Sequence)) (b b' : Ready) (x y : Exec) : Prop :=
  jobs y = jobs x ∧ context y = context x ∧ prefill_cursor y = prefill_cursor x ∧
  (∀ k, k ∈ owners b → k ∈ owners b') ∧ NoDup (owners b') ∧ (∀ k, k ∉ l.*1 → live y !! k = live x !! k) ∧
  (∀ k q, (k, q) ∈ l → if decide (ready q) then k ∈ owners b' else live y !! k = Some q).

#[export] Instance ready_dec q : Decision (ready q).
Proof. unfold ready. apply _. Defined.

Lemma ready_loop_post layout capacity l b (x : Exec) :
  batch_ok layout x b → NoDup (owners b ++ l.*1) → Forall (λ p, live x !! p.1 = Some p.2) l → len (rows b) + len l ≤ capacity →
  safe (ready_loop capacity l b) (λ b' y, batch_ok layout y b' ∧ collected l b b' x y) x.
Proof.
  revert b x. induction l as [|[k q] l IH]; intros b x Hb Hnd Hl Hcap; simpl.
  { apply post_ret. rewrite app_nil_r in Hnd. split; [done|]. split_and!; [done..|]. by intros k q ?%elem_of_nil. }
  apply Forall_cons in Hl as [Hq Hl]. simpl in Hq. rewrite len_cons in Hcap. simpl in Hnd.
  assert (k ∉ owners b ∧ k ∉ l.*1) as [Hk Hkl].
  { apply NoDup_app in Hnd as (_ & Hd & Hn). apply NoDup_cons in Hn as [? _]. split; [|done].
    intros Hin. apply (Hd k Hin). by constructor. }
  pose proof (pool_live _ _ _ (batch_pool _ _ _ Hb) _ _ Hq Hk) as Hok.
  destruct (sequence_ready _ _ Hok) as [Hfinal Hnext]. pose proof Hok as (c & f & (Hc & _) & _).
  (* the step when there is a token *)
  assert (∀ t q', job q' = job q → sampling_ok q' → next_position q' - 1 = len (stream (context x) k) →
    stream (context x) k ++ [t] = prompt q' ++ token_ids q' → ready q → ∀ p d,
    safe (sm_lift (fail_if (capacity <? len (rows b) + 1) (native_decode_error "cooperative generation batch" "Insufficient Space")) ;;
      sm_modify (λ x, set_live (<[k:=q']> (live x)) x) ;;
      m ← sm_lift (member q' k p d) ;
      ready_loop capacity l (with_row {| row_token := t; row_position := next_position q' - 1; row_sequence := k; row_logits := true |} m b))
      (λ b' y, batch_ok layout y b' ∧ collected ((k, q) :: l) b b' x y) x) as Hstep.
  { intros t q' Hj Hs' Hn Ht Hr p d. rewrite (proj2 (Z.ltb_ge _ _)) by (pose proof (len_nonneg l); lia).
    apply post_bind, post_lift; [|done]. intros [] _. apply post_bind, post_modify.
    destruct (member_is c q' k p d) as [m Hm]; [by rewrite Hj|].
    apply post_bind, post_lift; [|by rewrite Hm]. intros m' Hm'. rewrite Hm in Hm'. injection Hm' as <-. rewrite Hn.
    eapply post_mono; [apply IH; [by eapply batch_more| | |]| |done].
    - simpl. rewrite <- app_assoc. simpl. done.
    - rewrite Forall_forall in *. intros [i s] Hin. simpl. rewrite lookup_insert_ne; [by apply (Hl (i, s))|].
      intros ->. destruct Hkl. by apply (list_elem_of_fmap_2 fst l (i, s)).
    - simpl. rewrite len_app, len_cons, len_nil. lia.
    - intros b' y (Hb' & Hj' & Hc' & Hcur' & Hin & Hnd' & Hout & Hall). split; [done|]. split_and!; [|done|done| |done| |].
      + rewrite Hj'. by apply (jobs_update x k q).
      + intros i Hi. apply Hin. simpl. apply elem_of_app. by left.
      + intros i [Hi Hil]%not_elem_of_cons. rewrite Hout by done. simpl. by rewrite lookup_insert_ne.
      + intros i s [[= -> ->]|Hi]%elem_of_cons; [|by apply Hall]. rewrite decide_True by done.
        apply Hin. simpl. apply elem_of_app. right. by constructor. }
  destruct (prefilled q + 1 =? len (prompt q)) eqn:Ef.
  - apply Z.eqb_eq in Ef. destruct (Hfinal Ef) as (t & -> & Hs' & Hn & Ht). apply Hstep; [done|done| |done|by left]. simpl. lia.
  - apply Z.eqb_neq in Ef. destruct (pending_token q) as [t|] eqn:Ep.
    + destruct (Hnext t Ef eq_refl) as (Hs' & Hn & Ht). apply Hstep; [done|done| |done|right; by rewrite Ep]. simpl. lia.
    + eapply post_mono; [apply IH; [done| |done|lia]| |done].
      * apply NoDup_app in Hnd as (H1 & H2 & [_ H3]%NoDup_cons). apply NoDup_app. split_and!; [done| |done].
        intros i Hi Hin. apply (H2 i Hi). by right.
      * intros b' y (Hb' & Hj' & Hc' & Hcur' & Hin & Hnd' & Hout & Hall). split; [done|]. split_and!; [done..| |].
        { intros i [_ Hi]%not_elem_of_cons. by apply Hout. }
        intros i s [[= -> ->]|Hi]%elem_of_cons; [|by apply Hall].
        rewrite decide_False by (intros [|[? ?]]; [done|congruence]). by rewrite Hout.
Qed.
(** The decode call of the ready rows *)
Lemma decode_ready_post layout (b : Ready) (x : Exec) :
  batch_ok layout x b → NoDup (owners b) →
  safe (decode_ready env b)
    (λ _ y, Books [] y ∧ Streams layout y ∧ jobs y = jobs x ∧ prefill_cursor y = prefill_cursor x ∧
      (∀ k, k ∉ owners b → live y !! k = live x !! k) ∧
      (∀ k, len (stream (context y) k) = len (stream (context x) k) + if bool_decide (k ∈ owners b) then 1 else 0)) x.
Proof.
  intros [Hb Hp Ho Hr] Hnd. unfold decode_ready. rewrite <- Ho in Hnd.
  assert (continues (stream (context x)) (rows b)) as Hcont.
  { apply continues_rows; [done|]. eapply Forall_impl; [exact Hr|]. intros r (q & _ & _ & Hpos & _). exact Hpos. }
  apply post_bind, decode_rows_post; [done| |intros e; split; [done|unlisted]]. intros c Hd Hs.
  apply post_bind, publish_members_post; [by apply (books_irrelevant _ x)|]. intros y Hy.
  assert (Books [] y) as Hby by (eapply books_frame; [exact Hy|]; by apply (books_irrelevant _ x)).
  destruct Hy as (Hc & Hl & Hpe & Hcur & _). simpl in Hc, Hl, Hpe, Hcur.
  assert (∀ k, len (stream (context y) k) = len (stream (context x) k) + if bool_decide (k ∈ owners b) then 1 else 0) as Hlen.
  { intros k. rewrite Hc, Hs. case_bool_decide as Hk; [|rewrite appended_other by (by rewrite Ho); lia].
    rewrite <- Ho in Hk. apply list_elem_of_fmap in Hk as (r & -> & Hin). rewrite appended_row by done.
    by rewrite len_app, len_cons, len_nil. }
  eapply post_mono; [apply (sample_loop_post layout)| |done].
  - done.
  - destruct Hp as [H1 H2 H3 H4]. split; rewrite ?Hl, ?Hpe; [done| | |done].
    + intros k q Hk. unfold sampling_left. rewrite Hc, Hs. case_bool_decide as Hin.
      * rewrite <- Ho in Hin. apply list_elem_of_fmap in Hin as (r & -> & Hin). rewrite Forall_forall in Hr.
        destruct (Hr r Hin) as (q' & Hq' & _ & _ & Hsam & Heq). rewrite Hk in Hq'. injection Hq' as <-.
        by rewrite appended_row.
      * rewrite appended_other by (by rewrite Ho). by apply H2.
    + intros k Hk. rewrite Hc, Hs, appended_other; [by apply H3|]. intros Hin. apply list_elem_of_fmap in Hin as (r & -> & Hin).
      rewrite Forall_forall in Hr. destruct (Hr r Hin) as (q' & Hq' & _). congruence.
  - by rewrite <- Ho.
  - rewrite Forall_forall. intros k Hk. rewrite <- Ho in Hk. apply list_elem_of_fmap in Hk as (r & -> & Hin).
    rewrite Forall_forall in Hr. destruct (Hr r Hin) as (q' & Hq' & _). rewrite Hl. by exists q'.
  - intros i k Hi. rewrite <- Ho in Hi. apply list_lookup_fmap_Some in Hi as (r & -> & Hi). rewrite Hc. simpl.
    eapply decode_logits; [exact Hd|done| |done|done]. eapply Forall_impl; [exact Hr|]. intros r' (q & _ & Hlog & _). exact Hlog.
  - simpl. intros _ z (Hbz & Hsz & Hjz & Hcz & Hcurz & Hout). split_and!; [done|done| |congruence| |].
    + rewrite Hjz. unfold jobs. by rewrite Hl.
    + intros k Hk. by rewrite Hout, Hl.
    + intros k. by rewrite Hcz.
Qed.
(** ** One step *)

Lemma elem_of_sorted_slots {A} (m : gmap Z A) k : k ∈ sorted_slots m ↔ is_Some (m !! k).
Proof. unfold sorted_slots. rewrite merge_sort_Permutation, elem_of_elements. apply elem_of_dom. Qed.
Lemma live_list_slots (m : gmap Z Sequence) : (live_list m).*1 = sorted_slots m.
Proof.
  unfold live_list. assert (Forall (λ k, is_Some (m !! k)) (sorted_slots m)) as Hl by (rewrite Forall_forall; apply elem_of_sorted_slots).
  induction Hl as [|k l [q Hq] _ IH]; [done|]. simpl. rewrite Hq. simpl. by f_equal.
Qed.
Lemma live_list_NoDup (m : gmap Z Sequence) : NoDup (live_list m).*1.
Proof. rewrite live_list_slots. unfold sorted_slots. rewrite merge_sort_Permutation. apply NoDup_elements. Qed.
Lemma elem_of_live_list (m : gmap Z Sequence) k q : (k, q) ∈ live_list m ↔ m !! k = Some q.
Proof.
  unfold live_list. rewrite list_elem_of_omap. split.
  - intros (i & _ & Hi). apply fmap_Some in Hi as (s & Hs & [= -> ->]). done.
  - intros Hk. exists k. rewrite elem_of_sorted_slots, Hk. by split; [eexists|].
Qed.

(** No more sequences than slots *)
Lemma live_list_le layout R (x : Exec) : Pool layout R x → len (live_list (live x)) ≤ Z.max 0 (slots layout).
Proof.
  intros Hp. unfold len. rewrite <- (length_fmap fst). rewrite <- (Z2Nat.id (Z.max 0 (slots layout))) by lia. apply inj_le.
  rewrite Z2Nat.inj_max by lia. simpl. replace (Z.to_nat (slots layout)) with (length (seqZ 0 (slots layout))) by apply length_seqZ.
  apply submseteq_length, NoDup_submseteq; [apply live_list_NoDup|]. intros k Hk.
  rewrite live_list_slots, elem_of_sorted_slots in Hk. destruct Hk as [q Hq]. apply elem_of_seqZ.
  pose proof (pool_slots _ _ _ Hp _ _ Hq). lia.
Qed.

Lemma turn_bound c k : 0 ≤ turn c k < MAX_LIVE.
Proof. unfold turn, MAX_LIVE. apply Z.mod_pos_bound. lia. Qed.
(** Who waits moves up when one in front of it was served. *)
Lemma turn_next c j k :
  0 ≤ j < MAX_LIVE → 0 ≤ k < MAX_LIVE → j ≠ k → turn c j ≤ turn c k → turn ((j + 1) mod MAX_LIVE) k < turn c k.
Proof. unfold turn, MAX_LIVE. intros. Z.to_euclidean_division_equations. lia. Qed.

#[export] Instance turn_le_total c : Total (turn_le c).
Proof. intros i j. unfold turn_le. lia. Qed.
#[export] Instance turn_le_trans c : Transitive (turn_le c).
Proof. intros i j k. unfold turn_le. lia. Qed.
Lemma elem_of_prefilling (m : gmap Z Sequence) k :
  k ∈ prefilling (live_list m) ↔ ∃ q, m !! k = Some q ∧ prefilled q + 1 < len (prompt q).
Proof.
  unfold prefilling. rewrite list_elem_of_fmap. split.
  - intros ([i q] & -> & Hin%list_elem_of_In%filter_In). destruct Hin as [Hin Hp]. simpl in *. exists q.
    rewrite <- list_elem_of_In, elem_of_live_list in Hin. apply Z.ltb_lt in Hp. done.
  - intros (q & Hq & Hp). exists (k, q). split; [done|]. apply list_elem_of_In, filter_In.
    rewrite <- list_elem_of_In, elem_of_live_list. simpl. by rewrite Z.ltb_lt.
Qed.
Lemma prefilling_NoDup (m : gmap Z Sequence) : NoDup (prefilling (live_list m)).
Proof.
  unfold prefilling. pose proof (live_list_NoDup m) as Hn. induction (live_list m) as [|[k q] l IH]; simpl; [constructor|].
  simpl in Hn. apply NoDup_cons in Hn as [Hk Hn]. case_match; simpl; [|by apply IH]. constructor; [|by apply IH].
  intros ([i s] & -> & Hin%list_elem_of_In%filter_In)%list_elem_of_fmap. destruct Hk. apply list_elem_of_fmap.
  exists (i, s). split; [done|]. destruct Hin as [Hin _]. by apply list_elem_of_In.
Qed.

(** An unfinished sequence is ready or fills its stream with its prompt. *)
Lemma sequence_busy cells (q : Sequence) :
  sequence_ok cells q → finish q = None → ready q ∨ prefilled q + 1 < len (prompt q).
Proof.
  intros (c & f & _ & _ & Hs) Hf. rewrite Hf in Hs. unfold ready.
  destruct Hs as (_ & _ & [(_ & _ & Hp & _)|(_ & _ & ids & t & _ & Hpt & _)]); [|left; right; by eexists].
  destruct (decide (prefilled q + 1 = len (prompt q))); [by left; left|right; lia].
Qed.

(** A waiting slot was fed, or one in front of it was. *)
Lemma fed_turn l remaining b b' (x y : Exec) k :
  fed l remaining b b' x y → 0 < remaining → StronglySorted (turn_le (prefill_cursor x)) l → NoDup l →
  Forall (λ i, 0 ≤ i < MAX_LIVE) l → k ∈ l →
  len (stream (context x) k) < len (stream (context y) k) ∨
  len (stream (context x) k) ≤ len (stream (context y) k) ∧ turn (prefill_cursor y) k < turn (prefill_cursor x) k.
Proof.
  intros (l1 & l2 & -> & _ & Hne & Hcur & Hge & Hgt) Hr Hso Hnd Hb Hk. apply elem_of_app in Hk as [Hk|Hk]; [left; by apply Hgt|].
  right. split; [apply Hge|]. specialize (Hne Hr ltac:(by intros ->%app_eq_nil%proj2; apply elem_of_nil in Hk)).
  destruct (last l1) as [j|] eqn:El; [|by apply last_None in El]. rewrite Hcur.
  assert (j ∈ l1) as Hj by (apply last_Some in El as [? ->]; apply elem_of_app; right; by constructor).
  rewrite Forall_forall in Hb. apply turn_next.
  - apply Hb. apply elem_of_app. by left.
  - apply Hb. apply elem_of_app. by right.
  - intros ->. apply NoDup_app in Hnd as (_ & Hd & _). by apply (Hd k).
  - apply StronglySorted_app in Hso as (Hso & _ & _). by apply Hso.
Qed.

Lemma step_post layout n_batch (x : Exec) :
  Books [] x → Streams layout x → slots layout ≤ MAX_LIVE → slots layout ≤ n_batch →
  live x ≠ ∅ → (∀ k q, live x !! k = Some q → finish q = None) →
  safe (step env n_batch)
    (λ _ y, Books [] y ∧ Streams layout y ∧ jobs y = jobs x ∧ ∀ k j, jobs x !! k = Some j → rank y k j < rank x k j) x.
Proof.
  intros Hb Hs Hsl Hsb Hne Hf. destruct (map_choose _ Hne) as (k0 & q0 & Hk0).
  pose proof (pool_slots _ _ _ Hs _ _ Hk0) as Hslot0.
  unfold step. apply post_bind, post_get, post_bind.
  eapply post_mono; [apply (ready_loop_post layout)| |done].
  { split; [done| |done|constructor]. destruct Hs as [H1 H2 H3 H4]. split; [done| |done..]. intros k q Hk _. by apply H2. }
  { simpl. apply live_list_NoDup. }
  { rewrite Forall_forall. intros [k q] Hin. by apply elem_of_live_list. }
  { simpl. rewrite len_nil. pose proof (live_list_le _ _ _ Hs). lia. }
  intros b y (Hby & Hjy & Hcy & Hcury & _ & Hndy & _ & Hready).
  set (grown := λ k : Z, if bool_decide (k ∈ owners b) then 1 else 0).
  apply post_bind.
  eapply (post_mono _ (λ _ z, Books [] z ∧ Streams layout z ∧ jobs z = jobs x ∧ prefill_cursor z = prefill_cursor x ∧
    (∀ k, k ∉ owners b → live z !! k = live y !! k) ∧
    (∀ k, len (stream (context z) k) = len (stream (context x) k) + grown k)) _ (λ e y, Books [] y ∧ reachable e)); [| |done].
  { case_bool_decide as Ho; simpl.
    - apply post_ret. destruct Hby as [H1 H2 _ _]. split_and!; [done| |done..|].
      + destruct H2 as [P1 P2 P3 P4]. split; [done| |done..]. intros k q Hk. apply (P2 k q Hk). rewrite Ho. by apply not_elem_of_nil.
      + intros k. unfold grown. rewrite Ho, bool_decide_false by apply not_elem_of_nil. rewrite Hcy. lia.
    - eapply post_mono; [by apply (decode_ready_post layout)| |done]. intros _ z (H1 & H2 & H3 & H4 & H5 & H6).
      split_and!; [done|done|congruence|congruence|done|]. intros k. by rewrite H6, Hcy. }
  intros _ z (Hbz & Hsz & Hjz & Hcz & Hout & Hlen). apply post_bind, post_get, post_bind.
  set (order := merge_sort (turn_le (prefill_cursor z)) (prefilling (live_list (live z)))).
  assert (order ≡ₚ prefilling (live_list (live z))) as Hperm by apply merge_sort_Permutation.
  assert (∀ k, k ∈ order → prefilling_slot z k) as Hslots by (intros k; rewrite Hperm; apply elem_of_prefilling).
  assert (0 < Z.min n_batch PREFILL_QUANTUM) as Hquantum by (unfold PREFILL_QUANTUM; lia).
  eapply post_mono; [apply (prefill_loop_post layout); [done|done|lia| |by apply Forall_forall]| |done].
  { rewrite Hperm. apply prefilling_NoDup. }
  intros b' w (Hbw & Hsw & Hjw & Hfed).
  assert (∀ k q, live x !! k = Some q → k ∈ owners b ∨ k ∈ order) as Hbusy.
  { intros k q Hk. destruct (decide (k ∈ owners b)) as [|Hin]; [by left|]. right.
    pose proof (proj2 (elem_of_live_list _ _ _) Hk) as Hkl. apply Hready in Hkl. destruct (decide (ready q)) as [|Hr]; [done|].
    destruct (sequence_busy _ _ (pool_live _ _ _ Hs _ _ Hk) (Hf _ _ Hk)) as [|Hp]; [done|].
    rewrite Hperm. apply elem_of_prefilling. exists q. by rewrite Hout. }
  assert (b' = true) as ->.
  { pose proof Hfed as (l1 & l2 & Ho & -> & Hl1 & _). destruct (Hbusy _ _ Hk0) as [Hin|Hin].
    - rewrite bool_decide_false; [done|]. intros E. rewrite E in Hin. by apply elem_of_nil in Hin.
    - rewrite (bool_decide_false (l1 = [])); [by rewrite orb_true_r|]. apply Hl1; [done|]. intros E. rewrite E in Hin.
      by apply elem_of_nil in Hin. }
  apply post_ret. split_and!; [done|done|congruence|]. intros k j Hj. unfold jobs in Hj. rewrite lookup_fmap in Hj.
  apply fmap_Some in Hj as (q & Hk & ->). unfold rank. pose proof (turn_bound (prefill_cursor w) k).
  pose proof (turn_bound (prefill_cursor x) k). rewrite <- Hcz. unfold MAX_LIVE in *.
  pose proof (Hlen k) as Hlk. assert (0 ≤ grown k) by (unfold grown; case_match; lia).
  destruct (Hbusy k q Hk) as [Hin|Hin].
  - assert (grown k = 1) as Hg by (unfold grown; by rewrite bool_decide_true). rewrite Hg in Hlk.
    destruct Hfed as (_ & _ & _ & _ & _ & _ & Hge & _). specialize (Hge k). rewrite <- Hcz in *. lia.
  - destruct (fed_turn _ _ _ _ _ _ k Hfed) as [Hlt|[Hle Hlt]]; [done| | | |done|rewrite <- Hcz in *; lia|lia].
    + apply StronglySorted_merge_sort; apply _.
    + rewrite Hperm. apply prefilling_NoDup.
    + apply Forall_forall. intros i Hi. destruct (Hslots i Hi) as (s & Hs' & _). pose proof (pool_slots _ _ _ Hsz _ _ Hs'). unfold MAX_LIVE. lia.
Qed.
End Streams.
End CooperativeStreams.
