(* ===== verification/CooperativeLoop.v ===== *)
(** * CooperativeLoop: rounds of the owner thread

    Of Cooperative.v: settling, receiving, admitting and draining, one round and the whole
    loop, against the books and streams of CooperativeSpec.v. *)

From S2P Require Import Prelude Bytes Text Utf8 OperationSpec NativeRegistry SpeculativeAdmission GenerationTypes GenerationEvidence Cooperative CooperativeSpec CooperativeBooks CooperativeStreams.
Local Open Scope Z_scope.

Module CooperativeRun.
Import CooperativeFrames CooperativeBooks CooperativeDrafts CooperativeStreams.
Section Run.
Context {C S D : Type} {L : Llama C S D} {LL : LlamaLaws L}.
Notation Exec := (Exec (C:=C) (S:=S) (D:=D)).
Notation Sequence := (Sequence (S:=S) (D:=D)).
Notation Co := (SM Exec (fault EngineError)).
Context (env : nat → Shared → Shared).

Lemma post_attempt {A} (m : Co A) Q F x :
  post m (λ a, Q (Ok a)) (λ e y, match e with Fail f => Q (Err f) y | p => F p y end) x → post (attempt m) Q F x.
Proof. unfold post, attempt. destruct (m x) as [[a|[| |e]] y]; auto. Qed.

Lemma post_for_each {A} (I : list A → Exec → Prop) (f : A → Co unit) l (x : Exec) Q F :
  (∀ a l y, I (a :: l) y → post (f a) (λ _, I l) F y) → (∀ y, I [] y → Q tt y) → I l x → post (for_each f l) Q F x.
Proof.
  intros Hf HQ. revert x. induction l as [|a l IH]; intros x HI; simpl; [by apply post_ret, HQ|].
  apply post_bind. eapply post_mono; [by apply Hf| |done]. intros ? y Hy. by apply IH.
Qed.

(** Only the trail and what is shared changed. *)
Definition same_pool (x y : Exec) : Prop :=
  context y = context x ∧ live y = live x ∧ pending y = pending x ∧ prefill_cursor y = prefill_cursor x ∧ trail x `prefix_of` trail y.

#[export] Instance same_pool_preorder : PreOrder same_pool.
Proof.
  split; [by intros x; repeat split|]. intros x y z (H1 & H2 & H3 & H4 & H5) (H1' & H2' & H3' & H4' & H5').
  repeat split; [congruence..|by etrans].
Qed.
Lemma frame_same x y : frame x y → same_pool x y.
Proof. intros (H1 & H2 & H3 & H4 & es & _ & Ht). repeat split; [done..|by exists es]. Qed.

Lemma answered_mono (x y : Exec) t : trail x `prefix_of` trail y → t ∈ answered x → t ∈ answered y.
Proof. intros [es Ht] Hin. unfold answered in *. rewrite Ht, omap_app. apply elem_of_app. by left. Qed.

(** The job that is owed first is answered. *)
Definition answered_well (j : Job) (r : result EngineError GenerationCompletion) : Prop :=
  match r with Ok g => ∃ o, outputs g = [o] ∧ own_output (job_request j) o | Err _ => True end.

Lemma answering_books o (x y : Exec) j r :
  answering (job_ticket j) r x y → answered_well j r → Books (j :: o) x →
  Books o y ∧ same_pool x y ∧ job_ticket j ∈ answered y.
Proof.
  intros Ha Hr Hb. split_and!.
  - eapply books_answer; [exact Ha|done| |done]. destruct r as [g|e]; [|done]. destruct Hr as (p & Hp & Ho).
    destruct (Forall_cons_1 _ _ _ (books_owed _ _ Hb)) as [(b & Hin & Ht & Hreq) _]. exists b, p. by rewrite <- Hreq.
  - destruct Ha as (H1 & H2 & H3 & H4 & es & es' & _ & _ & Ht). repeat split; [done..|by eexists].
  - destruct Ha as (_ & _ & _ & _ & es & es' & _ & _ & Ht). unfold answered. rewrite Ht, !omap_app.
    do 2 (apply elem_of_app; right). by left.
Qed.

Definition settled (o : list Job) (j : Job) (x y : Exec) : Prop := Books o y ∧ same_pool x y ∧ job_ticket j ∈ answered y.

Lemma reject_books o j e (x : Exec) Q F :
  Books (j :: o) x → (∀ y, settled o j x y → Q tt y) → post (reject env j e) Q F x.
Proof. intros Hb HQ. apply reject_post. intros y Hy. apply HQ. by eapply (answering_books o). Qed.
Lemma fail_books o (q : Sequence) e (x : Exec) Q F :
  Books (job q :: o) x → (∀ y, settled o (job q) x y → Q tt y) → post (fail_sequence env q e) Q F x.
Proof. intros Hb HQ. apply publish_post. intros y Hy. apply HQ. by eapply (answering_books o). Qed.

Lemma finish_books fp c f o (q : Sequence) (x : Exec) Q F :
  Books (job q :: o) x → drafted q c f →
  (generating q = true → ∀ r, finish q = Some r → r = "cancelled"%string ∨ f = Some (r, terminal_token q)) →
  (∀ y, settled o (job q) x y → Q tt y) → post (finish_sequence env fp q) Q F x.
Proof.
  intros Hb Hd Hf HQ. unfold finish_sequence. apply post_bind, post_attempt.
  eapply post_mono; [apply framed_also; [apply framed_completion|by eapply completion_post]| |].
  - intros g y (Hxy & p & Hp & Ho). apply publish_post. intros z Hz.
    destruct (answering_books o y z (job q) (Ok g) Hz) as (H1 & H2 & H3); [by exists p|by eapply books_frame|].
    apply HQ. split_and!; [done|etrans; [by apply frame_same|done]|done].
  - intros [| |e] y [Hxy He]; try done. apply publish_post. intros z Hz.
    destruct (answering_books o y z (job q) (Err e) Hz) as (H1 & H2 & H3); [done|by eapply books_frame|].
    apply HQ. split_and!; [done|etrans; [by apply frame_same|done]|done].
Qed.

Lemma clear_slot_post slot used (x : Exec) Q (F : fault EngineError → Exec → Prop) :
  (used = false → stream (context x) slot = []) →
  (∀ c, (∀ s, stream c s = if s =? slot then [] else stream (context x) s) → Q tt (set_context c x)) →
  (∀ e c, reachable (Fail e) → F (Fail e) (set_context c x)) → post (clear_slot slot used) Q F x.
Proof.
  intros Hu HQ HF. unfold clear_slot. destruct used.
  - apply post_bind, context_call_post.
    + intros [] c Hc; [|apply post_throw, HF; unlisted]. apply post_ret, HQ. by apply clear_seq_clears.
    + intros e. rewrite <- (set_context_same x). apply HF. unlisted.
  - rewrite <- (set_context_same x). apply post_ret, HQ. intros s. case_match eqn:E; [|done]. apply Z.eqb_eq in E as ->. by apply Hu.
Qed.

Lemma exact_nonempty c ts : exact_generation_case_token_ids c = Some ts → 0 < len ts.
Proof.
  unfold exact_generation_case_token_ids. intros He. repeat case_match; simplify_eq. bool_prop.
  destruct ts as [|t ts]; [done|]. rewrite len_cons. pose proof (len_nonneg ts). lia.
Qed.

Context (layout : StreamLayout).

(** What ending slot [k] leaves of the others *)
Definition ended (k : Z) (q : Sequence) (x y : Exec) : Prop :=
  live y = delete k (live x) ∧ pending y = pending x ∧ prefill_cursor y = prefill_cursor x ∧ trail x `prefix_of` trail y ∧
  (∀ s, s ≠ k → stream (context y) s = stream (context x) s) ∧ job_ticket (job q) ∈ answered y.

Lemma streams_ended k c (x y : Exec) :
  Streams layout x → context y = c → live y = delete k (live x) → pending y = pending x →
  (∀ s, stream c s = if s =? k then [] else stream (context x) s) → Streams layout y.
Proof.
  intros [H1 H2 H3 H4] <- Hl Hp Hc. split; rewrite ?Hl, ?Hp; [| | |done].
  - intros i s [_ Hi]%lookup_delete_Some. by eapply H1.
  - intros i s [Hne Hi]%lookup_delete_Some. rewrite Hc, (proj2 (Z.eqb_neq _ _)) by done. by apply H2.
  - intros i [<-|Hi]%lookup_delete_None; rewrite Hc; [by rewrite Z.eqb_refl|]. case_match; [done|by apply H3].
Qed.

Lemma settle_slot_post fp k q (x : Exec) :
  Books [] x → Streams layout x → live x !! k = Some q →
  safe (settle_slot env fp k) (λ _ y, Books [] y ∧ Streams layout y ∧ ended k q x y) x.
Proof.
  intros Hb Hs Hk. pose proof (pool_live _ _ _ Hs _ _ Hk) as Hok. unfold settle_slot.
  apply post_bind, post_get. rewrite Hk. apply post_bind, post_lift; [|done]. simpl. intros ? [= <-].
  apply post_bind, post_modify. set (x1 := set_live (delete k (live x)) x).
  assert (Books [job q] x1) as Hb1 by by apply books_out.
  apply post_bind, post_attempt, clear_slot_post.
  { intros Hu%negb_false_iff%Z.eqb_eq. destruct (decide (prefilled q < len (prompt q))) as [Hlt|Hlt].
    - destruct (sequence_prefilling _ _ Hok Hlt) as (_ & _ & _ & _ & _ & _ & _ & _ & Hc). by rewrite Hu in Hc.
    - destruct Hok as (c & f & (_ & Hex%exact_nonempty & _) & _). lia. }
  - intros c Hc. set (x2 := set_context c x1).
    assert (∀ y, settled [] (job q) x2 y → Books [] y ∧ Streams layout y ∧ ended k q x y) as Hend.
    { intros y (Hby & (H1 & H2 & H3 & H4 & H5) & Hans). simpl in H1, H2, H3, H4, H5.
      split; [done|]. split; [by eapply streams_ended|]. split_and!; [done..| |done].
      intros s Hne. rewrite H1, Hc. by rewrite (proj2 (Z.eqb_neq _ _)). }
    assert (Books [job q] x2) as Hb2 by by apply (books_irrelevant _ x1).
    assert (∀ y z, frame x2 y → settled [] (job q) y z → settled [] (job q) x2 z) as Hframe.
    { intros y z Hy (H1 & H2 & H3). split_and!; [done| |done]. etrans; [by apply frame_same|done]. }
    apply post_bind, quiet_post; [apply quiet_access|]. intros force y Hy. destruct force.
    + apply (fail_books []); [by eapply books_frame|]. intros z Hz. by eapply Hend, Hframe.
    + apply post_bind, quiet_post; [apply quiet_access|]. intros can y2 Hy2.
      assert (frame x2 y2) as Hxy2 by by etrans.
      pose proof Hok as (c0 & f & Hd & _ & Hfin).
      apply (finish_books fp c0 f []); [destruct can; by eapply books_frame|by destruct can| |].
      * destruct can; simpl; [by intros _ r [= <-]; left|]. intros Hg r Hr. rewrite Hr in Hfin. tauto.
      * intros z Hz. apply Hend. destruct can; by eapply Hframe.
  - intros e c He. apply post_bind, (fail_books []); [by apply (books_irrelevant _ x1)|]. intros y (Hby & _). by apply post_throw.
Qed.
(** Sequences are answered or stay as they are. *)
Definition kept (x y : Exec) : Prop :=
  prefill_cursor y = prefill_cursor x ∧ trail x `prefix_of` trail y ∧
  ∀ k q, live x !! k = Some q →
    job_ticket (job q) ∈ answered y ∨ live y !! k = Some q ∧ stream (context y) k = stream (context x) k.

#[export] Instance kept_preorder : PreOrder kept.
Proof.
  split; [by intros x; split_and!; auto|]. intros x y z (H1 & H2 & H3) (H1' & H2' & H3'). split_and!; [congruence|by etrans|].
  intros k q Hk. destruct (H3 k q Hk) as [Ha|[Hl Hs]]; [left; by eapply answered_mono|].
  destruct (H3' k q Hl) as [Ha|[Hl' Hs']]; [by left|]. right. split; [done|congruence].
Qed.

Lemma kept_ended k q (x y : Exec) : live x !! k = Some q → ended k q x y → kept x y.
Proof.
  intros Hk (E1 & E2 & E3 & E4 & E5 & E6). split_and!; [done|done|]. intros i s Hi. rewrite E1.
  destruct (decide (i = k)) as [->|Hne]; [left; by simplify_eq|]. right. rewrite lookup_delete_ne, E5 by done. done.
Qed.

(** Nothing moved but the pending request. *)
Definition same_live (x y : Exec) : Prop :=
  context y = context x ∧ live y = live x ∧ prefill_cursor y = prefill_cursor x ∧ trail x `prefix_of` trail y.

#[export] Instance same_live_preorder : PreOrder same_live.
Proof.
  split; [by intros x; repeat split|]. intros x y z (H1 & H2 & H3 & H4) (H1' & H2' & H3' & H4').
  repeat split; [congruence..|by etrans].
Qed.
Lemma same_pool_live x y : same_pool x y → same_live x y.
Proof. intros (H1 & H2 & H3 & H4 & H5). by repeat split. Qed.
Lemma frame_live x y : frame x y → same_live x y.
Proof. intros H. by apply same_pool_live, frame_same. Qed.

Lemma kept_live x y : same_live x y → kept x y.
Proof. intros (H1 & H2 & H3 & H4). unfold kept. rewrite H1, H2. split_and!; [done..|]. intros k q Hk. by right. Qed.

Lemma ended_slots_post l (x : Exec) Q F :
  (∀ r y, frame x y → r `sublist_of` l.*1 → (∀ k q, (k, q) ∈ l → finish q = None ∨ k ∈ r) → Q r y) →
  post (ended_slots env l) Q F x.
Proof.
  revert x Q. induction l as [|[k q] l IH]; intros x Q HQ; simpl.
  { apply post_ret, HQ; [done|done|]. by intros k q ?%elem_of_nil. }
  apply post_bind, (post_mono _ (λ b y, frame x y ∧ (finish q = None ∨ b = true)) _ (λ _ _, False)); [| |done].
  { case_bool_decide as Hf; [apply post_ret; by split; [|right]|].
    assert (finish q = None) by (by apply eq_None_not_Some). apply post_bind, quiet_post; [apply quiet_access|].
    intros b y Hy. destruct b; [apply post_ret; by split; [|left]|]. apply quiet_post; [apply quiet_access|].
    intros b z Hz. split; [by etrans|by left]. }
  intros b y [Hy Hb]. apply post_bind, IH. intros r z Hz Hsub Hall. apply post_ret, HQ; [by etrans| |].
  - destruct b; [by apply sublist_skip|by apply sublist_cons].
  - intros i s [[= -> ->]|Hi]%elem_of_cons.
    + destruct Hb as [Hb| ->]; [by left|right; by left].
    + destruct (Hall i s Hi); [by left|right]. destruct b; [by right|done].
Qed.

Lemma settle_post fp (x : Exec) :
  Books [] x → Streams layout x →
  safe (settle env fp) (λ _ y, Books [] y ∧ Streams layout y ∧ kept x y ∧ ∀ k q, live y !! k = Some q → finish q = None) x.
Proof.
  intros Hb Hs. unfold settle. apply post_bind, post_get, post_bind, ended_slots_post. intros r y Hy Hsub Hall.
  apply (post_for_each (λ l z, Books [] z ∧ Streams layout z ∧ kept x z ∧ NoDup l ∧ Forall (λ k, is_Some (live z !! k)) l ∧
    ∀ k q, live z !! k = Some q → finish q = None ∨ k ∈ l)).
  - intros k l z (Hbz & Hsz & Hk & Hnd & Hl & Hfin). apply Forall_cons in Hl as [[q Hq] Hl]. apply NoDup_cons in Hnd as [Hkl Hnd].
    eapply post_mono; [by apply settle_slot_post| |done]. intros ? w (Hbw & Hsw & He). pose proof He as (El & _).
    split_and!; [done|done|etrans; [done|by eapply kept_ended]|done| |]; rewrite El.
    + eapply Forall_impl; [apply (proj2 (Forall_forall _ _) (λ i Hi, conj Hi (proj1 (Forall_forall _ _) Hl i Hi)))|].
      intros i [Hi [s Hs']]. exists s. rewrite lookup_delete_ne; [done|]. by intros ->.
    + intros i s [Hne Hi]%lookup_delete_Some. destruct (Hfin i s Hi) as [|Hin]; [by left|right]. by apply elem_of_cons in Hin as [|].
  - intros z (Hbz & Hsz & Hk & _ & _ & Hfin). split_and!; [done..|]. intros k q Hq. by destruct (Hfin k q Hq) as [|?%elem_of_nil].
  - pose proof Hy as (_ & Hly & _). split_and!; [by eapply books_frame|by eapply pool_frame|by apply kept_live, frame_live| | |].
    + eapply sublist_NoDup; [|exact Hsub]. apply live_list_NoDup.
    + apply Forall_forall. intros k Hk. apply (sublist_subseteq _ _ Hsub) in Hk. rewrite live_list_slots, elem_of_sorted_slots in Hk. by rewrite Hly.
    + intros k q Hq. apply Hall. apply elem_of_live_list. by rewrite <- Hly.
Qed.
(** ** Admission *)

Lemma validate_Ok r u :
  validate_request r = Ok u → ∃ c ts, cases r = [c] ∧ input c = Completion [Tokens ts] ∧ ts ≠ [] ∧ len ts ≤ MAX_PROMPT_TOKENS ∧
    1 ≤ max_tokens c ≤ MAX_OUTPUT_TOKENS.
Proof.
  unfold validate_request. destruct (cases r) as [|c [|]]; [done| |done]. intros Hv.
  destruct (_ || _); [done|]. simpl in Hv. destruct (negb ((1 <=? _) && _)) eqn:Em; [done|]. simpl in Hv.
  destruct (negb _) eqn:Ei in Hv; [done|]. apply negb_false_iff in Em, Ei.
  destruct (input c) as [| ps |] eqn:Hinput; try done. destruct ps as [|[|ts] [|]]; try done. exists c, ts.
  apply andb_true_iff in Em as [?%Z.leb_le ?%Z.leb_le]. bool_prop. split_and!; done.
Qed.

Lemma prepare_Ok j cells p : prepare j cells = Ok p → pending_job p = j ∧ ∃ c, cases (job_request j) = [c] ∧
  exact_generation_case_token_ids c = Some (pending_tokens p) ∧ 1 ≤ max_tokens c ∧ 1 ≤ pending_cells p ≤ cells.
Proof.
  unfold prepare. intros ([] & Hv & Hp)%bind_Ok. destruct (validate_request _) as [u|] eqn:Ev; [|done].
  apply validate_Ok in Ev as (c & ts & Hc & Hi & Hne & _ & Hm). rewrite Hc in Hp. simpl in Hp.
  unfold generation_case_tokens in Hp. rewrite Hi in Hp.
  apply bind_Ok in Hp as (tokens & ([] & _ & [= <-])%bind_Ok & (n & Hn%need_Ok%checked_add_Some & ([] & Hf%fail_if_Ok & [= <-])%bind_Ok)%bind_Ok).
  destruct Hn as [-> _]. bool_prop. simpl. split; [done|]. exists c. unfold exact_generation_case_token_ids. rewrite Hi, bool_decide_false by done.
  assert (0 < len ts) by (destruct ts; [done|]; rewrite len_cons; pose proof (len_nonneg ts); lia).
  unfold saturating_sub in *. split_and!; (done || lia).
Qed.

Lemma prepare_error j cells e : prepare j cells = Err e → own_error e.
Proof.
  unfold prepare. destruct (validate_request _) as [u|] eqn:Ev; [|by intros [= <-]].
  apply validate_Ok in Ev as (c & ts & Hc & Hi & _). rewrite Hc. simpl. unfold generation_case_tokens. rewrite Hi.
  intros He. match type of He with ?v = _ => assert (returns_with (λ _, True) v) as Hv end; [|rewrite He in Hv; by destruct e].
  eapply (returns_with_bind (λ _, True)); [by parse_step|]. intros tokens _. do 2 parse_step. by apply Ok_returns.
Qed.

Lemma from_command_post b (x : Exec) (Q : Job → Exec → Prop) :
  Books [] x →
  (∀ j y, job_of j b → frame (record (Taken b) x) y → Books [j] y → Q j y) →
  safe (from_command env b) Q (record (Taken b) x).
Proof.
  intros Hb HQ. unfold from_command.
  assert (∀ j, job_of j b → Books [j] (record (Taken b) x)) as Htake by by (intros j Hj; apply books_take).
  assert (post (sm_modify (record (Answered (ticket b) (Err (internal "cooperative request lost its independent controls")))) ;;
      drop_lease env (request_lease b) ;; sm_throw (Fail (internal "cooperative request lost its independent controls")))
      Q (λ e y, Books [] y ∧ reachable e) (record (Taken b) x)) as Hlost.
  { apply post_bind, post_modify, post_bind, quiet_post; [apply quiet_access|]. intros [] y Hy. apply post_throw. split; [|unlisted].
    set (j := {| job_ticket := ticket b; job_request := request b; cancel := 0%nat; reasoning_force := 0%nat; lease := request_lease b |}).
    pose proof (answering_before _ _ _ _ _ (answering_record (job_ticket j) _ (record (Taken b) x)) Hy) as Ha.
    apply (answering_books [] _ y j _ Ha); [done|by apply Htake]. }
  destruct (cancellations b) as [|f [|]]; try exact Hlost. destruct (reasoning_forces b) as [|g [|]]; try exact Hlost.
  apply post_ret. apply HQ; [done|reflexivity|by apply Htake].
Qed.
Lemma streams_pend (x y : Exec) :
  Streams layout x → context y = context x → live y = live x → (∀ p, pending y = Some p → pending_ok layout p) → Streams layout y.
Proof. intros [H1 H2 H3 H4] Hc Hl Hp. split; rewrite ?Hc, ?Hl; done. Qed.

(** The state after a job was answered that was not live *)
Lemma streams_settled j (x y z : Exec) :
  Streams layout x → pending x = None → same_live x y → pending y = None → settled [] j y z →
  Books [] z ∧ Streams layout z ∧ pending z = None ∧ same_live x z.
Proof.
  intros Hs Hpx Hxy Hpy (Hb & Hsp & _). pose proof Hsp as (H1 & H2 & H3 & _). assert (pending z = None) as Hpz by congruence.
  assert (same_live x z) as Hxz by (etrans; [exact Hxy|by apply same_pool_live]). split_and!; [done| |done|done].
  destruct Hxz as (Hc & Hl & _). apply (streams_pend x); [done..|]. intros p Hp. congruence.
Qed.

Lemma receive_post c d (x : Exec) :
  Books [] x → Streams layout x → pending x = None →
  safe (receive env (layout_cells layout) c d) (λ _ y, Books [] y ∧ Streams layout y ∧ same_live x y) x.
Proof.
  intros Hb Hs Hp. destruct c as [b|n]; simpl.
  2: { apply post_bind, post_modify, post_ret. split_and!; [by apply (books_irrelevant _ x)|by apply (streams_pend x); try apply Hs|by repeat split]. }
  apply post_bind, post_modify, post_bind, from_command_post; [done|]. intros j y Hj Hy Hby.
  assert (same_live x y) as Hxy by (etrans; [|by apply frame_live]; repeat split; by eexists).
  assert (pending y = None) as Hpy by (destruct Hy as (_ & _ & -> & _); done).
  apply post_bind, quiet_post; [apply quiet_access|]. intros can z Hz.
  assert (Books [j] z) as Hbz by by eapply books_frame.
  assert (same_live x z) as Hxz by (etrans; [done|by apply frame_live]).
  assert (pending z = None) as Hpz by (destruct Hz as (_ & _ & -> & _); done).
  assert (∀ e, safe (reject env j e ;; mret d) (λ _ y, Books [] y ∧ Streams layout y ∧ same_live x y) z) as Hreject.
  { intros e. apply post_bind, (reject_books []); [done|]. intros w Hw. apply post_ret.
    by destruct (streams_settled j x z w) as (? & ? & _ & ?). }
  destruct can; [apply Hreject|]. destruct (prepare j (layout_cells layout)) as [p|e] eqn:Ep.
  - apply prepare_Ok in Ep as (Hj' & Hok). apply post_bind, post_modify, post_ret. split_and!; [apply books_pend; [done|by rewrite Hj']| |done].
    destruct Hxz as (H1 & H2 & _). apply (streams_pend x); [done..|]. simpl. intros ? [= <-]. unfold pending_ok. by rewrite Hj'.
  - apply prepare_error in Ep. destruct e as [| |e]; try done. apply Hreject.
Qed.

Lemma start_post p (x : Exec) Q F :
  pending_ok layout p → (∀ e y, frame x y → Q (Err e) y) →
  (∀ s y, frame x y → job s = pending_job p → finish s = None → sequence_ok [] s → Q (Ok s) y) →
  post (start_sequence env p) Q F x.
Proof.
  intros (c & Hc & Hex & Hm & _) HE HQ. unfold start_sequence.
  apply post_bind, quiet_post.
  { unfold begin_generation_command. apply quiet_bind; [apply quiet_access|]. intros [u|e]; [|apply quiet_ret].
    apply quiet_bind; [apply quiet_access|]. intros _. apply quiet_ret. }
  intros [u|e] y Hy; [|by apply post_ret, HE].
  apply post_bind, quiet_post.
  { case_match; [apply quiet_bind; [apply quiet_access|]|]; intros; apply quiet_ret. }
  intros au z Hz. rewrite Hc. apply post_bind, post_lift; [|done]. intros ? [= <-].
  apply post_bind, quiet_post; [apply quiet_access|]. intros t w Hw.
  apply post_bind, (emit_post c); [done|]. intros e v Hv. apply post_ret, HQ; [by do 3 (etrans; [eassumption|])|done|done|].
  exists c, None. split; [repeat split; [done..|by exists 0%nat]|]. simpl. split; [done|]. split; [done|]. split; [done|]. left.
  pose proof (exact_nonempty _ _ Hex). by repeat split.
Qed.
Lemma find_seqZ (P : Z → bool) a n : match List.find P (seqZ a n) with
  | Some k => a ≤ k < a + n ∧ P k = true
  | None => ∀ k, a ≤ k < a + n → P k = false
  end.
Proof.
  destruct (List.find P (seqZ a n)) as [k|] eqn:Hf.
  - apply find_some in Hf as [Hin Hp]. apply list_elem_of_In, elem_of_seqZ in Hin. split; [lia|done].
  - intros k Hk. eapply find_none in Hf; [exact Hf|]. by apply list_elem_of_In, elem_of_seqZ.
Qed.

(** What admission keeps: a pool that is not waiting, and the streams *)
Definition admitting (x y : Exec) : Prop :=
  live x ⊆ live y ∧ (∀ k, stream (context y) k = stream (context x) k) ∧ prefill_cursor y = prefill_cursor x ∧
  trail x `prefix_of` trail y ∧ (live y = ∅ → pending y = None).

Definition unfinished (x : Exec) : Prop := ∀ k q, live x !! k = Some q → finish q = None.

Lemma admitting_same x y : same_live x y → pending y = None → admitting x y.
Proof. intros (H1 & H2 & H3 & H4) Hp. unfold admitting. rewrite H1, H2. done. Qed.

Lemma insert_streams k q (x y : Exec) :
  Streams layout x → unfinished x → same_live x y → pending y = None → live x !! k = None → 0 ≤ k < slots layout →
  finish q = None → sequence_ok [] q → Books [job q] y →
  let z := set_live (<[k:=q]> (live y)) y in Books [] z ∧ Streams layout z ∧ unfinished z ∧ admitting x z.
Proof.
  intros [H1 H2 H3 H4] Hu (Hc & Hl & Hcur & Ht) Hp Hk Hk' Hf Hok Hb z. rewrite <- Hl in Hk. split_and!.
  - by eapply books_in.
  - split; simpl; rewrite ?Hl, ?Hc, ?Hp; [| | |done].
    + by intros i s [[<- <-]|[_ Hi]]%lookup_insert_Some; [|eapply H1].
    + intros i s [[<- <-]|[_ Hi]]%lookup_insert_Some; [|by apply H2]. rewrite H3 by congruence. done.
    + intros i [Hi _]%lookup_insert_None. by apply H3.
  - unfold unfinished. simpl. rewrite Hl. by intros i s [[<- <-]|[_ Hi]]%lookup_insert_Some; [|eapply Hu].
  - unfold admitting. simpl. rewrite Hl in *. split_and!; [by apply insert_subseteq|by rewrite Hc|done|done|done].
Qed.

Lemma admit_post (x : Exec) :
  Books [] x → Streams layout x → unfinished x → 0 < slots layout →
  safe (admit_pending env layout) (λ _ y, Books [] y ∧ Streams layout y ∧ unfinished y ∧ admitting x y) x.
Proof.
  intros Hb Hs Hu Hslots. unfold admit_pending. apply post_bind, post_get.
  destruct (pending x) as [p|] eqn:Hp.
  2: { apply post_ret. split_and!; [done..|by apply admitting_same]. }
  pose proof (pool_pending _ _ _ Hs _ Hp) as Hpok.
  apply post_bind, post_modify. set (x1 := set_pending None x).
  assert (Books [pending_job p] x1) as Hb1 by by apply books_unpend.
  assert (Streams layout x1) as Hs1 by by apply (streams_pend x).
  apply post_bind, quiet_post; [apply quiet_access|]. intros can y Hy.
  assert (∀ e z, frame x1 z → safe (reject env (pending_job p) e)
    (λ _ y, Books [] y ∧ Streams layout y ∧ unfinished y ∧ admitting x y) z) as Hreject.
  { intros e z Hz. apply (reject_books []); [by eapply books_frame|]. intros w Hw.
    destruct (streams_settled (pending_job p) x1 z w) as (? & ? & ? & Hl); [done|done|by apply frame_live| |done|].
    { by destruct Hz as (_ & _ & -> & _). }
    split_and!; [done|done| |by apply (admitting_same x)]. destruct Hl as (_ & Hl & _). intros k q Hk. rewrite Hl in Hk. by eapply Hu. }
  destruct can; [by apply Hreject|].
  pose proof Hpok as (c & _ & _ & _ & Hcells). unfold vacant_slot.
  rewrite (proj2 (Z.eqb_neq _ _)), (proj2 (Z.ltb_ge _ _)), (proj2 (Z.eqb_neq (slots layout) 0)) by lia. simpl.
  pose proof (find_seqZ (λ slot, negb (bool_decide (is_Some (live x !! slot)))) 0 (slots layout)) as Hfind.
  destruct (List.find _ _) as [k|].
  - destruct Hfind as [Hk Hvac]. bool_prop. apply eq_None_not_Some in Hvac.
    apply post_bind, start_post; [done|intros e z Hz; apply Hreject; by etrans|].
    intros s z Hz Hj Hfs Hok. assert (frame x1 z) as Hxz by by etrans. apply post_bind, post_get.
    pose proof Hxz as (_ & Hl & Hpz & _). assert (live z !! k = None) as -> by (by rewrite Hl). apply post_modify.
    destruct (insert_streams k s x1 z) as (B1 & B2 & B3 & (A1 & A2 & A3 & A4 & A5));
      [done|done|by apply frame_live|done|done|lia|done|done|rewrite Hj; by eapply books_frame|]. by split_and!.
  - apply post_modify. assert (frame x1 y) as (Hc & Hl & Hpy & Hcur & es & _ & Ht) by done.
    assert (Books [pending_job p] y) as Hby by by eapply books_frame. split_and!.
    + by apply books_pend.
    + apply (streams_pend x); [done..|]. by intros ? [= <-].
    + intros i s Hi. simpl in Hi. rewrite Hl in Hi. by eapply Hu.
    + unfold admitting. simpl. rewrite Hl, Hc. split_and!; [done|done|done|by exists es|]. intros Hemp. specialize (Hfind 0 ltac:(lia)).
      bool_prop. destruct Hfind as [q Hq]. simpl in Hemp. by rewrite Hemp in Hq.
Qed.
(** ** The trail only grows *)

Definition grows {A} (m : Co A) : Prop := ∀ x, trail x `prefix_of` trail (m x).2.

Lemma grows_framed {A} (m : Co A) : framed m → grows m.
Proof. intros Hm x. destruct (Hm x) as (_ & _ & _ & _ & es & _ & Ht). by exists es. Qed.
Lemma grows_bind {A B} (m : Co A) (f : A → Co B) : grows m → (∀ a, grows (f a)) → grows (m ≫= f).
Proof.
  intros Hm Hf x. specialize (Hm x). unfold mbind, sm_bind. destruct (m x) as [[a|e] y]; simpl in *; [|done].
  etrans; [exact Hm|apply Hf].
Qed.
Lemma grows_modify f : (∀ x, trail (f x) = trail x) → grows (sm_modify f).
Proof. intros Hf x. simpl. by rewrite Hf. Qed.
Lemma grows_context_call {A} (f : C → result string (A * C)) what : grows (context_call f what).
Proof. intros x. unfold context_call, mbind, sm_bind, sm_get. by destruct (f (context x)) as [[a c]|]. Qed.

Lemma grows_record e : grows (sm_modify (record e)).
Proof. intros x. by eexists. Qed.
Lemma grows_attempt {A} (m : Co A) : grows m → grows (attempt m).
Proof. intros Hm x. specialize (Hm x). unfold attempt. by destruct (m x) as [[a|[| |e]] y]. Qed.
Lemma grows_for_each {A} (f : A → Co unit) l : (∀ a, grows (f a)) → grows (for_each f l).
Proof. intros Hf. induction l as [|a l IH]; simpl; [by intros x|]. by apply grows_bind. Qed.

Ltac grows := repeat first [ solve [apply grows_framed; framed] | apply grows_context_call | apply grows_record | apply grows_attempt
  | apply grows_for_each; intros ?
  | apply grows_modify; intros ?; reflexivity | apply grows_bind; [|intros ?]
  | match goal with |- grows (match ?r with _ => _ end) => destruct r end ].

Lemma grows_ready capacity l b : grows (ready_loop capacity l b).
Proof. revert b. induction l as [|[k q] l IH]; intros b; simpl; [grows|]. case_match; [|apply IH]. grows. apply IH. Qed.
Lemma grows_sample l row : grows (sample_loop env l row).
Proof. revert row. induction l as [|k l IH]; intros row; simpl; [grows|]. grows. apply IH. Qed.
Lemma grows_chunks fuel chunk tokens p slot : grows (decode_chunks fuel chunk tokens p slot).
Proof. revert tokens p. induction fuel as [|fuel IH]; intros [|t tokens] p; simpl; grows. apply IH. Qed.
Lemma grows_prefill n_batch l remaining b : grows (prefill_loop env n_batch l remaining b).
Proof.
  revert remaining b. induction l as [|k l IH]; intros remaining b; simpl; [grows|]. destruct (remaining =? 0); [grows|].
  do 2 (apply grows_bind; [grows|intros ?]). apply grows_bind; [apply grows_chunks|intros ?]. grows. apply IH.
Qed.
Lemma grows_step n_batch : grows (step env n_batch).
Proof.
  unfold step, decode_ready. apply grows_bind; [grows|intros x]. apply grows_bind; [apply grows_ready|intros b].
  apply grows_bind; [|intros ?].
  { destruct (negb _); [|grows]. do 2 (apply grows_bind; [grows|intros ?]). apply grows_sample. }
  apply grows_bind; [grows|intros y]. apply grows_bind; [apply grows_prefill|intros p]. grows.
Qed.

Lemma grows_publish j r q : grows (publish env j r q).
Proof. unfold publish. grows. Qed.
Lemma grows_reject j e : grows (reject env j e).
Proof. unfold reject. apply grows_bind; [grows|]. intros _. apply grows_publish. Qed.
Lemma grows_fail q e : grows (fail_sequence env q e).
Proof. apply grows_publish. Qed.
Lemma grows_finish fp q : grows (finish_sequence env fp q).
Proof. unfold finish_sequence. apply grows_bind; [grows|]. intros r. apply grows_publish. Qed.
Lemma grows_settle fp : grows (settle env fp).
Proof.
  unfold settle, settle_slot, clear_slot. apply grows_bind; [grows|intros x]. apply grows_bind; [grows|intros l].
  apply grows_for_each. intros k. do 3 (apply grows_bind; [grows|intros ?]). apply grows_bind; [grows|intros [u|e]].
  - apply grows_bind; [grows|intros []; [apply grows_fail|]]. apply grows_bind; [grows|intros []; apply grows_finish].
  - apply grows_bind; [apply grows_fail|intros ?]. grows.
Qed.
Lemma grows_admit l : grows (admit_pending env l).
Proof.
  unfold admit_pending. apply grows_bind; [grows|intros x]. destruct (pending x) as [p|]; [|grows].
  do 2 (apply grows_bind; [grows|intros ?]). case_match; [apply grows_reject|]. destruct (vacant_slot _ _ _) as [[k|]|]; [|grows..].
  apply grows_bind; [grows|intros [s|e]]; [|apply grows_reject]. apply grows_bind; [grows|intros y]. destruct (live y !! k); [|grows].
  apply grows_bind; [apply grows_fail|intros ?]. grows.
Qed.
(** What becomes of a job that was received *)
Definition consider (cells : Z) (b : BatchCommand) (d : bool) : Co bool :=
  j ← from_command env b ;
  cancelled_ ← load env (cancel j) ;
  (if cancelled_ : bool then reject env j cancelled
   else match prepare j cells with
        | Ok p => sm_modify (set_pending (Some p))
        | Err (Fail e) => reject env j e
        | Err p => sm_throw p
        end) ;;
  mret d.
Lemma grows_consider cells b d : grows (consider cells b d).
Proof.
  unfold consider, from_command. do 2 (apply grows_bind; [grows|intros ?]).
  apply grows_bind; [|intros; grows]. case_match; [apply grows_reject|]. destruct (prepare _ _) as [p|[| |e]]; [grows..|apply grows_reject].
Qed.
Lemma grows_receive cells c d : grows (receive env cells c d).
Proof. destruct c as [b|n]; simpl; [|grows]. apply grows_bind; [grows|intros ?]. apply (grows_consider cells b d). Qed.
Lemma grows_drain first : grows (drain env first).
Proof.
  unfold drain, reject_queued_command. do 3 (apply grows_bind; [grows|intros ?]). apply grows_bind; [|intros ?; grows].
  destruct (pending _); [|grows]. apply grows_bind; [grows|intros ?]. apply grows_reject.
Qed.

Lemma grows_also {A} (m : Co A) Q F x :
  grows m → post m Q F x → post m (λ a y, trail x `prefix_of` trail y ∧ Q a y) F x.
Proof. intros Hm. specialize (Hm x). unfold post. by destruct (m x) as [[a|e] y]. Qed.

(** ** One round *)

Lemma drain_post first (x : Exec) :
  Books [] x → Streams layout x → safe (drain env first) (λ _ y, Books [] y ∧ Streams layout y ∧ same_live x y) x.
Proof.
  intros Hb Hs. unfold drain. apply post_bind, post_get, post_bind, quiet_post; [apply quiet_for_each; intros; apply quiet_access|].
  intros [] y Hy. apply post_bind, post_get.
  assert (Books [] y) as Hby by by eapply books_frame.
  apply post_bind, (post_mono _ (λ _ z, Books [] z ∧ same_live x z ∧ pending z = None) _ (λ _ _, False)); [| |done].
  { destruct (pending y) as [p|] eqn:Hp; [|by apply post_ret; split_and!; [|apply frame_live|]].
    apply post_bind, post_modify, (reject_books []); [by apply books_unpend|]. intros z (Hbz & Hsz & _). split_and!; [done| |].
    - etrans; [by apply frame_live|]. etrans; [|by apply same_pool_live]. by repeat split.
    - by destruct Hsz as (_ & _ & -> & _). }
  intros _ z (Hbz & Hxz & Hpz).
  assert (∀ w, same_live x w → pending w = None → Streams layout w) as Hst.
  { intros w (Hc & Hl & _) Hp. apply (streams_pend x); [done..|]. congruence. }
  destruct first as [b|]; [|apply post_ret; split_and!; auto].
  apply post_bind, post_modify, reject_queued_post. intros e w Hw.
  set (j := {| job_ticket := ticket b; job_request := request b; cancel := 0%nat; reasoning_force := 0%nat; lease := request_lease b |}).
  destruct (answering_books [] (record (Taken b) z) w j (Err e)) as (Hbw & Hsw & _); [done|done|by apply books_take|].
  assert (same_live x w) as Hxw.
  { etrans; [exact Hxz|]. etrans; [|by apply same_pool_live]. repeat split. by eexists. }
  split_and!; [done| |done]. apply Hst; [done|]. by destruct Hsw as (_ & _ & -> & _).
Qed.

(** Every live request is answered, or its rank goes down. *)
Definition progress (x y : Exec) : Prop :=
  ∀ k q, live x !! k = Some q →
    job_ticket (job q) ∈ answered y ∨ jobs y !! k = Some (job q) ∧ rank y k (job q) < rank x k (job q).

Definition idle (x : Exec) : Prop := Books [] x ∧ live x = ∅ ∧ pending x = None.

Context (n_batch : Z) (fp : ModelFingerprint).
Hypothesis slots_pos : 0 < slots layout.
Hypothesis slots_max : slots layout ≤ MAX_LIVE.
Hypothesis slots_batch : slots layout ≤ n_batch.

Definition round_result (x : Exec) (r : option (option BatchCommand * bool)) (y : Exec) : Prop :=
  progress x y ∧ trail x `prefix_of` trail y ∧ match r with None => idle y | Some _ => Books [] y ∧ Streams layout y end.

Lemma kept_admitting x y : admitting x y → kept x y.
Proof.
  intros (A1 & A2 & A3 & A4 & _). split_and!; [done|done|]. intros k q Hk. right. rewrite A2.
  by rewrite (lookup_weaken _ _ _ _ Hk A1).
Qed.

(** Sequences that were kept up to a step *)
Lemma kept_progress x z y :
  kept x z → trail z `prefix_of` trail y →
  (∀ k j, jobs z !! k = Some j → jobs y !! k = Some j ∧ rank y k j < rank z k j) → progress x y.
Proof.
  intros (Hcur & _ & Hk) Ht Hy k q Hq. destruct (Hk k q Hq) as [Ha|[Hl Hs]]; [left; by eapply answered_mono|].
  right. destruct (Hy k (job q)) as [Hj Hr]; [unfold jobs; by rewrite lookup_fmap, Hl|].
  split; [done|]. unfold rank in *. by rewrite Hs, Hcur in Hr.
Qed.

Lemma round_post first d (x : Exec) :
  Books [] x → Streams layout x → safe (round env layout fp n_batch first d) (round_result x) x.
Proof.
  intros Hb Hs. unfold round. apply post_bind, quiet_post; [apply quiet_access|]. intros stop x0 Hx0.
  assert (Books [] x0) as Hb0 by by eapply books_frame. assert (Streams layout x0) as Hs0 by by eapply pool_frame.
  apply post_bind, (post_mono _ (λ _ y, Books [] y ∧ Streams layout y ∧ same_live x y) _ (λ e y, Books [] y ∧ reachable e)); [| |done].
  { destruct stop; [|by apply post_ret; split_and!; [..|apply frame_live]].
    eapply post_mono; [by apply drain_post| |done]. intros _ y (H1 & H2 & H3). split_and!; [done|done|].
    etrans; [by apply frame_live|done]. }
  intros _ x1 (Hb1 & Hs1 & Hl1). apply post_bind. eapply post_mono; [by apply settle_post| |done].
  intros _ x2 (Hb2 & Hs2 & Hk2 & Hu2).
  apply post_bind, (post_mono _ (λ _ y, Books [] y ∧ Streams layout y ∧ same_live x2 y) _ (λ e y, Books [] y ∧ reachable e)); [| |done].
  { apply post_bind, post_get. case_bool_decide as Hp; simpl; [|by apply post_ret]. destruct (negb _); [|by apply post_ret].
    apply post_bind, quiet_post; [destruct (if stop : bool then None else first); [apply quiet_ret|apply quiet_access]|].
    intros c y Hy. assert (Books [] y ∧ Streams layout y) as [Hby Hsy] by (split; [by eapply books_frame|by eapply pool_frame]).
    assert (pending y = None) as Hpy by (by destruct Hy as (_ & _ & -> & _)). apply frame_live in Hy.
    destruct c as [c|]; [|by apply post_ret]. apply post_bind. eapply post_mono; [by apply receive_post| |done].
    intros d' z (H1 & H2 & H3). apply post_ret. split_and!; [done|done|by etrans]. }
  intros [first' d'] x3 (Hb3 & Hs3 & Hl3). pose proof Hl3 as (Hc3 & Hlive3 & Hcur3 & Ht3).
  assert (unfinished x3) as Hu3 by (intros k q Hk; rewrite Hlive3 in Hk; by eapply Hu2).
  apply post_bind. eapply post_mono; [by apply admit_post| |done].
  intros _ x4 (Hb4 & Hs4 & Hu4 & Ha). apply post_bind, post_bind, post_get.
  assert (kept x x4) as Hk4.
  { etrans; [by apply kept_live|]. etrans; [done|]. etrans; [by apply kept_live|].
    by apply kept_admitting. }
  case_bool_decide as Hemp.
  { destruct Ha as (_ & _ & _ & _ & A5). rewrite (A5 Hemp). simpl. apply post_ret.
    split; [|split; [by destruct Hk4 as (_ & ? & _)|by split_and!; [|done|apply A5]]].
    eapply kept_progress; [done|done|]. intros k j. unfold jobs. by rewrite Hemp, fmap_empty, lookup_empty. }
  apply post_bind, post_modify, post_bind. set (x5 := set_active_sequences (Z.of_nat (size (live x4))) x4).
  eapply post_mono; [apply grows_also; [apply grows_step|apply (step_post env layout n_batch x5)]| |done].
  { by apply (books_irrelevant _ x4). }
  { by apply (streams_pend x4); try apply Hs4. }
  1-4: done.
  intros _ y (Ht & Hby & Hsy & Hj & Hr). apply post_ret.
  split; [|split; [etrans; [by destruct Hk4 as (_ & ? & _)|exact Ht]|done]].
  eapply (kept_progress x x5); [done|done|]. intros k j Hk. split; [by rewrite Hj|by apply Hr].
Qed.
(** ** The loop *)

(** There is always work left for a live sequence. *)
Lemma rank_nonneg (x : Exec) k j : Streams layout x → jobs x !! k = Some j → 0 ≤ rank x k j.
Proof.
  intros Hs Hj. unfold jobs in Hj. rewrite lookup_fmap in Hj. apply fmap_Some in Hj as (q & Hq & ->).
  pose proof (turn_bound (prefill_cursor x) k). unfold rank.
  enough (len (stream (context x) k) ≤ work (job q)) by (unfold MAX_LIVE in *; lia).
  destruct (pool_live _ _ _ Hs _ _ Hq) as (c & f & (Hc & He & Hm & n & Hd) & _ & Hfin). unfold work. rewrite Hc, He.
  destruct (drafts_Ok _ _ _ _ _ Hd Hm) as [Hlen _]. simpl in Hlen. destruct (finish q); [lia|].
  destruct Hfin as (_ & _ & [(_ & _ & Hp & _ & ->)|(_ & _ & ids & t & Hi & _ & ->)]).
  - unfold len in *. rewrite length_take. lia.
  - rewrite Hi in Hlen. rewrite !len_app, len_cons, len_nil in *. lia.
Qed.

(** A request that is answered already, or within [n] rounds *)
Definition due (n : Z) (t : nat) (x : Exec) : Prop :=
  t ∈ answered x ∨ ∃ k j, jobs x !! k = Some j ∧ job_ticket j = t ∧ rank x k j < n.

Lemma due_progress n t (x y : Exec) : trail x `prefix_of` trail y → progress x y → due (n + 1) t x → due n t y.
Proof.
  intros Ht Hp [Ha|(k & j & Hj & <- & Hr)]; [left; by eapply answered_mono|].
  unfold jobs in Hj. rewrite lookup_fmap in Hj. apply fmap_Some in Hj as (q & Hq & ->).
  destruct (Hp k q Hq) as [Ha|[Hj Hr']]; [by left|]. right. exists k, (job q). split_and!; [done..|lia].
Qed.

Definition loop_error (n : Z) (x : Exec) (e : fault EngineError) (y : Exec) : Prop :=
  Books [] y ∧ (e = OutOfFuel ∧ (∀ t, due n t x → t ∈ answered y) ∨ reachable e).

Lemma run_inner_post fuel first d (x : Exec) :
  Books [] x → Streams layout x →
  post (run_inner env fuel layout fp n_batch first d)
    (λ _ y, idle y ∧ trail x `prefix_of` trail y ∧ ∀ t, due (Z.of_nat fuel) t x → t ∈ answered y) (loop_error (Z.of_nat fuel) x) x.
Proof.
  revert first d x. induction fuel as [|fuel IH]; intros first d x Hb Hs; simpl.
  { apply post_throw. split; [done|]. left. split; [done|]. intros t [Ha|(k & j & Hj & _ & Hr)]; [done|].
    pose proof (rank_nonneg _ _ _ Hs Hj). lia. }
  apply post_bind. eapply post_mono; [by apply round_post| |].
  2: { intros e y [Hby He]. split; [done|]. by right. }
  assert (∀ t y, progress x y → trail x `prefix_of` trail y → due (Z.of_nat (Datatypes.S fuel)) t x → due (Z.of_nat fuel) t y) as Hdue.
  { intros t y Hp Ht Hd. apply (due_progress _ t x); [done..|]. by replace (Z.of_nat fuel + 1) with (Z.of_nat (Datatypes.S fuel)) by lia. }
  intros [[first' d']|] y (Hp & Ht & Hr).
  - destruct Hr as [Hby Hsy]. eapply post_mono; [by apply IH| |].
    + intros _ z (Hi & Htz & Hall). split_and!; [done|by etrans|]. eauto.
    + intros e z [Hbz [[-> Hall]|He]]; split; [done| |done|by right]. left. split; [done|]. eauto.
  - apply post_ret. split_and!; [done..|]. intros t Hd. destruct (Hdue t y Hp Ht Hd) as [|(k & j & Hj & _)]; [done|].
    destruct Hr as (_ & Hl & _). unfold jobs in Hj. by rewrite Hl, fmap_empty, lookup_empty in Hj.
Qed.

(** The end of a failed loop: all that is held is answered. *)
Lemma live_list_perm (m : gmap Z Sequence) : live_list m ≡ₚ map_to_list m.
Proof.
  apply NoDup_Permutation; [eapply NoDup_fmap_1, live_list_NoDup|apply NoDup_map_to_list|]. intros [k q].
  by rewrite elem_of_live_list, elem_of_map_to_list.
Qed.

Lemma fail_all_post e (x : Exec) Q F :
  Books [] x → (∀ y, idle y → trail x `prefix_of` trail y → Q tt y) → post (fail_all env e) Q F x.
Proof.
  intros Hb HQ. unfold fail_all, clear_all. apply post_bind, post_modify, post_bind, post_get, post_bind, post_modify.
  set (x1 := set_live ∅ (set_context (clear_kv_cache (context x)) x)).
  assert (Books ((λ p : Z * Sequence, job p.2) <$> live_list (live x)) x1) as Hb1.
  { apply (books_shift [] _ x); [done|done| | |done|exact (books_pending _ _ Hb)].
    - unfold held. simpl. rewrite map_to_list_empty. simpl. rewrite <- list_fmap_compose. by rewrite live_list_perm.
    - apply Forall_fmap, Forall_forall. intros [k q] Hin. simpl. apply elem_of_live_list in Hin. by eapply books_live. }
  apply post_bind, (post_for_each (λ l y, Books ((λ p : Z * Sequence, job p.2) <$> l) y ∧ same_pool x1 y)); [| |by split].
  - intros [k q] l y [Hby Hy]. apply (fail_books ((λ p : Z * Sequence, job p.2) <$> l)); [done|]. intros z (H1 & H2 & _).
    split; [done|by etrans].
  - intros y (Hby & Hy). apply post_bind, post_get. destruct Hy as (_ & Hl & Hp & _ & Ht). simpl in Hl, Hp, Ht.
    destruct (pending y) as [p|] eqn:Hpy; [|by apply post_ret, HQ].
    apply post_bind, post_modify, (reject_books []); [by apply books_unpend|]. intros z (Hbz & (_ & Hlz & Hpz & _ & Htz) & _).
    simpl in Hlz, Hpz, Htz. apply HQ; [split_and!; [done|congruence|done]|by etrans].
Qed.
Lemma grows_next first d : grows (next_command env layout first d).
Proof.
  unfold next_command. apply grows_bind; [grows|intros x]. destruct (_ && _); [|grows]. apply grows_bind.
  - destruct first; [grows|]. apply grows_framed, framed_access.
  - intros [c|]; [|grows]. apply grows_bind; [apply grows_receive|intros; grows].
Qed.
Lemma grows_advance : grows (advance env n_batch).
Proof.
  unfold advance. apply grows_bind; [grows|intros y]. destruct (bool_decide (live y = ∅)); [grows|].
  apply grows_bind; [grows|intros ?]. apply grows_bind; [apply grows_step|intros ?; grows].
Qed.
Lemma grows_end (p : option BatchCommand * bool) :
  grows (let '(first, d) := p in admit_pending env layout ;; more ← advance env n_batch ;
    mret (if more : bool then Some (first, d) else None)).
Proof.
  destruct p as [first d]. apply grows_bind; [apply grows_admit|intros ?]. apply grows_bind; [apply grows_advance|intros ?; grows].
Qed.
Lemma grows_round first d : grows (round env layout fp n_batch first d).
Proof.
  unfold round. apply grows_bind; [grows|intros stop]. apply grows_bind; [destruct stop; [apply grows_drain|grows]|intros ?].
  apply grows_bind; [apply grows_settle|intros ?]. apply grows_bind; [apply grows_next|apply grows_end].
Qed.
Lemma grows_run_inner fuel first d : grows (run_inner env fuel layout fp n_batch first d).
Proof.
  revert first d. induction fuel as [|fuel IH]; intros first d; simpl; [grows|]. apply grows_bind; [apply grows_round|].
  intros [[first' d']|]; [apply IH|grows].
Qed.
(** The command that started the thread is received in the first round. *)
Lemma grows_recorded {A} (m : Co A) e (x : Exec) Q F :
  grows m → (∀ y, e ∈ trail y → (∀ a, Q a y : Prop) ∧ (∀ f, F f y : Prop)) → e ∈ trail x → post m Q F x.
Proof.
  intros Hm HQ Hin. specialize (Hm x). unfold post. assert (e ∈ trail (m x).2) as He by (destruct Hm as [es ->]; apply elem_of_app; by left).
  destruct (m x) as [[a|f] y]; by apply HQ in He as [? ?].
Qed.

Lemma settle_empty (x : Exec) Q F : live x = ∅ → Q tt x → post (settle env fp) Q F x.
Proof.
  intros Hl HQ. unfold settle. apply post_bind, post_get. rewrite Hl. apply post_bind. unfold live_list, sorted_slots.
  rewrite dom_empty_L, elements_empty. by apply post_ret, post_ret.
Qed.

Lemma first_round b (x : Exec) :
  live x = ∅ → pending x = None →
  post (round env layout fp n_batch (Some b) false) (λ _ y, Taken b ∈ trail y) (λ _ y, Taken b ∈ trail y) x.
Proof.
  intros Hl Hp. unfold round. apply post_bind, quiet_post; [apply quiet_access|]. intros stop y (_ & Hly & Hpy & _).
  rewrite Hl in Hly. rewrite Hp in Hpy.
  assert (∀ A (m : Co A) z, grows m → Taken b ∈ trail z → post m (λ _ y, Taken b ∈ trail y) (λ _ y, Taken b ∈ trail y) z) as Hrec.
  { intros A m z Hm. by apply grows_recorded. }
  apply post_bind. destruct stop.
  - apply (post_mono _ (λ _ z, Taken b ∈ trail z) _ (λ _ z, Taken b ∈ trail z)); [|intros ? z Hz; apply (Hrec _ _ z); [|exact Hz]|done].
    + unfold drain. apply post_bind, post_get, post_bind, quiet_post; [apply quiet_for_each; intros; apply quiet_access|].
      intros ? z (_ & _ & Hpz & _). rewrite Hpy in Hpz. apply post_bind, post_get. rewrite Hpz. apply post_bind, post_ret.
      apply post_bind, post_modify, Hrec; [unfold reject_queued_command; grows|]. simpl. apply elem_of_app. right. by left.
    + apply grows_bind; [apply grows_settle|intros ?]. apply grows_bind; [apply grows_next|apply grows_end].
  - apply post_ret, post_bind, settle_empty; [done|]. apply post_bind.
    apply (post_mono _ (λ _ z, Taken b ∈ trail z) _ (λ _ z, Taken b ∈ trail z)); [|intros p z Hz; apply Hrec; [apply grows_end|exact Hz]|done].
    unfold next_command. apply post_bind, post_get. rewrite Hpy. simpl. apply post_bind, post_ret, post_bind, post_bind, post_modify.
    apply (Hrec _ (consider (layout_cells layout) b false)); [apply grows_consider|]. simpl. apply elem_of_app. right. by left.
Qed.

Lemma run_inner_takes fuel b (x : Exec) :
  live x = ∅ → pending x = None → (0 < fuel)%nat →
  post (run_inner env fuel layout fp n_batch (Some b) false) (λ _ y, Taken b ∈ trail y) (λ _ y, Taken b ∈ trail y) x.
Proof.
  intros Hl Hp Hf. destruct fuel as [|fuel]; [lia|]. simpl. apply post_bind.
  eapply post_mono; [by apply first_round| |done]. intros [[first d]|] y Hy; [|done]. simpl in Hy.
  eapply grows_recorded; [apply grows_run_inner| |exact Hy]. done.
Qed.
End Run.

Section Theorems.
Context {C S D : Type} {L : Llama C S D} {LL : LlamaLaws L}.
Notation Exec := (Exec (C:=C) (S:=S) (D:=D)).
Context (env : nat → Shared → Shared) (n_ctx n_batch : Z) (fp : ModelFingerprint).
Hypothesis sequences_pos : 1 ≤ fingerprint_max_sequences fp.
Hypothesis batch_pos : 1 ≤ n_batch.

Lemma run_post fuel b (x : Exec) :
  idle x → (0 < fuel)%nat →
  post (run env fuel n_ctx n_batch fp b)
    (λ _ y, idle y ∧ (∀ s, stream (context y) s = []) ∧ Taken b ∈ trail y) (λ e y, e = OutOfFuel ∧ Books [] y) x.
Proof.
  intros (Hb & Hl & Hp) Hf. unfold run, clear_all. apply post_bind, post_modify, post_bind, post_modify.
  rewrite (proj2 (Z.eqb_neq _ _)) by lia. apply post_bind, post_ret.
  set (layout := layout_new _ _ _).
  set (x1 := set_prefill_cursor 0 (set_pending None (set_live ∅ (set_context (clear_kv_cache (context x)) x)))).
  assert (Books [] x1) as Hb1 by by apply (books_irrelevant _ x).
  assert (Streams layout x1) as Hs1.
  { split; simpl; [by intros k q ?%lookup_empty_Some..| |done]. intros k _. apply clear_clears. }
  assert (0 < slots layout ∧ slots layout ≤ MAX_LIVE ∧ slots layout ≤ n_batch) as (H1 & H2 & H3).
  { unfold layout, layout_new, MAX_LIVE. simpl. lia. }
  apply post_bind, post_attempt.
  assert (∀ y, idle y → Taken b ∈ trail y → post (clear_all ;; sm_modify (set_active_sequences 0))
    (λ _ y, idle y ∧ (∀ s, stream (context y) s = []) ∧ Taken b ∈ trail y) (λ e y, e = OutOfFuel ∧ Books [] y) y) as Hend.
  { intros y (I1 & I2 & I3) Ht. apply post_bind, post_modify, post_modify. split; [split_and!; [by apply (books_irrelevant _ y)|done|done]|].
    split; [|done]. intros s. apply clear_clears. }
  pose proof (run_inner_post env layout n_batch fp H1 H2 H3 fuel (Some b) false x1 Hb1 Hs1) as Hrun.
  pose proof (run_inner_takes env layout n_batch fp fuel b x1 eq_refl eq_refl Hf) as Htake. unfold post in *.
  destruct (run_inner env fuel layout fp n_batch (Some b) false x1) as [[u|e] y].
  - destruct Hrun as (Hi & _). apply (post_bind (mret tt)). by apply post_ret, Hend.
  - destruct Hrun as [Hby He]. destruct e as [| |e]; [by destruct He as [[? _]|]|done|].
    apply (post_bind (fail_all env e)), fail_all_post; [done|]. intros z Hz [es Ht]. apply Hend; [done|]. rewrite Ht. apply elem_of_app. by left.
Qed.
End Theorems.
End CooperativeRun.
