(* ===== verification/CooperativeTheorems.v ===== *)
(** * CooperativeTheorems: sharing the owner thread changes nobody's result

    What a whole run of Cooperative.v guarantees to its callers, whatever the other
    threads do and whatever llama.cpp computes, and a small llama.cpp ([Toy]) on which
    the theorems are run. *)

From S2P Require Import Prelude Bytes Text Utf8 OperationSpec NativeRegistry SpeculativeAdmission GenerationTypes TokenBudget GenerationEvidence Cooperative CooperativeSpec CooperativeBooks CooperativeStreams CooperativeLoop.
Local Open Scope Z_scope.

Module CooperativeTheorems.
Import CooperativeStreams CooperativeRun.
Section Theorems.
Context {C S D : Type} {L : Llama C S D} {LL : LlamaLaws L}.
Notation Exec := (Exec (C:=C) (S:=S) (D:=D)).
Notation Sequence := (Sequence (S:=S) (D:=D)).


(** C5: A run that returns has answered every command that it received exactly once, among
    them the one it was started with; it leaves no sequence and no tokens behind. It does
    not return an error or panic: it may only be cut off by the bound on its rounds. *)
Theorem cooperative_answers_once env fuel n_ctx n_batch fp b (x y : Exec) r :
  idle x → 1 ≤ fingerprint_max_sequences fp → 1 ≤ n_batch → (0 < fuel)%nat →
  run env fuel n_ctx n_batch fp b x = (r, y) →
  (r = Ok tt ∧ Taken b ∈ trail y ∧ taken y ≡ₚ answered y ∧ live y = ∅ ∧ pending y = None ∧ ∀ s, stream (context y) s = []) ∨
  r = Err OutOfFuel.
Proof.
  intros Hi Hs Hn Hf Hr. pose proof (run_post env n_ctx n_batch fp Hs Hn fuel b x Hi Hf) as Hp. unfold post in Hp.
  rewrite Hr in Hp. destruct r as [[]|e]; [|by right; destruct Hp as [-> _]].
  left. destruct Hp as ((Hb & Hl & Hpe) & Hst & Ht). split_and!; [done|done| |done..].
  rewrite (books_balance _ _ Hb). unfold held. rewrite Hl, Hpe, map_to_list_empty. simpl. by rewrite app_nil_r.
Qed.

(** C4: A live request waits for a bounded number of rounds, however many others are live and
    whatever they do: once the loop has gone around [MAX_LIVE] times for every token that
    the request may decode, it is answered, unless a native call failed first (and then
    [run] answers it). None of the errors that the loop keeps for states it cannot be in
    is raised. *)
Theorem cooperative_requests_finish env fuel layout n_batch fp first d k (q : Sequence) (x y : Exec) r :
  Books [] x → Streams layout x → 1 ≤ slots layout ≤ MAX_LIVE → slots layout ≤ n_batch →
  live x !! k = Some q → MAX_LIVE * work (job q) + MAX_LIVE ≤ Z.of_nat fuel →
  run_inner env fuel layout fp n_batch first d x = (r, y) →
  (r = Ok tt ∨ r = Err OutOfFuel) ∧ job_ticket (job q) ∈ answered y ∨
  ∃ e, r = Err (Fail e) ∧ e ∉ unreachable_errors.
Proof.
  intros Hb Hs Hl Hn Hq Hf Hr.
  pose proof (run_inner_post env layout n_batch fp ltac:(lia) ltac:(lia) Hn fuel first d x Hb Hs) as Hp. unfold post in Hp.
  assert (due (Z.of_nat fuel) (job_ticket (job q)) x) as Hdue.
  { right. exists k, (job q). unfold jobs. rewrite lookup_fmap, Hq. split_and!; [done..|]. unfold rank.
    pose proof (turn_bound (prefill_cursor x) k). pose proof (len_nonneg (stream (context x) k)). unfold MAX_LIVE in *. lia. }
  rewrite Hr in Hp. destruct r as [[]|e]; [left; destruct Hp as (_ & _ & Hall); auto|].
  destruct Hp as [_ [[-> Hall]|He]]; [left; auto|]. destruct e as [| |e]; [done|done|]. right. by exists e.
Qed.
End Theorems.

(** ** A small llama.cpp *)

Module Toy.

(** The tokens of every stream, and what the rows of the last call follow *)
Definition context : Type := gmap Z (list Z) * list (list Z).
Definition stream (c : context) (s : Z) : list Z := default [] (c.1 !! s).
Definition feed (m : gmap Z (list Z)) (r : Row) : gmap Z (list Z) :=
  <[row_sequence r := default [] (m !! row_sequence r) ++ [row_token r]]> m.

(** The next token is the sum of those before, modulo 7; 6 ends a generation. The pieces
    are the letters from [a] on, and text is ASCII. *)
Definition next (l : list Z) : Z := foldr Z.add 0 l mod 7.

#[global] Instance toy : Llama context unit unit := {|
  n_vocab := 100;
  is_eog_token t := t =? 6;
  token_to_piece_bytes t := Ok [97 + t];
  context_decode c rs := let m := foldl feed c.1 rs in Ok (m, (λ r, default [] (m !! row_sequence r)) <$> rs);
  clear_kv_cache_seq c s := Ok (true, (delete s c.1, c.2));
  clear_kv_cache c := (∅, []);
  build_sampler _ := tt;
  sampler_accept p _ := p;
  sampler_sample p c i := (next (default [] (c.2 !! Z.to_nat i)), p);
  new_decoder := tt;
  max_utf8_buffer_length _ n := Some (3 * n + 3);
  decode_to_string d bytes _ _ := (InputEmpty, len bytes, bytes, d);
|}.

Lemma feed_appended rs m s : default [] (foldl feed m rs !! s) = appended (λ s, default [] (m !! s)) rs s.
Proof.
  revert m. induction rs as [|r rs IH]; intros m; simpl; [done|]. rewrite IH. clear IH.
  assert (∀ f g : Z → list Z, (∀ s, f s = g s) → ∀ rs s, appended f rs s = appended g rs s) as Hext.
  { intros f g Hfg rs' s'. revert f g Hfg. induction rs' as [|r' rs' IH]; intros f g Hfg; simpl; [done|].
    apply IH. intros i. by rewrite Hfg. }
  apply Hext. intros i. unfold feed. destruct (i =? row_sequence r) eqn:E; bool_prop.
  - subst i. by rewrite lookup_insert_eq.
  - by rewrite lookup_insert_ne by done.
Qed.

#[global] Instance toy_laws : LlamaLaws toy.
Proof.
  refine {| CooperativeSpec.stream := stream; history := λ c i, default [] (c.2 !! Z.to_nat i); pick := λ p l, (next l, p) |}.
  - intros c rs c' [= <-] _ s. apply feed_appended.
  - intros c rs c' [= <-] _ _ _ i r Hi. simpl. rewrite Nat2Z.id, list_lookup_fmap, Hi. done.
  - done.
  - intros c s c' [= <-] t. unfold stream. simpl. destruct (t =? s) eqn:E; bool_prop; [subst; by rewrite lookup_delete_eq|].
    by rewrite lookup_delete_ne.
  - done.
  - intros d bytes n b _. by eexists _, _.
Defined.

(** Two requests: the second one arrives while the first one is live. *)
Definition case_of (ts : list Z) : GenerationCase := TokenBudgetTheorems.case_w ts 3 None.
Definition request_of (id : string) (ts : list Z) : GenerationBatchRequest :=
  {| first_word_choices := None; request_id := id; model_id := "m"; media := []; cases := [case_of ts] |}.
Definition command (t : nat) (id : string) (ts : list Z) : BatchCommand :=
  {| ticket := t; request := request_of id ts; cancellations := [t]; reasoning_forces := [(t + 10)%nat]; request_lease := t |}.

Definition admitted_as (t : nat) (id : string) (w : Registry) : Registry :=
  (queue t (reserve id Generation (GenerationControls [("c", t)] [("c", (t + 10)%nat)]) w).2).2.
Definition shared_w : Shared :=
  {| registry := admitted_as 1 "b" (admitted_as 0 "a" NativeRegistry.new); speculative := new_admission;
     hub := {| ordinal := 0; hub_closed := false; subscribers := []; hub_poisoned := false |};
     commands := []; shutdown_requested := false; strict := Ok tt; now := 0 |}.
Definition arrives (n : nat) (s : Shared) : Shared :=
  if (n =? 9)%nat then with_commands [GenerateCooperative (command 1 "b" [5; 1; 1])] s else s.

Definition fresh : Exec (C:=context) (S:=unit) (D:=unit) :=
  {| clock := 0; shared := shared_w; Cooperative.context := (∅, []); deferred := []; active_sequences := 0; live := ∅;
     pending := None; prefill_cursor := 0; trail := [] |}.
Definition fingerprint_w : ModelFingerprint := {| fingerprint_model_id := "m"; fingerprint_max_sequences := 4 |}.
Definition ran := run arrives 40 400 8 fingerprint_w (command 0 "a" [1; 2; 3; 4]) fresh.
Definition completed {C S D} (t : nat) (x : Exec (C:=C) (S:=S) (D:=D)) : list GenerationCompletion :=
  omap (λ e, match e with Answered u (Ok g) => if (u =? t)%nat then Some g else None | _ => None end) (trail x).
Definition summary (g : GenerationCompletion) : list (list Z * list Z * string) * bool :=
  ((λ o, (generated_token_ids o, out_text o, finish_reason o)) <$> outputs g, is_ok (authority g)).

(** "d" and the end of the generation for the first request, "aaa" for the second one; the
    executor certifies both. *)
Example ran_completes :
  summary <$> completed 0 ran.2 = [([([3], [100], "end_of_generation"%string)], true)] ∧
  summary <$> completed 1 ran.2 = [([([0; 0; 0], [97; 97; 97], "max_tokens"%string)], true)].
Proof. split; vm_compute; reflexivity. Qed.

Lemma completed_answered {C S D} t (x : Exec (C:=C) (S:=S) (D:=D)) g l : completed t x = g :: l → Answered t (Ok g) ∈ trail x.
Proof.
  intros H. assert (g ∈ completed t x) as Hg by (rewrite H; by constructor). unfold completed in Hg.
  apply list_elem_of_omap in Hg as (e & He & Hs). destruct e as [| |u [g'|]]; try done.
  destruct (u =? t)%nat eqn:E; [|done]. apply Nat.eqb_eq in E as ->. by injection Hs as ->.
Qed.

Lemma idle_fresh : idle fresh.
Proof.
  split; [|done]. split; [reflexivity|by apply Forall_nil|intros s q Hq; simpl in Hq; by apply lookup_empty_Some in Hq|done|]. intros t g H. by apply elem_of_nil in H.
Qed.

(** One request, just admitted *)
Definition sequence_w : Sequence (S:=unit) (D:=unit) :=
  {| job := {| job_ticket := 0; job_request := request_of "a" [1; 2]; cancel := 0%nat; reasoning_force := 10%nat; lease := 0%nat |};
     prompt := [1; 2]; prefilled := 0; next_position := 0; pending_token := None; sampler := tt; decoder := tt;
     generated_text := []; token_ids := []; trace := None; events := None; authority_error := None; terminal_token := None;
     finish := None; generating := false; next_event := 2; started := 0; first_token := None |}.
Definition live_w : Exec (C:=context) (S:=unit) (D:=unit) :=
  {| clock := 0; shared := shared_w; Cooperative.context := (∅, []); deferred := []; active_sequences := 1; live := {[0 := sequence_w]};
     pending := None; prefill_cursor := 1; trail := [Taken (command 0 "a" [1; 2])] |}.
Definition layout_w : StreamLayout := layout_new 100 4 8.
Definition finished_w := run_inner arrives 48 layout_w fingerprint_w 8 None false live_w.

Lemma live_w_at k q : live live_w !! k = Some q → k = 0 ∧ q = sequence_w.
Proof. change (live live_w) with ({[0 := sequence_w]} : gmap Z (Sequence (S:=unit) (D:=unit))). by intros [-> ->]%lookup_singleton_Some. Qed.

Lemma live_w_books : Books [] live_w ∧ Streams layout_w live_w.
Proof.
  split; split.
  - reflexivity.
  - by apply Forall_nil.
  - intros s q [_ ->]%live_w_at. exists (command 0 "a" [1; 2]). repeat constructor.
  - done.
  - intros t g H. apply list_elem_of_singleton in H. done.
  - intros k q [-> _]%live_w_at. vm_compute. by split.
  - intros k q [-> ->]%live_w_at. exists (case_of [1; 2]), None. split_and!; [|done|].
    + split_and!; [done..|]. by exists O.
    + split_and!; [done..|]. left. by split_and!.
  - intros k _. unfold CooperativeSpec.stream. simpl. unfold stream. simpl. by rewrite lookup_empty.
  - done.
Qed.
End Toy.


Lemma cooperative_answers_once_witness :
  Toy.ran.1 = Ok tt ∧ taken Toy.ran.2 = [0; 1]%nat ∧ taken Toy.ran.2 ≡ₚ answered Toy.ran.2 ∧ live Toy.ran.2 = ∅.
Proof.
  assert (Toy.ran.1 = Ok tt) as Hok by (vm_compute; reflexivity).
  destruct (cooperative_answers_once Toy.arrives 40 400 8 Toy.fingerprint_w (Toy.command 0 "a" [1; 2; 3; 4])
    Toy.fresh Toy.ran.2 Toy.ran.1 Toy.idle_fresh) as [(_ & _ & H1 & H2 & _)|H]; [done|done|lia|apply surjective_pairing| |].
  - split; [done|]. split; [vm_compute; reflexivity|]. by split.
  - by rewrite Hok in H.
Defined.

Lemma cooperative_requests_finish_witness :
  live Toy.live_w !! 0 = Some Toy.sequence_w ∧ Toy.finished_w.1 = Ok tt ∧ 0%nat ∈ answered Toy.finished_w.2.
Proof.
  assert (Toy.finished_w.1 = Ok tt) as Hok by (vm_compute; reflexivity).
  assert (1 ≤ slots Toy.layout_w ≤ MAX_LIVE ∧ slots Toy.layout_w ≤ 8) as [Hs Hn] by (change (slots Toy.layout_w) with 4; unfold MAX_LIVE; lia).
  assert (live Toy.live_w !! 0 = Some Toy.sequence_w) as Hl by reflexivity.
  assert (MAX_LIVE * work (job Toy.sequence_w) + MAX_LIVE ≤ Z.of_nat 48) as Hf by (vm_compute; congruence).
  destruct (cooperative_requests_finish Toy.arrives 48 Toy.layout_w 8 Toy.fingerprint_w None false 0 Toy.sequence_w
    Toy.live_w Toy.finished_w.2 Toy.finished_w.1 (proj1 Toy.live_w_books) (proj2 Toy.live_w_books) Hs Hn Hl Hf) as [[_ H]|(e & H & _)];
    [unfold Toy.finished_w; apply surjective_pairing|exact (conj Hl (conj Hok H))|].
  rewrite Hok in H. discriminate H.
Defined.
End CooperativeTheorems.
