(* ===== verification/Merge.v ===== *)
(** * Merge: the three-way merge of visible document text

    Models [loom-document/src/merge.rs]. Texts are lists of Unicode scalars
    (Text.v) and all ranges of the module count bytes, as in the code. The diff
    engine ([similar::capture_diff_slices] with Myers' algorithm) is a parameter;
    of it the theorems use only that it returns an edit script of its inputs. *)

From S2P Require Import Prelude Bytes Text.
Local Open Scope Z_scope.

(** [Range<usize>] *)
Record Range := { start : Z; end_ : Z }.
#[export] Instance Range_eq_dec : EqDecision Range.
Proof. solve_decision. Defined.
Definition range_len (r : Range) : Z := Z.max 0 (end_ r - start r).
Definition is_empty (r : Range) : bool := negb (start r <? end_ r).

(** The part of [similar] the module uses. *)
Inductive DiffTag := Equal | Delete | Insert | Replace.
#[export] Instance DiffTag_eq_dec : EqDecision DiffTag.
Proof. solve_decision. Defined.
Record DiffOp := { tag : DiffTag; old_range : Range; new_range : Range }.

Inductive DocumentKind := Hybrid | Prose | Verse.
#[export] Instance DocumentKind_eq_dec : EqDecision DocumentKind.
Proof. solve_decision. Defined.

Record ByteRange := { br_start : Z; br_end : Z }.

Record MergeBudget := {
  max_input_bytes : Z;
  max_changed_scalars : Z;
  max_diff_work : Z;
  max_changes : Z;
  max_output_bytes : Z;
}.

Definition DEFAULT_MERGE_BUDGET : MergeBudget := {|
  max_input_bytes := 16 * 1024 * 1024;
  max_changed_scalars := 64 * 1024;
  max_diff_work := 64 * 1024 * 1024;
  max_changes := 16 * 1024;
  max_output_bytes := 48 * 1024 * 1024;
|}.

Inductive MergeBudgetMetric :=
| InputBytes | ChangedScalars | DiffWork | ConflictComparisons | Changes | OutputBytes.

Inductive MergeConflictKind := CompetingInsertions | OverlappingEdits.

Record MergeConflictSpan := { span_range : ByteRange; span_text : text }.

Record MergeConflict := {
  conflict_kind : MergeConflictKind;
  conflict_base : MergeConflictSpan;
  app_base_range : ByteRange;
  app : MergeConflictSpan;
  external_base_range : ByteRange;
  external : MergeConflictSpan;
}.

Inductive MergeOutcome :=
| Merged (content : text)
| Conflict (conflicts : list MergeConflict).

Inductive MergeError :=
| HybridMetadataRequired
| BudgetExceeded (metric : MergeBudgetMetric) (actual limit : Z)
| RangeTooLarge
| InvalidEditScript.

Record Change := { base : Range; side : Range; replacement : text }.

(** A failure of the module, or a panic of an index expression in it. *)
Notation M := (parse MergeError).

Definition usize_to_u64 (value : Z) : M Z := need (try_from u64_max value) RangeTooLarge.

Definition ensure_budget (metric : MergeBudgetMetric) (actual limit : Z) : M unit :=
  fail_if (limit <? actual) (BudgetExceeded metric actual limit).

Definition ensure_input_budget (base app_draft external_visible : text) (budget : MergeBudget) : M unit :=
  let actual := Z.max (Z.max (str_len base) (str_len app_draft)) (str_len external_visible) in
  actual ← usize_to_u64 actual ;
  ensure_budget InputBytes actual (max_input_bytes budget).

Definition ensure_output_budget (actual : Z) (budget : MergeBudget) : M unit :=
  actual ← usize_to_u64 actual ;
  ensure_budget OutputBytes actual (max_output_bytes budget).

(** [text.get(range)] *)
Definition get_range (t : text) (r : Range) : option text := str_get t (start r) (end_ r).

(** The sum of [len_utf8] over the scalars at which two texts agree. *)
Fixpoint common_bytes (l r : text) : Z :=
  match l, r with
  | c :: l, d :: r => if c =? d then len_utf8 c + common_bytes l r else 0
  | _, _ => 0
  end.

Definition common_utf8_edges (left right : text) : M (Z * Z) :=
  let prefix_bytes := common_bytes left right in
  left_remaining ← ok_or (str_get left prefix_bytes (str_len left)) Panic ;
  right_remaining ← ok_or (str_get right prefix_bytes (str_len right)) Panic ;
  mret (prefix_bytes, common_bytes (reverse left_remaining) (reverse right_remaining)).

Definition utf8_offsets (t : text) : list Z := offsets_from 0 t.

Definition offset_at (prefix_bytes : Z) (offsets : list Z) (i : Z) : option Z :=
  offset ← get offsets i ; checked_add usize_max prefix_bytes offset.

Definition offset_range (prefix_bytes : Z) (offsets : list Z) (scalar_range : Range) : M Range :=
  s ← need (offset_at prefix_bytes offsets (start scalar_range)) InvalidEditScript ;
  e ← need (offset_at prefix_bytes offsets (end_ scalar_range)) InvalidEditScript ;
  mret {| start := s; end_ := e |}.

(** One difference joins the list: it extends the last change if it touches it. *)
Definition push_change (side_text : text) (base_range side_range : Range)
    (changes : list Change) : M (list Change) :=
  let fresh :=
    r ← need (get_range side_text side_range) InvalidEditScript ;
    mret (changes ++ [{| base := base_range; side := side_range; replacement := r |}]) in
  match last changes with
  | Some previous =>
      if (end_ (base previous) =? start base_range) && (end_ (side previous) =? start side_range)
      then
        r ← need (get_range side_text side_range) InvalidEditScript ;
        mret (removelast changes ++
          [{| base := {| start := start (base previous); end_ := end_ base_range |};
              side := {| start := start (side previous); end_ := end_ side_range |};
              replacement := replacement previous ++ r |}])
      else fresh
  | None => fresh
  end.

(** The loop of [diff_changes] over the operations of the diff. *)
Fixpoint collect_changes (prefix_bytes : Z) (base_offsets side_offsets : list Z)
    (side_text : text) (operations : list DiffOp) (changes : list Change) : M (list Change) :=
  match operations with
  | [] => mret changes
  | operation :: operations =>
      if bool_decide (tag operation = Equal)
      then collect_changes prefix_bytes base_offsets side_offsets side_text operations changes
      else
        base_range ← offset_range prefix_bytes base_offsets (old_range operation) ;
        side_range ← offset_range prefix_bytes side_offsets (new_range operation) ;
        changes ← push_change side_text base_range side_range changes ;
        collect_changes prefix_bytes base_offsets side_offsets side_text operations changes
  end.

Definition changes_overlap (left right : Change) : bool :=
  match is_empty (base left), is_empty (base right) with
  | true, true => start (base left) =? start (base right)
  | true, false =>
      (start (base right) <? start (base left)) && (start (base left) <? end_ (base right))
  | false, true =>
      (start (base left) <? start (base right)) && (start (base right) <? end_ (base left))
  | false, false =>
      (start (base left) <? end_ (base right)) && (start (base right) <? end_ (base left))
  end.

Definition equivalent_change (left right : Change) : bool :=
  bool_decide (base left = base right) && bool_decide (replacement left = replacement right).

Definition public_range (range : Range) : M ByteRange :=
  s ← usize_to_u64 (start range) ;
  e ← usize_to_u64 (end_ range) ;
  mret {| br_start := s; br_end := e |}.

Definition conflict_span (t : text) (range : Range) : M MergeConflictSpan :=
  r ← public_range range ;
  t ← need (get_range t range) InvalidEditScript ;
  mret {| span_range := r; span_text := t |}.

(** The body of the two loops of [find_conflicts] for one pair of changes; the
    state is [conflicts] and [conflict_payload_bytes]. *)
Definition compare_pair (base_text app_draft external_visible : text) (budget : MergeBudget)
    (app_change external_change : Change) (acc : list MergeConflict * Z)
    : M (list MergeConflict * Z) :=
  let '(conflicts, payload) := acc in
  if negb (changes_overlap app_change external_change)
     || equivalent_change app_change external_change
  then mret acc
  else
    let base_range := {| start := Z.min (start (base app_change)) (start (base external_change));
                         end_ := Z.max (end_ (base app_change)) (end_ (base external_change)) |} in
    n ← usize_to_u64 (len conflicts) ;
    ensure_budget Changes (saturating_add u64_max n 1) (max_changes budget) ;;
    b ← usize_to_u64 (range_len base_range) ;
    a ← usize_to_u64 (range_len (side app_change)) ;
    e ← usize_to_u64 (range_len (side external_change)) ;
    let payload := saturating_add u64_max (saturating_add u64_max
                     (saturating_add u64_max payload b) a) e in
    ensure_budget OutputBytes payload (max_output_bytes budget) ;;
    b ← conflict_span base_text base_range ;
    ab ← public_range (base app_change) ;
    a ← conflict_span app_draft (side app_change) ;
    eb ← public_range (base external_change) ;
    e ← conflict_span external_visible (side external_change) ;
    let conflict := {|
      conflict_kind := if is_empty (base app_change) && is_empty (base external_change)
                       then CompetingInsertions else OverlappingEdits;
      conflict_base := b; app_base_range := ab; app := a;
      external_base_range := eb; external := e |} in
    mret (conflicts ++ [conflict], payload).

Fixpoint fold_result {A B} (f : A → B → M B) (l : list A) (b : B) : M B :=
  match l with
  | [] => mret b
  | a :: l => b ← f a b ; fold_result f l b
  end.

Definition find_conflicts (base_text app_draft external_visible : text)
    (app_changes external_changes : list Change) (budget : MergeBudget) : M (list MergeConflict) :=
  a ← usize_to_u64 (len app_changes) ;
  e ← usize_to_u64 (len external_changes) ;
  ensure_budget ConflictComparisons (saturating_mul u64_max a e) (max_diff_work budget) ;;
  acc ← fold_result (λ app_change,
          fold_result (compare_pair base_text app_draft external_visible budget app_change)
            external_changes) app_changes ([], 0) ;
  mret acc.1.

(** The first loop of [apply_changes]: the length of the output. *)
Fixpoint output_length_loop (base_text : text) (changes : list Change) (output_length cursor : Z)
    : M Z :=
  match changes with
  | [] => mret output_length
  | change :: changes =>
      fail_if ((start (base change) <? cursor) || (str_len base_text <? end_ (base change)))
        InvalidEditScript ;;
      output_length ← need
        (length ← checked_sub output_length (range_len (base change)) ;
         checked_add usize_max length (str_len (replacement change))) RangeTooLarge ;
      output_length_loop base_text changes output_length (end_ (base change))
  end.

(** The second loop, with the tail of the base text behind the last change. *)
Fixpoint splice_loop (base_text : text) (changes : list Change) (content : text) (cursor : Z)
    : M text :=
  match changes with
  | [] =>
      rest ← need (str_get base_text cursor (str_len base_text)) InvalidEditScript ;
      mret (content ++ rest)
  | change :: changes =>
      kept ← need (str_get base_text cursor (start (base change))) InvalidEditScript ;
      splice_loop base_text changes (content ++ kept ++ replacement change) (end_ (base change))
  end.

Definition apply_changes (base_text : text) (changes : list Change) (budget : MergeBudget)
    : M MergeOutcome :=
  output_length ← output_length_loop base_text changes (str_len base_text) 0 ;
  ensure_output_budget output_length budget ;;
  content ← splice_loop base_text changes [] 0 ;
  fail_if (negb (str_len content =? output_length)) InvalidEditScript ;;
  mret (Merged content).

(** The loop that adds the external changes the app has not made. *)
Definition union_changes (app_changes external_changes : list Change) : list Change :=
  foldl (λ changes external_change,
    if existsb (λ app_change, equivalent_change app_change external_change) changes
    then changes else changes ++ [external_change]) app_changes external_changes.

(** The comparison of [sort_by]. *)
Definition change_cmp (left right : Change) : comparison :=
  match start (base left) ?= start (base right) with
  | Eq => match end_ (base left) ?= end_ (base right) with
          | Eq => str_cmp (replacement left) (replacement right)
          | c => c
          end
  | c => c
  end.
Definition change_le (left right : Change) : Prop := change_cmp left right ≠ Gt.
#[export] Instance change_le_dec : RelDecision change_le.
Proof. intros l r. unfold change_le. solve_decision. Defined.

Section Engine.
(** [capture_diff_slices(Algorithm::Myers, _, _)] *)
Context (capture_diff_slices : text → text → list DiffOp).

Definition diff_changes (base_text side_text : text) (budget : MergeBudget) : M (list Change) :=
  if bool_decide (base_text = side_text) then mret []
  else
    edges ← common_utf8_edges base_text side_text ;
    let '(prefix_bytes, suffix_bytes) := edges in
    base_middle_end ← need (checked_sub (str_len base_text) suffix_bytes) InvalidEditScript ;
    side_middle_end ← need (checked_sub (str_len side_text) suffix_bytes) InvalidEditScript ;
    base_middle ← need (str_get base_text prefix_bytes base_middle_end) InvalidEditScript ;
    side_middle ← need (str_get side_text prefix_bytes side_middle_end) InvalidEditScript ;
    base_scalar_count ← usize_to_u64 (len base_middle) ;
    side_scalar_count ← usize_to_u64 (len side_middle) ;
    ensure_budget ChangedScalars (saturating_add u64_max base_scalar_count side_scalar_count)
      (max_changed_scalars budget) ;;
    ensure_budget DiffWork (saturating_mul u64_max base_scalar_count side_scalar_count)
      (max_diff_work budget) ;;
    let operations := capture_diff_slices base_middle side_middle in
    changes ← collect_changes prefix_bytes (utf8_offsets base_middle) (utf8_offsets side_middle)
                side_text operations [] ;
    n ← usize_to_u64 (len changes) ;
    ensure_budget Changes n (max_changes budget) ;;
    mret changes.

Definition three_way_merge_with_budget (kind : DocumentKind)
    (base_text app_draft external_visible : text) (budget : MergeBudget) : M MergeOutcome :=
  fail_if (bool_decide (kind = Hybrid)) HybridMetadataRequired ;;
  ensure_input_budget base_text app_draft external_visible budget ;;
  if bool_decide (app_draft = external_visible) then
    ensure_output_budget (str_len app_draft) budget ;; mret (Merged app_draft)
  else if bool_decide (app_draft = base_text) then
    ensure_output_budget (str_len external_visible) budget ;; mret (Merged external_visible)
  else if bool_decide (external_visible = base_text) then
    ensure_output_budget (str_len app_draft) budget ;; mret (Merged app_draft)
  else
    app_changes ← diff_changes base_text app_draft budget ;
    external_changes ← diff_changes base_text external_visible budget ;
    conflicts ← find_conflicts base_text app_draft external_visible
                  app_changes external_changes budget ;
    if negb (bool_decide (length conflicts = 0%nat)) then mret (Conflict conflicts)
    else apply_changes base_text
           (merge_sort change_le (union_changes app_changes external_changes)) budget.

Definition three_way_merge (kind : DocumentKind) (base_text app_draft external_visible : text)
    : M MergeOutcome :=
  three_way_merge_with_budget kind base_text app_draft external_visible DEFAULT_MERGE_BUDGET.

End Engine.
(** ** What the module relies on and promises *)

(** An edit script of two slices of tokens (scalars here) from the positions [o] and [n] on. *)
Inductive script {A} (old new : list A) : nat → nat → list DiffOp → Prop :=
| script_end : script old new (length old) (length new) []
| script_equal o n k ops :
    (o + k ≤ length old)%nat → (n + k ≤ length new)%nat →
    span old o (o + k) = span new n (n + k) →
    script old new (o + k) (n + k) ops →
    script old new o n
      ({| tag := Equal; old_range := {| start := Z.of_nat o; end_ := Z.of_nat (o + k) |};
          new_range := {| start := Z.of_nat n; end_ := Z.of_nat (n + k) |} |} :: ops)
| script_change t o n o' n' ops :
    t ≠ Equal → (o ≤ o' ≤ length old)%nat → (n ≤ n' ≤ length new)%nat →
    script old new o' n' ops →
    script old new o n
      ({| tag := t; old_range := {| start := Z.of_nat o; end_ := Z.of_nat o' |};
          new_range := {| start := Z.of_nat n; end_ := Z.of_nat n' |} |} :: ops).

(** [similar] documents that the operations turn the old slice into the new one. *)
Definition diff_engine {A} (capture_diff_slices : list A → list A → list DiffOp) : Prop :=
  ∀ old new, script old new 0 0 (capture_diff_slices old new).

(** [patched b n cs t]: the base text from scalar [n] on becomes [t] when the
    changes [cs], which are disjoint and in order, replace their base ranges. *)
Inductive patched (b : text) : nat → list Change → text → Prop :=
| patched_nil n : (n ≤ length b)%nat → patched b n [] (drop n b)
| patched_cons n i j c cs t :
    (n ≤ i)%nat → (i ≤ j)%nat → (j ≤ length b)%nat →
    base c = {| start := off b i; end_ := off b j |} →
    patched b j cs t →
    patched b n (c :: cs) (span b n i ++ replacement c ++ t).

(** What a change does: its base range and its replacement. *)
Definition key (c : Change) : Range * text := (base c, replacement c).

Definition clash (a e : Change) : bool := changes_overlap a e && negb (equivalent_change a e).

Definition limit_of (budget : MergeBudget) (m : MergeBudgetMetric) : Z :=
  match m with
  | InputBytes => max_input_bytes budget
  | ChangedScalars => max_changed_scalars budget
  | DiffWork | ConflictComparisons => max_diff_work budget
  | Changes => max_changes budget
  | OutputBytes => max_output_bytes budget
  end.

(** The pairs of competing changes, in the order of the loops. *)
Definition clashes (A E : list Change) : list (Change * Change) :=
  a ← A ; e ← E ; if clash a e then [(a, e)] else [].

(** A result that satisfies [P], or a budget that is exceeded. *)
Definition within {A} (budget : MergeBudget) (P : A → Prop) (r : M A) : Prop :=
  match r with
  | Ok a => P a
  | Err (Fail (BudgetExceeded m actual limit)) => limit = limit_of budget m ∧ limit < actual
  | Err _ => False
  end.

(** The three texts are in memory together, and no saturation hides a count. *)
Record admissible (b a e : text) (budget : MergeBudget) : Prop := {
  fits : str_len b + str_len a + str_len e ≤ isize_max;
  counts : max_changes budget < u64_max;
}.

(** A reported span is a range of the text and its content. *)
Definition shows (t : text) (r : Range) (s : MergeConflictSpan) : Prop :=
  span_range s = {| br_start := start r; br_end := end_ r |} ∧
  get_range t r = Some (span_text s).

Record describes (b a e : text) (pair : Change * Change) (c : MergeConflict) : Prop := {
  d_kind : conflict_kind c = if is_empty (base pair.1) && is_empty (base pair.2)
                             then CompetingInsertions else OverlappingEdits;
  d_base : shows b {| start := Z.min (start (base pair.1)) (start (base pair.2));
                      end_ := Z.max (end_ (base pair.1)) (end_ (base pair.2)) |} (conflict_base c);
  d_app_base : app_base_range c = {| br_start := start (base pair.1); br_end := end_ (base pair.1) |};
  d_app : shows a (side pair.1) (app c);
  d_external_base : external_base_range c =
    {| br_start := start (base pair.2); br_end := end_ (base pair.2) |};
  d_external : shows e (side pair.2) (external c);
}.

(** ** Budgets *)

Section Within.
Context {A B : Type} (budget : MergeBudget).

Lemma within_bind (P : A → Prop) (Q : B → Prop) (r : M A) (f : A → M B) :
  within budget P r → (∀ a, P a → within budget Q (f a)) → within budget Q (r ≫= f).
Proof. destruct r as [a|[| |[]]]; simpl; auto. Qed.

Lemma within_mono (P Q : A → Prop) (r : M A) :
  (∀ a, P a → Q a) → within budget P r → within budget Q r.
Proof. destruct r as [a|[| |[]]]; simpl; auto. Qed.

Lemma within_Ok (P : A → Prop) a : P a → within budget P (Ok a).
Proof. done. Qed.

Lemma within_Ok_inv (P : A → Prop) (r : M A) a : within budget P r → r = Ok a → P a.
Proof. by intros Hw ->. Qed.
End Within.

Lemma ensure_budget_within budget m actual :
  within budget (λ _, actual ≤ limit_of budget m) (ensure_budget m actual (limit_of budget m)).
Proof. unfold ensure_budget, fail_if, reject_if. case_match; bool_prop; simpl; lia. Qed.

Lemma usize_to_u64_is v : v ≤ u64_max → usize_to_u64 v = Ok v.
Proof. intros. unfold usize_to_u64. apply need_is. by apply try_from_Some. Qed.

Lemma isize_u64 : isize_max < u64_max.
Proof. done. Qed.

Lemma ensure_output_budget_within budget n :
  n ≤ u64_max → within budget (λ _, n ≤ max_output_bytes budget) (ensure_output_budget n budget).
Proof.
  intros. unfold ensure_output_budget. rewrite usize_to_u64_is by done.
  apply (ensure_budget_within budget OutputBytes).
Qed.

(** ** Edits by scalar index *)

Module Edits.

(** Scalars [b0..b1] of the base become scalars [s0..s1] of the side. *)
Record edit := { b0 : nat; b1 : nat; s0 : nat; s1 : nat }.

Section Edits.
Context (bt st : text).

Definition change_of (e : edit) : Change := {|
  base := {| start := off bt (b0 e); end_ := off bt (b1 e) |};
  side := {| start := off st (s0 e); end_ := off st (s1 e) |};
  replacement := span st (s0 e) (s1 e) |}.

Definition inside (e : edit) : Prop :=
  (b0 e ≤ b1 e ≤ length bt)%nat ∧ (s0 e ≤ s1 e ≤ length st)%nat.

(** The texts agree from one pair of positions to the other. *)
Definition same (b s b' s' : nat) : Prop :=
  (b ≤ b' ≤ length bt)%nat ∧ (s ≤ s' ≤ length st)%nat ∧ span bt b b' = span st s s'.

Fixpoint linked (b s : nat) (es : list edit) (b' s' : nat) : Prop :=
  match es with
  | [] => same b s b' s'
  | e :: es => same b s (b0 e) (s0 e) ∧ inside e ∧ linked (b1 e) (s1 e) es b' s'
  end.

Definition apart (e e' : edit) : Prop := (b1 e < b0 e')%nat.

Lemma same_refl b s : (b ≤ length bt)%nat → (s ≤ length st)%nat → same b s b s.
Proof. intros. split_and!; try lia. by rewrite !span_nil. Qed.

Lemma same_trans b s b' s' b'' s'' : same b s b' s' → same b' s' b'' s'' → same b s b'' s''.
Proof.
  intros (? & ? & H1) (? & ? & H2). split_and!; [lia..|].
  rewrite (span_app bt b b'), (span_app st s s') by lia. by rewrite H1, H2.
Qed.

Lemma same_width b s b' s' : same b s b' s' → (b' - b = s' - s)%nat.
Proof.
  intros (? & ? & Heq). rewrite <- (span_length bt b b'), <- (span_length st s s') by lia.
  by rewrite Heq.
Qed.

Lemma linked_bounds b s es b' s' :
  linked b s es b' s' → (b ≤ b' ≤ length bt)%nat ∧ (s ≤ s' ≤ length st)%nat.
Proof.
  revert b s. induction es as [|e es IH]; intros b s; simpl.
  - intros (? & ? & _). lia.
  - intros ((? & ? & _) & (? & ?) & Hl). specialize (IH _ _ Hl). lia.
Qed.

Lemma linked_same b s es b' s' b'' s'' :
  linked b s es b' s' → same b' s' b'' s'' → linked b s es b'' s''.
Proof.
  revert b s. induction es as [|e es IH]; intros b s; simpl; [apply same_trans|].
  intros (H1 & H2 & H3) H4. eauto.
Qed.

Lemma linked_snoc b s es e b' s' :
  linked b s es b' s' → b0 e = b' → s0 e = s' → inside e →
  linked b s (es ++ [e]) (b1 e) (s1 e).
Proof.
  revert b s. induction es as [|e' es IH]; intros b s; simpl.
  - intros H1 <- <- H2. split_and!; [done..|]. destruct H2. apply same_refl; lia.
  - intros (H1 & H2 & H3) H4 H5 H6. eauto.
Qed.

(** The last of the edits ends where a gap to the current positions begins. *)
Lemma linked_last b s es e b' s' :
  linked b s (es ++ [e]) b' s' → inside e ∧ same (b1 e) (s1 e) b' s'.
Proof.
  revert b s. induction es as [|e' es IH]; intros b s; simpl; [tauto|].
  intros (_ & _ & H). eauto.
Qed.

Lemma linked_grow b s es e b' s' b'' s'' :
  linked b s (es ++ [e]) b' s' → (b1 e ≤ b'' ≤ length bt)%nat → (s1 e ≤ s'' ≤ length st)%nat →
  linked b s (es ++ [{| b0 := b0 e; b1 := b''; s0 := s0 e; s1 := s'' |}]) b'' s''.
Proof.
  revert b s. induction es as [|e' es IH]; intros b s; simpl.
  - intros (H1 & (? & ?) & H3) ? ?. unfold inside. simpl. split_and!; try done || lia.
    apply same_refl; lia.
  - intros (H1 & H2 & H3) ? ?. eauto.
Qed.

Lemma linked_inside b s es b' s' : linked b s es b' s' → Forall inside es.
Proof.
  revert b s. induction es as [|e es IH]; intros b s; simpl; [done|].
  intros (_ & ? & ?). constructor; eauto.
Qed.

(** Edits from one end of the texts to the other take the base to the side. *)
Lemma linked_patched b s es :
  linked b s es (length bt) (length st) → patched bt b (map change_of es) (drop s st).
Proof.
  revert b s. induction es as [|e es IH]; intros b s; simpl.
  - intros (? & ? & Heq). rewrite !span_to_end in Heq. rewrite <- Heq. constructor. lia.
  - intros ((? & ? & Heq) & (? & ?) & Hl).
    replace (drop s st) with (span bt b (b0 e) ++ replacement (change_of e) ++ drop (s1 e) st).
    { eapply patched_cons; [..|by apply IH]; simpl; (done || lia). }
    simpl. rewrite Heq, <- !span_to_end, (span_app st s (s0 e) (length st)) by lia.
    f_equal. symmetry. apply span_app. lia.
Qed.

(** The text the edits bring in is part of the side. *)
Fixpoint total (cs : list Change) : Z :=
  match cs with
  | [] => 0
  | c :: cs => str_len (replacement c) + total cs
  end.

Lemma linked_total b s es b' s' :
  linked b s es b' s' → total (map change_of es) ≤ off st s' - off st s.
Proof.
  revert b s. induction es as [|e es IH]; intros b s; simpl.
  - intros (_ & ? & _). pose proof (off_le st s s'). lia.
  - intros ((_ & ? & _) & (? & ?) & Hl). specialize (IH _ _ Hl).
    rewrite span_off by lia. pose proof (off_le st s (s0 e)). lia.
Qed.

Lemma linked_count_strict b s es b' s' :
  linked b s es b' s' → Sorted apart es → (∀ e, head es = Some e → b < b0 e)%nat →
  (length es ≤ b' - b)%nat.
Proof.
  revert b s. induction es as [|e es IH]; intros b s; simpl; [lia|].
  intros (_ & (? & ?) & Hl) Hs Hh. apply Sorted_inv in Hs as [Hs Hd].
  pose proof (linked_bounds _ _ _ _ _ Hl). specialize (Hh e eq_refl).
  specialize (IH _ _ Hl Hs). assert (length es ≤ b' - b1 e)%nat; [|lia].
  apply IH. intros e' He'. destruct es; simplify_eq/=. by apply HdRel_inv in Hd.
Qed.

Lemma linked_count b s es b' s' :
  linked b s es b' s' → Sorted apart es → (length es ≤ b' - b + 1)%nat.
Proof.
  destruct es as [|e es]; simpl; [lia|]. intros ((? & _) & (? & ?) & Hl) Hs.
  apply Sorted_inv in Hs as [Hs Hd]. pose proof (linked_bounds _ _ _ _ _ Hl).
  assert (length es ≤ b' - b1 e)%nat; [|lia]. eapply linked_count_strict; [done..|].
  intros e' He'. destruct es; simplify_eq/=. by apply HdRel_inv in Hd.
Qed.
End Edits.
End Edits.

(** ** The diff of two texts *)

Module Diff.
Import Edits.

Lemma common_bytes_spec l r :
  ∃ k, (k ≤ length l)%nat ∧ (k ≤ length r)%nat ∧ take k l = take k r ∧ common_bytes l r = off l k.
Proof.
  revert r. induction l as [|c l IH]; intros [|d r]; simpl; try (by exists 0%nat; split_and!; try lia).
  destruct (Z.eqb_spec c d) as [->|]; [|exists 0%nat; split_and!; (done || lia)].
  destruct (IH r) as (k & ? & ? & Heq & Hc). exists (S k). rewrite off_cons, Hc. simpl.
  split_and!; try lia. by rewrite Heq.
Qed.

Lemma str_len_reverse t : str_len (reverse t) = str_len t.
Proof. induction t as [|c t IH]; [done|]. rewrite reverse_cons, str_len_app, IH. simpl. lia. Qed.

Lemma take_of_reverse (t : text) q :
  (q ≤ length t)%nat → take q (reverse t) = reverse (drop (length t - q) t).
Proof.
  intros Hq. rewrite <- (take_drop (length t - q) t) at 1. rewrite reverse_app, take_app_le.
  - apply take_ge. rewrite length_reverse, length_drop. lia.
  - rewrite length_reverse, length_drop. lia.
Qed.

Section Diff.
Context (bt st : text).

Record edges (p q : nat) : Prop := {
  e_base : (p + q ≤ length bt)%nat;
  e_side : (p + q ≤ length st)%nat;
  e_prefix : same bt st 0 0 p p;
  e_suffix : same bt st (length bt - q) (length st - q) (length bt) (length st);
}.

Lemma edges_offsets p q : edges p q →
  off st p = off bt p ∧
  str_len st - off st (length st - q) = str_len bt - off bt (length bt - q).
Proof.
  intros [? ? (_ & _ & Hp) (_ & _ & Hq)]. rewrite !span_from_start in Hp.
  split; [unfold off; by rewrite Hp|].
  apply (f_equal str_len) in Hq. rewrite !span_off, !off_length in Hq by lia. lia.
Qed.

Lemma common_utf8_edges_is :
  ∃ p q, edges p q ∧
    common_utf8_edges bt st = Ok (off bt p, str_len bt - off bt (length bt - q)).
Proof.
  destruct (common_bytes_spec bt st) as (p & Hpb & Hps & Hp & Hc).
  assert (off st p = off bt p) as Hoff by (unfold off; by rewrite Hp).
  destruct (common_bytes_spec (reverse (drop p bt)) (reverse (drop p st))) as (q & Hqb & Hqs & Hq & Hc').
  rewrite !length_reverse, !length_drop in Hqb, Hqs.
  rewrite !take_of_reverse in Hq by (rewrite length_drop; lia). apply (inj reverse) in Hq.
  rewrite !length_drop, !drop_drop in Hq.
  replace (p + (length bt - p - q))%nat with (length bt - q)%nat in Hq by lia.
  replace (p + (length st - p - q))%nat with (length st - q)%nat in Hq by lia.
  exists p, q. split.
  - split; [lia..| |]; (split_and!; [lia..|]); by rewrite ?span_from_start, ?span_to_end.
  - unfold common_utf8_edges. rewrite Hc.
    rewrite str_get_full, <- Hoff, str_get_full by lia. cbn [ok_or mbind result_bind mret result_ret].
    rewrite Hc'. unfold off at 2. rewrite take_of_reverse by (rewrite length_drop; lia).
    rewrite str_len_reverse, length_drop, drop_drop.
    replace (p + (length bt - p - q))%nat with (length bt - q)%nat by lia.
    rewrite <- span_to_end, span_off, off_length by lia. done.
Qed.

Context (Hb : str_len bt ≤ isize_max) (Hs : str_len st ≤ isize_max).

Lemma offset_range_is t p m i j :
  str_len t ≤ isize_max → (i ≤ j ≤ m)%nat → (p + m ≤ length t)%nat →
  offset_range (off t p) (utf8_offsets (span t p (p + m)))
    {| start := Z.of_nat i; end_ := Z.of_nat j |} =
  Ok {| start := off t (p + i); end_ := off t (p + j) |}.
Proof.
  intros Ht Hij Hm. assert (∀ k, (k ≤ m)%nat →
    offset_at (off t p) (utf8_offsets (span t p (p + m))) (Z.of_nat k) = Some (off t (p + k))) as Hat.
  { intros k Hk. unfold offset_at, utf8_offsets. pose proof isize_u64. pose proof (off_le_len t (p + k)).
    assert (off (span t p (p + m)) k = off t (p + k) - off t p) as Hoff.
    { unfold span. rewrite off_take, off_drop by lia. done. }
    pose proof (proj2 (get_Some (offsets_from 0 (span t p (p + m))) (Z.of_nat k)
      (0 + off (span t p (p + m)) k) ltac:(lia))) as Hg.
    rewrite Hg; simpl.
    - rewrite Hoff. apply checked_add_Some. unfold usize_max, u64_max, isize_max in *. lia.
    - unfold len. rewrite offsets_from_length, span_length by lia. split; [lia|].
      rewrite Nat2Z.id. apply offsets_from_lookup. rewrite span_length; lia. }
  unfold offset_range. cbn [start end_]. rewrite !Hat by lia. done.
Qed.

Lemma Sorted_apart_snoc es e :
  Sorted apart es → (∀ e', last es = Some e' → apart e' e) → Sorted apart (es ++ [e]).
Proof.
  induction es as [|e1 es IH]; intros He Hl; simpl; [by repeat constructor|].
  apply Sorted_inv in He as [He Hd]. constructor.
  - apply IH; [done|]. intros e' He'. apply Hl. by destruct es.
  - destruct es as [|e2 es]; simpl; constructor; [by apply Hl|by inversion Hd].
Qed.

Lemma Sorted_apart_grow es e e' :
  Sorted apart (es ++ [e]) → b0 e' = b0 e → Sorted apart (es ++ [e']).
Proof.
  induction es as [|e1 es IH]; intros He Heq; simpl; [by repeat constructor|].
  simpl in He. apply Sorted_inv in He as [He Hd]. constructor; [by apply IH|].
  destruct es as [|e2 es]; simpl in *; constructor; apply HdRel_inv in Hd; unfold apart in *; lia.
Qed.

Lemma push_change_is es b s b' s' :
  linked bt st 0 0 es b s → Sorted apart es → (b ≤ b' ≤ length bt)%nat → (s ≤ s' ≤ length st)%nat →
  ∃ es', push_change st {| start := off bt b; end_ := off bt b' |}
           {| start := off st s; end_ := off st s' |} (map (change_of bt st) es)
         = Ok (map (change_of bt st) es') ∧
    linked bt st 0 0 es' b' s' ∧ Sorted apart es'.
Proof.
  intros Hl Hso Hbb Hss. unfold push_change, get_range. cbn [start end_]. rewrite str_get_off by lia.
  destruct es as [|e es _] using rev_ind.
  { exists [{| b0 := b; b1 := b'; s0 := s; s1 := s' |}]. split; [done|]. split; [|by repeat constructor].
    split; [done|]. split; [done|]. apply same_refl; simpl; lia. }
  pose proof (linked_last _ _ _ _ _ _ _ _ Hl) as ((? & ?) & Hsame).
  pose proof Hsame as (? & ? & _). pose proof (same_width _ _ _ _ _ _ Hsame) as Hw.
  rewrite map_app. cbn [map]. rewrite last_snoc. cbn [change_of base side start end_].
  destruct ((off bt (b1 e) =? off bt b) && (off st (s1 e) =? off st s)) eqn:Ht; bool_prop.
  - apply off_eq_iff in H3, H4; [|lia..]. subst b s.
    exists (es ++ [{| b0 := b0 e; b1 := b'; s0 := s0 e; s1 := s' |}]).
    rewrite removelast_last, map_app. split; [|split].
    + cbn. do 2 f_equal. unfold change_of. simpl. by rewrite <- span_app by lia.
    + eapply linked_grow; [done|lia..].
    + by eapply Sorted_apart_grow.
  - exists ((es ++ [e]) ++ [{| b0 := b; b1 := b'; s0 := s; s1 := s' |}]).
    split; [by rewrite !map_app|]. split.
    + apply (linked_snoc _ _ _ _ _ {| b0 := b; b1 := b'; s0 := s; s1 := s' |} _ _ Hl); try done.
    + apply Sorted_apart_snoc; [done|]. intros e'. rewrite last_snoc. intros [= <-].
      unfold apart. simpl. destruct (decide (b1 e = b)) as [Hbe|]; [|lia].
      assert (s1 e = s) as Hse by lia. rewrite Hbe, Hse in Ht. destruct Ht as [Ht|Ht]; bool_prop; done.
Qed.

Lemma collect_changes_is p mb ms ops o n es :
  (p + mb ≤ length bt)%nat → (p + ms ≤ length st)%nat → off st p = off bt p →
  script (span bt p (p + mb)) (span st p (p + ms)) o n ops →
  linked bt st 0 0 es (p + o) (p + n) → Sorted apart es →
  ∃ es', collect_changes (off bt p) (utf8_offsets (span bt p (p + mb)))
           (utf8_offsets (span st p (p + ms))) st ops (map (change_of bt st) es)
         = Ok (map (change_of bt st) es') ∧
    linked bt st 0 0 es' (p + mb) (p + ms) ∧ Sorted apart es'.
Proof.
  intros Hmb Hms Hoff Hscript. revert es.
  induction Hscript as [|o n k ops Ho Hn Heq Hscript IH|t o n o' n' ops Ht Ho Hn Hscript IH];
    intros es Hl Hso; rewrite ?span_length in * by lia.
  - exists es. split; [done|]. split; [|done].
    by replace (p + mb - p)%nat with mb in Hl by lia; replace (p + ms - p)%nat with ms in Hl by lia.
  - simpl. apply IH; [|done].
    eapply linked_same; [done|]. split; [lia|]. split; [lia|].
    rewrite !span_span in Heq by lia. done.
  - cbn [collect_changes tag old_range new_range]. rewrite bool_decide_eq_false_2 by done.
    pose proof (offset_range_is st p ms n n' Hs ltac:(lia) Hms) as Hside. rewrite Hoff in Hside.
    rewrite offset_range_is by (done || lia). cbn [mbind result_bind].
    rewrite Hside. cbn [mbind result_bind].
    destruct (push_change_is es (p + o) (p + n) (p + o') (p + n') Hl Hso) as (es' & -> & Hl' & Hso'); [lia..|].
    cbn. apply IH; done.
Qed.

(** The changes of a diff. *)
Definition changes_of (cs : list Change) : Prop :=
  ∃ es, cs = map (change_of bt st) es ∧ linked bt st 0 0 es (length bt) (length st) ∧ Sorted apart es.

Lemma changes_of_len cs : changes_of cs → len cs ≤ u64_max.
Proof.
  intros (es & -> & Hl & Hso). apply linked_count in Hl; [|done].
  pose proof (str_len_ge_length bt). unfold len in *. rewrite length_map.
  unfold isize_max, u64_max in *. lia.
Qed.

Lemma diff_changes_is cds budget :
  diff_engine cds →
  ∃ cs, changes_of cs ∧ within budget (λ cs', cs' = cs) (diff_changes cds bt st budget).
Proof.
  intros Hcds. unfold diff_changes. case_bool_decide as Heq.
  { exists []. split; [|done]. exists []. split; [done|]. split; [|constructor].
    rewrite <- Heq. simpl. split_and!; (done || lia). }
  destruct common_utf8_edges_is as (p & q & He & ->). cbn [mbind result_bind].
  pose proof (edges_offsets p q He) as [Hop Hoq]. destruct He as [Heb Hes Hpre Hsuf].
  assert (∃ mb, p + mb = length bt - q)%nat as [mb Hmb] by (exists (length bt - q - p)%nat; lia).
  assert (∃ ms, p + ms = length st - q)%nat as [ms Hms] by (exists (length st - q - p)%nat; lia).
  destruct (collect_changes_is p mb ms (cds (span bt p (p + mb)) (span st p (p + ms))) 0 0 [])
    as (es & Hcol & Hl & Hso); [lia|lia|done|apply Hcds|by rewrite !Nat.add_0_r|done|].
  assert (changes_of (map (change_of bt st) es)) as Hch.
  { exists es. split; [done|]. split; [|done]. eapply linked_same; [done|].
    by rewrite Hmb, Hms. }
  exists (map (change_of bt st) es). split; [done|].
  pose proof (off_nonneg bt (length bt - q)). pose proof (off_nonneg st (length st - q)).
  rewrite (need_is (checked_sub (str_len bt) _) _ (off bt (p + mb))) by (rewrite Hmb; apply checked_sub_Some; lia).
  cbn [mbind result_bind].
  rewrite (need_is (checked_sub (str_len st) _) _ (off st (p + ms))) by (rewrite Hms; apply checked_sub_Some; lia).
  cbn [mbind result_bind].
  rewrite (need_is (str_get bt _ _) _ (span bt p (p + mb))) by (apply str_get_off; lia). cbn [mbind result_bind].
  rewrite (need_is (str_get st _ _) _ (span st p (p + ms))) by (rewrite <- Hop; apply str_get_off; lia).
  cbn [mbind result_bind].
  assert (∀ t m, str_len t ≤ isize_max → (p + m ≤ length t)%nat → len (span t p (p + m)) ≤ u64_max) as Hlen.
  { intros t m Ht Hm. pose proof (str_len_ge_length t). unfold len in *. rewrite span_length by lia.
    unfold isize_max, u64_max in *. lia. }
  rewrite (usize_to_u64_is (len (span bt _ _))) by (apply Hlen; (done || lia)). cbn [mbind result_bind].
  rewrite (usize_to_u64_is (len (span st _ _))) by (apply Hlen; (done || lia)). cbn [mbind result_bind].
  eapply within_bind; [apply (ensure_budget_within budget ChangedScalars)|intros _ _].
  eapply within_bind; [apply (ensure_budget_within budget DiffWork)|intros _ _].
  change (@nil Change) with (map (change_of bt st) []). rewrite Hcol. cbn [mbind result_bind].
  rewrite usize_to_u64_is by by apply changes_of_len. cbn [mbind result_bind].
  eapply within_bind; [apply (ensure_budget_within budget Changes)|intros _ _]. done.
Qed.

End Diff.
End Diff.

(** ** Applying changes *)

Module Apply.
Import Edits.

Section Apply.
Context (b : text).

Lemma output_length_is n cs t L :
  patched b n cs t → str_len (drop n b) ≤ L → L + total cs ≤ usize_max →
  output_length_loop b cs L (off b n) = Ok (L - str_len (drop n b) + str_len t).
Proof.
  intros Hp. revert L. induction Hp as [n Hn|n i j c cs t Hni Hij Hj Hc Hp IH]; intros L HL Htot.
  { simpl. f_equal. lia. }
  assert (0 ≤ total cs) as Hcs by (clear; induction cs; simpl; [lia|]; pose proof (str_len_nonneg (replacement a)); lia).
  pose proof (off_le b n i ltac:(lia)). pose proof (off_le b i j ltac:(lia)). pose proof (off_le_len b j).
  pose proof (span_off b n (length b) ltac:(lia)) as Hdn. pose proof (span_off b j (length b) ltac:(lia)) as Hdj.
  rewrite off_length, span_to_end in *. pose proof (str_len_nonneg (drop j b)).
  cbn [total] in Htot. cbn [output_length_loop]. rewrite Hc. unfold range_len. cbn [start end_].
  rewrite fail_if_false by (apply orb_false_iff; rewrite !Z.ltb_ge; lia). cbn [mbind result_bind].
  pose proof (proj2 (checked_sub_Some L (Z.max 0 (off b j - off b i)) (L - (off b j - off b i)))) as Hsub.
  rewrite Hsub by lia. cbn [mbind option_bind].
  rewrite (need_is _ _ (L - (off b j - off b i) + str_len (replacement c)))
    by (apply checked_add_Some; lia). cbn [mbind result_bind].
  pose proof (str_len_nonneg (replacement c)).
  rewrite IH by lia. rewrite !str_len_app, span_off by lia. f_equal. lia.
Qed.

Lemma patched_len n cs t : patched b n cs t → str_len t ≤ str_len (drop n b) + total cs.
Proof.
  induction 1 as [n Hn|n i j c cs t Hni Hij Hj Hc Hp IH]; cbn [total]; [lia|].
  rewrite !str_len_app, <- (span_to_end b n), (span_app b n i (length b)), (span_app b i j (length b)), !str_len_app by lia.
  rewrite (span_to_end b j). pose proof (str_len_nonneg (span b i j)). lia.
Qed.

Lemma splice_is n cs t content :
  patched b n cs t → splice_loop b cs content (off b n) = Ok (content ++ t).
Proof.
  intros Hp. revert content. induction Hp as [n Hn|n i j c cs t Hni Hij Hj Hc Hp IH]; intros content.
  - simpl. by rewrite str_get_full.
  - cbn [splice_loop]. rewrite Hc. cbn [start end_]. rewrite str_get_off by lia.
    cbn [need ok_or mbind result_bind]. rewrite IH. by rewrite <- !(assoc_L (++)).
Qed.

Lemma apply_changes_is cs t budget :
  patched b 0 cs t → str_len b + total cs ≤ usize_max →
  apply_changes b cs budget = (ensure_output_budget (str_len t) budget ;; mret (Merged t)).
Proof.
  intros Hp Htot. unfold apply_changes. pose proof (output_length_is 0 cs t (str_len b) Hp) as Hl.
  rewrite off_0, drop_0 in Hl. rewrite Hl by lia.
  replace (str_len b - str_len b + str_len t) with (str_len t) by lia. cbn [mbind result_bind].
  destruct (ensure_output_budget _ _) as [[]|]; [|done]. cbn [mbind result_bind].
  pose proof (splice_is 0 cs t [] Hp) as Hs. rewrite off_0 in Hs. rewrite Hs. cbn [mbind result_bind].
  rewrite app_nil_l, Z.eqb_refl. done.
Qed.

Lemma patched_fun n cs t t' : patched b n cs t → patched b n cs t' → t = t'.
Proof.
  intros Hp. revert t'. induction Hp as [n Hn|n i j c cs t Hni Hij Hj Hc Hp IH]; intros t' Hp'; inversion Hp'; subst; [done|].
  match goal with H : base c = {| start := off b ?i'; end_ := off b ?j' |} |- _ =>
    tryif constr_eq i i' then fail else (rewrite Hc in H; injection H as Hi' Hj') end.
  apply off_eq_iff in Hi', Hj'; [|lia..]. subst. by erewrite IH.
Qed.

Lemma patched_key n cs cs' t : patched b n cs t → map key cs = map key cs' → patched b n cs' t.
Proof.
  intros Hp. revert cs'. induction Hp as [n Hn|n i j c cs t Hni Hij Hj Hc Hp IH]; intros [|c' cs'] Hk; try done.
  - by constructor.
  - cbn [map] in Hk. unfold key at 1 3 in Hk. injection Hk as Hkb Hkr Hk. rewrite Hkr. eapply patched_cons; [done..| |by apply IH]. congruence.
Qed.

End Apply.
End Apply.

(** ** Two sets of changes on one base *)

Module Union.
Import Edits Diff Apply.

Definition disjoint_changes (x y : Change) : Prop := changes_overlap x y = false.
Definition before (x y : Change) : Prop := end_ (base x) ≤ start (base y).

Lemma disjoint_changes_sym x y : disjoint_changes x y → disjoint_changes y x.
Proof.
  unfold disjoint_changes, changes_overlap. destruct (is_empty (base x)), (is_empty (base y)); intros H.
  - by rewrite Z.eqb_sym.
  - done.
  - done.
  - by rewrite andb_comm.
Qed.

Lemma disjoint_keys x y : disjoint_changes x y → key x ≠ key y.
Proof.
  unfold disjoint_changes, changes_overlap, key, is_empty. intros H [= Hb _]. rewrite Hb in H.
  destruct (start (base y) <? end_ (base y)); simpl in H; [done|by rewrite Z.eqb_refl in H].
Qed.

Lemma equivalent_key x y : equivalent_change x y = true ↔ key x = key y.
Proof. unfold equivalent_change, key. rewrite andb_true_iff, !bool_decide_eq_true. split; [by intros [-> ->]|by intros [= -> ->]]. Qed.

Lemma StronglySorted_combine {A} (R S T : relation A) (P : A → Prop) (l : list A) :
  (∀ x y, P x → P y → R x y → S x y → T x y) → Forall P l →
  StronglySorted R l → StronglySorted S l → StronglySorted T l.
Proof.
  intros HT HP HR HS. induction HP as [|x l Hx HP IH]; [constructor|].
  apply StronglySorted_inv in HR as [HR HRx], HS as [HS HSx].
  constructor; [by apply IH|]. rewrite Forall_forall in *. naive_solver.
Qed.

#[export] Instance change_le_trans : Transitive change_le.
Proof.
  intros x y z. unfold change_le, change_cmp. pose proof (str_cmp_trans (replacement x) (replacement y) (replacement z)).
  destruct (Z.compare_spec (start (base x)) (start (base y))), (Z.compare_spec (start (base y)) (start (base z))),
    (Z.compare_spec (start (base x)) (start (base z))); try done; try lia;
  destruct (Z.compare_spec (end_ (base x)) (end_ (base y))), (Z.compare_spec (end_ (base y)) (end_ (base z))),
    (Z.compare_spec (end_ (base x)) (end_ (base z))); try done; try lia.
Qed.

Lemma change_cmp_antisym x y : change_cmp y x = CompOpp (change_cmp x y).
Proof.
  unfold change_cmp. rewrite (Z.compare_antisym (start (base x))), (Z.compare_antisym (end_ (base x))),
    (str_cmp_antisym (replacement x)).
  by destruct (start (base x) ?= start (base y)), (end_ (base x) ?= end_ (base y)).
Qed.

#[export] Instance change_le_total : Total change_le.
Proof.
  intros x y. unfold change_le. rewrite (change_cmp_antisym x y). destruct (change_cmp x y); simpl; auto.
Qed.

Lemma change_le_key x y : change_le x y → change_le y x → key x = key y.
Proof.
  unfold change_le. rewrite (change_cmp_antisym x y). unfold change_cmp, key. intros Hxy Hyx.
  destruct (Z.compare_spec (start (base x)) (start (base y))) as [Hs| |]; try done.
  destruct (Z.compare_spec (end_ (base x)) (end_ (base y))) as [He| |]; try done.
  destruct (str_cmp (replacement x) (replacement y)) eqn:Hc; try done.
  apply str_cmp_eq in Hc. rewrite Hc. f_equal. destruct (base x), (base y). simpl in *. congruence.
Qed.

Section Union.
Context (b : text).

Definition on_base (c : Change) : Prop :=
  ∃ i j, (i ≤ j ≤ length b)%nat ∧ base c = {| start := off b i; end_ := off b j |}.

Lemma on_base_le c : on_base c → start (base c) ≤ end_ (base c).
Proof. intros (i & j & Hij & ->). by apply off_le. Qed.

Lemma disjoint_ordered x y :
  on_base x → on_base y → disjoint_changes x y → change_le x y → before x y.
Proof.
  intros Hx%on_base_le Hy%on_base_le. unfold disjoint_changes, changes_overlap, change_le, change_cmp, before, is_empty.
  destruct (Z.ltb_spec (start (base x)) (end_ (base x))), (Z.ltb_spec (start (base y)) (end_ (base y)));
    simpl; intros Hd Hle; bool_prop;
    destruct (Z.compare_spec (start (base x)) (start (base y)));
    destruct (Z.compare_spec (end_ (base x)) (end_ (base y))); try done;
    repeat match goal with H : _ ∨ _ |- _ => destruct H end; bool_prop; lia.
Qed.

Lemma ordered_patched n cs :
  Forall on_base cs → StronglySorted before cs → Forall (λ c, off b n ≤ start (base c)) cs →
  (n ≤ length b)%nat → ∃ t, patched b n cs t.
Proof.
  intros Hon. revert n. induction Hon as [|c cs (i & j & Hij & Hc) Hon IH]; intros n Hs Hn Hnb.
  { eexists. by constructor. }
  apply StronglySorted_inv in Hs as [Hs Hbef]. apply Forall_cons in Hn as [Hn _].
  rewrite Hc in Hn. simpl in Hn.
  assert (n ≤ i)%nat as Hni.
  { destruct (decide (n ≤ i)%nat); [done|]. pose proof (off_lt b i n). lia. }
  destruct (IH j Hs) as [t Ht]; [|lia|].
  { eapply Forall_impl; [exact Hbef|]. unfold before. rewrite Hc. done. }
  eexists. eapply patched_cons; [..|exact Ht]; (done || lia).
Qed.

Lemma changes_of_on_base st cs : changes_of b st cs → Forall on_base cs.
Proof.
  intros (es & -> & Hl & _). apply linked_inside in Hl. apply Forall_map.
  eapply Forall_impl; [exact Hl|]. intros e (? & ?). by exists (b0 e), (b1 e).
Qed.

Lemma linked_above st p s es p' s' :
  linked b st p s es p' s' → Forall (λ e, (p ≤ b0 e)%nat) es.
Proof.
  revert p s. induction es as [|e es IH]; intros p s; simpl; [done|].
  intros ((? & _) & (? & _) & Hl). constructor; [lia|].
  eapply Forall_impl; [by eapply IH|]. simpl. lia.
Qed.

Lemma apart_disjoint st e e' :
  inside b st e → inside b st e' → apart e e' →
  disjoint_changes (change_of b st e) (change_of b st e').
Proof.
  intros (? & _) (? & _) Ha. unfold apart in Ha.
  pose proof (off_lt b (b1 e) (b0 e') ltac:(lia)). pose proof (off_le b (b0 e) (b1 e)).
  pose proof (off_le b (b0 e') (b1 e')).
  unfold disjoint_changes, changes_overlap, is_empty. simpl.
  repeat case_match; rewrite ?andb_false_iff, ?Z.eqb_neq, ?Z.ltb_ge; lia.
Qed.

Lemma changes_of_disjoint st cs : changes_of b st cs → StronglySorted disjoint_changes cs.
Proof.
  intros (es & -> & Hl & Hs). revert Hl. generalize 0%nat at 1 as p. generalize 0%nat as s.
  induction es as [|e es IH]; intros s p; simpl; [constructor|]. intros (_ & Hin & Hl).
  apply Sorted_inv in Hs as [Hs Hd]. constructor; [by eapply IH|].
  apply Forall_map, Forall_forall. intros e' He'.
  pose proof (linked_inside _ _ _ _ _ _ _ Hl) as Hins. rewrite Forall_forall in Hins.
  apply apart_disjoint; [done|by apply Hins|].
  destruct es as [|e1 es]; [by apply elem_of_nil in He'|]. apply HdRel_inv in Hd. unfold apart in *.
  apply elem_of_cons in He' as [->|He']; [done|]. destruct Hl as (_ & (? & _) & Hl).
  apply linked_above in Hl. rewrite Forall_forall in Hl. specialize (Hl _ He'). lia.
Qed.

End Union.

Lemma union_snoc A E e :
  union_changes A (E ++ [e]) =
    if existsb (λ a, equivalent_change a e) (union_changes A E)
    then union_changes A E else union_changes A E ++ [e].
Proof. unfold union_changes. by rewrite foldl_app. Qed.

Lemma existsb_equivalent e cs :
  existsb (λ a, equivalent_change a e) cs = true ↔ key e ∈ map key cs.
Proof.
  rewrite existsb_exists, list_elem_of_fmap. setoid_rewrite <- list_elem_of_In.
  setoid_rewrite equivalent_key. split; [intros (x & Hx & Hk)|intros (x & Hk & Hx)]; by exists x.
Qed.

(** The union has the changes of both sides, up to equivalence, and no others. *)
Lemma union_elem A E c : c ∈ union_changes A E → c ∈ A ∨ c ∈ E.
Proof.
  induction E as [|e E IH] using rev_ind; [by left|]. rewrite union_snoc.
  case_match; rewrite !elem_of_app, ?list_elem_of_singleton; naive_solver.
Qed.

Lemma union_keys A E k : k ∈ map key (union_changes A E) ↔ k ∈ map key A ∨ k ∈ map key E.
Proof.
  induction E as [|e E IH] using rev_ind.
  - simpl. rewrite elem_of_nil. tauto.
  - rewrite union_snoc. rewrite map_app, elem_of_app. cbn [map]. rewrite list_elem_of_singleton.
    case_match eqn:He.
    + apply existsb_equivalent in He. rewrite IH in *. naive_solver.
    + rewrite map_app, elem_of_app. cbn [map]. rewrite list_elem_of_singleton, IH. tauto.
Qed.

Lemma union_total A E : total (union_changes A E) ≤ total A + total E.
Proof.
  assert (∀ cs ds, total (cs ++ ds) = total cs + total ds) as Happ.
  { intros cs ds. induction cs; simpl; lia. }
  induction E as [|e E IH] using rev_ind; [simpl; lia|]. rewrite union_snoc, Happ. simpl.
  pose proof (str_len_nonneg (replacement e)). case_match; rewrite ?Happ; simpl; lia.
Qed.

Lemma union_disjoint A E :
  StronglySorted disjoint_changes A → StronglySorted disjoint_changes E →
  (∀ a e, a ∈ A → e ∈ E → clash a e = false) →
  StronglySorted disjoint_changes (union_changes A E).
Proof.
  intros HA. induction E as [|e E IH] using rev_ind; intros HE Hc; [done|]. rewrite union_snoc.
  assert (StronglySorted disjoint_changes E ∧ Forall (λ x, disjoint_changes x e) E) as [HE' He].
  { clear -HE. induction E as [|x E IH]; [by repeat constructor|]. simpl in HE.
    apply StronglySorted_inv in HE as [HE Hx]. apply Forall_app in Hx as [Hx Hxe].
    apply Forall_cons in Hxe as [Hxe _]. destruct (IH HE). split; by constructor. }
  assert (StronglySorted disjoint_changes (union_changes A E)) as HU.
  { apply IH; [done|]. intros a e' Ha He'. apply Hc; [done|]. apply elem_of_app. by left. }
  destruct (existsb _ _) eqn:Hex; [done|]. apply StronglySorted_snoc; [done|].
  apply Forall_forall. intros c Hin. pose proof (union_elem _ _ _ Hin) as [Ha|Ha].
  - specialize (Hc c e Ha ltac:(set_solver)). unfold clash in Hc. apply andb_false_iff in Hc as [Hc|Hc]; [done|].
    apply negb_false_iff, equivalent_key in Hc. apply not_true_iff_false in Hex. destruct Hex.
    apply existsb_equivalent, list_elem_of_fmap. eauto.
  - rewrite Forall_forall in He. auto.
Qed.

Lemma total_perm cs ds : cs ≡ₚ ds → total cs = total ds.
Proof. induction 1; simpl; lia. Qed.
End Union.

(** ** Conflicts *)

Module Conflicts.
Import Edits Diff Union.

(** The range is a range of scalars of the text. *)
Definition ranged (t : text) (r : Range) : Prop :=
  ∃ i j, (i ≤ j ≤ length t)%nat ∧ r = {| start := off t i; end_ := off t j |}.

Lemma changes_of_side b st cs : changes_of b st cs → Forall (λ c, ranged st (side c)) cs.
Proof.
  intros (es & -> & Hl & _). apply linked_inside in Hl. apply Forall_map.
  eapply Forall_impl; [exact Hl|]. intros e (? & ?). by exists (s0 e), (s1 e).
Qed.

Lemma ranged_union t r s :
  ranged t r → ranged t s →
  ranged t {| start := Z.min (start r) (start s); end_ := Z.max (end_ r) (end_ s) |}.
Proof.
  intros (i & j & Hij & ->) (k & l & Hkl & ->). simpl. exists (i `min` k)%nat, (j `max` l)%nat.
  split; [lia|]. pose proof (off_le t) as Hle. f_equal.
  - destruct (decide (i ≤ k)%nat).
    + rewrite Nat.min_l, Z.min_l by (try apply Hle; lia). done.
    + rewrite Nat.min_r, Z.min_r by (try apply Hle; lia). done.
  - destruct (decide (j ≤ l)%nat).
    + rewrite Nat.max_r, Z.max_r by (try apply Hle; lia). done.
    + rewrite Nat.max_l, Z.max_l by (try apply Hle; lia). done.
Qed.

Lemma ranged_bounds t r : str_len t ≤ isize_max → ranged t r →
  start r ≤ u64_max ∧ end_ r ≤ u64_max ∧ range_len r ≤ u64_max.
Proof.
  intros Ht (i & j & Hij & ->). unfold range_len. simpl.
  pose proof (off_le_len t i). pose proof (off_le_len t j). pose proof (off_nonneg t i).
  unfold isize_max, u64_max in *. lia.
Qed.

Lemma public_range_is t r : str_len t ≤ isize_max → ranged t r →
  public_range r = Ok {| br_start := start r; br_end := end_ r |}.
Proof.
  intros Ht Hr. destruct (ranged_bounds t r Ht Hr) as (? & ? & _). unfold public_range.
  by rewrite !usize_to_u64_is.
Qed.

Lemma conflict_span_is t r : str_len t ≤ isize_max → ranged t r →
  ∃ s, conflict_span t r = Ok s ∧ shows t r s.
Proof.
  intros Ht Hr. unfold conflict_span. erewrite public_range_is by done. cbn [mbind result_bind].
  destruct Hr as (i & j & Hij & ->). unfold shows, get_range. simpl. rewrite str_get_off by done.
  eexists. split; [reflexivity|]. done.
Qed.

Section Conflicts.
Context (b a e : text) (budget : MergeBudget) (Hadm : admissible b a e budget).

Definition appended (pairs : list (Change * Change)) (acc acc' : list MergeConflict * Z) : Prop :=
  len acc'.1 ≤ u64_max ∧ ∃ new, acc'.1 = acc.1 ++ new ∧ Forall2 (describes b a e) pairs new.

Lemma admissible_each : str_len b ≤ isize_max ∧ str_len a ≤ isize_max ∧ str_len e ≤ isize_max.
Proof.
  destruct Hadm as [Hf _]. pose proof (str_len_nonneg b). pose proof (str_len_nonneg a).
  pose proof (str_len_nonneg e). lia.
Qed.

Lemma compare_pair_within ca ce acc :
  on_base b ca → on_base b ce → ranged a (side ca) → ranged e (side ce) → len acc.1 ≤ u64_max →
  within budget (appended (if clash ca ce then [(ca, ce)] else []) acc)
    (compare_pair b a e budget ca ce acc).
Proof.
  intros Hca Hce Hsa Hse Hacc. destruct acc as [cs payload]. unfold compare_pair.
  rewrite <- (negb_involutive (equivalent_change ca ce)), <- negb_andb. fold (clash ca ce).
  destruct (clash ca ce); cbn [negb]; [|apply within_Ok; split; [done|]; exists []; by rewrite app_nil_r].
  destruct admissible_each as (Hb & Ha & He). destruct Hadm as [_ Hcounts].
  pose proof (ranged_bounds a _ Ha Hsa) as (_ & _ & Hla). pose proof (ranged_bounds e _ He Hse) as (_ & _ & Hle).
  pose proof (ranged_union b (base ca) (base ce) Hca Hce) as Hu.
  pose proof (ranged_bounds b _ Hb Hu) as (_ & _ & Hlb).
  destruct (conflict_span_is b _ Hb Hu) as (sb & Hsb & Hshb).
  destruct (conflict_span_is a _ Ha Hsa) as (sa & Hssa & Hsha).
  destruct (conflict_span_is e _ He Hse) as (se & Hsse & Hshe).
  simpl in Hacc. rewrite (usize_to_u64_is (len cs)) by done. cbn [mbind result_bind].
  eapply within_bind; [apply (ensure_budget_within budget Changes)|simpl; intros _ Hn].
  rewrite (usize_to_u64_is _ Hlb). cbn [mbind result_bind].
  rewrite (usize_to_u64_is _ Hla). cbn [mbind result_bind].
  rewrite (usize_to_u64_is _ Hle). cbn [mbind result_bind].
  eapply within_bind; [apply (ensure_budget_within budget OutputBytes)|intros _ _].
  rewrite Hsb, (public_range_is b (base ca)), Hssa, (public_range_is b (base ce)), Hsse by done.
  cbn [mbind result_bind]. apply within_Ok. unfold saturating_add in Hn.
  split; [cbn [fst]; rewrite len_app; change (len [_]) with 1; lia|].
  eexists. split; [reflexivity|]. constructor; [by split|constructor].
Qed.

Lemma fold_within {X} (g : X → list (Change * Change)) f l acc :
  (∀ x acc, x ∈ l → len acc.1 ≤ u64_max → within budget (appended (g x) acc) (f x acc)) →
  len acc.1 ≤ u64_max → within budget (appended (l ≫= g) acc) (fold_result f l acc).
Proof.
  revert acc. induction l as [|x l IH]; intros acc Hf Hacc.
  - apply within_Ok. split; [done|]. exists []. by rewrite app_nil_r.
  - cbn [fold_result]. eapply within_bind; [apply Hf; [by left|done]|]. intros acc1 (Hacc1 & new1 & Heq1 & Hd1).
    eapply within_mono; [|apply IH; [|done]].
    + intros acc2 (Hacc2 & new2 & Heq2 & Hd2). split; [done|]. exists (new1 ++ new2).
      split; [by rewrite Heq2, Heq1, (assoc_L (++))|]. by apply Forall2_app.
    + intros y acc' Hy. apply Hf. by right.
Qed.

Lemma find_conflicts_within A E :
  changes_of b a A → changes_of b e E →
  within budget (Forall2 (describes b a e) (clashes A E)) (find_conflicts b a e A E budget).
Proof.
  intros HA HE. destruct admissible_each as (Hb & Ha & He). unfold find_conflicts.
  rewrite (usize_to_u64_is (len A)) by by apply (changes_of_len b a).
  rewrite (usize_to_u64_is (len E)) by by apply (changes_of_len b e).
  cbn [mbind result_bind].
  eapply within_bind; [apply (ensure_budget_within budget ConflictComparisons)|intros _ _].
  pose proof (changes_of_on_base _ _ _ HA) as HAb. pose proof (changes_of_side _ _ _ HA) as HAs.
  pose proof (changes_of_on_base _ _ _ HE) as HEb. pose proof (changes_of_side _ _ _ HE) as HEs.
  rewrite Forall_forall in HAb, HAs, HEb, HEs.
  eapply within_bind; [apply (fold_within (λ ca, E ≫= λ ce, if clash ca ce then [(ca, ce)] else []))|].
  - intros ca acc Hca Hacc. apply (fold_within (λ ce, if clash ca ce then [(ca, ce)] else [])); [|done].
    intros ce acc' Hce Hacc'. apply compare_pair_within; auto.
  - done.
  - intros acc (_ & new & Heq & Hd). apply within_Ok. by rewrite Heq.
Qed.

Lemma compare_pair_skip ca ce acc :
  clash ca ce = false → compare_pair b a e budget ca ce acc = Ok acc.
Proof.
  unfold clash. intros Hc. destruct acc as [cs p]. unfold compare_pair.
  apply andb_false_iff in Hc as [->|Hc]; [done|]. apply negb_false_iff in Hc as ->. by rewrite orb_true_r.
Qed.

Lemma find_conflicts_none A E :
  len A ≤ u64_max → len E ≤ u64_max → (∀ ca ce, ca ∈ A → ce ∈ E → clash ca ce = false) →
  find_conflicts b a e A E budget =
    (ensure_budget ConflictComparisons (saturating_mul u64_max (len A) (len E)) (max_diff_work budget) ;;
     mret []).
Proof.
  intros HA HE Hc. unfold find_conflicts. rewrite !usize_to_u64_is by done. cbn [mbind result_bind].
  assert (∀ ca l acc, ca ∈ A → (∀ ce, ce ∈ l → ce ∈ E) →
    fold_result (compare_pair b a e budget ca) l acc = Ok acc) as Hin.
  { intros ca l [cs p] Hca. induction l as [|ce l IH]; intros Hl; [done|]. cbn [fold_result].
    rewrite compare_pair_skip by (apply Hc; [done|apply Hl; by left]). apply IH. intros ce' ?. apply Hl. by right. }
  assert (∀ l acc, (∀ ca, ca ∈ l → ca ∈ A) →
    fold_result (λ ca, fold_result (compare_pair b a e budget ca) E) l acc = Ok acc) as Hout.
  { intros l acc. induction l as [|ca l IH]; intros Hl; [done|]. cbn [fold_result].
    rewrite Hin by (done || apply Hl; by left). apply IH. intros ca' ?. apply Hl. by right. }
  rewrite Hout by done. done.
Qed.
End Conflicts.

Lemma clashes_elem A E ca ce : (ca, ce) ∈ clashes A E ↔ ca ∈ A ∧ ce ∈ E ∧ clash ca ce = true.
Proof.
  unfold clashes. rewrite list_elem_of_bind. setoid_rewrite list_elem_of_bind. split.
  - intros (x & (y & Hxy & Hy) & Hx). destruct (clash x y) eqn:Hc; [|by apply elem_of_nil in Hxy].
    apply list_elem_of_singleton in Hxy as [= -> ->]. done.
  - intros (Ha & He & Hc). exists ca. split; [|done]. exists ce. rewrite Hc. split; [by left|done].
Qed.

Lemma clash_sym ca ce : clash ca ce = clash ce ca.
Proof.
  assert (∀ x y, clash x y = true → clash y x = true) as Hs; [|apply eq_bool_prop_intro; split; rewrite !Is_true_true; apply Hs].
  intros x y. unfold clash. rewrite !andb_true_iff, !negb_true_iff. intros [Ho He]. split.
  - apply not_false_iff_true. intros Hd. by rewrite (disjoint_changes_sym _ _ Hd) in Ho.
  - apply not_true_iff_false. apply not_true_iff_false in He. intros Hk. apply He.
    by apply equivalent_key, symmetry, equivalent_key.
Qed.
End Conflicts.

(** ** The merge *)

Module MergeTheorems.
Import Edits Diff Apply Union Conflicts.

(** [content] is the base with the changes of both sides made, each once; no
    change of one side competes with one of the other. *)
Definition merges (b a e content : text) : Prop :=
  ∃ A E U, patched b 0 A a ∧ patched b 0 E e ∧
    (∀ ca ce, ca ∈ A → ce ∈ E → clash ca ce = false) ∧
    patched b 0 U content ∧ NoDup (map key U) ∧
    ∀ k, k ∈ map key U ↔ k ∈ map key A ∨ k ∈ map key E.

Lemma disjoint_NoDup cs : StronglySorted disjoint_changes cs → NoDup (map key cs).
Proof.
  induction cs as [|c cs IH]; simpl; [constructor|]. intros [Hs Hc]%StronglySorted_inv.
  constructor; [|by apply IH]. intros (d & Hd & Hin)%list_elem_of_fmap. rewrite Forall_forall in Hc.
  by apply (disjoint_keys c d); [apply Hc|].
Qed.

Lemma changes_of_patched b st cs : changes_of b st cs → patched b 0 cs st.
Proof. intros (es & -> & Hl & _). by apply linked_patched in Hl. Qed.

Lemma changes_of_total b st cs : changes_of b st cs → total cs ≤ str_len st.
Proof.
  intros (es & -> & Hl & _). apply linked_total in Hl. rewrite off_length, off_0 in Hl. lia.
Qed.

Lemma changes_of_no_clash b st cs ca ce :
  changes_of b st cs → ca ∈ cs → ce ∈ cs → clash ca ce = false.
Proof.
  intros Hs%changes_of_disjoint. induction cs as [|c cs IH]; [by intros ?%elem_of_nil|].
  apply StronglySorted_inv in Hs as [Hs Hc]. rewrite Forall_forall in Hc.
  assert (∀ d, disjoint_changes c d → clash c d = false) as Hd by (intros d; unfold clash; by intros ->).
  intros [->|Ha]%elem_of_cons [->|He]%elem_of_cons; auto.
  - unfold clash. by rewrite (proj2 (equivalent_key c c) eq_refl), andb_false_r.
  - rewrite clash_sym. auto.
Qed.

(** The sorted union of changes that do not compete can be applied. *)
Lemma union_patched b a e A E :
  changes_of b a A → changes_of b e E → (∀ ca ce, ca ∈ A → ce ∈ E → clash ca ce = false) →
  StronglySorted disjoint_changes (merge_sort change_le (union_changes A E)) ∧
  ∃ t, patched b 0 (merge_sort change_le (union_changes A E)) t.
Proof.
  intros HA HE Hc. set (U := merge_sort change_le (union_changes A E)).
  assert (U ≡ₚ union_changes A E) as Hp by apply merge_sort_Permutation.
  assert (Forall (on_base b) U) as Hon.
  { rewrite Hp. apply Forall_forall. intros c [Hin|Hin]%union_elem;
      [apply changes_of_on_base in HA as Hb|apply changes_of_on_base in HE as Hb];
      rewrite Forall_forall in Hb; auto. }
  assert (StronglySorted disjoint_changes U) as Hd.
  { eapply StronglySorted_perm; [intros ??; apply disjoint_changes_sym|by symmetry|].
    apply union_disjoint; [by eapply changes_of_disjoint..|done]. }
  split; [done|]. apply ordered_patched; [done| | |lia].
  - eapply (StronglySorted_combine disjoint_changes change_le before (on_base b)); [|done..|].
    + intros. by apply (disjoint_ordered b).
    + apply StronglySorted_merge_sort; apply _.
  - rewrite off_0. eapply Forall_impl; [exact Hon|]. intros c (i & j & _ & ->). apply off_nonneg.
Qed.

Lemma union_fits b a e A E budget :
  admissible b a e budget → changes_of b a A → changes_of b e E →
  str_len b + total (merge_sort change_le (union_changes A E)) ≤ usize_max.
Proof.
  intros [Hf _] HA%changes_of_total HE%changes_of_total.
  rewrite (total_perm (merge_sort _ _) (union_changes A E)) by apply merge_sort_Permutation.
  pose proof (union_total A E). pose proof isize_u64. unfold usize_max. lia.
Qed.

(** The keys of the sorted union do not depend on which side is which. *)
Lemma union_keys_swap A E :
  StronglySorted disjoint_changes (union_changes A E) →
  StronglySorted disjoint_changes (union_changes E A) →
  map key (merge_sort change_le (union_changes A E)) = map key (merge_sort change_le (union_changes E A)).
Proof.
  intros HA HE. set (le := λ k k' : Range * text, ∃ c c', k = key c ∧ k' = key c' ∧ change_le c c').
  assert (∀ c d c' d', key c = key d → key c' = key d' → change_le c c' → change_le d d') as Hle.
  { unfold key, change_le, change_cmp. by intros c d c' d' [= -> ->] [= -> ->]. }
  assert (∀ cs, StronglySorted change_le cs → StronglySorted le (map key cs)) as Hmap.
  { intros cs. induction cs as [|c cs IH]; simpl; [constructor|]. intros [Hs Hc]%StronglySorted_inv.
    constructor; [by apply IH|]. apply Forall_map. eapply Forall_impl; [exact Hc|].
    intros d Hd. by exists c, d. }
  apply (StronglySorted_unique_strong le).
  - intros k k' _ _ (c & c' & -> & -> & Hcc) (d' & d & Hd' & Hd & Hdd).
    apply change_le_key; [done|]. by eapply Hle; [..|exact Hdd].
  - apply Hmap, StronglySorted_merge_sort; apply _.
  - apply Hmap, StronglySorted_merge_sort; apply _.
  - rewrite !merge_sort_Permutation. apply NoDup_Permutation; [by apply disjoint_NoDup..|].
    intros k. rewrite !union_keys. tauto.
Qed.

Section Theorems.
Context (capture_diff_slices : text → text → list DiffOp)
  (Hengine : diff_engine capture_diff_slices).
Notation diff := (diff_changes capture_diff_slices).
Notation merge := (three_way_merge_with_budget capture_diff_slices).

Lemma ensure_input_budget_within b a e budget :
  admissible b a e budget → within budget (λ _, True) (ensure_input_budget b a e budget).
Proof.
  intros Hadm. pose proof (admissible_each b a e budget Hadm). pose proof isize_u64.
  unfold ensure_input_budget. rewrite usize_to_u64_is by lia. cbn [mbind result_bind].
  eapply within_mono; [|apply (ensure_budget_within budget InputBytes)]. done.
Qed.

Lemma merge_decided kind b a e budget A E t :
  kind ≠ Hybrid → ensure_input_budget b a e budget = Ok tt → a ≠ e → a ≠ b → e ≠ b →
  admissible b a e budget → changes_of b a A → changes_of b e E →
  diff b a budget = Ok A → diff b e budget = Ok E →
  (∀ ca ce, ca ∈ A → ce ∈ E → clash ca ce = false) →
  patched b 0 (merge_sort change_le (union_changes A E)) t →
  merge kind b a e budget =
    (ensure_budget ConflictComparisons (saturating_mul u64_max (len A) (len E)) (max_diff_work budget) ;;
     ensure_output_budget (str_len t) budget ;; mret (Merged t)).
Proof.
  intros Hk Hin Hae Hab Heb Hadm HA HE Hda Hde Hc Hp.
  destruct (admissible_each b a e budget Hadm) as (Hlb & Hla & Hle).
  unfold three_way_merge_with_budget.
  rewrite fail_if_false, Hin by by apply bool_decide_eq_false. cbn [mbind result_bind].
  rewrite !bool_decide_eq_false_2 by done. rewrite Hda, Hde. cbn [mbind result_bind].
  rewrite (find_conflicts_none b a e budget A E) by
    first [done|by apply (changes_of_len b a)|by apply (changes_of_len b e)].
  destruct (ensure_budget _ _ _) as [[]|]; [|done]. cbn [mbind result_bind mret result_ret length].
  rewrite bool_decide_eq_true_2 by done. cbn [negb]. apply apply_changes_is; [done|].
  by eapply union_fits.
Qed.

Lemma merge_outcome kind b a e budget :
  kind ≠ Hybrid → a ≠ e → a ≠ b → e ≠ b → admissible b a e budget →
  ∃ A E, changes_of b a A ∧ changes_of b e E ∧
    within budget (λ o, diff b a budget = Ok A ∧ diff b e budget = Ok E ∧
      ensure_input_budget b a e budget = Ok tt ∧
      match o with
      | Conflict cs => clashes A E ≠ [] ∧ Forall2 (describes b a e) (clashes A E) cs
      | Merged t => (∀ ca ce, ca ∈ A → ce ∈ E → clash ca ce = false) ∧
          patched b 0 (merge_sort change_le (union_changes A E)) t
      end) (merge kind b a e budget).
Proof.
  intros Hk Hae Hab Heb Hadm. destruct (admissible_each b a e budget Hadm) as (Hlb & Hla & Hle).
  destruct (diff_changes_is b a Hlb Hla capture_diff_slices budget Hengine) as (A & HA & Hwa).
  destruct (diff_changes_is b e Hlb Hle capture_diff_slices budget Hengine) as (E & HE & Hwe).
  exists A, E. split; [done|]. split; [done|]. pose proof (ensure_input_budget_within b a e budget Hadm) as Hwi.
  destruct (ensure_input_budget b a e budget) as [[]|f] eqn:Hin.
  2:{ unfold three_way_merge_with_budget. rewrite fail_if_false, Hin by by apply bool_decide_eq_false.
      by destruct f as [| |[]]. }
  destruct (diff b a budget) as [A'|f] eqn:Hda; cbn [within] in Hwa; [subst A'|].
  2:{ unfold three_way_merge_with_budget. rewrite fail_if_false, Hin by by apply bool_decide_eq_false.
      cbn [mbind result_bind]. rewrite !bool_decide_eq_false_2, Hda by done. by destruct f as [| |[]]. }
  destruct (diff b e budget) as [E'|f] eqn:Hde; cbn [within] in Hwe; [subst E'|].
  2:{ unfold three_way_merge_with_budget. rewrite fail_if_false, Hin by by apply bool_decide_eq_false.
      cbn [mbind result_bind]. rewrite !bool_decide_eq_false_2, Hda, Hde by done. by destruct f as [| |[]]. }
  destruct (clashes A E) as [|p ps] eqn:Hcl.
  - assert (∀ ca ce, ca ∈ A → ce ∈ E → clash ca ce = false) as Hc.
    { intros ca ce Hca Hce. apply not_true_iff_false. intros Hct.
      apply (elem_of_nil (A:=Change * Change) (ca, ce)). rewrite <- Hcl. by apply clashes_elem. }
    destruct (union_patched b a e A E HA HE Hc) as (_ & t & Ht).
    rewrite (merge_decided kind b a e budget A E t) by done.
    eapply within_bind; [apply (ensure_budget_within budget ConflictComparisons)|intros _ _].
    eapply within_bind; [apply ensure_output_budget_within|intros _ _; by apply within_Ok].
    pose proof (union_fits b a e A E budget Hadm HA HE). apply patched_len in Ht. rewrite drop_0 in Ht.
    unfold usize_max in *. lia.
  - unfold three_way_merge_with_budget. rewrite fail_if_false, Hin by by apply bool_decide_eq_false.
    cbn [mbind result_bind]. rewrite !bool_decide_eq_false_2, Hda, Hde by done. cbn [mbind result_bind].
    eapply within_bind; [by apply find_conflicts_within|]. rewrite Hcl. intros cs Hcs.
    rewrite bool_decide_eq_false_2 by (by destruct cs; [apply Forall2_cons_nil_inv in Hcs|]). by apply within_Ok.
Qed.

Lemma merge_Hybrid b a e budget :
  merge Hybrid b a e budget = Err (Fail HybridMetadataRequired).
Proof. done. Qed.

(** The merge returns at once when a side is unchanged or both are the same. *)
Lemma merge_trivial_is kind b a e budget :
  kind ≠ Hybrid → a = e ∨ a = b ∨ e = b →
  let t := if bool_decide (a = b) then e else a in
  merge kind b a e budget =
    (ensure_input_budget b a e budget ;; ensure_output_budget (str_len t) budget ;; mret (Merged t)).
Proof.
  intros Hk Ht t. subst t. unfold three_way_merge_with_budget.
  rewrite fail_if_false by by apply bool_decide_eq_false. cbn [mbind result_bind].
  destruct (ensure_input_budget _ _ _ _) as [[]|]; [|reflexivity]. cbn [mbind result_bind].
  repeat case_bool_decide; subst; try reflexivity; by destruct Ht as [|[|]].
Qed.

Lemma merge_trivial kind b a e budget o :
  merge kind b a e budget = Ok o → a = e ∨ a = b ∨ e = b →
  o = Merged (if bool_decide (a = b) then e else a).
Proof.
  intros Hr Ht. assert (kind ≠ Hybrid) as Hk by (intros ->; done).
  rewrite merge_trivial_is in Hr by done.
  destruct (ensure_input_budget _ _ _ _) as [[]|]; [|discriminate]. cbn [mbind result_bind] in Hr.
  destruct (ensure_output_budget _ _) as [[]|]; [|discriminate]. by injection Hr as <-.
Qed.

(** C17: A successful merge makes the edits of both sides: the result is the base
    text with the union of a list of changes that turns the base into the app
    draft and a list that turns it into the external text, each change made once
    and none competing with one of the other side. *)
Theorem merge_makes_both_edits kind b a e budget t :
  admissible b a e budget → merge kind b a e budget = Ok (Merged t) → merges b a e t.
Proof.
  intros Hadm Hr. destruct (admissible_each b a e budget Hadm) as (Hlb & Hla & Hle).
  destruct (diff_changes_is b a Hlb Hla capture_diff_slices budget Hengine) as (A0 & HA0 & _).
  destruct (diff_changes_is b e Hlb Hle capture_diff_slices budget Hengine) as (E0 & HE0 & _).
  assert (patched b 0 [] b) as Hnil by (apply (patched_nil b 0); lia).
  destruct (decide (a = e ∨ a = b ∨ e = b)) as [Ht|Ht].
  - apply merge_trivial in Hr; [|done]. injection Hr as ->. case_bool_decide as Hab.
    + subst a. exists [], E0, E0. split_and!; try done; try by apply changes_of_patched.
      * by intros ? ? ?%elem_of_nil.
      * by eapply disjoint_NoDup, changes_of_disjoint.
      * intros k. simpl. rewrite elem_of_nil. tauto.
    + assert (NoDup (map key A0)) by by eapply disjoint_NoDup, changes_of_disjoint.
      apply changes_of_patched in HA0 as Hp. destruct Ht as [->|[?| ->]]; [|done|].
      * exists A0, A0, A0. split_and!; try done; [|tauto]. intros. by apply (changes_of_no_clash b e A0).
      * exists A0, [], A0. split_and!; try done; [by intros ? ? _ ?%elem_of_nil|].
        intros k. simpl. rewrite elem_of_nil. tauto.
  - assert (kind ≠ Hybrid) as Hk by (intros ->; done).
    destruct (merge_outcome kind b a e budget) as (A & E & HA & HE & Hw); [tauto..|].
    rewrite Hr in Hw. destruct Hw as (_ & _ & _ & Hc & Hp).
    destruct (union_patched b a e A E HA HE Hc) as (Hd & _).
    exists A, E, (merge_sort change_le (union_changes A E)).
    split_and!; try done; [by eapply changes_of_patched..|by apply disjoint_NoDup|].
    intros k. rewrite <- union_keys. by rewrite merge_sort_Permutation.
Qed.

(** C18: A conflict is reported exactly for the competing changes: the conflicts
    are, in order, those of all pairs of an app change and an external change of
    the two diffs that overlap and are not the same change, each with its kind and
    with the exact ranges and texts of the three inputs. *)
Theorem merge_conflicts_exact kind b a e budget cs :
  admissible b a e budget → merge kind b a e budget = Ok (Conflict cs) →
  ∃ A E, diff b a budget = Ok A ∧ diff b e budget = Ok E ∧
    patched b 0 A a ∧ patched b 0 E e ∧
    clashes A E ≠ [] ∧ Forall2 (describes b a e) (clashes A E) cs.
Proof.
  intros Hadm Hr. assert (kind ≠ Hybrid) as Hk by (intros ->; done).
  assert (¬ (a = e ∨ a = b ∨ e = b)) as Ht.
  { intros Ht. by apply merge_trivial in Hr. }
  destruct (merge_outcome kind b a e budget) as (A & E & HA & HE & Hw); [tauto..|].
  rewrite Hr in Hw. destruct Hw as (Hda & Hde & _ & Hc & Hd).
  exists A, E. split_and!; try done; by eapply changes_of_patched.
Qed.

(** the merge is total: whatever edit scripts the diff engine returns, it
    gives an outcome, the error for hybrid documents (exactly for these), or the
    budget it exceeds with the true limit and an amount above it. It never panics
    and never reports an invalid edit script or an unrepresentable range. *)
Theorem merge_fails_only_over_budget kind b a e budget :
  admissible b a e budget →
  match merge kind b a e budget with
  | Ok _ => kind ≠ Hybrid
  | Err (Fail HybridMetadataRequired) => kind = Hybrid
  | Err (Fail (BudgetExceeded m actual limit)) =>
      kind ≠ Hybrid ∧ limit = limit_of budget m ∧ limit < actual
  | Err _ => False
  end.
Proof.
  intros Hadm. destruct (decide (kind = Hybrid)) as [->|Hk]; [done|].
  assert (within budget (λ _, True) (merge kind b a e budget)) as Hw.
  { destruct (decide (a = e ∨ a = b ∨ e = b)) as [Ht|Ht].
    - pose proof (admissible_each b a e budget Hadm). pose proof isize_u64.
      rewrite merge_trivial_is by done. eapply within_bind; [by apply ensure_input_budget_within|intros _ _].
      eapply within_bind; [apply ensure_output_budget_within; case_bool_decide; lia|by intros _ _].
    - destruct (merge_outcome kind b a e budget) as (A & E & _ & _ & Hw); [tauto..|].
      eapply within_mono; [|exact Hw]. done. }
  by destruct (merge kind b a e budget) as [o|[ | |[ ] ] ].
Qed.

(** The merge is symmetric: exchanging the two sides gives the same text. *)
Theorem merge_symmetric kind b a e budget t :
  admissible b a e budget → merge kind b a e budget = Ok (Merged t) →
  merge kind b e a budget = Ok (Merged t).
Proof.
  intros Hadm Hr. assert (kind ≠ Hybrid) as Hk by (intros ->; done).
  assert (ensure_input_budget b e a budget = ensure_input_budget b a e budget) as Hin.
  { unfold ensure_input_budget. do 2 f_equal. lia. }
  assert (admissible b e a budget) as Hadm' by (destruct Hadm; split; lia || done).
  destruct (decide (a = e ∨ a = b ∨ e = b)) as [Ht|Ht].
  - rewrite merge_trivial_is in Hr by done. rewrite merge_trivial_is, Hin by naive_solver.
    assert ((if bool_decide (e = b) then a else e) = (if bool_decide (a = b) then e else a)) as ->; [|done].
    repeat case_bool_decide; subst; try reflexivity. by destruct Ht as [|[|]].
  - destruct (merge_outcome kind b a e budget) as (A & E & HA & HE & Hw); [tauto..|].
    pose proof Hr as Hr'. rewrite Hr in Hw. destruct Hw as (Hda & Hde & Hi & Hc & Hp).
    assert (∀ ca ce, ca ∈ E → ce ∈ A → clash ca ce = false) as Hc'.
    { intros. rewrite clash_sym. auto. }
    destruct (union_patched b a e A E HA HE Hc) as (Hd & _).
    destruct (union_patched b e a E A HE HA Hc') as (Hd' & t' & Ht').
    assert (StronglySorted disjoint_changes (union_changes A E)) as HU.
    { apply union_disjoint; [by eapply changes_of_disjoint..|done]. }
    assert (StronglySorted disjoint_changes (union_changes E A)) as HU'.
    { apply union_disjoint; [by eapply changes_of_disjoint..|done]. }
    pose proof (patched_key _ _ _ _ _ Hp (union_keys_swap A E HU HU')) as Hp'.
    assert (a ≠ e ∧ e ≠ a ∧ a ≠ b ∧ e ≠ b) as (? & ? & ? & ?) by (split_and!; intros ->; tauto).
    rewrite (merge_decided kind b a e budget A E t) in Hr' by done.
    rewrite (merge_decided kind b e a budget E A t) by (done || by rewrite Hin).
    unfold saturating_mul in *. by rewrite (Z.mul_comm (len E)).
Qed.

(** Round trip of diff and apply: the changes that [diff_changes] finds turn
    the base text back into the side, if the output budget admits it. *)
Theorem diff_apply_roundtrip b st budget cs :
  str_len b + str_len st ≤ isize_max → diff b st budget = Ok cs →
  apply_changes b cs budget =
    (if max_output_bytes budget <? str_len st
     then Err (Fail (BudgetExceeded OutputBytes (str_len st) (max_output_bytes budget)))
     else Ok (Merged st)).
Proof.
  intros Hl Hd. pose proof (str_len_nonneg b). pose proof (str_len_nonneg st). pose proof isize_u64.
  destruct (diff_changes_is b st ltac:(lia) ltac:(lia) capture_diff_slices budget Hengine) as (cs' & Hcs & Hw).
  rewrite Hd in Hw. cbn in Hw. subst cs'. pose proof (changes_of_total b st cs Hcs).
  rewrite (apply_changes_is b cs st budget) by (by eapply changes_of_patched || (unfold usize_max; lia)).
  unfold ensure_output_budget. rewrite usize_to_u64_is by lia. cbn [mbind result_bind].
  unfold ensure_budget, fail_if, reject_if. by destruct (_ <? _).
Qed.

End Theorems.

(** ** Witnesses *)

(** The coarsest diff engine: the whole middle is replaced. *)
Definition replace_all (old new : text) : list DiffOp :=
  [{| tag := Replace;
      old_range := {| start := 0; end_ := len old |};
      new_range := {| start := 0; end_ := len new |} |}].

Lemma replace_all_engine : diff_engine replace_all.
Proof.
  intros old new. apply (script_change old new Replace 0 0 (length old) (length new)); try done || lia.
  constructor.
Qed.

Definition small_budget : MergeBudget := {| max_input_bytes := 64; max_changed_scalars := 16;
  max_diff_work := 16; max_changes := 4; max_output_bytes := 32 |}.

(** "a🍎bc", "A🍎bc" and "a🍎bC" *)
Notation base_w := [97; 127822; 98; 99].
Notation app_w := [65; 127822; 98; 99].
Notation ext_w := [97; 127822; 98; 67].
(** "a🍐bc", which competes with the empty text *)
Notation pear_w := [97; 127824; 98; 99].

Lemma admissible_w b a e :
  str_len b + str_len a + str_len e ≤ 100 → admissible b a e small_budget.
Proof. intros ?. split; [unfold isize_max; lia|done]. Qed.

Lemma merge_makes_both_edits_witness : merges base_w app_w ext_w [65; 127822; 98; 67].
Proof.
  apply (merge_makes_both_edits replace_all replace_all_engine Prose _ _ _ small_budget).
  - apply admissible_w. vm_compute. discriminate.
  - vm_compute. reflexivity.
Defined.

Lemma merge_conflicts_exact_witness :
  ∃ cs A E, length cs = 1%nat ∧ Forall2 (describes base_w app_w []) (clashes A E) cs.
Proof.
  eassert (three_way_merge_with_budget replace_all Verse base_w app_w [] small_budget =
    Ok (Conflict _)) as Hr by (vm_compute; reflexivity).
  destruct (merge_conflicts_exact replace_all replace_all_engine Verse base_w app_w [] small_budget _
    ltac:(apply admissible_w; vm_compute; discriminate) Hr) as (A & E & _ & _ & _ & _ & _ & Hd).
  eexists _, A, E. split; [|exact Hd]. reflexivity.
Defined.

Lemma merge_fails_only_over_budget_witness :
  three_way_merge_with_budget replace_all Prose base_w app_w (repeat 97 40) small_budget =
    Err (Fail (BudgetExceeded ChangedScalars 42 16)) ∧
  limit_of small_budget ChangedScalars = 16.
Proof.
  pose proof (merge_fails_only_over_budget replace_all replace_all_engine Prose base_w app_w (repeat 97 40)
    small_budget ltac:(apply admissible_w; vm_compute; discriminate)) as H.
  vm_compute in H. split; [vm_compute; reflexivity|]. destruct H as (_ & H & _). symmetry. exact H.
Defined.

Lemma merge_symmetric_witness :
  three_way_merge_with_budget replace_all Prose base_w ext_w app_w small_budget =
    Ok (Merged [65; 127822; 98; 67]).
Proof.
  apply (merge_symmetric replace_all replace_all_engine Prose base_w app_w ext_w small_budget).
  - apply admissible_w. vm_compute. discriminate.
  - vm_compute. reflexivity.
Defined.

Lemma diff_apply_roundtrip_witness :
  ∃ cs, len cs = 1 ∧ apply_changes base_w cs small_budget = Ok (Merged pear_w).
Proof.
  eassert (diff_changes replace_all base_w pear_w small_budget = Ok _) as Hd by (vm_compute; reflexivity).
  pose proof (diff_apply_roundtrip replace_all replace_all_engine base_w pear_w small_budget _
    ltac:(vm_compute; discriminate) Hd) as H.
  eexists. split; [|exact H]. reflexivity.
Defined.

End MergeTheorems.
