(* ===== verification/RevisionDiff.v ===== *)
(** * RevisionDiff: presentation diffs of two snapshots

    Models [loom-document/src/revision_diff.rs]: lines are aligned first, then
    words within replaced blocks, with a shared budget of work. The diff engine
    ([similar], as in Merge.v but over tokens) and the word segmentation
    ([unicode_segmentation]) are parameters. Byte ranges are [Range]s of Merge.v; an
    index or a slice out of range panics. *)

From S2P Require Import Prelude Bytes Text Merge.
Local Open Scope Z_scope.

Definition MAX_INPUT_BYTES : Z := 2 * 1024 * 1024.
Definition MAX_TOKENS : Z := 64 * 1024.
Definition MAX_DIFF_WORK : Z := 4 * 1024 * 1024.

Inductive Granularity := Words | Lines.
#[export] Instance Granularity_eq_dec : EqDecision Granularity.
Proof. solve_decision. Defined.

Inductive ChangeKind := KEqual | KInsert | KDelete | KReplace.
#[export] Instance ChangeKind_eq_dec : EqDecision ChangeKind.
Proof. solve_decision. Defined.

Record DiffSpan := { kind : ChangeKind; before : Range; after : Range }.

Record Result := { granularity : Granularity; coarse_blocks : Z; spans : list DiffSpan }.
Inductive DiffError := InputLimit.

Notation M := (parse DiffError).

Record Alignment := { coarse : bool; aligned : list DiffSpan }.

(** [last.before.end == span.before.start] and the other conditions of the merge *)
Definition extends (l s : DiffSpan) : bool :=
  bool_decide (kind l = kind s) && (end_ (before l) =? start (before s))
  && (end_ (after l) =? start (after s)).

Definition push_span (sp : list DiffSpan) (s : DiffSpan) : list DiffSpan :=
  if is_empty (before s) && is_empty (after s) then sp
  else match reverse sp with
       | l :: init =>
         if extends l s then
           reverse init ++
             [{| kind := kind l;
                 before := {| start := start (before l); end_ := end_ (before s) |};
                 after := {| start := start (after l); end_ := end_ (after s) |} |}]
         else sp ++ [s]
       | [] => sp ++ [s]
       end.

Definition single (b a : text) (is_coarse : bool) : Alignment :=
  let k := if bool_decide (b = a) then KEqual
           else if bool_decide (b = []) then KInsert
           else if bool_decide (a = []) then KDelete
           else KReplace in
  {| coarse := is_coarse;
     aligned := push_span [] {| kind := k; before := {| start := 0; end_ := str_len b |};
                                after := {| start := 0; end_ := str_len a |} |} |}.

(** [offsets] *)
Fixpoint offsets_loop (offset : Z) (toks : list text) : list Z :=
  match toks with
  | [] => []
  | t :: toks => (offset + str_len t) :: offsets_loop (offset + str_len t) toks
  end.
Definition offsets (toks : list text) : list Z := 0 :: offsets_loop 0 toks.

(** The number of leading tokens that agree. *)
Fixpoint agreeing (l r : list text) : nat :=
  match l, r with
  | x :: l, y :: r => if bool_decide (x = y) then S (agreeing l r) else 0
  | _, _ => 0
  end%nat.

Definition saturating_square (x : Z) : Z := Z.min usize_max (x * x).

(** [offsets[i]..offsets[j]] *)
Definition range_at (offs : list Z) (i j : Z) : M Range :=
  s ← index offs i ; e ← index offs j ; Ok {| start := s; end_ := e |}.

Definition kind_of (t : DiffTag) : ChangeKind :=
  match t with Equal => KEqual | Insert => KInsert | Delete => KDelete | Replace => KReplace end.

(** The loop over the operations of the engine. *)
Fixpoint push_ops (prefix : Z) (old_offsets new_offsets : list Z) (ops : list DiffOp) (sp : list DiffSpan) :
    M (list DiffSpan) :=
  match ops with
  | [] => Ok sp
  | op :: ops =>
    b ← range_at old_offsets (prefix + start (old_range op)) (prefix + end_ (old_range op)) ;
    a ← range_at new_offsets (prefix + start (new_range op)) (prefix + end_ (new_range op)) ;
    push_ops prefix old_offsets new_offsets ops
      (push_span sp {| kind := kind_of (tag op); before := b; after := a |})
  end.

Section Engine.
(** [capture_diff_slices(Algorithm::Myers, _, _)] and [split_word_bounds] *)
Context (capture_diff_slices : list text → list text → list DiffOp) (split_word_bounds : text → list text).

Definition tokens (t : text) (g : Granularity) : option (list text) :=
  let parts := take (Z.to_nat (MAX_TOKENS + 1))
    (match g with Words => split_word_bounds t | Lines => split_inclusive t end) in
  if len parts <=? MAX_TOKENS then Some parts else None.

(** [align], with the work that is left. *)
Definition align (b a : text) (g : Granularity) (work : Z) : M (Alignment * Z) :=
  if bool_decide (b = a) || bool_decide (b = []) || bool_decide (a = []) then Ok (single b a false, work)
  else match tokens b g, tokens a g with
  | Some old, Some new =>
    let prefix := agreeing old new in
    let suffix := agreeing (reverse (drop prefix old)) (reverse (drop prefix new)) in
    old_end ← usize_sub (len old) (Z.of_nat suffix) ;
    new_end ← usize_sub (len new) (Z.of_nat suffix) ;
    old_mid ← usize_sub old_end (Z.of_nat prefix) ;
    new_mid ← usize_sub new_end (Z.of_nat prefix) ;
    let cost := saturating_square (saturating_add usize_max old_mid new_mid) in
    if work <? cost then Ok (single b a true, work)
    else
      let work := work - cost in
      let old_offsets := offsets old in
      let new_offsets := offsets new in
      op ← index old_offsets (Z.of_nat prefix) ;
      np ← index new_offsets (Z.of_nat prefix) ;
      let sp := push_span [] {| kind := KEqual; before := {| start := 0; end_ := op |};
                                after := {| start := 0; end_ := np |} |} in
      sp ← push_ops (Z.of_nat prefix) old_offsets new_offsets
             (capture_diff_slices (span old prefix (Z.to_nat old_end)) (span new prefix (Z.to_nat new_end))) sp ;
      oe ← index old_offsets old_end ;
      ne ← index new_offsets new_end ;
      Ok ({| coarse := false;
             aligned := push_span sp {| kind := KEqual; before := {| start := oe; end_ := str_len b |};
                                        after := {| start := ne; end_ := str_len a |} |} |}, work)
  | _, _ => Ok (single b a true, work)
  end.

(** A word span moved to its block. *)
Definition shift (r : Range) (by_ : Z) : Range := {| start := start r + by_; end_ := end_ r + by_ |}.
Definition shift_span (block s : DiffSpan) : DiffSpan :=
  {| kind := kind s; before := shift (before s) (start (before block));
     after := shift (after s) (start (after block)) |}.

Definition bool_Z (b : bool) : Z := if b then 1 else 0.

(** The loop over the blocks of [compare]. *)
Fixpoint refine_blocks (b a : text) (g : Granularity) (coarse_lines : bool) (blocks : list DiffSpan)
    (work coarse_count : Z) (sp : list DiffSpan) : M (Z * list DiffSpan) :=
  match blocks with
  | [] => Ok (coarse_count, sp)
  | block :: blocks =>
    if bool_decide (g = Words) && bool_decide (kind block = KReplace) then
      old ← ok_or (get_range b (before block)) Panic ;
      new ← ok_or (get_range a (after block)) Panic ;
      '(words, work) ← align old new Words work ;
      refine_blocks b a g coarse_lines blocks work (coarse_count + bool_Z (coarse words))
        (foldl (λ sp w, push_span sp (shift_span block w)) sp (aligned words))
    else
      refine_blocks b a g coarse_lines blocks work (coarse_count + bool_Z coarse_lines) (push_span sp block)
  end.

Definition compare (b a : text) (g : Granularity) : M Result :=
  if MAX_INPUT_BYTES <? saturating_add usize_max (str_len b) (str_len a) then Err (Fail InputLimit)
  else
    '(blocks, work) ← align b a Lines MAX_DIFF_WORK ;
    '(count, sp) ← refine_blocks b a g (coarse blocks) (aligned blocks) work 0 [] ;
    Ok {| granularity := g; coarse_blocks := count; spans := sp |}.

End Engine.

(** ** What a diff promises *)

(** The engine and the segmentation, as documented: the operations are an edit
    script tagged by what they do; the word pieces are not empty and are the text. *)
Definition op_tagged (o : DiffOp) : Prop :=
  match tag o with
  | Equal => True
  | Insert => start (old_range o) = end_ (old_range o)
  | Delete => start (new_range o) = end_ (new_range o)
  | Replace => start (old_range o) < end_ (old_range o) ∧ start (new_range o) < end_ (new_range o)
  end.
Definition tagged_engine (f : list text → list text → list DiffOp) : Prop :=
  diff_engine f ∧ ∀ old new, Forall op_tagged (f old new).
Definition segmentation (f : text → list text) : Prop :=
  ∀ t, concat (f t) = t ∧ Forall (λ w, w ≠ []) (f t).

(** What a kind says of the two texts of its span. *)
Definition kind_ok (k : ChangeKind) (x y : text) : Prop :=
  match k with
  | KEqual => x = y ∧ x ≠ []
  | KInsert => x = [] ∧ y ≠ []
  | KDelete => x ≠ [] ∧ y = []
  | KReplace => x ≠ [] ∧ y ≠ []
  end.

(** The spans lead from scalars [i], [j] of the two texts to [k], [l], without a
    gap, and each is what its kind says. *)
Inductive tiles (b a : text) : nat → nat → list DiffSpan → nat → nat → Prop :=
| tiles_nil i j : tiles b a i j [] i j
| tiles_cons i j i' j' s sp k l :
    (i ≤ i' ≤ length b)%nat → (j ≤ j' ≤ length a)%nat →
    before s = {| start := off b i; end_ := off b i' |} →
    after s = {| start := off a j; end_ := off a j' |} →
    kind_ok (kind s) (span b i i') (span a j j') →
    tiles b a i' j' sp k l → tiles b a i j (s :: sp) k l.

(** No span continues its predecessor. *)
Fixpoint alternating (sp : list DiffSpan) : Prop :=
  match sp with
  | s :: (s' :: _) as sp' => kind s ≠ kind s' ∧ alternating sp'
  | _ => True
  end.

(** The text that the spans make of the first one. *)
Fixpoint rebuild (b a : text) (sp : list DiffSpan) : text :=
  match sp with
  | [] => []
  | s :: sp =>
    default [] (if bool_decide (kind s = KEqual) then get_range b (before s) else get_range a (after s))
      ++ rebuild b a sp
  end.

(** ** Lemmas *)

Module DiffProofs.

Definition kind_pre (k : ChangeKind) (x y : text) : Prop := (x = [] ∧ y = []) ∨ kind_ok k x y.

Section Tiles.
Context (b a : text).

Lemma tiles_app i j sp k l sp' m n :
  tiles b a i j sp k l → tiles b a k l sp' m n → tiles b a i j (sp ++ sp') m n.
Proof. induction 1; [done|]. intros. simpl. econstructor; eauto. Qed.

Lemma tiles_snoc_inv sp s i j k l :
  tiles b a i j (sp ++ [s]) k l →
  ∃ i0 j0, tiles b a i j sp i0 j0 ∧ tiles b a i0 j0 [s] k l.
Proof.
  revert i j. induction sp as [|s0 sp IH]; intros i j; simpl.
  - intros Ht. exists i, j. split; [constructor|done].
  - inversion 1 as [|? ? i1 j1 ? ? ? ? Hi Hj Hb Ha Hk Ht]; subst. destruct (IH _ _ Ht) as (i0 & j0 & H1 & H2).
    exists i0, j0. split; [|done]. by econstructor.
Qed.

Lemma tiles_bounds i j sp k l :
  tiles b a i j sp k l → (i ≤ length b)%nat → (j ≤ length a)%nat → (i ≤ k ≤ length b)%nat ∧ (j ≤ l ≤ length a)%nat.
Proof. induction 1; intros; [lia|]. destruct IHtiles; lia. Qed.

Lemma range_empty t i i' : (i ≤ i' ≤ length t)%nat →
  is_empty {| start := off t i; end_ := off t i' |} = true ↔ i = i'.
Proof.
  intros Hi. unfold is_empty. simpl. rewrite negb_true_iff, Z.ltb_ge. split; [|intros ->; done].
  intros Hle. destruct (decide (i = i')); [done|]. pose proof (off_lt t i i'). lia.
Qed.

Lemma span_nonempty (t : text) i i' : (i ≤ i' ≤ length t)%nat → span t i i' = [] ↔ i = i'.
Proof.
  intros Hi. split; [|intros ->; apply span_nil]. intros Hs%(f_equal length). rewrite span_length in Hs by lia.
  simpl in Hs. lia.
Qed.

(** A span joins: it continues the last one or is put behind it. *)
Lemma push_span_tiles sp s i j i' j' :
  tiles b a 0 0 sp i j → (i ≤ i' ≤ length b)%nat → (j ≤ j' ≤ length a)%nat →
  before s = {| start := off b i; end_ := off b i' |} → after s = {| start := off a j; end_ := off a j' |} →
  kind_pre (kind s) (span b i i') (span a j j') →
  tiles b a 0 0 (push_span sp s) i' j'.
Proof.
  intros Ht Hi Hj Hb Ha Hk. unfold push_span.
  destruct (is_empty (before s) && is_empty (after s)) eqn:Hempty.
  { apply andb_true_iff in Hempty as [H1 H2]. rewrite Hb in H1. rewrite Ha in H2.
    apply range_empty in H1 as ->; [|done]. by apply range_empty in H2 as ->. }
  assert (kind_ok (kind s) (span b i i') (span a j j')) as Hok.
  { destruct Hk as [[H1 H2]|]; [|done]. apply span_nonempty in H1 as ->; [|done]. apply span_nonempty in H2 as ->; [|done].
    rewrite Hb, Ha in Hempty. rewrite (proj2 (range_empty b i' i' Hi) eq_refl), (proj2 (range_empty a j' j' Hj) eq_refl) in Hempty.
    done. }
  assert (tiles b a 0 0 (sp ++ [s]) i' j') as Hsnoc by (eapply tiles_app; [done|econstructor; eauto; constructor]).
  destruct (reverse sp) as [|l init] eqn:Hrev; [done|]. destruct (extends l s) eqn:Hext; [|done].
  apply (f_equal reverse) in Hrev. rewrite reverse_involutive, reverse_cons in Hrev. subst sp.
  apply tiles_snoc_inv in Ht as (i0 & j0 & Hinit & Hl).
  inversion Hl as [|? ? i1 j1 ? ? ? ? Hi0 Hj0 Hb0 Ha0 Hk0 Hnil]; subst. inversion Hnil; subst.
  eapply tiles_app; [done|]. rewrite Hb, Ha, Hb0, Ha0. simpl.
  apply andb_true_iff in Hext as [[Hkind _]%andb_true_iff _]. apply bool_decide_eq_true in Hkind.
  eapply tiles_cons; [| |done|done| |constructor]; [lia|lia|]. simpl. rewrite <- Hkind in Hok.
  rewrite (span_app b i0 i i'), (span_app a j0 j j') by lia.
  destruct (kind l); simpl in *; destruct Hok, Hk0; split; try congruence;
    try (intros [? ?]%app_eq_nil; done); try (by apply app_eq_nil); by apply app_nil.
Qed.

End Tiles.

Lemma alternating_snoc sp s :
  alternating (sp ++ [s]) ↔ alternating sp ∧ ∀ l, last sp = Some l → kind l ≠ kind s.
Proof.
  induction sp as [|x sp IH]; [by simpl; split|]. destruct sp as [|y sp]; simpl in *.
  - split; [intros [? _]; split; [done|by intros l [= <-]]|]. intros [_ Hl]. split; [by apply Hl|done].
  - rewrite IH. naive_solver.
Qed.

Lemma push_span_alternating b a sp s i j i' j' :
  tiles b a 0 0 sp i j → before s = {| start := off b i; end_ := off b i' |} →
  after s = {| start := off a j; end_ := off a j' |} → alternating sp → alternating (push_span sp s).
Proof.
  intros Ht Hb Ha Hsp. unfold push_span. destruct (_ && _); [done|].
  destruct (reverse sp) as [|l init] eqn:Hrev.
  { apply (f_equal reverse) in Hrev. rewrite reverse_involutive in Hrev. by subst. }
  apply (f_equal reverse) in Hrev. rewrite reverse_involutive, reverse_cons in Hrev. subst sp.
  apply tiles_snoc_inv in Ht as (i0 & j0 & _ & Hl).
  inversion Hl as [|? ? i1 j1 ? ? ? ? Hi0 Hj0 Hb0 Ha0 Hk0 Hnil]; subst. inversion Hnil; subst.
  destruct (extends l s) eqn:Hext.
  - apply alternating_snoc in Hsp as [Hinit Hlast]. apply alternating_snoc. done.
  - apply alternating_snoc. split; [done|]. intros l'. rewrite last_snoc. intros [= <-] Hkind.
    unfold extends in Hext. rewrite Hb, Ha, Hb0, Ha0 in Hext. simpl in Hext.
    by rewrite !Z.eqb_refl, Hkind, bool_decide_eq_true_2 in Hext.
Qed.

(** *** Tokens *)

Definition idx (toks : list text) (i : nat) : nat := length (concat (take i toks)).

Lemma offsets_loop_lookup toks : ∀ o i, (i < length toks)%nat →
  offsets_loop o toks !! i = Some (o + str_len (concat (take (S i) toks))).
Proof.
  induction toks as [|t toks IH]; intros o i Hi; simpl in *; [lia|]. rewrite str_len_app. destruct i as [|i]; simpl.
  - by rewrite Z.add_0_r.
  - rewrite IH by lia. f_equal. lia.
Qed.

Lemma offsets_loop_length o toks : length (offsets_loop o toks) = length toks.
Proof. revert o. induction toks as [|t toks IH]; intros o; simpl; [done|by rewrite IH]. Qed.

Lemma off_idx toks i : off (concat toks) (idx toks i) = str_len (concat (take i toks)).
Proof.
  unfold off, idx. rewrite <- (take_drop i toks) at 2. by rewrite concat_app, take_app_length.
Qed.

Lemma index_offsets {E} toks i : (i ≤ length toks)%nat →
  index (E:=E) (offsets toks) (Z.of_nat i) = Ok (off (concat toks) (idx toks i)).
Proof.
  intros Hi. rewrite off_idx. unfold index, get, offsets, len. simpl length. rewrite offsets_loop_length.
  rewrite (proj2 (Z.ltb_lt _ _)) by lia. rewrite Nat2Z.id. destruct i as [|i]; [done|]. simpl.
  by rewrite offsets_loop_lookup.
Qed.

Lemma idx_le toks i j : (i ≤ j)%nat → (idx toks i ≤ idx toks j)%nat.
Proof.
  intros Hij. unfold idx. replace j with (i + (j - i))%nat by lia.
  rewrite <- take_take_drop, concat_app, length_app. lia.
Qed.
Lemma idx_full toks i : (length toks ≤ i)%nat → idx toks i = length (concat toks).
Proof. intros. unfold idx. by rewrite take_ge. Qed.
Lemma idx_0 toks : idx toks 0 = 0%nat.
Proof. done. Qed.
Lemma idx_length toks i : (idx toks i ≤ length (concat toks))%nat.
Proof. rewrite <- (idx_full toks (length toks + i)) by lia. apply idx_le. lia. Qed.

Lemma span_idx toks i j : (i ≤ j)%nat → span (concat toks) (idx toks i) (idx toks j) = concat (span toks i j).
Proof.
  intros Hij. rewrite <- (take_drop j toks) at 1. rewrite concat_app.
  unfold span. rewrite drop_app_le by (by apply idx_le). rewrite take_app_le.
  2: { rewrite length_drop. done. }
  replace (take j toks) with (take i toks ++ take (j - i) (drop i toks)).
  2: { rewrite take_take_drop. f_equal. lia. }
  rewrite concat_app. unfold idx at 3. rewrite drop_app_length. apply take_ge.
  unfold idx. assert (take j toks = take i toks ++ take (j - i) (drop i toks)) as ->.
  { rewrite take_take_drop. f_equal. lia. }
  rewrite concat_app, length_app. lia.
Qed.

Lemma concat_nonempty (toks : list text) :
  Forall (λ t, t ≠ []) toks → concat toks = [] → toks = [].
Proof. destruct 1; [done|]. simpl. by intros [? _]%app_eq_nil. Qed.

Lemma agreeing_spec l r :
  (agreeing l r ≤ length l)%nat ∧ (agreeing l r ≤ length r)%nat ∧ take (agreeing l r) l = take (agreeing l r) r.
Proof.
  revert r. induction l as [|x l IH]; intros [|y r]; simpl; try (split_and!; (done || lia)).
  case_bool_decide as Hxy; simpl; [|split_and!; (done || lia)].
  destruct (IH r) as (? & ? & Ht). split_and!; [lia|lia|]. by rewrite Hxy, Ht.
Qed.


(** A token range as a range of scalars. *)
Lemma range_at_tokens toks i j : (i ≤ length toks)%nat → (j ≤ length toks)%nat →
  range_at (offsets toks) (Z.of_nat i) (Z.of_nat j)
    = Ok {| start := off (concat toks) (idx toks i); end_ := off (concat toks) (idx toks j) |}.
Proof. intros. unfold range_at. rewrite !index_offsets by done. done. Qed.

Section Ops.
Context (old new : list text).
Context (Hold : Forall (λ t, t ≠ []) old) (Hnew : Forall (λ t, t ≠ []) new).
Notation b := (concat old).
Notation a := (concat new).

Lemma span_tokens_nonempty (toks : list text) i j :
  Forall (λ t, t ≠ []) toks → (i < j ≤ length toks)%nat →
  concat (span toks i j) ≠ [].
Proof.
  intros Hf Hij Hc. apply concat_nonempty in Hc.
  - apply (f_equal length) in Hc. rewrite span_length in Hc by lia. simpl in Hc. lia.
  - unfold span. by apply Forall_take, Forall_drop.
Qed.

Definition good (sp : list DiffSpan) (i j : nat) : Prop :=
  tiles b a 0 0 sp (idx old i) (idx new j) ∧ alternating sp.

Lemma good_push sp k i j i' j' :
  good sp i j → (i ≤ i' ≤ length old)%nat → (j ≤ j' ≤ length new)%nat →
  kind_pre k (concat (span old i i')) (concat (span new j j')) →
  good (push_span sp {| kind := k;
      before := {| start := off b (idx old i); end_ := off b (idx old i') |};
      after := {| start := off a (idx new j); end_ := off a (idx new j') |} |}) i' j'.
Proof.
  intros [Ht Hal] Hi Hj Hk. split.
  - eapply push_span_tiles; [done| | |done|done|]; simpl.
    + split; [apply idx_le; lia|apply idx_length].
    + split; [apply idx_le; lia|apply idx_length].
    + by rewrite !span_idx by lia.
  - by eapply push_span_alternating.
Qed.

Lemma kind_of_pre (o : DiffOp) i i' j j' :
  op_tagged o → (i ≤ i' ≤ length old)%nat → (j ≤ j' ≤ length new)%nat →
  (tag o = Equal → span old i i' = span new j j') →
  end_ (old_range o) - start (old_range o) = Z.of_nat (i' - i) →
  end_ (new_range o) - start (new_range o) = Z.of_nat (j' - j) →
  kind_pre (kind_of (tag o)) (concat (span old i i')) (concat (span new j j')).
Proof.
  intros Htag Hi Hj Heq Ho Hn. unfold op_tagged in Htag.
  destruct (decide (i = i')) as [<-|Hii], (decide (j = j')) as [<-|Hjj];
    rewrite ?span_nil; try (left; done).
  - right. destruct (tag o); simpl in *; try lia.
    + specialize (Heq eq_refl). rewrite span_nil in Heq. apply (f_equal length) in Heq.
      rewrite span_length in Heq by lia. simpl in Heq. lia.
    + split; [done|]. apply span_tokens_nonempty; [done|lia].
  - right. destruct (tag o); simpl in *; try lia.
    + specialize (Heq eq_refl). rewrite span_nil in Heq. apply (f_equal length) in Heq.
      rewrite span_length in Heq by lia. simpl in Heq. lia.
    + split; [|done]. apply span_tokens_nonempty; [done|lia].
  - right. destruct (tag o); simpl in *; try lia.
    + rewrite Heq by done. split; [done|]. apply span_tokens_nonempty; [done|lia].
    + split; apply span_tokens_nonempty; (done || lia).
Qed.

Lemma push_ops_good p oe ne ops : (p ≤ oe ≤ length old)%nat → (p ≤ ne ≤ length new)%nat → ∀ o n sp,
  script (span old p oe) (span new p ne) o n ops → Forall op_tagged ops →
  (o ≤ oe - p)%nat → (n ≤ ne - p)%nat → good sp (p + o) (p + n) →
  ∃ sp', push_ops (Z.of_nat p) (offsets old) (offsets new) ops sp = Ok sp' ∧ good sp' oe ne.
Proof.
  intros Hoe Hne o n sp Hs. revert sp. induction Hs as [|o n k ops Ho Hn Heq Hs IH|t o n o' n' ops Ht Ho Hn Hs IH];
    intros sp Htags Hlo Hln Hg; rewrite !span_length in * by lia; simpl.
  - exists sp. replace (p + (oe - p))%nat with oe in Hg by lia. by replace (p + (ne - p))%nat with ne in Hg by lia.
  - apply Forall_cons in Htags as [Htag Htags].
    rewrite <- !Nat2Z.inj_add, !range_at_tokens by lia. cbn [mbind result_bind]. apply IH; [done|lia|lia|].
    rewrite !Nat.add_assoc. apply good_push; [done|lia|lia|].
    apply (kind_of_pre {| tag := Equal; old_range := {| start := Z.of_nat o; end_ := Z.of_nat (o + k) |};
      new_range := {| start := Z.of_nat n; end_ := Z.of_nat (n + k) |} |}); simpl; try done; try lia.
    intros _. rewrite !span_span in Heq by lia. by rewrite <- !Nat.add_assoc.
  - apply Forall_cons in Htags as [Htag Htags].
    rewrite <- !Nat2Z.inj_add, !range_at_tokens by lia. cbn [mbind result_bind]. apply IH; [done|lia|lia|].
    apply good_push; [done|lia|lia|].
    apply (kind_of_pre {| tag := t; old_range := {| start := Z.of_nat o; end_ := Z.of_nat o' |};
      new_range := {| start := Z.of_nat n; end_ := Z.of_nat n' |} |}); simpl; try done; try lia.
Qed.
End Ops.

(** *** Alignment *)

Lemma agreeing_suffix p (old new : list text) :
  let s := agreeing (reverse (drop p old)) (reverse (drop p new)) in
  (s ≤ length old - p)%nat ∧ (s ≤ length new - p)%nat
    ∧ drop (length old - s) old = drop (length new - s) new.
Proof.
  intros s. destruct (agreeing_spec (reverse (drop p old)) (reverse (drop p new))) as (Ho & Hn & Ht).
  fold s in Ho, Hn, Ht. rewrite length_reverse, length_drop in Ho, Hn. split_and!; [done|done|].
  rewrite !take_reverse, !drop_drop, !length_drop in Ht. apply (inj reverse) in Ht.
  destruct (decide (s = 0)%nat) as [->|]; [by rewrite !Nat.sub_0_r, !drop_all|].
  replace (length old - s)%nat with (p + (length old - p - s))%nat by lia.
  by replace (length new - s)%nat with (p + (length new - p - s))%nat by lia.
Qed.

Lemma split_inclusive_nonempty t : Forall (λ l, l ≠ []) (split_inclusive t).
Proof.
  induction t as [|c t IH]; simpl; [done|]. destruct (c =? 10); [by constructor|].
  destruct (split_inclusive t); [by constructor|]. apply Forall_cons in IH as [_ IH]. by constructor.
Qed.

Lemma single_good b a c : tiles b a 0 0 (aligned (single b a c)) (length b) (length a) ∧ alternating (aligned (single b a c)).
Proof.
  unfold single. simpl. set (k := if bool_decide (b = a) then _ else _).
  assert (kind_pre k (span b 0 (length b)) (span a 0 (length a))) as Hk.
  { rewrite !span_all. subst k. repeat case_bool_decide; subst; try (right; done).
    destruct (decide (a = [])) as [->|]; [by left|by right]. }
  split; [|unfold push_span; by case_match].
  eapply (push_span_tiles _ _ _ _ 0 0); [constructor|lia|lia| | |done]; simpl; by rewrite ?off_0, ?off_length.
Qed.

Section Align.
Context (engine : list text → list text → list DiffOp) (words : text → list text).
Context (Hengine : tagged_engine engine) (Hwords : segmentation words).

Lemma tokens_spec t g toks : tokens words t g = Some toks → concat toks = t ∧ Forall (λ w, w ≠ []) toks.
Proof.
  unfold tokens. set (parts := match g with Words => words t | Lines => split_inclusive t end).
  assert (concat parts = t ∧ Forall (λ w, w ≠ []) parts) as Hp.
  { subst parts. destruct g; [by apply Hwords|]. split; [apply split_inclusive_concat|apply split_inclusive_nonempty]. }
  destruct (Z.leb_spec (len (take (Z.to_nat (MAX_TOKENS + 1)) parts)) MAX_TOKENS) as [Hle|]; [|done].
  intros [= <-]. unfold len in Hle. rewrite length_take in Hle. rewrite take_ge; [done|]. unfold MAX_TOKENS in *. lia.
Qed.

(** The alignment of two token lists, from the common prefix to the common suffix. *)
Lemma aligned_tokens old new p s sp :
  Forall (λ t, t ≠ []) old → Forall (λ t, t ≠ []) new → p = agreeing old new →
  s = agreeing (reverse (drop p old)) (reverse (drop p new)) →
  sp = push_span [] {| kind := KEqual;
         before := {| start := 0; end_ := off (concat old) (idx old p) |};
         after := {| start := 0; end_ := off (concat new) (idx new p) |} |} →
  ∃ sp', push_ops (Z.of_nat p) (offsets old) (offsets new)
      (engine (span old p (length old - s)) (span new p (length new - s))) sp = Ok sp' ∧
    good old new (push_span sp' {| kind := KEqual;
      before := {| start := off (concat old) (idx old (length old - s)); end_ := str_len (concat old) |};
      after := {| start := off (concat new) (idx new (length new - s)); end_ := str_len (concat new) |} |})
      (length old) (length new).
Proof.
  intros Hold Hnew -> -> ->. destruct (agreeing_spec old new) as (Hpo & Hpn & Hp). set (p := agreeing old new) in *.
  destruct (agreeing_suffix p old new) as (Hso & Hsn & Hs). set (s := agreeing (reverse (drop p old)) _) in *.
  assert (∀ x : text, kind_pre KEqual x x) as Hsame.
  { intros x. destruct (decide (x = [])); [by left|by right]. }
  destruct (push_ops_good old new Hold Hnew p (length old - s) (length new - s)
    (engine (span old p (length old - s)) (span new p (length new - s))) ltac:(lia) ltac:(lia) 0 0
    (push_span [] {| kind := KEqual; before := {| start := off (concat old) (idx old 0); end_ := off (concat old) (idx old p) |};
         after := {| start := off (concat new) (idx new 0); end_ := off (concat new) (idx new p) |} |}))
    as (sp' & Hsp & Hg); [apply Hengine|apply Hengine|lia|lia| |].
  { rewrite !Nat.add_0_r. apply good_push; [split; [constructor|done]|lia|lia|].
    rewrite !span_from_start, Hp. apply Hsame. }
  exists sp'. split; [exact Hsp|].
  rewrite <- (off_length (concat old)), <- (off_length (concat new)).
  rewrite <- (idx_full old (length old)), <- (idx_full new (length new)) by lia.
  apply good_push; [done|lia|lia|]. rewrite !span_to_end, Hs. apply Hsame.
Qed.

Lemma saturating_square_nonneg x : 0 ≤ saturating_square x.
Proof. unfold saturating_square. apply Z.min_glb; [by compute|]. pose proof (Z.square_nonneg x). lia. Qed.

Lemma align_good b a g work : 0 ≤ work →
  ∃ al work', align engine words b a g work = Ok (al, work') ∧ 0 ≤ work' ≤ work
    ∧ tiles b a 0 0 (aligned al) (length b) (length a) ∧ alternating (aligned al).
Proof.
  intros Hwork. unfold align.
  destruct (bool_decide (b = a) || bool_decide (b = []) || bool_decide (a = [])).
  { eexists _, work. split; [done|]. split; [lia|apply single_good]. }
  destruct (tokens words b g) as [old|] eqn:Hb; [destruct (tokens words a g) as [new|] eqn:Ha|];
    try (eexists _, work; split; [done|]; split; [lia|apply single_good]; fail).
  apply tokens_spec in Hb as [<- Hold], Ha as [<- Hnew].
  set (p := agreeing old new). set (s := agreeing (reverse (drop p old)) (reverse (drop p new))).
  destruct (agreeing_spec old new) as (Hpo & Hpn & _). fold p in Hpo, Hpn.
  destruct (agreeing_suffix p old new) as (Hso & Hsn & _). fold s in Hso, Hsn.
  destruct (aligned_tokens old new p s _ Hold Hnew eq_refl eq_refl eq_refl) as (sp' & Hops & Hgood).
  assert (∀ x y, (y ≤ x)%nat → usize_sub (E:=DiffError) (Z.of_nat x) (Z.of_nat y) = Ok (Z.of_nat (x - y))) as Hsub.
  { intros x y Hxy. apply usize_sub_Ok. lia. }
  unfold len. repeat (rewrite Hsub by lia; cbn [mbind result_bind]). cbv zeta.
  case_match eqn:Hcost; [eexists _, work; split; [done|]; split; [lia|apply single_good]|].
  apply Z.ltb_ge in Hcost. repeat (rewrite index_offsets by lia; cbn [mbind result_bind]).
  rewrite !Nat2Z.id, Hops. cbn [mbind result_bind]. repeat (rewrite index_offsets by lia; cbn [mbind result_bind]).
  eexists _, _. split; [done|]. split.
  { match goal with |- context [saturating_square ?x] => pose proof (saturating_square_nonneg x) end. lia. }
  destruct Hgood as [Ht Hal]. rewrite (idx_full old (length old)), (idx_full new (length new)) in Ht by lia. done.
Qed.

(** *** The blocks *)

Lemma off_within (t : text) i i' m : (i ≤ i' ≤ length t)%nat → (m ≤ i' - i)%nat →
  off (span t i i') m + off t i = off t (i + m).
Proof.
  intros Hi Hm.
  assert (off (span t i i') m = str_len (span t i (i + m))) as ->.
  { unfold off. f_equal. rewrite <- (span_from_start (span t i i')). rewrite span_span by lia. by rewrite Nat.add_0_r. }
  rewrite span_off by lia. lia.
Qed.

Lemma push_words b a block i i' j j' ws : ∀ m n k l sp,
  (i ≤ i' ≤ length b)%nat → (j ≤ j' ≤ length a)%nat →
  start (before block) = off b i → start (after block) = off a j →
  tiles (span b i i') (span a j j') m n ws k l → (m ≤ i' - i)%nat → (n ≤ j' - j)%nat →
  tiles b a 0 0 sp (i + m) (j + n) → alternating sp →
  let sp' := foldl (λ sp w, push_span sp (shift_span block w)) sp ws in
  tiles b a 0 0 sp' (i + k) (j + l) ∧ alternating sp'.
Proof.
  intros m n k l sp Hi Hj Hb Ha Ht. revert sp.
  induction Ht as [m n|m n m' n' w ws k l Hm Hn Hwb Hwa Hk Ht IH]; intros sp Hmi Hnj Hsp Hal; simpl; [done|].
  rewrite !span_length in Hm, Hn by lia.
  assert (before (shift_span block w) = {| start := off b (i + m); end_ := off b (i + m') |}) as Hb'.
  { simpl. unfold shift. rewrite Hwb, Hb. simpl. f_equal; apply off_within; lia. }
  assert (after (shift_span block w) = {| start := off a (j + n); end_ := off a (j + n') |}) as Ha'.
  { simpl. unfold shift. rewrite Hwa, Ha. simpl. f_equal; apply off_within; lia. }
  apply IH; [lia|lia| |by eapply push_span_alternating].
  eapply push_span_tiles; [done|lia|lia|done|done|]. right. simpl. by rewrite <- !(span_span _ _ i' _ _), <- !(span_span _ _ j' _ _) by lia.
Qed.

Lemma refine_good b a g c blocks : ∀ i j sp work count,
  tiles b a i j blocks (length b) (length a) → tiles b a 0 0 sp i j → alternating sp → 0 ≤ work →
  ∃ count' sp', refine_blocks engine words b a g c blocks work count sp = Ok (count', sp')
    ∧ tiles b a 0 0 sp' (length b) (length a) ∧ alternating sp'.
Proof.
  induction blocks as [|s blocks IH]; intros i j sp work count Ht Hsp Hal Hw; simpl.
  { inversion Ht; subst. by eexists _, _. }
  inversion Ht as [|? ? i' j' ? ? ? ? Hi Hj Hb Ha Hk Hrest]; subst.
  destruct (_ && _) eqn:Hwords_.
  - unfold get_range. rewrite Hb, Ha. cbn [start end_]. rewrite !str_get_off by lia. cbn [ok_or mbind result_bind].
    destruct (align_good (span b i i') (span a j j') Words work Hw) as (al & work' & -> & Hw' & Hti & _).
    cbn [mbind result_bind]. rewrite !span_length in Hti by lia.
    destruct (push_words b a s i i' j j' (aligned al) 0 0 (i' - i) (j' - j) sp) as [Ht' Hal']; try done; try lia.
    { by rewrite Hb. } { by rewrite Ha. } { by rewrite !Nat.add_0_r. }
    replace (i + (i' - i))%nat with i' in Ht' by lia. replace (j + (j' - j))%nat with j' in Ht' by lia.
    eapply IH; [done|done|done|lia].
  - eapply IH; [done| |by eapply push_span_alternating|lia].
    eapply push_span_tiles; [done|lia|lia|done|done|by right].
Qed.

Lemma push_span_equal sp s :
  Forall (λ s, kind s = KEqual) sp → kind s = KEqual → Forall (λ s, kind s = KEqual) (push_span sp s).
Proof.
  intros Hsp Hs. unfold push_span. destruct (_ && _); [done|].
  assert (Forall (λ s, kind s = KEqual) (sp ++ [s])) by (apply Forall_app; by repeat constructor).
  destruct (reverse sp) as [|l init] eqn:Hrev; [done|]. destruct (extends l s); [|done].
  apply (f_equal reverse) in Hrev. rewrite reverse_involutive, reverse_cons in Hrev. subst sp.
  apply Forall_app in Hsp as [Hinit Hl]. apply Forall_app. split; [done|]. by inversion Hl; repeat constructor.
Qed.

(** A snapshot compared with itself has no change. *)
Lemma refine_same b g c work count sp :
  refine_blocks engine words b b g c (aligned (single b b false)) work 0 [] = Ok (count, sp) →
  Forall (λ s, kind s = KEqual) sp.
Proof.
  unfold single. rewrite bool_decide_eq_true_2 by done. unfold push_span. simpl. case_match; simpl.
  - intros [= <- <-]. constructor.
  - rewrite andb_false_r. intros [= <- <-]. apply push_span_equal; [constructor|done].
Qed.
Lemma align_same b g work : align engine words b b g work = Ok (single b b false, work).
Proof. unfold align. by rewrite bool_decide_eq_true_2. Qed.

End Align.

Lemma tiles_rebuild b a i j sp k l :
  tiles b a i j sp k l → (i ≤ k)%nat → (j ≤ l)%nat → rebuild b a sp = span a j l.
Proof.
  induction 1 as [i j|i j i' j' s sp k l Hi Hj Hb Ha Hk Ht IH]; intros; simpl; [by rewrite span_nil|].
  destruct (tiles_bounds _ _ _ _ _ _ _ Ht) as [? ?]; [lia|lia|].
  rewrite IH by lia. rewrite (span_app a j j' l) by lia. f_equal. unfold get_range. rewrite Hb, Ha. cbn [start end_].
  rewrite !str_get_off by lia. case_bool_decide as Hkind; [|done]. rewrite Hkind in Hk. by destruct Hk.
Qed.

Lemma tiles_unchanged b a i j sp k l :
  tiles b a i j sp k l → Forall (λ s, kind s = KEqual) sp → (i ≤ k)%nat → (j ≤ l)%nat → span b i k = span a j l.
Proof.
  induction 1 as [i j|i j i' j' s sp k l Hi Hj Hb Ha Hk Ht IH]; intros Hf ? ?; [by rewrite !span_nil|].
  destruct (tiles_bounds _ _ _ _ _ _ _ Ht) as [? ?]; [lia|lia|]. apply Forall_cons in Hf as [Hs Hf].
  rewrite (span_app b i i' k), (span_app a j j' l), IH by (done || lia). rewrite Hs in Hk. by destruct Hk as [-> _].
Qed.

End DiffProofs.

(** ** Properties *)

Module DiffTheorems.
Import DiffProofs.

Section Theorems.
Context (capture_diff_slices : list text → list text → list DiffOp) (split_word_bounds : text → list text).
Context (Hengine : tagged_engine capture_diff_slices) (Hwords : segmentation split_word_bounds).
Notation compare := (compare capture_diff_slices split_word_bounds).

(** C29: a comparison is refused exactly when the two snapshots together exceed 2 MiB,
    and it never indexes or slices out of range. Its spans partition both snapshots in
    order at character boundaries, without a gap or an overlap, and each is what its
    kind says: equal spans carry the same text, insertions have no old text, deletions
    no new text, replacements both. No two neighbours have the same kind, the new
    snapshot is the equal and the new sides of the spans, and the spans are all equal
    exactly when the snapshots are. *)
Theorem revision_diff_exact b a g :
  (MAX_INPUT_BYTES < str_len b + str_len a → compare b a g = Err (Fail InputLimit)) ∧
  (str_len b + str_len a ≤ MAX_INPUT_BYTES →
   ∃ r, compare b a g = Ok r ∧ granularity r = g
     ∧ tiles b a 0 0 (spans r) (length b) (length a) ∧ alternating (spans r)
     ∧ rebuild b a (spans r) = a
     ∧ (Forall (λ s, kind s = KEqual) (spans r) ↔ b = a)).
Proof.
  unfold compare, saturating_add. split; intros Hlen.
  { rewrite (proj2 (Z.ltb_lt _ _)); [done|]. apply Z.min_glb_lt; [by compute|done]. }
  rewrite (proj2 (Z.ltb_ge _ _)) by (apply Z.min_le_iff; by right).
  destruct (align_good _ _ Hengine Hwords b a Lines MAX_DIFF_WORK) as (al & work & Hal & Hw & Ht & _); [by compute|].
  destruct (refine_good _ _ Hengine Hwords b a g (coarse al) (aligned al) 0 0 [] work 0) as (count & sp & Href & Hti & Halt);
    [done|constructor|done|lia|].
  eexists. rewrite Hal. cbn [mbind result_bind]. rewrite Href. cbn [mbind result_bind]. split; [done|]. simpl.
  split_and!; [done|done|done| |split].
  - rewrite (tiles_rebuild _ _ _ _ _ _ _ Hti) by lia. apply span_all.
  - intros Hf. pose proof (tiles_unchanged _ _ _ _ _ _ _ Hti Hf) as Hs. rewrite !span_all in Hs. apply Hs; lia.
  - intros ->. rewrite align_same in Hal. injection Hal as <- <-. by eapply refine_same.
Qed.
End Theorems.

(** An engine that replaces all tokens, and the scalars as words. *)
Definition replace_tokens (old new : list text) : list DiffOp :=
  if bool_decide (old = []) && bool_decide (new = []) then []
  else [{| tag := if bool_decide (old = []) then Insert else if bool_decide (new = []) then Delete else Replace;
           old_range := {| start := 0; end_ := Z.of_nat (length old) |};
           new_range := {| start := 0; end_ := Z.of_nat (length new) |} |}].

Lemma replace_tokens_engine : tagged_engine replace_tokens.
Proof.
  unfold replace_tokens. split; intros old new.
  - case_match eqn:He.
    + apply andb_true_iff in He as [->%bool_decide_eq_true ->%bool_decide_eq_true]. apply script_end.
    + apply (script_change old new _ 0 0); [by repeat case_match|lia|lia|apply script_end].
  - repeat case_bool_decide; simpl; repeat constructor; simpl; subst; simpl; try done; try lia;
      destruct old, new; simpl; (done || lia).
Qed.

Lemma scalars_segmentation : segmentation (map (λ c, [c])).
Proof.
  intros t. split; [by induction t as [|c t IH]; simpl; [|rewrite IH]|]. induction t; by repeat constructor.
Qed.

Lemma revision_diff_exact_witness :
  ∃ r, compare replace_tokens (map (λ c, [c])) (str "a b" ++ [10; 233]) (str "a ddd" ++ [10; 233]) Words = Ok r
    ∧ map kind (spans r) = [KEqual; KReplace; KEqual]
    ∧ rebuild (str "a b" ++ [10; 233]) (str "a ddd" ++ [10; 233]) (spans r) = str "a ddd" ++ [10; 233].
Proof.
  destruct (revision_diff_exact replace_tokens (map (λ c, [c])) replace_tokens_engine scalars_segmentation
    (str "a b" ++ [10; 233]) (str "a ddd" ++ [10; 233]) Words) as [_ H].
  destruct H as (r & Hr & _ & _ & _ & Hb & _); [by vm_compute|].
  exists r. split; [done|]. split; [|done].
  assert (compare replace_tokens (map (λ c, [c])) (str "a b" ++ [10; 233]) (str "a ddd" ++ [10; 233]) Words = Ok r) as Hc by done.
  vm_compute in Hc. by injection Hc as <-.
Defined.
End DiffTheorems.
