(* ===== verification/History.v ===== *)
(** * History: the branches of a document

    Models [workspace-document/src/history.rs]: [BranchIndex], the validated parent graph
    of the nodes of a document, and the queries on it. The trait [HistoryNode] is a class;
    the maps are [gmap]s; an index into the nodes is a [nat] and indexing panics out of
    range. The loops that follow parents or children carry fuel. *)

From S2P Require Import Prelude Bytes.
Local Open Scope Z_scope.

Definition MAX_DOCUMENT_PARTS : Z := 65536.

Inductive HistoryError :=
| InvalidIdentity | OwnershipMismatch | HistoryByteBudget | NodeBudget | DuplicateId | MissingParent | Cycle | MissingHead.
#[export] Instance history_error_eq_dec : EqDecision HistoryError.
Proof. solve_decision. Defined.

(** [trait HistoryNode] *)
Class HistoryNode (Node Id : Type) := { id_of : Node → Id; parent_id : Node → option Id }.

(** [l[i]] and [l[i] = x] *)
Definition at_ {E A} (l : list A) (i : nat) : parse E A := ok_or (l !! i) Panic.
Definition set_at {E A} (l : list A) (i : nat) (x : A) : parse E (list A) :=
  if bool_decide (i < length l)%nat then Ok (<[i := x]> l) else Err Panic.

(** [iter.max_by(compare)]: the last of the greatest *)
Definition max_by {A} (compare : A → A → comparison) (l : list A) : option A :=
  match l with
  | [] => None
  | x :: l => Some (foldl (λ x y, match compare x y with Gt => x | _ => y end) x l)
  end.

Section History.
Context {Node Id : Type} `{Countable Id} `{!HistoryNode Node Id}.

Record BranchIndex := {
  nodes : list Node;
  by_id : gmap Id nat;
  children : list (list nat);
  roots : list nat;
}.

(** ** [BranchIndex::new] *)

Fixpoint insert_ids (index : nat) (ns : list Node) (m : gmap Id nat) : parse HistoryError (gmap Id nat) :=
  match ns with
  | [] => Ok m
  | n :: ns =>
    fail_if (bool_decide (is_Some (m !! id_of n))) DuplicateId ;;
    insert_ids (S index) ns (<[id_of n := index]> m)
  end.

(** The parents, children and roots that are being filled *)
Record Links := { l_parents : list (option nat); l_children : list (list nat); l_roots : list nat }.
Definition link (parent index : nat) (s : Links) : parse HistoryError Links :=
  ps ← set_at (l_parents s) index (Some parent) ;
  c ← at_ (l_children s) parent ;
  cs ← set_at (l_children s) parent (c ++ [index]) ;
  Ok {| l_parents := ps; l_children := cs; l_roots := l_roots s |}.
Fixpoint link_nodes (m : gmap Id nat) (index : nat) (ns : list Node) (s : Links) : parse HistoryError Links :=
  match ns with
  | [] => Ok s
  | n :: ns =>
    match parent_id n with
    | Some p =>
      parent ← need (m !! p) MissingParent ;
      s ← link parent index s ;
      link_nodes m (S index) ns s
    | None => link_nodes m (S index) ns {| l_parents := l_parents s; l_children := l_children s; l_roots := l_roots s ++ [index] |}
    end
  end.

(** The walk from a node to its root: 0 is unseen, 1 on this walk, 2 validated. *)
Fixpoint walk (fuel : nat) (parents : list (option nat)) (current : option nat) (marks : list Z) (path : list nat) :
    parse HistoryError (list Z * list nat) :=
  match fuel with
  | O => Err OutOfFuel
  | S fuel =>
    match current with
    | None => Ok (marks, path)
    | Some index =>
      mark ← at_ marks index ;
      if mark =? 1 then Err (Fail Cycle)
      else if mark =? 2 then Ok (marks, path)
      else
        marks ← set_at marks index 1 ;
        next ← at_ parents index ;
        walk fuel parents next marks (path ++ [index])
    end
  end.
Fixpoint mark_path (path : list nat) (marks : list Z) : parse HistoryError (list Z) :=
  match path with
  | [] => Ok marks
  | index :: path => marks ← set_at marks index 2 ; mark_path path marks
  end.
Fixpoint validate_from (parents : list (option nat)) (starts : list nat) (marks : list Z) : parse HistoryError (list Z) :=
  match starts with
  | [] => Ok marks
  | start :: starts =>
    '(marks, path) ← walk (S (length parents)) parents (Some start) marks [] ;
    marks ← mark_path path marks ;
    validate_from parents starts marks
  end.

Definition branch_index_new (ns : list Node) : parse HistoryError BranchIndex :=
  fail_if (MAX_DOCUMENT_PARTS <? len ns) NodeBudget ;;
  m ← insert_ids 0 ns ∅ ;
  s ← link_nodes m 0 ns {| l_parents := replicate (length ns) None; l_children := replicate (length ns) []; l_roots := [] |} ;
  _ ← validate_from (l_parents s) (seq 0 (length ns)) (replicate (length ns) 0) ;
  Ok {| nodes := ns; by_id := m; children := l_children s; roots := l_roots s |}.

(** ** Queries *)

Section Queries.
Context (ix : BranchIndex).

Definition node (i : Id) : parse HistoryError Node := index ← need (by_id ix !! i) MissingHead ; at_ (nodes ix) index.

Fixpoint path_loop (fuel : nat) (current : option Id) (path : list Node) : parse HistoryError (list Node) :=
  match fuel with
  | O => Err OutOfFuel
  | S fuel =>
    match current with
    | None => Ok (reverse path)
    | Some i => n ← node i ; path_loop fuel (parent_id n) (path ++ [n])
    end
  end.
Definition path (head : option Id) : parse HistoryError (list Node) := path_loop (S (length (nodes ix))) head [].

Definition siblings (i : Id) : parse HistoryError (list Node) :=
  n ← node i ;
  positions ← match parent_id n with
              | Some p => parent ← need (by_id ix !! p) MissingParent ; at_ (children ix) parent
              | None => Ok (roots ix)
              end ;
  mapM (at_ (nodes ix)) positions.

Fixpoint leaf_loop (fuel : nat) (compare : Node → Node → comparison) (index : nat) : parse HistoryError Node :=
  match fuel with
  | O => Err OutOfFuel
  | S fuel =>
    cs ← at_ (children ix) index ;
    candidates ← mapM (λ i, n ← at_ (nodes ix) i ; Ok (i, n)) cs ;
    match max_by (λ x y : nat * Node, compare x.2 y.2) candidates with
    | Some (next, _) => leaf_loop fuel compare next
    | None => at_ (nodes ix) index
    end
  end.
Definition preferred_leaf (start : Id) (compare : Node → Node → comparison) : parse HistoryError Node :=
  index ← need (by_id ix !! start) MissingHead ; leaf_loop (S (length (nodes ix))) compare index.

(** The end of [pending] is the head of the list here. *)
Fixpoint descend (fuel : nat) (pending : list nat) (result : gset Id) : parse HistoryError (gset Id) :=
  match fuel with
  | O => Err OutOfFuel
  | S fuel =>
    match pending with
    | [] => Ok result
    | index :: pending =>
      n ← at_ (nodes ix) index ;
      cs ← at_ (children ix) index ;
      descend fuel (reverse cs ++ pending) ({[id_of n]} ∪ result)
    end
  end.
Definition descendants (start : Id) : parse HistoryError (gset Id) :=
  index ← need (by_id ix !! start) MissingHead ; descend (S (length (nodes ix))) [index] ∅.
End Queries.
End History.
Arguments BranchIndex Node Id {_ _}.

(** ** Lines of parents *)

Section Lines.
Context (up : nat → option nat).
Definition child_index (i p : nat) : Prop := up i = Some p.

(** The indices from one up to its root *)
Inductive line : nat → list nat → Prop :=
| line_root i : up i = None → line i [i]
| line_step i p l : up i = Some p → line p l → line i (i :: l).

Lemma line_tc i j l : tc child_index i j → line i l → ∃ k, line j k ∧ (length k < length l)%nat.
Proof.
  intros Ht. revert l. induction Ht as [i j Hij|i j k Hij Ht IH]; intros l Hl;
    inversion Hl as [? Hu|? p m Hu Hm]; subst; unfold child_index in *; simplify_eq.
  - exists m. split; [done|simpl; lia].
  - destruct (IH m Hm) as (r & Hr & Hlt). exists r. split; [done|simpl; lia].
Qed.
Lemma line_fun i l k : line i l → line i k → l = k.
Proof.
  intros Hl. revert k. induction Hl as [i Hi|i p l Hi Hl IH]; intros k Hk; inversion Hk; subst; simplify_eq; [done|].
  f_equal. auto.
Qed.
Lemma line_acyclic i l : line i l → ¬ tc child_index i i.
Proof. intros Hl Ht. destruct (line_tc i i l Ht Hl) as (k & Hk & Hlt). rewrite (line_fun i k l) in Hlt by done. lia. Qed.
Lemma line_elem i l j : line i l → j ∈ l → rtc child_index i j ∧ ∃ k, line j k.
Proof.
  intros Hl. induction Hl as [i Hi|i p l Hi Hl IH].
  - intros ->%list_elem_of_singleton. split; [done|]. exists [i]. by constructor.
  - intros [->|Hj]%elem_of_cons; [split; [done|]; exists (i :: l); by apply (line_step i p)|].
    destruct (IH Hj) as [Hr ?]. split; [|done]. by eapply rtc_l.
Qed.
Lemma line_nodup i l : line i l → NoDup l.
Proof.
  intros Hl. induction Hl as [i Hi|i p l Hi Hl IH]; [apply NoDup_singleton|]. constructor; [|done].
  intros Hin. destruct (line_elem p l i Hl Hin) as [Hr (k & Hk)]. apply (line_acyclic i k Hk).
  by eapply tc_rtc_r; [apply tc_once|].
Qed.
Lemma line_short n i l : (∀ j p, up j = Some p → (p < n)%nat) → (i < n)%nat → line i l → (length l ≤ n)%nat.
Proof.
  intros Hup Hi Hl. rewrite <- (length_seq n 0). apply submseteq_length, NoDup_submseteq; [by eapply line_nodup|].
  intros j Hj. rewrite elem_of_seq. split; [lia|]. induction Hl as [i Hu|i p l Hu Hl IH].
  - apply list_elem_of_singleton in Hj as ->. lia.
  - apply elem_of_cons in Hj as [->|Hj]; [lia|]. eauto.
Qed.
End Lines.

Lemma line_ext up up' i l : (∀ j, up j = up' j) → line up i l → line up' i l.
Proof.
  intros He Hl. induction Hl as [i Hi|i p l Hi Hl IH]; [apply line_root|eapply line_step; [|exact IH] ]; by rewrite <- He.
Qed.

(** ** Construction *)

Section Construction.
Context {Node Id : Type} `{Countable Id} `{!HistoryNode Node Id}.
Implicit Types ns : list Node.

Lemma at_Ok {E A} (l : list A) i x : at_ (E:=E) l i = Ok x ↔ l !! i = Some x.
Proof. unfold at_, ok_or. destruct (l !! i); naive_solver. Qed.
Lemma set_at_Ok {E A} (l : list A) i x : (i < length l)%nat → set_at (E:=E) l i x = Ok (<[i := x]> l).
Proof. intros Hi. unfold set_at. by rewrite bool_decide_eq_true_2. Qed.

(** The map from ids to indices of the first nodes *)
Definition maps_ids ns (m : gmap Id nat) : Prop := ∀ k i, m !! k = Some i ↔ ∃ n, ns !! i = Some n ∧ id_of n = k.

Lemma insert_ids_spec k ns m :
  NoDup (id_of <$> k) → maps_ids k m →
  match insert_ids (length k) ns m with
  | Ok m' => NoDup (id_of <$> k ++ ns) ∧ maps_ids (k ++ ns) m'
  | Err (Fail DuplicateId) => ¬ NoDup (id_of <$> k ++ ns)
  | Err _ => False
  end.
Proof.
  revert k m. induction ns as [|n ns IH]; intros k m Hn Hm; simpl; [by rewrite app_nil_r|].
  unfold fail_if, reject_if, mbind, result_bind. case_bool_decide as Hd.
  - destruct Hd as [i (x & Hx & Hid)%Hm]. rewrite fmap_app, fmap_cons. intros (_ & Hf & _)%NoDup_app.
    apply (Hf (id_of n)); [|by left]. rewrite <- Hid. by eapply list_elem_of_fmap_2, list_elem_of_lookup_2.
  - replace (S (length k)) with (length (k ++ [n])) by (rewrite length_app; simpl; lia).
    rewrite (cons_middle n k ns), (app_assoc k [n] ns). apply IH.
    + rewrite fmap_app. apply NoDup_app. split_and!; [done| |apply NoDup_singleton].
      intros x (y & -> & [i Hi]%list_elem_of_lookup)%list_elem_of_fmap Hx%list_elem_of_singleton.
      apply Hd. exists i. apply Hm. eauto.
    + intros x i. destruct (decide (x = id_of n)) as [->|Hne].
      * rewrite lookup_insert_eq. split.
        -- intros [= <-]. exists n. split; [|done]. by rewrite lookup_app_r, Nat.sub_diag by done.
        -- intros (y & Hy & Hid). destruct (decide (i < length k)%nat) as [Hi|Hi].
           ++ rewrite lookup_app_l in Hy by done. destruct Hd. exists i. apply Hm. eauto.
           ++ rewrite lookup_app_r in Hy by lia. apply list_lookup_singleton_Some in Hy as [Hi' _]. f_equal. lia.
      * rewrite lookup_insert_ne by done. rewrite (Hm x i). split.
        -- intros (y & Hy & <-). exists y. split; [by apply lookup_app_l_Some|done].
        -- intros (y & [Hy|[_ [_ ->]%list_lookup_singleton_Some] ]%lookup_app_Some & <-); [eauto|done].
Qed.

(** The parent of an index *)
Definition up_of ns (m : gmap Id nat) (i : nat) : option nat := n ← ns !! i ; p ← parent_id n ; m !! p.

(** The links of the first [k] nodes *)
Definition linked ns (m : gmap Id nat) (k : nat) (s : Links) : Prop :=
  length (l_parents s) = length ns ∧ length (l_children s) = length ns ∧
  (∀ i, (i < length ns)%nat → l_parents s !! i = Some (if decide (i < k)%nat then up_of ns m i else None)) ∧
  (∀ p, (p < length ns)%nat → l_children s !! p = Some (filter (λ i, up_of ns m i = Some p) (seq 0 k))) ∧
  l_roots s = filter (λ i, up_of ns m i = None) (seq 0 k).

Lemma filter_seq_snoc (P : nat → Prop) `{!∀ i, Decision (P i)} k :
  filter P (seq 0 (S k)) = filter P (seq 0 k) ++ (if decide (P k) then [k] else []).
Proof. rewrite seq_S, filter_app. simpl. unfold filter at 2. simpl. by case_decide. Qed.

Lemma linked_none ns m k s n :
  ns !! k = Some n → parent_id n = None → linked ns m k s →
  linked ns m (S k) {| l_parents := l_parents s; l_children := l_children s; l_roots := l_roots s ++ [k] |}.
Proof.
  intros Hk Hp (Hlp & Hlc & Hps & Hcs & Hr). assert (up_of ns m k = None) as Hu by (unfold up_of; by rewrite Hk; simpl; rewrite Hp).
  split_and!; cbn [l_parents l_children l_roots]; [done..| | |].
  - intros i Hi. rewrite Hps by done. do 2 case_decide; try lia; try done. assert (i = k) as -> by lia. by rewrite Hu.
  - intros p Hpl. rewrite Hcs by done. rewrite filter_seq_snoc, Hu. by rewrite decide_False, app_nil_r by done.
  - rewrite filter_seq_snoc, Hu, decide_True by done. by rewrite Hr.
Qed.
Lemma linked_some ns m k s n i p :
  maps_ids ns m → ns !! k = Some n → parent_id n = Some i → m !! i = Some p → linked ns m k s →
  ∃ s', link p k s = Ok s' ∧ linked ns m (S k) s'.
Proof.
  intros Hm Hk Hpar Hi (Hlp & Hlc & Hps & Hcs & Hr).
  assert (up_of ns m k = Some p) as Hu by (unfold up_of; by rewrite Hk; simpl; rewrite Hpar).
  assert (k < length ns)%nat as Hkl by by eapply lookup_lt_Some.
  assert (p < length ns)%nat as Hpl by (apply Hm in Hi as (x & Hx & _); by eapply lookup_lt_Some).
  unfold link. rewrite set_at_Ok by lia. simpl. rewrite (proj2 (at_Ok _ _ _) (Hcs p Hpl)). simpl.
  rewrite set_at_Ok by lia. eexists. split; [done|]. split_and!; cbn [l_parents l_children l_roots]; [by rewrite length_insert..| | |].
  - intros j Hj. destruct (decide (j = k)) as [->|Hne].
    + rewrite list_lookup_insert_eq by lia. by rewrite decide_True, Hu by lia.
    + rewrite list_lookup_insert_ne by done. rewrite Hps by done. do 2 case_decide; done || lia.
  - intros q Hq. rewrite filter_seq_snoc, Hu. destruct (decide (q = p)) as [->|Hne].
    + rewrite list_lookup_insert_eq by lia. by rewrite decide_True by done.
    + rewrite list_lookup_insert_ne by done. rewrite Hcs by done. by rewrite decide_False, app_nil_r by congruence.
  - rewrite filter_seq_snoc, Hu, decide_False, app_nil_r by done. done.
Qed.

Lemma link_nodes_spec ns m k s rest :
  maps_ids ns m → drop k ns = rest → (k + length rest = length ns)%nat → linked ns m k s →
  match link_nodes m k rest s with
  | Ok s' => linked ns m (length ns) s' ∧ ∀ n p, n ∈ rest → parent_id n = Some p → is_Some (m !! p)
  | Err (Fail MissingParent) => ∃ n p, n ∈ rest ∧ parent_id n = Some p ∧ m !! p = None
  | Err _ => False
  end.
Proof.
  intros Hm. revert k s. induction rest as [|n rest IH]; intros k s Hd Hlen Hs; simpl in *.
  { rewrite Nat.add_0_r in Hlen. subst k. split; [done|]. intros n p Hn. by apply elem_of_nil in Hn. }
  assert (ns !! k = Some n) as Hk by (rewrite <- (Nat.add_0_r k), <- lookup_drop; by rewrite Hd).
  assert (drop (S k) ns = rest) as Hd' by (rewrite <- Nat.add_1_r, <- drop_drop, Hd; done).
  destruct (parent_id n) as [i|] eqn:Hp.
  - destruct (m !! i) as [p|] eqn:Hi; simpl; [|exists n, i; split_and!; [by left|done..] ].
    destruct (linked_some ns m k s n i p) as (s' & Hl & Hs'); [done..|]. rewrite Hl. simpl.
    specialize (IH (S k) s' Hd' ltac:(lia) Hs'). destruct (link_nodes m (S k) rest s') as [s''|[| |[] ] ]; try done.
    + destruct IH as [? Ha]. split; [done|]. intros x q [->|Hx]%elem_of_cons Hq; [|eauto]. rewrite Hp in Hq. injection Hq as <-. eauto.
    + destruct IH as (x & q & ? & ? & ?). exists x, q. split_and!; [by right|done..].
  - pose proof (linked_none ns m k s n Hk Hp Hs) as Hs'. specialize (IH (S k) _ Hd' ltac:(lia) Hs').
    destruct (link_nodes m (S k) rest _) as [s''|[| |[] ] ]; try done.
    + destruct IH as [? Ha]. split; [done|]. intros x q [->|Hx]%elem_of_cons Hq; [congruence|eauto].
    + destruct IH as (x & q & ? & ? & ?). exists x, q. split_and!; [by right|done..].
Qed.
End Construction.

(** ** The walk *)

Section Walk.
Context (parents : list (option nat)).
Notation n := (length parents).
Definition up (i : nat) : option nat := mjoin (parents !! i).
Context (Hrange : ∀ i p, up i = Some p → (p < n)%nat).

Definition unseen (marks : list Z) : list Z := filter (λ m, m = 0) marks.

Lemma unseen_insert marks i v : v ≠ 0 → marks !! i = Some 0 → length (unseen marks) = S (length (unseen (<[i := v]> marks))).
Proof.
  intros Hv. revert i. induction marks as [|m marks IH]; intros [|i] Hi; simplify_eq/=.
  - unfold unseen. by rewrite filter_cons_False by done.
  - unfold unseen in *. rewrite !filter_cons. specialize (IH i Hi). case_decide; simpl; lia.
Qed.

(** Marks are 0, 1 exactly on the path, or 2 on what has a line to a root. *)
Definition marked (marks : list Z) (path : list nat) : Prop :=
  length marks = n ∧ (∀ i m, marks !! i = Some m → m = 0 ∨ m = 1 ∨ m = 2) ∧
  (∀ i, marks !! i = Some 1 ↔ i ∈ path) ∧
  (∀ i, marks !! i = Some 2 → ∃ l, line up i l).

(** Where the walk is, and how it got there *)
Definition walking (current : option nat) (path : list nat) : Prop :=
  match current with
  | Some c => (c < n)%nat ∧ ∀ i, i ∈ path → tc (child_index up) i c ∧ ((∃ l, line up c l) → ∃ l, line up i l)
  | None => ∀ i, i ∈ path → ∃ l, line up i l
  end.

Lemma walking_step c path marks :
  marked marks path → walking (Some c) path → marks !! c = Some 0 →
  marked (<[c := 1]> marks) (path ++ [c]) ∧ walking (up c) (path ++ [c]).
Proof.
  intros (Hl & Hv & H1 & H2) (Hc & Hw) Hm. split.
  - split_and!; [by rewrite length_insert|..].
    + intros i m [(-> & <- & _)|[_ Hi] ]%list_lookup_insert_Some; [lia|eauto].
    + intros i. rewrite list_lookup_insert_Some, elem_of_app, list_elem_of_singleton, <- H1.
      split; [intros [(-> & _)|[_ ?] ]; tauto|]. intros [Hi| ->]; [|left; split_and!; [done..|lia] ].
      destruct (decide (c = i)) as [->|?]; [left; split_and!; [done..|lia]|by right].
    + intros i [(_ & ? & _)|[_ Hi] ]%list_lookup_insert_Some; [done|eauto].
  - assert (∀ i, i ∈ path ++ [c] → i = c ∨ tc (child_index up) i c) as Hi.
    { intros i [Hi|Hi%list_elem_of_singleton]%elem_of_app; [right; by apply Hw|by left]. }
    assert ((∃ l, line up c l) → ∀ i, i ∈ path ++ [c] → ∃ l, line up i l) as Hline.
    { intros Hcl i [Hin|Hin%list_elem_of_singleton]%elem_of_app; [by apply Hw|by subst]. }
    unfold walking. destruct (up c) as [p|] eqn:Hu.
    + split; [by eapply Hrange|]. intros i Hin. split.
      * destruct (Hi i Hin) as [->|Ht]; [by apply tc_once|]. by eapply tc_r.
      * intros [l Hpl]. apply Hline; [|done]. exists (c :: l). by eapply line_step.
    + apply Hline. exists [c]. by apply line_root.
Qed.

Lemma walk_spec fuel current marks path :
  (length (unseen marks) < fuel)%nat → marked marks path → walking current path →
  match walk fuel parents current marks path with
  | Ok (marks', path') => marked marks' path' ∧ (∀ i, i ∈ path' → ∃ l, line up i l) ∧
      (∀ i, i ∈ path → i ∈ path') ∧ (∀ i, marks !! i = Some 2 → marks' !! i = Some 2) ∧
      (∀ c, current = Some c → c ∈ path' ∨ marks' !! c = Some 2)
  | Err (Fail Cycle) => ∃ i, tc (child_index up) i i
  | Err _ => False
  end.
Proof using Hrange.
  revert current marks path. induction fuel as [|fuel IH]; intros current marks path Hf Hm Hw; [lia|].
  destruct current as [c|]; [|simpl; split_and!; by auto]. cbn [walk].
  assert (is_Some (marks !! c)) as [m Hc] by (apply lookup_lt_is_Some; destruct Hm as [-> _]; apply Hw).
  rewrite (proj2 (at_Ok _ _ _) Hc). cbn [mbind result_bind]. destruct Hm as (Hl & Hv & H1 & H2) eqn:Hm0.
  destruct (Hv c m Hc) as [->|[->| ->] ]; simpl.
  - assert (c < n)%nat as Hcl by apply Hw. rewrite set_at_Ok by lia. simpl.
    assert (parents !! c = Some (up c)) as Hp.
    { unfold up. destruct (parents !! c) eqn:Hpc; [done|]. apply lookup_ge_None in Hpc. lia. }
    rewrite (proj2 (at_Ok _ _ _) Hp). simpl. destruct (walking_step c path marks Hm Hw Hc) as [Hm' Hw'].
    specialize (IH (up c) (<[c := 1]> marks) (path ++ [c])).
    rewrite (unseen_insert marks c 1) in Hf by done. specialize (IH ltac:(lia) Hm' Hw').
    destruct (walk fuel parents (up c) _ _) as [[marks' path']|[| |[] ] ]; try done.
    destruct IH as (? & ? & Hin & H2' & _). split_and!; [done..| | |].
    + intros i Hi. apply Hin. set_solver.
    + intros i Hi. apply H2'. rewrite list_lookup_insert_ne; [done|]. intros ->. congruence.
    + intros x [= ->]. left. apply Hin. set_solver.
  - exists c. by apply Hw, H1.
  - split_and!; [done| |done..|]; [|naive_solver]. intros i Hi. by apply Hw; [|apply H2].
Qed.

Lemma mark_path_spec path marks :
  (∀ i, i ∈ path → (i < length marks)%nat) →
  ∃ marks', mark_path path marks = Ok marks' ∧ length marks' = length marks ∧
    ∀ i, (i ∈ path → marks' !! i = Some 2) ∧ (i ∉ path → marks' !! i = marks !! i).
Proof.
  revert marks. induction path as [|c path IH]; intros marks Hp.
  { exists marks. split_and!; [done..|]. intros i. split; [by intros ?%elem_of_nil|done]. }
  cbn [mark_path]. rewrite set_at_Ok by (apply Hp; by left). simpl.
  destruct (IH (<[c := 2]> marks)) as (marks' & Hm & Hl & Hi); [intros i Hi; rewrite length_insert; apply Hp; by right|].
  rewrite length_insert in Hl. exists marks'. split_and!; [done..|]. intros i. destruct (Hi i) as [Hin Hout]. split.
  - intros Hc. destruct (decide (i ∈ path)) as [?|Hn]; [by apply Hin|]. rewrite Hout by done.
    apply elem_of_cons in Hc as [->|?]; [|done]. apply list_lookup_insert_eq. apply Hp. by left.
  - intros [Hne Hn]%not_elem_of_cons. rewrite Hout by done. by apply list_lookup_insert_ne.
Qed.

Lemma validate_from_spec starts marks :
  (∀ i, i ∈ starts → (i < n)%nat) → marked marks [] →
  match validate_from parents starts marks with
  | Ok marks' => marked marks' [] ∧ (∀ i, i ∈ starts → marks' !! i = Some 2) ∧ (∀ i, marks !! i = Some 2 → marks' !! i = Some 2)
  | Err (Fail Cycle) => ∃ i, tc (child_index up) i i
  | Err _ => False
  end.
Proof using Hrange.
  revert marks. induction starts as [|c starts IH]; intros marks Hs Hm; cbn [validate_from].
  { split_and!; [done| |done]. intros i Hi. by apply elem_of_nil in Hi. }
  assert (length (unseen marks) < S n)%nat as Hf.
  { destruct Hm as [<- _]. unfold unseen. pose proof (length_filter (λ m : Z, m = 0) marks). lia. }
  assert (walking (Some c) []) as Hw by (split; [apply Hs; by left|intros i Hi; by apply elem_of_nil in Hi]).
  pose proof (walk_spec (S n) (Some c) marks [] Hf Hm Hw) as Hwalk.
  destruct (walk (S n) parents (Some c) marks []) as [[marks1 path]|[| |[] ] ]; try done. cbn [mbind result_bind].
  destruct Hwalk as (Hm1 & Hline & _ & H12 & Hc). specialize (Hc c eq_refl).
  assert (∀ i, i ∈ path → (i < length marks1)%nat) as Hr.
  { intros i Hi. destruct Hm1 as (_ & _ & H1 & _). apply H1 in Hi. by eapply lookup_lt_Some. }
  destruct (mark_path_spec path marks1 Hr) as (marks2 & -> & Hl2 & Hi2). cbn [mbind result_bind].
  assert (∀ i, marks1 !! i = Some 2 → marks2 !! i = Some 2) as H23.
  { intros i Hi. destruct (Hi2 i) as [Hin Hout]. destruct (decide (i ∈ path)); [auto|]. by rewrite Hout. }
  assert (marked marks2 []) as Hm2.
  { destruct Hm1 as (Hl1 & Hv1 & H11 & H21). split_and!; [by rewrite Hl2|..].
    - intros i m Hi. destruct (Hi2 i) as [Hin Hout]. destruct (decide (i ∈ path)) as [Hp|Hp].
      + rewrite Hin in Hi by done. naive_solver.
      + rewrite Hout in Hi by done. eauto.
    - intros i. split; [|by intros ?%elem_of_nil]. intros Hi. destruct (Hi2 i) as [Hin Hout].
      destruct (decide (i ∈ path)) as [Hp|Hp]; [by rewrite Hin in Hi|]. rewrite Hout in Hi by done. by apply H11 in Hi.
    - intros i Hi. destruct (Hi2 i) as [Hin Hout]. destruct (decide (i ∈ path)) as [Hp|Hp]; [by apply Hline|].
      rewrite Hout in Hi by done. eauto. }
  specialize (IH marks2 ltac:(intros; apply Hs; by right) Hm2).
  destruct (validate_from parents starts marks2) as [marks3|[| |[] ] ]; try done. destruct IH as (Hm3 & Hs3 & H3).
  split_and!; [done| |auto]. intros i [->|Hi]%elem_of_cons; [|auto]. apply H3.
  destruct Hc as [Hc|Hc]; [|auto]. by apply Hi2.
Qed.
End Walk.

(** ** Valid histories *)

Section Valid.
Context {Node Id : Type} `{Countable Id} `{!HistoryNode Node Id}.
Implicit Types ns : list Node.

(** [x] names [y] as its parent. *)
Definition child_of ns (x y : Node) : Prop := x ∈ ns ∧ y ∈ ns ∧ parent_id x = Some (id_of y).

(** No identity twice, no parent that is not there, no node above itself *)
Definition forest ns : Prop :=
  NoDup (id_of <$> ns) ∧ (∀ x p, x ∈ ns → parent_id x = Some p → p ∈ id_of <$> ns) ∧ (∀ x, ¬ tc (child_of ns) x x).

(** An index of the nodes *)
Definition indexes ns (ix : BranchIndex Node Id) : Prop :=
  nodes ix = ns ∧ maps_ids ns (by_id ix) ∧ length (children ix) = length ns ∧
  (∀ p, (p < length ns)%nat → children ix !! p = Some (filter (λ i, up_of ns (by_id ix) i = Some p) (seq 0 (length ns)))) ∧
  roots ix = filter (λ i, up_of ns (by_id ix) i = None) (seq 0 (length ns)) ∧
  (∀ x p, x ∈ ns → parent_id x = Some p → is_Some (by_id ix !! p)) ∧
  (∀ i, (i < length ns)%nat → ∃ l, line (up_of ns (by_id ix)) i l).

Lemma up_of_Some ns m i p :
  maps_ids ns m → up_of ns m i = Some p ↔
  ∃ x y, ns !! i = Some x ∧ ns !! p = Some y ∧ parent_id x = Some (id_of y).
Proof.
  intros Hm. unfold up_of. split.
  - intros (x & Hx & (k & Hk & (y & Hy & Hid)%Hm)%bind_Some)%bind_Some. exists x, y. by rewrite Hid.
  - intros (x & y & Hx & Hy & Hp). rewrite Hx. simpl. rewrite Hp. simpl. apply Hm. eauto.
Qed.
Lemma up_of_range ns m i p : maps_ids ns m → up_of ns m i = Some p → (p < length ns)%nat.
Proof. intros Hm (x & y & _ & Hy & _)%up_of_Some; [|done]. by eapply lookup_lt_Some. Qed.

Lemma child_index_tc ns m i j x y :
  maps_ids ns m → ns !! i = Some x → ns !! j = Some y →
  tc (child_index (up_of ns m)) i j → tc (child_of ns) x y.
Proof.
  intros Hm Hx Hy Ht. revert x Hx. induction Ht as [i j Hij|i j k Hij Ht IH]; intros x Hx;
    apply (up_of_Some ns m) in Hij as (x' & z & Hx' & Hz & Hp); try done; simplify_eq.
  - apply tc_once. split_and!; [by eapply list_elem_of_lookup_2..|done].
  - eapply tc_l; [|by apply IH]. split_and!; [by eapply list_elem_of_lookup_2..|done].
Qed.
Lemma maps_ids_nodup ns m x y i j : maps_ids ns m → ns !! i = Some x → ns !! j = Some y → id_of x = id_of y → i = j.
Proof.
  intros Hm Hx Hy Hid. assert (m !! id_of x = Some i) as H1 by (apply Hm; eauto).
  assert (m !! id_of x = Some j) as H2 by (apply Hm; eauto). congruence.
Qed.
Lemma tc_child_index ns m x y :
  maps_ids ns m → tc (child_of ns) x y → ∃ i j, ns !! i = Some x ∧ ns !! j = Some y ∧ tc (child_index (up_of ns m)) i j.
Proof.
  intros Hm Ht. induction Ht as [x y (Hx & Hy & Hp)|x y z (Hx & Hy & Hp) Ht (j & k & Hj & Hk & IH)].
  - apply list_elem_of_lookup in Hx as [i Hi], Hy as [j Hj]. exists i, j. split_and!; [done..|]. apply tc_once.
    apply up_of_Some; eauto.
  - apply list_elem_of_lookup in Hx as [i Hi]. exists i, k. split_and!; [done..|]. eapply tc_l; [|exact IH].
    apply up_of_Some; eauto.
Qed.

(** Any sequence of nodes is either indexed or refused, for the first of the reasons that there
    are, in this order: too many nodes, an identity twice, a missing parent, a cycle. *)
Lemma branch_index_spec ns :
  match branch_index_new ns with
  | Ok ix => len ns ≤ MAX_DOCUMENT_PARTS ∧ forest ns ∧ indexes ns ix
  | Err (Fail NodeBudget) => MAX_DOCUMENT_PARTS < len ns
  | Err (Fail DuplicateId) => len ns ≤ MAX_DOCUMENT_PARTS ∧ ¬ NoDup (id_of <$> ns)
  | Err (Fail MissingParent) => len ns ≤ MAX_DOCUMENT_PARTS ∧ NoDup (id_of <$> ns) ∧
      ∃ x p, x ∈ ns ∧ parent_id x = Some p ∧ p ∉ id_of <$> ns
  | Err (Fail Cycle) => len ns ≤ MAX_DOCUMENT_PARTS ∧ NoDup (id_of <$> ns) ∧
      (∀ x p, x ∈ ns → parent_id x = Some p → p ∈ id_of <$> ns) ∧ ∃ x, tc (child_of ns) x x
  | Err _ => False
  end.
Proof.
  unfold branch_index_new, fail_if, reject_if. destruct (MAX_DOCUMENT_PARTS <? len ns) eqn:Hlen; bool_prop; [done|]. cbn [mbind result_bind].
  pose proof (insert_ids_spec [] ns ∅ (NoDup_nil_2) ltac:(by intros k i; rewrite lookup_empty; naive_solver)) as Hids.
  simpl length in Hids. destruct (insert_ids 0 ns ∅) as [m|[| |[] ] ]; try done. destruct Hids as [Hn Hm]. simpl app in *. cbn [mbind result_bind].
  set (s0 := {| l_parents := replicate (length ns) None; l_children := replicate (length ns) []; l_roots := [] |}).
  assert (linked ns m 0 s0) as Hs0.
  { split_and!; cbn [s0 l_parents l_children l_roots]; [by rewrite length_replicate..| | |done].
    - intros i Hi. rewrite lookup_replicate_2 by done. by destruct (decide _) as [?|?]; [lia|].
    - intros p Hp. by rewrite lookup_replicate_2. }
  pose proof (link_nodes_spec ns m 0 s0 ns Hm (drop_0 ns) eq_refl Hs0) as Hlink.
  assert (∀ p, m !! p = None → p ∉ id_of <$> ns) as Hmiss.
  { intros p Hp (x & -> & [i Hi]%list_elem_of_lookup)%list_elem_of_fmap.
    assert (m !! id_of x = Some i) by (apply Hm; eauto). congruence. }
  destruct (link_nodes m 0 ns s0) as [s|[| |[] ] ]; try done; cbn [mbind result_bind].
  2: { destruct Hlink as (x & p & ? & ? & ?). split_and!; [done..|]. exists x, p. eauto. }
  destruct Hlink as [(Hlp & Hlc & Hps & Hcs & Hr) Hpar].
  assert (∀ i, up (l_parents s) i = up_of ns m i) as Hup.
  { intros i. unfold up. destruct (decide (i < length ns)%nat) as [Hi|Hi]; [rewrite Hps, decide_True by done; done|].
    unfold up_of. rewrite !lookup_ge_None_2 by lia. done. }
  assert (∀ x p, x ∈ ns → parent_id x = Some p → p ∈ id_of <$> ns) as Hthere.
  { intros x p Hx Hp. destruct (Hpar x p Hx Hp) as [j (y & Hy & <-)%Hm]. by eapply list_elem_of_fmap_2, list_elem_of_lookup_2. }
  assert (marked (l_parents s) (replicate (length ns) 0) []) as Hm0.
  { split_and!; [by rewrite length_replicate, Hlp|..].
    - intros i x [-> _]%lookup_replicate. by left.
    - intros i. split; [by intros [? _]%lookup_replicate|by intros ?%elem_of_nil].
    - by intros i [? _]%lookup_replicate. }
  pose proof (validate_from_spec (l_parents s) ltac:(intros i p; rewrite Hup, Hlp; by apply up_of_range)
    (seq 0 (length ns)) (replicate (length ns) 0) ltac:(intros i Hi; rewrite Hlp; apply elem_of_seq in Hi; lia) Hm0) as Hval.
  destruct (validate_from _ _ _) as [marks|[| |[] ] ]; try done; cbn [mbind result_bind].
  2: { destruct Hval as [i Ht]. assert (tc (child_index (up_of ns m)) i i) as Ht'.
    { revert Ht. apply tc_congruence with (f := id). intros x y. unfold child_index. by rewrite Hup. }
    split_and!; [done..|]. assert (∃ x, ns !! i = Some x) as [x Hx].
    { inversion Ht' as [? ? Hij|? ? ? Hij _]; subst; apply (up_of_Some ns m _ _ Hm) in Hij as (x & ? & ? & _); eauto. }
    exists x. by eapply child_index_tc. }
  destruct Hval as (Hmk & Hall & _).
  assert (∀ i, (i < length ns)%nat → ∃ l, line (up_of ns m) i l) as Hline.
  { intros i Hi. destruct Hmk as (_ & _ & _ & H2). destruct (H2 i) as [l Hl]; [apply Hall, elem_of_seq; lia|].
    exists l. by eapply line_ext. }
  split_and!; [done|split_and!; [done..|] |split_and!; try done].
  intros x (i & j & Hi & Hj & Ht)%(tc_child_index ns m); [|done].
  assert (i = j) as -> by (eapply (maps_ids_nodup ns m); done).
  destruct (Hline j) as [l Hl]; [by eapply lookup_lt_Some|]. by eapply line_acyclic.
Qed.
End Valid.

(** ** The greatest *)

Lemma max_by_spec {A} (compare : A → A → comparison) `{!Ordering compare} (l : list A) y :
  max_by compare l = Some y →
  ∃ before after, l = before ++ y :: after ∧ Forall (λ z, compare z y ≠ Gt) before ∧ Forall (λ z, compare y z = Gt) after.
Proof.
  destruct l as [|x l]; [done|]. simpl. intros [= Hy]. revert y Hy.
  induction l as [|z l IH] using rev_ind; intros y Hy; simpl in Hy; [subst; by exists [], []|].
  rewrite foldl_app in Hy. simpl in Hy. destruct (IH _ eq_refl) as (b & a & Heq & Hb & Ha).
  rewrite app_comm_cons, Heq. clear Heq.
  set (c := foldl _ x l) in *. destruct (compare c z) eqn:Hc.
  3: { subst y. exists b, (a ++ [z]). rewrite <- (assoc_L (++)). split_and!; [done..|]. apply Forall_app. by repeat constructor. }
  all: subst y; exists (b ++ c :: a), []; split_and!; [done| |done]; assert (compare c z ≠ Gt) as Hle by congruence;
    apply Forall_app; split; [eapply Forall_impl; [done|]; intros w Hw; by apply (cmp_trans _ c)|];
    constructor; [done|]; eapply Forall_impl; [done|]; intros w Hw; apply (cmp_trans _ c); [|done];
    rewrite (cmp_antisym c w), Hw; done.
Qed.
Lemma max_by_None {A} (compare : A → A → comparison) (l : list A) : max_by compare l = None → l = [].
Proof. by destruct l. Qed.

(** ** Queries *)

Section Queries.
Context {Node Id : Type} `{Countable Id} `{!HistoryNode Node Id}.
Context (ns : list Node) (ix : BranchIndex Node Id) (Hix : indexes ns ix).
Notation m := (by_id ix).
Notation up := (up_of ns m).

Lemma node_spec k : match node ix k with
  | Ok x => ∃ i, m !! k = Some i ∧ ns !! i = Some x ∧ id_of x = k
  | Err (Fail MissingHead) => k ∉ id_of <$> ns
  | Err _ => False
  end.
Proof using Hix.
  destruct Hix as (Hn & Hm & _). unfold node. destruct (m !! k) as [i|] eqn:Hk; simpl.
  - apply Hm in Hk as (x & Hx & Hid). rewrite Hn, (proj2 (at_Ok _ _ _) Hx). by exists i.
  - intros (x & -> & [i Hi]%list_elem_of_lookup)%list_elem_of_fmap.
    assert (m !! id_of x = Some i) by (apply Hm; eauto). congruence.
Qed.

(** The nodes from a root down to one *)
Inductive ancestry : Node → list Node → Prop :=
| ancestry_root x : x ∈ ns → parent_id x = None → ancestry x [x]
| ancestry_step x y l : child_of ns x y → ancestry y l → ancestry x (l ++ [x]).

Lemma up_None i x : ns !! i = Some x → up i = None ↔ parent_id x = None.
Proof using Hix.
  destruct Hix as (_ & Hm & _ & _ & _ & Hpar & _). intros Hx. unfold up_of. rewrite Hx. simpl.
  destruct (parent_id x) as [p|] eqn:Hp; [|done]. destruct (Hpar x p) as [j Hj]; [by eapply list_elem_of_lookup_2|done|].
  simpl. by rewrite Hj.
Qed.

Lemma path_loop_spec i l x acc fuel :
  line up i l → ns !! i = Some x → (length l < fuel)%nat →
  ∃ p, path_loop ix fuel (Some (id_of x)) acc = Ok (p ++ reverse acc) ∧ ancestry x p.
Proof using Hix.
  destruct Hix as (Hn & Hm & _). intros Hl. revert x acc fuel. induction Hl as [i Hi|i j l Hi Hl IH]; intros x acc fuel Hx Hf;
    (destruct fuel as [|fuel]; [simpl in Hf; lia|]); cbn [path_loop];
    (assert (node ix (id_of x) = Ok x) as ->
       by (unfold node; rewrite (proj2 (Hm (id_of x) i)) by eauto; simpl; rewrite Hn; by apply at_Ok)); cbn [mbind result_bind].
  - apply (up_None i x) in Hi as Hp; [|done]. rewrite Hp. destruct fuel as [|fuel]; [simpl in Hf; lia|]. simpl.
    exists [x]. split; [by rewrite reverse_snoc|]. apply ancestry_root; [by eapply list_elem_of_lookup_2|done].
  - apply up_of_Some in Hi as (x' & y & Hx' & Hy & Hp); [|done]. simplify_eq. rewrite Hp.
    destruct (IH y (acc ++ [x']) fuel Hy ltac:(simpl in Hf; lia)) as (p & -> & Ha).
    exists (p ++ [x']). rewrite reverse_snoc, <- (assoc_L (++)). split; [done|]. eapply ancestry_step; [|done].
    split_and!; [by eapply list_elem_of_lookup_2..|done].
Qed.

Lemma path_spec k :
  match path ix (Some k) with
  | Ok l => ∃ x, id_of x = k ∧ ancestry x l
  | Err (Fail MissingHead) => k ∉ id_of <$> ns
  | Err _ => False
  end.
Proof using Hix.
  pose proof (node_spec k) as Hk. unfold path.
  destruct (node ix k) as [x|[| |[] ] ] eqn:Hnode; try done; [|cbn [path_loop]; by rewrite Hnode].
  destruct Hk as (i & _ & Hx & <-). destruct Hix as (Hn & Hm & _ & _ & _ & _ & Hline).
  assert (i < length ns)%nat as Hi by by eapply lookup_lt_Some. destruct (Hline i Hi) as [l Hl].
  assert (length l ≤ length ns)%nat as Hs by (eapply line_short; [|done..]; intros; by eapply up_of_range).
  destruct (path_loop_spec i l x [] (S (length (nodes ix))) Hl Hx) as (p & -> & Ha); [rewrite Hn; lia|].
  exists x. by rewrite app_nil_r.
Qed.

(** Children by index and by node *)
Lemma children_at i : (i < length ns)%nat →
  ∃ cs, children ix !! i = Some cs ∧ NoDup cs ∧ ∀ j, j ∈ cs ↔ up j = Some i.
Proof using Hix.
  intros Hi. destruct Hix as (_ & Hm & _ & Hcs & _). eexists. split; [by apply Hcs|]. split; [apply NoDup_filter, NoDup_seq|].
  intros j. rewrite list_elem_of_filter, elem_of_seq. split; [tauto|]. intros Hj. split; [done|].
  apply (up_of_Some ns m) in Hj as (x & _ & Hx & _); [|done]. apply lookup_lt_Some in Hx. lia.
Qed.

Lemma mapM_at (l : list nat) : (∀ j, j ∈ l → (j < length ns)%nat) →
  mapM (at_ (E:=HistoryError) (nodes ix)) l = Ok (omap (ns !!.) l).
Proof using Hix.
  destruct Hix as (Hn & _). rewrite Hn. induction l as [|j l IH]; intros Hl; [done|]. simpl.
  destruct (lookup_lt_is_Some_2 ns j) as [x Hx]; [apply Hl; by left|].
  rewrite (proj2 (at_Ok ns j x) Hx). simpl. rewrite IH by (intros; apply Hl; by right). by rewrite Hx.
Qed.

(** Filtering the indices is filtering the nodes. *)
Lemma omap_filter_seq (P : nat → Prop) (Q : Node → Prop) `{!∀ i, Decision (P i), !∀ x, Decision (Q x)} :
  (∀ i x, ns !! i = Some x → P i ↔ Q x) → omap (ns !!.) (filter P (seq 0 (length ns))) = filter Q ns.
Proof.
  clear Hix ix. induction ns as [|x k IH] using rev_ind; intros HPQ; [done|].
  rewrite length_app, Nat.add_comm. simpl length. rewrite seq_S, !filter_app, omap_app. f_equal.
  - rewrite <- IH.
    + apply list_omap_ext, Forall2_same_length_lookup_2; [done|]. intros i y z Hy Hz. simplify_eq.
      apply list_elem_of_lookup_2, list_elem_of_filter in Hy as [_ Hy%elem_of_seq]. by rewrite lookup_app_l by lia.
    + intros i y Hy. apply HPQ. by apply lookup_app_l_Some.
  - simpl. rewrite !filter_cons, !filter_nil. specialize (HPQ (length k) x).
    rewrite lookup_app_r, Nat.sub_diag in HPQ by done. specialize (HPQ eq_refl).
    do 2 case_decide; simpl; try tauto. by rewrite lookup_app_r, Nat.sub_diag by done.
Qed.

Lemma siblings_spec k :
  match siblings ix k with
  | Ok l => ∃ x, x ∈ ns ∧ id_of x = k ∧ l = filter (λ y, parent_id y = parent_id x) ns
  | Err (Fail MissingHead) => k ∉ id_of <$> ns
  | Err _ => False
  end.
Proof using Hix.
  pose proof (node_spec k) as Hk. unfold siblings. destruct (node ix k) as [x|[| |[] ] ]; try done. cbn [mbind result_bind].
  destruct Hk as (i & _ & Hx & Hid). pose proof Hix as (Hn & Hm & Hlc & Hcs & Hr & Hpar & _).
  assert (x ∈ ns) as Hin by by eapply list_elem_of_lookup_2.
  destruct (parent_id x) as [p|] eqn:Hp.
  - destruct (Hpar x p Hin Hp) as [j Hj]. rewrite Hj. simpl.
    assert (∃ y, ns !! j = Some y ∧ id_of y = p) as (y & Hy & Hyid) by by apply Hm.
    assert (j < length ns)%nat as Hjl by by eapply lookup_lt_Some.
    rewrite (proj2 (at_Ok _ _ _) (Hcs j Hjl)). simpl. rewrite mapM_at.
    + exists x. split_and!; [done..|]. apply omap_filter_seq. intros l z Hz. rewrite up_of_Some by done. rewrite Hp. split.
      * intros (z' & y' & ? & ? & Hpz). simplify_eq. done.
      * intros Hpz. exists z, y. split_and!; [done..|]. by rewrite Hyid.
    + intros l [_ Hl%elem_of_seq]%list_elem_of_filter. lia.
  - simpl. rewrite Hr, mapM_at.
    + exists x. split_and!; [done..|]. apply omap_filter_seq. intros l z Hz. rewrite Hp. by apply up_None.
    + intros l [_ Hl%elem_of_seq]%list_elem_of_filter. lia.
Qed.

(** ** The preferred leaf *)

(** [y] is the greatest child of [x], and the last of those. *)
Definition best_child (compare : Node → Node → comparison) (x y : Node) : Prop :=
  ∃ before after, filter (λ z, parent_id z = Some (id_of x)) ns = before ++ y :: after ∧
    Forall (λ z, compare z y ≠ Gt) before ∧ Forall (λ z, compare y z = Gt) after.
Inductive preferred (compare : Node → Node → comparison) : Node → Node → Prop :=
| preferred_leaf_here x : filter (λ z, parent_id z = Some (id_of x)) ns = [] → preferred compare x x
| preferred_below x y z : best_child compare x y → preferred compare y z → preferred compare x z.

Lemma candidates_spec i x cs :
  ns !! i = Some x → children ix !! i = Some cs →
  ∃ l, mapM (λ j, n ← at_ (E:=HistoryError) (nodes ix) j ; Ok (j, n)) cs = Ok l ∧
    (∀ j y, (j, y) ∈ l → ns !! j = Some y ∧ up j = Some i) ∧
    l.*2 = filter (λ z, parent_id z = Some (id_of x)) ns.
Proof using Hix.
  intros Hx Hcs. pose proof Hix as (Hn & Hm & _ & Hch & _). rewrite Hch in Hcs by by eapply lookup_lt_Some. injection Hcs as <-.
  set (cs := filter _ _).
  assert (∀ j, j ∈ cs → ∃ y, ns !! j = Some y ∧ up j = Some i) as Hin.
  { intros j [Hj Hl%elem_of_seq]%list_elem_of_filter. destruct (lookup_lt_is_Some_2 ns j) as [y Hy]; [lia|]. eauto. }
  assert (∀ k, (∀ j, j ∈ k → ∃ y, ns !! j = Some y ∧ up j = Some i) →
    ∃ l, mapM (λ j, n ← at_ (E:=HistoryError) (nodes ix) j ; Ok (j, n)) k = Ok l ∧
      (∀ j y, (j, y) ∈ l → ns !! j = Some y ∧ up j = Some i) ∧ l.*2 = omap (ns !!.) k) as Hgo.
  { induction k as [|j k IH]; intros Hk; [exists []; split_and!; [done| |done]; intros j y Hj; by apply elem_of_nil in Hj|].
    destruct (Hk j) as (y & Hy & Hu); [by left|]. destruct IH as (l & Hl & Hall & Hmap); [intros; apply Hk; by right|].
    exists ((j, y) :: l). simpl. rewrite Hn in Hl |- *. rewrite (proj2 (at_Ok ns j y) Hy). cbn [mbind result_bind]. rewrite Hl. split_and!; [done| |].
    - intros j' y' [[= -> ->]|Hj']%elem_of_cons; [done|]. by apply Hall.
    - rewrite Hy. f_equal. exact Hmap. }
  destruct (Hgo cs Hin) as (l & Hl & Hall & Hmap). exists l. split_and!; [done..|]. rewrite Hmap. apply omap_filter_seq.
  intros j y Hy. rewrite up_of_Some by done. split.
  - intros (y' & x' & ? & ? & Hp). by simplify_eq.
  - intros Hp. exists y, x. done.
Qed.

Lemma leaf_loop_spec compare `{!Ordering compare} fuel i x l :
  line up i l → ns !! i = Some x → (length ns < fuel + length l)%nat →
  ∃ z, leaf_loop ix fuel compare i = Ok z ∧ preferred compare x z.
Proof using Hix.
  pose proof Hix as (Hn & Hm & _). revert i x l. induction fuel as [|fuel IH]; intros i x l Hl Hx Hf.
  { exfalso. assert (length l ≤ length ns)%nat; [|lia]. eapply line_short; [intros; by eapply up_of_range| |done]. by eapply lookup_lt_Some. }
  cbn [leaf_loop]. destruct (children_at i) as (cs & Hcs & _); [by eapply lookup_lt_Some|].
  rewrite (proj2 (at_Ok _ _ _) Hcs). cbn [mbind result_bind].
  destruct (candidates_spec i x cs Hx Hcs) as (k & Hk & Hin & Hmap). rewrite Hk. cbn [mbind result_bind].
  destruct (max_by _ k) as [[j y]|] eqn:Hmax.
  - apply max_by_spec in Hmax as (b & a & -> & Hb & Ha); [|by apply (on_ordering snd)].
    destruct (Hin j y) as [Hy Hu]; [set_solver|].
    destruct (IH j y (j :: l)) as (z & Hz & Hp); [by eapply line_step|done|simpl; lia|].
    exists z. split; [done|]. eapply preferred_below; [|exact Hp].
    exists (b.*2), (a.*2). rewrite <- Hmap. split_and!; [by rewrite fmap_app, fmap_cons|by rewrite Forall_fmap..].
  - apply max_by_None in Hmax as ->. simpl in Hmap. exists x. split; [|by apply preferred_leaf_here].
    apply at_Ok. by rewrite Hn.
Qed.

Lemma preferred_leaf_spec compare `{!Ordering compare} k :
  match preferred_leaf ix k compare with
  | Ok z => ∃ x, x ∈ ns ∧ id_of x = k ∧ preferred compare x z
  | Err (Fail MissingHead) => k ∉ id_of <$> ns
  | Err _ => False
  end.
Proof using Hix.
  pose proof (node_spec k) as Hk. unfold preferred_leaf, node, need, ok_or in *. destruct (m !! k) as [i|]; cbn [mbind result_bind] in *; [|done].
  unfold at_ in Hk. destruct (nodes ix !! i) as [x|]; simpl in Hk; [|done]. destruct Hk as (j & [= <-] & Hx & Hid).
  pose proof Hix as (Hn & _ & _ & _ & _ & _ & Hline). destruct (Hline i) as [l Hl]; [by eapply lookup_lt_Some|].
  destruct (leaf_loop_spec compare (S (length (nodes ix))) i x l Hl Hx) as (z & -> & Hp); [rewrite Hn; lia|].
  exists x. split_and!; [by eapply list_elem_of_lookup_2|done..].
Qed.

(** ** Descendants *)

(** What the loop has collected and what it has still to visit *)
Definition descending (start : nat) (visited pending : list nat) : Prop :=
  NoDup (visited ++ pending) ∧ start ∈ visited ++ pending ∧
  (∀ i, i ∈ visited ++ pending → (i < length ns)%nat ∧ rtc (child_index up) i start) ∧
  (∀ i j, i ∈ visited → up j = Some i → j ∈ visited ++ pending) ∧
  (∀ i, i ∈ visited ++ pending → i = start ∨ ∃ p, up i = Some p ∧ p ∈ visited).

Lemma descending_step start visited i pending cs :
  descending start visited (i :: pending) → NoDup cs → (∀ j, j ∈ cs ↔ up j = Some i) →
  descending start (i :: visited) (reverse cs ++ pending).
Proof using Hix.
  intros (Hnd & Hst & Hin & Hch & Hup) Hcn Hcs. pose proof Hix as (_ & Hm & _ & _ & _ & _ & Hline).
  assert (i ∈ visited ++ i :: pending) as Hi by set_solver.
  assert ((i :: visited) ++ reverse cs ++ pending ≡ₚ cs ++ visited ++ i :: pending) as Hp.
  { rewrite reverse_Permutation. simpl. solve_Permutation. }
  assert (∀ j, j ∈ cs → j ∉ visited ++ i :: pending) as Hfresh.
  { intros j Hj%Hcs Hold. destruct (Hup j Hold) as [->|(p & Hpj & Hpv)].
    - destruct (Hin i Hi) as [Hil Hr]. destruct (Hline i Hil) as [l Hl]. apply (line_acyclic up i l Hl).
      eapply tc_rtc_l; [exact Hr|]. by apply tc_once.
    - assert (p = i) as -> by congruence. apply NoDup_app in Hnd as (_ & Hdis & _). apply (Hdis i Hpv). by left. }
  split_and!.
  - rewrite Hp. apply NoDup_app. split_and!; [done|done|done].
  - rewrite Hp. apply elem_of_app. by right.
  - intros j. rewrite Hp, elem_of_app. intros [Hj%Hcs|Hj]; [|by apply Hin]. split.
    + apply (up_of_Some ns m) in Hj as (x & _ & Hx & _); [|done]. by eapply lookup_lt_Some.
    + eapply rtc_l; [exact Hj|]. by apply Hin.
  - intros k j Hk Hj. rewrite Hp, elem_of_app. apply elem_of_cons in Hk as [->|Hk]; [left; by apply Hcs|right; by eapply Hch].
  - intros j. rewrite Hp, elem_of_app. intros [Hj%Hcs|Hj]; [right; exists i; split; [done|by left]|].
    destruct (Hup j Hj) as [?|(p & ? & ?)]; [by left|]. right. exists p. split; [done|by right].
Qed.

Lemma descend_spec fuel start visited pending (r : gset Id) :
  (length ns < fuel + length visited)%nat → descending start visited pending →
  (∀ k, k ∈ r ↔ ∃ i x, i ∈ visited ∧ ns !! i = Some x ∧ id_of x = k) →
  ∃ r', descend ix fuel pending r = Ok r' ∧ ∀ k, k ∈ r' ↔ ∃ i x, ns !! i = Some x ∧ id_of x = k ∧ rtc (child_index up) i start.
Proof using Hix.
  pose proof Hix as (Hn & Hm & _). revert visited pending r. induction fuel as [|fuel IH]; intros visited pending r Hf Hd Hr.
  { exfalso. assert (length visited ≤ length ns)%nat; [|lia]. rewrite <- (length_seq (length ns) 0). apply submseteq_length, NoDup_submseteq.
    - by destruct Hd as [[? _]%NoDup_app _].
    - intros i Hi. apply elem_of_seq. destruct Hd as (_ & _ & Hin & _). destruct (Hin i) as [? _]; [set_solver|lia]. }
  destruct pending as [|i pending]; cbn [descend].
  - exists r. split; [done|]. intros k. rewrite Hr. destruct Hd as (_ & Hst & Hin & Hch & _). rewrite app_nil_r in *. split.
    + intros (i & x & Hi & Hx & Hid). exists i, x. split_and!; [done..|]. by apply Hin.
    + intros (i & x & Hx & Hid & Ht). exists i, x. split_and!; [|done..]. clear - Ht Hst Hch.
      induction Ht as [|i j y Hij Ht IHt]; [done|]. apply (Hch j i); [by apply IHt|done].
  - assert (i < length ns)%nat as Hi by (destruct Hd as (_ & _ & Hin & _); apply Hin; set_solver).
    destruct (lookup_lt_is_Some_2 ns i Hi) as [x Hx]. rewrite Hn, (proj2 (at_Ok ns i x) Hx). cbn [mbind result_bind].
    destruct (children_at i Hi) as (cs & Hcs & Hcn & Hce). rewrite (proj2 (at_Ok _ _ _) Hcs). cbn [mbind result_bind].
    apply (IH (i :: visited)); [simpl; lia|by apply descending_step|].
    intros k. rewrite elem_of_union, elem_of_singleton, Hr. split.
    + intros [->|(j & y & ? & ? & ?)]; [exists i, x|exists j, y]; set_solver.
    + intros (j & y & [->|Hj]%elem_of_cons & Hy & Hid); [left; congruence|]. right. eauto.
Qed.

Lemma descendants_spec k :
  match descendants ix k with
  | Ok r => ∃ x, x ∈ ns ∧ id_of x = k ∧ ∀ d, d ∈ r ↔ ∃ y, y ∈ ns ∧ id_of y = d ∧ rtc (child_of ns) y x
  | Err (Fail MissingHead) => k ∉ id_of <$> ns
  | Err _ => False
  end.
Proof using Hix.
  pose proof (node_spec k) as Hk. unfold descendants, node, need, ok_or in *. destruct (m !! k) as [i|]; cbn [mbind result_bind] in *; [|done].
  unfold at_ in Hk. destruct (nodes ix !! i) as [x|]; simpl in Hk; [|done]. destruct Hk as (j & [= <-] & Hx & Hid). pose proof Hix as (Hn & Hm & _).
  destruct (descend_spec (S (length (nodes ix))) i [] [i] ∅) as (r & -> & Hr).
  - rewrite Hn. simpl. lia.
  - split_and!; simpl; [apply NoDup_singleton|by left|..].
    + intros j ->%list_elem_of_singleton. split; [by eapply lookup_lt_Some|done].
    + intros ? ? ?%elem_of_nil. done.
    + intros j ->%list_elem_of_singleton. by left.
  - intros d. split; [by intros ?%elem_of_empty|]. by intros (? & ? & ?%elem_of_nil & _).
  - exists x. split_and!; [by eapply list_elem_of_lookup_2|done|]. intros d. rewrite Hr. split.
    + intros (j & y & Hy & Hid' & Ht). exists y. split_and!; [by eapply list_elem_of_lookup_2|done|].
      apply rtc_tc in Ht as [->|Ht]; [simplify_eq; done|]. apply tc_rtc. by eapply child_index_tc.
    + intros (y & Hy & Hid' & Ht). apply rtc_tc in Ht as [->|Ht]; [exists i, x; done|].
      apply (tc_child_index ns m) in Ht as (j & j' & Hj & Hj' & Ht); [|done]. exists j, y. split_and!; [done..|].
      assert (j' = i) as -> by (eapply (maps_ids_nodup ns m); done). by apply tc_rtc.
Qed.
End Queries.

(** ** Theorems *)

Section Theorems.
Context {Node Id : Type} `{Countable Id} `{!HistoryNode Node Id}.
Implicit Types ns : list Node.

(** C30: The index of a history is built exactly for the forests of at most [MAX_DOCUMENT_PARTS]
    nodes, and every other history is refused with what is wrong with it: too many nodes, an
    identity twice, a parent that is not there, or a node that is above itself. The walk that
    looks for cycles ends and stays within its arrays. *)
Theorem history_accepts_forests ns :
  match branch_index_new ns with
  | Ok _ => len ns ≤ MAX_DOCUMENT_PARTS ∧ forest ns
  | Err (Fail NodeBudget) => MAX_DOCUMENT_PARTS < len ns
  | Err (Fail DuplicateId) => len ns ≤ MAX_DOCUMENT_PARTS ∧ ¬ NoDup (id_of <$> ns)
  | Err (Fail MissingParent) => len ns ≤ MAX_DOCUMENT_PARTS ∧ NoDup (id_of <$> ns) ∧
      ∃ x p, x ∈ ns ∧ parent_id x = Some p ∧ p ∉ id_of <$> ns
  | Err (Fail Cycle) => len ns ≤ MAX_DOCUMENT_PARTS ∧ NoDup (id_of <$> ns) ∧
      (∀ x p, x ∈ ns → parent_id x = Some p → p ∈ id_of <$> ns) ∧ ∃ x, tc (child_of ns) x x
  | Err _ => False
  end.
Proof. pose proof (branch_index_spec ns) as Hs. destruct (branch_index_new ns) as [ix|[| |[] ] ]; naive_solver. Qed.

(** C31: Every query on an indexed history returns, fails only for a node that is not there, and
    gives what it is named for: the path is the line of parents from a root down to the head,
    the siblings are the nodes with the same parent in their order, the preferred leaf is
    reached by the greatest children (the last of equals), and the descendants are the nodes
    that a line of parents leads from to the start. *)
Theorem history_queries_exact ns (ix : BranchIndex Node Id) :
  branch_index_new ns = Ok ix →
  path ix None = Ok [] ∧
  (∀ k, k ∉ id_of <$> ns → path ix (Some k) = Err (Fail MissingHead) ∧ siblings ix k = Err (Fail MissingHead) ∧
     descendants ix k = Err (Fail MissingHead) ∧ ∀ compare, preferred_leaf ix k compare = Err (Fail MissingHead)) ∧
  (∀ x, x ∈ ns →
     (∃ l, path ix (Some (id_of x)) = Ok l ∧ ancestry ns x l) ∧
     siblings ix (id_of x) = Ok (filter (λ y, parent_id y = parent_id x) ns) ∧
     (∃ r, descendants ix (id_of x) = Ok r ∧ ∀ d, d ∈ r ↔ ∃ y, y ∈ ns ∧ id_of y = d ∧ rtc (child_of ns) y x) ∧
     ∀ compare, Ordering compare → ∃ z, preferred_leaf ix (id_of x) compare = Ok z ∧ preferred ns compare x z).
Proof.
  intros Hnew. pose proof (branch_index_spec ns) as Hs. rewrite Hnew in Hs. destruct Hs as (_ & [Hnd _] & Hix).
  assert (∀ x y, x ∈ ns → y ∈ ns → id_of y = id_of x → y = x) as Hinj.
  { intros x y [i Hi]%list_elem_of_lookup [j Hj]%list_elem_of_lookup Hid. destruct Hix as (_ & Hm & _).
    assert (i = j) as -> by by eapply (maps_ids_nodup ns). congruence. }
  split_and!; [done| |].
  - intros k Hk. assert (by_id ix !! k = None) as Hnone.
    { destruct (by_id ix !! k) as [i|] eqn:Hi; [|done]. destruct Hk. destruct Hix as (_ & Hm & _).
      apply Hm in Hi as (x & Hx & <-). by eapply list_elem_of_fmap_2, list_elem_of_lookup_2. }
    unfold path, siblings, descendants, preferred_leaf, node. cbn [path_loop]. unfold node. by rewrite Hnone.
  - intros x Hx. assert (id_of x ∈ id_of <$> ns) as Hin by by apply list_elem_of_fmap_2.
    pose proof (path_spec ns ix Hix (id_of x)) as Hp. pose proof (siblings_spec ns ix Hix (id_of x)) as Hsib.
    pose proof (descendants_spec ns ix Hix (id_of x)) as Hd. split_and!.
    + destruct (path ix _) as [l|[| |[] ] ]; try done. destruct Hp as (y & Hid & Ha).
      exists l. split; [done|]. assert (y ∈ ns) as Hy by (destruct Ha as [|? ? ? [? _] ]; done). by rewrite <- (Hinj x y).
    + destruct (siblings ix _) as [l|[| |[] ] ]; try done. destruct Hsib as (y & Hy & Hid & ->). by rewrite (Hinj x y).
    + destruct (descendants ix _) as [r|[| |[] ] ]; try done. destruct Hd as (y & Hy & Hid & Hr). exists r.
      by rewrite <- (Hinj x y).
    + intros compare Hc. pose proof (preferred_leaf_spec ns ix Hix compare (id_of x)) as Hl.
      destruct (preferred_leaf ix _ _) as [z|[| |[] ] ]; try done. destruct Hl as (y & Hy & Hid & Hpf). exists z.
      by rewrite <- (Hinj x y).
Qed.
End Theorems.

(** ** Examples *)

#[local] Instance pair_node : HistoryNode (Z * option Z) Z := {| id_of := fst; parent_id := snd |}.
Definition small_history : list (Z * option Z) := [(1, None); (2, Some 1); (3, Some 1); (4, Some 2)].

Lemma history_queries_exact_witness : ∃ ix,
  branch_index_new small_history = Ok ix ∧
  (path ix (Some 4) ≫= λ l, Ok l.*1) = Ok [1; 2; 4] ∧
  siblings ix 2 = Ok [(2, Some 1); (3, Some 1)] ∧
  path ix (Some 9) = Err (Fail MissingHead) ∧
  preferred_leaf ix 1 (λ x y, x.1 ?= y.1) = Ok (3, Some 1).
Proof.
  eassert (branch_index_new small_history = Ok _) as Hnew by (vm_compute; reflexivity).
  eexists. split; [exact Hnew|]. destruct (history_queries_exact small_history _ Hnew) as (_ & Hno & Hq).
  split_and!; [by vm_compute| |apply Hno; by apply (bool_decide_unpack (¬ _)); vm_compute|by vm_compute].
  destruct (Hq (2, Some 1)) as (_ & Hs & _); [by apply (bool_decide_unpack _); vm_compute|]. exact Hs.
Defined.
