(* ===== verification/Projection.v ===== *)
(** * Projection: a document as its parts

    Models [workspace-document/src/projection.rs]: [Document], the exact text of a
    manuscript or a conversation as a sequence of parts with their sources, within the
    budgets, and its two renderings. A [&mut self] method is a method of the monad [SM]. *)

From S2P Require Import Prelude Bytes Text Utf8 Strings History.
Local Open Scope Z_scope.

Definition MAX_DOCUMENT_BYTES : Z := 128 * 1024 * 1024.

Inductive MessageRole := System | User | Assistant | Tool.
Definition label (r : MessageRole) : text :=
  match r with System => str "System" | User => str "User" | Assistant => str "Assistant" | Tool => str "Tool" end.
Inductive PartKind := PartText | Prose | Verse | Message (role : MessageRole).

Inductive DocumentError := ByteBudget | PartBudget | InvalidRange | InvalidUtf8.
#[export] Instance document_error_eq_dec : EqDecision DocumentError.
Proof. solve_decision. Defined.

Section Document.
Context {Source Metadata : Type}.

Record DocumentPart := {
  source : Source;
  source_range : Z * Z;
  part_text : text;
  kind : PartKind;
  metadata : Metadata;
}.
Record Document := { parts : list DocumentPart; byte_len : Z }.
Definition new : Document := {| parts := []; byte_len := 0 |}.
Definition is_empty (d : Document) : bool := bool_decide (length (parts d) = 0%nat).

Notation M := (SM Document DocumentError).

Definition check_capacity (additional : Z) : M Z :=
  d ← sm_get ;
  sm_reject_if (MAX_DOCUMENT_PARTS <=? len (parts d)) PartBudget ;;
  sm_lift (ok_or (length ← checked_add usize_max (byte_len d) additional ;
                  if length <=? MAX_DOCUMENT_BYTES then Some length else None) ByteBudget).

Definition push (s : Source) (range : Z * Z) (t : text) (k : PartKind) (m : Metadata) : M unit :=
  next_len ← check_capacity (str_len t) ;
  sm_modify (λ d, {| parts := parts d ++ [{| source := s; source_range := range; part_text := t; kind := k; metadata := m |}];
                     byte_len := next_len |}).

Definition push_text (s : Source) (t : text) (k : PartKind) (m : Metadata) : M unit :=
  end_ ← sm_lift (ok_or (try_from u64_max (str_len t)) ByteBudget) ;
  push s (0, end_) t k m.

Definition push_slice (s : Source) (bytes : list Z) (range : Z * Z) (k : PartKind) (m : Metadata) : M unit :=
  start ← sm_lift (ok_or (try_from usize_max range.1) InvalidRange) ;
  end_ ← sm_lift (ok_or (try_from usize_max range.2) InvalidRange) ;
  selected ← sm_lift (ok_or (get_slice bytes start end_) InvalidRange) ;
  _ ← check_capacity (len selected) ;
  t ← sm_lift (ok_or (from_utf8 selected) InvalidUtf8) ;
  push s range t k m.

Definition push_owned_part (s : Source) (range : Z * Z) (t : text) (k : PartKind) (m : Metadata) : M unit := push s range t k m.

(** [Document::text] *)
Definition document_text (d : Document) : text := foldl (λ result p, result ++ part_text p) [] (parts d).

Definition label_bytes (p : DocumentPart) : Z := match kind p with Message role => str_len (label role) + 4 | _ => 0 end.
(** One round of the fold that measures the rendering *)
Definition measure_part (length : Z) (index : nat) (p : DocumentPart) : result DocumentError Z :=
  ok_or (n ← checked_add usize_max length (if bool_decide (index = 0%nat) then 0 else 2) ;
         n ← checked_add usize_max n (label_bytes p) ;
         n ← checked_add usize_max n (str_len (part_text p)) ;
         if n <=? MAX_DOCUMENT_BYTES then Some n else None) ByteBudget.
Fixpoint measure_parts (length : Z) (index : nat) (ps : list DocumentPart) : result DocumentError Z :=
  match ps with
  | [] => Ok length
  | p :: ps => length ← measure_part length index p ; measure_parts length (S index) ps
  end.
Definition heading (p : DocumentPart) : text := match kind p with Message role => str "## " ++ label role ++ [10] | _ => [] end.
Fixpoint render_parts (result : text) (index : nat) (ps : list DocumentPart) : text :=
  match ps with
  | [] => result
  | p :: ps =>
    render_parts (result ++ (if bool_decide (0 < index)%nat then [10; 10] else []) ++ heading p ++ part_text p) (S index) ps
  end.
Definition transcript (d : Document) : result DocumentError text :=
  _ ← measure_parts 0 0 (parts d) ;
  Ok (render_parts [] 0 (parts d)).

(** ** The invariant *)

Definition text_bytes (ps : list DocumentPart) : Z := total ((λ p, str_len (part_text p)) <$> ps).
Definition document_ok (d : Document) : Prop :=
  byte_len d = text_bytes (parts d) ∧ byte_len d ≤ MAX_DOCUMENT_BYTES ∧ len (parts d) ≤ MAX_DOCUMENT_PARTS.

Lemma part_bytes_app l k : text_bytes (l ++ k) = text_bytes l + text_bytes k.
Proof. unfold text_bytes. by rewrite fmap_app, total_app. Qed.
Lemma text_bytes_nonneg l : 0 ≤ text_bytes l.
Proof.
  unfold text_bytes. induction l as [|p l IH]; [done|]. pose proof (str_len_nonneg (part_text p)).
  rewrite fmap_cons, total_cons. lia.
Qed.

Definition with_part (d : Document) (p : DocumentPart) : Document :=
  {| parts := parts d ++ [p]; byte_len := byte_len d + str_len (part_text p) |}.
(** There is room for another part of so many bytes. *)
Definition room (d : Document) (n : Z) : Prop := len (parts d) < MAX_DOCUMENT_PARTS ∧ byte_len d + n ≤ MAX_DOCUMENT_BYTES.
Definition no_room (d : Document) : DocumentError :=
  if MAX_DOCUMENT_PARTS <=? len (parts d) then PartBudget else ByteBudget.

Lemma check_capacity_spec d n : 0 ≤ n → document_ok d →
  check_capacity n d = if decide (room d n) then (Ok (byte_len d + n), d) else (Err (no_room d), d).
Proof.
  intros Hn (Hb & Hm & Hp). unfold check_capacity, room, no_room. sm_unfold.
  destruct (MAX_DOCUMENT_PARTS <=? len (parts d)) eqn:Hl; bool_prop; [by rewrite decide_False by lia|].
  unfold checked_add. assert (MAX_DOCUMENT_BYTES ≤ usize_max) by done.
  destruct (decide _) as [[_ Hr]|Hr].
  - rewrite (proj2 (Z.leb_le _ usize_max)) by lia. simpl. by rewrite (proj2 (Z.leb_le _ _) Hr).
  - destruct (byte_len d + n <=? usize_max); simpl; [|done]. destruct (_ <=? _) eqn:Hle; bool_prop; [lia|done].
Qed.

Lemma push_spec d s r t k m : document_ok d →
  let p := {| source := s; source_range := r; part_text := t; kind := k; metadata := m |} in
  push s r t k m d = (if decide (room d (str_len t)) then (Ok tt, with_part d p) else (Err (no_room d), d)) ∧
  (room d (str_len t) → document_ok (with_part d p)).
Proof.
  intros Hd p. split.
  - unfold push, mbind, sm_bind. rewrite check_capacity_spec by (done || apply str_len_nonneg). by destruct (decide _).
  - intros [Hp Hb]. destruct Hd as (Hl & _ & _). split_and!; simpl.
    + rewrite part_bytes_app, Hl. f_equal. unfold text_bytes, total. simpl. lia.
    + done.
    + rewrite len_app. unfold len at 2. simpl. lia.
Qed.

(** ** Renderings *)

Lemma document_text_flat d : document_text d = concat (part_text <$> parts d).
Proof.
  unfold document_text. assert (∀ ps acc, foldl (λ r (p : DocumentPart), r ++ part_text p) acc ps = acc ++ concat (part_text <$> ps)) as Hf.
  { induction ps as [|p ps IH]; intros acc; simpl; [by rewrite app_nil_r|]. rewrite IH. by rewrite <- (assoc_L (++)). }
  apply Hf.
Qed.
Lemma str_len_concat l : str_len (concat l) = total (str_len <$> l).
Proof. induction l as [|t l IH]; [done|]. simpl concat. rewrite str_len_app, IH. done. Qed.

(** One part as it is shown, and the parts with a blank line between any two *)
Definition shown (p : DocumentPart) : text := heading p ++ part_text p.
Definition rendering (ps : list DocumentPart) : text := join [10; 10] (shown <$> ps).

Definition shown_from (index : nat) (ps : list DocumentPart) : text :=
  if bool_decide (index = 0%nat) then rendering ps else concat ((λ p, [10; 10] ++ shown p) <$> ps).
Lemma shown_from_cons index p ps :
  shown_from index (p :: ps) = (if bool_decide (0 < index)%nat then [10; 10] else []) ++ shown p ++ shown_from (S index) ps.
Proof.
  unfold shown_from, rendering. destruct index as [|index]; [|done].
  assert (∀ q qs, join [10; 10] (q :: qs) = q ++ concat (([10; 10] ++.) <$> qs)) as Hj.
  { intros q qs. revert q. induction qs as [|x qs IH]; intros q; simpl; [by rewrite app_nil_r|]. f_equal. f_equal. f_equal. exact (IH x). }
  rewrite !bool_decide_eq_true_2, bool_decide_eq_false_2 by (done || lia). rewrite fmap_cons, Hj. simpl. f_equal. f_equal.
  by rewrite <- list_fmap_compose.
Qed.
Lemma render_parts_spec result index ps : render_parts result index ps = result ++ shown_from index ps.
Proof.
  revert result index. induction ps as [|p ps IH]; intros result index.
  - simpl. unfold shown_from. case_bool_decide; by rewrite app_nil_r.
  - cbn [render_parts]. rewrite IH, shown_from_cons. unfold shown. by rewrite <- !(assoc_L (++)).
Qed.

Lemma heading_len p : str_len (heading p) = label_bytes p.
Proof. unfold heading, label_bytes. destruct (kind p) as [| | |[] ]; done. Qed.
Lemma label_bytes_nonneg p : 0 ≤ label_bytes p.
Proof. rewrite <- heading_len. apply str_len_nonneg. Qed.

Lemma measure_parts_spec length index ps :
  0 ≤ length ≤ MAX_DOCUMENT_BYTES →
  measure_parts length index ps =
    if length + str_len (shown_from index ps) <=? MAX_DOCUMENT_BYTES then Ok (length + str_len (shown_from index ps)) else Err ByteBudget.
Proof.
  revert length index. induction ps as [|p ps IH]; intros length index Hl; cbn [measure_parts].
  { assert (shown_from index [] = []) as -> by (unfold shown_from; by case_bool_decide). simpl.
    rewrite Z.add_0_r. by rewrite (proj2 (Z.leb_le _ _)) by lia. }
  rewrite shown_from_cons. unfold shown. rewrite !str_len_app, heading_len.
  pose proof (label_bytes_nonneg p). pose proof (str_len_nonneg (part_text p)). pose proof (str_len_nonneg (shown_from (S index) ps)).
  set (sep := str_len (if bool_decide (0 < index)%nat then [10; 10] else [])).
  assert ((if bool_decide (index = 0%nat) then 0 else 2) = sep) as Hsep by (unfold sep; destruct index; done).
  assert (0 ≤ sep ≤ 2) as Hs by (unfold sep; case_bool_decide; simpl; unfold len_utf8; simpl; lia).
  unfold measure_part. rewrite Hsep. assert (MAX_DOCUMENT_BYTES * 2 ≤ usize_max) as Hm by done. assert (2 ≤ MAX_DOCUMENT_BYTES) by done.
  unfold checked_add. repeat (match goal with |- context [?a <=? usize_max] => destruct (a <=? usize_max) eqn:? end; bool_prop; simpl);
    try (rewrite (proj2 (Z.leb_gt _ _)) by lia; done).
  destruct (_ <=? MAX_DOCUMENT_BYTES) eqn:Hle at 1; simpl; bool_prop; [|by rewrite (proj2 (Z.leb_gt _ _)) by lia].
  rewrite IH by lia. by rewrite !Z.add_assoc.
Qed.

Lemma transcript_spec d :
  transcript d = if str_len (rendering (parts d)) <=? MAX_DOCUMENT_BYTES then Ok (rendering (parts d)) else Err ByteBudget.
Proof.
  unfold transcript. rewrite measure_parts_spec by done. change (shown_from 0 (parts d)) with (rendering (parts d)).
  rewrite Z.add_0_l. destruct (_ <=? _); [|done]. simpl. by rewrite render_parts_spec.
Qed.

(** ** Slices *)

Lemma push_slice_spec d s bytes a b k m :
  document_ok d → bytes_ok bytes → 0 ≤ a ≤ u64_max → 0 ≤ b ≤ u64_max →
  match push_slice s bytes (a, b) k m d with
  | (Ok _, d') => ∃ t, a ≤ b ≤ len bytes ∧ from_utf8 (sub_list bytes a b) = Some t ∧ document_ok d' ∧
      d' = with_part d {| source := s; source_range := (a, b); part_text := t; kind := k; metadata := m |}
  | (Err e, d') => d' = d ∧
      match e with
      | InvalidRange => ¬ a ≤ b ≤ len bytes
      | InvalidUtf8 => a ≤ b ≤ len bytes ∧ from_utf8 (sub_list bytes a b) = None
      | _ => a ≤ b ≤ len bytes ∧ ¬ room d (b - a) ∧ e = no_room d
      end
  end.
Proof.
  intros Hd Hok Ha Hb. unfold push_slice, mbind, sm_bind. cbn [fst snd].
  assert (∀ v, v ≤ u64_max → try_from usize_max v = Some v) as Ht by (intros v Hv; by apply try_from_Some).
  rewrite !Ht by lia. cbn [sm_lift ok_or]. destruct (get_slice bytes a b) as [l|] eqn:Hg; cbn [ok_or]; unfold sm_lift.
  2: { split; [done|]. intros Hr. assert (get_slice bytes a b = Some (sub_list bytes a b)) by by apply get_slice_Some. congruence. }
  apply get_slice_Some in Hg as [Hr ->]. assert (len (sub_list bytes a b) = b - a) as Hlen by (apply sub_list_len; lia).
  rewrite check_capacity_spec, Hlen by (done || lia). destruct (decide (room d (b - a))) as [Hroom|Hroom].
  2: { split; [done|]. unfold no_room in *. by destruct (_ <=? _). }
  destruct (from_utf8 (sub_list bytes a b)) as [t|] eqn:Hu; cbn [ok_or]; [|done].
  assert (str_len t = b - a) as Hst.
  { rewrite <- as_bytes_len. destruct (as_bytes_from_utf8 (sub_list bytes a b) t) as [_ ->]; [by apply sub_list_bytes|done..]. }
  destruct (push_spec d s (a, b) t k m Hd) as [-> Hwp]. rewrite Hst in *. rewrite decide_True by done. exists t. auto.
Qed.
Lemma push_text_spec d s t k m :
  document_ok d → str_len t ≤ u64_max →
  push_text s t k m d =
    if decide (room d (str_len t))
    then (Ok tt, with_part d {| source := s; source_range := (0, str_len t); part_text := t; kind := k; metadata := m |})
    else (Err (no_room d), d).
Proof.
  intros Hd Ht. unfold push_text, mbind, sm_bind. rewrite (proj2 (try_from_Some _ _ (str_len t))) by done. cbn [ok_or sm_lift].
  by destruct (push_spec d s (0, str_len t) t k m Hd) as [-> _].
Qed.

(** ** Theorem *)

(** A document holds exactly what was put into it. A part is appended with its source,
    its range, its kind and the text that the bytes of the range encode, or the document stays
    as it was and the error says which of range, encoding and budget is wrong. The text of the
    document is the texts of its parts, the transcript shows each part under its label with a
    blank line between any two, and is refused exactly if it is over the budget. *)
Theorem document_projection_exact d s bytes a b k m :
  document_ok d → bytes_ok bytes → 0 ≤ a ≤ u64_max → 0 ≤ b ≤ u64_max →
  match push_slice s bytes (a, b) k m d with
  | (Ok _, d') => ∃ t, a ≤ b ≤ len bytes ∧ from_utf8 (sub_list bytes a b) = Some t ∧ document_ok d' ∧
      parts d' = parts d ++ [{| source := s; source_range := (a, b); part_text := t; kind := k; metadata := m |}] ∧
      document_text d' = document_text d ++ t
  | (Err e, d') => d' = d ∧
      match e with
      | InvalidRange => ¬ a ≤ b ≤ len bytes
      | InvalidUtf8 => a ≤ b ≤ len bytes ∧ from_utf8 (sub_list bytes a b) = None
      | PartBudget => a ≤ b ≤ len bytes ∧ len (parts d) = MAX_DOCUMENT_PARTS
      | ByteBudget => a ≤ b ≤ len bytes ∧ MAX_DOCUMENT_BYTES < str_len (document_text d) + (b - a)
      end
  end ∧
  transcript d = (if str_len (rendering (parts d)) <=? MAX_DOCUMENT_BYTES then Ok (rendering (parts d)) else Err ByteBudget).
Proof.
  intros Hd Hok Ha Hb. split; [|apply transcript_spec].
  pose proof (push_slice_spec d s bytes a b k m Hd Hok Ha Hb) as Hs. destruct (push_slice _ _ _ _ _ d) as [[u|e] d'].
  - destruct Hs as (t & Hr & Hu & Hd' & ->). exists t. split_and!; try (done || lia).
    rewrite !document_text_flat. simpl. rewrite fmap_app, concat_app. simpl. by rewrite app_nil_r.
  - destruct Hs as [-> He]. split; [done|]. destruct Hd as (Hl & Hm & Hp). unfold room, no_room in He.
    assert (str_len (document_text d) = byte_len d) as Hlen by (rewrite document_text_flat, str_len_concat, Hl, <- list_fmap_compose; done).
    destruct e; try done; destruct He as (Hr & Hn & He); (destruct (_ <=? _) eqn:Hle in He; bool_prop; try discriminate He); split; try done; lia.
Qed.
End Document.
Arguments DocumentPart : clear implicits.
Arguments Document : clear implicits.

(** ** Examples *)

Definition one_part : Document Z unit :=
  {| parts := [{| source := 1; source_range := (0, 3); part_text := [97; 233]; kind := Message User; metadata := tt |}]; byte_len := 3 |}.

Lemma document_projection_exact_witness :
  push_slice 2 [97; 195; 169; 122] (1, 3) Verse tt one_part =
    (Ok tt, {| parts := parts one_part ++ [{| source := 2; source_range := (1, 3); part_text := [233]; kind := Verse; metadata := tt |}];
               byte_len := 5 |}) ∧
  (push_slice 2 [97; 195; 169; 122] (1, 2) Verse tt one_part).2 = one_part ∧
  transcript one_part = Ok (str "## User" ++ [10; 97; 233]).
Proof.
  assert (document_ok one_part) as Hd by by split_and!.
  assert (bytes_ok [97; 195; 169; 122]) as Hok by by apply (bool_decide_unpack _).
  split_and!; [by vm_compute| |].
  - destruct (document_projection_exact one_part 2 [97; 195; 169; 122] 1 2 Verse tt Hd Hok) as [H _]; [by split..|].
    revert H. vm_compute. by intros [_ _].
  - destruct (document_projection_exact one_part 2 [97; 195; 169; 122] 1 2 Verse tt Hd Hok) as [_ ->]; [by split..|]. by vm_compute.
Defined.
