(* ===== verification/ContextSelection.v ===== *)
(** * ContextSelection: which history fits into a context

    Models [workspace-document/src/context.rs]: [select_context] chooses how much of two
    histories goes with the mandatory input of a generation. The tokenizer of the caller is a
    state-passing argument; how often it is asked is counted. *)

From S2P Require Import Prelude Bytes History.
Local Open Scope Z_scope.

Definition MAX_CONTEXT_MEASUREMENTS : Z := 512.

Record ContextBudget := { source_tokens : Z; host_tokens : Z; context_tokens : Z; output_tokens : Z }.

(** A range is a pair of its ends. *)
Inductive ContextMeasure :=
| Source (range : Z * Z)
| Host (range : Z * Z)
| Complete (source host : Z * Z).

Record ContextSelection := {
  selected_source : Z * Z;
  selected_host : Z * Z;
  measured_prompt_tokens : Z;
  measurements : Z;
}.
Definition omitted_source_units (s : ContextSelection) : Z := (selected_source s).1.
Definition omitted_host_units (s : ContextSelection) : Z := (selected_host s).1.

Inductive ContextSelectionError (E : Type) :=
| InvalidBudget | UnitLimit | MeasurementLimit | Measurement (e : E) | MandatoryInputTooLarge.
Arguments InvalidBudget {E}.
Arguments UnitLimit {E}.
Arguments MeasurementLimit {E}.
Arguments Measurement {E} e.
Arguments MandatoryInputTooLarge {E}.

Section Select.
Context {St E : Type} (measure : ContextMeasure → St → result E Z * St).

(** The number of measurements made and the state of the tokenizer *)
Notation M := (SM (Z * St) (fault (ContextSelectionError E))).

Definition bounded_measure (request : ContextMeasure) : M Z := λ '(n, st),
  if MAX_CONTEXT_MEASUREMENTS <=? n then (Err (Fail MeasurementLimit), (n, st))
  else match measure request st with
       | (Ok tokens, st) => (Ok tokens, (n + 1, st))
       | (Err e, st) => (Err (Fail (Measurement e)), (n + 1, st))
       end.

(** [for start in (0..units).rev()]: [k] starts are left, [best] is the last that fitted. *)
Fixpoint suffix_loop (request : Z → ContextMeasure) (limit : Z) (k : nat) (best : Z) : M Z :=
  match k with
  | O => mret best
  | S k =>
    tokens ← bounded_measure (request (Z.of_nat k)) ;
    if limit <? tokens then mret best else suffix_loop request limit k (Z.of_nat k)
  end.
Definition suffix_start (request : Z → ContextMeasure) (limit units : Z) : M Z :=
  if negb (limit =? 0) then suffix_loop request limit (Z.to_nat units) units else mret units.

Definition fits (b : ContextBudget) (tokens : Z) : bool :=
  match checked_add usize_max tokens (output_tokens b) with Some n => n <=? context_tokens b | None => false end.

Fixpoint trim_loop (fuel : nat) (b : ContextBudget) (source_units host_units source_start host_start : Z) : M ContextSelection :=
  match fuel with
  | O => sm_throw OutOfFuel
  | S fuel =>
    tokens ← bounded_measure (Complete (source_start, source_units) (host_start, host_units)) ;
    if fits b tokens then
      s ← sm_get ;
      mret {| selected_source := (source_start, source_units); selected_host := (host_start, host_units);
              measured_prompt_tokens := tokens; measurements := s.1 |}
    else if host_start <? host_units then trim_loop fuel b source_units host_units source_start (host_start + 1)
    else if source_start <? source_units then trim_loop fuel b source_units host_units (source_start + 1) host_start
    else sm_throw (Fail MandatoryInputTooLarge)
  end.

Definition select_context (b : ContextBudget) (source_units host_units : Z) : M ContextSelection :=
  sm_reject_if ((context_tokens b =? 0) || (context_tokens b <=? output_tokens b)) (Fail InvalidBudget) ;;
  sm_reject_if match checked_add usize_max source_units host_units with
               | Some count => MAX_DOCUMENT_PARTS <? count
               | None => true
               end (Fail UnitLimit) ;;
  source_start ← suffix_start (λ start, Source (start, source_units)) (source_tokens b) source_units ;
  host_start ← suffix_start (λ start, Host (start, host_units)) (host_tokens b) host_units ;
  trim_loop (S (Z.to_nat (source_units + host_units))) b source_units host_units source_start host_start.

(** A run on a new counter *)
Definition run_select (b : ContextBudget) (source_units host_units : Z) (st : St) :
    result (fault (ContextSelectionError E)) ContextSelection * (Z * St) := select_context b source_units host_units (0, st).

(** ** What is selected, for a tokenizer whose answers depend on the request alone *)

Context (f : ContextMeasure → result E Z) (Hf : ∀ r st, (measure r st).1 = f r).

Lemma bounded_measure_spec r n st : 0 ≤ n ≤ MAX_CONTEXT_MEASUREMENTS →
  match bounded_measure r (n, st) with
  | (Ok t, (n', _)) => f r = Ok t ∧ 0 ≤ n' ≤ MAX_CONTEXT_MEASUREMENTS
  | (Err (Fail MeasurementLimit), (n', _)) => n' = MAX_CONTEXT_MEASUREMENTS
  | (Err (Fail (Measurement e)), (n', _)) => f r = Err e ∧ 0 ≤ n' ≤ MAX_CONTEXT_MEASUREMENTS
  | (Err _, _) => False
  end.
Proof using Hf.
  intros Hn. unfold bounded_measure. destruct (_ <=? n) eqn:Hle; bool_prop; [lia|]. specialize (Hf r st).
  destruct (measure r st) as [[t|e] st']; simpl in Hf; split; try done; lia.
Qed.

(** The longest suffix of which every shorter one fits too: it stops at the first that does not. *)
Definition greedy (request : Z → ContextMeasure) (limit units g : Z) : Prop :=
  0 ≤ g ≤ units ∧
  if bool_decide (limit = 0) then g = units
  else (∀ i, g ≤ i < units → ∃ t, f (request i) = Ok t ∧ t ≤ limit) ∧
       (g = 0 ∨ ∃ t, f (request (g - 1)) = Ok t ∧ limit < t).

(** The errors of a tokenizer and of the bound on its use *)
Definition failed (e : fault (ContextSelectionError E)) (n : Z) : Prop :=
  match e with
  | Fail MeasurementLimit => n = MAX_CONTEXT_MEASUREMENTS
  | Fail (Measurement e) => (∃ r, f r = Err e) ∧ 0 ≤ n ≤ MAX_CONTEXT_MEASUREMENTS
  | _ => False
  end.

Lemma suffix_loop_spec request limit k n st : 0 ≤ n ≤ MAX_CONTEXT_MEASUREMENTS →
  match suffix_loop request limit k (Z.of_nat k) (n, st) with
  | (Ok g, (n', _)) => 0 ≤ g ≤ Z.of_nat k ∧ 0 ≤ n' ≤ MAX_CONTEXT_MEASUREMENTS ∧
      (∀ i, g ≤ i < Z.of_nat k → ∃ t, f (request i) = Ok t ∧ t ≤ limit) ∧
      (g = 0 ∨ ∃ t, f (request (g - 1)) = Ok t ∧ limit < t)
  | (Err e, (n', _)) => failed e n'
  end.
Proof using Hf.
  revert n st. induction k as [|k IH]; intros n st Hn; cbn [suffix_loop].
  { simpl. split_and!; try done; lia. }
  pose proof (bounded_measure_spec (request (Z.of_nat k)) n st Hn) as Hm. unfold mbind, sm_bind.
  destruct (bounded_measure _ (n, st)) as [[t|[| |[] ] ] [n' st'] ]; try done; [|by destruct Hm; split; eauto].
  destruct Hm as [Ht Hn']. destruct (limit <? t) eqn:Hlt; bool_prop.
  - simpl. split_and!; try lia. right. exists t. by replace (Z.of_nat (S k) - 1) with (Z.of_nat k) by lia.
  - specialize (IH n' st' Hn'). destruct (suffix_loop _ _ k _ _) as [[g|e] [n'' st''] ]; [|done].
    destruct IH as (Hg & Hn'' & Hfit & Hstop). split_and!; [lia..| |done].
    intros i Hi. destruct (decide (i = Z.of_nat k)) as [->|]; [eauto|]. apply Hfit. lia.
Qed.
Lemma suffix_start_spec request limit units n st : 0 ≤ n ≤ MAX_CONTEXT_MEASUREMENTS → 0 ≤ units →
  match suffix_start request limit units (n, st) with
  | (Ok g, (n', _)) => 0 ≤ n' ≤ MAX_CONTEXT_MEASUREMENTS ∧ greedy request limit units g
  | (Err e, (n', _)) => failed e n'
  end.
Proof using Hf.
  intros Hn Hu. unfold suffix_start, greedy. destruct (limit =? 0) eqn:Hl; bool_prop; simpl.
  - rewrite bool_decide_eq_true_2 by done. split_and!; done || lia.
  - rewrite bool_decide_eq_false_2 by done. pose proof (suffix_loop_spec request limit (Z.to_nat units) n st Hn) as Hs.
    rewrite Z2Nat.id in Hs by done. destruct (suffix_loop _ _ _ _ _) as [[g|e] [n' st'] ]; naive_solver.
Qed.

(** The ranges after so many units are dropped: the oldest of the host first, then of the source *)
Definition trimmed (source_units host_units source_start host_start : Z) (k : nat) : (Z * Z) * (Z * Z) :=
  let d := host_units - host_start in
  if Z.of_nat k <=? d then ((source_start, source_units), (host_start + Z.of_nat k, host_units))
  else ((source_start + (Z.of_nat k - d), source_units), (host_units, host_units)).
Definition complete (ranges : (Z * Z) * (Z * Z)) : ContextMeasure := Complete ranges.1 ranges.2.
(** The request was measured and does not fit. *)
Definition too_large (b : ContextBudget) (r : ContextMeasure) : Prop := ∃ t, f r = Ok t ∧ fits b t = false.

Lemma trimmed_next su hu ss hs k :
  0 ≤ ss ≤ su → 0 ≤ hs ≤ hu → (k ≤ Z.to_nat (su - ss + (hu - hs)))%nat →
  let r := trimmed su hu ss hs k in let r' := trimmed su hu ss hs (S k) in
  r.1 = (r.1.1, su) ∧ r.2 = (r.2.1, hu) ∧
  if r.2.1 <? hu then r'.1.1 = r.1.1 ∧ r'.2.1 = r.2.1 + 1 ∧ (S k ≤ Z.to_nat (su - ss + (hu - hs)))%nat
  else if r.1.1 <? su then r'.1.1 = r.1.1 + 1 ∧ r'.2.1 = r.2.1 ∧ (S k ≤ Z.to_nat (su - ss + (hu - hs)))%nat
  else k = Z.to_nat (su - ss + (hu - hs)).
Proof.
  intros Hss Hhs Hk. unfold trimmed. cbv zeta.
  destruct (Z.of_nat k <=? hu - hs) eqn:H1, (Z.of_nat (S k) <=? hu - hs) eqn:H2; bool_prop; simpl;
    (split_and!; [done..|]); repeat (case_match; bool_prop); lia.
Qed.

Lemma trim_loop_spec b su hu ss hs fuel k n st :
  0 ≤ n ≤ MAX_CONTEXT_MEASUREMENTS → 0 ≤ ss ≤ su → 0 ≤ hs ≤ hu →
  (k ≤ Z.to_nat (su - ss + (hu - hs)))%nat → (Z.to_nat (su - ss + (hu - hs)) < fuel + k)%nat →
  (∀ j, (j < k)%nat → too_large b (complete (trimmed su hu ss hs j))) →
  let r := trimmed su hu ss hs k in
  match trim_loop fuel b su hu r.1.1 r.2.1 (n, st) with
  | (Ok sel, (n', _)) => ∃ i, let r := trimmed su hu ss hs i in
      (∀ j, (j < i)%nat → too_large b (complete (trimmed su hu ss hs j))) ∧
      f (complete r) = Ok (measured_prompt_tokens sel) ∧ fits b (measured_prompt_tokens sel) = true ∧
      selected_source sel = r.1 ∧ selected_host sel = r.2 ∧ (i ≤ Z.to_nat (su - ss + (hu - hs)))%nat ∧
      measurements sel = n' ∧ 0 ≤ n' ≤ MAX_CONTEXT_MEASUREMENTS
  | (Err (Fail MandatoryInputTooLarge), (n', _)) =>
      (∀ j, (j ≤ Z.to_nat (su - ss + (hu - hs)))%nat → too_large b (complete (trimmed su hu ss hs j))) ∧ 0 ≤ n' ≤ MAX_CONTEXT_MEASUREMENTS
  | (Err e, (n', _)) => failed e n'
  end.
Proof using Hf.
  revert k n st. induction fuel as [|fuel IH]; intros k n st Hn Hss Hhs Hk Hfuel Hlarge; [lia|]. cbv zeta. cbn [trim_loop].
  destruct (trimmed_next su hu ss hs k Hss Hhs Hk) as (Hr1 & Hr2 & Hnext). set (r := trimmed su hu ss hs k) in *.
  assert (Complete (r.1.1, su) (r.2.1, hu) = complete r) as -> by (unfold complete; by rewrite <- Hr1, <- Hr2).
  pose proof (bounded_measure_spec (complete r) n st Hn) as Hm. unfold mbind, sm_bind.
  destruct (bounded_measure _ (n, st)) as [[t|[| |[] ] ] [n' st'] ]; try done; [|by destruct Hm; split; eauto].
  destruct Hm as [Ht Hn']. destruct (fits b t) eqn:Hfit; [simpl; exists k; rewrite <- Hr1, <- Hr2; split_and!; done || lia|].
  assert (∀ j, (j < S k)%nat → too_large b (complete (trimmed su hu ss hs j))) as Hlarge'.
  { intros j Hj. destruct (decide (j = k)) as [->|]; [by exists t|]. apply Hlarge. lia. }
  destruct (r.2.1 <? hu); [|destruct (r.1.1 <? su)].
  1, 2: destruct Hnext as (<- & <- & Hk'); apply IH; done || lia.
  simpl. split; [|done]. intros j Hj. apply Hlarge'. lia.
Qed.

(** C33: The selection ends with at most [MAX_CONTEXT_MEASUREMENTS] measurements and never
    splits a unit. It takes, of each history, the recent suffix up to the first that is over
    its own budget (none of it, without measuring, if the budget is zero), and then drops the
    oldest units, first of the host and then of the source, until the complete input as it is
    measured leaves room for the output; it takes the first such choice and reports what was
    measured for it. It fails only for the reason it gives: a bad budget or too many units,
    before anything is measured, an error of the tokenizer, the bound on the measurements, or
    mandatory input that does not fit with any choice. *)
Theorem context_selection_exact b source_units host_units st :
  0 ≤ output_tokens b → 0 ≤ source_units → 0 ≤ host_units →
  match run_select b source_units host_units st with
  | (Ok sel, (n, _)) =>
      output_tokens b < context_tokens b ∧ source_units + host_units ≤ MAX_DOCUMENT_PARTS ∧
      ∃ ss hs k, let choice := trimmed source_units host_units ss hs in
      greedy (λ i, Source (i, source_units)) (source_tokens b) source_units ss ∧
      greedy (λ i, Host (i, host_units)) (host_tokens b) host_units hs ∧
      (k ≤ Z.to_nat (source_units - ss + (host_units - hs)))%nat ∧
      (selected_source sel, selected_host sel) = choice k ∧
      f (complete (choice k)) = Ok (measured_prompt_tokens sel) ∧
      measured_prompt_tokens sel + output_tokens b ≤ context_tokens b ∧
      (∀ j, (j < k)%nat → too_large b (complete (choice j))) ∧
      measurements sel = n ∧ n ≤ MAX_CONTEXT_MEASUREMENTS
  | (Err (Fail MandatoryInputTooLarge), (n, _)) =>
      too_large b (Complete (source_units, source_units) (host_units, host_units)) ∧ n ≤ MAX_CONTEXT_MEASUREMENTS
  | (Err (Fail InvalidBudget), s) => context_tokens b ≤ output_tokens b ∧ s = (0, st)
  | (Err (Fail UnitLimit), s) => MAX_DOCUMENT_PARTS < source_units + host_units ∧ s = (0, st)
  | (Err e, (n, _)) => failed e n
  end.
Proof using Hf.
  intros Ho Hsu Hhu. unfold run_select, select_context. unfold mbind, sm_bind, sm_reject_if, reject_if, sm_lift.
  destruct (_ || _) eqn:Hb; bool_prop; [simpl; split; [|done]; destruct Hb; bool_prop; lia|].
  assert (match checked_add usize_max source_units host_units with Some count => MAX_DOCUMENT_PARTS <? count | None => true end
    = (MAX_DOCUMENT_PARTS <? source_units + host_units)) as ->.
  { unfold checked_add. destruct (source_units + host_units <=? usize_max) eqn:Hle; [done|]; bool_prop. symmetry. apply Z.ltb_lt. assert (MAX_DOCUMENT_PARTS < usize_max) by done. lia. }
  destruct (MAX_DOCUMENT_PARTS <? _) eqn:Hu; bool_prop; [simpl; done|].
  pose proof (suffix_start_spec (λ i, Source (i, source_units)) (source_tokens b) source_units 0 st ltac:(done) Hsu) as Hs.
  destruct (suffix_start _ (source_tokens b) _ _) as [[ss|e] [n1 st1] ]; [|by destruct e as [| |[] ]].
  destruct Hs as [Hn1 Hgs]. assert (0 ≤ ss ≤ source_units) as Hss by apply Hgs.
  pose proof (suffix_start_spec (λ i, Host (i, host_units)) (host_tokens b) host_units n1 st1 Hn1 Hhu) as Hh.
  destruct (suffix_start _ (host_tokens b) _ _) as [[hs|e] [n2 st2] ]; [|by destruct e as [| |[] ]].
  destruct Hh as [Hn2 Hgh]. assert (0 ≤ hs ≤ host_units) as Hhs by apply Hgh.
  pose proof (trim_loop_spec b source_units host_units ss hs (S (Z.to_nat (source_units + host_units))) 0 n2 st2 Hn2 Hss Hhs
    ltac:(lia) ltac:(lia) ltac:(intros; lia)) as Ht.
  assert (trimmed source_units host_units ss hs 0 = ((ss, source_units), (hs, host_units))) as Ht0.
  { unfold trimmed. rewrite (proj2 (Z.leb_le _ _)) by lia. by rewrite Z.add_0_r. }
  cbv zeta in Ht. rewrite Ht0 in Ht. cbn [fst snd] in Ht.
  destruct (trim_loop _ _ _ _ _ _ _) as [[sel|e] [n st'] ].
  - destruct Ht as (k & Hlarge & Hm & Hfit & Hr1 & Hr2 & Hk & Hn & Hn'). split_and!; [lia..|]. exists ss, hs, k.
    split_and!; try done; [rewrite Hr1, Hr2; by destruct (trimmed _ _ _ _ _)| |lia].
    unfold fits in Hfit. destruct (checked_add _ _ _) eqn:Hc; [|done]. apply checked_add_Some in Hc. bool_prop. lia.
  - destruct e as [| |[] ]; try done. destruct Ht as [Hall ?]. split; [|lia].
    specialize (Hall _ (le_n _)). unfold trimmed in Hall. case_match eqn:Hle; bool_prop.
    + assert (ss = source_units) as -> by lia. unfold complete in Hall. simpl in Hall.
      by replace (hs + Z.of_nat (Z.to_nat (source_units - source_units + (host_units - hs)))) with host_units in Hall by lia.
    + unfold complete in Hall. simpl in Hall.
      by replace (ss + (Z.of_nat (Z.to_nat (source_units - ss + (host_units - hs))) - (host_units - hs))) with source_units in Hall by lia.
Qed.
End Select.

(** ** Examples *)

(** The tokenizer of the tests: ten tokens for a unit, twenty for the rest *)
Definition range_len (r : Z * Z) : Z := r.2 - r.1.
Definition cost (r : ContextMeasure) : result unit Z :=
  Ok match r with
     | Source r | Host r => range_len r * 10
     | Complete s h => 20 + (range_len s + range_len h) * 10
     end.
Definition example_budget : ContextBudget := {| source_tokens := 50; host_tokens := 50; context_tokens := 100; output_tokens := 10 |}.

Lemma context_selection_exact_witness : ∃ sel n,
  run_select (λ r (_ : unit), (cost r, tt)) example_budget 8 7 tt = (Ok sel, (n, tt)) ∧
  selected_source sel = (3, 8) ∧ selected_host sel = (5, 7) ∧ n ≤ MAX_CONTEXT_MEASUREMENTS.
Proof.
  eassert (run_select (λ r (_ : unit), (cost r, tt)) example_budget 8 7 tt = (Ok _, (_, tt))) as Hr by (vm_compute; reflexivity).
  pose proof (context_selection_exact (λ r (_ : unit), (cost r, tt)) cost (λ _ _, eq_refl) example_budget 8 7 tt
    ltac:(vm_compute; discriminate) ltac:(done) ltac:(done)) as H. rewrite Hr in H.
  destruct H as (_ & _ & ss & hs & k & _ & _ & _ & _ & _ & _ & _ & _ & Hn). eexists _, _. split; [exact Hr|].
  split; [reflexivity|]. split; [reflexivity|]. exact Hn.
Defined.
