(* ===== verification/Snapshot.v ===== *)
(** * Snapshot: the durable form of a document

    Models [workspace-document/src/snapshot.rs]: [DocumentSnapshot], its validation, and
    [resolve], which turns it into a [Document]. The JSON encoder of serde is an argument: the
    chunks that it writes for a value, if it can encode it. The callback of [resolve] that
    gets the bytes of a source is a state-passing argument. *)

From S2P Require Import Prelude Bytes Text Utf8 History Projection.
Local Open Scope Z_scope.

Definition SCHEMA_VERSION : Z := 1.

Inductive SourceKind := FromMessage | FromArtifact.
Record SourceReference := { ref_kind : SourceKind; occurrence_id : text; start_byte : Z; end_byte : Z }.
Record RevisionLineage := { revision_id : text; parent_revision_id : option text }.
Record SourceLineage := { lineage_document_id : text; lineage_part_id : option text }.
Record DocumentLineage := { revision : option RevisionLineage; lineage_source : option SourceLineage }.
Inductive PartContent := Inline (t : text) | FromSource.
Inductive DocumentSelection := Sequence | Branch (head : text) | LatestBranch.

Inductive SnapshotError :=
| Metadata | Schema | Identity | Lineage | SourceRange | Content (e : DocumentError) | HistoryFailed (e : HistoryError).

(** [validate_id] *)
Definition validate_id (id : text) : parse SnapshotError unit :=
  fail_if (bool_decide (id = []) || (512 <? str_len id) || existsb is_control id) Identity.

(** [MetadataBudget]: what serde has written so far *)
Definition METADATA_LIMIT : Z := 16 * 1024 * 1024.
Definition write (written : Z) (chunk : list Z) : parse SnapshotError Z :=
  need (length ← checked_add usize_max written (len chunk) ; if length <=? METADATA_LIMIT then Some length else None) Metadata.
Fixpoint write_chunks (written : Z) (chunks : list (list Z)) : parse SnapshotError Z :=
  match chunks with
  | [] => Ok written
  | c :: chunks => written ← write written c ; write_chunks written chunks
  end.
Definition to_writer (written : Z) (encoding : option (list (list Z))) : parse SnapshotError Z :=
  chunks ← need encoding Metadata ; write_chunks written chunks.

Section Snapshot.
Context {Header Meta : Type}.

Record SnapshotPart := {
  s_id : text;
  s_parent_id : option text;
  s_kind : PartKind;
  s_source : SourceReference;
  s_content : PartContent;
  s_metadata : Meta;
}.
#[export] Instance snapshot_part_node : HistoryNode SnapshotPart text := {| id_of := s_id; parent_id := s_parent_id |}.

Record DocumentSnapshot := {
  schema_version : Z;
  document_id : text;
  selection : DocumentSelection;
  lineage : DocumentLineage;
  header : Header;
  snapshot_parts : list SnapshotPart;
}.

Context (json_header : Header → option (list (list Z))) (json_metadata : Meta → option (list (list Z))).

Definition validate_lineage (l : DocumentLineage) : parse SnapshotError unit :=
  match revision l with
  | Some r =>
    validate_id (revision_id r) ;;
    match parent_revision_id r with
    | Some parent => validate_id parent ;; fail_if (bool_decide (parent = revision_id r)) Lineage
    | None => Ok tt
    end
  | None => Ok tt
  end ;;
  match lineage_source l with
  | Some s => validate_id (lineage_document_id s) ;; match lineage_part_id s with Some part => validate_id part | None => Ok tt end
  | None => Ok tt
  end.

(** The number of bytes of a source range, and that of an inline text *)
Definition range_bytes (p : SnapshotPart) : parse SnapshotError Z :=
  bytes ← need (checked_sub (end_byte (s_source p)) (start_byte (s_source p))) SourceRange ;
  fail_if match s_content p with Inline t => bool_decide (try_from u64_max (str_len t) ≠ Some bytes) | FromSource => false end SourceRange ;;
  Ok bytes.
Fixpoint validate_parts (ps : list SnapshotPart) (written length : Z) : parse SnapshotError unit :=
  match ps with
  | [] => Ok tt
  | p :: ps =>
    written ← to_writer written (json_metadata (s_metadata p)) ;
    validate_id (s_id p) ;;
    validate_id (occurrence_id (s_source p)) ;;
    bytes ← range_bytes p ;
    length ← need (n ← checked_add u64_max length bytes ; if n <=? MAX_DOCUMENT_BYTES then Some n else None) (Content ByteBudget) ;
    validate_parts ps written length
  end.

Definition validate (s : DocumentSnapshot) : parse SnapshotError unit :=
  fail_if (negb (schema_version s =? SCHEMA_VERSION)) Schema ;;
  validate_id (document_id s) ;;
  validate_lineage (lineage s) ;;
  index ← map_fault HistoryFailed (branch_index_new (snapshot_parts s)) ;
  match selection s with
  | Branch head => _ ← map_fault HistoryFailed (path index (Some head)) ; Ok tt
  | _ => Ok tt
  end ;;
  written ← to_writer 0 (json_header (header s)) ;
  validate_parts (snapshot_parts s) written 0.

(** [DocumentSnapshot::new]; a decoded snapshot is validated in the same way. *)
Definition snapshot_new (document_id : text) (selection : DocumentSelection) (lineage : DocumentLineage) (header : Header)
    (ps : list SnapshotPart) : parse SnapshotError DocumentSnapshot :=
  let s := {| schema_version := SCHEMA_VERSION; document_id := document_id; selection := selection; lineage := lineage;
              header := header; snapshot_parts := ps |} in
  validate s ;; Ok s.
Definition from_stored (s : DocumentSnapshot) : parse SnapshotError DocumentSnapshot := validate s ;; Ok s.

(** ** [resolve] *)

Section Resolve.
Context {St E : Type} (get_source : SourceReference → St → result E (list Z) * St) (from_snapshot : SnapshotError → E).
Notation Doc := (Document SourceReference Meta).
Notation M := (SM St (fault E)).

Definition lift_parse {A} (r : parse SnapshotError A) : M A := sm_lift (map_fault from_snapshot r).
(** A [&mut self] method on the document; its error is converted. *)
Definition on_document (m : SM Doc DocumentError unit) (d : Doc) : M Doc :=
  match m d with
  | (Ok _, d) => mret d
  | (Err e, _) => sm_throw (Fail (from_snapshot (Content e)))
  end.
Definition resolve_part (d : Doc) (p : SnapshotPart) : M Doc :=
  let range := (start_byte (s_source p), end_byte (s_source p)) in
  match s_content p with
  | Inline t => on_document (push_owned_part (s_source p) range t (s_kind p) (s_metadata p)) d
  | FromSource =>
    bytes ← (λ st, match get_source (s_source p) st with
                   | (Ok bytes, st) => (Ok bytes, st)
                   | (Err e, st) => (Err (Fail e), st)
                   end) ;
    on_document (push_slice (s_source p) bytes range (s_kind p) (s_metadata p)) d
  end.
Fixpoint resolve_parts (d : Doc) (ps : list SnapshotPart) : M Doc :=
  match ps with
  | [] => mret d
  | p :: ps => d ← resolve_part d p ; resolve_parts d ps
  end.
Definition resolve (s : DocumentSnapshot) : M Doc :=
  index ← lift_parse (map_fault HistoryFailed (branch_index_new (snapshot_parts s))) ;
  ps ← match selection s with
       | Sequence => mret (snapshot_parts s)
       | Branch head => lift_parse (map_fault HistoryFailed (path index (Some head)))
       | LatestBranch => lift_parse (map_fault HistoryFailed (path index (s_id <$> last (snapshot_parts s))))
       end ;
  resolve_parts new ps.
End Resolve.

(** ** What validation promises *)

Definition range_of (p : SnapshotPart) : Z := end_byte (s_source p) - start_byte (s_source p).
Definition part_valid (p : SnapshotPart) : Prop :=
  0 ≤ range_of p ∧ ∀ t, s_content p = Inline t → str_len t = range_of p.

Lemma range_bytes_Ok p n : range_bytes p = Ok n → n = range_of p ∧ part_valid p.
Proof.
  unfold range_bytes, part_valid, range_of. intros (k & [-> Hle]%need_Ok%checked_sub_Some & ([] & Hin%fail_if_Ok & Hn)%bind_Ok)%bind_Ok.
  injection Hn as <-. split_and!; [done|lia|]. intros t Ht. rewrite Ht in Hin. bool_prop. apply dec_stable in Hin.
  by apply try_from_Some in Hin as [-> _].
Qed.
Lemma validate_parts_Ok ps written length u :
  0 ≤ length → validate_parts ps written length = Ok u →
  Forall part_valid ps ∧ (ps ≠ [] → length + total (range_of <$> ps) ≤ MAX_DOCUMENT_BYTES).
Proof.
  revert written length. induction ps as [|p ps IH]; intros written length Hl Hv; [done|]. cbn [validate_parts] in Hv.
  apply bind_Ok in Hv as (w & _ & Hv). apply bind_Ok in Hv as ([] & _ & Hv). apply bind_Ok in Hv as ([] & _ & Hv).
  apply bind_Ok in Hv as (n & [-> Hp]%range_bytes_Ok & Hv).
  apply bind_Ok in Hv as (k & (k' & [-> _]%checked_add_Some & Hk)%need_Ok%bind_Some & Hv).
  destruct (_ <=? _) eqn:Hle in Hk; [|done]. injection Hk as <-. bool_prop. destruct Hp as [Hnn Hin] eqn:Hp'. clear Hp'.
  destruct (IH w (length + range_of p) ltac:(lia) Hv) as [Hps Ht]. split; [by constructor|]. intros _.
  rewrite fmap_cons, total_cons. destruct ps; [simpl; lia|]. specialize (Ht ltac:(done)). lia.
Qed.

Definition selected_parts (s : DocumentSnapshot) (ps : list SnapshotPart) : Prop :=
  match selection s with
  | Sequence => ps = snapshot_parts s
  | Branch head => ∃ p, s_id p = head ∧ ancestry (snapshot_parts s) p ps
  | LatestBranch => match last (snapshot_parts s) with Some p => ancestry (snapshot_parts s) p ps | None => ps = [] end
  end.

Lemma ancestry_elem (ns : list SnapshotPart) x l y : ancestry ns x l → y ∈ l → y ∈ ns ∧ rtc (child_of ns) x y.
Proof.
  intros Ha. induction Ha as [x Hx Hp|x z l Hc Ha IH].
  - by intros ->%list_elem_of_singleton.
  - intros [Hy| ->%list_elem_of_singleton]%elem_of_app; [|split; [apply Hc|done] ].
    destruct (IH Hy). split; [done|]. by eapply rtc_l.
Qed.
Lemma ancestry_nodup (ns : list SnapshotPart) x l : (∀ y, ¬ tc (child_of ns) y y) → ancestry ns x l → NoDup l.
Proof.
  intros Hac Ha. induction Ha as [x Hx Hp|x z l Hc Ha IH]; [apply NoDup_singleton|].
  apply NoDup_app. split_and!; [done| |apply NoDup_singleton]. intros y Hy ->%list_elem_of_singleton.
  destruct (ancestry_elem ns z l x Ha Hy) as [_ Hr]. apply (Hac x). eapply tc_rtc_r; [by apply tc_once|exact Hr].
Qed.
Lemma total_submseteq {A} (g : A → Z) (l k : list A) : (∀ x, x ∈ k → 0 ≤ g x) → l ⊆+ k → total (g <$> l) ≤ total (g <$> k).
Proof.
  intros Hg Hs. induction Hs as [|x l k Hs IH|x y l|x l k Hs IH|l k m Hlk IH1 Hkm IH2]; rewrite ?fmap_cons, ?total_cons.
  - done.
  - specialize (IH ltac:(intros; apply Hg; by right)). lia.
  - lia.
  - specialize (IH ltac:(intros; apply Hg; by right)). specialize (Hg x ltac:(by left)). lia.
  - etrans; [apply IH1|by apply IH2]. intros x Hx. apply Hg. by eapply elem_of_submseteq.
Qed.

(** What is selected of a valid snapshot fits into a document. *)
Definition selection_ok (ps : list SnapshotPart) : Prop :=
  len ps ≤ MAX_DOCUMENT_PARTS ∧ Forall part_valid ps ∧ total (range_of <$> ps) ≤ MAX_DOCUMENT_BYTES.

Lemma validate_spec s :
  validate s = Ok tt →
  ∃ ix, branch_index_new (snapshot_parts s) = Ok ix ∧ forest (snapshot_parts s) ∧
    (∀ head, selection s = Branch head → ∃ p, p ∈ snapshot_parts s ∧ s_id p = head) ∧ selection_ok (snapshot_parts s).
Proof.
  unfold validate. intros Hv. apply bind_Ok in Hv as ([] & _ & Hv). apply bind_Ok in Hv as ([] & _ & Hv). apply bind_Ok in Hv as ([] & _ & Hv).
  apply bind_Ok in Hv as (ix & Hix%map_fault_Ok & Hv). apply bind_Ok in Hv as ([] & Hsel & Hv). apply bind_Ok in Hv as (w & _ & Hv).
  pose proof (branch_index_spec (snapshot_parts s)) as Hb. rewrite Hix in Hb. destruct Hb as (Hlen & Hforest & Hidx).
  exists ix. split_and!; [done..| |].
  - intros head Hs. rewrite Hs in Hsel. apply bind_Ok in Hsel as (l & Hp%map_fault_Ok & _).
    pose proof (path_spec _ ix Hidx head) as Hspec. rewrite Hp in Hspec. destruct Hspec as (p & Hid & Ha). exists p.
    split; [destruct Ha as [|? ? ? [? _] ]; done|done].
  - apply validate_parts_Ok in Hv as [Hps Ht]; [|done]. split_and!; [done..|]. destruct (snapshot_parts s); [done|]. by apply Ht.
Qed.

(** ** Resolution *)

Section Resolution.
Context {E : Type} (g : SourceReference → result E (list Z)) (from_snapshot : SnapshotError → E).
Context (Hbytes : ∀ r bytes, g r = Ok bytes → bytes_ok bytes).

(** A callback that answers with [g] and keeps what it was asked *)
Definition logged (r : SourceReference) (log : list SourceReference) : result E (list Z) * list SourceReference := (g r, log ++ [r]).
#[local] Instance content_source_dec (p : SnapshotPart) : Decision (s_content p = FromSource).
Proof. destruct (s_content p); [by right|by left]. Defined.
(** What is asked for: the sources of the parts that are not inline *)
Definition requests (ps : list SnapshotPart) : list SourceReference :=
  s_source <$> filter (λ p, s_content p = FromSource) ps.

Definition typed (p : SnapshotPart) : Prop :=
  0 ≤ start_byte (s_source p) ≤ u64_max ∧ 0 ≤ end_byte (s_source p) ≤ u64_max.

(** The part of the document that a part of the snapshot becomes *)
Definition resolved (p : SnapshotPart) (q : DocumentPart SourceReference Meta) : Prop :=
  source q = s_source p ∧ source_range q = (start_byte (s_source p), end_byte (s_source p)) ∧ kind q = s_kind p ∧
  metadata q = s_metadata p ∧
  match s_content p with
  | Inline t => part_text q = t
  | FromSource => ∃ bytes, g (s_source p) = Ok bytes ∧ end_byte (s_source p) ≤ len bytes ∧
      from_utf8 (sub_list bytes (start_byte (s_source p)) (end_byte (s_source p))) = Some (part_text q)
  end.
(** Why a part cannot be resolved *)
Definition refused (p : SnapshotPart) (e : E) : Prop :=
  s_content p = FromSource ∧
  (g (s_source p) = Err e ∨ ∃ bytes, g (s_source p) = Ok bytes ∧
     (len bytes < end_byte (s_source p) ∧ e = from_snapshot (Content InvalidRange)
      ∨ end_byte (s_source p) ≤ len bytes ∧
        from_utf8 (sub_list bytes (start_byte (s_source p)) (end_byte (s_source p))) = None ∧ e = from_snapshot (Content InvalidUtf8))).


Lemma resolve_part_spec d p log :
  document_ok d → typed p → part_valid p → room d (range_of p) →
  match resolve_part logged from_snapshot d p log with
  | (Ok d', log') => log' = log ++ requests [p] ∧ document_ok d' ∧ ∃ q, resolved p q ∧ parts d' = parts d ++ [q] ∧
      byte_len d' = byte_len d + range_of p
  | (Err (Fail e), log') => log' = log ++ requests [p] ∧ refused p e
  | _ => False
  end.
Proof using Hbytes.
  intros Hd [Ha Hb] [Hnn Hin] Hroom. unfold resolve_part, requests, resolved, refused, on_document, push_owned_part.
  destruct (s_content p) as [t|] eqn:Hc.
  - rewrite filter_cons_False by congruence. specialize (Hin t eq_refl).
    destruct (push_spec d (s_source p) (start_byte (s_source p), end_byte (s_source p)) t (s_kind p) (s_metadata p) Hd) as [-> Hok].
    rewrite Hin in *. rewrite decide_True by done. simpl. split_and!; [by rewrite app_nil_r|by apply Hok|].
    eexists. split_and!; [..|done|by rewrite Hin]; done.
  - rewrite filter_cons_True by done. unfold mbind, sm_bind, logged. destruct (g (s_source p)) as [bytes|e] eqn:Hg; [|by auto].
    pose proof (push_slice_spec d (s_source p) bytes (start_byte (s_source p)) (end_byte (s_source p)) (s_kind p) (s_metadata p)
      Hd (Hbytes _ _ Hg) Ha Hb) as Hs. unfold range_of in *.
    destruct (push_slice _ _ _ _ _ d) as [[u|e] d'].
    + destruct Hs as (t & Hr & Hu & Hd' & ->). simpl. split_and!; [done..|]. eexists. split_and!; [..|done|]; try done.
      * exists bytes. split_and!; [done|lia|done].
      * simpl. rewrite <- as_bytes_len. destruct (as_bytes_from_utf8 _ _ ltac:(by apply sub_list_bytes, (Hbytes _ _ Hg)) Hu) as [_ ->].
        rewrite sub_list_len by lia. done.
    + destruct Hs as [-> He]. simpl. split; [done|]. split; [done|]. right. exists bytes. split; [done|].
      destruct e; [by destruct He as (_ & ? & _)..| |].
      * left. split; [lia|done].
      * right. split_and!; [lia|apply He|done].
Qed.

Lemma resolve_parts_spec d ps log :
  document_ok d → Forall typed ps → Forall part_valid ps →
  len (parts d) + len ps ≤ MAX_DOCUMENT_PARTS → byte_len d + total (range_of <$> ps) ≤ MAX_DOCUMENT_BYTES →
  match resolve_parts logged from_snapshot d ps log with
  | (Ok d', log') => log' = log ++ requests ps ∧ document_ok d' ∧ ∃ qs, Forall2 resolved ps qs ∧ parts d' = parts d ++ qs
  | (Err (Fail e), log') => ∃ before p after, ps = before ++ p :: after ∧ log' = log ++ requests (before ++ [p]) ∧ refused p e
  | _ => False
  end.
Proof using Hbytes.
  revert d log. induction ps as [|p ps IH]; intros d log Hd Ht Hv Hlen Hb; cbn [resolve_parts].
  { simpl. split_and!; [by rewrite app_nil_r|done|]. exists []. by rewrite app_nil_r. }
  apply Forall_cons in Ht as [Htp Ht], Hv as [Hvp Hv]. rewrite fmap_cons, total_cons in Hb. rewrite len_cons in Hlen.
  assert (0 ≤ total (range_of <$> ps)) as Hnn.
  { clear -Hv. induction ps as [|p ps IH]; [done|]. apply Forall_cons in Hv as [[? _] ?]. rewrite fmap_cons, total_cons. specialize (IH ltac:(done)). lia. }
  assert (room d (range_of p)) as Hroom by (split; pose proof (len_nonneg ps); lia).
  pose proof (resolve_part_spec d p log Hd Htp Hvp Hroom) as Hp. unfold mbind, sm_bind.
  assert (∀ l k, requests (l ++ k) = requests l ++ requests k) as Hreq by (intros; unfold requests; by rewrite filter_app, fmap_app).
  destruct (resolve_part _ _ d p log) as [[d1|[| |e] ] log1]; try done.
  - destruct Hp as (-> & Hd1 & q & Hq & Hps & Hbl).
    specialize (IH d1 (log ++ requests [p]) Hd1 Ht Hv). rewrite Hps, len_app, Hbl in IH. specialize (IH ltac:(unfold len in *; simpl; lia) ltac:(lia)).
    destruct (resolve_parts _ _ d1 ps _) as [[d2|[| |e] ] log2]; try done.
    + destruct IH as (-> & Hd2 & qs & Hqs & Hps2). split_and!; [|done|].
      * change (p :: ps) with ([p] ++ ps). by rewrite (Hreq [p] ps), (assoc_L (++)).
      * exists (q :: qs). split; [by constructor|]. rewrite Hps2, <- (assoc_L (++)). done.
    + destruct IH as (b & x & a & -> & -> & Hx). exists (p :: b), x, a. split_and!; [done| |done].
      change ((p :: b) ++ [x]) with ([p] ++ (b ++ [x])). by rewrite (Hreq [p] (b ++ [x])), (assoc_L (++)).
  - destruct Hp as [-> He]. by exists [], p, ps.
Qed.

(** C32: A valid snapshot resolves to what it selects. The parts of the document are those of the
    selection in order (all, or the line of a head up to its root), each with its source, range,
    kind and metadata, with its inline text or the text that the bytes of its source encode
    in its range. The callback is asked for just the sources of the selected parts that are
    not inline, once each and in order, up to the first that it refuses or that does not hold
    such a text; nothing else can fail, whatever budgets there are. *)
Theorem snapshot_resolves_exact (s : DocumentSnapshot) :
  validate s = Ok tt → Forall typed (snapshot_parts s) →
  ∃ ps, selected_parts s ps ∧
  match resolve logged from_snapshot s [] with
  | (Ok d, log) => document_ok d ∧ Forall2 resolved ps (parts d) ∧ log = requests ps
  | (Err (Fail e), log) => ∃ before p after, ps = before ++ p :: after ∧ refused p e ∧ log = requests (before ++ [p])
  | _ => False
  end.
Proof using Hbytes.
  intros (ix & Hix & Hforest & Hhead & Hlen & Hpv & Htot)%validate_spec Htyped. unfold resolve, lift_parse, mbind at 1, sm_bind at 1. rewrite Hix.
  simpl map_fault. cbn [sm_lift].
  assert (∀ ps, ps ⊆+ snapshot_parts s →
    match resolve_parts logged from_snapshot new ps [] with
    | (Ok d, log) => document_ok d ∧ Forall2 resolved ps (parts d) ∧ log = requests ps
    | (Err (Fail e), log) => ∃ before p after, ps = before ++ p :: after ∧ refused p e ∧ log = requests (before ++ [p])
    | _ => False
    end) as Hgo.
  { intros ps Hsub. assert (∀ p, p ∈ ps → p ∈ snapshot_parts s) as Hin by (intros; by eapply elem_of_submseteq).
    rewrite Forall_forall in Hpv, Htyped.
    pose proof (resolve_parts_spec new ps [] ltac:(by split_and!) ltac:(apply Forall_forall; auto) ltac:(apply Forall_forall; auto)) as Hr.
    apply submseteq_length in Hsub as Hl. specialize (Hr ltac:(unfold len in *; simpl; lia)).
    assert (total (range_of <$> ps) ≤ total (range_of <$> snapshot_parts s)) as Htt by (apply total_submseteq; [intros x Hx; by apply Hpv|done]).
    specialize (Hr ltac:(simpl; lia)). destruct (resolve_parts _ _ new ps []) as [[d|[| |e] ] log]; try done.
    - destruct Hr as (-> & Hd & qs & Hqs & Hp). simpl in Hp. subst. done.
    - destruct Hr as (b & p & a & -> & -> & He). by exists b, p, a. }
  destruct (history_queries_exact _ ix Hix) as (Hnone & _ & Hq).
  assert (∀ p, p ∈ snapshot_parts s → ∃ l, path ix (Some (s_id p)) = Ok l ∧ ancestry (snapshot_parts s) p l ∧ l ⊆+ snapshot_parts s) as Hpath.
  { intros p Hp. destruct (Hq p Hp) as [(l & Hl & Ha) _]. exists l. split_and!; [done..|].
    destruct Hforest as (_ & _ & Hac). apply NoDup_submseteq; [by eapply ancestry_nodup|]. intros y Hy. by eapply ancestry_elem. }
  unfold selected_parts, mbind, sm_bind. destruct (selection s) as [|head|].
  - exists (snapshot_parts s). split; [done|]. simpl. by apply Hgo.
  - destruct (Hhead head eq_refl) as (p & Hp & <-). destruct (Hpath p Hp) as (l & -> & Ha & Hl).
    exists l. split; [by exists p|]. simpl. by apply Hgo.
  - destruct (last (snapshot_parts s)) as [p|] eqn:Hlast; simpl fmap.
    + destruct (Hpath p) as (l & -> & Ha & Hl); [by apply last_Some_elem_of|]. exists l. split; [done|]. simpl. by apply Hgo.
    + rewrite Hnone. exists []. split; [done|]. exact (Hgo [] (submseteq_nil_l _)).
Qed.
End Resolution.
End Snapshot.
Arguments SnapshotPart : clear implicits.
Arguments DocumentSnapshot : clear implicits.

(** ** Examples *)

Definition example_part (id : string) (parent : option text) (bytes : Z) (c : PartContent) : SnapshotPart unit := {|
  s_id := str id; s_parent_id := parent; s_kind := Message Assistant;
  s_source := {| ref_kind := FromMessage; occurrence_id := str id; start_byte := 1; end_byte := 1 + bytes |};
  s_content := c; s_metadata := tt |}.
(** A root, an alternative that is not selected, and a head whose text is in its source *)
Definition example_snapshot : DocumentSnapshot unit unit := {|
  schema_version := 1; document_id := str "document-1"; selection := Branch (str "selected");
  lineage := {| revision := None; lineage_source := None |}; header := tt;
  snapshot_parts := [example_part "root" None 3 (Inline (str "one")); example_part "hidden" (Some (str "root")) 5 FromSource;
                     example_part "selected" (Some (str "root")) 2 FromSource] |}.
Definition example_source (r : SourceReference) : result SnapshotError (list Z) := Ok [97; 195; 169; 98].
Definition null_json (_ : unit) : option (list (list Z)) := Some [str "null"].

Lemma snapshot_resolves_exact_witness :
  validate null_json null_json example_snapshot = Ok tt ∧
  ∃ d, resolve (logged example_source) id example_snapshot [] = (Ok d, [s_source (example_part "selected" None 2 FromSource)]) ∧
    document_text d = str "one" ++ [233] ∧ document_ok d.
Proof.
  eassert (validate null_json null_json example_snapshot = Ok tt) as Hv by (vm_compute; reflexivity). split; [exact Hv|].
  eassert (resolve (logged example_source) id example_snapshot [] = (Ok _, _)) as Hr by (vm_compute; reflexivity).
  destruct (snapshot_resolves_exact null_json null_json example_source id
    ltac:(intros ? ? [= <-]; by apply (bool_decide_unpack _)) example_snapshot Hv ltac:(by repeat constructor)) as (ps & _ & H).
  rewrite Hr in H. eexists. split; [exact Hr|]. split; [vm_compute; reflexivity|]. apply H.
Defined.
