(* ===== verification/NeuralGrammar.v ===== *)
(** * NeuralGrammar: the expression language of terminal entries

    Models [parse_neural_command] and the recursive-descent [Parser] of
    [workspace-document/src/reference_grammar.rs], over strings as lists of
    scalars with byte offsets. A slice [&source[offset..]] off a scalar boundary
    panics. Recursion is bounded by the nesting limit; the loops of the lexer and
    of the argument and pipeline lists carry fuel, one more than the scalars of
    the source. [Grammar] states the language without offsets, limits or fuel. *)

From S2P Require Import Prelude Bytes Text.
Local Open Scope Z_scope.

(** [char::is_alphanumeric]: the tables of the standard library, as documented on
    ASCII; a scalar with the property Alphabetic or Numeric is not White_Space. *)
Class UnicodeTables := {
  is_alphanumeric : Z → bool;
  alphanumeric_ascii c : c < 128 →
    is_alphanumeric c = ((48 <=? c) && (c <=? 57)) || ((65 <=? c) && (c <=? 90)) || ((97 <=? c) && (c <=? 122));
  alphanumeric_not_whitespace c : is_alphanumeric c = true → is_whitespace c = false;
}.

Definition MAX_NEURAL_COMMAND_BYTES : Z := 65536.
Definition MAX_NEURAL_DOCUMENT_BYTES : Z := 1048576.
Definition MAX_NEURAL_NODES : Z := 256.
Definition MAX_NEURAL_DEPTH : Z := 16.

(** ** Data *)

Inductive NeuralExpression :=
| Reference (name : text)
| Literal (txt : text)
| Call (function : text) (arguments : list NeuralExpression)
| Find (source query : NeuralExpression)
| Count (source : NeuralExpression).

Inductive NeuralCommand :=
| Prompt (prompt : text)
| Expression (expression : NeuralExpression).

Record NeuralSyntaxError := { err_offset : Z; message : string }.

Definition check_size (source : text) (limit : Z) : parse NeuralSyntaxError unit :=
  fail_if (limit <? str_len source)
    {| err_offset := limit; message := "input exceeds the byte limit" |}.

Fixpoint expression_depth (e : NeuralExpression) : Z :=
  match e with
  | Call _ arguments => 1 + foldr Z.max 0 (map expression_depth arguments)
  | Find source query => 1 + Z.max (expression_depth source) (expression_depth query)
  | Count source => 1 + expression_depth source
  | _ => 1
  end.

(** ** The parser

    Offsets stay within the source and [nodes] within its limit, so that neither
    addition overflows. *)

Record Parser := { source : text; offset : Z; nodes : Z }.

Notation PM := (SM Parser (fault NeuralSyntaxError)).

Definition panic {A} : PM A := sm_throw Panic.
Definition out_of_fuel {A} : PM A := sm_throw OutOfFuel.

(** [&self.source[self.offset..]] *)
Definition rest : PM text := λ p,
  (ok_or (str_get (source p) (offset p) (str_len (source p))) Panic, p).
(** [self.offset += n] *)
Definition advance (n : Z) : PM unit :=
  sm_modify (λ p, {| source := source p; offset := offset p + n; nodes := nodes p |}).
(** The fuel of a loop over the source *)
Definition loop_fuel : PM nat := λ p, (Ok (S (length (source p))), p).

Section Parser.
Context `{UnicodeTables}.

Definition error {A} (message : string) : PM A := λ p,
  (Err (Fail {| err_offset := offset p; message := message |}), p).

Definition whitespace : PM unit :=
  t ← rest ; advance (str_len t - str_len (trim_start t)).

Definition take (token : text) : PM bool :=
  t ← rest ;
  if starts_with t token then _ ← advance (str_len token) ; mret true else mret false.

Definition node : PM unit :=
  _ ← sm_modify (λ p, {| source := source p; offset := offset p; nodes := nodes p + 1 |}) ;
  p ← sm_get ;
  if MAX_NEURAL_NODES <? nodes p then error "too many expression nodes" else mret tt.

(** [matches!(escaped, ...)] of [quoted] *)
Definition unescape (c : Z) : option Z :=
  if c =? 34 then Some 34           (* quote *)
  else if c =? 92 then Some 92      (* backslash *)
  else if c =? 110 then Some 10     (* n *)
  else if c =? 114 then Some 13     (* r *)
  else if c =? 116 then Some 9      (* t *)
  else None.

Fixpoint quoted_loop (fuel : nat) (closing : Z) (txt : text) : PM text :=
  match fuel with
  | O => out_of_fuel
  | S fuel =>
    t ← rest ;
    match t with
    | [] => error "unclosed quote"
    | character :: _ =>
      _ ← advance (len_utf8 character) ;
      if character =? closing then mret txt
      else if character =? 92 then
        t ← rest ;
        match t with
        | [] => error "unfinished escape"
        | escaped :: _ =>
          _ ← advance (len_utf8 escaped) ;
          match unescape escaped with
          | None => error "unknown escape; use quote, backslash, n, r, or t"
          | Some c => quoted_loop fuel closing (txt ++ [c])
          end
        end
      else if (character =? 10) || (character =? 13) then
        error "use an escaped newline inside quoted text"
      else quoted_loop fuel closing (txt ++ [character])
    end
  end.

Definition quoted : PM text :=
  smart ← take [8220] ;
  closing ← (if smart : bool then mret 8221 else _ ← take [34] ; mret 34) ;
  fuel ← loop_fuel ;
  quoted_loop fuel closing [].

(** The scalars of a bare name. *)
Definition name_scalar (c : Z) : bool :=
  is_alphanumeric c
  || (c =? 95) || (c =? 45) || (c =? 47) || (c =? 46) || (c =? 35)
  || ((768 <=? c) && (c <=? 879)) || ((6832 <=? c) && (c <=? 6911))
  || ((7616 <=? c) && (c <=? 7679)) || ((8400 <=? c) && (c <=? 8447))
  || ((65056 <=? c) && (c <=? 65071)).

Fixpoint name_loop (fuel : nat) : PM unit :=
  match fuel with
  | O => out_of_fuel
  | S fuel =>
    t ← rest ;
    match t with
    | [] => mret tt
    | character :: _ =>
      if starts_with t (str "::") then _ ← advance 2 ; name_loop fuel
      else if name_scalar character then _ ← advance (len_utf8 character) ; name_loop fuel
      else mret tt
    end
  end.

(** [starts_with] a straight or a curly opening quote *)
Definition opens_quote (t : text) : bool :=
  match t with c :: _ => (c =? 34) || (c =? 8220) | [] => false end.

Definition name : PM text :=
  t ← rest ;
  if opens_quote t then
    name ← quoted ;
    if bool_decide (trim name = []) then error "document name is empty" else mret name
  else
    p ← sm_get ;
    let start := offset p in
    fuel ← loop_fuel ;
    _ ← name_loop fuel ;
    p ← sm_get ;
    if start =? offset p then error "expected a document name"
    else sm_lift (ok_or (str_get (source p) start (offset p)) Panic).

(** The loop of [arguments], over the recursive call. *)
Fixpoint arguments_loop (expression : PM NeuralExpression) (fuel : nat)
    (arguments : list NeuralExpression) : PM (list NeuralExpression) :=
  match fuel with
  | O => out_of_fuel
  | S fuel =>
    e ← expression ;
    let arguments := arguments ++ [e] in
    _ ← whitespace ;
    close ← take (str ")") ;
    if close : bool then mret arguments
    else
      comma ← take (str ",") ;
      if comma : bool then arguments_loop expression fuel arguments
      else error "expected , or )"
  end.

Definition arguments (expression : Z → PM NeuralExpression) (depth : Z) : PM (list NeuralExpression) :=
  _ ← whitespace ;
  close ← take (str ")") ;
  if close : bool then mret []
  else fuel ← loop_fuel ; arguments_loop (expression (depth + 1)) fuel [].

Definition atom (expression : Z → PM NeuralExpression) (depth : Z) : PM NeuralExpression :=
  _ ← whitespace ;
  _ ← node ;
  at_sign ← take (str "@") ;
  if at_sign : bool then
    name ← name ;
    _ ← whitespace ;
    open ← take (str "(") ;
    if open : bool then args ← arguments expression depth ; mret (Call name args)
    else mret (Reference name)
  else
    t ← rest ;
    if starts_with t [34] then txt ← quoted ; mret (Literal txt)
    else
      find ← take (str "find") ;
      if find : bool then
        _ ← whitespace ;
        open ← take (str "(") ;
        if negb open then error "expected ( after find"
        else
          args ← arguments expression depth ;
          match args with
          | [source; query] => mret (Find source query)
          | _ => error "find requires a source and a query"
          end
      else
        count ← take (str "count") ;
        if count : bool then
          _ ← whitespace ;
          open ← take (str "(") ;
          if negb open then error "expected ( after count"
          else
            args ← arguments expression depth ;
            match args with
            | [source] => mret (Count source)
            | _ => error "count requires exactly one library source"
            end
        else error "expected @document, @function(...), find(...), count(...), or quoted text".

(** The pipeline loop of [expression]. *)
Fixpoint pipeline (expression : Z → PM NeuralExpression) (fuel : nat) (depth : Z)
    (e : NeuralExpression) : PM NeuralExpression :=
  match fuel with
  | O => out_of_fuel
  | S fuel =>
    pipe ← take (str "|>") ;
    if negb pipe then mret e
    else
      _ ← whitespace ;
      at_sign ← take (str "@") ;
      if negb at_sign then error "expected a document function after |>"
      else
        function ← name ;
        _ ← node ;
        _ ← whitespace ;
        open ← take (str "(") ;
        more ← (if open : bool then arguments expression depth else mret []) ;
        let e := Call function (e :: more) in
        if MAX_NEURAL_DEPTH <? expression_depth e then
          error "expression nesting exceeds the limit"
        else _ ← whitespace ; pipeline expression fuel depth e
  end.

Fixpoint expression (fuel : nat) (depth : Z) : PM NeuralExpression :=
  match fuel with
  | O => out_of_fuel
  | S fuel =>
    if MAX_NEURAL_DEPTH <=? depth then error "expression nesting exceeds the limit"
    else
      e ← atom (expression fuel) depth ;
      _ ← whitespace ;
      loop ← loop_fuel ;
      pipeline (expression fuel) loop depth e
  end.

(** One level more than the nesting limit. *)
Definition depth_fuel : nat := 17.

Definition parse_neural_command (src : text) : parse NeuralSyntaxError NeuralCommand :=
  _ ← check_size src MAX_NEURAL_COMMAND_BYTES ;
  let start := str_len src - str_len (trim_start src) in
  (* the byte at [start], a scalar boundary *)
  if negb (starts_with (trim_start src) (str "=")) then mret (Prompt src)
  else
    fst ((e ← expression depth_fuel 0 ;
      _ ← whitespace ;
      p ← sm_get ;
      if negb (offset p =? str_len src) then error "expected the end of the expression"
      else if MAX_NEURAL_DEPTH <? expression_depth e then
        error "expression nesting exceeds the limit"
      else mret (Expression e) : PM NeuralCommand)
      {| source := src; offset := start + 1; nodes := 0 |}).

End Parser.

(** ** The language

    What an entry means, on the remaining text alone: the lexical part as
    functions that return the lexeme and what follows it, the syntax as relations
    [R s v s'] that read [v] from [s] and leave [s']. *)

Module Grammar.
Section Grammar.
Context `{UnicodeTables}.

(** The text of a quotation up to its closing quote. *)
Fixpoint quoted_body (closing : Z) (s : text) : option (text * text) :=
  match s with
  | [] => None
  | c :: s =>
    if c =? closing then Some ([], s)
    else if c =? 92 then
      match s with
      | [] => None
      | e :: s => d ← unescape e ; '(t, s') ← quoted_body closing s ; Some (d :: t, s')
      end
    else if (c =? 10) || (c =? 13) then None
    else '(t, s') ← quoted_body closing s ; Some (c :: t, s')
  end.

Definition quoted_lex (s : text) : option (text * text) :=
  match s with
  | c :: s' => if c =? 8220 then quoted_body 8221 s' else if c =? 34 then quoted_body 34 s' else quoted_body 34 s
  | [] => None
  end.

(** The longest bare name: name scalars and double colons. *)
Fixpoint bare_name (s : text) : text * text :=
  match s with
  | [] => ([], [])
  | c :: s' =>
    match c =? 58, s' with
    | true, d :: s'' =>
      if d =? 58 then let '(t, r) := bare_name s'' in (58 :: 58 :: t, r)
      else if name_scalar c then let '(t, r) := bare_name s' in (c :: t, r) else ([], s)
    | _, _ => if name_scalar c then let '(t, r) := bare_name s' in (c :: t, r) else ([], s)
    end
  end.

Definition name_lex (s : text) : option (text * text) :=
  if opens_quote s then
    '(n, s') ← quoted_lex s ; if bool_decide (trim n = []) then None else Some (n, s')
  else
    let '(n, s') := bare_name s in if bool_decide (n = []) then None else Some (n, s').

Inductive Expr : text → NeuralExpression → text → Prop :=
| Expr_pipeline s a s1 e s' :
    Atom s a s1 → Pipes a (trim_start s1) e s' → Expr s e s'
(** What follows an operand, its whitespace skipped. *)
with Pipes : NeuralExpression → text → NeuralExpression → text → Prop :=
| Pipes_end a s : starts_with s (str "|>") = false → Pipes a s a s
| Pipes_call a s1 s2 f s3 more s4 e s' :
    trim_start s1 = str "@" ++ s2 → name_lex s2 = Some (f, s3) → OptArgs s3 more s4 →
    Pipes (Call f (a :: more)) (trim_start s4) e s' →
    Pipes a (str "|>" ++ s1) e s'
with OptArgs : text → list NeuralExpression → text → Prop :=
| OptArgs_none s : starts_with (trim_start s) (str "(") = false → OptArgs s [] (trim_start s)
| OptArgs_some s s1 es s' : trim_start s = str "(" ++ s1 → Args s1 es s' → OptArgs s es s'
with Atom : text → NeuralExpression → text → Prop :=
| Atom_reference s s1 n s2 :
    trim_start s = str "@" ++ s1 → name_lex s1 = Some (n, s2) →
    starts_with (trim_start s2) (str "(") = false → Atom s (Reference n) (trim_start s2)
| Atom_call s s1 n s2 s3 es s' :
    trim_start s = str "@" ++ s1 → name_lex s1 = Some (n, s2) →
    trim_start s2 = str "(" ++ s3 → Args s3 es s' → Atom s (Call n es) s'
| Atom_literal s s1 t s' :
    trim_start s = 34 :: s1 → quoted_body 34 s1 = Some (t, s') → Atom s (Literal t) s'
| Atom_find s s1 s2 a q s' :
    trim_start s = str "find" ++ s1 → trim_start s1 = str "(" ++ s2 → Args s2 [a; q] s' →
    Atom s (Find a q) s'
| Atom_count s s1 s2 a s' :
    trim_start s = str "count" ++ s1 → trim_start s1 = str "(" ++ s2 → Args s2 [a] s' →
    Atom s (Count a) s'
(** The arguments behind an opening parenthesis, to the closing one. *)
with Args : text → list NeuralExpression → text → Prop :=
| Args_none s s' : trim_start s = str ")" ++ s' → Args s [] s'
| Args_some s es s' : ArgSeq (trim_start s) es s' → Args s es s'
with ArgSeq : text → list NeuralExpression → text → Prop :=
| ArgSeq_last s e s1 s' : Expr s e s1 → trim_start s1 = str ")" ++ s' → ArgSeq s [e] s'
| ArgSeq_more s e s1 s2 es s' :
    Expr s e s1 → trim_start s1 = str "," ++ s2 → ArgSeq s2 es s' → ArgSeq s (e :: es) s'.

Scheme Expr_mut := Induction for Expr Sort Prop
  with Pipes_mut := Induction for Pipes Sort Prop
  with OptArgs_mut := Induction for OptArgs Sort Prop
  with Atom_mut := Induction for Atom Sort Prop
  with Args_mut := Induction for Args Sort Prop
  with ArgSeq_mut := Induction for ArgSeq Sort Prop.
Combined Scheme grammar_mut from Expr_mut, Pipes_mut, OptArgs_mut, Atom_mut, Args_mut, ArgSeq_mut.

(** An entry that is the expression [e]. *)
Definition Entry (src : text) (e : NeuralExpression) : Prop :=
  ∃ s s', trim_start src = str "=" ++ s ∧ Expr s e s' ∧ trim_start s' = [].

(** The nodes of an expression. *)
Fixpoint expression_nodes (e : NeuralExpression) : Z :=
  match e with
  | Call _ es => 1 + foldr Z.add 0 (map expression_nodes es)
  | Find a q => 1 + expression_nodes a + expression_nodes q
  | Count a => 1 + expression_nodes a
  | _ => 1
  end.

Definition within_limits (e : NeuralExpression) : Prop :=
  expression_depth e ≤ MAX_NEURAL_DEPTH ∧ expression_nodes e ≤ MAX_NEURAL_NODES.

End Grammar.
End Grammar.

(** ** Running the parser

    A parser that stands before the suffix [s] of [src] is [st s n]. *)

Module ParserProofs.
Import Grammar.
Section Run.
Context `{UnicodeTables} (src : text).

Definition st (s : text) (n : Z) : Parser :=
  {| source := src; offset := str_len src - str_len s; nodes := n |}.

(** A run that stops with one of the parser's errors. *)
Definition refuses {A} (r : result (fault NeuralSyntaxError) A * Parser) : Prop :=
  ∃ e p, r = (Err (Fail e), p).

(** A run that returns, with a postcondition on success. *)
Definition runs {A} (Q : A → Parser → Prop) (r : result (fault NeuralSyntaxError) A * Parser) : Prop :=
  match r with
  | (Ok a, p) => Q a p
  | (Err (Fail _), _) => True
  | (Err _, _) => False
  end.

(** A run that follows a lexer. *)
Definition lexes {A} (o : option (A * text)) (n : Z) (r : result (fault NeuralSyntaxError) A * Parser) : Prop :=
  match o with
  | Some (a, s') => r = (Ok a, st s' n)
  | None => refuses r
  end.

Lemma runs_bind {A B} (Q : A → Parser → Prop) (R : B → Parser → Prop) (m : PM A) (f : A → PM B) p :
  runs Q (m p) → (∀ a p', Q a p' → runs R (f a p')) → runs R ((m ≫= f) p).
Proof.
  unfold mbind, sm_bind, runs. destruct (m p) as [[a|[| |e]] p']; simpl; try done. intros Hq Hf. exact (Hf _ _ Hq).
Qed.

Lemma runs_mono {A} (Q R : A → Parser → Prop) r :
  (∀ a p, Q a p → R a p) → runs Q r → runs R r.
Proof. unfold runs. destruct r as [[a|[| |e]] p']; try done; auto. Qed.

Lemma refuses_runs {A} Q (r : result (fault NeuralSyntaxError) A * Parser) : refuses r → runs Q r.
Proof. by intros (e & p & ->). Qed.

Lemma bind_ok {A B} (m : PM A) (f : A → PM B) p a p' :
  m p = (Ok a, p') → (m ≫= f) p = f a p'.
Proof. unfold mbind, sm_bind. by intros ->. Qed.

Lemma bind_refuses {A B} (m : PM A) (f : A → PM B) p : refuses (m p) → refuses ((m ≫= f) p).
Proof. intros (e & p' & Hm). exists e, p'. unfold mbind, sm_bind. by rewrite Hm. Qed.

Lemma error_refuses {A} msg p : refuses (error (A:=A) msg p).
Proof. by eexists _, _. Qed.

(** *** Primitives *)

Lemma rest_st s n : s `suffix_of` src → rest (st s n) = (Ok s, st s n).
Proof. intros Hs. unfold rest. simpl. by rewrite str_get_suffix. Qed.

Lemma advance_st u s n : advance (str_len u) (st (u ++ s) n) = (Ok tt, st s n).
Proof. unfold advance, sm_modify, st. simpl. rewrite str_len_app. do 3 f_equal. lia. Qed.

Lemma advance_cons c s n : advance (len_utf8 c) (st (c :: s) n) = (Ok tt, st s n).
Proof. rewrite <- (advance_st [c] s n). simpl. by rewrite Z.add_0_r. Qed.

Lemma whitespace_st s n : s `suffix_of` src → whitespace (st s n) = (Ok tt, st (trim_start s) n).
Proof.
  intros Hs. unfold whitespace. rewrite (bind_ok _ _ _ _ _ (rest_st s n Hs)).
  destruct (trim_start_suffix s) as [w Hw].
  rewrite <- (advance_st w (trim_start s) n), <- Hw. f_equal.
  rewrite Hw at 1. rewrite str_len_app. lia.
Qed.

Lemma take_true token s n :
  (token ++ s) `suffix_of` src → take token (st (token ++ s) n) = (Ok true, st s n).
Proof.
  intros Hs. unfold take. rewrite (bind_ok _ _ _ _ _ (rest_st _ n Hs)), starts_with_app.
  by rewrite (bind_ok _ _ _ _ _ (advance_st token s n)).
Qed.

Lemma take_false token s n :
  s `suffix_of` src → starts_with s token = false → take token (st s n) = (Ok false, st s n).
Proof.
  intros Hs Ht. unfold take. by rewrite (bind_ok _ _ _ _ _ (rest_st _ n Hs)), Ht.
Qed.

Lemma take_cases token s n :
  s `suffix_of` src →
  (∃ s', s = token ++ s' ∧ s' `suffix_of` src ∧ take token (st s n) = (Ok true, st s' n))
  ∨ (starts_with s token = false ∧ take token (st s n) = (Ok false, st s n)).
Proof.
  intros Hs. destruct (starts_with s token) eqn:Ht; [left|right; auto using take_false].
  apply starts_with_true in Ht as [s' ->]. exists s'. repeat split; [|by apply take_true].
  etrans; [|exact Hs]. by exists token.
Qed.

Lemma node_st s n : n + 1 ≤ MAX_NEURAL_NODES → node (st s n) = (Ok tt, st s (n + 1)).
Proof.
  intros Hn. unfold node, sm_modify, sm_get. sm_unfold.
  by rewrite (proj2 (Z.ltb_ge _ _)) by lia.
Qed.

Lemma node_runs s n : runs (λ _ p, p = st s (n + 1) ∧ n + 1 ≤ MAX_NEURAL_NODES) (node (st s n)).
Proof.
  destruct (decide (n + 1 ≤ MAX_NEURAL_NODES)); [by rewrite node_st|].
  apply refuses_runs. unfold node. sm_unfold. rewrite (proj2 (Z.ltb_lt _ _)) by lia.
  apply error_refuses.
Qed.

(** *** The lexer *)

Lemma suffix_cons_inv c s : (c :: s) `suffix_of` src → s `suffix_of` src.
Proof. intros Hs. etrans; [|exact Hs]. by exists [c]. Qed.

Lemma quoted_loop_lexes closing s n : ∀ fuel acc,
  s `suffix_of` src → (length s < fuel)%nat →
  lexes ((λ '(t, s'), (acc ++ t, s')) <$> quoted_body closing s) n
    (quoted_loop fuel closing acc (st s n)).
Proof.
  induction s as [s IH] using (induction_ltof1 _ length); unfold ltof in IH.
  intros [|fuel] acc Hs Hf; [lia|]. simpl.
  rewrite (bind_ok _ _ _ _ _ (rest_st s n Hs)).
  destruct s as [|c s]; simpl; [apply error_refuses|].
  rewrite (bind_ok _ _ _ _ _ (advance_cons c s n)).
  pose proof (suffix_cons_inv _ _ Hs) as Hs1. simpl in Hf.
  destruct (c =? closing); [by cbn; rewrite app_nil_r|]. destruct (c =? 92).
  - rewrite (bind_ok _ _ _ _ _ (rest_st s n Hs1)).
    destruct s as [|e s]; [apply error_refuses|].
    rewrite (bind_ok _ _ _ _ _ (advance_cons e s n)).
    destruct (unescape e) as [d|]; simpl; [|apply error_refuses].
    specialize (IH s ltac:(simpl; lia) fuel (acc ++ [d]) (suffix_cons_inv _ _ Hs1) ltac:(simpl in *; lia)).
    destruct (quoted_body closing s) as [[t s']|]; simpl in *; [|done]. by rewrite <- app_assoc in IH.
  - destruct ((c =? 10) || (c =? 13)); [apply error_refuses|].
    specialize (IH s ltac:(simpl; lia) fuel (acc ++ [c]) Hs1 ltac:(lia)).
    destruct (quoted_body closing s) as [[t s']|]; simpl in *; [|done]. by rewrite <- app_assoc in IH.
Qed.

Lemma suffix_length_le s : s `suffix_of` src → (length s ≤ length src)%nat.
Proof. apply suffix_length. Qed.

Lemma quoted_lexes s n :
  s `suffix_of` src → s ≠ [] → lexes (quoted_lex s) n (quoted (st s n)).
Proof.
  intros Hs Hne. destruct s as [|c s]; [done|].
  pose proof (suffix_cons_inv _ _ Hs) as Hs1.
  assert (∀ closing s, s `suffix_of` src →
    lexes (quoted_body closing s) n ((fuel ← loop_fuel ; quoted_loop fuel closing []) (st s n))) as Hloop.
  { intros closing s0 Hs0. apply suffix_length_le in Hs0 as Hl.
    pose proof (quoted_loop_lexes closing s0 n (S (length src)) [] Hs0 ltac:(lia)) as Hq.
    by destruct (quoted_body closing s0) as [[t s']|]. }
  unfold quoted, quoted_lex. destruct (Z.eqb_spec c 8220) as [->|H1].
  - rewrite (bind_ok _ _ _ _ _ (take_true [8220] s n Hs)). by apply Hloop.
  - rewrite (bind_ok _ _ _ false (st (c :: s) n)).
    2: { apply take_false; [done|]. simpl. by rewrite (proj2 (Z.eqb_neq _ _) H1). }
    destruct (Z.eqb_spec c 34) as [->|H2].
    + rewrite (bind_ok _ _ _ 34 (st s n)); [by apply Hloop|].
      by rewrite (bind_ok _ _ _ _ _ (take_true [34] s n Hs)).
    + rewrite (bind_ok _ _ _ 34 (st (c :: s) n)); [by apply Hloop|].
      rewrite (bind_ok _ _ _ false (st (c :: s) n)); [done|].
      apply take_false; [done|]. simpl. by rewrite (proj2 (Z.eqb_neq _ _) H2).
Qed.

Lemma bare_name_app s t r : bare_name s = (t, r) → s = t ++ r.
Proof.
  revert t r. induction s as [s IH] using (induction_ltof1 _ length); unfold ltof in IH.
  destruct s as [|c s]; intros t r; simpl; [by intros [= <- <-]|].
  assert (∀ t r, (if name_scalar c then let '(t, r) := bare_name s in (c :: t, r) else ([], c :: s)) = (t, r)
    → c :: s = t ++ r) as Hone.
  { intros t0 r0. destruct (name_scalar c); [|by intros [= <- <-]].
    destruct (bare_name s) as [t1 r1] eqn:Hs. intros [= <- <-]. simpl. f_equal.
    apply IH; [simpl; lia|done]. }
  destruct (Z.eqb_spec c 58) as [->|]; [|destruct s; apply Hone].
  destruct s as [|d s]; [apply Hone|]. destruct (Z.eqb_spec d 58) as [->|]; [|apply Hone].
  destruct (bare_name s) as [t1 r1] eqn:Hs. intros [= <- <-]. simpl. do 2 f_equal.
  apply IH; [simpl; lia|done].
Qed.

(** One turn of the bare-name loop. *)
Lemma bare_name_step s : s ≠ [] →
  bare_name s =
    if starts_with s (str "::") then let '(t, r) := bare_name (drop 2 s) in (str "::" ++ t, r)
    else match s with
         | c :: s' => if name_scalar c then let '(t, r) := bare_name s' in (c :: t, r) else ([], s)
         | [] => ([], [])
         end.
Proof.
  destruct s as [|c s]; [done|]. intros _. change (str "::") with [58; 58]. simpl.
  destruct (c =? 58) eqn:Hc; [|by destruct s].
  destruct s as [|d s]; [done|]. simpl. rewrite starts_with_nil, andb_true_r. by destruct (d =? 58).
Qed.

Lemma name_loop_st s n : ∀ fuel,
  s `suffix_of` src → (length s < fuel)%nat →
  name_loop fuel (st s n) = (Ok tt, st (bare_name s).2 n).
Proof.
  induction s as [s IH] using (induction_ltof1 _ length); unfold ltof in IH.
  intros [|fuel] Hs Hf; [lia|]. simpl name_loop.
  rewrite (bind_ok _ _ _ _ _ (rest_st s n Hs)).
  destruct (decide (s = [])) as [->|Hne]; [done|]. rewrite (bare_name_step s Hne).
  destruct s as [|c s]; [done|]. simpl in Hf. pose proof (suffix_cons_inv _ _ Hs) as Hs1.
  destruct (starts_with (c :: s) (str "::")) eqn:Hcolon.
  - apply starts_with_true in Hcolon as [s' Heq]. change (str "::") with [58; 58] in *. simplify_eq/=.
    rewrite (bind_ok _ _ _ _ _ (advance_st (str "::") s' n)), drop_0.
    rewrite IH by (done || simpl; lia || by do 2 apply suffix_cons_inv in Hs). by destruct (bare_name s').
  - destruct (name_scalar c); [|done].
    rewrite (bind_ok _ _ _ _ _ (advance_cons c s n)), IH by (done || simpl; lia).
    by destruct (bare_name s).
Qed.

Lemma name_lexes s n : s `suffix_of` src → lexes (name_lex s) n (name (st s n)).
Proof.
  intros Hs. unfold name, name_lex. rewrite (bind_ok _ _ _ _ _ (rest_st s n Hs)).
  destruct (opens_quote s) eqn:Hq.
  - pose proof (quoted_lexes s n Hs ltac:(by intros ->)) as Hl.
    destruct (quoted_lex s) as [[t s']|]; simpl in *; [|by apply bind_refuses].
    rewrite (bind_ok _ _ _ _ _ Hl). case_bool_decide; [apply error_refuses|done].
  - rewrite (bind_ok _ _ (st s n) (st s n) (st s n)) by done.
    rewrite (bind_ok _ _ (st s n) (S (length src)) (st s n)) by done.
    pose proof (suffix_length_le s Hs) as Hl.
    rewrite (bind_ok _ _ _ _ _ (name_loop_st s n (S (length src)) Hs ltac:(lia))).
    destruct (bare_name s) as [t r] eqn:Hb. apply bare_name_app in Hb as ->. simpl.
    rewrite (bind_ok _ _ (st r n) (st r n) (st r n)) by done. simpl.
    case_bool_decide as Ht.
    + subst t. simpl. rewrite Z.eqb_refl. apply error_refuses.
    + rewrite str_len_app, (proj2 (Z.eqb_neq _ _)).
      2: { destruct t as [|c t]; [done|]. simpl. pose proof (len_utf8_pos c). pose proof (str_len_nonneg t). lia. }
      rewrite <- str_len_app. unfold sm_lift. by rewrite str_get_between.
Qed.

(** *** Expressions *)

Lemma expression_ind (P : NeuralExpression → Prop) :
  (∀ n, P (Reference n)) → (∀ t, P (Literal t)) → (∀ f es, Forall P es → P (Call f es)) →
  (∀ a q, P a → P q → P (Find a q)) → (∀ a, P a → P (Count a)) → ∀ e, P e.
Proof.
  intros HR HL HC HF HN. fix IH 1. intros [n|t|f es|a q|a]; [apply HR|apply HL| |apply HF; apply IH|apply HN, IH].
  apply HC. induction es; constructor; [apply IH|done].
Qed.

Definition nodes_of (es : list NeuralExpression) : Z := foldr Z.add 0 (map expression_nodes es).
Definition depth_of (es : list NeuralExpression) : Z := foldr Z.max 0 (map expression_depth es).

Lemma nodes_of_nonneg es : Forall (λ e, 1 ≤ expression_nodes e) es → 0 ≤ nodes_of es.
Proof. unfold nodes_of. induction 1; simpl; lia. Qed.

Lemma nodes_pos e : 1 ≤ expression_nodes e.
Proof.
  induction e as [| |f es Hes| |] using expression_ind; simpl; try lia.
  apply nodes_of_nonneg in Hes. unfold nodes_of in Hes. lia.
Qed.
Lemma nodes_of_pos es : 0 ≤ nodes_of es.
Proof. apply nodes_of_nonneg, Forall_true, nodes_pos. Qed.
Lemma depth_of_pos es : 0 ≤ depth_of es.
Proof. unfold depth_of. induction es; simpl; lia. Qed.
Lemma depth_pos e : 1 ≤ expression_depth e.
Proof.
  induction e using expression_ind; simpl; try lia.
  match goal with es : list _ |- _ => pose proof (depth_of_pos es) as Hd end. unfold depth_of in Hd. lia.
Qed.

Lemma nodes_call f es : expression_nodes (Call f es) = 1 + nodes_of es.
Proof. done. Qed.
Lemma nodes_find a q : expression_nodes (Find a q) = 1 + nodes_of [a; q].
Proof. unfold nodes_of. simpl. lia. Qed.
Lemma nodes_count a : expression_nodes (Count a) = 1 + nodes_of [a].
Proof. unfold nodes_of. simpl. lia. Qed.
Lemma depth_find a q : expression_depth (Find a q) = 1 + depth_of [a; q].
Proof. unfold depth_of. simpl. pose proof (depth_pos q). lia. Qed.
Lemma depth_count a : expression_depth (Count a) = 1 + depth_of [a].
Proof. unfold depth_of. simpl. pose proof (depth_pos a). lia. Qed.
Lemma depth_call f es : expression_depth (Call f es) = 1 + depth_of es.
Proof. done. Qed.
Lemma nodes_of_cons e es : nodes_of (e :: es) = expression_nodes e + nodes_of es.
Proof. done. Qed.
Lemma depth_of_cons e es : depth_of (e :: es) = Z.max (expression_depth e) (depth_of es).
Proof. done. Qed.

(** *** The grammar reads forward *)

Lemma trim_token s token s1 :
  trim_start s = token ++ s1 → s1 `suffix_of` s ∧ (length token + length s1 ≤ length s)%nat.
Proof.
  intros Ht. destruct (trim_start_suffix s) as [w Hw]. rewrite Ht in Hw. split.
  - exists (w ++ token). by rewrite <- app_assoc.
  - rewrite Hw, !length_app. lia.
Qed.

Lemma quoted_body_suffix closing s t s' :
  quoted_body closing s = Some (t, s') → s' `suffix_of` s ∧ (length s' < length s)%nat.
Proof.
  revert t s'. induction s as [s IH] using (induction_ltof1 _ length); unfold ltof in IH.
  intros t s'. destruct s as [|c s]; simpl; [done|].
  destruct (c =? closing). { intros [= <- <-]. split; [by exists [c]|lia]. }
  destruct (c =? 92).
  - destruct s as [|e s]; [done|]. destruct (unescape e); [|done]. simpl.
    destruct (quoted_body closing s) as [[t1 s1]|] eqn:Hs; [|done]. intros [= <- <-].
    apply IH in Hs as [Hs Hl]; [|simpl; lia]. split; [|lia]. do 2 apply suffix_cons_r. done.
  - destruct ((c =? 10) || (c =? 13)); [done|].
    destruct (quoted_body closing s) as [[t1 s1]|] eqn:Hs; [|done]. intros [= <- <-].
    apply IH in Hs as [Hs Hl]; [|simpl; lia]. split; [|lia]. by apply suffix_cons_r.
Qed.

Lemma quoted_lex_suffix s t s' :
  quoted_lex s = Some (t, s') → s' `suffix_of` s ∧ (length s' < length s)%nat.
Proof.
  unfold quoted_lex. destruct s as [|c s]; [done|].
  destruct (c =? 8220); [|destruct (c =? 34)]; intros [Hs Hl]%quoted_body_suffix; [| |done];
    (split; [by apply suffix_cons_r|simpl; lia]).
Qed.

Lemma name_lex_suffix s n s' :
  name_lex s = Some (n, s') → s' `suffix_of` s ∧ (length s' < length s)%nat.
Proof.
  unfold name_lex. destruct (opens_quote s).
  - destruct (quoted_lex s) as [[t s1]|] eqn:Hq; [|done]. simpl. case_bool_decide; [done|].
    intros [= <- <-]. by apply quoted_lex_suffix in Hq.
  - destruct (bare_name s) as [t r] eqn:Hb. apply bare_name_app in Hb as ->.
    case_bool_decide; [done|]. intros [= <- <-]. split; [by exists t|].
    rewrite length_app. destruct t; simpl; [done|lia].
Qed.

Lemma trim_length s : (length (trim_start s) ≤ length s)%nat.
Proof. apply suffix_length, trim_start_suffix. Qed.

Lemma suffix_app_r (u s : text) : s `suffix_of` (u ++ s).
Proof. by exists u. Qed.

(** What the lexer consumed, as suffixes and lengths. *)
Ltac forward :=
  repeat match goal with
  | H : trim_start _ = _ ++ _ |- _ => apply trim_token in H as [? ?]
  | H : trim_start _ = _ :: _ |- _ => apply (trim_token _ [_]) in H as [? ?]
  | H : name_lex _ = Some _ |- _ => apply name_lex_suffix in H as [? ?]
  | H : quoted_body _ _ = Some _ |- _ => apply quoted_body_suffix in H as [? ?]
  | H : _ ∧ _ |- _ => destruct H
  end.
Ltac suffix_chain :=
  solve [ eassumption | apply trim_start_suffix | apply suffix_app_r
    | match goal with
      | H : ?a `suffix_of` ?b |- ?a `suffix_of` _ => etrans; [exact H|clear H; suffix_chain]
      | |- trim_start ?a `suffix_of` _ => etrans; [apply trim_start_suffix|suffix_chain]
      | |- ?a `suffix_of` (_ ++ ?b) => etrans; [|apply suffix_app_r]; suffix_chain
      end ].
Ltac suffix_lengths :=
  repeat match goal with H : _ `suffix_of` _ |- _ => apply suffix_length in H end;
  repeat match goal with
  | H : context [trim_start ?a] |- _ =>
    lazymatch goal with
    | _ : (length (trim_start a) ≤ length a)%nat |- _ => fail
    | _ => pose proof (trim_length a)
    end
  end;
  rewrite ?length_app in *; simpl in *; lia.

Lemma grammar_forward :
  (∀ s e s', Expr s e s' → s' `suffix_of` s ∧ (length s' < length s)%nat) ∧
  (∀ a s e s', Pipes a s e s' → s' `suffix_of` s
     ∧ expression_depth a ≤ expression_depth e ∧ expression_nodes a ≤ expression_nodes e) ∧
  (∀ s es s', OptArgs s es s' → s' `suffix_of` s) ∧
  (∀ s e s', Atom s e s' → s' `suffix_of` s ∧ (length s' < length s)%nat) ∧
  (∀ s es s', Args s es s' → s' `suffix_of` s) ∧
  (∀ s es s', ArgSeq s es s' → s' `suffix_of` s).
Proof.
  apply grammar_mut; intros; forward; try (split; [suffix_chain|]); try suffix_chain; try suffix_lengths.
  - done.
  - rewrite nodes_call, depth_call, nodes_of_cons, depth_of_cons in *.
    pose proof (nodes_of_pos more). lia.
Qed.

(** *** Soundness: what the parser accepts is in the language *)

Lemma suffix_src s' s : s `suffix_of` src → s' `suffix_of` s → s' `suffix_of` src.
Proof. intros ? ?. by etrans. Qed.
Lemma trim_src s : s `suffix_of` src → trim_start s `suffix_of` src.
Proof. intros Hs. eapply suffix_src; [exact Hs|apply trim_start_suffix]. Qed.

(** The parser read a value of size [size a] in the sense of [R] from [s]. *)
Definition reads {A} (R : text → A → text → Prop) (size : A → Z) (s : text) (n : Z) (a : A) (p : Parser) : Prop :=
  ∃ s', p = st s' (n + size a) ∧ R s a s' ∧ s' `suffix_of` src ∧ n + size a ≤ MAX_NEURAL_NODES.

(** Steps of a run whose outcome is known. *)
Ltac step_take token s n Hs :=
  let s' := fresh "s" in let Heq := fresh "Heq" in let Hs' := fresh "Hs" in
  let Ht := fresh "Ht" in let Hno := fresh "Hno" in
  destruct (take_cases token s n Hs) as [(s' & Heq & Hs' & Ht)|[Hno Ht]];
  rewrite (bind_ok _ _ _ _ _ Ht); clear Ht.
Ltac step_whitespace s n Hs :=
  rewrite (bind_ok _ _ _ _ _ (whitespace_st s n Hs));
  let Hw := fresh "Hs" in pose proof (trim_src s Hs) as Hw.
(** A name, on the branch where the lexer finds one. *)
Ltac step_name s n Hs :=
  let Hl := fresh "Hl" in pose proof (name_lexes s n Hs) as Hl;
  let nm := fresh "nm" in let r := fresh "s" in let Hn := fresh "Hn" in
  destruct (name_lex s) as [[nm r]|] eqn:Hn; [|by apply refuses_runs, bind_refuses];
  cbv beta iota delta [lexes] in Hl; rewrite (bind_ok _ _ _ _ _ Hl); clear Hl;
  let Hr := fresh "Hs" in
  assert (r `suffix_of` src) as Hr by (eapply suffix_src; [exact Hs|by apply name_lex_suffix in Hn as [? _]]).
Ltac step_fuel := rewrite (bind_ok loop_fuel _ (st _ _) (S (length src)) (st _ _)) by done.

Section Calls.
Context (expr : Z → PM NeuralExpression) (depth : Z).
Hypothesis expr_reads : ∀ s n, s `suffix_of` src → n ≤ MAX_NEURAL_NODES →
  runs (reads Expr expression_nodes s n) (expr (depth + 1) (st s n)).

Lemma arguments_loop_reads : ∀ fuel acc s n,
  s `suffix_of` src → n ≤ MAX_NEURAL_NODES → (length s < fuel)%nat →
  runs (λ es p, ∃ more, es = acc ++ more ∧ reads ArgSeq nodes_of s n more p)
    (arguments_loop (expr (depth + 1)) fuel acc (st s n)).
Proof.
  induction fuel as [|fuel IH]; intros acc s n Hs Hn Hf; [lia|]. simpl arguments_loop.
  eapply runs_bind; [by apply expr_reads|]. intros e p (s1 & -> & He & Hs1 & Hn1).
  step_whitespace s1 (n + expression_nodes e) Hs1.
  step_take (str ")") (trim_start s1) (n + expression_nodes e) Hs0.
  - exists [e]. split; [done|]. exists s0. rewrite nodes_of_cons, Z.add_0_r.
    repeat split; [|done|done]. by eapply ArgSeq_last.
  - step_take (str ",") (trim_start s1) (n + expression_nodes e) Hs0; [|apply refuses_runs, error_refuses].
    pose proof (proj1 grammar_forward _ _ _ He) as [_ Hlt]. apply trim_token in Heq as Hl.
    eapply runs_mono; [|apply IH; [done|done|simpl in Hl; lia]].
    intros es p (more & -> & s' & -> & Hmore & Hs' & Hn'). exists (e :: more).
    rewrite <- app_assoc. split; [done|]. exists s'. rewrite nodes_of_cons, Z.add_assoc.
    repeat split; [|done|done]. by eapply ArgSeq_more.
Qed.

Lemma arguments_reads s n :
  s `suffix_of` src → n ≤ MAX_NEURAL_NODES → runs (reads Args nodes_of s n) (arguments expr depth (st s n)).
Proof.
  intros Hs Hn. unfold arguments. step_whitespace s n Hs.
  step_take (str ")") (trim_start s) n Hs0.
  - exists s0. unfold nodes_of. simpl. rewrite Z.add_0_r. repeat split; [|done|done]. by apply Args_none.
  - step_fuel. pose proof (suffix_length _ _ Hs0) as Hl.
    eapply runs_mono; [|apply arguments_loop_reads; [done|done|lia]].
    intros es p (more & -> & s' & -> & Hm & Hs' & Hn'). exists s'. repeat split; [|done|done]. by apply Args_some.
Qed.

Lemma atom_reads s n :
  s `suffix_of` src → n ≤ MAX_NEURAL_NODES → runs (reads Atom expression_nodes s n) (atom expr depth (st s n)).
Proof.
  intros Hs Hn. unfold atom. step_whitespace s n Hs.
  eapply runs_bind; [apply node_runs|]. intros [] p [-> Hn1].
  step_take (str "@") (trim_start s) (n + 1) Hs0.
  - step_name s0 (n + 1) Hs1. step_whitespace s1 (n + 1) Hs2.
    step_take (str "(") (trim_start s1) (n + 1) Hs3.
    + eapply runs_bind; [by apply arguments_reads|]. intros es p (s' & -> & Ha & Hs' & Hn').
      exists s'. rewrite nodes_call, Z.add_assoc. repeat split; [|done|done]. by eapply Atom_call.
    + exists (trim_start s1). simpl. repeat split; [|done|done]. by eapply Atom_reference.
  - rewrite (bind_ok _ _ _ _ _ (rest_st _ (n + 1) Hs0)).
    destruct (starts_with (trim_start s) [34]) eqn:Hq.
    { apply starts_with_true in Hq as [s1 Hq].
      pose proof (quoted_lexes (trim_start s) (n + 1) Hs0 ltac:(by rewrite Hq)) as Hl.
      rewrite Hq in Hl at 1. simpl in Hl.
      destruct (quoted_body 34 s1) as [[t s']|] eqn:Hb; [|by apply refuses_runs, bind_refuses].
      simpl in Hl. rewrite (bind_ok _ _ _ _ _ Hl). exists s'. simpl.
      repeat split; [by eapply Atom_literal| |done].
      eapply suffix_src; [exact Hs0|]. rewrite Hq. apply suffix_cons_r. by apply quoted_body_suffix in Hb as [? _]. }
    step_take (str "find") (trim_start s) (n + 1) Hs0.
    { step_whitespace s0 (n + 1) Hs1. step_take (str "(") (trim_start s0) (n + 1) Hs2;
        simpl negb; cbv iota; [|apply refuses_runs, error_refuses].
      eapply runs_bind; [by apply arguments_reads|]. intros es p (s' & -> & Ha & Hs' & Hn').
      destruct es as [|a [|q [|]]]; try apply refuses_runs, error_refuses.
      exists s'. rewrite nodes_find, Z.add_assoc. repeat split; [by eapply Atom_find|done|done]. }
    step_take (str "count") (trim_start s) (n + 1) Hs0; [|apply refuses_runs, error_refuses].
    step_whitespace s0 (n + 1) Hs1. step_take (str "(") (trim_start s0) (n + 1) Hs2;
      simpl negb; cbv iota; [|apply refuses_runs, error_refuses].
    eapply runs_bind; [by apply arguments_reads|]. intros es p (s' & -> & Ha & Hs' & Hn').
    destruct es as [|a [|]]; try apply refuses_runs, error_refuses.
    exists s'. rewrite nodes_count, Z.add_assoc. repeat split; [by eapply Atom_count|done|done].
Qed.
End Calls.

(** The pipeline loop, behind an operand that ends before [s]. *)
Lemma pipeline_reads expr depth :
  (∀ s n, s `suffix_of` src → n ≤ MAX_NEURAL_NODES →
    runs (reads Expr expression_nodes s n) (expr (depth + 1) (st s n))) →
  ∀ fuel a s n, s `suffix_of` src → n ≤ MAX_NEURAL_NODES → (length s < fuel)%nat →
  runs (λ e p, ∃ s', p = st s' (n + (expression_nodes e - expression_nodes a)) ∧ Pipes a s e s'
      ∧ s' `suffix_of` src ∧ n + (expression_nodes e - expression_nodes a) ≤ MAX_NEURAL_NODES)
    (pipeline expr fuel depth a (st s n)).
Proof.
  intros Hexpr. induction fuel as [|fuel IH]; intros a s n Hs Hn Hf; [lia|]. simpl pipeline.
  step_take (str "|>") s n Hs; cbn [negb]; cbv iota.
  2: { exists s. rewrite Z.sub_diag, Z.add_0_r. repeat split; [by apply Pipes_end|done|done]. }
  step_whitespace s0 n Hs0. step_take (str "@") (trim_start s0) n Hs1; cbn [negb]; cbv iota;
    [|apply refuses_runs, error_refuses].
  step_name s1 n Hs2. eapply runs_bind; [apply node_runs|]. intros [] p [-> Hn1].
  step_whitespace s2 (n + 1) Hs3.
  step_take (str "(") (trim_start s2) (n + 1) Hs4;
    apply (runs_bind (reads OptArgs nodes_of s2 (n + 1))).
  { eapply runs_mono; [|by apply arguments_reads]. intros es p (s' & -> & Ha & Hs' & Hn').
    exists s'. repeat split; [by eapply OptArgs_some|done|done]. }
  2: { exists (trim_start s2). unfold nodes_of. simpl. rewrite Z.add_0_r.
    repeat split; [by apply OptArgs_none|done|done]. }
  all: intros more p (s4 & -> & Hmore & Hend & Hn2);
    (destruct (MAX_NEURAL_DEPTH <? _); [apply refuses_runs, error_refuses|]);
    step_whitespace s4 (n + 1 + nodes_of more) Hend;
    (eapply runs_mono; [|apply IH; [done|done|]]);
    [intros e p (s' & -> & Hp & Hs' & Hn'); exists s';
     rewrite nodes_call, nodes_of_cons in *; repeat split;
       [f_equal; lia|rewrite Heq; by eapply Pipes_call|done|lia]
    |apply trim_token in Heq0 as [_ ?]; apply name_lex_suffix in Hn0 as [_ ?];
     apply grammar_forward in Hmore; subst s; suffix_lengths].
Qed.

Lemma expression_reads : ∀ fuel depth s n,
  depth ≤ MAX_NEURAL_DEPTH → MAX_NEURAL_DEPTH - depth < Z.of_nat fuel →
  s `suffix_of` src → n ≤ MAX_NEURAL_NODES →
  runs (reads Expr expression_nodes s n) (expression fuel depth (st s n)).
Proof.
  induction fuel as [|fuel IH]; intros depth s n Hd Hf Hs Hn; [lia|]. simpl expression.
  destruct (Z.leb_spec MAX_NEURAL_DEPTH depth); [apply refuses_runs, error_refuses|].
  assert (∀ s n, s `suffix_of` src → n ≤ MAX_NEURAL_NODES →
    runs (reads Expr expression_nodes s n) (expression fuel (depth + 1) (st s n))) as Hexpr.
  { intros. apply IH; try done; lia. }
  eapply runs_bind; [by apply atom_reads|]. intros a p (s1 & -> & Ha & Hs1 & Hn1).
  step_whitespace s1 (n + expression_nodes a) Hs1. step_fuel.
  pose proof (suffix_length _ _ Hs0) as Hl.
  eapply runs_mono; [|apply pipeline_reads; [done|done|done|lia]].
  intros e p (s' & -> & Hp & Hs' & Hn'). exists s'.
  replace (n + expression_nodes a + (expression_nodes e - expression_nodes a))
    with (n + expression_nodes e) in * by lia.
  repeat split; [|done|done]. by eapply Expr_pipeline.
Qed.

(** *** Completeness: the parser accepts the language within the limits *)

Lemma argseq_not_close s es s' : ArgSeq s es s' → starts_with (trim_start s) (str ")") = false.
Proof.
  assert (∀ e s', Expr s e s' → starts_with (trim_start s) (str ")") = false) as He.
  { intros e s1 He. inversion He as [? ? ? ? ? Ha]; subst.
    inversion Ha as [? ? ? ? Hs|? ? ? ? ? ? ? Hs|? ? ? ? Hs|? ? ? ? ? ? Hs|? ? ? ? ? Hs]; subst; by rewrite Hs. }
  destruct 1; eauto.
Qed.

Ltac step_found token s n := rewrite (bind_ok _ _ _ _ _ (take_true token s n ltac:(done))).
Ltac step_absent token s n := rewrite (bind_ok _ _ _ _ _ (take_false token s n ltac:(done) ltac:(done))).

Lemma step_trim_take {A} (f : bool → PM A) token s s1 n r :
  s `suffix_of` src → trim_start s = token ++ s1 →
  f true (st s1 n) = r → (_ ← whitespace ; b ← take token ; f b) (st s n) = r.
Proof.
  intros Hs Ht Hr. rewrite (bind_ok _ _ _ _ _ (whitespace_st s n Hs)).
  pose proof (trim_src s Hs) as Hs1. rewrite Ht in *. by rewrite (bind_ok _ _ _ _ _ (take_true token s1 n Hs1)).
Qed.

Lemma step_trim_skip {A} (f : bool → PM A) token s n r :
  s `suffix_of` src → starts_with (trim_start s) token = false →
  f false (st (trim_start s) n) = r → (_ ← whitespace ; b ← take token ; f b) (st s n) = r.
Proof.
  intros Hs Ht Hr. rewrite (bind_ok _ _ _ _ _ (whitespace_st s n Hs)).
  by rewrite (bind_ok _ _ _ _ _ (take_false token _ n (trim_src s Hs) Ht)).
Qed.

Lemma trim_token_src s token s1 : s `suffix_of` src → trim_start s = token ++ s1 → s1 `suffix_of` src.
Proof. intros Hs [Ht _]%trim_token. by eapply suffix_src. Qed.

Lemma name_run s nm s1 n :
  s `suffix_of` src → name_lex s = Some (nm, s1) → name (st s n) = (Ok nm, st s1 n) ∧ s1 `suffix_of` src.
Proof.
  intros Hs Hn. pose proof (name_lexes s n Hs) as Hl. rewrite Hn in Hl. split; [done|].
  apply name_lex_suffix in Hn as [Hn _]. by eapply suffix_src.
Qed.

Definition room (fuel : nat) (depth : Z) : Prop := 0 ≤ depth ∧ MAX_NEURAL_DEPTH - depth ≤ Z.of_nat fuel.

Definition runs_Expr s e s' : Prop := ∀ fuel depth n,
  s `suffix_of` src → 0 ≤ depth → MAX_NEURAL_DEPTH - depth < Z.of_nat fuel →
  depth + expression_depth e ≤ MAX_NEURAL_DEPTH → n + expression_nodes e ≤ MAX_NEURAL_NODES →
  expression fuel depth (st s n) = (Ok e, st s' (n + expression_nodes e)).
Definition runs_Pipes a s e s' : Prop := ∀ fuel loop depth n,
  s `suffix_of` src → room fuel depth → (length s < loop)%nat →
  depth + expression_depth e ≤ MAX_NEURAL_DEPTH →
  n + (expression_nodes e - expression_nodes a) ≤ MAX_NEURAL_NODES →
  pipeline (expression fuel) loop depth a (st s n)
    = (Ok e, st s' (n + (expression_nodes e - expression_nodes a))).
Definition runs_OptArgs s es s' : Prop := ∀ fuel depth n,
  s `suffix_of` src → room fuel depth →
  depth + 1 + depth_of es ≤ MAX_NEURAL_DEPTH → n + nodes_of es ≤ MAX_NEURAL_NODES →
  ∀ A (f : list NeuralExpression → PM A),
  (_ ← whitespace ; open ← take (str "(") ;
   more ← (if open : bool then arguments (expression fuel) depth else mret []) ; f more) (st s n)
  = f es (st s' (n + nodes_of es)).
Definition runs_Atom s e s' : Prop := ∀ fuel depth n,
  s `suffix_of` src → room fuel depth →
  depth + expression_depth e ≤ MAX_NEURAL_DEPTH → n + expression_nodes e ≤ MAX_NEURAL_NODES →
  atom (expression fuel) depth (st s n) = (Ok e, st s' (n + expression_nodes e)).
Definition runs_Args s es s' : Prop := ∀ fuel depth n,
  s `suffix_of` src → room fuel depth →
  depth + 1 + depth_of es ≤ MAX_NEURAL_DEPTH → n + nodes_of es ≤ MAX_NEURAL_NODES →
  arguments (expression fuel) depth (st s n) = (Ok es, st s' (n + nodes_of es)).
Definition runs_ArgSeq s es s' : Prop := ∀ fuel loop depth acc n,
  s `suffix_of` src → room fuel depth → (length s < loop)%nat →
  depth + 1 + depth_of es ≤ MAX_NEURAL_DEPTH → n + nodes_of es ≤ MAX_NEURAL_NODES →
  arguments_loop (expression fuel (depth + 1)) loop acc (st s n) = (Ok (acc ++ es), st s' (n + nodes_of es)).

Lemma complete_ArgSeq_last s e s1 s' :
  Expr s e s1 → runs_Expr s e s1 → trim_start s1 = str ")" ++ s' → runs_ArgSeq s [e] s'.
Proof.
  intros Hg He Ht fuel loop depth acc n Hs [Hd Hf] Hl Hdepth Hn. destruct loop as [|loop]; [lia|].
  apply grammar_forward in Hg as [Hs1 _].
  rewrite nodes_of_cons, depth_of_cons in *. unfold nodes_of, depth_of in *. simpl in Hdepth, Hn.
  simpl arguments_loop. erewrite bind_ok; [|apply He; done || lia].
  apply step_trim_take with s'; [by eapply suffix_src|done|]. simpl. by rewrite Z.add_0_r.
Qed.

Lemma complete_ArgSeq_more s e s1 s2 es s' :
  Expr s e s1 → runs_Expr s e s1 → trim_start s1 = str "," ++ s2 → runs_ArgSeq s2 es s' →
  runs_ArgSeq s (e :: es) s'.
Proof.
  intros Hg He Ht Hes fuel loop depth acc n Hs [Hd Hf] Hl Hdepth Hn. destruct loop as [|loop]; [lia|].
  rewrite nodes_of_cons, depth_of_cons in *. pose proof (nodes_of_pos es).
  apply grammar_forward in Hg as [Hs1 Hl1].
  simpl arguments_loop. erewrite bind_ok; [|apply He; done || lia].
  apply step_trim_skip; [by eapply suffix_src|by rewrite Ht|].
  pose proof (trim_src s1 ltac:(by eapply suffix_src)) as Hs2. apply trim_token in Ht as Hl2. rewrite Ht in *.
  rewrite (bind_ok _ _ _ _ _ (take_true (str ",") s2 _ Hs2)).
  rewrite Hes; [|by eapply suffix_src, suffix_app_r|done|simpl in Hl2; lia|lia|lia].
  by rewrite <- app_assoc, Z.add_assoc.
Qed.


Lemma complete_Args_none s s' : trim_start s = str ")" ++ s' → runs_Args s [] s'.
Proof.
  intros Ht fuel depth n Hs [Hd Hf] Hdepth Hn. unfold arguments.
  apply step_trim_take with s'; [done|done|]. unfold nodes_of. simpl. by rewrite Z.add_0_r.
Qed.

Lemma complete_Args_some s es s' :
  ArgSeq (trim_start s) es s' → runs_ArgSeq (trim_start s) es s' → runs_Args s es s'.
Proof.
  intros Hg Hes fuel depth n Hs Hroom Hdepth Hn. unfold arguments.
  pose proof (trim_src s Hs) as Hs1. pose proof (suffix_length _ _ Hs1).
  apply step_trim_skip; [done| |].
  - rewrite <- (trim_start_idemp s). by eapply argseq_not_close.
  - step_fuel. rewrite Hes; [done|done|done|lia|lia|lia].
Qed.

Lemma complete_OptArgs_none s : starts_with (trim_start s) (str "(") = false → runs_OptArgs s [] (trim_start s).
Proof.
  intros Ht fuel depth n Hs Hroom Hdepth Hn A f. apply step_trim_skip; [done|done|].
  unfold nodes_of. simpl. by rewrite Z.add_0_r.
Qed.

Lemma complete_OptArgs_some s s1 es s' :
  trim_start s = str "(" ++ s1 → runs_Args s1 es s' → runs_OptArgs s es s'.
Proof.
  intros Ht Ha fuel depth n Hs Hroom Hdepth Hn A f. apply step_trim_take with s1; [done|done|].
  apply bind_ok, Ha; [|done|done|done]. by eapply trim_token_src.
Qed.

Lemma complete_Pipes_end a s : starts_with s (str "|>") = false → runs_Pipes a s a s.
Proof.
  intros Ht fuel loop depth n Hs [Hd Hf] Hl Hdepth Hn. destruct loop as [|loop]; [lia|]. simpl pipeline.
  rewrite (bind_ok _ _ _ _ _ (take_false _ s n Hs Ht)). simpl. by rewrite Z.sub_diag, Z.add_0_r.
Qed.

Lemma complete_Pipes_call a s1 s2 f s3 more s4 e s' :
  trim_start s1 = str "@" ++ s2 → name_lex s2 = Some (f, s3) →
  OptArgs s3 more s4 → runs_OptArgs s3 more s4 →
  Pipes (Call f (a :: more)) (trim_start s4) e s' → runs_Pipes (Call f (a :: more)) (trim_start s4) e s' →
  runs_Pipes a (str "|>" ++ s1) e s'.
Proof.
  intros Ht Hf Hg Hmore Hgp Hp fuel loop depth n Hs Hroom Hl Hdepth Hn.
  destruct loop as [|loop]; [lia|]. simpl pipeline.
  rewrite (bind_ok _ _ _ _ _ (take_true (str "|>") s1 n Hs)). cbn [negb]. cbv iota.
  assert (s1 `suffix_of` src) as Hs1 by (eapply suffix_src, suffix_app_r; done).
  apply step_trim_take with s2; [done|done|]. cbn [negb]. cbv iota.
  pose proof (trim_token_src _ _ _ Hs1 Ht) as Hs2.
  destruct (name_run s2 f s3 n Hs2 Hf) as [Hname Hs3]. rewrite (bind_ok _ _ _ _ _ Hname).
  apply grammar_forward in Hgp as (_ & Hed & Hen). apply grammar_forward in Hg as Hs4.
  rewrite nodes_call, nodes_of_cons in *. rewrite depth_call, depth_of_cons in *.
  pose proof (nodes_of_pos more). pose proof (nodes_pos a). destruct Hroom as [Hd Hfuel].
  rewrite (bind_ok _ _ _ _ _ (node_st s3 n ltac:(lia))).
  rewrite Hmore; [|done|by split|lia|lia]. cbn beta zeta.
  rewrite (proj2 (Z.ltb_ge _ _)) by (fold (depth_of more); lia).
  rewrite (bind_ok _ _ _ _ _ (whitespace_st s4 _ ltac:(by eapply suffix_src))).
  rewrite Hp; [| |by split| |done|rewrite nodes_call, nodes_of_cons; lia].
  - rewrite nodes_call, nodes_of_cons. do 2 f_equal. lia.
  - apply trim_src. by eapply suffix_src.
  - apply trim_token in Ht as [_ ?]. apply name_lex_suffix in Hf as [_ ?]. clear Hs Hs1 Hs2 Hs3. suffix_lengths.
Qed.


(** The head of an atom: whitespace and the node count. *)
Lemma atom_start {A} (f : unit → PM A) s n r :
  s `suffix_of` src → n + 1 ≤ MAX_NEURAL_NODES →
  f tt (st (trim_start s) (n + 1)) = r → (_ ← whitespace ; x ← node ; f x) (st s n) = r.
Proof.
  intros Hs Hn Hr. rewrite (bind_ok _ _ _ _ _ (whitespace_st s n Hs)).
  by rewrite (bind_ok _ _ _ _ _ (node_st _ n Hn)).
Qed.

Lemma take_skip {A} (f : bool → PM A) token s n r :
  s `suffix_of` src → starts_with s token = false → f false (st s n) = r →
  (b ← take token ; f b) (st s n) = r.
Proof. intros Hs Ht Hr. by rewrite (bind_ok _ _ _ _ _ (take_false token s n Hs Ht)). Qed.

Lemma take_hit {A} (f : bool → PM A) token s s1 n r :
  s `suffix_of` src → s = token ++ s1 → f true (st s1 n) = r → (b ← take token ; f b) (st s n) = r.
Proof. intros Hs -> Hr. by rewrite (bind_ok _ _ _ _ _ (take_true token s1 n Hs)). Qed.

Lemma complete_Atom_reference s s1 nm s2 :
  trim_start s = str "@" ++ s1 → name_lex s1 = Some (nm, s2) →
  starts_with (trim_start s2) (str "(") = false → runs_Atom s (Reference nm) (trim_start s2).
Proof.
  intros Ht Hl Ho fuel depth n Hs Hroom Hdepth Hn. simpl in Hdepth, Hn. unfold atom.
  apply atom_start; [done|done|]. apply take_hit with s1; [by apply trim_src|done|].
  destruct (name_run s1 nm s2 (n + 1)) as [Hname Hs2]; [by eapply trim_token_src|done|].
  rewrite (bind_ok _ _ _ _ _ Hname). by apply step_trim_skip.
Qed.

Lemma complete_Atom_call s s1 nm s2 s3 es s' :
  trim_start s = str "@" ++ s1 → name_lex s1 = Some (nm, s2) →
  trim_start s2 = str "(" ++ s3 → runs_Args s3 es s' → runs_Atom s (Call nm es) s'.
Proof.
  intros Ht Hl Ho Ha fuel depth n Hs Hroom Hdepth Hn. rewrite nodes_call, depth_call in *.
  pose proof (nodes_of_pos es). unfold atom.
  apply atom_start; [done|lia|]. apply take_hit with s1; [by apply trim_src|done|].
  destruct (name_run s1 nm s2 (n + 1)) as [Hname Hs2]; [by eapply trim_token_src|done|].
  rewrite (bind_ok _ _ _ _ _ Hname). apply step_trim_take with s3; [done|done|]. cbv iota.
  rewrite (bind_ok _ _ _ _ _ (Ha fuel depth (n + 1) ltac:(by eapply trim_token_src) Hroom ltac:(lia) ltac:(lia))).
  by rewrite Z.add_assoc.
Qed.

Lemma complete_Atom_literal s s1 t s' :
  trim_start s = 34 :: s1 → quoted_body 34 s1 = Some (t, s') → runs_Atom s (Literal t) s'.
Proof.
  intros Ht Hq fuel depth n Hs Hroom Hdepth Hn. simpl in Hdepth, Hn. unfold atom.
  apply atom_start; [done|done|]. pose proof (trim_src s Hs) as Hs1.
  apply take_skip; [done|by rewrite Ht|].
  rewrite (bind_ok _ _ _ _ _ (rest_st _ _ Hs1)).
  replace (starts_with (trim_start s) [34]) with true by (rewrite Ht; by destruct s1).
  pose proof (quoted_lexes (trim_start s) (n + 1) Hs1 ltac:(by rewrite Ht)) as Hr.
  rewrite Ht in Hr at 1. simpl in Hr. rewrite Hq in Hr. simpl in Hr. by rewrite (bind_ok _ _ _ _ _ Hr).
Qed.

(** An operation of the host: [find] or [count] and its arguments. *)
Lemma host_args {A} fuel depth s s1 es s' n (f : list NeuralExpression → PM A) g r :
  trim_start s = str "(" ++ s1 → runs_Args s1 es s' → s `suffix_of` src → room fuel depth →
  depth + 1 + depth_of es ≤ MAX_NEURAL_DEPTH → n + nodes_of es ≤ MAX_NEURAL_NODES →
  f es (st s' (n + nodes_of es)) = r →
  (_ ← whitespace ; open ← take (str "(") ;
   if negb open then g else args ← arguments (expression fuel) depth ; f args) (st s n) = r.
Proof.
  intros Ht Ha Hs Hroom Hd Hn Hr. apply step_trim_take with s1; [done|done|]. cbn [negb]. cbv iota.
  by rewrite (bind_ok _ _ _ _ _ (Ha fuel depth n ltac:(by eapply trim_token_src) Hroom Hd Hn)).
Qed.

Lemma complete_Atom_find s s1 s2 a q s' :
  trim_start s = str "find" ++ s1 → trim_start s1 = str "(" ++ s2 → runs_Args s2 [a; q] s' →
  runs_Atom s (Find a q) s'.
Proof.
  intros Ht Ho Ha fuel depth n Hs Hroom Hdepth Hn. rewrite nodes_find, depth_find in *.
  pose proof (nodes_of_pos [a; q]). pose proof (trim_src s Hs) as Hs1. unfold atom.
  apply atom_start; [done|lia|]. apply take_skip; [done|by rewrite Ht|].
  rewrite (bind_ok _ _ _ _ _ (rest_st _ _ Hs1)).
  replace (starts_with (trim_start s) [34]) with false by by rewrite Ht.
  apply take_hit with s1; [done|done|].
  eapply host_args; [done|done|exact (trim_token_src _ _ _ Hs Ht)|done|lia|lia|]. by rewrite Z.add_assoc.
Qed.

Lemma complete_Atom_count s s1 s2 a s' :
  trim_start s = str "count" ++ s1 → trim_start s1 = str "(" ++ s2 → runs_Args s2 [a] s' →
  runs_Atom s (Count a) s'.
Proof.
  intros Ht Ho Ha fuel depth n Hs Hroom Hdepth Hn. rewrite nodes_count, depth_count in *.
  pose proof (nodes_of_pos [a]). pose proof (trim_src s Hs) as Hs1. unfold atom.
  apply atom_start; [done|lia|]. apply take_skip; [done|by rewrite Ht|].
  rewrite (bind_ok _ _ _ _ _ (rest_st _ _ Hs1)).
  replace (starts_with (trim_start s) [34]) with false by by rewrite Ht.
  apply take_skip; [done|by rewrite Ht|]. apply take_hit with s1; [done|done|].
  eapply host_args; [done|done|exact (trim_token_src _ _ _ Hs Ht)|done|lia|lia|]. by rewrite Z.add_assoc.
Qed.

Lemma complete_Expr s a s1 e s' :
  Atom s a s1 → runs_Atom s a s1 → Pipes a (trim_start s1) e s' → runs_Pipes a (trim_start s1) e s' →
  runs_Expr s e s'.
Proof.
  intros Hga Ha Hgp Hp fuel depth n Hs Hd Hf Hdepth Hn. pose proof (depth_pos e). destruct fuel as [|fuel]; [lia|].
  simpl expression. rewrite (proj2 (Z.leb_gt MAX_NEURAL_DEPTH depth)) by lia.
  apply grammar_forward in Hgp as (_ & Hed & Hen). apply grammar_forward in Hga as [Hs1 _].
  assert (s1 `suffix_of` src) as Hs2 by by eapply suffix_src.
  rewrite (bind_ok _ _ _ _ _ (Ha fuel depth n Hs ltac:(split; lia) ltac:(lia) ltac:(lia))).
  rewrite (bind_ok _ _ _ _ _ (whitespace_st s1 _ Hs2)). step_fuel.
  pose proof (suffix_length _ _ (trim_src s1 Hs2)).
  rewrite Hp; [|by apply trim_src|split; lia|lia|lia|lia]. do 2 f_equal. lia.
Qed.

Lemma expression_complete s e s' : Expr s e s' → runs_Expr s e s'.
Proof.
  apply (proj1 (grammar_mut (λ s e s' _, runs_Expr s e s') (λ a s e s' _, runs_Pipes a s e s')
    (λ s es s' _, runs_OptArgs s es s') (λ s e s' _, runs_Atom s e s')
    (λ s es s' _, runs_Args s es s') (λ s es s' _, runs_ArgSeq s es s')
    complete_Expr complete_Pipes_end
    (λ a s1 s2 f s3 more s4 e s' H1 H2 H3, complete_Pipes_call a s1 s2 f s3 more s4 e s' H1 H2 H3)
    complete_OptArgs_none (λ s s1 es s' H1 _, complete_OptArgs_some s s1 es s' H1)
    complete_Atom_reference
    (λ s s1 n s2 s3 es s' H1 H2 H3 _, complete_Atom_call s s1 n s2 s3 es s' H1 H2 H3)
    complete_Atom_literal
    (λ s s1 s2 a q s' H1 H2 _, complete_Atom_find s s1 s2 a q s' H1 H2)
    (λ s s1 s2 a s' H1 H2 _, complete_Atom_count s s1 s2 a s' H1 H2)
    complete_Args_none complete_Args_some
    (λ s e s1 s' H1 H2, complete_ArgSeq_last s e s1 s' H1 H2)
    (λ s e s1 s2 es s' H1 H2 H3 _, complete_ArgSeq_more s e s1 s2 es s' H1 H2 H3))).
Qed.

End Run.
End ParserProofs.

(** ** A canonical spelling of every expression *)

Module Canonical.
Section Canonical.

Definition escape (c : Z) : text :=
  if c =? 34 then [92; 34] else if c =? 92 then [92; 92]
  else if c =? 10 then [92; 110] else if c =? 13 then [92; 114] else [c].
Fixpoint escaped (t : text) : text :=
  match t with
  | [] => []
  | c :: t => escape c ++ escaped t
  end.
Definition quote (t : text) : text := 34 :: escaped t ++ [34].

Fixpoint commas (l : list text) : text :=
  match l with
  | [] => []
  | [t] => t
  | t :: l => t ++ str "," ++ commas l
  end.

Fixpoint render (e : NeuralExpression) : text :=
  match e with
  | Reference n => str "@" ++ quote n
  | Literal t => quote t
  | Call f es => str "@" ++ quote f ++ str "(" ++ commas (map render es) ++ str ")"
  | Find a q => str "find(" ++ render a ++ str "," ++ render q ++ str ")"
  | Count a => str "count(" ++ render a ++ str ")"
  end.

(** No name is blank. *)
Fixpoint named (e : NeuralExpression) : bool :=
  match e with
  | Reference n => negb (bool_decide (trim n = []))
  | Literal _ => true
  | Call f es => negb (bool_decide (trim f = [])) && forallb named es
  | Find a q => named a && named q
  | Count a => named a
  end.

(** A call written as a pipeline behind its first argument. *)
Definition render_pipeline (a : NeuralExpression) (f : text) (es : list NeuralExpression) : text :=
  render a ++ str "|>@" ++ quote f ++ str "(" ++ commas (map render es) ++ str ")".

End Canonical.
End Canonical.

Module NeuralTheorems.
Import Grammar Canonical ParserProofs.
Section Theorems.
Context `{UnicodeTables}.

Lemma escape_body t s : quoted_body 34 (escaped t ++ 34 :: s) = Some (t, s).
Proof.
  induction t as [|c t IH]; [done|]. simpl. rewrite <- app_assoc. unfold escape at 1.
  destruct (Z.eqb_spec c 34) as [->|H1]; [simpl; by rewrite IH|].
  destruct (Z.eqb_spec c 92) as [->|H2]; [simpl; by rewrite IH|].
  destruct (Z.eqb_spec c 10) as [->|H3]; [simpl; by rewrite IH|].
  destruct (Z.eqb_spec c 13) as [->|H4]; [simpl; by rewrite IH|].
  simpl. rewrite !(proj2 (Z.eqb_neq _ _)) by done. simpl. by rewrite IH.
Qed.

Lemma quote_name n s : trim n ≠ [] → name_lex (quote n ++ s) = Some (n, s).
Proof.
  intros Hn. unfold name_lex, quote. simpl. rewrite <- app_assoc. simpl. rewrite escape_body. simpl.
  by rewrite bool_decide_eq_false_2.
Qed.

(** What may follow an expression without becoming part of it. *)
Definition follows (s : text) : Prop :=
  starts_with (trim_start s) (str "|>") = false ∧ starts_with (trim_start s) (str "(") = false.

Lemma expr_of_atom s a s1 s' :
  Atom s a s1 → trim_start s1 = trim_start s' → follows s' → Expr s a (trim_start s').
Proof. intros Ha Ht [Hp _]. eapply Expr_pipeline; [done|]. rewrite Ht. by apply Pipes_end. Qed.

Definition reads_back (e : NeuralExpression) : Prop :=
  named e = true → ∀ s, starts_with (trim_start s) (str "(") = false →
  ∃ s1, Atom (render e ++ s) e s1 ∧ trim_start s1 = trim_start s.

Lemma reads_back_expr e s :
  reads_back e → named e = true → follows s → Expr (render e ++ s) e (trim_start s).
Proof.
  intros He Hn Hf. destruct (He Hn s (proj2 Hf)) as (s1 & Ha & Ht). by eapply expr_of_atom.
Qed.

Lemma follows_token c s : c = 41 ∨ c = 44 → follows (c :: s).
Proof. by intros [-> | ->]. Qed.

Lemma commas_read es s :
  es ≠ [] → Forall reads_back es → forallb named es = true →
  ArgSeq (commas (map render es) ++ str ")" ++ s) es s.
Proof.
  induction es as [|e es IH]; [done|]. intros _ [He Hes]%Forall_cons [Hn Hns]%andb_true_iff.
  destruct es as [|e2 es].
  - simpl commas. eapply ArgSeq_last; [by apply reads_back_expr, follows_token; auto|]. done.
  - specialize (IH ltac:(done) Hes Hns).
    change (commas (map render (e :: e2 :: es))) with (render e ++ str "," ++ commas (map render (e2 :: es))).
    rewrite <- !app_assoc. eapply ArgSeq_more; [by apply reads_back_expr, follows_token; auto| |exact IH]. done.
Qed.

Lemma commas_head e es s :
  trim_start (commas (map render (e :: es)) ++ s) = commas (map render (e :: es)) ++ s.
Proof. simpl. destruct e, es; done. Qed.

Lemma args_read es s :
  Forall reads_back es → forallb named es = true → Args (commas (map render es) ++ str ")" ++ s) es s.
Proof.
  intros Hes Hn. destruct es as [|e es]; [by apply Args_none|].
  apply Args_some. rewrite commas_head. by apply commas_read.
Qed.

Lemma render_reads_back e : reads_back e.
Proof.
  induction e as [n|t|f es IH|a q IHa IHq|a IHa] using expression_ind; intros Hn s Hs; simpl in Hn.
  - apply negb_true_iff, bool_decide_eq_false in Hn.
    eexists. split; [by eapply Atom_reference; [|apply quote_name|]|]. apply trim_start_idemp.
  - eexists. split; [apply (Atom_literal _ ((escaped t ++ [34]) ++ s)); [done|]|done].
    rewrite <- app_assoc. apply escape_body.
  - apply andb_true_iff in Hn as [Hf Hes]. apply negb_true_iff, bool_decide_eq_false in Hf.
    change (render (Call f es)) with (str "@" ++ quote f ++ str "(" ++ commas (map render es) ++ str ")").
    rewrite <- !app_assoc.
    eexists. split; [eapply Atom_call; [done|by apply quote_name|done|by apply args_read]|done].
  - apply andb_true_iff in Hn as [Ha Hq].
    assert (render (Find a q) ++ s = str "find" ++ str "(" ++ commas (map render [a; q]) ++ str ")" ++ s) as ->
      by (simpl; rewrite <- !app_assoc; simpl; by rewrite <- !app_assoc).
    eexists. split; [|done].
    eapply Atom_find; [done|done|]. apply args_read; [by repeat constructor|]. simpl. by rewrite Ha, Hq.
  - assert (render (Count a) ++ s = str "count" ++ str "(" ++ commas (map render [a]) ++ str ")" ++ s) as ->
      by (simpl; by rewrite <- !app_assoc).
    eexists. split; [|done].
    eapply Atom_count; [done|done|]. apply args_read; [by repeat constructor|]. simpl. by rewrite Hn.
Qed.

(** Every name the grammar reads is not blank. *)
Lemma name_scalar_visible c : name_scalar c = true → is_whitespace c = false.
Proof.
  unfold name_scalar. destruct (is_alphanumeric c) eqn:Ha; [by intros; apply alphanumeric_not_whitespace|].
  intros Hc. unfold is_whitespace. apply not_true_iff_false. intros Hw.
  repeat rewrite ?orb_true_iff, ?andb_true_iff, ?orb_false_l, ?Z.leb_le, ?Z.eqb_eq in *. lia.
Qed.

Lemma bare_name_visible s t r :
  bare_name s = (t, r) → t ≠ [] → trim t ≠ [].
Proof.
  intros Hb Hne. rewrite trim_nil. intros Hw. destruct s as [|c s]; [simpl in Hb; congruence|].
  rewrite (bare_name_step (c :: s)) in Hb by done.
  destruct (starts_with (c :: s) (str "::")).
  - destruct (bare_name (drop 2 (c :: s))) as [t1 r1]. injection Hb as <- <-.
    by apply Forall_cons in Hw as [? _].
  - destruct (name_scalar c) eqn:Hc; [|by injection Hb as <- <-].
    destruct (bare_name s) as [t1 r1]. injection Hb as <- <-. apply Forall_cons in Hw as [Hw _].
    apply name_scalar_visible in Hc. congruence.
Qed.

Lemma name_lex_named s n s' : name_lex s = Some (n, s') → negb (bool_decide (trim n = [])) = true.
Proof.
  intros Hn. apply negb_true_iff, bool_decide_eq_false. revert Hn. unfold name_lex. destruct (opens_quote s).
  - destruct (quoted_lex s) as [[t r]|]; simpl; [|done]. case_bool_decide; [done|]. by intros [= <- <-].
  - destruct (bare_name s) as [t r] eqn:Hb. case_bool_decide; [done|]. intros [= <- <-].
    by eapply bare_name_visible.
Qed.

Lemma grammar_named :
  (∀ s e s', Expr s e s' → named e = true) ∧
  (∀ a s e s', Pipes a s e s' → named a = true → named e = true) ∧
  (∀ s es s', OptArgs s es s' → forallb named es = true) ∧
  (∀ s e s', Atom s e s' → named e = true) ∧
  (∀ s es s', Args s es s' → forallb named es = true) ∧
  (∀ s es s', ArgSeq s es s' → forallb named es = true).
Proof.
  apply grammar_mut; intros; auto;
    repeat match goal with H : name_lex _ = Some _ |- _ => apply name_lex_named in H end;
    simpl in *; rewrite ?andb_true_r in *; bool_prop; rewrite ?andb_true_iff in *;
    try (match goal with HP : _ → named ?e = true |- named ?e = true => apply HP end);
    repeat split; try (by apply negb_true_iff, bool_decide_eq_false); auto.
Qed.

(** *** The entry point *)

Lemma parse_neural_command_cases src :
  parse_neural_command src =
    if MAX_NEURAL_COMMAND_BYTES <? str_len src then
      Err (Fail {| err_offset := MAX_NEURAL_COMMAND_BYTES; message := "input exceeds the byte limit" |})
    else match strip_prefix (trim_start src) (str "=") with
         | None => Ok (Prompt src)
         | Some s =>
           fst ((e ← expression depth_fuel 0 ;
             _ ← whitespace ;
             p ← sm_get ;
             if negb (offset p =? str_len src) then error "expected the end of the expression"
             else if MAX_NEURAL_DEPTH <? expression_depth e then
               error "expression nesting exceeds the limit"
             else mret (Expression e) : PM NeuralCommand) (st src s 0))
         end.
Proof.
  unfold parse_neural_command, check_size, fail_if, reject_if.
  destruct (MAX_NEURAL_COMMAND_BYTES <? str_len src); [done|].
  unfold strip_prefix. destruct (starts_with (trim_start src) (str "=")) eqn:Hs; [|done].
  apply starts_with_true in Hs as [s Hs]. cbn [mbind result_bind]. rewrite Hs, drop_app_length.
  replace (str_len src - str_len (str "=" ++ s) + 1) with (str_len src - str_len s); [done|].
  rewrite str_len_app. change (str_len (str "=")) with 1. lia.
Qed.

Lemma entry_suffix src s : trim_start src = str "=" ++ s → s `suffix_of` src.
Proof. intros Hs. by apply trim_token in Hs as [? _]. Qed.

(** The whole entry behind its equals sign. *)
Lemma entry_runs src s :
  trim_start src = str "=" ++ s →
  match fst ((e ← expression depth_fuel 0 ;
      _ ← whitespace ;
      p ← sm_get ;
      if negb (offset p =? str_len src) then error "expected the end of the expression"
      else if MAX_NEURAL_DEPTH <? expression_depth e then error "expression nesting exceeds the limit"
      else mret (Expression e) : PM NeuralCommand) (st src s 0)) with
  | Ok c => ∃ e s', c = Expression e ∧ Expr s e s' ∧ trim_start s' = [] ∧ within_limits e
  | Err (Fail _) => True
  | Err _ => False
  end.
Proof.
  intros Hs. pose proof (entry_suffix _ _ Hs) as Hsuf.
  set (r := (_ : PM NeuralCommand) (st src s 0)).
  assert (runs (λ c _, ∃ e s', c = Expression e ∧ Expr s e s' ∧ trim_start s' = [] ∧ within_limits e) r) as Hr.
  { unfold r. eapply runs_bind; [by apply expression_reads|].
    intros e p (s' & -> & He & Hs' & Hn). rewrite (bind_ok _ _ _ _ _ (whitespace_st src s' _ Hs')).
    rewrite (bind_ok _ _ _ (st src (trim_start s') (0 + expression_nodes e)) (st src (trim_start s') (0 + expression_nodes e))) by done.
    cbn [offset st]. destruct (Z.eqb_spec (str_len src - str_len (trim_start s')) (str_len src)) as [Hz|];
      [|apply refuses_runs, error_refuses]. cbn [negb]. cbv iota.
    destruct (Z.ltb_spec MAX_NEURAL_DEPTH (expression_depth e)); [apply refuses_runs, error_refuses|].
    exists e, s'. repeat split; [done| |done|done].
    destruct (trim_start s') as [|c t]; [done|]. simpl in Hz.
    pose proof (len_utf8_pos c). pose proof (str_len_nonneg t). lia. }
  by destruct r as [[c|[| |e]] p].
Qed.


(** What the parser makes of an entry, whatever it is. *)
Lemma parse_neural_command_sound src :
  match parse_neural_command src with
  | Ok (Prompt p) => p = src ∧ str_len src ≤ MAX_NEURAL_COMMAND_BYTES
      ∧ starts_with (trim_start src) (str "=") = false
  | Ok (Expression e) => str_len src ≤ MAX_NEURAL_COMMAND_BYTES ∧ Entry src e ∧ within_limits e
  | Err (Fail _) => True
  | Err _ => False
  end.
Proof.
  rewrite parse_neural_command_cases. destruct (Z.ltb_spec MAX_NEURAL_COMMAND_BYTES (str_len src)); [done|].
  destruct (strip_prefix (trim_start src) (str "=")) as [s|] eqn:Hs.
  - apply strip_prefix_Some in Hs. pose proof (entry_runs src s Hs) as Hr. revert Hr.
    set (r := fst _). destruct r as [c|[| |e]]; try done.
    intros (e & s' & -> & He & Ht & Hl). repeat split; [done| |apply Hl..]. by exists s, s'.
  - repeat split; [done|]. unfold strip_prefix in Hs. by destruct (starts_with _ _).
Qed.

Lemma parse_neural_command_prompt src :
  str_len src ≤ MAX_NEURAL_COMMAND_BYTES → starts_with (trim_start src) (str "=") = false →
  parse_neural_command src = Ok (Prompt src).
Proof.
  intros Hl Hs. rewrite parse_neural_command_cases, (proj2 (Z.ltb_ge _ _)) by done.
  unfold strip_prefix. by rewrite Hs.
Qed.

Lemma parse_neural_command_complete src e :
  str_len src ≤ MAX_NEURAL_COMMAND_BYTES → Entry src e → within_limits e →
  parse_neural_command src = Ok (Expression e).
Proof.
  intros Hl (s & s' & Hs & He & Ht) [Hd Hn].
  rewrite parse_neural_command_cases, (proj2 (Z.ltb_ge _ _)) by done.
  rewrite (proj2 (strip_prefix_Some _ _ _) Hs). pose proof (entry_suffix _ _ Hs) as Hsuf.
  rewrite (bind_ok _ _ _ _ _ (expression_complete src s e s' He depth_fuel 0 0 Hsuf ltac:(lia) ltac:(done) ltac:(done) ltac:(done))).
  apply grammar_forward in He as [Hs' _].
  rewrite (bind_ok _ _ _ _ _ (whitespace_st src s' _ ltac:(by etrans))), Ht.
  rewrite (bind_ok _ _ _ (st src [] (0 + expression_nodes e)) (st src [] (0 + expression_nodes e))) by done.
  cbn [offset st str_len]. rewrite Z.sub_0_r, Z.eqb_refl. cbn [negb]. cbv iota.
  by rewrite (proj2 (Z.ltb_ge _ _)) by done.
Qed.

(** C3: the parser of terminal entries decides the language. On every input it
    returns, within its own fuel and without a slice off a scalar boundary; an
    entry without a leading equals sign is the prompt it is, byte for byte; and an
    entry is accepted as the expression [e] exactly if it is no longer than the
    limit, is written as [e] in the grammar (pipelines being calls whose first
    argument is what precedes them), and [e] is within the nesting and node
    limits. *)
Theorem neural_command_exact src :
  returns (parse_neural_command src)
  ∧ (∀ p, parse_neural_command src = Ok (Prompt p) ↔
      p = src ∧ str_len src ≤ MAX_NEURAL_COMMAND_BYTES ∧ starts_with (trim_start src) (str "=") = false)
  ∧ (∀ e, parse_neural_command src = Ok (Expression e) ↔
      str_len src ≤ MAX_NEURAL_COMMAND_BYTES ∧ Entry src e ∧ within_limits e).
Proof.
  pose proof (parse_neural_command_sound src) as Hs. split; [|split].
  - by destruct (parse_neural_command src) as [[]|[| |]].
  - intros p. split; [|intros (-> & ? & ?); by apply parse_neural_command_prompt].
    intros Hp. rewrite Hp in Hs. tauto.
  - intros e. split; [|intros (? & ? & ?); by apply parse_neural_command_complete].
    intros He. by rewrite He in Hs.
Qed.

Lemma entry_of_expr t e : Expr t e [] → Entry (str "=" ++ t) e.
Proof. intros He. by exists t, []. Qed.

Lemma pipeline_reads_back a f es :
  named (Call f (a :: es)) = true → Expr (render_pipeline a f es) (Call f (a :: es)) [].
Proof.
  simpl named. intros [Hf Hes]%andb_true_iff. apply andb_true_iff in Hes as [Ha Hes].
  apply negb_true_iff, bool_decide_eq_false in Hf.
  destruct (render_reads_back a Ha (str "|>@" ++ quote f ++ str "(" ++ commas (map render es) ++ str ")"))
    as (s1 & Hatom & Ht); [done|].
  eapply Expr_pipeline; [exact Hatom|]. rewrite Ht.
  apply (Pipes_call a _ (quote f ++ str "(" ++ commas (map render es) ++ str ")") f
    (str "(" ++ commas (map render es) ++ str ")") es []); [done|by apply quote_name| |by apply Pipes_end].
  eapply OptArgs_some; [done|]. rewrite <- (app_nil_r (str ")")) at 1. apply args_read; [|done].
  apply Forall_true, render_reads_back.
Qed.

(** C40: every expression can be written, and what is parsed can be written back.
    An expression without blank names that is within the nesting and node limits is
    parsed back from its canonical spelling, escapes and quotes included, if that
    is within the byte limit; a call may as well be written as a pipeline behind
    its first argument; and whatever the parser accepts is such an expression. *)
Theorem neural_command_roundtrip :
  (∀ e, named e = true → within_limits e → str_len (str "=" ++ render e) ≤ MAX_NEURAL_COMMAND_BYTES →
     parse_neural_command (str "=" ++ render e) = Ok (Expression e))
  ∧ (∀ a f es, named (Call f (a :: es)) = true → within_limits (Call f (a :: es)) →
     str_len (str "=" ++ render_pipeline a f es) ≤ MAX_NEURAL_COMMAND_BYTES →
     parse_neural_command (str "=" ++ render_pipeline a f es) = Ok (Expression (Call f (a :: es))))
  ∧ (∀ src e, parse_neural_command src = Ok (Expression e) → named e = true ∧ within_limits e).
Proof.
  split; [|split].
  - intros e Hn Hl Hb. apply parse_neural_command_complete; [done| |done]. apply entry_of_expr.
    rewrite <- (app_nil_r (render e)).
    by apply (reads_back_expr e []); [apply render_reads_back| |].
  - intros a f es Hn Hl Hb. apply parse_neural_command_complete; [done| |done].
    by apply entry_of_expr, pipeline_reads_back.
  - intros src e He. pose proof (parse_neural_command_sound src) as Hs. rewrite He in Hs.
    destruct Hs as (_ & (s & s' & _ & Hg & _) & Hl). split; [|done]. by apply grammar_named in Hg.
Qed.
End Theorems.

(** Tables that know the ASCII letters and digits only. *)
Definition ascii_alphanumeric (c : Z) : bool :=
  ((48 <=? c) && (c <=? 57)) || ((65 <=? c) && (c <=? 90)) || ((97 <=? c) && (c <=? 122)).

Lemma ascii_not_whitespace c : ascii_alphanumeric c = true → is_whitespace c = false.
Proof.
  unfold ascii_alphanumeric, is_whitespace. intros Ha. apply not_true_iff_false. intros Hw.
  repeat rewrite ?orb_true_iff, ?andb_true_iff, ?Z.leb_le, ?Z.eqb_eq in *. lia.
Qed.

Definition ascii_tables : UnicodeTables :=
  {| is_alphanumeric := ascii_alphanumeric;
     alphanumeric_ascii c _ := eq_refl;
     alphanumeric_not_whitespace := ascii_not_whitespace |}.

Definition demo_entry : text := str " =@Draft |> @Polish( @Voice )".
Definition demo_expression : NeuralExpression :=
  Call (str "Polish") [Reference (str "Draft"); Reference (str "Voice")].

Lemma neural_command_exact_witness :
  parse_neural_command (H:=ascii_tables) demo_entry = Ok (Expression demo_expression)
  ∧ Entry (H:=ascii_tables) demo_entry demo_expression.
Proof.
  assert (parse_neural_command (H:=ascii_tables) demo_entry = Ok (Expression demo_expression)) as Hp
    by (vm_compute; reflexivity).
  split; [exact Hp|].
  exact (proj1 (proj2 (proj1 (proj2 (proj2 (neural_command_exact (H:=ascii_tables) demo_entry)) demo_expression) Hp))).
Defined.

Lemma neural_command_roundtrip_witness :
  parse_neural_command (H:=ascii_tables) (str "=" ++ render demo_expression) = Ok (Expression demo_expression)
  ∧ str "=" ++ render demo_expression ≠ demo_entry.
Proof.
  split; [|vm_compute; congruence].
  apply (proj1 (neural_command_roundtrip (H:=ascii_tables)));
    [reflexivity|split; vm_compute; congruence|vm_compute; congruence].
Defined.
End NeuralTheorems.
