(* ===== verification/References.v ===== *)
(** * References: mentions and links in Markdown prose

    Models [document_references] and its helpers in
    [workspace-document/src/reference_grammar.rs] and the consult rules of
    [workspace-document/src/references.rs]: which spans of a document name other
    documents, which of those address a participant, and the prompt of a document
    function. Offsets are byte offsets; a slice off a scalar boundary panics; the
    [HashMap]s are finite maps. Loops over a line carry fuel. *)

From S2P Require Import Prelude Bytes Text Utf8 NeuralGrammar.
Local Open Scope Z_scope.

Record DocumentReference := { ref_name : text; ref_start : Z; ref_end : Z }.

Notation run := (parse NeuralSyntaxError).

(** [&t[a..b]], [&t[a..]], [&t[..b]] *)
Definition str_slice (t : text) (a b : Z) : run text := ok_or (str_get t a b) Panic.
Definition str_from (t : text) (a : Z) : run text := str_slice t a (str_len t).
Definition str_to (t : text) (b : Z) : run text := str_slice t 0 b.
(** [t.as_bytes().get(i) == Some(&b)] *)
Definition byte_is (t : text) (i b : Z) : bool := bool_decide (get (as_bytes t) i = Some b).

(** ** Code spans and link delimiters *)

(** The loops of [last_tick_runs], over the bytes from [offset] on: the start of
    the last run of each length. *)
Fixpoint last_tick_runs_loop (fuel : nat) (offset : Z) (bytes : list Z) (runs : gmap Z Z) : run (gmap Z Z) :=
  match fuel, bytes with
  | _, [] => Ok runs
  | O, _ => Err OutOfFuel
  | S fuel, b :: bytes' =>
    if negb (b =? 96) then last_tick_runs_loop fuel (offset + 1) bytes' runs
    else
      let n := leading 96 bytes in
      last_tick_runs_loop fuel (offset + n) (drop (Z.to_nat n) bytes) (<[n := offset]> runs)
  end.

Definition last_tick_runs (src : text) : run (gmap Z Z) :=
  last_tick_runs_loop (length (as_bytes src)) 0 (as_bytes src) ∅.

Record Delimiters := { brackets : list Z; parentheses : list Z; matches : gmap Z Z }.

(** The loop of [matching_link_delimiters] over [char_indices]. *)
Fixpoint matching_loop (offset : Z) (line : text) (d : Delimiters) : Delimiters :=
  match line with
  | [] => d
  | c :: line' =>
    let next := offset + len_utf8 c in
    if c =? 92 then
      match line' with
      | [] => d
      | e :: line'' => matching_loop (next + len_utf8 e) line'' d
      end
    else matching_loop next line'
      (if c =? 91 then {| brackets := offset :: brackets d; parentheses := parentheses d; matches := matches d |}
       else if c =? 40 then {| brackets := brackets d; parentheses := offset :: parentheses d; matches := matches d |}
       else if c =? 93 then
         match brackets d with
         | start :: more =>
           {| brackets := more; parentheses := parentheses d; matches := <[start := offset]> (matches d) |}
         | [] => d
         end
       else if c =? 41 then
         match parentheses d with
         | start :: more =>
           {| brackets := brackets d; parentheses := more; matches := <[start := offset]> (matches d) |}
         | [] => d
         end
       else d)
  end.

Definition matching_link_delimiters (line : text) : gmap Z Z :=
  matches (matching_loop 0 line {| brackets := []; parentheses := []; matches := ∅ |}).

(** [u8::from_str_radix(_, 16)] on two ASCII scalars: a plus sign is allowed. *)
Definition hex_digit (c : Z) : option Z :=
  if in_range 48 57 c then Some (c - 48)
  else if in_range 97 102 c then Some (c - 87)
  else if in_range 65 70 c then Some (c - 55)
  else None.
Definition from_hex_pair (c d : Z) : option Z :=
  if c =? 43 then hex_digit d
  else h ← hex_digit c ; l ← hex_digit d ; Some (16 * h + l).

(** The pairs [hex[at..at + 2]] of an ASCII string of even length *)
Fixpoint hex_bytes (hex : text) : option (list Z) :=
  match hex with
  | c :: d :: hex => b ← from_hex_pair c d ; bs ← hex_bytes hex ; Some (b :: bs)
  | _ => Some []
  end.

(** [contains("::")] *)
Fixpoint contains_colons (t : text) : bool :=
  match t with
  | [] => false
  | _ :: t' => starts_with t (str "::") || contains_colons t'
  end.

Definition is_ascii (t : text) : bool := forallb (λ c, c <? 128) t.
Definition lower_hex (c : Z) : bool := in_range 48 57 c || in_range 97 102 c.

(** The name carried by a [loom-document:] link, if it is well formed. *)
Definition document_identity (hex : text) : option text :=
  if (str_len hex <=? 8192) && (str_len hex mod 2 =? 0) && is_ascii hex then
    bytes ← hex_bytes hex ;
    name ← from_utf8 bytes ;
    if contains_colons name && negb (existsb is_control name) then Some name else None
  else None.

Definition reference_link_at (line : text) (start : Z) (delimiters : gmap Z Z) : run (option (Z * option text)) :=
  let image := byte_is line start 33 in
  let label_start := start + (if image then 1 else 0) in
  if negb (byte_is line label_start 91) then Ok None
  else match delimiters !! label_start with
  | None => Ok None
  | Some label_end =>
    let target_start := label_end + 1 in
    if negb (byte_is line target_start 40) then Ok None
    else
      let target_end := delimiters !! target_start in
      let link_end := match target_end with Some e => e + 1 | None => str_len line end in
      if image then Ok (Some (link_end, None))
      else
        target ← str_slice line (target_start + 1) (default (str_len line) target_end) ;
        let closed := bool_decide (is_Some target_end) && byte_is line (label_start + 1) 64 in
        match strip_prefix target (str "loom-document:") with
        | Some hex => Ok (Some (link_end, if closed then document_identity hex else None))
        | None =>
          let identity :=
            match strip_prefix target (str "loom-material:") with
            | Some value => Some (default [] (strip_prefix value (str "material-")), str "material-")
            | None =>
              match strip_prefix target (str "loom-evidence:") with
              | Some value => Some (value, str "evidence/")
              | None => None
              end
            end in
          match identity with
          | None => Ok (Some (link_end, None))
          | Some (hash, prefix) =>
            let valid := closed && (str_len hash =? 64) && forallb lower_hex hash in
            Ok (Some (link_end, if valid then Some (prefix ++ hash) else None))
          end
        end
  end.

Definition push_reference (references : list DocumentReference) (reference : DocumentReference) :
    run (list DocumentReference) :=
  if len references =? MAX_NEURAL_NODES then
    Err (Fail {| err_offset := ref_start reference; message := "too many document references" |})
  else Ok (references ++ [reference]).

Section References.
Context `{UnicodeTables}.

Definition starts_reference (character : Z) (previous : option Z) : bool :=
  (character =? 64)
  && negb (match previous with
           | Some c => is_alphanumeric c || (c =? 95) || (c =? 46) || (c =? 47) || (c =? 64) || (c =? 45)
           | None => false
           end).

Definition reference_at (src : text) (start : Z) : run (option DocumentReference) :=
  match name {| source := src; offset := start + 1; nodes := 0 |} with
  | (Err (Fail _), _) => Ok None
  | (Err Panic, _) => Err Panic
  | (Err OutOfFuel, _) => Err OutOfFuel
  | (Ok nm, p) =>
    t ← str_from src (start + 1) ;
    (* the trailing full stops that [truncate] drops are whole scalars *)
    let nm' := if opens_quote t then nm else trim_end_by (λ c, c =? 46) nm in
    let e := offset p - (str_len nm - str_len nm') in
    Ok (if bool_decide (nm' = []) then None
        else Some {| ref_name := nm'; ref_start := start; ref_end := e |})
  end.

(** The inner loop of [document_references], over one line of prose. *)
Fixpoint scan_prose (fuel : nat) (src line : text) (line_start : Z) (closing_ticks delimiters : gmap Z Z)
    (offset inline_ticks : Z) (references : list DocumentReference) :
    run (Z * list DocumentReference) :=
  if str_len line <=? offset then Ok (inline_ticks, references)
  else match fuel with
  | O => Err OutOfFuel
  | S fuel =>
    let continue := scan_prose fuel src line line_start closing_ticks delimiters in
    rest ← str_from line offset ;
    match rest with
    | [] => Err Panic
    | character :: more =>
      if character =? 96 then
        let count := leading 96 (as_bytes rest) in
        let inline_ticks' :=
          if inline_ticks =? count then 0
          else if (inline_ticks =? 0)
                  && match closing_ticks !! count with Some last => line_start + offset <? last | None => false end
          then count else inline_ticks in
        continue (offset + count) inline_ticks' references
      else if negb (inline_ticks =? 0) then continue (offset + len_utf8 character) inline_ticks references
      else if character =? 92 then
        continue (offset + len_utf8 character + match more with e :: _ => len_utf8 e | [] => 0 end)
          inline_ticks references
      else
        link ← (if (character =? 91) || (character =? 33) then reference_link_at line offset delimiters else Ok None) ;
        match link with
        | Some (link_end, link_name) =>
          references' ← match link_name with
            | Some nm => push_reference references
                {| ref_name := nm; ref_start := line_start + offset; ref_end := line_start + link_end |}
            | None => Ok references
            end ;
          continue link_end inline_ticks references'
        | None =>
          before ← str_to line offset ;
          if negb (starts_reference character (last before)) then
            continue (offset + len_utf8 character) inline_ticks references
          else
            reference ← reference_at src (line_start + offset) ;
            match reference with
            | Some r =>
              references' ← push_reference references r ;
              continue (ref_end r - line_start) inline_ticks references'
            | None => continue (offset + len_utf8 character) inline_ticks references
            end
        end
    end
  end.

(** The state of the loop over lines. *)
Record Scan := {
  references : list DocumentReference;
  fence : option (Z * Z);
  inline_ticks : Z;
  line_start : Z;
}.

Definition scan_line (src : text) (closing_ticks : gmap Z Z) (s : Scan) (line : text) : run Scan :=
  let trimmed := trim_start_by (λ c, c =? 32) line in
  let indent := str_len line - str_len trimmed in
  let marker := head (as_bytes trimmed) in
  let marked b := bool_decide (marker = Some b) in
  let run_length := match marker with Some b => leading b (as_bytes trimmed) | None => 0 end in
  let next := line_start s + str_len line in
  match fence s with
  | Some (byte, count) =>
    closes ← (if (indent <=? 3) && marked byte && (count <=? run_length)
              then t ← str_from trimmed run_length ; Ok (bool_decide (trim t = []))
              else Ok false) ;
    Ok {| references := references s; fence := if closes : bool then None else fence s;
          inline_ticks := inline_ticks s; line_start := next |}
  | None =>
    opens ← (if (inline_ticks s =? 0) && (indent <=? 3) && (marked 96 || marked 126) && (3 <=? run_length)
             then if negb (marked 96) then Ok true
                  else t ← str_from trimmed run_length ; Ok (negb (bool_decide (96 ∈ t)))
             else Ok false) ;
    if opens : bool then
      Ok {| references := references s; fence := (λ b, (b, run_length)) <$> marker;
            inline_ticks := inline_ticks s; line_start := next |}
    else if (inline_ticks s =? 0)
            && ((4 <=? indent) || starts_with line [9] || starts_with trimmed [62]) then
      Ok {| references := references s; fence := fence s; inline_ticks := inline_ticks s; line_start := next |}
    else
      '(ticks, refs) ← scan_prose (length line) src line (line_start s) closing_ticks
         (matching_link_delimiters line) 0 (inline_ticks s) (references s) ;
      Ok {| references := refs; fence := fence s; inline_ticks := ticks; line_start := next |}
  end.

Fixpoint scan_lines (src : text) (closing_ticks : gmap Z Z) (lines : list text) (s : Scan) : run Scan :=
  match lines with
  | [] => Ok s
  | line :: lines => s' ← scan_line src closing_ticks s line ; scan_lines src closing_ticks lines s'
  end.

Definition document_references (src : text) : run (list DocumentReference) :=
  _ ← check_size src MAX_NEURAL_DOCUMENT_BYTES ;
  closing_ticks ← last_tick_runs src ;
  s ← scan_lines src closing_ticks (split_inclusive src)
        {| references := []; fence := None; inline_ticks := 0; line_start := 0 |} ;
  Ok (references s).

(** ** Participants *)

Record CodeRange := { range_start : Z; range_end : Z }.

(** The loop of [invocation_code_ranges], over the bytes from [offset] on. *)
Fixpoint code_ranges_loop (fuel : nat) (offset : Z) (bytes : list Z) (opening : option (Z * Z * Z))
    (ranges : list CodeRange) : run (option (Z * Z * Z) * list CodeRange) :=
  match fuel, bytes with
  | _, [] => Ok (opening, ranges)
  | O, _ => Err OutOfFuel
  | S fuel, marker :: bytes' =>
    if negb ((marker =? 96) || (marker =? 126)) then code_ranges_loop fuel (offset + 1) bytes' opening ranges
    else
      let width := leading marker bytes in
      let '(opening', ranges') :=
        match opening with
        | Some (o, count, begin) =>
          if (marker =? o) && (width =? count)
          then (None, ranges ++ [{| range_start := begin; range_end := offset + width |}])
          else (opening, ranges)
        | None =>
          if (marker =? 96) || (3 <=? width) then (Some (marker, width, offset), ranges) else (None, ranges)
        end in
      code_ranges_loop fuel (offset + width) (drop (Z.to_nat width) bytes) opening' ranges'
  end.

Definition invocation_code_ranges (src : text) : run (list CodeRange) :=
  '(opening, ranges) ← code_ranges_loop (length (as_bytes src)) 0 (as_bytes src) None [] ;
  Ok (match opening with
      | Some (_, _, begin) => ranges ++ [{| range_start := begin; range_end := str_len src |}]
      | None => ranges
      end).

(** [range.contains(&i)] *)
Definition range_contains (r : CodeRange) (i : Z) : bool := (range_start r <=? i) && (i <? range_end r).

(** The filter of [participant_references]; a slice is taken only where [&&] and
    [||] reach it. *)
Definition addresses (src : text) (guarded : list CodeRange) (r : DocumentReference) : run bool :=
  if existsb (λ g, range_contains g (ref_start r)) guarded then Ok false
  else if negb (byte_is src (ref_start r) 64) then Ok false
  else if ref_start r =? 0 then Ok true
  else before ← str_to src (ref_start r) ;
       Ok (match last before with Some c => is_whitespace c | None => false end).

Fixpoint filter_run {A} (f : A → run bool) (l : list A) : run (list A) :=
  match l with
  | [] => Ok []
  | x :: l => b ← f x ; rest ← filter_run f l ; Ok (if b : bool then x :: rest else rest)
  end.

Definition participant_references (src : text) : run (list DocumentReference) :=
  _ ← fail_if (MAX_NEURAL_COMMAND_BYTES <? str_len src)
        {| err_offset := MAX_NEURAL_COMMAND_BYTES; message := "consult input exceeds the byte limit" |} ;
  guarded ← invocation_code_ranges src ;
  refs ← document_references src ;
  filter_run (addresses src guarded) refs.

Definition participant_handles (src : text) : run (list text) :=
  refs ← participant_references src ;
  Ok (foldl (λ handles r,
        let handle := to_ascii_lowercase (ref_name r) in
        if bool_decide (handle ∈ handles) then handles else handles ++ [handle]) [] refs).

Fixpoint remove_spans (src : text) (cursor : Z) (refs : list DocumentReference) (txt : text) : run text :=
  match refs with
  | [] => t ← str_from src cursor ; Ok (txt ++ t)
  | r :: refs => t ← str_slice src cursor (ref_start r) ; remove_spans src (ref_end r) refs (txt ++ t)
  end.

Definition remove_participant_addresses (src : text) : run text :=
  refs ← participant_references src ; remove_spans src 0 refs [].

End References.

(** ** The prompt of a document function *)

Definition heading (index : Z) : text := str "
Input " ++ str (pretty index) ++ str ":
".

Module PromptGrammar.

Fixpoint push_inputs (numbered : bool) (index : Z) (inputs : list text) (prompt : text) : text :=
  match inputs with
  | [] => prompt
  | input :: inputs =>
    push_inputs numbered (index + 1) inputs
      (prompt ++ (if numbered then heading (index + 1) else []) ++ input ++ [10])
  end.

Definition render_base_function_prompt (function : text) (inputs : list text) : run text :=
  let size := foldl (λ size input, s ← size ; checked_add usize_max s (str_len input)) (Some (str_len function)) inputs in
  if match size with Some s => MAX_NEURAL_DOCUMENT_BYTES <? s | None => true end || (MAX_NEURAL_NODES <? len inputs)
  then Err (Fail {| err_offset := 0; message := "function inputs exceed the limit" |})
  else
    Ok ((match inputs with
         | [] => function
         | _ => push_inputs (1 <? len inputs) 0 inputs (function ++ str "

Inputs:
")
         end) ++ str "
Output:
").

End PromptGrammar.

Definition budget_error {A} : run A :=
  Err (Fail {| err_offset := 0; message := "function inputs and framing exceed the limit" |}).

(** The loop of [render_base_function_prompt] that adds up the framed inputs. *)
Fixpoint framed_bytes (numbered : bool) (index : Z) (inputs : list text) (bytes : Z) : option Z :=
  match inputs with
  | [] => Some bytes
  | input :: inputs =>
    b ← checked_add usize_max bytes (if numbered then str_len (heading (index + 1)) else 0) ;
    b ← checked_add usize_max b (str_len input) ;
    b ← checked_add usize_max b 1 ;
    framed_bytes numbered (index + 1) inputs b
  end.

Definition render_base_function_prompt (function : text) (inputs : list text) : run text :=
  if MAX_NEURAL_NODES <? len inputs then budget_error
  else
    let bytes :=
      b ← checked_add usize_max (str_len function) 9 ;
      b ← (match inputs with [] => Some b | _ => checked_add usize_max b 10 end) ;
      framed_bytes (1 <? len inputs) 0 inputs b in
    match bytes with
    | None => budget_error
    | Some b =>
      if MAX_NEURAL_DOCUMENT_BYTES <? b then budget_error
      else PromptGrammar.render_base_function_prompt function inputs
    end.

(** ** What a reference stands for *)

Module ReferenceSpec.
Section Spec.
Context `{UnicodeTables}.

(** The document a link target names. *)
Inductive names_target : text → text → Prop :=
| names_document hex n :
    document_identity hex = Some n → names_target (str "loom-document:" ++ hex) n
| names_material hash :
    length hash = 64%nat → Forall (λ c, lower_hex c = true) hash →
    names_target (str "loom-material:material-" ++ hash) (str "material-" ++ hash)
| names_evidence hash :
    length hash = 64%nat → Forall (λ c, lower_hex c = true) hash →
    names_target (str "loom-evidence:" ++ hash) (str "evidence/" ++ hash).

(** [m], in front of [v], mentions or links the document [n]. *)
Inductive Denotes : text → text → text → Prop :=
| Denotes_quoted m v n :
    opens_quote m = true → Grammar.quoted_lex m = Some (n, []) → trim n ≠ [] → Denotes (64 :: m) v n
| Denotes_bare m v dots v' :
    m ≠ [] → last m ≠ Some 46 → Forall (λ c, c = 46) dots →
    v = dots ++ v' → Grammar.bare_name (m ++ v) = (m ++ dots, v') → Denotes (64 :: m) v m
| Denotes_link label target v n :
    head label = Some 64 → names_target target n →
    Denotes ([91] ++ label ++ [93; 40] ++ target ++ [41]) v n.

(** A reference of [src]: it spans whole scalars of one line that denote its name;
    a mention is not part of a longer word. *)
Definition reference_of (src : text) (r : DocumentReference) : Prop :=
  ∃ u m v, src = u ++ m ++ v ∧ ref_start r = str_len u ∧ ref_end r = str_len (u ++ m)
    ∧ 10 ∉ m ∧ Denotes m v (ref_name r)
    ∧ (head m = Some 64 → starts_reference 64 (last u) = true).

(** In order and disjoint, between two offsets. *)
Fixpoint ordered (lo : Z) (refs : list DocumentReference) (hi : Z) : Prop :=
  match refs with
  | [] => lo ≤ hi
  | r :: refs => lo ≤ ref_start r < ref_end r ∧ ordered (ref_end r) refs hi
  end.

(** An offset inside a reported reference. *)
Definition covered (refs : list DocumentReference) (i : Z) : Prop :=
  ∃ r, r ∈ refs ∧ ref_start r ≤ i < ref_end r.

(** A line of prose without code, escapes or links. *)
Definition plain_line (line : text) : Prop :=
  Forall (λ c, c ∉ [96; 126; 92; 91; 33]) line
  ∧ str_len line - str_len (trim_start_by (λ c, c =? 32) line) < 4
  ∧ starts_with line [9] = false ∧ starts_with (trim_start_by (λ c, c =? 32) line) [62] = false.

Definition references_ok (src : text) (refs : list DocumentReference) (hi : Z) : Prop :=
  ordered 0 refs hi ∧ Forall (reference_of src) refs ∧ len refs ≤ MAX_NEURAL_NODES.

End Spec.
End ReferenceSpec.

(** ** Scanning *)

Module ScanProofs.
Import Grammar ReferenceSpec.

(** *** Texts at their offsets *)

Lemma split_unique (a b x y : text) : a ++ x = b ++ y → str_len a = str_len b → a = b ∧ x = y.
Proof.
  revert b. induction a as [|c a IH]; intros [|d b]; simpl; intros Heq Hl; [done| | |].
  - pose proof (len_utf8_pos d). pose proof (str_len_nonneg b). lia.
  - pose proof (len_utf8_pos c). pose proof (str_len_nonneg a). lia.
  - injection Heq as -> Heq. destruct (IH b Heq ltac:(lia)) as [-> ->]. done.
Qed.

Lemma str_slice_mid (u m v : text) : str_slice (u ++ m ++ v) (str_len u) (str_len (u ++ m)) = Ok m.
Proof.
  unfold str_slice. pose proof (str_get_between m v (u ++ m ++ v) ltac:(by exists u)) as Hg.
  rewrite !str_len_app in *.
  replace (str_len u + (str_len m + str_len v) - (str_len m + str_len v)) with (str_len u) in Hg by lia.
  replace (str_len u + (str_len m + str_len v) - str_len v) with (str_len u + str_len m) in Hg by lia.
  by rewrite Hg.
Qed.

Lemma str_slice_mid' (u m v : text) a b :
  a = str_len u → b = str_len u + str_len m → str_slice (u ++ m ++ v) a b = Ok m.
Proof. intros -> ->. rewrite <- str_len_app. apply str_slice_mid. Qed.

Lemma str_from_split (u v : text) a : a = str_len u → str_from (u ++ v) a = Ok v.
Proof.
  intros ->. unfold str_from. rewrite <- (app_nil_r v) at 1. apply str_slice_mid'; [done|].
  rewrite str_len_app. lia.
Qed.

Lemma str_to_split (u v : text) a : a = str_len u → str_to (u ++ v) a = Ok u.
Proof. intros ->. unfold str_to. by apply (str_slice_mid' [] u v). Qed.

Lemma byte_is_split (u v : text) a b :
  b < 128 → a = str_len u → byte_is (u ++ v) a b = true ↔ ∃ v', v = b :: v'.
Proof.
  intros Hb ->. unfold byte_is. rewrite bool_decide_eq_true. by apply as_bytes_at_ascii.
Qed.

Lemma str_len_pos t : t ≠ [] → 0 < str_len t.
Proof. destruct t as [|c t]; [done|]. simpl. pose proof (len_utf8_pos c). pose proof (str_len_nonneg t). lia. Qed.

Lemma str_len_snoc u c : str_len (u ++ [c]) = str_len u + len_utf8 c.
Proof. rewrite str_len_app. simpl. lia. Qed.

Lemma len_utf8_ascii c : c < 128 → len_utf8 c = 1.
Proof. intros. unfold len_utf8. by rewrite (proj2 (Z.ltb_lt _ _)). Qed.

(** *** Delimiters *)

(** A matched pair of [line]. *)
Definition pair_at (line : text) (k e : Z) : Prop :=
  ∃ a o b c d, line = a ++ o :: b ++ c :: d ∧ k = str_len a ∧ e = str_len (a ++ o :: b)
    ∧ ((o = 91 ∧ c = 93) ∨ (o = 40 ∧ c = 41)).

Definition opened_at (pre : text) (o k : Z) : Prop := ∃ a b, pre = a ++ o :: b ∧ k = str_len a.

Definition delimiters_ok (line pre : text) (d : Delimiters) : Prop :=
  Forall (opened_at pre 91) (brackets d) ∧ Forall (opened_at pre 40) (parentheses d)
  ∧ ∀ k e, matches d !! k = Some e → pair_at line k e.

Lemma opened_at_app pre w o k : opened_at pre o k → opened_at (pre ++ w) o k.
Proof. intros (a & b & -> & ->). exists a, (b ++ w). by rewrite <- app_assoc. Qed.

Lemma opened_all_app pre w o l : Forall (opened_at pre o) l → Forall (opened_at (pre ++ w) o) l.
Proof. intros Hl. eapply Forall_impl; [exact Hl|]. intros k Hk. by apply opened_at_app. Qed.

Lemma pair_of_opened line pre o c s k :
  line = pre ++ c :: s → opened_at pre o k → (o = 91 ∧ c = 93) ∨ (o = 40 ∧ c = 41) →
  pair_at line k (str_len pre).
Proof.
  intros -> (a & b & -> & ->) Hoc. exists a, o, b, c, s. rewrite <- app_assoc. done.
Qed.

Lemma matching_loop_ok line s : ∀ pre d,
  line = pre ++ s → delimiters_ok line pre d →
  ∀ k e, matches (matching_loop (str_len pre) s d) !! k = Some e → pair_at line k e.
Proof.
  induction s as [s IH] using (induction_ltof1 _ length); unfold ltof in IH.
  intros pre d Hline (Hb & Hp & Hm). destruct s as [|c s]; simpl; [done|].
  assert (∀ d', delimiters_ok line (pre ++ [c]) d' →
    ∀ k e, matches (matching_loop (str_len pre + len_utf8 c) s d') !! k = Some e → pair_at line k e) as Hnext.
  { intros d' Hd'. rewrite <- str_len_snoc. apply IH; [simpl; lia|by rewrite <- app_assoc|done]. }
  destruct (Z.eqb_spec c 92) as [->|_].
  - destruct s as [|e s]; [done|]. rewrite <- str_len_snoc, <- str_len_snoc.
    apply IH; [simpl; lia|by rewrite Hline, <- !app_assoc|].
    split_and!; [by do 2 apply opened_all_app|by do 2 apply opened_all_app|done].
  - apply Hnext. destruct d as [bs ps m]. simpl in *.
    destruct (Z.eqb_spec c 91) as [->|]; [|destruct (Z.eqb_spec c 40) as [->|];
      [|destruct (Z.eqb_spec c 93) as [->|]; [|destruct (Z.eqb_spec c 41) as [->|]]]];
      try (split_and!; simpl; [by apply opened_all_app|by apply opened_all_app|done]).
    + split_and!; simpl; [constructor|by apply opened_all_app|done]; [by exists pre, []|by apply opened_all_app].
    + split_and!; simpl; [by apply opened_all_app|constructor|done]; [by exists pre, []|by apply opened_all_app].
    + destruct bs as [|k0 bs]; [split_and!; simpl; [done|by apply opened_all_app|done]|].
      apply Forall_cons in Hb as [Hk0 Hb]. split_and!; simpl; [by apply opened_all_app|by apply opened_all_app|].
      intros k e. rewrite lookup_insert_Some. intros [[<- <-]|[_ Hke]]; [|by apply Hm].
      eapply pair_of_opened; [exact Hline|exact Hk0|auto].
    + destruct ps as [|k0 ps]; [split_and!; simpl; [by apply opened_all_app|done|done]|].
      apply Forall_cons in Hp as [Hk0 Hp]. split_and!; simpl; [by apply opened_all_app|by apply opened_all_app|].
      intros k e. rewrite lookup_insert_Some. intros [[<- <-]|[_ Hke]]; [|by apply Hm].
      eapply pair_of_opened; [exact Hline|exact Hk0|auto].
Qed.

Lemma matching_link_delimiters_ok line k e :
  matching_link_delimiters line !! k = Some e → pair_at line k e.
Proof.
  apply (matching_loop_ok line line []); [done|]. split_and!; [constructor|constructor|].
  intros ? ?. simpl. by rewrite lookup_empty.
Qed.


(** *** Links *)

Lemma length_str_len t : (∀ c, c ∈ t → c < 128) → str_len t = Z.of_nat (length t).
Proof.
  induction t as [|c t IH]; intros Ht; [done|]. simpl. rewrite IH.
  - rewrite len_utf8_ascii by (apply Ht; left). lia.
  - intros d Hd. apply Ht. by right.
Qed.

Lemma hash_ok hash :
  str_len hash = 64 → forallb lower_hex hash = true →
  length hash = 64%nat ∧ Forall (λ c, lower_hex c = true) hash.
Proof.
  intros Hl Hh. apply forallb_True, Forall_forall in Hh as Hf || idtac.
  rewrite forallb_forall in Hh. assert (Forall (λ c, lower_hex c = true) hash) as Hall.
  { apply Forall_forall. intros c Hc. apply Hh. by apply list_elem_of_In. }
  split; [|done]. rewrite length_str_len in Hl; [lia|].
  intros c Hc. rewrite Forall_forall in Hall. apply Hall in Hc. unfold lower_hex, in_range in Hc. 
  apply orb_true_iff in Hc as [Hc|Hc]; bool_prop; lia.
Qed.

(** A pair whose opening is known. *)
Lemma pair_at_open line pre o s k e :
  line = pre ++ o :: s → k = str_len pre → pair_at line k e →
  ∃ b c d, s = b ++ c :: d ∧ e = str_len (pre ++ o :: b) ∧ ((o = 91 ∧ c = 93) ∨ (o = 40 ∧ c = 41)).
Proof.
  intros -> -> (a & o' & b & c & d & Hline & Hk & -> & Hoc).
  apply split_unique in Hline as [-> Hs]; [|done]. injection Hs as <- ->.
  exists b, c, d. done.
Qed.

Definition link_read (pre s : text) (link : option (Z * option text)) : Prop :=
  match link with
  | None => True
  | Some (e, nm) => ∃ w s', s = w ++ s' ∧ w ≠ [] ∧ e = str_len (pre ++ w)
      ∧ ∀ n, nm = Some n → ∃ label target,
          w = [91] ++ label ++ [93; 40] ++ target ++ [41] ∧ head label = Some 64 ∧ names_target target n
  end.

Lemma byte_is_false u v a b : b < 128 → a = str_len u → byte_is (u ++ v) a b = false → ∀ v', v ≠ b :: v'.
Proof.
  intros Hb Ha Hf v' ->. rewrite (proj2 (byte_is_split u (b :: v') a b Hb Ha)) in Hf; [done|]. eauto.
Qed.

(** The target of a link whose label is closed. *)
Lemma link_target_named target nm (closed : bool) :
  match strip_prefix target (str "loom-document:") with
  | Some hex => if closed then document_identity hex else None
  | None =>
    match (match strip_prefix target (str "loom-material:") with
           | Some value => Some (default [] (strip_prefix value (str "material-")), str "material-")
           | None => match strip_prefix target (str "loom-evidence:") with
                     | Some value => Some (value, str "evidence/")
                     | None => None
                     end
           end) with
    | None => None
    | Some (hash, prefix) =>
      if closed && (str_len hash =? 64) && forallb lower_hex hash then Some (prefix ++ hash) else None
    end
  end = Some nm → closed = true ∧ names_target target nm.
Proof.
  destruct (strip_prefix target (str "loom-document:")) as [hex|] eqn:Hd.
  { apply strip_prefix_Some in Hd as ->. destruct closed; [|done]. intros Hn. split; [done|]. by apply names_document. }
  destruct (strip_prefix target (str "loom-material:")) as [value|] eqn:Hm.
  - apply strip_prefix_Some in Hm as ->.
    destruct (strip_prefix value (str "material-")) as [hash|] eqn:Hv; simpl default.
    + apply strip_prefix_Some in Hv as ->. case_match; [|done]. bool_prop. intros [= <-].
      split; [done|]. destruct (hash_ok hash) as [Hl Hf]; [done|done|].
      rewrite app_assoc. by apply names_material.
    + simpl. by rewrite andb_false_r.
  - destruct (strip_prefix target (str "loom-evidence:")) as [value|] eqn:He; [|done].
    apply strip_prefix_Some in He as ->. case_match; [|done]. bool_prop. intros [= <-].
    split; [done|]. destruct (hash_ok value) as [Hl Hf]; [done|done|]. by apply names_evidence.
Qed.

Lemma reference_link_at_read line pre s :
  line = pre ++ s →
  returns_with (link_read pre s) (reference_link_at line (str_len pre) (matching_link_delimiters line)).
Proof.
  intros Hline. unfold reference_link_at.
  set (image := byte_is line (str_len pre) 33).
  assert (∃ bang s0, s = bang ++ s0 ∧ str_len pre + (if image then 1 else 0) = str_len (pre ++ bang)
    ∧ bang = (if image then [33] else [])) as (bang & s0 & Hs & Hstart & Hbang).
  { destruct image eqn:Hi; [|exists [], s; rewrite app_nil_r; split_and!; [done|lia|done]].
    unfold image in Hi. rewrite Hline in Hi. apply byte_is_split in Hi as [v ->]; [|done|done].
    exists [33], v. rewrite str_len_snoc. done. }
  rewrite Hstart. subst s. rewrite app_assoc in Hline.
  destruct (byte_is line (str_len (pre ++ bang)) 91) eqn:Hopen; [|done]. cbn [negb]. cbv iota.
  rewrite Hline in Hopen. apply byte_is_split in Hopen as [s1 ->]; [|done|done].
  destruct (matching_link_delimiters line !! _) as [label_end|] eqn:Hm; [|done].
  apply matching_link_delimiters_ok in Hm.
  destruct (pair_at_open _ _ _ _ _ _ Hline eq_refl Hm) as (label & c & d & -> & -> & [[_ ->]|[? _]]); [|done].
  assert (line = ((pre ++ bang) ++ 91 :: label ++ [93]) ++ d) as Hline2.
  { rewrite Hline, <- !app_assoc. simpl. by rewrite <- app_assoc. }
  assert (str_len ((pre ++ bang) ++ 91 :: label) + 1 = str_len ((pre ++ bang) ++ 91 :: label ++ [93])) as Htarget.
  { rewrite !str_len_app. simpl. rewrite str_len_app. simpl. change (len_utf8 93) with 1. lia. }
  rewrite Htarget.
  destruct (byte_is line (str_len ((pre ++ bang) ++ 91 :: label ++ [93])) 40) eqn:Hparen; [|done]. cbn [negb]. cbv iota.
  rewrite Hline2 in Hparen. apply byte_is_split in Hparen as [s2 ->]; [|done|done].
  (* the end of the link and its target *)
  set (te := matching_link_delimiters line !! str_len ((pre ++ bang) ++ 91 :: label ++ [93])).
  assert (∃ target close s', s2 = target ++ close ++ s' ∧
    default (str_len line) te = str_len ((pre ++ bang) ++ 91 :: label ++ [93] ++ [40] ++ target) ∧
    match te with Some e => e + 1 | None => str_len line end
      = str_len (pre ++ bang ++ 91 :: label ++ [93] ++ [40] ++ target ++ close) ∧
    (is_Some te → close = [41])) as (target & close & s' & -> & Hte & Hend & Hclose).
  { destruct te as [e|] eqn:Hte; unfold te in Hte.
    - apply matching_link_delimiters_ok in Hte.
      destruct (pair_at_open _ _ _ _ _ _ Hline2 eq_refl Hte) as (target & c & s' & -> & -> & [[? _]|[_ ->]]); [done|].
      exists target, [41], s'. simpl. split_and!; [done| | |done].
      + f_equal. by rewrite <- !app_assoc; simpl; rewrite <- app_assoc.
      + rewrite !str_len_app; simpl; rewrite !str_len_app; simpl; rewrite !str_len_app. simpl.
        change (len_utf8 41) with 1. lia.
    - exists s2, [], []. simpl. rewrite !app_nil_r. split_and!; [done| | |by intros [? ?]].
      + rewrite Hline2. f_equal. by rewrite <- !app_assoc; simpl; rewrite <- app_assoc.
      + rewrite Hline2. f_equal. by rewrite <- !app_assoc; simpl; rewrite <- app_assoc. }
  set (link_end := match te with Some e => e + 1 | None => str_len line end) in *.
  assert (∀ nm, (∀ n, nm = Some n → image = false ∧ is_Some te ∧ head label = Some 64 ∧ names_target target n) →
    link_read pre (bang ++ 91 :: label ++ 93 :: 40 :: target ++ close ++ s') (Some (link_end, nm))) as Hread.
  { intros nm Hnm. exists (bang ++ 91 :: label ++ [93] ++ [40] ++ target ++ close), s'. split_and!.
    - rewrite <- !app_assoc. simpl. rewrite <- !app_assoc. simpl. by rewrite <- !app_assoc.
    - by destruct bang.
    - done.
    - intros n (Hi & Hsome & Hhead & Hn)%Hnm. exists label, target.
      rewrite Hbang, Hi, (Hclose Hsome). split; [done|]. auto. }
  destruct image eqn:Himage; [apply Hread; naive_solver|].
  replace (str_slice line _ _) with (@Ok (fault NeuralSyntaxError) _ target).
  2: { symmetry. rewrite Hte, Hline2.
    replace (_ ++ 40 :: target ++ close ++ s') with
      ((((pre ++ bang) ++ 91 :: label ++ [93]) ++ [40]) ++ target ++ close ++ s') by by rewrite <- !app_assoc.
    apply str_slice_mid'; [by rewrite (str_len_snoc _ 40)|].
    rewrite !str_len_app; simpl; rewrite !str_len_app; simpl; rewrite ?str_len_app; simpl. lia. }
  cbn [mbind result_bind].
  set (closed := bool_decide (is_Some te) && byte_is line (str_len (pre ++ bang) + 1) 64).
  assert (closed = true → is_Some te ∧ head label = Some 64) as Hclosed.
  { unfold closed. rewrite andb_true_iff, bool_decide_eq_true. intros [Hsome Hat]. split; [done|].
    rewrite Hline in Hat. replace ((pre ++ bang) ++ 91 :: label ++ 93 :: 40 :: target ++ close ++ s')
      with (((pre ++ bang) ++ [91]) ++ label ++ 93 :: 40 :: target ++ close ++ s') in Hat by by rewrite <- !app_assoc.
    apply byte_is_split in Hat as [v' Hv]; [|done|by rewrite str_len_snoc].
    destruct label as [|x label]; [done|]. by injection Hv as -> _. }
  pose proof (λ nm, link_target_named target nm closed) as Hnamed.
  destruct (strip_prefix target (str "loom-document:")) as [hex|].
  { apply Hread. intros n Hn. destruct (Hnamed n Hn) as [Hc Hname]. destruct (Hclosed Hc). done. }
  cbn zeta. destruct (match strip_prefix target (str "loom-material:") with Some _ => _ | None => _ end) as [[hash prefix]|].
  - apply Hread. intros n Hn. destruct (Hnamed n Hn) as [Hc Hname]. destruct (Hclosed Hc). done.
  - apply Hread. naive_solver.
Qed.


(** *** Mentions *)

Section Mentions.
Context `{UnicodeTables}.

Lemma not_in_cons (x c : Z) l : x ≠ c → x ∉ l → x ∉ c :: l.
Proof. intros ? ?. by apply not_elem_of_cons. Qed.

Lemma newline_not_name : name_scalar 10 = false.
Proof.
  apply not_true_iff_false. intros Hn. by apply NeuralTheorems.name_scalar_visible in Hn.
Qed.

Lemma quoted_body_consumed closing s t s' :
  quoted_body closing s = Some (t, s') → closing ≠ 10 →
  ∃ q, s = q ++ s' ∧ 10 ∉ q ∧ ∀ v, quoted_body closing (q ++ v) = Some (t, v).
Proof.
  intros Hq Hc. revert t s' Hq. induction s as [s IH] using (induction_ltof1 _ length); unfold ltof in IH.
  intros t s'. destruct s as [|c s]; simpl; [done|].
  destruct (Z.eqb_spec c closing) as [->|Hne].
  { intros [= <- <-]. exists [closing]. split_and!; [done|apply not_in_cons; [done|apply not_elem_of_nil]|].
    intros v. simpl. by rewrite Z.eqb_refl. }
  destruct (Z.eqb_spec c 92) as [->|H92].
  - destruct s as [|e s]; [done|]. destruct (unescape e) as [d|] eqn:He; [|done]. simpl.
    destruct (quoted_body closing s) as [[t1 s1]|] eqn:Hs; [|done]. intros [= <- <-].
    destruct (IH s ltac:(simpl; lia) t1 s1 Hs) as (q & -> & Hq & Hv). exists (92 :: e :: q).
    split_and!; [done| |].
    + apply not_in_cons; [done|]. apply not_in_cons; [by intros <-|done].
    + intros v. cbn [app quoted_body]. rewrite (proj2 (Z.eqb_neq _ _) Hne), He. simpl. by rewrite Hv.
  - destruct ((c =? 10) || (c =? 13)) eqn:Hnl; [done|].
    destruct (quoted_body closing s) as [[t1 s1]|] eqn:Hs; [|done]. intros [= <- <-].
    destruct (IH s ltac:(simpl; lia) t1 s1 Hs) as (q & -> & Hq & Hv). exists (c :: q).
    apply orb_false_iff in Hnl as Hnl'. destruct Hnl' as [Hc10 _]. apply Z.eqb_neq in Hc10.
    split_and!; [done|by apply not_in_cons|].
    intros v. simpl. by rewrite (proj2 (Z.eqb_neq _ _) Hne), (proj2 (Z.eqb_neq _ _) H92), Hnl, Hv.
Qed.

Lemma quoted_lex_consumed s t s' :
  opens_quote s = true → quoted_lex s = Some (t, s') →
  ∃ q, s = q ++ s' ∧ q ≠ [] ∧ 10 ∉ q ∧ opens_quote q = true ∧ quoted_lex q = Some (t, []).
Proof.
  destruct s as [|c s]; [done|]. simpl. intros Hc.
  assert (∀ closing, closing ≠ 10 → quoted_body closing s = Some (t, s') →
    (∀ q, quoted_lex (c :: q) = quoted_body closing q) →
    ∃ q, c :: s = q ++ s' ∧ q ≠ [] ∧ 10 ∉ q ∧ opens_quote q = true ∧ quoted_lex q = Some (t, [])) as Hcase.
  { intros closing Hne Hb Hlex. destruct (quoted_body_consumed _ _ _ _ Hb Hne) as (q & -> & Hq & Hv).
    exists (c :: q). split_and!; [done|done| |done|].
    - apply not_in_cons; [|done]. by intros <-.
    - rewrite Hlex. specialize (Hv []). by rewrite app_nil_r in Hv. }
  destruct (Z.eqb_spec c 8220) as [->|]; [intros; by eapply (Hcase 8221)|].
  destruct (Z.eqb_spec c 34) as [->|]; [intros; by eapply (Hcase 34)|]. done.
Qed.

Lemma bare_name_no_newline s t r : bare_name s = (t, r) → 10 ∉ t.
Proof.
  revert t r. induction s as [s IH] using (induction_ltof1 _ length); unfold ltof in IH.
  intros t r Hb. destruct s as [|c s]; [simpl in Hb; injection Hb as <- <-; apply not_elem_of_nil|].
  rewrite ParserProofs.bare_name_step in Hb by done.
  destruct (starts_with (c :: s) (str "::")) eqn:Hs.
  - destruct (bare_name (drop 2 (c :: s))) as [t1 r1] eqn:Hr. injection Hb as <- <-.
    apply IH in Hr; [|simpl; rewrite length_drop; lia]. by do 2 (apply not_in_cons; [done|]).
  - destruct (name_scalar c) eqn:Hc; [|injection Hb as <- <-; apply not_elem_of_nil].
    destruct (bare_name s) as [t1 r1] eqn:Hr. injection Hb as <- <-.
    apply not_in_cons; [|apply IH in Hr; [done|simpl; lia]].
    intros <-. by rewrite newline_not_name in Hc.
Qed.

(** [trim_end_matches] takes away a run at the end. *)
Lemma trim_end_by_spec p t :
  ∃ w, t = trim_end_by p t ++ w ∧ Forall (λ c, p c = true) w ∧ ∀ c, last (trim_end_by p t) = Some c → p c = false.
Proof.
  unfold trim_end_by. destruct (trim_start_by_spec p (reverse t)) as (w & Hw & Hf & Hh).
  exists (reverse w). split_and!.
  - by rewrite <- reverse_app, <- Hw, reverse_involutive.
  - by apply Forall_reverse.
  - intros c. rewrite last_reverse. apply Hh.
Qed.

(** A mention, read from the at sign at [start]. *)
Lemma reference_at_read src u v :
  src = u ++ 64 :: v →
  returns_with (λ r, match r with
    | None => True
    | Some r => ∃ m v', v = m ++ v' ∧ ref_start r = str_len u ∧ ref_end r = str_len (u ++ 64 :: m)
        ∧ 10 ∉ m ∧ Denotes (64 :: m) v' (ref_name r)
    end) (reference_at src (str_len u)).
Proof.
  intros Hsrc. unfold reference_at.
  assert (v `suffix_of` src) as Hv by (exists (u ++ [64]); by rewrite <- app_assoc).
  assert (str_len u + 1 = str_len src - str_len v) as Hoff.
  { rewrite Hsrc, str_len_app. simpl. change (len_utf8 64) with 1. lia. }
  pose proof (ParserProofs.name_lexes src v 0 Hv) as Hl. unfold ParserProofs.st in Hl. rewrite <- Hoff in Hl.
  destruct (name_lex v) as [[nm s']|] eqn:Hn; simpl in Hl; [|destruct Hl as (e & p & ->); done].
  rewrite Hl. replace (str_from src (str_len u + 1)) with (@Ok (fault NeuralSyntaxError) _ v).
  2: { symmetry. replace src with ((u ++ [64]) ++ v) by (by rewrite <- app_assoc). apply str_from_split. by rewrite str_len_snoc. }
  cbn [mbind result_bind offset]. unfold name_lex in Hn.
  destruct (opens_quote v) eqn:Hq.
  - destruct (quoted_lex v) as [[n s0]|] eqn:Hlex; [|done]. simpl in Hn. case_bool_decide as Ht; [done|].
    injection Hn as <- <-. destruct (quoted_lex_consumed v n s0 Hq Hlex) as (q & -> & Hne & Hnl & Hoq & Hql).
    simpl. case_bool_decide as Hempty; [done|]. exists q, s0. simpl. split_and!; [done|done| |done|by apply Denotes_quoted].
    rewrite Hsrc, !str_len_app. simpl. rewrite str_len_app. lia.
  - destruct (bare_name v) as [n s0] eqn:Hb. case_bool_decide as Hne; [done|]. injection Hn as <- <-.
    destruct (trim_end_by_spec (λ c, c =? 46) n) as (dots & Hdots & Hf & Hlast).
    set (n' := trim_end_by (λ c, c =? 46) n) in *. simpl. case_bool_decide as Hempty; [done|].
    pose proof (ParserProofs.bare_name_app _ _ _ Hb) as ->. exists n', (dots ++ s0). simpl. split_and!.
    + by rewrite app_assoc, <- Hdots.
    + done.
    + rewrite Hsrc, Hdots, !str_len_app. simpl. rewrite !str_len_app. simpl. lia.
    + apply bare_name_no_newline in Hb. rewrite Hdots in Hb. by apply not_elem_of_app in Hb as [? _].
    + apply (Denotes_bare n' _ dots s0); [done| | |done|].
      * intros Hc. specialize (Hlast 46 Hc). done.
      * eapply Forall_impl; [exact Hf|]. intros c Hc. by apply Z.eqb_eq.
      * by rewrite app_assoc, <- Hdots.
Qed.

End Mentions.


(** *** The list of references *)

Lemma ordered_weaken lo refs hi hi' : ordered lo refs hi → hi ≤ hi' → ordered lo refs hi'.
Proof. revert lo. induction refs as [|r refs IH]; simpl; intros lo; [lia|]. intros [? ?] ?. split; [done|]. by apply IH. Qed.

Lemma ordered_snoc lo refs hi r :
  ordered lo refs hi → hi ≤ ref_start r < ref_end r → ordered lo (refs ++ [r]) (ref_end r).
Proof.
  revert lo. induction refs as [|r0 refs IH]; simpl; intros lo Ho Hr; [split; lia|].
  destruct Ho as [? ?]. split; [done|]. by apply IH.
Qed.

Lemma covered_app_l refs more i : covered refs i → covered (refs ++ more) i.
Proof. intros (r & Hr & Hi). exists r. split; [|done]. apply elem_of_app. by left. Qed.
Lemma covered_snoc refs r i : ref_start r ≤ i < ref_end r → covered (refs ++ [r]) i.
Proof. intros Hi. exists r. split; [|done]. apply elem_of_app. right. by left. Qed.

Section Scan.
Context `{UnicodeTables} (src : text).

Lemma references_ok_weaken refs hi hi' : references_ok src refs hi → hi ≤ hi' → references_ok src refs hi'.
Proof. intros (Ho & Hf & Hl) Hle. split_and!; [by eapply ordered_weaken|done|done]. Qed.

Lemma push_reference_read refs r hi :
  references_ok src refs hi → reference_of src r → hi ≤ ref_start r < ref_end r →
  returns_with (λ refs', refs' = refs ++ [r] ∧ references_ok src refs' (ref_end r)) (push_reference refs r).
Proof.
  intros (Ho & Hf & Hl) Hr Hhi. unfold push_reference. destruct (Z.eqb_spec (len refs) MAX_NEURAL_NODES); [done|].
  simpl. split; [done|]. split_and!; [by eapply ordered_snoc|by apply Forall_app; split; [|constructor]|].
  rewrite len_app, len_cons, len_nil. lia.
Qed.

(** *** One line *)

Section Line.
Context (before line after : text) (refs0 : list DocumentReference) (plain : Prop).
Hypothesis plain_prose : plain → plain_line line.
Hypothesis src_split : src = before ++ line ++ after.
Hypothesis line_start_ok : before ≠ [] → last before = Some 10.
Hypothesis line_end_ok : after ≠ [] → last line = Some 10.
Hypothesis line_one : ∀ a b, line = a ++ 10 :: b → b = [].

(** No mention in front of [pre]'s end was missed. *)
Definition found (pre : text) (refs : list DocumentReference) : Prop :=
  ∀ a b r, pre = a ++ 64 :: b → starts_reference 64 (last a) = true →
    reference_at src (str_len (before ++ a)) = Ok (Some r) → covered refs (str_len (before ++ a)).

Definition plain_state (ticks : Z) (pre : text) (refs : list DocumentReference) : Prop :=
  plain → ticks = 0 ∧ found pre refs ∧ ∀ i, covered refs0 i → covered refs i.

Lemma found_extend pre w refs refs' :
  found pre refs → (∀ i, covered refs i → covered refs' i) →
  (∀ a b r, w = a ++ 64 :: b → starts_reference 64 (last (pre ++ a)) = true →
     reference_at src (str_len (before ++ pre ++ a)) = Ok (Some r) → covered refs' (str_len (before ++ pre ++ a))) →
  found (pre ++ w) refs'.
Proof.
  intros Hf Hcov Hw a b r Hpre Hs Hr.
  apply app_eq_inv in Hpre as [(k & -> & Hk)|(k & -> & Hk)].
  - destruct k as [|x k].
    + rewrite app_nil_r in *. simpl in Hk. subst w. specialize (Hw [] b r eq_refl). rewrite app_nil_r in Hw. by apply Hw.
    + injection Hk as <- ->. apply Hcov. by eapply Hf.
  - by eapply Hw.
Qed.

Lemma found_step pre c refs : (c = 64 → starts_reference 64 (last pre) = true →
    ∀ r, reference_at src (str_len (before ++ pre)) ≠ Ok (Some r)) →
  found pre refs → found (pre ++ [c]) refs.
Proof.
  intros Hc Hf. eapply found_extend; [exact Hf|done|]. intros [|x a] b r; [|by destruct a].
  intros [= -> <-]. rewrite app_nil_r. intros Hs Hr. by destruct (Hc eq_refl Hs r).
Qed.

Lemma starts_in_source pre : starts_reference 64 (last pre) = true → starts_reference 64 (last (before ++ pre)) = true.
Proof.
  destruct pre as [|c pre _] using rev_ind; [|by rewrite app_assoc, !last_snoc].
  rewrite app_nil_r. destruct before as [|x b] eqn:Hb; [done|]. rewrite line_start_ok by done. intros _.
  unfold starts_reference. by rewrite alphanumeric_ascii by done.
Qed.

(** A span of the line without a newline is followed by the rest of the line. *)
Lemma mention_in_line pre s m v' :
  line = pre ++ 64 :: s → s ++ after = m ++ v' → 10 ∉ m → ∃ s', s = m ++ s' ∧ v' = s' ++ after.
Proof.
  intros Hline Heq Hnl. apply app_eq_inv in Heq as [(k & -> & ->)|(k & -> & Hk)]; [by exists k|].
  destruct k as [|x k]; [exists []; rewrite !app_nil_r in *; by simpl in *|].
  assert (after ≠ []) as Hne by (by rewrite Hk). apply line_end_ok in Hne. rewrite Hline in Hne.
  destruct s as [|y s _] using rev_ind; [by rewrite last_snoc in Hne|].
  rewrite app_comm_cons, app_assoc, last_snoc in Hne. injection Hne as ->.
  destruct Hnl. apply elem_of_app. left. apply elem_of_app. right. by left.
Qed.

Definition prose_post (r : Z * list DocumentReference) : Prop :=
  references_ok src r.2 (str_len (before ++ line)) ∧ plain_state r.1 line r.2.

Lemma plain_excludes pre c s : plain_line line → line = pre ++ c :: s → c ∉ [96; 126; 92; 91; 33].
Proof. intros [Hp _] ->. apply Forall_app in Hp as [_ Hp]. by apply Forall_cons in Hp as [? _]. Qed.

Lemma not_plain_state pre c s ticks pre' refs :
  line = pre ++ c :: s → c ∈ [96; 126; 92; 91; 33] → plain_state ticks pre' refs.
Proof. intros Hline Hc Hp. by destruct (plain_excludes pre c s (plain_prose Hp) Hline). Qed.

Lemma references_ok_step pre w refs :
  references_ok src refs (str_len (before ++ pre)) → references_ok src refs (str_len (before ++ pre ++ w)).
Proof.
  intros Hr. eapply references_ok_weaken; [done|]. rewrite !str_len_app. pose proof (str_len_nonneg w). lia.
Qed.

Lemma link_is_reference pre w s' label target n :
  line = pre ++ w ++ s' → w = [91] ++ label ++ [93; 40] ++ target ++ [41] → head label = Some 64 → names_target target n →
  reference_of src {| ref_name := n; ref_start := str_len (before ++ pre); ref_end := str_len (before ++ pre ++ w) |}.
Proof.
  intros Hline Hw Hl Hn. exists (before ++ pre), w, (s' ++ after). simpl. split_and!.
  - by rewrite src_split, Hline, <- !app_assoc.
  - done.
  - by rewrite app_assoc.
  - intros (w1 & w2 & Hw12)%list_elem_of_split. rewrite Hw12 in Hline.
    assert (w2 ++ s' = []) as Hnil by (apply (line_one (pre ++ w1)); rewrite Hline, <- !app_assoc; done).
    apply app_eq_nil in Hnil as [-> _]. apply (f_equal last) in Hw12. rewrite last_snoc in Hw12.
    replace w with (([91] ++ label ++ [93; 40] ++ target) ++ [41]) in Hw12 by (by rewrite Hw, <- !app_assoc).
    by rewrite last_snoc in Hw12.
  - rewrite Hw. by apply Denotes_link.
  - by rewrite Hw.
Qed.

Lemma mention_is_reference pre m s' r :
  line = pre ++ 64 :: m ++ s' → starts_reference 64 (last pre) = true →
  ref_start r = str_len (before ++ pre) → ref_end r = str_len ((before ++ pre) ++ 64 :: m) → 10 ∉ m →
  Denotes (64 :: m) (s' ++ after) (ref_name r) → reference_of src r.
Proof.
  intros Hline Hs Hst He Hnl Hd. exists (before ++ pre), (64 :: m), (s' ++ after). split_and!; try done.
  - by rewrite src_split, Hline, <- !app_assoc; simpl; rewrite <- !app_assoc.
  - by apply not_in_cons.
  - intros _. by apply starts_in_source.
Qed.

Lemma scan_prose_read closing_ticks : ∀ fuel pre s ticks refs,
  line = pre ++ s → (length s ≤ fuel)%nat →
  references_ok src refs (str_len (before ++ pre)) → plain_state ticks pre refs →
  returns_with prose_post
    (scan_prose fuel src line (str_len before) closing_ticks (matching_link_delimiters line)
       (str_len pre) ticks refs).
Proof.
  induction fuel as [|fuel IH]; intros pre s ticks refs Hline Hf Hrefs Hplain; simpl scan_prose.
  { destruct s; [|simpl in Hf; lia]. rewrite app_nil_r in Hline. rewrite Hline, (proj2 (Z.leb_le _ _)) by lia.
    rewrite <- Hline in *. by split. }
  destruct (Z.leb_spec (str_len line) (str_len pre)) as [Hle|Hlt].
  { rewrite Hline, str_len_app in Hle. pose proof (str_len_ge_length s). unfold len in *.
    destruct s; [|simpl in *; lia]. rewrite app_nil_r in Hline. rewrite <- Hline in *. by split. }
  rewrite Hline at 1. rewrite (str_from_split pre s _ eq_refl). cbn [mbind result_bind].
  destruct s as [|c s]; [rewrite app_nil_r in Hline; subst; lia|].
  assert (∀ w s' ticks' refs', c :: s = w ++ s' → w ≠ [] →
    references_ok src refs' (str_len (before ++ pre ++ w)) → plain_state ticks' (pre ++ w) refs' →
    ∀ off, off = str_len (pre ++ w) →
    returns_with prose_post (scan_prose fuel src line (str_len before) closing_ticks
      (matching_link_delimiters line) off ticks' refs')) as Hnext.
  { intros w s' ticks' refs' Hw Hne Hr Hp off ->. apply (IH (pre ++ w) s'); [by rewrite <- app_assoc, <- Hw| |done|done].
    apply (f_equal length) in Hw. rewrite length_app in Hw. destruct w; [done|]. simpl in *. lia. }
  assert (∀ ticks' refs', plain_state ticks' (pre ++ [c]) refs' → references_ok src refs' (str_len (before ++ pre)) →
    returns_with prose_post (scan_prose fuel src line (str_len before) closing_ticks
      (matching_link_delimiters line) (str_len pre + len_utf8 c) ticks' refs')) as Hone.
  { intros ticks' refs' Hp Hr. apply (Hnext [c] s); [done|done|by apply references_ok_step|done|by rewrite str_len_snoc]. }
  destruct (Z.eqb_spec c 96) as [->|H96].
  { destruct (leading_run 96 (96 :: s) ltac:(done)) as (t' & Ht & _).
    set (n := leading 96 (as_bytes (96 :: s))) in *.
    assert (1 ≤ n) as Hn by (unfold n; simpl; pose proof (leading_nonneg 96 (as_bytes s)); lia).
    eapply Hnext; [exact Ht| |by apply references_ok_step|by eapply not_plain_state; [|left]|].
    - destruct (Z.to_nat n) eqn:Hz; [lia|done].
    - rewrite str_len_app, str_len_replicate by done. lia. }
  destruct (Z.eqb_spec ticks 0) as [->|Hticks]; cbn [negb]; cbv iota.
  2: { apply Hone; [|done]. intros Hp. by destruct (Hplain Hp). }
  destruct (Z.eqb_spec c 92) as [->|H92].
  { assert (∀ pre', plain_state 0 pre' refs) as Hnp by (intros; eapply not_plain_state; [done|set_solver]).
    destruct s as [|e s]; [rewrite Z.add_0_r; by apply Hone|].
    apply (Hnext [92; e] s); [done|done|by apply references_ok_step|done|]. rewrite str_len_app. simpl. lia. }
  apply (returns_with_bind (λ link, link_read pre (c :: s) link ∧ (is_Some link → c = 91 ∨ c = 33))).
  { destruct ((c =? 91) || (c =? 33)) eqn:Hc; [|by split; [|intros [? ?]]].
    eapply returns_with_mono; [|by apply reference_link_at_read]. intros link Hl. split; [done|].
    intros _. apply orb_true_iff in Hc as [Hc|Hc]; apply Z.eqb_eq in Hc; auto. }
  intros [[link_end nm]|] [Hlink Hc].
  { destruct Hlink as (w & s' & Hw & Hne & -> & Hnm).
    apply (returns_with_bind (λ refs', references_ok src refs' (str_len (before ++ pre ++ w)))).
    - destruct nm as [n|]; [|by apply references_ok_step]. destruct (Hnm n eq_refl) as (label & target & Hw' & Hl & Hn).
      rewrite <- !str_len_app.
      eapply returns_with_mono; [|eapply push_reference_read;
        [done|eapply link_is_reference; [by rewrite Hline, Hw|done|done|done]|]].
      { intros refs' [_ Hr]. exact Hr. }
      cbn [ref_start ref_end]. rewrite !str_len_app. pose proof (str_len_pos w Hne). lia.
    - intros refs' Hr. eapply Hnext; [exact Hw|done|done|eapply not_plain_state; [exact Hline|]|done].
      destruct Hc as [-> | ->]; [done|set_solver..]. }
  rewrite Hline at 1. rewrite (str_to_split pre (c :: s) _ eq_refl). cbn [mbind result_bind].
  destruct (starts_reference c (last pre)) eqn:Hstarts; cbn [negb]; cbv iota.
  2: { apply Hone; [|done]. intros Hp. destruct (Hplain Hp) as (_ & Hfound & Hkeep). split_and!; [done| |done].
    apply found_step; [|done]. intros ->. by rewrite Hstarts. }
  assert (c = 64) as -> by (apply andb_true_iff in Hstarts as [Hs _]; by apply Z.eqb_eq).
  rewrite <- str_len_app.
  assert (src = (before ++ pre) ++ 64 :: s ++ after) as Hsrc.
  { by rewrite src_split, Hline, <- !app_assoc. }
  pose proof (reference_at_read src (before ++ pre) (s ++ after) Hsrc) as Hread.
  destruct (reference_at src (str_len (before ++ pre))) as [[r|]|[| |e]] eqn:Hat; try done; cbn [mbind result_bind].
  - destruct Hread as (m & v' & Hm & Hst & Hen & Hnl & Hd).
    destruct (mention_in_line pre s m v' Hline Hm Hnl) as (s' & -> & ->).
    apply (returns_with_bind (λ refs', refs' = refs ++ [r] ∧ references_ok src refs' (ref_end r))).
    + apply push_reference_read with (str_len (before ++ pre)); [done|by eapply mention_is_reference|].
      rewrite Hst, Hen, (str_len_app _ (64 :: m)). pose proof (str_len_pos (64 :: m) ltac:(done)). lia.
    + intros refs' [-> Hr]. apply (Hnext (64 :: m) s'); [done|done| | |].
      * by rewrite app_assoc, <- Hen.
      * intros Hp. destruct (Hplain Hp) as (_ & Hfound & Hkeep).
        split_and!; [done| |by intros; apply covered_app_l, Hkeep].
        eapply found_extend; [exact Hfound|intros; by apply covered_app_l|].
        intros a b r' Hw _ _. apply covered_snoc. rewrite Hst, Hen. apply (f_equal str_len) in Hw.
        pose proof (str_len_pos (64 :: b) ltac:(done)). pose proof (str_len_nonneg a).
        rewrite !str_len_app in *. lia.
      * rewrite Hen, !str_len_app. lia.
  - apply Hone; [|done]. intros Hp. destruct (Hplain Hp) as (_ & Hfound & Hkeep). split_and!; [done| |done].
    apply found_step; [|done]. intros _ _ r'. by rewrite Hat.
Qed.

End Line.
(** *** All lines *)

Definition found_all (pre : text) (refs : list DocumentReference) : Prop :=
  ∀ a b r, pre = a ++ 64 :: b → starts_reference 64 (last a) = true →
    reference_at src (str_len a) = Ok (Some r) → covered refs (str_len a).

Definition scan_ok (plain : Prop) (before : text) (s : Scan) : Prop :=
  line_start s = str_len before
  ∧ references_ok src (references s) (str_len before)
  ∧ (∀ b n, fence s = Some (b, n) → b < 128)
  ∧ (plain → fence s = None ∧ inline_ticks s = 0 ∧ found_all before (references s)).

Lemma starts_local (before a : text) :
  starts_reference 64 (last (before ++ a)) = true → starts_reference 64 (last a) = true.
Proof.
  destruct a as [|c a _] using rev_ind; [done|]. by rewrite app_assoc, !last_snoc.
Qed.

Lemma found_all_line before line refs refs' :
  found_all before refs → (∀ i, covered refs i → covered refs' i) → found before line refs' →
  found_all (before ++ line) refs'.
Proof.
  intros Ha Hcov Hf a b r Heq Hs Hr. apply app_eq_inv in Heq as [(k & -> & Hk)|(k & -> & Hk)].
  - destruct k as [|x k].
    + rewrite app_nil_r in *. simpl in Hk. specialize (Hf [] b r). rewrite app_nil_r in Hf. by apply Hf.
    + injection Hk as <- ->. apply Hcov. by eapply Ha.
  - eapply Hf; [exact Hk|by eapply starts_local|done].
Qed.

(** The text behind a run of an ASCII marker. *)
Lemma run_behind t b : b < 128 → ∃ t', str_from t (leading b (as_bytes t)) = Ok t'.
Proof.
  intros Hb. destruct (leading_run b t Hb) as (t' & Ht & _). exists t'. rewrite Ht at 1.
  apply str_from_split. rewrite str_len_replicate by done. pose proof (leading_nonneg b (as_bytes t)). lia.
Qed.

(** A line that adds no reference. *)
Lemma scan_ok_skip (plain : Prop) before line s f :
  scan_ok plain before s → (∀ b n, f = Some (b, n) → b < 128) → ¬ plain →
  scan_ok plain (before ++ line)
    {| references := references s; fence := f; inline_ticks := inline_ticks s;
       line_start := line_start s + str_len line |}.
Proof.
  intros (Hs & Hr & Hf & Hp) Hf' Hnp. split_and!; simpl; [by rewrite Hs, str_len_app| |done|done].
  eapply references_ok_weaken; [exact Hr|]. rewrite str_len_app. pose proof (str_len_nonneg line). lia.
Qed.

Lemma plain_marker line b : plain_line line → b = 96 ∨ b = 126 →
  head (as_bytes (trim_start_by (λ c, c =? 32) line)) ≠ Some b.
Proof.
  intros [Hp _] Hb Hh. destruct (trim_start_by_suffix (λ c, c =? 32) line) as [w Hw].
  set (t := trim_start_by _ line) in *. destruct t as [|c t]; [done|].
  rewrite as_bytes_head, encode_utf8_head in Hh by lia. subst c. rewrite Hw in Hp.
  apply Forall_app in Hp as [_ Hp]. apply Forall_cons in Hp as [Hp _]. destruct Hp. set_solver.
Qed.

Lemma scan_line_read (plain : Prop) ticks before line after s :
  src = before ++ line ++ after → (before ≠ [] → last before = Some 10) → (after ≠ [] → last line = Some 10) →
  (∀ a b, line = a ++ 10 :: b → b = []) → (plain → plain_line line) →
  scan_ok plain before s → returns_with (scan_ok plain (before ++ line)) (scan_line src ticks s line).
Proof.
  intros Hsrc Hbefore Hafter Hone Hplain Hok. pose proof Hok as (Hs & Hr & Hf & Hp). unfold scan_line.
  set (trimmed := trim_start_by (λ c, c =? 32) line). set (marker := head (as_bytes trimmed)).
  destruct (fence s) as [[byte count]|] eqn:Hfence.
  { assert (¬ plain) as Hnp by (intros Hpl; by destruct (Hp Hpl)).
    apply (returns_with_bind (λ _, True)).
    - case_match eqn:Hc; [|done]. bool_prop. unfold marker in *. 
      assert (head (as_bytes trimmed) = Some byte) as -> by (by bool_prop).
      destruct (run_behind trimmed byte) as [t' ->]; [by eapply Hf|done].
    - intros closes _. apply scan_ok_skip; [done| |done]. by destruct closes. }
  apply (returns_with_bind (λ opens, opens = true → marker = Some 96 ∨ marker = Some 126)).
  { case_match eqn:Hc; [|done]. bool_prop.
    destruct (bool_decide (marker = Some 96)) eqn:H96; cbn [negb]; cbv iota.
    - bool_prop. rewrite H96. destruct (run_behind trimmed 96) as [t' ->]; [done|]. simpl. auto.
    - simpl. intros _. match goal with HD : _ ∨ _ |- _ => destruct HD as [?|?]; [done|bool_prop; auto] end. }
  intros opens Hopens. destruct opens.
  { apply scan_ok_skip; [done| |].
    - destruct (Hopens eq_refl) as [-> | ->]; simpl; intros b n [= <- _]; lia.
    - intros Hpl. destruct (Hopens eq_refl) as [Hm|Hm]; by eapply plain_marker in Hm; [|auto..]. }
  destruct ((inline_ticks s =? 0) && _) eqn:Hskip.
  { apply scan_ok_skip; [done|done|]. intros Hpl. destruct (Hplain Hpl) as (_ & Hind & Htab & Hq). apply andb_true_iff in Hskip as [_ Hskip].
      fold trimmed in Hind, Hq. rewrite Htab, Hq, !orb_false_r in Hskip. bool_prop. lia. }
  rewrite Hs. change 0 with (str_len []) at 1.
  apply (returns_with_bind (prose_post before line (references s) plain)).
  { apply (scan_prose_read before line after (references s) plain Hplain Hsrc Hbefore Hafter Hone ticks (length line) [] line);
      [done|lia|by rewrite app_nil_r|].
    intros Hpl. destruct (Hp Hpl) as (_ & ? & _). split_and!; [done|intros [|? ?]; done|done]. }
  intros [ticks' refs'] [Hr' Hp']. simpl in *. split_and!; simpl; [by rewrite str_len_app|done|done|].
  intros Hpl. destruct (Hp' Hpl) as (-> & Hfound & Hkeep). destruct (Hp Hpl) as (_ & _ & Hall).
  split_and!; [done|done|by eapply found_all_line].
Qed.


Lemma scan_lines_read (plain : Prop) ticks : ∀ ls before rest s,
  ls = split_inclusive rest → src = before ++ rest → (before ≠ [] → rest ≠ [] → last before = Some 10) →
  (plain → Forall plain_line ls) → scan_ok plain before s →
  returns_with (scan_ok plain src) (scan_lines src ticks ls s).
Proof.
  induction ls as [|line ls IH]; intros before rest s Hls Hsrc Hbefore Hplain Hok; simpl.
  - destruct rest as [|c rest]; [by rewrite Hsrc, app_nil_r|]. simpl in Hls. by repeat case_match.
  - symmetry in Hls. apply split_inclusive_cons in Hls as (after & -> & Hls & Hne & Hlast & Hone).
    apply (returns_with_bind (scan_ok plain (before ++ line))).
    + apply scan_line_read with after; [done| |done|done| |done].
      * intros Hb. apply Hbefore; [done|]. by destruct line.
      * intros Hp. apply Hplain in Hp. by apply Forall_cons in Hp as [? _].
    + intros s' Hs'. apply (IH (before ++ line) after); [done|by rewrite <- app_assoc| |  |done].
      * intros _ Hafter. destruct line as [|c l _] using rev_ind; [done|].
        rewrite app_assoc, last_snoc. specialize (Hlast Hafter). by rewrite last_snoc in Hlast.
      * intros Hp. apply Hplain in Hp. by apply Forall_cons in Hp as [_ ?].
Qed.

Lemma last_tick_runs_loop_returns fuel : ∀ offset bytes runs,
  (length bytes ≤ fuel)%nat → ∃ m, last_tick_runs_loop fuel offset bytes runs = Ok m.
Proof.
  induction fuel as [|fuel IH]; intros offset [|b bytes] runs Hl; simpl in *; [eauto|lia|eauto|].
  destruct (Z.eqb_spec b 96) as [->|]; simpl; [|apply IH; lia].
  apply IH. rewrite length_drop. simpl. pose proof (leading_nonneg 96 bytes). lia.
Qed.

End Scan.

(** What [document_references] returns, and what it misses. *)
Lemma document_references_read `{UnicodeTables} src :
  returns_with (λ refs, references_ok src refs (str_len src)
      ∧ (Forall plain_line (split_inclusive src) → found_all src src refs))
    (document_references src).
Proof.
  unfold document_references.
  apply (returns_with_bind (λ _, True)); [by eapply returns_with_mono, fail_if_returns|]. intros _ _.
  destruct (last_tick_runs_loop_returns (length (as_bytes src)) 0 (as_bytes src) ∅) as [m Hm]; [done|].
  unfold last_tick_runs. rewrite Hm. cbn [mbind result_bind].
  apply (returns_with_bind (scan_ok src (Forall plain_line (split_inclusive src)) src)).
  - eapply scan_lines_read; [done|by rewrite app_nil_l|done|done|].
    split_and!; [done| |done|].
    + split_and!; simpl; [lia|constructor|done].
    + intros _. split_and!; [done|done|]. intros [|? ?]; done.
  - intros s (_ & Hr & _ & Hp). split; [done|]. intros Hpl. by apply Hp.
Qed.

End ScanProofs.

Module ReferenceTheorems.
Import Grammar ReferenceSpec ScanProofs.

(** [src] without the spans of [refs]: what is left of [t], which starts at
    offset [c]. *)
Inductive Erased : Z → text → list DocumentReference → text → Prop :=
| Erased_end c t : Erased c t [] t
| Erased_span c g m t r refs out :
    ref_start r = c + str_len g → ref_end r = c + str_len (g ++ m) →
    Erased (ref_end r) t refs out → Erased c (g ++ m ++ t) (r :: refs) (g ++ out).

(** A reference that addresses a participant: an at sign behind whitespace or the
    start of the text, outside the guarded code. *)
Definition Addressed (src : text) (guarded : list CodeRange) (r : DocumentReference) : Prop :=
  ∃ u v, src = u ++ 64 :: v ∧ ref_start r = str_len u
    ∧ (u = [] ∨ ∃ c, last u = Some c ∧ is_whitespace c = true)
    ∧ ∀ g, g ∈ guarded → range_contains g (ref_start r) = false.

Section References.
Context `{UnicodeTables}.

Lemma reference_at_some src u v n v' :
  src = u ++ 64 :: v → name_lex v = Some (n, v') →
  opens_quote v = true ∨ trim_end_by (λ c, c =? 46) n ≠ [] →
  ∃ r, reference_at src (str_len u) = Ok (Some r).
Proof.
  intros Hsrc Hn Hc. unfold reference_at.
  assert (v `suffix_of` src) as Hv by (exists (u ++ [64]); by rewrite <- app_assoc).
  assert (str_len u + 1 = str_len src - str_len v) as Hoff.
  { rewrite Hsrc, str_len_app. simpl. change (len_utf8 64) with 1. lia. }
  pose proof (ParserProofs.name_lexes src v 0 Hv) as Hl. unfold ParserProofs.st in Hl.
  rewrite <- Hoff, Hn in Hl. simpl in Hl. rewrite Hl.
  replace (str_from src (str_len u + 1)) with (@Ok (fault NeuralSyntaxError) _ v).
  2: { symmetry. replace src with ((u ++ [64]) ++ v) by (by rewrite <- app_assoc). apply str_from_split. by rewrite str_len_snoc. }
  cbn [mbind result_bind]. destruct (opens_quote v) eqn:Hq.
  - unfold name_lex in Hn. rewrite Hq in Hn. destruct (quoted_lex v) as [[t s]|]; [|done]. simpl in Hn.
    case_bool_decide as Ht; [done|]. injection Hn as <- <-.
    rewrite bool_decide_eq_false_2; [eauto|]. by intros ->.
  - destruct Hc as [?|Hne]; [done|]. rewrite bool_decide_eq_false_2 by done. eauto.
Qed.


(** *** Participants *)

Lemma code_ranges_loop_returns fuel : ∀ offset bytes opening ranges,
  (length bytes ≤ fuel)%nat → ∃ r, code_ranges_loop fuel offset bytes opening ranges = Ok r.
Proof.
  induction fuel as [|fuel IH]; intros offset [|b bytes] opening ranges Hl; simpl in *; [eauto|lia|eauto|].
  rewrite Z.eqb_refl. destruct (negb _); [apply IH; lia|].
  destruct (match opening with Some _ => _ | None => _ end) as [o rs]. apply IH. rewrite length_drop. simpl.
  pose proof (leading_nonneg b bytes). lia.
Qed.

Lemma invocation_code_ranges_returns src : ∃ guarded, invocation_code_ranges src = Ok guarded.
Proof.
  unfold invocation_code_ranges.
  destruct (code_ranges_loop_returns (length (as_bytes src)) 0 (as_bytes src) None []) as [[o rs] ->]; [done|].
  simpl. eauto.
Qed.

Lemma filter_run_ok {A} (f : A → run bool) l :
  (∀ x, x ∈ l → ∃ b, f x = Ok b) →
  ∃ k, filter_run f l = Ok k ∧ k `sublist_of` l ∧ ∀ x, x ∈ k ↔ x ∈ l ∧ f x = Ok true.
Proof.
  induction l as [|x l IH]; intros Hf; simpl.
  { exists []. split_and!; [done|done|]. intros x. by rewrite elem_of_nil; naive_solver. }
  destruct (Hf x) as [b Hb]; [by left|]. rewrite Hb.
  destruct IH as (k & Hk & Hsub & Hin); [intros y Hy; apply Hf; by right|]. rewrite Hk. simpl.
  exists (if b then x :: k else k). split_and!; [done|destruct b; by constructor|].
  intros y. destruct b; rewrite ?elem_of_cons, Hin; split; try naive_solver.
  intros [[-> |?] Hy]; [|done]. by rewrite Hb in Hy.
Qed.

Lemma addresses_ok src guarded r :
  reference_of src r → ∃ b, addresses src guarded r = Ok b ∧ (b = true ↔ Addressed src guarded r).
Proof.
  intros (u & m & v & Hsrc & Hst & _). unfold addresses.
  destruct (existsb _ guarded) eqn:Hg.
  { exists false. split; [done|]. split; [done|]. intros (u' & v' & _ & _ & _ & Hno).
    apply existsb_exists in Hg as (g & Hin & Hc). rewrite Hno in Hc; [done|by apply list_elem_of_In]. }
  assert (∀ g, g ∈ guarded → range_contains g (ref_start r) = false) as Hfree.
  { intros g Hin. apply not_true_iff_false. intros Hc. rewrite <- not_true_iff_false in Hg. apply Hg, existsb_exists.
    exists g. split; [by apply list_elem_of_In|done]. }
  destruct (byte_is src (ref_start r) 64) eqn:Hb; cbn [negb]; cbv iota.
  2: { exists false. split; [done|]. split; [done|]. intros (u' & v' & Hsrc' & Hst' & _).
    rewrite Hsrc' in Hb. by eapply byte_is_false in Hb; [|done|done]. }
  rewrite Hsrc in Hb. apply byte_is_split in Hb as [v' Hv]; [|done|done]. rewrite Hv in Hsrc.
  assert (∀ u', Addressed src guarded r → src = u' ++ 64 :: v' → ref_start r = str_len u' →
    u' = [] ∨ ∃ c, last u' = Some c ∧ is_whitespace c = true) as Hu.
  { intros u' (u2 & v2 & Hsrc2 & Hst2 & Hw & _) Hsrc' Hst'. rewrite Hsrc' in Hsrc2.
    apply split_unique in Hsrc2 as [-> _]; [done|congruence]. }
  destruct (Z.eqb_spec (ref_start r) 0) as [H0|H0].
  - exists true. split; [done|]. split; [|done]. intros _. exists u, v'. split_and!; [done|done| |done].
    left. destruct u as [|c u]; [done|]. pose proof (str_len_pos (c :: u) ltac:(done)). lia.
  - assert (str_to src (ref_start r) = Ok u) as -> by (rewrite Hsrc; by apply str_to_split).
    cbn [mbind result_bind]. eexists. split; [done|]. split.
    + intros Hw. exists u, v'. split_and!; [done|done| |done]. right. destruct (last u) as [c|]; [by exists c|done].
    + intros Ha. destruct (Hu u Ha Hsrc Hst) as [-> |(c & -> & Hc)]; [|done]. by destruct H0.
Qed.

Lemma ordered_sublist k refs : k `sublist_of` refs → ∀ lo hi, ordered lo refs hi → ordered lo k hi.
Proof.
  assert (∀ k lo lo' hi, lo' ≤ lo → ordered lo k hi → ordered lo' k hi) as Hweak.
  { intros [|r l] lo lo' hi Hle; simpl; [lia|]. intros [? ?]. split; [lia|done]. }
  induction 1 as [|r k l _ IH|r k l _ IH]; simpl; intros lo hi; [done| |].
  - intros [? ?]. split; [done|]. by apply IH.
  - intros [? ?]. eapply Hweak; [|by eapply IH]. lia.
Qed.

Definition participants_read (src : text) (refs : list DocumentReference) : Prop :=
  ∃ all guarded, document_references src = Ok all ∧ invocation_code_ranges src = Ok guarded
    ∧ (∀ r, r ∈ refs ↔ r ∈ all ∧ Addressed src guarded r)
    ∧ ordered 0 refs (str_len src) ∧ Forall (reference_of src) refs.

Lemma participant_references_read src :
  returns_with (participants_read src) (participant_references src).
Proof.
  unfold participant_references.
  apply (returns_with_bind (λ _, True)); [by eapply returns_with_mono, fail_if_returns|]. intros _ _.
  destruct (invocation_code_ranges_returns src) as [guarded Hg]. rewrite Hg. cbn [mbind result_bind].
  pose proof (document_references_read src) as Hr.
  destruct (document_references src) as [all|[| |e]] eqn:Hall; try done. cbn [mbind result_bind].
  destruct Hr as [(Ho & Hf & _) _]. rewrite Forall_forall in Hf.
  destruct (filter_run_ok (addresses src guarded) all) as (k & -> & Hsub & Hin).
  { intros r Hr. destruct (addresses_ok src guarded r (Hf r Hr)) as (b & Hb & _). eauto. }
  exists all, guarded. split_and!; [done|done| |by eapply ordered_sublist|].
  - intros r. rewrite Hin. split; intros [Hr Ha]; (split; [done|]);
      destruct (addresses_ok src guarded r (Hf r Hr)) as (b & Hb & Hiff); [|by rewrite Hb, (proj2 Hiff Ha)].
    apply Hiff. congruence.
  - apply Forall_forall. intros r Hr. apply Hf. by apply Hin.
Qed.

Lemma remove_spans_erased src : ∀ refs pre rest txt,
  src = pre ++ rest → ordered (str_len pre) refs (str_len src) → Forall (reference_of src) refs →
  ∃ out, remove_spans src (str_len pre) refs txt = Ok (txt ++ out) ∧ Erased (str_len pre) rest refs out.
Proof.
  induction refs as [|r refs IH]; intros pre rest txt Hsrc Ho Hf; simpl.
  - exists rest. rewrite Hsrc, (str_from_split pre rest _ eq_refl). split; [done|constructor].
  - apply Forall_cons in Hf as [(u & m & v & Hsrc' & Hst & Hen & _) Hf]. destruct Ho as [Hle Ho].
    assert (∃ g, u = pre ++ g ∧ rest = g ++ m ++ v) as (g & -> & ->).
    { rewrite Hsrc in Hsrc'. apply app_eq_inv in Hsrc' as [(k & Hk & Hk2)|(k & -> & ->)]; [|by exists k].
      subst pre. rewrite str_len_app in Hle. destruct k as [|c k].
      - exists []. rewrite !app_nil_r. by simpl in Hk2.
      - pose proof (str_len_pos (c :: k) ltac:(done)). lia. }
    rewrite <- app_assoc in Hsrc'.
    replace (str_slice src (str_len pre) (ref_start r)) with (@Ok (fault NeuralSyntaxError) _ g).
    2: { symmetry. rewrite Hsrc'. apply str_slice_mid'; [done|]. by rewrite Hst, str_len_app. }
    cbn [mbind result_bind]. destruct (IH (pre ++ g ++ m) v (txt ++ g)) as (out & Hout & He).
    + by rewrite Hsrc', <- !app_assoc.
    + rewrite app_assoc, <- Hen. done.
    + done.
    + exists (g ++ out). rewrite app_assoc in Hout, He. rewrite <- Hen in Hout, He. split; [by rewrite Hout, app_assoc|].
      constructor; [by rewrite Hst, str_len_app|by rewrite Hen, <- app_assoc, (str_len_app pre)|done].
Qed.

(** The handles are the lower-case names, once each, in order. *)
Lemma handles_fold refs : ∀ hs, NoDup hs →
  let r := foldl (λ handles r, let handle := to_ascii_lowercase (ref_name r) in
      if bool_decide (handle ∈ handles) then handles else handles ++ [handle]) hs refs in
  NoDup r ∧ ∀ h, h ∈ r ↔ h ∈ hs ∨ ∃ x, x ∈ refs ∧ h = to_ascii_lowercase (ref_name x).
Proof.
  induction refs as [|x refs IH]; intros hs Hnd; cbn zeta; simpl.
  - split; [done|]. intros h. split; [by left|]. intros [?|(x & Hx & _)]; [done|]. by apply not_elem_of_nil in Hx.
  - case_bool_decide as Hin.
    + destruct (IH hs Hnd) as [Hn Hh]. split; [done|]. intros h. rewrite Hh. set_solver.
    + destruct (IH (hs ++ [to_ascii_lowercase (ref_name x)])) as [Hn Hh].
      { apply NoDup_app. split_and!; [done| |apply NoDup_singleton]. set_solver. }
      split; [done|]. intros h. rewrite Hh. set_solver.
Qed.

(** only addresses are taken out of a consult. Both functions return on every
    input. The participants are exactly the reported references whose at sign
    starts the text or follows whitespace outside guarded code; the text without
    them keeps every other scalar in order; and the handles are their names in
    ASCII lower case, each once. *)
Theorem participant_addresses_exact src :
  returns (remove_participant_addresses src) ∧ returns (participant_handles src)
  ∧ (∀ out, remove_participant_addresses src = Ok out →
      ∃ refs, participant_references src = Ok refs ∧ participants_read src refs ∧ Erased 0 src refs out)
  ∧ (∀ handles, participant_handles src = Ok handles →
      ∃ refs, participant_references src = Ok refs ∧ participants_read src refs
        ∧ NoDup handles ∧ ∀ h, h ∈ handles ↔ ∃ r, r ∈ refs ∧ h = to_ascii_lowercase (ref_name r)).
Proof.
  pose proof (participant_references_read src) as Hp. unfold remove_participant_addresses, participant_handles.
  destruct (participant_references src) as [refs|[| |e]]; try done. cbn [mbind result_bind] in *.
  pose proof Hp as (all & guarded & _ & _ & _ & Ho & Hf).
  destruct (remove_spans_erased src refs [] src []) as (out & Hout & He); [done|done|done|]. simpl in Hout.
  rewrite Hout. split_and!; [done|done| |].
  - intros o [= <-]. by exists refs.
  - intros handles [= <-]. destruct (handles_fold refs [] ltac:(constructor)) as [Hnd Hin].
    exists refs. split_and!; [done|done|done|]. intros h. rewrite Hin. set_solver.
Qed.

End References.

(** *** The prompt of a document function *)

(** The inputs as they are framed, each on lines of its own. *)
Fixpoint framed_inputs (numbered : bool) (index : Z) (inputs : list text) : text :=
  match inputs with
  | [] => []
  | input :: inputs =>
    (if numbered then heading (index + 1) else []) ++ input ++ [10] ++ framed_inputs numbered (index + 1) inputs
  end.

Definition framed_prompt (function : text) (inputs : list text) : text :=
  function
  ++ match inputs with
     | [] => []
     | _ => str "

Inputs:
" ++ framed_inputs (1 <? len inputs) 0 inputs
     end
  ++ str "
Output:
".

Lemma push_inputs_framed numbered inputs : ∀ index prompt,
  PromptGrammar.push_inputs numbered index inputs prompt = prompt ++ framed_inputs numbered index inputs.
Proof.
  induction inputs as [|input inputs IH]; intros index prompt; simpl; [by rewrite app_nil_r|].
  rewrite IH, <- !app_assoc. done.
Qed.

Lemma checked_add_bind {A} max a b (f : Z → option A) :
  (x ← checked_add max a b ; f x) = if a + b <=? max then f (a + b) else None.
Proof. unfold checked_add. by case_match. Qed.

Lemma framed_bytes_spec numbered inputs : ∀ index bytes,
  match framed_bytes numbered index inputs bytes with
  | Some b => b = bytes + str_len (framed_inputs numbered index inputs)
  | None => usize_max < bytes + str_len (framed_inputs numbered index inputs)
  end.
Proof.
  induction inputs as [|input inputs IH]; intros index bytes; cbn [framed_bytes framed_inputs]; [simpl; lia|].
  rewrite !str_len_app, !checked_add_bind. change (str_len [10]) with 1.
  assert ((if numbered then str_len (heading (index + 1)) else 0)
    = str_len (if numbered then heading (index + 1) else [])) as -> by by destruct numbered.
  generalize (if numbered then heading (index + 1) else []). intros h.
  pose proof (str_len_nonneg input). pose proof (str_len_nonneg (framed_inputs numbered (index + 1) inputs)).
  pose proof (str_len_nonneg h).
  destruct (Z.leb_spec (bytes + str_len h) usize_max); [|lia].
  destruct (Z.leb_spec (bytes + str_len h + str_len input) usize_max); [|lia].
  destruct (Z.leb_spec (bytes + str_len h + str_len input + 1) usize_max); [|lia].
  specialize (IH (index + 1) (bytes + str_len h + str_len input + 1)).
  destruct (framed_bytes _ _ _ _); lia.
Qed.

Definition total_len (inputs : list text) : Z := foldr (λ i acc, str_len i + acc) 0 inputs.

Lemma total_len_framed numbered inputs : ∀ index,
  0 ≤ total_len inputs ≤ str_len (framed_inputs numbered index inputs).
Proof.
  induction inputs as [|i inputs IH]; intros index; [done|]. cbn [framed_inputs]. rewrite !str_len_app.
  specialize (IH (index + 1)). unfold total_len in *. simpl foldr.
  pose proof (str_len_nonneg i). pose proof (str_len_nonneg (if numbered then heading (index + 1) else [])).
  change (str_len [10]) with 1. lia.
Qed.

Lemma total_len_sum inputs : ∀ a, a + total_len inputs ≤ usize_max →
  foldl (λ size input, s ← size ; checked_add usize_max s (str_len input)) (Some a) inputs = Some (a + total_len inputs).
Proof.
  induction inputs as [|i inputs IH]; intros a Ha; unfold total_len in *; simpl in *; [f_equal; lia|].
  pose proof (total_len_framed false inputs 0) as [Hn _]. unfold total_len in Hn.
  unfold checked_add at 2. rewrite (proj2 (Z.leb_le _ _)) by lia. rewrite IH by lia. f_equal. lia.
Qed.

Lemma framed_prompt_len function inputs :
  str_len (framed_prompt function inputs)
    = str_len function + 9 + (match inputs with [] => 0 | _ => 10 end)
      + str_len (framed_inputs (1 <? len inputs) 0 inputs).
Proof.
  unfold framed_prompt. rewrite !str_len_app. change (str_len (str "
Output:
")) with 9. destruct inputs; [simpl; lia|]. rewrite str_len_app. change (str_len (str "

Inputs:
")) with 10. lia.
Qed.

(** The size that the loop adds up. *)
Lemma framed_size_spec function inputs :
  match (b ← checked_add usize_max (str_len function) 9 ;
         b ← (match inputs with [] => Some b | _ => checked_add usize_max b 10 end) ;
         framed_bytes (1 <? len inputs) 0 inputs b) with
  | Some b => b = str_len (framed_prompt function inputs)
  | None => usize_max < str_len (framed_prompt function inputs)
  end.
Proof.
  rewrite framed_prompt_len.
  pose proof (str_len_nonneg (framed_inputs (1 <? len inputs) 0 inputs)).
  rewrite checked_add_bind. destruct (Z.leb_spec (str_len function + 9) usize_max); [|destruct inputs; lia].
  destruct inputs as [|i inputs]; [simpl; lia|]. rewrite checked_add_bind.
  destruct (Z.leb_spec (str_len function + 9 + 10) usize_max); [|lia].
  pose proof (framed_bytes_spec (1 <? len (i :: inputs)) (i :: inputs) 0 (str_len function + 9 + 10)) as Hs.
  destruct (framed_bytes _ _ _ _); lia.
Qed.

(** The inner renderer, on inputs within its own limits. *)
Lemma grammar_prompt function inputs :
  len inputs ≤ MAX_NEURAL_NODES → str_len (framed_prompt function inputs) ≤ MAX_NEURAL_DOCUMENT_BYTES →
  PromptGrammar.render_base_function_prompt function inputs = Ok (framed_prompt function inputs).
Proof.
  intros Hn Hl. unfold PromptGrammar.render_base_function_prompt.
  assert (str_len function + total_len inputs ≤ str_len (framed_prompt function inputs)) as Ht.
  { rewrite framed_prompt_len. pose proof (total_len_framed (1 <? len inputs) inputs 0). destruct inputs; lia. }
  rewrite total_len_sum by (unfold MAX_NEURAL_DOCUMENT_BYTES, usize_max, u64_max in *; lia).
  rewrite !(proj2 (Z.ltb_ge _ _)) by lia. cbn [orb]. cbv iota. f_equal. unfold framed_prompt.
  destruct inputs as [|i inputs]; [done|]. by rewrite push_inputs_framed, <- !app_assoc.
Qed.

(** a function prompt retains every byte and counts its framing. The prompt is
    rendered exactly if there are at most the limit of inputs and the whole framed
    text, headings and separators included, is within the document limit; it is
    then the function, each input on lines of its own under its numbered heading
    (without one if it is the only input), and the output heading. The size is added
    up without overflow, and otherwise the call fails with the budget error. *)
Theorem function_prompt_exact function inputs :
  returns (render_base_function_prompt function inputs)
  ∧ (∀ p, render_base_function_prompt function inputs = Ok p ↔
      len inputs ≤ MAX_NEURAL_NODES ∧ str_len (framed_prompt function inputs) ≤ MAX_NEURAL_DOCUMENT_BYTES
      ∧ p = framed_prompt function inputs).
Proof.
  unfold render_base_function_prompt. destruct (Z.ltb_spec MAX_NEURAL_NODES (len inputs)) as [Hn|Hn].
  { split; [done|]. intros p. split; [done|]. lia. }
  pose proof (framed_size_spec function inputs) as Hs. cbn zeta. destruct (_ ≫= _) as [b|].
  - subst b. destruct (Z.ltb_spec MAX_NEURAL_DOCUMENT_BYTES (str_len (framed_prompt function inputs))) as [Hb|Hb].
    + split; [done|]. intros p. split; [done|]. lia.
    + rewrite grammar_prompt by done. split; [done|]. intros p. split; [by intros [= <-]|]. by intros (_ & _ & ->).
  - split; [done|]. intros p. split; [done|]. unfold MAX_NEURAL_DOCUMENT_BYTES, usize_max, u64_max in *. lia.
Qed.

(** *** Witnesses *)

Definition demo_document : text := str "Ask @Draft. and [@M](loom-document:413a3a42).".


Lemma participant_addresses_exact_witness :
  remove_participant_addresses (H:=NeuralTheorems.ascii_tables) (str "@Ann: mail a@b") = Ok (str ": mail a@b")
  ∧ ∃ refs, participant_references (H:=NeuralTheorems.ascii_tables) (str "@Ann: mail a@b") = Ok refs
      ∧ participants_read (H:=NeuralTheorems.ascii_tables) (str "@Ann: mail a@b") refs
      ∧ Erased 0 (str "@Ann: mail a@b") refs (str ": mail a@b").
Proof.
  assert (remove_participant_addresses (H:=NeuralTheorems.ascii_tables) (str "@Ann: mail a@b") = Ok (str ": mail a@b"))
    as Hr by (vm_compute; reflexivity).
  split; [exact Hr|].
  exact (proj1 (proj2 (proj2 (participant_addresses_exact (H:=NeuralTheorems.ascii_tables) (str "@Ann: mail a@b")))) _ Hr).
Defined.

Lemma function_prompt_exact_witness :
  render_base_function_prompt (str "f") [str "x"; str "y"] = Ok (framed_prompt (str "f") [str "x"; str "y"]).
Proof.
  apply (proj2 (function_prompt_exact (str "f") [str "x"; str "y"])).
  split; [vm_compute; congruence|]. split; [vm_compute; congruence|reflexivity].
Defined.

End ReferenceTheorems.
