(* ===== verification/ZimReader.v ===== *)
(** * ZimReader: the structure of an OpenZIM archive

    Models the parsing half of [information-native-backend-zim/src/reader.rs]: the
    header, the pointer tables, the MIME list, the directory and the title index, and
    the places of the clusters. The file is the list of its bytes, which do not change
    while it is read; reading beyond its end is [Truncated]. The [hex] crate is a
    parameter. *)

From S2P Require Import Prelude Bytes Text Utf8.
Local Open Scope Z_scope.

Definition ZIM_MAGIC : Z := 0x044d495a.
Definition HEADER_BYTES : Z := 80.
Definition CHECKSUM_BYTES : Z := 16.
Definition REDIRECT_MIME : Z := 0xffff.
Definition LINKTARGET_MIME : Z := 0xfffe.
Definition DELETED_MIME : Z := 0xfffd.

(** The errors of the parts that are modelled; the contract errors of
    [information-native-types] that occur there are invalid identifiers. *)
Inductive ZimError :=
| InvalidLimits
| Truncated (what : string)
| InvalidMagic
| UnsupportedVersion (v : Z)
| InvalidHeader (reason : string)
| CountLimit (what : string)
| IntegerOverflow
| OutOfBounds (label : string)
| OverlappingRegions
| InvalidMimeList
| InvalidDirectoryEntry (entry_index : Z) (reason : string)
| UnsupportedCompression (code : Z)
| InvalidCluster (cluster_index : Z) (reason : string)
| ClusterLimitExceeded
| ArticleLimitExceeded
| InvalidArticleUtf8
| MalformedHtml
| NoMaterializableArticles
| Zstd (message : string)
| Contract (kind : string) (value : text).
#[export] Instance ZimError_eq_dec : EqDecision ZimError.
Proof. solve_decision. Defined.

Notation zim := (parse ZimError).

Record ZimLimits := {
  max_archive_bytes : Z;
  max_entries : Z;
  max_clusters : Z;
  max_mime_list_bytes : Z;
  max_dirent_bytes : Z;
  max_total_dirent_bytes : Z;
  max_path_bytes : Z;
  max_title_bytes : Z;
  max_compressed_cluster_bytes : Z;
  max_decoded_cluster_bytes : Z;
  max_cluster_blob_count : Z;
  max_zstd_window_bytes : Z;
  max_blob_bytes : Z;
  max_total_selected_blob_bytes : Z;
  max_article_text_bytes : Z;
  max_candidate_entries : Z;
  max_documents : Z;
  max_total_text_bytes : Z;
  max_decoded_clusters : Z;
  max_total_decoded_cluster_bytes : Z;
}.

(** Constants of [information-native-types] *)
Definition MAX_MANAGED_DOCUMENTS_PER_MATERIALIZATION : Z := 10000.
Definition MAX_MANAGED_SEGMENT_BYTES : Z := 1024 * 1024.
Definition MAX_MANAGED_TEXT_BYTES : Z := 1024 * 1024 * 1024.

(** [ZimLimits::validate] *)
Definition limits_validate (l : ZimLimits) : zim unit :=
  fail_if ((max_archive_bytes l <? 96) || (max_entries l =? 0) || (max_clusters l =? 0) || (max_mime_list_bytes l <? 2)
    || (max_dirent_bytes l <? 18) || (max_total_dirent_bytes l =? 0) || (max_path_bytes l =? 0) || (max_title_bytes l =? 0)
    || (max_compressed_cluster_bytes l =? 0) || (max_decoded_cluster_bytes l <? 8) || (max_cluster_blob_count l =? 0)
    || (max_zstd_window_bytes l =? 0) || (max_blob_bytes l =? 0) || (max_total_selected_blob_bytes l =? 0)
    || (max_article_text_bytes l =? 0) || (max_candidate_entries l =? 0) || (max_documents l =? 0)
    || (max_total_text_bytes l =? 0) || (max_decoded_clusters l =? 0) || (max_total_decoded_cluster_bytes l =? 0))
    InvalidLimits ;;
  fail_if ((MAX_MANAGED_SEGMENT_BYTES <? max_article_text_bytes l)
    || (MAX_MANAGED_DOCUMENTS_PER_MATERIALIZATION <? max_documents l) || (max_candidate_entries l <? max_documents l)
    || (8000 <? max_path_bytes l) || (8192 <? max_title_bytes l) || (max_entries l <? max_cluster_blob_count l)
    || (MAX_MANAGED_TEXT_BYTES <? max_total_text_bytes l)) InvalidLimits.

(** [ZimLimits::default] *)
Definition limits_default : ZimLimits := {|
  max_archive_bytes := 64 * 1024 * 1024 * 1024; max_entries := 1000000; max_clusters := 1000000;
  max_mime_list_bytes := 64 * 1024; max_dirent_bytes := 64 * 1024; max_total_dirent_bytes := 256 * 1024 * 1024;
  max_path_bytes := 8000; max_title_bytes := 8 * 1024; max_compressed_cluster_bytes := 64 * 1024 * 1024;
  max_decoded_cluster_bytes := 128 * 1024 * 1024; max_cluster_blob_count := 1000000;
  max_zstd_window_bytes := 64 * 1024 * 1024; max_blob_bytes := 4 * 1024 * 1024;
  max_total_selected_blob_bytes := 256 * 1024 * 1024; max_article_text_bytes := MAX_MANAGED_SEGMENT_BYTES;
  max_candidate_entries := 40000; max_documents := MAX_MANAGED_DOCUMENTS_PER_MATERIALIZATION;
  max_total_text_bytes := 256 * 1024 * 1024; max_decoded_clusters := 4096;
  max_total_decoded_cluster_bytes := 512 * 1024 * 1024;
|}.

(** ** Numbers *)

(** [offset.checked_add(n)] on [usize] and [u64], which have the same width *)
Definition u64_add (a b : Z) : zim Z := need (checked_add u64_max a b) IntegerOverflow.
Definition u64_sub (a b : Z) : zim Z := need (checked_sub a b) IntegerOverflow.
Definition u64_mul (a b : Z) : zim Z := need (checked_mul u64_max a b) IntegerOverflow.

Definition read_le (width : Z) (label : string) (bytes : list Z) (offset : Z) : zim Z :=
  end_ ← u64_add offset width ;
  raw ← need (get_slice bytes offset end_) (Truncated label) ;
  Ok (le_value raw).
Definition read_u16 := read_le 2 "u16".
Definition read_u32 := read_le 4 "u32".
Definition read_u64 := read_le 8 "u64".

(** [file.seek] and [file.read_exact] *)
Definition read_range (file : list Z) (offset length : Z) (operation : string) : zim (list Z) :=
  need (get_slice file offset (offset + length)) (Truncated operation).

(** ** The header *)

Record Range := { start : Z; end_ : Z }.

Record Header := {
  major_version : Z;
  minor_version : Z;
  uuid_hex : text;
  entry_count : Z;
  cluster_count : Z;
  url_pointer_position : Z;
  title_index_position : Z;
  cluster_pointer_position : Z;
  mime_list_position : Z;
  checksum_position : Z;
}.

Definition page_ok (entry_count page : Z) : bool := (page =? u32_max) || (page <? entry_count).

Section Hex.
Context (hex_encode : list Z → text).

(** [Header::parse] *)
Definition header_parse (bytes : list Z) (archive_len : Z) (limits : ZimLimits) : zim Header :=
  magic ← read_u32 bytes 0 ;
  fail_if (negb (magic =? ZIM_MAGIC)) InvalidMagic ;;
  major ← read_u16 bytes 4 ;
  fail_if (negb (major =? 6)) (UnsupportedVersion major) ;;
  minor ← read_u16 bytes 6 ;
  uuid ← need (get_slice bytes 8 24) (Truncated "UUID") ;
  entry_count ← read_u32 bytes 24 ;
  cluster_count ← read_u32 bytes 28 ;
  url ← read_u64 bytes 32 ;
  title ← read_u64 bytes 40 ;
  cluster ← read_u64 bytes 48 ;
  mime ← read_u64 bytes 56 ;
  main_page ← read_u32 bytes 64 ;
  layout_page ← read_u32 bytes 68 ;
  checksum ← read_u64 bytes 72 ;
  fail_if ((entry_count =? 0) || (cluster_count =? 0) || (entry_count <? cluster_count))
    (InvalidHeader "invalid entry/cluster counts") ;;
  fail_if (max_entries limits <? entry_count) (CountLimit "entries") ;;
  fail_if (max_clusters limits <? cluster_count) (CountLimit "clusters") ;;
  fail_if (negb (mime =? HEADER_BYTES)) (InvalidHeader "version 6 MIME list must begin at byte 80") ;;
  fail_if ((url <? mime) || (cluster <? mime) || (negb (title =? u64_max) && (title <? mime)))
    (InvalidHeader "pointer tables precede the MIME list") ;;
  bad_checksum ← (if checksum <? mime then Ok true
                  else e ← u64_add checksum CHECKSUM_BYTES ; Ok (negb (e =? archive_len))) ;
  fail_if bad_checksum (InvalidHeader "checksum must be the final 16 archive bytes") ;;
  fail_if (negb (page_ok entry_count main_page)) (InvalidHeader "page index is out of bounds") ;;
  fail_if (negb (page_ok entry_count layout_page)) (InvalidHeader "page index is out of bounds") ;;
  Ok {| major_version := major; minor_version := minor; uuid_hex := hex_encode uuid;
        entry_count := entry_count; cluster_count := cluster_count; url_pointer_position := url;
        title_index_position := title; cluster_pointer_position := cluster;
        mime_list_position := mime; checksum_position := checksum |}.
End Hex.

(** ** Tables and regions *)

Definition table_range (start count width archive_len : Z) (label : string) : zim Range :=
  bytes ← u64_mul count width ;
  e ← u64_add start bytes ;
  fail_if ((start <? HEADER_BYTES) || (archive_len <? e) || (e <=? start)) (OutOfBounds label) ;;
  Ok {| start := start; end_ := e |}.

(** [sort_by_key(|range| range.start)], which is stable *)
Fixpoint insert_region (r : Range) (l : list Range) : list Range :=
  match l with
  | [] => [r]
  | x :: l' => if start r <? start x then r :: l else x :: insert_region r l'
  end.
Definition sort_regions (l : list Range) : list Range := foldl (λ acc r, insert_region r acc) [] l.

Fixpoint overlapping (l : list Range) : bool :=
  match l with
  | x :: (y :: _) as l' => (start y <? end_ x) || overlapping l'
  | _ => false
  end.

Definition validate_disjoint_regions (regions : list Range) : zim unit :=
  fail_if (overlapping (sort_regions regions)) OverlappingRegions.

Definition in_region (offset : Z) (r : Range) : bool := (start r <=? offset) && (offset <? end_ r).

Definition validate_content_anchors (entry_offsets cluster_offsets : list Z) (fixed_regions : list Range)
    (checksum_position : Z) : zim unit :=
  let entry_set : gset Z := list_to_set entry_offsets in
  fail_if (existsb (λ o, bool_decide (o ∈ entry_set)) cluster_offsets) OverlappingRegions ;;
  fail_if (existsb (λ o, (o <? HEADER_BYTES) || (checksum_position <=? o) || existsb (in_region o) fixed_regions)
             (entry_offsets ++ cluster_offsets)) (OutOfBounds "content pointer").

(** The [BTreeSet] of all offsets, in order *)
Definition build_anchors (entry_offsets cluster_offsets : list Z) (fixed_regions : list Range)
    (checksum_position : Z) : list Z :=
  merge_sort Z.le (elements (list_to_set
    (entry_offsets ++ cluster_offsets ++ map start fixed_regions ++ [checksum_position]) : gset Z)).

(** [partition_point] of a predicate on a partitioned slice *)
Fixpoint partition_point (p : Z → bool) (l : list Z) : nat :=
  match l with
  | x :: l => if p x then S (partition_point p l) else O
  | [] => O
  end.

Definition next_anchor (anchors : list Z) (offset : Z) : zim Z :=
  need (anchors !! partition_point (λ a, a <=? offset) anchors) (OutOfBounds "content extent").

(** [windows(2).any(|pair| pair[0] >= pair[1])] *)
Fixpoint unordered (l : list Z) : bool :=
  match l with
  | x :: (y :: _) as l' => (y <=? x) || unordered l'
  | _ => false
  end.

Definition validate_strict_offsets (offsets : list Z) (label : string) : zim unit :=
  fail_if (unordered offsets) (InvalidHeader label).

(** [read_u64_table] and [read_u32_table] *)
Fixpoint table_values (read : list Z → Z → zim Z) (width : Z) (bytes : list Z) (n : nat) (index : Z) : zim (list Z) :=
  match n with
  | O => Ok []
  | S n =>
    position ← u64_mul index width ;
    v ← read bytes position ;
    vs ← table_values read width bytes n (index + 1) ;
    Ok (v :: vs)
  end.

Definition read_u64_table (file : list Z) (range : Range) (count : Z) (operation : string) : zim (list Z) :=
  length ← u64_sub (end_ range) (start range) ;
  bytes ← read_range file (start range) length operation ;
  table_values read_u64 8 bytes (Z.to_nat count) 0.

Definition read_u32_table (file : list Z) (range : Range) (count : Z) (operation : string) : zim (list Z) :=
  length ← u64_sub (end_ range) (start range) ;
  bytes ← read_range file (start range) length operation ;
  table_values read_u32 4 bytes (Z.to_nat count) 0.

(** ** The MIME list *)

(** [windows(2).position(|window| window == [0, 0])] *)
Fixpoint double_nul (l : list Z) : option Z :=
  match l with
  | x :: (y :: _) as l' => if (x =? 0) && (y =? 0) then Some 0 else Z.succ <$> double_nul l'
  | _ => None
  end.

(** [split(|byte| *byte == 0)] *)
Fixpoint split_nul (l : list Z) : list (list Z) :=
  match l with
  | [] => [[]]
  | b :: l =>
    if b =? 0 then [] :: split_nul l
    else match split_nul l with
         | p :: ps => (b :: p) :: ps
         | [] => [[b]]
         end
  end.

Definition mime_type (raw : list Z) : zim text :=
  fail_if (bool_decide (raw = []) || (255 <? len raw)) InvalidMimeList ;;
  value ← need (from_utf8 raw) InvalidMimeList ;
  fail_if (negb (forallb (λ c, c <? 128) value) || existsb is_whitespace value) InvalidMimeList ;;
  Ok (to_ascii_lowercase value).

Definition read_mime_list (file : list Z) (start_ upper max_bytes : Z) : zim (list text * Range) :=
  available ← u64_sub upper start_ ;
  bytes ← read_range file start_ (Z.min available max_bytes) "MIME list" ;
  terminator ← need (double_nul bytes) InvalidMimeList ;
  fail_if (terminator =? 0) InvalidMimeList ;;
  mime_types ← mapM mime_type (split_nul (sub_list bytes 0 terminator)) ;
  fail_if (u16_max - 2 <? len mime_types) InvalidMimeList ;;
  consumed ← u64_add terminator 2 ;
  e ← u64_add start_ consumed ;
  Ok (mime_types, {| start := start_; end_ := e |}).

(** ** Directory entries *)

(** [ByteCursor]: the bytes are fixed, so a cursor is its position. *)
Definition cursor_le (width : Z) (bytes : list Z) (position : Z) : option (Z * Z) :=
  e ← checked_add u64_max position width ;
  raw ← get_slice bytes position e ;
  Some (le_value raw, e).
Definition cursor_u8 (bytes : list Z) (position : Z) : option (Z * Z) :=
  v ← get bytes position ;
  e ← checked_add u64_max position 1 ;
  Some (v, e).
Definition cursor_u16 := cursor_le 2.
Definition cursor_u32 := cursor_le 4.

(** [iter().position(|byte| *byte == 0)] *)
Fixpoint nul_position (l : list Z) : option Z :=
  match l with
  | b :: l => if b =? 0 then Some 0 else Z.succ <$> nul_position l
  | [] => None
  end.

Definition nul_string (bytes : list Z) (max_bytes position : Z) : result string (text * Z) :=
  remaining ← ok_or (get_slice bytes position (len bytes)) "string is truncated" ;
  terminator ← ok_or (nul_position (take (Z.to_nat (saturating_add usize_max max_bytes 1)) remaining))
    "string is unterminated or exceeds its byte limit" ;
  reject_if (max_bytes <? terminator) "string exceeds its byte limit" ;;
  value ← ok_or (from_utf8 (take (Z.to_nat terminator) remaining)) "string is not UTF-8" ;
  e ← ok_or (p ← checked_add usize_max position terminator ; checked_add usize_max p 1) "string offset overflows" ;
  mret (value, e).

Definition cursor_skip (bytes : list Z) (position n : Z) : option Z :=
  e ← checked_add usize_max position n ;
  if len bytes <? e then None else Some e.

Inductive DirectoryEntryKind :=
| Item (mime_index cluster_index blob_index : Z)
| Redirect
| LinktargetOrDeleted.

Record DirectoryEntry := { namespace : Z; path : text; title : text; kind : DirectoryEntryKind }.

(** [.map_err(|reason| invalid_entry(entry_index, reason))] *)
Definition string_field {A} (entry_index : Z) (r : result string A) : zim A :=
  match r with Ok a => Ok a | Err reason => Err (Fail (InvalidDirectoryEntry entry_index reason)) end.

Definition is_ascii_graphic (b : Z) : bool := in_range 33 126 b.

(** The part behind the fixed header, and the position behind it *)
Definition entry_kind (bytes : list Z) (position mime_index entry_index : Z) (mime_types : list text)
    (entry_count cluster_count : Z) : zim (DirectoryEntryKind * Z) :=
  let invalid := InvalidDirectoryEntry entry_index in
  if mime_index =? REDIRECT_MIME then
    '(redirect, position) ← need (cursor_u32 bytes position) (invalid "redirect target is truncated") ;
    fail_if (entry_count <=? redirect) (invalid "redirect target is out of bounds") ;;
    Ok (Redirect, position)
  else if (mime_index =? LINKTARGET_MIME) || (mime_index =? DELETED_MIME) then Ok (LinktargetOrDeleted, position)
  else
    fail_if (len mime_types <=? mime_index) (invalid "MIME index is out of bounds") ;;
    '(cluster_index, position) ← need (cursor_u32 bytes position) (invalid "cluster index is truncated") ;
    '(blob_index, position) ← need (cursor_u32 bytes position) (invalid "blob index is truncated") ;
    fail_if (cluster_count <=? cluster_index) (invalid "cluster index is out of bounds") ;;
    Ok (Item mime_index cluster_index blob_index, position).

Definition read_directory_entry (file : list Z) (offset upper entry_index : Z) (mime_types : list text)
    (entry_count cluster_count : Z) (limits : ZimLimits) : zim (DirectoryEntry * Z) :=
  let invalid := InvalidDirectoryEntry entry_index in
  available ← u64_sub upper offset ;
  bytes ← read_range file offset (Z.min available (max_dirent_bytes limits)) "directory entry" ;
  '(mime_index, p) ← need (cursor_u16 bytes 0) (invalid "fixed header is truncated") ;
  '(extra_len, p) ← need (cursor_u8 bytes p) (invalid "fixed header is truncated") ;
  '(namespace, p) ← need (cursor_u8 bytes p) (invalid "fixed header is truncated") ;
  '(_, p) ← need (cursor_u32 bytes p) (invalid "fixed header is truncated") ;
  fail_if (negb (is_ascii_graphic namespace) || (namespace =? 47)) (invalid "namespace is not a safe ASCII byte") ;;
  '(kind, p) ← entry_kind bytes p mime_index entry_index mime_types entry_count cluster_count ;
  '(path, p) ← string_field entry_index (nul_string bytes (max_path_bytes limits) p) ;
  '(title, p) ← string_field entry_index (nul_string bytes (max_title_bytes limits) p) ;
  p ← need (cursor_skip bytes p extra_len) (invalid "parameter bytes are truncated") ;
  fail_if (bool_decide (path = [])) (invalid "path is empty") ;;
  fail_if (existsb is_control path || existsb is_control title) (invalid "path or title contains control characters") ;;
  Ok ({| namespace := namespace; path := path; title := title; kind := kind |}, p).

(** [previous_key >= current_key] on tuples *)
Definition key_before (x y : DirectoryEntry) : bool :=
  match namespace x ?= namespace y with
  | Lt => true
  | Eq => match str_cmp (path x) (path y) with Lt => true | _ => false end
  | Gt => false
  end.

(** The loop over the directory: the entries so far and their encoded bytes. *)
Fixpoint read_entries (file : list Z) (anchors : list Z) (mime_types : list text) (header : Header) (limits : ZimLimits)
    (offsets : list Z) (index total : Z) (entries : list DirectoryEntry) : zim (list DirectoryEntry) :=
  match offsets with
  | [] => Ok entries
  | offset :: offsets =>
    entry_index ← need (try_from u32_max index) IntegerOverflow ;
    upper ← next_anchor anchors offset ;
    '(entry, encoded_bytes) ← read_directory_entry file offset upper entry_index mime_types
      (entry_count header) (cluster_count header) limits ;
    total ← u64_add total encoded_bytes ;
    fail_if (max_total_dirent_bytes limits <? total) (CountLimit "directory entry bytes") ;;
    fail_if (match last entries with Some previous => negb (key_before previous entry) | None => false end)
      (InvalidDirectoryEntry entry_index "URL pointer table is not in strict namespace/path order") ;;
    read_entries file anchors mime_types header limits offsets (index + 1) total (entries ++ [entry])
  end.

(** ** The title index *)

Definition sort_title (e : DirectoryEntry) : text := if bool_decide (title e = []) then path e else title e.

(** [previous > current] on triples *)
Definition title_after (x y : DirectoryEntry) : bool :=
  match namespace x ?= namespace y with
  | Gt => true
  | Lt => false
  | Eq => match str_cmp (sort_title x) (sort_title y) with
          | Gt => true
          | Lt => false
          | Eq => match str_cmp (path x) (path y) with Gt => true | _ => false end
          end
  end.

Fixpoint title_loop (entries : list DirectoryEntry) (indices : list Z) (seen : gset Z) (previous : option DirectoryEntry) :
    zim unit :=
  match indices with
  | [] => Ok tt
  | index :: indices =>
    entry ← need (entries !! Z.to_nat index) (InvalidHeader "title index contains an out-of-bounds entry") ;
    fail_if (bool_decide (index ∈ seen)) (InvalidHeader "title index is not a permutation of entries") ;;
    fail_if (match previous with Some previous => title_after previous entry | None => false end)
      (InvalidHeader "title index is not ordered") ;;
    title_loop entries indices ({[index]} ∪ seen) (Some entry)
  end.

Definition validate_title_index (indices : list Z) (entries : list DirectoryEntry) : zim unit :=
  title_loop entries indices ∅ None.

(** ** The archive *)

Record ParsedArchive := {
  header : Header;
  mime_types : list text;
  entries : list DirectoryEntry;
  cluster_offsets : list Z;
  anchors : list Z;
}.

(** The smallest known offset behind the MIME list *)
Definition mime_upper (entry_offsets cluster_offsets : list Z) (fixed_regions : list Range) (position : Z) : option Z :=
  match List.filter (λ o, position <? o)
          (option_list (head entry_offsets) ++ option_list (head cluster_offsets) ++ map start fixed_regions) with
  | [] => None
  | o :: os => Some (foldl Z.min o os)
  end.

Section Parse.
Context (hex_encode : list Z → text).

(** [Archive::parse] *)
Definition archive_parse (file : list Z) (archive_len : Z) (limits : ZimLimits) : zim ParsedArchive :=
  fail_if (archive_len <? HEADER_BYTES) (Truncated "header") ;;
  header_bytes ← read_range file 0 HEADER_BYTES "header" ;
  header ← header_parse hex_encode header_bytes archive_len limits ;
  url_table ← table_range (url_pointer_position header) (entry_count header) 8 archive_len "URL pointer table" ;
  cluster_table ← table_range (cluster_pointer_position header) (cluster_count header) 8 archive_len "cluster pointer table" ;
  title_table ← (if title_index_position header =? u64_max then Ok None
                 else t ← table_range (title_index_position header) (entry_count header) 4 archive_len "title index table" ;
                      Ok (Some t)) ;
  let checksum_range := {| start := checksum_position header; end_ := archive_len |} in
  let fixed_regions := [{| start := 0; end_ := HEADER_BYTES |}; url_table; cluster_table] ++ option_list title_table
                       ++ [checksum_range] in
  validate_disjoint_regions fixed_regions ;;
  entry_offsets ← read_u64_table file url_table (entry_count header) "URL pointer table" ;
  cluster_offsets ← read_u64_table file cluster_table (cluster_count header) "cluster pointer table" ;
  validate_strict_offsets entry_offsets "directory entry offsets" ;;
  validate_strict_offsets cluster_offsets "cluster offsets" ;;
  validate_content_anchors entry_offsets cluster_offsets fixed_regions (checksum_position header) ;;
  upper ← need (mime_upper entry_offsets cluster_offsets fixed_regions (mime_list_position header)) InvalidMimeList ;
  '(mime_types, mime_range) ← read_mime_list file (mime_list_position header) upper (max_mime_list_bytes limits) ;
  let fixed_regions := fixed_regions ++ [mime_range] in
  validate_disjoint_regions fixed_regions ;;
  validate_content_anchors entry_offsets cluster_offsets fixed_regions (checksum_position header) ;;
  let anchors := build_anchors entry_offsets cluster_offsets fixed_regions (checksum_position header) in
  entries ← read_entries file anchors mime_types header limits entry_offsets 0 0 [] ;
  _ ← (match title_table, entries with
       | Some title_range, _ :: _ =>
         title_indices ← read_u32_table file title_range (entry_count header) "title index table" ;
         validate_title_index title_indices entries
       | _, _ => Ok tt
       end) ;
  Ok {| header := header; mime_types := mime_types; entries := entries; cluster_offsets := cluster_offsets;
        anchors := anchors |}.
End Parse.

(** * Specification

    Two regions share no byte; the fixed regions of an archive by its header, and the
    extents of its contents: from an offset to the next anchor. *)

Definition apart (x y : Range) : Prop := end_ x ≤ start y ∨ end_ y ≤ start x.

Definition fixed_regions (h : Header) (archive_len mime_end : Z) : list Range :=
  [{| start := 0; end_ := HEADER_BYTES |};
   {| start := url_pointer_position h; end_ := url_pointer_position h + 8 * entry_count h |};
   {| start := cluster_pointer_position h; end_ := cluster_pointer_position h + 8 * cluster_count h |}]
  ++ (if title_index_position h =? u64_max then []
      else [{| start := title_index_position h; end_ := title_index_position h + 4 * entry_count h |}])
  ++ [{| start := checksum_position h; end_ := archive_len |}; {| start := HEADER_BYTES; end_ := mime_end |}].

Definition extents (anchors offsets : list Z) : zim (list Range) :=
  mapM (λ o, e ← next_anchor anchors o ; Ok {| start := o; end_ := e |}) offsets.

(** The bytes of a directory entry: the fixed header, what depends on its kind, two
    terminated strings and the parameters. *)
Inductive encoded_kind (mime_types : list text) (entry_count cluster_count : Z) :
  DirectoryEntryKind → Z → list Z → Prop :=
| EncodedItem m c b :
    0 ≤ m < len mime_types → 0 ≤ c < cluster_count → 0 ≤ b ≤ u32_max →
    encoded_kind _ _ _ (Item m c b) m (le_bytes 4 c ++ le_bytes 4 b)
| EncodedRedirect target :
    0 ≤ target < entry_count → encoded_kind _ _ _ Redirect REDIRECT_MIME (le_bytes 4 target)
| EncodedLinktarget : encoded_kind _ _ _ LinktargetOrDeleted LINKTARGET_MIME []
| EncodedDeleted : encoded_kind _ _ _ LinktargetOrDeleted DELETED_MIME [].

Definition entry_bytes (mime_index revision : Z) (kind_bytes parameters : list Z) (e : DirectoryEntry) : list Z :=
  le_bytes 2 mime_index ++ [len parameters; namespace e] ++ le_bytes 4 revision ++ kind_bytes
  ++ as_bytes (path e) ++ [0] ++ as_bytes (title e) ++ [0] ++ parameters.

Record entry_ok (limits : ZimLimits) (e : DirectoryEntry) : Prop := {
  entry_namespace : is_ascii_graphic (namespace e) = true ∧ namespace e ≠ 47;
  entry_path : Forall scalar (path e) ∧ len (as_bytes (path e)) ≤ max_path_bytes limits;
  entry_title : Forall scalar (title e) ∧ len (as_bytes (title e)) ≤ max_title_bytes limits;
  entry_path_named : path e ≠ [];
  entry_printable : Forall (λ c, is_control c = false) (path e ++ title e);
}.

(** The fields of the limits are unsigned. *)
Definition limits_unsigned (l : ZimLimits) : Prop :=
  Forall (λ v, 0 ≤ v)
    [max_archive_bytes l; max_entries l; max_clusters l; max_mime_list_bytes l; max_dirent_bytes l; max_total_dirent_bytes l;
     max_path_bytes l; max_title_bytes l; max_compressed_cluster_bytes l; max_decoded_cluster_bytes l; max_cluster_blob_count l;
     max_zstd_window_bytes l; max_blob_bytes l; max_total_selected_blob_bytes l; max_article_text_bytes l;
     max_candidate_entries l; max_documents l; max_total_text_bytes l; max_decoded_clusters l; max_total_decoded_cluster_bytes l].

(** An entry lies at an offset, before a bound. *)
Definition entry_at (file : list Z) (mime_types : list text) (h : Header) (limits : ZimLimits) (offset upper : Z)
    (e : DirectoryEntry) : Prop :=
  ∃ mime_index revision kind_bytes parameters,
    let encoded := entry_bytes mime_index revision kind_bytes parameters e in
    encoded_kind mime_types (entry_count h) (cluster_count h) (kind e) mime_index kind_bytes ∧
    entry_ok limits e ∧ here file offset encoded ∧ offset + len encoded ≤ upper.

(** The orders of the URL pointer table and of the title index. *)
Definition path_order : DirectoryEntry → DirectoryEntry → comparison :=
  lex (λ x y, namespace x ?= namespace y) (λ x y, str_cmp (path x) (path y)).
Definition title_order : DirectoryEntry → DirectoryEntry → comparison :=
  lex (λ x y, namespace x ?= namespace y)
    (lex (λ x y, str_cmp (sort_title x) (sort_title y)) (λ x y, str_cmp (path x) (path y))).

(** ** Regions *)

Module ZimTheorems.

Lemma insert_region_perm r l : insert_region r l ≡ₚ r :: l.
Proof.
  induction l as [|x l IH]; simpl; [done|]. case_match; [done|]. rewrite IH. by constructor.
Qed.

Lemma sort_regions_perm l : sort_regions l ≡ₚ l.
Proof.
  unfold sort_regions. assert (∀ acc, foldl (λ acc r, insert_region r acc) acc l ≡ₚ acc ++ l) as H; [|by apply (H [])].
  induction l as [|r l IH]; intros acc; simpl; [by rewrite app_nil_r|].
  rewrite IH, insert_region_perm. by rewrite <- Permutation_middle.
Qed.

Lemma apart_sym x y : apart x y → apart y x.
Proof. unfold apart. tauto. Qed.

(** Neighbours in order are all in order. *)
Lemma overlapping_false l :
  Forall (λ r, start r ≤ end_ r) l → overlapping l = false → StronglySorted (λ x y, end_ x ≤ start y) l.
Proof.
  induction l as [|x l IH]; intros Hl Ho; [constructor|]. apply Forall_cons in Hl as [Hx Hl].
  destruct l as [|y l]; [by repeat constructor|]. simpl in Ho. bool_prop. specialize (IH Hl ltac:(done)).
  constructor; [done|]. apply StronglySorted_inv in IH as [_ Hy]. constructor; [done|].
  apply Forall_cons in Hl as [Hly _]. eapply Forall_impl; [exact Hy|]. simpl. lia.
Qed.

Lemma validate_disjoint_spec l :
  Forall (λ r, start r ≤ end_ r) l → validate_disjoint_regions l = Ok tt → StronglySorted apart l.
Proof.
  intros Hl Ho%fail_if_Ok. apply (StronglySorted_perm _ (sort_regions l)); [exact apart_sym|apply sort_regions_perm|].
  eapply StronglySorted_mono, overlapping_false; [by left|by rewrite sort_regions_perm|done].
Qed.

(** ** Anchors *)

Lemma unordered_false l : unordered l = false ↔ StronglySorted Z.lt l.
Proof.
  induction l as [|x l IH]; [split; [constructor|done]|]. destruct l as [|y l]; [split; [repeat constructor|done]|].
  simpl unordered. rewrite orb_false_iff, Z.leb_gt, IH. split.
  - intros [Hxy Hl]. constructor; [done|]. apply StronglySorted_inv in Hl as [_ Hy]. constructor; [done|].
    eapply Forall_impl; [exact Hy|]. simpl. lia.
  - intros [Hl Hx]%StronglySorted_inv. by apply Forall_cons in Hx as [? _].
Qed.

Lemma build_anchors_elem es cs fixed c o :
  o ∈ build_anchors es cs fixed c ↔ o ∈ es ++ cs ++ map start fixed ++ [c].
Proof. unfold build_anchors. rewrite merge_sort_Permutation. by rewrite elem_of_elements, elem_of_list_to_set. Qed.

Lemma sorted_le_lt l : NoDup l → StronglySorted Z.le l → StronglySorted Z.lt l.
Proof.
  intros Hn. induction 1 as [|x l Hl IH Hx]; [constructor|]. apply NoDup_cons in Hn as [Hin Hn].
  constructor; [auto|]. rewrite Forall_forall in Hx |- *. intros y Hy.
  specialize (Hx y Hy). destruct (decide (x = y)) as [->|]; [done|lia].
Qed.

Lemma build_anchors_sorted es cs fixed c : StronglySorted Z.lt (build_anchors es cs fixed c).
Proof.
  unfold build_anchors. apply sorted_le_lt.
  - rewrite merge_sort_Permutation. apply NoDup_elements.
  - apply StronglySorted_merge_sort; [intros x y z|intros x y]; lia.
Qed.

(** The next anchor is the least one behind the offset. *)
Lemma next_anchor_spec anchors o e :
  StronglySorted Z.lt anchors →
  next_anchor anchors o = Ok e ↔ e ∈ anchors ∧ o < e ∧ ∀ a, a ∈ anchors → o < a → e ≤ a.
Proof.
  intros Hs. unfold next_anchor. rewrite need_Ok.
  induction Hs as [|x l Hs IH Hx]; simpl; [set_solver|]. rewrite Forall_forall in Hx.
  destruct (Z.leb_spec x o).
  - simpl. rewrite IH. split; intros (He & Hlt & Hmin); split_and!; [by right|done| | |done|].
    + intros a [-> | Ha]%elem_of_cons; [lia|auto].
    + by apply elem_of_cons in He as [-> |]; [lia|].
    + intros a Ha. apply Hmin. by right.
  - simpl. split; [|intros (He & Hlt & Hmin)].
    + intros [= <-]. split_and!; [by left|done|]. intros a [-> | Ha]%elem_of_cons _; [lia|]. specialize (Hx a Ha). lia.
    + f_equal. specialize (Hmin x ltac:(by left) ltac:(lia)). apply elem_of_cons in He as [-> | He]; [done|].
      specialize (Hx e He). lia.
Qed.

Lemma next_anchor_exists anchors o a :
  StronglySorted Z.lt anchors → a ∈ anchors → o < a → ∃ e, next_anchor anchors o = Ok e.
Proof.
  unfold next_anchor. intros Hs Ha Ho. induction Hs as [|x l Hs IH Hx]; simpl; [set_solver|].
  destruct (Z.leb_spec x o); [|by eexists]. simpl. apply IH. apply elem_of_cons in Ha as [-> |]; [lia|done].
Qed.

Lemma validate_content_anchors_spec es cs fixed c :
  validate_content_anchors es cs fixed c = Ok tt →
  (∀ o, o ∈ cs → o ∉ es) ∧
  (∀ o, o ∈ es ++ cs → HEADER_BYTES ≤ o < c ∧ ∀ r, r ∈ fixed → o < start r ∨ end_ r ≤ o).
Proof.
  unfold validate_content_anchors. intros ([] & Hd%fail_if_Ok & Hf%fail_if_Ok)%bind_Ok. split.
  - intros o Ho He. apply not_true_iff_false in Hd. apply Hd, existsb_exists. exists o.
    split; [by apply list_elem_of_In|]. by apply bool_decide_eq_true, elem_of_list_to_set.
  - intros o Ho. destruct (existsb_exists (in_region o) fixed) as [_ Hr].
    destruct ((o <? HEADER_BYTES) || (c <=? o) || existsb (in_region o) fixed) eqn:Ht.
    { exfalso. apply not_true_iff_false in Hf. apply Hf, existsb_exists. exists o. by split; [apply list_elem_of_In|]. }
    bool_prop. split; [lia|]. intros r Hin.
    destruct (in_region o r) eqn:Hor; [|unfold in_region in Hor; bool_prop; lia].
    assert (existsb (in_region o) fixed = true) by (apply Hr; exists r; split; [by apply list_elem_of_In|done]). congruence.
Qed.

Lemma extents_starts an l xs : extents an l = Ok xs → map start xs = l.
Proof.
  unfold extents. rewrite mapM_Ok. induction 1 as [|o x l xs Ho _ IH]; [done|]. simpl. rewrite IH.
  destruct (next_anchor an o); [|done]. by injection Ho as <-.
Qed.

Lemma apart_by_start xs :
  NoDup (map start xs) → (∀ x y, x ∈ xs → y ∈ xs → start x < start y → end_ x ≤ start y) → StronglySorted apart xs.
Proof.
  induction xs as [|x xs IH]; simpl; [constructor|]. intros [Hx Hn]%NoDup_cons H. constructor.
  - apply IH; [done|]. intros y z ??. apply H; by right.
  - apply Forall_forall. intros y Hy. destruct (Z.lt_trichotomy (start x) (start y)) as [Hlt|[Heq|Hlt]].
    + left. apply H; [by left|by right|done].
    + exfalso. apply Hx. rewrite Heq. by apply list_elem_of_fmap_2.
    + right. apply H; [by right|by left|done].
Qed.

Lemma StronglySorted_lt_NoDup l : StronglySorted Z.lt l → NoDup l.
Proof.
  induction 1 as [|x l _ IH Hx]; [constructor|]. constructor; [|done]. rewrite Forall_forall in Hx.
  intros Hin. specialize (Hx x Hin). lia.
Qed.

(** The extents of the contents share no byte, with each other or a fixed region. *)
Lemma extents_apart es cs fixed c :
  StronglySorted Z.lt es → StronglySorted Z.lt cs → validate_content_anchors es cs fixed c = Ok tt →
  StronglySorted apart fixed →
  ∃ xs, extents (build_anchors es cs fixed c) (es ++ cs) = Ok xs ∧ StronglySorted apart (fixed ++ xs) ∧
        Forall (λ x, HEADER_BYTES ≤ start x < end_ x ∧ end_ x ≤ c) xs.
Proof.
  intros He Hc [Hd Hin]%validate_content_anchors_spec Hf. set (an := build_anchors es cs fixed c).
  assert (StronglySorted Z.lt an) as Hs by apply build_anchors_sorted.
  assert (∀ a, a ∈ an ↔ a ∈ es ++ cs ++ map start fixed ++ [c]) as Han by (intros; apply build_anchors_elem).
  assert (∃ xs, extents an (es ++ cs) = Ok xs) as [xs Hxs].
  { assert (∀ o, o ∈ es ++ cs → ∃ e, next_anchor an o = Ok e) as Hn.
    { intros o Ho. apply (next_anchor_exists an o c Hs); [|by apply Hin]. apply Han. set_solver. }
    clear -Hn. unfold extents. induction (es ++ cs) as [|o l IH]; [by eexists|].
    destruct (Hn o) as [e He]; [by left|]. destruct IH as [xs Hxs]; [intros; apply Hn; by right|].
    exists ({| start := o; end_ := e |} :: xs). simpl. by rewrite He, Hxs. }
  exists xs. apply mapM_Ok in Hxs as Hxs'.
  assert (∀ x, x ∈ xs → start x ∈ es ++ cs ∧ next_anchor an (start x) = Ok (end_ x)) as Hx.
  { intros x [i Hi]%list_elem_of_lookup. destruct (Forall2_lookup_r _ _ _ _ _ Hxs' Hi) as (o & Ho & Hoe).
    destruct (next_anchor an o) as [e|] eqn:Hne; [|done]. injection Hoe as <-. simpl.
    split; [by eapply list_elem_of_lookup_2|done]. }
  assert (∀ x a, x ∈ xs → a ∈ an → start x < a → end_ x ≤ a) as Hmin.
  { intros x a Hxx Ha Hlt. apply Hx in Hxx as [_ Hxx]. apply (next_anchor_spec an _ _ Hs) in Hxx as (_ & _ & H). auto. }
  split; [done|]. split.
  - apply StronglySorted_app. split_and!; [|done|].
    + intros r x Hr Hxx. destruct (Hx x Hxx) as [Ho _]. destruct (proj2 (Hin _ Ho) r Hr); [|by left].
      right. apply Hmin; [done| |done]. apply Han. rewrite !elem_of_app. do 2 right; left. by apply list_elem_of_fmap_2.
    + apply apart_by_start.
      * rewrite (extents_starts _ _ _ Hxs). apply NoDup_app. split_and!; [by apply StronglySorted_lt_NoDup| |by apply StronglySorted_lt_NoDup].
        intros o Ho Ho'. by apply (Hd o).
      * intros x y Hxx Hyy Hlt. apply Hmin; [done| |done]. apply Hx in Hyy as [Hyy _]. apply Han. set_solver.
  - apply Forall_forall. intros x Hxx. destruct (Hx x Hxx) as [Ho Hne].
    apply (next_anchor_spec an _ _ Hs) in Hne as (_ & Hlt & _). destruct (Hin _ Ho) as [Hb _].
    split; [lia|]. apply Hmin; [done| |lia]. apply Han. set_solver.
Qed.

(** ** Directory entries *)

Lemma cursor_le_iff (w : nat) bytes p v e :
  slice_ok bytes → 0 ≤ p → cursor_le (Z.of_nat w) bytes p = Some (v, e) ↔
  0 ≤ v < 2 ^ (8 * Z.of_nat w) ∧ e = p + Z.of_nat w ∧ here bytes p (le_bytes w v).
Proof.
  intros [Hb Hn] Hp. unfold cursor_le. split.
  - intros (q & [-> ?]%checked_add_Some & (raw & Hr & [= <- <-])%bind_Some)%bind_Some.
    apply here_slice in Hr as (_ & Hl & Hr); [|done].
    assert (bytes_ok raw) as Hraw by (destruct Hr as [_ <-]; by apply sub_list_bytes).
    assert (w = length raw) as -> by (unfold len in Hl; lia).
    rewrite le_bytes_le_value by done. split_and!; [apply le_value_bound, Hraw..|done|done].
  - intros (Hv & -> & Hh). rewrite checked_add_is.
    2: { destruct Hh as [Hh _]. rewrite le_bytes_len in Hh. unfold u64_max, isize_max in *. lia. }
    simpl. rewrite (proj2 (here_slice _ _ _ _ Hp)) by (split_and!; [lia|apply le_bytes_len|exact Hh]).
    simpl. by rewrite le_value_le_bytes.
Qed.

Lemma cursor_u8_iff bytes p v e :
  slice_ok bytes → 0 ≤ p → cursor_u8 bytes p = Some (v, e) ↔ e = p + 1 ∧ here bytes p [v].
Proof.
  intros [Hb Hn] Hp. unfold cursor_u8. split.
  - intros (x & Hx & (q & [-> ?]%checked_add_Some & [= <- <-])%bind_Some)%bind_Some.
    split; [done|]. apply get_Some in Hx as Hx'; [|done]. unfold here. rewrite len_cons, len_nil. split; [lia|].
    by apply sub_list_one.
  - intros [-> [Hl Hs]]. rewrite len_cons, len_nil in *. change (1 + 0) with 1 in *.
    destruct (get_lt bytes p) as [x Hx]; [lia|]. rewrite (sub_list_one _ _ _ Hp Hx) in Hs. injection Hs as <-.
    rewrite Hx. simpl. rewrite checked_add_is; [done|]. unfold u64_max, isize_max in *. lia.
Qed.

Lemma nul_position_iff l k : nul_position l = Some k ↔ ∃ a b, l = a ++ 0 :: b ∧ 0 ∉ a ∧ k = len a.
Proof.
  revert k. induction l as [|x l IH]; intros k; simpl.
  { split; [done|]. by intros ([|??] & ? & ? & _). }
  destruct (Z.eqb_spec x 0) as [->|Hx].
  - split.
    + intros [= <-]. exists [], l. split_and!; [done|apply not_elem_of_nil|done].
    + intros ([|y a] & b & Hl & Hn & ->); [done|]. exfalso. apply Hn. injection Hl as <- _. by left.
  - rewrite fmap_Some. setoid_rewrite IH. split.
    + intros (k' & (a & b & -> & Hn & ->) & ->). exists (x :: a), b. rewrite len_cons, not_elem_of_cons. split_and!; (done || lia).
    + intros ([|y a] & b & Hl & Hn & ->); simplify_eq/=. apply not_elem_of_cons in Hn as [_ Hn].
      exists (len a). rewrite len_cons. split; [by eexists _, _|lia].
Qed.

Lemma nul_string_iff i bytes m p t e :
  slice_ok bytes → 0 ≤ p → 0 ≤ m ≤ usize_max → string_field i (nul_string bytes m p) = Ok (t, e) ↔
  Forall scalar t ∧ 0 ∉ t ∧ len (as_bytes t) ≤ m ∧ e = p + len (as_bytes t) + 1 ∧ here bytes p (as_bytes t ++ [0]).
Proof.
  intros [Hb Hn] Hp Hm. unfold nul_string, saturating_add.
  assert (∀ n, p ≤ len bytes → n ≤ len bytes → checked_add usize_max p n ≫= (λ q, checked_add usize_max q 1) = Some (p + n + 1)) as Hadd.
  { intros n ??. unfold isize_max in Hn. rewrite checked_add_is by (unfold usize_max, u64_max; lia). simpl.
    apply checked_add_is. unfold usize_max, u64_max. lia. }
  destruct (get_slice bytes p (len bytes)) as [r|] eqn:Hr; simpl.
  2: { split; [done|]. intros (_ & _ & _ & _ & [Hh _]). rewrite len_app in Hh.
       pose proof (len_nonneg (as_bytes t)). rewrite len_cons, len_nil in Hh.
       assert (get_slice bytes p (len bytes) = Some (sub_list bytes p (len bytes))) by (apply get_slice_Some; split; [lia|done]).
       congruence. }
  apply get_slice_Some in Hr as [Hpl Hr]. rewrite sub_list_full in Hr by done.
  assert (∀ x, here bytes p x ↔ ∃ y, r = x ++ y) as Hhere.
  { intros x. rewrite here_drop by done. rewrite Hr. naive_solver lia. }
  rewrite Hhere. split.
  - destruct (nul_position _) as [k|] eqn:Hk; simpl; [|done].
    destruct (Z.ltb_spec m k) as [|Hkm]; simpl; [done|].
    apply nul_position_iff in Hk as (a & b & Ha & Ha0 & ->).
    destruct (from_utf8 _) as [s|] eqn:Hs; simpl; [|done].
    assert (r = a ++ 0 :: b ++ drop (Z.to_nat (usize_max `min` (m + 1))) r) as Hr'.
    { rewrite <- (take_drop (Z.to_nat (usize_max `min` (m + 1))) r) at 1. rewrite Ha. by rewrite <- app_assoc. }
    rewrite Hr' in Hs. unfold len in Hs. rewrite Nat2Z.id, take_app_length in Hs.
    assert (bytes_ok a) as Hab.
    { assert (bytes_ok r) as Hbr by (rewrite Hr; by apply Forall_drop). rewrite Hr' in Hbr. by apply Forall_app in Hbr as [? _]. }
    apply as_bytes_from_utf8 in Hs as [Hsc Hs]; [|done].
    assert (len a ≤ len bytes) as Hal.
    { assert (len r ≤ len bytes) by (rewrite Hr; unfold len; rewrite length_drop; lia).
      rewrite Hr', len_app in H. pose proof (len_nonneg (0 :: b ++ drop (Z.to_nat (usize_max `min` (m + 1))) r)). lia. }
    rewrite Hadd by lia. simpl. intros [= <- <-]. rewrite Hs. split_and!; [done| |lia|lia|].
    + apply as_bytes_nonzero; [done|]. by rewrite Hs.
    + eexists. rewrite <- app_assoc. exact Hr'.
  - intros (Hsc & H0 & Hlm & -> & [y Hy]). rewrite <- app_assoc in Hy. simpl in Hy.
    apply as_bytes_nonzero in H0 as H0'; [|done]. set (a := as_bytes t) in *.
    assert (len a + 1 ≤ len bytes) as Hal.
    { assert (len r ≤ len bytes) as Hrl by (rewrite Hr; unfold len; rewrite length_drop; lia).
      rewrite Hy, len_app, len_cons in Hrl. pose proof (len_nonneg y). lia. }
    rewrite (proj2 (nul_position_iff _ (len a))).
    2: { exists a, (take (Z.to_nat (usize_max `min` (m + 1)) - S (length a)) y). split_and!; [|done|done].
         assert (S (length a) ≤ Z.to_nat (usize_max `min` (m + 1)))%nat as Hle
           by (unfold len, isize_max, usize_max, u64_max in *; lia).
         generalize dependent (Z.to_nat (usize_max `min` (m + 1))). intros n Hle.
         rewrite Hy, take_app, (take_ge a) by lia. f_equal. by replace (n - length a)%nat with (S (n - S (length a))) by lia. }
    simpl. rewrite (proj2 (Z.ltb_ge _ _)) by done. simpl.
    replace (Z.to_nat (len a)) with (length a) by (unfold len; lia). rewrite Hy, take_app_length. subst a. rewrite from_utf8_as_bytes by done. simpl.
    by rewrite Hadd by lia.
Qed.

Lemma nul_string_is i bytes m p t :
  slice_ok bytes → 0 ≤ p → 0 ≤ m ≤ usize_max → Forall scalar t → 0 ∉ t → len (as_bytes t) ≤ m →
  here bytes p (as_bytes t ++ [0]) →
  string_field i (nul_string bytes m p) = Ok (t, p + len (as_bytes t) + 1).
Proof. intros. by apply nul_string_iff. Qed.

Lemma cursor_skip_iff bytes p n e :
  slice_ok bytes → 0 ≤ p → 0 ≤ n ≤ 255 → cursor_skip bytes p n = Some e ↔
  e = p + n ∧ ∃ x, len x = n ∧ here bytes p x.
Proof.
  intros [Hb Hn] Hp Hr. unfold cursor_skip. destruct (checked_add usize_max p n) as [q|] eqn:Hq; simpl.
  - apply checked_add_Some in Hq as [-> Hq]. destruct (Z.ltb_spec (len bytes) (p + n)).
    + split; [done|]. intros (_ & x & Hx & [Hh _]). lia.
    + split; [|by intros [-> _]]. intros [= <-]. split; [done|]. exists (sub_list bytes p (p + n)).
      assert (len (sub_list bytes p (p + n)) = n) as Hl by (rewrite sub_list_len; lia).
      split; [done|]. unfold here. by rewrite Hl.
  - split; [done|]. intros (_ & x & Hx & [Hh _]). apply checked_add_None in Hq. unfold usize_max, u64_max, isize_max in *. lia.
Qed.

Lemma need_cursor_le (w : nat) bytes p v err :
  slice_ok bytes → 0 ≤ p → 0 ≤ v < 2 ^ (8 * Z.of_nat w) → here bytes p (le_bytes w v) →
  need (E:=ZimError) (cursor_le (Z.of_nat w) bytes p) err = Ok (v, p + Z.of_nat w).
Proof. intros. by apply need_is, cursor_le_iff. Qed.

Lemma entry_kind_iff bytes p mime i mimes ec cc k e :
  slice_ok bytes → 0 ≤ p ≤ len bytes → 0 ≤ mime → len mimes ≤ u16_max - 2 → ec ≤ u32_max → cc ≤ u32_max →
  entry_kind bytes p mime i mimes ec cc = Ok (k, e) ↔
  ∃ kb, encoded_kind mimes ec cc k mime kb ∧ e = p + len kb ∧ here bytes p kb.
Proof.
  intros Hs [Hp Hpl] Hmime Hmimes Hec Hcc. unfold entry_kind, cursor_u32, u32_max, u16_max in *. split.
  - destruct (Z.eqb_spec mime REDIRECT_MIME) as [->|H1].
    { intros ([t q] & Ht%need_Ok & ([] & Hr%fail_if_Ok & [= <- <-])%bind_Ok)%bind_Ok.
      apply (cursor_le_iff 4) in Ht as (? & -> & ?); [|done..]. bool_prop.
      exists (le_bytes 4 t). split; [apply EncodedRedirect; lia|]. by rewrite le_bytes_len. }
    destruct ((mime =? LINKTARGET_MIME) || (mime =? DELETED_MIME)) eqn:H2.
    { intros [= <- <-]. exists []. rewrite len_nil. split_and!; [|lia|].
      - bool_prop. destruct H2 as [->%Z.eqb_eq | ->%Z.eqb_eq]; constructor.
      - unfold here. rewrite len_nil. split; [lia|]. apply sub_list_nil. lia. }
    intros ([] & Hm%fail_if_Ok & ([c q] & Hc%need_Ok & ([d r] & Hd%need_Ok & ([] & Hcb%fail_if_Ok & [= <- <-])%bind_Ok)%bind_Ok)%bind_Ok)%bind_Ok.
    apply (cursor_le_iff 4) in Hc as (? & -> & Hc); [|done..].
    apply (cursor_le_iff 4) in Hd as (? & -> & Hd); [|done|lia]. bool_prop.
    exists (le_bytes 4 c ++ le_bytes 4 d). split; [apply EncodedItem; unfold u32_max; lia|]. rewrite len_app, !le_bytes_len.
    split; [lia|]. apply here_app; [done|]. by rewrite le_bytes_len.
  - intros (kb & Hk & -> & Hh). inversion Hk; subst.
    + rewrite len_app, !le_bytes_len, Z.add_assoc. rewrite (proj2 (Z.eqb_neq _ _)), (proj2 (orb_false_iff _ _)) by (rewrite ?Z.eqb_neq; unfold REDIRECT_MIME, LINKTARGET_MIME, DELETED_MIME; lia).
      rewrite fail_if_false by (apply Z.leb_gt; lia). simpl. unfold u32_max in *.
      apply here_app in Hh as [Hc Hd]; [|done]. rewrite le_bytes_len in Hd.
      rewrite (need_cursor_le 4 bytes p c) by (done || lia). simpl.
      rewrite (need_cursor_le 4 bytes (p + 4) b) by (done || lia). simpl.
      rewrite fail_if_false by (apply Z.leb_gt; lia). done.
    + rewrite le_bytes_len, Z.eqb_refl, (need_cursor_le 4 bytes p target) by (done || lia). simpl.
      rewrite fail_if_false by (apply Z.leb_gt; lia). done.
    + simpl. by rewrite Z.add_0_r.
    + simpl. by rewrite Z.add_0_r.
Qed.

Lemma here_entry bytes mime rev kb params e :
  here bytes 0 (entry_bytes mime rev kb params e) ↔
  here bytes 0 (le_bytes 2 mime) ∧ here bytes 2 [len params] ∧ here bytes 3 [namespace e] ∧
  here bytes 4 (le_bytes 4 rev) ∧ here bytes 8 kb ∧ here bytes (8 + len kb) (as_bytes (path e) ++ [0]) ∧
  here bytes (8 + len kb + len (as_bytes (path e)) + 1) (as_bytes (title e) ++ [0]) ∧
  here bytes (8 + len kb + len (as_bytes (path e)) + 1 + len (as_bytes (title e)) + 1) params.
Proof.
  unfold entry_bytes. pose proof (len_nonneg kb). pose proof (len_nonneg (as_bytes (path e))).
  pose proof (len_nonneg (as_bytes (title e))).
  rewrite (app_assoc (as_bytes (path e))), (app_assoc (as_bytes (title e))).
  change [len params; namespace e] with ([len params] ++ [namespace e]). rewrite <- (app_assoc [len params]).
  rewrite (here_app bytes 0) by lia. rewrite le_bytes_len. change (0 + Z.of_nat 2) with 2.
  rewrite (here_app bytes 2) by lia. change (2 + len [len params]) with 3.
  rewrite (here_app bytes 3) by lia. change (3 + len [namespace e]) with 4.
  rewrite (here_app bytes 4) by lia. rewrite le_bytes_len. change (4 + Z.of_nat 4) with 8.
  rewrite (here_app bytes 8) by lia. rewrite (here_app bytes (8 + len kb)) by lia.
  rewrite len_app. change (len [0]) with 1. rewrite Z.add_assoc.
  rewrite (here_app bytes (8 + len kb + len (as_bytes (path e)) + 1)) by lia.
  rewrite len_app. change (len [0]) with 1. by rewrite Z.add_assoc.
Qed.

Lemma entry_bytes_len mime rev kb params e :
  len (entry_bytes mime rev kb params e) =
  8 + len kb + len (as_bytes (path e)) + 1 + len (as_bytes (title e)) + 1 + len params.
Proof. unfold entry_bytes. rewrite !len_app, !le_bytes_len, !len_cons, len_nil. lia. Qed.

(** The fields of a well-formed entry, as the parser checks them. *)
Lemma entry_ok_iff limits e :
  entry_ok limits e ↔
  (negb (is_ascii_graphic (namespace e)) || (namespace e =? 47) = false) ∧
  (Forall scalar (path e) ∧ 0 ∉ path e ∧ len (as_bytes (path e)) ≤ max_path_bytes limits) ∧
  (Forall scalar (title e) ∧ 0 ∉ title e ∧ len (as_bytes (title e)) ≤ max_title_bytes limits) ∧
  bool_decide (path e = []) = false ∧ existsb is_control (path e) || existsb is_control (title e) = false.
Proof.
  assert (∀ t, Forall (λ c, is_control c = false) t ↔ existsb is_control t = false) as Hc.
  { intros t. induction t as [|c t IH]; simpl; [done|]. rewrite Forall_cons, IH, orb_false_iff. done. }
  assert (∀ t, existsb is_control t = false → 0 ∉ t) as H0.
  { intros t Ht%Hc H0. rewrite Forall_forall in Ht. by specialize (Ht 0 H0). }
  rewrite orb_false_iff, negb_false_iff, Z.eqb_neq, bool_decide_eq_false, orb_false_iff.
  split.
  - intros [? [??] [??] ? [Hp%Hc Ht%Hc]%Forall_app]. auto 10.
  - intros (? & (? & _ & ?) & (? & _ & ?) & ? & Hp%Hc & Ht%Hc). constructor; [done..|]. by apply Forall_app.
Qed.

Section Entry.
Context (file : list Z) (offset upper i : Z) (mimes : list text) (ec cc : Z) (limits : ZimLimits).
Context (Hs : slice_ok file) (Ho : 0 ≤ offset) (Hu : upper ≤ len file).
Context (Hmimes : len mimes ≤ u16_max - 2) (Hec : ec ≤ u32_max) (Hcc : cc ≤ u32_max).
Context (Hmd : 0 ≤ max_dirent_bytes limits).
Context (Hmp : 0 ≤ max_path_bytes limits ≤ usize_max) (Hmt : 0 ≤ max_title_bytes limits ≤ usize_max).

Lemma entry_accepted e n :
  read_directory_entry file offset upper i mimes ec cc limits = Ok (e, n) →
  ∃ mime_index revision kind_bytes parameters,
    let encoded := entry_bytes mime_index revision kind_bytes parameters e in
    encoded_kind mimes ec cc (kind e) mime_index kind_bytes ∧ 0 ≤ revision ≤ u32_max ∧ len parameters ≤ 255 ∧
    entry_ok limits e ∧ here file offset encoded ∧ n = len encoded ∧ offset + n ≤ upper ∧ n ≤ max_dirent_bytes limits.
Proof.
  intros (av & [-> Hav]%need_Ok%checked_sub_Some & (bytes & Hb%need_Ok & H)%bind_Ok)%bind_Ok. set (w := Z.min _ _) in Hb.
  apply get_slice_Some in Hb as [Hw ->]. assert (slice_ok (sub_list file offset (offset + w))) as Hbs by by apply slice_ok_sub.
  pose proof (here_sub file offset w 0) as Hsub. set (bytes := sub_list file offset (offset + w)) in *.
  apply bind_Ok in H as ([mime p1] & H1%need_Ok & H). apply (cursor_le_iff 2 _ 0) in H1 as (Hm & -> & H1); [|done..].
  apply bind_Ok in H as ([extra p2] & H2%need_Ok & H). apply (cursor_u8_iff _ 2) in H2 as (-> & H2); [|done..].
  apply bind_Ok in H as ([ns p3] & H3%need_Ok & H). apply (cursor_u8_iff _ 3) in H3 as (-> & H3); [|done..].
  apply bind_Ok in H as ([rev p4] & H4%need_Ok & H). apply (cursor_le_iff 4 _ 4) in H4 as (Hr & -> & H4); [|done..].
  apply bind_Ok in H as ([] & Hns%fail_if_Ok & H). change (4 + Z.of_nat 4) with 8 in H.
  apply bind_Ok in H as ([k p5] & H5 & H). apply entry_kind_iff in H5 as (kb & Hk & -> & H5); [|done| |lia|done..].
  2: { destruct H4 as [H4 _]. rewrite le_bytes_len in H4. lia. }
  pose proof (len_nonneg kb) as Hkb.
  apply bind_Ok in H as ([pa p6] & H6 & H). apply nul_string_iff in H6 as (Hp1 & Hp2 & Hp3 & -> & H6); [|done|lia|done].
  pose proof (len_nonneg (as_bytes pa)) as Hpa.
  apply bind_Ok in H as ([ti p7] & H7 & H). apply nul_string_iff in H7 as (Ht1 & Ht2 & Ht3 & -> & H7); [|done|lia|done].
  pose proof (len_nonneg (as_bytes ti)) as Hti.
  assert (is_byte extra) as Hextra.
  { destruct H2 as [_ H2]. assert (bytes_ok [extra]) as [??]%Forall_cons; [|done]. rewrite <- H2. apply sub_list_bytes, Hbs. }
  unfold is_byte in Hextra.
  apply bind_Ok in H as (p8 & H8%need_Ok & H). apply cursor_skip_iff in H8 as (-> & params & <- & H8); [|done|lia|lia].
  apply bind_Ok in H as ([] & Hpe%fail_if_Ok & ([] & Hct%fail_if_Ok & [= <- <-])%bind_Ok).
  set (e := {| namespace := _ |}). exists mime, rev, kb, params. cbv zeta.
  assert (here bytes 0 (entry_bytes mime rev kb params e)) as Hh by by apply here_entry.
  apply Hsub in Hh as [Hw' Hh]; [|lia..]. rewrite Z.add_0_r in Hh.
  split; [done|]. split; [unfold u32_max; lia|]. split; [lia|]. split; [by apply entry_ok_iff|].
  rewrite entry_bytes_len in Hw' |- *. cbn [path title e] in *. split; [done|lia].
Qed.

Lemma entry_accepts e mime rev kb params :
  let encoded := entry_bytes mime rev kb params e in
  encoded_kind mimes ec cc (kind e) mime kb → 0 ≤ rev ≤ u32_max → len params ≤ 255 → entry_ok limits e →
  here file offset encoded → offset + len encoded ≤ upper → len encoded ≤ max_dirent_bytes limits →
  read_directory_entry file offset upper i mimes ec cc limits = Ok (e, len encoded).
Proof.
  intros encoded Hk Hr Hpar Hok Hh Hup Hmax. unfold read_directory_entry, u64_sub, read_range, cursor_u16, cursor_u32.
  pose proof (len_nonneg encoded).
  rewrite (need_is (checked_sub upper offset) _ (upper - offset)) by (apply checked_sub_Some; lia). simpl.
  set (w := Z.min _ _). set (bytes := sub_list file offset (offset + w)).
  rewrite (need_is _ _ bytes) by (apply get_slice_Some; split; [lia|done]). simpl.
  assert (slice_ok bytes) as Hbs by by apply slice_ok_sub.
  assert (here bytes 0 encoded) as Hb by (apply here_sub; [lia..|rewrite Z.add_0_r; split; [lia|done]]).
  apply here_entry in Hb as (H1 & H2 & H3 & H4 & H5 & H6 & H7 & H8).
  apply entry_ok_iff in Hok as (Hns & (Hp1 & Hp2 & Hp3) & (Ht1 & Ht2 & Ht3) & Hpe & Hct).
  pose proof (len_nonneg kb). pose proof (len_nonneg (as_bytes (path e))). pose proof (len_nonneg (as_bytes (title e))).
  pose proof (len_nonneg params). unfold u32_max, u16_max in *.
  assert (0 ≤ mime < 2 ^ 16) as Hm by (inversion Hk; subst; [lia|done..]).
  rewrite (need_cursor_le 2 bytes 0 mime) by (done || lia). simpl.
  rewrite (need_is _ _ (len params, 3)) by by apply cursor_u8_iff. simpl.
  rewrite (need_is _ _ (namespace e, 4)) by by apply cursor_u8_iff. simpl.
  rewrite (need_cursor_le 4 bytes 4 rev) by (done || lia). simpl.
  rewrite fail_if_false by done. simpl.
  change (4 + Z.of_nat 4) with 8.
  rewrite (proj2 (entry_kind_iff bytes 8 mime i mimes ec cc (kind e) (8 + len kb) Hbs ltac:(destruct H5; lia) ltac:(lia) Hmimes Hec Hcc)) by eauto.
  simpl. rewrite (nul_string_is i bytes _ (8 + len kb) (path e)) by (done || lia). simpl.
  rewrite (nul_string_is i bytes _ _ (title e)) by (done || lia). simpl.
  rewrite (need_is _ _ (8 + len kb + len (as_bytes (path e)) + 1 + len (as_bytes (title e)) + 1 + len params)).
  2: { apply cursor_skip_iff; [done|lia|lia|eauto]. }
  simpl. rewrite fail_if_false by done. simpl. rewrite fail_if_false by done. simpl. destruct e as [ns pa ti k]. do 2 f_equal.
  unfold encoded. rewrite entry_bytes_len. cbn [path title]. lia.
Qed.
End Entry.

(** A directory entry is accepted at an offset exactly if its encoding lies there, in
    front of the next anchor and within the limits, and then it is the encoded entry
    with the length of its encoding. *)
Theorem zim_directory_entry_exact file offset upper i mimes ec cc limits e n :
  slice_ok file → 0 ≤ offset → upper ≤ len file → len mimes ≤ u16_max - 2 → ec ≤ u32_max → cc ≤ u32_max →
  0 ≤ max_dirent_bytes limits → 0 ≤ max_path_bytes limits ≤ usize_max → 0 ≤ max_title_bytes limits ≤ usize_max →
  read_directory_entry file offset upper i mimes ec cc limits = Ok (e, n) ↔
  ∃ mime_index revision kind_bytes parameters,
    let encoded := entry_bytes mime_index revision kind_bytes parameters e in
    encoded_kind mimes ec cc (kind e) mime_index kind_bytes ∧ 0 ≤ revision ≤ u32_max ∧ len parameters ≤ 255 ∧
    entry_ok limits e ∧ here file offset encoded ∧ n = len encoded ∧ offset + n ≤ upper ∧ n ≤ max_dirent_bytes limits.
Proof.
  intros. split; [by apply entry_accepted|]. cbv zeta. intros (mime & rev & kb & params & ? & ? & ? & ? & ? & -> & ? & ?).
  by apply entry_accepts.
Qed.

(** ** The orders of the directory *)

#[export] Instance path_order_ordering : Ordering path_order.
Proof. apply lex_ordering; apply (on_ordering _ _ _). Qed.
#[export] Instance title_order_ordering : Ordering title_order.
Proof. repeat apply lex_ordering; apply (on_ordering _ _ _). Qed.

Lemma key_before_iff x y : key_before x y = true ↔ path_order x y = Lt.
Proof. unfold key_before, path_order, lex. destruct (_ ?= _); [|done..]. by destruct (str_cmp _ _). Qed.

Lemma title_after_iff x y : title_after x y = false ↔ title_order x y ≠ Gt.
Proof.
  unfold title_after, title_order, lex. destruct (_ ?= _); [|done..].
  destruct (str_cmp _ _); [|done..]. by destruct (str_cmp _ _).
Qed.

Lemma title_loop_spec entries indices seen previous :
  title_loop entries indices seen previous = Ok tt ↔
  NoDup indices ∧ (∀ i, i ∈ indices → i ∉ seen) ∧
  ∃ listed, Forall2 (λ i e, entries !! Z.to_nat i = Some e) indices listed ∧
    Sorted (λ x y, title_order x y ≠ Gt) listed ∧
    match previous with Some p => HdRel (λ x y, title_order x y ≠ Gt) p listed | None => True end.
Proof.
  revert seen previous. induction indices as [|i indices IH]; intros seen previous; simpl.
  { split; [|done]. intros _. split_and!; [constructor|set_solver|]. exists []. split_and!; try constructor. by destruct previous. }
  rewrite bind_Ok. setoid_rewrite need_Ok. setoid_rewrite bind_Ok. setoid_rewrite fail_if_Ok.
  setoid_rewrite bind_Ok. setoid_rewrite fail_if_Ok. setoid_rewrite IH. rewrite NoDup_cons. split.
  - intros (e & He & [] & Hseen & [] & Hord & Hn & Hs & listed & Hl & Hsort & Hhd). bool_prop.
    split_and!; [|done| |].
    + intros Hin. apply (Hs i Hin). set_solver.
    + intros j [-> | Hj]%elem_of_cons; [done|]. specialize (Hs j Hj). set_solver.
    + exists (e :: listed). split_and!; [by constructor|by constructor|]. destruct previous as [p|]; [|done].
      constructor. by apply title_after_iff.
  - intros ([Hi Hn] & Hs & listed & Hl & Hsort & Hhd). inversion Hl as [|? e ? listed' He Hl' Heq1 Heq2]; subst.
    apply Sorted_inv in Hsort as [Hsort Hhd']. exists e. split; [done|]. exists (). split.
    { apply bool_decide_eq_false. apply Hs. by left. }
    exists (). split.
    { destruct previous as [p|]; [|done]. apply HdRel_inv in Hhd. by apply title_after_iff. }
    split_and!; [done| |by exists listed'].
    intros j Hj. apply not_elem_of_union. split; [|by apply Hs; right]. by intros ->%elem_of_singleton.
Qed.

Lemma title_index_iff indices entries :
  Forall (λ i, 0 ≤ i) indices → length indices = length entries →
  validate_title_index indices entries = Ok tt ↔
  indices ≡ₚ seqZ 0 (len entries) ∧
  ∃ listed, Forall2 (λ i e, entries !! Z.to_nat i = Some e) indices listed ∧
    StronglySorted (λ x y, title_order x y ≠ Gt) listed.
Proof.
  intros H0 Hlen. unfold validate_title_index. rewrite title_loop_spec.
  assert (∀ l, Sorted (λ x y, title_order x y ≠ Gt) l ↔ StronglySorted (λ x y, title_order x y ≠ Gt) l) as Hsort.
  { intros l. split; [|apply StronglySorted_Sorted]. apply Sorted_StronglySorted. intros x y z. apply cmp_trans. }
  setoid_rewrite Hsort. split.
  - intros (Hn & _ & listed & Hl & Hs & _). split; [|by exists listed].
    apply submseteq_length_Permutation; [|rewrite length_seqZ; unfold len; lia].
    apply NoDup_submseteq; [done|]. intros i Hi. apply elem_of_seqZ. rewrite Forall_forall in H0. specialize (H0 i Hi).
    apply list_elem_of_lookup in Hi as [k Hk]. destruct (Forall2_lookup_l _ _ _ _ _ Hl Hk) as (e & _ & He).
    apply lookup_lt_Some in He. unfold len. lia.
  - intros (Hp & listed & Hl & Hs). split_and!; [rewrite Hp; apply NoDup_seqZ|set_solver|by exists listed].
Qed.

Lemma read_entries_spec file anchors mimes h limits offsets index total entries r :
  read_entries file anchors mimes h limits offsets index total entries = Ok r →
  StronglySorted (λ x y, path_order x y = Lt) entries →
  ∃ new, r = entries ++ new ∧ StronglySorted (λ x y, path_order x y = Lt) r ∧
    Forall2 (λ o e, ∃ upper i n, next_anchor anchors o = Ok upper ∧
      read_directory_entry file o upper i mimes (entry_count h) (cluster_count h) limits = Ok (e, n)) offsets new.
Proof.
  revert index total entries. induction offsets as [|o offsets IH]; intros index total entries; simpl.
  { intros [= <-] Hs. exists []. rewrite app_nil_r. split_and!; [done|done|constructor]. }
  intros (i & _ & (upper & Hu & ([e n] & He & (total' & _ & ([] & _ & ([] & Hk%fail_if_Ok & H)%bind_Ok)%bind_Ok)%bind_Ok)%bind_Ok)%bind_Ok)%bind_Ok Hs.
  apply IH in H as (new & -> & Hs' & Hf).
  - exists (e :: new). rewrite <- app_assoc in Hs' |- *. split_and!; [done|done|]. constructor; [|done]. eauto.
  - apply StronglySorted_snoc; [done|]. destruct (last entries) as [p|] eqn:Hlast.
    + apply negb_false_iff, key_before_iff in Hk. apply last_Some in Hlast as [l ->].
      apply StronglySorted_app in Hs as (Hs & _ & _). apply Forall_app. split; [|by repeat constructor].
      apply Forall_forall. intros x Hx. apply (cmp_lt_trans path_order x p); [|done]. apply Hs; [done|by left].
    + apply last_None in Hlast as ->. constructor.
Qed.

(** ** The archive *)

Lemma read_le_Ok (w : nat) label bytes p v :
  bytes_ok bytes → 0 ≤ p → read_le (Z.of_nat w) label bytes p = Ok v →
  0 ≤ v < 2 ^ (8 * Z.of_nat w) ∧ here bytes p (le_bytes w v).
Proof.
  intros Hb Hp (q & [-> ?]%need_Ok%checked_add_Some & (raw & Hr%need_Ok & [= <-])%bind_Ok)%bind_Ok.
  apply here_slice in Hr as (_ & Hl & Hr); [|done].
  assert (bytes_ok raw) as Hraw by (destruct Hr as [_ <-]; by apply sub_list_bytes).
  assert (w = length raw) as -> by (unfold len in Hl; lia).
  rewrite le_bytes_le_value by done. split; [apply le_value_bound, Hraw|done].
Qed.

(** A table is the concatenation of its values. *)
Lemma table_values_Ok (w : nat) label bytes n index vs :
  bytes_ok bytes → 0 ≤ index → index * Z.of_nat w ≤ len bytes →
  table_values (read_le (Z.of_nat w) label) (Z.of_nat w) bytes n index = Ok vs →
  length vs = n ∧ Forall (λ v, 0 ≤ v < 2 ^ (8 * Z.of_nat w)) vs ∧
  here bytes (index * Z.of_nat w) (concat (le_bytes w <$> vs)).
Proof.
  intros Hb. revert index vs. induction n as [|n IH]; intros index vs Hi Hl; simpl.
  { intros [= <-]. split_and!; [done|done|]. split; [simpl; rewrite len_nil; lia|]. apply sub_list_nil. simpl. rewrite len_nil. lia. }
  intros (p & [-> ?]%need_Ok%checked_mul_Some & (v & Hv & (vs' & Hvs & [= <-])%bind_Ok)%bind_Ok)%bind_Ok.
  apply read_le_Ok in Hv as [Hv Hh]; [|done|lia].
  apply IH in Hvs as (Hn & Hf & Hvs); [|lia|destruct Hh as [Hh _]; rewrite le_bytes_len in Hh; lia].
  split_and!; [simpl; by rewrite Hn|by constructor|]. rewrite fmap_cons. cbn [concat]. apply here_app; [lia|].
  split; [done|]. rewrite le_bytes_len. by replace (index * _ + _) with ((index + 1) * Z.of_nat w) by lia.
Qed.

Lemma read_u64_table_Ok file r count op vs :
  bytes_ok file → 0 ≤ start r → read_u64_table file r count op = Ok vs →
  length vs = Z.to_nat count ∧ Forall (λ v, 0 ≤ v ≤ u64_max) vs ∧ here file (start r) (concat (le_bytes 8 <$> vs)).
Proof.
  intros Hb Hr (n & [-> ?]%need_Ok%checked_sub_Some & (bytes & Hbs%need_Ok & Ht)%bind_Ok)%bind_Ok.
  apply get_slice_Some in Hbs as [Hbl ->].
  apply (table_values_Ok 8) in Ht as (Hn & Hf & Hh); [|by apply sub_list_bytes|lia|apply len_nonneg].
  split_and!; [done|eapply Forall_impl; [exact Hf|]; intros v [??]; change (8 * Z.of_nat 8) with 64 in *; unfold u64_max; lia|].
  apply here_sub in Hh as [_ Hh]; [|lia..]. by rewrite Z.add_0_r in Hh.
Qed.

Lemma read_u32_table_Ok file r count op vs :
  bytes_ok file → 0 ≤ start r → read_u32_table file r count op = Ok vs →
  length vs = Z.to_nat count ∧ Forall (λ v, 0 ≤ v) vs ∧ here file (start r) (concat (le_bytes 4 <$> vs)).
Proof.
  intros Hb Hr (n & [-> ?]%need_Ok%checked_sub_Some & (bytes & Hbs%need_Ok & Ht)%bind_Ok)%bind_Ok.
  apply get_slice_Some in Hbs as [Hbl ->].
  apply (table_values_Ok 4) in Ht as (Hn & Hf & Hh); [|by apply sub_list_bytes|lia|apply len_nonneg].
  split_and!; [done|eapply Forall_impl; [exact Hf|]; by intros v [??]|].
  apply here_sub in Hh as [_ Hh]; [|lia..]. by rewrite Z.add_0_r in Hh.
Qed.

Lemma header_parse_facts hex bytes archive_len limits h :
  bytes_ok bytes → header_parse hex bytes archive_len limits = Ok h →
  0 < cluster_count h ≤ entry_count h ∧ entry_count h ≤ u32_max ∧
  mime_list_position h = HEADER_BYTES ∧ HEADER_BYTES ≤ checksum_position h ∧
  checksum_position h + CHECKSUM_BYTES = archive_len ∧ major_version h = 6.
Proof.
  intros Hb Hp. unfold header_parse in Hp.
  repeat match type of Hp with
  | (read_u16 _ _ ≫= _) = _ =>
      let v := fresh "v" in let Hv := fresh "Hv" in apply bind_Ok in Hp as (v & Hv & Hp); apply (read_le_Ok 2) in Hv as [Hv _]; [|done|lia]
  | (read_u32 _ _ ≫= _) = _ =>
      let v := fresh "v" in let Hv := fresh "Hv" in apply bind_Ok in Hp as (v & Hv & Hp); apply (read_le_Ok 4) in Hv as [Hv _]; [|done|lia]
  | (read_u64 _ _ ≫= _) = _ =>
      let v := fresh "v" in let Hv := fresh "Hv" in apply bind_Ok in Hp as (v & Hv & Hp); apply (read_le_Ok 8) in Hv as [Hv _]; [|done|lia]
  | (fail_if _ _ ≫= _) = _ =>
      let Hf := fresh "Hf" in apply bind_Ok in Hp as ([] & Hf%fail_if_Ok & Hp)
  | (_ ≫= _) = _ =>
      let v := fresh "x" in let Hv := fresh "Hx" in apply bind_Ok in Hp as (v & Hv & Hp)
  end.
  injection Hp as <-. simpl. bool_prop. subst. unfold u32_max. simpl in *.
  destruct (Z.ltb_spec v10 HEADER_BYTES); [done|].
  apply bind_Ok in Hx0 as (e & [-> _]%need_Ok%checked_add_Some & He). injection He as He%negb_false_iff%Z.eqb_eq.
  change (8 * Z.of_nat 4) with 32 in *. lia.
Qed.

Lemma table_range_Ok p count width archive_len label r :
  table_range p count width archive_len label = Ok r →
  r = {| start := p; end_ := p + width * count |} ∧ HEADER_BYTES ≤ p ∧ p < end_ r ≤ archive_len.
Proof.
  intros (b & [-> _]%need_Ok%checked_mul_Some & (e & [-> _]%need_Ok%checked_add_Some & ([] & Hf%fail_if_Ok & [= <-])%bind_Ok)%bind_Ok)%bind_Ok.
  bool_prop. cbn [end_]. rewrite (Z.mul_comm width). split; [done|lia].
Qed.

Lemma double_nul_bound l k : double_nul l = Some k → 0 ≤ k ∧ k + 2 ≤ len l.
Proof.
  revert k. induction l as [|x l IH]; intros k; [done|]. destruct l as [|y l]; [done|]. cbn [double_nul].
  case_match.
  - intros [= <-]. rewrite !len_cons. pose proof (len_nonneg l). lia.
  - intros (k' & Hk & ->)%fmap_Some. apply IH in Hk. rewrite len_cons. lia.
Qed.

Lemma read_mime_list_Ok file p upper m ts r :
  read_mime_list file p upper m = Ok (ts, r) → 0 ≤ p →
  start r = p ∧ p < end_ r ≤ len file ∧ len ts ≤ u16_max - 2.
Proof.
  intros (av & [-> Hav]%need_Ok%checked_sub_Some & (bytes & Hb%need_Ok & (t & Ht%need_Ok & ([] & Ht0%fail_if_Ok & H)%bind_Ok)%bind_Ok)%bind_Ok)%bind_Ok Hp.
  apply bind_Ok in H as (ts' & _ & H). apply bind_Ok in H as ([] & Hl%fail_if_Ok & H).
  apply bind_Ok in H as (c & [-> _]%need_Ok%checked_add_Some & (e & [-> _]%need_Ok%checked_add_Some & [= <- <-])%bind_Ok).
  apply get_slice_Some in Hb as [Hb ->]. apply double_nul_bound in Ht as [Ht1 Ht2].
  rewrite sub_list_len in Ht2 by lia. bool_prop. cbn [start end_]. lia.
Qed.

Lemma content_bound es cs fixed c o u :
  validate_content_anchors es cs fixed c = Ok tt → o ∈ es ++ cs →
  next_anchor (build_anchors es cs fixed c) o = Ok u → HEADER_BYTES ≤ o ∧ u ≤ c.
Proof.
  intros [_ Hin]%validate_content_anchors_spec Ho Hu. destruct (Hin o Ho) as [? _]. split; [lia|].
  apply next_anchor_spec in Hu as (_ & _ & Hu); [|apply build_anchors_sorted].
  apply Hu; [|lia]. apply build_anchors_elem. set_solver.
Qed.

(** What an accepted archive went through. *)
Lemma archive_parse_parts hex file limits a :
  slice_ok file → archive_parse hex file (len file) limits = Ok a →
  ∃ eo mime_end,
    let h := header a in
    let regions := fixed_regions h (len file) mime_end in
    (0 < entry_count h ≤ u32_max ∧ cluster_count h ≤ u32_max ∧ len (mime_types a) ≤ u16_max - 2) ∧
    (here file (url_pointer_position h) (concat (le_bytes 8 <$> eo)) ∧
     here file (cluster_pointer_position h) (concat (le_bytes 8 <$> cluster_offsets a)) ∧
     len eo = entry_count h ∧ len (cluster_offsets a) = cluster_count h) ∧
    StronglySorted Z.lt eo ∧ StronglySorted Z.lt (cluster_offsets a) ∧
    Forall (λ r, 0 ≤ start r < end_ r ∧ end_ r ≤ len file) regions ∧
    validate_disjoint_regions regions = Ok tt ∧
    validate_content_anchors eo (cluster_offsets a) regions (checksum_position h) = Ok tt ∧
    anchors a = build_anchors eo (cluster_offsets a) regions (checksum_position h) ∧
    checksum_position h ≤ len file ∧
    read_entries file (anchors a) (mime_types a) h limits eo 0 0 [] = Ok (entries a) ∧
    (title_index_position h ≠ u64_max → entries a ≠ [] →
     ∃ indices, here file (title_index_position h) (concat (le_bytes 4 <$> indices)) ∧ Forall (λ i, 0 ≤ i) indices ∧
       len indices = entry_count h ∧ validate_title_index indices (entries a) = Ok tt).
Proof.
  intros Hs H. destruct Hs as [Hb Hn]. unfold archive_parse in H.
  apply bind_Ok in H as ([] & Hlen%fail_if_Ok & H). apply bind_Ok in H as (hb & Hhb%need_Ok & H).
  apply get_slice_Some in Hhb as [_ ->].
  apply bind_Ok in H as (h & Hh & H). apply header_parse_facts in Hh as (Hcc & Hec & Hmime & Hck & Hsum & _); [|by apply sub_list_bytes].
  apply bind_Ok in H as (ut & Hut & H). apply bind_Ok in H as (ct & Hct & H).
  apply table_range_Ok in Hut as (-> & Hu1 & Hu2). apply table_range_Ok in Hct as (-> & Hc1 & Hc2).
  apply bind_Ok in H as (tt_ & Htt & H). cbv zeta in H.
  set (ck := {| start := checksum_position h; end_ := len file |}) in H.
  apply bind_Ok in H as ([] & _ & H).
  apply bind_Ok in H as (eo & Heo & H). apply bind_Ok in H as (co & Hco & H).
  apply read_u64_table_Ok in Heo as (Heo1 & Heo2 & Heo3); [|done|simpl; unfold HEADER_BYTES in *; lia].
  apply read_u64_table_Ok in Hco as (Hco1 & Hco2 & Hco3); [|done|simpl; unfold HEADER_BYTES in *; lia].
  apply bind_Ok in H as ([] & Hes%fail_if_Ok & H). apply bind_Ok in H as ([] & Hcs%fail_if_Ok & H).
  apply bind_Ok in H as ([] & _ & H). apply bind_Ok in H as (mu & _ & H).
  apply bind_Ok in H as ([ts mr] & Hmr & H). rewrite Hmime in Hmr.
  apply read_mime_list_Ok in Hmr as (Hm1 & Hm2 & Hm3); [|done].
  apply bind_Ok in H as ([] & Hdis & H). apply bind_Ok in H as ([] & Hca & H).
  apply bind_Ok in H as (es & Hes' & H). apply bind_Ok in H as ([] & Hti & [= <-]).
  unfold fixed_regions. cbn [header mime_types entries cluster_offsets anchors]. exists eo, (end_ mr).
  assert (∃ tl, option_list tt_ = tl ∧ Forall (λ r, 0 ≤ start r < end_ r ∧ end_ r ≤ len file) tl ∧
    tl = if title_index_position h =? u64_max then [] else [{| start := title_index_position h; end_ := title_index_position h + 4 * entry_count h |}])
    as (tl & Htl & Htf & Htd).
  { destruct (title_index_position h =? u64_max); [by injection Htt as <-; exists []|].
    apply bind_Ok in Htt as (t & (-> & ? & ?)%table_range_Ok & [= <-]). eexists. split; [done|]. split; [|done].
    constructor; [|done]. unfold HEADER_BYTES in *. simpl in *. lia. }
  assert (title_index_position h ≠ u64_max → es ≠ [] →
     ∃ indices, here file (title_index_position h) (concat (le_bytes 4 <$> indices)) ∧ Forall (λ i, 0 ≤ i) indices ∧
       len indices = entry_count h ∧ validate_title_index indices es = Ok tt) as Htitle.
  { intros Hne Hes0. rewrite (proj2 (Z.eqb_neq _ _) Hne) in Htt.
    apply bind_Ok in Htt as (t & (-> & ? & ?)%table_range_Ok & [= <-]). destruct es as [|e es]; [done|].
    apply bind_Ok in Hti as (ix & Hix & Hti). apply read_u32_table_Ok in Hix as (Hl & Hix0 & Hixh); [|done|simpl; unfold HEADER_BYTES in *; lia].
    exists ix. split_and!; [done|done|unfold len; lia|done]. }
  clear Hti. rewrite Htl in *. rewrite <- Htd. destruct mr as [ms me]. cbn [start end_] in *. subst ms.
  set (rs := [_; _; _] ++ tl ++ _).
  assert (([{| start := 0; end_ := HEADER_BYTES |};
       {| start := url_pointer_position h; end_ := url_pointer_position h + 8 * entry_count h |};
       {| start := cluster_pointer_position h; end_ := cluster_pointer_position h + 8 * cluster_count h |}] ++ tl ++ [ck])
       ++ [{| start := HEADER_BYTES; end_ := me |}] = rs) as Hrs by (subst rs ck; by rewrite <- !app_assoc).
  rewrite Hrs in *. unfold HEADER_BYTES, CHECKSUM_BYTES in *.
  split; [lia|]. split; [unfold len; split_and!; (done || lia)|]. rewrite <- !unordered_false. split_and!; try done; try lia.
  - subst rs ck. rewrite !Forall_app. cbn [start end_] in *. split; [|split; [done|]];
      repeat (apply Forall_cons; split; [cbn [start end_]; lia|]); apply Forall_nil; done.
  - by rewrite <- Hrs.
  - by rewrite <- Hrs in Hes'.
Qed.

(** An accepted archive is made of parts that share no byte: the header, the pointer
    tables, the MIME list, the checksum, and for each entry and cluster the bytes up to
    the next anchor. The tables hold the offsets that are used, an entry is encoded at
    each of its offsets with indices within bounds, the directory is strictly ordered,
    and the title index, if there is one, is a permutation of it in title order. *)
Theorem zim_archive_structure hex file limits a :
  slice_ok file → limits_unsigned limits → limits_validate limits = Ok tt →
  archive_parse hex file (len file) limits = Ok a →
  ∃ entry_offsets mime_end xs,
    let h := header a in
    let regions := fixed_regions h (len file) mime_end in
    here file (url_pointer_position h) (concat (le_bytes 8 <$> entry_offsets)) ∧
    here file (cluster_pointer_position h) (concat (le_bytes 8 <$> cluster_offsets a)) ∧
    len entry_offsets = entry_count h ∧ len (cluster_offsets a) = cluster_count h ∧
    extents (anchors a) (entry_offsets ++ cluster_offsets a) = Ok xs ∧
    StronglySorted apart (regions ++ xs) ∧
    Forall (λ r, 0 ≤ start r < end_ r ∧ end_ r ≤ len file) (regions ++ xs) ∧
    Forall2 (λ o e, ∃ upper, next_anchor (anchors a) o = Ok upper ∧ entry_at file (mime_types a) h limits o upper e)
      entry_offsets (entries a) ∧
    StronglySorted (λ x y, path_order x y = Lt) (entries a) ∧
    (title_index_position h ≠ u64_max →
     ∃ indices listed, here file (title_index_position h) (concat (le_bytes 4 <$> indices)) ∧
       indices ≡ₚ seqZ 0 (entry_count h) ∧ Forall2 (λ i e, entries a !! Z.to_nat i = Some e) indices listed ∧
       StronglySorted (λ x y, title_order x y ≠ Gt) listed).
Proof.
  intros Hs Hlu Hlv H. unfold limits_unsigned in Hlu. rewrite !Forall_cons in Hlu. destruct_and! Hlu.
  pose proof (archive_parse_parts _ _ _ _ Hs H) as (eo & me & Hp). cbv zeta in Hp.
  destruct Hp as (([Hec0 Hec] & Hcc & Hm) & (Hu & Hc & Hle & Hlc) & Hse & Hsc & Hrs & Hdis & Hca & Han & Hck & Hre & Hti).
  set (rs := fixed_regions _ _ _) in *.
  apply validate_disjoint_spec in Hdis; [|eapply Forall_impl; [exact Hrs|]; simpl; lia].
  destruct (extents_apart _ _ _ _ Hse Hsc Hca Hdis) as (xs & Hxs & Hap & Hxb). rewrite <- Han in Hxs.
  exists eo, me, xs. cbv zeta. fold rs. do 6 (split; [done|]). split.
  { apply Forall_app. split; [done|]. eapply Forall_impl; [exact Hxb|]. unfold HEADER_BYTES. simpl. lia. }
  apply read_entries_spec in Hre as (es & Hes & Hsort & Hf); [|constructor]. simpl in Hes. rewrite <- Hes in *. apply Forall2_length in Hf as Hfl.
  split; [|split; [done|]].
  2: { intros Hne. destruct (Hti Hne) as (ix & Hix & Hix0 & Hixl & Hv); [intros Hnil; rewrite Hnil in Hfl; unfold len in *; simpl in Hfl; lia|].
       apply title_index_iff in Hv as (Hperm & listed & Hl2 & Hs2); [|done|unfold len in *; lia].
       exists ix, listed. split_and!; try done. rewrite Hperm. f_equiv. unfold len in *. lia. }
  unfold limits_validate in Hlv. apply bind_Ok in Hlv as ([] & _ & Hlv%fail_if_Ok). bool_prop.
  apply Forall2_lookup. intros k. destruct (eo !! k) as [o|] eqn:Ho.
  2: { apply Forall2_length in Hf. apply lookup_ge_None in Ho. rewrite (proj2 (lookup_ge_None _ _)) by lia. constructor. }
  destruct (Forall2_lookup_l _ _ _ _ _ Hf Ho) as (e & He & u & i & n & Hu' & Hr). rewrite He. constructor.
  exists u. split; [done|]. rewrite Han in Hu'.
  apply content_bound in Hu' as [Ho1 Hu1]; [|done|apply elem_of_app; left; by eapply list_elem_of_lookup_2].
  apply entry_accepted in Hr as (m & rv & kb & ps & Hk & _ & _ & Hok & Hh & -> & Hup & _);
    try (unfold HEADER_BYTES, usize_max, u64_max in *; lia); [|done].
  by exists m, rv, kb, ps.
Qed.

(** ** An archive

    Two entries (an article and a redirect to it) and one uncompressed cluster of one
    blob. *)
Definition sample_entry (kind : DirectoryEntryKind) (name : string) : DirectoryEntry :=
  {| namespace := 65; path := str name; title := []; kind := kind |}.

Definition sample_archive : list Z :=
  le_bytes 4 ZIM_MAGIC ++ le_bytes 2 6 ++ le_bytes 2 1 ++ replicate 16 7 ++ le_bytes 4 2 ++ le_bytes 4 1
  ++ le_bytes 8 92 ++ le_bytes 8 108 ++ le_bytes 8 116 ++ le_bytes 8 80 ++ le_bytes 4 u32_max ++ le_bytes 4 u32_max
  ++ le_bytes 8 169
  ++ str "text/plain" ++ [0; 0]
  ++ le_bytes 8 124 ++ le_bytes 8 143 ++ le_bytes 4 0 ++ le_bytes 4 1 ++ le_bytes 8 158
  ++ entry_bytes 0 9 (le_bytes 4 0 ++ le_bytes 4 0) [] (sample_entry (Item 0 0 0) "a")
  ++ entry_bytes REDIRECT_MIME 9 (le_bytes 4 0) [] (sample_entry Redirect "b")
  ++ [1] ++ le_bytes 4 8 ++ le_bytes 4 10 ++ str "hi" ++ replicate 16 0.

Example sample_archive_parsed :
  (a ← archive_parse id sample_archive (len sample_archive) limits_default ; Ok (entries a, cluster_offsets a, anchors a))
  = Ok ([sample_entry (Item 0 0 0) "a"; sample_entry Redirect "b"], [158], [0; 80; 92; 108; 116; 124; 143; 158; 169]).
Proof. vm_compute. reflexivity. Qed.

Definition sample_parsed : option ParsedArchive :=
  match archive_parse id sample_archive (len sample_archive) limits_default with Ok a => Some a | Err _ => None end.

Lemma zim_archive_structure_witness :
  ∃ a, archive_parse id sample_archive (len sample_archive) limits_default = Ok a ∧
  ∃ entry_offsets mime_end xs,
    let regions := fixed_regions (header a) (len sample_archive) mime_end in
    len entry_offsets = 2 ∧ extents (anchors a) (entry_offsets ++ cluster_offsets a) = Ok xs ∧
    StronglySorted apart (regions ++ xs).
Proof.
  assert (slice_ok sample_archive) as Hs by (apply slice_ok_check; vm_compute; reflexivity).
  assert (limits_unsigned limits_default) as Hl by (apply Forall_forall; intros v Hv; vm_compute in Hv; repeat (apply elem_of_cons in Hv as [-> | Hv]; [lia|]); by apply not_elem_of_nil in Hv).
  destruct sample_parsed as [a|] eqn:Ha; [|vm_compute in Ha; discriminate Ha].
  assert (archive_parse id sample_archive (len sample_archive) limits_default = Ok a) as Hp.
  { unfold sample_parsed in Ha. destruct (archive_parse _ _ _ _); [congruence|discriminate]. }
  assert (entry_count (header a) = 2) as Hn by (vm_compute in Ha; injection Ha as <-; reflexivity).
  exists a. split; [exact Hp|].
  destruct (zim_archive_structure id sample_archive limits_default a Hs Hl eq_refl Hp)
    as (eo & me & xs & _ & _ & He & _ & Hxs & Hap & _).
  exists eo, me, xs. cbv zeta. split; [congruence|]. split; [exact Hxs|exact Hap].
Defined.

Lemma zim_directory_entry_exact_witness :
  read_directory_entry sample_archive 124 143 0 [str "text/plain"] 2 1 limits_default =
    Ok (sample_entry (Item 0 0 0) "a", 19) ↔
  ∃ mime_index revision kind_bytes parameters,
    let encoded := entry_bytes mime_index revision kind_bytes parameters (sample_entry (Item 0 0 0) "a") in
    encoded_kind [str "text/plain"] 2 1 (Item 0 0 0) mime_index kind_bytes ∧ 0 ≤ revision ≤ u32_max ∧ len parameters ≤ 255 ∧
    entry_ok limits_default (sample_entry (Item 0 0 0) "a") ∧ here sample_archive 124 encoded ∧ 19 = len encoded ∧
    124 + 19 ≤ 143 ∧ 19 ≤ max_dirent_bytes limits_default.
Proof.
  apply (zim_directory_entry_exact sample_archive 124 143 0 [str "text/plain"] 2 1 limits_default);
    try (apply slice_ok_check; vm_compute; reflexivity); vm_compute; intuition discriminate.
Defined.

End ZimTheorems.
