(* ===== verification/ZimClusters.v ===== *)
(** * ZimClusters: the blobs of an OpenZIM archive

    Models the other half of [information-native-backend-zim/src/reader.rs] that works
    on a parsed archive: the blobs of a cluster ([read_cluster], [parse_blob_offsets],
    [DecodedCluster::blob]), the selection of the entries that may become text
    ([collect_candidates]) and the reading of their blobs under the budgets
    ([read_selected_blobs]). The Zstandard decoder is a parameter: the chunks its stream
    gives for given bytes and window. *)

From S2P Require Import Prelude Bytes Text Utf8 ZimReader.
Local Open Scope Z_scope.

(** ** Clusters *)

Record DecodedCluster := { codec : string; decoded : list Z; blob_offsets : list Z }.

(** [DecodedCluster::blob] *)
Definition blob (c : DecodedCluster) (blob_index cluster_index max_blob_bytes : Z) : zim (list Z) :=
  let index := blob_index in
  end_index ← u64_add index 1 ;
  start ← need (blob_offsets c !! Z.to_nat index)
    (InvalidCluster cluster_index "blob index is outside the cluster offset table") ;
  end_ ← need (blob_offsets c !! Z.to_nat end_index)
    (InvalidCluster cluster_index "blob index is outside the cluster offset table") ;
  blob ← need (get_slice (decoded c) start end_)
    (InvalidCluster cluster_index "blob range is outside decoded cluster bytes") ;
  fail_if (max_blob_bytes <? len blob) ArticleLimitExceeded ;;
  Ok blob.

Definition read_offset (extended : bool) (bytes : list Z) (position : Z) : zim Z :=
  if extended then read_u64 bytes position else read_u32 bytes position.

(** The loop of [parse_blob_offsets]: [count] offsets from [index] on. *)
Fixpoint blob_offset_loop (decoded : list Z) (extended : bool) (cluster_index width first : Z) (count : nat) (index : Z)
    (offsets : list Z) : zim (list Z) :=
  match count with
  | O => Ok offsets
  | S count =>
    position ← u64_mul index width ;
    value ← read_offset extended decoded position ;
    fail_if ((value <? first) || (len decoded <? value)
             || match last offsets with Some l => value <? l | None => false end)
      (InvalidCluster cluster_index "cluster blob offsets are unordered or out of bounds") ;;
    blob_offset_loop decoded extended cluster_index width first count (index + 1) (offsets ++ [value])
  end.

Definition parse_blob_offsets (decoded : list Z) (extended : bool) (cluster_index max_blob_count : Z) : zim (list Z) :=
  let invalid := InvalidCluster cluster_index in
  let width := if extended then 8 else 4 in
  fail_if (len decoded <? width) (invalid "cluster blob offset table is truncated") ;;
  first ← read_offset extended decoded 0 ;
  fail_if ((first <? width) || negb (first mod width =? 0) || (len decoded <? first)) (invalid "invalid first blob offset") ;;
  let count := first / width in
  max_offsets ← u64_add max_blob_count 1 ;
  fail_if (max_offsets <? count) (invalid "cluster blob count exceeds its configured limit") ;;
  offsets ← blob_offset_loop decoded extended cluster_index width first (Z.to_nat count) 0 [] ;
  fail_if (negb (bool_decide (last offsets = Some (len decoded))))
    (invalid "cluster blob table does not cover the decoded payload exactly") ;;
  Ok offsets.

Section Zstd.
(** The decoder's stream over bytes with a bounded window: an error, or what its reads
    give (an error or a chunk) until one is empty, and the bytes it consumed. *)
Context (zstd : list Z → Z → result string (list (result string (list Z)) * Z)).

Fixpoint zstd_loop (reads : list (result string (list Z))) (max_output_bytes : Z) (output : list Z) : zim (list Z) :=
  match reads with
  | [] => Ok output
  | Err e :: _ => Err (Fail (Zstd e))
  | Ok chunk :: reads =>
    if bool_decide (chunk = []) then Ok output
    else
      next_len ← u64_add (len output) (len chunk) ;
      fail_if (max_output_bytes <? next_len) ClusterLimitExceeded ;;
      zstd_loop reads max_output_bytes (output ++ chunk)
  end.

Definition decode_zstd (bytes : list Z) (max_window_bytes max_output_bytes : Z) : zim (list Z) :=
  match zstd bytes max_window_bytes with
  | Err e => Err (Fail (Zstd e))
  | Ok (reads, consumed) =>
    output ← zstd_loop reads max_output_bytes [] ;
    fail_if (negb (consumed =? len bytes)) (Zstd "cluster must contain exactly one frame with no trailing bytes") ;;
    Ok output
  end.

Definition read_cluster (file : list Z) (offset upper cluster_index : Z) (limits : ZimLimits) : zim DecodedCluster :=
  span ← u64_sub upper offset ;
  fail_if (span <? 2) (InvalidCluster cluster_index "cluster is truncated") ;;
  payload_len ← u64_sub span 1 ;
  fail_if (max_compressed_cluster_bytes limits <? payload_len) ClusterLimitExceeded ;;
  info_bytes ← read_range file offset 1 "cluster info" ;
  info ← index info_bytes 0 ;
  fail_if (negb (Z.land info 0xe0 =? 0)) (InvalidCluster cluster_index "reserved cluster-info bits are set") ;;
  let extended_offsets := negb (Z.land info 0x10 =? 0) in
  let compression := Z.land info 0x0f in
  payload_offset ← u64_add offset 1 ;
  payload ← read_range file payload_offset payload_len "cluster payload" ;
  '(codec, decoded) ←
    (if (compression =? 0) || (compression =? 1) then
       fail_if (max_decoded_cluster_bytes limits <? len payload) ClusterLimitExceeded ;;
       Ok ("none"%string, payload)
     else if compression =? 5 then
       d ← decode_zstd payload (max_zstd_window_bytes limits) (max_decoded_cluster_bytes limits) ;
       Ok ("zstd"%string, d)
     else Err (Fail (UnsupportedCompression compression))) ;
  offsets ← parse_blob_offsets decoded extended_offsets cluster_index (max_cluster_blob_count limits) ;
  Ok {| codec := codec; decoded := decoded; blob_offsets := offsets |}.
End Zstd.

(** ** Candidates *)

Inductive ZimTextKind := Html | PlainText.
#[export] Instance ZimTextKind_eq_dec : EqDecision ZimTextKind.
Proof. solve_decision. Defined.

Definition classify_text_mime (value : text) : option ZimTextKind :=
  if bool_decide (value = str "text/html") || bool_decide (value = str "application/xhtml+xml") then Some Html
  else if bool_decide (value = str "text/plain") then Some PlainText
  else None.

Record ZimOmissions := {
  redirects : Z;
  linktargets_or_deleted : Z;
  non_article_namespaces : Z;
  non_text_mime_types : Z;
  invalid_or_empty_text : Z;
  document_limit : Z;
}.
Definition omissions_default : ZimOmissions :=
  {| redirects := 0; linktargets_or_deleted := 0; non_article_namespaces := 0; non_text_mime_types := 0;
     invalid_or_empty_text := 0; document_limit := 0 |}.

(** The counters saturate. *)
Definition omit_redirect (o : ZimOmissions) : ZimOmissions :=
  {| redirects := saturating_add u64_max (redirects o) 1; linktargets_or_deleted := linktargets_or_deleted o;
     non_article_namespaces := non_article_namespaces o; non_text_mime_types := non_text_mime_types o;
     invalid_or_empty_text := invalid_or_empty_text o; document_limit := document_limit o |}.
Definition omit_linktarget (o : ZimOmissions) : ZimOmissions :=
  {| redirects := redirects o; linktargets_or_deleted := saturating_add u64_max (linktargets_or_deleted o) 1;
     non_article_namespaces := non_article_namespaces o; non_text_mime_types := non_text_mime_types o;
     invalid_or_empty_text := invalid_or_empty_text o; document_limit := document_limit o |}.
Definition omit_namespace (o : ZimOmissions) : ZimOmissions :=
  {| redirects := redirects o; linktargets_or_deleted := linktargets_or_deleted o;
     non_article_namespaces := saturating_add u64_max (non_article_namespaces o) 1; non_text_mime_types := non_text_mime_types o;
     invalid_or_empty_text := invalid_or_empty_text o; document_limit := document_limit o |}.
Definition omit_mime (o : ZimOmissions) : ZimOmissions :=
  {| redirects := redirects o; linktargets_or_deleted := linktargets_or_deleted o;
     non_article_namespaces := non_article_namespaces o; non_text_mime_types := saturating_add u64_max (non_text_mime_types o) 1;
     invalid_or_empty_text := invalid_or_empty_text o; document_limit := document_limit o |}.
Definition omit_text (o : ZimOmissions) : ZimOmissions :=
  {| redirects := redirects o; linktargets_or_deleted := linktargets_or_deleted o;
     non_article_namespaces := non_article_namespaces o; non_text_mime_types := non_text_mime_types o;
     invalid_or_empty_text := saturating_add u64_max (invalid_or_empty_text o) 1; document_limit := document_limit o |}.
Definition omit_limit (n : Z) (o : ZimOmissions) : ZimOmissions :=
  {| redirects := redirects o; linktargets_or_deleted := linktargets_or_deleted o;
     non_article_namespaces := non_article_namespaces o; non_text_mime_types := non_text_mime_types o;
     invalid_or_empty_text := invalid_or_empty_text o; document_limit := saturating_add u64_max (document_limit o) n |}.

Record Candidate := { entry_index : Z; cluster_index : Z; blob_index : Z; text_kind : ZimTextKind }.

(** The loop of [collect_candidates]: the candidates and their clusters so far. *)
Fixpoint candidate_loop (mime_types : list text) (limits : ZimLimits) (entries : list DirectoryEntry) (index : Z)
    (candidates : list Candidate) (clusters : gset Z) (o : ZimOmissions) : zim (list Candidate * ZimOmissions) :=
  match entries with
  | [] => Ok (candidates, o)
  | entry :: entries =>
    entry_index ← need (try_from u32_max index) IntegerOverflow ;
    let next := candidate_loop mime_types limits entries (index + 1) in
    match kind entry with
    | Redirect => next candidates clusters (omit_redirect o)
    | LinktargetOrDeleted => next candidates clusters (omit_linktarget o)
    | Item mime_index cluster_index blob_index =>
      if negb ((namespace entry =? 65) || (namespace entry =? 67)) then next candidates clusters (omit_namespace o)
      else
        mime ← need (mime_types !! Z.to_nat mime_index)
          (InvalidDirectoryEntry entry_index "MIME index is outside the MIME list") ;
        match classify_text_mime mime with
        | None => next candidates clusters (omit_mime o)
        | Some text_kind =>
          if max_candidate_entries limits <=? len candidates then next candidates clusters (omit_limit 1 o)
          else if bool_decide (cluster_index ∉ clusters) && (max_decoded_clusters limits <=? Z.of_nat (size clusters))
          then next candidates clusters (omit_limit 1 o)
          else next (candidates ++ [{| entry_index := entry_index; cluster_index := cluster_index;
                                       blob_index := blob_index; text_kind := text_kind |}])
                 ({[cluster_index]} ∪ clusters) o
        end
    end
  end.

Definition collect_candidates (parsed : ParsedArchive) (limits : ZimLimits) (o : ZimOmissions) :
    zim (list Candidate * ZimOmissions) :=
  candidate_loop (mime_types parsed) limits (entries parsed) 0 [] ∅ o.

(** ** The selected blobs *)

(** [by_cluster]: the candidates of each cluster, in the order of the clusters. *)
Definition group (candidates : list Candidate) : list (Z * list Candidate) :=
  (λ c, (c, List.filter (λ x, cluster_index x =? c) candidates)) <$>
    merge_sort Z.le (elements (list_to_set (map cluster_index candidates) : gset Z)).

Record Selection := {
  selected : gmap Z (list Z);
  total_decoded : Z;
  total_blob_bytes : Z;
  decoded_cluster_count : Z;
  codecs : gset string;
  decode_budget_exhausted : bool;
  omissions : ZimOmissions;
}.
Definition selection_start (o : ZimOmissions) : Selection :=
  {| selected := ∅; total_decoded := 0; total_blob_bytes := 0; decoded_cluster_count := 0; codecs := ∅;
     decode_budget_exhausted := false; omissions := o |}.
Definition with_omissions (f : ZimOmissions → ZimOmissions) (s : Selection) : Selection :=
  {| selected := selected s; total_decoded := total_decoded s; total_blob_bytes := total_blob_bytes s;
     decoded_cluster_count := decoded_cluster_count s; codecs := codecs s;
     decode_budget_exhausted := decode_budget_exhausted s; omissions := f (omissions s) |}.
Definition with_decoded (total : Z) (exhausted : bool) (codec : string) (s : Selection) : Selection :=
  {| selected := selected s; total_decoded := total; total_blob_bytes := total_blob_bytes s;
     decoded_cluster_count := saturating_add u64_max (decoded_cluster_count s) 1; codecs := {[codec]} ∪ codecs s;
     decode_budget_exhausted := exhausted; omissions := omissions s |}.
Definition with_blob (entry : Z) (blob : list Z) (total : Z) (s : Selection) : Selection :=
  {| selected := <[entry:=blob]> (selected s); total_decoded := total_decoded s; total_blob_bytes := total;
     decoded_cluster_count := decoded_cluster_count s; codecs := codecs s;
     decode_budget_exhausted := decode_budget_exhausted s; omissions := omissions s |}.

Fixpoint blob_loop (cluster : DecodedCluster) (index : Z) (limits : ZimLimits) (candidates : list Candidate)
    (s : Selection) : zim Selection :=
  match candidates with
  | [] => Ok s
  | c :: candidates =>
    match blob cluster (blob_index c) index (max_blob_bytes limits) with
    | Err (Fail ArticleLimitExceeded) => blob_loop cluster index limits candidates (with_omissions omit_text s)
    | Err e => Err e
    | Ok b =>
      next ← u64_add (total_blob_bytes s) (len b) ;
      if max_total_selected_blob_bytes limits <? next
      then blob_loop cluster index limits candidates (with_omissions (omit_limit 1) s)
      else blob_loop cluster index limits candidates (with_blob (entry_index c) b next s)
    end
  end.

Section Selected.
Context (zstd : list Z → Z → result string (list (result string (list Z)) * Z)).

Fixpoint cluster_loop (file : list Z) (parsed : ParsedArchive) (limits : ZimLimits)
    (groups : list (Z * list Candidate)) (s : Selection) : zim Selection :=
  match groups with
  | [] => Ok s
  | (index, candidates) :: groups =>
    if decode_budget_exhausted s
    then cluster_loop file parsed limits groups (with_omissions (omit_limit (len candidates)) s)
    else
      offset ← need (cluster_offsets parsed !! Z.to_nat index)
        (InvalidCluster index "cluster index is outside the pointer table") ;
      upper ← next_anchor (anchors parsed) offset ;
      cluster ← read_cluster zstd file offset upper index limits ;
      next ← u64_add (total_decoded s) (len (decoded cluster)) ;
      if max_total_decoded_cluster_bytes limits <? next
      then cluster_loop file parsed limits groups
             (with_omissions (omit_limit (len candidates)) (with_decoded (total_decoded s) true (codec cluster) s))
      else
        s ← blob_loop cluster index limits candidates (with_decoded next false (codec cluster) s) ;
        cluster_loop file parsed limits groups s
  end.

(** [Archive::read_selected_blobs] *)
Definition read_selected_blobs (file : list Z) (parsed : ParsedArchive) (candidates : list Candidate) (limits : ZimLimits)
    (o : ZimOmissions) : zim Selection :=
  cluster_loop file parsed limits (group candidates) (selection_start o).
End Selected.

(** * Specification

    A cluster of blobs: the offsets of their starts and the end of the last, then the
    blobs themselves. *)

Definition offset_width (extended : bool) : nat := if extended then 8 else 4.

Fixpoint blob_starts (b : Z) (blobs : list (list Z)) : list Z :=
  match blobs with
  | [] => [b]
  | x :: blobs => b :: blob_starts (b + len x) blobs
  end.

Definition table_of (extended : bool) (blobs : list (list Z)) : list Z :=
  blob_starts (Z.of_nat (offset_width extended) * (len blobs + 1)) blobs.

Definition cluster_bytes (extended : bool) (blobs : list (list Z)) : list Z :=
  concat (le_bytes (offset_width extended) <$> table_of extended blobs) ++ concat blobs.

(** What a directory entry is to the conversion. *)
Inductive EntryClass := ClassRedirect | ClassLinktarget | ClassNamespace | ClassMime | ClassText (k : ZimTextKind).
#[export] Instance EntryClass_eq_dec : EqDecision EntryClass.
Proof. solve_decision. Defined.

Definition entry_class (mime_types : list text) (e : DirectoryEntry) : option EntryClass :=
  match kind e with
  | Redirect => Some ClassRedirect
  | LinktargetOrDeleted => Some ClassLinktarget
  | Item m _ _ =>
    if negb ((namespace e =? 65) || (namespace e =? 67)) then Some ClassNamespace
    else match mime_types !! Z.to_nat m with
         | Some mime => Some (match classify_text_mime mime with Some k => ClassText k | None => ClassMime end)
         | None => None
         end
  end.

Definition is_text (c : EntryClass) : bool := match c with ClassText _ => true | _ => false end.

(** How many of some classes satisfy a test. *)
Definition count {A} (p : A → bool) (l : list A) : Z := len (List.filter p l).
Definition count_class (c : EntryClass) (l : list EntryClass) : Z := count (λ x, bool_decide (x = c)) l.

Definition omitted (o : ZimOmissions) : Z :=
  redirects o + linktargets_or_deleted o + non_article_namespaces o + non_text_mime_types o
  + invalid_or_empty_text o + document_limit o.

(** Counters that are not negative and do not saturate within [n] more. *)
Definition counters_ok (o : ZimOmissions) (n : Z) : Prop :=
  0 ≤ redirects o ∧ 0 ≤ linktargets_or_deleted o ∧ 0 ≤ non_article_namespaces o ∧ 0 ≤ non_text_mime_types o ∧
  0 ≤ invalid_or_empty_text o ∧ 0 ≤ document_limit o ∧ omitted o + n ≤ u64_max.

(** A candidate is a text entry of the directory. *)
Definition candidate_of (mime_types : list text) (entries : list DirectoryEntry) (c : Candidate) : Prop :=
  ∃ e mime_index, 0 ≤ entry_index c ∧ entries !! Z.to_nat (entry_index c) = Some e ∧
    kind e = Item mime_index (cluster_index c) (blob_index c) ∧
    entry_class mime_types e = Some (ClassText (text_kind c)).

Definition clusters_of (candidates : list Candidate) : gset Z := list_to_set (map cluster_index candidates).

Definition selected_bytes (m : gmap Z (list Z)) : Z := map_fold (λ _ b n, len b + n) 0 m.

(** The blob of a candidate: that of its index in its cluster, read from its place in the
    archive. *)
Definition blob_of (zstd : list Z → Z → result string (list (result string (list Z)) * Z)) (file : list Z)
    (parsed : ParsedArchive) (limits : ZimLimits) (c : Candidate) (b : list Z) : Prop :=
  ∃ offset upper cluster,
    cluster_offsets parsed !! Z.to_nat (cluster_index c) = Some offset ∧ next_anchor (anchors parsed) offset = Ok upper ∧
    read_cluster zstd file offset upper (cluster_index c) limits = Ok cluster ∧
    blob cluster (blob_index c) (cluster_index c) (max_blob_bytes limits) = Ok b.

Module ZimClusterTheorems.

Lemma read_offset_iff extended bytes p v :
  slice_ok bytes → 0 ≤ p →
  read_offset extended bytes p = Ok v ↔
  0 ≤ v < 2 ^ (8 * Z.of_nat (offset_width extended)) ∧ here bytes p (le_bytes (offset_width extended) v).
Proof.
  intros [Hb Hn] Hp. unfold read_offset, offset_width.
  assert (∀ (w : nat) label, read_le (Z.of_nat w) label bytes p = Ok v ↔
            0 ≤ v < 2 ^ (8 * Z.of_nat w) ∧ here bytes p (le_bytes w v)) as Hr.
  { intros w label. split; [by apply ZimTheorems.read_le_Ok|]. intros [Hv Hh]. unfold read_le, u64_add.
    assert (p + Z.of_nat w ≤ len bytes) as Hl by (destruct Hh as [Hl _]; by rewrite le_bytes_len in Hl).
    rewrite checked_add_is by (unfold u64_max, isize_max in *; lia). simpl.
    rewrite (proj2 (here_slice _ _ _ (le_bytes w v) Hp)) by (split; [lia|split; [apply le_bytes_len|done]]).
    simpl. by rewrite le_value_le_bytes. }
  destruct extended; [apply (Hr 8%nat "u64")|apply (Hr 4%nat "u32")].
Qed.

Lemma last_sorted_snoc (l : list Z) v :
  StronglySorted Z.le l →
  StronglySorted Z.le (l ++ [v]) ↔ match last l with Some x => v <? x | None => false end = false.
Proof.
  intros Hl. split.
  - intros Hs. destruct (last l) as [x|] eqn:Hx; [|done]. apply Z.ltb_ge.
    apply last_Some in Hx as [k ->]. apply StronglySorted_app in Hs as (Hs & _ & _). apply Hs; [|by left].
    apply elem_of_app. right. by left.
  - intros Hv. apply StronglySorted_snoc; [done|]. destruct (last l) as [x|] eqn:Hx.
    + apply Z.ltb_ge in Hv. apply last_Some in Hx as [k ->]. apply StronglySorted_app in Hl as (Hl & _ & _).
      apply Forall_app. split; [|by repeat constructor]. apply Forall_forall. intros y Hy. specialize (Hl y x Hy ltac:(by left)). lia.
    + apply last_None in Hx as ->. constructor.
Qed.

Lemma blob_offset_loop_iff decoded extended ci first count index offsets r :
  let w := offset_width extended in
  slice_ok decoded → 0 ≤ index → index * Z.of_nat w ≤ len decoded → StronglySorted Z.le offsets →
  blob_offset_loop decoded extended ci (Z.of_nat w) first count index offsets = Ok r ↔
  ∃ new, r = offsets ++ new ∧ length new = count ∧ here decoded (index * Z.of_nat w) (concat (le_bytes w <$> new)) ∧
    Forall (λ v, 0 ≤ v < 2 ^ (8 * Z.of_nat w)) new ∧ Forall (λ v, first ≤ v ≤ len decoded) new ∧ StronglySorted Z.le r.
Proof.
  intros w Hd. revert index offsets r. induction count as [|count IH]; intros index offsets r Hi Hl Hs; simpl.
  { split.
    - intros [= <-]. exists []. rewrite app_nil_r. split_and!; try done. unfold here. simpl. rewrite len_nil.
      split; [lia|]. apply sub_list_nil. lia.
    - intros ([|] & -> & ? & _); [by rewrite app_nil_r|done]. }
  unfold u64_mul. split.
  - intros (p & [-> _]%need_Ok%checked_mul_Some & (v & Hv & ([] & Hf%fail_if_Ok & H)%bind_Ok)%bind_Ok)%bind_Ok.
    apply read_offset_iff in Hv as [Hv Hh]; [|done|lia]. fold w in Hv, Hh. apply orb_false_iff in Hf as [Hf Hlast]. bool_prop.
    apply last_sorted_snoc in Hlast; [|done].
    apply IH in H as (new & -> & Hn & Hnew & Hf1 & Hf2 & Hss); [|lia|destruct Hh as [Hh _]; rewrite le_bytes_len in Hh; lia|done].
    exists (v :: new). rewrite <- app_assoc in *. split; [done|]. split; [simpl; by rewrite Hn|]. split.
    + rewrite fmap_cons. cbn [concat]. apply here_app; [lia|]. split; [done|]. rewrite le_bytes_len.
      by replace (index * Z.of_nat w + Z.of_nat w) with ((index + 1) * Z.of_nat w) by lia.
    + split; [by constructor|]. split; [constructor; [lia|done]|done].
  - intros ([|v new] & -> & Hn & Hh & Hf1 & Hf2 & Hss); [done|]. injection Hn as Hn.
    apply Forall_cons in Hf1 as [Hv Hf1]. apply Forall_cons in Hf2 as [Hvr Hf2].
    rewrite fmap_cons in Hh. cbn [concat] in Hh. apply here_app in Hh as [Hh1 Hh2]; [|lia]. rewrite le_bytes_len in Hh2.
    assert (index * Z.of_nat w + Z.of_nat w ≤ len decoded) as Hl'.
    { destruct Hh1 as [Hh1 _]. by rewrite le_bytes_len in Hh1. }
    rewrite (need_is (checked_mul _ _ _) _ (index * Z.of_nat w)).
    2: { apply checked_mul_Some. destruct Hd. unfold u64_max, isize_max in *. lia. }
    simpl. rewrite (proj2 (read_offset_iff extended decoded (index * Z.of_nat w) v Hd ltac:(lia))) by done. simpl.
    rewrite (app_assoc offsets [v] new : offsets ++ v :: new = _) in Hss |- *.
    rewrite fail_if_false.
    2: { rewrite (proj2 (Z.ltb_ge _ _)), (proj2 (Z.ltb_ge _ _)) by lia. simpl. apply last_sorted_snoc; [done|].
         by apply StronglySorted_app in Hss as (_ & ? & _). }
    simpl. apply IH; [lia|lia|by apply StronglySorted_app in Hss as (_ & ? & _)|].
    exists new. split_and!; try done. by replace ((index + 1) * Z.of_nat w) with (index * Z.of_nat w + Z.of_nat w) by lia.
Qed.

(** The blobs between the offsets. *)
Fixpoint cut (decoded : list Z) (offsets : list Z) : list (list Z) :=
  match offsets with
  | a :: (b :: _) as l => sub_list decoded a b :: cut decoded l
  | _ => []
  end.

Lemma cut_spec decoded a offsets e :
  0 ≤ a → StronglySorted Z.le (a :: offsets) → last (a :: offsets) = Some e → e ≤ len decoded →
  blob_starts a (cut decoded (a :: offsets)) = a :: offsets ∧
  concat (cut decoded (a :: offsets)) = sub_list decoded a e ∧ len (cut decoded (a :: offsets)) = len offsets.
Proof.
  revert a. induction offsets as [|b offsets IH]; intros a Ha Hs Hl He.
  { injection Hl as <-. simpl. split_and!; [done|by rewrite sub_list_nil|done]. }
  apply StronglySorted_inv in Hs as [Hs Hab]. apply Forall_cons in Hab as [Hab _].
  assert (b ≤ e) as Hbe.
  { rewrite last_cons_cons in Hl. apply last_Some_elem_of in Hl. apply StronglySorted_inv in Hs as [_ Hb].
    rewrite Forall_forall in Hb. apply elem_of_cons in Hl as [-> | Hl]; [done|by apply Hb]. }
  destruct (IH b ltac:(lia) Hs) as (H1 & H2 & H3); [done|done|].
  change (cut decoded (a :: b :: offsets)) with (sub_list decoded a b :: cut decoded (b :: offsets)).
  cbn [blob_starts concat]. rewrite sub_list_len by lia. replace (a + (b - a)) with b by lia. rewrite H1.
  split; [done|]. rewrite H2, !len_cons, H3. split; [|done]. symmetry. apply sub_list_split; lia.
Qed.

Lemma blob_starts_facts b blobs :
  length (blob_starts b blobs) = S (length blobs) ∧ head (blob_starts b blobs) = Some b ∧
  StronglySorted Z.le (blob_starts b blobs) ∧ last (blob_starts b blobs) = Some (b + len (concat blobs)) ∧
  Forall (λ v, b ≤ v ≤ b + len (concat blobs)) (blob_starts b blobs).
Proof.
  revert b. induction blobs as [|x blobs IH]; intros b.
  { simpl. rewrite len_nil, Z.add_0_r. split_and!; try done; [repeat constructor|]. repeat constructor; lia. }
  destruct (IH (b + len x)) as (H1 & H2 & H3 & H4 & H5). pose proof (len_nonneg x).
  cbn [blob_starts concat]. rewrite len_app, Z.add_assoc. split_and!.
  - simpl. by rewrite H1.
  - done.
  - constructor; [done|]. eapply Forall_impl; [exact H5|]. simpl. lia.
  - rewrite <- H4. destruct (blob_starts (b + len x) blobs); [done|]. by rewrite last_cons_cons.
  - constructor; [pose proof (len_nonneg (concat blobs)); lia|]. eapply Forall_impl; [exact H5|]. simpl. lia.
Qed.

Lemma table_bytes_len (w : nat) vs : len (concat (le_bytes w <$> vs)) = Z.of_nat w * len vs.
Proof.
  induction vs as [|v vs IH]; [change (0 = Z.of_nat w * 0); lia|].
  rewrite fmap_cons. cbn [concat]. rewrite len_app, le_bytes_len, IH, len_cons. lia.
Qed.

(** The [i]th blob lies between the [i]th and the next offset. *)
Lemma blob_starts_lookup b blobs i :
  blob_starts b blobs !! i = (if decide (i ≤ length blobs)%nat then Some (b + len (concat (take i blobs))) else None).
Proof.
  revert b i. induction blobs as [|x blobs IH]; intros b [|i]; simpl; try (by rewrite ?len_nil, ?Z.add_0_r).
  rewrite IH. repeat case_decide; try lia; [|done]. by rewrite len_app, Z.add_assoc.
Qed.

Lemma parse_blob_offsets_iff decoded extended ci max_blob_count offsets :
  slice_ok decoded → 0 ≤ max_blob_count ≤ u32_max →
  parse_blob_offsets decoded extended ci max_blob_count = Ok offsets ↔
  ∃ blobs, decoded = cluster_bytes extended blobs ∧ offsets = table_of extended blobs ∧
    len blobs ≤ max_blob_count ∧ len decoded < 2 ^ (8 * Z.of_nat (offset_width extended)).
Proof.
  intros Hd Hmax. unfold parse_blob_offsets, u64_add.
  set (w := offset_width extended). assert ((if extended then 8 else 4) = Z.of_nat w) as -> by by destruct extended.
  assert (0 < Z.of_nat w) as Hw by (subst w; destruct extended; simpl; lia). split.
  - intros ([] & Hlen%fail_if_Ok & (first & Hfirst & ([] & Hf%fail_if_Ok & (mo & [-> _]%need_Ok%checked_add_Some &
      ([] & Hc%fail_if_Ok & (offs & Hoffs & ([] & Hlast%fail_if_Ok & [= <-])%bind_Ok)%bind_Ok)%bind_Ok)%bind_Ok)%bind_Ok)%bind_Ok)%bind_Ok.
    apply read_offset_iff in Hfirst as [Hfirst Hh0]; [|done|done]. fold w in Hfirst, Hh0.
    apply orb_false_iff in Hf as [Hf Hf3]. apply orb_false_iff in Hf as [Hf1 Hf2]. bool_prop.
    apply blob_offset_loop_iff in Hoffs as (new & Hnew & Hn & Hh & Hr1 & Hr2 & Hs); [|done|lia|lia|constructor].
    simpl in Hnew. subst new. fold w in Hh, Hr1.
    assert (first = Z.of_nat w * len offs) as Hfl.
    { unfold len. rewrite Hn, Z2Nat.id by (apply Z.div_pos; lia). by apply Z_div_exact_full_2; [lia|]. }
    change (0 * Z.of_nat w) with 0 in Hh. destruct offs as [|a offs]; [done|].
    assert (a = first) as ->.
    { rewrite fmap_cons in Hh. cbn [concat] in Hh. apply here_app in Hh as [[_ Ha] _]; [|lia]. destruct Hh0 as [_ Hf0].
      rewrite le_bytes_len in Ha, Hf0. rewrite Ha in Hf0. apply Forall_cons in Hr1 as [Hr1 _].
      rewrite <- (le_value_le_bytes w a), <- (le_value_le_bytes w first) by done. by rewrite Hf0. }
    destruct (cut_spec decoded first offs (len decoded)) as (H1 & H2 & H3); [lia|done|done|done|].
    exists (cut decoded (first :: offs)). unfold cluster_bytes, table_of. fold w.
    assert (len (cut decoded (first :: offs)) + 1 = len (first :: offs)) as Hlc by (rewrite H3, len_cons; lia).
    rewrite Hlc, <- Hfl, H1, H2. split_and!; [|done| |].
    + destruct Hh as [_ Hh]. rewrite table_bytes_len, <- Hfl, Z.add_0_l in Hh. rewrite <- Hh. rewrite <- sub_list_split by lia. by rewrite sub_list_all.
    + rewrite Hfl, Z.mul_comm, Z.div_mul in Hc by lia. lia.
    + apply last_Some_elem_of in Hlast. rewrite Forall_forall in Hr1. by apply Hr1.
  - intros (blobs & Hdec & -> & Hbl & Hl). unfold table_of. fold w.
    set (first := Z.of_nat w * (len blobs + 1)). pose proof (len_nonneg blobs).
    destruct (blob_starts_facts first blobs) as (Hn & Hhd & Hs & Hlast & Hr). set (T := blob_starts first blobs) in *.
    assert (len T = len blobs + 1) as HT by (unfold len; lia).
    assert (decoded = concat (le_bytes w <$> T) ++ concat blobs) as Hdec' by done. clear Hdec.
    assert (len decoded = first + len (concat blobs)) as Hdl by (rewrite Hdec', len_app, table_bytes_len, HT; done).
    assert (here decoded 0 (concat (le_bytes w <$> T))) as Hh.
    { apply here_drop; [done|]. split; [apply len_nonneg|]. exists (concat blobs). by rewrite Hdec'. }
    pose proof (len_nonneg (concat blobs)). assert (Z.of_nat w ≤ first) by (subst first; nia).
    destruct T as [|t0 T']; [done|]. injection Hhd as ->.
    rewrite fail_if_false by (apply Z.ltb_ge; lia). simpl.
    rewrite (proj2 (read_offset_iff extended decoded 0 first Hd ltac:(done))).
    2: { fold w. split; [lia|]. rewrite fmap_cons in Hh. cbn [concat] in Hh. by apply here_app in Hh as [? _]. }
    simpl. assert (first mod Z.of_nat w = 0) as Hmod by (subst first; rewrite Z.mul_comm; apply Z_mod_mult).
    assert (first / Z.of_nat w = len blobs + 1) as Hdiv by (subst first; rewrite Z.mul_comm; apply Z.div_mul; lia).
    rewrite Hmod, Hdiv. rewrite fail_if_false by (rewrite !(proj2 (Z.ltb_ge _ _)) by lia; done). simpl.
    rewrite (need_is _ _ (max_blob_count + 1)) by (apply checked_add_is; unfold u64_max, u32_max in *; lia). simpl.
    rewrite fail_if_false by (apply Z.ltb_ge; lia). simpl.
    assert (blob_offset_loop decoded extended ci (Z.of_nat w) first (Z.to_nat (len blobs + 1)) 0 [] = Ok (first :: T')) as ->.
    { apply (blob_offset_loop_iff decoded extended); [done|done|lia|constructor|].
      exists (first :: T'). split; [done|]. split; [unfold len in *; lia|]. split; [done|].
      rewrite Hdl. split; [|split; [done|done]]. eapply Forall_impl; [exact Hr|]. fold w. simpl. intros v ?. lia. }
    simpl. rewrite fail_if_false; [done|]. apply negb_false_iff, bool_decide_eq_true. by rewrite Hlast, Hdl.
Qed.

Lemma blob_exact extended blobs codec i ci max_blob_bytes :
  0 ≤ i ≤ u32_max →
  blob {| codec := codec; decoded := cluster_bytes extended blobs; blob_offsets := table_of extended blobs |} i ci max_blob_bytes =
  match blobs !! Z.to_nat i with
  | None => Err (Fail (InvalidCluster ci "blob index is outside the cluster offset table"))
  | Some b => if max_blob_bytes <? len b then Err (Fail ArticleLimitExceeded) else Ok b
  end.
Proof.
  intros Hi. unfold blob, u64_add. rewrite (need_is (checked_add u64_max i 1) _ (i + 1)) by (apply checked_add_is; unfold u64_max, u32_max in *; lia).
  simpl. unfold table_of. set (w := offset_width extended). set (first := Z.of_nat w * (len blobs + 1)).
  replace (Z.to_nat (i + 1)) with (S (Z.to_nat i)) by lia. set (k := Z.to_nat i). rewrite !blob_starts_lookup.
  destruct (blobs !! k) as [b|] eqn:Hb.
  - apply lookup_lt_Some in Hb as Hlt. rewrite !decide_True by lia. simpl.
    assert (concat (take (S k) blobs) = concat (take k blobs) ++ b) as Hsk.
    { rewrite (take_S_r _ _ b) by done. by rewrite concat_app; simpl; rewrite app_nil_r. }
    assert (get_slice (cluster_bytes extended blobs) (first + len (concat (take k blobs))) (first + len (concat (take (S k) blobs))) = Some b) as ->.
    { pose proof (len_nonneg (concat (take k blobs))). pose proof (len_nonneg blobs). rewrite Hsk, len_app, Z.add_assoc. apply here_slice; [subst first; lia|].
      split; [apply len_nonneg|]. split; [done|]. unfold cluster_bytes. fold w.
      assert (len (concat (le_bytes w <$> table_of extended blobs)) = first) as Hft.
      { rewrite table_bytes_len. unfold table_of. fold w first. unfold len. rewrite (proj1 (blob_starts_facts first blobs)). subst first. unfold len. lia. }
      rewrite <- (take_drop k blobs) at 2. rewrite (drop_S _ _ _ Hb), concat_app. cbn [concat].
      apply here_drop; [subst first; lia|]. split.
      - rewrite !len_app, Hft. pose proof (len_nonneg b). pose proof (len_nonneg (concat (drop (S k) blobs))). lia.
      - exists (concat (drop (S k) blobs)). rewrite app_assoc. apply drop_app_length'. rewrite length_app. unfold len in *. lia. }
    simpl. by destruct (max_blob_bytes <? len b).
  - apply lookup_ge_None in Hb. rewrite (decide_False (P:=(S k ≤ _)%nat)) by lia. by case_decide.
Qed.

(** C39: A decoded cluster is accepted exactly if it is an offset table followed by the blobs
    it delimits, and then the blob of an index is that blob, the one error for an index
    out of range, the other for a blob over the limit. *)
Theorem zim_cluster_blobs_exact decoded extended ci max_blob_count offsets :
  slice_ok decoded → 0 ≤ max_blob_count ≤ u32_max →
  parse_blob_offsets decoded extended ci max_blob_count = Ok offsets ↔
  ∃ blobs, decoded = cluster_bytes extended blobs ∧ offsets = table_of extended blobs ∧
    len blobs ≤ max_blob_count ∧ len decoded < 2 ^ (8 * Z.of_nat (offset_width extended)) ∧
    ∀ codec i max_blob_bytes, 0 ≤ i ≤ u32_max →
      blob {| codec := codec; decoded := decoded; blob_offsets := offsets |} i ci max_blob_bytes =
      match blobs !! Z.to_nat i with
      | None => Err (Fail (InvalidCluster ci "blob index is outside the cluster offset table"))
      | Some b => if max_blob_bytes <? len b then Err (Fail ArticleLimitExceeded) else Ok b
      end.
Proof.
  intros Hd Hm. rewrite (parse_blob_offsets_iff _ _ _ _ _ Hd Hm). split.
  - intros (blobs & -> & -> & ? & ?). exists blobs. split_and!; try done. intros. by apply blob_exact.
  - intros (blobs & ? & ? & ? & ? & _). by exists blobs.
Qed.

(** ** Counting *)

Lemma count_cons {A} (p : A → bool) x l : count p (x :: l) = (if p x then 1 else 0) + count p l.
Proof. unfold count. simpl. destruct (p x); rewrite ?len_cons; lia. Qed.

Lemma count_nonneg {A} (p : A → bool) l : 0 ≤ count p l.
Proof. apply len_nonneg. Qed.

Lemma saturating_add_is max a b : a + b ≤ max → saturating_add max a b = a + b.
Proof. unfold saturating_add. lia. Qed.

(** What the loop over the directory has done: a class for every entry, counted once. *)
Record collected (mimes : list text) (limits : ZimLimits) (all : list DirectoryEntry) (start : list Candidate)
    (o : ZimOmissions) (classes : list EntryClass) (cs : list Candidate) (o' : ZimOmissions) : Prop := {
  collected_redirects : redirects o' = redirects o + count_class ClassRedirect classes;
  collected_linktargets : linktargets_or_deleted o' = linktargets_or_deleted o + count_class ClassLinktarget classes;
  collected_namespaces : non_article_namespaces o' = non_article_namespaces o + count_class ClassNamespace classes;
  collected_mimes : non_text_mime_types o' = non_text_mime_types o + count_class ClassMime classes;
  collected_texts : invalid_or_empty_text o' = invalid_or_empty_text o;
  collected_limit : len cs + document_limit o' = len start + document_limit o + count is_text classes;
  collected_more : document_limit o ≤ document_limit o';
  collected_candidates : Forall (candidate_of mimes all) cs;
  collected_order : StronglySorted (λ c d, entry_index c < entry_index d) cs;
  collected_bound : len cs ≤ max_candidate_entries limits;
  collected_clusters : Z.of_nat (size (clusters_of cs)) ≤ max_decoded_clusters limits;
}.

Lemma clusters_of_snoc cs c : clusters_of (cs ++ [c]) = {[cluster_index c]} ∪ clusters_of cs.
Proof. unfold clusters_of. rewrite map_app, list_to_set_app_L. simpl. set_solver. Qed.

Lemma collected_step mimes limits all cands cands' o o1 cl classes cs o' :
  (redirects o1, linktargets_or_deleted o1, non_article_namespaces o1, non_text_mime_types o1, invalid_or_empty_text o1) =
    (redirects o + (if bool_decide (cl = ClassRedirect) then 1 else 0),
     linktargets_or_deleted o + (if bool_decide (cl = ClassLinktarget) then 1 else 0),
     non_article_namespaces o + (if bool_decide (cl = ClassNamespace) then 1 else 0),
     non_text_mime_types o + (if bool_decide (cl = ClassMime) then 1 else 0), invalid_or_empty_text o) →
  len cands' + document_limit o1 = len cands + document_limit o + (if is_text cl then 1 else 0) →
  document_limit o ≤ document_limit o1 →
  collected mimes limits all cands' o1 classes cs o' → collected mimes limits all cands o (cl :: classes) cs o'.
Proof.
  intros [= E1 E2 E3 E4 E5] E6 E7 []. split; unfold count_class in *; rewrite ?count_cons; try done; cbv beta; lia.
Qed.

(** The loop passes over an entry of class [cl], counted by [f]. *)
Ltac skip_class Hskip H cl f :=
  let classes := fresh "classes" in let Hf := fresh "Hf" in let Hcol := fresh "Hcol" in
  edestruct (Hskip cl f eq_refl H) as (classes & Hf & Hcol);
  [unfold counters_ok, omitted; simpl; rewrite saturating_add_is by lia; lia
  |eexists; split; [exact Hf|]; eapply collected_step; [| | |exact Hcol]; simpl; rewrite ?saturating_add_is by lia; [|lia..];
   repeat f_equal; lia].

Lemma candidate_loop_spec mimes limits pre entries cands o cs o' :
  candidate_loop mimes limits entries (len pre) cands (clusters_of cands) o = Ok (cs, o') →
  counters_ok o (len entries) → Forall (candidate_of mimes (pre ++ entries)) cands →
  Forall (λ c, entry_index c < len pre) cands → StronglySorted (λ c d, entry_index c < entry_index d) cands →
  len cands ≤ max_candidate_entries limits → Z.of_nat (size (clusters_of cands)) ≤ max_decoded_clusters limits →
  ∃ classes, Forall2 (λ e c, entry_class mimes e = Some c) entries classes ∧
    collected mimes limits (pre ++ entries) cands o classes cs o'.
Proof.
  revert pre cands o. induction entries as [|e entries IH]; intros pre cands o; simpl.
  { intros [= <- <-] _ Hc _ Hs Hm Hd. exists []. rewrite app_nil_r in *. split; [constructor|].
    split; unfold count_class, count; cbn [List.filter]; change (len []) with 0; (done || lia). }
  intros (i & [-> _]%need_Ok%try_from_Some & H)%bind_Ok Hok Hc Hi Hs Hm Hd.
  assert (∀ cl cands' o1, entry_class mimes e = Some cl →
    candidate_loop mimes limits entries (len pre + 1) cands' (clusters_of cands') o1 = Ok (cs, o') →
    counters_ok o1 (len entries) → Forall (candidate_of mimes (pre ++ e :: entries)) cands' →
    Forall (λ c, entry_index c < len pre + 1) cands' → StronglySorted (λ c d, entry_index c < entry_index d) cands' →
    len cands' ≤ max_candidate_entries limits → Z.of_nat (size (clusters_of cands')) ≤ max_decoded_clusters limits →
    ∃ classes, Forall2 (λ e c, entry_class mimes e = Some c) (e :: entries) (cl :: classes) ∧
      collected mimes limits (pre ++ e :: entries) cands' o1 classes cs o') as Hgo.
  { intros cl cands' o1 Hcl Hrun Hok1 Hc1 Hi1 Hs1 Hm1 Hd1.
    destruct (IH (pre ++ [e]) cands' o1) as (classes & Hf & Hcol);
      rewrite <- ?app_assoc, ?len_app, ?len_cons, ?len_nil, ?Z.add_0_r in *; try done.
    exists classes. split; [by constructor|done]. }
  assert (∀ cl o1, entry_class mimes e = Some cl →
    candidate_loop mimes limits entries (len pre + 1) cands (clusters_of cands) o1 = Ok (cs, o') →
    counters_ok o1 (len entries) →
    ∃ classes, Forall2 (λ e c, entry_class mimes e = Some c) (e :: entries) (cl :: classes) ∧
      collected mimes limits (pre ++ e :: entries) cands o1 classes cs o') as Hskip.
  { intros cl o1 Hcl Hrun Hok1. apply (Hgo cl cands o1); try done. eapply Forall_impl; [exact Hi|]. simpl. lia. }
  rewrite len_cons in Hok. pose proof (len_nonneg entries) as Hne. destruct Hok as (R1 & R2 & R3 & R4 & R5 & R6 & R7). unfold omitted in R7.
  unfold entry_class in *. destruct (kind e) as [m ci bi| |] eqn:Hkind.
  2: { skip_class Hskip H ClassRedirect (omit_redirect o). }
  2: { skip_class Hskip H ClassLinktarget (omit_linktarget o). }
  destruct (negb _) eqn:Hns.
  { skip_class Hskip H ClassNamespace (omit_namespace o). }
  apply bind_Ok in H as (mime & Hmime%need_Ok & H). rewrite Hmime in *.
  destruct (classify_text_mime mime) as [k|] eqn:Hk; [|skip_class Hskip H ClassMime (omit_mime o)].
  destruct (Z.leb_spec (max_candidate_entries limits) (len cands)) as [|Hroom].
  { skip_class Hskip H (ClassText k) (omit_limit 1 o). }
  destruct (_ && _) eqn:Hcl in H.
  { skip_class Hskip H (ClassText k) (omit_limit 1 o). }
  set (c := {| entry_index := _ |}) in H.
  change ({[ci]} ∪ clusters_of cands) with ({[cluster_index c]} ∪ clusters_of cands) in H. rewrite <- clusters_of_snoc in H.
  destruct (Hgo (ClassText k) (cands ++ [c]) o eq_refl H) as (classes & Hf & Hcol).
  - unfold counters_ok, omitted. lia.
  - apply Forall_app. split; [done|]. constructor; [|done]. exists e, m. cbn [entry_index cluster_index blob_index text_kind c].
    split; [apply len_nonneg|]. split.
    + unfold len. rewrite Nat2Z.id, lookup_app_r, Nat.sub_diag by lia. done.
    + split; [done|]. unfold entry_class. by rewrite Hkind, Hns, Hmime, Hk.
  - apply Forall_app. split; [eapply Forall_impl; [exact Hi|]; simpl; lia|]. constructor; [simpl; lia|done].
  - apply StronglySorted_snoc; done.
  - rewrite len_app, len_cons, len_nil. lia.
  - rewrite clusters_of_snoc. cbn [cluster_index c]. apply andb_false_iff in Hcl as [Hcl|Hcl]; bool_prop.
    + apply dec_stable in Hcl. by rewrite (subseteq_union_1_L {[ci]} (clusters_of cands)) by set_solver.
    + pose proof (size_union_alt {[ci]} (clusters_of cands)) as Hu. rewrite union_comm_L, size_union_alt.
      assert (size ({[ci]} ∖ clusters_of cands) ≤ 1)%nat; [|lia].
      rewrite <- (size_singleton (C:=gset Z) ci). apply subseteq_size. set_solver.
  - eexists. split; [exact Hf|]. eapply collected_step; [| | |exact Hcol]; simpl; [repeat f_equal; lia| |lia].
    rewrite len_app, len_cons, len_nil. lia.
Qed.

(** The directory is sorted into candidates and omissions, each entry once. *)
Lemma collect_candidates_spec parsed limits cs o :
  len (entries parsed) ≤ u32_max → 0 ≤ max_candidate_entries limits → 0 ≤ max_decoded_clusters limits →
  collect_candidates parsed limits omissions_default = Ok (cs, o) →
  ∃ classes,
    Forall2 (λ e c, entry_class (mime_types parsed) e = Some c) (entries parsed) classes ∧
    redirects o = count_class ClassRedirect classes ∧ linktargets_or_deleted o = count_class ClassLinktarget classes ∧
    non_article_namespaces o = count_class ClassNamespace classes ∧ non_text_mime_types o = count_class ClassMime classes ∧
    invalid_or_empty_text o = 0 ∧ 0 ≤ document_limit o ∧ len cs + document_limit o = count is_text classes ∧
    Forall (candidate_of (mime_types parsed) (entries parsed)) cs ∧
    StronglySorted (λ c d, entry_index c < entry_index d) cs ∧
    len cs ≤ max_candidate_entries limits ∧ Z.of_nat (size (clusters_of cs)) ≤ max_decoded_clusters limits.
Proof.
  intros Hn Hm Hd H. destruct (candidate_loop_spec (mime_types parsed) limits [] (entries parsed) [] omissions_default cs o H)
    as (classes & Hf & []); [|constructor..|done|done|].
  - unfold counters_ok, omitted, u64_max, u32_max in *. simpl. lia.
  - exists classes. unfold omissions_default in *. cbn in *. split_and!; try done; lia.
Qed.

(** ** The selection *)

Lemma group_perm candidates : concat (snd <$> group candidates) ≡ₚ candidates.
Proof.
  assert (∀ ks l, NoDup ks → (∀ c, c ∈ l → cluster_index c ∈ ks) →
    concat ((λ k, List.filter (λ x, cluster_index x =? k) l) <$> ks) ≡ₚ l) as H.
  { induction ks as [|k ks IH]; intros l Hn Hin.
    - destruct l as [|c l]; [done|]. by specialize (Hin c ltac:(by left)) as ?%not_elem_of_nil.
    - apply NoDup_cons in Hn as [Hk Hn]. rewrite fmap_cons. cbn [concat].
      set (p := λ x, cluster_index x =? k).
      assert (l ≡ₚ List.filter p l ++ List.filter (λ x, negb (p x)) l) as Hl.
      { clear. induction l as [|x l IH]; simpl; [done|]. destruct (p x); simpl; [by constructor|].
        rewrite IH at 1. by apply Permutation_middle. }
      etrans; [|symmetry; exact Hl]. apply Permutation_app_head.
      etrans; [|apply (IH (List.filter (λ x, negb (p x)) l) Hn)].
      + match goal with |- concat ?x ≡ₚ concat ?y => assert (x = y) as -> end; [|done].
        apply list_fmap_ext. intros i k' Hk'. apply list_elem_of_lookup_2 in Hk'. clear Hl Hin.
        induction l as [|x l IHl]; simpl; [done|]. unfold p at 1.
        destruct (Z.eqb_spec (cluster_index x) k); simpl; rewrite IHl; [|done].
        destruct (Z.eqb_spec (cluster_index x) k'); [congruence|done].
      + intros c Hc. apply list_elem_of_In, filter_In in Hc as [Hc Hp]. apply list_elem_of_In in Hc.
        specialize (Hin c Hc) as [Heq|?]%elem_of_cons; [|done]. unfold p in Hp. by rewrite Heq, Z.eqb_refl in Hp. }
  unfold group. rewrite <- list_fmap_compose. apply H.
  - rewrite merge_sort_Permutation. apply NoDup_elements.
  - intros c Hc. rewrite merge_sort_Permutation. apply elem_of_elements, elem_of_list_to_set. by apply list_elem_of_fmap_2.
Qed.

Lemma selected_bytes_insert m i b : m !! i = None → selected_bytes (<[i:=b]> m) = len b + selected_bytes m.
Proof. intros Hi. unfold selected_bytes. rewrite map_fold_insert_L; [done| |done]. intros. lia. Qed.

Section Selection.
Context (zstd : list Z → Z → result string (list (result string (list Z)) * Z)).
Context (file : list Z) (parsed : ParsedArchive) (limits : ZimLimits) (o : ZimOmissions).

(** What the candidates seen so far have become. *)
Record selecting (seen : list Candidate) (s : Selection) : Prop := {
  selecting_classes : (redirects (omissions s), linktargets_or_deleted (omissions s), non_article_namespaces (omissions s),
    non_text_mime_types (omissions s)) = (redirects o, linktargets_or_deleted o, non_article_namespaces o, non_text_mime_types o);
  selecting_counts : 0 ≤ invalid_or_empty_text (omissions s) ∧ 0 ≤ document_limit (omissions s) ∧
    Z.of_nat (size (selected s)) + invalid_or_empty_text (omissions s) + document_limit (omissions s) =
    len seen + invalid_or_empty_text o + document_limit o;
  selecting_bytes : total_blob_bytes s = selected_bytes (selected s);
  selecting_limit : total_blob_bytes s ≤ max_total_selected_blob_bytes limits;
  selecting_decoded : total_decoded s ≤ max_total_decoded_cluster_bytes limits;
  selecting_blobs e b : selected s !! e = Some b → ∃ c, c ∈ seen ∧ entry_index c = e ∧ blob_of zstd file parsed limits c b;
}.

Lemma blob_loop_spec offset upper cluster index cands seen s s' :
  cluster_offsets parsed !! Z.to_nat index = Some offset → next_anchor (anchors parsed) offset = Ok upper →
  read_cluster zstd file offset upper index limits = Ok cluster →
  Forall (λ c, cluster_index c = index) cands → NoDup (map entry_index (seen ++ cands)) →
  len seen + len cands + invalid_or_empty_text o + document_limit o ≤ u64_max →
  selecting seen s → blob_loop cluster index limits cands s = Ok s' →
  selecting (seen ++ cands) s' ∧ decoded_cluster_count s' = decoded_cluster_count s ∧
  decode_budget_exhausted s' = decode_budget_exhausted s.
Proof.
  intros Hoff Hup Hcl. revert seen s. induction cands as [|c cands IH]; intros seen s Hci Hnd Hmax Hs; simpl.
  { intros [= <-]. by rewrite app_nil_r. }
  apply Forall_cons in Hci as [Hc Hci]. rewrite len_cons in Hmax. pose proof (len_nonneg cands). pose proof (len_nonneg seen).
  assert (len (seen ++ [c]) = len seen + 1) as Hsn by by rewrite len_app.
  assert (∀ s1, selecting (seen ++ [c]) s1 → decoded_cluster_count s1 = decoded_cluster_count s →
    decode_budget_exhausted s1 = decode_budget_exhausted s → blob_loop cluster index limits cands s1 = Ok s' →
    selecting (seen ++ c :: cands) s' ∧ decoded_cluster_count s' = decoded_cluster_count s ∧
    decode_budget_exhausted s' = decode_budget_exhausted s) as Hgo.
  { intros s1 Hs1 Hd1 He1 Hr. destruct (IH (seen ++ [c]) s1) as (? & ? & ?); try done.
    - by rewrite <- app_assoc.
    - rewrite len_app, len_cons, len_nil. lia.
    - rewrite <- app_assoc in *. split; [done|]. split; congruence. }
  destruct Hs as [S1 (S2 & S3 & S4) S5 S6 S7 S8].
  assert (∀ e b, selected s !! e = Some b → ∃ c', c' ∈ seen ++ [c] ∧ entry_index c' = e ∧ blob_of zstd file parsed limits c' b) as S8'.
  { intros e b He. destruct (S8 e b He) as (c' & ? & ? & ?). exists c'. split; [apply elem_of_app; by left|done]. }
  destruct (blob _ _ _ _) as [b|[| |err]] eqn:Hb; [| done | done |destruct err; try done].
  - intros (next & [-> _]%need_Ok%checked_add_Some & H')%bind_Ok. destruct (Z.ltb_spec (max_total_selected_blob_bytes limits) (total_blob_bytes s + len b)).
    + refine (Hgo _ _ _ _ H'); [|done|done]. split; simpl; try done. rewrite Hsn. unfold saturating_add. lia.
    + assert (selected s !! entry_index c = None) as Hnone.
      { destruct (selected s !! entry_index c) as [b'|] eqn:He; [|done]. destruct (S8 _ _ He) as (c' & Hc' & Heq & _).
        exfalso. rewrite map_app, map_cons in Hnd. apply NoDup_app in Hnd as (_ & Hnd & _). apply (Hnd (entry_index c)); [|by left].
        rewrite <- Heq. by apply list_elem_of_fmap_2. }
      refine (Hgo _ _ _ _ H'); [|done|done]. split; simpl; try done.
      * rewrite map_size_insert_None, Hsn by done. lia.
      * rewrite selected_bytes_insert by done. lia.
      * intros e b' [[<- <-]|[? He]]%lookup_insert_Some; [|by apply S8'].
        exists c. split; [apply elem_of_app; right; by left|]. split; [done|]. exists offset, upper, cluster. by subst index.
  - intros H'. refine (Hgo _ _ _ _ H'); [|done|done]. split; simpl; try done. rewrite Hsn. unfold saturating_add. lia.
Qed.

Lemma cluster_loop_spec groups seen s s' :
  Forall (λ g, Forall (λ c, cluster_index c = g.1) g.2) groups →
  NoDup (map entry_index (seen ++ concat (snd <$> groups))) →
  len seen + len (concat (snd <$> groups)) + invalid_or_empty_text o + document_limit o ≤ u64_max →
  selecting seen s → cluster_loop zstd file parsed limits groups s = Ok s' →
  selecting (seen ++ concat (snd <$> groups)) s' ∧ decoded_cluster_count s' ≤ decoded_cluster_count s + len groups.
Proof.
  revert seen s. induction groups as [|[index cands] groups IH]; intros seen s Hg Hnd Hmax Hs.
  { simpl. intros [= <-]. rewrite app_nil_r. split; [done|]. change (len []) with 0. lia. }
  rewrite fmap_cons in Hnd, Hmax |- *. cbn [concat snd cluster_loop] in *.
  apply Forall_cons in Hg as [Hc Hg]. cbn [fst snd] in Hc.
  rewrite len_app in Hmax. pose proof (len_nonneg cands). pose proof (len_nonneg (concat (snd <$> groups))). pose proof (len_nonneg seen).
  assert (len (seen ++ cands) = len seen + len cands) as Hsn by apply len_app.
  assert (∀ s1, selecting (seen ++ cands) s1 → decoded_cluster_count s1 ≤ decoded_cluster_count s + 1 →
    cluster_loop zstd file parsed limits groups s1 = Ok s' →
    selecting (seen ++ cands ++ concat (snd <$> groups)) s' ∧
    decoded_cluster_count s' ≤ decoded_cluster_count s + len ((index, cands) :: groups)) as Hgo.
  { intros s1 Hs1 Hd1 Hr. rewrite len_cons. destruct (IH (seen ++ cands) s1) as [Hsel Hd]; try done.
    - by rewrite <- app_assoc.
    - lia.
    - rewrite <- app_assoc in Hsel. split; [done|lia]. }
  assert (∀ s1, (redirects (omissions s1), linktargets_or_deleted (omissions s1), non_article_namespaces (omissions s1),
      non_text_mime_types (omissions s1), invalid_or_empty_text (omissions s1), document_limit (omissions s1)) =
    (redirects (omissions s), linktargets_or_deleted (omissions s), non_article_namespaces (omissions s),
      non_text_mime_types (omissions s), invalid_or_empty_text (omissions s), saturating_add u64_max (document_limit (omissions s)) (len cands)) →
    selected s1 = selected s → total_blob_bytes s1 = total_blob_bytes s → total_decoded s1 = total_decoded s → selecting (seen ++ cands) s1) as Hskip.
  { destruct Hs as [S1 (S2 & S3 & S4) S5 S6 S7 S8]. intros s1 [= E1 E2 E3 E4 E5 E6] Hsel Hb Hd.
    split; rewrite ?Hsel, ?Hb, ?Hd, ?E1, ?E2, ?E3, ?E4, ?E5, ?E6, ?Hsn; try done.
    - unfold saturating_add. lia.
    - intros e b He. destruct (S8 e b He) as (c & ? & ?). exists c. split; [apply elem_of_app; by left|done]. }
  destruct (decode_budget_exhausted s) eqn:Hex.
  { intros Hr. refine (Hgo _ _ _ Hr); [by apply Hskip|simpl; lia]. }
  intros (offset & Hoff%need_Ok & (upper & Hup & (cluster & Hcl & (next & [-> _]%need_Ok%checked_add_Some & Hr)%bind_Ok)%bind_Ok)%bind_Ok)%bind_Ok.
  destruct (Z.ltb_spec (max_total_decoded_cluster_bytes limits) (total_decoded s + len (decoded cluster))).
  - refine (Hgo _ _ _ Hr); [by apply Hskip|]. simpl. unfold saturating_add. lia.
  - apply bind_Ok in Hr as (s1 & Hb & Hr). eapply blob_loop_spec in Hb as (Hs1 & Hd1 & _); [|done..| | |].
    + refine (Hgo _ Hs1 _ Hr). rewrite Hd1. simpl. unfold saturating_add. lia.
    + rewrite app_assoc, map_app in Hnd. by apply NoDup_app in Hnd as [? _].
    + lia.
    + destruct Hs as [S1 S2 S5 S6 S7 S8]. by split.
Qed.
End Selection.

(** Every candidate is selected with its own blob or counted as omitted. *)
Lemma read_selected_blobs_spec zstd file parsed candidates limits o s :
  NoDup (map entry_index candidates) → 0 ≤ max_total_selected_blob_bytes limits →
  0 ≤ max_total_decoded_cluster_bytes limits → counters_ok o (len candidates) →
  read_selected_blobs zstd file parsed candidates limits o = Ok s →
  (∀ e b, selected s !! e = Some b → ∃ c, c ∈ candidates ∧ entry_index c = e ∧ blob_of zstd file parsed limits c b) ∧
  Z.of_nat (size (selected s)) + omitted (omissions s) = len candidates + omitted o ∧
  (redirects (omissions s), linktargets_or_deleted (omissions s), non_article_namespaces (omissions s), non_text_mime_types (omissions s))
    = (redirects o, linktargets_or_deleted o, non_article_namespaces o, non_text_mime_types o) ∧
  0 ≤ invalid_or_empty_text (omissions s) ∧ 0 ≤ document_limit (omissions s) ∧
  total_blob_bytes s = selected_bytes (selected s) ∧ total_blob_bytes s ≤ max_total_selected_blob_bytes limits ∧
  total_decoded s ≤ max_total_decoded_cluster_bytes limits ∧
  decoded_cluster_count s ≤ Z.of_nat (size (clusters_of candidates)).
Proof.
  intros Hnd Hb Hd (C1 & C2 & C3 & C4 & C5 & C6 & C7) H. pose proof (group_perm candidates) as Hp. unfold omitted in C7.
  eapply (cluster_loop_spec zstd file parsed limits o _ []) in H as [Hs Hdc].
  - simpl in Hs. destruct Hs as [S1 (S2 & S3 & S4) S5 S6 S7 S8]. unfold omitted. injection S1 as E1 E2 E3 E4.
    unfold len in S4. rewrite (Permutation_length Hp) in S4. fold (len candidates) in S4.
    split_and!; try done; [|lia|congruence|].
    + intros e b He. destruct (S8 e b He) as (c & Hc & ?). exists c. by rewrite <- Hp.
    + etrans; [exact Hdc|]. simpl. unfold group, len. rewrite length_fmap, merge_sort_Permutation. done.
  - unfold group. apply Forall_fmap, Forall_forall. intros k _. simpl. apply Forall_forall. intros c Hc.
    apply list_elem_of_In, filter_In in Hc as [_ Hc]. by apply Z.eqb_eq.
  - simpl. by rewrite Hp.
  - simpl. change (len []) with 0. unfold len. rewrite (Permutation_length Hp). fold (len candidates). lia.
  - by split.
Qed.

Lemma zim_cluster_blobs_exact_witness :
  slice_ok (cluster_bytes false [str "hi"; []; str "you"]) ∧
  ∃ blobs, cluster_bytes false [str "hi"; []; str "you"] = cluster_bytes false blobs ∧ [16; 18; 18; 21] = table_of false blobs.
Proof.
  assert (slice_ok (cluster_bytes false [str "hi"; []; str "you"])) as Hs by (apply slice_ok_check; vm_compute; reflexivity).
  split; [exact Hs|].
  destruct (zim_cluster_blobs_exact (cluster_bytes false [str "hi"; []; str "you"]) false 0 9 [16; 18; 18; 21] Hs) as [H _];
    [unfold u32_max; lia|].
  destruct H as (blobs & Hb & Ht & _); [vm_compute; reflexivity|]. exists blobs. split; [exact Hb|exact Ht].
Defined.
End ZimClusterTheorems.
