(* ===== verification/ZimText.v ===== *)
(** * ZimText: inert text of archive articles

    Models [information-native-backend-zim/src/text.rs]: the reduction of an article,
    plain or HTML, to bounded text ([extract_inert_text], [extract_html],
    [TextCollector], [decode_entity]). The cursors of the source stand at scalar
    boundaries, at the start of a match of an ASCII pattern or behind it: a cursor is
    the text behind it. *)

From S2P Require Import Prelude Bytes Text Utf8 ZimReader ZimClusters.
Local Open Scope Z_scope.

(** ** The collector *)

Record TextCollector := {
  output : text;
  max_bytes : Z;
  pending_space : bool;
  pending_break : bool;
  truncated : bool;
}.
Definition collector_new (max_bytes : Z) : TextCollector :=
  {| output := []; max_bytes := max_bytes; pending_space := false; pending_break := false; truncated := false |}.

Definition with_pending (space break : bool) (t : TextCollector) : TextCollector :=
  {| output := output t; max_bytes := max_bytes t; pending_space := space; pending_break := break; truncated := truncated t |}.
Definition with_truncated (t : TextCollector) : TextCollector :=
  {| output := output t; max_bytes := max_bytes t; pending_space := pending_space t; pending_break := pending_break t;
     truncated := true |}.
Definition with_output (o : text) (t : TextCollector) : TextCollector :=
  {| output := o; max_bytes := max_bytes t; pending_space := pending_space t; pending_break := pending_break t;
     truncated := truncated t |}.

Definition push_raw (c : Z) (t : TextCollector) : TextCollector :=
  match checked_add usize_max (str_len (output t)) (len_utf8 c) with
  | None => with_truncated t
  | Some next_len => if max_bytes t <? next_len then with_truncated t else with_output (output t ++ [c]) t
  end.

Definition push_char (c : Z) (t : TextCollector) : TextCollector :=
  if is_whitespace c then
    if (c =? 10) || (c =? 13) then with_pending false true t
    else if negb (pending_break t) then with_pending true (pending_break t) t
    else t
  else if is_control c then t
  else
    let nonempty := bool_decide (output t ≠ []) in
    let t := if pending_break t && nonempty then push_raw 10 t
             else if pending_space t && nonempty then push_raw 32 t
             else t in
    push_raw c (with_pending false false t).

Definition push_break (t : TextCollector) : TextCollector := with_pending false true t.

Record ExtractedText := { text_ : text; truncated_ : bool }.

Definition finish (t : TextCollector) : ExtractedText :=
  {| text_ := trim_end_by is_whitespace (output t); truncated_ := truncated t |}.

(** ** Entities *)

Definition digit_value (radix c : Z) : option Z :=
  let v := if in_range 48 57 c then Some (c - 48)
           else if in_range 97 122 c then Some (c - 87)
           else if in_range 65 90 c then Some (c - 55)
           else None in
  match v with Some d => if d <? radix then Some d else None | None => None end.

Fixpoint radix_loop (radix : Z) (digits : text) (acc : Z) : option Z :=
  match digits with
  | [] => Some acc
  | c :: digits =>
    d ← digit_value radix c ;
    m ← checked_mul u32_max acc radix ;
    n ← checked_add u32_max m d ;
    radix_loop radix digits n
  end.

(** [u32::from_str_radix] and [str::parse::<u32>]: digits, perhaps behind a plus sign *)
Definition from_str_radix (radix : Z) (src : text) : option Z :=
  let digits := match src with c :: src' => if c =? 43 then src' else src | [] => [] end in
  if bool_decide (digits = []) then None else radix_loop radix digits 0.

(** [char::from_u32] *)
Definition from_u32 (v : Z) : option Z :=
  if ((v <? 55296) || (57344 <=? v)) && (v <? 1114112) then Some v else None.

(** [iter().position(|byte| *byte == b)] *)
Fixpoint byte_position (b : Z) (l : list Z) : option Z :=
  match l with
  | x :: l => if x =? b then Some 0 else Z.succ <$> byte_position b l
  | [] => None
  end.

Definition entity_character (body : text) : option Z :=
  if bool_decide (body = str "amp") then Some 38
  else if bool_decide (body = str "apos") then Some 39
  else if bool_decide (body = str "gt") then Some 62
  else if bool_decide (body = str "lt") then Some 60
  else if bool_decide (body = str "nbsp") then Some 32
  else if bool_decide (body = str "quot") then Some 34
  else if starts_with body (str "#x") || starts_with body (str "#X") then
    v ← from_str_radix 16 (drop 2 body) ; from_u32 v
  else if starts_with body (str "#") then
    v ← from_str_radix 10 (drop 1 body) ; from_u32 v
  else None.

(** [decode_entity]: the character and the bytes it took *)
Definition decode_entity (value : text) : option (Z * Z) :=
  if negb (starts_with value (str "&")) then None
  else
    end_ ← byte_position 59 (take 16 (as_bytes value)) ;
    body ← str_get value 1 end_ ;
    c ← entity_character body ;
    consumed ← checked_add usize_max end_ 1 ;
    Some (c, consumed).

(** [TextCollector::push_text]: [fuel] bounds the steps; [&value[cursor..]] panics off a boundary. *)
Fixpoint push_text (fuel : nat) (rest : text) (t : TextCollector) : zim TextCollector :=
  match rest with
  | [] => Ok t
  | c :: rest' =>
    match fuel with
    | O => Err OutOfFuel
    | S fuel =>
      match decode_entity rest with
      | Some (e, consumed) =>
        behind ← ok_or (str_get rest consumed (str_len rest)) Panic ;
        push_text fuel behind (push_char e t)
      | None => push_text fuel rest' (push_char c t)
      end
    end
  end.

(** ** HTML *)

Definition is_suppressed_tag (name : text) : bool :=
  existsb (λ s, bool_decide (name = str s)) ["script"; "style"; "template"; "noscript"].

Definition is_block_tag (name : text) : bool :=
  existsb (λ s, bool_decide (name = str s))
    ["address"; "article"; "aside"; "blockquote"; "dd"; "div"; "dl"; "dt"; "figcaption"; "figure"; "footer";
     "h1"; "h2"; "h3"; "h4"; "h5"; "h6"; "header"; "hr"; "li"; "main"; "nav"; "ol"; "p"; "pre"; "section"; "table";
     "td"; "th"; "tr"; "ul"].

(** [input[cursor..].find(c)]: the text in front of the first [c], and from it on *)
Fixpoint find_char (c : Z) (t : text) : option (text * text) :=
  match t with
  | [] => None
  | x :: t' => if x =? c then Some ([], t)
               else match find_char c t' with Some (a, b) => Some (x :: a, b) | None => None end
  end.

(** [find] of a string: the text behind its first occurrence *)
Fixpoint find_behind (token t : text) : option text :=
  if starts_with t token then Some (drop (length token) t)
  else match t with
       | [] => None
       | _ :: t' => find_behind token t'
       end.

Definition is_ascii_whitespace (c : Z) : bool := (c =? 32) || (c =? 9) || (c =? 10) || (c =? 12) || (c =? 13).

(** [split(..).next()] *)
Fixpoint tag_word (t : text) : text :=
  match t with
  | c :: t => if is_ascii_whitespace c || (c =? 47) then [] else c :: tag_word t
  | [] => []
  end.

Definition tag_name (tag_body : text) : text :=
  to_ascii_lowercase (tag_word (trim_start (trim_start_by (λ c, c =? 47) tag_body))).

(** The loop of [extract_html] over the text behind the cursor *)
Fixpoint html_loop (fuel : nat) (input : text) (suppressed : option text) (t : TextCollector) : zim TextCollector :=
  match input with
  | [] => Ok t
  | _ :: _ =>
    match fuel with
    | O => Err OutOfFuel
    | S fuel =>
      match find_char 60 input with
      | None => match suppressed with None => push_text (length input) input t | Some _ => Ok t end
      | Some (before, open) =>
        t ← (match suppressed with None => push_text (length before) before t | Some _ => Ok t end) ;
        if starts_with open (str "<!--") then
          behind ← need (find_behind (str "-->") (drop 4 open)) MalformedHtml ;
          html_loop fuel behind suppressed t
        else
          '(tag, close) ← need (find_char 62 open) MalformedHtml ;
          let tag_body := trim (drop 1 tag) in
          let closing := starts_with tag_body (str "/") in
          let name := tag_name tag_body in
          let '(suppressed, t) :=
            match suppressed with
            | Some s => (if closing && bool_decide (name = s) then None else Some s, t)
            | None =>
              if negb closing && is_suppressed_tag name then (Some name, t)
              else (None, if is_block_tag name || bool_decide (name = str "br") then push_break t else t)
            end in
          html_loop fuel (drop 1 close) suppressed t
      end
    end
  end.

Definition extract_html (input : text) (t : TextCollector) : zim TextCollector :=
  html_loop (length input) input None t.

Definition extract_inert_text (bytes : list Z) (kind : ZimTextKind) (max_output_bytes : Z) : zim ExtractedText :=
  input ← need (from_utf8 bytes) InvalidArticleUtf8 ;
  let t := collector_new max_output_bytes in
  t ← (match kind with
       | PlainText => push_text (length input) input t
       | Html => extract_html input t
       end) ;
  Ok (finish t).

(** * Specification

    What the collector receives, and the text it stands for: every visible character
    with the gap in front of it, written as one newline, one space or nothing; the gap
    in front of the first is not written. *)

Inductive event := Char (c : Z) | Break.
Inductive gap := GapNone | GapSpace | GapBreak.

Definition feed (t : TextCollector) (e : event) : TextCollector :=
  match e with Char c => push_char c t | Break => push_break t end.

Definition event_gap (e : event) : option gap :=
  match e with
  | Break => Some GapBreak
  | Char c => if is_whitespace c then Some (if (c =? 10) || (c =? 13) then GapBreak else GapSpace) else None
  end.
Definition widen (g h : gap) : gap :=
  match g, h with GapBreak, _ | _, GapBreak => GapBreak | GapSpace, _ | _, GapSpace => GapSpace | _, _ => GapNone end.

Fixpoint annotate (g : gap) (es : list event) : list (gap * Z) :=
  match es with
  | [] => []
  | e :: es =>
    match event_gap e, e with
    | Some h, _ => annotate (widen g h) es
    | None, Char c => if is_control c then annotate g es else (g, c) :: annotate GapNone es
    | None, Break => annotate g es
    end
  end.

Definition gap_text (g : gap) : text := match g with GapNone => [] | GapSpace => [32] | GapBreak => [10] end.
Definition written (l : list (gap * Z)) : text := concat ((λ '(g, c), gap_text g ++ [c]) <$> l).
Definition normalize (es : list event) : text :=
  match annotate GapNone es with
  | [] => []
  | (_, c) :: l => c :: written l
  end.

(** A bounded rendering of events: all of it if it fits, and marked if it does not. *)
Definition bounded_text (max : Z) (es : list event) (x : ExtractedText) : Prop :=
  str_len (text_ x) ≤ max ∧
  (truncated_ x = false ↔ str_len (normalize es) ≤ max) ∧
  (truncated_ x = false → text_ x = normalize es).

(** The characters of a text with its entities decoded. *)
Inductive reads : text → list Z → Prop :=
| reads_nil : reads [] []
| reads_entity rest e consumed behind cs :
    decode_entity rest = Some (e, consumed) → str_get rest consumed (str_len rest) = Some behind →
    reads behind cs → reads rest (e :: cs)
| reads_char c rest cs : decode_entity (c :: rest) = None → reads rest cs → reads (c :: rest) (c :: cs).

(** A well-formed article: texts between comments, tags, and elements whose content is
    not shown. *)
Inductive markup :=
| Comment (body : text)
| Tag (body : text)
| Hidden (opening content closing : text).

Definition tag_text (body : text) : text := 60 :: body ++ [62].
Definition markup_text (m : markup) : text :=
  match m with
  | Comment body => str "<!--" ++ body ++ str "-->"
  | Tag body => tag_text body
  | Hidden opening content closing => tag_text opening ++ content ++ tag_text closing
  end.

Definition article := (list (text * markup) * text)%type.
Definition article_text (a : article) : text := concat ((λ '(s, m), s ++ markup_text m) <$> a.1) ++ a.2.

(** A tag ends with its first [>] and does not open a comment. *)
Definition tag_ok (body : text) : Prop := 62 ∉ body ∧ starts_with body (str "!--") = false.
Definition is_closing (body : text) : bool := starts_with (trim body) (str "/").
Definition name_of (body : text) : text := tag_name (trim body).

Definition markup_ok (m : markup) : Prop :=
  match m with
  | Comment body => ∀ u v, body ++ str "--" ≠ u ++ str "-->" ++ v
  | Tag body => tag_ok body ∧ (is_closing body = true ∨ is_suppressed_tag (name_of body) = false)
  | Hidden opening content closing =>
    tag_ok opening ∧ is_closing opening = false ∧ is_suppressed_tag (name_of opening) = true ∧
    60 ∉ content ∧ tag_ok closing ∧ is_closing closing = true ∧ name_of closing = name_of opening
  end.

Definition article_ok (a : article) : Prop :=
  Forall (λ p, 60 ∉ p.1 ∧ markup_ok p.2) a.1 ∧ 60 ∉ a.2.

Definition markup_events (m : markup) : list event :=
  match m with
  | Tag body => if is_block_tag (name_of body) || bool_decide (name_of body = str "br") then [Break] else []
  | _ => []
  end.

(** What an article reads as: the characters of its texts, and the breaks of its tags. *)
Definition article_reads (a : article) (es : list event) : Prop :=
  ∃ parts last, Forall2 (λ p cs, reads p.1 cs) a.1 parts ∧ reads a.2 last ∧
    es = concat (zip_with (λ p cs, (Char <$> cs) ++ markup_events p.2) a.1 parts) ++ (Char <$> last).

Module ZimTextTheorems.

Definition gap_of (t : TextCollector) : gap :=
  if pending_break t then GapBreak else if pending_space t then GapSpace else GapNone.

(** What is still written, behind some output or none. *)
Definition emitted (nonempty : bool) (l : list (gap * Z)) : text :=
  match l with
  | [] => []
  | (g, c) :: l => (if nonempty then gap_text g else []) ++ c :: written l
  end.

Lemma push_raw_truncated c t : truncated t = true → truncated (push_raw c t) = true.
Proof. intros Ht. unfold push_raw. repeat case_match; done. Qed.

Lemma feed_truncated t e : truncated t = true → truncated (feed t e) = true.
Proof.
  intros Ht. destruct e as [c|]; [|done]. simpl. unfold push_char. repeat case_match; try done;
    apply push_raw_truncated; simpl; try done; by apply push_raw_truncated.
Qed.

Lemma feeds_truncated es t : truncated t = true → truncated (foldl feed t es) = true.
Proof. revert t. induction es as [|e es IH]; intros t Ht; [done|]. apply IH. by apply feed_truncated. Qed.

Lemma push_raws_truncated l t : truncated t = true → truncated (foldl (λ t c, push_raw c t) t l) = true.
Proof. revert t. induction l as [|c l IH]; intros t Ht; [done|]. apply IH. by apply push_raw_truncated. Qed.

Lemma push_raw_spec c t :
  max_bytes t ≤ usize_max →
  push_raw c t = if max_bytes t <? str_len (output t ++ [c]) then with_truncated t else with_output (output t ++ [c]) t.
Proof.
  intros Hm. unfold push_raw. rewrite str_len_app. simpl. rewrite Z.add_0_r. unfold checked_add.
  destruct (Z.leb_spec (str_len (output t) + len_utf8 c) usize_max); [done|]. by rewrite (proj2 (Z.ltb_lt _ _)) by lia.
Qed.

(** Characters pushed as they are: all of them, or too many. *)
Lemma push_raws l t :
  truncated t = false → max_bytes t ≤ usize_max → str_len (output t) ≤ max_bytes t →
  (str_len (output t ++ l) ≤ max_bytes t → foldl (λ t c, push_raw c t) t l = with_output (output t ++ l) t) ∧
  (max_bytes t < str_len (output t ++ l) → truncated (foldl (λ t c, push_raw c t) t l) = true).
Proof.
  revert t. induction l as [|c l IH]; intros t Ht Hm Ho; simpl.
  { rewrite app_nil_r. split; [|lia]. intros _. by destruct t. }
  rewrite (app_assoc (output t) [c] l : output t ++ c :: l = _).
  assert (str_len ((output t ++ [c]) ++ l) = str_len (output t ++ [c]) + str_len l) as Hl by apply str_len_app.
  pose proof (str_len_nonneg l). rewrite push_raw_spec by done. destruct (Z.ltb_spec (max_bytes t) (str_len (output t ++ [c]))).
  - split; [lia|]. intros _. by apply push_raws_truncated.
  - apply (IH (with_output (output t ++ [c]) t)); done.
Qed.

Lemma push_char_visible c t :
  is_whitespace c = false → is_control c = false →
  push_char c t = foldl (λ t c, push_raw c t) (with_pending false false t)
    ((if bool_decide (output t ≠ []) then gap_text (gap_of t) else []) ++ [c]).
Proof.
  intros Hw Hc. unfold push_char, gap_of. rewrite Hw, Hc.
  assert (∀ d, with_pending false false (push_raw d t) = push_raw d (with_pending false false t)) as Hcomm.
  { intros d. unfold push_raw. simpl. repeat case_match; done. }
  destruct (pending_break t), (pending_space t), (bool_decide _); simpl; by rewrite ?Hcomm.
Qed.

Lemma feed_gap e h t : event_gap e = Some h →
  (pending_break t = true → pending_space t = false) →
  output (feed t e) = output t ∧ max_bytes (feed t e) = max_bytes t ∧ truncated (feed t e) = truncated t ∧
  gap_of (feed t e) = widen (gap_of t) h ∧ (pending_break (feed t e) = true → pending_space (feed t e) = false).
Proof.
  intros He Hp. destruct t as [o m [] [] tr]; simpl in Hp; try (by specialize (Hp eq_refl));
    (destruct e as [c|]; simpl in He |- *; [|by injection He as <-]);
    (destruct (is_whitespace c) eqn:Hw; [|done]); injection He as <-; unfold push_char, gap_of; rewrite Hw;
    by destruct ((c =? 10) || (c =? 13)).
Qed.

(** The collector writes the annotated characters, up to its limit. *)
Lemma feeds_spec es t :
  truncated t = false → max_bytes t ≤ usize_max → str_len (output t) ≤ max_bytes t →
  (pending_break t = true → pending_space t = false) →
  let o := output t ++ emitted (bool_decide (output t ≠ [])) (annotate (gap_of t) es) in
  let t' := foldl feed t es in
  (str_len o ≤ max_bytes t → output t' = o ∧ truncated t' = false) ∧
  (max_bytes t < str_len o → truncated t' = true).
Proof.
  revert t. induction es as [|e es IH]; intros t Ht Hm Ho Hp; simpl.
  { rewrite app_nil_r. split; [done|lia]. }
  destruct (event_gap e) as [h|] eqn:He.
  { destruct (feed_gap e h t He Hp) as (E1 & E2 & E3 & E4 & E5).
    specialize (IH (feed t e)). rewrite E1, E2, E3, E4 in IH. apply IH; done. }
  destruct e as [c|]; [|done]. simpl in He. destruct (is_whitespace c) eqn:Hw; [done|].
  destruct (is_control c) eqn:Hc.
  { assert (feed t (Char c) = t) as Hf by (simpl; unfold push_char; by rewrite Hw, Hc). rewrite Hf. by apply IH. }
  simpl feed. rewrite push_char_visible by done. set (g := if bool_decide (output t ≠ []) then _ else _).
  destruct (push_raws (g ++ [c]) (with_pending false false t)) as [P1 P2]; [done..|]. simpl in P1, P2.
  assert (output t ++ emitted (bool_decide (output t ≠ [])) ((gap_of t, c) :: annotate GapNone es)
          = (output t ++ g ++ [c]) ++ written (annotate GapNone es)) as ->.
  { unfold emitted. fold g. rewrite <- !app_assoc. done. }
  pose proof (str_len_app (output t ++ g ++ [c]) (written (annotate GapNone es))) as Hl.
  pose proof (str_len_nonneg (written (annotate GapNone es))).
  destruct (Z.le_gt_cases (str_len (output t ++ g ++ [c])) (max_bytes t)) as [Hfit|Hover].
  - rewrite P1 by done. set (t1 := with_output _ _). specialize (IH t1). simpl in IH.
    assert (emitted (bool_decide (output t ++ g ++ [c] ≠ [])) (annotate GapNone es) = written (annotate GapNone es)) as Hem.
    { rewrite bool_decide_eq_true_2 by (intros Hnil%app_nil; by destruct Hnil as [_ [_ ?]%app_nil]).
      destruct (annotate GapNone es) as [|[g' c'] l]; [done|]. unfold written. simpl. by rewrite <- app_assoc. }
    unfold gap_of in IH. simpl in IH. rewrite Hem in IH. apply IH; done.
  - split; [lia|]. intros _. by apply feeds_truncated, P2.
Qed.

(** ** What the collector ends with *)

Lemma push_raw_len c t :
  max_bytes t ≤ usize_max → str_len (output t) ≤ max_bytes t →
  str_len (output (push_raw c t)) ≤ max_bytes t ∧ max_bytes (push_raw c t) = max_bytes t.
Proof. intros Hm Ho. rewrite push_raw_spec by done. destruct (Z.ltb_spec (max_bytes t) (str_len (output t ++ [c]))); done. Qed.

Lemma push_raws_len l t :
  max_bytes t ≤ usize_max → str_len (output t) ≤ max_bytes t →
  str_len (output (foldl (λ t c, push_raw c t) t l)) ≤ max_bytes t ∧ max_bytes (foldl (λ t c, push_raw c t) t l) = max_bytes t.
Proof.
  revert t. induction l as [|c l IH]; intros t Hm Ho; [done|]. simpl.
  destruct (push_raw_len c t Hm Ho) as [H1 H2]. rewrite <- H2 in *. by apply IH.
Qed.

Lemma feed_len e t :
  max_bytes t ≤ usize_max → str_len (output t) ≤ max_bytes t →
  str_len (output (feed t e)) ≤ max_bytes t ∧ max_bytes (feed t e) = max_bytes t.
Proof.
  intros Hm Ho. destruct e as [c|]; [|done]. simpl. destruct (is_whitespace c) eqn:Hw.
  { unfold push_char. rewrite Hw. repeat case_match; done. }
  destruct (is_control c) eqn:Hc; [unfold push_char; by rewrite Hw, Hc|].
  rewrite push_char_visible by done. apply (push_raws_len _ (with_pending false false t)); done.
Qed.

Lemma feeds_len es t :
  max_bytes t ≤ usize_max → str_len (output t) ≤ max_bytes t → str_len (output (foldl feed t es)) ≤ max_bytes t.
Proof.
  revert t. induction es as [|e es IH]; intros t Hm Ho; [done|]. simpl.
  destruct (feed_len e t Hm Ho) as [H1 H2]. rewrite <- H2 in *. by apply IH.
Qed.

Lemma annotate_visible g es : Forall (λ p, is_whitespace p.2 = false ∧ is_control p.2 = false) (annotate g es).
Proof.
  revert g. induction es as [|[c|] es IH]; intros g; simpl; [constructor| |apply IH].
  destruct (is_whitespace c) eqn:Hw; [apply IH|]. destruct (is_control c) eqn:Hc; [apply IH|]. by constructor.
Qed.

Lemma normalize_trimmed es : trim_end_by is_whitespace (normalize es) = normalize es.
Proof.
  unfold normalize. pose proof (annotate_visible GapNone es) as Hv.
  destruct (annotate GapNone es) as [|[g c] l]; [done|].
  assert (∃ o d, c :: written l = o ++ [d] ∧ is_whitespace d = false) as (o & d & -> & Hd).
  { apply Forall_cons in Hv as [[Hc _] Hv]. destruct l as [|[g' c'] l _] using rev_ind; [by exists [], c|].
    exists (c :: written l ++ gap_text g'), c'. apply Forall_app in Hv as [_ [[? _] _]%Forall_cons].
    split; [|done]. unfold written. rewrite fmap_app, concat_app. simpl. by rewrite app_nil_r, <- !app_assoc. }
  unfold trim_end_by. rewrite reverse_snoc, trim_start_by_stop by done. by rewrite reverse_cons, reverse_involutive.
Qed.

Lemma trim_end_len p t : str_len (trim_end_by p t) ≤ str_len t.
Proof.
  unfold trim_end_by. assert (∀ s, str_len (reverse s) = str_len s) as Hr.
  { induction s as [|c s IH]; [done|]. rewrite reverse_cons, str_len_app. simpl. lia. }
  rewrite Hr, <- (Hr t). apply suffix_str_len, trim_start_by_suffix.
Qed.

Lemma collected_text max es :
  0 ≤ max ≤ usize_max → bounded_text max es (finish (foldl feed (collector_new max) es)).
Proof.
  intros Hm. set (t := collector_new max).
  destruct (feeds_spec es t) as [H1 H2]; [done|simpl; lia|simpl; lia|done|].
  assert (output t ++ emitted (bool_decide (output t ≠ [])) (annotate (gap_of t) es) = normalize es) as Hn.
  { unfold normalize, gap_of. simpl. destruct (annotate GapNone es) as [|[g c] l]; [done|].
    done. }
  cbv zeta in H1, H2. rewrite Hn in H1, H2. change (max_bytes t) with max in *.
  unfold bounded_text, finish. cbn [text_ truncated_]. split_and!.
  - etrans; [apply trim_end_len|]. apply (feeds_len es t); simpl; lia.
  - split; [|intros Hf; by apply H1]. intros Hf. destruct (Z.le_gt_cases (str_len (normalize es)) max) as [|Hgt]; [done|].
    rewrite H2 in Hf by done. done.
  - intros Hf. destruct (Z.le_gt_cases (str_len (normalize es)) max) as [Hle|Hgt]; [|by rewrite H2 in Hf].
    destruct (H1 Hle) as [-> _]. apply normalize_trimmed.
Qed.

(** ** Entities *)

Lemma encode_utf8_tail c : ∃ b l, encode_utf8 c = b :: l ∧ Forall (λ x, 128 ≤ x) l.
Proof.
  pose proof (Z.mod_pos_bound c 64 ltac:(lia)). pose proof (Z.mod_pos_bound (c / 64) 64 ltac:(lia)).
  pose proof (Z.mod_pos_bound (c / 4096) 64 ltac:(lia)).
  unfold encode_utf8. repeat case_match; eexists _, _; (split; [done|]); repeat (constructor; [lia|]); constructor.
Qed.

(** An ASCII byte of a text is one of its scalars. *)
Lemma ascii_byte t k b : b < 128 → as_bytes t !! k = Some b → ∃ u v, t = u ++ b :: v ∧ str_len u = Z.of_nat k.
Proof.
  intros Hb. revert k. induction t as [|c t IH]; intros k Hk; [done|]. simpl in Hk.
  destruct (encode_utf8_tail c) as (b0 & l & He & Hl). pose proof (encode_utf8_len c) as Hlen. rewrite He in Hlen.
  apply lookup_app_Some in Hk as [Hk|[Hge Hk]].
  - rewrite He in Hk. destruct k as [|k]; simpl in Hk.
    + injection Hk as ->. exists [], t. split; [|done].
      assert (c = b) as -> by (apply (encode_utf8_head c b Hb); by rewrite He). done.
    + eapply Forall_lookup_1 in Hl; [|exact Hk]. simpl in Hl. lia.
  - apply IH in Hk as (u & v & -> & Hu). exists (c :: u), v. split; [done|]. simpl. rewrite Hu, <- Hlen, <- He. unfold len. lia.
Qed.

Lemma byte_position_lookup b l k : byte_position b l = Some k → 0 ≤ k ∧ l !! Z.to_nat k = Some b.
Proof.
  revert k. induction l as [|x l IH]; intros k; simpl; [done|]. destruct (Z.eqb_spec x b) as [->|].
  - by intros [= <-].
  - intros (j & Hj & ->)%fmap_Some. apply IH in Hj as [? Hj]. split; [lia|]. by replace (Z.to_nat (Z.succ j)) with (S (Z.to_nat j)) by lia.
Qed.

Lemma decode_entity_behind rest e consumed :
  decode_entity rest = Some (e, consumed) →
  ∃ behind, str_get rest consumed (str_len rest) = Some behind ∧ (length behind < length rest)%nat.
Proof.
  unfold decode_entity. destruct (negb _); [done|].
  intros (k & Hk & (body & _ & (c & _ & (n & [-> _]%checked_add_Some & [= <- <-])%bind_Some)%bind_Some)%bind_Some)%bind_Some.
  apply byte_position_lookup in Hk as [Hk0 Hk]. apply lookup_take_Some in Hk as [Hk _].
  apply ascii_byte in Hk as (u & v & -> & Hu); [|done]. exists v. split.
  - replace (k + 1) with (str_len (u ++ 59 :: v) - str_len v).
    + apply str_get_suffix. exists (u ++ [59]). by rewrite <- app_assoc.
    + rewrite str_len_app. cbn [str_len]. change (len_utf8 59) with 1. lia.
  - rewrite length_app. simpl. lia.
Qed.

(** Pushing a text returns, and feeds the characters it reads as. *)
Lemma push_text_reads fuel rest :
  (length rest ≤ fuel)%nat → ∃ cs, reads rest cs ∧ ∀ t, push_text fuel rest t = Ok (foldl feed t (Char <$> cs)).
Proof.
  revert rest. induction fuel as [|fuel IH]; intros [|c rest] Hl; simpl in Hl; try lia;
    try (exists []; split; [constructor|by intros t; destruct fuel]).
  - exists []. split; [constructor|done].
  - destruct (decode_entity (c :: rest)) as [[e consumed]|] eqn:He.
    + destruct (decode_entity_behind _ _ _ He) as (behind & Hb & Hlb). simpl in Hlb.
      destruct (IH behind ltac:(lia)) as (cs & Hr & Hp). exists (e :: cs). split; [by eapply reads_entity|].
      intros t. cbn [push_text]. rewrite He, Hb. simpl. apply Hp.
    + destruct (IH rest ltac:(lia)) as (cs & Hr & Hp). exists (c :: cs). split; [by apply reads_char|].
      intros t. cbn [push_text]. rewrite He. apply Hp.
Qed.

(** ** HTML *)

Lemma find_char_at c a b : c ∉ a → find_char c (a ++ c :: b) = Some (a, c :: b).
Proof.
  induction a as [|x a IH]; intros Ha; simpl; [by rewrite Z.eqb_refl|].
  apply not_elem_of_cons in Ha as [Hx Ha]. rewrite (proj2 (Z.eqb_neq _ _)) by done. by rewrite IH.
Qed.

Lemma find_char_none c a : c ∉ a → find_char c a = None.
Proof.
  induction a as [|x a IH]; intros Ha; simpl; [done|].
  apply not_elem_of_cons in Ha as [Hx Ha]. rewrite (proj2 (Z.eqb_neq _ _)) by done. by rewrite IH.
Qed.

Lemma find_behind_comment body rest :
  (∀ u v, body ++ str "--" ≠ u ++ str "-->" ++ v) → find_behind (str "-->") (body ++ str "-->" ++ rest) = Some rest.
Proof.
  induction body as [|x body IH]; intros Hb; [by destruct rest|].
  cbn [find_behind app]. destruct (starts_with _ _) eqn:Hs.
  - exfalso. apply starts_with_true in Hs as [v Hs]. destruct body as [|y [|z body]]; simpl in Hs; [by injection Hs..|].
    injection Hs as -> -> -> _. by apply (Hb [] (body ++ str "--")).
  - apply IH. intros u v Heq. apply (Hb (x :: u) v). simpl. by rewrite Heq.
Qed.

Lemma html_text_last s : 60 ∉ s →
  ∃ cs, reads s cs ∧ ∀ fuel t, (length s ≤ fuel)%nat → html_loop fuel s None t = Ok (foldl feed t (Char <$> cs)).
Proof.
  intros Hs. destruct (push_text_reads (length s) s) as (cs & Hr & Hp); [done|]. exists cs. split; [done|]. intros fuel t' Hl.
  destruct s as [|c s]; [inversion Hr; subst; [by destruct fuel|]; by inversion H0|].
  destruct fuel as [|fuel]; [simpl in Hl; lia|]. cbn [html_loop]. rewrite find_char_none by done. apply Hp.
Qed.

(** Text in front of a [<] is pushed unless it is not shown. *)
Definition push_before (s : text) (suppressed : option text) (t : TextCollector) : zim TextCollector :=
  match suppressed with None => push_text (length s) s t | Some _ => Ok t end.

(** What a tag does. *)
Definition tag_effect (body : text) (suppressed : option text) (t : TextCollector) : option text * TextCollector :=
  match suppressed with
  | Some s => (if is_closing body && bool_decide (name_of body = s) then None else Some s, t)
  | None =>
    if negb (is_closing body) && is_suppressed_tag (name_of body) then (Some (name_of body), t)
    else (None, if is_block_tag (name_of body) || bool_decide (name_of body = str "br") then push_break t else t)
  end.

Lemma html_comment fuel s body rest suppressed t :
  60 ∉ s → markup_ok (Comment body) →
  html_loop (S fuel) (s ++ markup_text (Comment body) ++ rest) suppressed t =
  (t ← push_before s suppressed t ; html_loop fuel rest suppressed t).
Proof.
  intros Hs Hb. unfold markup_text. rewrite <- !app_assoc. change (str "<!--" ++ ?k) with (60 :: str "!--" ++ k).
  assert (∃ c k, s ++ 60 :: str "!--" ++ body ++ str "-->" ++ rest = c :: k) as (c & k & Heq) by (destruct s; eauto).
  rewrite Heq. cbn [html_loop]. rewrite <- Heq, find_char_at by done. unfold push_before.
  destruct (match suppressed with None => _ | Some _ => _ end) as [t'|]; [|done]. unfold mbind, result_bind at 1 3.
  rewrite (proj2 (starts_with_true (60 :: str "!--" ++ body ++ str "-->" ++ rest) (str "<!--"))) by by eexists.
  change (drop 4 (60 :: str "!--" ++ ?k)) with k. by rewrite (find_behind_comment body rest Hb).
Qed.

Lemma html_tag fuel s body rest suppressed t :
  60 ∉ s → tag_ok body →
  html_loop (S fuel) (s ++ tag_text body ++ rest) suppressed t =
  (t ← push_before s suppressed t ; let '(suppressed, t) := tag_effect body suppressed t in html_loop fuel rest suppressed t).
Proof.
  intros Hs [Hb Hc]. unfold tag_text. cbn [app]. rewrite <- app_assoc. cbn [app].
  assert (∃ c k, s ++ 60 :: body ++ 62 :: rest = c :: k) as (c & k & Heq) by (destruct s; eauto).
  rewrite Heq. cbn [html_loop]. rewrite <- Heq, find_char_at by done. unfold push_before.
  destruct (match suppressed with None => _ | Some _ => _ end) as [t'|]; [|done]. unfold mbind, result_bind at 1 3.
  assert (starts_with (60 :: body ++ 62 :: rest) (str "<!--") = false) as ->.
  { destruct body as [|x [|y [|z body]]]; cbn in *; rewrite ?starts_with_nil, ?andb_false_r in *; done. }
  assert (find_char 62 (60 :: body ++ 62 :: rest) = Some (60 :: body, 62 :: rest)) as ->.
  { apply (find_char_at 62 (60 :: body) rest). rewrite not_elem_of_cons. done. }
  cbn [need ok_or]. unfold result_bind. unfold tag_effect, is_closing, name_of. cbn [drop].
  destruct suppressed as [n|]; [done|]. by destruct (negb _ && _).
Qed.

(** One text and its markup. *)
Lemma html_part s m rest :
  60 ∉ s → markup_ok m →
  ∃ cs, reads s cs ∧ ∀ fuel t, (length (s ++ markup_text m ++ rest) ≤ fuel)%nat →
    ∃ fuel', (length rest ≤ fuel')%nat ∧
      html_loop fuel (s ++ markup_text m ++ rest) None t =
      html_loop fuel' rest None (foldl feed t ((Char <$> cs) ++ markup_events m)).
Proof.
  intros Hs Hm. destruct (push_text_reads (length s) s) as (cs & Hr & Hp); [done|]. exists cs. split; [done|].
  intros fuel t Hl. rewrite foldl_app. rewrite !length_app in Hl. destruct m as [body|body|opening content closing].
  - destruct fuel as [|fuel]; [simpl in Hl; lia|]. exists fuel. simpl in Hl. split; [rewrite length_app in Hl; simpl in Hl; lia|].
    rewrite html_comment by done. simpl. by rewrite Hp.
  - destruct fuel as [|fuel]; [simpl in Hl; lia|]. exists fuel. simpl in Hl. split; [lia|].
    destruct Hm as [Ht Hc]. change (markup_text (Tag body)) with (tag_text body). rewrite html_tag by done. simpl. rewrite Hp. simpl.
    assert (negb (is_closing body) && is_suppressed_tag (name_of body) = false) as ->.
    { destruct Hc as [-> | ->]; [done|apply andb_false_r]. }
    by destruct (is_block_tag (name_of body) || bool_decide (name_of body = str "br")).
  - destruct Hm as (Ho & Hoc & Hos & Hcn & Hc & Hcc & Hn). unfold markup_text in *. rewrite <- !app_assoc in *.
    simpl in Hl. rewrite !length_app in Hl. simpl in Hl. rewrite !length_app in Hl. simpl in Hl.
    destruct fuel as [|[|fuel]]; [lia..|]. exists fuel. split; [lia|].
    rewrite html_tag by done. unfold push_before. rewrite Hp. unfold mbind, result_bind at 1, tag_effect.
    rewrite Hoc, Hos. cbn [negb andb]. rewrite html_tag by done. simpl. rewrite Hcc, Hn, bool_decide_eq_true_2 by done. done.
Qed.

Lemma html_article l last : article_ok (l, last) →
  ∃ es, article_reads (l, last) es ∧ ∀ fuel t, (length (article_text (l, last)) ≤ fuel)%nat →
    html_loop fuel (article_text (l, last)) None t = Ok (foldl feed t es).
Proof.
  intros [Hl Hlast]. simpl in Hl, Hlast. induction l as [|[s m] l IH].
  - destruct (html_text_last last Hlast) as (cs & Hr & Hp). exists (Char <$> cs). split; [|exact Hp].
    exists [], cs. by split; [constructor|].
  - apply Forall_cons in Hl as [[Hs Hm] Hl]. destruct (IH Hl) as (es & (parts & lst & Hf & Hr & ->) & Hp).
    assert (article_text ((s, m) :: l, last) = s ++ markup_text m ++ article_text (l, last)) as Htext.
    { unfold article_text. simpl. by rewrite <- !app_assoc. }
    destruct (html_part s m (article_text (l, last)) Hs Hm) as (cs & Hrs & Hps).
    eexists. split.
    + exists (cs :: parts), lst. split; [by constructor|]. split; [done|]. reflexivity.
    + intros fuel t Hfuel. rewrite Htext in *. destruct (Hps fuel t Hfuel) as (fuel' & Hf' & ->). rewrite Hp by done.
      simpl. by rewrite <- !app_assoc, !foldl_app.
Qed.

(** ** Extraction *)

Lemma find_char_length c t a b : find_char c t = Some (a, b) → (length a + length b = length t ∧ 1 ≤ length b)%nat.
Proof.
  revert a b. induction t as [|x t IH]; intros a b; simpl; [done|]. destruct (x =? c); [intros [= <- <-]; simpl; lia|].
  destruct (find_char c t) as [[a' b']|]; [|done]. intros [= <- <-]. destruct (IH a' b' eq_refl). simpl. lia.
Qed.

Lemma find_behind_length token t b : find_behind token t = Some b → (length b ≤ length t)%nat.
Proof.
  revert b. induction t as [|x t IH]; intros b; cbn [find_behind].
  - destruct (starts_with [] token); [|done]. intros [= <-]. rewrite length_drop. lia.
  - destruct (starts_with _ token); [intros [= <-]; rewrite length_drop; lia|]. intros Hb. apply IH in Hb. simpl. lia.
Qed.

(** The collector within its limit *)
Definition within (m : Z) (t : TextCollector) : Prop := max_bytes t = m ∧ str_len (output t) ≤ m.

Lemma push_text_returns m rest t : m ≤ usize_max → within m t → returns_with (within m) (push_text (length rest) rest t).
Proof.
  intros Hm [<- Ht]. destruct (push_text_reads (length rest) rest) as (cs & _ & Hp); [done|]. rewrite Hp. simpl.
  split; [|by apply feeds_len]. generalize (Char <$> cs). intros es. clear Hp cs rest. revert t Hm Ht.
  induction es as [|e es IH]; intros t Hm Ht; [done|]. simpl. destruct (feed_len e t Hm Ht) as [H1 H2].
  rewrite <- H2 in *. by apply IH.
Qed.

Lemma html_loop_returns m fuel input suppressed t :
  (length input ≤ fuel)%nat → m ≤ usize_max → within m t → returns_with (within m) (html_loop fuel input suppressed t).
Proof.
  intros Hl Hm. revert input suppressed t Hl. induction fuel as [|fuel IH]; intros input suppressed t Hl Ht.
  { destruct input; [done|simpl in Hl; lia]. }
  destruct input as [|c input]; [done|]. cbn [html_loop]. destruct (find_char 60 (c :: input)) as [[before open]|] eqn:Hf.
  2: { destruct suppressed; [done|by apply push_text_returns]. }
  apply find_char_length in Hf as [Hf1 Hf2]. apply (returns_with_bind (within m)).
  { destruct suppressed; [done|by apply push_text_returns]. }
  intros t1 Ht1. destruct (starts_with open _).
  - eapply returns_with_bind; [apply need_returns|]. cbv beta. intros behind Hb%find_behind_length. apply IH; [|done].
    rewrite length_drop in Hb. lia.
  - eapply returns_with_bind; [apply need_returns|]. cbv beta. intros [tag close] Hc. apply find_char_length in Hc as [Hc1 Hc2].
    destruct suppressed; [|case_match]; (apply IH; [rewrite length_drop; lia|]); repeat case_match; simplify_eq; exact Ht1.
Qed.

Lemma extract_returns bytes kind max : 0 ≤ max ≤ usize_max →
  returns_with (λ x, str_len (text_ x) ≤ max) (extract_inert_text bytes kind max).
Proof.
  intros Hm. unfold extract_inert_text. eapply returns_with_bind; [apply need_returns|]. cbv beta. intros input _.
  assert (within max (collector_new max)) as Hw by (split; simpl; lia).
  apply (returns_with_bind (within max)).
  - destruct kind; [apply html_loop_returns; (done || lia)|apply push_text_returns; (done || lia)].
  - intros t [_ Ht]. simpl. etrans; [apply trim_end_len|done].
Qed.

(** C38: Extraction returns on all bytes and keeps its limit. Plain text is read with its
    entities decoded, a well-formed article as its texts and the breaks of its tags
    without comments and hidden elements; the text is their normal form if that fits the
    limit, and is marked as truncated exactly if it does not. *)
Theorem zim_extract_exact bytes max :
  0 ≤ max ≤ usize_max →
  (∀ kind, returns_with (λ x, str_len (text_ x) ≤ max) (extract_inert_text bytes kind max)) ∧
  ∀ input, from_utf8 bytes = Some input →
  (∃ cs x, reads input cs ∧ extract_inert_text bytes PlainText max = Ok x ∧ bounded_text max (Char <$> cs) x) ∧
  (∀ a, article_ok a → input = article_text a →
     ∃ es x, article_reads a es ∧ extract_inert_text bytes Html max = Ok x ∧ bounded_text max es x).
Proof.
  intros Hm. split; [intros kind; by apply extract_returns|].
  intros input Hu. unfold extract_inert_text. rewrite Hu. split.
  - destruct (push_text_reads (length input) input) as (cs & Hr & Hp); [done|]. eexists cs, _. split; [done|].
    simpl. rewrite Hp. simpl. split; [done|]. by apply collected_text.
  - intros [l last] Ha ->. destruct (html_article l last Ha) as (es & Hr & Hp). eexists es, _. split; [done|].
    simpl. unfold extract_html. rewrite Hp by done. simpl. split; [done|]. by apply collected_text.
Qed.

(** A truncated text need not be a prefix of the whole one: a character that is too wide
    is left out, and a narrower one behind it may still fit. *)
Example zim_truncated_text_skips :
  extract_inert_text (as_bytes (str "abcd" ++ [233] ++ str "!")) PlainText 5 = Ok {| text_ := str "abcd!"; truncated_ := true |}.
Proof. vm_compute. reflexivity. Qed.

Definition sample_article : article :=
  ([([], Tag (str "h1")); (str "One &amp; Two", Tag (str "/h1"));
    ([], Hidden (str "script") (str "alert(1)") (str "/script")); ([], Tag (str "p")); (str "Body", Tag (str "/p"))], []).

Lemma zim_extract_exact_witness :
  (∃ cs x, reads (article_text sample_article) cs ∧
     extract_inert_text (as_bytes (article_text sample_article)) PlainText 16 = Ok x ∧ bounded_text 16 (Char <$> cs) x) ∧
  article_ok sample_article ∧
  ∃ es x, article_reads sample_article es ∧
    extract_inert_text (as_bytes (article_text sample_article)) Html 16 = Ok x ∧ bounded_text 16 es x.
Proof.
  assert (article_ok sample_article) as Ha.
  { split; [|apply not_elem_of_nil]. repeat (apply Forall_cons; split); [..|apply Forall_nil; done];
      (split; [apply (bool_decide_unpack _); vm_compute; exact I|]); simpl; unfold tag_ok; split_and!;
      try (apply (bool_decide_unpack _); vm_compute; exact I); try reflexivity; first [left; reflexivity|right; reflexivity]. }
  destruct (zim_extract_exact (as_bytes (article_text sample_article)) 16) as [_ H]; [unfold usize_max, u64_max; lia|].
  destruct (H (article_text sample_article)) as [Hp Hh]; [vm_compute; reflexivity|].
  split; [exact Hp|]. split; [exact Ha|]. exact (Hh sample_article Ha eq_refl).
Defined.
End ZimTextTheorems.
