(* ===== verification/ZimDocuments.v ===== *)
(** * ZimDocuments: from an archive to documents

    Models [build_documents] and the composition of [produce_managed_documents] in
    [information-native-backend-zim/src/reader.rs], with the identifiers of
    [information-native-types/src/lib.rs]. Of a document, the fields that depend on its
    entry are here; the others are copied from the request. SHA-256 in hexadecimal and
    the other crates are parameters. Opening and hashing the file and the contract of
    the whole materialization ([ManagedDocumentsV1]) are not modelled. *)

From S2P Require Import Prelude Bytes Text Utf8 ZimReader ZimClusters ZimText.
Local Open Scope Z_scope.

(** ** Identifiers *)

(** [split('/')] *)
Fixpoint split_slash (t : text) : list text :=
  match t with
  | [] => [[]]
  | c :: t =>
    if c =? 47 then [] :: split_slash t
    else match split_slash t with
         | p :: ps => (c :: p) :: ps
         | [] => [[c]]
         end
  end.

Definition identifier_byte (b : Z) : bool :=
  in_range 48 57 b || in_range 65 90 b || in_range 97 122 b
  || (b =? 46) || (b =? 95) || (b =? 45) || (b =? 47) || (b =? 58) || (b =? 64).

Definition validate_identifier (kind : string) (value : text) : zim unit :=
  fail_if (bool_decide (value = []) || (192 <? str_len value) || starts_with value (str "/")
           || bool_decide (last value = Some 47)
           || existsb (λ s, bool_decide (s = str ".") || bool_decide (s = str "..") || bool_decide (s = [])) (split_slash value))
    (Contract kind value) ;;
  fail_if (negb (forallb identifier_byte (as_bytes value))) (Contract kind value).

Definition managed_id (kind : string) (value : text) : zim text :=
  validate_identifier kind value ;; Ok value.

(** ** Documents *)

(** The loop of [truncate_utf8]: down to a scalar boundary *)
Fixpoint boundary_below (fuel : nat) (value : text) (b : Z) : Z :=
  match fuel with
  | O => b
  | S fuel => match boundary value b with Some _ => b | None => boundary_below fuel value (saturating_sub b 1) end
  end.

Definition truncate_utf8 (value : text) (max_bytes : Z) : zim text :=
  if str_len value <=? max_bytes then Ok value
  else ok_or (str_get value 0 (boundary_below (Z.to_nat max_bytes) value max_bytes)) Panic.

Record ZimDocument := {
  document_id : text;
  segment_id : text;
  document_title : text;
  internal_path : text;
  document_entry : Z;
  source_record_id : text;
  source_record_sha256 : text;
  transformation : text;
  document_text : text;
}.

Definition ZIM_PRODUCER_VERSION : text := str "information.openzim.inert_text.v1".
Definition kind_name (k : ZimTextKind) : text := match k with Html => str "html" | PlainText => str "plain_text" end.

Section Documents.
Context (sha256_hex : list Z → text).

(** The document of a candidate, its blob and the text of it *)
Definition make_document (parsed : ParsedArchive) (c : Candidate) (blob : list Z) (txt : text) : zim ZimDocument :=
  entry ← need (entries parsed !! Z.to_nat (entry_index c))
    (InvalidDirectoryEntry (entry_index c) "entry index is outside the parsed directory") ;
  let internal_path := [namespace entry] ++ str "/" ++ path entry in
  let raw_sha256 := sha256_hex blob in
  let identity_digest := sha256_hex (as_bytes (decimal (entry_index c) ++ [0] ++ internal_path)) in
  short_digest ← need (str_get identity_digest 0 24) IntegerOverflow ;
  document_id ← managed_id "ManagedDocumentId" (str "zim-" ++ decimal (entry_index c) ++ str "-" ++ short_digest) ;
  segment_id ← managed_id "ManagedSegmentId" (str "zim-" ++ decimal (entry_index c) ++ str "-" ++ short_digest ++ str "-0") ;
  title ← truncate_utf8 (if bool_decide (trim (title entry) = []) then path entry else title entry) 8192 ;
  Ok {| document_id := document_id; segment_id := segment_id; document_title := title; internal_path := internal_path;
        document_entry := entry_index c; source_record_id := internal_path ++ str "#" ++ decimal (entry_index c);
        source_record_sha256 := raw_sha256; transformation := ZIM_PRODUCER_VERSION ++ str "; mime=" ++ kind_name (text_kind c);
        document_text := txt |}.

Record Building := {
  documents : list ZimDocument;
  total_text_bytes : Z;
  truncated_article_count : Z;
  build_omissions : ZimOmissions;
}.

Definition omit (f : ZimOmissions → ZimOmissions) (b : Building) : Building :=
  {| documents := documents b; total_text_bytes := total_text_bytes b;
     truncated_article_count := truncated_article_count b; build_omissions := f (build_omissions b) |}.

(** The loop of [build_documents] *)
Fixpoint build_loop (parsed : ParsedArchive) (limits : ZimLimits) (blobs : gmap Z (list Z)) (candidates : list Candidate)
    (b : Building) : zim Building :=
  match candidates with
  | [] => Ok b
  | c :: candidates =>
    match blobs !! entry_index c with
    | None => build_loop parsed limits blobs candidates b
    | Some blob =>
      if (max_documents limits <=? len (documents b)) || (max_total_text_bytes limits <=? total_text_bytes b)
      then build_loop parsed limits blobs candidates (omit (omit_limit 1) b)
      else
        remaining ← u64_sub (max_total_text_bytes limits) (total_text_bytes b) ;
        match extract_inert_text blob (text_kind c) (Z.min (max_article_text_bytes limits) remaining) with
        | Err (Fail InvalidArticleUtf8) | Err (Fail MalformedHtml) =>
          build_loop parsed limits blobs candidates (omit omit_text b)
        | Err e => Err e
        | Ok extracted =>
          if bool_decide (trim (text_ extracted) = []) then build_loop parsed limits blobs candidates (omit omit_text b)
          else
            let truncated_count := if truncated_ extracted then saturating_add u64_max (truncated_article_count b) 1
                                   else truncated_article_count b in
            total ← u64_add (total_text_bytes b) (str_len (text_ extracted)) ;
            document ← make_document parsed c blob (text_ extracted) ;
            build_loop parsed limits blobs candidates
              {| documents := documents b ++ [document]; total_text_bytes := total;
                 truncated_article_count := truncated_count; build_omissions := build_omissions b |}
        end
    end
  end.

Definition build_documents (parsed : ParsedArchive) (limits : ZimLimits) (candidates : list Candidate)
    (blobs : gmap Z (list Z)) (o : ZimOmissions) : zim Building :=
  build_loop parsed limits blobs candidates
    {| documents := []; total_text_bytes := 0; truncated_article_count := 0; build_omissions := o |}.

Context (hex_encode : list Z → text).
Context (zstd : list Z → Z → result string (list (result string (list Z)) * Z)).

(** [produce_managed_documents] on the bytes of an archive that was opened: what it
    parsed, selected and built *)
Definition produce (file : list Z) (limits : ZimLimits) : zim (ParsedArchive * Selection * Building) :=
  limits_validate limits ;;
  parsed ← archive_parse hex_encode file (len file) limits ;
  '(candidates, o) ← collect_candidates parsed limits omissions_default ;
  selected_ ← read_selected_blobs zstd file parsed candidates limits o ;
  built ← build_documents parsed limits candidates (selected selected_) (omissions selected_) ;
  fail_if (bool_decide (documents built = [])) NoMaterializableArticles ;;
  Ok (parsed, selected_, built).
End Documents.

(** * Specification *)

Definition text_bytes (ds : list ZimDocument) : Z := foldr (λ d n, str_len (document_text d) + n) 0 ds.

Module ZimDocumentTheorems.

Lemma sublist_sorted {A} (R : relation A) (k l : list A) : k `sublist_of` l → StronglySorted R l → StronglySorted R k.
Proof.
  induction 1 as [|x k l Hk IH|x k l Hk IH]; intros Hs; [constructor| |]; apply StronglySorted_inv in Hs as [Hs Hx]; [|by apply IH].
  constructor; [by apply IH|]. rewrite Forall_forall in Hx |- *. intros y Hy. apply Hx. by eapply elem_of_sublist.
Qed.

Lemma StronglySorted_fmap {A B} (f : A → B) (R : relation B) l :
  StronglySorted (λ x y, R (f x) (f y)) l ↔ StronglySorted R (f <$> l).
Proof.
  induction l as [|x l IH]; [split; constructor|]. rewrite fmap_cons. split; intros [Hs Hx]%StronglySorted_inv; constructor.
  - by apply IH.
  - apply Forall_fmap. exact Hx.
  - by apply IH.
  - exact (proj1 (Forall_fmap f _ l) Hx).
Qed.

Lemma fmap_NoDup_inj {A B} (f : A → B) l x y : NoDup (f <$> l) → x ∈ l → y ∈ l → f x = f y → x = y.
Proof.
  intros Hn [i Hi]%list_elem_of_lookup [j Hj]%list_elem_of_lookup Hf.
  assert (i = j) as ->; [|congruence]. eapply NoDup_lookup; [exact Hn| |]; rewrite list_lookup_fmap; [by rewrite Hi|by rewrite Hj, Hf].
Qed.

(** The keys of a map are counted by a list that lists each of them once. *)
Lemma count_keys (m : gmap Z (list Z)) cs :
  NoDup (entry_index <$> cs) → (∀ e b, m !! e = Some b → e ∈ entry_index <$> cs) →
  count (λ c, bool_decide (is_Some (m !! entry_index c))) cs = Z.of_nat (size m).
Proof.
  intros Hn Hin. unfold count. set (ks := List.filter _ cs).
  assert (entry_index <$> ks `sublist_of` entry_index <$> cs) as Hsub.
  { subst ks. clear. induction cs as [|c cs IH]; simpl; [constructor|]. case_match; by constructor. }
  assert (NoDup (entry_index <$> ks)) as Hnk by (by eapply sublist_NoDup).
  rewrite <- size_dom. assert (dom m = list_to_set (entry_index <$> ks)) as ->.
  { apply set_eq. intros e. rewrite elem_of_dom, elem_of_list_to_set, list_elem_of_fmap. split.
    - intros [b Hb]. specialize (Hin e b Hb). apply list_elem_of_fmap in Hin as (c & -> & Hc). exists c. split; [done|].
      apply list_elem_of_In, filter_In. split; [by apply list_elem_of_In|]. by apply bool_decide_eq_true.
    - intros (c & -> & Hc). apply list_elem_of_In, filter_In in Hc as [_ Hc]. by apply bool_decide_eq_true in Hc. }
  rewrite size_list_to_set by done. by rewrite length_fmap.
Qed.

(** The classes count every entry. *)
Lemma count_classes classes :
  count_class ClassRedirect classes + count_class ClassLinktarget classes + count_class ClassNamespace classes
  + count_class ClassMime classes + count is_text classes = len classes.
Proof.
  unfold count_class. induction classes as [|c classes IH]; [done|]. rewrite !ZimClusterTheorems.count_cons, len_cons.
  destruct c; simpl; lia.
Qed.

Lemma text_bytes_app ds es : text_bytes (ds ++ es) = text_bytes ds + text_bytes es.
Proof. induction ds as [|d ds IH]; simpl; [done|]. unfold text_bytes in *. lia. Qed.

Section Build.
Context (sha256_hex : list Z → text) (parsed : ParsedArchive) (limits : ZimLimits) (blobs : gmap Z (list Z)) (o : ZimOmissions).

(** A document is that of a candidate: of its entry, with the text of its blob. *)
Definition document_of (cs : list Candidate) (d : ZimDocument) : Prop :=
  ∃ c b max x, c ∈ cs ∧ blobs !! entry_index c = Some b ∧ max ≤ max_article_text_bytes limits ∧
    extract_inert_text b (text_kind c) max = Ok x ∧ trim (text_ x) ≠ [] ∧ str_len (text_ x) ≤ max ∧
    make_document sha256_hex parsed c b (text_ x) = Ok d.

Definition has_blob (c : Candidate) : bool := bool_decide (is_Some (blobs !! entry_index c)).

Record building (seen : list Candidate) (b : Building) : Prop := {
  building_classes : (redirects (build_omissions b), linktargets_or_deleted (build_omissions b),
      non_article_namespaces (build_omissions b), non_text_mime_types (build_omissions b)) =
    (redirects o, linktargets_or_deleted o, non_article_namespaces o, non_text_mime_types o);
  building_counts : 0 ≤ invalid_or_empty_text (build_omissions b) ∧ 0 ≤ document_limit (build_omissions b) ∧
    len (documents b) + invalid_or_empty_text (build_omissions b) + document_limit (build_omissions b) =
    count has_blob seen + invalid_or_empty_text o + document_limit o;
  building_total : total_text_bytes b = text_bytes (documents b) ∧ 0 ≤ total_text_bytes b ≤ max_total_text_bytes limits;
  building_limit : len (documents b) ≤ max_documents limits;
  building_documents : Forall (document_of seen) (documents b);
  building_order : document_entry <$> documents b `sublist_of` entry_index <$> seen;
}.

Lemma make_document_fields c blob txt d :
  make_document sha256_hex parsed c blob txt = Ok d → document_entry d = entry_index c ∧ document_text d = txt.
Proof.
  unfold make_document. intros (e & _ & (dg & _ & (i & _ & (s & _ & (t & _ & [= <-])%bind_Ok)%bind_Ok)%bind_Ok)%bind_Ok)%bind_Ok.
  done.
Qed.

Lemma count_snoc {A} (p : A → bool) l x : count p (l ++ [x]) = count p l + (if p x then 1 else 0).
Proof.
  induction l as [|y l IH]; simpl; rewrite ?ZimClusterTheorems.count_cons, ?IH; [|lia].
  unfold count. simpl. destruct (p x); done.
Qed.

Lemma build_loop_spec cands seen b b' :
  max_total_text_bytes limits ≤ usize_max → 0 ≤ max_article_text_bytes limits →
  len seen + len cands + invalid_or_empty_text o + document_limit o ≤ u64_max → 0 ≤ invalid_or_empty_text o → 0 ≤ document_limit o →
  building seen b → build_loop sha256_hex parsed limits blobs cands b = Ok b' → building (seen ++ cands) b'.
Proof.
  intros Hmt Hma. revert seen b. induction cands as [|c cands IH]; intros seen b Hmax Hi0 Hd0 Hb; simpl.
  { intros [= <-]. by rewrite app_nil_r. }
  rewrite len_cons in Hmax. pose proof (len_nonneg cands). pose proof (len_nonneg seen).
  assert (len (seen ++ [c]) = len seen + 1) as Hsn by by rewrite len_app.
  assert (∀ b1, building (seen ++ [c]) b1 → build_loop sha256_hex parsed limits blobs cands b1 = Ok b' →
    building (seen ++ c :: cands) b') as Hgo.
  { intros b1 Hb1 Hr. apply (IH (seen ++ [c])) in Hr; [|lia|done|done|done]. by rewrite <- app_assoc in Hr. }
  destruct Hb as [B1 (B2 & B3 & B4) (B5 & B6) B7 B8 B9].
  assert (count has_blob seen ≤ len seen) as Hc by (unfold count, len; apply inj_le, filter_length_le).
  pose proof (len_nonneg (documents b)).
  pose proof (count_snoc has_blob seen c) as Hcs.
  assert (Forall (document_of (seen ++ [c])) (documents b)) as B8'.
  { eapply Forall_impl; [exact B8|]. intros d (c' & b0 & m & x & Hin & Hrest). exists c', b0, m, x. split; [|done].
    apply elem_of_app. by left. }
  assert (∀ k, k `sublist_of` entry_index <$> seen → k `sublist_of` entry_index <$> (seen ++ [c])) as B9'.
  { intros k Hk. rewrite fmap_app. by apply sublist_inserts_r. }
  assert (∀ n m, 0 ≤ n → 0 ≤ m → n + m = 1 → has_blob c = true →
    ∀ b1, documents b1 = documents b → total_text_bytes b1 = total_text_bytes b →
    (redirects (build_omissions b1), linktargets_or_deleted (build_omissions b1), non_article_namespaces (build_omissions b1),
      non_text_mime_types (build_omissions b1), invalid_or_empty_text (build_omissions b1), document_limit (build_omissions b1)) =
    (redirects (build_omissions b), linktargets_or_deleted (build_omissions b), non_article_namespaces (build_omissions b),
      non_text_mime_types (build_omissions b), invalid_or_empty_text (build_omissions b) + n, document_limit (build_omissions b) + m) →
    building (seen ++ [c]) b1) as Homit.
  { intros n m Hn Hm Hnm Hhas b1 Ed Et [= E1 E2 E3 E4 E5 E6]. rewrite Hhas in Hcs.
    split; rewrite ?Ed, ?Et, ?E1, ?E2, ?E3, ?E4, ?E5, ?E6, ?Hcs; try done; [lia|by apply B9']. }
  assert (invalid_or_empty_text (build_omissions b) + document_limit (build_omissions b) + 1 ≤ u64_max) as Hroom by lia.
  destruct (blobs !! entry_index c) as [blob|] eqn:Hblob.
  2: { apply Hgo. assert (has_blob c = false) as Hhas by (apply bool_decide_eq_false; rewrite Hblob; by intros [? ?]).
       rewrite Hhas, Z.add_0_r in Hcs. split; rewrite ?Hcs; try done. by apply B9'. }
  assert (has_blob c = true) as Hhas by (apply bool_decide_eq_true; by rewrite Hblob).
  destruct (_ || _) eqn:Hlim.
  { apply Hgo. apply (Homit 0 1); try done. unfold omit, omit_limit. simpl. rewrite ZimClusterTheorems.saturating_add_is by lia. by rewrite Z.add_0_r. }
  assert (building (seen ++ [c]) (omit omit_text b)) as Htext.
  { apply (Homit 1 0); try done. unfold omit, omit_text. simpl. rewrite ZimClusterTheorems.saturating_add_is by lia. by rewrite Z.add_0_r. }
  bool_prop. intros (rem & [-> Hrem]%need_Ok%checked_sub_Some & H')%bind_Ok.
  set (mx := Z.min _ _) in H'. pose proof (ZimTextTheorems.extract_returns blob (text_kind c) mx ltac:(lia)) as Hx.
  destruct (extract_inert_text blob (text_kind c) mx) as [x|[| |err]] eqn:Hex; [|done|done|].
  2: { destruct err; try done; by apply (Hgo (omit omit_text b)). }
  simpl in Hx. destruct (decide (trim (text_ x) = [])) as [Hblank|Hblank].
  { rewrite bool_decide_eq_true_2 in H' by done. by apply (Hgo (omit omit_text b)). }
  rewrite bool_decide_eq_false_2 in H' by done.
  apply bind_Ok in H' as (total & [-> _]%need_Ok%checked_add_Some & (d & Hd & Hr)%bind_Ok).
  refine (Hgo _ _ Hr). rewrite Hhas in Hcs. destruct (make_document_fields _ _ _ _ Hd) as [Hde Hdt].
  pose proof (str_len_nonneg (text_ x)).
  split; cbn [documents total_text_bytes build_omissions]; rewrite ?len_app, ?Hcs; try done.
  - change (len [d]) with 1. lia.
  - rewrite text_bytes_app. unfold text_bytes at 2. simpl. rewrite Hdt. lia.
  - change (len [d]) with 1. lia.
  - apply Forall_app. split; [done|]. constructor; [|done]. exists c, blob, mx, x. split; [apply elem_of_app; right; by left|].
    split_and!; (done || lia).
  - rewrite !fmap_app. apply sublist_app; [done|]. simpl. by rewrite Hde.
Qed.
End Build.

(** C37: Production accounts for every directory entry once: it is a document or is counted
    in one omission, and the counters of redirects, deleted entries, other namespaces and
    other types are exact. A document has the text of its own blob, in the order of the
    directory, and all limits on decoding, selection and text hold. *)
Theorem zim_production_exact sha256_hex hex_encode zstd file limits parsed s b :
  slice_ok file → limits_unsigned limits →
  produce sha256_hex hex_encode zstd file limits = Ok (parsed, s, b) →
  ∃ classes,
    let o := build_omissions b in
    len (entries parsed) = entry_count (header parsed) ∧
    Forall2 (λ e c, entry_class (mime_types parsed) e = Some c) (entries parsed) classes ∧
    redirects o = count_class ClassRedirect classes ∧ linktargets_or_deleted o = count_class ClassLinktarget classes ∧
    non_article_namespaces o = count_class ClassNamespace classes ∧ non_text_mime_types o = count_class ClassMime classes ∧
    len (documents b) + omitted o = entry_count (header parsed) ∧ documents b ≠ [] ∧
    Forall (λ d, ∃ c blob max x,
      candidate_of (mime_types parsed) (entries parsed) c ∧ blob_of zstd file parsed limits c blob ∧
      max ≤ max_article_text_bytes limits ∧ extract_inert_text blob (text_kind c) max = Ok x ∧ trim (text_ x) ≠ [] ∧
      make_document sha256_hex parsed c blob (text_ x) = Ok d) (documents b) ∧
    StronglySorted (λ d e, document_entry d < document_entry e) (documents b) ∧
    len (documents b) ≤ max_documents limits ∧
    total_text_bytes b = text_bytes (documents b) ∧ total_text_bytes b ≤ max_total_text_bytes limits ∧
    total_blob_bytes s ≤ max_total_selected_blob_bytes limits ∧
    total_decoded s ≤ max_total_decoded_cluster_bytes limits ∧ decoded_cluster_count s ≤ max_decoded_clusters limits.
Proof.
  intros Hs Hlu H. unfold limits_unsigned in Hlu. rewrite !Forall_cons in Hlu. destruct_and! Hlu. unfold produce in H.
  apply bind_Ok in H as ([] & Hlv & H). apply bind_Ok in H as (p & Hp & H). apply bind_Ok in H as ([cs o] & Hcs & H).
  apply bind_Ok in H as (s' & Hsel & H). apply bind_Ok in H as (b' & Hb & H).
  apply bind_Ok in H as ([] & Hne%fail_if_Ok%bool_decide_eq_false & [= <- <- <-]).
  unfold limits_validate in Hlv. apply bind_Ok in Hlv as ([] & _ & Hlv%fail_if_Ok). bool_prop.
  destruct (ZimTheorems.archive_parse_parts _ _ _ _ Hs Hp) as (eo & me & Hpp). cbv zeta in Hpp.
  destruct Hpp as ((Hec & _) & (_ & _ & Hle & _) & _ & _ & _ & _ & _ & _ & _ & Hre & _).
  apply ZimTheorems.read_entries_spec in Hre as (es & Hes & _ & Hf); [|constructor]. simpl in Hes. rewrite <- Hes in Hf.
  assert (len (entries p) = entry_count (header p)) as Hn by (apply Forall2_length in Hf; unfold len in *; lia).
  destruct (ZimClusterTheorems.collect_candidates_spec p limits cs o) as (classes & Hcl & C1 & C2 & C3 & C4 & C5 & C50 & C6 & C7 & C8 & C9 & C10);
    [lia|done|done|done|].
  apply Forall2_length in Hcl as Hcll. pose proof (count_classes classes) as Hcc. pose proof (len_nonneg cs).
  assert (∀ c, 0 ≤ count_class c classes) as Hcn by (intros; apply ZimClusterTheorems.count_nonneg).
  assert (len classes = len (entries p)) as Hlc by (unfold len; lia).
  assert (NoDup (map entry_index cs)) as Hnd.
  { apply ZimTheorems.StronglySorted_lt_NoDup. change (map entry_index cs) with (entry_index <$> cs). exact (proj1 (StronglySorted_fmap entry_index Z.lt cs) C8). }
  apply ZimClusterTheorems.read_selected_blobs_spec in Hsel as (S1 & S2 & S3 & S4 & S5 & S6 & S7 & S8 & S9); [|done..|].
  2: { pose proof (Hcn ClassRedirect). pose proof (Hcn ClassLinktarget). pose proof (Hcn ClassNamespace). pose proof (Hcn ClassMime).
       unfold counters_ok, omitted, u64_max, u32_max in *. lia. }
  injection S3 as E1 E2 E3 E4. unfold omitted in S2.
  apply (build_loop_spec sha256_hex p limits (selected s') (omissions s') cs []) in Hb.
  2: { unfold MAX_MANAGED_TEXT_BYTES, usize_max, u64_max in *. lia. }
  2: { done. }
  2: { change (len []) with 0. pose proof (Hcn ClassRedirect). pose proof (Hcn ClassLinktarget). pose proof (Hcn ClassNamespace).
       pose proof (Hcn ClassMime). unfold omitted, u64_max, u32_max in *. lia. }
  2: { done. }
  2: { done. }
  2: { by split. }
  simpl in Hb. destruct Hb as [B1 (B2 & B3 & B4) (B5 & B6) B7 B8 B9]. injection B1 as F1 F2 F3 F4.
  unfold has_blob in B4. rewrite count_keys in B4; [|done|].
  2: { intros e bl He. destruct (S1 e bl He) as (c & Hc & <- & _). by apply list_elem_of_fmap_2. }
  exists classes. cbv zeta. unfold omitted in *.
  split_and!; try done; try lia; try congruence.
  - eapply Forall_impl; [exact B8|]. intros d (c & bl & mx & x & Hc & Hbl & Hmx & Hx & Htr & _ & Hd).
    exists c, bl, mx, x. destruct (S1 _ _ Hbl) as (c' & Hc' & Hcc' & Hof).
    assert (c' = c) as -> by (by eapply (fmap_NoDup_inj entry_index cs)).
    rewrite Forall_forall in C7. split_and!; try done. by apply C7.
  - apply StronglySorted_fmap. eapply sublist_sorted; [exact B9|]. exact (proj1 (StronglySorted_fmap entry_index Z.lt cs) C8).
Qed.

(** ** An archive and its document *)

Definition sample_digest (_ : list Z) : text := replicate 64 97.
Definition sample_zstd (_ : list Z) (_ : Z) : result string (list (result string (list Z)) * Z) := Err "no frame"%string.

Definition sample_production : option (ParsedArchive * Selection * Building) :=
  match produce sample_digest id sample_zstd ZimTheorems.sample_archive limits_default with Ok r => Some r | Err _ => None end.

Example sample_produced :
  match sample_production with
  | Some (_, _, b) => (document_text <$> documents b, document_id <$> documents b, omitted (build_omissions b))
  | None => ([], [], 0)
  end = ([str "hi"], [str "zim-0-aaaaaaaaaaaaaaaaaaaaaaaa"], 1).
Proof. vm_compute. reflexivity. Qed.

Lemma zim_production_exact_witness :
  ∃ parsed s b, produce sample_digest id sample_zstd ZimTheorems.sample_archive limits_default = Ok (parsed, s, b) ∧
    len (documents b) + omitted (build_omissions b) = entry_count (header parsed) ∧
    StronglySorted (λ d e, document_entry d < document_entry e) (documents b).
Proof.
  assert (slice_ok ZimTheorems.sample_archive) as Hs by (apply slice_ok_check; vm_compute; reflexivity).
  assert (limits_unsigned limits_default) as Hl.
  { apply Forall_forall. intros v Hv. vm_compute in Hv. repeat (apply elem_of_cons in Hv as [-> | Hv]; [lia|]). by apply not_elem_of_nil in Hv. }
  destruct sample_production as [[[parsed s] b]|] eqn:Ha; [|vm_compute in Ha; discriminate Ha].
  assert (produce sample_digest id sample_zstd ZimTheorems.sample_archive limits_default = Ok (parsed, s, b)) as Hp.
  { unfold sample_production in Ha. destruct (produce _ _ _ _ _); [congruence|discriminate]. }
  exists parsed, s, b. split; [exact Hp|].
  destruct (zim_production_exact sample_digest id sample_zstd ZimTheorems.sample_archive limits_default parsed s b Hs Hl Hp)
    as (cl & _ & _ & _ & _ & _ & _ & Hn & _ & _ & Ho & _).
  split; [exact Hn|exact Ho].
Defined.
End ZimDocumentTheorems.
